(* ===== verification/_CoqProject ===== *)
-Q . S2P
Prelude.v
Codec.v
Types.v
SmtNode.v
SmtTrie.v
SmtUpdate.v
SmtTree.v
SmtStray.v
SmtProof.v
SmtSound.v
SmtRoots.v
SmtVerify.v
SmtBuild.v
MerkleTree.v
AtomicRing.v
CanonicalChain.v
ChainProofs.v
ChainTheorems.v
RocksStore.v
StoreTheorems.v
AbiCore.v
AbiTx.v
L1Types.v
AbiBatch.v
AbiBatchProofs.v
BatchTheorems.v
AbiAggregator.v
AggregateProofs.v
BundleTheorems.v
RtLock.v
RtState.v
RtAuth.v
RtActions.v
RtProofs.v
RtLedger.v
RtRun.v
RtValue.v
RtBinding.v
RtTheorems.v
ScriptEngine.v
PermScript.v
PermSem.v
PermClaim.v
PermTheorems.v
StateSpaces.v
SchedStore.v
SchedCore.v
SchedProofs.v
SchedCommit.v
SchedPrune.v
SchedMachine.v
SchedSync.v
SchedTheorems.v
SchedFailures.v
SchedAccess.v
SchedSerial.v
SchedShape.v
SchedFlow.v
SchedCalls.v
SchedCounters.v
SchedActions.v
SchedFinish.v
SchedExtend.v
SchedParallel.v
CovEngine.v
CovScript.v
CovSem.v
CovSettle.v
CovLength.v
CovBuild.v
CovInterp.v
CovTheorems.v
CovBundle.v
