(* ===== verification/Prelude.v ===== *)
(** * vprogs: a verification of the state, proof and settlement core

    vprogs runs verifiable programs as a based rollup over Kaspa. A node follows the L1's selected
    chain, schedules the transactions of every block as a batch over versioned resources, keeps the
    resources' hashes in a sparse Merkle tree, proves batches in a zkVM guest, aggregates batch
    proofs into bundles, and settles bundles in a covenant on L1. This library models the code that
    decides what a state root commits to and what a settled proof means, and proves that the parts
    fit together.

    ** The parts and where they are modelled

    - [core/codec] (Codec): bit access, the readers and writers all wire formats use, sort_unique.
    - [core/hashing], [core/types] (Types): hashers, resource ids, access metadata, checkpoints.
    - [core/smt]: nodes and keys (SmtNode); the mathematical trie and its root, against which the
      rest is specified (SmtTrie); the updater and [Tree]'s default methods (SmtUpdate, SmtTree);
      nodes that deletions leave behind (SmtStray); multi-proofs, their verification and the
      recomputation of roots (SmtProof, SmtSound, SmtRoots, SmtVerify); the proof builder
      (SmtBuild).
    - [core/merkle-tree] (MerkleTree): the streaming Merkle builder.
    - [core/atomics] (AtomicRing): the ring buffer, under its single writer.
    - [storage/canonical-chain] (CanonicalChain, ChainProofs, ChainTheorems): canonical bits in
      sealed buckets and a hot zone, copy-on-write snapshots, the manager of block ids. Objects that
      the code shares through reference counts live in an explicit heap.
    - [storage/rocksdb-store] (RocksStore, StoreTheorems): key encodings, version lookups under a
      snapshot, stale markers and pruning, over an ordered key-value store.
    - [state] and the restart code of [storage/types] (StateSpaces): versions, latest and rollback
      pointers, metadata and receipts as keys and values of the column families.
    - [scheduling/scheduler]: state diffs, commits, rollbacks, restores and pruning as write batches
      (SchedStore); the scheduler's checkpoints, cancellation contexts and pruning counters
      (SchedCore); all of it as a state machine against histories of states (SchedProofs,
      SchedCommit, SchedPrune, SchedMachine, SchedTheorems); cancellation and the handshake between
      rollback and pruning (SchedSync); interleavings and restarts that lose state (SchedFailures).
      Parallel execution: the chains of resource accesses, transactions, batches and the calls of
      the threads that resolve them, as steps in any order (SchedAccess), against executing the
      transactions one after the other (SchedSerial); how batches extend the chains (SchedShape),
      the invariant (SchedFlow) and that every call and action keeps it (SchedCalls, SchedCounters,
      SchedActions, SchedFinish, SchedExtend), with the theorems in SchedParallel.
    - [l1/utils], [l1/types] (AbiTx, L1Types): transaction ids, block metadata, settlements found on
      L1.
    - [zk/abi]: errors, packed journals, exits and deposit sinks (AbiCore); the transaction
      processor (AbiTx); the batch processor (AbiBatch, AbiBatchProofs, BatchTheorems); the batch
      aggregator (AbiAggregator, AggregateProofs, BundleTheorems).
    - The RISC Zero guests of [zk/backend/risc0]: the transaction processors' handlers (AbiTx), the
      batch processor's and the aggregator's entry points (AbiBatch, AbiAggregator).
    - [zk/backend/risc0/runtime-processor], the L2 runtime: locks and multisig unlocking (RtLock),
      user and config records with deposits' destinations (RtState), signers, signed messages and
      instructions (RtAuth), actions and the handler (RtActions, RtRun). Its abstract ledger and
      what follows from it are in RtLedger, RtValue and RtBinding, with lemmas in RtProofs and the
      theorems in RtTheorems.
    - [zk/backend/risc0/api], the exits: the permission tree, its redeem script byte by byte and the
      delegate script (PermScript); what the L1's script engine promises, per opcode, with an
      interpreter that keeps the promises (ScriptEngine); the script as a program and the
      withdrawals it accepts (PermSem); claims on a tree of exits (PermClaim, PermTheorems).
    - [zk/backend/risc0/covenant], settlements on L1: the builder's calls, the further opcodes and
      what the engine promises for them (CovEngine); the redeem script of the covenant and that of
      development runs, emitter by emitter (CovScript); what they accept (CovSem, CovSettle) and how
      long they are (CovLength); settlement and bootstrap transactions (CovBuild); an engine that
      keeps the promises (CovInterp). The theorems are in CovTheorems, and composed with the
      aggregator's in CovBundle.

    They interact as follows. The updater reads and writes the tree through the class [NodeStore];
    the in-memory store of SmtTree and the RocksDB store of RocksStore under a canonical-chain
    snapshot implement it. The scheduler commits every batch's diffs through the updater, under the
    chain its manager keeps, and its rollbacks and pruning act on the same store. The proof builder
    reads the same store and its proofs are what the batch processor verifies. The batch processor
    consumes the journals the transaction processor writes and produces the transitions the
    aggregator chains. The runtime is the handler of a transaction processor; the exits of its
    withdrawals are what the aggregator accumulates into a permission tree, whose redeem script the
    settlement pays to. The covenant's script hashes the aggregator's journal out of a transaction,
    so a settled transition is one the guests have proven.

    ** Conventions

    Fallible code returns an [outcome]: a value, the error it returns, or [Panic] where it unwraps,
    indexes out of range, asserts or overflows with checks on. Integers are [Z] within their width,
    written out where it matters ([u32], [wrap]); byte arrays of fixed length are vectors ([array
    n]); byte slices are lists. Loops that are not structural take fuel, and the theorems are about
    the fuel the definitions pass: 257 levels for a tree of 256-bit keys, the length of a buffer
    whose entries are never empty, the number of entries of a map. Code outside the repository is a
    class or an argument: hash functions ([Hasher], [Blake3Keyed]), zerocopy and UTF-8 ([CastText]),
    the ordered key-value store of RocksDB, the L1 node's sequencing hashes and lane tree
    ([SeqCommit], [LaneSmt]), its script parser ([ParseScript]) and script engine ([ScriptEngine]),
    signature checks ([K256]), BLAKE2b ([Blake2b]) and the zkVM's proof verification (an argument of
    the guests, [ZkPrecompiles] in scripts), with the script builder and the constants that
    [build.rs] of the covenant generates ([ScriptBuilder], [Groth16Consts]). The search for a
    script's own length takes fuel, and three rounds are shown to be enough. No hash is assumed
    injective: the theorems that need it name the inputs that must not collide, and every such
    theorem has a witness that computes.

    ** What the theorems show

    - State tree: an update returns the root of the updated map and stores what it committed to, for
      one batch and for sequences of batches; the forms of deletion for which this fails.
    - Multi-proofs: the builder's proofs decode and answer the queried keys; membership claims and
      the recomputed post-state root of an accepted proof are those of the committed map, when its
      siblings are pinned and its leaves routed, and how a proof that is not can cheat.
    - Chain and store: snapshots are sets of ids that do not change under later writes; the manager
      assigns ids and restarts from its entries; lookups return the newest visible version; after a
      reorganization no orphaned write is visible; the cases where a returning block or pruning
      breaks this.
    - Scheduler: in every reachable state the store holds all states that are not pruned, and every
      operation that is due succeeds; commits, rollbacks, restores and pruning passes do to the
      state what they promise; a rollback cancels the batches above its target and pruning stays out
      of its way; restarts and interleavings after which data is lost or a root is wrong.
    - Parallel execution, of batches scheduled before the first rollback and not restored from the
      store: in every interleaving of threads and workers no step fails, there is no endless run, a
      processed batch takes every resource from the state before it to the state after it of the
      sequential execution, and when nothing can run any more everything is executed and committed.
    - Data structures: the ring is a deque, the streaming Merkle root is that of the padded complete
      tree and binds its leaves.
    - Transactions: journal and host output agree on what the handler did, and carry the version
      error of a transaction that is not executed.
    - Batches and bundles: an accepted batch is the settlement of its transactions in order on the
      ledger of the pre-state; honest batches are accepted; an accepted bundle is a chain of
      batches, and composed with the batch guest the sequential settlement of all of them.
    - Runtime: the guest never panics; a transaction succeeds exactly if its actions are steps of
      the abstract ledger; value is conserved up to deposits and withdrawals; resources change only
      as their locks allow; a signed message binds the transaction; multisig locks open exactly at
      their threshold; locks have one wire form.
    - Exits: accumulation commits to the redeem script of the padded tree and never panics; the
      script accepts exactly the withdrawals of its specification; every exit can be claimed and
      leaves the tree with the rest; two ways in which the script lets a spender do more than that.
    - Settlements: the covenant's script accepts exactly the settlements of its specification; the
      transactions that the host builds are accepted if their proofs are; a chain of settlements of
      32-byte states is a chain of proven transitions that keeps the covenant's value, end to end,
      for batch journals of the batch guest and without collisions, the sequential execution of all
      its batches; how a settlement can leave a state that nobody proved.
    - Codecs: multi-proofs, exit destinations and settlements on L1 decode to exactly what was
      encoded.

    ** Not modelled

    The bridge's view of the L1 chain ([l1/bridge]) is deterministic code that can be modelled in
    the same style. Of the covenant, the metering of its scripts is left out, and the cap of the
    script builder on redeem scripts, which they do not reach with verifying keys of up to 5000
    bytes ([redeem_below_cap]). The conditions under which the scheduler's operations are due
    ([SchedMachine.step]) are those of its callers and threads; the code does not check them, and
    where it lets them be broken SchedFailures shows what happens: a pass above the last commit, a
    finalization during a pass. Parallel execution is modelled with sequentially consistent cells
    and with references that stay alive; weaker memory orders, the work-stealing queues and parking
    of the worker pools, latches that wake tasks and lock-free reads of the ring during writes are
    not modelled. A commit of the parallel model is one step that moves the latest data; what else
    it writes is in the store's model. A rollback ends a run of the parallel model: batches
    scheduled after it are those of a new run on the store it leaves, with contexts of their own;
    batches restored from the store do not execute and are modelled at the store only. RPC, proving
    services, command line, wallet, simulation, tests and procedural macros are input and output.
    [transaction-runtime] holds interfaces of an earlier runtime with no behaviour. *)

From Stdlib Require Export ZArith Lia Sorted.
From Stdlib Require Strings.Byte.
From stdpp Require Export base tactics gmap vector strings sorting numbers.
From stdpp Require Export list.
Abbreviation byte := Byte.byte.

(** ** Outcomes: a value, a recoverable error, or a panic *)

Inductive outcome (E A : Type) : Type :=
| Ok (a : A)
| Err (e : E)
| Panic.
Arguments Ok {E A} _.
Arguments Err {E A} _.
Arguments Panic {E A}.

#[export] Instance outcome_ret {E} : MRet (outcome E) := fun A a => Ok a.
#[export] Instance outcome_bind {E} : MBind (outcome E) := fun A B k c =>
  match c with
  | Ok a => k a
  | Err e => Err e
  | Panic => Panic
  end.
#[export] Instance outcome_fmap {E} : FMap (outcome E) := fun A B f c =>
  match c with
  | Ok a => Ok (f a)
  | Err e => Err e
  | Panic => Panic
  end.

(** [Option::ok_or]. *)
Definition ok_or {E A} (o : option A) (e : E) : outcome E A :=
  match o with Some a => Ok a | None => Err e end.

(** [Option::expect] and slice indexing: absence is a panic. *)
Definition expect {E A} (o : option A) : outcome E A :=
  match o with Some a => Ok a | None => Panic end.

(** [Result::expect] and [unwrap]: an error is a panic. *)
Definition unwrap {E F A} (c : outcome E A) : outcome F A :=
  match c with Ok a => Ok a | _ => Panic end.

(** [assert!]: a false condition is a panic. *)
Definition assert {E} (b : bool) : outcome E unit :=
  if b then Ok tt else Panic.

Definition is_ok {E A} (c : outcome E A) : bool :=
  match c with Ok _ => true | _ => false end.

(** Runs a fallible step on every element, collecting the results in order. *)
Fixpoint mapM_outcome {E A B} (f : A -> outcome E B) (l : list A) : outcome E (list B) :=
  match l with
  | [] => Ok []
  | x :: l => y ← f x; ys ← mapM_outcome f l; Ok (y :: ys)
  end.

Lemma unwrap_inv {E F A} (c : outcome E A) a : unwrap (F := F) c = Ok a -> c = Ok a.
Proof. by destruct c; intros [=]; subst. Qed.

Lemma bind_Ok {E A B} (c : outcome E A) (k : A -> outcome E B) b :
  (c ≫= k) = Ok b <-> exists a, c = Ok a /\ k a = Ok b.
Proof.
  split; [|by intros (a & -> & ?)].
  destruct c as [a|e|]; [by exists a | discriminate | discriminate].
Qed.

Lemma ok_or_Ok {E A} (o : option A) (e : E) a : ok_or o e = Ok a <-> o = Some a.
Proof. destruct o; cbn; naive_solver. Qed.

Lemma expect_Ok {E A} (o : option A) a : @expect E A o = Ok a <-> o = Some a.
Proof. destruct o; cbn; naive_solver. Qed.

Lemma assert_Ok {E} b u : @assert E b = Ok u <-> b = true.
Proof. destruct b, u; cbn; naive_solver. Qed.

Lemma mapM_outcome_Ok {E A B} (f : A -> outcome E B) l ys :
  mapM_outcome f l = Ok ys <-> Forall2 (fun x y => f x = Ok y) l ys.
Proof.
  revert ys; induction l as [|x l IH]; intros ys; cbn.
  - split; [intros [= <-]; constructor | by inversion 1].
  - rewrite bind_Ok; split.
    + intros (y & Hy & Hk). apply bind_Ok in Hk as (ys' & Hys & [= <-]).
      constructor; [done | by apply IH].
    + inversion 1 as [|? y ? ys' Hy Hys]; subst. exists y; split; [done|].
      apply IH in Hys. by rewrite Hys.
Qed.

Lemma Ok_inj {E A} (a b : A) : @Ok E A a = Ok b -> a = b.
Proof. congruence. Qed.

Lemma fmap_fst_Ok {E A B} (c : outcome E (A * B)) a : fst <$> c = Ok a <-> exists b, c = Ok (a, b).
Proof. destruct c as [[x b]| |]; cbn; naive_solver. Qed.

(** Inverts the successful run of a monadic step: every bind becomes its equation. *)
Ltac inv_ok :=
  repeat match goal with
  | H : Ok _ = Ok _ |- _ => injection H as H; try subst
  | H : Err _ = Ok _ |- _ => discriminate H
  | H : Panic = Ok _ |- _ => discriminate H
  | H : unwrap _ = Ok _ |- _ => apply unwrap_inv in H
  | H : mret _ = Ok _ |- _ => change (mret ?a) with (@Ok _ _ a) in H
  | H : (_ ≫= _) = Ok _ |- _ =>
      let x := fresh "x" in let Hx := fresh "Hx" in
      apply bind_Ok in H as (x & Hx & H); cbn beta in H
  | H : ok_or _ _ = Ok _ |- _ => apply ok_or_Ok in H
  | H : expect _ = Ok _ |- _ => apply expect_Ok in H
  | H : assert _ = Ok _ |- _ => apply assert_Ok in H
  end.

(** A computation that does not panic. *)
Definition safe {E A} (c : outcome E A) : Prop := c <> Panic.

Lemma safe_Ok {E A} (a : A) : safe (@Ok E A a).
Proof. done. Qed.
Lemma safe_Err {E A} (e : E) : safe (@Err E A e).
Proof. done. Qed.
Lemma safe_bind {E A B} (c : outcome E A) (k : A -> outcome E B) :
  safe c -> (forall a, c = Ok a -> safe (k a)) -> safe (c ≫= k).
Proof. unfold safe. destruct c; cbn; auto. Qed.
Lemma safe_ok_or {E A} (o : option A) (e : E) : safe (ok_or o e).
Proof. by destruct o. Qed.
Lemma safe_expect {E A} (o : option A) : is_Some o -> safe (@expect E A o).
Proof. by intros [a ->]. Qed.
Lemma safe_if {E A} (b : bool) (c d : outcome E A) : (b = true -> safe c) -> (b = false -> safe d) -> safe (if b then c else d).
Proof. destruct b; auto. Qed.

Create HintDb safe discriminated.
#[export] Hint Constants Opaque : safe.
#[export] Hint Resolve safe_Ok safe_Err safe_bind safe_ok_or safe_expect safe_if : safe.

(** ** Bytes and fixed-size arrays

    A Rust [u8] is [byte]; [&[u8]] and [Vec<u8>] are [list byte]; [[u8; N]] is
    [vec byte N], so that array lengths are facts of the type. *)

Module byte.
(** The value of a byte, and the byte of the low eight bits of an integer. *)
Definition unsigned (b : byte) : Z := Z.of_N (Byte.to_N b).
Definition of_Z (z : Z) : byte :=
  match Byte.of_N (Z.to_N (z `mod` 256)) with Some b => b | None => Byte.x00 end.

Lemma unsigned_range b : (0 <= unsigned b < 256)%Z.
Proof. unfold unsigned. pose proof (Byte.to_N_bounded b). lia. Qed.

Lemma of_Z_unsigned b : of_Z (unsigned b) = b.
Proof.
  unfold of_Z. rewrite Z.mod_small by apply unsigned_range.
  unfold unsigned. by rewrite N2Z.id, Byte.of_to_N.
Qed.

Lemma unsigned_of_Z z : unsigned (of_Z z) = (z `mod` 256)%Z.
Proof.
  pose proof (Z.mod_pos_bound z 256). unfold of_Z, unsigned.
  destruct (Byte.of_N _) as [b|] eqn:E.
  - apply Byte.to_of_N in E. rewrite E, Z2N.id by lia. done.
  - apply Byte.of_N_None_iff in E. lia.
Qed.

Lemma unsigned_inj b1 b2 : unsigned b1 = unsigned b2 -> b1 = b2.
Proof. intros H. rewrite <- (of_Z_unsigned b1), H. apply of_Z_unsigned. Qed.
End byte.

Abbreviation bytes := (list byte).
Abbreviation array n := (vec byte n).

#[export] Instance byte_eq_dec : EqDecision byte := Byte.byte_eq_dec.
#[export] Program Instance byte_countable : Countable byte :=
  inj_countable Byte.to_N Byte.of_N _.
Next Obligation. apply Byte.of_to_N. Qed.

(** The array of a list of the right length; arrays are countable through it, by a transparent
    instance, so that maps keyed by arrays evaluate. *)
Fixpoint array_of_list (n : nat) (l : bytes) : option (array n) :=
  match n, l with
  | O, [] => Some [#]
  | S n, x :: l => Vector.cons x <$> array_of_list n l
  | _, _ => None
  end.

Lemma array_of_vec_to_list n (v : array n) : array_of_list n (vec_to_list v) = Some v.
Proof. induction v as [|x n v IH]; cbn; [done|]. by rewrite IH. Qed.

Lemma vec_to_list_of_list n l (v : array n) : array_of_list n l = Some v -> vec_to_list v = l.
Proof.
  revert l v. induction n as [|n IH]; intros [|x l] v; cbn; try done; [by intros [= <-]|].
  destruct (array_of_list n l) as [w|] eqn:E; [|done]. intros [= <-]. cbn. f_equal. by apply IH.
Qed.

#[export] Instance array_countable n : Countable (array n) | 0 :=
  inj_countable vec_to_list (array_of_list n) (array_of_vec_to_list n).

Lemma vec_to_list_eq {A n} (v w : vec A n) : vec_to_list v = vec_to_list w <-> v = w.
Proof. split; [apply vec_to_list_inj2 | by intros ->]. Qed.

(** [split_first_chunk::<N>]: the first [n] bytes as an array and the rest. *)
Fixpoint split_first_chunk (n : nat) (l : bytes) : option (array n * bytes) :=
  match n with
  | O => Some ([#], l)
  | S n =>
      match l with
      | [] => None
      | b :: l => '(v, r) ← split_first_chunk n l; Some (b ::: v, r)
      end
  end.

Lemma split_first_chunk_app n (v : array n) r :
  split_first_chunk n (vec_to_list v ++ r) = Some (v, r).
Proof. induction v as [|b n v IH]; cbn; [done|]. by rewrite IH. Qed.

Lemma split_first_chunk_Some n l v r :
  split_first_chunk n l = Some (v, r) <-> l = vec_to_list v ++ r.
Proof.
  split; [|intros ->; apply split_first_chunk_app].
  revert l v r; induction n as [|n IH]; intros l v r; cbn.
  - intros [= <- <-]. done.
  - destruct l as [|b l]; [done|].
    destruct (split_first_chunk n l) as [[v' r']|] eqn:E; cbn; [|done].
    intros [= <- <-]. cbn. by rewrite (IH _ _ _ E).
Qed.

Lemma split_first_chunk_None n l :
  split_first_chunk n l = None <-> length l < n.
Proof.
  revert l; induction n as [|n IH]; intros l; cbn; [split; [done | lia]|].
  destruct l as [|b l]; cbn; [split; [lia | done]|].
  destruct (split_first_chunk n l) as [[v r]|] eqn:E; cbn.
  - split; [done|]. intros H. assert (length l < n) by lia.
    assert (split_first_chunk n l = None) as E' by (apply IH; lia). congruence.
  - split; [|done]. intros _. apply IH in E. lia.
Qed.

(** In-place update of one array cell; out of range it does nothing. *)
Fixpoint valter {A n} (f : A -> A) (i : nat) (v : vec A n) : vec A n :=
  match v with
  | [#] => [#]
  | x ::: v => match i with O => f x ::: v | S i => x ::: valter f i v end
  end.

Lemma vec_to_list_valter {A n} (f : A -> A) i (v : vec A n) :
  vec_to_list (valter f i v) = alter f i (vec_to_list v).
Proof. revert i; induction v as [|x n v IH]; intros [|i]; cbn; [done..|]. by rewrite IH. Qed.

(** [[x; N]]-style literals: the array whose [i]-th byte is [f i]. *)
Fixpoint array_init (n : nat) (f : nat -> byte) : array n :=
  match n with
  | O => [#]
  | S n => f 0 ::: array_init n (fun i => f (S i))
  end.

(** *** Big-endian values and the lexicographic order *)

Fixpoint be_value (l : bytes) : Z :=
  match l with
  | [] => 0
  | x :: l => byte.unsigned x * 256 ^ Z.of_nat (length l) + be_value l
  end.

(** [Ord] on byte slices: lexicographic. *)
Fixpoint bytes_cmp (a b : bytes) : comparison :=
  match a, b with
  | [], [] => Eq
  | [], _ :: _ => Lt
  | _ :: _, [] => Gt
  | x :: a, y :: b =>
      match (byte.unsigned x ?= byte.unsigned y)%Z with
      | Eq => bytes_cmp a b
      | c => c
      end
  end.

Definition bytes_ltb (a b : bytes) : bool :=
  match bytes_cmp a b with Lt => true | _ => false end.
Definition bytes_leb (a b : bytes) : bool :=
  match bytes_cmp a b with Gt => false | _ => true end.

Lemma bytes_cmp_Eq a b : bytes_cmp a b = Eq -> a = b.
Proof.
  revert b; induction a as [|x a IH]; intros [|y b]; cbn; try done.
  destruct (Z.compare_spec (byte.unsigned x) (byte.unsigned y)) as [E| |]; try done.
  intros H. f_equal; [by apply byte.unsigned_inj|auto].
Qed.

Lemma bytes_cmp_antisym a b : bytes_cmp b a = CompOpp (bytes_cmp a b).
Proof.
  revert b; induction a as [|x a IH]; intros [|y b]; cbn; try done.
  rewrite (Z.compare_antisym (byte.unsigned x)). destruct (_ ?= _)%Z; cbn; auto.
Qed.

Lemma bytes_leb_total a b : bytes_leb a b = false -> bytes_leb b a = true.
Proof. unfold bytes_leb. rewrite (bytes_cmp_antisym a b). by destruct (bytes_cmp a b). Qed.

Lemma bytes_leb_trans a b c : bytes_leb a b = true -> bytes_leb b c = true -> bytes_leb a c = true.
Proof.
  unfold bytes_leb. revert b c; induction a as [|x a IH]; intros [|y b] [|z c]; cbn; try done.
  specialize (IH b c).
  destruct (Z.compare_spec (byte.unsigned x) (byte.unsigned y));
  destruct (Z.compare_spec (byte.unsigned y) (byte.unsigned z));
  destruct (Z.compare_spec (byte.unsigned x) (byte.unsigned z)); done || lia.
Qed.

Lemma bytes_leb_ltb a b : bytes_leb a b = true -> a <> b -> bytes_ltb a b = true.
Proof.
  unfold bytes_leb, bytes_ltb. intros H Hne. destruct (bytes_cmp a b) eqn:E; [|done..].
  by apply bytes_cmp_Eq in E.
Qed.

Lemma byte_bound b : (0 <= byte.unsigned b < 256)%Z.
Proof. apply byte.unsigned_range. Qed.

Lemma be_value_bound l : (0 <= be_value l < 256 ^ Z.of_nat (length l))%Z.
Proof.
  induction l as [|x l IH]; cbn [be_value length]; [lia|].
  rewrite Nat2Z.inj_succ, Z.pow_succ_r by lia.
  pose proof (byte_bound x). nia.
Qed.

Lemma digit_lt x y P a b :
  (0 <= a < P -> 0 <= b < P -> x < y -> x * P + a < y * P + b)%Z.
Proof. intros. assert (x * P + P <= y * P)%Z by nia. lia. Qed.

Lemma digit_inj x y P a b :
  (0 <= a < P -> 0 <= b < P -> x * P + a = y * P + b -> x = y /\ a = b)%Z.
Proof.
  intros Ha Hb Heq. destruct (Z.lt_total x y) as [Hl|[->|Hl]].
  - pose proof (digit_lt x y P a b). lia.
  - lia.
  - pose proof (digit_lt y x P b a). lia.
Qed.

Lemma be_value_app a b : be_value (a ++ b) = (be_value a * 256 ^ Z.of_nat (length b) + be_value b)%Z.
Proof.
  induction a as [|x a IH]; cbn [be_value app]; [done|].
  rewrite IH, length_app, Nat2Z.inj_add, Z.pow_add_r by lia. lia.
Qed.

Lemma be_value_inj a b : length a = length b -> be_value a = be_value b -> a = b.
Proof.
  revert b; induction a as [|x a IH]; intros [|y b] Hl Hv; try discriminate; [done|].
  injection Hl as Hl.
  cbn [be_value] in Hv. rewrite <- Hl in Hv.
  pose proof (be_value_bound a). pose proof (be_value_bound b). rewrite <- Hl in *.
  apply digit_inj in Hv as [Hx Hab]; [|done..].
  f_equal; [by apply byte.unsigned_inj | by apply IH].
Qed.

Lemma bytes_cmp_be a b :
  length a = length b -> bytes_cmp a b = (be_value a ?= be_value b)%Z.
Proof.
  revert b; induction a as [|x a IH]; intros [|y b] Hl; try discriminate; [done|].
  injection Hl as Hl.
  cbn [bytes_cmp be_value]. rewrite (IH b Hl), <- Hl.
  pose proof (be_value_bound a). pose proof (be_value_bound b). rewrite <- Hl in *.
  destruct (Z.compare_spec (byte.unsigned x) (byte.unsigned y)) as [->|Hlt|Hlt].
  - destruct (Z.compare_spec (be_value a) (be_value b)); symmetry;
      [apply Z.compare_eq_iff | apply Z.compare_lt_iff | apply Z.compare_gt_iff]; lia.
  - symmetry; apply Z.compare_lt_iff. by apply digit_lt.
  - symmetry; apply Z.compare_gt_iff. by apply digit_lt.
Qed.

Lemma bytes_ltb_be a b :
  length a = length b -> bytes_ltb a b = (be_value a <? be_value b)%Z.
Proof. intros H. unfold bytes_ltb, Z.ltb. by rewrite bytes_cmp_be. Qed.

Lemma bytes_leb_be a b :
  length a = length b -> bytes_leb a b = (be_value a <=? be_value b)%Z.
Proof. intros H. unfold bytes_leb, Z.leb. by rewrite bytes_cmp_be. Qed.

(** ** Slices: [partition_point] and stable sorting *)

(** The loop of the standard library's [binary_search_by] as [partition_point] runs it:
    the number of iterations depends on [size] only. *)
Fixpoint pp_loop {A} (p : A -> bool) (l : list A) (fuel size base : nat) : nat :=
  match fuel with
  | O => base
  | S fuel =>
      if size <=? 1 then base
      else
        let half := size / 2 in
        let mid := base + half in
        let base' := match l !! mid with
                     | Some x => if p x then mid else base
                     | None => base
                     end in
        pp_loop p l fuel (size - half) base'
  end.

Definition partition_point {A} (p : A -> bool) (l : list A) : nat :=
  let base := pp_loop p l (length l) (length l) 0 in
  match l !! base with
  | Some x => if p x then S base else base
  | None => base
  end.

Lemma half_bounds n : 1 < n -> 0 < n / 2 < n /\ n / 2 + n / 2 <= n.
Proof.
  intros. pose proof (Nat.Div0.mul_div_le n 2).
  split; [split; [apply Nat.div_str_pos; lia | apply Nat.div_lt; lia] | lia].
Qed.

Lemma pp_loop_bound {A} (p : A -> bool) l fuel size base :
  0 < size -> base + size <= length l -> pp_loop p l fuel size base < length l.
Proof.
  revert size base; induction fuel as [|fuel IH]; intros size base Hs Hb; cbn [pp_loop]; [lia|].
  destruct (Nat.leb_spec size 1); [lia|].
  pose proof (half_bounds size). apply IH; [lia|].
  destruct (l !! (base + size / 2)) as [x|]; [destruct (p x)|]; lia.
Qed.

(** [partition_point] never leaves the slice, partitioned or not. *)
Lemma partition_point_le {A} (p : A -> bool) l : partition_point p l <= length l.
Proof.
  unfold partition_point. destruct l as [|y l]; [done|].
  pose proof (pp_loop_bound p (y :: l) (length (y :: l)) (length (y :: l)) 0) as H.
  destruct ((y :: l) !! _) as [x|]; [destruct (p x)|]; cbn in *; lia.
Qed.

Section partitioned.
Context {A : Type} (p : A -> bool) (l1 l2 : list A).
Context (H1 : Forall (fun x => p x = true) l1) (H2 : Forall (fun x => p x = false) l2).

Lemma partitioned_true i x : (l1 ++ l2) !! i = Some x -> p x = true -> i < length l1.
Proof using H2.
  intros Hx Hp. destruct (Nat.lt_ge_cases i (length l1)) as [|Hge]; [done|].
  rewrite lookup_app_r in Hx by lia.
  rewrite Forall_lookup in H2. specialize (H2 _ _ Hx). congruence.
Qed.

Lemma partitioned_false i x : (l1 ++ l2) !! i = Some x -> p x = false -> length l1 <= i.
Proof using H1.
  intros Hx Hp. destruct (Nat.lt_ge_cases i (length l1)) as [Hlt|]; [|done].
  rewrite lookup_app_l in Hx by lia.
  rewrite Forall_lookup in H1. specialize (H1 _ _ Hx). congruence.
Qed.

Lemma pp_loop_spec fuel size base :
  size <= S fuel -> 0 < size -> base + size <= length (l1 ++ l2) ->
  (base = 0 \/ base < length l1) -> length l1 <= base + size ->
  let r := pp_loop p (l1 ++ l2) fuel size base in
  (r = 0 \/ r < length l1) /\ length l1 <= S r.
Proof using H1 H2.
  revert size base; induction fuel as [|fuel IH]; intros size base Hf Hs Hb Hlo Hhi; cbn [pp_loop].
  { split; [done | lia]. }
  destruct (Nat.leb_spec size 1); [split; [done | lia]|].
  pose proof (half_bounds size).
  destruct ((l1 ++ l2) !! (base + size / 2)) as [x|] eqn:E.
  - destruct (p x) eqn:Hp.
    + pose proof (partitioned_true _ _ E Hp). apply IH; lia.
    + pose proof (partitioned_false _ _ E Hp). apply IH; lia.
  - apply lookup_ge_None in E. lia.
Qed.

(** On a partitioned slice the result is the length of the [true] prefix. *)
Lemma partition_point_app : partition_point p (l1 ++ l2) = length l1.
Proof using H1 H2.
  unfold partition_point.
  destruct (decide (length (l1 ++ l2) = 0)) as [H0|H0].
  { rewrite length_app in H0. destruct l1, l2; try done; cbn in *; lia. }
  destruct (pp_loop_spec (length (l1 ++ l2)) (length (l1 ++ l2)) 0) as [Ha Hb];
    [lia|lia|lia|lia|rewrite length_app; lia|].
  pose proof (pp_loop_bound p (l1 ++ l2) (length (l1 ++ l2)) (length (l1 ++ l2)) 0) as Hr.
  set (r := pp_loop p (l1 ++ l2) (length (l1 ++ l2)) (length (l1 ++ l2)) 0) in *.
  destruct ((l1 ++ l2) !! r) as [x|] eqn:E; [|apply lookup_ge_None in E; lia].
  destruct (p x) eqn:Hp.
  - pose proof (partitioned_true _ _ E Hp). lia.
  - pose proof (partitioned_false _ _ E Hp). lia.
Qed.
End partitioned.

(** Insertion sort. An element goes before the ones it is not greater than, so equal
    elements keep their order: the stable sort of [slice::sort_by]. *)
Fixpoint insert_by {A} (leb : A -> A -> bool) (x : A) (l : list A) : list A :=
  match l with
  | [] => [x]
  | y :: l => if leb x y then x :: y :: l else y :: insert_by leb x l
  end.
Definition sort_by {A} (leb : A -> A -> bool) (l : list A) : list A :=
  foldr (insert_by leb) [] l.

Lemma insert_by_perm {A} (leb : A -> A -> bool) x l : insert_by leb x l ≡ₚ x :: l.
Proof.
  induction l as [|y l IH]; cbn; [done|].
  destruct (leb x y); [done|]. rewrite IH. constructor.
Qed.

Lemma sort_by_perm {A} (leb : A -> A -> bool) l : sort_by leb l ≡ₚ l.
Proof. induction l as [|x l IH]; cbn; [done|]. by rewrite insert_by_perm, IH. Qed.

Section sorted.
Context {A : Type} (leb : A -> A -> bool).
Context (leb_total : forall x y, leb x y = false -> leb y x = true).
Context (leb_trans : forall x y z, leb x y = true -> leb y z = true -> leb x z = true).

Lemma insert_by_sorted x l :
  StronglySorted (fun a b => leb a b = true) l ->
  StronglySorted (fun a b => leb a b = true) (insert_by leb x l).
Proof using leb_total leb_trans.
  induction 1 as [|y l Hl IH Hy]; cbn; [repeat constructor|].
  destruct (leb x y) eqn:E.
  - constructor; [by constructor|]. constructor; [done|].
    eapply Forall_impl; [exact Hy|]. eauto.
  - constructor; [done|]. rewrite insert_by_perm. constructor; [by apply leb_total | done].
Qed.

Lemma sort_by_sorted l : StronglySorted (fun a b => leb a b = true) (sort_by leb l).
Proof using leb_total leb_trans.
  induction l as [|x l IH]; cbn; [constructor|]. by apply insert_by_sorted.
Qed.
End sorted.

Lemma StronglySorted_app_inv {A} (R : A -> A -> Prop) l1 l2 :
  StronglySorted R (l1 ++ l2) ->
  StronglySorted R l1 /\ StronglySorted R l2 /\ (forall x y, x ∈ l1 -> y ∈ l2 -> R x y).
Proof.
  induction l1 as [|x l1 IH]; cbn.
  - intros H. split; [constructor|]. split; [done|]. intros x y Hx. by apply not_elem_of_nil in Hx.
  - intros H. apply StronglySorted_inv in H as [H Hx].
    apply IH in H as (Ha & Hb & Hc). apply Forall_app in Hx as [Hx1 Hx2].
    split; [by constructor|]. split; [done|].
    intros a b Ha' Hb'. apply elem_of_cons in Ha' as [->|Ha']; [|by apply Hc].
    rewrite Forall_forall in Hx2. by apply Hx2.
Qed.

(** A slice sorted by [R] is partitioned by any predicate that [R] never turns off. *)
Lemma monotone_partition {A} (R : A -> A -> Prop) (f : A -> bool) l :
  StronglySorted R l ->
  (forall a b, a ∈ l -> b ∈ l -> R a b -> f a = true -> f b = true) ->
  exists l1 l2, l = l1 ++ l2 /\ Forall (fun x => f x = false) l1 /\ Forall (fun x => f x = true) l2.
Proof.
  induction 1 as [|a l Hl IH Ha]; intros Hf; [by exists [], []|].
  rewrite Forall_forall in Ha. destruct (f a) eqn:E.
  - exists [], (a :: l). split; [done|]. split; [done|]. constructor; [done|].
    apply Forall_forall. intros b Hb. apply (Hf a); [set_solver..|by apply Ha|done].
  - destruct IH as (l1 & l2 & -> & H1 & H2); [intros x y Hx Hy; apply (Hf x y); by right|].
    exists (a :: l1), l2. split; [done|]. split; [by constructor | done].
Qed.

(** [partition_point] with a predicate that can panic: only the probed elements are tested. *)
Fixpoint pp_loop_m {E A} (p : A -> outcome E bool) (l : list A) (fuel size base : nat)
    : outcome E nat :=
  match fuel with
  | O => Ok base
  | S fuel =>
      if size <=? 1 then Ok base
      else
        let half := size / 2 in
        let mid := base + half in
        base' ← match l !! mid with
                | Some x => b ← p x; Ok (if b : bool then mid else base)
                | None => Ok base
                end;
        pp_loop_m p l fuel (size - half) base'
  end.

Definition partition_point_m {E A} (p : A -> outcome E bool) (l : list A) : outcome E nat :=
  base ← pp_loop_m p l (length l) (length l) 0;
  match l !! base with
  | Some x => b ← p x; Ok (if b : bool then S base else base)
  | None => Ok base
  end.

Lemma pp_loop_m_total {E A} (p : A -> outcome E bool) (q : A -> bool) l fuel size base :
  (forall x, x ∈ l -> p x = Ok (q x)) ->
  pp_loop_m p l fuel size base = Ok (pp_loop q l fuel size base).
Proof.
  intros Hp. revert size base; induction fuel as [|fuel IH]; intros size base; [done|].
  cbn [pp_loop_m pp_loop]. destruct (size <=? 1); [done|].
  destruct (l !! (base + size / 2)) as [x|] eqn:Ex; [|apply IH].
  rewrite Hp by (by eapply list_elem_of_lookup_2). apply IH.
Qed.

Lemma partition_point_m_total {E A} (p : A -> outcome E bool) (q : A -> bool) l :
  (forall x, x ∈ l -> p x = Ok (q x)) -> partition_point_m p l = Ok (partition_point q l).
Proof.
  intros Hp. unfold partition_point_m, partition_point. rewrite (pp_loop_m_total p q) by done.
  cbn [mbind outcome_bind]. destruct (l !! _) as [x|] eqn:Ex; [|done].
  by rewrite Hp by (by eapply list_elem_of_lookup_2).
Qed.

Lemma pp_loop_m_bound {E A} (p : A -> outcome E bool) l fuel size base n :
  pp_loop_m p l fuel size base = Ok n -> base < length l -> n < length l.
Proof.
  revert size base; induction fuel as [|fuel IH]; intros size base; cbn [pp_loop_m].
  { intros [= <-]. done. }
  destruct (size <=? 1); [intros [= <-]; done|]. intros Hn Hb. inv_ok.
  destruct (l !! (base + size / 2)) as [y|] eqn:Ey; inv_ok; [|by eapply IH].
  apply lookup_lt_Some in Ey. eapply IH; [exact Hn|]. by destruct x0.
Qed.

Lemma partition_point_m_le {E A} (p : A -> outcome E bool) l n :
  partition_point_m p l = Ok n -> n <= length l.
Proof.
  unfold partition_point_m. intros Hn. inv_ok.
  destruct l as [|y l]; [cbn in Hx; inv_ok; cbn in Hn; inv_ok; done|].
  apply pp_loop_m_bound in Hx; [|cbn; lia].
  destruct ((y :: l) !! x) as [z|]; inv_ok; [destruct x0|]; lia.
Qed.
