(* ===== verification/Codec.v ===== *)
(** * Codec: the wire-format primitives of [core/codec]

    [Bits] (bitwise access on byte slices), the self-advancing [Reader] (here a parser
    over the remaining bytes), the [Writer] and [SortUnique]. *)

From S2P Require Import Prelude.

(** ** error.rs *)

(** [Error]; the text of a zerocopy failure is that library's and is not kept. *)
Inductive Error :=
| Decode (field : string)
| ZeroCopy.

Abbreviation Result := (outcome Error).

(** ** Integers on the wire *)

Definition u8 (z : Z) : Prop := (0 <= z < 2 ^ 8)%Z.
Definition u16 (z : Z) : Prop := (0 <= z < 2 ^ 16)%Z.
Definition u32 (z : Z) : Prop := (0 <= z < 2 ^ 32)%Z.
Definition u64 (z : Z) : Prop := (0 <= z < 2 ^ 64)%Z.

(** [to_le_bytes] and [from_le_bytes]. *)
Fixpoint le_split (n : nat) (z : Z) : array n :=
  match n with
  | O => [#]
  | S n => byte.of_Z z ::: le_split n (z / 256)
  end.
Fixpoint le_combine (l : bytes) : Z :=
  match l with
  | [] => 0
  | b :: l => byte.unsigned b + 256 * le_combine l
  end.

(** [to_be_bytes]; [from_be_bytes] is [be_value]. *)
Fixpoint be_split (n : nat) (z : Z) : array n :=
  match n with
  | O => [#]
  | S n => byte.of_Z (z / 256 ^ Z.of_nat n) ::: be_split n z
  end.

Lemma le_combine_split n z :
  le_combine (vec_to_list (le_split n z)) = (z `mod` 256 ^ Z.of_nat n)%Z.
Proof.
  revert z; induction n as [|n IH]; intros z; [cbn; by rewrite Z.mod_1_r|].
  cbn [le_split vec_to_list le_combine].
  rewrite IH, byte.unsigned_of_Z, Nat2Z.inj_succ, Z.pow_succ_r by lia.
  rewrite Z.rem_mul_r by lia. done.
Qed.

Lemma be_value_split n z :
  be_value (vec_to_list (be_split n z)) = (z `mod` 256 ^ Z.of_nat n)%Z.
Proof.
  induction n as [|n IH]; [cbn; by rewrite Z.mod_1_r|].
  cbn [be_split vec_to_list be_value].
  rewrite IH, byte.unsigned_of_Z, length_vec_to_list, Nat2Z.inj_succ, Z.pow_succ_r by lia.
  rewrite (Z.mul_comm 256), Z.rem_mul_r by lia. lia.
Qed.

Lemma le_combine_split_small n z :
  (0 <= z < 256 ^ Z.of_nat n)%Z -> le_combine (vec_to_list (le_split n z)) = z.
Proof. intros. by rewrite le_combine_split, Z.mod_small. Qed.

Lemma be_value_split_small n z :
  (0 <= z < 256 ^ Z.of_nat n)%Z -> be_value (vec_to_list (be_split n z)) = z.
Proof. intros. by rewrite be_value_split, Z.mod_small. Qed.

Lemma le_combine_bound l : (0 <= le_combine l < 256 ^ Z.of_nat (length l))%Z.
Proof.
  induction l as [|b l IH]; cbn [le_combine length]; [lia|].
  rewrite Nat2Z.inj_succ, Z.pow_succ_r by lia. pose proof (byte_bound b). lia.
Qed.

Lemma le_split_combine n (v : array n) : le_split n (le_combine (vec_to_list v)) = v.
Proof.
  induction v as [|b n v IH]; [done|]. cbn [vec_to_list le_combine le_split].
  pose proof (byte_bound b). rewrite (Z.mul_comm 256), Z.div_add, Z.div_small, Z.add_0_l, IH by lia. f_equal.
  apply byte.unsigned_inj. rewrite byte.unsigned_of_Z, Z.mod_add, Z.mod_small by lia. done.
Qed.

(** ** bits.rs *)
Module Bits.

Definition get_msb (l : bytes) (index : nat) : bool :=
  match l !! (index / 8) with
  | Some b =>
      (Z.land (Z.shiftr (byte.unsigned b) (Z.of_nat (7 - index mod 8))) 1 =? 1)%Z
  | None => false
  end.

Definition get_lsb (l : bytes) (index : nat) : bool :=
  match l !! (index / 8) with
  | Some b => (Z.land (Z.shiftr (byte.unsigned b) (Z.of_nat (index mod 8))) 1 =? 1)%Z
  | None => false
  end.

(** [b | 1 << k] on a byte. *)
Definition or_bit (k : nat) (b : byte) : byte :=
  byte.of_Z (Z.lor (byte.unsigned b) (Z.shiftl 1 (Z.of_nat k))).

Definition set_msb (l : bytes) (index : nat) : bytes :=
  alter (or_bit (7 - index mod 8)) (index / 8) l.

Definition set_lsb (l : bytes) (index : nat) : bytes :=
  alter (or_bit (index mod 8)) (index / 8) l.

Definition shares_prefix (a b : bytes) (bits : nat) : bool :=
  let needed := (bits + 7) / 8 in
  if (length a <? needed) || (length b <? needed) then false
  else
    let whole := bits / 8 in
    if negb (bool_decide (take whole a = take whole b)) then false
    else
      let rem := bits mod 8 in
      (rem =? 0) ||
      match a !! whole, b !! whole with
      | Some x, Some y =>
          (Z.shiftr (byte.unsigned x) (Z.of_nat (8 - rem)) =?
           Z.shiftr (byte.unsigned y) (Z.of_nat (8 - rem)))%Z
      | _, _ => false
      end.

(** A masked and shifted bit is [Z.testbit]. *)
Lemma land_shiftr_testbit z k : (0 <= k)%Z -> (Z.land (Z.shiftr z k) 1 =? 1)%Z = Z.testbit z k.
Proof.
  intros Hk. rewrite (Z.land_ones _ 1) by lia. change (2 ^ 1)%Z with 2%Z.
  rewrite <- Z.bit0_mod, Z.shiftr_spec by lia. rewrite Z.add_0_l. by destruct (Z.testbit z k).
Qed.

Lemma byte_testbit_high b k : (8 <= k)%Z -> Z.testbit (byte.unsigned b) k = false.
Proof.
  intros Hk. pose proof (byte_bound b).
  rewrite <- (Z.mod_small (byte.unsigned b) (2 ^ 8)) by lia.
  by apply Z.mod_pow2_bits_high.
Qed.

Lemma byte_bits_eq x y :
  x = y <-> forall k, k < 8 -> Z.testbit (byte.unsigned x) (Z.of_nat k)
                         = Z.testbit (byte.unsigned y) (Z.of_nat k).
Proof.
  split; [by intros ->|]. intros H. apply byte.unsigned_inj, Z.bits_inj'. intros n Hn.
  destruct (Z.lt_ge_cases n 8); [|by rewrite !byte_testbit_high].
  replace n with (Z.of_nat (Z.to_nat n)) by lia. apply H. lia.
Qed.

Lemma get_msb_head x l i :
  i < 8 -> get_msb (x :: l) i = Z.testbit (byte.unsigned x) (Z.of_nat (7 - i)).
Proof.
  intros Hi. unfold get_msb. rewrite Nat.div_small, Nat.mod_small by lia. cbn.
  apply land_shiftr_testbit. lia.
Qed.

Lemma get_msb_tail x l i : get_msb (x :: l) (8 + i) = get_msb l i.
Proof.
  unfold get_msb. replace (8 + i) with (i + 1 * 8) by lia.
  rewrite Nat.div_add, Nat.Div0.mod_add by lia.
  replace (i / 8 + 1) with (S (i / 8)) by lia. done.
Qed.

Lemma get_msb_overflow l i : 8 * length l <= i -> get_msb l i = false.
Proof.
  intros H. unfold get_msb. rewrite (proj2 (lookup_ge_None l (i / 8))); [done|].
  apply Nat.div_le_lower_bound; lia.
Qed.

Lemma get_lsb_overflow l i : 8 * length l <= i -> get_lsb l i = false.
Proof.
  intros H. unfold get_lsb. rewrite (proj2 (lookup_ge_None l (i / 8))); [done|].
  apply Nat.div_le_lower_bound; lia.
Qed.

Lemma testbit_hi x v n k :
  (0 <= v < 2 ^ n -> 0 <= n -> 0 <= k -> Z.testbit (x * 2 ^ n + v) (k + n) = Z.testbit x k)%Z.
Proof.
  intros Hv Hn Hk. rewrite <- Z.div_pow2_bits by lia. f_equal.
  rewrite Z.div_add_l, Z.div_small by lia. lia.
Qed.

Lemma testbit_lo x v n k :
  (0 <= v < 2 ^ n -> 0 <= k < n -> Z.testbit (x * 2 ^ n + v) k = Z.testbit v k)%Z.
Proof.
  intros Hv Hk. rewrite <- (Z.mod_pow2_bits_low (x * 2 ^ n + v) n) by lia. f_equal.
  rewrite Z.add_comm, Z.mod_add by lia. by apply Z.mod_small.
Qed.

(** MSB-first bit [i] of a slice is a bit of its big-endian value. *)
Lemma get_msb_be l i :
  i < 8 * length l ->
  get_msb l i = Z.testbit (be_value l) (Z.of_nat (8 * length l - 1 - i)).
Proof.
  revert i; induction l as [|x l IH]; intros i Hi; cbn [length] in *; [lia|].
  cbn [be_value]. pose proof (be_value_bound l) as Hb.
  assert (256 ^ Z.of_nat (length l) = 2 ^ Z.of_nat (8 * length l))%Z as Hp.
  { rewrite Nat2Z.inj_mul, Z.pow_mul_r by lia. done. }
  rewrite Hp in *.
  destruct (Nat.lt_ge_cases i 8) as [Hlt|Hge].
  - rewrite get_msb_head by done.
    replace (Z.of_nat (8 * S (length l) - 1 - i))
      with (Z.of_nat (7 - i) + Z.of_nat (8 * length l))%Z by lia.
    by rewrite testbit_hi by lia.
  - replace i with (8 + (i - 8)) at 1 by lia. rewrite get_msb_tail, IH by lia.
    rewrite testbit_lo by lia. f_equal. lia.
Qed.

(** Two equally long slices agree on every MSB-first bit only when they are equal. *)
Lemma get_msb_inj a b :
  length a = length b -> (forall i, i < 8 * length a -> get_msb a i = get_msb b i) -> a = b.
Proof.
  revert b; induction a as [|x a IH]; intros [|y b] Hl H; try discriminate; [done|].
  injection Hl as Hl. cbn [length] in H. f_equal.
  - apply byte_bits_eq. intros k Hk. specialize (H (7 - k) ltac:(lia)).
    rewrite !get_msb_head in H by lia. by replace (7 - (7 - k)) with k in H by lia.
  - apply IH; [done|]. intros i Hi. specialize (H (8 + i) ltac:(lia)).
    by rewrite !get_msb_tail in H.
Qed.

Lemma or_bit_testbit k b m :
  k < 8 -> m < 8 ->
  Z.testbit (byte.unsigned (or_bit k b)) (Z.of_nat m)
  = (m =? k) || Z.testbit (byte.unsigned b) (Z.of_nat m).
Proof.
  intros Hk Hm. unfold or_bit. rewrite byte.unsigned_of_Z.
  rewrite (Z.mod_pow2_bits_low _ 8) by lia.
  rewrite Z.lor_spec, Z.shiftl_1_l, Z.pow2_bits_eqb by lia. rewrite orb_comm. f_equal.
  destruct (Nat.eqb_spec m k), (Z.eqb_spec (Z.of_nat k) (Z.of_nat m)); try done; lia.
Qed.

Lemma div_mod_8_inj i j : i / 8 = j / 8 -> i mod 8 = j mod 8 -> i = j.
Proof. intros. rewrite (Nat.div_mod_eq i 8), (Nat.div_mod_eq j 8). congruence. Qed.

(** Both conventions at once: [pos] is the bit of its byte an index addresses. *)
Lemma get_set_pos (pos : nat -> nat) l i j :
  (forall k, pos k < 8) -> (forall k, pos i = pos k -> i mod 8 = k mod 8) ->
  let get l k := match l !! (k / 8) with
                 | Some b => (Z.land (Z.shiftr (byte.unsigned b) (Z.of_nat (pos k))) 1 =? 1)%Z
                 | None => false
                 end in
  get (alter (or_bit (pos i)) (i / 8) l) j = ((i <? 8 * length l) && (j =? i)) || get l j.
Proof.
  intros Hpos Hinj get. unfold get. rewrite list_lookup_alter.
  pose proof (Nat.div_mod_eq i 8). pose proof (Nat.mod_upper_bound i 8).
  destruct (decide (i / 8 = j / 8)) as [Hd|Hd].
  - rewrite <- Hd. destruct (l !! (i / 8)) as [b|] eqn:E; cbn [fmap option_fmap option_map].
    + apply lookup_lt_Some in E.
      rewrite (proj2 (Nat.ltb_lt i (8 * length l))) by lia.
      rewrite !land_shiftr_testbit, or_bit_testbit by (done || lia). f_equal. rewrite andb_true_l.
      destruct (Nat.eqb_spec j i) as [->|Hne]; [by rewrite Nat.eqb_refl|].
      apply Nat.eqb_neq. intros Heq. apply Hne. symmetry. apply div_mod_8_inj; [done|].
      by apply Hinj.
    + apply lookup_ge_None in E. by rewrite (proj2 (Nat.ltb_ge i (8 * length l))) by lia.
  - destruct (Nat.eqb_spec j i) as [->|]; [done|]. by rewrite andb_false_r.
Qed.

(** The setters set their own bit and keep every other one; out of range they are no-ops. *)
Lemma get_set_msb l i j :
  get_msb (set_msb l i) j = ((i <? 8 * length l) && (j =? i)) || get_msb l j.
Proof.
  apply (get_set_pos (fun k => 7 - k mod 8)); [intros; lia|].
  intros k. pose proof (Nat.mod_upper_bound i 8). pose proof (Nat.mod_upper_bound k 8). lia.
Qed.

Lemma get_set_lsb l i j :
  get_lsb (set_lsb l i) j = ((i <? 8 * length l) && (j =? i)) || get_lsb l j.
Proof.
  apply (get_set_pos (fun k => k mod 8)); [|done].
  intros k. by apply Nat.mod_upper_bound.
Qed.

Lemma length_set_msb l i : length (set_msb l i) = length l.
Proof. apply length_alter. Qed.
Lemma length_set_lsb l i : length (set_lsb l i) = length l.
Proof. apply length_alter. Qed.

(** High bits of two bytes agree exactly when the shifted bytes do. *)
Lemma shiftr_bits x y rem :
  rem <= 8 ->
  (Z.shiftr (byte.unsigned x) (Z.of_nat (8 - rem))
   = Z.shiftr (byte.unsigned y) (Z.of_nat (8 - rem)))%Z
  <-> (forall i, i < rem -> Z.testbit (byte.unsigned x) (Z.of_nat (7 - i))
                      = Z.testbit (byte.unsigned y) (Z.of_nat (7 - i))).
Proof.
  intros Hr. split.
  - intros H i Hi. apply (f_equal (fun z => Z.testbit z (Z.of_nat (rem - 1 - i)))) in H.
    rewrite !Z.shiftr_spec in H by lia.
    by replace (Z.of_nat (rem - 1 - i) + Z.of_nat (8 - rem))%Z
      with (Z.of_nat (7 - i)) in H by lia.
  - intros H. apply Z.bits_inj'. intros n Hn. rewrite !Z.shiftr_spec by lia.
    destruct (Z.lt_ge_cases (n + Z.of_nat (8 - rem)) 8); [|by rewrite !byte_testbit_high].
    specialize (H (7 - Z.to_nat (n + Z.of_nat (8 - rem))) ltac:(lia)).
    by replace (Z.of_nat (7 - (7 - Z.to_nat (n + Z.of_nat (8 - rem)))))
      with (n + Z.of_nat (8 - rem))%Z in H by lia.
Qed.

Lemma shares_prefix_small x a y b bits :
  bits < 8 ->
  shares_prefix (x :: a) (y :: b) bits = true
  <-> (forall i, i < bits -> get_msb (x :: a) i = get_msb (y :: b) i).
Proof.
  intros Hb. unfold shares_prefix.
  assert ((bits + 7) / 8 <= 1) as Hn by (apply Nat.lt_succ_r, Nat.Div0.div_lt_upper_bound; lia).
  rewrite (proj2 (Nat.ltb_ge _ _)), (proj2 (Nat.ltb_ge _ _)) by (cbn [length]; lia).
  rewrite Nat.div_small, Nat.mod_small by lia. cbn -[Nat.sub].
  rewrite bool_decide_eq_true_2 by done. cbn -[Nat.sub].
  rewrite orb_true_iff, Nat.eqb_eq, Z.eqb_eq, shiftr_bits by lia.
  assert ((forall i, i < bits -> get_msb (x :: a) i = get_msb (y :: b) i)
    <-> (forall i, i < bits -> Z.testbit (byte.unsigned x) (Z.of_nat (7 - i))
                         = Z.testbit (byte.unsigned y) (Z.of_nat (7 - i)))) as ->.
  { split; intros H i Hi; specialize (H i Hi); by rewrite ?get_msb_head in * by lia. }
  split; [|by right]. intros [->|]; [lia | done].
Qed.

Lemma shares_prefix_step x a y b bits :
  shares_prefix (x :: a) (y :: b) (8 + bits) = bool_decide (x = y) && shares_prefix a b bits.
Proof.
  unfold shares_prefix. cbn [length].
  replace ((8 + bits + 7) / 8) with (S ((bits + 7) / 8))
    by (replace (8 + bits + 7) with (bits + 7 + 1 * 8) by lia; rewrite Nat.div_add by lia; lia).
  replace ((8 + bits) / 8) with (S (bits / 8))
    by (replace (8 + bits) with (bits + 1 * 8) by lia; rewrite Nat.div_add by lia; lia).
  replace ((8 + bits) mod 8) with (bits mod 8)
    by (replace (8 + bits) with (bits + 1 * 8) by lia; by rewrite Nat.Div0.mod_add by lia).
  generalize ((bits + 7) / 8) (bits / 8) (bits mod 8). intros n w m.
  change (S (length a) <? S n) with (length a <? n).
  change (S (length b) <? S n) with (length b <? n).
  destruct (_ || _); [by rewrite andb_false_r|]. cbn [take lookup list_lookup].
  destruct (decide (x = y)) as [->|Hne].
  - rewrite (bool_decide_eq_true_2 (y = y)) by done. rewrite andb_true_l.
    rewrite (bool_decide_ext (y :: take w a = y :: take w b) (take w a = take w b)); [done|].
    split; [by intros [= ->] | by intros ->].
  - rewrite (bool_decide_eq_false_2 (x = y)) by done. rewrite bool_decide_eq_false_2; [done|].
    by intros [= ? _].
Qed.

(** [shares_prefix] decides agreement on the first [bits] MSB-first bits. *)
Lemma shares_prefix_spec a b bits :
  bits <= 8 * length a -> bits <= 8 * length b ->
  shares_prefix a b bits = true <-> (forall i, i < bits -> get_msb a i = get_msb b i).
Proof.
  revert b bits; induction a as [|x a IH]; intros b bits Ha Hb.
  - cbn in Ha. replace bits with 0 by lia. split; [lia|]. intros _. by destruct b.
  - destruct b as [|y b].
    { cbn in Hb. replace bits with 0 by lia. split; [lia|]. done. }
    destruct (Nat.lt_ge_cases bits 8) as [Hlt|Hge]; [by apply shares_prefix_small|].
    replace bits with (8 + (bits - 8)) by lia. set (n := bits - 8).
    rewrite shares_prefix_step, andb_true_iff, bool_decide_eq_true, IH
      by (cbn in *; lia).
    split.
    + intros [-> H] i Hi. destruct (Nat.lt_ge_cases i 8); [by rewrite !get_msb_head|].
      replace i with (8 + (i - 8)) by lia. rewrite !get_msb_tail. apply H. lia.
    + intros H. split.
      * apply byte_bits_eq. intros k Hk. specialize (H (7 - k) ltac:(lia)).
        rewrite !get_msb_head in H by lia. by replace (7 - (7 - k)) with k in H by lia.
      * intros i Hi. specialize (H (8 + i) ltac:(lia)). by rewrite !get_msb_tail in H.
Qed.

(** A positive answer covers the bits it was asked about, whatever their number. *)
Lemma shares_prefix_true a b bits i :
  shares_prefix a b bits = true -> i < bits -> get_msb a i = get_msb b i.
Proof.
  intros Hs. apply shares_prefix_spec; [..|exact Hs]; unfold shares_prefix in Hs;
    destruct (length a <? (bits + 7) / 8) eqn:Ea, (length b <? (bits + 7) / 8) eqn:Eb; try done;
    apply Nat.ltb_ge in Ea, Eb;
    pose proof (Nat.div_mod_eq (bits + 7) 8); pose proof (Nat.mod_upper_bound (bits + 7) 8); lia.
Qed.
End Bits.

(** ** Parsers

    A [Reader] method consumes a prefix of the remaining bytes: [parser A] takes the bytes
    left in the buffer to the value read and the bytes after it. *)

Definition parser (A : Type) : Type := bytes -> Result (A * bytes).

#[export] Instance parser_ret : MRet parser := fun A a buf => Ok (a, buf).
#[export] Instance parser_bind : MBind parser := fun A B k p buf =>
  match p buf with
  | Ok (a, buf) => k a buf
  | Err e => Err e
  | Panic => Panic
  end.

Definition pfail {A} (e : Error) : parser A := fun _ => Err e.
(** Lifts an outcome computed from values already read. *)
Definition plift {A} (c : Result A) : parser A := fun buf =>
  match c with Ok a => Ok (a, buf) | Err e => Err e | Panic => Panic end.

Lemma pbind_Ok {A B} (p : parser A) (k : A -> parser B) buf b rest :
  (p ≫= k) buf = Ok (b, rest) <-> exists a buf', p buf = Ok (a, buf') /\ k a buf' = Ok (b, rest).
Proof.
  unfold mbind, parser_bind. split.
  - destruct (p buf) as [[a buf']| |]; [by exists a, buf' | done..].
  - by intros (a & buf' & -> & ?).
Qed.

Lemma pbind_run {A B} (p : parser A) (k : A -> parser B) buf a buf' :
  p buf = Ok (a, buf') -> (p ≫= k) buf = k a buf'.
Proof. unfold mbind, parser_bind. by intros ->. Qed.

Lemma pret_run {A} (a : A) buf : (mret a : parser A) buf = Ok (a, buf).
Proof. done. Qed.

(** ** Fixed-layout values: what the source derives with [zerocopy] *)

Class Wire (T : Type) := {
  wire_size : nat;
  from_wire : array wire_size -> option T;
  to_wire : T -> array wire_size
}.
Arguments wire_size T {_}.
Class WireOk (T : Type) `{Wire T} := {
  from_to_wire t : from_wire (to_wire t) = Some t;
  to_from_wire a t : from_wire a = Some t -> to_wire t = a
}.

(** [[u8; N]]: every byte string of the right length. *)
#[export] Instance array_wire n : Wire (array n) :=
  {| wire_size := n; from_wire := Some; to_wire := id |}.
#[export] Instance array_wire_ok n : WireOk (array n).
Proof. split; [done|]. by intros a t [= ->]. Qed.

(** [u8]. *)
#[export] Instance byte_wire : Wire byte :=
  {| wire_size := 1; from_wire a := Some (Vector.hd a); to_wire b := [# b] |}.
#[export] Instance byte_wire_ok : WireOk byte.
Proof.
  split; [done|]. intros a t [= <-]. by inv_all_vec_fin.
Qed.

(** A [#[repr(C)]] struct of unaligned fields is the concatenation of its fields. *)
#[export] Instance pair_wire {A B} `{Wire A, Wire B} : Wire (A * B) :=
  {| wire_size := wire_size A + wire_size B;
     from_wire v := let '(x, y) := Vector.splitat (wire_size A) v in
                    a ← from_wire x; b ← from_wire y; Some (a, b);
     to_wire ab := Vector.append (to_wire ab.1) (to_wire ab.2) |}.
#[export] Instance pair_wire_ok {A B} `{WireOk A, WireOk B} : WireOk (A * B).
Proof.
  split.
  - intros [a b]. cbn. by rewrite Vector.splitat_append, !from_to_wire.
  - intros v [a b]. cbn. destruct (Vector.splitat _ v) as [x y] eqn:E.
    apply Vector.append_splitat in E as ->.
    destruct (from_wire x) as [a'|] eqn:Ex; [|done]. cbn.
    destruct (from_wire y) as [b'|] eqn:Ey; [|done]. cbn. intros [= <- <-].
    by rewrite (to_from_wire _ _ Ex), (to_from_wire _ _ Ey).
Qed.

(** A type that a partial check carves out of the values of another one. *)
Definition refine_wire {A B} `{Wire A} (dec : A -> option B) (enc : B -> A) : Wire B :=
  {| wire_size := wire_size A; from_wire v := from_wire v ≫= dec; to_wire b := to_wire (enc b) |}.
Lemma refine_wire_ok {A B} `{WireOk A} (dec : A -> option B) (enc : B -> A) :
  (forall b, dec (enc b) = Some b) -> (forall a b, dec a = Some b -> enc b = a) ->
  @WireOk B (refine_wire dec enc).
Proof.
  intros H1 H2. split; cbn.
  - intros b. rewrite from_to_wire. apply H1.
  - intros v b. destruct (from_wire v) as [a|] eqn:E; [|done]. cbn. intros Hb.
    apply H2 in Hb as ->. by apply to_from_wire.
Qed.

(** [zerocopy]'s little-endian integers are their bytes; [getu] is its [get], [le_split] its [new]. *)
Abbreviation U16 := (array 2).
Abbreviation U32 := (array 4).
Abbreviation U64 := (array 8).
Definition getu {n} (u : array n) : Z := le_combine (vec_to_list u).
Definition indexu {n} (u : array n) : nat := Z.to_nat (getu u).

(** ** UTF-8: the validation of [core::str::from_utf8] *)
Module Utf8.
Definition between (lo hi : Z) (b : byte) : bool :=
  (lo <=? byte.unsigned b)%Z && (byte.unsigned b <=? hi)%Z.

(** Continuation bytes. *)
Definition cont : byte -> bool := between 128 191.

(** The first two bytes of a three-byte sequence: no overlong forms, no surrogates. *)
Definition lead3 (a b : byte) : bool :=
  (between 224 224 a && between 160 191 b) || (between 225 236 a && cont b) ||
  (between 237 237 a && between 128 159 b) || (between 238 239 a && cont b).

(** The first two bytes of a four-byte sequence: no overlong forms, nothing above U+10FFFF. *)
Definition lead4 (a b : byte) : bool :=
  (between 240 240 a && between 144 191 b) || (between 241 243 a && cont b) ||
  (between 244 244 a && between 128 143 b).

Fixpoint valid (l : bytes) : bool :=
  match l with
  | [] => true
  | a :: l1 =>
      if between 0 127 a then valid l1
      else
        match l1 with
        | [] => false
        | b :: l2 =>
            if between 194 223 a then cont b && valid l2
            else
              match l2 with
              | [] => false
              | c :: l3 =>
                  if lead3 a b then cont c && valid l3
                  else match l3 with [] => false | d :: l4 => lead4 a b && cont c && cont d && valid l4 end
              end
        end
  end.

Lemma valid_ascii l : Forall (fun b => byte.unsigned b < 128)%Z l -> valid l = true.
Proof.
  induction 1 as [|b l Hb _ IH]; [done|]. cbn [valid]. unfold between.
  pose proof (byte.unsigned_range b). rewrite !(proj2 (Z.leb_le _ _)) by lia. done.
Qed.
End Utf8.

(** ** reader.rs *)
Module Reader.

Definition read_bytes (len : Z) (field : string) : parser bytes := fun buf =>
  if (Z.of_nat (length buf) <? len)%Z then Err (Decode field)
  else Ok (take (Z.to_nat len) buf, drop (Z.to_nat len) buf).

Definition read_array (n : nat) (field : string) : parser (array n) := fun buf =>
  ok_or (split_first_chunk n buf) (Decode field).

Definition read_byte (field : string) : parser byte :=
  a ← read_array 1 field; mret (Vector.hd a).

Definition read_bool (field : string) : parser bool :=
  b ← read_byte field; mret (negb (bool_decide (b = Byte.x00))).

Definition le_uint (n : nat) (field : string) : parser Z :=
  a ← read_array n field; mret (le_combine (vec_to_list a)).
Definition be_uint (n : nat) (field : string) : parser Z :=
  a ← read_array n field; mret (be_value (vec_to_list a)).

Definition le_u16 := le_uint 2.
Definition be_u16 := be_uint 2.
Definition le_u32 := le_uint 4.
Definition be_u32 := be_uint 4.
Definition le_u64 := le_uint 8.
Definition be_u64 := be_uint 8.

(** [count] consecutive values; a byte pattern that is not a value is a zerocopy error. *)
Fixpoint cast_slice {T} `{Wire T} (count : nat) (l : bytes) : option (list T) :=
  match count with
  | O => Some []
  | S count =>
      '(a, l) ← split_first_chunk (wire_size T) l;
      t ← from_wire a;
      ts ← cast_slice count l;
      Some (t :: ts)
  end.

Definition array_as {T} `{Wire T} (field : string) : parser T :=
  a ← read_array (wire_size T) field; plift (ok_or (from_wire a) ZeroCopy).

(** The [checked_mul] of the source overflows only when the product exceeds every buffer, and
    [bytes] then fails with the same error. *)
Definition slice_as {T} `{Wire T} (field : string) : parser (list T) :=
  count ← le_u32 field;
  l ← read_bytes (count * Z.of_nat (wire_size T)) field;
  plift (ok_or (cast_slice (Z.to_nat count) l) ZeroCopy).

Definition blob (field : string) : parser bytes :=
  len ← le_u32 field; read_bytes len field.

(** [try_ref_from_bytes]: the bytes must be exactly one value. *)
Definition try_ref_from_bytes {T} `{Wire T} (l : bytes) : Result T :=
  a ← ok_or (array_of_list (wire_size T) l) ZeroCopy; ok_or (from_wire a) ZeroCopy.

Definition blob_as {T} `{Wire T} (field : string) : parser T :=
  l ← blob field; plift (try_ref_from_bytes l).

(** A string is its UTF-8 bytes. *)
Definition read_string (field : string) : parser bytes :=
  l ← blob field; if Utf8.valid l then mret l else pfail (Decode field).

(** The mutable reader splits the same bytes off the buffer. *)
Definition bytes_mut : Z -> string -> parser bytes := read_bytes.
Definition blob_mut (field : string) : parser bytes :=
  len ← le_u32 field; bytes_mut len field.

Definition skip (n : nat) (field : string) : parser unit :=
  _ ← read_bytes (Z.of_nat n) field; mret tt.

Fixpoint repeat_parse {T} (n : nat) (decode_fn : parser T) : parser (list T) :=
  match n with
  | O => mret []
  | S n => t ← decode_fn; ts ← repeat_parse n decode_fn; mret (t :: ts)
  end.

Definition many {T} (field : string) (decode_fn : parser T) : parser (list T) :=
  n ← le_u32 field; repeat_parse (Z.to_nat n) decode_fn.
End Reader.

(** ** writer.rs: what each method appends to the output *)
Module Writer.

Definition write_blob (blob : bytes) : bytes :=
  vec_to_list (le_split 4 (Z.of_nat (length blob))) ++ blob.

Definition write_slice {T} `{Wire T} (slice : list T) : bytes :=
  vec_to_list (le_split 4 (Z.of_nat (length slice)))
  ++ (slice ≫= (fun t => vec_to_list (to_wire t))).

Definition write_many {A} (items : list A) (to_bytes : A -> bytes) : bytes :=
  vec_to_list (le_split 4 (Z.of_nat (length items))) ++ (items ≫= to_bytes).

Definition encode_many {A} (items : list A) (encode_fn : A -> bytes) : bytes :=
  vec_to_list (le_split 4 (Z.of_nat (length items))) ++ (items ≫= encode_fn).
End Writer.

(** ** Reading back what was written

    One [_run] lemma per reader method, on a buffer that starts with the matching encoding;
    [wire] is the database that lets [parse] run a whole decoder on its encoder's output. *)

Create HintDb wire discriminated.
#[export] Hint Constants Opaque : wire.

Ltac parse_step := erewrite pbind_run; [|solve [eauto with wire typeclass_instances nocore]].
Ltac parse := repeat (rewrite <- ?app_assoc; parse_step).

Section run.
Import Reader Writer.

Lemma read_array_run n field (v : array n) rest :
  read_array n field (vec_to_list v ++ rest) = Ok (v, rest).
Proof. unfold read_array. by rewrite split_first_chunk_app. Qed.

Lemma read_array_Ok n field buf (v : array n) rest :
  read_array n field buf = Ok (v, rest) <-> buf = vec_to_list v ++ rest.
Proof. unfold read_array. by rewrite ok_or_Ok, split_first_chunk_Some. Qed.

Lemma read_byte_run field b rest : read_byte field (b :: rest) = Ok (b, rest).
Proof. done. Qed.

Lemma read_byte_Ok field buf b rest : read_byte field buf = Ok (b, rest) <-> buf = b :: rest.
Proof. split; [|by intros ->]. destruct buf; [done|]. by intros [= -> ->]. Qed.

Lemma le_uint_run n field z rest :
  (0 <= z < 256 ^ Z.of_nat n)%Z ->
  le_uint n field (vec_to_list (le_split n z) ++ rest) = Ok (z, rest).
Proof.
  intros Hz. unfold le_uint. erewrite pbind_run by apply read_array_run.
  rewrite pret_run. by rewrite le_combine_split_small.
Qed.

Lemma le_uint_Ok n field buf z rest :
  le_uint n field buf = Ok (z, rest) ->
  buf = vec_to_list (le_split n z) ++ rest /\ (0 <= z < 256 ^ Z.of_nat n)%Z.
Proof.
  unfold le_uint, mbind, parser_bind. destruct (read_array n field buf) as [[v r]| |] eqn:E; try done.
  apply read_array_Ok in E as ->. intros [= <- <-]. rewrite le_split_combine. split; [done|].
  pose proof (le_combine_bound (vec_to_list v)). by rewrite length_vec_to_list in *.
Qed.

Lemma be_uint_run n field z rest :
  (0 <= z < 256 ^ Z.of_nat n)%Z ->
  be_uint n field (vec_to_list (be_split n z) ++ rest) = Ok (z, rest).
Proof.
  intros Hz. unfold be_uint. erewrite pbind_run by apply read_array_run.
  rewrite pret_run. by rewrite be_value_split_small.
Qed.

Lemma le_u16_run field z rest :
  u16 z -> le_u16 field (vec_to_list (le_split 2 z) ++ rest) = Ok (z, rest).
Proof. intros H. by apply le_uint_run. Qed.
Lemma le_u32_run field z rest :
  u32 z -> le_u32 field (vec_to_list (le_split 4 z) ++ rest) = Ok (z, rest).
Proof. intros H. by apply le_uint_run. Qed.
Lemma le_u64_run field z rest :
  u64 z -> le_u64 field (vec_to_list (le_split 8 z) ++ rest) = Ok (z, rest).
Proof. intros H. by apply le_uint_run. Qed.
Lemma be_u16_run field z rest :
  u16 z -> be_u16 field (vec_to_list (be_split 2 z) ++ rest) = Ok (z, rest).
Proof. intros H. by apply be_uint_run. Qed.
Lemma be_u64_run field z rest :
  u64 z -> be_u64 field (vec_to_list (be_split 8 z) ++ rest) = Ok (z, rest).
Proof. intros H. by apply be_uint_run. Qed.

Lemma read_bytes_run field l rest len :
  len = Z.of_nat (length l) -> read_bytes len field (l ++ rest) = Ok (l, rest).
Proof.
  intros ->. unfold read_bytes. rewrite length_app.
  rewrite (proj2 (Z.ltb_ge _ _)) by lia.
  by rewrite Nat2Z.id, take_app_length, drop_app_length.
Qed.

Lemma skip_run n field (v : array n) rest : skip n field (vec_to_list v ++ rest) = Ok (tt, rest).
Proof.
  unfold skip. erewrite pbind_run by (apply read_bytes_run; by rewrite length_vec_to_list). done.
Qed.

Lemma blob_run field l rest :
  u32 (Z.of_nat (length l)) -> blob field (write_blob l ++ rest) = Ok (l, rest).
Proof.
  intros Hl. unfold blob, write_blob. rewrite <- app_assoc.
  erewrite pbind_run by by apply le_u32_run. by apply read_bytes_run.
Qed.

Lemma read_string_run field l rest :
  u32 (Z.of_nat (length l)) -> Utf8.valid l = true ->
  read_string field (write_blob l ++ rest) = Ok (l, rest).
Proof. intros Hl Hv. unfold read_string. erewrite pbind_run by by apply blob_run. by rewrite Hv. Qed.

Lemma array_as_run `{WireOk T} field (t : T) rest :
  array_as field (vec_to_list (to_wire t) ++ rest) = Ok (t, rest).
Proof.
  unfold array_as. erewrite pbind_run by apply read_array_run.
  by rewrite from_to_wire.
Qed.

Lemma cast_slice_run `{WireOk T} (ts : list T) :
  cast_slice (length ts) (ts ≫= (fun t => vec_to_list (to_wire t))) = Some ts.
Proof.
  induction ts as [|t ts IH]; [done|].
  cbn [length cast_slice]. rewrite bind_cons.
  rewrite split_first_chunk_app. cbn. by rewrite from_to_wire, IH.
Qed.

Lemma length_wire_slice `{Wire T} (ts : list T) :
  length (ts ≫= (fun t => vec_to_list (to_wire t))) = length ts * wire_size T.
Proof.
  induction ts as [|t ts IH]; [done|]. rewrite bind_cons.
  rewrite length_app, IH, length_vec_to_list. cbn. done.
Qed.

Lemma slice_as_run `{WireOk T} field (ts : list T) rest :
  u32 (Z.of_nat (length ts)) -> slice_as field (write_slice ts ++ rest) = Ok (ts, rest).
Proof.
  intros Hl. unfold slice_as, write_slice. rewrite <- app_assoc.
  erewrite pbind_run by by apply le_u32_run.
  erewrite pbind_run; [|apply read_bytes_run; rewrite length_wire_slice; lia].
  by rewrite Nat2Z.id, cast_slice_run.
Qed.

Lemma repeat_parse_run {T} (enc : T -> bytes) (p : parser T) ts rest :
  (forall t r, t ∈ ts -> p (enc t ++ r) = Ok (t, r)) ->
  repeat_parse (length ts) p ((ts ≫= enc) ++ rest) = Ok (ts, rest).
Proof.
  intros Hp. induction ts as [|t ts IH]; [done|]. cbn [length repeat_parse].
  rewrite bind_cons. rewrite <- app_assoc.
  erewrite pbind_run by (apply Hp; set_solver).
  erewrite pbind_run by (apply IH; set_solver). done.
Qed.

Lemma many_run {T} field (enc : T -> bytes) (p : parser T) ts rest :
  u32 (Z.of_nat (length ts)) ->
  (forall t r, t ∈ ts -> p (enc t ++ r) = Ok (t, r)) ->
  many field p (encode_many ts enc ++ rest) = Ok (ts, rest).
Proof.
  intros Hl Hp. unfold many, encode_many. rewrite <- app_assoc.
  erewrite pbind_run by by apply le_u32_run. rewrite Nat2Z.id. by apply repeat_parse_run.
Qed.

Lemma read_bytes_Ok len field buf l rest :
  (0 <= len)%Z -> read_bytes len field buf = Ok (l, rest) <-> buf = l ++ rest /\ Z.of_nat (length l) = len.
Proof.
  intros Hlen. split; [|intros [-> <-]; by apply read_bytes_run]. unfold read_bytes.
  destruct (Z.ltb_spec (Z.of_nat (length buf)) len); [done|]. intros [= <- <-].
  split; [by rewrite take_drop | rewrite length_take; lia].
Qed.

Lemma plift_Ok {A} (c : Result A) buf a rest : plift c buf = Ok (a, rest) <-> c = Ok a /\ rest = buf.
Proof. unfold plift. destruct c; naive_solver. Qed.
End run.

#[export] Hint Resolve read_array_run read_byte_run le_u16_run le_u32_run le_u64_run be_u16_run
  be_u64_run skip_run blob_run read_string_run array_as_run slice_as_run many_run : wire.

(** Readers do not panic. *)
Definition psafe {A} (p : parser A) : Prop := forall buf, safe (p buf).

Section psafe.
Import Reader.

Lemma psafe_ret {A} (a : A) : psafe (mret a).
Proof. done. Qed.
Lemma psafe_fail {A} e : psafe (@pfail A e).
Proof. done. Qed.
Lemma psafe_bind {A B} (p : parser A) (k : A -> parser B) : psafe p -> (forall a, psafe (k a)) -> psafe (p ≫= k).
Proof.
  intros Hp Hk buf. unfold safe, mbind, parser_bind. specialize (Hp buf). destruct (p buf) as [[a r]| |]; [apply Hk|done..].
Qed.
Lemma psafe_lift {A} (c : Result A) : safe c -> psafe (plift c).
Proof. intros Hc buf. unfold plift. by destruct c. Qed.
Lemma psafe_if {A} (b : bool) (p q : parser A) : psafe p -> psafe q -> psafe (if b then p else q).
Proof. by destruct b. Qed.
Lemma psafe_read_array n field : psafe (read_array n field).
Proof. intros buf. apply safe_ok_or. Qed.
Lemma psafe_read_bytes len field : psafe (read_bytes len field).
Proof. intros buf. unfold read_bytes. by destruct (_ <? _)%Z. Qed.
Lemma psafe_read_byte field : psafe (read_byte field).
Proof. apply psafe_bind; [apply psafe_read_array | done]. Qed.
Lemma psafe_le_uint n field : psafe (le_uint n field).
Proof. apply psafe_bind; [apply psafe_read_array | done]. Qed.
Lemma psafe_skip n field : psafe (skip n field).
Proof. apply psafe_bind; [apply psafe_read_bytes | done]. Qed.
Lemma psafe_many {T} field (p : parser T) : psafe p -> psafe (many field p).
Proof.
  intros Hp. apply psafe_bind; [apply psafe_le_uint|]. intros n. induction (Z.to_nat n) as [|k IH]; cbn; [done|].
  apply psafe_bind; [done|]. intros t. by apply psafe_bind.
Qed.
End psafe.

#[export] Hint Resolve psafe_ret psafe_fail psafe_bind psafe_lift psafe_if psafe_read_array psafe_read_bytes
  psafe_read_byte psafe_le_uint psafe_skip psafe_many : safe.

(** ** sort_unique.rs *)
Module SortUnique.
Section sort_unique.
Context {T : Type} `{EqDecision T} (leb : T -> T -> bool).

(** Compares two indices by the elements they address; the indices sorted are those of the
    slice, so the other cases do not arise. *)
Definition index_leb (l : list T) (a b : nat) : bool :=
  match l !! a, l !! b with
  | Some x, Some y => leb x y
  | None, Some _ => false
  | _, None => true
  end.

Fixpoint walk (l : list T) (order : list nat) (prev : option T) : Result (list T) :=
  match order with
  | [] => Ok []
  | i :: order =>
      item ← expect (l !! i);
      if bool_decide (prev = Some item) then Err (Decode "duplicate keys")
      else sorted ← walk l order (Some item); Ok (item :: sorted)
  end.

Definition sort_unique (l : list T) : Result (list T * list nat) :=
  let order := sort_by (index_leb l)
                 (seq 0 (Z.to_nat (Z.of_nat (length l) `mod` 2 ^ 32))) in
  sorted ← walk l order None; Ok (sorted, order).
End sort_unique.

Section spec.
Context {T : Type} `{EqDecision T} (leb : T -> T -> bool).
Context (leb_total : forall x y, leb x y = false -> leb y x = true).
Context (leb_trans : forall x y z, leb x y = true -> leb y z = true -> leb x z = true).
Context (leb_antisym : forall x y, leb x y = true -> leb y x = true -> x = y).

Lemma index_leb_total l a b : index_leb leb l a b = false -> index_leb leb l b a = true.
Proof using leb_total. unfold index_leb. destruct (l !! a), (l !! b); eauto. Qed.

Lemma index_leb_trans l a b c :
  index_leb leb l a b = true -> index_leb leb l b c = true -> index_leb leb l a c = true.
Proof using leb_trans.
  unfold index_leb. destruct (l !! a), (l !! b), (l !! c); eauto; done.
Qed.

(** The walk succeeds exactly on orders that name distinct neighbours, and reads them off. *)
Lemma walk_Ok (l : list T) order prev sorted :
  walk l order prev = Ok sorted ->
  Forall2 (fun i x => l !! i = Some x) order sorted /\
  Sorted (fun a b => a <> b) (option_list prev ++ sorted).
Proof.
  revert prev sorted; induction order as [|i order IH]; intros prev sorted; cbn [walk].
  - intros [= <-]. split; [constructor|]. rewrite app_nil_r. destruct prev; repeat constructor.
  - intros H. inv_ok. destruct (bool_decide_reflect (prev = Some x)) as [|Hne]; [done|].
    inv_ok. apply IH in Hx0 as [Hf Hs]. split; [by constructor|].
    destruct prev as [p|]; cbn in *; [|done]. constructor; [done|]. constructor. congruence.
Qed.

Lemma walk_total (l : list T) order prev :
  Forall (fun i => i < length l) order ->
  (forall sorted, Forall2 (fun i x => l !! i = Some x) order sorted ->
             Sorted (fun a b => a <> b) (option_list prev ++ sorted)) ->
  is_ok (walk l order prev) = true.
Proof.
  revert prev; induction order as [|i order IH]; intros prev Hi Hs; [done|].
  apply Forall_cons in Hi as [Hi Ho]. apply lookup_lt_is_Some in Hi as [x Hx].
  cbn [walk]. rewrite Hx. cbn [expect mbind outcome_bind].
  assert (exists sorted, Forall2 (fun i x => l !! i = Some x) order sorted) as [srt Hsrt].
  { clear -Ho. induction Ho as [|j order Hj _ [s IH]]; [by exists []|].
    apply lookup_lt_is_Some in Hj as [y Hy]. exists (y :: s). by constructor. }
  rewrite bool_decide_eq_false_2.
  - assert (is_ok (walk l order (Some x)) = true) as Hw.
    { apply IH; [done|]. intros s Hs'.
      specialize (Hs (x :: s) ltac:(by constructor)).
      destruct prev; cbn in Hs; [by apply Sorted_inv in Hs as [? _] | done]. }
    by destruct (walk l order (Some x)).
  - intros ->. specialize (Hs (x :: srt) ltac:(by constructor)). cbn in Hs.
    apply Sorted_inv in Hs as [_ Hs]. by inversion Hs.
Qed.

(** Reading a sorted index list gives a sorted list. *)
Lemma read_sorted (l : list T) order sorted :
  StronglySorted (fun a b => index_leb leb l a b = true) order ->
  Forall2 (fun i x => l !! i = Some x) order sorted ->
  StronglySorted (fun x y => leb x y = true) sorted.
Proof.
  intros Hs Hf. induction Hf as [|i x order sorted Hi Hf IH]; [constructor|].
  apply StronglySorted_inv in Hs as [Hs Hall]. constructor; [by apply IH|].
  clear IH Hs. induction Hf as [|j y order sorted Hj Hf IH]; constructor.
  - apply Forall_cons in Hall as [Hij _]. unfold index_leb in Hij. by rewrite Hi, Hj in Hij.
  - apply IH. by apply Forall_cons in Hall as [_ ?].
Qed.

Lemma read_perm (l : list T) order sorted :
  order ≡ₚ seq 0 (length l) -> Forall2 (fun i x => l !! i = Some x) order sorted ->
  sorted ≡ₚ l.
Proof.
  intros Hp Hf.
  assert (sorted = omap (l !!.) order) as ->.
  { clear Hp. induction Hf as [|i x order sorted Hi Hf IH]; [done|].
    cbn. rewrite Hi. by f_equal. }
  rewrite Hp. clear Hp Hf. apply reflexive_eq.
  induction l as [|x l IH] using rev_ind; [done|].
  rewrite length_app, seq_app, omap_app. cbn. rewrite lookup_app_r by lia.
  rewrite Nat.sub_diag. cbn. f_equal. rewrite <- IH at 2.
  assert (Forall (fun i => i < length l) (seq 0 (length l))) as Hlt.
  { apply Forall_forall. intros i Hi. apply elem_of_seq in Hi. lia. }
  clear IH. induction Hlt as [|i s Hi Hs IHs]; [done|]. cbn. rewrite lookup_app_l by done.
  destruct (l !! i); [f_equal|]; exact IHs.
Qed.

Lemma strict_sorted_NoDup (s : list T) :
  StronglySorted (fun x y => leb x y = true) s -> Sorted (fun a b => a <> b) s -> NoDup s.
Proof using leb_antisym.
  intros Hs Hn. induction Hs as [|x s Hs IH Hx]; constructor.
  - destruct Hs as [|y s Hs Hy]; [by apply not_elem_of_nil|].
    apply Sorted_inv in Hn as [_ Hxy]. inversion Hxy as [|? ? Hne]; subst.
    apply not_elem_of_cons. split; [done|]. intros Hin.
    apply Forall_cons in Hx as [Hxy' _]. rewrite Forall_forall in Hy.
    apply Hne, leb_antisym; [done | by apply Hy].
  - apply IH. by apply Sorted_inv in Hn as [? _].
Qed.

(** [sort_unique] succeeds exactly on inputs without duplicates, and returns the input in
    ascending order with the index each element came from. *)
Lemma sort_unique_spec (l : list T) :
  u32 (Z.of_nat (length l)) ->
  (is_ok (sort_unique leb l) = true <-> NoDup l) /\
  (forall sorted order, sort_unique leb l = Ok (sorted, order) ->
     StronglySorted (fun x y => leb x y = true) sorted /\ sorted ≡ₚ l /\
     order ≡ₚ seq 0 (length l) /\ Forall2 (fun i x => l !! i = Some x) order sorted).
Proof using leb_total leb_trans leb_antisym.
  intros Hl. unfold sort_unique. rewrite Z.mod_small, Nat2Z.id by done.
  set (order := sort_by (index_leb leb l) (seq 0 (length l))).
  assert (order ≡ₚ seq 0 (length l)) as Hp by apply sort_by_perm.
  assert (StronglySorted (fun a b => index_leb leb l a b = true) order) as Hs.
  { apply sort_by_sorted; eauto using index_leb_total, index_leb_trans. }
  split; [split|].
  - destruct (walk l order None) as [sorted| |] eqn:E; try done. intros _.
    apply walk_Ok in E as [Hf Hn]. rewrite <- (read_perm l order sorted) by done.
    apply strict_sorted_NoDup; [by eapply read_sorted | done].
  - intros Hnd. enough (is_ok (walk l order None) = true) by (by destruct (walk l order None)).
    apply walk_total.
    + rewrite Hp. apply Forall_forall. intros i Hi. apply elem_of_seq in Hi. lia.
    + intros sorted Hf. cbn.
      assert (NoDup sorted) as Hn by (by rewrite (read_perm l order sorted)).
      clear -Hn. induction Hn as [|x s Hx Hn IH]; constructor; [done|].
      destruct s as [|y s]; constructor. set_solver.
  - intros sorted order' H. inv_ok. apply walk_Ok in Hx as [Hf _].
    split; [by eapply read_sorted|].
    split; [by eapply read_perm|]. done.
Qed.
End spec.
End SortUnique.
