(* ===== verification/Types.v ===== *)
(** * Types: the shared types of [core/types] and the hash abstraction of [core/hashing] *)

From S2P Require Import Prelude Codec.

(** ** resource_id.rs *)

(** [ResourceId] is a transparent [[u8; 32]]. *)
Abbreviation ResourceId := (array 32).

Definition key_cmp (a b : ResourceId) : comparison := bytes_cmp (vec_to_list a) (vec_to_list b).
Definition key_ltb (a b : ResourceId) : bool := bytes_ltb (vec_to_list a) (vec_to_list b).
Definition key_leb (a b : ResourceId) : bool := bytes_leb (vec_to_list a) (vec_to_list b).

(** Bit [i] of a key, MSB-first: the left/right decision at tree level [i]. *)
Definition bit (k : ResourceId) (i : nat) : bool := Bits.get_msb (vec_to_list k) i.

Definition key_value (k : ResourceId) : Z := be_value (vec_to_list k).

Lemma key_ltb_value a b : key_ltb a b = (key_value a <? key_value b)%Z.
Proof. apply bytes_ltb_be. by rewrite !length_vec_to_list. Qed.

Lemma key_leb_value a b : key_leb a b = (key_value a <=? key_value b)%Z.
Proof. apply bytes_leb_be. by rewrite !length_vec_to_list. Qed.

Lemma key_value_inj a b : key_value a = key_value b -> a = b.
Proof.
  intros H. apply vec_to_list_inj2, be_value_inj; [by rewrite !length_vec_to_list | done].
Qed.

Lemma key_leb_total a b : key_leb a b = false -> key_leb b a = true.
Proof. rewrite !key_leb_value. lia. Qed.
Lemma key_leb_trans a b c : key_leb a b = true -> key_leb b c = true -> key_leb a c = true.
Proof. rewrite !key_leb_value. lia. Qed.
Lemma key_leb_antisym a b : key_leb a b = true -> key_leb b a = true -> a = b.
Proof. rewrite !key_leb_value. intros. apply key_value_inj. lia. Qed.
Lemma key_ltb_leb a b : key_ltb a b = true <-> key_leb a b = true /\ a <> b.
Proof.
  rewrite key_ltb_value, key_leb_value. split.
  - intros H. split; [lia|]. intros ->. lia.
  - intros [H Hne]. enough (key_value a <> key_value b) by lia.
    intros Heq. by apply Hne, key_value_inj.
Qed.
Lemma key_ltb_trans a b c : key_ltb a b = true -> key_ltb b c = true -> key_ltb a c = true.
Proof. rewrite !key_ltb_value. lia. Qed.
Lemma key_ltb_irrefl a : key_ltb a a = false.
Proof. rewrite key_ltb_value. lia. Qed.
Lemma key_ltb_leb_trans a b c : key_ltb a b = true -> key_leb b c = true -> key_ltb a c = true.
Proof. rewrite !key_ltb_value, key_leb_value. lia. Qed.

Lemma bit_overflow k i : 256 <= i -> bit k i = false.
Proof. intros H. apply Bits.get_msb_overflow. by rewrite length_vec_to_list. Qed.

(** A key is its 256 bits. *)
Lemma bit_inj a b : (forall i, i < 256 -> bit a i = bit b i) -> a = b.
Proof.
  intros H. apply vec_to_list_inj2, Bits.get_msb_inj; rewrite !length_vec_to_list; auto.
Qed.

Lemma bit_value k i : i < 256 -> bit k i = Z.testbit (key_value k) (Z.of_nat (255 - i)).
Proof.
  intros Hi. unfold bit, key_value. rewrite Bits.get_msb_be by (rewrite length_vec_to_list; lia).
  rewrite length_vec_to_list. f_equal; lia.
Qed.

(** Keys that share their first [l] bits have equal high parts. *)
Lemma shared_prefix_shiftr a b l :
  l <= 256 -> (forall i, i < l -> bit a i = bit b i) ->
  Z.shiftr (key_value a) (Z.of_nat (256 - l)) = Z.shiftr (key_value b) (Z.of_nat (256 - l)).
Proof.
  intros Hl H. apply Z.bits_inj'. intros n Hn. rewrite !Z.shiftr_spec by lia.
  destruct (Z.lt_ge_cases (n + Z.of_nat (256 - l)) 256) as [Hlt|Hge].
  - specialize (H (255 - Z.to_nat (n + Z.of_nat (256 - l))) ltac:(lia)).
    rewrite !bit_value in H by lia.
    by replace (Z.of_nat (255 - (255 - Z.to_nat (n + Z.of_nat (256 - l)))))
      with (n + Z.of_nat (256 - l))%Z in H by lia.
  - assert (forall k, Z.testbit (key_value k) (n + Z.of_nat (256 - l)) = false) as Hf.
    { intros k. pose proof (be_value_bound (vec_to_list k)) as Hb.
      rewrite length_vec_to_list in Hb. unfold key_value.
      rewrite <- (Z.mod_small (be_value (vec_to_list k)) (2 ^ 256)) by lia.
      by apply Z.mod_pow2_bits_high. }
    by rewrite !Hf.
Qed.

(** Among keys that share [l] bits the order never goes from bit 1 back to bit 0 at level [l]:
    sorted slices are partitioned by the bit a tree node splits on. *)
Lemma bit_monotone a b l :
  l < 256 -> (forall i, i < l -> bit a i = bit b i) -> key_leb a b = true ->
  bit a l = true -> bit b l = true.
Proof.
  intros Hl Hp Hle Ha. rewrite key_leb_value in Hle.
  pose proof (shared_prefix_shiftr a b l ltac:(lia) Hp) as Hs.
  rewrite bit_value in Ha |- * by done.
  replace (Z.of_nat (256 - l)) with (Z.of_nat (255 - l) + 1)%Z in Hs by lia.
  rewrite <- !Z.shiftr_shiftr in Hs by lia.
  assert (forall z, Z.testbit z (Z.of_nat (255 - l)) = Z.odd (Z.shiftr z (Z.of_nat (255 - l))))
    as Ht by (intros z; by rewrite <- Z.bit0_odd, Z.shiftr_spec by lia).
  rewrite Ht in Ha |- *.
  assert (Z.shiftr (key_value a) (Z.of_nat (255 - l))
          <= Z.shiftr (key_value b) (Z.of_nat (255 - l)))%Z as Hm.
  { rewrite !Z.shiftr_div_pow2 by lia. apply Z.div_le_mono; lia. }
  revert Hs Ha Hm. generalize (Z.shiftr (key_value a) (Z.of_nat (255 - l))).
  generalize (Z.shiftr (key_value b) (Z.of_nat (255 - l))). intros y x Hs Hx Hxy.
  rewrite <- !Z.div2_spec in Hs. pose proof (Z.div2_odd x). pose proof (Z.div2_odd y).
  rewrite Hx in *. destruct (Z.odd y); [done|]. cbn [Z.b2z] in *. lia.
Qed.

(** [is_sorted_by(|a, b| a < b)] and the pairwise [windows(2)] scan. *)
Fixpoint strictly_ascending (l : list ResourceId) : bool :=
  match l with
  | a :: (b :: _) as l' => key_ltb a b && strictly_ascending l'
  | _ => true
  end.

Lemma strictly_ascending_sorted l :
  strictly_ascending l = true <-> StronglySorted (fun a b => key_ltb a b = true) l.
Proof.
  split.
  - intros H. apply Sorted_StronglySorted; [intros x y z; apply key_ltb_trans|].
    induction l as [|a l IH]; constructor.
    + apply IH. destruct l; [done|]. cbn in H. by apply andb_true_iff in H as [_ ?].
    + destruct l; constructor. cbn in H. by apply andb_true_iff in H as [? _].
  - induction 1 as [|a l Hl IH Ha]; [done|]. destruct l as [|b l]; [done|].
    cbn. apply andb_true_iff. split; [by inversion Ha | done].
Qed.

Lemma ascending_NoDup l :
  StronglySorted (fun a b => key_ltb a b = true) l -> NoDup l.
Proof.
  induction 1 as [|a l Hl IH Ha]; constructor; [|done].
  intros Hin. rewrite Forall_forall in Ha. specialize (Ha _ Hin).
  by rewrite key_ltb_irrefl in Ha.
Qed.

(** ** access_type.rs *)

Inductive AccessType := Read | Write.

#[export] Instance AccessType_eq_dec : EqDecision AccessType.
Proof. solve_decision. Defined.

(** [impl From<AccessType> for u8]. *)
Definition AccessType_to_u8 (s : AccessType) : byte :=
  match s with Read => Byte.x00 | Write => Byte.x01 end.

(** [TryFrom<u8>]. *)
Definition AccessType_try_from (v : byte) : Result AccessType :=
  match v with
  | Byte.x00 => Ok Read
  | Byte.x01 => Ok Write
  | _ => Err (Decode "unknown access type")
  end.

(** The zerocopy view of the [#[repr(u8)]] enum accepts the two discriminants only. *)
Definition AccessType_of_u8 (v : byte) : option AccessType :=
  match v with
  | Byte.x00 => Some Read
  | Byte.x01 => Some Write
  | _ => None
  end.

#[export] Instance AccessType_wire : Wire AccessType :=
  refine_wire AccessType_of_u8 AccessType_to_u8.
#[export] Instance AccessType_wire_ok : WireOk AccessType.
Proof. apply refine_wire_ok; [by intros [] | by intros [] [] [=]]. Qed.

(** ** access_metadata.rs *)

Record AccessMetadata := {
  resource_id : ResourceId;
  access_type : AccessType
}.

Definition AccessMetadata_read (resource_id : ResourceId) : AccessMetadata :=
  {| resource_id := resource_id; access_type := Read |}.
Definition AccessMetadata_write (resource_id : ResourceId) : AccessMetadata :=
  {| resource_id := resource_id; access_type := Write |}.

#[export] Instance AccessMetadata_wire : Wire AccessMetadata :=
  refine_wire (fun '(r, a) => Some {| resource_id := r; access_type := a |})
              (fun m => (resource_id m, access_type m)).
#[export] Instance AccessMetadata_wire_ok : WireOk AccessMetadata.
Proof. apply refine_wire_ok; [by intros [] | by intros [] [] [=]; subst]. Qed.

Definition decode_slice : parser (list AccessMetadata) :=
  view ← Reader.slice_as "access_metadata";
  if strictly_ascending (resource_id <$> view) then mret view
  else pfail (Decode "access metadata not strictly ascending").

(** [decode_vec] is the owned variant: the same values. *)
Definition decode_vec : parser (list AccessMetadata) := decode_slice.

(** ** hashing: hasher.rs, sha256.rs, blake3.rs *)

(** The [Hasher] trait. Domains are byte strings; [hash_with_domain] is the one-part case. *)
Class Hasher := {
  hash : bytes -> array 32;
  hash_parts_with_domain : bytes -> list bytes -> array 32
}.

Definition hash_with_domain `{Hasher} (domain data : bytes) : array 32 :=
  hash_parts_with_domain domain [data].

(** SHA-256 has no keyed mode: the domain is a prefix of the payload. *)
Definition Sha256 (sha256 : bytes -> array 32) : Hasher :=
  {| hash := sha256;
     hash_parts_with_domain domain parts := sha256 (domain ++ concat parts) |}.

(** BLAKE3's key is the domain zero-padded to 32 bytes; the source checks at compile time that
    the domain fits. *)
Definition Blake3 (blake3 : bytes -> array 32) (keyed : array 32 -> bytes -> array 32) : Hasher :=
  {| hash := blake3;
     hash_parts_with_domain domain parts :=
       keyed (array_init 32 (fun i => default Byte.x00 (domain !! i))) (concat parts) |}.

(** A cheap polynomial hash for evaluating the model. *)
Definition toy_hasher : Hasher :=
  let h (l : bytes) :=
    Vector.append (vreplicate 28 Byte.x01)
      (be_split 4 (foldl (fun acc b => (acc * 257 + byte.unsigned b + 1) `mod` 4294967291)%Z 7%Z l)) in
  {| hash := h; hash_parts_with_domain d ps := h (d ++ concat ps) |}.

(** ** batch_metadata.rs, checkpoint.rs, scheduler_transaction.rs *)

(** What a scheduler batch carries: the hash of its block and the id of the batch it extends. *)
Class BatchMetadata (M : Type) := {
  block_hash : M -> array 32;
  parent_id : M -> Z
}.

Record Checkpoint (M : Type) := { cp_index : Z; cp_metadata : M }.
Arguments cp_index {M} _.
Arguments cp_metadata {M} _.

Record SchedulerTransaction (T : Type) := {
  merge_idx : Z;
  tx_resources : list AccessMetadata;
  tx : T
}.
Arguments merge_idx {T} _.
Arguments tx_resources {T} _.
Arguments tx {T} _.
