(* ===== verification/SmtNode.v ===== *)
(** * SmtNode: the node data of [core/smt]

    [HashedNode] (the kinded summary a parent hashes), [Node] (what the store holds), [Key]
    (a tree position), [Commitment] and [StaleNode], with their codecs. *)

From S2P Require Import Prelude Codec Types.

(** ** empty_hash.rs, commitment.rs *)

Definition EMPTY_HASH : array 32 := vreplicate 32 Byte.x00.
#[global] Arguments EMPTY_HASH : simpl never.

Record Commitment := { key : ResourceId; value_hash : array 32 }.

(** ** hashed_node.rs *)

Definition EMPTY : byte := Byte.x00.
Definition LEAF : byte := Byte.x01.
Definition INTERNAL : byte := Byte.x02.

Module HashedNode.
Record t := new { kind : byte; hash : array 32 }.

#[global] Instance t_eq_dec : EqDecision t.
Proof. solve_decision. Defined.

#[global] Instance t_wire : Wire t :=
  refine_wire (fun '(k, h) => Some (new k h)) (fun n => (kind n, hash n)).
#[global] Instance t_wire_ok : WireOk t.
Proof. apply refine_wire_ok; [by intros [] | by intros [] [] [=]; subst]. Qed.

(** The empty-subtree sentinel. *)
Definition empty : t := new EMPTY EMPTY_HASH.

Section hashed.
Context `{Hasher}.

Definition leaf (key value_hash : array 32) : t :=
  if bool_decide (value_hash = EMPTY_HASH) then empty
  else new LEAF (hash_parts_with_domain [LEAF] [vec_to_list key; vec_to_list value_hash]).

Definition internal (left right : t) : t :=
  if bool_decide (kind left = EMPTY) && bool_decide (kind right = EMPTY) then empty
  else new INTERNAL
         (hash_parts_with_domain [INTERNAL; kind left; kind right]
            [vec_to_list (hash left); vec_to_list (hash right)]).

(** The parent's summary, with shortcut promotion. *)
Definition combine (left right : t) : t :=
  if bool_decide (kind left = LEAF) && bool_decide (kind right = EMPTY) then left
  else if bool_decide (kind left = EMPTY) && bool_decide (kind right = LEAF) then right
  else internal left right.
End hashed.
End HashedNode.

(** ** key.rs *)
Module Key.
Record t := new { level : nat; path : array 32 }.

#[global] Instance t_eq_dec : EqDecision t.
Proof. solve_decision. Defined.
#[global] Program Instance t_countable : Countable t :=
  inj_countable' (fun k => (level k, path k)) (fun '(l, p) => new l p) _.
Next Obligation. by intros []. Qed.

Definition ROOT : t := new 0 (vreplicate 32 Byte.x00).

Definition decode : parser t :=
  path ← Reader.read_array 32 "path";
  level ← Reader.be_u16 "level";
  mret (new (Z.to_nat level) path).

(** [path(32) + level(2 BE)]. *)
Definition encode (k : t) : array (32 + 2) :=
  Vector.append (path k) (be_split 2 (Z.of_nat (level k))).

Definition left_child (k : t) : t := new (S (level k)) (path k).

Definition right_child (k : t) : t :=
  new (S (level k)) (valter (Bits.or_bit (7 - level k mod 8)) (level k / 8) (path k)).

Lemma key_decode_encode k rest :
  u16 (Z.of_nat (level k)) -> decode (vec_to_list (encode k) ++ rest) = Ok (k, rest).
Proof.
  intros Hl. unfold decode, encode. rewrite vec_to_list_app, <- app_assoc.
  parse. rewrite pret_run, Nat2Z.id. by destruct k.
Qed.
End Key.

(** ** node.rs *)
Module Node.
Inductive t :=
| Empty
| Internal (hash : array 32)
| Leaf (key : ResourceId) (value_hash : array 32) (hash : array 32).

#[global] Instance t_eq_dec : EqDecision t.
Proof. solve_decision. Defined.

Section hashed.
Context `{Hasher}.

Definition internal (left right : HashedNode.t) : t :=
  Internal (HashedNode.hash (HashedNode.internal left right)).

Definition leaf (key : ResourceId) (value_hash : array 32) : t :=
  Leaf key value_hash (HashedNode.hash (HashedNode.leaf key value_hash)).
End hashed.

Definition decode : parser t :=
  tag ← Reader.read_byte "tag";
  match tag with
  | Byte.x00 => mret Empty
  | Byte.x02 => hash ← Reader.read_array 32 "hash"; mret (Internal hash)
  | Byte.x01 =>
      key ← Reader.read_array 32 "key";
      value_hash ← Reader.read_array 32 "value_hash";
      hash ← Reader.read_array 32 "hash";
      mret (Leaf key value_hash hash)
  | _ => pfail (Decode "unknown node tag")
  end.

Definition hash (n : t) : array 32 :=
  match n with
  | Empty => EMPTY_HASH
  | Internal hash => hash
  | Leaf _ _ hash => hash
  end.

Definition encode (n : t) : bytes :=
  match n with
  | Empty => [EMPTY]
  | Internal hash => INTERNAL :: vec_to_list hash
  | Leaf key value_hash hash =>
      LEAF :: vec_to_list key ++ vec_to_list value_hash ++ vec_to_list hash
  end.

(** [impl From<&Node> for HashedNode]. *)
Definition summary (n : t) : HashedNode.t :=
  match n with
  | Empty => HashedNode.empty
  | Internal hash => HashedNode.new INTERNAL hash
  | Leaf _ _ hash => HashedNode.new LEAF hash
  end.

Lemma node_decode_encode n rest : decode (encode n ++ rest) = Ok (n, rest).
Proof.
  unfold decode. destruct n; cbn [encode app]; unfold EMPTY, LEAF, INTERNAL;
    parse_step; cbv beta iota; parse; done.
Qed.

(** Only encodings of nodes decode. *)
Lemma decode_canonical buf n rest : decode buf = Ok (n, rest) -> buf = encode n ++ rest.
Proof.
  unfold decode. intros H. apply pbind_Ok in H as (tag & buf' & Htag & H).
  apply read_byte_Ok in Htag as ->. destruct tag; try discriminate H.
  - by injection H as <- <-.
  - apply pbind_Ok in H as (k & b1 & Hk & H). apply read_array_Ok in Hk as ->.
    apply pbind_Ok in H as (v & b2 & Hv & H). apply read_array_Ok in Hv as ->.
    apply pbind_Ok in H as (h & b3 & Hh & H). apply read_array_Ok in Hh as ->.
    injection H as <- <-. cbn. by rewrite <- !app_assoc.
  - apply pbind_Ok in H as (h & b3 & Hh & H). apply read_array_Ok in Hh as ->.
    by injection H as <- <-.
Qed.
End Node.

(** ** stale_node.rs, write_batch.rs *)
Module StaleNode.
Record t := new { stale_since_version : Z; key : Key.t; version : Z }.
End StaleNode.

(** One mutation of a [WriteBatch]. *)
Inductive WriteOp :=
| PutNode (key : Key.t) (version : Z) (data : Node.t)
| PutStaleNode (stale : StaleNode.t)
| DeleteNode (key : Key.t) (version : Z)
| DeleteStaleNode (stale : StaleNode.t).
