(* ===== verification/SmtTrie.v ===== *)
(** * SmtTrie: the abstract specification of the sparse Merkle tree

    The tree a store or a proof stands for is a binary trie with shortcut leaves. A trie is
    canonical ([wf]) when no leaf could sit higher; canonical tries correspond one to one to finite
    maps from keys to value hashes, and [summary] is the hash they commit to. The updater, the
    proof builder and the proof verifier are all related to this specification. *)

From S2P Require Import Prelude Codec Types SmtNode.

Definition DEPTH : nat := 256.

Inductive trie :=
| TEmpty
| TLeaf (k : ResourceId) (v : array 32)
| TNode (l r : trie).

#[export] Instance trie_eq_dec : EqDecision trie.
Proof. solve_decision. Defined.

(** Shortcut promotion: a leaf whose sibling is empty moves up. *)
Definition join (l r : trie) : trie :=
  match l, r with
  | TEmpty, TEmpty => TEmpty
  | TLeaf k v, TEmpty => TLeaf k v
  | TEmpty, TLeaf k v => TLeaf k v
  | _, _ => TNode l r
  end.

(** The key starts with the bits [p]. *)
Definition has_prefix (k : ResourceId) (p : list bool) : Prop :=
  forall i b, p !! i = Some b -> bit k i = b.

Fixpoint wf (p : list bool) (t : trie) : Prop :=
  match t with
  | TEmpty => True
  | TLeaf k v => has_prefix k p /\ v <> EMPTY_HASH
  | TNode l r =>
      length p < DEPTH /\ wf (p ++ [false]) l /\ wf (p ++ [true]) r /\ join l r = TNode l r
  end.

(** The value hash stored for [k] in a trie rooted at level [d]. *)
Fixpoint tlookup (d : nat) (t : trie) (k : ResourceId) : option (array 32) :=
  match t with
  | TEmpty => None
  | TLeaf k' v => if decide (k' = k) then Some v else None
  | TNode l r => tlookup (S d) (if bit k d then r else l) k
  end.

Section hashed.
Context `{Hasher}.

(** The kinded summary a trie commits to. *)
Fixpoint summary (t : trie) : HashedNode.t :=
  match t with
  | TEmpty => HashedNode.empty
  | TLeaf k v => HashedNode.leaf k v
  | TNode l r => HashedNode.internal (summary l) (summary r)
  end.
End hashed.

Create HintDb smt.

(** ** Prefixes *)

Lemma has_prefix_nil k : has_prefix k [].
Proof. by intros i b. Qed.

Lemma has_prefix_snoc k p b :
  has_prefix k (p ++ [b]) <-> has_prefix k p /\ bit k (length p) = b.
Proof.
  split.
  - intros Hp. split.
    + intros i c Hi. apply Hp. by apply lookup_app_l_Some.
    + apply Hp. by rewrite lookup_app_r, Nat.sub_diag by lia.
  - intros [Hp Hb] i c Hi. apply lookup_app_Some in Hi as [Hi|[Hlen Hi]]; [by apply Hp|].
    destruct (i - length p) as [|j] eqn:E; [|by destruct j]. injection Hi as <-.
    by replace i with (length p) by lia.
Qed.

Lemma has_prefix_agree k k' p :
  has_prefix k p -> has_prefix k' p -> forall i, i < length p -> bit k i = bit k' i.
Proof.
  intros H1 H2 i Hi. apply lookup_lt_is_Some in Hi as [b Hb].
  by rewrite (H1 _ _ Hb), (H2 _ _ Hb).
Qed.

Lemma has_prefix_of_agree k k' p :
  has_prefix k p -> (forall i, i < length p -> bit k i = bit k' i) -> has_prefix k' p.
Proof.
  intros H1 H2 i b Hb. rewrite <- H2 by (by eapply lookup_lt_Some). by apply H1.
Qed.

(** A key with all 256 bits fixed is determined. *)
Lemma has_prefix_full k k' p :
  DEPTH <= length p -> has_prefix k p -> has_prefix k' p -> k = k'.
Proof.
  intros Hl H1 H2. apply bit_inj. intros i Hi.
  apply (has_prefix_agree k k' p); [done..|]. unfold DEPTH in Hl. lia.
Qed.

#[export] Hint Resolve has_prefix_nil : smt.

(** ** Smart join *)

Lemma wf_join p l r :
  length p < DEPTH -> wf (p ++ [false]) l -> wf (p ++ [true]) r -> wf p (join l r).
Proof.
  intros Hp Hl Hr.
  destruct l as [|kl vl|], r as [|kr vr|]; try (by cbn in *; tauto).
  - cbn in *. destruct Hr as [Hr Hv]. apply has_prefix_snoc in Hr as [? _]. done.
  - cbn in *. destruct Hl as [Hl Hv]. apply has_prefix_snoc in Hl as [? _]. done.
Qed.

Lemma tlookup_wf_Some p t k v :
  wf p t -> has_prefix k p -> tlookup (length p) t k = Some v -> v <> EMPTY_HASH.
Proof.
  revert p; induction t as [|k' v'|l IHl r IHr]; intros p Hwf Hk Hlk; cbn in *; [done|..].
  - case_decide; [|done]. injection Hlk as <-. tauto.
  - destruct Hwf as (Hp & Hl & Hr & _).
    destruct (bit k (length p)) eqn:E.
    + apply (IHr (p ++ [true])); [done | by apply has_prefix_snoc|].
      rewrite length_app, Nat.add_1_r. done.
    + apply (IHl (p ++ [false])); [done | by apply has_prefix_snoc|].
      rewrite length_app, Nat.add_1_r. done.
Qed.

Lemma tlookup_join p l r k :
  wf (p ++ [false]) l -> wf (p ++ [true]) r ->
  tlookup (length p) (join l r) k
  = tlookup (S (length p)) (if bit k (length p) then r else l) k.
Proof.
  intros Hl Hr.
  destruct l as [|kl vl|], r as [|kr vr|]; try done.
  - cbn. by destruct (bit k (length p)).
  - cbn in *. destruct Hr as [Hr _]. apply has_prefix_snoc in Hr as [_ Hb].
    destruct (bit k (length p)) eqn:E; [done|]. cbn. case_decide; [congruence | done].
  - cbn in *. destruct Hl as [Hl _]. apply has_prefix_snoc in Hl as [_ Hb].
    destruct (bit k (length p)) eqn:E; [|done]. cbn. case_decide; [congruence | done].
Qed.

Section hashed.
Context `{Hasher}.

Lemma summary_leaf k v :
  v <> EMPTY_HASH ->
  HashedNode.leaf k v
  = HashedNode.new LEAF (hash_parts_with_domain [LEAF] [vec_to_list k; vec_to_list v]).
Proof. intros Hv. unfold HashedNode.leaf. by rewrite bool_decide_eq_false_2. Qed.

Lemma leaf_empty k : HashedNode.leaf k EMPTY_HASH = HashedNode.empty.
Proof. unfold HashedNode.leaf. by rewrite bool_decide_eq_true_2. Qed.

(** The kind of a canonical trie's summary is its constructor. *)
Lemma summary_kind p t :
  wf p t ->
  HashedNode.kind (summary t)
  = match t with TEmpty => EMPTY | TLeaf _ _ => LEAF | TNode _ _ => INTERNAL end.
Proof.
  revert p; induction t as [|k v|l IHl r IHr]; intros p Hwf; cbn in *; [done|..].
  - destruct Hwf as [_ Hv]. by rewrite summary_leaf.
  - destruct Hwf as (_ & Hl & Hr & Hj). unfold HashedNode.internal.
    rewrite (IHl _ Hl), (IHr _ Hr).
    destruct l as [|?|], r as [|?|]; done.
Qed.

(** [HashedNode::combine] computes the summary of the joined trie. *)
Lemma summary_join p l r :
  wf (p ++ [false]) l -> wf (p ++ [true]) r ->
  summary (join l r) = HashedNode.combine (summary l) (summary r).
Proof.
  intros Hl Hr. unfold HashedNode.combine.
  rewrite (summary_kind _ _ Hl), (summary_kind _ _ Hr).
  destruct l as [|?|], r as [|?|]; done.
Qed.
End hashed.

(** ** Canonical tries are determined by their lookups *)

Lemma length_snoc {A} (p : list A) b : length (p ++ [b]) = S (length p).
Proof. rewrite length_app. cbn. lia. Qed.

Lemma tlookup_node p l r k :
  tlookup (length p) (TNode l r) k
  = tlookup (length (p ++ [bit k (length p)])) (if bit k (length p) then r else l) k.
Proof. cbn. by rewrite length_snoc. Qed.

(** [child b l r] is the subtrie on side [b]. *)
Definition child (b : bool) (l r : trie) : trie := if b then r else l.

Lemma wf_child p l r b : wf p (TNode l r) -> wf (p ++ [b]) (child b l r).
Proof. intros (_ & Hl & Hr & _). by destruct b. Qed.

Lemma tlookup_child p l r k b :
  has_prefix k (p ++ [b]) ->
  tlookup (length p) (TNode l r) k = tlookup (length (p ++ [b])) (child b l r) k.
Proof. intros Hk. apply has_prefix_snoc in Hk as [_ Hb]. by rewrite tlookup_node, Hb. Qed.

Lemma wf_inhabited p t :
  wf p t -> t <> TEmpty -> exists k v, has_prefix k p /\ tlookup (length p) t k = Some v.
Proof.
  revert p; induction t as [|k v|l IHl r IHr]; intros p Hwf Hne; [done|..].
  - destruct Hwf as [Hk Hv]. exists k, v. split; [done|]. cbn. by rewrite decide_True.
  - assert (exists b, child b l r <> TEmpty) as [b Hb].
    { destruct Hwf as (_ & _ & _ & Hj). destruct l; [by exists true; destruct r | by exists false..]. }
    pose proof (wf_child _ _ _ b Hwf) as Hc.
    assert (exists k v, has_prefix k (p ++ [b]) /\ tlookup (length (p ++ [b])) (child b l r) k = Some v)
      as (k & v & Hk & Hlk) by (destruct b; [by apply IHr | by apply IHl]).
    exists k, v. split; [by apply has_prefix_snoc in Hk as [? _]|].
    by rewrite (tlookup_child _ _ _ _ b).
Qed.

(** An internal node holds at least two keys. *)
Lemma wf_node_two p l r :
  wf p (TNode l r) ->
  exists k1 k2, k1 <> k2 /\ has_prefix k1 p /\ has_prefix k2 p /\
    is_Some (tlookup (length p) (TNode l r) k1) /\ is_Some (tlookup (length p) (TNode l r) k2).
Proof.
  intros Hwf. remember (TNode l r) as t eqn:Ht. revert p l r Ht Hwf.
  induction t as [|k v|tl IHl tr IHr]; intros p l r [= <- <-] Hwf.
  assert (forall b, child b tl tr <> TEmpty ->
    exists k v, has_prefix k (p ++ [b]) /\ tlookup (length p) (TNode tl tr) k = Some v) as Hin.
  { intros b Hb. pose proof (wf_child _ _ _ b Hwf) as Hc.
    apply wf_inhabited in Hc as (k & v & Hk & Hlk); [|done].
    exists k, v. split; [done|]. by rewrite (tlookup_child _ _ _ _ b). }
  assert (forall b, (exists l r, child b tl tr = TNode l r) ->
    exists k1 k2, k1 <> k2 /\ has_prefix k1 p /\ has_prefix k2 p /\
      is_Some (tlookup (length p) (TNode tl tr) k1) /\
      is_Some (tlookup (length p) (TNode tl tr) k2)) as Hnode.
  { intros b (l & r & Hlr). pose proof (wf_child _ _ _ b Hwf) as Hc.
    assert (exists k1 k2, k1 <> k2 /\ has_prefix k1 (p ++ [b]) /\ has_prefix k2 (p ++ [b]) /\
      is_Some (tlookup (length (p ++ [b])) (child b tl tr) k1) /\
      is_Some (tlookup (length (p ++ [b])) (child b tl tr) k2)) as (k1 & k2 & Hne & H1 & H2 & Hs1 & Hs2)
      by (destruct b; [by eapply IHr | by eapply IHl]).
    exists k1, k2. rewrite !(tlookup_child _ _ _ _ b) by done.
    apply has_prefix_snoc in H1 as [? _], H2 as [? _]. done. }
  destruct Hwf as (_ & _ & _ & Hj).
  destruct (decide (tl = TEmpty)) as [->|Hl].
  { apply (Hnode true). cbn in *. destruct tr; [done..|]. eauto. }
  destruct (decide (tr = TEmpty)) as [->|Hr].
  { apply (Hnode false). cbn in *. destruct tl; [done..|]. eauto. }
  destruct (Hin false Hl) as (k1 & v1 & H1 & Hs1), (Hin true Hr) as (k2 & v2 & H2 & Hs2).
  apply has_prefix_snoc in H1 as [H1 Hb1], H2 as [H2 Hb2].
  exists k1, k2. split; [congruence|]. rewrite Hs1, Hs2. eauto.
Qed.

Lemma trie_ext p t1 t2 :
  wf p t1 -> wf p t2 ->
  (forall k, has_prefix k p -> tlookup (length p) t1 k = tlookup (length p) t2 k) -> t1 = t2.
Proof.
  revert p t2; induction t1 as [|k v|l IHl r IHr]; intros p t2 H1 H2 Hlk.
  - destruct (decide (t2 = TEmpty)) as [->|Hne]; [done|].
    destruct (wf_inhabited p t2) as (k & v & Hk & Hv); [done..|].
    specialize (Hlk k Hk). cbn in Hlk. congruence.
  - destruct t2 as [|k2 v2|l2 r2].
    + destruct H1 as [Hk _]. specialize (Hlk k Hk). cbn in Hlk. by rewrite decide_True in Hlk.
    + destruct H1 as [Hk _]. specialize (Hlk k Hk). cbn in Hlk. rewrite decide_True in Hlk by done.
      case_decide; [congruence | done].
    + apply wf_node_two in H2 as (k1 & k2 & Hne & Hk1 & Hk2 & Hs1 & Hs2).
      rewrite <- (Hlk _ Hk1) in Hs1. rewrite <- (Hlk _ Hk2) in Hs2. cbn in *.
      destruct (decide (k = k1)), (decide (k = k2)); try congruence.
      * by apply is_Some_None in Hs2.
      * by apply is_Some_None in Hs1.
      * by apply is_Some_None in Hs1.
  - destruct t2 as [|k2 v2|l2 r2].
    + destruct (wf_inhabited p (TNode l r)) as (k & v & Hk & Hv); [done..|].
      specialize (Hlk k Hk). cbn in *. congruence.
    + apply wf_node_two in H1 as (k1 & k1' & Hne & Hk1 & Hk1' & Hs1 & Hs2).
      rewrite (Hlk _ Hk1) in Hs1. rewrite (Hlk _ Hk1') in Hs2. cbn in *.
      destruct (decide (k2 = k1)), (decide (k2 = k1')); try congruence.
      * by apply is_Some_None in Hs2.
      * by apply is_Some_None in Hs1.
      * by apply is_Some_None in Hs1.
    + f_equal.
      * apply (IHl (p ++ [false])); [by apply (wf_child p l r false) | by apply (wf_child p l2 r2 false)|].
        intros k Hk. specialize (Hlk k ltac:(by apply has_prefix_snoc in Hk as [? _])).
        by rewrite !(tlookup_child _ _ _ _ false) in Hlk.
      * apply (IHr (p ++ [true])); [by apply (wf_child p l r true) | by apply (wf_child p l2 r2 true)|].
        intros k Hk. specialize (Hlk k ltac:(by apply has_prefix_snoc in Hk as [? _])).
        by rewrite !(tlookup_child _ _ _ _ true) in Hlk.
Qed.

(** ** The canonical trie of a finite map *)

Abbreviation entry := (ResourceId * array 32)%type.

Fixpoint build (fuel d : nat) (es : list entry) : trie :=
  match es with
  | [] => TEmpty
  | [(k, v)] => TLeaf k v
  | _ =>
      match fuel with
      | O => TEmpty
      | S fuel =>
          join (build fuel (S d) (filter (fun e => bit e.1 d = false) es))
               (build fuel (S d) (filter (fun e => bit e.1 d = true) es))
      end
  end.

Definition trie_of (m : gmap ResourceId (array 32)) : trie := build DEPTH 0 (map_to_list m).

(** The state root a map of value hashes commits to. *)
Definition root_of `{Hasher} (m : gmap ResourceId (array 32)) : array 32 :=
  HashedNode.hash (summary (trie_of m)).

(** Association-list lookup, the meaning of a list of entries with distinct keys. *)
Fixpoint alookup (es : list entry) (k : ResourceId) : option (array 32) :=
  match es with
  | [] => None
  | (k', v) :: es => if decide (k' = k) then Some v else alookup es k
  end.

Lemma alookup_filter (P : entry -> Prop) `{forall e, Decision (P e)} es k :
  (forall e, e.1 = k -> e ∈ es -> P e) -> alookup (filter P es) k = alookup es k.
Proof.
  induction es as [|[k' v] es IH]; intros HP; [done|].
  rewrite filter_cons. cbn. case_decide as HPe; cbn.
  - case_decide; [done|]. apply IH. intros e He Hin. apply HP; [done | set_solver].
  - case_decide as Hk; [exfalso; apply HPe, HP; [done | set_solver]|].
    apply IH. intros e He Hin. apply HP; [done | set_solver].
Qed.

Lemma alookup_not_in es k : k ∉ es.*1 -> alookup es k = None.
Proof.
  induction es as [|[k' v] es IH]; intros Hk; [done|]. cbn in *.
  rewrite decide_False by set_solver. apply IH. set_solver.
Qed.

Lemma alookup_in es k v : NoDup es.*1 -> (k, v) ∈ es -> alookup es k = Some v.
Proof.
  induction es as [|[k' v'] es IH]; intros Hnd Hin; [by apply not_elem_of_nil in Hin|].
  cbn in *. apply NoDup_cons in Hnd as [Hk' Hnd]. apply elem_of_cons in Hin as [[= -> ->]|Hin].
  - by rewrite decide_True.
  - rewrite decide_False; [by apply IH|]. intros ->. apply Hk'.
    apply list_elem_of_fmap. by exists (k, v).
Qed.

Lemma alookup_Some_in es k v : alookup es k = Some v -> (k, v) ∈ es.
Proof.
  induction es as [|[k' v'] es IH]; cbn; [done|]. case_decide; [intros [= ->]; set_solver|].
  intros Hlk. apply IH in Hlk. set_solver.
Qed.

Lemma build_step fuel d es :
  1 < length es ->
  build (S fuel) d es = join (build fuel (S d) (filter (fun e => bit e.1 d = false) es))
                             (build fuel (S d) (filter (fun e => bit e.1 d = true) es)).
Proof. destruct es as [|[k v] [|e es]]; cbn [length]; [lia..|]. done. Qed.

Lemma build_spec fuel p es :
  length p + fuel = DEPTH -> NoDup es.*1 ->
  (forall e, e ∈ es -> has_prefix e.1 p /\ e.2 <> EMPTY_HASH) ->
  wf p (build fuel (length p) es) /\
  (forall k, has_prefix k p -> tlookup (length p) (build fuel (length p) es) k = alookup es k).
Proof.
  revert p es; induction fuel as [|fuel IH]; intros p es Hf Hnd Hes.
  - destruct es as [|[k v] [|[k' v'] es]].
    + done.
    + destruct (Hes (k, v)) as [Hk Hv]; [set_solver|]. done.
    + exfalso. apply NoDup_cons in Hnd as [Hnd _]. apply Hnd. cbn.
      rewrite (has_prefix_full k k' p); [set_solver|lia|apply (Hes (k, v))|apply (Hes (k', v'))];
        set_solver.
  - destruct (Nat.le_gt_cases (length es) 1) as [Hle|Hgt].
    { destruct es as [|[k v] [|e es]]; cbn in Hle; [done| |lia].
      destruct (Hes (k, v)) as [Hk Hv]; [set_solver|]. done. }
    rewrite build_step by done.
    assert (forall b, wf (p ++ [b]) (build fuel (S (length p)) (filter (fun e => bit e.1 (length p) = b) es))
      /\ forall k, has_prefix k (p ++ [b]) ->
          tlookup (S (length p)) (build fuel (S (length p)) (filter (fun e => bit e.1 (length p) = b) es)) k
          = alookup es k) as Hb.
    { intros b. rewrite <- (length_snoc p b).
      destruct (IH (p ++ [b]) (filter (fun e => bit e.1 (length p) = b) es)) as [Hw Hl].
      - rewrite length_snoc. lia.
      - eapply sublist_NoDup; [exact Hnd|]. apply fmap_sublist, sublist_filter.
      - intros e He. apply list_elem_of_filter in He as [Hb He]. specialize (Hes e He).
        split; [|tauto]. apply has_prefix_snoc. tauto.
      - split; [done|]. intros k Hk. rewrite Hl by done. apply alookup_filter.
        intros e <- _. by apply has_prefix_snoc in Hk as [_ ?]. }
    destruct (Hb false) as [Hwl Hll], (Hb true) as [Hwr Hlr].
    split; [apply wf_join; [lia | done..]|].
    intros k Hk. rewrite tlookup_join by done.
    destruct (bit k (length p)) eqn:E; [apply Hlr | apply Hll]; by apply has_prefix_snoc.
Qed.

(** Every map without empty value hashes has a canonical trie with its lookups. *)
Lemma trie_of_spec m :
  map_Forall (fun _ v => v <> EMPTY_HASH) m ->
  wf [] (trie_of m) /\ (forall k, tlookup 0 (trie_of m) k = m !! k).
Proof.
  intros Hm. destruct (build_spec DEPTH [] (map_to_list m)) as [Hw Hl].
  - reflexivity.
  - apply NoDup_fst_map_to_list.
  - intros [k v] Hin. split; [apply has_prefix_nil|]. apply elem_of_map_to_list in Hin.
    by apply (Hm k).
  - split; [exact Hw|]. intros k. etransitivity; [exact (Hl k (has_prefix_nil k))|].
    destruct (m !! k) as [v|] eqn:E.
    + apply alookup_in; [apply NoDup_fst_map_to_list | by apply elem_of_map_to_list].
    + apply alookup_not_in. intros Hin. apply list_elem_of_fmap in Hin as ([k' v] & -> & Hin).
      apply elem_of_map_to_list in Hin. change (m !! k' = None) in E. congruence.
Qed.

(** A canonical trie with the lookups of [m] commits to [root_of m]. *)
Lemma root_of_trie `{Hasher} m t :
  wf [] t -> (forall k, tlookup 0 t k = m !! k) -> HashedNode.hash (summary t) = root_of m.
Proof.
  intros Hw Hl. unfold root_of. do 2 f_equal.
  assert (map_Forall (fun _ v => v <> EMPTY_HASH) m) as Hm.
  { intros k v Hk. rewrite <- Hl in Hk. exact (tlookup_wf_Some [] t k v Hw (has_prefix_nil k) Hk). }
  destruct (trie_of_spec m Hm) as [Hw' Hl'].
  apply (trie_ext []); [exact Hw | exact Hw' |]. intros k _.
  change (tlookup 0 t k = tlookup 0 (trie_of m) k). congruence.
Qed.

(** From here on tries of maps are used through their lemmas. *)
#[global] Opaque trie_of.

(** ** Positions: the [Key] of a path of left/right decisions *)

Definition key_step (key : Key.t) (b : bool) : Key.t :=
  if b then Key.right_child key else Key.left_child key.

Definition key_of (p : list bool) : Key.t := foldl key_step Key.ROOT p.

Lemma key_of_snoc p b : key_of (p ++ [b]) = key_step (key_of p) b.
Proof. unfold key_of. by rewrite foldl_app. Qed.

Lemma level_key_of p : Key.level (key_of p) = length p.
Proof.
  induction p as [|b p IH] using rev_ind; [done|].
  rewrite key_of_snoc, length_snoc, <- IH. by destruct b.
Qed.

Lemma bit_zero i : bit (vreplicate 32 Byte.x00) i = false.
Proof.
  unfold bit, Bits.get_msb.
  replace (vec_to_list (vreplicate 32 Byte.x00)) with (replicate 32 Byte.x00) by reflexivity.
  destruct (replicate 32 _ !! _) as [b|] eqn:E; [|done].
  apply lookup_replicate in E as [-> _]. by rewrite Z.shiftr_0_l.
Qed.

Lemma bit_right_child key i :
  Key.level key < DEPTH ->
  bit (Key.path (Key.right_child key)) i
  = (if decide (i = Key.level key) then true else bit (Key.path key) i).
Proof.
  intros Hl. unfold bit. cbn [Key.right_child Key.path]. rewrite vec_to_list_valter.
  change (alter _ _ _) with (Bits.set_msb (vec_to_list (Key.path key)) (Key.level key)).
  rewrite Bits.get_set_msb, length_vec_to_list. unfold DEPTH in Hl.
  rewrite (proj2 (Nat.ltb_lt _ _)) by lia.
  case_decide as Hi; [by subst; rewrite Nat.eqb_refl|]. by rewrite (proj2 (Nat.eqb_neq _ _)).
Qed.

Lemma bit_key_of p i :
  length p <= DEPTH -> bit (Key.path (key_of p)) i = default false (p !! i).
Proof.
  induction p as [|b p IH] using rev_ind; intros Hp; [apply bit_zero|].
  rewrite length_snoc in Hp. rewrite key_of_snoc. specialize (IH ltac:(lia)).
  assert (bit (Key.path (key_step (key_of p) b)) i
          = if decide (i = length p) then b else bit (Key.path (key_of p)) i) as ->.
  { destruct b; cbn [key_step].
    - rewrite bit_right_child, level_key_of by (rewrite level_key_of; lia). done.
    - cbn [Key.left_child Key.path]. case_decide as Hi; [|done]. subst i.
      rewrite IH, (proj2 (lookup_ge_None p _)) by lia. done. }
  case_decide as Hi.
  - subst i. by rewrite list_lookup_middle.
  - rewrite IH. destruct (Nat.lt_ge_cases i (length p)).
    + by rewrite lookup_app_l by lia.
    + rewrite !(proj2 (lookup_ge_None _ _)); [done|..]; rewrite ?length_app; cbn; lia.
Qed.

(** Distinct paths are stored at distinct keys. *)
Lemma key_of_inj p q :
  length p <= DEPTH -> length q <= DEPTH -> key_of p = key_of q -> p = q.
Proof.
  intros Hp Hq H. assert (length p = length q) as Hl by (rewrite <- !level_key_of; by f_equal).
  apply list_eq. intros i. destruct (Nat.lt_ge_cases i (length p)) as [Hi|Hi].
  - pose proof (bit_key_of p i Hp) as H1. pose proof (bit_key_of q i Hq) as H2.
    rewrite H, H2 in H1. destruct (lookup_lt_is_Some_2 p i Hi) as [x Hx].
    destruct (lookup_lt_is_Some_2 q i ltac:(lia)) as [y Hy].
    rewrite Hx, Hy in *. cbn in H1. by subst.
  - by rewrite !(proj2 (lookup_ge_None _ _)) by lia.
Qed.
