(* ===== verification/SmtUpdate.v ===== *)
(** * SmtUpdate: the tree updater of [core/smt]

    [Updater] (updater.rs) and the default methods of [Tree] (tree.rs), against a versioned
    node store. The updater reads the store at the prior version only, and logs its writes;
    the store interface [NodeStore] says what a committed log does to later reads. *)

From S2P Require Import Prelude Codec Types SmtNode SmtTrie.

(** ** The write log *)

Definition writer (A : Type) : Type := list WriteOp -> outcome Error (A * list WriteOp).

#[export] Instance writer_ret : MRet writer := fun A a log => Ok (a, log).
#[export] Instance writer_bind : MBind writer := fun A B k c log =>
  '(a, log) ← c log; k a log.

Definition tell (op : WriteOp) : writer unit := fun log => Ok (tt, log ++ [op]).
Definition wassert (b : bool) : writer unit := fun log => if b then Ok (tt, log) else Panic.
Definition wpanic {A} : writer A := fun log => Panic.

(** [sort_by_key(|a| a.key)]. *)
Definition sort_commitments : list Commitment -> list Commitment :=
  sort_by (fun a b => key_leb (key a) (key b)).

(** [dedup_by] with the closure that copies the later value hash into the kept entry. *)
Fixpoint dedup_from (prev : Commitment) (cs : list Commitment) : list Commitment :=
  match cs with
  | [] => [prev]
  | a :: cs =>
      if bool_decide (key a = key prev)
      then dedup_from {| key := key prev; value_hash := value_hash a |} cs
      else prev :: dedup_from a cs
  end.
Definition dedup_commitments (cs : list Commitment) : list Commitment :=
  match cs with [] => [] | c :: cs => dedup_from c cs end.

(** ** updater.rs *)
Module Updater.
Section updater.
Context `{Hasher}.
(** [self.node]: the newest node at a position as of version [version - 1]. *)
Context (node : Key.t -> option (Z * Node.t)) (version : Z).

Definition not_empty (n : Node.t) : bool :=
  match n with Node.Empty => false | _ => true end.

Definition mark_stale (node_key : Key.t) : writer unit :=
  match node node_key with
  | Some (old_version, _) =>
      tell (PutStaleNode (StaleNode.new version node_key old_version))
  | None => mret tt
  end.

Definition write_child (child : option Node.t) (key : Key.t) : writer HashedNode.t :=
  match child with
  | None =>
      _ ← (if from_option (fun '(_, n) => not_empty n) false (node key)
           then _ ← tell (PutNode key version Node.Empty);
                tell (PutStaleNode (StaleNode.new version key version))
           else mret tt);
      mret HashedNode.empty
  | Some n =>
      _ ← tell (PutNode key version n);
      mret (Node.summary n)
  end.

Section recursive.
(** The recursive call on a child position. *)
Context (update_subtree : Key.t -> list Commitment -> writer (option Node.t)).

Definition split_and_recurse (k : Key.t) (commitments : list Commitment)
    : writer (option Node.t) :=
  _ ← wassert (Key.level k <? DEPTH);
  let mid := partition_point (fun u => negb (bit (key u) (Key.level k))) commitments in
  let left := take mid commitments in
  let right := drop mid commitments in
  let left_child := Key.left_child k in
  let right_child := Key.right_child k in
  left_result ← update_subtree left_child left;
  right_result ← update_subtree right_child right;
  match left_result, right_result with
  | None, None => mret None
  | Some (Node.Leaf _ _ _), None => mret left_result
  | None, Some (Node.Leaf _ _ _) => mret right_result
  | _, _ =>
      l ← write_child left_result left_child;
      r ← write_child right_result right_child;
      mret (Some (Node.internal l r))
  end.

Definition resolve_leaves (k : Key.t) (commitments : list Commitment)
    : writer (option Node.t) :=
  match filter (fun u => value_hash u <> EMPTY_HASH) commitments with
  | [] => mret None
  | [first] => mret (Some (Node.leaf (key first) (value_hash first)))
  | _ => split_and_recurse k commitments
  end.

Definition update_at_leaf (k : Key.t) (commitments : list Commitment)
    (existing_key : ResourceId) (existing_vh : array 32) : writer (option Node.t) :=
  _ ← mark_stale k;
  let general :=
    let pos := partition_point (fun u => key_ltb (key u) existing_key) commitments in
    if from_option (fun u => bool_decide (key u = existing_key)) false (commitments !! pos)
    then resolve_leaves k commitments
    else
      let existing := {| key := existing_key; value_hash := existing_vh |} in
      resolve_leaves k (take pos commitments ++ [existing] ++ drop pos commitments) in
  match commitments with
  | [u] =>
      if bool_decide (key u = existing_key)
      then if bool_decide (value_hash u = EMPTY_HASH) then mret None
           else mret (Some (Node.leaf existing_key (value_hash u)))
      else general
  | _ => general
  end.
End recursive.

Fixpoint update_subtree (fuel : nat) (k : Key.t) (commitments : list Commitment)
    : writer (option Node.t) :=
  match fuel with
  | O => wpanic
  | S fuel =>
      match commitments with
      | [] => mret (n ← snd <$> node k; if not_empty n then Some n else None)
      | _ =>
          match snd <$> node k with
          | None => resolve_leaves (update_subtree fuel) k commitments
          | Some Node.Empty =>
              _ ← mark_stale k;
              resolve_leaves (update_subtree fuel) k commitments
          | Some (Node.Leaf existing_key existing_vh _) =>
              update_at_leaf (update_subtree fuel) k commitments existing_key existing_vh
          | Some (Node.Internal _) =>
              _ ← mark_stale k;
              split_and_recurse (update_subtree fuel) k commitments
          end
      end
  end.

(** The recursion visits levels 0 to [DEPTH], one unit of fuel each. *)
Definition apply (commitments : list Commitment) : writer (array 32) :=
  let commitments := dedup_commitments (sort_commitments commitments) in
  r ← update_subtree (S DEPTH) Key.ROOT commitments;
  match r with
  | None =>
      _ ← tell (PutNode Key.ROOT version Node.Empty);
      mret EMPTY_HASH
  | Some n =>
      _ ← tell (PutNode Key.ROOT version n);
      mret (Node.hash n)
  end.
End updater.
End Updater.

(** ** What a list of commitments means *)

(** The value hash committed for a key: the last one in the list. *)
Definition committed (cs : list Commitment) (k : ResourceId) : option (array 32) :=
  value_hash <$> last (filter (fun c => key c = k) cs).

(** A committed [EMPTY_HASH] deletes the key, any other value hash replaces its entry. *)
Definition overlay (cs : list Commitment) (k : ResourceId) (old : option (array 32))
    : option (array 32) :=
  match committed cs k with
  | Some v => if decide (v = EMPTY_HASH) then None else Some v
  | None => old
  end.

Definition apply_commitment (m : gmap ResourceId (array 32)) (c : Commitment) :=
  if decide (value_hash c = EMPTY_HASH) then delete (key c) m
  else <[key c := value_hash c]> m.

(** The state after a batch of commitments, in list order. *)
Definition apply_commitments (m : gmap ResourceId (array 32)) (cs : list Commitment) :=
  foldl apply_commitment m cs.

Definition live (cs : list Commitment) : Prop := Forall (fun c => value_hash c <> EMPTY_HASH) cs.

Lemma committed_app cs1 cs2 k :
  committed (cs1 ++ cs2) k
  = match committed cs2 k with Some v => Some v | None => committed cs1 k end.
Proof.
  unfold committed. rewrite filter_app, last_app.
  destruct (last (filter _ cs2)); done.
Qed.

Lemma committed_single c k :
  committed [c] k = if decide (key c = k) then Some (value_hash c) else None.
Proof. unfold committed. rewrite filter_cons. by case_decide. Qed.

Lemma committed_cons c cs k :
  committed (c :: cs) k
  = match committed cs k with
    | Some v => Some v
    | None => if decide (key c = k) then Some (value_hash c) else None
    end.
Proof. rewrite <- committed_single. apply (committed_app [c]). Qed.

Lemma committed_Some cs k v :
  committed cs k = Some v -> exists c, c ∈ cs /\ key c = k /\ value_hash c = v.
Proof.
  unfold committed. intros Hc. destruct (last _) as [c|] eqn:E; [|done]. injection Hc as <-.
  apply last_Some_elem_of, list_elem_of_filter in E as [Hk Hin]. eauto.
Qed.

Lemma committed_None cs k : committed cs k = None <-> forall c, c ∈ cs -> key c <> k.
Proof.
  unfold committed. rewrite fmap_None, last_None. split.
  - intros Hf c Hin Hk. apply (not_elem_of_nil c). rewrite <- Hf. by apply list_elem_of_filter.
  - intros Hc. apply elem_of_nil_inv. intros c Hin. apply list_elem_of_filter in Hin as [??].
    by apply (Hc c).
Qed.

Lemma committed_in cs c :
  NoDup (key <$> cs) -> c ∈ cs -> committed cs (key c) = Some (value_hash c).
Proof.
  induction cs as [|a cs IH]; cbn; intros Hnd Hin; [by apply not_elem_of_nil in Hin|].
  apply NoDup_cons in Hnd as [Ha Hnd]. rewrite committed_cons.
  apply elem_of_cons in Hin as [->|Hin]; [|by rewrite IH].
  rewrite decide_True by done. destruct (committed cs (key a)) eqn:E; [|done].
  apply committed_Some in E as (c & Hc & Hk & _). exfalso. apply Ha. rewrite <- Hk.
  by apply list_elem_of_fmap_2.
Qed.

Lemma apply_commitments_lookup m cs k :
  apply_commitments m cs !! k = overlay cs k (m !! k).
Proof.
  unfold apply_commitments, overlay.
  induction cs as [|c cs IH] using rev_ind; [done|].
  rewrite foldl_app, committed_app, committed_single. cbn. unfold apply_commitment at 1.
  repeat case_decide; subst; simplify_map_eq; done.
Qed.

(** *** Sorting and deduplication keep the meaning *)

Lemma filter_insert_by c l k :
  filter (fun c => key c = k) (insert_by (fun a b => key_leb (key a) (key b)) c l)
  = filter (fun c => key c = k) (c :: l).
Proof.
  induction l as [|y l IH]; cbn; [done|].
  destruct (key_leb (key c) (key y)) eqn:E; [done|].
  rewrite filter_cons, IH, !filter_cons. repeat case_decide; try done.
  subst k. rewrite key_leb_value in E. replace (key y) with (key c) in E by congruence. lia.
Qed.

Lemma committed_sort cs k : committed (sort_commitments cs) k = committed cs k.
Proof.
  unfold committed. do 2 f_equal. induction cs as [|c cs IH]; [done|].
  cbn [sort_commitments sort_by foldr]. rewrite filter_insert_by, !filter_cons.
  unfold sort_commitments, sort_by in IH. by rewrite IH.
Qed.

Lemma committed_dedup_from prev cs k :
  committed (dedup_from prev cs) k = committed (prev :: cs) k.
Proof.
  revert prev; induction cs as [|a cs IH]; intros prev; cbn; [done|].
  case_bool_decide as Ha.
  - rewrite IH, !committed_cons. cbn. destruct (committed cs k); [done|].
    rewrite Ha. by case_decide.
  - rewrite committed_cons, IH, (committed_cons prev). done.
Qed.

Lemma committed_dedup cs k : committed (dedup_commitments cs) k = committed cs k.
Proof. destruct cs; [done|]. apply committed_dedup_from. Qed.

Definition ascending (cs : list Commitment) : Prop :=
  StronglySorted (fun a b => key_ltb (key a) (key b) = true) cs.

Lemma dedup_from_keys prev cs c : c ∈ dedup_from prev cs -> key c ∈ key <$> (prev :: cs).
Proof.
  revert prev; induction cs as [|a cs IH]; intros prev; cbn.
  - rewrite list_elem_of_singleton. intros ->. set_solver.
  - case_bool_decide as Ha.
    + intros Hc. apply IH in Hc. cbn in Hc. set_solver.
    + rewrite elem_of_cons. intros [->|Hc]; [set_solver|]. apply IH in Hc. set_solver.
Qed.

Lemma dedup_from_ascending prev cs :
  StronglySorted (fun a b => key_leb (key a) (key b) = true) (prev :: cs) ->
  ascending (dedup_from prev cs).
Proof.
  revert prev; induction cs as [|a cs IH]; intros prev Hs; cbn; [repeat constructor|].
  apply StronglySorted_inv in Hs as [Hs Hp]. apply Forall_cons in Hp as [Hpa Hp].
  apply StronglySorted_inv in Hs as [Hs Ha].
  case_bool_decide as Hk.
  - apply IH. by constructor.
  - constructor; [apply IH; by constructor|]. apply Forall_forall. intros c Hc.
    apply dedup_from_keys in Hc. apply list_elem_of_fmap in Hc as (c' & -> & Hc).
    rewrite Forall_forall in Ha.
    assert (key_ltb (key prev) (key a) = true) as Hlt by (apply key_ltb_leb; auto).
    apply elem_of_cons in Hc as [->|Hc]; [done|].
    eapply key_ltb_leb_trans; [exact Hlt | by apply Ha].
Qed.

Lemma dedup_sort_ascending cs : ascending (dedup_commitments (sort_commitments cs)).
Proof.
  pose proof (sort_by_sorted (fun a b => key_leb (key a) (key b))
    (fun x y => key_leb_total _ _) (fun x y z => key_leb_trans _ _ _) cs) as Hs.
  unfold sort_commitments. destruct (sort_by _ cs); [constructor|].
  by apply dedup_from_ascending.
Qed.

Lemma dedup_from_live prev cs : live (prev :: cs) -> live (dedup_from prev cs).
Proof.
  revert prev; induction cs as [|a cs IH]; intros prev Hl; cbn; [done|].
  apply Forall_cons in Hl as [Hp Hl]. pose proof (Forall_inv Hl) as Ha.
  case_bool_decide; [apply IH; constructor; [done|by apply Forall_inv_tail in Hl]|].
  constructor; [done | by apply IH].
Qed.

Lemma dedup_sort_live cs : live cs -> live (dedup_commitments (sort_commitments cs)).
Proof.
  intros Hl. assert (live (sort_commitments cs)) as Hs.
  { unfold live, sort_commitments. by rewrite sort_by_perm. }
  destruct (sort_commitments cs); [done|]. by apply dedup_from_live.
Qed.

Lemma ascending_keys cs : ascending cs -> NoDup (key <$> cs).
Proof.
  intros Hs. apply ascending_NoDup. induction Hs as [|c cs Hs IH Hc]; cbn; constructor; [done|].
  by apply Forall_fmap.
Qed.

(** ** A small program logic for the write log

    [runs c Q]: from any log, [c] returns a value and appends operations that satisfy [Q].
    It is a total-correctness judgement: panics and exhausted fuel are excluded. *)

Definition runs {A} (c : writer A) (Q : A -> list WriteOp -> Prop) : Prop :=
  forall log, exists a ops, c log = Ok (a, log ++ ops) /\ Q a ops.

Lemma runs_ret {A} (a : A) (Q : A -> list WriteOp -> Prop) : Q a [] -> runs (mret a) Q.
Proof. intros HQ log. exists a, []. rewrite app_nil_r. done. Qed.

Lemma runs_bind {A B} (c : writer A) (k : A -> writer B) (Q : B -> list WriteOp -> Prop) :
  runs c (fun a ops => runs (k a) (fun b ops' => Q b (ops ++ ops'))) -> runs (c ≫= k) Q.
Proof.
  intros Hc log. destruct (Hc log) as (a & ops & Ha & Hk).
  destruct (Hk (log ++ ops)) as (b & ops' & Hb & HQ).
  exists b, (ops ++ ops'). rewrite app_assoc. split; [|done].
  unfold mbind, writer_bind. rewrite Ha. exact Hb.
Qed.

Lemma runs_mono {A} (c : writer A) (Q Q' : A -> list WriteOp -> Prop) :
  runs c Q -> (forall a ops, Q a ops -> Q' a ops) -> runs c Q'.
Proof. intros Hc HQ log. destruct (Hc log) as (a & ops & ? & ?). eauto. Qed.

Lemma runs_tell op (Q : unit -> list WriteOp -> Prop) : Q tt [op] -> runs (tell op) Q.
Proof. intros HQ log. by exists tt, [op]. Qed.

Lemma runs_assert b (Q : unit -> list WriteOp -> Prop) : b = true -> Q tt [] -> runs (wassert b) Q.
Proof. intros -> HQ log. exists tt, []. rewrite app_nil_r. done. Qed.

(** ** Stored tries *)

(** The node a log leaves at a position. *)
Definition written (ops : list WriteOp) (k : Key.t) : option Node.t :=
  foldl (fun acc op => match op with
                       | PutNode k' _ n => if decide (k' = k) then Some n else acc
                       | _ => acc
                       end) None ops.

Lemma written_app ops1 ops2 k :
  written (ops1 ++ ops2) k
  = match written ops2 k with Some n => Some n | None => written ops1 k end.
Proof.
  unfold written. rewrite foldl_app. generalize (foldl (fun acc op => match op with
    | PutNode k' _ n => if decide (k' = k) then Some n else acc | _ => acc end) None ops1).
  induction ops2 as [|op ops2 IH] using rev_ind; intros acc; [done|].
  rewrite !foldl_app. cbn. rewrite IH. destruct op; try done. by case_decide.
Qed.

(** What a reader finds at a position: the newest node, if any. *)
Definition view := Key.t -> option Node.t.

Definition after (ops : list WriteOp) (rd : view) : view := fun k =>
  match written ops k with Some n => Some n | None => rd k end.

Definition reads_empty (o : option Node.t) : Prop := o = None \/ o = Some Node.Empty.

Section stored.
Context `{Hasher}.

(** The node of a trie's root position; [None] for the empty trie. *)
Definition node_of (t : trie) : option Node.t :=
  match t with
  | TEmpty => None
  | TLeaf k v => Some (Node.leaf k v)
  | TNode l r => Some (Node.Internal (HashedNode.hash (summary (TNode l r))))
  end.

Definition stored_at (rd : view) (p : list bool) (t : trie) : Prop :=
  match node_of t with
  | None => reads_empty (rd (key_of p))
  | Some n => rd (key_of p) = Some n
  end.

(** The view holds the trie [t] at the position [p]: every node of [t] is where readers of the
    tree look for it. *)
Fixpoint stored (rd : view) (p : list bool) (t : trie) : Prop :=
  stored_at rd p t /\
  match t with
  | TNode l r => stored rd (p ++ [false]) l /\ stored rd (p ++ [true]) r
  | _ => True
  end.

Definition stored_below (rd : view) (p : list bool) (t : trie) : Prop :=
  match t with
  | TNode l r => stored rd (p ++ [false]) l /\ stored rd (p ++ [true]) r
  | _ => True
  end.

(** No node is readable strictly below [p]. *)
Definition vacant (rd : view) (p : list bool) : Prop :=
  forall b q, length (p ++ b :: q) <= DEPTH -> reads_empty (rd (key_of (p ++ b :: q))).

(** No node is readable below a leaf or an empty position of [t]. *)
Fixpoint clean (rd : view) (p : list bool) (t : trie) : Prop :=
  match t with
  | TNode l r => clean rd (p ++ [false]) l /\ clean rd (p ++ [true]) r
  | _ => vacant rd p
  end.

(** Two views agree on [p] and below. *)
Definition agree (rd rd' : view) (p : list bool) : Prop :=
  forall q, length (p ++ q) <= DEPTH -> rd (key_of (p ++ q)) = rd' (key_of (p ++ q)).

(** The same, strictly below [p]. *)
Definition agree_below (rd rd' : view) (p : list bool) : Prop :=
  forall b q, length (p ++ b :: q) <= DEPTH ->
    rd (key_of (p ++ b :: q)) = rd' (key_of (p ++ b :: q)).

Lemma agree_child rd rd' p b : agree_below rd rd' p -> agree rd rd' (p ++ [b]).
Proof. intros Ha q Hq. rewrite <- app_assoc in *. by apply Ha. Qed.

Lemma agree_weaken rd rd' p : agree rd rd' p -> agree_below rd rd' p.
Proof. intros Ha b q Hq. by apply Ha. Qed.

Lemma agree_at rd rd' p : length p <= DEPTH -> agree rd rd' p -> rd (key_of p) = rd' (key_of p).
Proof. intros Hp Ha. specialize (Ha []). rewrite app_nil_r in Ha. by apply Ha. Qed.

Lemma stored_agree rd rd' p t :
  wf p t -> length p <= DEPTH -> agree rd rd' p -> stored rd p t -> stored rd' p t.
Proof.
  revert p; induction t as [|k v|l IHl r IHr]; intros p Hwf Hp Ha [Hat Hs].
  1,2: split; [|done]; unfold stored_at in *; by rewrite <- (agree_at rd rd' p).
  destruct Hwf as (Hlt & Hl & Hr & _), Hs as [Hsl Hsr]. split.
  { unfold stored_at in *. by rewrite <- (agree_at rd rd' p). }
  split; [apply IHl | apply IHr]; rewrite ?length_snoc; try done;
    by apply agree_child, agree_weaken.
Qed.

Lemma vacant_agree rd rd' p : agree_below rd rd' p -> vacant rd p -> vacant rd' p.
Proof. intros Ha Hv b q Hq. rewrite <- Ha by done. by apply Hv. Qed.

Lemma clean_agree rd rd' p t :
  wf p t -> agree_below rd rd' p -> clean rd p t -> clean rd' p t.
Proof.
  revert p; induction t as [|k v|l IHl r IHr]; intros p Hwf Ha; [apply vacant_agree, Ha..|].
  destruct Hwf as (Hlt & Hl & Hr & _). intros [Hcl Hcr].
  split; [apply IHl | apply IHr]; try done; by apply agree_weaken, agree_child.
Qed.

Lemma vacant_child rd p b : vacant rd p -> vacant rd (p ++ [b]).
Proof. intros Hv b' q Hq. rewrite <- app_assoc in *. by apply Hv. Qed.

Lemma vacant_stored rd p b :
  length p < DEPTH -> vacant rd p -> stored rd (p ++ [b]) TEmpty /\ clean rd (p ++ [b]) TEmpty.
Proof.
  intros Hp Hv. split; [|by apply vacant_child]. split; [|done]. apply Hv.
  rewrite length_app. cbn. lia.
Qed.

Lemma node_of_summary p t n : wf p t -> node_of t = Some n -> Node.summary n = summary t.
Proof.
  intros Hwf. destruct t as [|k v|l r]; cbn [node_of]; [done|..]; intros [= <-].
  - cbn in Hwf |- *. destruct Hwf as [_ Hv]. by rewrite summary_leaf.
  - pose proof (summary_kind p _ Hwf) as Hk. cbn [Node.summary].
    rewrite <- Hk. cbn [summary]. by destruct (HashedNode.internal _ _).
Qed.

Lemma node_of_hash p t n : wf p t -> node_of t = Some n -> Node.hash n = HashedNode.hash (summary t).
Proof.
  intros Hwf Hn. rewrite <- (node_of_summary p t n) by done.
  destruct t; cbn in Hn; simplify_eq/=; done.
Qed.
End stored.

(** *** Writes confined below a position *)

Definition confined (version : Z) (p : list bool) (ops : list WriteOp) : Prop :=
  Forall (fun op => match op with
                    | PutNode k v _ =>
                        v = version /\
                        exists b q, k = key_of (p ++ b :: q) /\ length (p ++ b :: q) <= DEPTH
                    | PutStaleNode _ => True
                    | _ => False
                    end) ops.

Lemma confined_child version p b ops :
  confined version (p ++ [b]) ops -> confined version p ops.
Proof.
  unfold confined. intros Hc. eapply Forall_impl; [exact Hc|]. intros [k v n| | |]; try done.
  intros (-> & b' & q & -> & Hq). split; [done|]. rewrite <- app_assoc in *. by eexists _, _.
Qed.

Lemma written_Some ops k n :
  written ops k = Some n -> exists v, PutNode k v n ∈ ops.
Proof.
  induction ops as [|op ops IH] using rev_ind; [done|]. rewrite written_app. cbn.
  destruct op as [k' v' n'| | |]; [case_decide as Hk|..].
  1: intros [= <-]; subst k'; exists v'; set_solver.
  all: intros Hw; apply IH in Hw as [v Hv]; exists v; set_solver.
Qed.

(** A confined log writes nothing at a position outside its subtree. *)
Lemma written_confined version p ops q :
  confined version p ops -> length q <= DEPTH ->
  (forall b s, q <> p ++ b :: s) -> written ops (key_of q) = None.
Proof.
  intros Hc Hq Hne. destruct (written ops (key_of q)) eqn:E; [|done].
  apply written_Some in E as [v Hin]. unfold confined in Hc. rewrite Forall_forall in Hc.
  destruct (Hc _ Hin) as (_ & b & s & Hk & Hl). apply key_of_inj in Hk; [|done..].
  by destruct (Hne b s).
Qed.

Section stored_lemmas.
Context `{Hasher}.

Definition is_node (t : trie) : Prop := match t with TNode _ _ => True | _ => False end.

Lemma stored_unfold rd p t : stored rd p t <-> stored_at rd p t /\ stored_below rd p t.
Proof. by destruct t. Qed.

Lemma stored_below_agree rd rd' p t :
  wf p t -> agree_below rd rd' p -> stored_below rd p t -> stored_below rd' p t.
Proof.
  destruct t as [|k v|l r]; [done..|]. intros (Hp & Hl & Hr & _) Ha [Hsl Hsr].
  split; (eapply stored_agree; [done | rewrite length_snoc; lia | by apply agree_child | done]).
Qed.

Lemma stored_at_eq rd rd' p t :
  rd (key_of p) = rd' (key_of p) -> stored_at rd p t -> stored_at rd' p t.
Proof. unfold stored_at. by intros ->. Qed.

(** A trie with two entries is an internal node. *)
Lemma two_entries_node d t k1 k2 :
  k1 <> k2 -> is_Some (tlookup d t k1) -> is_Some (tlookup d t k2) -> is_node t.
Proof.
  intros Hne [v1 H1] [v2 H2]. destruct t as [|k v|l r]; [done| |done].
  cbn in *. repeat case_decide; congruence.
Qed.
End stored_lemmas.

(** Writes at one position only. *)
Definition only_at (version : Z) (q : list bool) (ops : list WriteOp) : Prop :=
  Forall (fun op => match op with
                    | PutNode k v _ => v = version /\ k = key_of q
                    | PutStaleNode _ => True
                    | _ => False
                    end) ops.

Lemma only_at_confined version p b ops :
  length p < DEPTH -> only_at version (p ++ [b]) ops -> confined version p ops.
Proof.
  intros Hp Hc. eapply Forall_impl; [exact Hc|]. intros [k v n| | |]; try done.
  intros [-> ->]. split; [done|]. exists b, []. split; [done|]. rewrite length_snoc. lia.
Qed.

Lemma written_only_at version q ops k :
  only_at version q ops -> k <> key_of q -> written ops k = None.
Proof.
  intros Hc Hk. destruct (written ops k) eqn:E; [|done]. apply written_Some in E as [v Hin].
  unfold only_at in Hc. rewrite Forall_forall in Hc. by destruct (Hc _ Hin).
Qed.

(** The commitments of a subtree: strictly ascending keys under the position's prefix. *)
Definition batch_at (p : list bool) (cs : list Commitment) : Prop :=
  ascending cs /\ forall c, c ∈ cs -> has_prefix (key c) p.

(** Sorted MSB-first, the keys that go left precede the keys that go right. *)
Lemma batch_split p cs :
  length p < DEPTH -> batch_at p cs ->
  exists cs1 cs2, cs = cs1 ++ cs2 /\
    partition_point (fun u => negb (bit (key u) (length p))) cs = length cs1 /\
    batch_at (p ++ [false]) cs1 /\ batch_at (p ++ [true]) cs2.
Proof.
  intros Hp [Hs Hpre].
  destruct (monotone_partition _ (fun u => bit (key u) (length p)) cs Hs) as (cs1 & cs2 & -> & H1 & H2).
  { intros a b Ha Hb Hab. apply bit_monotone; [done| |by apply key_ltb_leb in Hab as [? _]].
    apply has_prefix_agree; auto. }
  exists cs1, cs2. apply StronglySorted_app_inv in Hs as (Hs1 & Hs2 & _).
  split; [done|]. split.
  { apply partition_point_app; (eapply Forall_impl; [eassumption|]); cbn; by intros c ->. }
  rewrite Forall_forall in H1, H2.
  split; (split; [done|]); intros c Hc; apply has_prefix_snoc; (split; [apply Hpre; set_solver | auto]).
Qed.

Lemma overlay_left p cs1 cs2 k old :
  batch_at (p ++ [true]) cs2 -> has_prefix k (p ++ [false]) ->
  overlay (cs1 ++ cs2) k old = overlay cs1 k old.
Proof.
  intros [_ H2] Hk. unfold overlay. rewrite committed_app, (proj2 (committed_None cs2 k)); [done|].
  intros c Hc <-. apply has_prefix_snoc in Hk as [_ Hk].
  specialize (H2 c Hc). apply has_prefix_snoc in H2 as [_ H2]. congruence.
Qed.

Lemma overlay_right p cs1 cs2 k old :
  batch_at (p ++ [false]) cs1 -> has_prefix k (p ++ [true]) ->
  overlay (cs1 ++ cs2) k old = overlay cs2 k old.
Proof.
  intros [_ H1] Hk. unfold overlay. rewrite committed_app.
  destruct (committed cs2 k); [done|]. rewrite (proj2 (committed_None cs1 k)); [done|].
  intros c Hc <-. apply has_prefix_snoc in Hk as [_ Hk].
  specialize (H1 c Hc). apply has_prefix_snoc in H1 as [_ H1]. congruence.
Qed.

(** The old leaf takes part in the update like one more commitment, unless it is overwritten. *)
Lemma merge_leaf p cs k0 v0 :
  batch_at p cs -> has_prefix k0 p -> v0 <> EMPTY_HASH ->
  let pos := partition_point (fun u => key_ltb (key u) k0) cs in
  let hit := from_option (fun u => bool_decide (key u = k0)) false (cs !! pos) in
  let merged := if hit then cs
                else take pos cs ++ [{| key := k0; value_hash := v0 |}] ++ drop pos cs in
  batch_at p merged /\ (live cs -> live merged) /\
  forall k, overlay merged k None = overlay cs k (tlookup (length p) (TLeaf k0 v0) k).
Proof.
  intros [Hs Hpre] Hk0 Hv0. cbv zeta.
  destruct (monotone_partition _ (fun u => negb (key_ltb (key u) k0)) cs Hs)
    as (cs1 & cs2 & -> & H1 & H2).
  { intros a b _ _ Hab. rewrite !negb_true_iff. intros Ha.
    destruct (key_ltb (key b) k0) eqn:E; [|done]. by rewrite (key_ltb_trans _ _ _ Hab E) in Ha. }
  assert (partition_point (fun u => key_ltb (key u) k0) (cs1 ++ cs2) = length cs1) as ->.
  { apply partition_point_app; (eapply Forall_impl; [eassumption|]); intros c;
      cbn; by destruct (key_ltb _ _). }
  pose proof Hs as Hsplit. apply StronglySorted_app_inv in Hsplit as (Hs1 & Hs2 & H12).
  rewrite lookup_app_r, Nat.sub_diag by lia. rewrite take_app_length, drop_app_length.
  destruct (from_option _ false (cs2 !! 0)) eqn:Hhit.
  - destruct cs2 as [|c cs2]; [done|]. apply bool_decide_eq_true in Hhit. split; [done|].
    split; [done|]. intros k. unfold overlay. cbn. case_decide as Hk; [|done].
    rewrite <- Hk, <- Hhit, committed_in; [done|by apply ascending_keys|set_solver].
  - assert (forall c, c ∈ cs1 -> key_ltb (key c) k0 = true) as Hlt.
    { rewrite Forall_forall in H1. intros c Hc. specialize (H1 c Hc). by destruct (key_ltb _ _). }
    assert (forall c, c ∈ cs2 -> key_ltb k0 (key c) = true) as Hgt.
    { destruct cs2 as [|c cs2]; [intros c Hc; by apply not_elem_of_nil in Hc|].
      apply bool_decide_eq_false in Hhit. apply Forall_cons in H2 as [Hc _].
      apply StronglySorted_inv in Hs2 as [_ Hs2]. rewrite Forall_forall in Hs2.
      assert (key_ltb k0 (key c) = true) as Hkc.
      { apply key_ltb_leb. split; [|done]. rewrite key_ltb_value in Hc. rewrite key_leb_value. lia. }
      intros c' Hc'. apply elem_of_cons in Hc' as [->|Hc']; [done|].
      eapply key_ltb_trans; [exact Hkc|by apply Hs2]. }
    split; [split|split].
    + apply StronglySorted_app_2; [|done|].
      * intros a b Ha Hb. apply elem_of_cons in Hb as [->|Hb]; [by apply Hlt | by apply H12].
      * constructor; [done|]. apply Forall_forall. intros c Hc. by apply Hgt.
    + intros c Hc. rewrite !elem_of_app, list_elem_of_singleton in Hc.
      destruct Hc as [Hc|[->|Hc]]; [apply Hpre; set_solver|done|apply Hpre; set_solver].
    + unfold live. rewrite !Forall_app. intros [? ?]. repeat (split; [by repeat constructor|]). done.
    + intros k. unfold overlay. cbn [tlookup]. rewrite !committed_app, committed_single.
      cbn [key value_hash].
      destruct (committed cs2 k) as [v|]; [done|]. case_decide as Hk; [|done]. subst k.
      rewrite decide_False by done. rewrite (proj2 (committed_None cs1 k0)); [done|].
      intros c Hc <-. apply Hlt in Hc. by rewrite key_ltb_irrefl in Hc.
Qed.

Section correct.
Context `{Hasher}.
Context (node : Key.t -> option (Z * Node.t)) (version : Z).

Let rd : view := fun k => snd <$> node k.

(** What an update of the subtree at [p] establishes: the returned node is the root of a
    canonical trie with the updated entries, the log stores its children below [p], and
    (under [guard]) an update without deletions leaves no stray node behind. *)
Definition updated (guard : trie -> Prop) (p : list bool) (old : ResourceId -> option (array 32))
    (cs : list Commitment) (r : option Node.t) (ops : list WriteOp) : Prop :=
  exists t', wf p t' /\ r = node_of t' /\
    (forall k, has_prefix k p -> tlookup (length p) t' k = overlay cs k (old k)) /\
    confined version p ops /\
    stored_below (after ops rd) p t' /\
    (live cs -> guard t' -> clean (after ops rd) p t').

Lemma write_child_runs q t :
  wf q t -> length q <= DEPTH ->
  runs (Updater.write_child node version (node_of t) (key_of q))
    (fun h ops => h = summary t /\ only_at version q ops /\ stored_at (after ops rd) q t).
Proof.
  intros Hwf Hq. unfold Updater.write_child, stored_at.
  destruct (node_of t) as [n|] eqn:Hn.
  - apply runs_bind, runs_tell, runs_ret. cbn. split; [by eapply node_of_summary|].
    split; [by repeat constructor|]. unfold after, written. cbn. by rewrite decide_True.
  - destruct t; try done. apply runs_bind. unfold rd.
    destruct (node (key_of q)) as [[v n]|] eqn:E; cbn [from_option].
    + destruct n; cbn [Updater.not_empty].
      * apply runs_ret, runs_ret. cbn. split; [done|]. split; [constructor|].
        right. unfold after. cbn. by rewrite E.
      * apply runs_bind, runs_tell, runs_tell, runs_ret. cbn. split; [done|].
        split; [by repeat constructor|]. right. unfold after, written. cbn. by rewrite decide_True.
      * apply runs_bind, runs_tell, runs_tell, runs_ret. cbn. split; [done|].
        split; [by repeat constructor|]. right. unfold after, written. cbn. by rewrite decide_True.
    + apply runs_ret, runs_ret. cbn. split; [done|]. split; [constructor|].
      left. unfold after. cbn. by rewrite E.
Qed.

(** The children's logs and the two [write_child] logs store the two children. *)
Lemma children_stored p l r opsl opsr wl wr :
  length p < DEPTH -> wf (p ++ [false]) l -> wf (p ++ [true]) r ->
  confined version (p ++ [false]) opsl -> confined version (p ++ [true]) opsr ->
  only_at version (p ++ [false]) wl -> only_at version (p ++ [true]) wr ->
  let rd' := after (opsl ++ opsr ++ wl ++ wr) rd in
  agree_below (after opsl rd) rd' (p ++ [false]) /\
  agree_below (after opsr rd) rd' (p ++ [true]) /\
  after wl rd (key_of (p ++ [false])) = rd' (key_of (p ++ [false])) /\
  after wr rd (key_of (p ++ [true])) = rd' (key_of (p ++ [true])).
Proof.
  intros Hp Hl Hr Hcl Hcr Hwl Hwr.
  assert (forall b b' s, p ++ [b] <> (p ++ [b']) ++ s \/ s = []) as Hnil.
  { intros b b' [|c s]; [by right|left]. rewrite <- app_assoc. intros E.
    apply app_inv_head in E. done. }
  assert (forall b s c q, b <> c -> (p ++ [b]) ++ s <> (p ++ [c]) ++ q) as Hne.
  { intros b s c q Hbc. rewrite <- !app_assoc. intros E. apply app_inv_head in E.
    by injection E. }
  assert (forall b ops c s, only_at version (p ++ [b]) ops ->
    length ((p ++ [c]) ++ s) <= DEPTH -> c <> b \/ s <> [] ->
    written ops (key_of ((p ++ [c]) ++ s)) = None) as Hoa.
  { intros b ops c s Ho Hs Hcs. eapply written_only_at; [done|]. intros E.
    apply key_of_inj in E; [|done|rewrite length_snoc; lia].
    destruct Hcs as [Hcb|Hs0].
    - apply (Hne c s b [] Hcb). by rewrite app_nil_r.
    - destruct s; [done|]. rewrite <- app_assoc in E. by apply app_inv_head in E. }
  assert (forall b ops c s, confined version (p ++ [b]) ops ->
    length ((p ++ [c]) ++ s) <= DEPTH -> c <> b \/ s = [] ->
    written ops (key_of ((p ++ [c]) ++ s)) = None) as Hco.
  { intros b ops c s Hc Hs Hcs. eapply written_confined; [done..|]. intros d q E.
    destruct Hcs as [Hcb| ->].
    - by apply (Hne c s b (d :: q) Hcb).
    - rewrite app_nil_r in E. by destruct (Hnil c b (d :: q)). }
  assert (length (p ++ [false]) <= DEPTH /\ length (p ++ [true]) <= DEPTH) as [Hf Ht]
    by (rewrite !length_snoc; lia).
  cbn. repeat split.
  - intros b s Hs. unfold after. rewrite !written_app.
    rewrite (Hoa true wr), (Hoa false wl), (Hco true opsr) by auto. done.
  - intros b s Hs. unfold after. rewrite !written_app.
    rewrite (Hoa true wr), (Hoa false wl) by auto.
    destruct (written opsr _); [done|]. rewrite (Hco false opsl) by auto. done.
  - unfold after. rewrite !written_app. rewrite <- (app_nil_r (p ++ [false])) in Hf |- *.
    rewrite (Hoa true wr), (Hco true opsr), (Hco false opsl) by auto.
    by destruct (written wl _).
  - unfold after. rewrite !written_app. rewrite <- (app_nil_r (p ++ [true])) in Ht |- *.
    rewrite (Hoa false wl), (Hco true opsr), (Hco false opsl) by auto.
    by destruct (written wr _).
Qed.

Lemma updated_ext (guard guard' : trie -> Prop) p old old' cs cs' r ops :
  (forall k, has_prefix k p -> overlay cs k (old k) = overlay cs' k (old' k)) ->
  (live cs' -> live cs) ->
  (forall t, wf p t -> (forall k, has_prefix k p -> tlookup (length p) t k = overlay cs' k (old' k)) ->
    live cs' -> guard' t -> guard t) ->
  updated guard p old cs r ops -> updated guard' p old' cs' r ops.
Proof.
  intros Ho Hl Hg (t' & Hwf & -> & Hlk & Hc & Hs & Hcl). exists t'.
  assert (forall k, has_prefix k p -> tlookup (length p) t' k = overlay cs' k (old' k)) as Hlk'
    by (intros k Hk; rewrite Hlk by done; auto).
  repeat (split; [done|]). intros Hl' Hg'. apply Hcl; [auto|]. by apply Hg.
Qed.

(** Reading back an untouched position. *)
Lemma stored_read p t :
  stored rd p t -> (n ← rd (key_of p); if Updater.not_empty n then Some n else None) = node_of t.
Proof.
  intros Hs. apply stored_unfold in Hs as [Hat _]. unfold stored_at in Hat.
  destruct t as [|k v|l r]; cbn [node_of] in *; [|by rewrite Hat..].
  by destruct Hat as [-> | ->].
Qed.

Section split.
Context (rec : Key.t -> list Commitment -> writer (option Node.t)) (p : list bool).
Context (l r : trie) (Hp : length p < DEPTH).
Context (Hrec : forall b cs, batch_at (p ++ [b]) cs ->
  runs (rec (key_of (p ++ [b])) cs)
    (updated (fun _ => True) (p ++ [b]) (tlookup (length (p ++ [b])) (child b l r)) cs)).

Let old k := tlookup (length (p ++ [bit k (length p)])) (child (bit k (length p)) l r) k.

Lemma split_lookup cs1 cs2 l' r' k :
  batch_at (p ++ [false]) cs1 -> batch_at (p ++ [true]) cs2 ->
  wf (p ++ [false]) l' -> wf (p ++ [true]) r' ->
  (forall k, has_prefix k (p ++ [false]) ->
     tlookup (length (p ++ [false])) l' k = overlay cs1 k (tlookup (length (p ++ [false])) l k)) ->
  (forall k, has_prefix k (p ++ [true]) ->
     tlookup (length (p ++ [true])) r' k = overlay cs2 k (tlookup (length (p ++ [true])) r k)) ->
  has_prefix k p ->
  tlookup (length p) (join l' r') k = overlay (cs1 ++ cs2) k (old k).
Proof.
  intros Hb1 Hb2 Hl Hr Hll Hlr Hk. rewrite tlookup_join by done. unfold old, child.
  destruct (bit k (length p)) eqn:E.
  - rewrite (overlay_right p), <- Hlr, length_snoc; [done|..]; try done; by apply has_prefix_snoc.
  - rewrite (overlay_left p), <- Hll, length_snoc; [done|..]; try done; by apply has_prefix_snoc.
Qed.

(** The last step of [split_and_recurse]: promote a lone leaf, or write both children. *)
Lemma promote_runs l' r' :
  wf (p ++ [false]) l' -> wf (p ++ [true]) r' ->
  runs (match node_of l', node_of r' with
        | None, None => mret None
        | Some (Node.Leaf _ _ _), None => mret (node_of l')
        | None, Some (Node.Leaf _ _ _) => mret (node_of r')
        | _, _ =>
            hl ← Updater.write_child node version (node_of l') (key_of (p ++ [false]));
            hr ← Updater.write_child node version (node_of r') (key_of (p ++ [true]));
            mret (Some (Node.internal hl hr))
        end)
    (fun res w => res = node_of (join l' r') /\
       ((~ is_node (join l' r') /\ w = []) \/
        (join l' r' = TNode l' r' /\ exists wl wr, w = wl ++ wr /\
           only_at version (p ++ [false]) wl /\ only_at version (p ++ [true]) wr /\
           stored_at (after wl rd) (p ++ [false]) l' /\
           stored_at (after wr rd) (p ++ [true]) r'))).
Proof using Hp.
  intros Hl Hr.
  assert (runs (hl ← Updater.write_child node version (node_of l') (key_of (p ++ [false]));
      hr ← Updater.write_child node version (node_of r') (key_of (p ++ [true]));
      mret (Some (Node.internal hl hr)))
    (fun res w => res = node_of (TNode l' r') /\ exists wl wr, w = wl ++ wr /\
       only_at version (p ++ [false]) wl /\ only_at version (p ++ [true]) wr /\
       stored_at (after wl rd) (p ++ [false]) l' /\
       stored_at (after wr rd) (p ++ [true]) r')) as Hw.
  { apply runs_bind. eapply runs_mono; [apply write_child_runs; [done|rewrite length_snoc; lia]|].
    intros hl wl (-> & Hwl & Hsl).
    apply runs_bind. eapply runs_mono; [apply write_child_runs; [done|rewrite length_snoc; lia]|].
    intros hr wr (-> & Hwr & Hsr). apply runs_ret. split; [done|].
    rewrite app_nil_r. eauto 10. }
  destruct l' as [|k v|ll lr], r' as [|k' v'|rl rr]; cbn [node_of join Node.leaf] in *;
    first [ apply runs_ret; split; [done|]; left; by split; [intros []|]
          | eapply runs_mono; [exact Hw|]; intros res w [-> Hx]; split; [done|]; right; done ].
Qed.

Lemma split_and_recurse_runs cs :
  batch_at p cs ->
  runs (Updater.split_and_recurse node version rec (key_of p) cs) (updated is_node p old cs).
Proof using Hp Hrec.
  intros Hb. destruct (batch_split p cs Hp Hb) as (cs1 & cs2 & -> & Hmid & Hb1 & Hb2).
  unfold Updater.split_and_recurse. rewrite level_key_of, Hmid.
  rewrite take_app_length, drop_app_length.
  apply runs_bind, runs_assert; [by apply Nat.ltb_lt|]. cbv beta zeta.
  change (Key.left_child (key_of p)) with (key_step (key_of p) false).
  change (Key.right_child (key_of p)) with (key_step (key_of p) true).
  rewrite <- !key_of_snoc.
  apply runs_bind. eapply runs_mono; [by apply (Hrec false)|].
  intros ? opsl (l' & Hwl & -> & Hll & Hcl & Hsl & Hkl).
  apply runs_bind. eapply runs_mono; [by apply (Hrec true)|].
  intros ? opsr (r' & Hwr & -> & Hlr & Hcr & Hsr & Hkr). cbn in Hll, Hlr.
  assert (forall k, has_prefix k p ->
    tlookup (length p) (join l' r') k = overlay (cs1 ++ cs2) k (old k)) as Hlk
    by (intros k Hk; by apply split_lookup).
  assert (confined version p (opsl ++ opsr)) as Hc.
  { apply Forall_app. split; by eapply confined_child. }
  eapply runs_mono; [by apply promote_runs|]. intros res w [-> Hw]. exists (join l' r').
  split; [by apply wf_join|]. split; [done|]. split; [done|].
  destruct Hw as [[Hn ->]|(-> & wl & wr & -> & Hal & Har & Hatl & Hatr)].
  { rewrite app_nil_r. split; [done|]. by destruct (join l' r'). }
  destruct (children_stored p l' r' opsl opsr wl wr) as (Hgl & Hgr & Hel & Her); [done..|].
  split; [|split].
  - apply Forall_app in Hc as [Hc1 Hc2].
    repeat (apply Forall_app; split); try done; by eapply only_at_confined.
  - split; apply stored_unfold; (split; [by eapply stored_at_eq|by eapply stored_below_agree]).
  - intros Hlive _. apply Forall_app in Hlive as [Hl1 Hl2].
    split; [eapply clean_agree; [exact Hwl|exact Hgl|auto]
           |eapply clean_agree; [exact Hwr|exact Hgr|auto]].
Qed.
End split.

(** Stale markers change no reads. *)
Definition stale_only (ops : list WriteOp) : Prop :=
  Forall (fun op => match op with PutStaleNode _ => True | _ => False end) ops.

Lemma stale_only_written ops k : stale_only ops -> written ops k = None.
Proof.
  intros Hs. destruct (written ops k) eqn:E; [|done]. apply written_Some in E as [v Hin].
  unfold stale_only in Hs. rewrite Forall_forall in Hs. by destruct (Hs _ Hin).
Qed.

Lemma mark_stale_runs k : runs (Updater.mark_stale node version k) (fun _ ops => stale_only ops).
Proof.
  unfold Updater.mark_stale. destruct (node k) as [[v n]|]; [apply runs_tell|apply runs_ret];
    by repeat constructor.
Qed.

Lemma updated_stale guard p old cs r ops ops' :
  stale_only ops -> updated guard p old cs r ops' -> updated guard p old cs r (ops ++ ops').
Proof.
  intros Hs (t' & Hwf & -> & Hlk & Hc & Hst & Hcl). exists t'.
  assert (forall q, agree_below (after ops' rd) (after (ops ++ ops') rd) q) as Ha.
  { intros q b s Hq. unfold after. rewrite written_app, (stale_only_written ops) by done.
    by destruct (written ops' _). }
  repeat (split; [done|]). split.
  { apply Forall_app. split; [|done]. eapply Forall_impl; [exact Hs|]. by intros []. }
  split; [by eapply stored_below_agree|]. intros Hl Hg. eapply clean_agree; auto.
Qed.

Lemma overlay_live cs k :
  NoDup (key <$> cs) ->
  overlay cs k None = committed (filter (fun u => value_hash u <> EMPTY_HASH) cs) k.
Proof.
  intros Hnd. unfold overlay. destruct (committed cs k) as [v|] eqn:E; [|symmetry].
  - apply committed_Some in E as (c & Hc & <- & <-). case_decide as Hv; symmetry.
    + apply committed_None. intros c' Hc' Hk. apply list_elem_of_filter in Hc' as [Hne Hin].
      pose proof (committed_in cs c Hnd Hc) as H1. pose proof (committed_in cs c' Hnd Hin) as H2.
      rewrite Hk, H1 in H2. congruence.
    + apply committed_in; [|by apply list_elem_of_filter].
      eapply sublist_NoDup; [exact Hnd|]. apply fmap_sublist, sublist_filter.
  - apply committed_None. intros c Hc. apply list_elem_of_filter in Hc as [_ Hc].
    by apply (proj1 (committed_None cs k) E).
Qed.

Lemma overlay_live_Some cs k o : live cs -> is_Some o -> is_Some (overlay cs k o).
Proof.
  intros Hl Ho. unfold overlay. destruct (committed cs k) as [v|] eqn:E; [|done].
  apply committed_Some in E as (c & Hc & _ & <-). unfold live in Hl. rewrite Forall_forall in Hl.
  rewrite decide_False by auto. eauto.
Qed.

Section node_step.
Context (rec : Key.t -> list Commitment -> writer (option Node.t)) (p : list bool).
Context (Hp : length p <= DEPTH) (Hvac : vacant rd p).
Context (Hrec : length p < DEPTH -> forall b cs, batch_at (p ++ [b]) cs ->
  runs (rec (key_of (p ++ [b])) cs)
    (updated (fun _ => True) (p ++ [b]) (tlookup (length (p ++ [b])) TEmpty) cs)).

Lemma resolve_leaves_runs cs :
  batch_at p cs ->
  runs (Updater.resolve_leaves node version rec (key_of p) cs)
    (updated (fun _ => True) p (fun _ => None) cs).
Proof using Hp Hvac Hrec.
  intros Hb. pose proof (ascending_keys _ (proj1 Hb)) as Hnd. unfold Updater.resolve_leaves.
  assert (forall c, c ∈ filter (fun u => value_hash u <> EMPTY_HASH) cs ->
    has_prefix (key c) p /\ value_hash c <> EMPTY_HASH) as Hfl.
  { intros c Hc. apply list_elem_of_filter in Hc as [Hv Hc]. split; [by apply Hb | done]. }
  assert (NoDup (key <$> filter (fun u => value_hash u <> EMPTY_HASH) cs)) as Hndf.
  { eapply sublist_NoDup; [exact Hnd|]. apply fmap_sublist, sublist_filter. }
  pose proof (fun k => overlay_live cs k Hnd) as Ho.
  destruct (filter (fun u => value_hash u <> EMPTY_HASH) cs) as [|c1 [|c2 lv]].
  - apply runs_ret. exists TEmpty. split; [done|]. split; [done|].
    split; [intros k _; by rewrite Ho|]. split; [constructor|]. split; [done|]. intros _ _. exact Hvac.
  - apply runs_ret. exists (TLeaf (key c1) (value_hash c1)). split; [apply Hfl; set_solver|].
    split; [done|]. split; [intros k _; by rewrite Ho, committed_single|].
    split; [constructor|]. split; [done|]. intros _ _. exact Hvac.
  - assert (key c1 <> key c2) as Hne by (apply NoDup_cons in Hndf as [Hn _]; set_solver).
    assert (length p < DEPTH) as Hlt.
    { destruct (Nat.lt_ge_cases (length p) DEPTH) as [|Hge]; [done|]. exfalso. apply Hne.
      apply (has_prefix_full _ _ p); [done|apply Hfl; set_solver..]. }
    eapply runs_mono.
    { eapply (split_and_recurse_runs rec p TEmpty TEmpty Hlt); [|done].
      intros [] cs'; by apply Hrec. }
    intros r ops. apply updated_ext; [by intros k _; destruct (bit k (length p))|done|].
    intros t Hwf Hlk _ _.
    apply (two_entries_node (length p) t (key c1) (key c2)); [done|..];
      (rewrite Hlk by (apply Hfl; set_solver); rewrite Ho).
    + rewrite (committed_in (c1 :: c2 :: lv) c1); [eauto|done|set_solver].
    + rewrite (committed_in (c1 :: c2 :: lv) c2); [eauto|done|set_solver].
Qed.

Lemma update_at_leaf_runs cs k0 v0 :
  wf p (TLeaf k0 v0) -> batch_at p cs ->
  runs (Updater.update_at_leaf node version rec (key_of p) cs k0 v0)
    (updated (fun _ => True) p (tlookup (length p) (TLeaf k0 v0)) cs).
Proof using Hp Hvac Hrec.
  intros [Hk0 Hv0] Hb. unfold Updater.update_at_leaf.
  apply runs_bind. eapply runs_mono; [apply mark_stale_runs|]. intros ? ops0 Hst.
  eapply runs_mono; [|intros r ops; by apply updated_stale]. cbv zeta.
  destruct (merge_leaf p cs k0 v0 Hb Hk0 Hv0) as (Hbm & Hlm & Hom). cbv zeta in Hbm, Hlm, Hom.
  match goal with |- runs (match cs with [] => ?g | _ => _ end) _ =>
    assert (runs g (updated (fun _ => True) p (tlookup (length p) (TLeaf k0 v0)) cs)) as Hg end.
  { destruct (from_option _ false _);
      (eapply runs_mono; [by apply resolve_leaves_runs|]; intros r ops; by apply updated_ext). }
  destruct cs as [|u [|u' cs]]; [done| |done].
  case_bool_decide as Hk; [|done]. subst k0.
  case_bool_decide as Hv; apply runs_ret.
  - exists TEmpty. split; [done|]. split; [done|]. split.
    { intros k _. unfold overlay. rewrite committed_single. cbn.
      repeat case_decide; congruence. }
    split; [constructor|]. split; [done|]. intros _ _. exact Hvac.
  - exists (TLeaf (key u) (value_hash u)). split; [done|]. split; [done|]. split.
    { intros k _. unfold overlay. rewrite committed_single. cbn.
      repeat case_decide; congruence. }
    split; [constructor|]. split; [done|]. intros _ _. exact Hvac.
Qed.

End node_step.

Lemma update_subtree_runs fuel p t cs :
  length p + fuel = S DEPTH -> length p <= DEPTH ->
  wf p t -> stored rd p t -> clean rd p t -> batch_at p cs ->
  runs (Updater.update_subtree node version fuel (key_of p) cs)
    (updated (fun _ => True) p (tlookup (length p) t) cs).
Proof.
  revert p t cs; induction fuel as [|fuel IH]; intros p t cs Hf Hp Hwf Hst Hcl Hb; [lia|].
  assert (length p < DEPTH -> vacant rd p -> forall b cs, batch_at (p ++ [b]) cs ->
    runs (Updater.update_subtree node version fuel (key_of (p ++ [b])) cs)
      (updated (fun _ => True) (p ++ [b]) (tlookup (length (p ++ [b])) TEmpty) cs)) as Hempty.
  { intros Hlt Hvac b cs' Hb'. destruct (vacant_stored rd p b Hlt Hvac) as [??].
    apply IH; rewrite ?length_snoc; [lia|lia|done..]. }
  cbn [Updater.update_subtree].
  destruct cs as [|c cs'] eqn:Hcs.
  { change (snd <$> node (key_of p)) with (rd (key_of p)). rewrite (stored_read p t Hst).
    apply runs_ret. exists t. split; [done|]. split; [done|]. split; [done|].
    split; [constructor|]. split; [by apply stored_unfold in Hst as [_ ?]|]. done. }
  rewrite <- Hcs in *. clear c cs' Hcs. change (snd <$> node (key_of p)) with (rd (key_of p)).
  apply stored_unfold in Hst as [Hat Hbelow]. unfold stored_at in Hat.
  destruct t as [|k0 v0|l r]; cbn [node_of] in Hat.
  - destruct Hat as [-> | ->]; [by apply resolve_leaves_runs; auto|].
    apply runs_bind. eapply runs_mono; [apply mark_stale_runs|]. intros ? ops0 Hs0.
    eapply runs_mono; [|intros r ops; by apply updated_stale]. by apply resolve_leaves_runs; auto.
  - rewrite Hat. cbn [Node.leaf]. apply update_at_leaf_runs; auto.
  - rewrite Hat. apply runs_bind. eapply runs_mono; [apply mark_stale_runs|]. intros ? ops0 Hs0.
    eapply runs_mono; [|intros ? ops; by apply updated_stale].
    pose proof Hwf as (Hlt & Hl & Hr & _). destruct Hbelow as [Hsl Hsr], Hcl as [Hcl Hcr].
    eapply runs_mono.
    { apply (split_and_recurse_runs _ p l r Hlt); [|done].
      intros [] cs' Hb'; apply IH; rewrite ?length_snoc; done || lia. }
    intros res ops. apply updated_ext.
    { intros k _. by rewrite tlookup_node. }
    { done. }
    intros t Hwt Hlk Hlive _.
    destruct (wf_node_two p l r Hwf) as (k1 & k2 & Hne & Hk1 & Hk2 & H1 & H2).
    apply (two_entries_node (length p) t k1 k2); [done|..]; rewrite Hlk by done;
      by apply overlay_live_Some.
Qed.
End correct.

(** ** The versioned node store and tree.rs *)

(** What a log does to the node of one position and version: [Some None] deletes it. *)
Definition effect (ops : list WriteOp) (k : Key.t) (v : Z) : option (option Node.t) :=
  foldl (fun acc op => match op with
                       | PutNode k' v' n => if decide (k' = k /\ v' = v) then Some (Some n) else acc
                       | DeleteNode k' v' => if decide (k' = k /\ v' = v) then Some None else acc
                       | _ => acc
                       end) None ops.

(** Machine-width bounds of the node operations: [u16] levels and [u64] versions. *)
Definition key_ok (k : Key.t) : Prop := u16 (Z.of_nat (Key.level k)).
Definition op_ok (op : WriteOp) : Prop :=
  match op with
  | PutNode k v _ | DeleteNode k v => key_ok k /\ u64 v
  | PutStaleNode _ | DeleteStaleNode _ => True
  end.

(** The required methods of [Tree] and the commit of a [WriteBatch], with the promises the
    default methods rely on: in a well-formed store a lookup returns the newest visible version not
    above its bound, and a committed log can be read at the versions the store's snapshot shows. *)
Class NodeStore (St : Type) := {
  store_ok : St -> Prop;
  visible : St -> Z -> bool;
  node_at : St -> Key.t -> Z -> option Node.t;
  tree_node : St -> Key.t -> Z -> option (Z * Node.t);
  commit : St -> list WriteOp -> St
}.

Class NodeStoreOk (St : Type) `{NodeStore St} := {
  tree_node_newest s k max v n :
    store_ok s -> key_ok k -> u64 max ->
    tree_node s k max = Some (v, n) <->
    (0 <= v <= max)%Z /\ node_at s k v = Some n /\
    forall v', (v < v' <= max)%Z -> node_at s k v' = None;
  tree_node_None s k max :
    store_ok s -> key_ok k -> u64 max ->
    tree_node s k max = None <-> forall v, (0 <= v <= max)%Z -> node_at s k v = None;
  commit_node_at s ops k v :
    store_ok s -> Forall op_ok ops -> key_ok k -> u64 v -> visible s v = true ->
    node_at (commit s ops) k v = default (node_at s k v) (effect ops k v);
  node_at_hidden s k v : visible s v = false -> node_at s k v = None;
  commit_visible s ops v : visible (commit s ops) v = visible s v;
  commit_ok s ops : store_ok s -> Forall op_ok ops -> store_ok (commit s ops)
}.

Module Tree.
Section tree.
Context `{Hasher} {St : Type} `{NodeStore St}.

Definition root (s : St) (version : Z) : array 32 :=
  if (version =? 0)%Z then EMPTY_HASH
  else from_option (fun '(_, d) => Node.hash d) EMPTY_HASH (tree_node s Key.ROOT version).

Definition update (s : St) (commitments : list Commitment) (version : Z)
    : outcome Error (array 32 * list WriteOp) :=
  _ ← assert (0 <? version)%Z;
  match commitments with
  | [] => Ok (root s (version - 1)%Z, [])
  | _ => Updater.apply (fun k => tree_node s k (version - 1)%Z) version commitments []
  end.
End tree.
End Tree.

(** The tree's clients commit one batch per version. *)
Fixpoint run_updates `{Hasher} {St} `{NodeStore St} (s : St) (v : Z) (batches : list (list Commitment))
    : outcome Error (list (array 32) * St) :=
  match batches with
  | [] => Ok ([], s)
  | cs :: batches =>
      '(r, ops) ← Tree.update s cs v;
      '(rs, s) ← run_updates (commit s ops) (v + 1)%Z batches;
      Ok (r :: rs, s)
  end.

Section tree_correct.
Context `{Hasher} {St : Type} `{NodeStoreOk St}.

Definition view_at (s : St) (v : Z) : view := fun k => snd <$> tree_node s k v.

(** The store [s] holds, as of version [v], the canonical trie of the map [m]; no node has a
    version outside [1, v]. *)
Definition represents (s : St) (v : Z) (m : gmap ResourceId (array 32)) : Prop :=
  store_ok s /\ (forall k v', key_ok k -> u64 v' -> is_Some (node_at s k v') -> 0 < v' <= v)%Z /\
  exists t, wf [] t /\ (forall k, tlookup 0 t k = m !! k) /\ stored (view_at s v) [] t.

(** In addition no stray node is readable below the trie's leaves. *)
Definition represents_clean (s : St) (v : Z) (m : gmap ResourceId (array 32)) : Prop :=
  store_ok s /\ (forall k v', key_ok k -> u64 v' -> is_Some (node_at s k v') -> 0 < v' <= v)%Z /\
  exists t, wf [] t /\ (forall k, tlookup 0 t k = m !! k) /\
    stored (view_at s v) [] t /\ clean (view_at s v) [] t.

Lemma represents_weaken s v m : represents_clean s v m -> represents s v m.
Proof. intros (Hok & Hv & t & ? & ? & ? & _). split; [done|]. split; [done|]. by exists t. Qed.

Lemma key_of_ok p : length p <= DEPTH -> key_ok (key_of p).
Proof. intros Hp. unfold key_ok, u16, DEPTH in *. rewrite level_key_of. lia. Qed.

Lemma represents_root s v m : u64 v -> represents s v m -> Tree.root s v = root_of m.
Proof.
  intros Hu (Hok & Hv & t & Hwf & Hlk & Hst). rewrite <- (root_of_trie m t) by done.
  unfold Tree.root. apply stored_unfold in Hst as [Hat _]. unfold stored_at, view_at in Hat.
  change (key_of []) with Key.ROOT in Hat.
  assert (from_option (fun '(_, d) => Node.hash d) EMPTY_HASH (tree_node s Key.ROOT v)
          = HashedNode.hash (summary t)) as Hr.
  { destruct (node_of t) as [n|] eqn:E.
    - rewrite <- (node_of_hash [] t n) by done.
      destruct (tree_node s Key.ROOT v) as [[v' n']|]; cbn in Hat; [|done]. by injection Hat as ->.
    - destruct t; try done. destruct (tree_node s Key.ROOT v) as [[v' n']|]; [|done].
      destruct Hat as [|[= ->]]; done. }
  destruct (Z.eqb_spec v 0) as [->|]; [|done]. rewrite <- Hr.
  rewrite (proj2 (tree_node_None s Key.ROOT 0 Hok (key_of_ok [] ltac:(cbn; lia)) Hu)); [done|].
  intros v' Hv'. destruct (node_at s Key.ROOT v') eqn:E; [|done]. exfalso.
  specialize (Hv Key.ROOT v' (key_of_ok [] ltac:(cbn; lia))). rewrite E in Hv. unfold u64 in *.
  destruct Hv; [lia|eauto|lia].
Qed.

(** Reads as of an older version do not see a log written at a newer one. *)
Lemma tree_node_ext s s' k max :
  store_ok s -> store_ok s' -> key_ok k -> u64 max ->
  (forall v, (0 <= v <= max)%Z -> node_at s k v = node_at s' k v) ->
  tree_node s k max = tree_node s' k max.
Proof.
  intros Hs Hs' Hk Hm He. destruct (tree_node s' k max) as [[v n]|] eqn:E.
  - apply tree_node_newest in E as (Hv & Hn & Hlast); [|done..].
    apply tree_node_newest; [done..|]. split; [done|]. split; [by rewrite He|].
    intros v' Hv'. rewrite He by lia. auto.
  - apply tree_node_None; [done..|]. intros v Hv. rewrite He by done.
    by apply (proj1 (tree_node_None s' k max Hs' Hk Hm)).
Qed.

(** Reads at a later version see the same node when nothing was written in between. *)
Lemma tree_node_raise s k t v :
  store_ok s -> key_ok k -> u64 t -> u64 v -> (t <= v)%Z ->
  (forall w, (t < w <= v)%Z -> node_at s k w = None) -> tree_node s k v = tree_node s k t.
Proof.
  intros Hs Hk Ht Hv Hle Hn. destruct (tree_node s k t) as [[w n]|] eqn:E.
  - apply tree_node_newest in E as (Hw & Hwn & Hlast); [|done..].
    apply tree_node_newest; [done..|]. split; [lia|]. split; [done|]. intros w' Hw'.
    destruct (Z.le_gt_cases w' t); [apply Hlast|apply Hn]; lia.
  - apply tree_node_None; [done..|]. intros w Hw.
    destruct (Z.le_gt_cases w t); [|apply Hn; lia].
    apply (proj1 (tree_node_None s k t Hs Hk Ht) E). lia.
Qed.

(** A store that shows the same nodes up to [t] and none after it represents the same map, at
    every version from [t] on. *)
Lemma represents_clean_transfer s s' t v m :
  store_ok s' -> u64 t -> u64 v -> (t <= v)%Z ->
  (forall k w, key_ok k -> u64 w ->
    node_at s' k w = if (w <=? t)%Z then node_at s k w else None) ->
  represents_clean s t m -> represents_clean s' v m.
Proof.
  intros Hs' Ht Hv Hle Hn (Hs & Hver & tr & Hwf & Hlk & Hst & Hcl). split; [done|]. split.
  { intros k w Hk Hw. rewrite Hn by done. destruct (Z.leb_spec w t); [|by intros [??]].
    intros Hs0. specialize (Hver k w Hk Hw Hs0). lia. }
  assert (agree (view_at s t) (view_at s' v) []) as Hag.
  { intros q Hq. unfold view_at. f_equal. pose proof (key_of_ok q Hq) as Hk.
    rewrite (tree_node_raise s' _ t v); try done.
    - apply tree_node_ext; try done. intros w Hw. unfold u64 in *. rewrite Hn by (done || lia).
      by rewrite (proj2 (Z.leb_le w t)) by lia.
    - intros w Hw. unfold u64 in *. rewrite Hn by (done || lia). by rewrite (proj2 (Z.leb_gt w t)) by lia. }
  exists tr. split; [done|]. split; [done|]. split.
  - eapply stored_agree; [done|cbn; lia|exact Hag|done].
  - eapply clean_agree; [done|by apply agree_weaken|done].
Qed.

(** The log of one update: puts at the new version, at tree positions. *)
Definition update_log (version : Z) (ops : list WriteOp) : Prop :=
  Forall (fun op => match op with
                    | PutNode k v _ => v = version /\ key_ok k
                    | PutStaleNode _ => True
                    | _ => False
                    end) ops.

Lemma update_log_ok version ops : u64 version -> update_log version ops -> Forall op_ok ops.
Proof. intros Hu Hl. eapply Forall_impl; [exact Hl|]. intros []; cbn; [by intros [-> ?]|done..]. Qed.

Lemma confined_log version p ops : confined version p ops -> update_log version ops.
Proof.
  intros Hc. eapply Forall_impl; [exact Hc|]. intros []; [|done..].
  intros (-> & b & q & -> & Hq). split; [done|]. by apply key_of_ok.
Qed.

Lemma effect_log version ops k v :
  update_log version ops ->
  effect ops k v = if decide (v = version) then Some <$> written ops k else None.
Proof.
  intros Hl. unfold effect, written. induction ops as [|op ops IH] using rev_ind.
  { cbn. by case_decide. }
  apply Forall_app in Hl as [Hl Hop]. apply Forall_inv in Hop.
  rewrite !foldl_app. cbn [foldl]. rewrite (IH Hl).
  destruct op; [|done|destruct Hop|destruct Hop]. destruct Hop as [-> _].
  repeat case_decide; try done; naive_solver.
Qed.

(** An update's log at a visible version adds its puts and changes nothing else. *)
Lemma commit_log_at s ops version k v :
  store_ok s -> u64 version -> visible s version = true -> update_log version ops ->
  key_ok k -> u64 v ->
  node_at (commit s ops) k v
  = default (node_at s k v) (if decide (v = version) then Some <$> written ops k else None).
Proof.
  intros Hs Hu Hvis Hl Hk Hv. destruct (visible s v) eqn:E.
  - rewrite commit_node_at, (effect_log version); try done. by apply (update_log_ok version).
  - rewrite !node_at_hidden; [|done|by rewrite commit_visible].
    rewrite decide_False by congruence. done.
Qed.

Lemma view_at_commit s ops version k :
  store_ok s -> u64 version -> (0 < version)%Z -> visible s version = true ->
  update_log version ops -> key_ok k ->
  node_at s k version = None ->
  view_at (commit s ops) version k = after ops (view_at s (version - 1)) k.
Proof.
  intros Hs Hu Hpos Hvis Hl Hk Hn. unfold view_at, after.
  pose proof (update_log_ok version ops Hu Hl) as Hok. pose proof (commit_ok s ops Hs Hok) as Hsc.
  assert (u64 (version - 1)) as Hu1 by (unfold u64 in *; lia).
  assert (forall v, u64 v -> node_at (commit s ops) k v
    = default (node_at s k v) (if decide (v = version) then Some <$> written ops k else None)) as Hc.
  { intros v Hv. by apply commit_log_at. }
  destruct (written ops k) as [n|] eqn:E.
  - rewrite (proj2 (tree_node_newest (commit s ops) k version version n Hsc Hk Hu)); [done|].
    split; [lia|]. split; [|lia]. rewrite Hc by done. by rewrite decide_True.
  - f_equal. transitivity (tree_node s k version).
    { apply tree_node_ext; [done..|]. intros v Hv. rewrite Hc by (unfold u64 in *; lia).
      by destruct (decide (v = version)). }
    apply tree_node_raise; [done..|lia|]. intros w Hw. by replace w with version by lia.
Qed.

Lemma apply_runs (nd : Key.t -> option (Z * Node.t)) version t cs :
  wf [] t -> stored (fun k => snd <$> nd k) [] t -> clean (fun k => snd <$> nd k) [] t ->
  runs (Updater.apply nd version cs) (fun r ops =>
    exists t', wf [] t' /\ r = HashedNode.hash (summary t') /\
      (forall k, tlookup 0 t' k = overlay cs k (tlookup 0 t k)) /\
      update_log version ops /\
      stored (after ops (fun k => snd <$> nd k)) [] t' /\
      (live cs -> clean (after ops (fun k => snd <$> nd k)) [] t')).
Proof.
  intros Hwf Hst Hcl. unfold Updater.apply. cbv zeta. apply runs_bind. eapply runs_mono.
  { apply (update_subtree_runs nd version (S DEPTH) [] t); try done; [cbn; lia|].
    split; [apply dedup_sort_ascending|]. intros c _. apply has_prefix_nil. }
  intros r ops (t' & Hwf' & -> & Hlk & Hc & Hsb & Hcl').
  assert (forall k, tlookup 0 t' k = overlay cs k (tlookup 0 t k)) as Hlk'.
  { intros k. etransitivity; [exact (Hlk k (has_prefix_nil k))|]. unfold overlay.
    by rewrite committed_dedup, committed_sort. }
  assert (forall n, agree_below (after ops (fun k => snd <$> nd k))
    (after (ops ++ [PutNode Key.ROOT version n]) (fun k => snd <$> nd k)) []) as Ha.
  { intros n b q Hq. unfold after. rewrite written_app. unfold written at 2. cbn [foldl].
    rewrite decide_False; [done|]. intros E. change Key.ROOT with (key_of []) in E.
    apply key_of_inj in E; [done|cbn;lia|done]. }
  assert (forall n, update_log version (ops ++ [PutNode Key.ROOT version n])) as Hul.
  { intros n. apply Forall_app. split; [by eapply confined_log|]. constructor; [|done].
    split; [done|]. apply (key_of_ok []). cbn. lia. }
  assert (forall n, after (ops ++ [PutNode Key.ROOT version n]) (fun k => snd <$> nd k) (key_of [])
    = Some n) as Hroot.
  { intros n. unfold after. rewrite written_app. unfold written. cbn. by rewrite decide_True. }
  destruct (node_of t') as [n|] eqn:En.
  all: apply runs_bind, runs_tell, runs_ret; exists t'; split; [done|]; rewrite app_nil_r.
  - split; [by apply (node_of_hash [] t')|]. split; [done|]. split; [done|]. split.
    + apply stored_unfold. split; [|by eapply stored_below_agree].
      unfold stored_at. by rewrite En, Hroot.
    + intros Hlive. eapply clean_agree; [done|apply Ha|]. apply Hcl'; [|done]. by apply dedup_sort_live.
  - destruct t'; try done. split; [done|]. split; [done|]. split; [done|]. split.
    + apply stored_unfold. split; [|done]. unfold stored_at. cbn. right. apply Hroot.
    + intros Hlive. eapply clean_agree; [done|apply Ha|]. apply Hcl'; [|done]. by apply dedup_sort_live.
Qed.

(** One update: the returned root commits to the updated map, the committed log represents it,
    and a batch without deletions keeps the store clean. *)
Lemma update_step s m cs v :
  u64 v -> (0 < v)%Z -> visible s v = true -> represents_clean s (v - 1) m ->
  exists ops, Tree.update s cs v = Ok (root_of (apply_commitments m cs), ops) /\
    update_log v ops /\
    represents (commit s ops) v (apply_commitments m cs) /\
    (live cs -> represents_clean (commit s ops) v (apply_commitments m cs)).
Proof.
  intros Hu Hpos Hvis Hrep. assert (u64 (v - 1)) as Hu1 by (unfold u64 in *; lia).
  pose proof Hrep as (Hok & Hver & t & Hwf & Hlk & Hst & Hcl).
  assert (exists t' ops, Tree.update s cs v = Ok (root_of (apply_commitments m cs), ops) /\
    update_log v ops /\ wf [] t' /\
    (forall k, tlookup 0 t' k = apply_commitments m cs !! k) /\
    stored (after ops (view_at s (v - 1))) [] t' /\
    (live cs -> clean (after ops (view_at s (v - 1))) [] t'))
    as (t' & ops & Hupd & Hlog & Hwf' & Hlk' & Hst' & Hcl').
  { unfold Tree.update, assert. rewrite (proj2 (Z.ltb_lt _ _) Hpos). cbn [mbind outcome_bind].
    destruct cs as [|c cs'].
    - exists t, []. rewrite (represents_root s (v - 1) m) by (done || by apply represents_weaken).
      split; [done|]. split; [constructor|]. done.
    - destruct (apply_runs (fun k => tree_node s k (v - 1)) v t (c :: cs') Hwf Hst Hcl [])
        as (r & ops & Hrun & t' & Hwf' & -> & Hlk' & Hlog & Hst' & Hcl').
      exists t', ops. rewrite Hrun. cbn [app].
      assert (forall k, tlookup 0 t' k = apply_commitments m (c :: cs') !! k) as Hlk2.
      { intros k. by rewrite Hlk', apply_commitments_lookup, Hlk. }
      by rewrite (root_of_trie _ t' Hwf' Hlk2). }
  exists ops. split; [done|]. split; [done|].
  pose proof (commit_ok s ops Hok (update_log_ok v ops Hu Hlog)) as Hok'.
  assert (forall k v', key_ok k -> u64 v' -> is_Some (node_at (commit s ops) k v') ->
    0 < v' <= v)%Z as Hver'.
  { intros k v' Hk Hv' Hn. rewrite (commit_log_at s ops v) in Hn by done.
    case_decide; [lia|]. specialize (Hver k v' Hk Hv' Hn). lia. }
  assert (agree (after ops (view_at s (v - 1))) (view_at (commit s ops) v) []) as Hag.
  { intros q Hq. symmetry. apply view_at_commit; try done; [by apply key_of_ok|].
    destruct (node_at s (key_of q) v) eqn:E; [|done]. exfalso.
    specialize (Hver (key_of q) v (key_of_ok q Hq) Hu). rewrite E in Hver.
    destruct Hver; [eauto|lia]. }
  assert (stored (view_at (commit s ops) v) [] t') as Hst2
    by (eapply stored_agree; [done|cbn; lia|exact Hag|done]).
  split; [by split; [|split; [|exists t']] |]. intros Hlive. split; [done|]. split; [done|]. exists t'.
  repeat (split; [done|]). eapply clean_agree; [done|by apply agree_weaken|auto].
Qed.

(** Committing an update at [v] leaves every earlier root readable. *)
Lemma root_frozen s ops v v' :
  store_ok s -> u64 v -> visible s v = true -> update_log v ops -> (0 <= v' < v)%Z ->
  Tree.root (commit s ops) v' = Tree.root s v'.
Proof.
  intros Hs Hu Hvis Hlog Hv'. unfold Tree.root. destruct (v' =? 0)%Z; [done|]. f_equal.
  pose proof (commit_ok s ops Hs (update_log_ok v ops Hu Hlog)) as Hsc.
  assert (key_ok Key.ROOT) as Hk by (apply (key_of_ok []); cbn; lia).
  apply tree_node_ext; [done|done|done|unfold u64 in *; lia|]. intros w Hw.
  rewrite (commit_log_at s ops v); try done; [by rewrite decide_False by lia|unfold u64 in *; lia].
Qed.

(** The states a sequence of batches goes through. *)
Fixpoint states (m : gmap ResourceId (array 32)) (batches : list (list Commitment))
    : list (gmap ResourceId (array 32)) :=
  match batches with
  | [] => []
  | cs :: batches => apply_commitments m cs :: states (apply_commitments m cs) batches
  end.

Definition final (m : gmap ResourceId (array 32)) (batches : list (list Commitment)) :=
  foldl apply_commitments m batches.

(** Batches whose deletions, if any, are all in the last one. *)
Fixpoint deletes_last (batches : list (list Commitment)) : Prop :=
  match batches with
  | [] | [_] => True
  | cs :: batches => live cs /\ deletes_last batches
  end.

Lemma run_updates_spec batches : forall s m v,
  (0 < v)%Z -> (v + Z.of_nat (length batches) <= 2 ^ 64)%Z ->
  (forall w, (v <= w < v + Z.of_nat (length batches))%Z -> visible s w = true) ->
  represents_clean s (v - 1) m -> deletes_last batches ->
  exists s', run_updates s v batches = Ok (root_of <$> states m batches, s') /\
    represents s' (v + Z.of_nat (length batches) - 1) (final m batches) /\
    (forall v', (0 <= v' < v)%Z -> Tree.root s' v' = Tree.root s v') /\
    (forall i m', states m batches !! i = Some m' -> Tree.root s' (v + Z.of_nat i) = root_of m').
Proof.
  induction batches as [|cs batches IH]; intros s m v Hpos Hb Hvis Hrep Hd; cbn [length] in *.
  { exists s. split; [done|]. rewrite Z.add_0_r. split; [by apply represents_weaken|]. done. }
  assert (u64 v) as Hu by (unfold u64; lia). pose proof Hrep as [Hok _].
  assert (visible s v = true) as Hv by (apply Hvis; lia).
  destruct (update_step s m cs v Hu Hpos Hv Hrep) as (ops & Hup & Hlog & Hr & Hrc).
  cbn [run_updates states]. rewrite Hup. cbn [mbind outcome_bind].
  pose proof (represents_root _ _ _ Hu Hr) as Hroot.
  destruct batches as [|cs' batches].
  { exists (commit s ops). split; [done|]. cbn [length]. replace (v + Z.of_nat 1 - 1)%Z with v by lia.
    split; [done|]. split; [intros v' Hv'; by eapply root_frozen|].
    intros [|i] m'; [|done]. cbn. intros [= <-]. by rewrite Z.add_0_r. }
  destruct Hd as [Hlive Hd]. remember (cs' :: batches) as bs eqn:Hbs. clear Hbs cs' batches.
  destruct (IH (commit s ops) (apply_commitments m cs) (v + 1)%Z) as (s' & Hrun & Hrep' & Hold & Hnew);
    [lia|lia| | |done|].
  { intros w Hw. rewrite commit_visible. apply Hvis. lia. }
  { replace (v + 1 - 1)%Z with v by lia. auto. }
  exists s'. rewrite Hrun. split; [done|].
  split; [by replace (v + Z.of_nat (S (length bs)) - 1)%Z with (v + 1 + Z.of_nat (length bs) - 1)%Z by lia|].
  split.
  - intros v' Hv'. rewrite Hold by lia. by eapply root_frozen.
  - intros [|i] m'; cbn.
    + intros [= <-]. rewrite Z.add_0_r, Hold by lia. done.
    + intros Hm. specialize (Hnew i m' Hm). by replace (v + Z.of_nat (S i))%Z with (v + 1 + Z.of_nat i)%Z by lia.
Qed.

Lemma fresh_clean s :
  store_ok s -> (forall k v, key_ok k -> u64 v -> node_at s k v = None) -> represents_clean s 0 ∅.
Proof.
  intros Hok Hf. split; [done|]. split.
  { intros k v Hk Hv [n Hn]. rewrite Hf in Hn by done. done. }
  assert (forall q, length q <= DEPTH -> view_at s 0 (key_of q) = None) as Hnone.
  { intros q Hq. unfold view_at. rewrite (proj2 (tree_node_None s (key_of q) 0 Hok (key_of_ok q Hq) ltac:(done)));
      [done|]. intros v Hv. apply Hf; [by apply key_of_ok|]. unfold u64. lia. }
  exists TEmpty. split; [done|]. split; [done|]. split.
  - split; [|done]. left. apply Hnone. cbn. lia.
  - intros b q Hq. left. by apply Hnone.
Qed.
End tree_correct.
