(* ===== verification/SmtTree.v ===== *)
(** * SmtTree: correctness of [Tree::update] over versioned stores

    An in-memory instance of the store interface, and the theorems that the roots the tree
    returns are the roots of the maps its clients mean. *)

From S2P Require Import Prelude Codec Types SmtNode SmtTrie SmtUpdate.

(** ** An in-memory node store *)

Abbreviation mem_store := (gmap (Key.t * Z) Node.t).

(** The newest of the versions of [k] in [0, max]. *)
Definition candidates (s : mem_store) (k : Key.t) (max : Z) : list (Key.t * Z * Node.t) :=
  filter (fun '(k', v, _) => k' = k /\ (0 <= v <= max)%Z) (map_to_list s).

Definition pick (e : Key.t * Z * Node.t) (acc : option (Z * Node.t)) : option (Z * Node.t) :=
  let '(_, v, n) := e in
  match acc with
  | Some (v', n') => if (v' <? v)%Z then Some (v, n) else acc
  | None => Some (v, n)
  end.

Definition mem_op (s : mem_store) (op : WriteOp) : mem_store :=
  match op with
  | PutNode k v n => <[(k, v) := n]> s
  | DeleteNode k v => delete (k, v) s
  | PutStaleNode _ | DeleteStaleNode _ => s
  end.

#[export] Instance mem_node_store : NodeStore mem_store := {
  store_ok _ := True;
  visible _ _ := true;
  node_at s k v := s !! (k, v);
  tree_node s k max := foldr pick None (candidates s k max);
  commit s ops := foldl mem_op s ops
}.

Lemma pick_Some es v n :
  foldr pick None es = Some (v, n) ->
  (exists k, (k, v, n) ∈ es) /\ forall e, e ∈ es -> (e.1.2 <= v)%Z.
Proof.
  revert v n; induction es as [|[[k0 v0] n0] es IH]; intros v n; cbn; [done|].
  destruct (foldr pick None es) as [[v1 n1]|] eqn:E; cbn.
  - destruct (IH v1 n1 eq_refl) as ((k1 & Hin) & Hmax).
    destruct (v1 <? v0)%Z eqn:Elt; intros [= <- <-];
      (split; [first [exists k0; set_solver | exists k1; set_solver]|]);
      intros e He; apply elem_of_cons in He as [->|He]; cbn; try lia;
      specialize (Hmax e He); lia.
  - intros [= <- <-]. split; [exists k0; set_solver|]. intros e He.
    apply elem_of_cons in He as [->|He]; [cbn; lia|].
    destruct es as [|[[??]?] es]; [by apply not_elem_of_nil in He|].
    cbn in E. destruct (foldr pick None es) as [[??]|]; cbn in E; [by destruct (_ <? _)%Z|done].
Qed.

Lemma pick_None es : foldr pick None es = None -> es = [].
Proof.
  destruct es as [|[[??]?] es]; cbn; [done|].
  destruct (foldr pick None es) as [[??]|]; cbn; [by destruct (_ <? _)%Z|done].
Qed.

Lemma elem_of_candidates s k max k' v n :
  (k', v, n) ∈ candidates s k max <-> k' = k /\ (0 <= v <= max)%Z /\ s !! (k, v) = Some n.
Proof.
  unfold candidates. rewrite list_elem_of_filter. split.
  - intros ([-> Hv] & Hin). apply elem_of_map_to_list in Hin. done.
  - intros (-> & Hv & Hs). split; [done|]. by apply elem_of_map_to_list.
Qed.

Lemma mem_effect ops s k v :
  foldl mem_op s ops !! (k, v) = default (s !! (k, v)) (effect ops k v).
Proof.
  unfold effect. induction ops as [|op ops IH] using rev_ind; [done|].
  rewrite !foldl_app. cbn [foldl]. destruct op as [k' v' n| |k' v'|]; cbn [mem_op]; try done.
  - case_decide as Hd.
    + destruct Hd as [-> ->]. by rewrite lookup_insert_eq.
    + rewrite lookup_insert_ne; [done|]. intros [= -> ->]. by apply Hd.
  - case_decide as Hd.
    + destruct Hd as [-> ->]. by rewrite lookup_delete_eq.
    + rewrite lookup_delete_ne; [done|]. intros [= -> ->]. by apply Hd.
Qed.

#[export] Instance mem_node_store_ok : NodeStoreOk mem_store.
Proof.
  assert (forall s k max v n, foldr pick None (candidates s k max) = Some (v, n) ->
    (0 <= v <= max)%Z /\ s !! (k, v) = Some n /\
    forall v', (v < v' <= max)%Z -> s !! (k, v') = None) as Hsome.
  { intros s k max v n Hp. apply pick_Some in Hp as ((k' & Hin) & Hmax).
    apply elem_of_candidates in Hin as (-> & Hv & Hs). split; [done|]. split; [done|].
    intros v' Hv'. destruct (s !! (k, v')) as [n'|] eqn:E; [|done].
    specialize (Hmax (k, v', n')). cbn in Hmax. rewrite elem_of_candidates in Hmax.
    destruct (Z.lt_irrefl v). enough (v' <= v)%Z by lia. apply Hmax. repeat split; done || lia. }
  assert (forall s k max, foldr pick None (candidates s k max) = None ->
    forall v, (0 <= v <= max)%Z -> s !! (k, v) = None) as Hnone.
  { intros s k max Hp v Hv. apply pick_None in Hp. destruct (s !! (k, v)) as [n|] eqn:E; [|done].
    destruct (not_elem_of_nil (k, v, n)). rewrite <- Hp. by apply elem_of_candidates. }
  split; cbn.
  - intros s k max v n _ _ _. split; [apply Hsome|]. intros (Hv & Hs & Hlast).
    destruct (foldr pick None _) as [[v1 n1]|] eqn:E.
    + apply Hsome in E as (Hv1 & Hs1 & Hlast1).
      destruct (Z.lt_trichotomy v v1) as [Hlt|[->|Hgt]].
      * rewrite Hlast in Hs1 by lia. done.
      * congruence.
      * rewrite Hlast1 in Hs by lia. done.
    + rewrite (Hnone _ _ _ E v Hv) in Hs. done.
  - intros s k max _ _ _. split; [apply Hnone|]. intros Hn.
    destruct (foldr pick None _) as [[v1 n1]|] eqn:E; [|done].
    apply Hsome in E as (Hv1 & Hs1 & _). by rewrite Hn in Hs1.
  - intros. apply mem_effect.
  - done.
  - done.
  - done.
Qed.

(** ** Updates commit to the maps they mean *)

(** C1: an update of a clean store at a visible version, deletions included, returns the root of the canonical trie
    of the updated map, and once its log is committed the store represents that map at the new
    version; a batch without deletions leaves the store clean. *)
Theorem update_correct `{Hasher} {St} `{NodeStoreOk St} (s : St) m cs v :
  u64 v -> (0 < v)%Z -> visible s v = true -> represents_clean s (v - 1) m ->
  exists ops, Tree.update s cs v = Ok (root_of (apply_commitments m cs), ops) /\
    represents (commit s ops) v (apply_commitments m cs) /\
    (live cs -> represents_clean (commit s ops) v (apply_commitments m cs)).
Proof.
  intros Hu Hv Hvis Hrep. destruct (update_step s m cs v Hu Hv Hvis Hrep) as (ops & ? & _ & ? & ?).
  by exists ops.
Qed.

(** From an empty store, any sequence of batches whose deletions are confined to the last
    one returns the roots of the successive maps, and every one of these roots stays readable
    at its version. *)
Theorem run_updates_roots `{Hasher} {St} `{NodeStoreOk St} (s : St) batches :
  store_ok s -> (forall k v, key_ok k -> u64 v -> node_at s k v = None) ->
  (forall v, (1 <= v < 1 + Z.of_nat (length batches))%Z -> visible s v = true) ->
  (1 + Z.of_nat (length batches) <= 2 ^ 64)%Z -> deletes_last batches ->
  exists s', run_updates s 1 batches = Ok (root_of <$> states ∅ batches, s') /\
    (forall i m, states ∅ batches !! i = Some m -> Tree.root s' (1 + Z.of_nat i) = root_of m).
Proof.
  intros Hok Hfresh Hvis Hlen Hd.
  destruct (run_updates_spec batches s ∅ 1) as (s' & Hrun & _ & _ & Hroots);
    [lia|done|done|by apply fresh_clean|done|]. by exists s'.
Qed.

(** ** Witnesses *)

(** A 32-byte value filled with one byte. *)
Definition fill (b : byte) : array 32 := vreplicate 32 b.

Definition put (k v : byte) : Commitment := {| key := fill k; value_hash := fill v |}.
Definition del (k : byte) : Commitment := {| key := fill k; value_hash := EMPTY_HASH |}.

Lemma update_correct_witness :
  exists ops,
    Tree.update (H := toy_hasher) (∅ : mem_store) [put Byte.x11 Byte.x01; put Byte.xf0 Byte.x02; del Byte.x11] 1
    = Ok (root_of (H := toy_hasher) (apply_commitments ∅ [put Byte.x11 Byte.x01; put Byte.xf0 Byte.x02; del Byte.x11]), ops) /\
    represents (H := toy_hasher) (commit (∅ : mem_store) ops) 1
      (apply_commitments ∅ [put Byte.x11 Byte.x01; put Byte.xf0 Byte.x02; del Byte.x11]).
Proof.
  destruct (@update_correct toy_hasher mem_store _ _ ∅ ∅
    [put Byte.x11 Byte.x01; put Byte.xf0 Byte.x02; del Byte.x11] 1) as (ops & H1 & H2 & _).
  - done.
  - done.
  - done.
  - apply fresh_clean; [done|]. intros k v _ _. apply lookup_empty.
  - exists ops. by split.
Defined.

Lemma run_updates_roots_witness :
  exists s', run_updates (H := toy_hasher) (∅ : mem_store) 1
      [[put Byte.x11 Byte.x01; put Byte.xf0 Byte.x02]; []; [del Byte.x11]]
    = Ok (root_of (H := toy_hasher) <$> states ∅
        [[put Byte.x11 Byte.x01; put Byte.xf0 Byte.x02]; []; [del Byte.x11]], s').
Proof.
  destruct (@run_updates_roots toy_hasher mem_store _ _ ∅
    [[put Byte.x11 Byte.x01; put Byte.xf0 Byte.x02]; []; [del Byte.x11]]) as (s' & H1 & _).
  - done.
  - intros k v _ _. apply lookup_empty.
  - done.
  - done.
  - split; [by repeat constructor | split; [constructor | done]].
  - by exists s'.
Defined.

(** Keys to evaluate with: A and C go left at the root, B and D right. *)
Definition kA : byte := Byte.x11.
Definition kB : byte := Byte.xf0.
Definition kC : byte := Byte.x55.
Definition kD : byte := Byte.xcc.
