(* ===== verification/SmtStray.v ===== *)
(** * SmtStray: the updater and nodes that deletions leave behind

    Whatever stray nodes a store holds, an update neither panics nor fails as long as every node
    lies at a position of its own key; and what happens when the whole tree is deleted and filled
    again. *)

From S2P Require Import Prelude Codec Types SmtNode SmtTrie SmtUpdate SmtTree.

(** ** Updates do not fail *)

(** A node that can be at [p]: a live leaf under its own prefix, an internal node above the last
    level. *)
Definition placed_at (p : list bool) (n : Node.t) : Prop :=
  match n with
  | Node.Empty => True
  | Node.Leaf k v _ => has_prefix k p /\ v <> EMPTY_HASH
  | Node.Internal _ => length p < DEPTH
  end.

(** A log that puts such nodes only, all at one version. *)
Definition placed_log (version : Z) (ops : list WriteOp) : Prop :=
  Forall (fun op => match op with
                    | PutNode k v n => v = version /\ exists p, k = key_of p /\ length p <= DEPTH /\ placed_at p n
                    | PutStaleNode _ => True
                    | _ => False
                    end) ops.

Lemma placed_log_update version ops : placed_log version ops -> update_log version ops.
Proof.
  intros Hl. eapply Forall_impl; [exact Hl|]. intros []; [|done..]. intros (-> & p & -> & Hp & _). split; [done|]. by apply key_of_ok.
Qed.

Lemma placed_log_stale version ops : stale_only ops -> placed_log version ops.
Proof. intros Hs. eapply Forall_impl; [exact Hs|]. by intros []. Qed.

Lemma placed_parent p b n : (forall h, n <> Node.Internal h) -> placed_at (p ++ [b]) n -> placed_at p n.
Proof. destruct n; [done|naive_solver|]. intros _ [Hk Hv]. split; [by apply has_prefix_snoc in Hk as [? _]|done]. Qed.

Section total.
Context `{Hasher} (node : Key.t -> option (Z * Node.t)) (version : Z).
Hypothesis Hplaced : forall p v n, length p <= DEPTH -> node (key_of p) = Some (v, n) -> placed_at p n.

(** What an update of the subtree at [p] returns and logs. *)
Definition placed_result (p : list bool) (r : option Node.t) (ops : list WriteOp) : Prop :=
  (forall n, r = Some n -> placed_at p n) /\ placed_log version ops.

Lemma write_child_total p c :
  length p <= DEPTH -> (forall n, c = Some n -> placed_at p n) ->
  runs (Updater.write_child node version c (key_of p)) (fun _ ops => placed_log version ops).
Proof.
  intros Hp Hc. assert (forall n, placed_at p n -> placed_log version [PutNode (key_of p) version n]) as Hput.
  { intros n Hn. constructor; [|done]. split; [done|]. by exists p. }
  unfold Updater.write_child. destruct c as [n|].
  - apply runs_bind, runs_tell, runs_ret. rewrite app_nil_r. by apply Hput, Hc.
  - apply runs_bind. destruct (from_option _ _ _).
    + apply runs_bind, runs_tell, runs_tell, runs_ret. cbn. constructor; [|by repeat constructor]. split; [done|]. by exists p.
    + apply runs_ret, runs_ret. constructor.
Qed.

Section step.
Context (rec : Key.t -> list Commitment -> writer (option Node.t)) (p : list bool) (Hp : length p <= DEPTH).
Hypothesis Hrec : length p < DEPTH -> forall b cs, batch_at (p ++ [b]) cs ->
  runs (rec (key_of (p ++ [b])) cs) (placed_result (p ++ [b])).

Lemma split_and_recurse_total cs :
  length p < DEPTH -> batch_at p cs ->
  runs (Updater.split_and_recurse node version rec (key_of p) cs) (placed_result p).
Proof.
  intros Hlt Hb. destruct (batch_split p cs Hlt Hb) as (cs1 & cs2 & -> & Hmid & Hb1 & Hb2).
  unfold Updater.split_and_recurse. rewrite level_key_of, Hmid, take_app_length, drop_app_length.
  apply runs_bind, runs_assert; [by apply Nat.ltb_lt|]. cbv beta zeta.
  change (Key.left_child (key_of p)) with (key_step (key_of p) false).
  change (Key.right_child (key_of p)) with (key_step (key_of p) true).
  rewrite <- !key_of_snoc.
  apply runs_bind. eapply runs_mono; [by apply (Hrec Hlt false)|]. intros l opsl [Hl Hol].
  apply runs_bind. eapply runs_mono; [by apply (Hrec Hlt true)|]. intros r opsr [Hr Hor].
  assert (runs (hl ← Updater.write_child node version l (key_of (p ++ [false]));
      hr ← Updater.write_child node version r (key_of (p ++ [true])); mret (Some (Node.internal hl hr)))
    (fun res w => placed_result p res ((opsl ++ opsr) ++ w))) as Hw.
  { apply runs_bind. eapply runs_mono; [apply write_child_total; [rewrite length_snoc; lia|done]|]. intros hl wl Hwl.
    apply runs_bind. eapply runs_mono; [apply write_child_total; [rewrite length_snoc; lia|done]|]. intros hr wr Hwr.
    apply runs_ret. split; [by intros n [= <-]|]. rewrite app_nil_r. by repeat (apply Forall_app; split). }
  eapply (runs_mono _ (fun res w => placed_result p res ((opsl ++ opsr) ++ w))).
  { destruct l as [[|hl|kl vl xl]|], r as [[|hr|kr vr xr]|]; try exact Hw; apply runs_ret; (split; [|rewrite app_nil_r; by apply Forall_app]);
      intros n Hn; try discriminate Hn; injection Hn as <-; by eapply placed_parent; eauto. }
  intros res w Hres. by rewrite <- app_assoc in Hres.
Qed.

Lemma resolve_leaves_total cs :
  batch_at p cs -> runs (Updater.resolve_leaves node version rec (key_of p) cs) (placed_result p).
Proof.
  intros Hb. unfold Updater.resolve_leaves.
  assert (forall c, c ∈ filter (fun u => value_hash u <> EMPTY_HASH) cs -> has_prefix (key c) p /\ value_hash c <> EMPTY_HASH) as Hfl.
  { intros c Hc. apply list_elem_of_filter in Hc as [Hv Hc]. split; [by apply Hb|done]. }
  assert (NoDup (key <$> filter (fun u => value_hash u <> EMPTY_HASH) cs)) as Hnd.
  { eapply sublist_NoDup; [apply ascending_keys, Hb|]. apply fmap_sublist, sublist_filter. }
  destruct (filter (fun u => value_hash u <> EMPTY_HASH) cs) as [|c1 [|c2 lv]].
  - apply runs_ret. split; [done|constructor].
  - apply runs_ret. split; [|constructor]. intros n [= <-]. apply Hfl. set_solver.
  - apply split_and_recurse_total; [|done]. destruct (Nat.lt_ge_cases (length p) DEPTH) as [|Hge]; [done|]. exfalso.
    apply NoDup_cons in Hnd as [Hn _]. apply Hn.
    rewrite (has_prefix_full (key c1) (key c2) p); [by left|done|apply Hfl; set_solver..].
Qed.

Lemma placed_stale (c : writer (option Node.t)) k :
  runs c (placed_result p) -> runs (_ ← Updater.mark_stale node version k; c) (placed_result p).
Proof.
  intros Hc. apply runs_bind. eapply runs_mono; [apply mark_stale_runs|]. intros ? ops0 Hst.
  eapply runs_mono; [exact Hc|]. intros r ops [Hr Ho]. split; [done|]. apply Forall_app. split; [by apply placed_log_stale|done].
Qed.

Lemma update_at_leaf_total cs k0 v0 :
  has_prefix k0 p -> v0 <> EMPTY_HASH -> batch_at p cs ->
  runs (Updater.update_at_leaf node version rec (key_of p) cs k0 v0) (placed_result p).
Proof.
  intros Hk0 Hv0 Hb. unfold Updater.update_at_leaf. apply placed_stale. cbv zeta.
  destruct (merge_leaf p cs k0 v0 Hb Hk0 Hv0) as (Hbm & _). cbv zeta in Hbm.
  match goal with |- runs (match cs with [] => ?g | _ => _ end) _ => assert (runs g (placed_result p)) as Hg end.
  { destruct (from_option _ false _); by apply resolve_leaves_total. }
  destruct cs as [|u [|u' cs]]; [done| |done]. case_bool_decide as Hk; [|done].
  case_bool_decide as Hv; apply runs_ret; (split; [|constructor]); [done|]. by intros n [= <-].
Qed.
End step.

Lemma update_subtree_total fuel p cs :
  length p + fuel = S DEPTH -> length p <= DEPTH -> batch_at p cs ->
  runs (Updater.update_subtree node version fuel (key_of p) cs) (placed_result p).
Proof.
  revert p cs; induction fuel as [|fuel IH]; intros p cs Hf Hp Hb; [lia|].
  assert (length p < DEPTH -> forall b cs, batch_at (p ++ [b]) cs ->
    runs (Updater.update_subtree node version fuel (key_of (p ++ [b])) cs) (placed_result (p ++ [b]))) as Hrec.
  { intros Hlt b cs' Hb'. apply IH; rewrite ?length_snoc; [lia|lia|done]. }
  cbn [Updater.update_subtree]. destruct cs as [|c cs'] eqn:Hcs.
  { apply runs_ret. split; [|constructor]. intros n. destruct (node (key_of p)) as [[v n']|] eqn:E; [|done]. cbn.
    destruct (Updater.not_empty n'); [|done]. intros [= <-]. by eapply Hplaced. }
  rewrite <- Hcs in *. clear c cs' Hcs. destruct (node (key_of p)) as [[v n]|] eqn:E; cbn [fmap option_fmap option_map snd].
  2:{ by apply resolve_leaves_total. }
  pose proof (Hplaced p v n Hp E) as Hn. destruct n as [|h|k0 v0 h].
  - apply placed_stale. by apply resolve_leaves_total.
  - apply placed_stale. by apply split_and_recurse_total.
  - destruct Hn. by apply update_at_leaf_total.
Qed.

Lemma apply_total cs : runs (Updater.apply node version cs) (fun _ ops => placed_log version ops).
Proof.
  unfold Updater.apply. cbv zeta. apply runs_bind. eapply runs_mono.
  { apply (update_subtree_total (S DEPTH) []); [cbn; lia|cbn; lia|]. split; [apply dedup_sort_ascending|]. intros c _. apply has_prefix_nil. }
  intros r ops [Hr Ho]. destruct r as [n|]; apply runs_bind, runs_tell, runs_ret; rewrite app_nil_r; (apply Forall_app; split; [done|]);
    (constructor; [|done]); (split; [done|]); exists []; (split; [done|]); (split; [cbn; lia|]); [by apply Hr|done].
Qed.
End total.

(** Every node of the store is at a position where it can be. *)
Definition placed `{NodeStore St} (s : St) : Prop :=
  forall p v n, length p <= DEPTH -> u64 v -> node_at s (key_of p) v = Some n -> placed_at p n.

(** An update of a store with such nodes returns a root and a log that keeps the store so. *)
Lemma update_total `{Hasher} {St} `{NodeStoreOk St} (s : St) cs v :
  store_ok s -> placed s -> (0 < v)%Z -> u64 v ->
  exists r ops, Tree.update s cs v = Ok (r, ops) /\ placed_log v ops.
Proof.
  intros Hok Hs Hpos Hu. unfold Tree.update, assert. rewrite (proj2 (Z.ltb_lt _ _) Hpos). cbn [mbind outcome_bind].
  destruct cs as [|c cs]; [eexists _, _; split; [done|constructor]|].
  destruct (apply_total (fun k => tree_node s k (v - 1)) v) with (cs := c :: cs) (log := [] : list WriteOp) as (r & ops & E & Ho).
  - intros p w n Hp Hn. assert (u64 (v - 1)) as Hu' by (unfold u64 in *; lia).
    apply tree_node_newest in Hn as (Hw & Hn & _); [|done|by apply key_of_ok|done]. eapply Hs; [done| |exact Hn]. unfold u64 in *. lia.
  - exists r, ops. by rewrite E.
Qed.

Lemma placed_commit `{Hasher} {St} `{NodeStoreOk St} (s : St) ops v :
  store_ok s -> placed s -> u64 v -> visible s v = true -> placed_log v ops -> placed (commit s ops).
Proof.
  intros Hok Hs Hu Hvis Hl p w n Hp Hw. rewrite (commit_log_at s ops v); try done; [|by apply placed_log_update|by apply key_of_ok].
  case_decide as Hd; [|by apply Hs]. destruct (written ops (key_of p)) as [n'|] eqn:E; [|by apply Hs]. cbn. intros [= ->].
  apply written_Some in E as [v' Hin]. unfold placed_log in Hl. rewrite Forall_forall in Hl.
  destruct (Hl _ Hin) as (_ & q & Hk & Hq & Hn). by apply key_of_inj in Hk as ->.
Qed.

(** ** Deleting everything *)

(** The commitments delete, and delete every key of [t]. *)
Definition drains (p : list bool) (t : trie) (cs : list Commitment) : Prop :=
  Forall (fun c => value_hash c = EMPTY_HASH) cs /\
  forall k, has_prefix k p -> is_Some (tlookup (length p) t k) -> k ∈ key <$> cs.

Lemma no_live cs : Forall (fun c => value_hash c = EMPTY_HASH) cs -> filter (fun u => value_hash u <> EMPTY_HASH) cs = [].
Proof. induction 1 as [|c cs Hc _ IH]; [done|]. rewrite filter_cons, decide_False; [done|]. by intros []. Qed.

Section drain.
Context `{Hasher} (node : Key.t -> option (Z * Node.t)) (version : Z).
Let rd : view := fun k => snd <$> node k.

Definition drained (r : option Node.t) (ops : list WriteOp) : Prop := r = None /\ stale_only ops.

Lemma resolve_leaves_drain rec k cs :
  filter (fun u => value_hash u <> EMPTY_HASH) cs = [] -> runs (Updater.resolve_leaves node version rec k cs) drained.
Proof. unfold Updater.resolve_leaves. intros ->. apply runs_ret. by split; [|constructor]. Qed.

Lemma drained_stale (c : writer (option Node.t)) k : runs c drained -> runs (_ ← Updater.mark_stale node version k; c) drained.
Proof.
  intros Hc. apply runs_bind. eapply runs_mono; [apply mark_stale_runs|]. intros ? ops0 Hst.
  eapply runs_mono; [exact Hc|]. intros r ops [Hr Ho]. split; [done|]. by apply Forall_app.
Qed.

Lemma update_at_leaf_drain rec p cs k0 v0 :
  wf p (TLeaf k0 v0) -> batch_at p cs -> drains p (TLeaf k0 v0) cs ->
  runs (Updater.update_at_leaf node version rec (key_of p) cs k0 v0) drained.
Proof.
  intros [Hk0 Hv0] Hb [Hall Hcov]. unfold Updater.update_at_leaf. apply drained_stale. cbv zeta.
  assert (k0 ∈ key <$> cs) as Hin. { apply Hcov; [done|]. cbn. by rewrite decide_True. }
  destruct (merge_leaf p cs k0 v0 Hb Hk0 Hv0) as (Hbm & _ & Hom). cbv zeta in Hbm, Hom.
  match goal with |- runs (match cs with [] => ?g | _ => _ end) _ => assert (runs g drained) as Hg end.
  { match type of Hbm with batch_at _ ?m => assert (filter (fun u => value_hash u <> EMPTY_HASH) m = []) as Hf end.
    { apply elem_of_nil_inv. intros c Hc.
      pose proof (overlay_live _ (key c) (ascending_keys _ (proj1 Hbm))) as Ho. rewrite Hom in Ho.
      rewrite committed_in in Ho; [|eapply sublist_NoDup; [apply ascending_keys, Hbm|apply fmap_sublist, sublist_filter]|done].
      unfold overlay in Ho. destruct (committed cs (key c)) as [v|] eqn:E.
      - apply committed_Some in E as (c' & Hc' & _ & <-). rewrite Forall_forall in Hall. by rewrite decide_True in Ho by auto.
      - cbn in Ho. case_decide as Hk; [|done]. rewrite <- Hk in E. apply list_elem_of_fmap in Hin as (c' & Hc' & Hin).
        by apply (proj1 (committed_None _ _) E c' Hin). }
    destruct (from_option _ false _); by apply resolve_leaves_drain. }
  destruct cs as [|u [|u' cs]]; [done| |done]. case_bool_decide as Hk; [|done].
  apply Forall_inv in Hall. rewrite bool_decide_true by done. apply runs_ret. by split; [|constructor].
Qed.

Lemma drains_split p l r cs1 cs2 :
  batch_at (p ++ [false]) cs1 -> batch_at (p ++ [true]) cs2 -> drains p (TNode l r) (cs1 ++ cs2) ->
  drains (p ++ [false]) l cs1 /\ drains (p ++ [true]) r cs2.
Proof.
  intros [_ Hb1] [_ Hb2] [Hall Hcov]. apply Forall_app in Hall as [Hall1 Hall2].
  split; (split; [done|]); intros k Hk Hs; pose proof Hk as [Hkp Hkb]%has_prefix_snoc;
    (assert (k ∈ key <$> cs1 ++ cs2) as Hin by (apply Hcov; [done|]; by rewrite tlookup_node, Hkb));
    rewrite fmap_app, elem_of_app in Hin; destruct Hin as [Hin|Hin]; try done;
    apply list_elem_of_fmap in Hin as (c & -> & Hc).
  - specialize (Hb2 c Hc) as [_ Hb]%has_prefix_snoc. congruence.
  - specialize (Hb1 c Hc) as [_ Hb]%has_prefix_snoc. congruence.
Qed.

(** Deleting every key below a position writes nothing there. *)
Lemma update_subtree_drain fuel p t cs :
  length p + fuel = S DEPTH -> length p <= DEPTH -> wf p t -> stored rd p t -> batch_at p cs -> drains p t cs ->
  runs (Updater.update_subtree node version fuel (key_of p) cs) drained.
Proof.
  revert p t cs; induction fuel as [|fuel IH]; intros p t cs Hf Hp Hwf Hst Hb Hd; [lia|]. cbn [Updater.update_subtree].
  destruct cs as [|c cs'] eqn:Hcs.
  { rewrite (stored_read node p t Hst). apply runs_ret. split; [|constructor].
    destruct (decide (t = TEmpty)) as [->|Hne]; [done|]. exfalso. apply wf_inhabited in Hwf as (k & v & Hk & Hv); [|done].
    destruct Hd as [_ Hcov]. assert (k ∈ key <$> ([] : list Commitment)) as Hin by (apply Hcov; eauto). by apply elem_of_nil in Hin. }
  rewrite <- Hcs in *. clear c cs' Hcs. change (snd <$> node (key_of p)) with (rd (key_of p)).
  apply stored_unfold in Hst as [Hat Hbelow]. unfold stored_at in Hat. destruct t as [|k0 v0|l r]; cbn [node_of] in Hat.
  - pose proof (no_live _ (proj1 Hd)) as Hf'. destruct Hat as [-> | ->]; [by apply resolve_leaves_drain|].
    apply drained_stale. by apply resolve_leaves_drain.
  - rewrite Hat. by apply update_at_leaf_drain.
  - rewrite Hat. apply drained_stale. pose proof Hwf as (Hlt & Hl & Hr & _). destruct Hbelow as [Hsl Hsr].
    destruct (batch_split p cs Hlt Hb) as (cs1 & cs2 & -> & Hmid & Hb1 & Hb2). destruct (drains_split p l r cs1 cs2 Hb1 Hb2 Hd) as [Hd1 Hd2].
    unfold Updater.split_and_recurse. rewrite level_key_of, Hmid, take_app_length, drop_app_length.
    apply runs_bind, runs_assert; [by apply Nat.ltb_lt|]. cbv beta zeta.
    change (Key.left_child (key_of p)) with (key_step (key_of p) false).
    change (Key.right_child (key_of p)) with (key_step (key_of p) true). rewrite <- !key_of_snoc.
    apply runs_bind. eapply runs_mono; [apply (IH (p ++ [false]) l); rewrite ?length_snoc; try done; try lia|]. intros ? opsl [-> Hol].
    apply runs_bind. eapply runs_mono; [apply (IH _ r); rewrite ?length_snoc; done || lia|]. intros ? opsr [-> Hor].
    apply runs_ret. split; [done|]. rewrite app_nil_r. cbn [app]. by apply Forall_app.
Qed.

Lemma apply_drain t cs :
  wf [] t -> stored rd [] t -> Forall (fun c => value_hash c = EMPTY_HASH) cs ->
  (forall k, is_Some (tlookup 0 t k) -> k ∈ key <$> cs) ->
  runs (Updater.apply node version cs) (fun r ops => r = EMPTY_HASH /\ exists st, stale_only st /\ ops = st ++ [PutNode Key.ROOT version Node.Empty]).
Proof.
  intros Hwf Hst Hall Hcov. unfold Updater.apply. cbv zeta. apply runs_bind. eapply runs_mono.
  { apply (update_subtree_drain (S DEPTH) [] t); try done; [cbn; lia|split; [apply dedup_sort_ascending|intros c _; apply has_prefix_nil]|].
    split.
    - apply Forall_forall. intros c Hc. pose proof (committed_in _ c (ascending_keys _ (dedup_sort_ascending cs)) Hc) as E.
      rewrite committed_dedup, committed_sort in E. apply committed_Some in E as (c' & Hc' & _ & <-). rewrite Forall_forall in Hall. auto.
    - intros k _ Hk. specialize (Hcov k Hk). apply list_elem_of_fmap in Hcov as (c & -> & Hc).
      destruct (committed (dedup_commitments (sort_commitments cs)) (key c)) as [v|] eqn:E.
      + apply committed_Some in E as (c' & Hc' & <- & _). by apply list_elem_of_fmap_2.
      + rewrite committed_dedup, committed_sort in E. by destruct (proj1 (committed_None _ _) E c Hc). }
  intros ? ops [-> Ho]. apply runs_bind, runs_tell, runs_ret. split; [done|]. exists ops. by rewrite app_nil_r.
Qed.

(** An update over an emptied position that still has its children: they are part of the new tree. *)
Lemma update_subtree_revived fuel p l r cs :
  length p + S fuel = S DEPTH -> wf p (TNode l r) -> rd (key_of p) = Some Node.Empty -> stored_below rd p (TNode l r) ->
  clean rd p (TNode l r) -> batch_at p cs -> 2 <= length (filter (fun u => value_hash u <> EMPTY_HASH) cs) ->
  runs (Updater.update_subtree node version (S fuel) (key_of p) cs) (updated node version is_node p (tlookup (length p) (TNode l r)) cs).
Proof.
  intros Hf Hwf Hroot [Hsl Hsr] [Hcl Hcr] Hb Htwo. pose proof Hwf as (Hlt & Hl & Hr & _). cbn [Updater.update_subtree].
  destruct cs as [|c cs'] eqn:Ed; [cbn in Htwo; lia|]. rewrite <- Ed in *. clear c cs' Ed.
  change (snd <$> node (key_of p)) with (rd (key_of p)). rewrite Hroot.
  apply runs_bind. eapply runs_mono; [apply mark_stale_runs|]. intros ? ops0 Hs0.
  eapply runs_mono; [|intros ? ops; by apply updated_stale]. unfold Updater.resolve_leaves.
  destruct (filter _ cs) as [|c1 [|c2 lv]]; [cbn in Htwo; lia|cbn in Htwo; lia|].
  eapply runs_mono.
  { apply (split_and_recurse_runs node version _ p l r Hlt); [|done].
    intros [] cs' Hb'; apply update_subtree_runs; rewrite ?length_snoc; done || lia. }
  intros res ops. apply updated_ext; [|done|done]. intros k _. by rewrite tlookup_node.
Qed.

Lemma apply_revived l r cs :
  wf [] (TNode l r) -> rd Key.ROOT = Some Node.Empty -> stored_below rd [] (TNode l r) -> clean rd [] (TNode l r) ->
  2 <= length (filter (fun u => value_hash u <> EMPTY_HASH) (dedup_commitments (sort_commitments cs))) ->
  runs (Updater.apply node version cs) (fun h ops => exists t', wf [] t' /\ h = HashedNode.hash (summary t') /\
    forall k, tlookup 0 t' k = overlay cs k (tlookup 0 (TNode l r) k)).
Proof.
  intros Hwf Hroot Hst Hcl Htwo. unfold Updater.apply. cbv zeta. apply runs_bind. eapply runs_mono.
  { apply (update_subtree_revived DEPTH [] l r); try done. split; [apply dedup_sort_ascending|]. intros c _. apply has_prefix_nil. }
  intros res ops (t' & Hwf' & -> & Hlk & _).
  assert (forall k, tlookup 0 t' k = overlay cs k (tlookup 0 (TNode l r) k)) as Hlk'.
  { intros k. etransitivity; [exact (Hlk k (has_prefix_nil k))|]. unfold overlay. by rewrite committed_dedup, committed_sort. }
  destruct (node_of t') as [n|] eqn:En; apply runs_bind, runs_tell, runs_ret; exists t'; (split; [done|]).
  - split; [by apply (node_of_hash [] t')|done].
  - by destruct t'.
Qed.
End drain.

(** Two entries in the map of a batch are two live commitments after deduplication. *)
Lemma two_live cs :
  2 <= size (apply_commitments ∅ cs) ->
  2 <= length (filter (fun u => value_hash u <> EMPTY_HASH) (dedup_commitments (sort_commitments cs))).
Proof.
  intros Hs. pose proof (ascending_keys _ (dedup_sort_ascending cs)) as Hnd. set (ds := dedup_commitments (sort_commitments cs)) in *.
  assert (size (apply_commitments ∅ cs) = length (filter (fun u => value_hash u <> EMPTY_HASH) ds)) as <-; [|done].
  assert (NoDup (key <$> filter (fun u => value_hash u <> EMPTY_HASH) ds)) as Hndf.
  { eapply sublist_NoDup; [exact Hnd|]. apply fmap_sublist, sublist_filter. }
  assert (apply_commitments ∅ cs = list_to_map ((fun c => (key c, value_hash c)) <$> filter (fun u => value_hash u <> EMPTY_HASH) ds)) as ->.
  { apply map_eq. intros k. rewrite apply_commitments_lookup, lookup_empty. unfold overlay.
    rewrite <- committed_sort, <- committed_dedup. fold ds.
    etransitivity; [exact (overlay_live ds k Hnd)|]. generalize (filter (fun u => value_hash u <> EMPTY_HASH) ds) Hndf. clear. intros l Hl.
    induction l as [|c l IH]; [done|]. cbn in Hl. apply NoDup_cons in Hl as [Hn Hl]. rewrite committed_cons, (IH Hl). cbn.
    destruct (decide (key c = k)) as [<-|Hne]; [|by rewrite lookup_insert_ne; destruct (_ !! k)].
    rewrite lookup_insert_eq. rewrite not_elem_of_list_to_map_1; [done|]. by rewrite <- list_fmap_compose. }
  rewrite <- length_map_to_list.
  rewrite map_to_list_to_map; [by rewrite length_fmap|]. by rewrite <- list_fmap_compose.
Qed.

Lemma two_keys (m : gmap ResourceId (array 32)) t : wf [] t -> (forall k, tlookup 0 t k = m !! k) -> 2 <= size m -> is_node t.
Proof.
  intros Hwf Hlk Hs. destruct t as [|k v|l r]; [|  |done]; exfalso.
  - assert (m = ∅) as -> by (apply map_empty; intros k; by rewrite <- Hlk). rewrite map_size_empty in Hs. lia.
  - assert (m = {[k := v]}) as ->; [|rewrite map_size_singleton in Hs; lia].
    apply map_eq. intros k'. rewrite <- Hlk. cbn. case_decide; [subst; by rewrite lookup_singleton_eq|by rewrite lookup_singleton_ne].
Qed.

Lemma drained_map m dels :
  Forall (fun c => value_hash c = EMPTY_HASH) dels -> (forall k, is_Some (m !! k) -> k ∈ key <$> dels) -> apply_commitments m dels = ∅.
Proof.
  intros Hall Hcov. apply map_empty. intros k. rewrite apply_commitments_lookup. unfold overlay. destruct (committed dels k) as [h|] eqn:E.
  - apply committed_Some in E as (c & Hc & _ & <-). rewrite Forall_forall in Hall. by rewrite decide_True by auto.
  - destruct (m !! k) as [x|] eqn:Em; [|done]. assert (k ∈ key <$> dels) as Hk by (apply Hcov; eauto).
    apply list_elem_of_fmap in Hk as (c & -> & Hc). by destruct (proj1 (committed_None _ _) E c Hc).
Qed.

(** Deleting every key empties the root position and leaves what readers find below it. *)
Lemma update_drain `{Hasher} {St} `{NodeStoreOk St} (s : St) m dels v :
  (0 < v)%Z -> u64 v -> visible s v = true -> represents_clean s (v - 1) m -> m <> ∅ ->
  Forall (fun c => value_hash c = EMPTY_HASH) dels -> (forall k, is_Some (m !! k) -> k ∈ key <$> dels) ->
  exists ops, Tree.update s dels v = Ok (EMPTY_HASH, ops) /\
    view_at (commit s ops) v Key.ROOT = Some Node.Empty /\ agree_below (view_at s (v - 1)) (view_at (commit s ops) v) [].
Proof.
  intros Hpos Hu Hvis (Hok & Hver & t & Hwf & Hlk & Hst & Hcl) Hne Hall Hcov.
  destruct (apply_drain (fun k => tree_node s k (v - 1)) v t dels Hwf Hst Hall) with (log := [] : list WriteOp)
    as (h & ops & E & -> & st & Hs & ->).
  { intros k Hk. apply Hcov. by rewrite <- Hlk. }
  cbn [app] in E. set (ops := st ++ [PutNode Key.ROOT v Node.Empty]) in *. exists ops.
  assert (update_log v ops) as Hlog.
  { apply Forall_app. split; [eapply Forall_impl; [exact Hs|]; by intros []|]. constructor; [|done]. split; [done|]. apply (key_of_ok []). cbn. lia. }
  assert (forall q, length q <= DEPTH -> view_at (commit s ops) v (key_of q) = after ops (view_at s (v - 1)) (key_of q)) as Hview.
  { intros q Hq. apply view_at_commit; try done; [by apply key_of_ok|].
    destruct (node_at s (key_of q) v) eqn:En; [|done]. exfalso. specialize (Hver (key_of q) v (key_of_ok q Hq) Hu). rewrite En in Hver.
    destruct Hver; [eauto|lia]. }
  split; [|split].
  - unfold Tree.update, assert. rewrite (proj2 (Z.ltb_lt _ _) Hpos). cbn [mbind outcome_bind]. destruct dels as [|c dels]; [|done].
    exfalso. apply map_choose in Hne as (k & x & Hk). assert (k ∈ key <$> ([] : list Commitment)) as Hin by (apply Hcov; eauto). by apply elem_of_nil in Hin.
  - change Key.ROOT with (key_of []). rewrite (Hview []) by (cbn; lia). unfold after, ops. rewrite written_app. unfold written. cbn. by rewrite decide_True.
  - intros b q Hq. rewrite Hview by done. unfold after, ops. rewrite written_app, (stale_only_written st) by done. unfold written. cbn [foldl].
    rewrite decide_False; [done|]. intros Hk. change Key.ROOT with (key_of []) in Hk. apply key_of_inj in Hk; [done|cbn; lia|done].
Qed.

(** C39: deleting every key of a tree with at least two, and inserting two or more keys with the next
    batch, brings the deleted keys back: the first update returns the empty root, as it should, but
    the second one returns the root of the map before the deletions with the new keys added, not
    that of the new keys alone. The updater leaves the children of the emptied root in the store and
    reads them again. This holds for every hash function, every store, every such map and batches. *)
Theorem drained_children_resurrect `{Hasher} {St} `{NodeStoreOk St} (s : St) m dels cs v :
  (0 < v)%Z -> u64 (v + 1) -> visible s v = true -> represents_clean s (v - 1) m -> 2 <= size m ->
  Forall (fun c => value_hash c = EMPTY_HASH) dels -> (forall k, is_Some (m !! k) -> k ∈ key <$> dels) ->
  2 <= size (apply_commitments ∅ cs) ->
  exists ops1 ops2,
    Tree.update s dels v = Ok (EMPTY_HASH, ops1) /\ apply_commitments m dels = ∅ /\
    Tree.update (commit s ops1) cs (v + 1) = Ok (root_of (apply_commitments m cs), ops2).
Proof.
  intros Hpos Hu1 Hvis Hrep Hsize Hall Hcov Htwo. assert (u64 v) as Hu by (unfold u64 in *; lia).
  destruct (update_drain s m dels v Hpos Hu Hvis Hrep) as (ops1 & E1 & Hroot & Hag); [|done..|].
  { intros ->. rewrite map_size_empty in Hsize. lia. }
  destruct Hrep as (_ & _ & t & Hwf & Hlk & Hst & Hcl).
  pose proof (two_keys m t Hwf Hlk Hsize) as Hnode. destruct t as [| |l r]; [done..|].
  destruct (apply_revived (fun k => tree_node (commit s ops1) k v) (v + 1) l r cs) with (log := [] : list WriteOp)
    as (h & ops2 & E2 & t' & Hwf' & -> & Hlk').
  { done. }
  { exact Hroot. }
  { apply (stored_below_agree (view_at s (v - 1)) _ [] (TNode l r)); [done|done|]. by apply stored_unfold in Hst as [_ ?]. }
  { by apply (clean_agree (view_at s (v - 1)) _ [] (TNode l r)). }
  { by apply two_live. }
  exists ops1, ops2. split; [done|]. split; [by apply drained_map|].
  unfold Tree.update, assert. rewrite (proj2 (Z.ltb_lt _ _)) by lia. cbn [mbind outcome_bind].
  destruct cs as [|c cs]; [vm_compute in Htwo; lia|]. replace (v + 1 - 1)%Z with v by lia. rewrite E2. cbn [app]. do 2 f_equal.
  apply root_of_trie; [done|]. intros k. by rewrite Hlk', Hlk, apply_commitments_lookup.
Qed.

(** A and B are inserted, both are deleted, then C and D are inserted: the last root commits to all
    four, and is not the root of C and D. *)
Lemma drained_children_resurrect_witness :
  exists ops0 ops1 ops2,
    Tree.update (H := toy_hasher) (∅ : mem_store) [put kA Byte.x01; put kB Byte.x02] 1
    = Ok (root_of (H := toy_hasher) (apply_commitments ∅ [put kA Byte.x01; put kB Byte.x02]), ops0) /\
    Tree.update (H := toy_hasher) (commit ∅ ops0) [del kA; del kB] 2 = Ok (EMPTY_HASH, ops1) /\
    Tree.update (H := toy_hasher) (commit (commit ∅ ops0) ops1) [put kC Byte.x03; put kD Byte.x04] 3
    = Ok (root_of (H := toy_hasher) (apply_commitments ∅ [put kA Byte.x01; put kB Byte.x02; put kC Byte.x03; put kD Byte.x04]), ops2) /\
    root_of (H := toy_hasher) (apply_commitments ∅ [put kA Byte.x01; put kB Byte.x02; put kC Byte.x03; put kD Byte.x04])
    <> root_of (H := toy_hasher) (apply_commitments ∅ [put kC Byte.x03; put kD Byte.x04]).
Proof.
  destruct (@update_step toy_hasher mem_store _ _ ∅ ∅ [put kA Byte.x01; put kB Byte.x02] 1) as (ops0 & E0 & _ & _ & Hc).
  - done.
  - done.
  - done.
  - apply fresh_clean; [done|]. intros k v _ _. apply lookup_empty.
  - destruct (@drained_children_resurrect toy_hasher mem_store _ _ (commit ∅ ops0) (apply_commitments ∅ [put kA Byte.x01; put kB Byte.x02])
      [del kA; del kB] [put kC Byte.x03; put kD Byte.x04] 2) as (ops1 & ops2 & E1 & _ & E2).
    + reflexivity.
    + unfold u64. lia.
    + reflexivity.
    + apply Hc. repeat constructor; discriminate.
    + vm_compute. lia.
    + repeat constructor.
    + intros k Hk. rewrite apply_commitments_lookup, lookup_empty in Hk. unfold overlay in Hk.
      destruct (committed _ k) as [x|] eqn:E; [|by destruct Hk]. apply committed_Some in E as (c & Hc' & <- & _).
      apply elem_of_cons in Hc' as [->|Hc']; [by left|]. apply list_elem_of_singleton in Hc' as ->. by right; left.
    + vm_compute. lia.
    + exists ops0, ops1, ops2. split; [exact E0|]. split; [exact E1|]. split; [exact E2|].
      apply (bool_decide_eq_false_1 _). vm_compute. reflexivity.
Defined.
