(* ===== verification/SmtProof.v ===== *)
(** * SmtProof: multi-proofs of [core/smt/src/proving]

    The wire form of a multi-proof, the recursive traversals that recompute the pre-state root
    (and the post-state root with it) from the proof, and the resolution of membership claims.
    Slice indexing that the source leaves to the runtime is a [Panic] of the model. *)

From S2P Require Import Prelude Codec Types SmtNode SmtTrie.

(** ** leaf.rs, membership.rs, member.rs, leaf_update.rs *)
Module Leaf.
Record t := { depth : U16; key_idx : U32; value_hash : array 32 }.

#[global] Instance leaf_wire : Wire t :=
  refine_wire (fun '(d, (k, v)) => Some {| depth := d; key_idx := k; value_hash := v |})
              (fun lf => (depth lf, (key_idx lf, value_hash lf))).
#[global] Instance leaf_wire_ok : WireOk t.
Proof. apply refine_wire_ok; [by intros [] | by intros (?&?&?) [] [=]; subst]. Qed.
End Leaf.

Module Membership.
Inductive t := Present (leaf_idx : U32) | Absent (leaf_idx : U32).

(** [#[repr(u8)]]: a discriminant byte, then the payload. *)
Definition of_parts (tag : byte) (i : U32) : option t :=
  match tag with
  | Byte.x00 => Some (Present i)
  | Byte.x01 => Some (Absent i)
  | _ => None
  end.
Definition to_parts (m : t) : byte * U32 :=
  match m with Present i => (Byte.x00, i) | Absent i => (Byte.x01, i) end.

#[global] Instance membership_wire : Wire t :=
  refine_wire (fun '(tag, i) => of_parts tag i) to_parts.
#[global] Instance membership_wire_ok : WireOk t.
Proof.
  apply refine_wire_ok; [by intros []|].
  intros [tag i] m. destruct tag; cbn; try discriminate; intros [= <-]; done.
Qed.

Definition leaf_pos (m : t) : nat :=
  match m with Present p | Absent p => indexu p end.
End Membership.

Module Member.
Record t := { key : array 32; leaf : Leaf.t; absent : bool }.
Definition value_hash (m : t) : array 32 :=
  if absent m then EMPTY_HASH else Leaf.value_hash (leaf m).
End Member.

Inductive LeafUpdate :=
| Unchanged
| Single (value : array 32)
| Multiple.

(** ** proof.rs: the proof and its membership claims *)
Module Proof.
Record t := {
  keys : list (array 32);
  leaves : list Leaf.t;
  siblings : list HashedNode.t;
  topology : bytes;
  memberships : list Membership.t
}.

Definition decode (buf : bytes) : Result t :=
  fst <$> ((keys ← Reader.slice_as "keys";
            leaves ← Reader.slice_as "leaves";
            siblings ← Reader.slice_as "siblings";
            topology ← Reader.slice_as "topology";
            memberships ← Reader.slice_as "memberships";
            mret {| keys := keys; leaves := leaves; siblings := siblings;
                    topology := topology; memberships := memberships |}) : parser t) buf.

Definition encode (p : t) : bytes :=
  Writer.write_slice (keys p) ++ Writer.write_slice (leaves p) ++
  Writer.write_slice (siblings p) ++ Writer.write_slice (topology p) ++
  Writer.write_slice (memberships p).

Definition check_sorted_queried_keys (p : t) : Result unit :=
  if length (keys p) <? length (memberships p) then Err (Decode "membership without key")
  else if strictly_ascending (take (length (memberships p)) (keys p)) then Ok tt
  else Err (Decode "queried keys not strictly ascending").

Definition key (p : t) (idx : nat) : Result (array 32) :=
  ok_or (keys p !! idx) (Decode "key out of range").
Definition leaf (p : t) (idx : nat) : Result Leaf.t :=
  ok_or (leaves p !! idx) (Decode "leaf out of range").
Definition leaf_key (p : t) (lf : Leaf.t) : Result (array 32) :=
  key p (indexu (Leaf.key_idx lf)).

Definition member_present (p : t) (idx leaf_idx : nat) : Result Member.t :=
  k ← key p idx;
  lf ← leaf p leaf_idx;
  lk ← leaf_key p lf;
  if negb (bool_decide (lk = k)) then Err (Decode "leaf is absent")
  else Ok {| Member.key := k; Member.leaf := lf; Member.absent := false |}.

Definition member_absent (p : t) (idx leaf_idx : nat) : Result Member.t :=
  k ← key p idx;
  lf ← leaf p leaf_idx;
  lk ← leaf_key p lf;
  if bool_decide (lk = k) then Err (Decode "leaf is present")
  else if negb (Bits.shares_prefix (vec_to_list k) (vec_to_list lk) (indexu (Leaf.depth lf)))
  then Err (Decode "absent leaf does not witness key")
  else Ok {| Member.key := k; Member.leaf := lf; Member.absent := true |}.

Definition member (p : t) (idx : nat) : Result Member.t :=
  m ← ok_or (memberships p !! idx) (Decode "membership out of range");
  match m with
  | Membership.Present i => member_present p idx (indexu i)
  | Membership.Absent i => member_absent p idx (indexu i)
  end.

(** [members().collect::<Result<Vec<_>>>()]. *)
Definition members (p : t) : Result (list Member.t) :=
  mapM_outcome (member p) (seq 0 (length (memberships p))).
End Proof.

(** ** traversal.rs *)
Module Traversal.

(** The mutable part of a traversal: the next sibling and the next topology bit. *)
Record cursor := { sibling_idx : nat; topo_bit : nat }.
Definition start_cursor : cursor := {| sibling_idx := 0; topo_bit := 0 |}.

Section traversal.
Context `{Hasher} (proof : Proof.t).

Definition at_shortcut_depth (start stop level : nat) : Result bool :=
  if negb (stop - start =? 1) then Ok false
  else
    lf ← expect (Proof.leaves proof !! start);
    let depth := indexu (Leaf.depth lf) in
    if depth <? level then Err (Decode "malformed proof") else Ok (level =? depth).

Definition terminal_value {T} (leaf_hash_fn : nat -> Result T) (start stop level : nat) (empty : T)
    : Result (option T) :=
  if start =? stop then Ok (Some empty)
  else
    shortcut ← at_shortcut_depth start stop level;
    if shortcut : bool then Some <$> leaf_hash_fn start
    else if DEPTH <=? level then Err (Decode "malformed proof")
    else Ok None.

Definition next_topology_bit (c : cursor) : bool * cursor :=
  (Bits.get_lsb (Proof.topology proof) (topo_bit c),
   {| sibling_idx := sibling_idx c; topo_bit := S (topo_bit c) |}).

(** [!keys[leaf.key_idx].get_msb(level)]. *)
Definition key_goes_left (level : nat) (lf : Leaf.t) : Result bool :=
  k ← expect (Proof.keys proof !! indexu (Leaf.key_idx lf));
  Ok (negb (bit k level)).

Definition split_point (start stop level : nat) : Result nat :=
  _ ← assert ((start <=? stop) && (stop <=? length (Proof.leaves proof)));
  n ← partition_point_m (key_goes_left level) (take (stop - start) (drop start (Proof.leaves proof)));
  Ok (start + n).

Definition leaf_goes_left (start level : nat) : Result bool :=
  lf ← expect (Proof.leaves proof !! start);
  key_goes_left level lf.

Definition next_sibling (c : cursor) : Result (HashedNode.t * cursor) :=
  s ← ok_or (Proof.siblings proof !! sibling_idx c) (Decode "malformed proof");
  Ok (s, {| sibling_idx := S (sibling_idx c); topo_bit := topo_bit c |}).

Definition combine_with_sibling (child sibling : HashedNode.t) (child_goes_left : bool)
    : HashedNode.t :=
  if child_goes_left then HashedNode.combine child sibling
  else HashedNode.combine sibling child.

Section walk.
Context (leaf_hash_fn : nat -> Result HashedNode.t).

Fixpoint walk (fuel start stop level : nat) (c : cursor) : Result (HashedNode.t * cursor) :=
  match fuel with
  | O => Panic
  | S fuel =>
      v ← terminal_value leaf_hash_fn start stop level HashedNode.empty;
      match v with
      | Some value => Ok (value, c)
      | None =>
          let '(topo, c) := next_topology_bit c in
          if topo : bool then
            mid ← split_point start stop level;
            '(l, c) ← walk fuel start mid (S level) c;
            '(r, c) ← walk fuel mid stop (S level) c;
            Ok (HashedNode.combine l r, c)
          else
            goes_left ← leaf_goes_left start level;
            '(sibling, c) ← next_sibling c;
            '(child, c) ← walk fuel start stop (S level) c;
            Ok (combine_with_sibling child sibling goes_left, c)
      end
  end.

(** Levels 0 to [DEPTH] recurse or fail, so [S DEPTH] units of fuel suffice. *)
Definition traverse (start stop level : nat) : Result (array 32) :=
  '(h, _) ← walk (S DEPTH) start stop level start_cursor;
  Ok (HashedNode.hash h).
End walk.

Section walk_pair.
Context (leaf_hash_fn : nat -> Result (HashedNode.t * HashedNode.t)).

Fixpoint walk_pair (fuel start stop level : nat) (c : cursor)
    : Result (HashedNode.t * HashedNode.t * cursor) :=
  match fuel with
  | O => Panic
  | S fuel =>
      v ← terminal_value leaf_hash_fn start stop level (HashedNode.empty, HashedNode.empty);
      match v with
      | Some value => Ok (value, c)
      | None =>
          let '(topo, c) := next_topology_bit c in
          if topo : bool then
            mid ← split_point start stop level;
            '(prev_left, post_left, c) ← walk_pair fuel start mid (S level) c;
            '(prev_right, post_right, c) ← walk_pair fuel mid stop (S level) c;
            let prev := HashedNode.combine prev_left prev_right in
            let post :=
              if bool_decide (prev_left = post_left) && bool_decide (prev_right = post_right)
              then prev else HashedNode.combine post_left post_right in
            Ok (prev, post, c)
          else
            goes_left ← leaf_goes_left start level;
            '(sibling, c) ← next_sibling c;
            '(prev_child, post_child, c) ← walk_pair fuel start stop (S level) c;
            let prev := combine_with_sibling prev_child sibling goes_left in
            let post :=
              if bool_decide (prev_child = post_child) then prev
              else combine_with_sibling post_child sibling goes_left in
            Ok (prev, post, c)
      end
  end.

Definition traverse_pair (start stop level : nat) : Result (array 32 * array 32) :=
  '(prev, post, _) ← walk_pair (S DEPTH) start stop level start_cursor;
  Ok (HashedNode.hash prev, HashedNode.hash post).
End walk_pair.
End traversal.
End Traversal.

(** ** members_by_leaf.rs and proof.rs: the paired recomputation *)
Module MembersByLeaf.
Record t := { offsets : list nat; indices : list nat }.

(** [at]: the members that land at one proof leaf. *)
Definition members_at (mbl : t) (leaf_pos : nat) : Result (list nat) :=
  start ← expect (offsets mbl !! leaf_pos);
  stop ← expect (offsets mbl !! S leaf_pos);
  _ ← assert ((start <=? stop) && (stop <=? length (indices mbl)));
  Ok (take (stop - start) (drop start (indices mbl))).

(** [offsets[i] += offsets[i - 1]]. *)
Definition add_prev (offsets : list nat) (i : nat) : list nat :=
  match offsets !! (i - 1) with
  | Some x => alter (Nat.add x) i offsets
  | None => offsets
  end.

(** One step of pass 2: write the member index at the leaf's cursor and advance the cursor. *)
Definition fill (leaves_len : nat) (st : list nat * list nat) (im : nat * Membership.t)
    : list nat * list nat :=
  let '(indices, offsets) := st in
  let '(i, m) := im in
  let leaf_pos := Membership.leaf_pos m in
  if leaf_pos <? leaves_len then
    match offsets !! leaf_pos with
    | Some o => (<[o := i]> indices, alter S leaf_pos offsets)
    | None => st
    end
  else st.

(** [offsets[i] = offsets[i - 1]]. *)
Definition shift (offsets : list nat) (i : nat) : list nat :=
  match offsets !! (i - 1) with
  | Some x => <[i := x]> offsets
  | None => offsets
  end.

Definition members_by_leaf (p : Proof.t) : t :=
  let leaves_len := length (Proof.leaves p) in
  let offsets := replicate (S leaves_len) 0 in
  let offsets := foldl (fun offsets m =>
    if Membership.leaf_pos m <? leaves_len
    then alter S (S (Membership.leaf_pos m)) offsets else offsets)
    offsets (Proof.memberships p) in
  let offsets := foldl add_prev offsets (seq 1 leaves_len) in
  let indices := replicate (default 0 (offsets !! leaves_len)) 0 in
  let '(indices, offsets) :=
    foldl (fill leaves_len) (indices, offsets) (imap pair (Proof.memberships p)) in
  let offsets := foldl shift offsets (reverse (seq 1 leaves_len)) in
  {| offsets := <[0 := 0]> offsets; indices := indices |}.
End MembersByLeaf.

Module Roots.
Section roots.
Context `{Hasher}.

Definition leaf_hash (p : Proof.t) (i : nat) : Result HashedNode.t :=
  lf ← Proof.leaf p i;
  lk ← Proof.leaf_key p lf;
  Ok (HashedNode.leaf lk (Leaf.value_hash lf)).

Definition root (p : Proof.t) : Result (array 32) :=
  Traversal.traverse p (leaf_hash p) 0 (length (Proof.leaves p)) 0.

(** The state of the classification loop. *)
Record scan := {
  buffer : list (array 32 * array 32);
  new_witness_value : option (array 32);
  needs_synthesis : bool;
  any_change : bool
}.

Definition scan_member (p : Proof.t) (lf : Leaf.t) (new_value : nat -> array 32)
    (st : scan) (i : nat) : Result scan :=
  m ← expect (Proof.memberships p !! i);
  let v := new_value i in
  let st :=
    match m with
    | Membership.Present _ =>
        {| buffer := buffer st; new_witness_value := Some v;
           needs_synthesis := needs_synthesis st;
           any_change := any_change st || negb (bool_decide (v = Leaf.value_hash lf)) |}
    | Membership.Absent _ =>
        let live := negb (bool_decide (v = EMPTY_HASH)) in
        {| buffer := buffer st; new_witness_value := new_witness_value st;
           needs_synthesis := needs_synthesis st || live; any_change := any_change st || live |}
    end in
  if bool_decide (v = EMPTY_HASH) then Ok st
  else
    k ← Proof.key p i;
    Ok {| buffer := buffer st ++ [(k, v)]; new_witness_value := new_witness_value st;
          needs_synthesis := needs_synthesis st; any_change := any_change st |}.

Fixpoint scan_members (p : Proof.t) (lf : Leaf.t) (new_value : nat -> array 32)
    (st : scan) (member_indices : list nat) : Result scan :=
  match member_indices with
  | [] => Ok st
  | i :: rest => st ← scan_member p lf new_value st i; scan_members p lf new_value st rest
  end.

(** The classification, and the buffer it leaves for synthesis. *)
Definition classify_leaf_update (p : Proof.t) (lf : Leaf.t) (lk : array 32)
    (member_indices : list nat) (new_value : nat -> array 32)
    : Result (LeafUpdate * list (array 32 * array 32)) :=
  st ← scan_members p lf new_value
         {| buffer := []; new_witness_value := None; needs_synthesis := false; any_change := false |}
         member_indices;
  if negb (any_change st) then Ok (Unchanged, buffer st)
  else if needs_synthesis st then
    let buf :=
      if bool_decide (new_witness_value st = None)
         && negb (bool_decide (Leaf.value_hash lf = EMPTY_HASH))
      then buffer st ++ [(lk, Leaf.value_hash lf)] else buffer st in
    Ok (Multiple, sort_by (fun a b => key_leb a.1 b.1) buf)
  else Ok (Single (default (Leaf.value_hash lf) (new_witness_value st)), buffer st).

(** Past the last level two entries never part, and the source would recurse for ever: the
    model panics there. *)
Fixpoint subtree_hash (fuel : nat) (entries : list (array 32 * array 32)) (depth : nat)
    : Result HashedNode.t :=
  match fuel with
  | O => Panic
  | S fuel =>
      match entries with
      | [] => Ok HashedNode.empty
      | [(k, v)] => Ok (HashedNode.leaf k v)
      | _ =>
          let mid := partition_point (fun e => negb (bit e.1 depth)) entries in
          l ← subtree_hash fuel (take mid entries) (S depth);
          r ← subtree_hash fuel (drop mid entries) (S depth);
          Ok (HashedNode.combine l r)
      end
  end.

Definition leaf_pair (p : Proof.t) (leaf_pos : nat) (member_indices : list nat)
    (new_value : nat -> array 32) : Result (HashedNode.t * HashedNode.t) :=
  lf ← Proof.leaf p leaf_pos;
  lk ← Proof.leaf_key p lf;
  let prev := HashedNode.leaf lk (Leaf.value_hash lf) in
  '(upd, buf) ← classify_leaf_update p lf lk member_indices new_value;
  post ← match upd with
         | Unchanged => Ok prev
         | Single value => Ok (HashedNode.leaf lk value)
         | Multiple =>
             let depth := indexu (Leaf.depth lf) in
             subtree_hash (S (S DEPTH) - depth) buf depth
         end;
  Ok (prev, post).

Definition compute_roots (p : Proof.t) (new_value : nat -> array 32)
    : Result (array 32 * array 32) :=
  let mbl := MembersByLeaf.members_by_leaf p in
  Traversal.traverse_pair p
    (fun leaf_pos =>
       idxs ← MembersByLeaf.members_at mbl leaf_pos; leaf_pair p leaf_pos idxs new_value)
    0 (length (Proof.leaves p)) 0.

Definition new_root (p : Proof.t) (value : nat -> array 32) : Result (array 32) :=
  snd <$> compute_roots p value.
End roots.
End Roots.
