(* ===== verification/SmtSound.v ===== *)
(** * SmtSound: what an accepted multi-proof proves

    Both traversals are the evaluation of one explicit proof tree. Against a committed map,
    presence claims are sound for every proof; absence claims and the recomputed post-state root
    are sound for proofs whose siblings are pinned and whose leaves are routed, and the last
    section shows a forged absence without that condition. *)

From S2P Require Import Prelude Codec Types SmtNode SmtTrie SmtUpdate SmtProof.

(** ** Proof trees *)

Inductive rtree :=
| REmpty
| RLeaf (i : nat) (k v : array 32)
| RSplit (l r : rtree)
| RSib (goes_left : bool) (sib : HashedNode.t) (c : rtree).

Section plan.
Context (proof : Proof.t).

(** A proof leaf with its key resolved. *)
Definition resolve (i : nat) : Result rtree :=
  lf ← Proof.leaf proof i;
  lk ← Proof.leaf_key proof lf;
  Ok (RLeaf i lk (Leaf.value_hash lf)).

(** The traversal of [walk], building the tree it visits. *)
Fixpoint plan (fuel start stop level : nat) (c : Traversal.cursor)
    : Result (rtree * Traversal.cursor) :=
  match fuel with
  | O => Panic
  | S fuel =>
      v ← Traversal.terminal_value proof resolve start stop level REmpty;
      match v with
      | Some value => Ok (value, c)
      | None =>
          let '(topo, c) := Traversal.next_topology_bit proof c in
          if topo : bool then
            mid ← Traversal.split_point proof start stop level;
            '(l, c) ← plan fuel start mid (S level) c;
            '(r, c) ← plan fuel mid stop (S level) c;
            Ok (RSplit l r, c)
          else
            goes_left ← Traversal.leaf_goes_left proof start level;
            '(sibling, c) ← Traversal.next_sibling proof c;
            '(child, c) ← plan fuel start stop (S level) c;
            Ok (RSib goes_left sibling child, c)
      end
  end.

(** The tree of a whole proof. *)
Definition proof_tree : Result rtree :=
  fst <$> plan (S DEPTH) 0 (length (Proof.leaves proof)) 0 Traversal.start_cursor.
End plan.

Section eval.
Context `{Hasher}.

(** The pre-state summary of a proof tree. *)
Fixpoint reval (t : rtree) : HashedNode.t :=
  match t with
  | REmpty => HashedNode.empty
  | RLeaf _ k v => HashedNode.leaf k v
  | RSplit l r => HashedNode.combine (reval l) (reval r)
  | RSib b sib c => Traversal.combine_with_sibling (reval c) sib b
  end.

(** The post-state summary, given the post-state of each leaf. *)
Fixpoint rpost (post : nat -> Result HashedNode.t) (t : rtree) : Result HashedNode.t :=
  match t with
  | REmpty => Ok HashedNode.empty
  | RLeaf i _ _ => post i
  | RSplit l r => hl ← rpost post l; hr ← rpost post r; Ok (HashedNode.combine hl hr)
  | RSib b sib c => hc ← rpost post c; Ok (Traversal.combine_with_sibling hc sib b)
  end.

Lemma terminal_fmap {A B} (f : A -> B) proof (g : nat -> Result A) (g' : nat -> Result B)
    start stop level empty :
  (forall i, g' i = f <$> g i) ->
  Traversal.terminal_value proof g' start stop level (f empty)
  = fmap (M := option) f <$> Traversal.terminal_value proof g start stop level empty.
Proof.
  intros Hg. unfold Traversal.terminal_value. destruct (start =? stop); [done|].
  destruct (Traversal.at_shortcut_depth proof start stop level) as [[]| |]; cbn [mbind outcome_bind fmap outcome_fmap]; try done.
  - rewrite Hg. by destruct (g start).
  - by destruct (DEPTH <=? level).
Qed.

Lemma leaf_hash_resolve proof i :
  Roots.leaf_hash proof i = reval <$> resolve proof i.
Proof.
  unfold Roots.leaf_hash, resolve. destruct (Proof.leaf proof i) as [lf| |]; cbn; [|done..].
  by destruct (Proof.leaf_key proof lf).
Qed.

(** [walk] evaluates the proof tree. *)
Lemma walk_plan proof fuel start stop level c :
  Traversal.walk proof (Roots.leaf_hash proof) fuel start stop level c
  = (fun '(t, c) => (reval t, c)) <$> plan proof fuel start stop level c.
Proof.
  revert start stop level c; induction fuel as [|fuel IH]; intros start stop level c; [done|].
  cbn [Traversal.walk plan].
  change HashedNode.empty with (reval REmpty) at 1.
  rewrite (terminal_fmap reval proof (resolve proof)) by apply leaf_hash_resolve.
  destruct (Traversal.terminal_value _ _ _ _ _ _) as [[v|]| |]; cbn [fmap outcome_fmap mbind outcome_bind option_fmap option_map]; [done| |done..].
  destruct (Traversal.next_topology_bit proof c) as [[] c1].
  - destruct (Traversal.split_point proof start stop level) as [mid| |]; cbn [mbind outcome_bind]; [|done..].
    rewrite IH. destruct (plan proof fuel start mid (S level) c1) as [[l c2]| |];
      cbn [fmap outcome_fmap mbind outcome_bind]; [|done..].
    rewrite IH. by destruct (plan proof fuel mid stop (S level) c2) as [[r c3]| |].
  - destruct (Traversal.leaf_goes_left proof start level) as [b| |]; cbn [mbind outcome_bind]; [|done..].
    destruct (Traversal.next_sibling proof c1) as [[sib c2]| |]; cbn [mbind outcome_bind]; [|done..].
    rewrite IH. by destruct (plan proof fuel start stop (S level) c2) as [[ch c3]| |].
Qed.

Lemma root_tree proof :
  Roots.root proof = (fun t => HashedNode.hash (reval t)) <$> proof_tree proof.
Proof.
  unfold Roots.root, Traversal.traverse, proof_tree. rewrite walk_plan.
  by destruct (plan _ _ _ _ _ _) as [[t c]| |].
Qed.

(** *** The paired traversal *)

Section pair.
Context (proof : Proof.t) (leaf_fn : nat -> Result (HashedNode.t * HashedNode.t)).
Context (Hleaf : forall i prev post, leaf_fn i = Ok (prev, post) ->
  exists k v, resolve proof i = Ok (RLeaf i k v) /\ prev = HashedNode.leaf k v).

Lemma terminal_pair start stop level prev post :
  Traversal.terminal_value proof leaf_fn start stop level (HashedNode.empty, HashedNode.empty)
    = Ok (Some (prev, post)) ->
  exists t, Traversal.terminal_value proof (resolve proof) start stop level REmpty = Ok (Some t) /\
    prev = reval t /\ rpost (fun i => snd <$> leaf_fn i) t = Ok post.
Proof using Hleaf.
  unfold Traversal.terminal_value. destruct (start =? stop).
  { intros [= <- <-]. by exists REmpty. }
  destruct (Traversal.at_shortcut_depth proof start stop level) as [[]| |];
    cbn [mbind outcome_bind]; try done; [|by destruct (DEPTH <=? level)].
  destruct (leaf_fn start) as [[a b]| |] eqn:E; cbn [fmap outcome_fmap]; try done.
  intros [= <- <-]. destruct (Hleaf _ _ _ E) as (k & v & -> & ->).
  exists (RLeaf start k v). cbn. by rewrite E.
Qed.

Lemma terminal_None {A B} (g : nat -> Result A) (g' : nat -> Result B) start stop level empty empty' :
  Traversal.terminal_value proof g start stop level empty = Ok None ->
  Traversal.terminal_value proof g' start stop level empty' = Ok None.
Proof.
  unfold Traversal.terminal_value. destruct (start =? stop); [done|].
  destruct (Traversal.at_shortcut_depth proof start stop level) as [[]| |];
    cbn [mbind outcome_bind]; try done; [by destruct (g start)|by destruct (DEPTH <=? level)].
Qed.

(** The pair [walk_pair] returns is the pre- and post-state evaluation of the proof tree: reusing
    the pre-state summary of unchanged children is an optimisation only. *)
Lemma walk_pair_plan fuel start stop level c prev post c' :
  Traversal.walk_pair proof leaf_fn fuel start stop level c = Ok (prev, post, c') ->
  exists t, plan proof fuel start stop level c = Ok (t, c') /\ prev = reval t /\
    rpost (fun i => snd <$> leaf_fn i) t = Ok post.
Proof using Hleaf.
  revert start stop level c prev post c'; induction fuel as [|fuel IH];
    intros start stop level c prev post c'; [done|].
  cbn [Traversal.walk_pair plan]. intros Hw. apply bind_Ok in Hw as (v & Hv & Hw).
  destruct v as [[prev' post']|].
  { injection Hw as -> -> ->. apply terminal_pair in Hv as (t & -> & ? & ?). by exists t. }
  rewrite (terminal_None _ _ _ _ _ _ _ Hv). cbn [mbind outcome_bind].
  destruct (Traversal.next_topology_bit proof c) as [[] c1].
  - apply bind_Ok in Hw as (mid & -> & Hw). cbn [mbind outcome_bind].
    apply bind_Ok in Hw as ([[prel postl] c2] & Hl & Hw).
    apply bind_Ok in Hw as ([[prer postr] c3] & Hr & Hw).
    apply IH in Hl as (l & -> & -> & Hpl). apply IH in Hr as (r & Hr & -> & Hpr).
    cbn [mbind outcome_bind]. rewrite Hr. cbn [mbind outcome_bind].
    exists (RSplit l r). cbn [rpost reval]. rewrite Hpl. cbn [mbind outcome_bind].
    rewrite Hpr. cbn [mbind outcome_bind].
    revert Hw. case_bool_decide as E1; [case_bool_decide as E2|]; cbn [andb]; intros [= <- <- <-];
      split; try done; split; try done. by rewrite E1, E2.
  - apply bind_Ok in Hw as (b & -> & Hw). apply bind_Ok in Hw as ([sib c2] & -> & Hw).
    cbn [mbind outcome_bind]. apply bind_Ok in Hw as ([[prec postc] c3] & Hc & Hw).
    apply IH in Hc as (ch & -> & -> & Hpc). cbn [mbind outcome_bind].
    exists (RSib b sib ch). cbn [rpost reval]. rewrite Hpc. cbn [mbind outcome_bind].
    revert Hw. case_bool_decide as E1; intros [= <- <- <-]; split; try done; split; try done.
    by rewrite E1.
Qed.

(** Conversely, where every leaf of the plan has a post-state the paired traversal succeeds. *)
Lemma walk_pair_complete fuel start stop level c t c' post :
  plan proof fuel start stop level c = Ok (t, c') ->
  rpost (fun i => snd <$> leaf_fn i) t = Ok post ->
  Traversal.walk_pair proof leaf_fn fuel start stop level c = Ok (reval t, post, c').
Proof using Hleaf.
  revert start stop level c t c' post; induction fuel as [|fuel IH];
    intros start stop level c t c' post; [done|].
  cbn [Traversal.walk_pair plan]. intros Hp Hpost. apply bind_Ok in Hp as (v & Hv & Hp).
  destruct v as [v|].
  { injection Hp as -> ->. revert Hv. unfold Traversal.terminal_value. destruct (start =? stop).
    { intros [= <-]. cbn in Hpost. by injection Hpost as <-. }
    destruct (Traversal.at_shortcut_depth proof start stop level) as [[]| |];
      cbn [mbind outcome_bind]; try done; [|by destruct (DEPTH <=? level)].
    destruct (resolve proof start) as [v| |] eqn:Er; cbn [fmap outcome_fmap]; try done. intros [= ->].
    pose proof Er as Ht. unfold resolve in Ht.
    apply bind_Ok in Ht as (lf & _ & Ht). apply bind_Ok in Ht as (lk & _ & Ht).
    injection Ht as <-. cbn [rpost] in Hpost.
    destruct (leaf_fn start) as [[a b]| |] eqn:El; cbn in Hpost; try done. injection Hpost as <-.
    destruct (Hleaf _ _ _ El) as (k & v & Er' & ->). rewrite Er in Er'. by injection Er' as -> ->. }
  rewrite (terminal_None _ _ _ _ _ _ _ Hv). cbn [mbind outcome_bind].
  destruct (Traversal.next_topology_bit proof c) as [[] c1].
  - apply bind_Ok in Hp as (mid & -> & Hp). cbn [mbind outcome_bind].
    apply bind_Ok in Hp as ([l c2] & Hl & Hp). apply bind_Ok in Hp as ([r c3] & Hr & Hp).
    injection Hp as <- <-. cbn [rpost] in Hpost.
    apply bind_Ok in Hpost as (hl & Hhl & Hpost). apply bind_Ok in Hpost as (hr & Hhr & Hpost).
    rewrite (IH _ _ _ _ _ _ _ Hl Hhl). cbn [mbind outcome_bind].
    rewrite (IH _ _ _ _ _ _ _ Hr Hhr). cbn [mbind outcome_bind]. injection Hpost as <-. cbv zeta.
    do 3 f_equal. case_bool_decide as E1; [case_bool_decide as E2|]; cbn [andb]; try done. by rewrite <- E1, <- E2.
  - apply bind_Ok in Hp as (b & -> & Hp). apply bind_Ok in Hp as ([sib c2] & -> & Hp).
    cbn [mbind outcome_bind]. apply bind_Ok in Hp as ([ch c3] & Hc & Hp). injection Hp as <- <-.
    cbn [rpost] in Hpost. apply bind_Ok in Hpost as (hc & Hhc & Hpost).
    rewrite (IH _ _ _ _ _ _ _ Hc Hhc). cbn [mbind outcome_bind]. injection Hpost as <-. cbv zeta.
    do 3 f_equal. case_bool_decide as E1; [by rewrite <- E1|done].
Qed.
End pair.

Lemma traverse_pair_tree proof leaf_fn r r' :
  (forall i prev post, leaf_fn i = Ok (prev, post) ->
    exists k v, resolve proof i = Ok (RLeaf i k v) /\ prev = HashedNode.leaf k v) ->
  Traversal.traverse_pair proof leaf_fn 0 (length (Proof.leaves proof)) 0 = Ok (r, r') ->
  exists t h, proof_tree proof = Ok t /\ r = HashedNode.hash (reval t) /\
    rpost (fun i => snd <$> leaf_fn i) t = Ok h /\ r' = HashedNode.hash h.
Proof.
  intros Hl Ht. unfold Traversal.traverse_pair in Ht.
  apply bind_Ok in Ht as ([[prev post] c'] & Hw & Ht). injection Ht as <- <-.
  apply (walk_pair_plan proof leaf_fn Hl) in Hw as (t & Hp & -> & Hpost).
  exists t, post. unfold proof_tree. by rewrite Hp.
Qed.

Lemma leaf_pair_prev proof pos idxs nv prev post :
  Roots.leaf_pair proof pos idxs nv = Ok (prev, post) ->
  exists k v, resolve proof pos = Ok (RLeaf pos k v) /\ prev = HashedNode.leaf k v.
Proof.
  unfold Roots.leaf_pair, resolve. intros Hp.
  apply bind_Ok in Hp as (lf & -> & Hp). cbn [mbind outcome_bind].
  apply bind_Ok in Hp as (lk & -> & Hp). cbn [mbind outcome_bind]. cbv zeta in Hp.
  apply bind_Ok in Hp as ([upd buf] & _ & Hp). apply bind_Ok in Hp as (post' & _ & Hp).
  injection Hp as <- <-. by eexists _, _.
Qed.

Lemma compute_roots_complete proof nv t h :
  proof_tree proof = Ok t ->
  rpost (fun i => idxs ← MembersByLeaf.members_at (MembersByLeaf.members_by_leaf proof) i;
                  snd <$> Roots.leaf_pair proof i idxs nv) t = Ok h ->
  Roots.compute_roots proof nv = Ok (HashedNode.hash (reval t), HashedNode.hash h).
Proof.
  unfold proof_tree, Roots.compute_roots, Traversal.traverse_pair. intros Ht Hp.
  destruct (plan _ _ _ _ _ _) as [[t' c]| |] eqn:E; try done. injection Ht as ->.
  erewrite walk_pair_complete; [done| |exact E|].
  - intros i prev post Hi. apply bind_Ok in Hi as (idxs & _ & Hi). by eapply leaf_pair_prev.
  - rewrite <- Hp. clear. induction t as [| |l IHl r IHr|b sib c IHc]; cbn [rpost];
      [done| |by rewrite IHl, IHr|by rewrite IHc].
    by destruct (MembersByLeaf.members_at _ i).
Qed.

(** [compute_roots] in terms of the proof tree. *)
Lemma compute_roots_tree proof nv r r' :
  Roots.compute_roots proof nv = Ok (r, r') ->
  exists t h, proof_tree proof = Ok t /\ r = HashedNode.hash (reval t) /\
    rpost (fun i => idxs ← MembersByLeaf.members_at (MembersByLeaf.members_by_leaf proof) i;
                    snd <$> Roots.leaf_pair proof i idxs nv) t = Ok h /\
    r' = HashedNode.hash h.
Proof.
  unfold Roots.compute_roots. intros Hc. apply traverse_pair_tree in Hc as (t & h & Ht & Hr & Hp & Hr').
  - exists t, h. split; [done|]. split; [done|]. split; [|done]. rewrite <- Hp. clear.
    induction t as [| |l IHl r IHr|b sib c IHc]; cbn [rpost]; [done| |by rewrite IHl, IHr|by rewrite IHc].
    by destruct (MembersByLeaf.members_at _ i).
  - intros i prev post Hi. apply bind_Ok in Hi as (idxs & _ & Hi). by eapply leaf_pair_prev.
Qed.
End eval.

(** ** The leaves of a proof tree *)

Record rleaf := { rl_depth : nat; rl_idx : nat; rl_key : array 32; rl_value : array 32 }.

Definition deeper (x : rleaf) : rleaf :=
  {| rl_depth := S (rl_depth x); rl_idx := rl_idx x; rl_key := rl_key x; rl_value := rl_value x |}.

(** The leaves of a proof tree in order, with their depths below its root. *)
Fixpoint rleaves (t : rtree) : list rleaf :=
  match t with
  | REmpty => []
  | RLeaf i k v => [{| rl_depth := 0; rl_idx := i; rl_key := k; rl_value := v |}]
  | RSplit l r => (deeper <$> rleaves l) ++ (deeper <$> rleaves r)
  | RSib _ _ c => deeper <$> rleaves c
  end.

(** The leaf is the proof's, sits at its declared depth, and its key resolves. *)
Definition leaf_placed (proof : Proof.t) (level : nat) (x : rleaf) : Prop :=
  exists lf, Proof.leaves proof !! rl_idx x = Some lf /\
    Proof.keys proof !! indexu (Leaf.key_idx lf) = Some (rl_key x) /\
    rl_value x = Leaf.value_hash lf /\ indexu (Leaf.depth lf) = level + rl_depth x.

Lemma leaf_placed_deeper proof level x :
  leaf_placed proof (S level) x -> leaf_placed proof level (deeper x).
Proof. intros (lf & ? & ? & ? & Hd). exists lf. cbn. repeat split; try done. lia. Qed.

Lemma terminal_Some proof start stop level t :
  Traversal.terminal_value proof (resolve proof) start stop level REmpty = Ok (Some t) ->
  (start = stop /\ t = REmpty) \/
  (stop - start = 1 /\ exists k v, t = RLeaf start k v /\
     leaf_placed proof level {| rl_depth := 0; rl_idx := start; rl_key := k; rl_value := v |}).
Proof.
  unfold Traversal.terminal_value. destruct (Nat.eqb_spec start stop) as [->|Hne].
  { intros [= <-]. by left. }
  unfold Traversal.at_shortcut_depth. intros Ht. right.
  destruct (Nat.eqb_spec (stop - start) 1) as [H1|H1]; cbn [negb] in Ht;
    [|cbn [mbind outcome_bind] in Ht; by destruct (DEPTH <=? level)].
  split; [done|]. destruct (Proof.leaves proof !! start) as [lf|] eqn:El; [|done].
  cbn [expect mbind outcome_bind] in Ht. cbv zeta in Ht.
  destruct (indexu (Leaf.depth lf) <? level); [done|]. cbn [mbind outcome_bind] in Ht.
  destruct (Nat.eqb_spec level (indexu (Leaf.depth lf))) as [Hd|Hd];
    [|by destruct (DEPTH <=? level)].
  unfold resolve, Proof.leaf, Proof.leaf_key, Proof.key in Ht. rewrite El in Ht.
  cbn [ok_or mbind outcome_bind] in Ht.
  destruct (Proof.keys proof !! _) as [lk|] eqn:Ek; [|done]. cbn in Ht. injection Ht as <-.
  eexists _, _. split; [done|]. exists lf. cbn. repeat split; try done. lia.
Qed.

(** The plan of a range visits exactly the leaves of the range, in order, each at its declared
    depth, and never goes below the last level. *)
Lemma plan_leaves proof fuel start stop level c t c' :
  plan proof fuel start stop level c = Ok (t, c') -> start <= stop ->
  rl_idx <$> rleaves t = seq start (stop - start) /\ Forall (leaf_placed proof level) (rleaves t).
Proof.
  revert start stop level c t c'; induction fuel as [|fuel IH];
    intros start stop level c t c'; [done|].
  cbn [plan]. intros Hp Hle. apply bind_Ok in Hp as (v & Hv & Hp). destruct v as [v|].
  { injection Hp as -> ->. apply terminal_Some in Hv as [[-> ->]|(H1 & k & v & -> & Hpl)].
    - by rewrite Nat.sub_diag.
    - rewrite H1. cbn. by repeat constructor. }
  destruct (Traversal.next_topology_bit proof c) as [[] c1].
  - apply bind_Ok in Hp as (mid & Hmid & Hp).
    apply bind_Ok in Hp as ([l c2] & Hl & Hp). apply bind_Ok in Hp as ([r c3] & Hr & Hp).
    injection Hp as <- <-.
    assert (start <= mid <= stop) as Hb.
    { unfold Traversal.split_point in Hmid. apply bind_Ok in Hmid as ([] & Ha & Hmid).
      apply assert_Ok, andb_true_iff in Ha as [Ha1 Ha2]. apply Nat.leb_le in Ha1, Ha2.
      apply bind_Ok in Hmid as (n & Hn & Hmid). injection Hmid as <-.
      apply partition_point_m_le in Hn. rewrite length_take, length_drop in Hn. lia. }
    apply IH in Hl as [Hil Hpl]; [|lia]. apply IH in Hr as [Hir Hpr]; [|lia].
    cbn [rleaves]. rewrite fmap_app, <- !list_fmap_compose.
    change (rl_idx ∘ deeper) with rl_idx. rewrite Hil, Hir. split.
    + replace (stop - start) with ((mid - start) + (stop - mid)) by lia.
      rewrite seq_app. do 2 f_equal. lia.
    + apply Forall_app; split; apply Forall_fmap; (eapply Forall_impl; [eassumption|]);
        apply leaf_placed_deeper.
  - apply bind_Ok in Hp as (b & _ & Hp). apply bind_Ok in Hp as ([sib c2] & _ & Hp).
    apply bind_Ok in Hp as ([ch c3] & Hc & Hp). injection Hp as <- <-.
    apply IH in Hc as [Hic Hpc]; [|lia]. cbn [rleaves]. rewrite <- list_fmap_compose.
    split; [done|]. apply Forall_fmap. eapply Forall_impl; [eassumption|]. apply leaf_placed_deeper.
Qed.

Lemma proof_tree_leaves proof t :
  proof_tree proof = Ok t ->
  rl_idx <$> rleaves t = seq 0 (length (Proof.leaves proof)) /\
  Forall (leaf_placed proof 0) (rleaves t).
Proof.
  unfold proof_tree. destruct (plan _ _ _ _ _ _) as [[t' c]| |] eqn:E; try done. intros [= <-].
  apply plan_leaves in E; [|lia]. by rewrite Nat.sub_0_r in E.
Qed.

(** Every leaf of an accepted proof is in its tree. *)
Lemma proof_tree_leaf proof t i lf :
  proof_tree proof = Ok t -> Proof.leaves proof !! i = Some lf ->
  exists k, Proof.keys proof !! indexu (Leaf.key_idx lf) = Some k /\
    {| rl_depth := indexu (Leaf.depth lf); rl_idx := i; rl_key := k;
       rl_value := Leaf.value_hash lf |} ∈ rleaves t.
Proof.
  intros Ht Hlf. apply proof_tree_leaves in Ht as [Hi Hp].
  assert (i ∈ rl_idx <$> rleaves t) as Hin.
  { rewrite Hi. apply elem_of_seq. apply lookup_lt_Some in Hlf. lia. }
  apply list_elem_of_fmap in Hin as (x & -> & Hx). rewrite Forall_forall in Hp.
  destruct (Hp x Hx) as (lf' & Hlf' & Hk & Hv & Hd). rewrite Hlf in Hlf'. injection Hlf' as <-.
  exists (rl_key x). split; [done|]. rewrite Hd, <- Hv. by destruct x.
Qed.

(** ** Hash preimages and collisions *)

Inductive preimage :=
| HLeaf (k v : array 32)
| HInternal (kl kr : byte) (hl hr : array 32).

#[export] Instance preimage_eq_dec : EqDecision preimage.
Proof. solve_decision. Defined.

Section sound.
Context `{Hasher}.

Definition phash (x : preimage) : array 32 :=
  match x with
  | HLeaf k v => hash_parts_with_domain [LEAF] [vec_to_list k; vec_to_list v]
  | HInternal kl kr hl hr =>
      hash_parts_with_domain [INTERNAL; kl; kr] [vec_to_list hl; vec_to_list hr]
  end.

(** The hash has no collision among the listed preimages, and none of them hashes to the
    all-zero value that stands for an empty subtree. *)
Definition no_collision (l : list preimage) : Prop :=
  (forall x y, x ∈ l -> y ∈ l -> phash x = phash y -> x = y) /\
  (forall x, x ∈ l -> phash x <> EMPTY_HASH).

(** The same as a decision on a concrete list. *)
Definition no_collisionb (l : list preimage) : bool :=
  forallb (fun x => negb (bool_decide (phash x = EMPTY_HASH)) &&
    forallb (fun y => implb (bool_decide (phash x = phash y)) (bool_decide (x = y))) l) l.

Lemma no_collisionb_spec l : no_collisionb l = true -> no_collision l.
Proof.
  intros Hl. unfold no_collisionb in Hl. rewrite forallb_forall in Hl.
  split; intros x; [intros y Hx Hy He|intros Hx]; rewrite list_elem_of_In in *;
    specialize (Hl x Hx); apply andb_true_iff in Hl as [Hz Hl].
  - rewrite forallb_forall in Hl. specialize (Hl y Hy).
    rewrite (bool_decide_eq_true_2 _ He) in Hl. by apply bool_decide_eq_true in Hl.
  - by apply negb_true_iff, bool_decide_eq_false in Hz.
Qed.

Fixpoint trie_preimages (t : trie) : list preimage :=
  match t with
  | TEmpty => []
  | TLeaf k v => [HLeaf k v]
  | TNode l r =>
      HInternal (HashedNode.kind (summary l)) (HashedNode.kind (summary r))
                (HashedNode.hash (summary l)) (HashedNode.hash (summary r))
      :: trie_preimages l ++ trie_preimages r
  end.

(** What [combine] hashes, unless it promotes or collapses. *)
Definition pair_preimage (l r : HashedNode.t) : preimage :=
  HInternal (HashedNode.kind l) (HashedNode.kind r) (HashedNode.hash l) (HashedNode.hash r).

Fixpoint rtree_preimages (t : rtree) : list preimage :=
  match t with
  | REmpty => []
  | RLeaf _ k v => [HLeaf k v]
  | RSplit l r => pair_preimage (reval l) (reval r) :: rtree_preimages l ++ rtree_preimages r
  | RSib b sib c =>
      (if b then pair_preimage (reval c) sib else pair_preimage sib (reval c)) :: rtree_preimages c
  end.

Definition proof_preimages (proof : Proof.t) : list preimage :=
  match proof_tree proof with Ok t => rtree_preimages t | _ => [] end.

Lemma no_collision_sub l l' : l' ⊆ l -> no_collision l -> no_collision l'.
Proof. intros Hs [H1 H2]. split; [intros x y Hx Hy; apply H1; auto | intros x Hx; auto]. Qed.

(** The four outcomes of [combine]. *)
Lemma combine_cases l r :
  (HashedNode.kind l = LEAF /\ HashedNode.kind r = EMPTY /\ HashedNode.combine l r = l) \/
  (HashedNode.kind l = EMPTY /\ HashedNode.kind r = LEAF /\ HashedNode.combine l r = r) \/
  (HashedNode.kind l = EMPTY /\ HashedNode.kind r = EMPTY /\
     HashedNode.combine l r = HashedNode.empty) \/
  (HashedNode.combine l r = HashedNode.new INTERNAL (phash (pair_preimage l r)) /\
   ~ (HashedNode.kind l = EMPTY /\ HashedNode.kind r = EMPTY)).
Proof.
  unfold HashedNode.combine, HashedNode.internal.
  destruct l as [kl hl], r as [kr hr]; cbn [HashedNode.kind HashedNode.hash].
  repeat case_bool_decide; cbn [andb]; tauto || (right; right; right; split; [done|tauto]).
Qed.

(** A canonical trie's summary is empty, or the hash of one of its preimages. *)
Lemma summary_preimage p s :
  wf p s ->
  match s with
  | TEmpty => summary s = HashedNode.empty
  | TLeaf k v => summary s = HashedNode.new LEAF (phash (HLeaf k v))
  | TNode l r => summary s = HashedNode.new INTERNAL (phash (pair_preimage (summary l) (summary r)))
  end.
Proof.
  intros Hwf. destruct s as [|k v|l r]; [done| |].
  - destruct Hwf as [_ Hv]. by apply summary_leaf.
  - pose proof (summary_kind p _ Hwf) as Hk. cbn [summary] in *.
    unfold HashedNode.internal in *. by destruct (_ && _).
Qed.

(** A summary equal to the hash of a known preimage opens the trie. *)
Lemma open_summary p s x l :
  wf p s -> no_collision l -> trie_preimages s ⊆ l -> x ∈ l ->
  phash x = HashedNode.hash (summary s) ->
  match s with
  | TEmpty => False
  | TLeaf k v => x = HLeaf k v
  | TNode sl sr => x = pair_preimage (summary sl) (summary sr)
  end.
Proof.
  intros Hwf [Hinj Hz] Hs Hx Heq. pose proof (summary_preimage p s Hwf) as Hsum.
  destruct s as [|k v|sl sr]; rewrite Hsum in Heq; cbn [HashedNode.hash HashedNode.empty] in Heq.
  - by apply (Hz x).
  - apply Hinj; [done| |done]. apply Hs. cbn. set_solver.
  - apply Hinj; [done| |done]. apply Hs. cbn. set_solver.
Qed.

(** An [EMPTY] summary has no live leaf under it. *)
Lemma reval_empty t :
  HashedNode.kind (reval t) = EMPTY -> forall x, x ∈ rleaves t -> rl_value x = EMPTY_HASH.
Proof.
  induction t as [|i k v|l IHl r IHr|b sib c IHc]; cbn [reval rleaves]; intros Hk x Hx.
  - by apply not_elem_of_nil in Hx.
  - apply list_elem_of_singleton in Hx as ->. cbn. unfold HashedNode.leaf in Hk.
    by destruct (bool_decide_reflect (v = EMPTY_HASH)).
  - assert (HashedNode.kind (reval l) = EMPTY /\ HashedNode.kind (reval r) = EMPTY) as [Hl Hr].
    { destruct (combine_cases (reval l) (reval r)) as [(E & ? & Hc)|[(? & E & Hc)|[(?&?&?)|(Hc & _)]]];
        try done; rewrite Hc in Hk; try (by rewrite E in Hk); done. }
    apply elem_of_app in Hx as [Hx|Hx]; apply list_elem_of_fmap in Hx as (y & -> & Hy); cbn; auto.
  - assert (HashedNode.kind (reval c) = EMPTY) as Hc.
    { unfold Traversal.combine_with_sibling in Hk. destruct b.
      - destruct (combine_cases (reval c) sib) as [(E & ? & Hc)|[(? & E & Hc)|[(?&?&?)|(Hc & _)]]];
          try done; rewrite Hc in Hk; try (by rewrite E in Hk); done.
      - destruct (combine_cases sib (reval c)) as [(E & ? & Hc)|[(? & E & Hc)|[(?&?&?)|(Hc & _)]]];
          try done; rewrite Hc in Hk; try (by rewrite E in Hk); done. }
    apply list_elem_of_fmap in Hx as (y & -> & Hy). cbn. auto.
Qed.

(** The leaves of a trie with their depths below its root. *)
Fixpoint tleaves (s : trie) : list (nat * array 32 * array 32) :=
  match s with
  | TEmpty => []
  | TLeaf k v => [(0, k, v)]
  | TNode l r => ((fun '(d, k, v) => (S d, k, v)) <$> tleaves l)
                 ++ ((fun '(d, k, v) => (S d, k, v)) <$> tleaves r)
  end.

Lemma tleaves_lookup p s d k v :
  wf p s -> (d, k, v) ∈ tleaves s ->
  has_prefix k p /\ v <> EMPTY_HASH /\
  forall k', has_prefix k' p -> (forall i, i < length p + d -> bit k i = bit k' i) ->
    tlookup (length p) s k' = if decide (k = k') then Some v else None.
Proof.
  revert p d; induction s as [|k0 v0|l IHl r IHr]; intros p d Hwf Hin.
  - by apply not_elem_of_nil in Hin.
  - apply list_elem_of_singleton in Hin. injection Hin as -> -> ->.
    destruct Hwf as [Hk Hv]. split; [done|]. split; [done|]. intros k' Hk' _. done.
  - apply elem_of_app in Hin as [Hin|Hin]; apply list_elem_of_fmap in Hin as ([[d' k1] v1] & [= -> -> ->] & Hin).
    + apply (IHl (p ++ [false])) in Hin as (Hk & Hv & Hlk); [|by apply (wf_child p l r false)].
      apply has_prefix_snoc in Hk as [Hk Hb]. split; [done|]. split; [done|]. intros k' Hk' Hag.
      rewrite (tlookup_child p l r k' false).
      * apply Hlk; [|intros i Hi; apply Hag; rewrite length_snoc in Hi; lia].
        apply has_prefix_snoc. split; [done|]. rewrite <- Hb. symmetry. apply Hag. lia.
      * apply has_prefix_snoc. split; [done|]. rewrite <- Hb. symmetry. apply Hag. lia.
    + apply (IHr (p ++ [true])) in Hin as (Hk & Hv & Hlk); [|by apply (wf_child p l r true)].
      apply has_prefix_snoc in Hk as [Hk Hb]. split; [done|]. split; [done|]. intros k' Hk' Hag.
      rewrite (tlookup_child p l r k' true).
      * apply Hlk; [|intros i Hi; apply Hag; rewrite length_snoc in Hi; lia].
        apply has_prefix_snoc. split; [done|]. rewrite <- Hb. symmetry. apply Hag. lia.
      * apply has_prefix_snoc. split; [done|]. rewrite <- Hb. symmetry. apply Hag. lia.
Qed.

(** The live leaves of the proof tree [t] are leaves of the trie [s], at most as deep. *)
Definition live_in (t : rtree) (s : trie) : Prop :=
  forall x, x ∈ rleaves t -> rl_value x <> EMPTY_HASH ->
    exists d, d <= rl_depth x /\ (d, rl_key x, rl_value x) ∈ tleaves s.

Definition live_deeper (t : rtree) (s : trie) : Prop :=
  forall x, x ∈ deeper <$> rleaves t -> rl_value x <> EMPTY_HASH ->
    exists d, d <= rl_depth x /\ (d, rl_key x, rl_value x) ∈ tleaves s.

Lemma live_promoted t s : live_in t s -> live_deeper t s.
Proof.
  intros Hl x Hx Hv. apply list_elem_of_fmap in Hx as (y & -> & Hy).
  destruct (Hl y Hy Hv) as (d & Hd & Hin). exists d. cbn. split; [lia|done].
Qed.

Lemma live_left t l r : live_in t l -> live_deeper t (TNode l r).
Proof.
  intros Hl x Hx Hv. apply list_elem_of_fmap in Hx as (y & -> & Hy).
  destruct (Hl y Hy Hv) as (d & Hd & Hin). exists (S d). cbn. split; [lia|].
  apply elem_of_app. left. apply list_elem_of_fmap. by exists (d, rl_key y, rl_value y).
Qed.

Lemma live_right t l r : live_in t r -> live_deeper t (TNode l r).
Proof.
  intros Hl x Hx Hv. apply list_elem_of_fmap in Hx as (y & -> & Hy).
  destruct (Hl y Hy Hv) as (d & Hd & Hin). exists (S d). cbn. split; [lia|].
  apply elem_of_app. right. apply list_elem_of_fmap. by exists (d, rl_key y, rl_value y).
Qed.

Lemma live_none t s : HashedNode.kind (reval t) = EMPTY -> live_deeper t s.
Proof.
  intros Hk x Hx Hv. apply list_elem_of_fmap in Hx as (y & -> & Hy).
  exfalso. apply Hv. by apply (reval_empty t Hk y).
Qed.

Lemma live_leaves_sound l : no_collision l -> forall t s p,
  wf p s -> rtree_preimages t ⊆ l -> trie_preimages s ⊆ l ->
  HashedNode.hash (reval t) = HashedNode.hash (summary s) -> live_in t s.
Proof.
  intros Hnc. induction t as [|i k v|tl IHl tr IHr|b sib c IHc]; intros s p Hwf Hrt Hst Heq.
  - intros x Hx. by apply not_elem_of_nil in Hx.
  - intros x Hx Hv. apply list_elem_of_singleton in Hx as ->. cbn in Hv |- *.
    cbn [reval] in Heq. rewrite summary_leaf in Heq by done. cbn [HashedNode.hash] in Heq.
    change (phash (HLeaf k v) = HashedNode.hash (summary s)) in Heq.
    apply (open_summary p s _ l) in Heq; [|done..|apply Hrt; cbn; set_solver].
    destruct s as [|k' v'|]; try done. injection Heq as -> ->. exists 0. split; [lia|]. cbn. set_solver.
  - cbn [rtree_preimages] in Hrt. cbn [reval] in Heq.
    assert (rtree_preimages tl ⊆ l /\ rtree_preimages tr ⊆ l) as [Hl Hr] by set_solver.
    enough (live_deeper tl s /\ live_deeper tr s) as [H1 H2].
    { intros x Hx. apply elem_of_app in Hx as [Hx|Hx]; [by apply H1|by apply H2]. }
    destruct (combine_cases (reval tl) (reval tr)) as [(_ & E & Hc)|[(E & _ & Hc)|[(E1&E2&_)|(Hc & _)]]];
      try rewrite Hc in Heq.
    + split; [eapply live_promoted, IHl; eauto|by apply live_none].
    + split; [by apply live_none|eapply live_promoted, IHr; eauto].
    + by split; apply live_none.
    + cbn [HashedNode.hash] in Heq.
      apply (open_summary p s _ l) in Heq; [|done..|apply Hrt; set_solver].
      destruct s as [| |sl sr]; try done. injection Heq as _ _ Ehl Ehr.
      destruct Hwf as (_ & Hwl & Hwr & _). cbn [trie_preimages] in Hst.
      split; [apply live_left; eapply IHl|apply live_right; eapply IHr]; eauto; set_solver.
  - cbn [rtree_preimages] in Hrt. cbn [reval] in Heq.
    assert (rtree_preimages c ⊆ l) as Hl by (destruct b; set_solver).
    change (live_deeper c s). unfold Traversal.combine_with_sibling in Heq. destruct b.
    + destruct (combine_cases (reval c) sib) as [(_ & E & Hc)|[(E & _ & Hc)|[(E1&E2&_)|(Hc & _)]]];
        try rewrite Hc in Heq; [eapply live_promoted, IHc; eauto|by apply live_none..|].
      apply (open_summary p s _ l) in Heq; [|done..|apply Hrt; set_solver].
      destruct s as [| |sl sr]; try done. injection Heq as _ _ Ehl Ehr.
      destruct Hwf as (_ & Hwl & Hwr & _). cbn [trie_preimages] in Hst.
      apply live_left; eapply IHc; eauto; set_solver.
    + destruct (combine_cases sib (reval c)) as [(_ & E & Hc)|[(E & _ & Hc)|[(E1&E2&_)|(Hc & _)]]];
        try rewrite Hc in Heq; [by apply live_none|eapply live_promoted, IHc; eauto|by apply live_none|].
      apply (open_summary p s _ l) in Heq; [|done..|apply Hrt; set_solver].
      destruct s as [| |sl sr]; try done. injection Heq as _ _ Ehl Ehr.
      destruct Hwf as (_ & Hwl & Hwr & _). cbn [trie_preimages] in Hst.
      apply live_right; eapply IHc; eauto; set_solver.
Qed.

(** Resolving a membership claim. *)
Lemma member_inv proof idx mem :
  Proof.member proof idx = Ok mem ->
  exists li lf lk, Proof.memberships proof !! idx
      = Some ((if Member.absent mem then Membership.Absent else Membership.Present) li) /\
    Proof.leaves proof !! indexu li = Some lf /\ Member.leaf mem = lf /\
    Proof.keys proof !! indexu (Leaf.key_idx lf) = Some lk /\
    Proof.keys proof !! idx = Some (Member.key mem) /\
    if Member.absent mem
    then lk <> Member.key mem /\
         Bits.shares_prefix (vec_to_list (Member.key mem)) (vec_to_list lk) (indexu (Leaf.depth lf)) = true
    else lk = Member.key mem.
Proof.
  unfold Proof.member, Proof.member_present, Proof.member_absent, Proof.leaf_key, Proof.leaf, Proof.key.
  intros Hm. inv_ok. destruct x as [li|li]; inv_ok.
  - destruct (bool_decide_reflect (x1 = x)) as [->|]; [|done]. cbn in Hm. inv_ok.
    by exists li, x0, x.
  - destruct (bool_decide_reflect (x1 = x)) as [|Hne]; [done|].
    destruct (Bits.shares_prefix _ _ _) eqn:E; [|done]. cbn in Hm. inv_ok.
    by exists li, x0, x1.
Qed.
End sound.

(** ** Pinned and routed proofs *)

(** The first [n] bits of a key. *)
Definition kprefix (k : array 32) (n : nat) : list bool := bit k <$> seq 0 n.

Lemma length_kprefix k n : length (kprefix k n) = n.
Proof. unfold kprefix. by rewrite length_fmap, length_seq. Qed.

Lemma lookup_kprefix k n i : i < n -> kprefix k n !! i = Some (bit k i).
Proof. intros Hi. unfold kprefix. rewrite list_lookup_fmap, lookup_seq_lt by done. done. Qed.

Lemma has_prefix_kprefix k k' n :
  has_prefix k' (kprefix k n) <-> forall i, i < n -> bit k' i = bit k i.
Proof.
  split.
  - intros Hp i Hi. apply Hp. by apply lookup_kprefix.
  - intros Hb i b Hi. pose proof (lookup_lt_Some _ _ _ Hi) as Hlt. rewrite length_kprefix in Hlt.
    rewrite lookup_kprefix in Hi by done. injection Hi as <-. by apply Hb.
Qed.

Lemma kprefix_self k p : has_prefix k p -> kprefix k (length p) = p.
Proof.
  intros Hp. apply list_eq. intros i. destruct (Nat.lt_ge_cases i (length p)) as [Hi|Hi].
  - rewrite lookup_kprefix by done. destruct (lookup_lt_is_Some_2 p i Hi) as [b Hb].
    rewrite Hb. f_equal. by apply Hp.
  - rewrite !(proj2 (lookup_ge_None _ _)); rewrite ?length_kprefix; done || lia.
Qed.

Lemma prefix_eq_spec k p : bool_decide (kprefix k (length p) = p) = true <-> has_prefix k p.
Proof.
  rewrite bool_decide_eq_true. split; [|apply kprefix_self].
  intros <-. by apply has_prefix_kprefix.
Qed.

(** Every leaf lies on the side its key says: the check that [split_point] relies on and that
    the traversal does not make. *)
Fixpoint routed (p : list bool) (t : rtree) : bool :=
  match t with
  | REmpty => true
  | RLeaf _ k _ => bool_decide (kprefix k (length p) = p)
  | RSplit l r => (length p <? DEPTH) && routed (p ++ [false]) l && routed (p ++ [true]) r
  | RSib b _ c => (length p <? DEPTH) && routed (p ++ [negb b]) c
  end.

Section pinned.
Context `{Hasher}.

(** Every sibling is committed to: an [EMPTY] sibling carries the empty hash, and no [LEAF]
    sibling is promoted over an empty child. *)
Fixpoint pinned (t : rtree) : bool :=
  match t with
  | REmpty | RLeaf _ _ _ => true
  | RSplit l r => pinned l && pinned r
  | RSib _ sib c =>
      pinned c
      && implb (bool_decide (HashedNode.kind sib = EMPTY)) (bool_decide (sib = HashedNode.empty))
      && negb (bool_decide (HashedNode.kind (reval c) = EMPTY) && bool_decide (HashedNode.kind sib = LEAF))
  end.

(** The condition on a whole proof. *)
Definition well_formed (proof : Proof.t) : bool :=
  match proof_tree proof with Ok t => routed [] t && pinned t | _ => false end.

(** A pinned tree evaluates to the empty summary, to one of its own live leaves, or to the hash
    of one of its preimages. *)
Lemma reval_shape t p :
  pinned t = true -> routed p t = true ->
  reval t = HashedNode.empty \/
  (exists k v, v <> EMPTY_HASH /\ reval t = HashedNode.leaf k v /\ has_prefix k p /\
     HLeaf k v ∈ rtree_preimages t) \/
  (exists hl hr, reval t = HashedNode.new INTERNAL (phash (pair_preimage hl hr)) /\
     pair_preimage hl hr ∈ rtree_preimages t).
Proof.
  revert p; induction t as [|i k v|l IHl r IHr|b sib c IHc]; intros p Hpin Hrt;
    cbn [pinned routed reval rtree_preimages] in *.
  - by left.
  - apply prefix_eq_spec in Hrt. destruct (decide (v = EMPTY_HASH)) as [->|Hv].
    + left. apply leaf_empty.
    + right. left. exists k, v. repeat split; try done. set_solver.
  - rewrite !andb_true_iff in *. destruct Hpin as [Hpl Hpr], Hrt as [[Hlt Hrl] Hrr].
    destruct (combine_cases (reval l) (reval r)) as [(Ek & _ & Hc)|[(_ & Ek & Hc)|[(_ & _ & Hc)|(Hc & _)]]];
      rewrite Hc.
    + destruct (IHl _ Hpl Hrl) as [E|[(k & v & Hv & E & Hk & Hin)|(hl & hr & E & _)]];
        rewrite E in *; [done| |done].
      right. left. exists k, v. apply has_prefix_snoc in Hk as [Hk _]. repeat split; try done. set_solver.
    + destruct (IHr _ Hpr Hrr) as [E|[(k & v & Hv & E & Hk & Hin)|(hl & hr & E & _)]];
        rewrite E in *; [done| |done].
      right. left. exists k, v. apply has_prefix_snoc in Hk as [Hk _]. repeat split; try done. set_solver.
    + by left.
    + right. right. exists (reval l), (reval r). split; [done|]. set_solver.
  - rewrite !andb_true_iff in *. destruct Hpin as [[Hpc Hsib] Hnl], Hrt as [Hlt Hrc].
    assert (HashedNode.kind (reval c) = EMPTY -> HashedNode.kind sib = LEAF -> False) as Hno.
    { intros E1 E2. rewrite !bool_decide_eq_true_2 in Hnl by done. done. }
    assert (HashedNode.kind (reval c) = LEAF -> exists k v, v <> EMPTY_HASH /\
      reval c = HashedNode.leaf k v /\ has_prefix k p /\ HLeaf k v ∈ rtree_preimages c) as Hleaf.
    { intros Ek. destruct (IHc _ Hpc Hrc) as [E|[(k & v & Hv & E & Hk & Hin)|(hl & hr & E & _)]];
        rewrite E in *; [done| |done]. exists k, v. by apply has_prefix_snoc in Hk as [Hk _]. }
    unfold Traversal.combine_with_sibling. destruct b.
    + destruct (combine_cases (reval c) sib) as [(Ek & _ & Hc)|[(Ee & Ek & Hc)|[(_ & _ & Hc)|(Hc & _)]]];
        [rewrite Hc|by destruct (Hno Ee Ek)|by left|rewrite Hc].
      * destruct (Hleaf Ek) as (k & v & ? & ? & ? & ?). right. left. exists k, v. set_solver.
      * right. right. exists (reval c), sib. split; [done|]. set_solver.
    + destruct (combine_cases sib (reval c)) as [(Ek & Ee & Hc)|[(_ & Ek & Hc)|[(_ & _ & Hc)|(Hc & _)]]];
        [by destruct (Hno Ee Ek)|rewrite Hc|by left|rewrite Hc].
      * destruct (Hleaf Ek) as (k & v & ? & ? & ? & ?). right. left. exists k, v. set_solver.
      * right. right. exists sib, (reval c). split; [done|]. set_solver.
Qed.

(** At the root only the hash is compared; the kind follows. *)
Lemma root_summary l t s :
  no_collision l -> rtree_preimages t ⊆ l -> trie_preimages s ⊆ l ->
  pinned t = true -> routed [] t = true -> wf [] s ->
  HashedNode.hash (reval t) = HashedNode.hash (summary s) -> reval t = summary s.
Proof.
  intros Hnc Ht Hs Hpin Hrt Hwf Heq.
  destruct (reval_shape t [] Hpin Hrt) as [E|[(k & v & Hv & E & _ & Hin)|(hl & hr & E & Hin)]];
    rewrite E in *.
  - pose proof (summary_preimage [] s Hwf) as Hsum. destruct s as [|k v|sl sr]; [done|..];
      rewrite Hsum in *; destruct Hnc as [_ Hz]; cbn [HashedNode.hash HashedNode.empty] in Heq;
      symmetry in Heq; apply Hz in Heq; try done; apply Hs; cbn; set_solver.
  - rewrite summary_leaf in * by done. cbn [HashedNode.hash] in Heq.
    apply (open_summary [] s (HLeaf k v) l) in Heq; [|done..|by apply Ht].
    destruct s as [|k' v'|]; try done. injection Heq as -> ->. by rewrite <- summary_leaf.
  - cbn [HashedNode.hash] in Heq.
    apply (open_summary [] s _ l) in Heq; [|done..|by apply Ht].
    pose proof (summary_preimage [] s Hwf) as Hsum.
    destruct s as [| |sl sr]; try done. rewrite Hsum. congruence.
Qed.

(** One level of the trie, from the two child summaries the proof combines. *)
Lemma split_state l p s hl hr :
  no_collision l -> trie_preimages s ⊆ l -> wf p s -> length p < DEPTH ->
  (HashedNode.kind hl = EMPTY -> hl = HashedNode.empty) ->
  (HashedNode.kind hr = EMPTY -> hr = HashedNode.empty) ->
  (HashedNode.kind hl = LEAF -> HashedNode.kind hr = EMPTY -> exists k v, v <> EMPTY_HASH /\
     hl = HashedNode.leaf k v /\ has_prefix k (p ++ [false]) /\ HLeaf k v ∈ l) ->
  (HashedNode.kind hl = EMPTY -> HashedNode.kind hr = LEAF -> exists k v, v <> EMPTY_HASH /\
     hr = HashedNode.leaf k v /\ has_prefix k (p ++ [true]) /\ HLeaf k v ∈ l) ->
  pair_preimage hl hr ∈ l ->
  HashedNode.combine hl hr = summary s ->
  exists sl sr, wf (p ++ [false]) sl /\ wf (p ++ [true]) sr /\ s = join sl sr /\
    hl = summary sl /\ hr = summary sr /\ trie_preimages sl ⊆ l /\ trie_preimages sr ⊆ l.
Proof.
  intros Hnc Hs Hwf Hp Hel Her Hleafl Hleafr Hpair Heq.
  pose proof (summary_preimage p s Hwf) as Hsum.
  destruct (combine_cases hl hr) as [(Ekl & Ekr & Hc)|[(Ekl & Ekr & Hc)|[(Ekl & Ekr & Hc)|(Hc & _)]]].
  - destruct (Hleafl Ekl Ekr) as (k & v & Hv & -> & Hk & Hin). rewrite Hc in Heq.
    assert (phash (HLeaf k v) = HashedNode.hash (summary s)) as Hph
      by (rewrite <- Heq, summary_leaf by done; done).
    apply (open_summary p s _ l) in Hph; [|done..]. destruct s as [|k' v'|]; try done.
    injection Hph as <- <-. exists (TLeaf k v), TEmpty. repeat split; auto. cbn. set_solver.
  - destruct (Hleafr Ekl Ekr) as (k & v & Hv & -> & Hk & Hin). rewrite Hc in Heq.
    assert (phash (HLeaf k v) = HashedNode.hash (summary s)) as Hph
      by (rewrite <- Heq, summary_leaf by done; done).
    apply (open_summary p s _ l) in Hph; [|done..]. destruct s as [|k' v'|]; try done.
    injection Hph as <- <-. exists TEmpty, (TLeaf k v). repeat split; auto. cbn. set_solver.
  - rewrite Hc in Heq. destruct s as [| |]; [|by rewrite Hsum in Heq..].
    exists TEmpty, TEmpty. repeat split; auto; cbn; set_solver.
  - rewrite Hc in Heq.
    assert (phash (pair_preimage hl hr) = HashedNode.hash (summary s)) as Hph by (by rewrite <- Heq).
    apply (open_summary p s _ l) in Hph; [|done..]. destruct s as [|k v|sl sr].
    + done.
    + by rewrite Hsum in Heq.
    + exists sl, sr. destruct Hwf as (_ & Hwl & Hwr & Hj). cbn [trie_preimages] in Hs.
      unfold pair_preimage in Hph. injection Hph as ????.
      assert (hl = summary sl) by (destruct hl, (summary sl); cbn in *; by subst).
      assert (hr = summary sr) by (destruct hr, (summary sr); cbn in *; by subst).
      repeat split; auto; set_solver.
Qed.

Lemma reval_kind_empty t p :
  pinned t = true -> routed p t = true -> HashedNode.kind (reval t) = EMPTY ->
  reval t = HashedNode.empty.
Proof.
  intros Hpin Hrt Hk.
  destruct (reval_shape t p Hpin Hrt) as [E|[(k & v & Hv & E & _ & Hin)|(hl & hr & E & Hin)]]; [done|..];
    rewrite E in Hk; [by rewrite summary_leaf in Hk|done].
Qed.

Lemma reval_kind_leaf t p :
  pinned t = true -> routed p t = true -> HashedNode.kind (reval t) = LEAF ->
  exists k v, v <> EMPTY_HASH /\ reval t = HashedNode.leaf k v /\ has_prefix k p /\
    HLeaf k v ∈ rtree_preimages t.
Proof.
  intros Hpin Hrt Hk.
  destruct (reval_shape t p Hpin Hrt) as [E|[?|(hl & hr & E & Hin)]]; [|done|]; by rewrite E in Hk.
Qed.

(** A split of a pinned, routed proof tree splits the trie it proves. *)
Lemma split_proof l p s tl tr :
  no_collision l -> trie_preimages s ⊆ l -> rtree_preimages (RSplit tl tr) ⊆ l -> wf p s ->
  pinned (RSplit tl tr) = true -> routed p (RSplit tl tr) = true ->
  reval (RSplit tl tr) = summary s ->
  length p < DEPTH /\ exists sl sr, wf (p ++ [false]) sl /\ wf (p ++ [true]) sr /\ s = join sl sr /\
    reval tl = summary sl /\ reval tr = summary sr /\ trie_preimages sl ⊆ l /\ trie_preimages sr ⊆ l.
Proof.
  intros Hnc Hs Ht Hwf Hpin Hrt Heq. cbn [pinned routed rtree_preimages reval] in *.
  rewrite !andb_true_iff in *. destruct Hpin as [Hpl Hpr], Hrt as [[Hlt Hrl] Hrr].
  apply Nat.ltb_lt in Hlt. split; [done|]. apply (split_state l p s); try done.
  - by apply (reval_kind_empty tl (p ++ [false])).
  - by apply (reval_kind_empty tr (p ++ [true])).
  - intros Hk _. apply (reval_kind_leaf tl (p ++ [false])) in Hk as (k & v & ? & ? & ? & ?); [|done..].
    exists k, v. set_solver.
  - intros _ Hk. apply (reval_kind_leaf tr (p ++ [true])) in Hk as (k & v & ? & ? & ? & ?); [|done..].
    exists k, v. set_solver.
  - set_solver.
Qed.

(** The same for a child and its sibling. *)
Lemma split_sibling l p s b sib c :
  no_collision l -> trie_preimages s ⊆ l -> rtree_preimages (RSib b sib c) ⊆ l -> wf p s ->
  pinned (RSib b sib c) = true -> routed p (RSib b sib c) = true ->
  reval (RSib b sib c) = summary s ->
  length p < DEPTH /\ exists sc so, wf (p ++ [negb b]) sc /\ wf (p ++ [b]) so /\
    s = (if b then join sc so else join so sc) /\
    reval c = summary sc /\ sib = summary so /\ trie_preimages sc ⊆ l.
Proof.
  intros Hnc Hs Ht Hwf Hpin Hrt Heq. cbn [pinned routed rtree_preimages reval] in *.
  rewrite !andb_true_iff in *. destruct Hpin as [[Hpc Hsib] Hnl], Hrt as [Hlt Hrc].
  apply Nat.ltb_lt in Hlt. split; [done|].
  assert (HashedNode.kind (reval c) = EMPTY -> HashedNode.kind sib = LEAF -> False) as Hno.
  { intros E1 E2. rewrite !bool_decide_eq_true_2 in Hnl by done. done. }
  assert (HashedNode.kind sib = EMPTY -> sib = HashedNode.empty) as Hse.
  { intros E. rewrite (bool_decide_eq_true_2 _ E) in Hsib. by apply bool_decide_eq_true in Hsib. }
  assert (HashedNode.kind (reval c) = LEAF -> exists k v, v <> EMPTY_HASH /\
    reval c = HashedNode.leaf k v /\ has_prefix k (p ++ [negb b]) /\ HLeaf k v ∈ l) as Hleaf.
  { intros Hk. apply (reval_kind_leaf c (p ++ [negb b])) in Hk as (k & v & ? & ? & ? & ?); [|done..].
    exists k, v. destruct b; set_solver. }
  unfold Traversal.combine_with_sibling in Heq. destruct b.
  - destruct (split_state l p s (reval c) sib) as (sl & sr & ?&?&?&?&?&?&?);
      [done|done|done|done|by apply (reval_kind_empty c (p ++ [false]))|done| | | |done|].
    + by intros ? _; apply Hleaf.
    + intros E1 E2. by destruct (Hno E1 E2).
    + set_solver.
    + by exists sl, sr.
  - destruct (split_state l p s sib (reval c)) as (sl & sr & ?&?&?&?&?&?&?);
      [done|done|done|done|done|by apply (reval_kind_empty c (p ++ [true]))| | | |done|].
    + intros E1 E2. by destruct (Hno E2 E1).
    + by intros _ ?; apply Hleaf.
    + set_solver.
    + by exists sr, sl.
Qed.

(** The part of the key space a proof leaf answers for. *)
Definition region (p : list bool) (x : rleaf) : list bool :=
  kprefix (rl_key x) (length p + rl_depth x).

(** The state a proof leaf claims for its region. *)
Definition leaf_trie (k v : array 32) : trie :=
  if decide (v = EMPTY_HASH) then TEmpty else TLeaf k v.

Lemma region_deeper p b y : region p (deeper y) = region (p ++ [b]) y.
Proof. unfold region. cbn. rewrite length_snoc. f_equal. lia. Qed.

Lemma region_prefix p x k' :
  has_prefix (rl_key x) p -> has_prefix k' (region p x) -> has_prefix k' p.
Proof.
  intros Hk Hk'. unfold region in Hk'. rewrite has_prefix_kprefix in Hk'. eapply has_prefix_of_agree; [exact Hk|].
  intros i Hi. symmetry. apply Hk'. lia.
Qed.

Lemma routed_prefix t : forall p x, routed p t = true -> x ∈ rleaves t -> has_prefix (rl_key x) p.
Proof.
  induction t as [|i k v|l IHl r IHr|b sib c IHc]; intros p x Hr Hx; cbn [routed rleaves] in *.
  - by apply not_elem_of_nil in Hx.
  - apply list_elem_of_singleton in Hx as ->. by apply prefix_eq_spec.
  - rewrite !andb_true_iff in Hr. destruct Hr as [[_ Hl] Hr].
    apply elem_of_app in Hx as [Hx|Hx]; apply list_elem_of_fmap in Hx as (y & -> & Hy).
    + apply (IHl _ y Hl) in Hy. by apply has_prefix_snoc in Hy as [? _].
    + apply (IHr _ y Hr) in Hy. by apply has_prefix_snoc in Hy as [? _].
  - rewrite andb_true_iff in Hr. destruct Hr as [_ Hr].
    apply list_elem_of_fmap in Hx as (y & -> & Hy).
    apply (IHc _ y Hr) in Hy. by apply has_prefix_snoc in Hy as [? _].
Qed.

Lemma leaf_state l p s k v :
  no_collision l -> trie_preimages s ⊆ l -> HLeaf k v ∈ l -> wf p s ->
  HashedNode.leaf k v = summary s -> s = leaf_trie k v.
Proof.
  intros Hnc Hs Hin Hwf Heq. pose proof (summary_preimage p s Hwf) as Hsum. unfold leaf_trie.
  case_decide as Hv.
  - subst v. rewrite leaf_empty in Heq. destruct s; [done|by rewrite Hsum in Heq..].
  - assert (phash (HLeaf k v) = HashedNode.hash (summary s)) as Hph
      by (rewrite <- Heq, summary_leaf by done; done).
    apply (open_summary p s _ l) in Hph; [|done..].
    destruct s as [|k' v'|]; [done| |done]. by injection Hph as <- <-.
Qed.

(** What a pinned, routed proof claims for a region is what the trie holds there. *)
Lemma locate l : no_collision l -> forall t s p,
  trie_preimages s ⊆ l -> rtree_preimages t ⊆ l -> wf p s ->
  pinned t = true -> routed p t = true -> reval t = summary s ->
  forall x k', x ∈ rleaves t -> has_prefix k' (region p x) ->
    tlookup (length p) s k' = tlookup 0 (leaf_trie (rl_key x) (rl_value x)) k'.
Proof.
  intros Hnc. induction t as [|i k v|tl IHl tr IHr|b sib c IHc];
    intros s p Hs Ht Hwf Hpin Hrt Heq x k' Hx Hk'.
  - by apply not_elem_of_nil in Hx.
  - apply list_elem_of_singleton in Hx as ->. cbn [rl_key rl_value].
    rewrite (leaf_state l p s k v); [|done..|apply Ht; cbn; set_solver|done|done].
    unfold leaf_trie. by case_decide.
  - destruct (split_proof l p s tl tr) as (Hp & sl & sr & Hwl & Hwr & -> & El & Er & Hsl & Hsr); [done..|].
    cbn [pinned routed rtree_preimages rleaves] in *. rewrite !andb_true_iff in *.
    destruct Hpin as [Hpl Hpr], Hrt as [[_ Hrl] Hrr].
    rewrite (tlookup_join p) by done.
    apply elem_of_app in Hx as [Hx|Hx]; apply list_elem_of_fmap in Hx as (y & -> & Hy);
      cbn [deeper rl_key rl_value].
    + rewrite (region_deeper p false) in Hk'. specialize (IHl sl (p ++ [false])).
      rewrite <- (IHl Hsl ltac:(set_solver) Hwl Hpl Hrl El y k' Hy Hk').
      apply region_prefix in Hk'; [|by eapply routed_prefix].
      apply has_prefix_snoc in Hk' as [_ ->]. by rewrite length_snoc.
    + rewrite (region_deeper p true) in Hk'. specialize (IHr sr (p ++ [true])).
      rewrite <- (IHr Hsr ltac:(set_solver) Hwr Hpr Hrr Er y k' Hy Hk').
      apply region_prefix in Hk'; [|by eapply routed_prefix].
      apply has_prefix_snoc in Hk' as [_ ->]. by rewrite length_snoc.
  - destruct (split_sibling l p s b sib c) as (Hp & sc & so & Hwc & Hwo & -> & Ec & Eo & Hsc); [done..|].
    cbn [pinned routed rtree_preimages rleaves] in *. rewrite !andb_true_iff in *.
    destruct Hpin as [[Hpc _] _], Hrt as [_ Hrc].
    apply list_elem_of_fmap in Hx as (y & -> & Hy). cbn [deeper rl_key rl_value].
    rewrite (region_deeper p (negb b)) in Hk'. specialize (IHc sc (p ++ [negb b])).
    assert (rtree_preimages c ⊆ l) as Hcl by set_solver.
    rewrite <- (IHc Hsc Hcl Hwc Hpc Hrc Ec y k' Hy Hk').
    apply region_prefix in Hk'; [|by eapply routed_prefix].
    apply has_prefix_snoc in Hk' as [_ Hb]. rewrite length_snoc.
    destruct b; rewrite (tlookup_join p), Hb by done; done.
Qed.

(** The post-state of a leaf region under the update [F]. *)
Definition leaf_updated (post : nat -> Result HashedNode.t)
    (F : ResourceId -> option (array 32) -> option (array 32)) (p : list bool) (x : rleaf) : Prop :=
  exists s', post (rl_idx x) = Ok (summary s') /\ wf (region p x) s' /\
    forall k', has_prefix k' (region p x) ->
      tlookup (length (region p x)) s' k'
      = F k' (tlookup 0 (leaf_trie (rl_key x) (rl_value x)) k').

(** If every leaf region is updated by [F], and [F] changes nothing outside the regions, the
    recomputed summary is that of the trie updated by [F]. *)
Lemma post_sound l post F : no_collision l -> forall t s p,
  trie_preimages s ⊆ l -> rtree_preimages t ⊆ l -> wf p s -> length p <= DEPTH ->
  pinned t = true -> routed p t = true -> reval t = summary s ->
  (forall x, x ∈ rleaves t -> leaf_updated post F p x) ->
  (forall k' o, has_prefix k' p -> (forall x, x ∈ rleaves t -> ~ has_prefix k' (region p x)) ->
     F k' o = o) ->
  exists s', rpost post t = Ok (summary s') /\ wf p s' /\
    forall k', has_prefix k' p -> tlookup (length p) s' k' = F k' (tlookup (length p) s k').
Proof.
  intros Hnc. induction t as [|i k v|tl IHl tr IHr|b sib c IHc];
    intros s p Hs Ht Hwf Hlen Hpin Hrt Heq Hleaf Hout.
  - pose proof (summary_preimage p s Hwf) as Hsum.
    destruct s; [|cbn [reval] in Heq; by rewrite Hsum in Heq..].
    exists TEmpty. split; [done|]. split; [done|]. intros k' Hk'. cbn. rewrite Hout; [done..|].
    intros x Hx. by apply not_elem_of_nil in Hx.
  - assert (s = leaf_trie k v) as ->
      by (apply (leaf_state l p); try done; apply Ht; cbn; set_solver).
    cbn [rleaves] in *. pose proof (routed_prefix (RLeaf i k v) p _ Hrt ltac:(cbn; by left)) as Hk.
    cbn [rl_key] in Hk.
    destruct (Hleaf _ ltac:(by left)) as (s' & Hpost & Hwf' & Hlk).
    unfold region in Hwf', Hlk. cbn [rl_key rl_depth rl_value] in *. rewrite Nat.add_0_r in *.
    rewrite (kprefix_self k p Hk) in *. exists s'. split; [done|]. split; [done|].
    intros k' Hk'. rewrite (Hlk k' Hk'). unfold leaf_trie. by case_decide.
  - destruct (split_proof l p s tl tr) as (Hp & sl & sr & Hwl & Hwr & -> & El & Er & Hsl & Hsr); [done..|].
    cbn [pinned routed rtree_preimages rleaves] in *. rewrite !andb_true_iff in *.
    destruct Hpin as [Hpl Hpr], Hrt as [[_ Hrl] Hrr].
    destruct (IHl sl (p ++ [false])) as (sl' & Hpostl & Hwl' & Hlkl); try done; [set_solver|rewrite length_snoc; lia|..].
    { intros x Hx. unfold leaf_updated. rewrite <- (region_deeper p). apply (Hleaf (deeper x)).
      apply elem_of_app. left. by apply list_elem_of_fmap_2. }
    { intros k' o Hk' Hno. apply Hout; [by apply has_prefix_snoc in Hk' as [? _]|].
      intros x Hx Hreg. apply elem_of_app in Hx as [Hx|Hx]; apply list_elem_of_fmap in Hx as (y & -> & Hy).
      - rewrite (region_deeper p false) in Hreg. by apply (Hno y).
      - rewrite (region_deeper p true) in Hreg.
        apply region_prefix in Hreg; [|by eapply routed_prefix].
        apply has_prefix_snoc in Hreg as [_ H1]. apply has_prefix_snoc in Hk' as [_ H2]. congruence. }
    destruct (IHr sr (p ++ [true])) as (sr' & Hpostr & Hwr' & Hlkr); try done; [set_solver|rewrite length_snoc; lia|..].
    { intros x Hx. unfold leaf_updated. rewrite <- (region_deeper p). apply (Hleaf (deeper x)).
      apply elem_of_app. right. by apply list_elem_of_fmap_2. }
    { intros k' o Hk' Hno. apply Hout; [by apply has_prefix_snoc in Hk' as [? _]|].
      intros x Hx Hreg. apply elem_of_app in Hx as [Hx|Hx]; apply list_elem_of_fmap in Hx as (y & -> & Hy).
      - rewrite (region_deeper p false) in Hreg.
        apply region_prefix in Hreg; [|by eapply routed_prefix].
        apply has_prefix_snoc in Hreg as [_ H1]. apply has_prefix_snoc in Hk' as [_ H2]. congruence.
      - rewrite (region_deeper p true) in Hreg. by apply (Hno y). }
    exists (join sl' sr'). cbn [rpost]. rewrite Hpostl, Hpostr. cbn [mbind outcome_bind].
    rewrite (summary_join p) by done. split; [done|]. split; [by apply wf_join|].
    intros k' Hk'. rewrite !(tlookup_join p) by done. rewrite !length_snoc in *.
    destruct (bit k' (length p)) eqn:Eb; [apply Hlkr|apply Hlkl]; by apply has_prefix_snoc.
  - destruct (split_sibling l p s b sib c) as (Hp & sc & so & Hwc & Hwo & -> & Ec & -> & Hsc); [done..|].
    cbn [pinned routed rtree_preimages rleaves] in *. rewrite !andb_true_iff in *.
    destruct Hpin as [[Hpc _] _], Hrt as [_ Hrc].
    destruct (IHc sc (p ++ [negb b])) as (sc' & Hpostc & Hwc' & Hlkc); try done;
      [set_solver|rewrite length_snoc; lia|..].
    { intros x Hx. unfold leaf_updated. rewrite <- (region_deeper p). apply (Hleaf (deeper x)).
      by apply list_elem_of_fmap_2. }
    { intros k' o Hk' Hno. apply Hout; [by apply has_prefix_snoc in Hk' as [? _]|].
      intros x Hx Hreg. apply list_elem_of_fmap in Hx as (y & -> & Hy).
      rewrite (region_deeper p (negb b)) in Hreg. by apply (Hno y). }
    assert (forall k' o, has_prefix k' p -> bit k' (length p) = b -> F k' o = o) as Hother.
    { intros k' o Hk' Hb. apply Hout; [done|]. intros x Hx Hreg.
      apply list_elem_of_fmap in Hx as (y & -> & Hy). rewrite (region_deeper p (negb b)) in Hreg.
      apply region_prefix in Hreg; [|by eapply routed_prefix].
      apply has_prefix_snoc in Hreg as [_ H1]. rewrite Hb in H1. by destruct b. }
    exists (if b then join sc' so else join so sc'). cbn [rpost]. rewrite Hpostc. cbn [mbind outcome_bind].
    rewrite length_snoc in Hlkc. unfold Traversal.combine_with_sibling. destruct b; cbn [negb] in *.
    + rewrite (summary_join p) by done. split; [done|]. split; [by apply wf_join|].
      intros k' Hk'. rewrite !(tlookup_join p) by done.
      destruct (bit k' (length p)) eqn:Eb; [by rewrite Hother|]. apply Hlkc. by apply has_prefix_snoc.
    + rewrite (summary_join p) by done. split; [done|]. split; [by apply wf_join|].
      intros k' Hk'. rewrite !(tlookup_join p) by done.
      destruct (bit k' (length p)) eqn:Eb; [|by rewrite Hother]. apply Hlkc. by apply has_prefix_snoc.
Qed.
End pinned.
