(* ===== verification/SmtRoots.v ===== *)
(** * SmtRoots: the post-state root a multi-proof recomputes

    The CSR inversion of memberships gives each proof leaf its members; the classification of a
    leaf and the synthesis of its subtree give the leaf's region the entries the members write;
    together the recomputed root is the root of the updated map. *)

From S2P Require Import Prelude Codec Types SmtNode SmtTrie SmtUpdate SmtProof SmtSound.

(** ** members_by_leaf: the two-pass counting inversion *)

Section members_by_leaf.
Context (L : nat).

(** The members of leaf [j] among indexed memberships, in order. *)
Definition members_of (ims : list (nat * Membership.t)) (j : nat) : list nat :=
  fst <$> filter (fun im => Membership.leaf_pos im.2 = j) ims.

Definition count_of (ms : list Membership.t) (j : nat) : nat :=
  length (filter (fun m => Membership.leaf_pos m = j) ms).

(** The first slot of leaf [i]: the number of members of the leaves before it. *)
Fixpoint start_of (ms : list Membership.t) (i : nat) : nat :=
  match i with
  | O => 0
  | S i => start_of ms i + count_of ms i
  end.

Lemma count_of_snoc ms m j :
  count_of (ms ++ [m]) j = count_of ms j + (if decide (Membership.leaf_pos m = j) then 1 else 0).
Proof.
  unfold count_of. rewrite filter_app, length_app, filter_cons. by case_decide.
Qed.

Lemma count_of_app ms ms' j : count_of (ms ++ ms') j = count_of ms j + count_of ms' j.
Proof. unfold count_of. by rewrite filter_app, length_app. Qed.

(** Pass 1 counts. *)
Lemma count_pass ms (offs : list nat) i :
  foldl (fun offsets m => if Membership.leaf_pos m <? L
                          then alter S (S (Membership.leaf_pos m)) offsets else offsets) offs ms !! i
  = (fun x => x + match i with O => 0 | S j => if j <? L then count_of ms j else 0 end) <$> offs !! i.
Proof.
  induction ms as [|m ms IH] using rev_ind.
  { cbn [foldl]. destruct (offs !! i); cbn [fmap option_fmap option_map]; [|done]. f_equal. destruct i as [|j]; [lia|]. change (count_of [] j) with 0. destruct (j <? L); lia. }
  rewrite foldl_app. cbn [foldl]. destruct (Nat.ltb_spec (Membership.leaf_pos m) L) as [Hlt|Hge].
  - destruct (decide (i = S (Membership.leaf_pos m))) as [->|Hne].
    + rewrite list_lookup_alter_eq, IH. rewrite (proj2 (Nat.ltb_lt _ _)) by done.
      rewrite count_of_snoc, decide_True by done. destruct (offs !! _); cbn [fmap option_fmap option_map]; [|done]. f_equal. lia.
    + rewrite list_lookup_alter_ne by done. rewrite IH. destruct (offs !! i); cbn [fmap option_fmap option_map]; [|done]. do 2 f_equal.
      destruct i as [|j]; [done|]. rewrite count_of_snoc, decide_False by congruence.
      destruct (j <? L); lia.
  - rewrite IH. destruct (offs !! i); cbn [fmap option_fmap option_map]; [|done]. do 2 f_equal. destruct i as [|j]; [done|].
    destruct (Nat.ltb_spec j L); [|done]. rewrite count_of_snoc, decide_False by lia. lia.
Qed.

(** The running sum. *)
Lemma prefix_pass offs n i :
  n < length offs ->
  foldl MembersByLeaf.add_prev offs (seq 1 n) !! i
  = if i <=? n then Some (sum_list (take (S i) offs)) else offs !! i.
Proof.
  revert i; induction n as [|n IH]; intros i Hn.
  - cbn [seq foldl]. destruct (Nat.leb_spec i 0); [|done]. replace i with 0 by lia.
    destruct offs; cbn in *; [lia|]. f_equal. rewrite take_0. cbn. lia.
  - rewrite seq_S, foldl_app. cbn [foldl]. unfold MembersByLeaf.add_prev at 1.
    replace (1 + n - 1) with n by lia. rewrite (IH n) by lia.
    rewrite (proj2 (Nat.leb_le n n)) by lia.
    destruct (decide (i = 1 + n)) as [->|Hne].
    + rewrite list_lookup_alter_eq, IH by lia.
      rewrite (proj2 (Nat.leb_gt (1 + n) n)), (proj2 (Nat.leb_le (1 + n) (S n))) by lia.
      destruct (lookup_lt_is_Some_2 offs (1 + n) ltac:(lia)) as [x Hx]. rewrite Hx. cbn [fmap option_fmap option_map].
      f_equal. change (S (1 + n)) with (S (S n)). rewrite (take_S_r offs (S n) x Hx). rewrite sum_list_with_app. cbn. lia.
    + rewrite list_lookup_alter_ne by done. rewrite IH by lia.
      destruct (Nat.leb_spec i n), (Nat.leb_spec i (S n)); try done; lia.
Qed.

(** The shift to the right. *)
Lemma shift_pass offs n i :
  n < length offs ->
  foldl MembersByLeaf.shift offs (reverse (seq 1 n)) !! i
  = if (1 <=? i) && (i <=? n) then offs !! (i - 1) else offs !! i.
Proof.
  revert offs i; induction n as [|n IH]; intros offs i Hn.
  - cbn. destruct i; done.
  - rewrite seq_S, reverse_app. cbn [reverse rev_append app foldl]. unfold MembersByLeaf.shift at 2.
    replace (1 + n - 1) with n by lia.
    destruct (lookup_lt_is_Some_2 offs n ltac:(lia)) as [x Hx]. rewrite Hx.
    rewrite IH by (rewrite length_insert; lia).
    destruct (Nat.leb_spec 1 i); cbn [andb].
    + destruct (Nat.leb_spec i n), (Nat.leb_spec i (S n)); try lia.
      * by rewrite list_lookup_insert_ne by lia.
      * replace i with (S n) by lia. rewrite list_lookup_insert_eq by lia.
        by replace (S n - 1) with n by lia.
      * by rewrite list_lookup_insert_ne by lia.
    + by rewrite list_lookup_insert_ne by lia.
Qed.

Lemma length_members_of pre j : length (members_of pre j) = count_of pre.*2 j.
Proof.
  unfold members_of, count_of. rewrite length_fmap.
  induction pre as [|[i m] pre IH]; [done|]. rewrite fmap_cons, !filter_cons. cbn [snd].
  case_decide; cbn [length]; by rewrite IH.
Qed.

Lemma members_of_snoc pre i m j :
  members_of (pre ++ [(i, m)]) j
  = members_of pre j ++ (if decide (Membership.leaf_pos m = j) then [i] else []).
Proof. unfold members_of. rewrite filter_app, fmap_app, filter_cons. cbn. by case_decide. Qed.

(** The slots of different leaves do not overlap. *)
Lemma start_of_mono ms j j' : j < j' -> start_of ms j + count_of ms j <= start_of ms j'.
Proof. induction 1 as [|j' Hj IH]; cbn; lia. Qed.

Lemma slots_disjoint ms j j' r r' :
  r < count_of ms j -> r' < count_of ms j' -> start_of ms j + r = start_of ms j' + r' -> j = j'.
Proof.
  intros Hr Hr' He. destruct (Nat.lt_trichotomy j j') as [Hj|[Hj|Hj]]; [|done|];
    apply (start_of_mono ms) in Hj; lia.
Qed.

(** Pass 2 fills every leaf's slots in member order. *)
Lemma fill_pass ms offs0 pre suf :
  ms = pre.*2 ++ suf ->
  (forall j, j <= L -> offs0 !! j = Some (start_of ms j)) ->
  let '(ind, offs) := foldl (MembersByLeaf.fill L) (replicate (start_of ms L) 0, offs0) pre in
  length ind = start_of ms L /\ length offs = length offs0 /\
  (forall j, j < L -> offs !! j = Some (start_of ms j + count_of pre.*2 j)) /\
  (forall j r i, j < L -> members_of pre j !! r = Some i -> ind !! (start_of ms j + r) = Some i).
Proof.
  revert suf. induction pre as [|[i m] pre IH] using rev_ind; intros suf Hms Hoffs.
  { cbn. rewrite length_replicate. repeat split; [|done].
    intros j Hj. change (count_of [] j) with 0. rewrite Nat.add_0_r. apply Hoffs. lia. }
  rewrite fmap_app, <- app_assoc in Hms. specialize (IH _ Hms Hoffs). rewrite foldl_app. cbn [foldl].
  destruct (foldl _ _ pre) as [ind offs]. destruct IH as (Hli & Hlo & Ho & Hi).
  unfold MembersByLeaf.fill. destruct (Nat.ltb_spec (Membership.leaf_pos m) L) as [Hlt|Hge].
  - rewrite (Ho _ Hlt).
    assert (forall j, count_of pre.*2 j + (if decide (Membership.leaf_pos m = j) then 1 else 0)
      <= count_of ms j) as Hcnt.
    { intros j. rewrite Hms, app_assoc, count_of_app. cbn [fmap list_fmap snd]. rewrite count_of_snoc. lia. }
    pose proof (Hcnt (Membership.leaf_pos m)) as Hcm. rewrite decide_True in Hcm by done.
    pose proof (start_of_mono ms _ _ Hlt) as Hend.
    rewrite length_insert, length_alter. split; [done|]. split; [done|]. split.
    + intros j Hj. rewrite fmap_app. cbn [fmap list_fmap snd]. rewrite count_of_snoc.
      destruct (decide (Membership.leaf_pos m = j)) as [<-|Hne].
      * rewrite list_lookup_alter_eq, (Ho _ Hlt). cbn. f_equal. lia.
      * rewrite list_lookup_alter_ne, (Ho _ Hj) by done. f_equal. lia.
    + intros j r i' Hj Hr. rewrite members_of_snoc in Hr.
      destruct (decide (Membership.leaf_pos m = j)) as [<-|Hne].
      * apply lookup_app_Some in Hr as [Hr|[Hge Hr]].
        -- pose proof (lookup_lt_Some _ _ _ Hr) as Hlr. rewrite length_members_of in Hlr.
           rewrite list_lookup_insert_ne by lia. by apply Hi.
        -- rewrite length_members_of in Hge, Hr. apply list_lookup_singleton_Some in Hr as [Hr <-].
           replace r with (count_of pre.*2 (Membership.leaf_pos m)) by lia.
           apply list_lookup_insert_eq. lia.
      * rewrite app_nil_r in Hr. pose proof (lookup_lt_Some _ _ _ Hr) as Hlr.
        rewrite length_members_of in Hlr. specialize (Hcnt j). rewrite decide_False in Hcnt by done.
        rewrite list_lookup_insert_ne; [by apply Hi|]. intros He.
        apply Hne. apply (slots_disjoint ms _ _ _ _) in He; [done|lia|lia].
  - split; [done|]. split; [done|]. split.
    + intros j Hj. rewrite fmap_app. cbn [fmap list_fmap snd]. rewrite count_of_snoc, decide_False by lia.
      rewrite Nat.add_0_r. by apply Ho.
    + intros j r i' Hj. rewrite members_of_snoc, decide_False by lia. rewrite app_nil_r. by apply Hi.
Qed.
End members_by_leaf.

Lemma foldl_length {A B} (f : list A -> B -> list A) l bs :
  (forall l b, length (f l b) = length l) -> length (foldl f l bs) = length l.
Proof. intros Hf. induction bs as [|b bs IH] using rev_ind; [done|]. by rewrite foldl_app; cbn; rewrite Hf. Qed.

Lemma imap_pair_snd {A} (l : list A) : (imap pair l).*2 = l.
Proof.
  apply list_eq. intros i. rewrite list_lookup_fmap, list_lookup_imap. by destruct (l !! i).
Qed.

(** The offsets between the two passes are the leaves' first slots. *)
Lemma offsets_start L ms i :
  i <= L ->
  foldl MembersByLeaf.add_prev
    (foldl (fun offsets m => if Membership.leaf_pos m <? L
                             then alter S (S (Membership.leaf_pos m)) offsets else offsets)
           (replicate (S L) 0) ms) (seq 1 L) !! i
  = Some (start_of ms i).
Proof.
  set (offs := foldl _ (replicate (S L) 0) ms). intros Hi.
  assert (length offs = S L) as Hlen.
  { unfold offs. rewrite foldl_length, length_replicate; [done|].
    intros l m. destruct (_ <? _); [apply length_alter|done]. }
  rewrite prefix_pass by lia. rewrite (proj2 (Nat.leb_le i L)) by done. f_equal.
  assert (forall j, j <= L -> offs !! j
    = Some (match j with O => 0 | S j => if j <? L then count_of ms j else 0 end)) as Hl.
  { intros j Hj. unfold offs. rewrite count_pass, lookup_replicate_2 by lia. done. }
  induction i as [|i IH].
  - specialize (Hl 0 ltac:(lia)). destruct offs as [|x offs']; [done|].
    injection Hl as ->. cbn. by rewrite take_0.
  - rewrite (take_S_r offs (S i) _ (Hl (S i) Hi)), sum_list_with_app. cbn [start_of sum_list_with id].
    rewrite IH by lia. rewrite (proj2 (Nat.ltb_lt i L)) by lia. cbn. lia.
Qed.

Lemma members_at_spec p j :
  j < length (Proof.leaves p) ->
  MembersByLeaf.members_at (MembersByLeaf.members_by_leaf p) j
  = Ok (members_of (imap pair (Proof.memberships p)) j).
Proof.
  intros Hj. unfold MembersByLeaf.members_by_leaf. set (L := length (Proof.leaves p)) in *.
  set (ms := Proof.memberships p). pose proof (offsets_start L ms) as Hst.
  set (offs := foldl MembersByLeaf.add_prev _ (seq 1 L)) in *.
  rewrite (Hst L) by lia. cbn [default from_option id].
  pose proof (fill_pass L ms offs (imap pair ms) [] ltac:(by rewrite imap_pair_snd, app_nil_r) Hst) as Hf.
  destruct (foldl (MembersByLeaf.fill L) _ _) as [ind offs']. destruct Hf as (Hli & Hlo & Ho & Hi).
  rewrite imap_pair_snd in Ho.
  assert (L < length offs') as HL.
  { rewrite Hlo. apply lookup_lt_is_Some. rewrite (Hst L) by lia. by eexists. }
  assert (forall i, i <= L ->
    <[0 := 0]> (foldl MembersByLeaf.shift offs' (reverse (seq 1 L))) !! i = Some (start_of ms i)) as Hoff.
  { intros [|i] HiL.
    - rewrite list_lookup_insert_eq; [done|]. rewrite foldl_length; [lia|].
      intros l b. unfold MembersByLeaf.shift. destruct (l !! _); [apply length_insert|done].
    - rewrite list_lookup_insert_ne, shift_pass by lia.
      rewrite (proj2 (Nat.leb_le _ _)), (proj2 (Nat.leb_le _ _)) by lia. cbn [andb].
      replace (S i - 1) with i by lia. rewrite Ho by lia. done. }
  unfold MembersByLeaf.members_at. cbn [MembersByLeaf.offsets MembersByLeaf.indices].
  rewrite (Hoff j), (Hoff (S j)) by lia. cbn [expect mbind outcome_bind].
  pose proof (start_of_mono ms j (S j) ltac:(lia)) as Hm.
  assert (start_of ms (S j) <= start_of ms L) as Hend.
  { destruct (decide (S j = L)) as [<-|]; [lia|].
    pose proof (start_of_mono ms (S j) L ltac:(lia)). lia. }
  unfold assert. rewrite (proj2 (Nat.leb_le _ _)), (proj2 (Nat.leb_le _ _)) by lia.
  cbn [andb mbind outcome_bind]. f_equal. cbn [start_of].
  replace (start_of ms j + count_of ms j - start_of ms j) with (count_of ms j) by lia.
  pose proof (length_members_of (imap pair ms) j) as Hlm. rewrite imap_pair_snd in Hlm.
  apply list_eq. intros r. destruct (Nat.lt_ge_cases r (count_of ms j)) as [Hr|Hr].
  - rewrite lookup_take_lt, lookup_drop by done.
    destruct (lookup_lt_is_Some_2 (members_of (imap pair ms) j) r ltac:(lia)) as [i Hmi].
    rewrite Hmi. by apply Hi.
  - rewrite lookup_take_ge by done. symmetry. apply lookup_ge_None. lia.
Qed.

(** ** Synthesised subtrees *)

Section synth.
Context `{Hasher}.

(** Entries with distinct keys under the prefix [p], in key order, with live values. *)
Definition entries_at (p : list bool) (es : list entry) : Prop :=
  StronglySorted (fun a b => key_ltb a.1 b.1 = true) es /\
  (forall e, e ∈ es -> has_prefix e.1 p /\ e.2 <> EMPTY_HASH).

Lemma entries_split p es :
  length p < DEPTH -> entries_at p es ->
  exists es1 es2, es = es1 ++ es2 /\
    partition_point (fun e => negb (bit e.1 (length p))) es = length es1 /\
    entries_at (p ++ [false]) es1 /\ entries_at (p ++ [true]) es2.
Proof.
  intros Hp [Hs Hpre].
  destruct (monotone_partition _ (fun e => bit e.1 (length p)) es Hs) as (es1 & es2 & -> & H1 & H2).
  { intros a b Ha Hb Hab. apply bit_monotone; [done| |by apply key_ltb_leb in Hab as [? _]].
    apply has_prefix_agree; [apply (Hpre a Ha)|apply (Hpre b Hb)]. }
  exists es1, es2. apply StronglySorted_app_inv in Hs as (Hs1 & Hs2 & _).
  split; [done|]. split.
  { apply partition_point_app; (eapply Forall_impl; [eassumption|]); cbn; by intros c ->. }
  rewrite Forall_forall in H1, H2.
  split; (split; [done|]); intros e He; destruct (Hpre e ltac:(set_solver)) as [Hk Hv];
    (split; [apply has_prefix_snoc; auto|done]).
Qed.

Lemma alookup_app es1 es2 k :
  alookup (es1 ++ es2) k = match alookup es1 k with Some v => Some v | None => alookup es2 k end.
Proof. induction es1 as [|[k' v] es1 IH]; cbn; [done|]. by case_decide. Qed.

Lemma alookup_prefix p es k b :
  entries_at (p ++ [b]) es -> bit k (length p) = negb b -> alookup es k = None.
Proof.
  intros [_ Hpre] Hb. apply alookup_not_in. intros Hin.
  apply list_elem_of_fmap in Hin as (e & -> & He). destruct (Hpre e He) as [Hk _].
  apply has_prefix_snoc in Hk as [_ Hk]. rewrite Hk in Hb. by destruct b.
Qed.

(** [subtree_hash] returns the summary of the canonical trie of its entries. *)
Lemma subtree_hash_spec fuel p es :
  length p + fuel = S (S DEPTH) -> length p <= DEPTH -> entries_at p es ->
  exists t, Roots.subtree_hash fuel es (length p) = Ok (summary t) /\ wf p t /\
    forall k, has_prefix k p -> tlookup (length p) t k = alookup es k.
Proof.
  revert p es; induction fuel as [|fuel IH]; intros p es Hf Hp He; [lia|].
  cbn [Roots.subtree_hash]. destruct es as [|[k1 v1] [|[k2 v2] es]].
  - by exists TEmpty.
  - exists (TLeaf k1 v1). split; [done|]. split; [|done]. apply (proj2 He (k1, v1)). set_solver.
  - remember ((k1, v1) :: (k2, v2) :: es) as all eqn:Hall.
    assert (length p < DEPTH) as Hlt.
    { destruct (Nat.lt_ge_cases (length p) DEPTH) as [|Hge]; [done|]. exfalso.
      destruct He as [Hs Hpre]. subst all.
      destruct (Hpre (k1, v1)) as [Hk1 _]; [set_solver|]. destruct (Hpre (k2, v2)) as [Hk2 _]; [set_solver|].
      apply StronglySorted_inv in Hs as [_ Hs]. apply Forall_cons in Hs as [Hs _]. cbn in *.
      rewrite (has_prefix_full k1 k2 p Hge Hk1 Hk2), key_ltb_irrefl in Hs. done. }
    destruct (entries_split p all Hlt He) as (es1 & es2 & -> & Hmid & He1 & He2).
    rewrite Hmid, take_app_length, drop_app_length.
    destruct (IH (p ++ [false]) es1) as (t1 & Hs1 & Hw1 & Hl1); rewrite ?length_snoc; [lia|lia|done|].
    destruct (IH (p ++ [true]) es2) as (t2 & Hs2 & Hw2 & Hl2); rewrite ?length_snoc; [lia|lia|done|].
    rewrite length_snoc in *. rewrite Hs1. cbn [mbind outcome_bind]. rewrite Hs2. cbn [mbind outcome_bind].
    exists (join t1 t2). rewrite (summary_join p) by done. split; [done|]. split; [by apply wf_join|].
    intros k Hk. rewrite (tlookup_join p), alookup_app by done.
    destruct (bit k (length p)) eqn:Eb.
    + rewrite (alookup_prefix p es1 k false) by done. apply Hl2. by apply has_prefix_snoc.
    + rewrite (alookup_prefix p es2 k true) by done. rewrite Hl1 by (by apply has_prefix_snoc).
      by destruct (alookup es1 k).
Qed.
End synth.

(** ** Classifying the update of one leaf *)

(** A member as the classification sees it: the claim, its key, and its new value. *)
Record item := { it_present : bool; it_write : Commitment }.

Definition it_key (it : item) := key (it_write it).
Definition it_value (it : item) := value_hash (it_write it).
Definition it_live (it : item) : bool := negb (bool_decide (it_value it = EMPTY_HASH)).

Definition item_of (p : Proof.t) (nv : nat -> array 32) (i : nat) (it : item) : Prop :=
  (exists li, Proof.memberships p !! i
     = Some ((if it_present it then Membership.Present else Membership.Absent) li)) /\
  Proof.keys p !! i = Some (it_key it) /\ nv i = it_value it.

Definition scan_item (v : array 32) (st : Roots.scan) (it : item) : Roots.scan :=
  {| Roots.buffer := Roots.buffer st ++ (if it_live it then [(it_key it, it_value it)] else []);
     Roots.new_witness_value :=
       if it_present it then Some (it_value it) else Roots.new_witness_value st;
     Roots.needs_synthesis := Roots.needs_synthesis st || (negb (it_present it) && it_live it);
     Roots.any_change := Roots.any_change st ||
       (if it_present it then negb (bool_decide (it_value it = v)) else it_live it) |}.

Lemma scan_members_items p lf nv idxs items st :
  Forall2 (item_of p nv) idxs items ->
  Roots.scan_members p lf nv st idxs = Ok (foldl (scan_item (Leaf.value_hash lf)) st items).
Proof.
  intros Hf. revert st. induction Hf as [|i it idxs items Hi Hf IH]; intros st; [done|].
  cbn [Roots.scan_members foldl].
  assert (Roots.scan_member p lf nv st i = Ok (scan_item (Leaf.value_hash lf) st it)) as ->;
    [|apply IH].
  destruct Hi as ((li & Hm) & Hk & Hv). unfold Roots.scan_member, scan_item, it_live.
  rewrite Hm, Hv. cbn [expect mbind outcome_bind]. unfold Proof.key. rewrite Hk.
  destruct (it_present it); case_bool_decide as He; cbn;
    rewrite ?orb_false_r, ?orb_true_r, ?app_nil_r; try done.
  all: destruct st; cbn; by rewrite ?orb_false_r, ?orb_true_r, ?app_nil_r.
Qed.

Definition empty_scan : Roots.scan :=
  {| Roots.buffer := []; Roots.new_witness_value := None;
     Roots.needs_synthesis := false; Roots.any_change := false |}.

(** The loop's result in closed form. *)
Lemma scan_closed v items :
  let st := foldl (scan_item v) empty_scan items in
  Roots.buffer st = (fun it => (it_key it, it_value it)) <$> filter (fun it => it_live it = true) items /\
  Roots.new_witness_value st = it_value <$> last (filter (fun it => it_present it = true) items) /\
  (Roots.needs_synthesis st = true <->
     exists it, it ∈ items /\ it_present it = false /\ it_live it = true) /\
  (Roots.any_change st = false ->
     forall it, it ∈ items -> if it_present it then it_value it = v else it_value it = EMPTY_HASH) /\
  (Roots.any_change st = true -> Roots.needs_synthesis st = false ->
     exists it, it ∈ items /\ it_present it = true).
Proof.
  induction items as [|it items IH] using rev_ind; cbv zeta in *.
  { cbn. repeat split; try done; [by intros (it & Hin & _); apply not_elem_of_nil in Hin|].
    intros _ it Hin. by apply not_elem_of_nil in Hin. }
  destruct IH as (Hb & Hw & Hn & Hc & Hc'). rewrite foldl_app. cbn [foldl].
  set (st := foldl (scan_item v) empty_scan items) in *. unfold scan_item.
  cbn [Roots.buffer Roots.new_witness_value Roots.needs_synthesis Roots.any_change].
  rewrite !filter_app, !filter_cons, fmap_app, Hb. split; [|split; [|split; [|split]]].
  - f_equal. destruct (it_live it); [by rewrite decide_True|by rewrite decide_False].
  - rewrite Hw. destruct (it_present it).
    + rewrite decide_True by done. cbn. by rewrite last_snoc.
    + rewrite decide_False by done. cbn. by rewrite app_nil_r.
  - rewrite orb_true_iff, andb_true_iff, Hn. split.
    + intros [(x & Hx & ?)|[Hp Hl]]; [exists x; set_solver|]. exists it.
      split; [set_solver|]. by destruct (it_present it).
    + intros (x & Hx & Hp & Hl). apply elem_of_app in Hx as [Hx|Hx]; [left; by exists x|].
      apply list_elem_of_singleton in Hx as ->. right. by rewrite Hp.
  - intros Hf x Hx. apply orb_false_iff in Hf as [Hf1 Hf2].
    apply elem_of_app in Hx as [Hx|Hx]; [by apply Hc|]. apply list_elem_of_singleton in Hx as ->.
    destruct (it_present it); [|unfold it_live in Hf2]; by apply negb_false_iff, bool_decide_eq_true in Hf2.
  - intros Ht Hs. apply orb_false_iff in Hs as [Hs1 Hs2]. apply orb_true_iff in Ht as [Ht|Ht].
    + destruct (Hc' Ht Hs1) as (x & Hx & ?). exists x. set_solver.
    + destruct (it_present it) eqn:Ep; [exists it; split; [set_solver|done]|].
      cbn in Hs2. congruence.
Qed.

Section leaf_update.
Context `{Hasher}.

Lemma summary_leaf_trie k v : summary (leaf_trie k v) = HashedNode.leaf k v.
Proof. unfold leaf_trie. case_decide as Hv; [by subst; rewrite leaf_empty|done]. Qed.

Lemma wf_leaf_trie q k v : has_prefix k q -> wf q (leaf_trie k v).
Proof. intros Hk. unfold leaf_trie. by case_decide. Qed.

Lemma tlookup_leaf_trie d k v k' :
  tlookup d (leaf_trie k v) k'
  = if decide (v = EMPTY_HASH) then None else if decide (k = k') then Some v else None.
Proof. unfold leaf_trie. by case_decide. Qed.

(** The members of a leaf: at most its own key is claimed present, the absent ones share its
    region. *)
Record items_ok (q : list bool) (k : array 32) (items : list item) : Prop := {
  items_nodup : NoDup (key <$> (it_write <$> items));
  items_present it : it ∈ items -> it_present it = true -> it_key it = k;
  items_absent it : it ∈ items -> it_present it = false -> it_key it <> k /\ has_prefix (it_key it) q
}.

Lemma item_committed q k items it :
  items_ok q k items -> it ∈ items ->
  committed (it_write <$> items) (it_key it) = Some (it_value it).
Proof. intros Hok Hin. apply committed_in; [apply Hok|by apply list_elem_of_fmap_2]. Qed.

Lemma item_inv items k' v :
  committed (it_write <$> items) k' = Some v -> exists it, it ∈ items /\ it_key it = k' /\ it_value it = v.
Proof.
  intros Hc. apply committed_Some in Hc as (c & Hc & Hk & Hv).
  apply list_elem_of_fmap in Hc as (it & -> & Hin). by exists it.
Qed.

(** No member writes the leaf's own key and no absent member writes a value. *)
Lemma overlay_unchanged q k v items k' :
  items_ok q k items ->
  (forall it, it ∈ items -> if it_present it then it_value it = v else it_value it = EMPTY_HASH) ->
  overlay (it_write <$> items) k' (tlookup 0 (leaf_trie k v) k') = tlookup 0 (leaf_trie k v) k'.
Proof.
  intros Hok Hsame. unfold overlay. destruct (committed _ k') as [w|] eqn:E; [|done].
  apply item_inv in E as (it & Hin & <- & <-). specialize (Hsame it Hin).
  rewrite tlookup_leaf_trie. destruct (it_present it) eqn:Ep.
  - rewrite Hsame, (items_present q k items Hok it Hin Ep), (decide_True (P := k = k)) by done. done.
  - destruct (items_absent q k items Hok it Hin Ep) as [Hne _].
    rewrite Hsame, decide_True by done. case_decide; [done|]. by rewrite decide_False by done.
Qed.

(** Only the leaf's own key is written. *)
Lemma overlay_single q k v items it k' :
  items_ok q k items -> it ∈ items -> it_present it = true ->
  (forall it, it ∈ items -> it_present it = false -> it_value it = EMPTY_HASH) ->
  overlay (it_write <$> items) k' (tlookup 0 (leaf_trie k v) k')
  = tlookup 0 (leaf_trie k (it_value it)) k'.
Proof.
  intros Hok Hin Hp Hab. pose proof (items_present q k items Hok it Hin Hp) as Hk.
  unfold overlay. rewrite !tlookup_leaf_trie. destruct (committed _ k') as [w|] eqn:E.
  - apply item_inv in E as (it' & Hin' & <- & <-). destruct (it_present it') eqn:Ep.
    + pose proof (items_present q k items Hok it' Hin' Ep) as Hk'.
      pose proof (item_committed q k items it Hok Hin) as H1.
      pose proof (item_committed q k items it' Hok Hin') as H2.
      rewrite Hk, <- Hk', H2 in H1. injection H1 as ->. rewrite Hk'. by rewrite (decide_True (P := k = k)).
    + destruct (items_absent q k items Hok it' Hin' Ep) as [Hne _].
      rewrite (Hab it' Hin' Ep), decide_True by done. rewrite (decide_False (P := k = it_key it')) by done.
      by case_decide.
  - destruct (decide (k = k')) as [<-|Hne]; [|by repeat case_decide].
    rewrite <- Hk in E. by rewrite (item_committed q k items it Hok Hin) in E.
Qed.

(** The buffer handed to [subtree_hash]. *)
Definition synth_entries (k v : array 32) (items : list item) : list entry :=
  let buf := (fun it => (it_key it, it_value it)) <$> filter (fun it => it_live it = true) items in
  if bool_decide (last (filter (fun it => it_present it = true) items) = None)
     && negb (bool_decide (v = EMPTY_HASH))
  then buf ++ [(k, v)] else buf.

Lemma no_present items :
  last (filter (fun it => it_present it = true) items) = None <->
  forall it, it ∈ items -> it_present it = false.
Proof.
  rewrite last_None. split.
  - intros Hf it Hin. destruct (it_present it) eqn:Ep; [|done]. exfalso.
    apply (not_elem_of_nil it). rewrite <- Hf. by apply list_elem_of_filter.
  - intros Hp. apply elem_of_nil_inv. intros it Hin. apply list_elem_of_filter in Hin as [Hp' Hin].
    by rewrite (Hp it Hin) in Hp'.
Qed.

Lemma synth_keys q k v items :
  items_ok q k items -> has_prefix k q ->
  NoDup (synth_entries k v items).*1 /\
  forall e, e ∈ synth_entries k v items -> has_prefix e.1 q /\ e.2 <> EMPTY_HASH.
Proof.
  intros Hok Hk. unfold synth_entries.
  set (buf := (fun it => (it_key it, it_value it)) <$> _).
  assert (NoDup buf.*1) as Hnd.
  { unfold buf. rewrite <- list_fmap_compose. eapply sublist_NoDup; [apply (items_nodup _ _ _ Hok)|].
    rewrite <- list_fmap_compose. apply fmap_sublist, sublist_filter. }
  assert (forall e, e ∈ buf -> has_prefix e.1 q /\ e.2 <> EMPTY_HASH) as Hb.
  { intros e He. apply list_elem_of_fmap in He as (it & -> & Hin).
    apply list_elem_of_filter in Hin as [Hl Hin]. cbn. split.
    - destruct (it_present it) eqn:Ep; [by rewrite (items_present _ _ _ Hok it Hin Ep)|].
      by apply (items_absent _ _ _ Hok).
    - unfold it_live in Hl. by apply negb_true_iff, bool_decide_eq_false in Hl. }
  case_bool_decide as Hnone; [case_bool_decide as Hv|]; cbn [andb negb]; [done| |done].
  split.
  - rewrite fmap_app. apply NoDup_app. split; [done|]. split; [|by apply NoDup_singleton].
    intros k' Hin Hk'. apply list_elem_of_singleton in Hk' as ->.
    apply list_elem_of_fmap in Hin as (e & He & Hin). apply list_elem_of_fmap in Hin as (it & -> & Hin).
    apply list_elem_of_filter in Hin as [_ Hin]. cbn in He.
    apply (items_absent _ _ _ Hok it Hin); [|done].
    exact (proj1 (no_present items) Hnone it Hin).
  - intros e He. apply elem_of_app in He as [He|He]; [by apply Hb|].
    by apply list_elem_of_singleton in He as ->.
Qed.

(** The synthesised entries are the old leaf overlaid with the members' writes. *)
Lemma synth_lookup q k v items k' :
  items_ok q k items -> has_prefix k q ->
  alookup (synth_entries k v items) k'
  = overlay (it_write <$> items) k' (tlookup 0 (leaf_trie k v) k').
Proof.
  intros Hok Hk. destruct (synth_keys q k v items Hok Hk) as [Hnd _].
  rewrite tlookup_leaf_trie. unfold overlay.
  assert (forall it, it ∈ items -> it_value it <> EMPTY_HASH ->
    (it_key it, it_value it) ∈ synth_entries k v items) as Hlive.
  { intros it Hin Hv. unfold synth_entries.
    assert ((it_key it, it_value it) ∈
      (fun it => (it_key it, it_value it)) <$> filter (fun it => it_live it = true) items) as Hb.
    { apply list_elem_of_fmap. exists it. split; [done|]. apply list_elem_of_filter.
      split; [|done]. unfold it_live. by rewrite bool_decide_eq_false_2. }
    destruct (_ && _); [apply elem_of_app; by left|done]. }
  assert (forall w, (k', w) ∈ synth_entries k v items ->
    (exists it, it ∈ items /\ it_key it = k' /\ it_value it = w /\ w <> EMPTY_HASH) \/
    (k' = k /\ w = v /\ v <> EMPTY_HASH /\ forall it, it ∈ items -> it_present it = false)) as Hinv.
  { intros w Hw. unfold synth_entries in Hw.
    assert ((k', w) ∈ (fun it => (it_key it, it_value it)) <$> filter (fun it => it_live it = true) items ->
      exists it, it ∈ items /\ it_key it = k' /\ it_value it = w /\ w <> EMPTY_HASH) as Hb.
    { intros Hb. apply list_elem_of_fmap in Hb as (it & [= -> ->] & Hin).
      apply list_elem_of_filter in Hin as [Hl Hin]. exists it. repeat split; try done.
      unfold it_live in Hl. by apply negb_true_iff, bool_decide_eq_false in Hl. }
    revert Hw. case_bool_decide as Hnone; [case_bool_decide as Hv|]; cbn [andb negb]; intros Hw;
      [left; auto| |left; auto].
    apply elem_of_app in Hw as [Hw|Hw]; [left; auto|]. apply list_elem_of_singleton in Hw as [= -> ->].
    right. repeat split; try done. by apply no_present. }
  destruct (alookup (synth_entries k v items) k') as [w|] eqn:Ea.
  - apply alookup_Some_in in Ea. destruct (Hinv w Ea) as [(it & Hin & <- & <- & Hw)|(-> & -> & Hv & Hnp)].
    + rewrite (item_committed q k items it Hok Hin). by rewrite decide_False.
    + rewrite (proj2 (committed_None _ _)); [by rewrite decide_False, decide_True|].
      intros c Hc Hck. apply list_elem_of_fmap in Hc as (it & -> & Hin).
      by destruct (items_absent _ _ _ Hok it Hin (Hnp it Hin)).
  - destruct (committed _ k') as [w|] eqn:Ec.
    + apply item_inv in Ec as (it & Hin & <- & <-). case_decide as Hw; [done|].
      specialize (Hlive it Hin Hw). by rewrite (alookup_in _ _ _ Hnd Hlive) in Ea.
    + case_decide as Hv; [done|]. case_decide as Hkk; [|done]. subst k'. exfalso.
      assert ((k, v) ∈ synth_entries k v items) as Hkv.
      { unfold synth_entries. rewrite bool_decide_eq_true_2, bool_decide_eq_false_2; [cbn; set_solver|done|].
        apply no_present. intros it Hin. destruct (it_present it) eqn:Ep; [|done].
        pose proof (item_committed q k items it Hok Hin) as Hc.
        by rewrite (items_present _ _ _ Hok it Hin Ep), Ec in Hc. }
      by rewrite (alookup_in _ _ _ Hnd Hkv) in Ea.
Qed.

Lemma sort_entries_at q es :
  NoDup es.*1 -> (forall e, e ∈ es -> has_prefix e.1 q /\ e.2 <> EMPTY_HASH) ->
  let es' := sort_by (fun a b => key_leb a.1 b.1) es in
  entries_at q es' /\ forall k, alookup es' k = alookup es k.
Proof.
  intros Hnd Hes. cbv zeta. pose proof (sort_by_perm (fun a b : entry => key_leb a.1 b.1) es) as Hp.
  pose proof (sort_by_sorted (fun a b : entry => key_leb a.1 b.1)
    (fun x y => key_leb_total _ _) (fun x y z => key_leb_trans _ _ _) es) as Hs.
  set (es' := sort_by _ es) in *.
  assert (NoDup es'.*1) as Hnd' by (by rewrite Hp).
  split; [split|].
  - clear -Hs Hnd'. induction Hs as [|e rest Hs IH He]; [constructor|]. cbn in Hnd'.
    apply NoDup_cons in Hnd' as [Hne Hnd']. constructor; [by apply IH|].
    apply Forall_forall. intros e' He'. rewrite Forall_forall in He.
    apply key_ltb_leb. split; [by apply He|]. intros Hk. apply Hne. rewrite Hk. by apply list_elem_of_fmap_2.
  - intros e He. apply Hes. by rewrite <- Hp.
  - intros k. destruct (alookup es k) as [v|] eqn:E.
    + apply alookup_in; [done|]. rewrite Hp. by apply alookup_Some_in.
    + destruct (alookup es' k) as [v|] eqn:E'; [|done]. apply alookup_Some_in in E'.
      rewrite Hp in E'. by rewrite (alookup_in _ _ _ Hnd E') in E.
Qed.

(** The post-state of a leaf is the old leaf overlaid with its members' writes. *)
Lemma leaf_pair_updated p nv x idxs items :
  leaf_placed p 0 x -> rl_depth x <= DEPTH ->
  Forall2 (item_of p nv) idxs items -> items_ok (region [] x) (rl_key x) items ->
  exists s', snd <$> Roots.leaf_pair p (rl_idx x) idxs nv = Ok (summary s') /\
    wf (region [] x) s' /\
    forall k', has_prefix k' (region [] x) ->
      tlookup (length (region [] x)) s' k'
      = overlay (it_write <$> items) k' (tlookup 0 (leaf_trie (rl_key x) (rl_value x)) k').
Proof.
  intros (lf & Hlf & Hlk & Hv & Hd) Hdep Hitems Hok.
  assert (has_prefix (rl_key x) (region [] x)) as Hk by (by apply has_prefix_kprefix).
  unfold Roots.leaf_pair, Proof.leaf, Proof.leaf_key, Proof.key. rewrite Hlf. cbn [ok_or mbind outcome_bind].
  rewrite Hlk. cbn [ok_or mbind outcome_bind]. cbv zeta.
  unfold Roots.classify_leaf_update. rewrite (scan_members_items p lf nv idxs items) by done.
  fold empty_scan. destruct (scan_closed (Leaf.value_hash lf) items) as (Hbuf & Hwit & Hneed & Hun & Hsg).
  set (st := foldl (scan_item (Leaf.value_hash lf)) empty_scan items) in *. clearbody st.
  cbn [mbind outcome_bind]. rewrite <- Hv in *. destruct (Roots.any_change st) eqn:Hch; cbn [negb].
  - destruct (Roots.needs_synthesis st) eqn:Hns.
    + cbn [mbind outcome_bind].
      destruct (synth_keys _ _ (rl_value x) items Hok Hk) as [Hnd Hes].
      destruct (sort_entries_at _ _ Hnd Hes) as [Hat Hal].
      assert ((if bool_decide (Roots.new_witness_value st = None) && negb (bool_decide (rl_value x = EMPTY_HASH))
        then Roots.buffer st ++ [(rl_key x, rl_value x)] else Roots.buffer st)
        = synth_entries (rl_key x) (rl_value x) items) as ->.
      { unfold synth_entries. rewrite Hbuf, Hwit.
        set (o := last (filter (fun it => it_present it = true) items)).
        assert (bool_decide (it_value <$> o = None) = bool_decide (o = None)) as ->; [|done].
        apply bool_decide_ext. by destruct o. }
      destruct (subtree_hash_spec (S (S DEPTH) - rl_depth x) (region [] x) _ ltac:(unfold region; rewrite length_kprefix; cbn; lia) ltac:(unfold region; rewrite length_kprefix; cbn; lia) Hat)
        as (t & Ht & Hwf & Hlt).
      exists t. replace (length (region [] x)) with (rl_depth x) in Ht
        by (unfold region; by rewrite length_kprefix).
      rewrite Hd. cbn [Nat.add]. rewrite Ht. split; [done|]. split; [done|].
      intros k' Hk'. rewrite Hlt, Hal by done. by apply (synth_lookup (region [] x)).
    + destruct (Hsg eq_refl eq_refl) as (it & Hin & Hp).
      assert (Roots.new_witness_value st = Some (it_value it)) as Hw.
      { rewrite Hwit. destruct (last (filter _ items)) as [it'|] eqn:El.
        - apply last_Some_elem_of, list_elem_of_filter in El as [Hp' Hin']. cbn.
          pose proof (item_committed _ _ items it Hok Hin) as H1.
          pose proof (item_committed _ _ items it' Hok Hin') as H2.
          rewrite (items_present _ _ _ Hok it Hin Hp) in H1.
          rewrite (items_present _ _ _ Hok it' Hin' Hp'), H1 in H2. by injection H2 as ->.
        - by rewrite (proj1 (no_present items) El it Hin) in Hp. }
      rewrite Hw. cbn. exists (leaf_trie (rl_key x) (it_value it)). rewrite summary_leaf_trie.
      split; [done|]. split; [by apply wf_leaf_trie|]. intros k' _.
      rewrite (overlay_single (region [] x) _ _ _ it) by
        (done || (intros it' Hin' Hp'; destruct (decide (it_value it' = EMPTY_HASH)) as [|Hl]; [done|];
         exfalso; assert (false = true) by (apply Hneed; exists it'; repeat split; try done;
           unfold it_live; by rewrite bool_decide_eq_false_2); done)).
      by rewrite !tlookup_leaf_trie.
  - cbn. exists (leaf_trie (rl_key x) (rl_value x)). rewrite summary_leaf_trie.
    split; [done|]. split; [by apply wf_leaf_trie|]. intros k' _.
    rewrite (overlay_unchanged (region [] x)) by (done || by apply Hun). by rewrite !tlookup_leaf_trie.
Qed.

(** Two leaves of a routed tree do not share a key's region. *)
Lemma regions_disjoint t : forall p x y k',
  routed p t = true -> x ∈ rleaves t -> y ∈ rleaves t ->
  has_prefix k' (region p x) -> has_prefix k' (region p y) -> rl_idx x = rl_idx y.
Proof.
  induction t as [|i k v|l IHl r IHr|b sib c IHc]; intros p x y k' Hr Hx Hy Hkx Hky;
    cbn [routed rleaves] in *.
  - by apply not_elem_of_nil in Hx.
  - apply list_elem_of_singleton in Hx as ->. by apply list_elem_of_singleton in Hy as ->.
  - rewrite !andb_true_iff in Hr. destruct Hr as [[_ Hrl] Hrr].
    assert (forall z, z ∈ deeper <$> rleaves l -> has_prefix k' (region p z) -> bit k' (length p) = false) as Hl.
    { intros z Hz Hkz. apply list_elem_of_fmap in Hz as (z' & -> & Hz). rewrite (region_deeper p false) in Hkz.
      apply region_prefix in Hkz; [|by eapply routed_prefix]. by apply has_prefix_snoc in Hkz as [_ ?]. }
    assert (forall z, z ∈ deeper <$> rleaves r -> has_prefix k' (region p z) -> bit k' (length p) = true) as Hr.
    { intros z Hz Hkz. apply list_elem_of_fmap in Hz as (z' & -> & Hz). rewrite (region_deeper p true) in Hkz.
      apply region_prefix in Hkz; [|by eapply routed_prefix]. by apply has_prefix_snoc in Hkz as [_ ?]. }
    apply elem_of_app in Hx as [Hx|Hx], Hy as [Hy|Hy].
    + apply list_elem_of_fmap in Hx as (x' & -> & Hx), Hy as (y' & -> & Hy).
      rewrite (region_deeper p false) in *. by apply (IHl _ x' y' k' Hrl).
    + specialize (Hl x Hx Hkx). specialize (Hr y Hy Hky). congruence.
    + specialize (Hl y Hy Hky). specialize (Hr x Hx Hkx). congruence.
    + apply list_elem_of_fmap in Hx as (x' & -> & Hx), Hy as (y' & -> & Hy).
      rewrite (region_deeper p true) in *. by apply (IHr _ x' y' k' Hrr).
  - rewrite andb_true_iff in Hr. destruct Hr as [_ Hrc].
    apply list_elem_of_fmap in Hx as (x' & -> & Hx), Hy as (y' & -> & Hy).
    rewrite (region_deeper p (negb b)) in *. by apply (IHc _ x' y' k' Hrc).
Qed.
End leaf_update.

(** ** The recomputed roots *)

(** The writes of the queried keys, in membership order. *)
Definition writes (p : Proof.t) (nv : nat -> array 32) : list Commitment :=
  imap (fun i k => {| key := k; value_hash := nv i |})
       (take (length (Proof.memberships p)) (Proof.keys p)).

Lemma elem_of_writes p nv c :
  length (Proof.memberships p) <= length (Proof.keys p) ->
  c ∈ writes p nv <-> exists i, i < length (Proof.memberships p) /\
    Proof.keys p !! i = Some (key c) /\ value_hash c = nv i.
Proof.
  intros Hlen. unfold writes. rewrite elem_of_lookup_imap. split.
  - intros (i & k & -> & Hi). apply lookup_take_Some in Hi as [Hk Hi]. by exists i.
  - intros (i & Hi & Hk & Hv). exists i, (key c). split; [destruct c; cbn in *; by subst|].
    by apply lookup_take_Some.
Qed.

Lemma writes_keys p nv : key <$> writes p nv = take (length (Proof.memberships p)) (Proof.keys p).
Proof.
  unfold writes. apply list_eq. intros i. rewrite list_lookup_fmap, list_lookup_imap.
  by destruct (take _ _ !! i).
Qed.

(** Two lists of writes with the same entry for a key commit the same value. *)
Lemma committed_same cs cs' k :
  NoDup (key <$> cs) -> NoDup (key <$> cs') ->
  (forall v, {| key := k; value_hash := v |} ∈ cs <-> {| key := k; value_hash := v |} ∈ cs') ->
  committed cs k = committed cs' k.
Proof.
  intros H1 H2 Hiff. destruct (committed cs k) as [v|] eqn:E.
  - apply committed_Some in E as ([k' v'] & Hc & <- & <-). cbn in *. symmetry.
    apply (committed_in cs' {| key := k'; value_hash := v' |} H2). by apply Hiff.
  - symmetry. apply committed_None. intros [k' v'] Hc Hk. cbn in Hk. subst k'.
    apply Hiff in Hc. by apply (proj1 (committed_None cs k) E) in Hc.
Qed.

Lemma exists_Forall2 {A B} (P : A -> B -> Prop) l :
  (forall a, a ∈ l -> exists b, P a b) -> exists l', Forall2 P l l'.
Proof.
  induction l as [|a l IH]; intros Hl; [by exists []|].
  destruct (Hl a ltac:(by left)) as [b Hb]. destruct IH as [l' Hl']; [intros; apply Hl; by right|].
  exists (b :: l'). by constructor.
Qed.

Section sound.
Context `{Hasher} (p : Proof.t) (t : rtree).
Context (Htree : proof_tree p = Ok t) (Hrt : routed [] t = true).
Context (Hmem : forall i, i < length (Proof.memberships p) -> is_ok (Proof.member p i) = true).
Context (Hlen : length (Proof.memberships p) <= length (Proof.keys p)).
Context (Hnd : NoDup (take (length (Proof.memberships p)) (Proof.keys p))).

Lemma routed_depth t' : forall q x,
  routed q t' = true -> length q <= DEPTH -> x ∈ rleaves t' -> length q + rl_depth x <= DEPTH.
Proof.
  clear. induction t' as [|i k v|l IHl r IHr|b sib c IHc]; intros q x Hr Hq Hx; cbn [routed rleaves] in *.
  - by apply not_elem_of_nil in Hx.
  - apply list_elem_of_singleton in Hx as ->. cbn. lia.
  - rewrite !andb_true_iff, Nat.ltb_lt in Hr. destruct Hr as [[Hlt Hrl] Hrr].
    apply elem_of_app in Hx as [Hx|Hx]; apply list_elem_of_fmap in Hx as (y & -> & Hy).
    + apply (IHl (q ++ [false])) in Hy; rewrite ?length_snoc in *; [cbn; lia|done|lia].
    + apply (IHr (q ++ [true])) in Hy; rewrite ?length_snoc in *; [cbn; lia|done|lia].
  - rewrite andb_true_iff, Nat.ltb_lt in Hr. destruct Hr as [Hlt Hrc].
    apply list_elem_of_fmap in Hx as (y & -> & Hy).
    apply (IHc (q ++ [negb b])) in Hy; rewrite ?length_snoc in *; [cbn; lia|done|lia].
Qed.

(** Every queried key lies in the region of the leaf its membership names. *)
Lemma member_region i :
  i < length (Proof.memberships p) ->
  exists m k x, Proof.memberships p !! i = Some m /\ Proof.keys p !! i = Some k /\
    x ∈ rleaves t /\ Membership.leaf_pos m = rl_idx x /\ has_prefix k (region [] x) /\
    match m with Membership.Present _ => k = rl_key x | Membership.Absent _ => k <> rl_key x end.
Proof using Htree Hrt Hmem.
  clear Hlen Hnd. intros Hi. pose proof (Hmem i Hi) as Hok. destruct (Proof.member p i) as [mem| |] eqn:Em; try done.
  apply member_inv in Em as (li & lf & lk & Hm & Hlf & _ & Hlk & Hk & Hcase).
  destruct (proof_tree_leaf p t _ lf Htree Hlf) as (k' & Hk' & Hin).
  rewrite Hlk in Hk'. injection Hk' as <-.
  eexists _, (Member.key mem), _. split; [exact Hm|]. split; [exact Hk|]. split; [exact Hin|].
  cbn [rl_idx rl_key]. destruct (Member.absent mem).
  - destruct Hcase as [Hne Hsp]. split; [done|]. split; [|done]. unfold region. cbn.
    pose proof (routed_depth t [] _ Hrt ltac:(cbn; lia) Hin) as Hd. cbn in Hd.
    apply has_prefix_kprefix. apply Bits.shares_prefix_spec; [..|done];
      rewrite length_vec_to_list; unfold DEPTH in Hd; lia.
  - subst lk. split; [done|]. split; [|done]. by apply has_prefix_kprefix.
Qed.

Lemma elem_of_members j i :
  i ∈ members_of (imap pair (Proof.memberships p)) j <->
  exists m, Proof.memberships p !! i = Some m /\ Membership.leaf_pos m = j.
Proof.
  unfold members_of. rewrite list_elem_of_fmap. split.
  - intros ([i' m] & -> & Hin). apply list_elem_of_filter in Hin as [Hj Hin].
    apply elem_of_lookup_imap in Hin as (i & m' & [= -> ->] & Hi). by exists m'.
  - intros (m & Hi & Hj). exists (i, m). split; [done|]. apply list_elem_of_filter. split; [done|].
    apply elem_of_lookup_imap. by exists i, m.
Qed.

Lemma members_nodup j : NoDup (members_of (imap pair (Proof.memberships p)) j).
Proof.
  unfold members_of. eapply sublist_NoDup; [|apply fmap_sublist, sublist_filter].
  replace ((imap pair (Proof.memberships p)).*1) with (seq 0 (length (Proof.memberships p)));
    [apply NoDup_seq|].
  apply list_eq. intros i. rewrite list_lookup_fmap, list_lookup_imap.
  destruct (Proof.memberships p !! i) eqn:E; cbn.
  - apply lookup_seq. apply lookup_lt_Some in E. lia.
  - apply lookup_ge_None in E. apply lookup_ge_None. rewrite length_seq. lia.
Qed.

Lemma queried_inj i j k :
  i < length (Proof.memberships p) -> j < length (Proof.memberships p) ->
  Proof.keys p !! i = Some k -> Proof.keys p !! j = Some k -> i = j.
Proof using Hnd.
  intros Hi Hj Hki Hkj. eapply NoDup_lookup; [exact Hnd|..]; by apply lookup_take_Some.
Qed.

(** The items of a leaf: its members are well-behaved and are exactly the writes to its region. *)
Lemma leaf_items nv x :
  x ∈ rleaves t ->
  exists items,
    Forall2 (item_of p nv) (members_of (imap pair (Proof.memberships p)) (rl_idx x)) items /\
    items_ok (region [] x) (rl_key x) items /\
    forall k', has_prefix k' (region [] x) ->
      committed (it_write <$> items) k' = committed (writes p nv) k'.
Proof using Htree Hrt Hmem Hlen Hnd.
  intros Hx. set (idxs := members_of _ _).
  assert (forall i, i ∈ idxs -> exists it, item_of p nv i it /\
    (if it_present it then it_key it = rl_key x
     else it_key it <> rl_key x /\ has_prefix (it_key it) (region [] x))) as Hex.
  { intros i Hi. apply elem_of_members in Hi as (m & Hm & Hpos).
    destruct (member_region i (lookup_lt_Some _ _ _ Hm)) as (m' & k & y & Hm' & Hk & Hy & Hpos' & Hreg & Hcase).
    rewrite Hm in Hm'. injection Hm' as <-.
    assert (rl_key y = rl_key x /\ region [] y = region [] x) as [Hkey Hr].
    { apply proof_tree_leaves in Htree as [_ Hpl]. rewrite Forall_forall in Hpl.
      destruct (Hpl x Hx) as (lx & Hlx & Hkx & _ & Hdx), (Hpl y Hy) as (ly & Hly & Hky & _ & Hdy).
      rewrite <- Hpos', Hpos in Hly. rewrite Hlx in Hly. injection Hly as <-.
      rewrite Hkx in Hky. injection Hky as Hky. split; [done|]. unfold region. rewrite Hky. f_equal. cbn in *. lia. }
    rewrite Hkey, Hr in *.
    exists {| it_present := match m with Membership.Present _ => true | _ => false end;
              it_write := {| key := k; value_hash := nv i |} |}.
    destruct m as [li|li]; cbn; (split; [|done]); (split; [by exists li|done]). }
  destruct (exists_Forall2 _ idxs Hex) as [items Hitems]. exists items.
  assert (Forall2 (item_of p nv) idxs items) as Hf by (eapply Forall2_impl; [exact Hitems|]; by intros i it [? _]).
  split; [done|].
  assert (NoDup (key <$> (it_write <$> items))) as Hndi.
  { assert (NoDup idxs) as Hndx by apply members_nodup.
    assert (forall i, i ∈ idxs -> i < length (Proof.memberships p)) as Hlt.
    { intros i Hi. apply elem_of_members in Hi as (m & Hm & _). by apply lookup_lt_Some in Hm. }
    clear -Hf Hndx Hlt Hnd. induction Hf as [|i it idxs items Hi Hf IH]; [constructor|]. cbn.
    apply NoDup_cons in Hndx as [Hni Hndx]. constructor; [|apply IH; [done|intros; apply Hlt; by right]].
    intros Hin. apply list_elem_of_fmap in Hin as (c & Hc & Hin).
    apply list_elem_of_fmap in Hin as (it' & -> & Hin).
    apply list_elem_of_lookup_1 in Hin as [n Hn]. destruct (Forall2_lookup_r _ _ _ _ _ Hf Hn) as (i' & Hi' & Hit').
    assert (i = i') as <-.
    { destruct Hi as (_ & Hk & _), Hit' as (_ & Hk' & _).
      eapply queried_inj; [apply Hlt; by left|apply Hlt; right; by eapply list_elem_of_lookup_2|exact Hk|].
      rewrite Hk'. unfold it_key. by rewrite <- Hc. }
    apply Hni. by eapply list_elem_of_lookup_2. }
  assert (forall it, it ∈ items -> exists i, i ∈ idxs /\ item_of p nv i it /\
    (if it_present it then it_key it = rl_key x
     else it_key it <> rl_key x /\ has_prefix (it_key it) (region [] x))) as Hit.
  { intros it Hin. apply list_elem_of_lookup_1 in Hin as [n Hn].
    destruct (Forall2_lookup_r _ _ _ _ _ Hitems Hn) as (i & Hi & ? & ?). exists i.
    split; [by eapply list_elem_of_lookup_2|done]. }
  split.
  - split; [done|..]; intros it Hin Hp; destruct (Hit it Hin) as (i & _ & _ & Hcase); by rewrite Hp in Hcase.
  - intros k' Hk'. apply committed_same; [done|by rewrite writes_keys|]. intros v.
    rewrite elem_of_writes by done. cbn [key value_hash]. split.
    + intros Hin. apply list_elem_of_fmap in Hin as (it & Hw & Hin).
      destruct (Hit it Hin) as (i & Hi & (_ & Hk & Hv) & _). exists i.
      apply elem_of_members in Hi as (m & Hm & _). apply lookup_lt_Some in Hm.
      unfold it_key, it_value in *. by rewrite <- Hw in *.
    + intros (i & Hi & Hk & ->).
      destruct (member_region i Hi) as (m & k & y & Hm & Hk2 & Hy & Hpos & Hreg & _).
      rewrite Hk in Hk2. injection Hk2 as <-.
      assert (i ∈ idxs) as Hin.
      { apply elem_of_members. exists m. split; [done|]. rewrite Hpos.
        symmetry. by apply (regions_disjoint t [] x y k'). }
      apply list_elem_of_lookup_1 in Hin as [n Hn].
      destruct (Forall2_lookup_l _ _ _ _ _ Hf Hn) as (it & Hitn & (_ & Hik & Hiv)).
      apply list_elem_of_fmap. exists it. split; [|by eapply list_elem_of_lookup_2].
      rewrite Hk in Hik. injection Hik as ->. unfold it_key, it_value in Hiv |- *. rewrite Hiv.
      by destruct (it_write it).
Qed.

(** Outside every region nothing is written. *)
Lemma unwritten nv k' o :
  (forall x, x ∈ rleaves t -> ~ has_prefix k' (region [] x)) -> overlay (writes p nv) k' o = o.
Proof using Htree Hrt Hmem Hlen.
  intros Hno. unfold overlay. rewrite (proj2 (committed_None _ _)); [done|].
  intros c Hc <-. apply elem_of_writes in Hc as (i & Hi & Hk & _); [|done].
  destruct (member_region i Hi) as (m & k & x & _ & Hk' & Hx & _ & Hreg & _).
  rewrite Hk in Hk'. injection Hk' as <-. by apply (Hno x).
Qed.

Lemma compute_roots_update m nv :
  pinned t = true -> map_Forall (fun _ v => v <> EMPTY_HASH) m ->
  no_collision (rtree_preimages t ++ trie_preimages (trie_of m)) ->
  HashedNode.hash (reval t) = root_of m ->
  Roots.compute_roots p nv = Ok (root_of m, root_of (apply_commitments m (writes p nv))).
Proof using Htree Hrt Hmem Hlen Hnd.
  intros Hpin Hm Hnc Hroot. destruct (trie_of_spec m Hm) as [Hwf Hlk]. unfold root_of at 1 in Hroot.
  assert (rtree_preimages t ⊆ rtree_preimages t ++ trie_preimages (trie_of m)) as Hs1 by set_solver.
  assert (trie_preimages (trie_of m) ⊆ rtree_preimages t ++ trie_preimages (trie_of m)) as Hs2 by set_solver.
  pose proof (root_summary _ t (trie_of m) Hnc Hs1 Hs2 Hpin Hrt Hwf Hroot) as Heq.
  destruct (post_sound _ (fun i => idxs ← MembersByLeaf.members_at (MembersByLeaf.members_by_leaf p) i;
      snd <$> Roots.leaf_pair p i idxs nv) (overlay (writes p nv)) Hnc t (trie_of m) [])
    as (s' & Hpost & Hwf' & Hlk'); [done|done|done|cbn; lia|done|done|done| | |].
  - intros x Hx. destruct (leaf_items nv x Hx) as (items & Hf & Hok & Hcm).
    pose proof (proof_tree_leaves p t Htree) as [Hidx Hpl]. rewrite Forall_forall in Hpl.
    pose proof (routed_depth t [] x Hrt ltac:(cbn; lia) Hx) as Hd.
    destruct (leaf_pair_updated p nv x _ items (Hpl x Hx) Hd Hf Hok) as (s' & Hs' & Hw' & Hl').
    exists s'. rewrite members_at_spec; [|destruct (Hpl x Hx) as (lf & Hlf & _); by apply lookup_lt_Some in Hlf].
    split; [done|]. split; [done|]. intros k' Hk'. rewrite (Hl' k' Hk'). unfold overlay. by rewrite Hcm.
  - intros k' o _ Hno. by apply unwritten.
  - rewrite (compute_roots_complete p nv t _ Htree Hpost). f_equal. f_equal; [by rewrite Hroot|].
    apply root_of_trie; [done|]. intros k. rewrite apply_commitments_lookup, <- Hlk.
    exact (Hlk' k (has_prefix_nil k)).
Qed.
End sound.

(** ** Wire form *)

Lemma decode_encode p :
  u32 (Z.of_nat (length (Proof.keys p))) -> u32 (Z.of_nat (length (Proof.leaves p))) ->
  u32 (Z.of_nat (length (Proof.siblings p))) -> u32 (Z.of_nat (length (Proof.topology p))) ->
  u32 (Z.of_nat (length (Proof.memberships p))) ->
  Proof.decode (Proof.encode p) = Ok p.
Proof.
  intros H1 H2 H3 H4 H5. unfold Proof.decode, Proof.encode.
  rewrite <- (app_nil_r (_ ++ _)). parse. by destruct p.
Qed.
