(* ===== verification/SmtVerify.v ===== *)
(** * SmtVerify: the guarantees of multi-proof verification

    The theorems a verifier of [core/smt] multi-proofs relies on, and the two ways in which an
    adversarial prover escapes them when the proof is not checked to be pinned. *)

From S2P Require Import Prelude Codec Types SmtNode SmtTrie SmtUpdate SmtTree SmtProof SmtSound SmtRoots.

(** ** Decoding and bookkeeping *)

(** A multi-proof whose sections fit 32-bit counts survives encoding and decoding. *)
Theorem proof_decode_encode p :
  u32 (Z.of_nat (length (Proof.keys p))) -> u32 (Z.of_nat (length (Proof.leaves p))) ->
  u32 (Z.of_nat (length (Proof.siblings p))) -> u32 (Z.of_nat (length (Proof.topology p))) ->
  u32 (Z.of_nat (length (Proof.memberships p))) ->
  Proof.decode (Proof.encode p) = Ok p.
Proof. apply decode_encode. Qed.

(** The counting inversion of the memberships is exact: [at(j)] lists the memberships that
    name leaf [j], in order, for every leaf of the proof, whatever the memberships are. *)
Theorem members_at_exact p j :
  j < length (Proof.leaves p) ->
  MembersByLeaf.members_at (MembersByLeaf.members_by_leaf p) j
  = Ok (members_of (imap pair (Proof.memberships p)) j).
Proof. apply members_at_spec. Qed.

(** The paired traversal agrees with the single one: the first root of [compute_roots] is
    [root], for any new values. *)
Theorem compute_roots_prev `{Hasher} p nv r r' :
  Roots.compute_roots p nv = Ok (r, r') -> Roots.root p = Ok r.
Proof.
  intros Hc. apply compute_roots_tree in Hc as (t & h & Ht & -> & _ & _).
  by rewrite root_tree, Ht.
Qed.

(** ** Soundness *)

(** A proof is verified against the map [m] when it recomputes the map's root and the hash has
    no collision among the preimages of the proof and of the map's tree. *)
Definition verified `{Hasher} (p : Proof.t) (m : gmap ResourceId (array 32)) : Prop :=
  map_Forall (fun _ v => v <> EMPTY_HASH) m /\
  Roots.root p = Ok (root_of m) /\
  no_collision (proof_preimages p ++ trie_preimages (trie_of m)).

Lemma verified_tree `{Hasher} p m :
  verified p m -> exists t, proof_tree p = Ok t /\ HashedNode.hash (reval t) = root_of m /\
    no_collision (rtree_preimages t ++ trie_preimages (trie_of m)) /\
    wf [] (trie_of m) /\ (forall k, tlookup 0 (trie_of m) k = m !! k).
Proof.
  intros (Hm & Hr & Hnc). rewrite root_tree in Hr. unfold proof_preimages in Hnc.
  destruct (proof_tree p) as [t| |]; try done. injection Hr as Hr.
  exists t. destruct (trie_of_spec m Hm). done.
Qed.

(** Claims that rest on a live leaf are sound for every accepted proof, however it was made:
    a present member has its value in the committed map, and a key claimed absent next to a
    foreign live leaf is absent from it. *)
Theorem live_member_sound `{Hasher} p m idx mem :
  verified p m -> Proof.member p idx = Ok mem ->
  Leaf.value_hash (Member.leaf mem) <> EMPTY_HASH ->
  m !! Member.key mem = if Member.absent mem then None else Some (Leaf.value_hash (Member.leaf mem)).
Proof.
  intros Hver Hmem Hlive. destruct (verified_tree p m Hver) as (t & Ht & Hr & Hnc & Hwf & Hlk).
  apply member_inv in Hmem as (li & lf & lk & _ & Hlf & Hleaf & Hkl & _ & Hcase).
  rewrite Hleaf in *. destruct (proof_tree_leaf p t _ lf Ht Hlf) as (k & Hk & Hin).
  rewrite Hkl in Hk. injection Hk as <-.
  destruct (live_leaves_sound _ Hnc t (trie_of m) [] Hwf ltac:(set_solver) ltac:(set_solver) Hr _ Hin Hlive)
    as (d & Hd & Hleaves). cbn [rl_key rl_value rl_depth] in *.
  destruct (tleaves_lookup [] _ _ _ _ Hwf Hleaves) as (_ & _ & Hl). cbn [length Nat.add] in Hl.
  rewrite <- Hlk. destruct (Member.absent mem).
  - destruct Hcase as [Hne Hsp]. rewrite Hl; [by rewrite decide_False|apply has_prefix_nil|].
    intros i Hi. symmetry. apply (Bits.shares_prefix_true _ _ _ i Hsp). lia.
  - subst lk. rewrite Hl; [by rewrite decide_True|apply has_prefix_nil|done].
Qed.

(** The truth about a queried key. *)
Lemma member_truth `{Hasher} p m idx mem :
  verified p m -> well_formed p = true -> Proof.member p idx = Ok mem ->
  default EMPTY_HASH (m !! Member.key mem) = Member.value_hash mem.
Proof.
  intros Hver Hwfp Hmem. destruct (verified_tree p m Hver) as (t & Ht & Hr & Hnc & Hwf & Hlk).
  unfold well_formed in Hwfp. rewrite Ht in Hwfp. apply andb_true_iff in Hwfp as [Hrt Hpin].
  pose proof (root_summary _ t (trie_of m) Hnc ltac:(set_solver) ltac:(set_solver) Hpin Hrt Hwf Hr) as Heq.
  apply member_inv in Hmem as (li & lf & lk & _ & Hlf & Hleaf & Hkl & _ & Hcase).
  destruct (proof_tree_leaf p t _ lf Ht Hlf) as (k & Hk & Hin). rewrite Hkl in Hk. injection Hk as <-.
  rewrite <- Hlk. erewrite (locate _ Hnc t (trie_of m) [] ltac:(set_solver) ltac:(set_solver) Hwf Hpin Hrt Heq);
    [|exact Hin|]; cbn [rl_key rl_value].
  - rewrite tlookup_leaf_trie. unfold Member.value_hash. rewrite Hleaf. destruct (Member.absent mem).
    + destruct Hcase as [Hne _]. rewrite (decide_False (P := lk = _)) by done. by case_decide.
    + subst lk. rewrite (decide_True (P := Member.key mem = _)) by done. by case_decide.
  - unfold region. cbn. apply has_prefix_kprefix. intros i Hi. destruct (Member.absent mem); [|by subst].
    destruct Hcase as [_ Hsp]. by apply (Bits.shares_prefix_true _ _ _ i Hsp).
Qed.

(** Every membership claim of a verified proof whose siblings are pinned and whose leaves are
    routed is the truth about the committed map, absence claims on empty leaves included. *)
Theorem member_sound `{Hasher} p m idx mem :
  verified p m -> well_formed p = true -> Proof.member p idx = Ok mem ->
  default EMPTY_HASH (m !! Member.key mem) = Member.value_hash mem.
Proof. apply member_truth. Qed.

(** The roots of a verified proof. *)
Lemma compute_roots_truth `{Hasher} p m nv :
  verified p m -> well_formed p = true ->
  Proof.check_sorted_queried_keys p = Ok tt -> is_ok (Proof.members p) = true ->
  Roots.compute_roots p nv = Ok (root_of m, root_of (apply_commitments m (writes p nv))).
Proof.
  intros Hver Hwfp Hsorted Hmem.
  pose proof Hver as [Hm _]. destruct (verified_tree p m Hver) as (t & Ht & Hr & Hnc & _ & _).
  unfold well_formed in Hwfp. rewrite Ht in Hwfp. apply andb_true_iff in Hwfp as [Hrt Hpin].
  unfold Proof.check_sorted_queried_keys in Hsorted.
  destruct (Nat.ltb_spec (length (Proof.keys p)) (length (Proof.memberships p))) as [|Hlen]; [done|].
  destruct (strictly_ascending _) eqn:Hs; [|done].
  apply strictly_ascending_sorted, ascending_NoDup in Hs.
  apply (compute_roots_update p t); try done. intros i Hi.
  unfold Proof.members in Hmem. destruct (mapM_outcome _ _) as [ms| |] eqn:Em; try done.
  apply mapM_outcome_Ok in Em. destruct (Forall2_lookup_l _ _ _ i i Em) as (mem & _ & ->); [|done].
  by apply lookup_seq.
Qed.

(** C2: for a verified, pinned and routed proof with distinct sorted queried keys and resolvable
    claims, [compute_roots] succeeds and returns the map's root and the root of the map with every
    queried key set to its new value ([EMPTY_HASH] deletes). *)
Theorem compute_roots_sound `{Hasher} p m nv :
  verified p m -> well_formed p = true ->
  Proof.check_sorted_queried_keys p = Ok tt -> is_ok (Proof.members p) = true ->
  Roots.compute_roots p nv = Ok (root_of m, root_of (apply_commitments m (writes p nv))).
Proof. apply compute_roots_truth. Qed.

(** ** What an unpinned proof can claim *)

(** The sibling is the committed leaf itself, promoted over an empty proof leaf. *)
Definition forged_proof `{Hasher} (k v : array 32) : Proof.t :=
  {| Proof.keys := [k];
     Proof.leaves := [{| Leaf.depth := le_split 2 1; Leaf.key_idx := le_split 4 0;
                         Leaf.value_hash := EMPTY_HASH |}];
     Proof.siblings := [HashedNode.leaf k v];
     Proof.topology := [Byte.x00];
     Proof.memberships := [Membership.Present (le_split 4 0)] |}.

(** C38: absence of a committed key can be forged: for every hash, key and value there is a proof
    that recomputes the root of the one-entry map, passes every check of the verifier, and
    resolves the key to the empty value. *)
Theorem absence_forgeable `{Hasher} k v :
  v <> EMPTY_HASH ->
  Roots.root (forged_proof k v) = Ok (root_of {[k := v]}) /\
  Proof.check_sorted_queried_keys (forged_proof k v) = Ok tt /\
  exists mem, Proof.members (forged_proof k v) = Ok [mem] /\
    Member.key mem = k /\ Member.absent mem = false /\ Member.value_hash mem = EMPTY_HASH.
Proof.
  intros Hv. split; [|split; [done|]].
  - rewrite <- (root_of_trie {[k := v]} (TLeaf k v)).
    + cbn [summary].
      assert (proof_tree (forged_proof k v)
        = Ok (RSib (negb (bit k 0)) (HashedNode.leaf k v) (RLeaf 0 k EMPTY_HASH))) as Ht by done.
      rewrite root_tree, Ht. cbn [fmap outcome_fmap reval]. do 2 f_equal.
      rewrite leaf_empty, summary_leaf by done. by destruct (negb (bit k 0)).
    + split; [apply has_prefix_nil|done].
    + intros k'. cbn. by rewrite lookup_singleton.
  - unfold Proof.members. cbn [length seq Proof.memberships forged_proof mapM_outcome].
    assert (Proof.member (forged_proof k v) 0
      = if negb (bool_decide (k = k)) then Err (Decode "leaf is absent")
        else Ok {| Member.key := k; Member.absent := false;
                   Member.leaf := {| Leaf.depth := le_split 2 1; Leaf.key_idx := le_split 4 0;
                                     Leaf.value_hash := EMPTY_HASH |} |}) as Hm by done.
    fold (forged_proof k v). rewrite Hm, bool_decide_eq_true_2 by done.
    eexists. by split.
Qed.

(** A proof of one present and one absent key at a leaf of depth 1, with a sibling of kind
    [EMPTY] and an arbitrary hash. *)
Definition hollow_proof (g : array 32) : Proof.t :=
  {| Proof.keys := [fill kA; fill kC];
     Proof.leaves := [{| Leaf.depth := le_split 2 1; Leaf.key_idx := le_split 4 0;
                         Leaf.value_hash := fill Byte.x01 |}];
     Proof.siblings := [HashedNode.new EMPTY g];
     Proof.topology := [Byte.x00];
     Proof.memberships := [Membership.Present (le_split 4 0); Membership.Absent (le_split 4 0)] |}.

(** The hash of an [EMPTY] sibling is not committed to by the pre-state root but is hashed
    into the post-state root: for every value [g] there is an accepted proof of the same map and
    the same writes whose post-state root hashes [g]. *)
Theorem post_root_malleable `{Hasher} g :
  exists h, Roots.compute_roots (hollow_proof g) (fun _ => fill Byte.x01)
    = Ok (root_of {[fill kA := fill Byte.x01]}, phash (HInternal INTERNAL EMPTY h g)).
Proof. eexists. vm_compute. reflexivity. Qed.

(** ** Witnesses *)

Definition sample_map : gmap ResourceId (array 32) :=
  <[fill kA := fill Byte.x01]> (<[fill kB := fill Byte.x02]> ∅).

(** A is present at depth 1; C, routed to the same leaf, is absent. *)
Definition sample_proof : Proof.t :=
  {| Proof.keys := [fill kA; fill kC];
     Proof.leaves := [{| Leaf.depth := le_split 2 1; Leaf.key_idx := le_split 4 0;
                         Leaf.value_hash := fill Byte.x01 |}];
     Proof.siblings := [HashedNode.leaf (H := toy_hasher) (fill kB) (fill Byte.x02)];
     Proof.topology := [Byte.x00];
     Proof.memberships := [Membership.Present (le_split 4 0); Membership.Absent (le_split 4 0)] |}.

Lemma sample_verified : verified (H := toy_hasher) sample_proof sample_map.
Proof.
  split; [|split].
  - apply map_Forall_insert_2; [done|]. apply map_Forall_insert_2; [done|]. apply map_Forall_empty.
  - vm_compute. reflexivity.
  - apply no_collisionb_spec. vm_compute. reflexivity.
Qed.

Lemma proof_decode_encode_witness : Proof.decode (Proof.encode sample_proof) = Ok sample_proof.
Proof. apply (proof_decode_encode sample_proof); done. Defined.

Lemma members_at_exact_witness :
  MembersByLeaf.members_at (MembersByLeaf.members_by_leaf sample_proof) 0 = Ok [0; 1].
Proof. rewrite (members_at_exact sample_proof 0); [reflexivity|cbn; lia]. Defined.

Lemma compute_roots_prev_witness :
  Roots.root (H := toy_hasher) sample_proof = Ok (root_of (H := toy_hasher) sample_map).
Proof.
  apply (@compute_roots_prev toy_hasher sample_proof (fun _ => fill Byte.x07)
    (root_of (H := toy_hasher) sample_map)
    (root_of (H := toy_hasher)
      (apply_commitments sample_map [put kA Byte.x07; put kC Byte.x07]))).
  vm_compute. reflexivity.
Defined.

Definition sample_member (i : nat) : Member.t :=
  {| Member.key := if i =? 0 then fill kA else fill kC;
     Member.leaf := {| Leaf.depth := le_split 2 1; Leaf.key_idx := le_split 4 0;
                       Leaf.value_hash := fill Byte.x01 |};
     Member.absent := negb (i =? 0) |}.

Lemma live_member_sound_witness :
  sample_map !! fill kA = Some (fill Byte.x01) /\ sample_map !! fill kC = None.
Proof.
  split.
  - apply (@live_member_sound toy_hasher sample_proof sample_map 0 (sample_member 0) sample_verified);
      [vm_compute; reflexivity|done].
  - apply (@live_member_sound toy_hasher sample_proof sample_map 1 (sample_member 1) sample_verified);
      [vm_compute; reflexivity|done].
Defined.

Lemma member_sound_witness : default EMPTY_HASH (sample_map !! fill kC) = EMPTY_HASH.
Proof.
  apply (@member_sound toy_hasher sample_proof sample_map 1 (sample_member 1) sample_verified);
    vm_compute; reflexivity.
Defined.

Lemma compute_roots_sound_witness :
  Roots.compute_roots (H := toy_hasher) sample_proof (fun _ => fill Byte.x07)
  = Ok (root_of (H := toy_hasher) sample_map,
        root_of (H := toy_hasher) (apply_commitments sample_map (writes sample_proof (fun _ => fill Byte.x07)))).
Proof.
  apply (@compute_roots_sound toy_hasher sample_proof sample_map (fun _ => fill Byte.x07) sample_verified);
    vm_compute; reflexivity.
Defined.

Lemma absence_forgeable_witness :
  exists mem, Proof.members (forged_proof (H := toy_hasher) (fill kA) (fill Byte.x01)) = Ok [mem] /\
    Member.value_hash mem = EMPTY_HASH.
Proof.
  destruct (@absence_forgeable toy_hasher (fill kA) (fill Byte.x01)) as (_ & _ & mem & Hm & _ & _ & Hv);
    [done|]. by exists mem.
Defined.
