(* ===== verification/SmtBuild.v ===== *)
(** * SmtBuild: the proof builder of [core/smt/src/proving]

    [Topology], [ProofBuilder] and [Tree::prove]. The builder walks the stored tree top-down for
    the sorted queried keys; its output is related to the proof tree of SmtSound. *)

From S2P Require Import Prelude Codec Types SmtNode SmtTrie SmtUpdate SmtTree SmtProof SmtSound SmtRoots.

(** ** topology.rs *)
Module Topology.
Record t := { bits : bytes; len : nat }.

Definition empty : t := {| bits := []; len := 0 |}.

Definition push (tp : t) (b : bool) : t :=
  let bs := if len tp mod 8 =? 0 then bits tp ++ [Byte.x00] else bits tp in
  {| bits := if b then Bits.set_lsb bs (len tp) else bs; len := S (len tp) |}.
End Topology.

(** ** proof_builder.rs *)
Module ProofBuilder.

(** [as u32]. *)
Definition as_u32 (n : nat) : Z := Z.of_nat n `mod` 2 ^ 32.

Record t := {
  keys : list (array 32);
  key_to_idx : gmap (array 32) Z;
  leaves : list Leaf.t;
  siblings : list HashedNode.t;
  topology : Topology.t;
  sorted_to_leaf : list Z
}.

Definition push_topology (b : bool) (st : t) : t :=
  {| keys := keys st; key_to_idx := key_to_idx st; leaves := leaves st; siblings := siblings st;
     topology := Topology.push (topology st) b; sorted_to_leaf := sorted_to_leaf st |}.

Definition push_sibling (s : HashedNode.t) (st : t) : t :=
  {| keys := keys st; key_to_idx := key_to_idx st; leaves := leaves st;
     siblings := siblings st ++ [s]; topology := topology st; sorted_to_leaf := sorted_to_leaf st |}.

(** Seeds the keys table and its index from the caller's input. *)
Definition new (keys_input : list (array 32)) : t :=
  {| keys := keys_input;
     key_to_idx := foldl (fun m '(i, k) => <[k := as_u32 i]> m) ∅ (imap pair keys_input);
     leaves := []; siblings := []; topology := Topology.empty;
     sorted_to_leaf := replicate (length keys_input) 0%Z |}.

Definition intern_key (key : array 32) (st : t) : Z * t :=
  match key_to_idx st !! key with
  | Some idx => (idx, st)
  | None =>
      let idx := as_u32 (length (keys st)) in
      (idx, {| keys := keys st ++ [key]; key_to_idx := <[key := idx]> (key_to_idx st);
               leaves := leaves st; siblings := siblings st; topology := topology st;
               sorted_to_leaf := sorted_to_leaf st |})
  end.

(** Writes [x] to the slots [offset .. offset + n]; slicing out of range panics. *)
Definition fill_slots (x : Z) (offset n : nat) (l : list Z) : Result (list Z) :=
  _ ← assert (offset + n <=? length l);
  Ok (take offset l ++ replicate n x ++ drop (offset + n) l).

Definition emit_leaf (key value_hash : array 32) (depth offset n : nat) (st : t) : Result t :=
  let '(key_idx, st) := intern_key key st in
  let leaf_pos := as_u32 (length (leaves st)) in
  slots ← fill_slots leaf_pos offset n (sorted_to_leaf st);
  Ok {| keys := keys st; key_to_idx := key_to_idx st;
        leaves := leaves st ++ [{| Leaf.depth := le_split 2 (Z.of_nat depth);
                                   Leaf.key_idx := le_split 4 key_idx;
                                   Leaf.value_hash := value_hash |}];
        siblings := siblings st; topology := topology st; sorted_to_leaf := slots |}.

(** The source recurses while two keys agree on the current bit; distinct keys part by the last
    level. *)
Fixpoint collect_empty (fuel : nat) (input_keys : list ResourceId) (level offset : nat) (st : t)
    : Result t :=
  match fuel with
  | O => Panic
  | S fuel =>
      match input_keys with
      | [k] => emit_leaf k EMPTY_HASH level offset 1 st
      | _ =>
          let mid := partition_point (fun k => negb (bit k level)) input_keys in
          if (0 <? mid) && (mid <? length input_keys) then
            st ← collect_empty fuel (take mid input_keys) (S level) offset (push_topology true st);
            collect_empty fuel (drop mid input_keys) (S level) (offset + mid) st
          else
            collect_empty fuel input_keys (S level) offset
              (push_sibling HashedNode.empty (push_topology false st))
      end
  end.

Section collect.
Context (node : Key.t -> option (Z * Node.t)).

Definition child_summary (k : Key.t) : HashedNode.t :=
  from_option (fun '(_, d) => Node.summary d) HashedNode.empty (node k).

Section recursive.
Context (collect : Key.t -> list ResourceId -> nat -> t -> Result t).

Definition collect_internal (k : Key.t) (input_keys : list ResourceId) (offset : nat) (st : t)
    : Result t :=
  let mid := partition_point (fun k' => negb (bit k' (Key.level k))) input_keys in
  let left_keys := take mid input_keys in
  let right_keys := drop mid input_keys in
  let left_child := Key.left_child k in
  let right_child := Key.right_child k in
  match left_keys, right_keys with
  | _ :: _, _ :: _ =>
      st ← collect left_child left_keys offset (push_topology true st);
      collect right_child right_keys (offset + mid) st
  | [], _ :: _ =>
      collect right_child right_keys offset
        (push_sibling (child_summary left_child) (push_topology false st))
  | _ :: _, [] =>
      collect left_child left_keys offset
        (push_sibling (child_summary right_child) (push_topology false st))
  | [], [] => Panic
  end.
End recursive.

Fixpoint collect (fuel : nat) (k : Key.t) (input_keys : list ResourceId) (offset : nat) (st : t)
    : Result t :=
  match fuel with
  | O => Panic
  | S fuel =>
      match input_keys with
      | [] => Ok st
      | _ =>
          match node k with
          | None | Some (_, Node.Empty) =>
              collect_empty (S DEPTH - Key.level k) input_keys (Key.level k) offset st
          | Some (_, Node.Leaf leaf_key value_hash _) =>
              emit_leaf leaf_key value_hash (Key.level k) offset (length input_keys) st
          | Some (_, Node.Internal _) => collect_internal (collect fuel) k input_keys offset st
          end
      end
  end.

(** Inverts [sort_order]: the slot of each sorted position answers the input position. *)
Fixpoint classify (st : t) (sorted_pos : nat) (sort_order : list nat)
    (memberships : list Membership.t) : Result (list Membership.t) :=
  match sort_order with
  | [] => Ok memberships
  | idx :: rest =>
      leaf_pos ← expect (sorted_to_leaf st !! sorted_pos);
      lf ← expect (leaves st !! Z.to_nat leaf_pos);
      _ ← assert (idx <? length memberships);
      let m := if (getu (Leaf.key_idx lf) =? as_u32 idx)%Z
               then Membership.Present (le_split 4 leaf_pos)
               else Membership.Absent (le_split 4 leaf_pos) in
      classify st (S sorted_pos) rest (<[idx := m]> memberships)
  end.

Definition classify_memberships (st : t) (sort_order : list nat) : Result (list Membership.t) :=
  classify st 0 sort_order (replicate (length sort_order) (Membership.Absent (le_split 4 0))).

Definition build_proof (keys_input : list ResourceId) : Result Proof.t :=
  '(sorted_keys, sort_order) ← SortUnique.sort_unique key_leb keys_input;
  st ← collect (S DEPTH) Key.ROOT sorted_keys 0 (new keys_input);
  memberships ← classify_memberships st sort_order;
  Ok {| Proof.keys := keys st; Proof.leaves := leaves st; Proof.siblings := siblings st;
        Proof.topology := Topology.bits (topology st); Proof.memberships := memberships |}.

Definition build (keys_input : list ResourceId) : Result bytes :=
  Proof.encode <$> build_proof keys_input.
End collect.
End ProofBuilder.

(** [Tree::prove]. *)
Definition prove {St} `{NodeStore St} (s : St) (keys : list ResourceId) (version : Z) : Result bytes :=
  ProofBuilder.build (fun k => tree_node s k version) keys.

(** ** The proof tree the builder emits *)

Inductive gtree :=
| GLeaf (k v : array 32) (depth slots : nat)
| GSplit (l r : gtree)
| GSib (goes_left : bool) (sib : HashedNode.t) (c : gtree).

Record gleaf := { gl_key : array 32; gl_value : array 32; gl_depth : nat; gl_slots : nat }.

(** Leaves in order, topology bits and siblings in pre-order. *)
Fixpoint gleaves (g : gtree) : list gleaf :=
  match g with
  | GLeaf k v d n => [{| gl_key := k; gl_value := v; gl_depth := d; gl_slots := n |}]
  | GSplit l r => gleaves l ++ gleaves r
  | GSib _ _ c => gleaves c
  end.

Fixpoint gtopo (g : gtree) : list bool :=
  match g with
  | GLeaf _ _ _ _ => []
  | GSplit l r => true :: gtopo l ++ gtopo r
  | GSib _ _ c => false :: gtopo c
  end.

Fixpoint gsibs (g : gtree) : list HashedNode.t :=
  match g with
  | GLeaf _ _ _ _ => []
  | GSplit l r => gsibs l ++ gsibs r
  | GSib _ sib c => sib :: gsibs c
  end.

(** The proof tree, with leaves numbered from [i]. *)
Fixpoint rtree_of (i : nat) (g : gtree) : rtree :=
  match g with
  | GLeaf k v _ _ => RLeaf i k v
  | GSplit l r => RSplit (rtree_of i l) (rtree_of (i + length (gleaves l)) r)
  | GSib b sib c => RSib b sib (rtree_of i c)
  end.

(** Well-placed trees: leaves carry their level and lie under their prefix. *)
Fixpoint gplaced (p : list bool) (g : gtree) : Prop :=
  match g with
  | GLeaf k _ d _ => d = length p /\ has_prefix k p /\ length p <= DEPTH
  | GSplit l r => length p < DEPTH /\ gplaced (p ++ [false]) l /\ gplaced (p ++ [true]) r
  | GSib b _ c => length p < DEPTH /\ gplaced (p ++ [negb b]) c
  end.

Lemma gleaves_nonempty g : 0 < length (gleaves g).
Proof. induction g; cbn; rewrite ?length_app; lia. Qed.

Lemma gplaced_leaf g : forall p x, gplaced p g -> x ∈ gleaves g ->
  length p <= gl_depth x <= DEPTH /\ has_prefix (gl_key x) p.
Proof.
  induction g as [k v d n|l IHl r IHr|b sib c IHc]; intros p x Hp Hx; cbn [gleaves gplaced] in *.
  - apply list_elem_of_singleton in Hx as ->. cbn. destruct Hp as (-> & ? & ?). split; [lia|done].
  - destruct Hp as (Hlt & Hl & Hr). apply elem_of_app in Hx as [Hx|Hx].
    + apply (IHl _ _ Hl) in Hx as [Hd Hk]. rewrite length_snoc in Hd.
      apply has_prefix_snoc in Hk as [? _]. split; [lia|done].
    + apply (IHr _ _ Hr) in Hx as [Hd Hk]. rewrite length_snoc in Hd.
      apply has_prefix_snoc in Hk as [? _]. split; [lia|done].
  - destruct Hp as (Hlt & Hc). apply (IHc _ _ Hc) in Hx as [Hd Hk]. rewrite length_snoc in Hd.
    apply has_prefix_snoc in Hk as [? _]. split; [lia|done].
Qed.

Lemma gplaced_routed g : forall p i, gplaced p g -> routed p (rtree_of i g) = true.
Proof.
  induction g as [k v d n|l IHl r IHr|b sib c IHc]; intros p i Hp; cbn [gplaced rtree_of routed] in *.
  - apply prefix_eq_spec. tauto.
  - destruct Hp as (Hlt & Hl & Hr). rewrite IHl, IHr by done. by rewrite (proj2 (Nat.ltb_lt _ _)).
  - destruct Hp as (Hlt & Hc). rewrite IHc by done. by rewrite (proj2 (Nat.ltb_lt _ _)).
Qed.

(** *** Reading the tree back *)

(** The proof holds the linearised tree from the cursor and the leaf index on. *)
Record holds (proof : Proof.t) (start : nat) (c : Traversal.cursor) (g : gtree) : Prop := {
  holds_topo i b : gtopo g !! i = Some b ->
    Bits.get_lsb (Proof.topology proof) (Traversal.topo_bit c + i) = b;
  holds_sibs i s : gsibs g !! i = Some s ->
    Proof.siblings proof !! (Traversal.sibling_idx c + i) = Some s;
  holds_leaves i x : gleaves g !! i = Some x ->
    exists lf, Proof.leaves proof !! (start + i) = Some lf /\
      indexu (Leaf.depth lf) = gl_depth x /\ Leaf.value_hash lf = gl_value x /\
      Proof.keys proof !! indexu (Leaf.key_idx lf) = Some (gl_key x)
}.

Definition advance (c : Traversal.cursor) (g : gtree) : Traversal.cursor :=
  {| Traversal.sibling_idx := Traversal.sibling_idx c + length (gsibs g);
     Traversal.topo_bit := Traversal.topo_bit c + length (gtopo g) |}.

Lemma holds_length proof start c g :
  holds proof start c g -> start + length (gleaves g) <= length (Proof.leaves proof).
Proof.
  intros Hh. pose proof (gleaves_nonempty g) as Hn.
  destruct (lookup_lt_is_Some_2 (gleaves g) (length (gleaves g) - 1) ltac:(lia)) as [x Hx].
  destruct (holds_leaves _ _ _ _ Hh _ _ Hx) as (lf & Hlf & _). apply lookup_lt_Some in Hlf. lia.
Qed.

Lemma holds_split proof start c l r :
  holds proof start c (GSplit l r) ->
  let c1 := {| Traversal.sibling_idx := Traversal.sibling_idx c;
               Traversal.topo_bit := S (Traversal.topo_bit c) |} in
  Bits.get_lsb (Proof.topology proof) (Traversal.topo_bit c) = true /\
  holds proof start c1 l /\ holds proof (start + length (gleaves l)) (advance c1 l) r.
Proof.
  intros [Ht Hs Hl]. cbn [gtopo gsibs gleaves] in *. cbv zeta. split; [|split; split].
  - rewrite <- (Ht 0 true eq_refl). f_equal. lia.
  - intros i b Hi. rewrite <- (Ht (S i) b); [f_equal; cbn; lia|]. cbn. by apply lookup_app_l_Some.
  - intros i s Hi. apply Hs. by apply lookup_app_l_Some.
  - intros i x Hi. apply Hl. by apply lookup_app_l_Some.
  - intros i b Hi. rewrite <- (Ht (S (length (gtopo l) + i)) b); [f_equal; cbn; lia|].
    change ((gtopo l ++ gtopo r) !! (length (gtopo l) + i) = Some b). rewrite lookup_app_r by lia. by replace (length (gtopo l) + i - length (gtopo l)) with i by lia.
  - intros i s Hi. cbn. rewrite <- Nat.add_assoc. apply Hs. rewrite lookup_app_r by lia.
    by replace (length (gsibs l) + i - length (gsibs l)) with i by lia.
  - intros i x Hi. rewrite <- Nat.add_assoc. apply Hl. rewrite lookup_app_r by lia.
    by replace (length (gleaves l) + i - length (gleaves l)) with i by lia.
Qed.

Lemma holds_sib proof start c b sib ch :
  holds proof start c (GSib b sib ch) ->
  let c1 := {| Traversal.sibling_idx := S (Traversal.sibling_idx c);
               Traversal.topo_bit := S (Traversal.topo_bit c) |} in
  Bits.get_lsb (Proof.topology proof) (Traversal.topo_bit c) = false /\
  Proof.siblings proof !! Traversal.sibling_idx c = Some sib /\
  holds proof start c1 ch.
Proof.
  intros [Ht Hs Hl]. cbn [gtopo gsibs gleaves] in *. cbv zeta. split; [|split; [|split]].
  - rewrite <- (Ht 0 false eq_refl). f_equal. lia.
  - rewrite <- (Hs 0 sib eq_refl). f_equal. lia.
  - intros i x Hi. rewrite <- (Ht (S i) x Hi). f_equal. cbn. lia.
  - intros i x Hi. rewrite <- (Hs (S i) x Hi). f_equal. cbn. lia.
  - done.
Qed.

(** The leaf range of a placed tree is not terminal above its own leaf. *)
Lemma not_terminal {A} proof (f : nat -> Result A) e start c g p :
  holds proof start c g -> gplaced p g -> (forall k v d n, g <> GLeaf k v d n) ->
  Traversal.terminal_value proof f start (start + length (gleaves g)) (length p) e = Ok None.
Proof.
  intros Hh Hg Hne. pose proof (gleaves_nonempty g) as Hn.
  assert (length p < DEPTH) as Hlt by (destruct g; [by destruct (Hne k v depth slots)|apply Hg..]).
  unfold Traversal.terminal_value, Traversal.at_shortcut_depth.
  rewrite (proj2 (Nat.eqb_neq _ _)) by lia. replace (start + length (gleaves g) - start) with (length (gleaves g)) by lia.
  destruct (Nat.eqb_spec (length (gleaves g)) 1) as [H1|H1]; cbn [negb].
  - destruct (lookup_lt_is_Some_2 (gleaves g) 0 ltac:(lia)) as [x Hx].
    destruct (holds_leaves _ _ _ _ Hh _ _ Hx) as (lf & Hlf & Hd & _). rewrite Nat.add_0_r in Hlf.
    rewrite Hlf. cbn [expect mbind outcome_bind]. cbv zeta. rewrite Hd.
    assert (length p < gl_depth x) as Hdeep.
    { destruct g as [k v d n|l r|b sib ch]; [by destruct (Hne k v d n)|..].
      - cbn in H1. rewrite length_app in H1.
        pose proof (gleaves_nonempty l). pose proof (gleaves_nonempty r). lia.
      - destruct Hg as [_ Hg]. apply list_elem_of_lookup_2 in Hx.
        apply (gplaced_leaf ch _ x Hg) in Hx as [Hx _]. rewrite length_snoc in Hx. lia. }
    rewrite (proj2 (Nat.ltb_ge _ _)) by lia. cbn [mbind outcome_bind].
    rewrite (proj2 (Nat.eqb_neq _ _)) by lia. by rewrite (proj2 (Nat.leb_gt _ _)).
  - cbn [mbind outcome_bind]. by rewrite (proj2 (Nat.leb_gt _ _)).
Qed.

Lemma holds_goes_left proof start c g (p : list bool) i x :
  holds proof start c g -> gleaves g !! i = Some x ->
  exists lf, Proof.leaves proof !! (start + i) = Some lf /\
    Traversal.key_goes_left proof (length p) lf = Ok (negb (bit (gl_key x) (length p))).
Proof.
  intros Hh Hx. destruct (holds_leaves _ _ _ _ Hh _ _ Hx) as (lf & Hlf & _ & _ & Hk).
  exists lf. split; [done|]. unfold Traversal.key_goes_left. by rewrite Hk.
Qed.

(** The partition point of a split is the border between the two children's leaves. *)
Lemma holds_split_point proof start c l r p :
  holds proof start c (GSplit l r) -> gplaced p (GSplit l r) ->
  Traversal.split_point proof start (start + length (gleaves (GSplit l r))) (length p)
  = Ok (start + length (gleaves l)).
Proof.
  intros Hh (Hlt & Hgl & Hgr). unfold Traversal.split_point.
  pose proof (holds_length _ _ _ _ Hh) as Hlen. set (n := length (gleaves (GSplit l r))) in *.
  unfold assert. rewrite (proj2 (Nat.leb_le _ _)), (proj2 (Nat.leb_le _ _)) by lia.
  cbn [andb mbind outcome_bind]. replace (start + n - start) with n by lia.
  set (ls := take n (drop start (Proof.leaves proof))).
  assert (forall i lf, ls !! i = Some lf -> exists x, gleaves (GSplit l r) !! i = Some x /\
    Traversal.key_goes_left proof (length p) lf = Ok (negb (bit (gl_key x) (length p)))) as Hls.
  { intros i lf Hi. apply lookup_take_Some in Hi as [Hi Hin]. rewrite lookup_drop in Hi.
    destruct (lookup_lt_is_Some_2 (gleaves (GSplit l r)) i ltac:(done)) as [x Hx].
    exists x. split; [done|]. destruct (holds_goes_left _ _ _ _ p _ _ Hh Hx) as (lf' & Hlf & Hgo).
    rewrite Hi in Hlf. by injection Hlf as <-. }
  set (q := fun lf => match Traversal.key_goes_left proof (length p) lf with Ok b => b | _ => false end).
  rewrite (partition_point_m_total _ q).
  2:{ intros lf Hin. apply list_elem_of_lookup_1 in Hin as [i Hi].
      destruct (Hls i lf Hi) as (x & _ & Hx). unfold q. by rewrite Hx. }
  cbn [mbind outcome_bind]. do 2 f_equal.
  assert (length ls = n) as Hn by (unfold ls; rewrite length_take, length_drop; lia).
  rewrite <- (take_drop (length (gleaves l)) ls). unfold n in Hn. cbn [gleaves] in Hn, Hls.
  rewrite length_app in Hn. rewrite partition_point_app; [rewrite length_take; lia|..].
  - apply Forall_lookup. intros i lf Hi. apply lookup_take_Some in Hi as [Hi Hil].
    destruct (Hls i lf Hi) as (x & Hx & Hgo). unfold q. rewrite Hgo.
    rewrite lookup_app_l in Hx by done. apply list_elem_of_lookup_2 in Hx.
    apply (gplaced_leaf l _ _ Hgl) in Hx as [_ Hk]. apply has_prefix_snoc in Hk as [_ ->]. done.
  - apply Forall_lookup. intros i lf Hi. rewrite lookup_drop in Hi.
    destruct (Hls _ lf Hi) as (x & Hx & Hgo). unfold q. rewrite Hgo.
    rewrite lookup_app_r in Hx by lia. apply list_elem_of_lookup_2 in Hx.
    apply (gplaced_leaf r _ _ Hgr) in Hx as [_ Hk]. apply has_prefix_snoc in Hk as [_ ->]. done.
Qed.

(** Planning over a proof that holds a placed tree yields the tree. *)
Lemma plan_holds proof fuel : forall g p start c,
  length p + fuel = S DEPTH -> holds proof start c g -> gplaced p g ->
  plan proof fuel start (start + length (gleaves g)) (length p) c
  = Ok (rtree_of start g, advance c g).
Proof.
  induction fuel as [|fuel IH]; intros g p start c Hf Hh Hg.
  { destruct g; cbn in Hg; destruct Hg; lia. }
  cbn [plan]. destruct g as [k v d n|l r|b sib ch].
  - destruct Hg as (-> & Hk & Hd).
    destruct (holds_leaves _ _ _ _ Hh 0 _ eq_refl) as (lf & Hlf & Hdep & Hval & Hkey).
    rewrite Nat.add_0_r in Hlf. cbn [gl_depth gl_value gl_key gleaves length] in *.
    unfold Traversal.terminal_value, Traversal.at_shortcut_depth.
    rewrite (proj2 (Nat.eqb_neq _ _)) by lia. replace (start + 1 - start) with 1 by lia. cbn [Nat.eqb negb].
    rewrite Hlf. cbn [expect mbind outcome_bind]. cbv zeta. rewrite Hdep, Nat.ltb_irrefl, Nat.eqb_refl.
    cbn [mbind outcome_bind]. unfold resolve, Proof.leaf, Proof.leaf_key, Proof.key. rewrite Hlf.
    cbn [ok_or mbind outcome_bind]. rewrite Hkey, Hval. cbn. unfold advance. cbn.
    rewrite !Nat.add_0_r. by destruct c.
  - rewrite (not_terminal _ _ _ _ _ _ _ Hh Hg) by done. cbn [mbind outcome_bind].
    destruct (holds_split _ _ _ _ _ Hh) as (Hbit & Hhl & Hhr).
    unfold Traversal.next_topology_bit. rewrite Hbit.
    rewrite (holds_split_point _ _ _ _ _ _ Hh Hg). cbn [mbind outcome_bind].
    destruct Hg as (Hlt & Hgl & Hgr).
    replace (S (length p)) with (length (p ++ [false])) at 1 by apply length_snoc.
    rewrite (IH l (p ++ [false]) _ _ ltac:(rewrite length_snoc; lia) Hhl Hgl). cbn [mbind outcome_bind].
    cbn [gleaves]. rewrite length_app, Nat.add_assoc.
    replace (S (length p)) with (length (p ++ [true])) by apply length_snoc.
    rewrite (IH r (p ++ [true]) _ _ ltac:(rewrite length_snoc; lia) Hhr Hgr). cbn [mbind outcome_bind].
    unfold advance. cbn. rewrite !length_app. do 3 f_equal; lia.
  - rewrite (not_terminal _ _ _ _ _ _ _ Hh Hg) by done. cbn [mbind outcome_bind].
    destruct (holds_sib _ _ _ _ _ _ Hh) as (Hbit & Hsib & Hhc).
    unfold Traversal.next_topology_bit. rewrite Hbit.
    destruct Hg as (Hlt & Hgc). pose proof (gleaves_nonempty ch) as Hn.
    assert (Traversal.leaf_goes_left proof start (length p) = Ok b) as ->.
    { destruct (lookup_lt_is_Some_2 (gleaves ch) 0 Hn) as [x Hx].
      destruct (holds_goes_left _ _ _ _ p _ _ Hhc Hx) as (lf & Hlf & Hgo). rewrite Nat.add_0_r in Hlf.
      unfold Traversal.leaf_goes_left. rewrite Hlf. cbn [expect mbind outcome_bind]. rewrite Hgo.
      apply list_elem_of_lookup_2, (gplaced_leaf ch _ _ Hgc) in Hx as [_ Hk].
      apply has_prefix_snoc in Hk as [_ ->]. by rewrite negb_involutive. }
    cbn [mbind outcome_bind]. unfold Traversal.next_sibling. cbn [Traversal.sibling_idx Traversal.topo_bit].
    rewrite Hsib. cbn [ok_or mbind outcome_bind gleaves].
    replace (S (length p)) with (length (p ++ [negb b])) by apply length_snoc.
    rewrite (IH ch (p ++ [negb b]) _ _ ltac:(rewrite length_snoc; lia) Hhc Hgc). cbn [mbind outcome_bind].
    unfold advance. cbn. do 3 f_equal; lia.
Qed.

(** ** What the builder emits *)

Import ProofBuilder.

Definition push_all (g : gtree) (st : t) : t :=
  {| keys := keys st; key_to_idx := key_to_idx st; leaves := leaves st;
     siblings := siblings st ++ gsibs g; topology := foldl Topology.push (topology st) (gtopo g);
     sorted_to_leaf := sorted_to_leaf st |}.

Fixpoint emit_leaves (ls : list gleaf) (offset : nat) (st : t) : Result t :=
  match ls with
  | [] => Ok st
  | x :: ls =>
      st ← emit_leaf (gl_key x) (gl_value x) (gl_depth x) offset (gl_slots x) st;
      emit_leaves ls (offset + gl_slots x) st
  end.

Definition slots (ls : list gleaf) : nat := sum_list (gl_slots <$> ls).

Lemma slots_app l1 l2 : slots (l1 ++ l2) = slots l1 + slots l2.
Proof. unfold slots. by rewrite fmap_app, sum_list_with_app. Qed.

Lemma emit_leaf_push k v d o n st sibs tps :
  let f st := {| keys := keys st; key_to_idx := key_to_idx st; leaves := leaves st;
                 siblings := siblings st ++ sibs; topology := foldl Topology.push (topology st) tps;
                 sorted_to_leaf := sorted_to_leaf st |} in
  emit_leaf k v d o n (f st) = f <$> emit_leaf k v d o n st.
Proof.
  cbv zeta. unfold emit_leaf, intern_key. cbn [key_to_idx].
  destruct (key_to_idx st !! k); cbn [keys leaves sorted_to_leaf siblings topology key_to_idx];
    by destruct (fill_slots _ _ _ _).
Qed.

Lemma emit_leaves_push ls sibs tps : forall o st,
  let f st := {| keys := keys st; key_to_idx := key_to_idx st; leaves := leaves st;
                 siblings := siblings st ++ sibs; topology := foldl Topology.push (topology st) tps;
                 sorted_to_leaf := sorted_to_leaf st |} in
  emit_leaves ls o (f st) = f <$> emit_leaves ls o st.
Proof.
  induction ls as [|x ls IH]; intros o st; cbv zeta; [done|]. cbn [emit_leaves].
  rewrite (emit_leaf_push _ _ _ _ _ st sibs tps).
  destruct (emit_leaf _ _ _ _ _ st); cbn [fmap outcome_fmap mbind outcome_bind]; [apply IH|done..].
Qed.

Lemma emit_leaves_app l1 : forall l2 o st,
  emit_leaves (l1 ++ l2) o st = emit_leaves l1 o st ≫= emit_leaves l2 (o + slots l1).
Proof.
  induction l1 as [|x l1 IH]; intros l2 o st; cbn [app emit_leaves].
  - unfold slots. cbn. by rewrite Nat.add_0_r.
  - destruct (emit_leaf _ _ _ _ _ st); cbn [mbind outcome_bind]; [|done..]. rewrite IH.
    unfold slots. cbn. by rewrite Nat.add_assoc.
Qed.

(** The emission of a tree's pieces, in the order the builder makes them. *)
Lemma emit_split l r o st st' :
  (forall st, st' st = push_all l <$> emit_leaves (gleaves l) o st) ->
  forall k, (forall st, k st = push_all r <$> emit_leaves (gleaves r) (o + slots (gleaves l)) st) ->
  (st' (push_topology true st) ≫= k)
  = push_all (GSplit l r) <$> emit_leaves (gleaves (GSplit l r)) o st.
Proof.
  intros Hl k Hr. rewrite Hl. cbn [gleaves]. rewrite emit_leaves_app.
  assert (push_topology true st = {| keys := keys st; key_to_idx := key_to_idx st; leaves := leaves st;
    siblings := siblings st ++ []; topology := foldl Topology.push (topology st) [true];
    sorted_to_leaf := sorted_to_leaf st |}) as -> by (unfold push_topology; by rewrite app_nil_r).
  rewrite (emit_leaves_push (gleaves l) [] [true] o st).
  destruct (emit_leaves (gleaves l) o st) as [st1| |]; cbn [fmap outcome_fmap mbind outcome_bind]; [|done..].
  rewrite Hr. unfold push_all at 2. cbn [keys key_to_idx leaves siblings topology sorted_to_leaf].
  rewrite <- app_assoc, <- foldl_app. rewrite (emit_leaves_push (gleaves r) _ _ _ st1).
  destruct (emit_leaves (gleaves r) _ st1) as [st2| |]; cbn [fmap outcome_fmap]; [|done..].
  unfold push_all. cbn [keys key_to_idx leaves siblings topology sorted_to_leaf gsibs gtopo app].
  rewrite <- app_assoc, <- foldl_app. done.
Qed.

Lemma emit_sib b sib c o st st' :
  (forall st, st' st = push_all c <$> emit_leaves (gleaves c) o st) ->
  st' (push_sibling sib (push_topology false st))
  = push_all (GSib b sib c) <$> emit_leaves (gleaves (GSib b sib c)) o st.
Proof.
  intros Hc. rewrite Hc. cbn [gleaves].
  change (push_sibling sib (push_topology false st))
    with {| keys := keys st; key_to_idx := key_to_idx st; leaves := leaves st;
            siblings := siblings st ++ [sib]; topology := foldl Topology.push (topology st) [false];
            sorted_to_leaf := sorted_to_leaf st |}.
  rewrite (emit_leaves_push (gleaves c) [sib] [false] o st).
  destruct (emit_leaves (gleaves c) o st) as [st1| |]; cbn [fmap outcome_fmap]; [|done..].
  unfold push_all. cbn [keys key_to_idx leaves siblings topology sorted_to_leaf gsibs gtopo].
  by rewrite <- app_assoc, <- foldl_app.
Qed.

Lemma emit_one k v d n o st :
  emit_leaf k v d o n st
  = push_all (GLeaf k v d n) <$> emit_leaves (gleaves (GLeaf k v d n)) o st.
Proof.
  cbn. destruct (emit_leaf k v d o n st) as [st1| |]; cbn; [|done..]. unfold push_all. cbn.
  rewrite app_nil_r. by destruct st1.
Qed.

(** The leaves answer the keys slot by slot. *)
Definition covers (ls : list gleaf) (ks : list ResourceId) : Prop :=
  Forall2 (fun x k => has_prefix k (kprefix (gl_key x) (gl_depth x)))
          (ls ≫= fun x => replicate (gl_slots x) x) ks.

Lemma covers_app l1 l2 k1 k2 : covers l1 k1 -> covers l2 k2 -> covers (l1 ++ l2) (k1 ++ k2).
Proof. unfold covers. rewrite bind_app. apply Forall2_app. Qed.

Lemma covers_slots ls ks : covers ls ks -> slots ls = length ks.
Proof.
  intros Hc. apply Forall2_length in Hc. rewrite <- Hc. clear. unfold slots.
  induction ls as [|x ls IH]; [done|]. rewrite bind_cons, length_app, length_replicate. cbn. lia.
Qed.

Lemma covers_one k v d n ks :
  length ks = n -> (forall k', k' ∈ ks -> has_prefix k' (kprefix k d)) ->
  covers (gleaves (GLeaf k v d n)) ks.
Proof.
  intros <- Hk. unfold covers. cbn. rewrite app_nil_r.
  enough (forall x, gl_key x = k -> gl_depth x = d -> Forall2 (fun x k' =>
    has_prefix k' (kprefix (gl_key x) (gl_depth x))) (replicate (length ks) x) ks) as Hx by (by apply Hx).
  intros x Hkx Hdx. induction ks as [|k' ks IH]; cbn; [constructor|].
  constructor; [rewrite Hkx, Hdx; apply Hk; by left|]. apply IH. intros; apply Hk; by right.
Qed.

(** Keys of a subtree: ascending, under its prefix. *)
Definition keys_at (p : list bool) (ks : list ResourceId) : Prop :=
  StronglySorted (fun a b => key_ltb a b = true) ks /\ forall k, k ∈ ks -> has_prefix k p.

Lemma keys_split p ks :
  length p < DEPTH -> keys_at p ks ->
  exists ks1 ks2, ks = ks1 ++ ks2 /\
    partition_point (fun k => negb (bit k (length p))) ks = length ks1 /\
    keys_at (p ++ [false]) ks1 /\ keys_at (p ++ [true]) ks2.
Proof.
  intros Hp [Hs Hpre].
  destruct (monotone_partition _ (fun k => bit k (length p)) ks Hs) as (ks1 & ks2 & -> & H1 & H2).
  { intros a b Ha Hb Hab. apply bit_monotone; [done| |by apply key_ltb_leb in Hab as [? _]].
    apply has_prefix_agree; auto. }
  exists ks1, ks2. apply StronglySorted_app_inv in Hs as (Hs1 & Hs2 & _).
  split; [done|]. split.
  { apply partition_point_app; (eapply Forall_impl; [eassumption|]); cbn; by intros c ->. }
  rewrite Forall_forall in H1, H2.
  split; (split; [done|]); intros k Hk; apply has_prefix_snoc; (split; [apply Hpre; set_solver|auto]).
Qed.

Section emits.
Context `{Hasher}.

(** A leaf answers at least one slot, and states the entries [L] of its region. *)
Definition truthful (L : ResourceId -> option (array 32)) (x : gleaf) : Prop :=
  1 <= gl_slots x /\ forall k', has_prefix k' (kprefix (gl_key x) (gl_depth x)) ->
    L k' = tlookup 0 (leaf_trie (gl_key x) (gl_value x)) k'.

(** The builder step [run] emits a placed, pinned tree with the summary [h] and the entries [L]
    that answers [ks]. *)
Definition emits (p : list bool) (h : HashedNode.t) (L : ResourceId -> option (array 32))
    (ks : list ResourceId) (o : nat) (run : t -> Result t) : Prop :=
  exists g, gplaced p g /\ (forall i, reval (rtree_of i g) = h /\ pinned (rtree_of i g) = true) /\
    covers (gleaves g) ks /\ Forall (truthful L) (gleaves g) /\
    forall st, run st = push_all g <$> emit_leaves (gleaves g) o st.

(** Only the entries under the prefix matter. *)
Lemma truthful_ext p g (L L' : ResourceId -> option (array 32)) :
  gplaced p g -> (forall k, has_prefix k p -> L k = L' k) ->
  Forall (truthful L) (gleaves g) -> Forall (truthful L') (gleaves g).
Proof.
  intros Hg HL Hf. rewrite Forall_forall in *. intros x Hx. destruct (Hf x Hx) as [Hs Ht].
  split; [done|]. intros k' Hk'. rewrite <- Ht by done. symmetry. apply HL.
  destruct (gplaced_leaf g p x Hg Hx) as [Hd Hk]. eapply has_prefix_of_agree; [exact Hk|].
  intros i Hi. symmetry. rewrite has_prefix_kprefix in Hk'. apply Hk'. lia.
Qed.

Lemma emits_leaf p k v ks o :
  has_prefix k p -> length p <= DEPTH -> (forall k', k' ∈ ks -> has_prefix k' p) -> ks <> [] ->
  emits p (HashedNode.leaf k v) (tlookup (length p) (leaf_trie k v)) ks o
    (emit_leaf k v (length p) o (length ks)).
Proof.
  intros Hk Hp Hks Hne. exists (GLeaf k v (length p) (length ks)). split; [done|]. split; [done|].
  split; [|split; [|intros st; apply emit_one]].
  - apply covers_one; [done|]. intros k' Hk'. rewrite kprefix_self by done. by apply Hks.
  - constructor; [|done]. split; [destruct ks; cbn; [done|lia]|]. intros k' _. cbn.
    by rewrite !tlookup_leaf_trie.
Qed.

Lemma emits_split p hl hr L Ll Lr ks1 ks2 o (runl runr : t -> Result t) :
  length p < DEPTH ->
  emits (p ++ [false]) hl Ll ks1 o runl -> emits (p ++ [true]) hr Lr ks2 (o + length ks1) runr ->
  (forall k, has_prefix k (p ++ [false]) -> Ll k = L k) ->
  (forall k, has_prefix k (p ++ [true]) -> Lr k = L k) ->
  emits p (HashedNode.combine hl hr) L (ks1 ++ ks2) o
    (fun st => st ← runl (push_topology true st); runr st).
Proof.
  intros Hp (gl & Hpl & Hel & Hcl & Htl & Hrl) (gr & Hpr & Her & Hcr & Htr & Hrr) HLl HLr.
  exists (GSplit gl gr). split; [done|]. split; [|split; [|split]].
  - intros i. cbn [rtree_of reval pinned]. destruct (Hel i) as [-> ->].
    by destruct (Her (i + length (gleaves gl))) as [-> ->].
  - by apply covers_app.
  - apply Forall_app. split; by eapply truthful_ext.
  - intros st. apply (emit_split gl gr o st runl Hrl). by rewrite (covers_slots _ _ Hcl).
Qed.

Lemma emits_sib p b sib h L Lc ks o (run : t -> Result t) :
  length p < DEPTH -> emits (p ++ [negb b]) h Lc ks o run ->
  (forall k, has_prefix k (p ++ [negb b]) -> Lc k = L k) ->
  (HashedNode.kind sib = EMPTY -> sib = HashedNode.empty) ->
  ~ (HashedNode.kind h = EMPTY /\ HashedNode.kind sib = LEAF) ->
  emits p (Traversal.combine_with_sibling h sib b) L ks o
    (fun st => run (push_sibling sib (push_topology false st))).
Proof.
  intros Hp (g & Hpl & He & Hc & Ht & Hr) HL Hemp Hno. exists (GSib b sib g).
  split; [done|]. split; [|split; [|split]].
  - intros i. cbn [rtree_of reval pinned]. destruct (He i) as [-> ->]. split; [done|]. cbn [andb].
    apply andb_true_iff. split.
    + destruct (bool_decide_reflect (HashedNode.kind sib = EMPTY)) as [E|]; [|done]. cbn.
      by apply bool_decide_eq_true, Hemp.
    + apply negb_true_iff, andb_false_iff. rewrite !bool_decide_eq_false. tauto || (destruct (decide (HashedNode.kind h = EMPTY)); tauto).
  - done.
  - cbn [gleaves]. by apply (truthful_ext _ g Lc L Hpl HL).
  - intros st. by apply emit_sib.
Qed.

Lemma collect_empty_emits fuel : forall p ks o,
  length p + fuel = S DEPTH -> length p <= DEPTH -> keys_at p ks -> ks <> [] ->
  emits p HashedNode.empty (fun _ => None) ks o (collect_empty fuel ks (length p) o).
Proof.
  induction fuel as [|fuel IH]; intros p ks o Hf Hp Hks Hne; [lia|].
  cbn [collect_empty]. destruct ks as [|k1 [|k2 ks]]; [done| |].
  - rewrite <- (leaf_empty k1).
    destruct (emits_leaf p k1 EMPTY_HASH [k1] o) as (g & ? & ? & ? & Ht & ?);
      [apply Hks; set_solver|done|apply Hks|done|].
    exists g. split; [done|]. split; [done|]. split; [done|]. split; [|done]. eapply truthful_ext; [done| |exact Ht].
    intros k _. by rewrite tlookup_leaf_trie, decide_True.
  - remember (k1 :: k2 :: ks) as all eqn:Hall.
    assert (length p < DEPTH) as Hlt.
    { destruct (Nat.lt_ge_cases (length p) DEPTH) as [|Hge]; [done|]. exfalso.
      destruct Hks as [Hs Hpre]. subst all. pose proof (Hpre k1 ltac:(set_solver)) as H1.
      pose proof (Hpre k2 ltac:(set_solver)) as H2.
      apply StronglySorted_inv in Hs as [_ Hs]. apply Forall_cons in Hs as [Hs _].
      rewrite (has_prefix_full k1 k2 p Hge H1 H2), key_ltb_irrefl in Hs. done. }
    destruct (keys_split p all Hlt Hks) as (ks1 & ks2 & Eall & Hmid & Hk1 & Hk2). clear Hall.
    rewrite Hmid. subst all. rewrite take_app_length, drop_app_length, length_app.
    destruct (Nat.ltb_spec 0 (length ks1)) as [H1|H1], (Nat.ltb_spec (length ks1) (length ks1 + length ks2)) as [H2|H2];
      cbn [andb].
    + apply (emits_split p HashedNode.empty HashedNode.empty _ (fun _ => None) (fun _ => None)); [done|..|done|done].
      * rewrite <- (length_snoc p false). apply IH; rewrite ?length_snoc; [lia|lia|done|].
        intros ->. cbn in H1. lia.
      * rewrite <- (length_snoc p true). apply IH; rewrite ?length_snoc; [lia|lia|done|].
        intros ->. cbn in H2. lia.
    + assert (ks2 = []) as -> by (apply nil_length_inv; lia). rewrite app_nil_r in *.
      apply (emits_sib p true HashedNode.empty HashedNode.empty _ (fun _ => None)); [done| |done|done|by intros [_ ?]].
      cbn [negb]. rewrite <- (length_snoc p false). apply IH; rewrite ?length_snoc; try lia; done.
    + assert (ks1 = []) as -> by (apply nil_length_inv; lia). cbn [app] in *.
      apply (emits_sib p false HashedNode.empty HashedNode.empty _ (fun _ => None)); [done| |done|done|by intros [_ ?]].
      cbn [negb]. rewrite <- (length_snoc p true). apply IH; rewrite ?length_snoc; try lia; done.
    + assert (ks1 = [] /\ ks2 = []) as [-> ->] by (split; apply nil_length_inv; lia). done.
Qed.

Section collect_emits.
Context (node : Key.t -> option (Z * Node.t)).
Let rd : view := fun k => snd <$> node k.

Lemma child_summary_stored p s :
  wf p s -> stored rd p s -> child_summary node (key_of p) = summary s.
Proof.
  intros Hwf Hst. apply stored_unfold in Hst as [Hat _]. unfold stored_at, rd in Hat. unfold child_summary.
  destruct (node_of s) as [n|] eqn:En.
  - rewrite <- (node_of_summary p s n) by done.
    destruct (node (key_of p)) as [[v n']|]; cbn in *; [|done]. by injection Hat as ->.
  - destruct s; try done. destruct (node (key_of p)) as [[v n']|]; cbn in *; [|done].
    destruct Hat as [|[= ->]]; done.
Qed.

(** A canonical subtree's sibling never needs promoting over an empty child. *)
Lemma summary_pinned p s : wf p s -> HashedNode.kind (summary s) = EMPTY -> summary s = HashedNode.empty.
Proof. intros Hwf. rewrite (summary_kind p s Hwf). by destruct s. Qed.

Lemma collect_emits fuel : forall p s ks o,
  length p + fuel = S DEPTH -> length p <= DEPTH -> wf p s -> stored rd p s ->
  keys_at p ks -> ks <> [] ->
  emits p (summary s) (tlookup (length p) s) ks o (collect node fuel (key_of p) ks o).
Proof.
  induction fuel as [|fuel IH]; intros p s ks o Hf Hp Hwf Hst Hks Hne; [lia|].
  cbn [collect]. destruct ks as [|k0 ks'] eqn:Eks; [done|]. rewrite <- Eks in *. clear Eks k0 ks'.
  rewrite level_key_of.
  pose proof Hst as Hst'. apply stored_unfold in Hst' as [Hat Hbelow]. unfold stored_at in Hat.
  destruct s as [|k v|l r]; cbn [node_of] in Hat.
  - assert (emits p HashedNode.empty (fun _ => None) ks o (collect_empty (S DEPTH - length p) ks (length p) o)) as He.
    { apply collect_empty_emits; [lia|done|done|done]. }
    unfold rd in Hat. destruct (node (key_of p)) as [[v n]|]; cbn in Hat; [|done].
    destruct Hat as [|[= ->]]; done.
  - unfold rd in Hat. destruct (node (key_of p)) as [[w n]|]; cbn in Hat; [|done]. injection Hat as ->.
    destruct Hwf as [Hk Hv]. cbn [Node.leaf summary].
    replace (TLeaf k v) with (leaf_trie k v) by (unfold leaf_trie; by rewrite decide_False).
    apply emits_leaf; [done|done|apply Hks|done].
  - unfold rd in Hat. destruct (node (key_of p)) as [[w n]|]; cbn in Hat; [|done]. injection Hat as ->.
    destruct Hwf as (Hlt & Hl & Hr & Hj). destruct Hbelow as [Hsl Hsr].
    assert (summary (TNode l r) = HashedNode.combine (summary l) (summary r)) as ->.
    { rewrite <- (summary_join p) by done. by rewrite Hj. }
    unfold collect_internal. rewrite level_key_of.
    change (Key.left_child (key_of p)) with (key_step (key_of p) false).
    change (Key.right_child (key_of p)) with (key_step (key_of p) true). rewrite <- !key_of_snoc.
    destruct (keys_split p ks Hlt Hks) as (ks1 & ks2 & -> & Hmid & Hk1 & Hk2).
    rewrite Hmid, take_app_length, drop_app_length.
    rewrite (child_summary_stored _ _ Hl Hsl), (child_summary_stored _ _ Hr Hsr).
    destruct ks1 as [|a ks1], ks2 as [|b ks2]; [done|..].
    + cbn [app]. apply (emits_sib p false (summary l) (summary r) _ (tlookup (length (p ++ [true])) r)); [done| | |by eapply summary_pinned|].
      * cbn [negb]. apply IH; rewrite ?length_snoc; try lia; done.
      * intros k Hk. by rewrite <- (tlookup_child p l r).
      * rewrite (summary_kind _ _ Hl), (summary_kind _ _ Hr). by intros [??]; destruct l, r.
    + rewrite app_nil_r in *. apply (emits_sib p true (summary r) (summary l) _ (tlookup (length (p ++ [false])) l)); [done| | |by eapply summary_pinned|].
      * cbn [negb]. apply IH; rewrite ?length_snoc; try lia; done.
      * intros k Hk. by rewrite <- (tlookup_child p l r).
      * rewrite (summary_kind _ _ Hl), (summary_kind _ _ Hr). by intros [??]; destruct l, r.
    + apply (emits_split p (summary l) (summary r) _ (tlookup (length (p ++ [false])) l)
        (tlookup (length (p ++ [true])) r) (a :: ks1) (b :: ks2)); [done|..].
      * apply IH; rewrite ?length_snoc; try lia; done.
      * apply IH; rewrite ?length_snoc; try lia; done.
      * intros k Hk. by rewrite <- (tlookup_child p l r).
      * intros k Hk. by rewrite <- (tlookup_child p l r).
Qed.
End collect_emits.
End emits.

(** ** The state after emission *)

Lemma get_lsb_snoc_zero l i : Bits.get_lsb (l ++ [Byte.x00]) i = Bits.get_lsb l i.
Proof.
  unfold Bits.get_lsb. destruct (Nat.lt_ge_cases (i / 8) (length l)) as [Hlt|Hge].
  - by rewrite lookup_app_l.
  - rewrite (proj2 (lookup_ge_None l _)) by done. rewrite lookup_app_r by done.
    destruct (i / 8 - length l) as [|m]; cbn; [by rewrite Z.shiftr_0_l|done].
Qed.

(** The bits pushed so far read back in order, and the rest of the bytes is zero. *)
Definition topology_ok (tp : Topology.t) (bs : list bool) : Prop :=
  Topology.len tp = length bs /\
  8 * length (Topology.bits tp) < length bs + 8 <= 8 * length (Topology.bits tp) + 8 /\
  forall i, Bits.get_lsb (Topology.bits tp) i = default false (bs !! i).

Lemma push_ok tp bs b : topology_ok tp bs -> topology_ok (Topology.push tp b) (bs ++ [b]).
Proof.
  intros (Hlen & Hsz & Hget). unfold Topology.push, topology_ok. cbn [Topology.len Topology.bits].
  rewrite Hlen, length_snoc. split; [done|].
  set (bytes := if length bs mod 8 =? 0 then _ else _).
  assert (8 * length bytes < length bs + 9 /\ length bs < 8 * length bytes) as Hb.
  { unfold bytes. pose proof (Nat.div_mod_eq (length bs) 8) as Hdm.
    pose proof (Nat.mod_upper_bound (length bs) 8 ltac:(lia)).
    destruct (Nat.eqb_spec (length bs mod 8) 0); [rewrite length_snoc|]; lia. }
  assert (forall i, Bits.get_lsb bytes i = default false (bs !! i)) as Hg.
  { intros i. unfold bytes. destruct (_ =? 0); [rewrite get_lsb_snoc_zero|]; apply Hget. }
  assert (length (if b then Bits.set_lsb bytes (length bs) else bytes) = length bytes) as ->
    by (destruct b; [apply Bits.length_set_lsb|done]).
  split; [lia|]. intros i. destruct b.
  - rewrite Bits.get_set_lsb, (proj2 (Nat.ltb_lt _ _)) by lia. cbn [andb].
    destruct (Nat.eqb_spec i (length bs)) as [->|Hne].
    + by rewrite list_lookup_middle.
    + cbn [orb]. rewrite Hg. destruct (Nat.lt_ge_cases i (length bs)).
      * by rewrite lookup_app_l.
      * rewrite !(proj2 (lookup_ge_None _ _)); [done|rewrite length_snoc; lia|lia].
  - rewrite Hg. destruct (Nat.lt_trichotomy i (length bs)) as [Hi|[->|Hi]].
    + by rewrite lookup_app_l.
    + rewrite list_lookup_middle by done. by rewrite (proj2 (lookup_ge_None bs _)) by lia.
    + rewrite !(proj2 (lookup_ge_None _ _)); [done|rewrite length_snoc; lia|lia].
Qed.

Lemma push_all_ok bs' : forall tp bs, topology_ok tp bs ->
  topology_ok (foldl Topology.push tp bs') (bs ++ bs').
Proof.
  induction bs' as [|b bs' IH]; intros tp bs Hok; cbn [foldl]; [by rewrite app_nil_r|].
  rewrite (cons_middle b), app_assoc. apply IH. by apply push_ok.
Qed.

(** The keys table has distinct keys and [key_to_idx] is its index. *)
Definition keys_ok (st : t) : Prop :=
  forall k z, key_to_idx st !! k = Some z <->
    exists i, keys st !! i = Some k /\ z = Z.of_nat i.

Lemma keys_ok_inj st i j k : keys_ok st -> keys st !! i = Some k -> keys st !! j = Some k -> i = j.
Proof.
  intros Hok Hi Hj. pose proof (proj2 (Hok k (Z.of_nat i)) ltac:(by exists i)) as H1.
  pose proof (proj2 (Hok k (Z.of_nat j)) ltac:(by exists j)) as H2. rewrite H1 in H2. injection H2. lia.
Qed.

Lemma as_u32_small n : u32 (Z.of_nat n) -> as_u32 n = Z.of_nat n.
Proof. intros Hn. unfold as_u32. by apply Z.mod_small. Qed.

Lemma intern_key_ok k st :
  keys_ok st -> u32 (Z.of_nat (length (keys st))) ->
  let '(idx, st') := intern_key k st in
  keys_ok st' /\ (exists i, idx = Z.of_nat i /\ keys st' !! i = Some k) /\
  keys st `prefix_of` keys st' /\ length (keys st') <= S (length (keys st)) /\
  leaves st' = leaves st /\ siblings st' = siblings st /\ topology st' = topology st /\
  sorted_to_leaf st' = sorted_to_leaf st.
Proof.
  intros Hok Hlen. unfold intern_key. destruct (key_to_idx st !! k) as [idx|] eqn:E.
  - apply Hok in E as (i & Hi & ->). split; [done|]. split; [by exists i|].
    split; [done|]. split; [lia|done].
  - cbn [keys key_to_idx leaves siblings topology sorted_to_leaf]. rewrite as_u32_small by done.
    split; [|split; [exists (length (keys st)); split; [done|]; by rewrite list_lookup_middle|]].
    + intros k' z. cbn [keys key_to_idx]. destruct (decide (k = k')) as [<-|Hne].
      * rewrite lookup_insert_eq. split.
        -- intros [= <-]. exists (length (keys st)). split; [by rewrite list_lookup_middle|done].
        -- intros (i & Hi & ->). apply lookup_app_Some in Hi as [Hi|[Hge Hi]].
           ++ by rewrite (proj2 (Hok k (Z.of_nat i)) ltac:(by exists i)) in E.
           ++ apply list_lookup_singleton_Some in Hi as [Hi _]. do 2 f_equal. lia.
      * rewrite lookup_insert_ne by done. rewrite (Hok k' z). split; intros (i & Hi & ->); exists i.
        -- split; [by apply lookup_app_l_Some|done].
        -- split; [|done]. apply lookup_app_Some in Hi as [Hi|[_ Hi]]; [done|].
           by apply list_lookup_singleton_Some in Hi as [_ Hi].
    + split; [by apply prefix_app_r|]. cbn [keys]. rewrite length_snoc. by split; [lia|].
Qed.

(** A leaf of the proof encodes a leaf of the tree, against the keys table. *)
Definition encodes (ks : list (array 32)) (lf : Leaf.t) (x : gleaf) : Prop :=
  indexu (Leaf.depth lf) = gl_depth x /\ Leaf.value_hash lf = gl_value x /\
  ks !! indexu (Leaf.key_idx lf) = Some (gl_key x).

Lemma encodes_prefix ks ks' lf x : ks `prefix_of` ks' -> encodes ks lf x -> encodes ks' lf x.
Proof.
  intros [ks2 ->] (Hd & Hv & Hk). split; [done|]. split; [done|]. by apply lookup_app_l_Some.
Qed.

(** The slot table after emitting from leaf index [n]: each leaf index repeated. *)
Fixpoint slot_table (n : nat) (ls : list gleaf) : list Z :=
  match ls with
  | [] => []
  | x :: ls => replicate (gl_slots x) (Z.of_nat n) ++ slot_table (S n) ls
  end.

Lemma length_slot_table n ls : length (slot_table n ls) = slots ls.
Proof.
  revert n; induction ls as [|x ls IH]; intros n; cbn; [done|].
  rewrite length_app, length_replicate, IH. done.
Qed.

Lemma indexu_split n z : (0 <= z < 256 ^ Z.of_nat n)%Z -> indexu (le_split n z) = Z.to_nat z.
Proof. intros Hz. unfold indexu, getu. by rewrite le_combine_split_small. Qed.

Lemma emit_leaf_ok x offset st pre rest :
  keys_ok st -> u32 (Z.of_nat (length (keys st))) -> u32 (Z.of_nat (length (leaves st))) ->
  gl_depth x <= DEPTH -> length pre = offset ->
  sorted_to_leaf st = pre ++ replicate (gl_slots x) 0%Z ++ rest ->
  exists st' lf, emit_leaf (gl_key x) (gl_value x) (gl_depth x) offset (gl_slots x) st = Ok st' /\
    keys_ok st' /\ keys st `prefix_of` keys st' /\ length (keys st') <= S (length (keys st)) /\
    leaves st' = leaves st ++ [lf] /\ encodes (keys st') lf x /\
    sorted_to_leaf st' = pre ++ replicate (gl_slots x) (Z.of_nat (length (leaves st))) ++ rest /\
    siblings st' = siblings st /\ topology st' = topology st.
Proof.
  intros Hok Hk Hl Hd <- Hs. unfold emit_leaf.
  pose proof (intern_key_ok (gl_key x) st Hok Hk) as Hi.
  destruct (intern_key (gl_key x) st) as [idx st1].
  destruct Hi as (Hok1 & (i & -> & Hget) & Hpre & Hlen & El & Esib & Etop & Eslot).
  rewrite El, Eslot, Hs, as_u32_small by done. unfold fill_slots, assert.
  rewrite (proj2 (Nat.leb_le _ _)) by (rewrite !length_app, length_replicate; lia).
  cbn [mbind outcome_bind]. eexists _, _. split; [reflexivity|].
  cbn [keys key_to_idx leaves siblings topology sorted_to_leaf].
  split; [done|]. do 3 (split; [done|]). split.
  - assert (i < length (keys st1)) by (by eapply lookup_lt_Some). unfold u32 in Hk.
    split; [|split; [done|]]; cbn [Leaf.depth Leaf.key_idx]; rewrite indexu_split, Nat2Z.id; try done; [|lia].
    unfold DEPTH in Hd. lia.
  - split; [|done]. rewrite take_app_length, drop_app_ge by lia.
    replace (length pre + gl_slots x - length pre) with (gl_slots x) by lia.
    by rewrite drop_app_length' by (by rewrite length_replicate).
Qed.

Lemma emit_leaves_ok ls : forall offset st pre rest,
  keys_ok st -> u32 (Z.of_nat (length (keys st) + length ls)) ->
  u32 (Z.of_nat (length (leaves st) + length ls)) ->
  Forall (fun x => gl_depth x <= DEPTH) ls -> length pre = offset ->
  sorted_to_leaf st = pre ++ replicate (slots ls) 0%Z ++ rest ->
  exists st' lfs, emit_leaves ls offset st = Ok st' /\
    keys_ok st' /\ keys st `prefix_of` keys st' /\
    length (keys st') <= length (keys st) + length ls /\
    leaves st' = leaves st ++ lfs /\ Forall2 (encodes (keys st')) lfs ls /\
    sorted_to_leaf st' = pre ++ slot_table (length (leaves st)) ls ++ rest /\
    siblings st' = siblings st /\ topology st' = topology st.
Proof.
  induction ls as [|x ls IH]; intros offset st pre rest Hok Hk Hl Hd Hpre Hs.
  { exists st, []. cbn. rewrite app_nil_r. repeat (split; [done || lia|]). done. }
  apply Forall_cons in Hd as [Hdx Hd]. cbn [length] in *.
  unfold slots in Hs. cbn [fmap list_fmap sum_list_with] in Hs.
  change (sum_list_with _ _) with (slots ls) in Hs. rewrite replicate_add, <- app_assoc in Hs.
  unfold u32 in *.
  destruct (emit_leaf_ok x offset st pre _ Hok ltac:(unfold u32; lia) ltac:(unfold u32; lia) Hdx Hpre Hs)
    as (st1 & lf & E1 & Hok1 & Hp1 & Hlen1 & El1 & He1 & Es1 & Esib1 & Etop1).
  rewrite app_assoc in Es1.
  destruct (IH (offset + gl_slots x) st1 (pre ++ replicate (gl_slots x) (Z.of_nat (length (leaves st)))) rest Hok1 ltac:(lia) ltac:(rewrite El1, length_snoc; lia) Hd
    ltac:(by rewrite length_app, length_replicate, Hpre) Es1)
    as (st2 & lfs & E2 & Hok2 & Hp2 & Hlen2 & El2 & He2 & Es2 & Esib2 & Etop2).
  exists st2, (lf :: lfs). cbn [emit_leaves]. rewrite E1. cbn [mbind outcome_bind].
  split; [done|]. split; [done|]. split; [by etrans|]. split; [lia|].
  split; [by rewrite El2, El1, <- app_assoc|]. split; [by constructor; [eapply encodes_prefix|]|].
  split; [|by rewrite Esib2, Etop2].
  rewrite Es2, El1, length_snoc. cbn [slot_table]. by rewrite <- !app_assoc.
Qed.

(** ** Classifying the queried keys *)

(** The answer for input position [idx] at a slot pointing at leaf [pos]. *)
Definition answer (st : t) (pos : Z) (idx : nat) : Membership.t :=
  match leaves st !! Z.to_nat pos with
  | Some lf => if (getu (Leaf.key_idx lf) =? as_u32 idx)%Z
               then Membership.Present (le_split 4 pos) else Membership.Absent (le_split 4 pos)
  | None => Membership.Absent (le_split 4 pos)
  end.

Lemma classify_ok st order : forall sp ms,
  NoDup order -> (forall i, i ∈ order -> i < length ms) ->
  (forall j, j < length order -> exists pos, sorted_to_leaf st !! (sp + j) = Some pos /\
     Z.to_nat pos < length (leaves st)) ->
  exists ms', classify st sp order ms = Ok ms' /\ length ms' = length ms /\
    (forall i, i ∉ order -> ms' !! i = ms !! i) /\
    (forall j i pos, order !! j = Some i -> sorted_to_leaf st !! (sp + j) = Some pos ->
       ms' !! i = Some (answer st pos i)).
Proof.
  induction order as [|idx order IH]; intros sp ms Hnd Hin Hsl; [by exists ms|].
  apply NoDup_cons in Hnd as [Hnew Hnd]. cbn [classify].
  destruct (Hsl 0 ltac:(cbn; lia)) as (pos & Hpos & Hlt). rewrite Nat.add_0_r in Hpos. rewrite Hpos.
  destruct (lookup_lt_is_Some_2 _ _ Hlt) as [lf Hlf]. cbn [expect mbind outcome_bind]. rewrite Hlf.
  cbn [expect mbind outcome_bind]. unfold assert. rewrite (proj2 (Nat.ltb_lt _ _)) by (apply Hin; by left).
  cbn [mbind outcome_bind]. cbv zeta.
  replace (if (getu (Leaf.key_idx lf) =? as_u32 idx)%Z then _ else _) with (answer st pos idx)
    by (unfold answer; by rewrite Hlf).
  destruct (IH (S sp) (<[idx := answer st pos idx]> ms) Hnd) as (ms' & E & Hlen & Hout & Hans).
  - intros i Hi. rewrite length_insert. apply Hin. by right.
  - intros j Hj. destruct (Hsl (S j) ltac:(cbn; lia)) as (pos' & Hp' & ?).
    exists pos'. by rewrite Nat.add_succ_comm.
  - exists ms'. split; [done|]. rewrite length_insert in Hlen. split; [done|]. split.
    + intros i Hi. apply not_elem_of_cons in Hi as [Hne Hi]. rewrite Hout by done.
      by rewrite list_lookup_insert_ne by done.
    + intros [|j] i pos' Hj Hp'.
      * cbn in Hj. injection Hj as <-. rewrite Nat.add_0_r, Hpos in Hp'. injection Hp' as <-.
        rewrite Hout by done. apply list_lookup_insert_eq. apply Hin. by left.
      * apply (Hans j); [done|]. by rewrite <- Nat.add_succ_comm in Hp'.
Qed.

(** ** Sizes *)

Lemma gtopo_bound g : forall p, gplaced p g ->
  length (gtopo g) <= (DEPTH - length p) * length (gleaves g).
Proof.
  induction g as [k v d n|l IHl r IHr|b sib c IHc]; intros p Hp; cbn [gplaced gtopo gleaves length] in *.
  - lia.
  - destruct Hp as (Hlt & Hl & Hr). apply IHl in Hl. apply IHr in Hr. rewrite !length_app in *.
    cbn [length] in *. pose proof (gleaves_nonempty l). pose proof (gleaves_nonempty r). nia.
  - destruct Hp as (Hlt & Hc). apply IHc in Hc. rewrite length_app in Hc. cbn [length] in Hc.
    pose proof (gleaves_nonempty c). nia.
Qed.

Lemma gsibs_bound g : length (gsibs g) <= length (gtopo g).
Proof. induction g; cbn; rewrite ?length_app; lia. Qed.

Lemma slots_bound ls : Forall (fun x => 1 <= gl_slots x) ls -> length ls <= slots ls.
Proof. unfold slots. induction 1; cbn in *; lia. Qed.

Lemma slot_lookup ls : forall n j x,
  (ls ≫= fun x => replicate (gl_slots x) x) !! j = Some x ->
  exists i, slot_table n ls !! j = Some (Z.of_nat (n + i)) /\ ls !! i = Some x.
Proof.
  induction ls as [|y ls IH]; intros n j x Hj; [done|]. rewrite bind_cons in Hj. cbn [slot_table].
  apply lookup_app_Some in Hj as [Hj|[Hge Hj]].
  - apply lookup_replicate in Hj as [-> Hlt]. exists 0. split; [|done].
    rewrite lookup_app_l by (by rewrite length_replicate). rewrite Nat.add_0_r. by apply lookup_replicate.
  - rewrite length_replicate in *. destruct (IH (S n) _ _ Hj) as (i & Hi & Hx). exists (S i).
    split; [|done]. rewrite lookup_app_r by (by rewrite length_replicate).
    by rewrite length_replicate, Hi, Nat.add_succ_comm.
Qed.

Lemma keys_ok_new ks : NoDup ks -> u32 (Z.of_nat (length ks)) -> keys_ok (new ks).
Proof.
  unfold keys_ok. cbn [new keys key_to_idx]. induction ks as [|k0 ks IH] using rev_ind; intros Hnd Hlen k z.
  { cbn. split; [by rewrite lookup_empty|]. intros (i & Hi & _). done. }
  rewrite length_snoc in Hlen. unfold u32 in *. apply NoDup_app in Hnd as (Hnd & Hnew & _).
  rewrite imap_app, foldl_app. cbn [imap foldl]. rewrite Nat.add_0_r, as_u32_small by (unfold u32; lia).
  destruct (decide (k0 = k)) as [<-|Hne].
  - rewrite lookup_insert_eq. split.
    + intros [= <-]. exists (length ks). by rewrite list_lookup_middle.
    + intros (i & Hi & ->). apply lookup_app_Some in Hi as [Hi|[Hge Hi]].
      * apply list_elem_of_lookup_2, Hnew in Hi. set_solver.
      * apply list_lookup_singleton_Some in Hi as [Hi _]. do 2 f_equal. lia.
  - rewrite lookup_insert_ne by done. rewrite (IH Hnd ltac:(lia) k z). split; intros (i & Hi & ->); exists i.
    + split; [by apply lookup_app_l_Some|done].
    + split; [|done]. apply lookup_app_Some in Hi as [Hi|[_ Hi]]; [done|].
      by apply list_lookup_singleton_Some in Hi as [_ Hi].
Qed.

Lemma leb_sorted_strict ks :
  StronglySorted (fun a b => key_leb a b = true) ks -> NoDup ks ->
  StronglySorted (fun a b => key_ltb a b = true) ks.
Proof.
  induction 1 as [|k ks Hs IH Hk]; intros Hnd; [constructor|]. apply NoDup_cons in Hnd as [Hn Hnd].
  constructor; [by apply IH|]. rewrite Forall_forall in *. intros k' Hk'. apply key_ltb_leb.
  split; [by apply Hk|]. by intros ->.
Qed.

(** ** Completeness *)

(** The proof made of a state that emitted [g]. *)
Lemma emitted_holds g st ms :
  topology_ok (topology st) (gtopo g) -> siblings st = gsibs g ->
  Forall2 (encodes (keys st)) (leaves st) (gleaves g) ->
  holds {| Proof.keys := keys st; Proof.leaves := leaves st; Proof.siblings := siblings st;
           Proof.topology := Topology.bits (topology st); Proof.memberships := ms |}
    0 Traversal.start_cursor g.
Proof.
  intros (_ & _ & Ht) Hs Hl. split; cbn.
  - intros i b Hi. by rewrite Ht, Hi.
  - intros i s. by rewrite Hs.
  - intros i x Hi. destruct (Forall2_lookup_r _ _ _ _ _ Hl Hi) as (lf & Hlf & Hd & Hv & Hk).
    by exists lf.
Qed.

(** The membership written for an input key resolves to what the leaf says of it. *)
Lemma answer_member st p i j k x lf :
  keys_ok st -> u32 (Z.of_nat (length (keys st))) -> u32 (Z.of_nat (length (leaves st))) ->
  Proof.keys p = keys st -> Proof.leaves p = leaves st ->
  Proof.memberships p !! i = Some (answer st (Z.of_nat j) i) ->
  keys st !! i = Some k -> leaves st !! j = Some lf -> encodes (keys st) lf x ->
  gl_depth x <= DEPTH -> has_prefix k (kprefix (gl_key x) (gl_depth x)) ->
  Proof.member p i = Ok {| Member.key := k; Member.leaf := lf;
                           Member.absent := negb (bool_decide (gl_key x = k)) |}.
Proof.
  intros Hok Hks Hls Ek El Hm Hk Hlf (Hd & Hv & Hkx) Hdx Hpre. unfold Proof.member. rewrite Hm.
  cbn [ok_or mbind outcome_bind]. unfold answer. rewrite Nat2Z.id, Hlf.
  assert (indexu (le_split 4 (Z.of_nat j)) = j) as Hj.
  { rewrite indexu_split; [lia|]. apply lookup_lt_Some in Hlf. unfold u32 in Hls. lia. }
  assert ((getu (Leaf.key_idx lf) =? as_u32 i)%Z = bool_decide (gl_key x = k)) as ->.
  { pose proof (le_combine_bound (vec_to_list (Leaf.key_idx lf))) as Hb.
    fold (getu (Leaf.key_idx lf)) in Hb. pose proof (lookup_lt_Some _ _ _ Hk). unfold u32 in Hks.
    rewrite as_u32_small by (unfold u32; lia). apply eq_true_iff_eq. rewrite Z.eqb_eq, bool_decide_eq_true.
    split; intros E.
    - unfold indexu in Hkx. rewrite E, Nat2Z.id, Hk in Hkx. by injection Hkx.
    - rewrite E in Hkx. pose proof (keys_ok_inj _ _ _ _ Hok Hkx Hk) as Hi. unfold indexu in Hi. lia. }
  destruct (bool_decide_reflect (gl_key x = k)) as [E|E];
    unfold Proof.member_present, Proof.member_absent, Proof.leaf_key, Proof.key, Proof.leaf;
    rewrite Hj, Ek, El, Hk, Hlf; cbn [ok_or mbind outcome_bind]; rewrite Hkx; cbn [ok_or mbind outcome_bind].
  - by rewrite bool_decide_eq_true_2.
  - rewrite bool_decide_eq_false_2, Hd by done.
    enough (Bits.shares_prefix (vec_to_list k) (vec_to_list (gl_key x)) (gl_depth x) = true) as -> by done.
    apply Bits.shares_prefix_spec; [rewrite length_vec_to_list; unfold DEPTH in Hdx; lia..|].
    by apply has_prefix_kprefix.
Qed.

(** The proof [p] tells the truth about the map [m] at the queried [ks]. *)
Definition answers (p : Proof.t) (ks : list ResourceId) (m : ResourceId -> option (array 32)) : Prop :=
  exists mems, Proof.members p = Ok mems /\ Member.key <$> mems = ks /\
    Member.value_hash <$> mems = (fun k => default EMPTY_HASH (m k)) <$> ks.

Lemma answers_pointwise p ks m :
  length (Proof.memberships p) = length ks ->
  (forall i k, ks !! i = Some k -> exists mem, Proof.member p i = Ok mem /\ Member.key mem = k /\
     Member.value_hash mem = default EMPTY_HASH (m k)) ->
  answers p ks m.
Proof.
  intros Hlen Hall. unfold answers, Proof.members. rewrite Hlen. clear Hlen.
  enough (exists mems, Forall2 (fun i mem => Proof.member p i = Ok mem) (seq 0 (length ks)) mems /\
    Member.key <$> mems = ks /\ Member.value_hash <$> mems = (fun k => default EMPTY_HASH (m k)) <$> ks)
    as (mems & Hf & ?) by (exists mems; by rewrite mapM_outcome_Ok).
  induction ks as [|k ks IH] using rev_ind; [exists []; by split|].
  destruct IH as (mems & Hf & E1 & E2).
  { intros i k' Hi. apply Hall. by apply lookup_app_l_Some. }
  destruct (Hall (length ks) k) as (mem & Hm & Ek & Ev); [by rewrite list_lookup_middle|].
  exists (mems ++ [mem]). rewrite length_snoc, seq_S, !fmap_app, E1, E2. cbn. rewrite Ek, Ev.
  split; [|done]. apply Forall2_app; [done|]. by constructor.
Qed.

Section complete.
Context `{Hasher} (node : Key.t -> option (Z * Node.t)) (t : trie).
Context (Hwf : wf [] t) (Hst : stored (fun k => snd <$> node k) [] t).
Context (ks : list ResourceId) (Hne : ks <> []) (Hnd : NoDup ks) (Hlen : (Z.of_nat (length ks) < 2 ^ 23)%Z).

(** The walk over the sorted keys ends in a state that linearises a tree for them. *)
Lemma collect_complete sorted :
  StronglySorted (fun a b => key_leb a b = true) sorted -> sorted ≡ₚ ks ->
  exists g st, collect node (S DEPTH) Key.ROOT sorted 0 (new ks) = Ok st /\
    gplaced [] g /\ reval (rtree_of 0 g) = summary t /\ pinned (rtree_of 0 g) = true /\
    covers (gleaves g) sorted /\ Forall (truthful (tlookup 0 t)) (gleaves g) /\
    keys_ok st /\ ks `prefix_of` keys st /\ length (keys st) <= 2 * length ks /\
    siblings st = gsibs g /\ topology_ok (topology st) (gtopo g) /\
    Forall2 (encodes (keys st)) (leaves st) (gleaves g) /\
    sorted_to_leaf st = slot_table 0 (gleaves g) /\ length (gleaves g) <= length ks.
Proof using Hwf Hst Hne Hnd Hlen.
  intros Hs Hp.
  assert (keys_at [] sorted) as Hat.
  { split; [|intros; apply has_prefix_nil]. apply leb_sorted_strict; [done|]. by rewrite Hp. }
  assert (sorted <> []) as Hsn by (intros ->; by apply Permutation_nil_l in Hp).
  destruct (collect_emits node (S DEPTH) [] t sorted 0 ltac:(cbn [length]; lia) ltac:(cbn [length]; lia) Hwf Hst Hat Hsn)
    as (g & Hg & Hev & Hcov & Htr & Hrun).
  exists g. change Key.ROOT with (key_of []). rewrite Hrun. clear Hrun.
  pose proof (covers_slots _ _ Hcov) as Hsl. rewrite Hp in Hsl.
  assert (length (gleaves g) <= length ks) as Hgl.
  { rewrite <- Hsl. apply slots_bound. eapply Forall_impl; [exact Htr|]. by intros x [? _]. }
  destruct (emit_leaves_ok (gleaves g) 0 (new ks) [] []) as
    (st & lfs & E & Hok & Hpre & Hkl & El & Henc & Esl & Esib & Etop).
  - apply keys_ok_new; [done|]. unfold u32. lia.
  - cbn [new keys]. unfold u32. lia.
  - cbn [new leaves length]. unfold u32. lia.
  - apply Forall_forall. intros x Hx. apply (gplaced_leaf g [] x Hg) in Hx as [? _]. lia.
  - done.
  - cbn [new sorted_to_leaf app]. by rewrite app_nil_r, Hsl.
  - exists (push_all g st). rewrite E. split; [done|]. destruct (Hev 0) as [??].
    do 5 (split; [done|]). cbn [push_all keys key_to_idx siblings topology leaves sorted_to_leaf].
    rewrite El, Esl, Esib, Etop. cbn [new keys leaves siblings topology app length] in *.
    rewrite app_nil_r. do 2 (split; [done|]). split; [lia|]. split; [done|]. split; [|done].
    apply (push_all_ok (gtopo g) Topology.empty []). split; [done|]. split; [cbn; lia|].
    intros i. cbn. unfold Bits.get_lsb. by rewrite lookup_nil.
Qed.

Lemma truthful_value x k :
  truthful (tlookup 0 t) x -> has_prefix k (kprefix (gl_key x) (gl_depth x)) ->
  default EMPTY_HASH (tlookup 0 t k) = if bool_decide (gl_key x = k) then gl_value x else EMPTY_HASH.
Proof using.
  intros [_ Ht] Hk. rewrite Ht by done. rewrite tlookup_leaf_trie.
  destruct (decide (gl_value x = EMPTY_HASH)) as [E|E], (bool_decide_reflect (gl_key x = k)); try done.
  - by rewrite decide_True.
  - by rewrite decide_False.
Qed.

Lemma build_proof_complete :
  exists p, build_proof node ks = Ok p /\
    u32 (Z.of_nat (length (Proof.keys p))) /\ u32 (Z.of_nat (length (Proof.leaves p))) /\
    u32 (Z.of_nat (length (Proof.siblings p))) /\ u32 (Z.of_nat (length (Proof.topology p))) /\
    u32 (Z.of_nat (length (Proof.memberships p))) /\
    Roots.root p = Ok (HashedNode.hash (summary t)) /\ well_formed p = true /\
    ks `prefix_of` Proof.keys p /\ answers p ks (tlookup 0 t).
Proof using Hwf Hst Hne Hnd Hlen.
  destruct (SortUnique.sort_unique_spec _ key_leb_total key_leb_trans key_leb_antisym ks) as [Hok Hspec];
    [unfold u32; lia|].
  unfold build_proof. destruct (SortUnique.sort_unique key_leb ks) as [[sorted order]| |] eqn:Esort;
    [|by apply Hok in Hnd..].
  destruct (Hspec _ _ eq_refl) as (Hs & Hp & Hord & Hread).
  destruct (collect_complete sorted Hs Hp) as (g & st & E & Hg & Hev & Hpin & Hcov & Htr & Hkok & Hpre &
    Hkl & Esib & Htop & Henc & Esl & Hgl).
  cbn [mbind outcome_bind]. rewrite E. cbn [mbind outcome_bind].
  pose proof (Forall2_length _ _ _ Henc) as Hll.
  assert (length order = length ks) as Hol by (by rewrite Hord, length_seq).
  (* each sorted position has a slot that leads to its leaf *)
  assert (forall j i, order !! j = Some i -> exists k q x lf, ks !! i = Some k /\
    sorted_to_leaf st !! j = Some (Z.of_nat q) /\ leaves st !! q = Some lf /\
    gleaves g !! q = Some x /\ encodes (keys st) lf x /\
    has_prefix k (kprefix (gl_key x) (gl_depth x))) as Hslot.
  { intros j i Hj. destruct (Forall2_lookup_l _ _ _ _ _ Hread Hj) as (k & Hk & Hki).
    destruct (Forall2_lookup_r _ _ _ _ _ Hcov Hk) as (x & Hx & Hxk).
    destruct (slot_lookup _ 0 _ _ Hx) as (q & Hq & Hqx). cbn [Nat.add] in Hq.
    destruct (Forall2_lookup_r _ _ _ _ _ Henc Hqx) as (lf & Hlf & Hen).
    exists k, q, x, lf. by rewrite Esl. }
  unfold classify_memberships.
  destruct (classify_ok st order 0 (replicate (length order) (Membership.Absent (le_split 4 0))))
    as (ms & Ems & Hml & _ & Hans).
  { rewrite Hord. apply NoDup_seq. }
  { intros i Hi. rewrite Hord in Hi. apply elem_of_seq in Hi. rewrite length_replicate. lia. }
  { intros j Hj. destruct (lookup_lt_is_Some_2 _ _ Hj) as [i Hi].
    destruct (Hslot _ _ Hi) as (k & q & x & lf & _ & Hq & Hlf & _). exists (Z.of_nat q).
    split; [done|]. rewrite Nat2Z.id. by eapply lookup_lt_Some. }
  rewrite Ems. cbn [mbind outcome_bind]. rewrite length_replicate, Hol in Hml.
  pose proof (gtopo_bound g [] Hg) as Htb. cbn [length] in Htb. rewrite Nat.sub_0_r in Htb.
  pose proof (gsibs_bound g) as Hsb. unfold DEPTH in Htb.
  eexists. split; [reflexivity|]. cbn [Proof.keys Proof.leaves Proof.siblings Proof.topology Proof.memberships].
  unfold u32. rewrite Esib, Hml, Hll. do 3 (split; [lia|]). split; [|split; [lia|]].
  { destruct Htop as (_ & Ht & _). lia. }
  set (p := {| Proof.keys := keys st |}).
  assert (proof_tree p = Ok (rtree_of 0 g)) as Hpt.
  { pose proof (emitted_holds g st ms Htop Esib Henc) as Hh. rewrite Esib in Hh. fold p in Hh.
    pose proof (plan_holds p (S DEPTH) g [] 0 Traversal.start_cursor eq_refl Hh Hg) as Hpl.
    unfold proof_tree. cbn [length Nat.add] in Hpl. unfold p at 2. cbn [Proof.leaves]. rewrite Hll.
    by rewrite Hpl. }
  split; [rewrite root_tree, Hpt; cbn; by rewrite Hev|].
  split; [unfold well_formed; rewrite Hpt, Hpin; by rewrite (gplaced_routed g [] 0 Hg)|].
  split; [done|]. apply answers_pointwise; [done|]. intros i k Hk.
  assert (i ∈ order) as Hi.
  { rewrite Hord. apply elem_of_seq. apply lookup_lt_Some in Hk. lia. }
  apply list_elem_of_lookup_1 in Hi as [j Hj].
  destruct (Hslot _ _ Hj) as (k' & q & x & lf & Hk' & Hq & Hlf & Hx & Hen & Hpx).
  rewrite Hk in Hk'. injection Hk' as <-.
  assert (gl_depth x <= DEPTH) as Hdx.
  { apply list_elem_of_lookup_2, (gplaced_leaf g [] x Hg) in Hx as [? _]. lia. }
  rewrite Forall_forall in Htr. pose proof (Htr _ (list_elem_of_lookup_2 _ _ _ Hx)) as Htx.
  eexists. split; [eapply (answer_member st p i q k x lf); try done|].
  - unfold u32. lia.
  - unfold u32. lia.
  - by eapply (Hans j).
  - by eapply prefix_lookup_Some.
  - split; [done|]. rewrite (truthful_value x k Htx Hpx). unfold Member.value_hash. cbn.
    destruct Hen as (_ & Hv & _). rewrite Hv. by destruct (bool_decide _).
Qed.
End complete.

(** The honest prover's bytes. *)
Lemma prove_honest `{Hasher} {St} `{NodeStore St} (s : St) v m ks :
  represents s v m -> ks <> [] -> NoDup ks -> (Z.of_nat (length ks) < 2 ^ 23)%Z ->
  exists bs p, prove s ks v = Ok bs /\ Proof.decode bs = Ok p /\
    Roots.root p = Ok (root_of m) /\ well_formed p = true /\
    ks `prefix_of` Proof.keys p /\ answers p ks (fun k => m !! k).
Proof.
  intros (_ & _ & t & Hwf & Hlk & Hst) Hne Hnd Hlen.
  destruct (build_proof_complete (fun k => tree_node s k v) t Hwf Hst ks Hne Hnd Hlen)
    as (p & Hb & H1 & H2 & H3 & H4 & H5 & Hr & Hw & Hp & Ha).
  exists (Proof.encode p), p. unfold prove, build. rewrite Hb. split; [done|].
  split; [by apply decode_encode|]. rewrite <- (root_of_trie m t) by done. do 3 (split; [done|]).
  destruct Ha as (mems & Hm & Hk & Hv). exists mems. split; [done|]. split; [done|].
  rewrite Hv. apply list_fmap_ext. intros i k _. by rewrite Hlk.
Qed.

(** C3: from a store that represents a map at a version, [prove] over a nonempty duplicate-free
    key list of fewer than 2^23 keys returns bytes that decode to a proof which recomputes the
    map's root, is pinned and routed, carries the queried keys in order, and resolves each of
    them to its value in the map. *)
Theorem prove_complete `{Hasher} {St} `{NodeStore St} (s : St) v m ks :
  represents s v m -> ks <> [] -> NoDup ks -> (Z.of_nat (length ks) < 2 ^ 23)%Z ->
  exists bs p, prove s ks v = Ok bs /\ Proof.decode bs = Ok p /\
    Roots.root p = Ok (root_of m) /\ well_formed p = true /\
    ks `prefix_of` Proof.keys p /\ answers p ks (fun k => m !! k).
Proof. apply prove_honest. Qed.

Lemma prove_complete_witness :
  let s := commit (∅ : mem_store)
    match Tree.update (H := toy_hasher) (∅ : mem_store) [put kA Byte.x01; put kB Byte.x02] 1 with
    | Ok (_, ops) => ops | _ => [] end in
  exists bs p, prove s [fill kB; fill kC] 1 = Ok bs /\ Proof.decode bs = Ok p.
Proof.
  cbv zeta.
  destruct (update_step (H := toy_hasher) (∅ : mem_store) ∅ [put kA Byte.x01; put kB Byte.x02] 1)
    as (ops & -> & _ & Hrep & _); [done|done|done|apply fresh_clean; [done|]; intros k v _ _; apply lookup_empty|].
  destruct (@prove_complete toy_hasher mem_store _ (commit (∅ : mem_store) ops) 1 _ [fill kB; fill kC] Hrep)
    as (bs & p & Hb & Hd & _); [done| |done|by exists bs, p].
  apply NoDup_cons. split; [|apply NoDup_singleton]. intros Hin. apply list_elem_of_singleton in Hin.
  by injection Hin.
Defined.
