(* ===== verification/MerkleTree.v ===== *)
(** * MerkleTree: the streaming Merkle builder of [core/merkle-tree]

    [StreamingBuilder] keeps one stack entry per bit of the leaf count; the theorems relate its
    root to a perfect tree padded on the right, and show that the root binds the leaves. *)

From S2P Require Import Prelude Codec Types.

(** ** node_tags.rs *)

(** The three domain tags; the source fixes their common length. *)
Class NodeTags := {
  LEAF_TAG : bytes;
  BRANCH_TAG : bytes;
  EMPTY_TAG : bytes
}.

(** ** streaming_builder.rs *)
Module StreamingBuilder.
Section builder.
Context `{Hasher} `{NodeTags} (MAX_DEPTH : nat).

(** The stack is an array of [MAX_DEPTH] entries, of which the first [stack_len] are live. Levels
    count hashing steps and never exceed [MAX_DEPTH]; the leaf count is a [u32]. *)
Record t := {
  stack : list (nat * array 32);
  stack_len : nat;
  leaf_count : Z
}.

Definition new : t :=
  {| stack := replicate MAX_DEPTH (0, vreplicate 32 Byte.x00); stack_len := 0; leaf_count := 0 |}.

(** [usize::BITS - x.leading_zeros()]. *)
Definition bit_length (x : Z) : Z := if (x <=? 0)%Z then 0%Z else (Z.log2 x + 1)%Z.

Definition required_depth (count : Z) : nat :=
  if (count <=? 1)%Z then 1 else Nat.min (Z.to_nat (bit_length (count - 1))) MAX_DEPTH.

Definition hash_leaf (payload : bytes) : array 32 := hash_with_domain LEAF_TAG payload.
Definition hash_leaf_parts (parts : list bytes) : array 32 := hash_parts_with_domain LEAF_TAG parts.
Definition hash_branch (l r : array 32) : array 32 :=
  hash_parts_with_domain BRANCH_TAG [vec_to_list l; vec_to_list r].
Definition hash_empty : array 32 := hash_with_domain EMPTY_TAG [].

(** The loop of [compute_empty_hashes]: [n] further levels above [prev]. *)
Fixpoint empty_levels (n : nat) (prev : array 32) : list (array 32) :=
  match n with
  | O => []
  | S n => let next := hash_branch prev prev in next :: empty_levels n next
  end.

Definition compute_empty_hashes : list (array 32) :=
  match MAX_DEPTH with
  | O => []
  | S n => hash_empty :: empty_levels n hash_empty
  end.

(** The [while] loop of [add_leaf_hash]: pops entries of the current level. *)
Fixpoint absorb (st : list (nat * array 32)) (len level : nat) (current : array 32)
    : Result (nat * nat * array 32) :=
  match len with
  | O => Ok (0, level, current)
  | S n =>
      '(top_level, top_hash) ← expect (st !! n);
      if negb (top_level =? level) then Ok (S n, level, current)
      else absorb st n (S level) (hash_branch top_hash current)
  end.

(** Writing past the array panics; [leaf_count] is a wrapping [u32] counter in release builds. *)
Definition add_leaf_hash (b : t) (h : array 32) : Result t :=
  '(len, level, current) ← absorb (stack b) (stack_len b) 0 h;
  _ ← assert (len <? length (stack b));
  Ok {| stack := <[len := (level, current)]> (stack b); stack_len := S len;
        leaf_count := ((leaf_count b + 1) `mod` 2 ^ 32)%Z |}.

Definition add_leaf (b : t) (payload : bytes) : Result t := add_leaf_hash b (hash_leaf payload).
Definition add_leaf_parts (b : t) (parts : list bytes) : Result t :=
  add_leaf_hash b (hash_leaf_parts parts).

(** [n] rounds of padding from level [level] on. *)
Fixpoint lift (empty_hashes : list (array 32)) (n level : nat) (h : array 32) : Result (array 32) :=
  match n with
  | O => Ok h
  | S n =>
      e ← expect (empty_hashes !! level);
      lift empty_hashes n (S level) (hash_branch h e)
  end.

(** The entries below index [i], right to left, combined onto [(level, h)]. *)
Fixpoint fold_stack (st : list (nat * array 32)) (empty_hashes : list (array 32)) (i : nat)
    (level : nat) (h : array 32) : Result (array 32) :=
  match i with
  | O => Ok h
  | S i =>
      '(lv, hash) ← expect (st !! i);
      r ← lift empty_hashes (lv - level) level h;
      fold_stack st empty_hashes i (S (Nat.max level lv)) (hash_branch hash r)
  end.

Definition finalize (b : t) (empty_hashes : list (array 32)) : Result (array 32) :=
  if (leaf_count b =? 0)%Z then expect (empty_hashes !! 0)
  else if (leaf_count b =? 1)%Z then
    '(_, h) ← expect (stack b !! 0);
    e ← expect (empty_hashes !! 0);
    Ok (hash_branch h e)
  else
    match stack_len b with
    | O => Ok (vreplicate 32 Byte.x00)
    | S n =>
        '(level, h) ← expect (stack b !! n);
        fold_stack (stack b) empty_hashes n level h
    end.

(** A builder after the given leaf hashes. *)
Definition add_all (hs : list (array 32)) : Result t :=
  foldl (fun b h => b ← b; add_leaf_hash b h) (Ok new) hs.

(** ** The padded tree *)

(** The root of the perfect tree of depth [d] over [ls], empty leaves on the right. *)
Fixpoint padded (d : nat) (ls : list (array 32)) : array 32 :=
  match d with
  | O => default hash_empty (head ls)
  | S d => hash_branch (padded d (take (2 ^ d) ls)) (padded d (drop (2 ^ d) ls))
  end.

Lemma padded_app d l1 l2 :
  length l1 = 2 ^ d -> padded (S d) (l1 ++ l2) = hash_branch (padded d l1) (padded d l2).
Proof. intros Hl. cbn [padded]. by rewrite take_app_length', drop_app_length'. Qed.

Lemma padded_lift d ls :
  length ls <= 2 ^ d -> padded (S d) ls = hash_branch (padded d ls) (padded d []).
Proof. intros Hl. cbn [padded]. by rewrite take_ge, drop_ge. Qed.

Lemma empty_levels_lookup n : forall d i,
  i < n -> empty_levels n (padded d []) !! i = Some (padded (S (d + i)) []).
Proof.
  induction n as [|n IH]; intros d i Hi; [lia|]. cbn [empty_levels].
  rewrite <- (padded_lift d []) by (cbn; lia). destruct i as [|i]; [by rewrite Nat.add_0_r|].
  cbn [lookup list_lookup]. rewrite (IH (S d)) by lia. do 2 f_equal. lia.
Qed.

(** The table holds the roots of the empty subtrees. *)
Lemma compute_empty_hashes_lookup i :
  i < MAX_DEPTH -> compute_empty_hashes !! i = Some (padded i []).
Proof.
  unfold compute_empty_hashes. destruct MAX_DEPTH as [|n]; [lia|]. intros Hi.
  destruct i as [|i]; [done|]. cbn [lookup list_lookup].
  change hash_empty with (padded 0 []). rewrite empty_levels_lookup by lia. done.
Qed.

(** ** The stack invariant *)

(** Entries top to bottom, at strictly increasing levels from [m] on, cover [ls] from right to
    left by full subtrees. *)
Inductive covers : nat -> list (nat * array 32) -> list (array 32) -> Prop :=
| covers_nil m : covers m [] []
| covers_cons m lv chunk rest ls :
    m <= lv -> length chunk = 2 ^ lv -> covers (S lv) rest ls ->
    covers m ((lv, padded lv chunk) :: rest) (ls ++ chunk).

Definition live (b : t) : list (nat * array 32) := reverse (take (stack_len b) (stack b)).

Record built (b : t) (ls : list (array 32)) : Prop := {
  built_room : length (stack b) = MAX_DEPTH;
  built_len : stack_len b <= MAX_DEPTH;
  built_covers : covers 0 (live b) ls;
  built_count : leaf_count b = (Z.of_nat (length ls) `mod` 2 ^ 32)%Z
}.

Lemma covers_length m es ls d :
  covers m es ls -> m <= d -> length ls < 2 ^ d -> length es + m <= d.
Proof.
  intros Hc. revert d. induction Hc as [m|m lv chunk rest ls Hm Hlen Hc IH]; intros d Hd Hl; [done|].
  rewrite length_app in Hl. assert (lv < d) as Hlt by (apply (Nat.pow_lt_mono_r_iff 2); lia).
  specialize (IH d ltac:(lia) ltac:(lia)). cbn [length]. lia.
Qed.

Lemma covers_level m es ls d :
  covers m es ls -> length ls < 2 ^ d -> Forall (fun e => fst e < d) es.
Proof.
  induction 1 as [m|m lv chunk rest ls Hm Hlen Hc IH]; intros Hl; constructor; rewrite length_app in Hl.
  - cbn. apply (Nat.pow_lt_mono_r_iff 2); lia.
  - apply IH. lia.
Qed.

Lemma reverse_take_S {A} (l : list A) n x :
  l !! n = Some x -> reverse (take (S n) l) = x :: reverse (take n l).
Proof. intros Hx. by rewrite (take_S_r _ _ _ Hx), reverse_snoc. Qed.

(** Popping merges full subtrees of equal height. *)
Lemma absorb_ok st len : forall level c ls,
  len <= length st -> length c = 2 ^ level -> covers level (reverse (take len st)) ls ->
  exists len' level' c' ls', absorb st len level (padded level c) = Ok (len', level', padded level' c') /\
    len' <= len /\ length c' = 2 ^ level' /\ ls ++ c = ls' ++ c' /\
    covers (S level') (reverse (take len' st)) ls'.
Proof.
  induction len as [|n IH]; intros level c ls Hlen Hc Hcov; cbn [absorb].
  { inversion Hcov; subst. exists 0, level, c, []. split; [done|]. split; [done|]. split; [done|].
    split; [done|]. constructor. }
  destruct (lookup_lt_is_Some_2 st n ltac:(lia)) as [[lv h] Hn]. rewrite Hn. cbn [expect mbind outcome_bind].
  rewrite (reverse_take_S _ _ _ Hn) in Hcov. inversion Hcov as [|? ? chunk rest ls0 Hm Hch Hrest]; subst.
  destruct (Nat.eqb_spec lv level) as [->|Hne]; cbn [negb].
  - rewrite <- padded_app by done.
    destruct (IH (S level) (chunk ++ c) ls0) as (len' & level' & c' & ls' & E & Hle & Hc' & Happ & Hcov');
      [lia|rewrite length_app; cbn; lia|done|].
    exists len', level', c', ls'. split; [done|]. split; [lia|]. split; [done|].
    by rewrite <- app_assoc.
  - exists (S n), level, c, (ls0 ++ chunk). split; [done|]. split; [done|]. split; [done|].
    split; [done|]. rewrite (reverse_take_S _ _ _ Hn). constructor; [lia|done|done].
Qed.

Lemma new_built : built new [].
Proof.
  split; cbn; [by rewrite length_replicate|lia|constructor|done].
Qed.

Lemma add_leaf_hash_built b ls h :
  built b ls -> S (length ls) < 2 ^ MAX_DEPTH ->
  exists b', add_leaf_hash b h = Ok b' /\ built b' (ls ++ [h]).
Proof.
  intros [Hroom Hlen Hcov Hcount] Hn. unfold add_leaf_hash.
  destruct (absorb_ok (stack b) (stack_len b) 0 [h] ls) as (len & level & c & ls' & E & Hle & Hc & Happ & Hcov');
    [lia|done|done|]. change (padded 0 [h]) with h in E. rewrite E. cbn [mbind outcome_bind].
  assert (covers 0 ((level, padded level c) :: reverse (take len (stack b))) (ls ++ [h])) as Hnew.
  { rewrite Happ. constructor; [lia|done|done]. }
  pose proof (covers_length _ _ _ MAX_DEPTH Hnew ltac:(lia) ltac:(rewrite length_app; cbn; lia)) as Hfit.
  cbn [length] in Hfit. rewrite length_reverse, length_take in Hfit.
  unfold assert. rewrite (proj2 (Nat.ltb_lt _ _)) by lia. cbn [mbind outcome_bind].
  eexists. split; [reflexivity|]. split; cbn [stack stack_len leaf_count].
  - by rewrite length_insert.
  - lia.
  - unfold live. cbn [stack stack_len].
    erewrite reverse_take_S by (apply list_lookup_insert_eq; lia).
    by rewrite take_insert_ge.
  - rewrite Hcount, length_app, Nat2Z.inj_add. cbn. by rewrite Zplus_mod_idemp_l.
Qed.

Lemma add_all_built hs :
  length hs < 2 ^ MAX_DEPTH -> exists b, add_all hs = Ok b /\ built b hs.
Proof.
  unfold add_all. induction hs as [|h hs IH] using rev_ind; intros Hn.
  { exists new. split; [done|apply new_built]. }
  rewrite length_app in Hn. cbn in Hn. destruct IH as (b & E & Hb); [lia|].
  rewrite foldl_app, E. cbn [foldl mbind outcome_bind]. apply add_leaf_hash_built; [done|lia].
Qed.

(** ** The root *)

Lemma covers_weaken m m' es ls : covers m es ls -> m' <= m -> covers m' es ls.
Proof. intros [m0|m0 lv chunk rest ls0 ? ? ?] Hm; constructor; [lia|done|done]. Qed.

Lemma built_top b ls :
  built b ls -> ls <> [] -> exists k lv chunk ls0, stack_len b = S k /\
    stack b !! k = Some (lv, padded lv chunk) /\ length chunk = 2 ^ lv /\ ls = ls0 ++ chunk /\
    covers (S lv) (reverse (take k (stack b))) ls0.
Proof.
  intros [Hroom Hlen Hcov _] Hne. unfold live in Hcov. destruct (stack_len b) as [|k].
  { by inversion Hcov; subst. }
  destruct (lookup_lt_is_Some_2 (stack b) k ltac:(lia)) as [[lv h] Hx].
  rewrite (reverse_take_S _ _ _ Hx) in Hcov. inversion Hcov as [|? ? chunk rest ls0 Hm Hch Hrest]; subst.
  by exists k, lv, chunk, ls0.
Qed.

Lemma built_single b h :
  built b [h] -> stack b !! 0 = Some (0, h).
Proof.
  intros Hb. destruct (built_top b [h] Hb ltac:(done)) as (k & lv & chunk & ls0 & Ek & Hx & Hch & Happ & Hrest).
  destruct Hb as [Hroom Hlen Hcov _].
  pose proof (covers_length _ _ _ 1 Hcov ltac:(lia) ltac:(cbn; lia)) as Hone.
  unfold live in Hone. rewrite length_reverse, length_take, Ek in Hone. assert (k = 0) as -> by lia.
  rewrite take_0 in Hrest. inversion Hrest; subst. cbn in Happ. subst chunk.
  destruct lv as [|lv]; [done|]. cbn in Hch. pose proof (Nat.pow_nonzero 2 lv). lia.
Qed.

Lemma lift_ok n : forall level c,
  level + n <= MAX_DEPTH -> length c <= 2 ^ level ->
  lift compute_empty_hashes n level (padded level c) = Ok (padded (level + n) c).
Proof.
  induction n as [|n IH]; intros level c Hd Hc; cbn [lift]; [by rewrite Nat.add_0_r|].
  rewrite compute_empty_hashes_lookup by lia. cbn [expect mbind outcome_bind].
  rewrite <- padded_lift by done. rewrite IH; [do 2 f_equal; lia|lia|cbn; lia].
Qed.

(** [d] is the least depth that holds [n] leaves. *)
Definition tight (d n : nat) : Prop := 2 ^ d < 2 * n <= 2 * 2 ^ d.

Lemma fold_stack_ok st i : forall level c ls,
  i <= length st -> covers level (reverse (take i st)) ls -> tight level (length c) ->
  length (ls ++ c) < 2 ^ MAX_DEPTH ->
  exists d, fold_stack st compute_empty_hashes i level (padded level c) = Ok (padded d (ls ++ c)) /\
    tight d (length (ls ++ c)).
Proof.
  induction i as [|i IH]; intros level c ls Hi Hcov Ht Hn; cbn [fold_stack].
  { inversion Hcov; subst. by exists level. }
  destruct (lookup_lt_is_Some_2 st i ltac:(lia)) as [[lv h] Hx]. rewrite Hx. cbn [expect mbind outcome_bind].
  rewrite (reverse_take_S _ _ _ Hx) in Hcov.
  pose proof (covers_level _ _ _ MAX_DEPTH Hcov ltac:(rewrite length_app in Hn; lia)) as Hlv.
  apply Forall_cons in Hlv as [Hlv _]. cbn in Hlv.
  inversion Hcov as [|? ? chunk rest ls0 Hm Hch Hrest]; subst. unfold tight in *.
  assert (2 ^ level <= 2 ^ lv) by (by apply Nat.pow_le_mono_r).
  rewrite lift_ok by lia. cbn [mbind outcome_bind]. replace (level + (lv - level)) with lv by lia.
  rewrite <- padded_app, Nat.max_r by done. rewrite <- app_assoc in *.
  apply IH; [lia|done| |done]. rewrite length_app, Hch. cbn. lia.
Qed.

Lemma tight_required d n :
  2 <= n -> n < 2 ^ MAX_DEPTH -> tight d n -> d = required_depth (Z.of_nat n).
Proof.
  intros H2 Hn [H1 H3]. unfold required_depth, bit_length.
  rewrite !(proj2 (Z.leb_gt _ _)) by lia.
  assert (0 < d) as Hd by (destruct d; cbn in *; lia).
  enough (Z.log2 (Z.of_nat n - 1) = Z.of_nat (d - 1)) as ->.
  { enough (d <= MAX_DEPTH) by lia. destruct (Nat.le_gt_cases d MAX_DEPTH) as [|Hgt]; [done|].
    assert (2 ^ (S MAX_DEPTH) <= 2 ^ d) by (by apply Nat.pow_le_mono_r). cbn in *. lia. }
  apply Z.log2_unique; [lia|]. replace d with (S (d - 1)) in H1, H3 by lia. cbn in H1, H3.
  rewrite <- Nat2Z.inj_succ. change 2%Z with (Z.of_nat 2). rewrite <- !Nat2Z.inj_pow. cbn [Nat.pow]. lia.
Qed.

(** ** Binding *)

(** The pairs hashed by the padded tree, empty subtrees included. *)
Fixpoint branches (d : nat) (ls : list (array 32)) : list (array 32 * array 32) :=
  match d with
  | O => []
  | S d =>
      (padded d (take (2 ^ d) ls), padded d (drop (2 ^ d) ls))
      :: branches d (take (2 ^ d) ls) ++ branches d (drop (2 ^ d) ls)
  end.

(** No two of the listed pairs have the same branch hash. *)
Definition branch_collision_free (l : list (array 32 * array 32)) : Prop :=
  forall a b, a ∈ l -> b ∈ l -> hash_branch a.1 a.2 = hash_branch b.1 b.2 -> a = b.

Definition branch_collision_freeb (l : list (array 32 * array 32)) : bool :=
  let hs := (fun a => (hash_branch a.1 a.2, a)) <$> l in
  forallb (fun x => forallb (fun y => negb (bool_decide (x.1 = y.1)) || bool_decide (x.2 = y.2)) hs) hs.

Lemma branch_collision_freeb_spec l : branch_collision_freeb l = true -> branch_collision_free l.
Proof.
  intros Hb x y Hx Hy Heq. unfold branch_collision_freeb in Hb. rewrite forallb_forall in Hb.
  apply (list_elem_of_fmap_2 (fun a => (hash_branch a.1 a.2, a))) in Hx, Hy.
  specialize (Hb _ (proj1 (list_elem_of_In _ _) Hx)). rewrite forallb_forall in Hb.
  specialize (Hb _ (proj1 (list_elem_of_In _ _) Hy)). cbn in Hb.
  rewrite bool_decide_eq_true_2 in Hb by done. by apply bool_decide_eq_true in Hb.
Qed.

Lemma padded_inj bs d : branch_collision_free bs -> forall l1 l2,
  (forall x, x ∈ branches d l1 ++ branches d l2 -> x ∈ bs) ->
  length l1 = length l2 -> length l1 <= 2 ^ d -> padded d l1 = padded d l2 -> l1 = l2.
Proof.
  intros Hcf. induction d as [|d IH]; intros l1 l2 Hsub Hlen Hfit Heq; cbn [padded branches] in *.
  - destruct l1 as [|a [|? ?]], l2 as [|b [|? ?]]; cbn in *; try lia; [done|]. by subst.
  - assert ((padded d (take (2 ^ d) l1), padded d (drop (2 ^ d) l1))
          = (padded d (take (2 ^ d) l2), padded d (drop (2 ^ d) l2))) as [= E1 E2].
    { apply Hcf; [apply Hsub; set_solver..|done]. }
    rewrite <- (take_drop (2 ^ d) l1), <- (take_drop (2 ^ d) l2). f_equal; apply IH; try done.
    + intros x Hx. apply Hsub. set_solver.
    + rewrite !length_take. lia.
    + rewrite length_take. lia.
    + intros x Hx. apply Hsub. set_solver.
    + rewrite !length_drop. lia.
    + rewrite length_drop. cbn in Hfit. lia.
Qed.
End builder.
End StreamingBuilder.

Import StreamingBuilder.

(** ** Claims *)

Lemma finalize_root `{Hasher} `{NodeTags} (MAX_DEPTH : nat) hs :
  1 <= length hs < 2 ^ MAX_DEPTH -> (Z.of_nat (length hs) < 2 ^ 32)%Z ->
  exists b, add_all MAX_DEPTH hs = Ok b /\ leaf_count b = Z.of_nat (length hs) /\
    finalize b (compute_empty_hashes MAX_DEPTH)
    = Ok (padded (required_depth MAX_DEPTH (Z.of_nat (length hs))) hs) /\
    length hs <= 2 ^ required_depth MAX_DEPTH (Z.of_nat (length hs)) /\
    (2 <= length hs -> 2 ^ required_depth MAX_DEPTH (Z.of_nat (length hs)) < 2 * length hs).
Proof.
  intros [H1 Hn] Hu. destruct (add_all_built MAX_DEPTH hs Hn) as (b & E & Hb).
  pose proof (built_count _ _ _ Hb) as Hcount. rewrite Z.mod_small in Hcount by lia.
  exists b. split; [done|]. split; [done|]. unfold finalize.
  rewrite Hcount, (proj2 (Z.eqb_neq _ 0%Z)) by lia.
  destruct (Z.eqb_spec (Z.of_nat (length hs)) 1) as [Hone|Hone].
  - destruct hs as [|h [|? ?]]; cbn in Hone; try lia. cbn [length] in *.
    assert (0 < MAX_DEPTH) by (destruct MAX_DEPTH; cbn in *; lia).
    rewrite (built_single _ _ _ Hb), compute_empty_hashes_lookup by done.
    change (required_depth MAX_DEPTH (Z.of_nat 1)) with 1. cbn. split; [done|]. lia.
  - destruct (built_top _ _ _ Hb) as (k & lv & chunk & ls & -> & Hx & Hch & -> & Hrest);
      [by intros ->; cbn in H1; lia|].
    rewrite Hx. cbn [expect mbind outcome_bind]. pose proof (Nat.pow_nonzero 2 lv ltac:(done)).
    destruct (fold_stack_ok MAX_DEPTH (stack b) k lv chunk ls) as (d & -> & Ht).
    + apply lookup_lt_Some in Hx. lia.
    + by eapply covers_weaken; [|apply Nat.le_succ_diag_r].
    + unfold tight. lia.
    + done.
    + rewrite <- (tight_required MAX_DEPTH d) by done || lia. destruct Ht. split; [done|]. lia.
Qed.

(** C34: streaming any [n] leaf hashes, [1 <= n < 2^MAX_DEPTH] and below the [u32] range, never
    overflows the stack, and [finalize] with the computed empty table returns the root of the
    perfect tree of depth [required_depth n] over the leaves, padded on the right by empty leaves;
    that depth is the least one, at least 1, that holds the leaves. *)
Theorem finalize_padded `{Hasher} `{NodeTags} (MAX_DEPTH : nat) hs :
  1 <= length hs < 2 ^ MAX_DEPTH -> (Z.of_nat (length hs) < 2 ^ 32)%Z ->
  exists b, add_all MAX_DEPTH hs = Ok b /\ leaf_count b = Z.of_nat (length hs) /\
    finalize b (compute_empty_hashes MAX_DEPTH)
    = Ok (padded (required_depth MAX_DEPTH (Z.of_nat (length hs))) hs) /\
    length hs <= 2 ^ required_depth MAX_DEPTH (Z.of_nat (length hs)) /\
    (2 <= length hs -> 2 ^ required_depth MAX_DEPTH (Z.of_nat (length hs)) < 2 * length hs).
Proof. apply finalize_root. Qed.

(** The root binds the leaves: two equally long nonempty leaf lists with the same root are
    equal, provided the branch hash has no collision among the pairs the two trees hash. *)
Theorem finalize_binding `{Hasher} `{NodeTags} (MAX_DEPTH : nat) hs1 hs2 b1 b2 r :
  1 <= length hs1 < 2 ^ MAX_DEPTH -> (Z.of_nat (length hs1) < 2 ^ 32)%Z -> length hs1 = length hs2 ->
  add_all MAX_DEPTH hs1 = Ok b1 -> add_all MAX_DEPTH hs2 = Ok b2 ->
  finalize b1 (compute_empty_hashes MAX_DEPTH) = Ok r ->
  finalize b2 (compute_empty_hashes MAX_DEPTH) = Ok r ->
  let d := required_depth MAX_DEPTH (Z.of_nat (length hs1)) in
  branch_collision_free (branches d hs1 ++ branches d hs2) ->
  hs1 = hs2.
Proof.
  intros Hn Hu Hlen E1 E2 F1 F2 d Hcf.
  destruct (finalize_root MAX_DEPTH hs1 Hn Hu) as (b1' & E1' & _ & F1' & Hfit & _).
  destruct (finalize_root MAX_DEPTH hs2) as (b2' & E2' & _ & F2' & _); [by rewrite <- Hlen..|].
  rewrite <- Hlen in F2'. simplify_eq.
  apply (padded_inj _ d Hcf); [done|done|exact Hfit|]. unfold d. congruence.
Qed.

(** ** Witnesses *)

(** One-byte tags. *)
Definition sample_tags : NodeTags :=
  {| LEAF_TAG := [Byte.x00]; BRANCH_TAG := [Byte.x01]; EMPTY_TAG := [Byte.x02] |}.

Definition sample_leaves (l : list Z) : list (array 32) :=
  (fun x => @hash_leaf toy_hasher sample_tags [byte.of_Z x]) <$> l.

Lemma finalize_padded_witness :
  exists b, @add_all toy_hasher sample_tags 8 (sample_leaves [1; 2; 3; 4; 5]%Z) = Ok b /\
    @finalize toy_hasher sample_tags b (@compute_empty_hashes toy_hasher sample_tags 8)
    = Ok (@padded toy_hasher sample_tags 3 (sample_leaves [1; 2; 3; 4; 5]%Z)).
Proof.
  destruct (@finalize_padded toy_hasher sample_tags 8 (sample_leaves [1; 2; 3; 4; 5]%Z))
    as (b & E & _ & F & _); [vm_compute; lia|reflexivity|]. by exists b.
Defined.

Lemma finalize_binding_witness :
  branch_collision_free (H := toy_hasher) (H0 := sample_tags)
    (@branches toy_hasher sample_tags 2 (sample_leaves [1; 2; 3]%Z) ++
     @branches toy_hasher sample_tags 2 (sample_leaves [1; 2; 3]%Z)) /\
  sample_leaves [1; 2; 3]%Z = sample_leaves [1; 2; 3]%Z.
Proof.
  assert (branch_collision_free (H := toy_hasher) (H0 := sample_tags)
    (@branches toy_hasher sample_tags 2 (sample_leaves [1; 2; 3]%Z) ++
     @branches toy_hasher sample_tags 2 (sample_leaves [1; 2; 3]%Z))) as Hcf.
  { apply branch_collision_freeb_spec. vm_compute. reflexivity. }
  split; [exact Hcf|].
  destruct (@finalize_root toy_hasher sample_tags 8 (sample_leaves [1; 2; 3]%Z))
    as (b & E & _ & F & _); [vm_compute; lia|reflexivity|].
  apply (@finalize_binding toy_hasher sample_tags 8 (sample_leaves [1; 2; 3]%Z) (sample_leaves [1; 2; 3]%Z) b b _
    ltac:(vm_compute; lia) eq_refl eq_refl E E F F Hcf).
Defined.
