(* ===== verification/AtomicRing.v ===== *)
(** * AtomicRing: the rolling buffer of [core/atomics]

    A single writer pushes, replaces, truncates and prunes; the model is the writer's sequence of
    operations, each taken as atomic. [abs] reads a ring as a base index and a list of values;
    every operation refines the corresponding operation on lists. *)

From S2P Require Import Prelude Codec.

Module AtomicRing.
Section ring.
Context {V : Type}.

(** A slot holds the [(index, value)] last stored in it, or nothing. *)
Record t := { base : Z; tip : Z; slots : list (option (Z * V)) }.

Definition DEFAULT_CAPACITY : nat := 64.

Definition empty_slots (capacity : nat) : list (option (Z * V)) := replicate capacity None.

Definition with_capacity (base : Z) (capacity : nat) : Result t :=
  _ ← assert (0 <? capacity);
  Ok {| base := base; tip := base; slots := empty_slots capacity |}.

Definition new (base : Z) : t :=
  {| base := base; tip := base; slots := empty_slots DEFAULT_CAPACITY |}.

Definition next_index (r : t) : Z := tip r.

(** The position of an index in the slot array. *)
Definition slot (slots : list (option (Z * V))) (index : Z) : nat :=
  Z.to_nat (index `mod` Z.of_nat (length slots)).

Definition load (slots : list (option (Z * V))) (index : Z) : option (Z * V) :=
  slots !! slot slots index ≫= id.

(** Stores an entry and its tag. *)
Definition store (slots : list (option (Z * V))) (index : Z) (e : Z * V)
    : list (option (Z * V)) :=
  <[slot slots index := Some e]> slots.

(** Re-places the live entries, [n] of them from [index] on, skipping stale slots. *)
Fixpoint replace_into (old : list (option (Z * V))) (n : nat) (index : Z)
    (acc : list (option (Z * V))) : list (option (Z * V)) :=
  match n with
  | O => acc
  | S n =>
      replace_into old n (index + 1)
        (match load old index with
         | Some e => if (fst e =? index)%Z then store acc index e else acc
         | None => acc
         end)
  end.

Definition live_count (r : t) : nat := Z.to_nat (tip r - base r).

Definition grow (r : t) : t :=
  {| base := base r; tip := tip r;
     slots := replace_into (slots r) (live_count r) (base r) (empty_slots (length (slots r) * 2)) |}.

(** The source calls itself after each growth; the capacity doubles, and the live range is below
    2^64, so 65 rounds are enough. *)
Fixpoint push_loop (fuel : nat) (r : t) (value : V) : Result (Z * t) :=
  match fuel with
  | O => Panic
  | S fuel =>
      let index := next_index r in
      if (Z.of_nat (length (slots r)) <=? index - base r)%Z then push_loop fuel (grow r) value
      else Ok (index, {| base := base r; tip := ((index + 1) `mod` 2 ^ 64)%Z;
                         slots := store (slots r) index (index, value) |})
  end.

Definition push (r : t) (value : V) : Result (Z * t) := push_loop 65 r value.

Definition get (r : t) (index : Z) : option V :=
  if (index <? base r)%Z || (next_index r <=? index)%Z then None
  else
    match load (slots r) index with
    | Some (tag, v) => if (tag =? index)%Z then Some v else None
    | None => None
    end.

(** [with] reads through a function what [get] returns. *)
Definition with_ {R} (r : t) (index : Z) (read : V -> R) : option R := read <$> get r index.

Definition replace (r : t) (index : Z) (value : V) : t :=
  if (index <? base r)%Z || (next_index r <=? index)%Z then r
  else {| base := base r; tip := tip r; slots := store (slots r) index (index, value) |}.

Definition fork (r : t) : t :=
  {| base := base r; tip := tip r;
     slots := replace_into (slots r) (live_count r) (base r) (empty_slots (length (slots r))) |}.

Definition truncate_from (r : t) (from : Z) : t :=
  {| base := base r; tip := Z.min (Z.max from (base r)) (next_index r); slots := slots r |}.

Definition prune_below (r : t) (below : Z) : t :=
  {| base := Z.min (Z.max below (base r)) (next_index r); tip := tip r; slots := slots r |}.

(** ** The deque a ring stands for *)

(** [r] holds the values [l] at the indices from [b] on: each live index has its own entry in the
    slot it maps to. *)
Record holds (r : t) (b : Z) (l : list V) : Prop := {
  holds_base : base r = b;
  holds_tip : tip r = (b + Z.of_nat (length l))%Z;
  holds_u64 : (0 <= b /\ tip r < 2 ^ 64)%Z;
  holds_room : (0 < Z.of_nat (length (slots r)))%Z;
  holds_fit : length l <= length (slots r);
  holds_live i v : l !! i = Some v ->
    load (slots r) (b + Z.of_nat i) = Some ((b + Z.of_nat i)%Z, v)
}.

Lemma slot_lt slots index : (0 < Z.of_nat (length slots))%Z -> slot slots index < length slots.
Proof. intros H. unfold slot. pose proof (Z.mod_pos_bound index _ H). lia. Qed.

(** Two indices closer than the capacity do not share a slot. *)
Lemma slot_ne slots i j :
  (0 < Z.of_nat (length slots))%Z -> i <> j -> (Z.abs (i - j) < Z.of_nat (length slots))%Z ->
  slot slots i <> slot slots j.
Proof.
  intros Hl Hne Hd Heq. unfold slot in Heq.
  pose proof (Z.mod_pos_bound i _ Hl). pose proof (Z.mod_pos_bound j _ Hl).
  apply Z2Nat.inj in Heq; [|lia..].
  assert ((i - j) `mod` Z.of_nat (length slots) = 0)%Z as Hz
    by (by rewrite Zminus_mod, Heq, Z.sub_diag, Zmod_0_l).
  apply Z.mod_divide in Hz as [q Hq]; [|lia].
  rewrite Hq, Z.abs_mul in Hd. assert (q <> 0)%Z by (intros ->; lia). nia.
Qed.

Lemma length_store slots i e : length (store slots i e) = length slots.
Proof. apply length_insert. Qed.

Lemma load_store_eq slots i e : (0 < Z.of_nat (length slots))%Z -> load (store slots i e) i = Some e.
Proof.
  intros Hl. unfold load, store. unfold slot at 1. rewrite length_insert. fold (slot slots i).
  by rewrite list_lookup_insert_eq by (by apply slot_lt).
Qed.

Lemma load_store_ne slots i j e :
  (0 < Z.of_nat (length slots))%Z -> i <> j -> (Z.abs (i - j) < Z.of_nat (length slots))%Z ->
  load (store slots i e) j = load slots j.
Proof.
  intros Hl Hne Hd. unfold load, store. unfold slot at 1. rewrite length_insert. fold (slot slots j).
  by rewrite list_lookup_insert_ne by (by apply slot_ne).
Qed.

(** Re-placing live entries: what is loaded at a live index is what the old array had there. *)
Lemma replace_into_spec old : forall l b acc,
  (0 < Z.of_nat (length acc))%Z -> length l <= length acc ->
  (forall i v, l !! i = Some v -> load old (b + Z.of_nat i) = Some ((b + Z.of_nat i)%Z, v)) ->
  let acc' := replace_into old (length l) b acc in
  length acc' = length acc /\
  (forall i v, l !! i = Some v -> load acc' (b + Z.of_nat i) = Some ((b + Z.of_nat i)%Z, v)) /\
  (forall j, (b - Z.of_nat (length acc) + Z.of_nat (length l) <= j < b)%Z -> load acc' j = load acc j).
Proof.
  induction l as [|x l IH]; intros b acc Hroom Hfit Hold; cbv zeta; cbn [length replace_into].
  { split; [done|]. split; [done|]. done. }
  pose proof (Hold 0 x eq_refl) as H0. rewrite Z.add_0_r in H0. rewrite H0. cbn [fst]. rewrite Z.eqb_refl.
  cbn [length] in Hfit.
  destruct (IH (b + 1)%Z (store acc b (b, x))) as (Hlen & Hlive & Hrest).
  - by rewrite length_store.
  - rewrite length_store. lia.
  - intros i v Hi. specialize (Hold (S i) v Hi).
    by replace (b + 1 + Z.of_nat i)%Z with (b + Z.of_nat (S i))%Z by lia.
  - rewrite length_store in *. split; [done|]. split.
    + intros [|i] v Hi.
      * cbn in Hi. injection Hi as <-. rewrite Z.add_0_r, Hrest by lia. by apply load_store_eq.
      * specialize (Hlive i v Hi). by replace (b + 1 + Z.of_nat i)%Z with (b + Z.of_nat (S i))%Z in Hlive by lia.
    + intros j Hj. rewrite Hrest by lia. apply load_store_ne; [done|lia|lia].
Qed.

Lemma length_empty_slots n : length (empty_slots n) = n.
Proof. apply length_replicate. Qed.

Lemma live_count_holds r b l : holds r b l -> live_count r = length l.
Proof. intros [Hb Ht _ _ _ _]. unfold live_count. lia. Qed.

Lemma copy_holds r b l n :
  holds r b l -> length l <= n -> 0 < n ->
  holds {| base := base r; tip := tip r;
           slots := replace_into (slots r) (live_count r) (base r) (empty_slots n) |} b l.
Proof.
  intros Hh Hn Hpos. pose proof Hh as [Hb Ht Hu Hroom Hfit Hlive].
  rewrite (live_count_holds r b l Hh), Hb.
  destruct (replace_into_spec (slots r) l b (empty_slots n)) as (Hlen & Hl & _);
    [rewrite length_empty_slots; lia|by rewrite length_empty_slots|done|].
  rewrite length_empty_slots in Hlen. split; cbn [base tip slots]; try done.
  - rewrite Hlen. lia.
  - by rewrite Hlen.
Qed.

Lemma grow_holds r b l : holds r b l -> holds (grow r) b l.
Proof.
  intros Hh. pose proof Hh as [_ _ _ Hroom Hfit _]. apply copy_holds; [done|lia|lia].
Qed.

Lemma fork_holds r b l : holds r b l -> holds (fork r) b l.
Proof. intros Hh. pose proof Hh as [_ _ _ Hroom Hfit _]. apply copy_holds; [done|lia|lia]. Qed.

Lemma length_grow r b l : holds r b l -> length (slots (grow r)) = length (slots r) * 2.
Proof.
  intros Hh. pose proof Hh as [Hb _ _ Hroom Hfit Hlive]. unfold grow. cbn [slots].
  rewrite (live_count_holds r b l Hh), Hb.
  destruct (replace_into_spec (slots r) l b (empty_slots (length (slots r) * 2))) as (Hlen & _ & _);
    [rewrite length_empty_slots; lia|rewrite length_empty_slots; lia|done|].
  by rewrite Hlen, length_empty_slots.
Qed.

(** There is room, or there is after one growth. *)
Lemma push_room_holds fuel r b l v :
  holds r b l -> length l < length (slots r) -> (b + Z.of_nat (length l) + 1 < 2 ^ 64)%Z ->
  exists r', push_loop (S fuel) r v = Ok ((b + Z.of_nat (length l))%Z, r') /\ holds r' b (l ++ [v]).
Proof.
  intros [Hb Ht Hu Hroom Hfit Hlive] Hlt Hmax. cbn [push_loop]. unfold next_index.
  rewrite (proj2 (Z.leb_gt _ _)) by lia. rewrite Ht. eexists. split; [reflexivity|].
  rewrite Z.mod_small by lia.
  split; cbn [base tip slots]; rewrite ?length_store, ?length_app; cbn [length]; try lia.
  intros i w Hi. apply lookup_app_Some in Hi as [Hi|[Hge Hi]].
  - rewrite load_store_ne; [by apply Hlive|done|..]; apply lookup_lt_Some in Hi; lia.
  - apply list_lookup_singleton_Some in Hi as [Hi <-].
    replace i with (length l) by lia. by apply load_store_eq.
Qed.

Lemma push_holds r b l v :
  holds r b l -> (b + Z.of_nat (length l) + 1 < 2 ^ 64)%Z ->
  exists r', push r v = Ok ((b + Z.of_nat (length l))%Z, r') /\ holds r' b (l ++ [v]).
Proof.
  intros Hh Hmax. unfold push. pose proof Hh as [Hb Ht _ Hroom Hfit _].
  destruct (Nat.lt_ge_cases (length l) (length (slots r))) as [Hlt|Hge].
  { by apply push_room_holds. }
  change (push_loop 65 r v) with
    (if (Z.of_nat (length (slots r)) <=? next_index r - base r)%Z then push_loop 64 (grow r) v
     else Ok (next_index r, {| base := base r; tip := ((next_index r + 1) `mod` 2 ^ 64)%Z;
                               slots := store (slots r) (next_index r) (next_index r, v) |})).
  unfold next_index at 1. rewrite (proj2 (Z.leb_le _ _)) by lia.
  apply push_room_holds; [by apply grow_holds|rewrite (length_grow r b l) by done; lia|done].
Qed.

Lemma get_holds r b l i :
  holds r b l -> get r i = if (i <? b)%Z then None else l !! Z.to_nat (i - b).
Proof.
  intros [Hb Ht Hu Hroom Hfit Hlive]. unfold get, next_index. rewrite Hb.
  destruct (Z.ltb_spec i b) as [|Hge]; [done|]. cbn [orb].
  destruct (Z.leb_spec (tip r) i) as [Hout|Hin].
  - symmetry. apply lookup_ge_None. lia.
  - destruct (lookup_lt_is_Some_2 l (Z.to_nat (i - b)) ltac:(lia)) as [v Hv]. rewrite Hv.
    specialize (Hlive _ _ Hv). replace (b + Z.of_nat (Z.to_nat (i - b)))%Z with i in Hlive by lia.
    by rewrite Hlive, Z.eqb_refl.
Qed.

Lemma replace_holds r b l i v :
  holds r b l ->
  holds (replace r i v) b (if (i <? b)%Z then l else <[Z.to_nat (i - b) := v]> l).
Proof.
  intros Hh. pose proof Hh as [Hb Ht Hu Hroom Hfit Hlive]. unfold replace, next_index. rewrite Hb.
  destruct (Z.ltb_spec i b) as [|Hge]; [done|]. cbn [orb].
  destruct (Z.leb_spec (tip r) i) as [Hout|Hin].
  - by rewrite list_insert_ge by lia.
  - split; cbn [base tip slots]; rewrite ?length_store, ?length_insert; try done.
    intros j w Hj. destruct (decide (Z.to_nat (i - b) = j)) as [<-|Hne].
    + rewrite list_lookup_insert_eq in Hj by lia. injection Hj as <-.
      replace (b + Z.of_nat (Z.to_nat (i - b)))%Z with i by lia. by apply load_store_eq.
    + rewrite list_lookup_insert_ne in Hj by done. rewrite load_store_ne; [by apply Hlive|done|..];
        apply lookup_lt_Some in Hj; lia.
Qed.

Lemma truncate_holds r b l from :
  holds r b l -> holds (truncate_from r from) b (take (Z.to_nat (from - b)) l).
Proof.
  intros [Hb Ht Hu Hroom Hfit Hlive]. split; cbn [truncate_from base tip slots]; unfold next_index;
    rewrite ?length_take, ?Hb; try done; try lia.
  intros i v Hi. apply lookup_take_Some in Hi as [Hi _]. by apply Hlive.
Qed.

Lemma prune_holds r b l below :
  holds r b l ->
  holds (prune_below r below) (Z.min (Z.max below b) (b + Z.of_nat (length l)))
    (drop (Z.to_nat (below - b)) l).
Proof.
  intros [Hb Ht Hu Hroom Hfit Hlive]. split; cbn [prune_below base tip slots]; unfold next_index;
    rewrite ?length_drop, ?Hb, ?Ht; try done; try lia.
  intros i v Hi. rewrite lookup_drop in Hi. pose proof (lookup_lt_Some _ _ _ Hi).
  specialize (Hlive _ _ Hi).
  by replace (Z.min (Z.max below b) (b + Z.of_nat (length l)) + Z.of_nat i)%Z
    with (b + Z.of_nat (Z.to_nat (below - b) + i))%Z by lia.
Qed.

Lemma new_holds b : (0 <= b < 2 ^ 64)%Z -> holds (new b) b [].
Proof. intros Hb. split; cbn -[Z.pow]; try lia; done. Qed.
End ring.
Arguments t : clear implicits.

(** ** Sequences of operations *)

Inductive op (V : Type) :=
| Push (v : V)
| Replace (index : Z) (v : V)
| Fork
| Truncate (from : Z)
| Prune (below : Z).
Arguments Push {V} _.
Arguments Replace {V} _ _.
Arguments Fork {V}.
Arguments Truncate {V} _.
Arguments Prune {V} _.

Definition step {V} (r : t V) (o : op V) : Result (t V) :=
  match o with
  | Push v => snd <$> push r v
  | Replace i v => Ok (replace r i v)
  | Fork => Ok (fork r)
  | Truncate from => Ok (truncate_from r from)
  | Prune below => Ok (prune_below r below)
  end.

Definition run {V} (r : t V) (ops : list (op V)) : Result (t V) :=
  foldl (fun r o => r ← r; step r o) (Ok r) ops.

(** The same operations on a base index and a list. *)
Definition deque (V : Type) : Type := Z * list V.

Definition deque_step {V} (d : deque V) (o : op V) : deque V :=
  let '(b, l) := d in
  match o with
  | Push v => (b, l ++ [v])
  | Replace i v => (b, if (i <? b)%Z then l else <[Z.to_nat (i - b) := v]> l)
  | Fork => (b, l)
  | Truncate from => (b, take (Z.to_nat (from - b)) l)
  | Prune below => (Z.min (Z.max below b) (b + Z.of_nat (length l)), drop (Z.to_nat (below - b)) l)
  end.

Definition deque_get {V} (d : deque V) (i : Z) : option V :=
  if (i <? d.1)%Z then None else d.2 !! Z.to_nat (i - d.1).

Lemma step_holds {V} (r : t V) b l o :
  holds r b l -> (b + Z.of_nat (length l) + 1 < 2 ^ 64)%Z ->
  exists r', step r o = Ok r' /\ holds r' (deque_step (b, l) o).1 (deque_step (b, l) o).2 /\
    ((deque_step (b, l) o).1 + Z.of_nat (length (deque_step (b, l) o).2)
     <= b + Z.of_nat (length l) + 1)%Z.
Proof.
  intros Hh Hmax. destruct o as [v|i v| |from|below]; cbn [step deque_step fst snd].
  - destruct (push_holds r b l v Hh Hmax) as (r' & -> & Hr'). exists r'.
    split; [done|]. split; [done|]. rewrite length_app. cbn. lia.
  - eexists. split; [done|]. split; [by apply replace_holds|].
    destruct (i <? b)%Z; rewrite ?length_insert; lia.
  - eexists. split; [done|]. split; [by apply fork_holds|lia].
  - eexists. split; [done|]. split; [by apply truncate_holds|]. rewrite length_take. lia.
  - eexists. split; [done|]. split; [by apply prune_holds|]. rewrite length_drop. lia.
Qed.

Lemma run_holds {V} (ops : list (op V)) : forall r b l,
  holds r b l -> (b + Z.of_nat (length l) + Z.of_nat (length ops) < 2 ^ 64)%Z ->
  exists r', run r ops = Ok r' /\
    holds r' (foldl deque_step (b, l) ops).1 (foldl deque_step (b, l) ops).2.
Proof.
  unfold run. induction ops as [|o ops IH]; intros r b l Hh Hmax; [by exists r|].
  cbn [length foldl mbind outcome_bind] in *.
  destruct (step_holds r b l o Hh ltac:(lia)) as (r1 & -> & Hr1 & Hle).
  destruct (deque_step (b, l) o) as [b1 l1]. cbn [fst snd] in *. apply IH; [done|lia].
Qed.
End AtomicRing.

(** C35: the ring implements a deque: after any sequence of pushes, replacements, forks,
    truncations and prunings from an empty ring, growth and slot reuse included, no operation
    panics and every index reads what the same sequence leaves in a list, as long as indices stay
    below 2^64. *)
Theorem ring_refines_deque {V} (b : Z) (ops : list (AtomicRing.op V)) :
  (0 <= b)%Z -> (b + Z.of_nat (length ops) < 2 ^ 64)%Z ->
  exists r, AtomicRing.run (AtomicRing.new b) ops = Ok r /\
    forall i, AtomicRing.get r i
      = AtomicRing.deque_get (foldl AtomicRing.deque_step (b, []) ops) i.
Proof.
  intros Hb Hmax.
  destruct (AtomicRing.run_holds ops (AtomicRing.new b) b []) as (r & Hr & Hh);
    [apply AtomicRing.new_holds; lia|cbn [length]; lia|].
  exists r. split; [done|]. intros i. by rewrite (AtomicRing.get_holds _ _ _ i Hh).
Qed.

Lemma ring_refines_deque_witness :
  exists r, AtomicRing.run (AtomicRing.new 5)
      (AtomicRing.Push <$> seq 0 70) = Ok r /\ AtomicRing.get r 74 = Some 69.
Proof.
  destruct (@ring_refines_deque nat 5 (AtomicRing.Push <$> seq 0 70)) as (r & E & Hg); [done|done|].
  exists r. split; [done|]. rewrite Hg. vm_compute. reflexivity.
Defined.
