(* ===== verification/CanonicalChain.v ===== *)
(** * CanonicalChain: the fork-aware canonical bits of [storage/canonical-chain]

    Buckets and rings are shared objects ([Arc]): snapshots published earlier keep pointing at the
    objects the writer goes on mutating. The model is a heap of buckets and rings, snapshots hold
    locations in it, and every writer operation is a function on the heap.

    [debug] selects the build: debug builds check [debug_assert!] and arithmetic overflow, release
    builds do neither. *)

From S2P Require Import Prelude Codec Types AtomicRing.

(** ** bucket.rs *)

Definition CAPACITY : Z := 128.

Module Bucket.
(** Two 64-bit words. *)
Abbreviation t := (list Z).

Definition new : t := [0; 0]%Z.

Definition word (b : t) (i : nat) : Z := default 0%Z (b !! i).

(** The word and the mask of a bit. *)
Definition word_of (bit : Z) : nat := Z.to_nat (bit / 64).
Definition mask_of (bit : Z) : Z := Z.shiftl 1 (bit `mod` 64).

Definition get (b : t) (bit : Z) : bool :=
  (Z.land (Z.shiftr (word b (word_of bit)) (bit `mod` 64)) 1 =? 1)%Z.

Definition set (b : t) (bit : Z) : t :=
  <[word_of bit := Z.lor (word b (word_of bit)) (mask_of bit)]> b.

Definition edit (b : t) (o : Z * bool) : t :=
  let '(bit, value) := o in
  <[word_of bit :=
      if value : bool then Z.lor (word b (word_of bit)) (mask_of bit)
      else Z.land (word b (word_of bit)) (Z.lnot (mask_of bit))]> b.

(** The words of an independent copy with the edits applied. *)
Definition edited (b : t) (ops : list (Z * bool)) : t := foldl edit b ops.

(** Ids are 1-based [u64]s. *)
Definition locate (id : Z) : Z * Z :=
  let zero_based := ((id - 1) `mod` 2 ^ 64)%Z in
  (zero_based / CAPACITY, zero_based `mod` CAPACITY)%Z.
End Bucket.

(** ** The heap *)

Record heap := { buckets : list Bucket.t; rings : list (AtomicRing.t nat) }.

(** References are always valid; the defaults are never read. *)
Definition bucket (h : heap) (l : nat) : Bucket.t := default Bucket.new (buckets h !! l).
Definition ring (h : heap) (l : nat) : AtomicRing.t nat := default (AtomicRing.new 0) (rings h !! l).

Definition alloc_bucket (h : heap) (b : Bucket.t) : nat * heap :=
  (length (buckets h), {| buckets := buckets h ++ [b]; rings := rings h |}).
Definition alloc_ring (h : heap) (r : AtomicRing.t nat) : nat * heap :=
  (length (rings h), {| buckets := buckets h; rings := rings h ++ [r] |}).
Definition put_bucket (h : heap) (l : nat) (b : Bucket.t) : heap :=
  {| buckets := <[l := b]> (buckets h); rings := rings h |}.
Definition put_ring (h : heap) (l : nat) (r : AtomicRing.t nat) : heap :=
  {| buckets := buckets h; rings := <[l := r]> (rings h) |}.

Section build.
Context (debug : bool).

Definition debug_assert (c : bool) : Result unit := assert (negb debug || c).

(** [u64] subtraction: checked in debug builds, wrapping in release builds. *)
Definition sub_u64 (a b : Z) : Result Z :=
  _ ← debug_assert (b <=? a)%Z;
  Ok ((a - b) `mod` 2 ^ 64)%Z.

(** ** hot_zone.rs *)

Record HotZone := { tail_bucket : Z; tail : nat; last_sealed : nat }.

(** The bucket at [idx], or a fresh empty one beyond the hot zone. *)
Definition bucket_at (h : heap) (z : HotZone) (idx : Z) : nat * heap :=
  if (idx =? tail_bucket z)%Z then (tail z, h)
  else if (1 <=? tail_bucket z)%Z && (idx =? tail_bucket z - 1)%Z then (last_sealed z, h)
  else alloc_bucket h Bucket.new.

(** Seals buckets into the body while it ends before [target - 1]; every round pushes one, so
    [target] rounds are enough. *)
Fixpoint seal (fuel : nat) (h : heap) (z : HotZone) (target : Z) (body : nat) : Result heap :=
  if (AtomicRing.next_index (ring h body) + 1 <? target)%Z then
    match fuel with
    | O => Panic
    | S fuel =>
        let '(l, h) := bucket_at h z (AtomicRing.next_index (ring h body)) in
        '(_, r) ← AtomicRing.push (ring h body) l;
        seal fuel (put_ring h body r) z target body
    end
  else Ok h.

Definition roll_forward (h : heap) (z : HotZone) (target : Z) (body : nat) : Result (HotZone * heap) :=
  _ ← debug_assert (tail_bucket z <=? target)%Z;
  if (target =? tail_bucket z)%Z then Ok (z, h)
  else
    h ← seal (Z.to_nat target) h z target body;
    let '(tail, h) := alloc_bucket h Bucket.new in
    prev ← sub_u64 target 1;
    let '(last, h) := bucket_at h z prev in
    Ok ({| tail_bucket := target; tail := tail; last_sealed := last |}, h).

(** ** snapshot.rs *)

Record Snapshot := { tip : Z; hot_zone : HotZone; body : nat }.

Definition is_canonical (h : heap) (s : Snapshot) (id : Z) : bool :=
  if (id =? 0)%Z || (tip s <? id)%Z then false
  else
    let '(b, bit) := Bucket.locate id in
    let hot := hot_zone s in
    if (b =? tail_bucket hot)%Z then Bucket.get (bucket h (tail hot)) bit
    else if (1 <=? tail_bucket hot)%Z && (b =? tail_bucket hot - 1)%Z then
      Bucket.get (bucket h (last_sealed hot)) bit
    else
      default true (AtomicRing.with_ (ring h (body s)) b (fun sealed => Bucket.get (bucket h sealed) bit)).

(** ** chain.rs *)

(** The published snapshot, the heap it points into, and the writer flag. *)
Record chain := { mem : heap; current : Snapshot; writer : bool }.

(** An empty chain: two empty hot buckets and an empty ring. *)
Definition default_chain : chain :=
  {| mem := {| buckets := [Bucket.new; Bucket.new]; rings := [AtomicRing.new 0] |};
     current := {| tip := 0; hot_zone := {| tail_bucket := 0; tail := 0; last_sealed := 1 |}; body := 0 |};
     writer := false |}.

Definition claim_writer (c : chain) : Result chain :=
  _ ← assert (negb (writer c));
  Ok {| mem := mem c; current := current c; writer := true |}.
Definition release_writer (c : chain) : chain :=
  {| mem := mem c; current := current c; writer := false |}.

Definition publish (c : chain) (h : heap) (s : Snapshot) : chain :=
  {| mem := h; current := s; writer := writer c |}.

Definition append (c : chain) (id : Z) : Result chain :=
  let cur := current c in
  _ ← debug_assert (tip cur <? id)%Z;
  let '(b, bit) := Bucket.locate id in
  '(z, h) ← roll_forward (mem c) (hot_zone cur) b (body cur);
  let h := put_bucket h (tail z) (Bucket.set (bucket h (tail z)) bit) in
  Ok (publish c h {| tip := id; hot_zone := z; body := body cur |}).

(** [edits.entry(bucket).or_default().push((bit, false))] on a map in key order. *)
Fixpoint add_edit (b bit : Z) (edits : list (Z * list (Z * bool))) : list (Z * list (Z * bool)) :=
  match edits with
  | [] => [(b, [(bit, false)])]
  | (b', ops) :: rest =>
      if (b =? b')%Z then (b', ops ++ [(bit, false)]) :: rest
      else if (b <? b')%Z then (b, [(bit, false)]) :: edits
      else (b', ops) :: add_edit b bit rest
  end.

(** The ids [from ..= to]. *)
Definition id_range (from to : Z) : list Z := seqZ from (to - from + 1).

Definition collect_edits (ids : list Z) : list (Z * list (Z * bool)) :=
  foldl (fun edits id => let '(b, bit) := Bucket.locate id in add_edit b bit edits) [] ids.

Definition apply_edit (body : nat) (zh : HotZone * heap) (e : Z * list (Z * bool)) : HotZone * heap :=
  let '(z, h) := zh in
  let '(b, ops) := e in
  if (b =? tail_bucket z)%Z then
    let '(l, h) := alloc_bucket h (Bucket.edited (bucket h (tail z)) ops) in
    ({| tail_bucket := tail_bucket z; tail := l; last_sealed := last_sealed z |}, h)
  else if (1 <=? tail_bucket z)%Z && (b =? tail_bucket z - 1)%Z then
    let '(l, h) := alloc_bucket h (Bucket.edited (bucket h (last_sealed z)) ops) in
    ({| tail_bucket := tail_bucket z; tail := tail z; last_sealed := l |}, h)
  else
    match AtomicRing.get (ring h body) b with
    | Some sealed =>
        let '(l, h) := alloc_bucket h (Bucket.edited (bucket h sealed) ops) in
        (z, put_ring h body (AtomicRing.replace (ring h body) b l))
    | None => (z, h)
    end.

Definition rollback (c : chain) (new_tip : Z) : Result chain :=
  let cur := current c in
  _ ← debug_assert (new_tip <=? tip cur)%Z;
  let deep := (fst (Bucket.locate (new_tip + 1)) + 2 <=? tail_bucket (hot_zone cur))%Z in
  let '(body, h) :=
    if deep then alloc_ring (mem c) (AtomicRing.fork (ring (mem c) (body cur)))
    else (body cur, mem c) in
  '(z, h) ← roll_forward h (hot_zone cur) (tail_bucket (hot_zone cur)) body;
  let '(z, h) := foldl (apply_edit body) (z, h) (collect_edits (id_range (new_tip + 1) (tip cur))) in
  Ok (publish c h {| tip := new_tip; hot_zone := z; body := body |}).

Definition finalize (c : chain) (below : Z) : chain :=
  if (1 <? below)%Z then
    let l := body (current c) in
    publish c (put_ring (mem c) l
      (AtomicRing.prune_below (ring (mem c) l) (fst (Bucket.locate below)))) (current c)
  else c.

(** Sets the canonical bits in owned buckets; an id outside the live buckets panics. *)
Fixpoint set_bits (base_bucket : Z) (bs : list Bucket.t) (ids : list Z) : Result (list Bucket.t) :=
  match ids with
  | [] => Ok bs
  | id :: ids =>
      let '(b, bit) := Bucket.locate id in
      i ← sub_u64 b base_bucket;
      bk ← expect (bs !! Z.to_nat i);
      set_bits base_bucket (<[Z.to_nat i := Bucket.set bk bit]> bs) ids
  end.

(** Pushes the locations [first .. first + n] onto a ring. *)
Fixpoint push_all (r : AtomicRing.t nat) (first n : nat) : Result (AtomicRing.t nat) :=
  match n with
  | O => Ok r
  | S n => '(_, r) ← AtomicRing.push r first; push_all r (S first) n
  end.

Definition restore (c : chain) (base tip : Z) (canonical : list Z) : Result chain :=
  if (tip =? 0)%Z then Ok c
  else
    let base_bucket := fst (Bucket.locate base) in
    let tail_bucket := fst (Bucket.locate tip) in
    span ← sub_u64 tail_bucket base_bucket;
    bs ← set_bits base_bucket (replicate (Z.to_nat (span + 1)) Bucket.new) canonical;
    (* the owned buckets become the heap objects first .. first + count *)
    let count := length bs in
    let first := length (buckets (mem c)) in
    _ ← assert (0 <? count);
    let h := {| buckets := buckets (mem c) ++ bs; rings := rings (mem c) |} in
    let tail := first + (count - 1) in
    let '(last_sealed, h) :=
      if 2 <=? count then (first + (count - 2), h) else alloc_bucket h Bucket.new in
    r ← push_all (AtomicRing.new base_bucket) first (count - 2);
    let '(body, h) := alloc_ring h r in
    Ok (publish c h
      {| tip := tip;
         hot_zone := {| tail_bucket := tail_bucket; tail := tail; last_sealed := last_sealed |};
         body := body |}).
End build.

(** ** append_outcome.rs, manager.rs *)

Record AppendOutcome := { id : Z; is_new : bool }.

Module Manager.
Section manager.
Context (debug : bool) {M : Type} `{BatchMetadata M}.

(** [entries !! i] is the metadata of id [base + i]. *)
Record t := {
  chain_ : chain;
  base : Z;
  entries : list M;
  index : gmap (array 32) Z
}.

Definition with_chain (m : t) (c : chain) : t :=
  {| chain_ := c; base := base m; entries := entries m; index := index m |}.

(** The id assigned to a block hash. *)
Definition id_of (m : t) (block_hash : array 32) : option Z := index m !! block_hash.

Definition metadata (m : t) (id : Z) : option M :=
  if (id <? base m)%Z then None else entries m !! Z.to_nat (id - base m).

Definition push (m : t) (md : M) : Z * t :=
  let id := (base m + Z.of_nat (length (entries m)))%Z in
  (id, {| chain_ := chain_ m; base := base m; entries := entries m ++ [md];
          index := <[block_hash md := id]> (index m) |}).

(** Each step goes to a smaller live id, so as many rounds as entries are enough. *)
Fixpoint ancestry (fuel : nat) (m : t) (id : Z) : Result (list Z) :=
  match fuel with
  | O => Panic
  | S fuel =>
      md ← expect (metadata m id);
      let parent := parent_id md in
      if (parent <? base m)%Z || (id <=? parent)%Z then Ok [id]
      else rest ← ancestry fuel m parent; Ok (id :: rest)
  end.

Definition canonical_ancestry (m : t) (tip : Z) : Result (list Z) :=
  ancestry (length (entries m)) m tip.

(** Replays persisted entries; the first id sets the base. *)
Fixpoint replay (m : t) (tip : option Z) (es : list (Z * M)) : Result (t * option Z) :=
  match es with
  | [] => Ok (m, tip)
  | (id, md) :: es =>
      let m := match entries m with
               | [] => {| chain_ := chain_ m; base := id; entries := entries m; index := index m |}
               | _ => m
               end in
      let '(assigned, m) := push m md in
      _ ← debug_assert debug (assigned =? id)%Z;
      replay m (Some id) es
  end.

Definition new (c : chain) (es : list (Z * M)) : Result t :=
  c ← claim_writer c;
  '(m, tip) ← replay {| chain_ := c; base := 1; entries := []; index := ∅ |} None es;
  match tip with
  | None => Ok m
  | Some tip =>
      canonical ← canonical_ancestry m tip;
      c ← restore debug (chain_ m) (base m) tip canonical;
      Ok (with_chain m c)
  end.

Definition append (m : t) (md : M) : Result (AppendOutcome * t) :=
  match id_of m (block_hash md) with
  | Some id =>
      c ← (if (tip (current (chain_ m)) <? id)%Z then CanonicalChain.append debug (chain_ m) id
           else Ok (chain_ m));
      Ok ({| id := id; is_new := false |}, with_chain m c)
  | None =>
      let '(id, m) := push m md in
      c ← CanonicalChain.append debug (chain_ m) id;
      Ok ({| id := id; is_new := true |}, with_chain m c)
  end.

Definition rollback (m : t) (new_tip : Z) : Result t :=
  c ← CanonicalChain.rollback debug (chain_ m) new_tip;
  Ok (with_chain m c).

(** Drops finalized log entries; at most one per entry. *)
Fixpoint drop_entries (es : list M) (base : Z) (index : gmap (array 32) Z) (below : Z)
    : list M * Z * gmap (array 32) Z :=
  match es with
  | md :: rest =>
      if (base <? below)%Z then drop_entries rest (base + 1) (delete (block_hash md) index) below
      else (es, base, index)
  | [] => ([], base, index)
  end.

Definition finalize (m : t) (below : Z) : t :=
  let c := CanonicalChain.finalize (chain_ m) below in
  let '(es, b, ix) := drop_entries (entries m) (base m) (index m) below in
  {| chain_ := c; base := b; entries := es; index := ix |}.

Definition drop (m : t) : chain := release_writer (chain_ m).
End manager.
Arguments t : clear implicits.
End Manager.
