(* ===== verification/ChainProofs.v ===== *)
(** * ChainProofs: invariants of the canonical chain

    The heap invariant, the relation of a snapshot's reads to buckets, and the preservation of
    both by the writer's operations; the aliasing between the current snapshot and earlier ones is
    the content of [hist_ok]. *)

From S2P Require Import Prelude Codec Types AtomicRing CanonicalChain.

(** ** Bits *)

Definition bno (id : Z) : Z := ((id - 1) / CAPACITY)%Z.
Definition bbit (id : Z) : Z := ((id - 1) `mod` CAPACITY)%Z.

Lemma locate_id id : (1 <= id < 2 ^ 64)%Z -> Bucket.locate id = (bno id, bbit id).
Proof. intros Hid. unfold Bucket.locate. rewrite Z.mod_small by lia. done. Qed.

Lemma bbit_range id : (0 <= bbit id < 128)%Z.
Proof. by apply Z.mod_pos_bound. Qed.

Lemma bno_range id T : (1 <= id)%Z -> (bno id <= T <-> id <= 128 * (T + 1))%Z.
Proof.
  intros Hid. unfold bno, CAPACITY. split; intros Hle.
  - pose proof (Z.div_mod (id - 1) 128). pose proof (Z.mod_pos_bound (id - 1) 128). lia.
  - apply Z.lt_succ_r. apply Z.div_lt_upper_bound; lia.
Qed.

Lemma bno_nonneg id : (1 <= id)%Z -> (0 <= bno id)%Z.
Proof. intros. apply Z.div_pos; unfold CAPACITY; lia. Qed.

Lemma bno_mono i j : (i <= j)%Z -> (bno i <= bno j)%Z.
Proof. intros. apply Z.div_le_mono; unfold CAPACITY; lia. Qed.

Lemma id_of_position i j : bno i = bno j -> bbit i = bbit j -> i = j.
Proof.
  unfold bno, bbit. intros H1 H2.
  pose proof (Z.div_mod (i - 1) CAPACITY ltac:(done)). pose proof (Z.div_mod (j - 1) CAPACITY ltac:(done)). lia.
Qed.

Lemma word_of_lt bit : (0 <= bit < 128)%Z -> Bucket.word_of bit < 2.
Proof.
  intros Hb. unfold Bucket.word_of.
  assert (bit / 64 < 2)%Z by (apply Z.div_lt_upper_bound; lia). lia.
Qed.

Lemma get_testbit b bit :
  Bucket.get b bit = Z.testbit (Bucket.word b (Bucket.word_of bit)) (bit `mod` 64).
Proof.
  unfold Bucket.get. apply Bits.land_shiftr_testbit. by apply Z.mod_pos_bound.
Qed.

Lemma mask_testbit bit k :
  (0 <= k)%Z -> Z.testbit (Bucket.mask_of bit) k = (k =? bit `mod` 64)%Z.
Proof.
  intros Hk. unfold Bucket.mask_of. rewrite Z.shiftl_1_l.
  pose proof (Z.mod_pos_bound bit 64 ltac:(lia)).
  destruct (Z.eqb_spec k (bit `mod` 64)) as [->|Hne].
  - by apply Z.pow2_bits_true.
  - apply Z.pow2_bits_false. lia.
Qed.

(** Bits with the same word and the same place in it are the same. *)
Lemma bit_split i j :
  (0 <= i)%Z -> (0 <= j)%Z ->
  (i =? j)%Z = (Nat.eqb (Bucket.word_of i) (Bucket.word_of j)) && (i `mod` 64 =? j `mod` 64)%Z.
Proof.
  intros Hi Hj. unfold Bucket.word_of.
  pose proof (Z.div_mod i 64 ltac:(lia)). pose proof (Z.div_mod j 64 ltac:(lia)).
  pose proof (Z.div_pos i 64 Hi ltac:(lia)). pose proof (Z.div_pos j 64 Hj ltac:(lia)).
  destruct (Nat.eqb_spec (Z.to_nat (i / 64)) (Z.to_nat (j / 64))) as [E|E], (Z.eqb_spec (i `mod` 64) (j `mod` 64)) as [F|F];
    cbn [andb]; [apply Z.eqb_eq|apply Z.eqb_neq..]; try lia.
  all: intros ->; lia.
Qed.

Lemma get_update b i j f :
  length b = 2 -> (0 <= i < 128)%Z -> (0 <= j < 128)%Z ->
  Bucket.get (<[Bucket.word_of i := f]> b) j
  = if Nat.eqb (Bucket.word_of i) (Bucket.word_of j) then Z.testbit f (j `mod` 64) else Bucket.get b j.
Proof.
  intros Hl Hi Hj. rewrite !get_testbit. unfold Bucket.word. pose proof (word_of_lt i Hi).
  destruct (Nat.eqb_spec (Bucket.word_of i) (Bucket.word_of j)) as [E|E].
  - rewrite E, list_lookup_insert_eq by lia. done.
  - by rewrite list_lookup_insert_ne.
Qed.

Lemma get_set b i j :
  length b = 2 -> (0 <= i < 128)%Z -> (0 <= j < 128)%Z ->
  Bucket.get (Bucket.set b i) j = (i =? j)%Z || Bucket.get b j.
Proof.
  intros Hl Hi Hj. unfold Bucket.set. rewrite get_update, (bit_split i j) by (done || lia).
  destruct (Nat.eqb_spec (Bucket.word_of i) (Bucket.word_of j)) as [E|E]; [|done].
  pose proof (Z.mod_pos_bound j 64 ltac:(lia)).
  rewrite Z.lor_spec, mask_testbit, get_testbit, E by lia. rewrite (Z.eqb_sym (j `mod` 64)). apply orb_comm.
Qed.

Lemma get_clear b i j :
  length b = 2 -> (0 <= i < 128)%Z -> (0 <= j < 128)%Z ->
  Bucket.get (Bucket.edit b (i, false)) j = negb (i =? j)%Z && Bucket.get b j.
Proof.
  intros Hl Hi Hj. unfold Bucket.edit. rewrite get_update, (bit_split i j) by (done || lia).
  destruct (Nat.eqb_spec (Bucket.word_of i) (Bucket.word_of j)) as [E|E]; [|done].
  pose proof (Z.mod_pos_bound j 64 ltac:(lia)).
  rewrite Z.land_spec, Z.lnot_spec, mask_testbit, get_testbit, E by lia.
  rewrite (Z.eqb_sym (j `mod` 64)). apply andb_comm.
Qed.

Lemma length_edited b ops : length (Bucket.edited b ops) = length b.
Proof.
  revert b. induction ops as [|[i v] ops IH]; intros b; [done|]. cbn. rewrite IH. apply length_insert.
Qed.

(** Clearing a list of bits. *)
Lemma get_edited ops : forall b j,
  length b = 2 -> (0 <= j < 128)%Z ->
  Forall (fun o => (0 <= fst o < 128)%Z /\ snd o = false) ops ->
  Bucket.get (Bucket.edited b ops) j = bool_decide (j ∉ ops.*1) && Bucket.get b j.
Proof.
  induction ops as [|[i v] ops IH]; intros b j Hl Hj Hops; cbn.
  { by rewrite bool_decide_eq_true_2 by apply not_elem_of_nil. }
  apply Forall_cons in Hops as [[Hi Hv] Hops]. cbn in Hi, Hv. subst v.
  fold (Bucket.edit b (i, false)). fold (Bucket.edited (Bucket.edit b (i, false)) ops).
  rewrite IH by (done || (unfold Bucket.edit; by rewrite length_insert)).
  rewrite get_clear by done. rewrite andb_assoc. f_equal.
  destruct (Z.eqb_spec i j) as [->|Hne]; cbn [negb].
  - rewrite andb_false_r. symmetry. apply bool_decide_eq_false. set_solver.
  - rewrite andb_true_r. apply bool_decide_ext. set_solver.
Qed.

Lemma get_new j : Bucket.get Bucket.new j = false.
Proof.
  rewrite get_testbit. unfold Bucket.word, Bucket.new.
  destruct (Bucket.word_of j) as [|[|?]]; cbn; apply Z.testbit_0_l.
Qed.

(** ** The heap *)

(** The ring at [k] holds the live locations [rl] from bucket number [rb] on. *)
Definition ring_at (h : heap) (k : nat) (rb : Z) (rl : list nat) : Prop :=
  k < length (rings h) /\ AtomicRing.holds (ring h k) rb rl /\
  Forall (fun l => l < length (buckets h)) rl.

Definition heap_ok (h : heap) : Prop :=
  Forall (fun b : list Z => length b = 2) (buckets h) /\
  forall k, k < length (rings h) -> exists rb rl, ring_at h k rb rl.

Lemma bucket_length h l : heap_ok h -> length (bucket h l) = 2.
Proof.
  intros [Hb _]. unfold bucket. destruct (buckets h !! l) as [b|] eqn:E; [|done].
  rewrite Forall_forall in Hb. apply Hb. by eapply list_elem_of_lookup_2.
Qed.

Lemma holds_inj (r : AtomicRing.t nat) rb rl rb' rl' :
  AtomicRing.holds r rb rl -> AtomicRing.holds r rb' rl' -> rb = rb' /\ rl = rl'.
Proof.
  intros H1 H2.
  assert (rb = rb') as <- by (by rewrite <- (AtomicRing.holds_base _ _ _ H1), <- (AtomicRing.holds_base _ _ _ H2)).
  split; [done|]. apply list_eq. intros i.
  pose proof (AtomicRing.get_holds _ _ _ (rb + Z.of_nat i)%Z H1) as G1.
  rewrite (AtomicRing.get_holds _ _ _ _ H2) in G1.
  rewrite (proj2 (Z.ltb_ge _ _)) in G1 by lia.
  by replace (Z.to_nat (rb + Z.of_nat i - rb)) with i in G1 by lia.
Qed.

Lemma ring_at_inj h k rb rl rb' rl' : ring_at h k rb rl -> ring_at h k rb' rl' -> rb = rb' /\ rl = rl'.
Proof. intros (_ & H1 & _) (_ & H2 & _). by eapply holds_inj. Qed.

Lemma bucket_alloc h bk l : l < length (buckets h) ->
  bucket (alloc_bucket h bk).2 l = bucket h l.
Proof. intros Hl. unfold bucket. cbn. by rewrite lookup_app_l. Qed.

Lemma bucket_alloc_new h bk : bucket (alloc_bucket h bk).2 (length (buckets h)) = bk.
Proof. unfold bucket. cbn. by rewrite list_lookup_middle. Qed.

Lemma ring_put_eq h k r : k < length (rings h) -> ring (put_ring h k r) k = r.
Proof. intros Hk. unfold ring. cbn. by rewrite list_lookup_insert_eq. Qed.

Lemma ring_put_ne h k k' r : k <> k' -> ring (put_ring h k r) k' = ring h k'.
Proof. intros Hk. unfold ring. cbn. by rewrite list_lookup_insert_ne. Qed.

Lemma ring_alloc h r k : k < length (rings h) -> ring (alloc_ring h r).2 k = ring h k.
Proof. intros Hk. unfold ring. cbn. by rewrite lookup_app_l. Qed.

Lemma ring_alloc_new h r : ring (alloc_ring h r).2 (length (rings h)) = r.
Proof. unfold ring. cbn. by rewrite list_lookup_middle. Qed.

(** The heap grew: old buckets are unchanged, old rings are unchanged or longer. *)
Definition extends (h h' : heap) : Prop :=
  buckets h `prefix_of` buckets h' /\ length (rings h) <= length (rings h') /\
  forall k rb rl, ring_at h k rb rl -> exists ext, ring_at h' k rb (rl ++ ext).

Lemma extends_refl h : extends h h.
Proof. split; [done|]. split; [done|]. intros k rb rl Hr. exists []. by rewrite app_nil_r. Qed.

Lemma extends_trans h1 h2 h3 : extends h1 h2 -> extends h2 h3 -> extends h1 h3.
Proof.
  intros (Hb1 & Hl1 & Hr1) (Hb2 & Hl2 & Hr2). split; [by etrans|]. split; [lia|].
  intros k rb rl Hr. destruct (Hr1 _ _ _ Hr) as [e1 He1]. destruct (Hr2 _ _ _ He1) as [e2 He2].
  exists (e1 ++ e2). by rewrite app_assoc.
Qed.

Lemma extends_bucket h h' l : extends h h' -> l < length (buckets h) -> bucket h' l = bucket h l.
Proof. intros ([bs Hb] & _ & _) Hl. unfold bucket. by rewrite Hb, lookup_app_l. Qed.

Lemma extends_buckets h h' : extends h h' -> length (buckets h) <= length (buckets h').
Proof. intros (Hb & _ & _). by apply prefix_length. Qed.

Lemma ring_at_more h h' k rb rl :
  ring_at h k rb rl -> length (buckets h) <= length (buckets h') ->
  k < length (rings h') -> ring h' k = ring h k -> ring_at h' k rb rl.
Proof.
  intros (Hk & Hh & Hf) Hb Hk' Er. split; [done|]. rewrite Er. split; [done|].
  eapply Forall_impl; [exact Hf|]. cbn. lia.
Qed.

Lemma alloc_extends h bk : extends h (alloc_bucket h bk).2.
Proof.
  split; [by apply prefix_app_r|]. split; [done|]. intros k rb rl Hr. exists []. rewrite app_nil_r.
  eapply ring_at_more; [exact Hr|cbn; rewrite length_app; lia|apply Hr|done].
Qed.

Lemma alloc_heap_ok h bk : heap_ok h -> length bk = 2 -> heap_ok (alloc_bucket h bk).2.
Proof.
  intros [Hb Hr] Hl. split; [apply Forall_app; split; [done|by constructor]|].
  intros k Hk. destruct (Hr k Hk) as (rb & rl & Hra). exists rb, rl.
  eapply ring_at_more; [exact Hra|cbn; rewrite length_app; lia|done|done].
Qed.

(** ** What a snapshot reads *)

Definition at_zone (h : heap) (z : HotZone) (body : nat) (b : Z) : option nat :=
  if (b =? tail_bucket z)%Z then Some (tail z)
  else if (1 <=? tail_bucket z)%Z && (b =? tail_bucket z - 1)%Z then Some (last_sealed z)
  else AtomicRing.get (ring h body) b.

Abbreviation at_bucket h s := (at_zone h (hot_zone s) (body s)).

(** The bit of an id, disregarding the tip. *)
Definition read (h : heap) (s : Snapshot) (id : Z) : bool :=
  default true ((fun l => Bucket.get (bucket h l) (bbit id)) <$> at_bucket h s (bno id)).

Lemma is_canonical_read h s id :
  (1 <= id < 2 ^ 64)%Z -> is_canonical h s id = (id <=? tip s)%Z && read h s id.
Proof.
  intros Hid. unfold is_canonical. rewrite (proj2 (Z.eqb_neq id 0)) by lia. cbn [orb].
  rewrite Z.ltb_antisym. destruct (id <=? tip s)%Z; cbn [negb andb]; [|done].
  rewrite locate_id by done. unfold read, at_zone.
  destruct (bno id =? _)%Z; [done|]. destruct ((1 <=? _)%Z && _)%bool; [done|].
  unfold AtomicRing.with_. by destruct (AtomicRing.get _ _).
Qed.

Record snap_ok (h : heap) (s : Snapshot) : Prop := {
  so_tip : (0 <= tip s <= 128 * (tail_bucket (hot_zone s) + 1))%Z;
  so_bucket : (0 <= tail_bucket (hot_zone s))%Z;
  so_tail : tail (hot_zone s) < length (buckets h);
  so_last : last_sealed (hot_zone s) < length (buckets h);
  so_ring : exists rb rl, ring_at h (body s) rb rl /\
    (tail_bucket (hot_zone s) - 1 <= rb + Z.of_nat (length rl))%Z
}.

(** Growth of the heap does not change what a snapshot reads. *)
Lemma extends_at h h' s b :
  extends h h' -> snap_ok h s -> (b <= tail_bucket (hot_zone s))%Z ->
  at_bucket h' s b = at_bucket h s b.
Proof.
  intros (_ & _ & Hx) [_ HT _ _ (rb & rl & Hr & Hnext)] Hb. unfold at_zone.
  destruct (Z.eqb_spec b (tail_bucket (hot_zone s))) as [|Hne]; [done|].
  destruct ((1 <=? _)%Z && _)%bool eqn:E; [done|].
  destruct (Hx _ _ _ Hr) as [ext (_ & Hh' & _)]. destruct Hr as (_ & Hh & _).
  rewrite (AtomicRing.get_holds _ _ _ _ Hh), (AtomicRing.get_holds _ _ _ _ Hh').
  destruct (Z.ltb_spec b rb); [done|]. apply lookup_app_l.
  apply andb_false_iff in E. rewrite Z.leb_gt, Z.eqb_neq in E.
  pose proof (AtomicRing.holds_u64 _ _ _ Hh). lia.
Qed.

Lemma at_valid h s b l : heap_ok h -> snap_ok h s -> at_bucket h s b = Some l -> l < length (buckets h).
Proof.
  intros Hok [_ _ Ht Hl (rb & rl & (_ & Hh & Hf) & _)]. unfold at_zone.
  destruct (b =? _)%Z; [by intros [= <-]|]. destruct ((1 <=? _)%Z && _)%bool; [by intros [= <-]|].
  rewrite (AtomicRing.get_holds _ _ _ _ Hh). destruct (b <? rb)%Z; [done|]. intros Hin.
  rewrite Forall_forall in Hf. apply Hf. by eapply list_elem_of_lookup_2.
Qed.

Lemma extends_read h h' s id :
  extends h h' -> heap_ok h -> snap_ok h s -> (1 <= id <= 128 * (tail_bucket (hot_zone s) + 1))%Z ->
  read h' s id = read h s id.
Proof.
  intros Hx Hok Hs Hid. unfold read. rewrite (extends_at h h') by (done || (apply bno_range; lia)).
  destruct (at_bucket h s (bno id)) as [l|] eqn:E; [|done]. cbn.
  by rewrite (extends_bucket h h') by (done || by eapply at_valid).
Qed.

Lemma extends_snap h h' s : extends h h' -> snap_ok h s -> snap_ok h' s.
Proof.
  intros Hx [Ht HT Htail Hlast (rb & rl & Hr & Hn)]. pose proof (extends_buckets h h' Hx).
  split; [done|done|lia|lia|]. destruct Hx as (_ & _ & Hx). destruct (Hx _ _ _ Hr) as [ext Hr'].
  exists rb, (rl ++ ext). split; [done|]. rewrite length_app. lia.
Qed.

(** ** Sealing and rolling forward *)

(** What [bucket_at] finds or makes for bucket number [idx]. *)
Definition found (h h' : heap) (z : HotZone) (idx : Z) (l : nat) : Prop :=
  l < length (buckets h') /\
  (idx = tail_bucket z -> l = tail z) /\
  ((1 <= tail_bucket z)%Z -> idx = (tail_bucket z - 1)%Z -> l = last_sealed z) /\
  ((tail_bucket z < idx)%Z -> length (buckets h) <= l /\ bucket h' l = Bucket.new).

Lemma found_more h h0 h' h'' z idx l :
  found h0 h' z idx l -> length (buckets h) <= length (buckets h0) -> extends h' h'' ->
  found h h'' z idx l.
Proof.
  intros (Hl & Ht & Hla & Hf) Hle Hx. pose proof (extends_buckets _ _ Hx).
  split; [lia|]. split; [done|]. split; [done|]. intros Hlt. destruct (Hf Hlt) as [? ?].
  split; [lia|]. by rewrite (extends_bucket h' h'') by done.
Qed.

Lemma bucket_at_found h z idx l h' :
  heap_ok h -> tail z < length (buckets h) -> last_sealed z < length (buckets h) ->
  bucket_at h z idx = (l, h') ->
  heap_ok h' /\ extends h h' /\ rings h' = rings h /\ found h h' z idx l.
Proof.
  intros Hok Ht Hl. unfold bucket_at.
  destruct (Z.eqb_spec idx (tail_bucket z)) as [->|Hne].
  { intros [= <- <-]. split; [done|]. split; [apply extends_refl|]. split; [done|].
    split; [done|]. split; [done|]. split; lia. }
  destruct ((1 <=? tail_bucket z)%Z && (idx =? tail_bucket z - 1)%Z) eqn:E.
  { apply andb_true_iff in E as [E1 E2]. apply Z.leb_le in E1. apply Z.eqb_eq in E2.
    intros [= <- <-]. split; [done|]. split; [apply extends_refl|]. split; [done|].
    split; [done|]. split; [lia|]. split; [done|lia]. }
  intros [= <- <-]. split; [by apply (alloc_heap_ok h Bucket.new)|].
  split; [apply (alloc_extends h Bucket.new)|]. split; [done|].
  split; [cbn; rewrite length_app; cbn; lia|]. split; [lia|]. split.
  - intros H1 H2. rewrite (proj2 (Z.leb_le _ _)), (proj2 (Z.eqb_eq _ _)) in E by lia. done.
  - intros _. split; [done|]. apply (bucket_alloc_new h Bucket.new).
Qed.

Lemma put_ring_extends h k rb rl r ext :
  heap_ok h -> ring_at h k rb rl -> AtomicRing.holds r rb (rl ++ ext) ->
  Forall (fun l => l < length (buckets h)) ext ->
  heap_ok (put_ring h k r) /\ extends h (put_ring h k r) /\ ring_at (put_ring h k r) k rb (rl ++ ext).
Proof.
  intros [Hb Hr] Hat Hh Hf. pose proof Hat as (Hk & _ & Hrl).
  assert (ring_at (put_ring h k r) k rb (rl ++ ext)) as Hnew.
  { split; [by cbn; rewrite length_insert|]. rewrite ring_put_eq by done. split; [done|].
    apply Forall_app. by split. }
  assert (forall k', k' <> k -> k' < length (rings h) -> forall rb rl, ring_at h k' rb rl ->
    ring_at (put_ring h k r) k' rb rl) as Hother.
  { intros k' Hne Hk' rb' rl' Hr'. eapply ring_at_more; [exact Hr'|done|by cbn; rewrite length_insert|].
    by rewrite ring_put_ne. }
  split; [|split; [|done]].
  - split; [done|]. cbn. rewrite length_insert. intros k' Hk'.
    destruct (decide (k' = k)) as [->|Hne]; [by exists rb, (rl ++ ext)|].
    destruct (Hr k' Hk') as (rb' & rl' & Hr'). exists rb', rl'. by apply Hother.
  - split; [done|]. split; [by cbn; rewrite length_insert|]. intros k' rb' rl' Hr'.
    destruct (decide (k' = k)) as [->|Hne].
    + destruct (ring_at_inj _ _ _ _ _ _ Hat Hr') as [-> ->]. by exists ext.
    + exists []. rewrite app_nil_r. apply Hother; [done|apply Hr'|done].
Qed.

Lemma seal_spec fuel : forall h z target k rb rl,
  heap_ok h -> ring_at h k rb rl -> tail z < length (buckets h) -> last_sealed z < length (buckets h) ->
  (target < 2 ^ 64)%Z -> (target <= rb + Z.of_nat (length rl) + 1 + Z.of_nat fuel)%Z ->
  exists h' ext, seal fuel h z target k = Ok h' /\ heap_ok h' /\ extends h h' /\
    ring_at h' k rb (rl ++ ext) /\
    (rb + Z.of_nat (length (rl ++ ext)) = Z.max (rb + Z.of_nat (length rl)) (target - 1))%Z /\
    forall i l, ext !! i = Some l ->
      found h h' z (rb + Z.of_nat (length rl) + Z.of_nat i)%Z l.
Proof.
  induction fuel as [|fuel IH]; intros h z target k rb rl Hok Hr Ht Hl Hu Hf; cbn [seal];
    pose proof Hr as (Hk & Hh & _); unfold AtomicRing.next_index; rewrite (AtomicRing.holds_tip _ _ _ Hh);
    destruct (Z.ltb_spec (rb + Z.of_nat (length rl) + 1) target) as [Hlt|Hge]; try lia.
  1,3: exists h, []; rewrite app_nil_r; split; [done|]; split; [done|]; split; [apply extends_refl|];
    split; [done|]; split; [lia|done].
  destruct (bucket_at h z (rb + Z.of_nat (length rl))) as [l h1] eqn:Eb.
  destruct (bucket_at_found _ _ _ _ _ Hok Ht Hl Eb) as (Hok1 & Hx1 & Er1 & Hfound).
  pose proof (extends_buckets _ _ Hx1) as Hle1.
  assert (ring_at h1 k rb rl) as Hr1.
  { eapply ring_at_more; [exact Hr|done|by rewrite Er1|]. unfold ring. by rewrite Er1. }
  pose proof Hr1 as (_ & Hh1 & _).
  destruct (AtomicRing.push_holds _ _ _ l Hh1 ltac:(lia)) as (r & Hpush & Hr').
  rewrite Hpush. cbn [mbind outcome_bind].
  destruct (put_ring_extends h1 k rb rl r [l] Hok1 Hr1 Hr') as (Hok2 & Hx2 & Hr2);
    [constructor; [apply Hfound|done]|].
  destruct (IH (put_ring h1 k r) z target k rb (rl ++ [l]) Hok2 Hr2) as (h' & ext & Hs & Hok' & Hx' & Hrf & Hn & Hfs);
    [cbn; lia|cbn; lia|done|rewrite length_app; cbn; lia|].
  exists h', (l :: ext). split; [done|]. split; [done|].
  split; [eapply extends_trans; [exact Hx1|]; eapply extends_trans; [exact Hx2|exact Hx']|].
  replace (rl ++ l :: ext) with ((rl ++ [l]) ++ ext) by (by rewrite <- app_assoc).
  split; [done|]. rewrite !length_app in *. cbn [length] in *. split; [lia|].
  intros [|i] l' Hi; cbn in Hi.
  - injection Hi as <-. rewrite Z.add_0_r. eapply found_more; [exact Hfound|lia|].
    eapply extends_trans; [exact Hx2|exact Hx'].
  - specialize (Hfs i l' Hi). replace (rb + Z.of_nat (length rl) + Z.of_nat (S i))%Z
      with (rb + Z.of_nat (length rl + 1) + Z.of_nat i)%Z by lia.
    eapply found_more; [exact Hfs|cbn; lia|apply extends_refl].
Qed.

Definition tail_free (h : heap) (l : nat) : Prop :=
  forall k rb rl, ring_at h k rb rl -> l ∉ rl.

Lemma debug_assert_true debug c : c = true -> debug_assert debug c = Ok tt.
Proof. intros ->. unfold debug_assert, assert. by rewrite orb_true_r. Qed.

Lemma sub_u64_ok debug a b : (0 <= b <= a)%Z -> (a < 2 ^ 64)%Z -> sub_u64 debug a b = Ok (a - b)%Z.
Proof.
  intros Hb Ha. unfold sub_u64. rewrite debug_assert_true by (apply Z.leb_le; lia).
  cbn [mbind outcome_bind]. by rewrite Z.mod_small by lia.
Qed.

(** A fresh location is in no ring. *)
Lemma fresh_tail_free h bk : heap_ok h -> tail_free (alloc_bucket h bk).2 (length (buckets h)).
Proof.
  intros [_ Hr] k rb rl (Hk & Hh & Hf) Hin. destruct (Hr k Hk) as (rb' & rl' & Hr').
  assert (ring_at (alloc_bucket h bk).2 k rb' rl') as Hr2.
  { eapply ring_at_more; [exact Hr'|cbn; rewrite length_app; lia|done|done]. }
  destruct (ring_at_inj _ _ _ _ _ _ Hr2 (conj Hk (conj Hh Hf))) as [-> ->].
  destruct Hr' as (_ & _ & Hf'). rewrite Forall_forall in Hf'. specialize (Hf' _ Hin). cbn in Hf'. lia.
Qed.

Lemma tail_free_same_rings h h' l :
  tail_free h l -> heap_ok h -> rings h' = rings h -> length (buckets h) <= length (buckets h') -> tail_free h' l.
Proof.
  intros Hfree [_ Hr] Er Hle k rb rl Hat. pose proof Hat as (Hk & _). rewrite Er in Hk.
  destruct (Hr k Hk) as (rb' & rl' & Hr').
  assert (ring_at h' k rb' rl') as Hr2.
  { eapply ring_at_more; [exact Hr'|done|by rewrite Er|]. unfold ring. by rewrite Er. }
  destruct (ring_at_inj _ _ _ _ _ _ Hr2 Hat) as [-> ->]. by apply (Hfree k rb rl).
Qed.

Lemma roll_forward_spec debug h z target k rb rl :
  heap_ok h -> ring_at h k rb rl -> tail z < length (buckets h) -> last_sealed z < length (buckets h) ->
  (0 <= tail_bucket z < target)%Z -> (target < 2 ^ 64)%Z ->
  (tail_bucket z - 1 <= rb + Z.of_nat (length rl) <= tail_bucket z)%Z ->
  exists z' h' rl', roll_forward debug h z target k = Ok (z', h') /\ heap_ok h' /\ extends h h' /\
    tail_bucket z' = target /\ length (buckets h) <= tail z' < length (buckets h') /\
    bucket h' (tail z') = Bucket.new /\ tail_free h' (tail z') /\
    tail z' <> last_sealed z' /\ last_sealed z' < length (buckets h') /\
    ring_at h' k rb rl' /\ (rb + Z.of_nat (length rl') = target - 1)%Z /\
    (forall b, (b <= tail_bucket z)%Z ->
       ((rb + Z.of_nat (length rl) = tail_bucket z)%Z -> (tail_bucket z <= b)%Z) ->
       at_zone h' z' k b = at_zone h z k b) /\
    (forall b, (tail_bucket z < b <= target)%Z -> exists l, at_zone h' z' k b = Some l /\ bucket h' l = Bucket.new).
Proof.
  intros Hok Hr Ht Hl HT Hu Hnext. unfold roll_forward.
  rewrite debug_assert_true by (apply Z.leb_le; lia). cbn [mbind outcome_bind].
  rewrite (proj2 (Z.eqb_neq _ _)) by lia.
  pose proof (AtomicRing.holds_u64 _ _ _ (proj1 (proj2 Hr))) as [Hrb _].
  destruct (seal_spec (Z.to_nat target) h z target k rb rl Hok Hr Ht Hl Hu ltac:(lia))
    as (h1 & ext & Hs & Hok1 & Hx1 & Hr1 & Hn1 & Hf1).
  rewrite Hs. cbn [mbind outcome_bind].
  pose proof (extends_buckets _ _ Hx1) as Hle1. rewrite Z.max_r in Hn1 by lia.
  set (h2 := (alloc_bucket h1 Bucket.new).2).
  change (alloc_bucket h1 Bucket.new) with (length (buckets h1), h2).
  assert (heap_ok h2) as Hok2 by (by apply alloc_heap_ok).
  assert (extends h1 h2) as Hx2 by apply alloc_extends.
  assert (length (buckets h2) = S (length (buckets h1))) as Hlen2 by (cbn; rewrite length_app; cbn; lia).
  rewrite sub_u64_ok by lia. cbn [mbind outcome_bind].
  destruct (bucket_at h2 z (target - 1)) as [ll h3] eqn:Eb.
  destruct (bucket_at_found h2 z (target - 1) ll h3 Hok2 ltac:(lia) ltac:(lia) Eb) as (Hok3 & Hx3 & Er3 & Hfound).
  pose proof (extends_buckets _ _ Hx3) as Hle3.
  assert (ring_at h3 k rb (rl ++ ext)) as Hr3.
  { eapply ring_at_more; [exact Hr1|lia|rewrite Er3; apply Hr1|]. unfold ring. by rewrite Er3. }
  eexists _, h3, (rl ++ ext). split; [reflexivity|]. cbn [tail_bucket tail last_sealed].
  split; [done|]. split; [by eapply extends_trans; [exact Hx1|eapply extends_trans; [exact Hx2|]]|].
  split; [done|]. split; [lia|].
  split; [rewrite (extends_bucket h2 h3) by (done || lia); apply bucket_alloc_new|].
  split; [eapply tail_free_same_rings; [by apply fresh_tail_free|done|done|done]|].
  pose proof Hfound as (Hll & Hfa & Hfb & Hfc). split.
  { intros Heq. destruct (Z.lt_trichotomy (tail_bucket z) (target - 1)) as [H|[H|H]];
      [|specialize (Hfa (eq_sym H)); lia|lia]. destruct (Hfc H). lia. }
  split; [done|]. split; [done|]. split; [lia|].
  set (z' := {| tail_bucket := target; tail := length (buckets h1); last_sealed := ll |}).
  (* the bucket numbers the roll added to the ring, and the new last-sealed one *)
  assert (forall b, (rb + Z.of_nat (length rl) <= b < target)%Z -> exists l,
    at_zone h3 z' k b = Some l /\ found h h3 z b l) as Hnew.
  { intros b Hb. unfold at_zone. cbn [z' tail_bucket tail last_sealed].
    rewrite (proj2 (Z.eqb_neq b target)) by lia.
    destruct (Z.eqb_spec b (target - 1)) as [->|Hne].
    - rewrite (proj2 (Z.leb_le _ _)) by lia. exists ll. split; [done|].
      eapply found_more; [exact Hfound|lia|apply extends_refl].
    - rewrite andb_false_r, (AtomicRing.get_holds _ _ _ _ (proj1 (proj2 Hr3))).
      rewrite (proj2 (Z.ltb_ge _ _)), lookup_app_r by lia. rewrite length_app in Hn1.
      destruct (lookup_lt_is_Some_2 ext (Z.to_nat (b - rb) - length rl) ltac:(lia)) as [l El].
      exists l. split; [done|]. specialize (Hf1 _ _ El).
      replace (rb + Z.of_nat (length rl) + Z.of_nat (Z.to_nat (b - rb) - length rl))%Z with b in Hf1 by lia.
      eapply found_more; [exact Hf1|lia|]. by eapply extends_trans. }
  split.
  - intros b Hb Hfl. destruct (Z.lt_ge_cases b (rb + Z.of_nat (length rl))) as [Hlt|Hge].
    + unfold at_zone. cbn [z' tail_bucket tail last_sealed].
      rewrite !(proj2 (Z.eqb_neq b _)), !andb_false_r by lia.
      rewrite (AtomicRing.get_holds _ _ _ _ (proj1 (proj2 Hr3))), (AtomicRing.get_holds _ _ _ _ (proj1 (proj2 Hr))).
      destruct (Z.ltb_spec b rb); [done|]. apply lookup_app_l. lia.
    + destruct (Hnew b ltac:(lia)) as (l & -> & _ & Hfo1 & Hfo2 & _). unfold at_zone.
      destruct (Z.eqb_spec b (tail_bucket z)) as [E|E]; [by rewrite Hfo1|].
      rewrite (proj2 (Z.leb_le _ _)), (proj2 (Z.eqb_eq _ _)), Hfo2 by lia. done.
  - intros b Hb. destruct (Z.eq_dec b target) as [->|Hne].
    + exists (length (buckets h1)). split; [unfold at_zone; cbn [z' tail_bucket tail]; by rewrite Z.eqb_refl|].
      rewrite (extends_bucket h2 h3) by (done || lia). apply bucket_alloc_new.
    + destruct (Hnew b ltac:(lia)) as (l & Hl' & _ & _ & _ & Hfo). exists l. split; [done|]. apply Hfo. lia.
Qed.

(** ** The current snapshot and the earlier ones *)

(** The current snapshot reads the set [canon] from [floor] on; nothing above its tip is set. *)
Record cur_ok (h : heap) (s : Snapshot) (floor : Z) (canon : gset Z) : Prop := {
  co_snap : snap_ok h s;
  co_max : (tail_bucket (hot_zone s) < 2 ^ 56)%Z;
  co_sep : tail (hot_zone s) <> last_sealed (hot_zone s);
  co_free : tail_free h (tail (hot_zone s));
  co_ring : exists rb rl, ring_at h (body s) rb rl /\ (rb <= bno floor)%Z /\
    (tail_bucket (hot_zone s) - 1 <= rb + Z.of_nat (length rl) <= tail_bucket (hot_zone s))%Z /\
    ((rb + Z.of_nat (length rl) = tail_bucket (hot_zone s))%Z -> (tail_bucket (hot_zone s) <= bno floor)%Z);
  co_floor : (1 <= floor)%Z;
  co_bits id : (floor <= id <= 128 * (tail_bucket (hot_zone s) + 1))%Z ->
    read h s id = bool_decide (id ∈ canon);
  co_canon id : id ∈ canon -> (1 <= id <= tip s)%Z
}.

(** An earlier snapshot [s0] and the current one [s]: the bucket the writer mutates in place is
    invisible to [s0], or shared as its tail and above everything [s0] can read. *)
Record hist_ok (h : heap) (s s0 : Snapshot) : Prop := {
  ho_snap : snap_ok h s0;
  ho_bucket : (tail_bucket (hot_zone s0) <= tail_bucket (hot_zone s))%Z;
  ho_last : last_sealed (hot_zone s0) <> tail (hot_zone s);
  ho_tail : tail (hot_zone s0) = tail (hot_zone s) ->
    tail_bucket (hot_zone s0) = tail_bucket (hot_zone s) /\
    (tip s0 <= Z.max (tip s) (128 * tail_bucket (hot_zone s)))%Z
}.

(** Earlier snapshots survive a step and keep their answers from [floor] on. *)
Definition transfer (h : heap) (s : Snapshot) (h' : heap) (s' : Snapshot) (floor : Z) : Prop :=
  forall s0, hist_ok h s s0 -> hist_ok h' s' s0 /\
    forall id, (1 <= id)%Z -> (floor <= id)%Z -> is_canonical h' s0 id = is_canonical h s0 id.

Lemma transfer_trans h1 s1 h2 s2 h3 s3 fl :
  transfer h1 s1 h2 s2 fl -> transfer h2 s2 h3 s3 fl -> transfer h1 s1 h3 s3 fl.
Proof.
  intros H12 H23 s0 Hs. destruct (H12 s0 Hs) as [H2 E2]. destruct (H23 s0 H2) as [H3 E3].
  split; [done|]. intros id H1 Hfl. by rewrite E3, E2.
Qed.

Lemma transfer_weaken h s h' s' fl fl' :
  transfer h s h' s' fl -> (fl <= fl')%Z -> transfer h s h' s' fl'.
Proof.
  intros Ht Hle s0 Hs. destruct (Ht s0 Hs) as [H1 E]. split; [done|]. intros id Hid Hf. apply E; lia.
Qed.

Lemma cur_hist h s floor canon : cur_ok h s floor canon -> hist_ok h s s.
Proof.
  intros [Hs _ Hsep _ _ _ _ _]. split; [done|done|by intros E; apply Hsep|].
  intros _. split; [done|]. lia.
Qed.

(** Answers are decided by the reads of ids up to the tip. *)
Lemma is_canonical_ext h h' s id :
  snap_ok h s -> (tail_bucket (hot_zone s) < 2 ^ 56)%Z -> (1 <= id)%Z ->
  ((id <= tip s)%Z -> read h' s id = read h s id) -> is_canonical h' s id = is_canonical h s id.
Proof.
  intros [Htip _ _ _ _] HT Hid Hr. destruct (Z.le_gt_cases id (tip s)) as [Hle|Hgt].
  - rewrite !is_canonical_read by lia. by rewrite Hr.
  - unfold is_canonical. rewrite (proj2 (Z.ltb_lt _ _)) by done. by rewrite orb_true_r.
Qed.

Lemma cur_canonical h s floor canon id :
  cur_ok h s floor canon -> (floor <= id)%Z -> is_canonical h s id = bool_decide (id ∈ canon).
Proof.
  intros [Hs Hmax _ _ _ Hfl Hbits Hcan] Hid. pose proof (so_tip _ _ Hs).
  destruct (Z.le_gt_cases id (tip s)) as [Hle|Hgt].
  - rewrite is_canonical_read by lia. rewrite (proj2 (Z.leb_le _ _)), Hbits by lia. done.
  - unfold is_canonical. rewrite (proj2 (Z.ltb_lt _ _)), orb_true_r by done. symmetry.
    apply bool_decide_eq_false. intros Hin. apply Hcan in Hin. lia.
Qed.

(** Growing the heap under the same or a fresh tail. *)
Lemma extends_transfer h s h' s' fl :
  heap_ok h -> extends h h' -> (tail_bucket (hot_zone s) < 2 ^ 56)%Z ->
  (tail_bucket (hot_zone s) <= tail_bucket (hot_zone s'))%Z ->
  length (buckets h) <= tail (hot_zone s') \/
    (tail (hot_zone s') = tail (hot_zone s) /\ tail_bucket (hot_zone s') = tail_bucket (hot_zone s) /\
     (tip s <= Z.max (tip s') (128 * tail_bucket (hot_zone s)))%Z) ->
  transfer h s h' s' fl.
Proof.
  intros Hok Hx Hmax HT Hcase s0 [Hs HT0 Hlast Htail]. pose proof Hs as [_ _ Ht0 Hl0 _]. split.
  - split; [by eapply extends_snap|lia| |].
    + destruct Hcase as [Hfresh|[-> _]]; [lia|done].
    + intros E. destruct Hcase as [Hfresh|(Ez & ET & Htip)]; [lia|]. rewrite Ez in E.
      destruct (Htail E) as [? ?]. lia.
  - intros id Hid _. apply is_canonical_ext; [done|lia|done|]. intros Hle.
    apply extends_read; [done|done|done|]. pose proof (so_tip _ _ Hs). lia.
Qed.

Lemma roll_step debug h s target floor canon :
  heap_ok h -> cur_ok h s floor canon ->
  (tail_bucket (hot_zone s) <= target < 2 ^ 56)%Z ->
  exists z h', roll_forward debug h (hot_zone s) target (body s) = Ok (z, h') /\
    let s' := {| tip := tip s; hot_zone := z; body := body s |} in
    heap_ok h' /\ cur_ok h' s' floor canon /\ tail_bucket z = target /\ transfer h s h' s' floor.
Proof.
  intros Hok Hcur HT. destruct (Z.eq_dec target (tail_bucket (hot_zone s))) as [E|Hne].
  { exists (hot_zone s), h. unfold roll_forward. rewrite debug_assert_true by (apply Z.leb_le; lia).
    cbn [mbind outcome_bind]. rewrite E, Z.eqb_refl. split; [done|]. cbv zeta.
    split; [done|]. split; [by destruct s|]. split; [done|].
    apply extends_transfer; [done|apply extends_refl|apply Hcur|cbn; lia|right; cbn; lia]. }
  pose proof Hcur as [Hs Hmax Hsep Hfree (rb & rl & Hr & Hrb & Hnext & Hfull) Hfl Hbits Hcan].
  pose proof Hs as [Htip H0 Htl Hla _].
  destruct (roll_forward_spec debug h (hot_zone s) target (body s) rb rl Hok Hr Htl Hla ltac:(lia) ltac:(lia) Hnext)
    as (z & h' & rl' & E & Hok' & Hx & HTz & Hz & Hnew & Hfr & Hsep' & Hla' & Hr' & Hn' & Hsame & Hempty).
  exists z, h'. split; [done|]. cbv zeta. split; [done|]. split; [|split; [done|]].
  - split; cbn [tip hot_zone body]; try done; try lia.
    + split; cbn [tip hot_zone body]; try lia. exists rb, rl'. split; [done|lia].
    + exists rb, rl'. split; [done|]. split; [done|]. split; lia.
    + intros id Hid. unfold read. cbn [tip hot_zone body].
      destruct (Z.le_gt_cases (bno id) (tail_bucket (hot_zone s))) as [Hle|Hgt].
      * rewrite Hsame; [|done|intros Ef; pose proof (bno_mono floor id ltac:(lia)); specialize (Hfull Ef); lia].
        rewrite <- Hbits by (pose proof (proj1 (bno_range id _ ltac:(lia)) Hle); lia).
        unfold read. destruct (at_bucket h s (bno id)) as [l|] eqn:El; [|done]. cbn.
        by rewrite (extends_bucket h h') by (done || by eapply at_valid).
      * destruct (Hempty (bno id)) as (l & -> & Hl).
        { split; [done|]. apply bno_range; lia. }
        cbn. rewrite Hl, get_new. symmetry. apply bool_decide_eq_false. intros Hin. apply Hcan in Hin.
        destruct (Z.lt_irrefl (tail_bucket (hot_zone s))). apply (Z.lt_le_trans _ (bno id)); [lia|].
        apply bno_range; lia.
  - apply extends_transfer; [done|done|done|cbn; lia|left; cbn; lia].
Qed.

(** ** Appending *)

Lemma put_bucket_ring_at h l b k rb rl : ring_at (put_bucket h l b) k rb rl <-> ring_at h k rb rl.
Proof. unfold ring_at. cbn [put_bucket buckets rings]. by rewrite length_insert. Qed.

Lemma bucket_put h l l' b :
  l < length (buckets h) -> bucket (put_bucket h l b) l' = if decide (l = l') then b else bucket h l'.
Proof.
  intros Hl. unfold bucket. cbn. case_decide as E; [subst; by rewrite list_lookup_insert_eq|].
  by rewrite list_lookup_insert_ne.
Qed.

Lemma put_bucket_ok h l b : heap_ok h -> length b = 2 -> heap_ok (put_bucket h l b).
Proof.
  intros [Hb Hr] Hl. split; [by apply Forall_insert|]. intros k Hk.
  destruct (Hr k Hk) as (rb & rl & Hra). exists rb, rl. by apply put_bucket_ring_at.
Qed.

Lemma put_bucket_snap h l b s : snap_ok h s -> snap_ok (put_bucket h l b) s.
Proof.
  intros [? ? ? ? (rb & rl & Hr & ?)]. split; cbn; rewrite ?length_insert; try done.
  exists rb, rl. by rewrite put_bucket_ring_at.
Qed.

(** The tail location is read at the tail's bucket number only. *)
Lemma at_tail h s s0 b :
  tail_free h (tail (hot_zone s)) -> hist_ok h s s0 ->
  at_bucket h s0 b = Some (tail (hot_zone s)) ->
  b = tail_bucket (hot_zone s) /\
  (tip s0 <= Z.max (tip s) (128 * tail_bucket (hot_zone s)))%Z.
Proof.
  intros Hfree [[_ _ _ _ (rb & rl & Hr & _)] _ Hlast Htail]. unfold at_zone.
  destruct (Z.eqb_spec b (tail_bucket (hot_zone s0))) as [->|].
  { intros [= E]. by apply Htail. }
  destruct ((1 <=? _)%Z && _)%bool; [by intros [= E]|].
  rewrite (AtomicRing.get_holds _ _ _ _ (proj1 (proj2 Hr))). destruct (b <? rb)%Z; [done|].
  intros Hin. apply list_elem_of_lookup_2 in Hin. by apply (Hfree _ _ _ Hr) in Hin.
Qed.

Lemma set_step h s id floor canon :
  heap_ok h -> cur_ok h s floor canon -> (tip s < id)%Z -> bno id = tail_bucket (hot_zone s) ->
  let l := tail (hot_zone s) in
  let h' := put_bucket h l (Bucket.set (bucket h l) (bbit id)) in
  let s' := {| tip := id; hot_zone := hot_zone s; body := body s |} in
  heap_ok h' /\ cur_ok h' s' floor (canon ∪ {[id]}) /\ transfer h s h' s' floor.
Proof.
  intros Hok Hcur Hid HT l h' s'. pose proof Hcur as [Hs Hmax Hsep Hfree (rb & rl & Hr & Hrr) Hfl Hbits Hcan].
  pose proof Hs as [Htip H0 Htl Hla Hring]. fold l in Htl, Hfree.
  assert (128 * tail_bucket (hot_zone s) < id <= 128 * (tail_bucket (hot_zone s) + 1))%Z as Hrange.
  { rewrite <- HT. unfold bno, CAPACITY. pose proof (Z.div_mod (id - 1) 128 ltac:(lia)).
    pose proof (Z.mod_pos_bound (id - 1) 128 ltac:(lia)). lia. }
  (* one id at a time, in any snapshot *)
  assert (forall s0 i, hist_ok h s s0 -> (1 <= i)%Z ->
    read h' s0 i = read h s0 i || bool_decide (i = id /\ at_bucket h s0 (bno i) = Some l)) as Hread.
  { intros s0 i Hs0 Hi. unfold read. change (at_bucket h' s0) with (at_bucket h s0).
    destruct (at_bucket h s0 (bno i)) as [l0|] eqn:El; cbn; [|done].
    unfold h'. rewrite bucket_put by done. case_decide as Hd.
    - subst l0. rewrite get_set by (by apply bucket_length || apply bbit_range).
      rewrite orb_comm. f_equal. destruct (at_tail _ _ _ _ Hfree Hs0 El) as [Eb _].
      destruct (Z.eqb_spec (bbit id) (bbit i)) as [E|E]; symmetry.
      + apply bool_decide_eq_true. split; [|done]. apply id_of_position; congruence.
      + apply bool_decide_eq_false. by intros [-> _].
    - rewrite (bool_decide_eq_false_2 (i = id /\ _)), orb_false_r; [done|]. intros [_ [= E]]. by apply Hd. }
  split; [apply put_bucket_ok; [done|]; unfold Bucket.set; rewrite length_insert; by apply bucket_length|].
  split.
  - split; cbn [s' tip hot_zone body]; try done.
    + destruct (put_bucket_snap h l (Bucket.set (bucket h l) (bbit id)) s Hs) as [? ? ? ? ?].
      split; cbn [s' tip hot_zone body]; try done. lia.
    + intros k rb' rl' Hk. exact (Hfree k rb' rl' (proj1 (put_bucket_ring_at h l _ k rb' rl') Hk)).
    + exists rb, rl. split; [|exact Hrr]. exact (proj2 (put_bucket_ring_at h l _ _ rb rl) Hr).
    + intros i Hi. change (read h' s' i) with (read h' s i).
      rewrite (Hread s i (cur_hist _ _ _ _ Hcur)), Hbits by lia.
      rewrite <- bool_decide_or. apply bool_decide_ext. rewrite elem_of_union, elem_of_singleton.
      split; [intros [?|[? _]]; tauto|]. intros [?| ->]; [tauto|]. right. split; [done|].
      unfold at_zone. by rewrite HT, Z.eqb_refl.
    + intros i Hi. apply elem_of_union in Hi as [Hi|Hi]; [apply Hcan in Hi; lia|].
      apply elem_of_singleton in Hi as ->. lia.
  - intros s0 Hs0. pose proof Hs0 as [Hsn HTb Hlast Htail]. split.
    + split; cbn [s' tip hot_zone]; [by apply put_bucket_snap|done|done|].
      intros E. destruct (Htail E). split; [done|lia].
    + intros i Hi _. apply is_canonical_ext; [done|lia|done|]. intros Hle. rewrite Hread by done.
      rewrite (bool_decide_eq_false_2 (i = id /\ _)), orb_false_r; [done|]. intros [-> El].
      destruct (at_tail _ _ _ _ Hfree Hs0 El). lia.
Qed.

Lemma append_step debug c id floor canon :
  heap_ok (mem c) -> cur_ok (mem c) (current c) floor canon ->
  (tip (current c) < id <= 2 ^ 62)%Z -> (tail_bucket (hot_zone (current c)) <= bno id)%Z ->
  exists c', append debug c id = Ok c' /\ heap_ok (mem c') /\
    cur_ok (mem c') (current c') floor (canon ∪ {[id]}) /\
    tip (current c') = id /\ tail_bucket (hot_zone (current c')) = bno id /\
    transfer (mem c) (current c) (mem c') (current c') floor.
Proof.
  intros Hok Hcur Hid HT. unfold append. rewrite debug_assert_true by (apply Z.ltb_lt; lia).
  cbn [mbind outcome_bind]. pose proof (so_tip _ _ (co_snap _ _ _ _ Hcur)).
  rewrite locate_id by lia.
  assert (bno id < 2 ^ 56)%Z as Hb.
  { apply Z.div_lt_upper_bound; unfold CAPACITY; lia. }
  destruct (roll_step debug (mem c) (current c) (bno id) floor canon Hok Hcur ltac:(lia))
    as (z & h1 & E & Hok1 & Hcur1 & Hz & Ht1).
  rewrite E. cbn [mbind outcome_bind]. eexists. split; [reflexivity|]. cbn [publish mem current].
  destruct (set_step h1 {| tip := tip (current c); hot_zone := z; body := body (current c) |} id floor canon
    Hok1 Hcur1 ltac:(cbn; lia) ltac:(done)) as (Hok2 & Hcur2 & Ht2).
  cbn [tip hot_zone body] in *. split; [done|]. split; [done|]. split; [done|]. split; [done|].
  by eapply transfer_trans.
Qed.

(** ** Rolling back *)

(** The edits recorded for a bucket. *)
Fixpoint eget (b : Z) (edits : list (Z * list (Z * bool))) : option (list (Z * bool)) :=
  match edits with
  | [] => None
  | (b', ops) :: rest => if (b =? b')%Z then Some ops else eget b rest
  end.

Definition sorted_keys (edits : list (Z * list (Z * bool))) : Prop := StronglySorted Z.lt (edits.*1).

Lemma eget_below b edits : Forall (fun b' => (b < b')%Z) (edits.*1) -> eget b edits = None.
Proof.
  induction edits as [|[b' ops] rest IH]; intros Hf; [done|]. cbn in *.
  apply Forall_cons in Hf as [Hb Hf]. rewrite (proj2 (Z.eqb_neq _ _)) by lia. by apply IH.
Qed.

Lemma add_edit_keys b bit edits x : x ∈ (add_edit b bit edits).*1 -> x = b \/ x ∈ edits.*1.
Proof.
  induction edits as [|[b' ops] rest IH]; cbn; [set_solver|].
  destruct (b =? b')%Z; [set_solver|]. destruct (b <? b')%Z; cbn; set_solver.
Qed.

Lemma add_edit_sorted b bit edits : sorted_keys edits -> sorted_keys (add_edit b bit edits).
Proof.
  unfold sorted_keys. induction edits as [|[b' ops] rest IH]; intros Hs; cbn in *.
  { repeat constructor. }
  apply StronglySorted_inv in Hs as [Hs Hb].
  destruct (Z.eqb_spec b b') as [->|Hne]; [by constructor|].
  destruct (Z.ltb_spec b b') as [Hlt|Hge]; cbn.
  - constructor; [by constructor|]. constructor; [done|]. eapply Forall_impl; [exact Hb|]. cbn. lia.
  - constructor; [by apply IH|]. apply Forall_forall. intros x Hx.
    apply add_edit_keys in Hx as [->|Hx]; [lia|]. rewrite Forall_forall in Hb. by apply Hb.
Qed.

Lemma eget_add_edit b bit edits b' :
  sorted_keys edits ->
  eget b' (add_edit b bit edits)
  = if (b' =? b)%Z then Some (default [] (eget b edits) ++ [(bit, false)]) else eget b' edits.
Proof.
  unfold sorted_keys. induction edits as [|[b0 ops] rest IH]; intros Hs; cbn in *.
  { by destruct (b' =? b)%Z. }
  apply StronglySorted_inv in Hs as [Hs Hb]. destruct (Z.eqb_spec b b0) as [->|Hne]; cbn.
  { destruct (Z.eqb_spec b' b0); done. }
  destruct (Z.ltb_spec b b0) as [Hlt|Hge]; cbn.
  - rewrite (eget_below b rest); [by destruct (b' =? b)%Z|]. eapply Forall_impl; [exact Hb|]. cbn. lia.
  - rewrite IH by done. destruct (Z.eqb_spec b' b0) as [->|]; [|done].
    by rewrite (proj2 (Z.eqb_neq b0 b)) by lia.
Qed.

(** What [collect_edits] gathers: one group per bucket, each the bits of the ids in it. *)
Lemma collect_edits_spec ids :
  Forall (fun id => 1 <= id < 2 ^ 64)%Z ids ->
  sorted_keys (collect_edits ids) /\
  forall b, eget b (collect_edits ids)
    = match filter (fun id => bno id = b) ids with
      | [] => None
      | l => Some ((fun id => (bbit id, false)) <$> l)
      end.
Proof.
  unfold collect_edits. induction ids as [|id ids IH] using rev_ind; intros Hids.
  { split; [constructor|done]. }
  apply Forall_app in Hids as [Hids Hid]. apply Forall_inv in Hid. destruct (IH Hids) as [Hs Hg].
  rewrite foldl_app. cbn [foldl]. rewrite locate_id by done. split; [by apply add_edit_sorted|].
  intros b. rewrite eget_add_edit, filter_app, !Hg by done. rewrite filter_cons, filter_nil.
  destruct (Z.eqb_spec b (bno id)) as [->|Hne].
  - rewrite decide_True by done. destruct (filter _ ids) as [|x l]; [done|]. cbn. by rewrite fmap_app.
  - rewrite decide_False by done. by rewrite app_nil_r.
Qed.

(** A hot zone over a ring, with its tail apart from everything else. *)
Record zone_ok (h : heap) (z : HotZone) (k : nat) (rb : Z) (n : nat) : Prop := {
  zo_heap : heap_ok h;
  zo_tail : tail z < length (buckets h);
  zo_last : last_sealed z < length (buckets h);
  zo_sep : tail z <> last_sealed z;
  zo_free : tail_free h (tail z);
  zo_ring : exists rl, ring_at h k rb rl /\ length rl = n;
  zo_next : (0 <= tail_bucket z /\ rb + Z.of_nat n <= tail_bucket z)%Z
}.

(** What one or more edits of distinct buckets do: edited buckets move to fresh locations. *)
Record edited_zone (h : heap) (z : HotZone) (k : nat) (h' : heap) (z' : HotZone)
    (edits : list (Z * list (Z * bool))) : Prop := {
  ez_bucket : tail_bucket z' = tail_bucket z;
  ez_prefix : buckets h `prefix_of` buckets h';
  ez_rings : length (rings h') = length (rings h) /\
    (forall k', k' <> k -> ring h' k' = ring h k') /\
    (Forall (fun b => tail_bucket z - 1 <= b)%Z (edits.*1) -> rings h' = rings h);
  ez_tail : if bool_decide (is_Some (eget (tail_bucket z) edits))
            then length (buckets h) <= tail z' else tail z' = tail z;
  ez_at b : match eget b edits, at_zone h z k b with
            | None, o => at_zone h' z' k b = o
            | Some _, None => at_zone h' z' k b = None
            | Some ops, Some l => exists l', at_zone h' z' k b = Some l' /\
                length (buckets h) <= l' < length (buckets h') /\
                bucket h' l' = Bucket.edited (bucket h l) ops
            end
}.

Lemma zone_at_valid h z k rb n b l : zone_ok h z k rb n -> at_zone h z k b = Some l -> l < length (buckets h).
Proof.
  intros [_ Ht Hl _ _ (rl & (_ & Hh & Hf) & _) _]. unfold at_zone.
  destruct (b =? _)%Z; [by intros [= <-]|]. destruct ((1 <=? _)%Z && _)%bool; [by intros [= <-]|].
  rewrite (AtomicRing.get_holds _ _ _ _ Hh). destruct (b <? rb)%Z; [done|]. intros Hin.
  rewrite Forall_forall in Hf. apply Hf. by eapply list_elem_of_lookup_2.
Qed.

(** Allocation leaves the zone in place. *)
Lemma zone_alloc h z k rb n bk :
  zone_ok h z k rb n -> length bk = 2 -> zone_ok (alloc_bucket h bk).2 z k rb n.
Proof.
  intros [Hok Ht Hl Hsep Hfree (rl & Hr & Hn) Hnx] Hbk.
  split; cbn [alloc_bucket snd]; rewrite ?length_app; try (cbn; lia); try done.
  - by apply (alloc_heap_ok h bk).
  - cbn. rewrite length_app. cbn. lia.
  - cbn. rewrite length_app. cbn. lia.
  - eapply (tail_free_same_rings h); [done|done|done|cbn; rewrite length_app; lia].
  - exists rl. split; [|done]. eapply ring_at_more; [exact Hr|cbn; rewrite length_app; lia|apply Hr|done].
Qed.

Lemma ring_get_ok h k rb rl b : ring_at h k rb rl ->
  AtomicRing.get (ring h k) b = if (b <? rb)%Z then None else rl !! Z.to_nat (b - rb).
Proof. intros (_ & Hh & _). by apply AtomicRing.get_holds. Qed.

(** Replacing a live ring entry by a fresh bucket. *)
Lemma zone_replace h z k rb n b l0 bk :
  zone_ok h z k rb n -> length bk = 2 -> AtomicRing.get (ring h k) b = Some l0 ->
  let h1 := (alloc_bucket h bk).2 in
  let l := length (buckets h) in
  let h2 := put_ring h1 k (AtomicRing.replace (ring h1 k) b l) in
  zone_ok h2 z k rb n /\
  forall b', AtomicRing.get (ring h2 k) b'
    = if (b' =? b)%Z then Some l else AtomicRing.get (ring h k) b'.
Proof.
  intros Hz Hbk Hget h1 l h2. pose proof (zone_alloc h z k rb n bk Hz Hbk) as Hz1. fold h1 in Hz1.
  pose proof Hz as [_ Ht Hl _ _ _ _]. pose proof Hz1 as [Hok1 Ht1 Hl1 Hsep Hfree1 (rl & Hr1 & Hn) Hnx].
  pose proof Hr1 as (Hk & Hh1 & Hf1).
  change (ring h k) with (ring h1 k) in Hget |- *. pose proof (ring_get_ok _ _ _ _ b Hr1) as Hg.
  rewrite Hget in Hg. destruct (Z.ltb_spec b rb) as [|Hge]; [done|]. symmetry in Hg.
  pose proof (lookup_lt_Some _ _ _ Hg) as Hlt.
  pose proof (AtomicRing.replace_holds _ _ _ b l Hh1) as Hrep. rewrite (proj2 (Z.ltb_ge _ _)) in Hrep by lia.
  set (rl' := <[Z.to_nat (b - rb) := l]> rl) in *.
  assert (ring_at h2 k rb rl') as Hr2.
  { split; [by cbn; rewrite length_insert|]. split; [unfold h2; by rewrite ring_put_eq|].
    apply Forall_insert; [done|]. unfold h1, l. cbn. rewrite length_app. cbn. lia. }
  split.
  - split; try done.
    + destruct Hok1 as [Hb Hrs]. split; [done|]. intros k' Hk'. cbn in Hk'. rewrite length_insert in Hk'.
      destruct (decide (k' = k)) as [->|Hne]; [by exists rb, rl'|].
      destruct (Hrs k' Hk') as (rb' & rl0 & Hr0). exists rb', rl0.
      eapply ring_at_more; [exact Hr0|done|by cbn; rewrite length_insert|by apply ring_put_ne].
    + intros k' rb' rl0 Hr0. destruct (decide (k' = k)) as [->|Hne].
      * destruct (ring_at_inj _ _ _ _ _ _ Hr2 Hr0) as [<- <-]. intros Hin.
        apply list_elem_of_lookup_1 in Hin as [j Hj].
        apply list_lookup_insert_Some in Hj as [(_ & El & _)|[_ Hj]]; [lia|].
        by apply (Hfree1 _ _ _ Hr1), (list_elem_of_lookup_2 _ j).
      * apply (Hfree1 k' rb' rl0). pose proof Hr0 as (Hk0 & _). cbn in Hk0. rewrite length_insert in Hk0.
        eapply ring_at_more; [exact Hr0|done|done|]. symmetry. by apply ring_put_ne.
    + exists rl'. split; [done|]. unfold rl'. by rewrite length_insert.
  - intros b'. rewrite (ring_get_ok _ _ _ _ b' Hr2), (ring_get_ok _ _ _ _ b' Hr1).
    destruct (Z.eqb_spec b' b) as [->|Hne].
    + rewrite (proj2 (Z.ltb_ge _ _)) by lia. unfold rl'. by rewrite list_lookup_insert_eq.
    + destruct (Z.ltb_spec b' rb); [done|]. unfold rl'. by rewrite list_lookup_insert_ne by lia.
Qed.

Lemma prefix_bucket h h' l :
  buckets h `prefix_of` buckets h' -> l < length (buckets h) -> bucket h' l = bucket h l.
Proof. intros [bs Hb] Hl. unfold bucket. by rewrite Hb, lookup_app_l. Qed.

Lemma apply_edit_ok h z k rb n b ops :
  zone_ok h z k rb n ->
  let '(z', h') := apply_edit k (z, h) (b, ops) in
  zone_ok h' z' k rb n /\ edited_zone h z k h' z' [(b, ops)].
Proof.
  intros Hz. pose proof Hz as [Hok Ht Hl Hsep Hfree (rl & Hr & Hn) Hnx]. unfold apply_edit.
  assert (forall l, length (Bucket.edited (bucket h l) ops) = 2) as Hlen
    by (intros l; rewrite length_edited; by apply bucket_length).
  destruct (Z.eqb_spec b (tail_bucket z)) as [->|Hne]; cbn [alloc_bucket fst snd].
  { pose proof (zone_alloc h z k rb n _ Hz (Hlen (tail z))) as [Hok1 Ht1 Hl1 _ _ Hr1 _].
    split.
    - split; cbn [tail last_sealed tail_bucket]; try done;
        [cbn [buckets]; rewrite length_app; cbn; lia|lia|by apply (fresh_tail_free h)].
    - split; cbn [tail_bucket tail last_sealed buckets rings eget]; rewrite ?Z.eqb_refl; try done.
      + by apply prefix_app_r.
      + by rewrite bool_decide_eq_true_2.
      + intros b. unfold at_zone. cbn [tail_bucket tail last_sealed].
        destruct (Z.eqb_spec b (tail_bucket z)) as [->|Hne]; [|done].
        exists (length (buckets h)). split; [done|]. rewrite length_app. split; [cbn; lia|].
        apply (bucket_alloc_new h). }
  destruct ((1 <=? tail_bucket z)%Z && (b =? tail_bucket z - 1)%Z) eqn:E; cbn [alloc_bucket fst snd].
  { apply andb_true_iff in E as [E1 E2]. apply Z.leb_le in E1. apply Z.eqb_eq in E2.
    pose proof (zone_alloc h z k rb n _ Hz (Hlen (last_sealed z))) as [Hok1 Ht1 Hl1 _ Hf1 Hr1 _].
    split.
    - split; cbn [tail last_sealed tail_bucket]; try done; [cbn [buckets]; rewrite length_app; cbn; lia|lia].
    - split; cbn [tail_bucket tail last_sealed buckets rings eget]; try done.
      + by apply prefix_app_r.
      + by rewrite (proj2 (Z.eqb_neq _ _)) by lia.
      + intros b'. unfold at_zone. cbn [tail_bucket tail last_sealed].
        destruct (Z.eqb_spec b' b) as [->|Hb'].
        * rewrite (proj2 (Z.eqb_neq b (tail_bucket z))), (proj2 (Z.leb_le _ _)), (proj2 (Z.eqb_eq b _)) by done.
          cbn [andb]. exists (length (buckets h)). split; [done|]. rewrite length_app. split; [cbn; lia|].
          apply (bucket_alloc_new h).
        * destruct (b' =? tail_bucket z)%Z; [done|]. by rewrite (proj2 (Z.eqb_neq b' _)), andb_false_r by lia. }
  destruct (AtomicRing.get (ring h k) b) as [l0|] eqn:Eg; cbn [alloc_bucket fst snd].
  - destruct (zone_replace h z k rb n b l0 _ Hz (Hlen l0) Eg) as [Hz2 Hg2]. split; [done|].
    split; cbn [eget]; try done.
    + by apply prefix_app_r.
    + split; [by cbn; rewrite length_insert|]. split; [by intros k' Hk'; rewrite ring_put_ne|].
      intros Hf. apply Forall_inv in Hf. cbn in Hf. exfalso.
      apply andb_false_iff in E. rewrite Z.leb_gt, Z.eqb_neq in E.
      rewrite (ring_get_ok _ _ _ _ b Hr) in Eg. destruct (Z.ltb_spec b rb); [done|].
      apply lookup_lt_Some in Eg. pose proof (AtomicRing.holds_u64 _ _ _ (proj1 (proj2 Hr))). lia.
    + by rewrite (proj2 (Z.eqb_neq _ _)) by lia.
    + intros b'. unfold at_zone.
      destruct (Z.eqb_spec b' b) as [->|Hb'].
      * rewrite (proj2 (Z.eqb_neq b (tail_bucket z))), E, Eg by done.
        exists (length (buckets h)). rewrite Hg2, Z.eqb_refl. split; [done|].
        split; [cbn; rewrite length_app; cbn; lia|]. apply (bucket_alloc_new h).
      * destruct (b' =? tail_bucket z)%Z; [done|]. destruct ((1 <=? tail_bucket z)%Z && _)%bool; [done|].
        rewrite Hg2. by rewrite (proj2 (Z.eqb_neq b' b)).
  - split; [done|]. split; cbn [eget]; try done.
    + by rewrite (proj2 (Z.eqb_neq _ _)) by lia.
    + intros b'. destruct (Z.eqb_spec b' b) as [->|]; [|done]. unfold at_zone.
      by rewrite (proj2 (Z.eqb_neq b (tail_bucket z))), E, Eg by done.
Qed.

Lemma edited_zone_cons h z k rb n h1 z1 h' z' b ops edits :
  zone_ok h z k rb n -> edited_zone h z k h1 z1 [(b, ops)] -> edited_zone h1 z1 k h' z' edits ->
  eget b edits = None -> edited_zone h z k h' z' ((b, ops) :: edits).
Proof.
  intros Hz [Hb1 Hp1 (Hl1 & Ho1 & Hr1) Ht1 Hat1] [Hb2 Hp2 (Hl2 & Ho2 & Hr2) Ht2 Hat2] Hnone.
  pose proof (prefix_length _ _ Hp1) as Hle1. pose proof (prefix_length _ _ Hp2) as Hle2.
  split; [lia|by etrans| | |].
  - split; [lia|]. split; [intros k' Hk; by rewrite Ho2, Ho1|]. cbn. intros Hf.
    apply Forall_cons in Hf as [Hb Hf]. rewrite Hr2 by (by rewrite Hb1). apply Hr1. by repeat constructor.
  - cbn [eget] in *. rewrite Hb1 in Ht2. destruct (Z.eqb_spec (tail_bucket z) b) as [Eb|Hne].
    + rewrite Eb in Ht2. rewrite Hnone in Ht2. cbn in Ht1, Ht2 |- *. lia.
    + destruct (bool_decide (is_Some (eget (tail_bucket z) edits))); [lia|]. cbn in Ht1. congruence.
  - intros b'. specialize (Hat1 b'). specialize (Hat2 b'). cbn [eget] in *.
    destruct (Z.eqb_spec b' b) as [E|Hne]; [rewrite E in *; clear b' E|].
    + rewrite Hnone in Hat2. destruct (at_zone h z k b) as [l|]; [|congruence].
      destruct Hat1 as (l' & Ea & Hl' & Ebk). exists l'. split; [congruence|]. split; [lia|].
      by rewrite (prefix_bucket h1 h') by (done || lia).
    + rewrite Hat1 in Hat2. destruct (eget b' edits) as [ops'|]; [|done].
      destruct (at_zone h z k b') as [l|] eqn:El; [|done].
      destruct Hat2 as (l' & Ea & Hl' & Ebk). exists l'. split; [done|]. split; [lia|].
      by rewrite Ebk, (prefix_bucket h h1) by (done || by eapply zone_at_valid).
Qed.

Lemma apply_edits_ok k rb n edits : forall h z,
  zone_ok h z k rb n -> sorted_keys edits ->
  let '(z', h') := foldl (apply_edit k) (z, h) edits in
  zone_ok h' z' k rb n /\ edited_zone h z k h' z' edits.
Proof.
  induction edits as [|[b ops] edits IH]; intros h z Hz Hs; cbn [foldl].
  { split; [done|]. by split. }
  pose proof (apply_edit_ok h z k rb n b ops Hz) as Hone.
  destruct (apply_edit k (z, h) (b, ops)) as [z1 h1]. destruct Hone as [Hz1 He1].
  apply StronglySorted_inv in Hs as [Hs Hb]. specialize (IH h1 z1 Hz1 Hs).
  destruct (foldl (apply_edit k) (z1, h1) edits) as [z' h']. destruct IH as [Hz' He']. split; [done|].
  eapply edited_zone_cons; [exact Hz|exact He1|exact He'|]. by apply eget_below.
Qed.

(** The ring a rollback edits: the shared one, or a fork of it when sealed buckets change. *)
Lemma rollback_ring h z k rb n (deep : bool) :
  zone_ok h z k rb n ->
  let '(k', h') := if deep then alloc_ring h (AtomicRing.fork (ring h k)) else (k, h) in
  zone_ok h' z k' rb n /\ extends h h' /\ buckets h' = buckets h /\
  (forall b, at_zone h' z k' b = at_zone h z k b) /\
  (deep = true -> k' = length (rings h)) /\ (deep = false -> k' = k /\ h' = h).
Proof.
  intros Hz. destruct deep; cbn [alloc_ring].
  2:{ split; [done|]. split; [apply extends_refl|]. done. }
  pose proof Hz as [[Hbs Hrs] Ht Hl Hsep Hfree (rl & Hr & Hn) Hnx].
  pose proof (AtomicRing.fork_holds _ _ _ (proj1 (proj2 Hr))) as Hfork.
  set (h' := {| buckets := buckets h; rings := rings h ++ [AtomicRing.fork (ring h k)] |}).
  assert (ring_at h' (length (rings h)) rb rl) as Hr'.
  { split; [cbn; rewrite length_app; cbn; lia|]. split; [|apply Hr].
    change h' with (alloc_ring h (AtomicRing.fork (ring h k))).2. by rewrite ring_alloc_new. }
  assert (forall k', k' < length (rings h) -> ring h' k' = ring h k') as Hold.
  { intros k' Hk'. by apply (ring_alloc h). }
  assert (forall k' rb' rl', k' < length (rings h) -> ring_at h' k' rb' rl' <-> ring_at h k' rb' rl') as Hsame.
  { intros k' rb' rl' Hk'. unfold ring_at. rewrite Hold by done. cbn. rewrite length_app. cbn.
    split; intros (? & ? & ?); (split; [lia|done]). }
  split; [|split; [|split; [done|split; [|done]]]].
  - split; try done.
    + split; [done|]. intros k' Hk'. cbn in Hk'. rewrite length_app in Hk'. cbn in Hk'.
      destruct (decide (k' = length (rings h))) as [->|Hne]; [by exists rb, rl|].
      destruct (Hrs k' ltac:(lia)) as (rb' & rl' & Hr0). exists rb', rl'. apply Hsame; [lia|done].
    + intros k' rb' rl' Hr0. destruct (decide (k' = length (rings h))) as [->|Hne].
      * destruct (ring_at_inj _ _ _ _ _ _ Hr' Hr0) as [<- <-]. by apply (Hfree _ _ _ Hr).
      * apply (Hfree k' rb' rl'). pose proof Hr0 as (Hk & _). cbn in Hk. rewrite length_app in Hk. cbn in Hk.
        apply Hsame; [lia|done].
    + by exists rl.
  - split; [done|]. split; [cbn; rewrite length_app; lia|]. intros k' rb' rl' Hr0. exists [].
    rewrite app_nil_r. apply Hsame; [apply Hr0|done].
  - intros b. unfold at_zone. rewrite (ring_get_ok _ _ _ _ b Hr'), (ring_get_ok _ _ _ _ b Hr). done.
Qed.

Lemma cur_zone h s floor canon :
  heap_ok h -> cur_ok h s floor canon ->
  exists rb n, zone_ok h (hot_zone s) (body s) rb n /\ (rb <= bno floor)%Z /\
    (tail_bucket (hot_zone s) - 1 <= rb + Z.of_nat n)%Z /\
    ((rb + Z.of_nat n = tail_bucket (hot_zone s))%Z -> (tail_bucket (hot_zone s) <= bno floor)%Z).
Proof.
  intros Hok [[Htip H0 Ht Hl _] _ Hsep Hfree (rb & rl & Hr & Hrb & Hn & Hf) _ _ _].
  exists rb, (length rl). split; [|split; [done|split; [lia|done]]].
  split; try done; [by exists rl|lia].
Qed.

(** From the floor's bucket on, every bucket number up to the tail's is present. *)
Lemma zone_present h z k rb n b :
  zone_ok h z k rb n -> (rb <= b <= tail_bucket z)%Z -> (tail_bucket z - 1 <= rb + Z.of_nat n)%Z ->
  is_Some (at_zone h z k b).
Proof.
  intros [_ _ _ _ _ (rl & Hr & Hn) Hnx] Hb Hnext. unfold at_zone.
  destruct (Z.eqb_spec b (tail_bucket z)) as [|Hne]; [done|].
  destruct ((1 <=? tail_bucket z)%Z && (b =? tail_bucket z - 1)%Z) eqn:E; [done|].
  apply andb_false_iff in E. rewrite Z.leb_gt, Z.eqb_neq in E.
  rewrite (ring_get_ok _ _ _ _ b Hr), (proj2 (Z.ltb_ge _ _)) by lia. apply lookup_lt_is_Some_2.
  pose proof (AtomicRing.holds_u64 _ _ _ (proj1 (proj2 Hr))). lia.
Qed.

(** The bits of an edited zone: cleared for the edited ids, unchanged for the others. *)
Lemma edited_read h z k h' z' rb n ids t t' id :
  zone_ok h z k rb n -> edited_zone h z k h' z' (collect_edits ids) ->
  Forall (fun i => 1 <= i < 2 ^ 64)%Z ids -> is_Some (at_zone h z k (bno id)) ->
  read h' {| tip := t'; hot_zone := z'; body := k |} id
  = bool_decide (id ∉ ids) && read h {| tip := t; hot_zone := z; body := k |} id.
Proof.
  intros Hz He Hids [l El]. unfold read. cbn [hot_zone body].
  pose proof (ez_at _ _ _ _ _ _ He (bno id)) as Hat. rewrite El in *.
  destruct (collect_edits_spec ids Hids) as [_ Hg]. rewrite Hg in Hat.
  pose proof (zone_at_valid _ _ _ _ _ _ _ Hz El) as Hlv.
  destruct (filter (fun i => bno i = bno id) ids) as [|x xs] eqn:Ef.
  - rewrite Hat. cbn. rewrite bool_decide_eq_true_2; cbn.
    + by rewrite (prefix_bucket h h') by (done || by apply (ez_prefix _ _ _ _ _ _ He)).
    + intros Hin. apply (not_elem_of_nil id). rewrite <- Ef. by apply list_elem_of_filter.
  - destruct Hat as (l' & -> & _ & Hbk). cbn [fmap option_fmap option_map from_option].
    rewrite Hbk, get_edited; [|by apply bucket_length, (zo_heap _ _ _ _ _ Hz)|apply bbit_range|].
    + assert (((fun i => (bbit i, false)) <$> x :: xs).*1 = bbit <$> filter (fun i => bno i = bno id) ids)
        as -> by (by rewrite Ef, <- list_fmap_compose).
      unfold Datatypes.id. f_equal. apply bool_decide_ext. rewrite list_elem_of_fmap. split.
      * intros Hn Hin. apply Hn. exists id. split; [done|]. by apply list_elem_of_filter.
      * intros Hn (i & Hb & Hi). apply list_elem_of_filter in Hi as [Hbn Hi].
        by rewrite (id_of_position id i) in Hn.
    + apply Forall_fmap, Forall_forall. intros i _. cbn. split; [apply bbit_range|done].
Qed.

Lemma eget_key b edits : b ∈ edits.*1 -> is_Some (eget b edits).
Proof.
  induction edits as [|[b' ops] rest IH]; cbn; intros Hin; [by apply not_elem_of_nil in Hin|].
  apply elem_of_cons in Hin as [->|Hin]; [by rewrite Z.eqb_refl|]. destruct (b =? b')%Z; [done|auto].
Qed.

(** A rollback edits only fresh buckets and, when sealed ones change, only a fresh ring. *)
Lemma rollback_extends h z k h1 k1 h2 z2 rb n ids (deep : bool) :
  extends h h1 -> buckets h1 = buckets h -> zone_ok h1 z k1 rb n ->
  edited_zone h1 z k1 h2 z2 (collect_edits ids) -> Forall (fun i => 1 <= i < 2 ^ 64)%Z ids ->
  (deep = true -> k1 = length (rings h)) -> (deep = false -> k1 = k /\ h1 = h) ->
  (deep = false -> forall i, i ∈ ids -> (tail_bucket z - 1 <= bno i)%Z) ->
  extends h h2.
Proof.
  intros Hx Hb Hz [_ Hp (Hlen & Hother & Hsame) _ _] Hids Hdeep Hshallow Hkeys.
  pose proof Hx as (_ & Hl & Hrx). pose proof (prefix_length _ _ Hp).
  split; [by rewrite <- Hb|]. split; [lia|]. intros k' rb' rl' Hr. destruct (Hrx _ _ _ Hr) as [ext Hr1].
  exists ext. eapply ring_at_more; [exact Hr1|done|rewrite Hlen; apply Hr1|]. destruct deep.
  - apply Hother. rewrite Hdeep by done. destruct Hr as [Hk _]. lia.
  - unfold ring. rewrite Hsame; [done|]. apply Forall_forall. intros b Hin.
    apply eget_key in Hin as [ops Hops]. destruct (collect_edits_spec ids Hids) as [_ Hg].
    rewrite Hg in Hops. destruct (filter _ ids) as [|i l] eqn:Ef; [done|].
    assert (i ∈ filter (fun id => bno id = b) ids) as Hi by (rewrite Ef; by left).
    apply list_elem_of_filter in Hi as [<- Hi]. by apply Hkeys.
Qed.

Lemma rollback_step debug c n floor canon :
  heap_ok (mem c) -> cur_ok (mem c) (current c) floor canon -> (0 <= n <= tip (current c))%Z ->
  exists c', rollback debug c n = Ok c' /\ heap_ok (mem c') /\
    cur_ok (mem c') (current c') floor (filter (fun id => (id <= n)%Z) canon) /\
    tip (current c') = n /\
    tail_bucket (hot_zone (current c')) = tail_bucket (hot_zone (current c)) /\
    transfer (mem c) (current c) (mem c') (current c') floor.
Proof.
  intros Hok Hcur Hn. unfold rollback. rewrite debug_assert_true by (apply Z.leb_le; lia).
  cbn [mbind outcome_bind]. set (h := mem c) in *. set (s := current c) in *.
  destruct (cur_zone h s floor canon Hok Hcur) as (rb & m & Hz & Hrb & Hnext & Hfull).
  pose proof Hcur as [[Htip H0 _ _ _] Hmax _ _ _ Hfl Hbits Hcan].
  rewrite locate_id by lia. cbn [fst].
  set (deep := (bno (n + 1) + 2 <=? tail_bucket (hot_zone s))%Z).
  pose proof (rollback_ring h (hot_zone s) (body s) rb m deep Hz) as Hring.
  destruct (if deep then _ else _) as [k h1]. destruct Hring as (Hz1 & Hx1 & Hb1 & Hat1 & Hdeep & Hshallow).
  unfold roll_forward at 1. rewrite debug_assert_true by (apply Z.leb_le; lia).
  cbn [mbind outcome_bind]. rewrite Z.eqb_refl. cbn [mbind outcome_bind].
  set (ids := id_range (n + 1) (tip s)).
  assert (forall i, i ∈ ids <-> (n < i <= tip s)%Z) as Hin.
  { intros i. unfold ids, id_range. rewrite elem_of_seqZ. lia. }
  assert (Forall (fun i => 1 <= i < 2 ^ 64)%Z ids) as Hids.
  { apply Forall_forall. intros i Hi. apply Hin in Hi. lia. }
  destruct (collect_edits_spec ids Hids) as [Hsorted Hget].
  pose proof (apply_edits_ok k rb m (collect_edits ids) h1 (hot_zone s) Hz1 Hsorted) as Hed.
  destruct (foldl (apply_edit k) (hot_zone s, h1) (collect_edits ids)) as [z' h2]. destruct Hed as [Hz2 He].
  eexists. split; [reflexivity|]. cbn [publish mem current tip hot_zone body].
  pose proof Hz2 as [Hok2 Ht2 Hl2 Hsep2 Hfree2 (rl2 & Hr2 & Hlen2) Hnx2].
  pose proof He as [HT2 Hp2 (Hrl2 & Hother2 & Hsame2) Htail2 _].
  assert (extends h h2) as Hx.
  { eapply (rollback_extends h (hot_zone s) (body s) h1 k h2 z' rb m ids deep); try done.
    intros Hd i Hi. apply Hin in Hi. apply Z.leb_gt in Hd.
    pose proof (bno_mono (n + 1) i ltac:(lia)). lia. }
  split; [done|]. split; [|split; [done|split; [done|]]].
  - split; cbn [tip hot_zone body]; rewrite ?HT2; try done.
    + split; cbn [tip hot_zone body]; rewrite ?HT2; try done; [lia|]. exists rb, rl2. split; [done|lia].
    + exists rb, rl2. rewrite Hlen2. split; [done|]. split; [done|]. split; [lia|done].
    + intros id Hid. rewrite (edited_read h1 (hot_zone s) k h2 z' rb m ids (tip s) n id Hz1 He Hids).
      * assert (read h1 {| tip := tip s; hot_zone := hot_zone s; body := k |} id = read h s id) as ->.
        { unfold read, bucket. cbn [hot_zone body]. by rewrite Hat1, Hb1. }
        rewrite Hbits by lia. rewrite <- bool_decide_and. apply bool_decide_ext.
        rewrite elem_of_filter, Hin. split; [|intros [? Hc]; split; [lia|done]].
        intros [Hni Hc]. split; [|done]. apply Hcan in Hc. lia.
      * rewrite Hat1. eapply zone_present; [exact Hz| |done].
        pose proof (bno_mono floor id ltac:(lia)). split; [lia|]. apply bno_range; lia.
    + intros id Hid. apply elem_of_filter in Hid as [Hle Hid]. apply Hcan in Hid. lia.
  - apply extends_transfer; [done|done|done|cbn; lia|]. cbn [tip hot_zone].
    destruct (bool_decide_reflect (is_Some (eget (tail_bucket (hot_zone s)) (collect_edits ids)))) as [Hs|Hs].
    + left. by rewrite <- Hb1.
    + right. split; [done|]. split; [done|].
      destruct (Z.le_gt_cases (tip s) (Z.max n (128 * tail_bucket (hot_zone s)))) as [|Hgt]; [done|].
      exfalso. apply Hs. rewrite Hget.
      assert (tip s ∈ filter (fun id => bno id = tail_bucket (hot_zone s)) ids) as Hmem.
      { apply list_elem_of_filter. split; [|apply Hin; lia].
        pose proof (proj2 (bno_range (tip s) (tail_bucket (hot_zone s)) ltac:(lia)) ltac:(lia)).
        enough (tail_bucket (hot_zone s) <= bno (tip s))%Z by lia.
        unfold bno, CAPACITY. apply Z.div_le_lower_bound; lia. }
      destruct (filter _ ids); [by apply not_elem_of_nil in Hmem|done].
Qed.

(** ** Finalizing *)

(** Pruning the ring at [k] below bucket number [pb]. *)
Lemma prune_ring h k pb :
  heap_ok h -> k < length (rings h) ->
  let h' := put_ring h k (AtomicRing.prune_below (ring h k) pb) in
  heap_ok h' /\
  (forall k' rb rl, ring_at h k' rb rl -> exists rb' rl', ring_at h' k' rb' rl' /\
     (rb' + Z.of_nat (length rl') = rb + Z.of_nat (length rl))%Z /\ (rb' <= Z.max rb pb)%Z) /\
  (forall l, tail_free h l -> tail_free h' l) /\
  (forall k' b, k' < length (rings h) -> (pb <= b)%Z ->
     AtomicRing.get (ring h' k') b = AtomicRing.get (ring h k') b).
Proof.
  intros [Hbs Hrs] Hk h'. destruct (Hrs k Hk) as (rb & rl & Hr).
  pose proof (AtomicRing.prune_holds _ _ _ pb (proj1 (proj2 Hr))) as Hp.
  set (rb' := Z.min (Z.max pb rb) (rb + Z.of_nat (length rl))) in *. set (rl' := drop (Z.to_nat (pb - rb)) rl) in *.
  assert (length rl' = length rl - Z.to_nat (pb - rb)) as Hlen by apply length_drop.
  assert (ring_at h' k rb' rl') as Hr'.
  { split; [by cbn; rewrite length_insert|]. split; [unfold h'; by rewrite ring_put_eq|].
    apply Forall_drop, Hr. }
  assert (forall k' rb0 rl0, k' <> k -> ring_at h' k' rb0 rl0 <-> ring_at h k' rb0 rl0) as Hother.
  { intros k' rb0 rl0 Hne. unfold ring_at, h'. rewrite ring_put_ne by done. cbn. by rewrite length_insert. }
  assert (forall k' b, k' < length (rings h) -> (pb <= b)%Z ->
     AtomicRing.get (ring h' k') b = AtomicRing.get (ring h k') b) as Hget.
  { intros k' b Hk' Hb. destruct (decide (k' = k)) as [->|Hne]; [|unfold h'; by rewrite ring_put_ne].
    rewrite (ring_get_ok _ _ _ _ b Hr'), (ring_get_ok _ _ _ _ b Hr).
    destruct (Z.ltb_spec b rb') as [H1|H1], (Z.ltb_spec b rb) as [H2|H2]; try done; try lia.
    unfold rl'. rewrite lookup_drop. destruct (Z.le_gt_cases (Z.max pb rb) (rb + Z.of_nat (length rl))).
    - f_equal. lia.
    - rewrite !(proj2 (lookup_ge_None rl _)) by lia. done. }
  split; [|split; [|split; [|done]]].
  - split; [done|]. intros k' Hk'. cbn in Hk'. rewrite length_insert in Hk'.
    destruct (decide (k' = k)) as [->|Hne]; [by exists rb', rl'|].
    destruct (Hrs k' Hk') as (rb0 & rl0 & Hr0). exists rb0, rl0. by apply Hother.
  - intros k' rb0 rl0 Hr0. destruct (decide (k' = k)) as [->|Hne].
    + destruct (ring_at_inj _ _ _ _ _ _ Hr Hr0) as [<- <-]. exists rb', rl'. split; [done|]. lia.
    + exists rb0, rl0. split; [by apply Hother|]. lia.
  - intros l Hfree k' rb0 rl0 Hr0. destruct (decide (k' = k)) as [->|Hne].
    + destruct (ring_at_inj _ _ _ _ _ _ Hr' Hr0) as [<- <-]. intros Hin.
      apply list_elem_of_lookup_1 in Hin as [j Hj]. unfold rl' in Hj. rewrite lookup_drop in Hj.
      by apply (Hfree _ _ _ Hr), (list_elem_of_lookup_2 _ _ _ Hj).
    + apply (Hfree k' rb0 rl0). by apply Hother.
Qed.

Lemma finalize_step c below floor canon :
  heap_ok (mem c) -> cur_ok (mem c) (current c) floor canon -> (below < 2 ^ 64)%Z ->
  let c' := finalize c below in
  heap_ok (mem c') /\ cur_ok (mem c') (current c') (Z.max floor below) canon /\
  current c' = current c /\
  transfer (mem c) (current c) (mem c') (current c') (Z.max floor below).
Proof.
  intros Hok Hcur Hu c'. unfold c', finalize. pose proof (co_floor _ _ _ _ Hcur) as Hfl.
  destruct (Z.ltb_spec 1 below) as [Hb|Hb].
  2:{ rewrite Z.max_l by lia. split; [done|]. split; [done|]. split; [done|].
      intros s0 Hs0. split; [done|]. done. }
  rewrite locate_id by lia. cbn [fst publish mem current].
  set (h := mem c) in *. set (s := current c) in *.
  destruct Hcur as [Hs Hmax Hsep Hfree (rb & rl & Hr & Hrb & Hnext & Hfull) _ Hbits Hcan].
  destruct (prune_ring h (body s) (bno below) Hok (proj1 Hr)) as (Hok' & Hrings & Htf & Hget).
  set (h' := put_ring h (body s) _) in *.
  assert (forall s0, snap_ok h s0 -> snap_ok h' s0) as Hsnap.
  { intros s0 [? ? ? ? (rb0 & rl0 & Hr0 & Hn0)]. split; try done.
    destruct (Hrings _ _ _ Hr0) as (rb1 & rl1 & Hr1 & Hn1 & _). exists rb1, rl1. split; [done|lia]. }
  assert (forall s0 id, snap_ok h s0 -> (below <= id)%Z -> read h' s0 id = read h s0 id) as Hread.
  { intros s0 id [_ _ _ _ (rb0 & rl0 & Hr0 & _)] Hid. unfold read, at_zone.
    rewrite Hget; [done|apply Hr0|by apply bno_mono]. }
  pose proof (bno_mono floor (Z.max floor below) ltac:(lia)).
  pose proof (bno_mono below (Z.max floor below) ltac:(lia)).
  split; [done|]. split; [|split; [done|]].
  - split; try done; try lia.
    + by apply Hsnap.
    + by apply Htf.
    + destruct (Hrings _ _ _ Hr) as (rb1 & rl1 & Hr1 & Hn1 & Hle1). exists rb1, rl1.
      split; [done|]. split; [lia|]. split; [lia|]. intros E. lia.
    + intros id Hid. rewrite Hread by (done || lia). apply Hbits. lia.
  - intros s0 Hs0. pose proof Hs0 as [Hsn ? ? ?]. split; [split; auto|].
    intros id Hid Hf. apply is_canonical_ext; [done|lia|done|]. intros _. apply Hread; [done|lia].
Qed.

(** The ids of the buckets that are dropped read as canonical. *)
Lemma finalize_forgets c below floor canon id :
  cur_ok (mem c) (current c) floor canon -> (1 <= id <= tip (current c))%Z -> (1 < below < 2 ^ 64)%Z ->
  (bno id < bno below)%Z -> (bno id + 1 < tail_bucket (hot_zone (current c)))%Z ->
  is_canonical (mem (finalize c below)) (current c) id = true.
Proof.
  intros Hcur Hid Hb Hlt Hcold. unfold finalize. rewrite (proj2 (Z.ltb_lt 1 below)), locate_id by lia. cbn [fst publish mem].
  destruct (co_ring _ _ _ _ Hcur) as (rb & rl & Hr & _ & Hnext & _). pose proof (so_tip _ _ (co_snap _ _ _ _ Hcur)). pose proof (co_max _ _ _ _ Hcur).
  rewrite is_canonical_read by lia. rewrite (proj2 (Z.leb_le id _)) by lia. cbn [andb]. unfold read, at_zone.
  rewrite (proj2 (Z.eqb_neq (bno id) _)), (proj2 (Z.eqb_neq (bno id) (_ - 1))), andb_false_r by lia.
  rewrite ring_put_eq by apply Hr. rewrite (AtomicRing.get_holds _ _ _ _ (AtomicRing.prune_holds _ _ _ (bno below) (proj1 (proj2 Hr)))).
  by rewrite (proj2 (Z.ltb_lt _ _)) by lia.
Qed.

(** ** Restoring *)

Lemma default_ok : heap_ok (mem default_chain) /\ cur_ok (mem default_chain) (current default_chain) 1 ∅.
Proof.
  assert (ring_at (mem default_chain) 0 0 []) as Hr.
  { split; [cbn; lia|]. split; [by apply AtomicRing.new_holds|constructor]. }
  assert (heap_ok (mem default_chain)) as Hok.
  { split; [by repeat constructor|]. intros [|k] Hk; [by exists 0%Z, []|cbn in Hk; lia]. }
  split; [done|]. split; cbn [current default_chain tip hot_zone body tail_bucket tail last_sealed]; try done.
  - split; cbn; try lia. exists 0%Z, []. split; [done|cbn; lia].
  - intros k rb rl Hk. destruct k as [|k]; [|destruct Hk as [Hk _]; cbn in Hk; lia].
    destruct (ring_at_inj _ _ _ _ _ _ Hr Hk) as [<- <-]. apply not_elem_of_nil.
  - exists 0%Z, []. split; [done|]. by cbn.
  - intros id Hid. assert (bno id = 0)%Z as Hb.
    { pose proof (bno_nonneg id ltac:(lia)). pose proof (proj2 (bno_range id 0 ltac:(lia)) ltac:(lia)). lia. }
    unfold read, at_zone. cbn [current default_chain tip hot_zone body tail_bucket tail last_sealed].
    rewrite Hb, Z.eqb_refl. cbn [fmap option_fmap option_map from_option].
    change (bucket (mem default_chain) 0) with Bucket.new. by rewrite get_new.
Qed.

(** Setting bits in owned buckets. *)
Lemma set_bits_spec debug bb ids : forall bs,
  (0 <= bb)%Z -> Forall (fun b : list Z => length b = 2) bs ->
  Forall (fun id => 1 <= id < 2 ^ 64 /\ bb <= bno id < bb + Z.of_nat (length bs))%Z ids ->
  exists bs', set_bits debug bb bs ids = Ok bs' /\ length bs' = length bs /\
    Forall (fun b : list Z => length b = 2) bs' /\
    forall id, (bb <= bno id < bb + Z.of_nat (length bs))%Z ->
      Bucket.get (default Bucket.new (bs' !! Z.to_nat (bno id - bb))) (bbit id)
      = Bucket.get (default Bucket.new (bs !! Z.to_nat (bno id - bb))) (bbit id) || bool_decide (id ∈ ids).
Proof.
  induction ids as [|i ids IH]; intros bs Hbb Hlen Hids; cbn [set_bits].
  { exists bs. split; [done|]. split; [done|]. split; [done|]. intros id _.
    rewrite bool_decide_eq_false_2 by apply not_elem_of_nil. by rewrite orb_false_r. }
  apply Forall_cons in Hids as [[Hi Hb] Hids]. rewrite locate_id by done.
  assert (bno i < 2 ^ 64)%Z by (apply Z.div_lt_upper_bound; unfold CAPACITY; lia).
  rewrite sub_u64_ok by lia. cbn [mbind outcome_bind].
  destruct (lookup_lt_is_Some_2 bs (Z.to_nat (bno i - bb)) ltac:(lia)) as [bk Hbk]. rewrite Hbk.
  cbn [expect mbind outcome_bind].
  assert (length bk = 2) as Hbl by (rewrite Forall_forall in Hlen; apply Hlen; by eapply list_elem_of_lookup_2).
  destruct (IH (<[Z.to_nat (bno i - bb) := Bucket.set bk (bbit i)]> bs)) as (bs' & -> & Hl' & Hf' & Hg');
    [done|apply Forall_insert; [done|unfold Bucket.set; by rewrite length_insert]|by rewrite length_insert|].
  rewrite length_insert in *. exists bs'. split; [done|]. split; [done|]. split; [done|].
  intros id Hid. rewrite Hg' by done.
  replace (bool_decide (id ∈ i :: ids)) with (bool_decide (id = i) || bool_decide (id ∈ ids))
    by (rewrite <- bool_decide_or; apply bool_decide_ext; by rewrite elem_of_cons).
  rewrite orb_assoc. f_equal. destruct (decide (bno id = bno i)) as [Eb|Hne].
  - rewrite Eb, list_lookup_insert_eq, Hbk by lia. cbn. rewrite get_set by (done || apply bbit_range).
    rewrite orb_comm. f_equal. destruct (Z.eqb_spec (bbit i) (bbit id)) as [E|E]; symmetry.
    + apply bool_decide_eq_true. by apply id_of_position.
    + apply bool_decide_eq_false. by intros ->.
  - rewrite list_lookup_insert_ne by (pose proof (bno_nonneg i ltac:(lia)); lia).
    rewrite (bool_decide_eq_false_2 (id = i)) by (by intros ->). by rewrite orb_false_r.
Qed.

Lemma push_all_spec n : forall r b l first,
  AtomicRing.holds r b l -> (b + Z.of_nat (length l) + Z.of_nat n < 2 ^ 64)%Z ->
  exists r', push_all r first n = Ok r' /\ AtomicRing.holds r' b (l ++ seq first n).
Proof.
  induction n as [|n IH]; intros r b l first Hh Hu; cbn [push_all].
  { exists r. by rewrite app_nil_r. }
  destruct (AtomicRing.push_holds r b l first Hh ltac:(lia)) as (r1 & -> & Hh1). cbn [mbind outcome_bind].
  destruct (IH r1 b (l ++ [first]) (S first) Hh1) as (r' & -> & Hh'); [rewrite length_app; cbn; lia|].
  exists r'. split; [done|]. by rewrite <- app_assoc in Hh'.
Qed.

Lemma restore_step debug c base tp canonical :
  heap_ok (mem c) -> (1 <= base <= tp)%Z -> (tp <= 2 ^ 62)%Z ->
  Forall (fun id => base <= id <= tp)%Z canonical ->
  exists c', restore debug c base tp canonical = Ok c' /\ heap_ok (mem c') /\
    cur_ok (mem c') (current c') base (list_to_set canonical) /\
    tip (current c') = tp /\ tail_bucket (hot_zone (current c')) = bno tp.
Proof.
  intros Hok Hb Hu Hcan. unfold restore. rewrite (proj2 (Z.eqb_neq _ _)) by lia.
  rewrite !locate_id by lia. cbn [fst]. set (bb := bno base). set (T := bno tp).
  assert (0 <= bb <= T)%Z as HbT by (split; [apply bno_nonneg; lia|apply bno_mono; lia]).
  assert (T < 2 ^ 56)%Z as HT by (apply Z.div_lt_upper_bound; unfold CAPACITY; lia).
  rewrite sub_u64_ok by lia. cbn [mbind outcome_bind].
  destruct (set_bits_spec debug bb canonical (replicate (Z.to_nat (T - bb + 1)) Bucket.new)) as (bs & -> & Hlen & Hfl & Hget).
  { lia. }
  { by apply Forall_replicate. }
  { rewrite length_replicate. eapply Forall_impl; [exact Hcan|]. cbn. intros id Hid.
    split; [lia|]. pose proof (bno_mono base id ltac:(lia)). pose proof (bno_mono id tp ltac:(lia)). lia. }
  cbn [mbind outcome_bind]. rewrite length_replicate in *. rewrite Hlen.
  set (count := Z.to_nat (T - bb + 1)) in *. set (first := length (buckets (mem c))).
  unfold assert. rewrite (proj2 (Nat.ltb_lt _ _)) by lia. cbn [mbind outcome_bind].
  set (fresh := if 2 <=? count then [] else [Bucket.new]).
  set (h1 := {| buckets := buckets (mem c) ++ bs ++ fresh; rings := rings (mem c) |}).
  set (ls := if 2 <=? count then first + (count - 2) else first + count).
  assert ((if 2 <=? count then (first + (count - 2), {| buckets := buckets (mem c) ++ bs; rings := rings (mem c) |})
     else alloc_bucket {| buckets := buckets (mem c) ++ bs; rings := rings (mem c) |} Bucket.new)
    = (ls, h1)) as ->.
  { unfold ls, h1, fresh, alloc_bucket. destruct (2 <=? count); cbn [buckets rings]; [by rewrite app_nil_r|].
    by rewrite length_app, Hlen, <- app_assoc. }
  destruct (push_all_spec (count - 2) (AtomicRing.new bb) bb [] first) as (r & -> & Hr);
    [apply AtomicRing.new_holds; lia|cbn [length]; lia|].
  cbn [mbind outcome_bind alloc_ring app] in *. eexists. split; [reflexivity|].
  cbn [publish mem current tip hot_zone body tail_bucket].
  set (h2 := {| buckets := _; rings := _ |}). set (s := {| tip := tp |}).
  assert (length (buckets h2) = first + count + length fresh) as Hbl.
  { cbn. rewrite !length_app, Hlen. fold first. lia. }
  assert (length fresh = if 2 <=? count then 0 else 1) as Hfr by (unfold fresh; by destruct (2 <=? count)).
  assert (ring_at h2 (length (rings (mem c))) bb (seq first (count - 2))) as Hring.
  { split; [cbn; rewrite length_app; cbn; lia|]. split.
    - change h2 with (alloc_ring h1 r).2. by rewrite (ring_alloc_new h1).
    - apply Forall_forall. intros l Hl. apply elem_of_seq in Hl. rewrite Hbl. lia. }

  assert (forall k rb rl, k < length (rings (mem c)) -> ring_at h2 k rb rl <->
    AtomicRing.holds (ring (mem c) k) rb rl /\ Forall (fun l => l < length (buckets h2)) rl) as Hold.
  { intros k rb rl Hk. unfold ring_at. change h2 with (alloc_ring h1 r).2. rewrite ring_alloc by done.
    change (ring h1 k) with (ring (mem c) k). cbn. rewrite length_app. cbn.
    split; [tauto|]. intros [? ?]. split; [lia|done]. }
  (* the bucket of a live bucket number *)
  assert (forall b, (bb <= b <= T)%Z -> at_bucket h2 s b = Some (first + Z.to_nat (b - bb))) as Hat.
  { intros b Hbr. unfold at_zone. cbn [s hot_zone tail_bucket tail last_sealed body].
    destruct (Z.eqb_spec b T) as [->|Hne]; [f_equal; lia|].
    rewrite (proj2 (Z.leb_le _ _)) by lia. cbn [andb]. destruct (Z.eqb_spec b (T - 1)) as [->|Hne2].
    - f_equal. unfold ls. rewrite (proj2 (Nat.leb_le _ _)) by lia. lia.
    - change (length (rings h1)) with (length (rings (mem c))).
      rewrite (ring_get_ok _ _ _ _ b Hring), (proj2 (Z.ltb_ge _ _)), lookup_seq_lt by lia. done. }
  assert (heap_ok h2) as Hok2.
  { destruct Hok as [Hbs Hrs]. split.
    - apply Forall_app. split; [done|]. apply Forall_app. split; [done|]. unfold fresh.
      destruct (2 <=? count); by repeat constructor.
    - intros k Hk. cbn in Hk. rewrite length_app in Hk. cbn in Hk.
      destruct (decide (k = length (rings (mem c)))) as [->|Hne]; [eauto|].
      destruct (Hrs k ltac:(lia)) as (rb & rl & _ & Hh & Hf). exists rb, rl. apply Hold; [lia|].
      split; [done|]. eapply Forall_impl; [exact Hf|]. cbn beta. fold first. lia. }
  split; [done|]. split; [|done].
  split; cbn [s tip hot_zone body tail_bucket tail last_sealed]; try done; try lia.
  - split; cbn [s tip hot_zone body tail_bucket tail last_sealed]; try lia.
    + split; [lia|]. apply bno_range; [lia|done].
    + unfold ls. destruct (Nat.leb_spec 2 count); lia.
    + eexists _, _. split; [exact Hring|]. rewrite length_seq. lia.
  - unfold ls. destruct (Nat.leb_spec 2 count); lia.
  - intros k rb rl Hr0 Hin. destruct (decide (k = length (rings (mem c)))) as [->|Hne].
    + destruct (ring_at_inj _ _ _ _ _ _ Hring Hr0) as [<- <-]. apply elem_of_seq in Hin. lia.
    + pose proof Hr0 as (Hk & _). cbn in Hk. rewrite length_app in Hk. cbn in Hk.
      apply Hold in Hr0 as [Hh _]; [|lia]. destruct Hok as [_ Hrs].
      destruct (Hrs k ltac:(lia)) as (rb' & rl' & _ & Hh' & Hf).
      destruct (holds_inj _ _ _ _ _ Hh Hh') as [-> ->]. rewrite Forall_forall in Hf. apply Hf in Hin. fold first in Hin. lia.
  - eexists _, _. split; [exact Hring|]. rewrite length_seq. split; [done|]. split; lia.
  - intros id Hid.
    assert (bb <= bno id <= T)%Z as Hbn.
    { split; [apply bno_mono; lia|]. apply bno_range; lia. }
    unfold read. rewrite Hat by done. cbn [fmap option_fmap option_map from_option].
    assert (bucket h2 (first + Z.to_nat (bno id - bb)) = default Bucket.new (bs !! Z.to_nat (bno id - bb))) as ->.
    { unfold bucket. cbn [h2 buckets h1]. rewrite lookup_app_r by (fold first; lia). fold first.
      rewrite lookup_app_l by lia. do 2 f_equal. lia. }
    rewrite Hget by lia. rewrite lookup_replicate_2 by lia. cbn. rewrite get_new. cbn.
    apply bool_decide_ext. by rewrite elem_of_list_to_set.
  - intros id Hid. apply elem_of_list_to_set in Hid. rewrite Forall_forall in Hcan. specialize (Hcan _ Hid). lia.
Qed.
