(* ===== verification/ChainTheorems.v ===== *)
(** * ChainTheorems: what the canonical chain and its manager guarantee

    Refinement of the chain by a set of canonical ids, stability of published snapshots under
    later mutation, the manager's operations and its restart; and the scenario in which a block
    that returns below the hot zone's tail drops the canonical bits of its bucket. *)

From S2P Require Import Prelude Codec Types AtomicRing CanonicalChain ChainProofs.

(** ** The set of canonical ids *)

Inductive chain_op := Append (id : Z) | Rollback (new_tip : Z) | Finalize (below : Z).

Definition chain_step (debug : bool) (c : chain) (o : chain_op) : Result chain :=
  match o with
  | Append id => append debug c id
  | Rollback n => rollback debug c n
  | Finalize below => Ok (finalize c below)
  end.

Definition chain_run (debug : bool) (c : chain) (ops : list chain_op) : Result chain :=
  foldl (fun c o => c ← c; chain_step debug c o) (Ok c) ops.

(** The abstract chain: the tip, the canonical ids, the finalization threshold, and the highest
    bucket number reached so far. *)
Record spec := { s_tip : Z; s_canon : gset Z; s_floor : Z; s_top : Z }.

Definition spec_init : spec := {| s_tip := 0; s_canon := ∅; s_floor := 1; s_top := 0 |}.

Definition spec_step (a : spec) (o : chain_op) : spec :=
  match o with
  | Append id =>
      {| s_tip := id; s_canon := s_canon a ∪ {[id]}; s_floor := s_floor a; s_top := bno id |}
  | Rollback n =>
      {| s_tip := n; s_canon := filter (fun id => (id <= n)%Z) (s_canon a);
         s_floor := s_floor a; s_top := s_top a |}
  | Finalize below =>
      {| s_tip := s_tip a; s_canon := s_canon a; s_floor := Z.max (s_floor a) below; s_top := s_top a |}
  end.

(** Appends extend the tip and do not go back to a bucket below the hot zone's tail; rollbacks do
    not go forward. *)
Definition allowed (a : spec) (o : chain_op) : bool :=
  match o with
  | Append id => (s_tip a <? id)%Z && (id <=? 2 ^ 62)%Z && (s_top a <=? bno id)%Z
  | Rollback n => (0 <=? n)%Z && (n <=? s_tip a)%Z
  | Finalize below => (below <? 2 ^ 64)%Z
  end.

Fixpoint allowed_run (a : spec) (ops : list chain_op) : bool :=
  match ops with
  | [] => true
  | o :: ops => allowed a o && allowed_run (spec_step a o) ops
  end.

(** The chain [c] implements [a]. *)
Record implements (c : chain) (a : spec) : Prop := {
  im_heap : heap_ok (mem c);
  im_cur : cur_ok (mem c) (current c) (s_floor a) (s_canon a);
  im_tip : tip (current c) = s_tip a;
  im_top : tail_bucket (hot_zone (current c)) = s_top a
}.

Lemma step_implements debug c a o :
  implements c a -> allowed a o = true ->
  exists c', chain_step debug c o = Ok c' /\ implements c' (spec_step a o) /\
    transfer (mem c) (current c) (mem c') (current c') (s_floor (spec_step a o)).
Proof.
  intros [Hok Hcur Htip Htop] Ha. destruct o as [id|n|below]; cbn [chain_step allowed spec_step] in *.
  - rewrite !andb_true_iff, Z.ltb_lt, !Z.leb_le in Ha.
    destruct (append_step debug c id (s_floor a) (s_canon a) Hok Hcur) as (c' & E & ? & ? & ? & ? & ?); [lia|lia|].
    exists c'. split; [done|]. split; [by split|done].
  - rewrite andb_true_iff, !Z.leb_le in Ha.
    destruct (rollback_step debug c n (s_floor a) (s_canon a) Hok Hcur) as (c' & E & ? & ? & ? & ? & ?); [lia|].
    exists c'. split; [done|]. split; [split; try done; cbn; congruence|done].
  - apply Z.ltb_lt in Ha.
    destruct (finalize_step c below (s_floor a) (s_canon a) Hok Hcur Ha) as (? & ? & Ecur & ?).
    eexists. split; [done|]. split; [split; try done; by rewrite Ecur|done].
Qed.

Lemma spec_floor_mono a ops : (s_floor a <= s_floor (foldl spec_step a ops))%Z.
Proof.
  revert a. induction ops as [|o ops IH]; intros a; cbn; [lia|]. specialize (IH (spec_step a o)).
  enough (s_floor a <= s_floor (spec_step a o))%Z by lia. destruct o; cbn; lia.
Qed.

Lemma run_implements debug ops : forall c a,
  implements c a -> allowed_run a ops = true ->
  exists c', chain_run debug c ops = Ok c' /\ implements c' (foldl spec_step a ops) /\
    transfer (mem c) (current c) (mem c') (current c') (s_floor (foldl spec_step a ops)).
Proof.
  unfold chain_run. induction ops as [|o ops IH]; intros c a Him Ha; cbn [foldl allowed_run] in *.
  { exists c. split; [done|]. split; [done|]. intros s0 Hs0. by split. }
  apply andb_true_iff in Ha as [Ho Ha].
  destruct (step_implements debug c a o Him Ho) as (c1 & E1 & Him1 & Ht1). cbn [mbind outcome_bind]. rewrite E1.
  destruct (IH c1 _ Him1 Ha) as (c' & E' & Him' & Ht'). exists c'. split; [done|]. split; [done|].
  eapply transfer_trans; [|exact Ht']. eapply transfer_weaken; [exact Ht1|]. apply spec_floor_mono.
Qed.

Lemma default_implements : implements default_chain spec_init.
Proof. destruct default_ok. by split. Qed.

(** C31: the canonical chain is a set of ids, and snapshots are immutable: after any sequence of
    appends, rollbacks and finalizations from the empty chain whose appends stay at or above the
    hot zone's tail bucket, every operation succeeds, in debug and release builds, and the
    snapshot published then answers, for ids from the latest finalization threshold on, exactly
    membership in the set the sequence describes - at once and after any further such operations,
    although they mutate buckets and rings the snapshot shares. *)
Theorem snapshot_stable (debug : bool) (ops1 ops2 : list chain_op) :
  allowed_run spec_init (ops1 ++ ops2) = true ->
  exists c1 c2, chain_run debug default_chain ops1 = Ok c1 /\ chain_run debug c1 ops2 = Ok c2 /\
    tip (current c1) = s_tip (foldl spec_step spec_init ops1) /\
    forall id, (s_floor (foldl spec_step spec_init (ops1 ++ ops2)) <= id)%Z ->
      is_canonical (mem c2) (current c1) id
      = bool_decide (id ∈ s_canon (foldl spec_step spec_init ops1)).
Proof.
  intros Ha.
  assert (allowed_run spec_init ops1 = true /\ allowed_run (foldl spec_step spec_init ops1) ops2 = true) as [Ha1 Ha2].
  { revert Ha. generalize spec_init. induction ops1 as [|o ops1 IH]; intros a; cbn; [done|].
    rewrite !andb_true_iff. intros [-> H]. by apply IH in H as [-> ->]. }
  destruct (run_implements debug ops1 default_chain spec_init default_implements Ha1) as (c1 & E1 & Him1 & _).
  destruct (run_implements debug ops2 c1 _ Him1 Ha2) as (c2 & E2 & _ & Ht).
  exists c1, c2. split; [done|]. split; [done|]. split; [apply Him1|]. rewrite foldl_app. intros id Hid.
  pose proof (im_cur _ _ Him1) as Hcur.
  pose proof (spec_floor_mono (foldl spec_step spec_init ops1) ops2). pose proof (co_floor _ _ _ _ Hcur).
  destruct (Ht _ (cur_hist _ _ _ _ Hcur)) as [_ Hs].
  rewrite Hs by lia. eapply cur_canonical; [exact Hcur|lia].
Qed.

Lemma snapshot_stable_witness :
  exists c1 c2,
    chain_run false default_chain ((fun i => Append (Z.of_nat i)) <$> seq 1 300) = Ok c1 /\
    chain_run false c1 [Rollback 100; Append 301; Finalize 130; Append 302] = Ok c2 /\
    is_canonical (mem c2) (current c1) 200 = true.
Proof.
  destruct (snapshot_stable false ((fun i => Append (Z.of_nat i)) <$> seq 1 300)
    [Rollback 100; Append 301; Finalize 130; Append 302]) as (c1 & c2 & E1 & E2 & _ & Hs).
  - vm_compute. reflexivity.
  - exists c1, c2. split; [done|]. split; [done|]. rewrite Hs; vm_compute; [reflexivity|discriminate].
Defined.

(** ** The manager *)

Section manager.
Context {M : Type} `{BatchMetadata M} (debug : bool).
Import Manager.

Definition next_id (m : t M) : Z := base m + Z.of_nat (length (entries m)).

(** The log and its index agree, and the chain reads [canon] from [floor] on. *)
Record manager_ok (m : t M) (floor : Z) (canon : gset Z) : Prop := {
  mo_heap : heap_ok (mem (chain_ m));
  mo_cur : cur_ok (mem (chain_ m)) (current (chain_ m)) floor canon;
  mo_base : (1 <= base m)%Z;
  mo_index hash i : index m !! hash = Some i <->
    exists md, metadata m i = Some md /\ block_hash md = hash;
  mo_tip : (tip (current (chain_ m)) < next_id m)%Z;
  mo_top : (tail_bucket (hot_zone (current (chain_ m))) <= bno (next_id m))%Z
}.

Inductive manager_op := MAppend (md : M) | MRollback (new_tip : Z) | MFinalize (below : Z).

(** One operation: what the caller gets back, and the manager afterwards. *)
Definition manager_step (m : t M) (o : manager_op) : Result (option AppendOutcome * t M) :=
  match o with
  | MAppend md => '(outcome, m) ← append debug m md; Ok (Some outcome, m)
  | MRollback n => m ← rollback debug m n; Ok (None, m)
  | MFinalize below => Ok (None, finalize m below)
  end.

(** A returning block does not lie below the hot zone's tail bucket. *)
Definition manager_allowed (m : t M) (o : manager_op) : Prop :=
  match o with
  | MAppend md =>
      match id_of m (block_hash md) with
      | Some i => (tip (current (chain_ m)) < i)%Z ->
          (tail_bucket (hot_zone (current (chain_ m))) <= bno i)%Z /\ (i <= 2 ^ 62)%Z
      | None => (next_id m <= 2 ^ 62)%Z
      end
  | MRollback n => (0 <= n <= tip (current (chain_ m)))%Z
  | MFinalize below => (below < 2 ^ 64)%Z
  end.

Definition next_canon (m : t M) (canon : gset Z) (o : manager_op) : gset Z :=
  match o with
  | MAppend md =>
      match id_of m (block_hash md) with
      | Some i => if (tip (current (chain_ m)) <? i)%Z then canon ∪ {[i]} else canon
      | None => canon ∪ {[next_id m]}
      end
  | MRollback n => filter (fun id => (id <= n)%Z) canon
  | MFinalize _ => canon
  end.

(** The id a block gets or has. *)
Definition id_for (m : t M) (md : M) : Z := default (next_id m) (id_of m (block_hash md)).

Definition returned (m : t M) (o : manager_op) : option AppendOutcome :=
  match o with
  | MAppend md => Some {| id := id_for m md; is_new := bool_decide (id_of m (block_hash md) = None) |}
  | _ => None
  end.

Definition next_tip (m : t M) (o : manager_op) : Z :=
  match o with
  | MAppend md => Z.max (tip (current (chain_ m))) (id_for m md)
  | MRollback n => n
  | MFinalize _ => tip (current (chain_ m))
  end.

(** The log as a function of ids: unseen blocks are added, finalized ids are dropped. *)
Definition next_log (m : t M) (o : manager_op) (i : Z) : option M :=
  match o with
  | MAppend md => if decide (id_of m (block_hash md) = None /\ i = next_id m) then Some md else metadata m i
  | MRollback _ => metadata m i
  | MFinalize below => if (i <? below)%Z then None else metadata m i
  end.

Definition next_free (m : t M) (o : manager_op) : Z :=
  match o with
  | MAppend md => if decide (id_of m (block_hash md) = None) then (next_id m + 1)%Z else next_id m
  | _ => next_id m
  end.

Definition next_floor (floor : Z) (o : manager_op) : Z :=
  match o with MFinalize below => Z.max floor below | _ => floor end.

Lemma metadata_range (m : t M) i md :
  metadata m i = Some md -> (base m <= i < next_id m)%Z.
Proof.
  unfold metadata, next_id. destruct (Z.ltb_spec i (base m)); [done|]. intros Hl.
  apply lookup_lt_Some in Hl. lia.
Qed.

Lemma metadata_push (m : t M) md i :
  metadata (push m md).2 i = if decide (i = next_id m) then Some md else metadata m i.
Proof.
  unfold metadata, push, next_id. cbn. case_decide as Hd.
  - rewrite (proj2 (Z.ltb_ge _ _)) by lia. replace (Z.to_nat (i - base m)) with (length (entries m)) by lia.
    by rewrite list_lookup_middle.
  - destruct (Z.ltb_spec i (base m)); [done|].
    destruct (Nat.lt_ge_cases (Z.to_nat (i - base m)) (length (entries m))).
    + by rewrite lookup_app_l.
    + rewrite !(proj2 (lookup_ge_None _ _)); [done|lia|rewrite length_app; cbn; lia].
Qed.

Lemma index_push (m : t M) md :
  (forall hash i, index m !! hash = Some i <-> exists md, metadata m i = Some md /\ block_hash md = hash) ->
  id_of m (block_hash md) = None ->
  forall hash i, index (push m md).2 !! hash = Some i <->
    exists md', metadata (push m md).2 i = Some md' /\ block_hash md' = hash.
Proof.
  intros Hix Hnone hash i. setoid_rewrite metadata_push. cbn [push snd index].
  destruct (decide (block_hash md = hash)) as [<-|Hne].
  - rewrite lookup_insert_eq. split.
    + intros [= <-]. exists md. by rewrite decide_True.
    + intros (md' & Hm & Hh). case_decide as Hd; [by subst|].
      unfold id_of in Hnone. rewrite (proj2 (Hix _ i)) in Hnone by eauto. done.
  - rewrite lookup_insert_ne, Hix by done. split; intros (md' & Hm & Hh); exists md'.
    + rewrite decide_False; [done|]. intros ->. apply metadata_range in Hm. lia.
    + case_decide as Hd; [|done]. injection Hm as ->. done.
Qed.

(** Replacing the chain keeps the log. *)
Lemma with_chain_ok (m : t M) c floor canon :
  heap_ok (mem c) -> cur_ok (mem c) (current c) floor canon -> (1 <= base m)%Z ->
  (forall hash i, index m !! hash = Some i <-> exists md, metadata m i = Some md /\ block_hash md = hash) ->
  (tip (current c) < next_id m)%Z -> (tail_bucket (hot_zone (current c)) <= bno (next_id m))%Z ->
  manager_ok (with_chain m c) floor canon.
Proof. intros. by split. Qed.

Lemma append_full (m : t M) floor canon md :
  manager_ok m floor canon -> manager_allowed m (MAppend md) ->
  exists m', append debug m md = Ok ({| id := id_for m md; is_new := bool_decide (id_of m (block_hash md) = None) |}, m') /\
    manager_ok m' floor (next_canon m canon (MAppend md)) /\
    tip (current (chain_ m')) = next_tip m (MAppend md) /\ next_id m' = next_free m (MAppend md) /\
    (forall i, metadata m' i = next_log m (MAppend md) i).
Proof.
  intros [Hok Hcur Hbase Hix Htip Htop] Ha. cbn [manager_allowed next_canon next_tip next_free next_log] in *. unfold append, id_for in *.
  destruct (id_of m (block_hash md)) as [i|] eqn:Eid; cbn [default Datatypes.id] in *.
  - assert (forall i', metadata m i' = if decide (Some i = None /\ i' = next_id m) then Some md else metadata m i') as Hlog
      by (intros i'; by rewrite decide_False by naive_solver).
    destruct (Z.ltb_spec (tip (current (chain_ m))) i) as [Hlt|Hge].
    + destruct (Ha Hlt) as [Hb Hi].
      destruct (append_step debug (chain_ m) i floor canon Hok Hcur) as (c & -> & ? & ? & Et & ET & _); [lia|done|].
      cbn. eexists. split; [done|].
      apply Hix in Eid as (md' & Hm & _). apply metadata_range in Hm. split; [|split; [cbn; lia|done]].
      apply with_chain_ok; try done; [lia|]. rewrite ET. apply bno_mono. lia.
    + cbn. eexists. split; [done|]. split; [destruct m; by split|]. split; [cbn; lia|done].
  - cbn [push]. fold (next_id m). set (m1 := {| chain_ := chain_ m |}).
    pose proof (so_tip _ _ (co_snap _ _ _ _ Hcur)).
    destruct (append_step debug (chain_ m) (next_id m) floor canon Hok Hcur) as (c & Ea & ? & ? & Et & ET & _);
      [lia|done|].
    cbn [m1 chain_]. rewrite Ea. cbn. eexists. split; [done|].
    assert (next_id m1 = next_id m + 1)%Z as Hn by (unfold next_id; cbn; rewrite length_app; cbn; lia).
    split; [|split; [cbn; lia|split; [done|]]].
    + apply with_chain_ok; try done; [by apply (index_push m md Hix)|lia|]. rewrite ET, Hn. apply bno_mono. lia.
    + intros i. etransitivity; [exact (metadata_push m md i)|]. by repeat case_decide; naive_solver.
Qed.

Lemma append_ok (m : t M) floor canon md :
  manager_ok m floor canon -> manager_allowed m (MAppend md) ->
  exists m', append debug m md
    = Ok ({| id := default (next_id m) (id_of m (block_hash md));
             is_new := bool_decide (id_of m (block_hash md) = None) |}, m') /\
    manager_ok m' floor (next_canon m canon (MAppend md)).
Proof. intros Hm Ha. destruct (append_full m floor canon md Hm Ha) as (m' & E & Hm' & _). by exists m'. Qed.

(** Finalizing drops a prefix of the log together with its index entries. *)
Lemma drop_entries_spec (es : list M) : forall b ix below,
  (forall hash i, ix !! hash = Some i <-> exists md, (b <= i)%Z /\ es !! Z.to_nat (i - b) = Some md /\ block_hash md = hash) ->
  let '(es', b', ix') := drop_entries es b ix below in
  (b <= b')%Z /\ (b' + Z.of_nat (length es') = b + Z.of_nat (length es))%Z /\
  forall hash i, ix' !! hash = Some i <-> exists md, (b' <= i)%Z /\ es' !! Z.to_nat (i - b') = Some md /\ block_hash md = hash.
Proof.
  induction es as [|md es IH]; intros b ix below Hix; cbn [drop_entries].
  { split; [lia|]. split; [lia|done]. }
  destruct (Z.ltb_spec b below) as [Hlt|Hge]; [|split; [lia|]; split; [lia|done]].
  specialize (IH (b + 1)%Z (delete (block_hash md) ix) below).
  destruct (drop_entries es (b + 1) (delete (block_hash md) ix) below) as [[es' b'] ix'].
  destruct IH as (H1 & H2 & H3).
  - intros hash i. destruct (decide (block_hash md = hash)) as [<-|Hne].
    + rewrite lookup_delete_eq. split; [done|]. intros (md' & Hi & Hl & Hh).
      (* the dropped block's hash indexes the dropped id only *)
      assert (ix !! block_hash md = Some i) as Hi'.
      { apply Hix. exists md'. split; [lia|]. split; [|done].
        by replace (Z.to_nat (i - b)) with (S (Z.to_nat (i - (b + 1)))) by lia. }
      rewrite (proj2 (Hix (block_hash md) b)) in Hi' by (exists md; rewrite Z.sub_diag; by split).
      injection Hi' as <-. lia.
    + rewrite lookup_delete_ne, Hix by done. split; intros (md' & Hi & Hl & Hh); exists md'.
      * destruct (Z.eq_dec i b) as [->|Hi']; [rewrite Z.sub_diag in Hl; injection Hl as ->; done|].
        split; [lia|]. split; [|done].
        by replace (Z.to_nat (i - b)) with (S (Z.to_nat (i - (b + 1)))) in Hl by lia.
      * split; [lia|]. split; [|done].
        by replace (Z.to_nat (i - b)) with (S (Z.to_nat (i - (b + 1)))) by lia.
  - split; [lia|]. split; [cbn [length]; lia|done].
Qed.

Lemma metadata_alt (m : t M) i md :
  metadata m i = Some md <-> (base m <= i)%Z /\ entries m !! Z.to_nat (i - base m) = Some md.
Proof. unfold metadata. destruct (Z.ltb_spec i (base m)); split; try done; [lia|by intros [_ ?]]. Qed.

(** Finalizing forgets exactly the ids below the threshold. *)
Lemma drop_entries_log (es : list M) : forall b ix below,
  let '(es', b', _) := drop_entries es b ix below in
  forall i, (if (i <? b')%Z then None else es' !! Z.to_nat (i - b')) =
    if (i <? below)%Z then None else if (i <? b)%Z then None else es !! Z.to_nat (i - b).
Proof.
  induction es as [|md es IH]; intros b ix below; cbn [drop_entries].
  { intros i. rewrite !lookup_nil. by repeat case_match. }
  destruct (Z.ltb_spec b below) as [Hlt|Hge].
  - specialize (IH (b + 1)%Z (delete (block_hash md) ix) below).
    destruct (drop_entries es (b + 1) (delete (block_hash md) ix) below) as [[es' b'] ix']. intros i. rewrite IH.
    destruct (Z.ltb_spec i below); [done|]. rewrite !(proj2 (Z.ltb_ge _ _)) by lia.
    by replace (Z.to_nat (i - b)) with (S (Z.to_nat (i - (b + 1)))) by lia.
  - intros i. destruct (Z.ltb_spec i below); [|done]. by rewrite (proj2 (Z.ltb_lt _ _)) by lia.
Qed.

Lemma manager_step_ok (m : t M) floor canon o :
  manager_ok m floor canon -> manager_allowed m o ->
  exists m', manager_step m o = Ok (returned m o, m') /\ manager_ok m' (next_floor floor o) (next_canon m canon o) /\
    tip (current (chain_ m')) = next_tip m o /\ next_id m' = next_free m o /\ (forall i, metadata m' i = next_log m o i).
Proof.
  intros Hm Ha. pose proof Hm as [Hok Hcur Hbase Hix Htip Htop].
  destruct o as [md|n|below]; cbn [manager_step next_floor returned].
  - destruct (append_full m floor canon md Hm Ha) as (m' & -> & Hm'). by exists m'.
  - cbn [manager_allowed next_canon] in *. unfold rollback.
    destruct (rollback_step debug (chain_ m) n floor canon Hok Hcur Ha) as (c & -> & ? & ? & Et & ET & _).
    cbn. eexists. split; [done|]. split; [apply with_chain_ok; try done; [lia|by rewrite ET]|done].
  - cbn [manager_allowed next_canon] in *.
    destruct (finalize_step (chain_ m) below floor canon Hok Hcur Ha) as (? & ? & Ecur & _).
    eexists. split; [done|]. unfold finalize.
    pose proof (drop_entries_spec (entries m) (base m) (index m) below) as Hd.
    pose proof (drop_entries_log (entries m) (base m) (index m) below) as Hlog.
    destruct (drop_entries (entries m) (base m) (index m) below) as [[es b] ix].
    destruct Hd as (Hb & Hn & Hix').
    { intros hash i. rewrite Hix. setoid_rewrite metadata_alt. naive_solver. }
    assert (next_id {| chain_ := CanonicalChain.finalize (chain_ m) below; base := b; entries := es; index := ix |}
      = next_id m) as En by (unfold next_id; cbn; lia).
    split; [|split; [by cbn; rewrite Ecur|split; [done|exact Hlog]]].
    split; cbn [chain_ base index]; rewrite ?En; try done; [lia| |by rewrite Ecur..].
    intros hash i. rewrite Hix'. setoid_rewrite metadata_alt. cbn. naive_solver.
Qed.
End manager.

(** C32: what every manager operation does, provided a block that returns above the tip does not
    lie in a bucket below the hot zone's tail, ids stay up to 2^62, rollbacks go to an id from 0 to
    the tip, and finalization thresholds are u64.
    The operation succeeds. An unseen block gets the next dense id and is reported as new, a known
    one gets the id it has; the tip moves to that id if it is above, or to the target of a rollback.
    The log is what it was, with an unseen block added at its id and without the ids below a
    finalization threshold, and the hash index agrees with it. From the finalization floor on,
    exactly the ids in the expected set are canonical: an appended id above the tip joins it, a
    rollback removes the ids above its target. *)
Theorem manager_step_correct {M} `{BatchMetadata M} (debug : bool) (m : Manager.t M) floor canon o :
  manager_ok m floor canon -> manager_allowed m o ->
  exists m', manager_step debug m o = Ok (returned m o, m') /\
    tip (current (Manager.chain_ m')) = next_tip m o /\ next_id m' = next_free m o /\
    (forall i, Manager.metadata m' i = next_log m o i) /\
    (forall hash i, Manager.id_of m' hash = Some i <-> exists md, Manager.metadata m' i = Some md /\ block_hash md = hash) /\
    manager_ok m' (next_floor floor o) (next_canon m canon o) /\
    forall id, (next_floor floor o <= id)%Z ->
      is_canonical (mem (Manager.chain_ m')) (current (Manager.chain_ m')) id
      = bool_decide (id ∈ next_canon m canon o).
Proof.
  intros Hm Ha. destruct (manager_step_ok debug m floor canon o Hm Ha) as (m' & E & Hm' & Et & Hn & Hl).
  exists m'. do 4 (split; [done|]). split; [apply (mo_index _ _ _ Hm')|]. split; [done|]. intros id Hid.
  eapply cur_canonical; [apply (mo_cur _ _ _ Hm')|done].
Qed.

(** A fresh manager is well formed and has no canonical id. *)
Lemma fresh_manager_ok {M} `{BatchMetadata M} (debug : bool) :
  exists m : Manager.t M, Manager.new debug default_chain [] = Ok m /\ manager_ok m 1 ∅.
Proof.
  eexists. split; [reflexivity|]. destruct default_ok as [Hok Hcur].
  split; try done. intros hash i. cbn. rewrite lookup_empty. split; [done|].
  intros (md & Hm & _). unfold Manager.metadata in Hm. cbn in Hm. by destruct (i <? 1)%Z.
Qed.

(** Integer metadata: the block hash is the number, the parent the predecessor. *)
#[export] Instance Z_metadata : BatchMetadata Z :=
  {| block_hash z := be_split 32 z; parent_id z := (z - 1)%Z |}.

Lemma manager_step_correct_witness :
  exists m m' : Manager.t Z, Manager.new true default_chain [] = Ok m /\
    manager_step true m (MAppend 7%Z) = Ok (Some {| id := 1; is_new := true |}, m') /\
    Manager.id_of m' (block_hash 7%Z) = Some 1%Z /\
    is_canonical (mem (Manager.chain_ m')) (current (Manager.chain_ m')) 1 = true.
Proof.
  destruct (fresh_manager_ok (M := Z) true) as (m & E & Hm).
  assert (manager_allowed m (MAppend 7%Z)) as Ha.
  { vm_compute in E. injection E as <-. vm_compute. discriminate. }
  destruct (manager_step_correct true m 1 ∅ (MAppend 7%Z) Hm Ha) as (m' & E' & _ & _ & Hl & Hi & _ & Hc).
  vm_compute in E. injection E as <-. eexists _, m'. split; [reflexivity|]. split; [exact E'|]. split.
  - apply Hi. exists 7%Z. split; [|reflexivity]. rewrite Hl. vm_compute. reflexivity.
  - rewrite Hc by done. vm_compute. reflexivity.
Defined.

(** ** Restart *)

Section restart.
Context {M : Type} `{BatchMetadata M} (debug : bool).
Import Manager.

(** The ids on the parent walk from [tip] down to the live floor. *)
Inductive ancestor (m : t M) (tip : Z) : Z -> Prop :=
| ancestor_self : ancestor m tip tip
| ancestor_parent x md :
    ancestor m tip x -> metadata m x = Some md -> (base m <= parent_id md < x)%Z ->
    ancestor m tip (parent_id md).

Lemma ancestor_trans (m : t M) x y z : ancestor m x y -> ancestor m y z -> ancestor m x z.
Proof. intros Hxy. induction 1; [done|]. by eapply ancestor_parent. Qed.

(** The walk ends within as many rounds as live ids and lists exactly the ancestors. *)
Lemma ancestry_spec (m : t M) fuel : forall id,
  (base m <= id < next_id m)%Z -> (id - base m < Z.of_nat fuel)%Z ->
  exists l, ancestry fuel m id = Ok l /\ Forall (fun x => base m <= x <= id)%Z l /\
    forall x, x ∈ l <-> ancestor m id x.
Proof.
  induction fuel as [|fuel IH]; intros i Hid Hf; [lia|]. cbn [ancestry].
  destruct (metadata m i) as [md|] eqn:Em.
  2:{ unfold metadata in Em. rewrite (proj2 (Z.ltb_ge _ _)) in Em by lia. apply lookup_ge_None in Em.
      unfold next_id in Hid. lia. }
  cbn [expect mbind outcome_bind].
  destruct ((parent_id md <? base m)%Z || (i <=? parent_id md)%Z) eqn:Eo.
  - exists [i]. split; [done|]. split; [constructor; [lia|done]|]. intros x.
    rewrite list_elem_of_singleton. split; [intros ->; constructor|].
    induction 1 as [|x md' Hx IHx Hm Hp]; [done|]. subst x. rewrite Em in Hm. injection Hm as <-.
    apply orb_true_iff in Eo. rewrite Z.ltb_lt, Z.leb_le in Eo. lia.
  - apply orb_false_iff in Eo. rewrite Z.ltb_ge, Z.leb_gt in Eo.
    destruct (IH (parent_id md)) as (l & -> & Hl & Hanc); [lia|lia|].
    cbn [mbind outcome_bind]. exists (i :: l). split; [done|]. split.
    { constructor; [lia|]. eapply Forall_impl; [exact Hl|]. cbn. lia. }
    assert (ancestor m i (parent_id md)) as Hpar by (eapply ancestor_parent; [constructor|done|lia]).
    intros x. rewrite elem_of_cons, Hanc. split.
    + intros [->|Hx]; [constructor|]. by eapply ancestor_trans.
    + induction 1 as [|x md' Hx IHx Hm Hp]; [by left|]. right.
      destruct IHx as [->|IHx]; [rewrite Em in Hm; injection Hm as ->; constructor|].
      by eapply ancestor_parent.
Qed.

Lemma replay_spec (mds : list M) : forall (m : t M) tip,
  (forall hash i, index m !! hash = Some i <-> exists md, metadata m i = Some md /\ block_hash md = hash) ->
  NoDup (block_hash <$> mds) -> (forall md, md ∈ mds -> id_of m (block_hash md) = None) ->
  exists m' tip', replay debug m tip (imap (fun i md => ((next_id m + Z.of_nat i)%Z, md)) mds) = Ok (m', tip') /\
    chain_ m' = chain_ m /\ base m' = base m /\ entries m' = entries m ++ mds /\
    (mds <> [] -> tip' = Some (next_id m + Z.of_nat (length mds) - 1)%Z) /\
    (forall hash i, index m' !! hash = Some i <-> exists md, metadata m' i = Some md /\ block_hash md = hash).
Proof.
  induction mds as [|md mds IH]; intros m tp Hix Hnd Hnew; cbn [imap replay].
  { exists m, tp. rewrite app_nil_r. done. }
  cbn [fmap list_fmap] in Hnd. apply NoDup_cons in Hnd as [Hfr Hnd].
  set (m1 := match entries m with [] => _ | _ => m end).
  assert (m1 = m) as ->.
  { unfold m1. destruct m as [c b es ix]. unfold next_id. cbn. destruct es; [|done]. cbn. f_equal. lia. }
  destruct (push m md) as [assigned m2] eqn:Ep.
  assert (assigned = next_id m) as -> by (unfold push in Ep; by injection Ep as <- _).
  assert (m2 = (push m md).2) as Em2 by (by rewrite Ep).
  assert (next_id m2 = next_id m + 1)%Z as Hn2.
  { rewrite Em2. unfold next_id, push. cbn. rewrite length_app. cbn. lia. }
  rewrite debug_assert_true by (apply Z.eqb_eq; lia). cbn [mbind outcome_bind].
  destruct (IH m2 (Some (next_id m + Z.of_nat 0)%Z)) as (m' & tip' & E & Ec & Eb & Ee & Et & Hix').
  - rewrite Em2. apply index_push; [done|]. apply Hnew. by left.
  - done.
  - intros md' Hin. unfold id_of. rewrite Em2. cbn. rewrite lookup_insert_ne.
    + apply Hnew. by right.
    + intros Heq. apply Hfr. rewrite Heq. by apply list_elem_of_fmap_2.
  - exists m', tip'.
    assert (imap (fun i md0 => ((next_id m2 + Z.of_nat i)%Z, md0)) mds
      = imap ((fun i md0 => ((next_id m + Z.of_nat i)%Z, md0)) ∘ S) mds) as Eimap.
    { apply imap_ext. intros i x _. cbn. f_equal. lia. }
    rewrite <- Eimap, E. rewrite Em2 in *. cbn [push snd chain_ base entries] in *.
    split; [done|]. split; [done|]. split; [done|]. split; [by rewrite Ee, <- app_assoc|].
    split; [|done]. intros _. destruct mds as [|md' mds].
    + cbn in E. injection E as _ <-. cbn. f_equal. lia.
    + rewrite Et by done. cbn [length]. f_equal. lia.
Qed.
End restart.

(** A restart from persisted, contiguous entries with distinct block hashes succeeds and
    restores a well-formed manager whose canonical ids are exactly the tip's ancestry down to the
    live floor. *)
Theorem restart_correct {M} `{BatchMetadata M} (debug : bool) (b : Z) (mds : list M) :
  (1 <= b)%Z -> (b + Z.of_nat (length mds) <= 2 ^ 62)%Z -> mds <> [] -> NoDup (block_hash <$> mds) ->
  exists (m : Manager.t M) canon,
    Manager.new debug default_chain (imap (fun i md => ((b + Z.of_nat i)%Z, md)) mds) = Ok m /\
    Manager.entries m = mds /\ Manager.base m = b /\ manager_ok m b canon /\
    let tp := (b + Z.of_nat (length mds) - 1)%Z in
    tip (current (Manager.chain_ m)) = tp /\
    (forall id, id ∈ canon <-> ancestor m tp id) /\
    forall id, (b <= id)%Z ->
      is_canonical (mem (Manager.chain_ m)) (current (Manager.chain_ m)) id = bool_decide (id ∈ canon).
Proof.
  intros Hb Hu Hne Hnd. unfold Manager.new, claim_writer.
  cbn [writer default_chain negb assert mbind outcome_bind mem current].
  set (c := {| mem := _; current := _; writer := true |}).
  set (m0 := {| Manager.chain_ := c; Manager.base := b; Manager.entries := []; Manager.index := ∅ |} : Manager.t M).
  destruct (replay_spec debug mds m0 None) as (m1 & tip' & E & Ec & Eb & Ee & Et & Hix).
  { intros hash i. cbn. rewrite lookup_empty. split; [done|]. intros (md & Hm & _).
    unfold Manager.metadata in Hm. cbn in Hm. by destruct (i <? b)%Z. }
  { done. }
  { intros md _. apply lookup_empty. }
  unfold next_id in E, Et. cbn [m0 Manager.base Manager.entries length] in E, Et. rewrite Z.add_0_r in E, Et.
  assert (Manager.replay debug {| Manager.chain_ := c; Manager.base := 1; Manager.entries := []; Manager.index := ∅ |}
    None (imap (fun i md => ((b + Z.of_nat i)%Z, md)) mds) = Ok (m1, tip')) as ->.
  { rewrite <- E. destruct mds as [|md mds]; [done|]. cbn [imap Manager.replay Manager.entries].
    by rewrite Z.add_0_r. }
  cbn [mbind outcome_bind]. rewrite Et by done. cbn [app m0 Manager.entries] in Ee.
  set (tp := (b + Z.of_nat (length mds) - 1)%Z).
  assert (0 < length mds) by (destruct mds; [done|cbn; lia]).
  assert (next_id m1 = tp + 1)%Z as Hn1 by (unfold next_id; rewrite Eb, Ee; cbn; unfold tp; lia).
  destruct (ancestry_spec m1 (length (Manager.entries m1)) tp) as (l & El & Hl & Hanc).
  { rewrite Eb, Hn1. cbn. lia. }
  { rewrite Eb, Ee. cbn. lia. }
  unfold Manager.canonical_ancestry. rewrite El. cbn [mbind outcome_bind]. rewrite Eb in *. cbn [m0 Manager.base] in *.
  destruct default_ok as [Hok0 _]. rewrite Ec. cbn [m0 Manager.chain_].
  destruct (restore_step debug c b tp l Hok0) as (c' & -> & Hok' & Hcur' & Htip' & HT'); [lia|lia|done|].
  cbn [mbind outcome_bind]. exists (Manager.with_chain m1 c'), (list_to_set l). split; [done|].
  split; [done|]. split; [done|]. split; [|split; [done|split]].
  - apply with_chain_ok; try done; [by rewrite Eb|rewrite Htip', Hn1; lia|]. rewrite HT', Hn1. apply bno_mono. lia.
  - intros i. rewrite elem_of_list_to_set, Hanc. clear. split; intros Ha.
    + induction Ha as [|x md Hx IHx Hm Hp]; [constructor|]. by eapply ancestor_parent.
    + induction Ha as [|x md Hx IHx Hm Hp]; [constructor|]. by eapply ancestor_parent.
  - intros i Hi. by eapply cur_canonical.
Qed.

Lemma restart_correct_witness :
  exists m canon, Manager.new true default_chain [(5, 5); (6, 6); (7, 7)]%Z = Ok m /\
    Manager.base m = 5%Z /\ manager_ok m 5 canon.
Proof.
  destruct (restart_correct true 5 [5; 6; 7]%Z) as (m & canon & E & _ & Eb & Hm & _).
  - done.
  - done.
  - done.
  - apply (bool_decide_eq_true_1 _). vm_compute. reflexivity.
  - exists m, canon. split; [exact E|]. split; [exact Eb|exact Hm].
Defined.

(** ** Returning blocks below the hot zone's tail *)

(** Blocks 1 to 130, a rollback to 126, and the return of block 127. *)
Definition return_scenario (debug : bool) : Result (Manager.t Z) :=
  m ← Manager.new debug default_chain [];
  foldl (fun m o => m ← m; snd <$> manager_step debug m o) (Ok m)
    (((fun i => MAppend (Z.of_nat i)) <$> seq 1 130) ++ [MRollback 126; MAppend 127%Z]).

(** When a rolled-back block returns in a bucket below the hot zone's tail, a release build
    replaces the hot zone by an empty one: after blocks 1 to 130, a rollback to 126 and the return
    of block 127, block 127 is canonical and its ancestors 1 to 126 no longer are. A debug build
    panics. *)
Theorem returning_block_drops_bits :
  (fun m => (tip (current (Manager.chain_ m)),
             (fun i => is_canonical (mem (Manager.chain_ m)) (current (Manager.chain_ m)) (Z.of_nat i))
               <$> seq 1 127)) <$> return_scenario false
  = Ok (127%Z, replicate 126 false ++ [true]) /\
  return_scenario true = Panic.
Proof. split; vm_compute; reflexivity. Qed.
