(* ===== verification/RocksStore.v ===== *)
(** * RocksStore: the node store of [storage/rocksdb-store]

    The encodings of node keys, node versions and stale markers in RocksDB column families, the
    lookup of the newest visible version by a forward seek, and pruning. RocksDB itself is a
    parameter: an ordered key-value store with atomic batches and prefix-bounded scans. *)

From S2P Require Import Prelude Codec Types SmtNode SmtTrie SmtUpdate SmtTree AtomicRing CanonicalChain.

(** ** storage/types: state_space.rs; state_space_ext.rs, config.rs *)

Inductive StateSpace :=
| StateVersion | StatePtrLatest | StatePtrRollback | SpaceBatchMetadata
| SpaceMetadata | SmtNode | SmtStale | ProofReceipt.

#[export] Instance StateSpace_eq_dec : EqDecision StateSpace.
Proof. solve_decision. Defined.

Definition StateSpace_index (ns : StateSpace) : nat :=
  match ns with
  | StateVersion => 0 | StatePtrLatest => 1 | StatePtrRollback => 2 | SpaceBatchMetadata => 3
  | SpaceMetadata => 4 | SmtNode => 5 | SmtStale => 6 | ProofReceipt => 7
  end.

#[export] Program Instance StateSpace_countable : Countable StateSpace :=
  inj_countable StateSpace_index
    (fun n => [StateVersion; StatePtrLatest; StatePtrRollback; SpaceBatchMetadata;
               SpaceMetadata; SmtNode; SmtStale; ProofReceipt] !! n) _.
Next Obligation. by intros []. Qed.

Definition cf_name (ns : StateSpace) : string :=
  match ns with
  | StateVersion => "data"
  | StatePtrLatest => "latest_ptr"
  | StatePtrRollback => "rollback_ptr"
  | SpaceBatchMetadata => "batch_metadata"
  | SpaceMetadata => "metas"
  | SmtNode => "smt_node"
  | SmtStale => "smt_stale"
  | ProofReceipt => "proof_receipt"
  end.

(** The fixed-prefix extractor of each column family, if any. *)
Definition prefix_len (ns : StateSpace) : option nat :=
  match ns with
  | StateVersion | StatePtrRollback | SmtStale | ProofReceipt => Some 8
  | SmtNode => Some 34
  | StatePtrLatest | SpaceBatchMetadata | SpaceMetadata => None
  end.

(** ** RocksDB *)

Inductive BatchOp :=
| Put (ns : StateSpace) (key value : bytes)
| Delete (ns : StateSpace) (key : bytes).

(** What a batch does to one key: the last operation on it decides. *)
Definition batch_effect (ops : list BatchOp) (ns : StateSpace) (k : bytes) : option (option bytes) :=
  foldl (fun acc op => match op with
                       | Put ns' k' v => if decide (ns' = ns /\ k' = k) then Some (Some v) else acc
                       | Delete ns' k' => if decide (ns' = ns /\ k' = k) then Some None else acc
                       end) None ops.

(** Point reads, atomic batches, and a scan from a key on, bounded by the extractor's prefix. *)
Class OrderedKv (Db : Type) := {
  db_get : Db -> StateSpace -> bytes -> option bytes;
  db_write : Db -> list BatchOp -> Db;
  db_scan : Db -> StateSpace -> nat -> bytes -> list (bytes * bytes)
}.

Class OrderedKvOk (Db : Type) `{OrderedKv Db} := {
  db_get_write db ops ns k :
    db_get (db_write db ops) ns k = default (db_get db ns k) (batch_effect ops ns k);
  db_scan_elem db ns p start k v :
    p <= length start ->
    (k, v) ∈ db_scan db ns p start <->
    db_get db ns k = Some v /\ take p k = take p start /\ bytes_leb start k = true;
  db_scan_sorted db ns p start :
    StronglySorted (fun a b => bytes_ltb a.1 b.1 = true) (db_scan db ns p start)
}.

(** ** key_ext.rs *)

(** [!version]. *)
Definition lnot_u64 (v : Z) : Z := 2 ^ 64 - 1 - v.

Definition encode_with_version (k : Key.t) (version : Z) : bytes :=
  vec_to_list (Key.encode k) ++ vec_to_list (be_split 8 (lnot_u64 version)).

Definition decode_version (raw_key : bytes) : Result Z :=
  fst <$> ((_ ← Reader.skip 34 "key"; v ← Reader.be_u64 "version"; mret (lnot_u64 v)) : parser Z) raw_key.

(** ** stale_node_ext.rs *)

Definition stale_encode_key (s : StaleNode.t) : bytes :=
  vec_to_list (be_split 8 (StaleNode.stale_since_version s)) ++ vec_to_list (Key.encode (StaleNode.key s)).
Definition stale_encode_value (s : StaleNode.t) : bytes :=
  vec_to_list (be_split 8 (StaleNode.version s)).
Definition stale_decode_key (raw_key : bytes) : Result Key.t :=
  fst <$> ((_ ← Reader.skip 8 "stale_since_version"; Key.decode) : parser Key.t) raw_key.
Definition stale_decode_value (raw_value : bytes) : Result Z :=
  fst <$> Reader.be_u64 "node_version" raw_value.

(** ** write_batch.rs *)

(** [impl SmtWriteBatch for WriteBatch]. *)
Definition lower (op : WriteOp) : BatchOp :=
  match op with
  | PutNode k v n => Put SmtNode (encode_with_version k v) (Node.encode n)
  | PutStaleNode s => Put SmtStale (stale_encode_key s) (stale_encode_value s)
  | DeleteNode k v => Delete SmtNode (encode_with_version k v)
  | DeleteStaleNode s => Delete SmtStale (stale_encode_key s)
  end.

(** ** store.rs *)

Record RocksDbStore (Db : Type) := { db : Db; canonical : chain }.
Arguments db {Db} _.
Arguments canonical {Db} _.

Section store.
Context {Db : Type} `{OrderedKv Db}.

(** An empty prefix is a full scan; otherwise the scan is bounded by the family's extractor, if
    it has one. *)
Definition prefix_iter (s : RocksDbStore Db) (ns : StateSpace) (prefix : bytes) : list (bytes * bytes) :=
  match prefix with
  | [] => db_scan (db s) ns 0 []
  | _ => db_scan (db s) ns (default 0 (prefix_len ns)) prefix
  end.

Definition get (s : RocksDbStore Db) (ns : StateSpace) (key : bytes) : option bytes := db_get (db s) ns key.

(** The loop of [node]: the first entry whose version is visible. *)
Fixpoint first_visible (visible : Z -> bool) (iter : list (bytes * bytes)) : Result (option (Z * Node.t)) :=
  match iter with
  | [] => Ok None
  | (raw_key, raw_value) :: iter =>
      version ← unwrap (decode_version raw_key);
      if visible version then
        '(n, _) ← unwrap (Node.decode raw_value);
        Ok (Some (version, n))
      else first_visible visible iter
  end.

(** The versions a snapshot shows: all of them when it tracks none. *)
Definition shows (h : heap) (snapshot : Snapshot) (v : Z) : bool :=
  let versions_tracked := (0 <? tip snapshot)%Z in
  negb versions_tracked || is_canonical h snapshot v.

Definition node (s : RocksDbStore Db) (k : Key.t) (max_version : Z) (snapshot : Snapshot)
    : Result (option (Z * Node.t)) :=
  first_visible (shows (mem (canonical s)) snapshot)
    (prefix_iter s SmtNode (encode_with_version k max_version)).

(** Deletes the nodes marked stale at [version] and their markers. *)
Definition prune (s : RocksDbStore Db) (version : Z) : Result (list WriteOp) :=
  ops ← mapM_outcome (fun '(raw_key, raw_value) =>
    node_key ← unwrap (stale_decode_key raw_key);
    node_version ← unwrap (stale_decode_value raw_value);
    Ok [DeleteNode node_key node_version; DeleteStaleNode (StaleNode.new version node_key node_version)])
    (prefix_iter s SmtStale (vec_to_list (be_split 8 version)));
  Ok (concat ops).

Definition store_commit (s : RocksDbStore Db) (ops : list WriteOp) : RocksDbStore Db :=
  {| db := db_write (db s) (lower <$> ops); canonical := canonical s |}.

(** ** What the column family holds *)

(** Every entry is the encoding of a node at a version. *)
Definition smt_ok (d : Db) : Prop :=
  forall raw val, db_get d SmtNode raw = Some val ->
    exists k v n, key_ok k /\ u64 v /\ raw = encode_with_version k v /\ val = Node.encode n.

(** The node stored at a position and version. *)
Definition raw_node (d : Db) (k : Key.t) (v : Z) : option Node.t :=
  match db_get d SmtNode (encode_with_version k v) with
  | Some val => match Node.decode val with Ok (n, _) => Some n | _ => None end
  | None => None
  end.
End store.

Lemma StronglySorted_filter {A} (R : A -> A -> Prop) (P : A -> Prop) `{!forall x, Decision (P x)} l :
  StronglySorted R l -> StronglySorted R (filter P l).
Proof.
  induction 1 as [|x l _ IH Hx]; [constructor|]. destruct (decide (P x)).
  - rewrite filter_cons_True by done. constructor; [done|].
    rewrite Forall_forall in Hx. apply Forall_forall. intros y Hy. apply Hx. by apply list_elem_of_filter in Hy as [_ ?].
  - by rewrite filter_cons_False.
Qed.

(** ** The encodings *)

Lemma lnot_u64_u64 v : u64 v -> u64 (lnot_u64 v).
Proof. unfold u64, lnot_u64. lia. Qed.

Lemma length_encode_with_version k v : length (encode_with_version k v) = 42.
Proof. unfold encode_with_version. by rewrite length_app, !length_vec_to_list. Qed.

Lemma take_encode_with_version k v : take 34 (encode_with_version k v) = vec_to_list (Key.encode k).
Proof. unfold encode_with_version. apply take_app_length'. by rewrite length_vec_to_list. Qed.

Lemma decode_version_encode k v : u64 v -> decode_version (encode_with_version k v) = Ok v.
Proof.
  intros Hv. unfold decode_version, encode_with_version. apply lnot_u64_u64 in Hv as Hn.
  rewrite <- (app_nil_r (vec_to_list (be_split 8 _))).
  erewrite pbind_run by apply (skip_run 34). parse. cbn. unfold lnot_u64. f_equal. lia.
Qed.

Lemma encode_with_version_inj k v k' v' :
  key_ok k -> key_ok k' -> u64 v -> u64 v' ->
  encode_with_version k v = encode_with_version k' v' -> k = k' /\ v = v'.
Proof.
  intros Hk Hk' Hv Hv' E. split.
  - pose proof (f_equal (take 34) E) as Ek. rewrite !take_encode_with_version in Ek.
    pose proof (Key.key_decode_encode k [] Hk) as D. rewrite Ek, Key.key_decode_encode in D by done.
    by injection D.
  - pose proof (decode_version_encode k v Hv) as D. rewrite E, decode_version_encode in D by done.
    by injection D.
Qed.

(** Within one position, newer versions come first. *)
Lemma encode_with_version_order k v v' :
  u64 v -> u64 v' ->
  bytes_leb (encode_with_version k v) (encode_with_version k v') = (v' <=? v)%Z /\
  bytes_ltb (encode_with_version k v) (encode_with_version k v') = (v' <? v)%Z.
Proof.
  intros Hv Hv'. rewrite bytes_leb_be, bytes_ltb_be by by rewrite !length_encode_with_version.
  unfold encode_with_version. rewrite !be_value_app, !length_vec_to_list.
  apply lnot_u64_u64 in Hv as Hn. apply lnot_u64_u64 in Hv' as Hn'.
  rewrite !be_value_split_small by done. unfold lnot_u64. split; apply Bool.eq_iff_eq_true;
    rewrite ?Z.leb_le, ?Z.ltb_lt; lia.
Qed.

(** ** Lookups *)

Section lookup.
Context {Db : Type} `{OrderedKvOk Db}.
Implicit Types (s : RocksDbStore Db).

Lemma node_decode_encode' n : Node.decode (Node.encode n) = Ok (n, []).
Proof. rewrite <- (app_nil_r (Node.encode n)). apply Node.node_decode_encode. Qed.

Definition entry_of (k : Key.t) (vn : Z * Node.t) : bytes * bytes :=
  (encode_with_version k vn.1, Node.encode vn.2).

Lemma raw_node_Some d k v n :
  smt_ok d -> key_ok k -> u64 v ->
  raw_node d k v = Some n <-> db_get d SmtNode (encode_with_version k v) = Some (Node.encode n).
Proof.
  intros Hd Hk Hv. unfold raw_node. split.
  - destruct (db_get d SmtNode _) as [val|] eqn:E; [|done].
    destruct (Hd _ _ E) as (k' & v' & n' & _ & _ & _ & ->).
    rewrite node_decode_encode'. by intros [= ->].
  - intros ->. by rewrite node_decode_encode'.
Qed.

(** The scan of a lookup lists the versions of the position up to the bound, newest first. *)
Lemma scan_versions s k max :
  smt_ok (db s) -> key_ok k -> u64 max ->
  exists l : list (Z * Node.t),
    prefix_iter s SmtNode (encode_with_version k max) = entry_of k <$> l /\
    StronglySorted (fun a b => b.1 < a.1)%Z l /\
    forall v n, (v, n) ∈ l <-> (u64 v /\ v <= max)%Z /\ raw_node (db s) k v = Some n.
Proof.
  intros Hd Hk Hm.
  assert (prefix_iter s SmtNode (encode_with_version k max)
          = db_scan (db s) SmtNode 34 (encode_with_version k max)) as ->.
  { unfold prefix_iter. pose proof (length_encode_with_version k max).
    by destruct (encode_with_version k max). }
  pose proof (fun raw val => db_scan_elem (db s) SmtNode 34 (encode_with_version k max) raw val
    ltac:(rewrite length_encode_with_version; lia)) as Hin.
  pose proof (db_scan_sorted (db s) SmtNode 34 (encode_with_version k max)) as Hs.
  set (l := db_scan _ _ _ _) in *.
  assert (Forall (fun e => exists vn : Z * Node.t, e = entry_of k vn /\ u64 vn.1 /\ (vn.1 <= max)%Z) l) as Hall.
  { apply Forall_forall. intros [raw val] He. apply Hin in He as (Hg & Hp & Hle).
    destruct (Hd _ _ Hg) as (k' & v' & n' & Hk' & Hv' & -> & ->).
    rewrite !take_encode_with_version in Hp.
    assert (k' = k) as ->.
    { pose proof (Key.key_decode_encode k [] Hk) as D. rewrite <- Hp, Key.key_decode_encode in D by done.
      by injection D. }
    exists (v', n'). split; [done|]. split; [done|].
    rewrite (proj1 (encode_with_version_order k max v' Hm Hv')) in Hle. by apply Z.leb_le. }
  assert (exists l', l = entry_of k <$> l' /\ Forall (fun vn => u64 vn.1 /\ (vn.1 <= max)%Z) l')
    as (l' & -> & Hu).
  { clearbody l. clear Hin Hs. induction Hall as [|e l (vn & -> & Hvn) Hall (l' & -> & IH)].
    - by exists [].
    - exists (vn :: l'). split; [done|]. by constructor. }
  exists l'. split; [done|]. split.
  - clear Hin Hall. induction l' as [|a l' IH]; [constructor|]. apply StronglySorted_inv in Hs as [Hs Ha].
    apply Forall_cons_1 in Hu as [Hua Hu']. constructor; [by apply IH|].
    apply Forall_forall. intros b Hb. rewrite Forall_forall in Ha. rewrite Forall_forall in Hu'. specialize (Hu' b Hb).
    specialize (Ha (entry_of k b) (list_elem_of_fmap_2 _ _ _ Hb)).
    cbn in Ha. rewrite (proj2 (encode_with_version_order k a.1 b.1 (proj1 Hua) (proj1 Hu'))) in Ha.
    by apply Z.ltb_lt.
  - intros v n. split.
    + intros Hv. rewrite Forall_forall in Hu. specialize (Hu _ Hv) as Huv. split; [done|].
      apply raw_node_Some; [done|done|apply Huv|]. apply (Hin (encode_with_version k v)).
      by apply (list_elem_of_fmap_2 (entry_of k) l' (v, n)).
    + intros [[Hv Hle] Hr]. apply raw_node_Some in Hr; [|done..].
      assert ((encode_with_version k v, Node.encode n) ∈ entry_of k <$> l') as He.
      { apply Hin. split; [done|]. split; [by rewrite !take_encode_with_version|].
        rewrite (proj1 (encode_with_version_order k max v Hm Hv)). by apply Z.leb_le. }
      apply list_elem_of_fmap in He as ([v' n'] & E & He). rewrite Forall_forall in Hu.
      specialize (Hu _ He). injection E as E1 E2.
      apply encode_with_version_inj in E1 as [_ ->]; [|done|done|done|apply Hu].
      pose proof (node_decode_encode' n) as D. rewrite E2, node_decode_encode' in D.
      by injection D as ->.
Qed.

Lemma first_visible_spec vis k (l : list (Z * Node.t)) :
  Forall (fun vn => u64 vn.1) l ->
  first_visible vis (entry_of k <$> l) = Ok (head (filter (fun vn => vis vn.1 = true) l)).
Proof.
  induction 1 as [|[v n] l Hv _ IH]; [done|]. rewrite fmap_cons. cbn [first_visible entry_of fst snd].
  rewrite (decode_version_encode k v Hv), node_decode_encode'. cbn [unwrap mbind outcome_bind].
  destruct (vis v) eqn:E.
  - by rewrite filter_cons_True.
  - rewrite filter_cons_False by (cbn; congruence). done.
Qed.

(** What a lookup may answer: the newest shown version of the position up to the bound. *)
Definition newest (s : RocksDbStore Db) (k : Key.t) (max : Z) (snapshot : Snapshot)
    (o : option (Z * Node.t)) : Prop :=
  let sh := shows (mem (canonical s)) snapshot in
  match o with
  | Some (v, n) => u64 v /\ (v <= max)%Z /\ sh v = true /\ raw_node (db s) k v = Some n /\
      forall v', (v < v' <= max)%Z -> sh v' = true -> raw_node (db s) k v' = None
  | None => forall v, u64 v -> (v <= max)%Z -> sh v = true -> raw_node (db s) k v = None
  end.

Lemma node_spec s k max snapshot :
  smt_ok (db s) -> key_ok k -> u64 max ->
  exists o, node s k max snapshot = Ok o /\ newest s k max snapshot o.
Proof.
  intros Hd Hk Hm. destruct (scan_versions s k max Hd Hk Hm) as (l & Hl & Hs & Hin).
  unfold node. rewrite Hl, first_visible_spec.
  2:{ apply Forall_forall. intros [v n] Hvn. by apply Hin in Hvn as [[? _] _]. }
  set (P := fun vn : Z * Node.t => shows (mem (canonical s)) snapshot vn.1 = true).
  eexists; split; [reflexivity|]. unfold newest.
  assert (forall v n, (v, n) ∈ filter P l <->
    (u64 v /\ (v <= max)%Z) /\ shows (mem (canonical s)) snapshot v = true /\ raw_node (db s) k v = Some n) as Hf.
  { intros v n. rewrite list_elem_of_filter, Hin. unfold P. cbn. tauto. }
  pose proof (StronglySorted_filter _ P l Hs) as Hsf.
  destruct (filter P l) as [|[v n] l'] eqn:El; cbn [head].
  - intros v Hv Hle Hsh. destruct (raw_node (db s) k v) as [n|] eqn:E; [|done].
    destruct (not_elem_of_nil (v, n)). by apply Hf.
  - destruct (proj1 (Hf v n) ltac:(set_solver)) as ([Hv Hle] & Hsh & Hr). do 4 (split; [done|]).
    intros v' Hv' Hsh'. destruct (raw_node (db s) k v') as [n'|] eqn:E; [|done]. exfalso.
    assert ((v', n') ∈ (v, n) :: l') as Hc by (apply Hf; unfold u64 in *; repeat split; (done || lia)).
    apply elem_of_cons in Hc as [[= -> ->]|Hc]; [lia|].
    apply StronglySorted_inv in Hsf as [_ Ha]. rewrite Forall_forall in Ha. specialize (Ha _ Hc). cbn in Ha. lia.
Qed.

(** ** Commits *)

Lemma batch_effect_lower ops k v :
  Forall op_ok ops -> key_ok k -> u64 v ->
  batch_effect (lower <$> ops) SmtNode (encode_with_version k v) = option_map (option_map Node.encode) (effect ops k v).
Proof.
  intros Hok Hk Hv. unfold batch_effect, effect. induction ops as [|op ops IH] using rev_ind; [done|].
  apply Forall_app in Hok as [Hok Hop]. apply Forall_inv in Hop.
  rewrite fmap_app, !foldl_app. cbn [fmap list_fmap foldl]. rewrite (IH Hok).
  destruct op as [k' v' n|st|k' v'|st]; cbn [lower]; [|by rewrite decide_False by naive_solver| |
    by rewrite decide_False by naive_solver].
  all: destruct Hop as [Hk' Hv'];
    destruct (decide (k' = k /\ v' = v)) as [[-> ->]|Hne]; [by rewrite decide_True by done|];
    rewrite decide_False; [done|]; intros [_ E]; by apply Hne, encode_with_version_inj.
Qed.

Lemma batch_effect_Put ops raw val :
  batch_effect (lower <$> ops) SmtNode raw = Some (Some val) ->
  exists k v n, PutNode k v n ∈ ops /\ raw = encode_with_version k v /\ val = Node.encode n.
Proof.
  unfold batch_effect. induction ops as [|op ops IH] using rev_ind; [done|].
  rewrite fmap_app, foldl_app. cbn [fmap list_fmap foldl].
  destruct op as [k v n|st|k v|st]; cbn [lower]; case_decide as Hd; intros E;
    try (destruct (IH E) as (k' & v' & n' & ? & ? & ?); exists k', v', n'; set_solver); try done.
  - injection E as <-. destruct Hd as [_ <-]. exists k, v, n. set_solver.
  - by destruct Hd.
Qed.

Lemma smt_ok_commit d ops : smt_ok d -> Forall op_ok ops -> smt_ok (db_write d (lower <$> ops)).
Proof.
  intros Hd Hok raw val. rewrite db_get_write.
  destruct (batch_effect _ SmtNode raw) as [[val'|]|] eqn:E; cbn; [|done|apply Hd].
  intros [= ->]. apply batch_effect_Put in E as (k & v & n & Hin & -> & ->).
  rewrite Forall_forall in Hok. destruct (Hok _ Hin). by exists k, v, n.
Qed.

Lemma raw_node_commit d ops k v :
  Forall op_ok ops -> key_ok k -> u64 v ->
  raw_node (db_write d (lower <$> ops)) k v = default (raw_node d k v) (effect ops k v).
Proof.
  intros Hok Hk Hv. unfold raw_node. rewrite db_get_write, batch_effect_lower by done.
  destruct (effect ops k v) as [[n|]|]; cbn; [|done..].
  by rewrite node_decode_encode'.
Qed.

(** ** The store as the tree sees it, under its current snapshot *)

#[export] Instance rocks_node_store : NodeStore (RocksDbStore Db) := {
  store_ok s := smt_ok (db s);
  visible s v := shows (mem (canonical s)) (current (canonical s)) v;
  node_at s k v := if shows (mem (canonical s)) (current (canonical s)) v then raw_node (db s) k v else None;
  tree_node s k max := match node s k max (current (canonical s)) with Ok o => o | _ => None end;
  commit := store_commit
}.

#[export] Instance rocks_node_store_ok : NodeStoreOk (RocksDbStore Db).
Proof.
  assert (forall max v, u64 max -> (0 <= v <= max)%Z -> u64 v) as Hu by (unfold u64; lia).
  split; cbn.
  - intros s k max v n Hd Hk Hm. destruct (node_spec s k max (current (canonical s)) Hd Hk Hm) as (o & -> & Hn).
    split.
    + intros ->. destruct Hn as (Hv & Hle & Hsh & Hr & Hlast). rewrite Hsh.
      split; [unfold u64 in Hv; lia|]. split; [done|]. intros v' Hv'. specialize (Hlast v' Hv').
      destruct (shows _ _ v'); auto.
    + intros (Hv & Hr & Hlast). destruct (shows _ _ v) eqn:Hsh; [|done].
      destruct o as [[v1 n1]|].
      * destruct Hn as (Hv1 & Hle1 & Hsh1 & Hr1 & Hlast1). unfold u64 in Hv1.
        destruct (Z.lt_trichotomy v v1) as [Hlt|[->|Hgt]].
        -- specialize (Hlast v1). rewrite Hsh1, Hr1 in Hlast. discriminate Hlast. lia.
        -- congruence.
        -- rewrite Hlast1 in Hr by (done || lia). done.
      * rewrite Hn in Hr by (done || lia || by eapply Hu). done.
  - intros s k max Hd Hk Hm. destruct (node_spec s k max (current (canonical s)) Hd Hk Hm) as (o & -> & Hn).
    split.
    + intros -> v Hv. destruct (shows _ _ v) eqn:Hsh; [|done]. apply Hn; [by eapply Hu|lia|done].
    + intros Hnone. destruct o as [[v n]|]; [|done]. destruct Hn as (Hv & Hle & Hsh & Hr & _).
      specialize (Hnone v). rewrite Hsh, Hr in Hnone. discriminate Hnone. unfold u64 in Hv. lia.
  - intros s ops k v _ Hok Hk Hv ->. by apply raw_node_commit.
  - by intros s k v ->.
  - done.
  - intros s ops. apply smt_ok_commit.
Qed.
End lookup.
