(* ===== verification/StoreTheorems.v ===== *)
(** * StoreTheorems: the tree over RocksDB and the canonical chain

    An ordered key-value store to evaluate the model on; lookups under a snapshot; state roots
    across reorganizations, where the chain, the store and the tree interact; and what pruning
    does to a deleted leaf. *)

From S2P Require Import Prelude Codec Types SmtNode SmtTrie SmtUpdate SmtTree AtomicRing.
From S2P Require Import CanonicalChain ChainProofs ChainTheorems RocksStore.

(** ** An ordered key-value store *)

Abbreviation kv := (gmap (StateSpace * bytes) bytes).

Definition kv_op (d : kv) (op : BatchOp) : kv :=
  match op with
  | Put ns k v => <[(ns, k) := v]> d
  | Delete ns k => delete (ns, k) d
  end.

(** The entries of a family that share the prefix and are not below the start. *)
Definition kv_entries (d : kv) (ns : StateSpace) (p : nat) (start : bytes) : list (bytes * bytes) :=
  omap (fun '(ns', k, v) =>
    if bool_decide (ns' = ns /\ take p k = take p start) && bytes_leb start k then Some (k, v) else None)
    (map_to_list d).

#[export] Instance kv_ordered : OrderedKv kv := {
  db_get d ns k := d !! (ns, k);
  db_write d ops := foldl kv_op d ops;
  db_scan d ns p start := sort_by (fun a b => bytes_leb a.1 b.1) (kv_entries d ns p start)
}.

Lemma elem_of_kv_entries d ns p start k v :
  (k, v) ∈ kv_entries d ns p start <->
  d !! (ns, k) = Some v /\ take p k = take p start /\ bytes_leb start k = true.
Proof.
  unfold kv_entries. rewrite list_elem_of_omap. split.
  - intros ([[ns' k'] v'] & Hin & E). apply elem_of_map_to_list in Hin.
    destruct (bool_decide _) eqn:Eb; [|done]. cbn in E. destruct (bytes_leb start k') eqn:El; [|done].
    injection E as -> ->. apply bool_decide_eq_true in Eb as [-> Ep]. done.
  - intros (Hd & Hp & Hl). exists (ns, k, v). split; [by apply elem_of_map_to_list|].
    by rewrite bool_decide_true, Hl by done.
Qed.

Lemma kv_entries_NoDup d ns p start : NoDup (kv_entries d ns p start).*1.
Proof.
  unfold kv_entries. pose proof (NoDup_fst_map_to_list d) as Hnd. revert Hnd.
  induction (map_to_list d) as [|[[ns' k] v] l IH]; [intros _; constructor|].
  rewrite fmap_cons, NoDup_cons. intros [Hk Hnd]. cbn [omap list_omap].
  destruct (bool_decide _ && _) eqn:E; [|by apply IH].
  rewrite fmap_cons. apply NoDup_cons. split; [|by apply IH].
  intros Hin. apply Hk. apply andb_true_iff in E as [E _]. apply bool_decide_eq_true in E as [-> _].
  apply list_elem_of_fmap in Hin as ([k2 v2] & E2 & Hin). cbn in E2. subst k2.
  apply list_elem_of_omap in Hin as ([[ns2 k2] v2'] & Hin & E2).
  destruct (bool_decide _ && _) eqn:E3; [|done]. injection E2 as -> ->.
  apply andb_true_iff in E3 as [E3 _]. apply bool_decide_eq_true in E3 as [-> _].
  by apply (list_elem_of_fmap_2 fst l (ns, k, v2)).
Qed.

Lemma sorted_distinct {B} (l : list (bytes * B)) :
  StronglySorted (fun a b => bytes_leb a.1 b.1 = true) l -> NoDup l.*1 ->
  StronglySorted (fun a b => bytes_ltb a.1 b.1 = true) l.
Proof.
  induction 1 as [|x l _ IH Hx]; [constructor|]. rewrite fmap_cons, NoDup_cons. intros [Hn Hnd].
  constructor; [by apply IH|]. rewrite Forall_forall in Hx. apply Forall_forall. intros y Hy.
  apply bytes_leb_ltb; [by apply Hx|]. intros E. apply Hn. rewrite E. by apply list_elem_of_fmap_2.
Qed.

#[export] Instance kv_ordered_ok : OrderedKvOk kv.
Proof.
  split; cbn.
  - intros d ops ns k. unfold batch_effect. induction ops as [|op ops IH] using rev_ind; [done|].
    rewrite !foldl_app. cbn [foldl]. destruct op as [ns' k' v|ns' k']; cbn [kv_op]; case_decide as Hd.
    + destruct Hd as [-> ->]. by rewrite lookup_insert_eq.
    + rewrite lookup_insert_ne; [done|]. intros [= -> ->]. by apply Hd.
    + destruct Hd as [-> ->]. by rewrite lookup_delete_eq.
    + rewrite lookup_delete_ne; [done|]. intros [= -> ->]. by apply Hd.
  - intros d ns p start k v _. rewrite sort_by_perm. apply elem_of_kv_entries.
  - intros d ns p start. apply sorted_distinct.
    + apply sort_by_sorted; [intros a b; apply bytes_leb_total|intros a b c; apply bytes_leb_trans].
    + rewrite sort_by_perm. apply kv_entries_NoDup.
Qed.

(** ** Lookups under a snapshot *)

(** In a database whose node family holds encoded nodes only, a lookup under any snapshot
    succeeds and returns the newest version of the position that is not above the bound and that
    the snapshot shows, or nothing if there is none; a snapshot with tip 0 shows every version. *)
Theorem node_newest_visible {Db} `{OrderedKvOk Db} (s : RocksDbStore Db) k max snapshot :
  smt_ok (db s) -> key_ok k -> u64 max ->
  exists o, node s k max snapshot = Ok o /\ newest s k max snapshot o.
Proof. apply node_spec. Qed.

(** ** State roots across reorganizations *)

Section reorg.
Context `{Hasher} {Db : Type} `{OrderedKvOk Db} (debug : bool).
Implicit Types (s : RocksDbStore Db).

Definition with_canonical s (c : chain) : RocksDbStore Db := {| db := db s; canonical := c |}.

(** A new block: its id joins the chain, then its batch is committed at that version. *)
Definition advance s (v : Z) (cs : list Commitment) : Result (array 32 * RocksDbStore Db) :=
  c ← append debug (canonical s) v;
  '(r, ops) ← Tree.update (with_canonical s c) cs v;
  Ok (r, commit (with_canonical s c) ops).

Fixpoint run_branch s (branch : list (Z * list Commitment)) : Result (list (array 32) * RocksDbStore Db) :=
  match branch with
  | [] => Ok ([], s)
  | (v, cs) :: branch =>
      '(r, s) ← advance s v cs;
      '(rs, s) ← run_branch s branch;
      Ok (r :: rs, s)
  end.

(** The blocks above [t] are rolled back and another one takes their place. *)
Definition reorg s (t v : Z) (cs : list Commitment) : Result (array 32 * RocksDbStore Db) :=
  c ← rollback debug (canonical s) t;
  advance (with_canonical s c) v cs.

Lemma shows_tracked c a w :
  implements c a -> s_floor a = 1%Z -> (0 < s_tip a)%Z -> (0 <= w)%Z ->
  shows (mem c) (current c) w = bool_decide (w ∈ s_canon a).
Proof.
  intros [Hh Hc Ht _] Hf Htip Hw. unfold shows. rewrite Ht, (proj2 (Z.ltb_lt _ _) Htip). cbn [negb orb].
  destruct (Z.eq_dec w 0%Z) as [->|].
  - unfold is_canonical. cbn [Z.eqb orb]. symmetry. apply bool_decide_eq_false. intros Hin.
    apply (co_canon _ _ _ _ Hc) in Hin. lia.
  - eapply cur_canonical; [exact Hc|lia].
Qed.

Lemma canon_le c a w : implements c a -> w ∈ s_canon a -> (1 <= w <= s_tip a)%Z.
Proof. intros [_ Hc Ht _] Hw. rewrite <- Ht. by apply (co_canon _ _ _ _ Hc). Qed.

(** Putting id [v] on top of the chain of [s0] does not change the map that is read, whatever
    hidden versions the database has got since. *)
Lemma represents_on_top s0 a0 s c a' m :
  implements (canonical s0) a0 -> s_floor a0 = 1%Z ->
  implements c a' -> s_floor a' = 1%Z -> (s_tip a0 < s_tip a')%Z -> u64 (s_tip a') ->
  s_canon a' = s_canon a0 ∪ {[s_tip a']} ->
  smt_ok (db s) ->
  (forall k w, key_ok k -> u64 w -> (w <= s_tip a0)%Z -> raw_node (db s) k w = raw_node (db s0) k w) ->
  (forall k, key_ok k -> raw_node (db s) k (s_tip a') = None) ->
  represents_clean s0 (s_tip a0) m -> represents_clean (with_canonical s c) (s_tip a' - 1) m.
Proof.
  intros Hi0 Hf0 Hi Hf Hlt Hu Hcan Hok Hold Hnew Hrep.
  assert (0 <= s_tip a0)%Z as Hpos.
  { pose proof (im_tip _ _ Hi0) as <-. pose proof (so_tip _ _ (co_snap _ _ _ _ (im_cur _ _ Hi0))). lia. }
  apply (represents_clean_transfer s0 (with_canonical s c) (s_tip a0) (s_tip a' - 1)); [done|unfold u64 in *; lia|unfold u64 in *; lia|lia| |exact Hrep].
  intros k w Hk Hw. cbn.
  rewrite (shows_tracked c a') by (done || lia || (unfold u64 in *; lia)). rewrite Hcan.
  destruct (Z.leb_spec w (s_tip a0)) as [Hle|Hgt].
  - assert (bool_decide (w ∈ s_canon a0 ∪ {[s_tip a']}) = bool_decide (w ∈ s_canon a0)) as ->.
    { apply bool_decide_ext. rewrite elem_of_union, elem_of_singleton. split; [intros [|]; [done|lia]|by left]. }
    destruct (Z.le_gt_cases (s_tip a0) 0).
    + destruct Hrep as (_ & Hver & _). specialize (Hver k w Hk Hw). cbn in Hver.
      rewrite bool_decide_false by (intros Hin; apply (canon_le _ _ _ Hi0) in Hin; lia).
      destruct (if shows _ _ w then _ else _); [|done]. destruct Hver; [eauto|lia].
    + rewrite (shows_tracked _ a0) by (done || lia || (unfold u64 in *; lia)). by rewrite Hold.
  - destruct (bool_decide _) eqn:E; [|done]. apply bool_decide_eq_true in E.
    apply elem_of_union in E as [E|E]; [apply (canon_le _ _ _ Hi0) in E; lia|].
    apply elem_of_singleton in E as ->. auto.
Qed.

(** Every stored version is below [n]. *)
Definition versions_below s (n : Z) : Prop :=
  forall k w, key_ok k -> u64 w -> (n <= w)%Z -> raw_node (db s) k w = None.

(** Committing the batch of the chain's tip. *)
Lemma update_at_tip s c a' m cs :
  implements c a' -> s_floor a' = 1%Z -> (0 < s_tip a')%Z -> u64 (s_tip a') -> s_tip a' ∈ s_canon a' ->
  smt_ok (db s) -> represents_clean (with_canonical s c) (s_tip a' - 1) m ->
  exists ops s', Tree.update (with_canonical s c) cs (s_tip a') = Ok (root_of (apply_commitments m cs), ops) /\
    s' = commit (with_canonical s c) ops /\
    represents s' (s_tip a') (apply_commitments m cs) /\
    (live cs -> represents_clean s' (s_tip a') (apply_commitments m cs)) /\
    (forall k w, key_ok k -> u64 w -> w <> s_tip a' -> raw_node (db s') k w = raw_node (db s) k w).
Proof.
  intros Hi Hf Hpos Hu Hin Hok Hrep.
  destruct (update_step (with_canonical s c) m cs (s_tip a') Hu Hpos) as (ops & Hup & Hlog & Hr & Hrc);
    [|done|].
  { cbn. rewrite (shows_tracked c a') by (done || lia). by apply bool_decide_true. }
  exists ops, (commit (with_canonical s c) ops). do 4 (split; [done|]).
  intros k w Hk Hw Hne. cbn. rewrite raw_node_commit by (done || by apply (update_log_ok (s_tip a'))).
  by rewrite (effect_log (s_tip a')), decide_False.
Qed.

Lemma advance_step s0 a0 s a m v cs n :
  implements (canonical s0) a0 -> s_floor a0 = 1%Z -> represents_clean s0 (s_tip a0) m ->
  implements (canonical s) a -> s_floor a = 1%Z -> s_tip a = s_tip a0 -> s_canon a = s_canon a0 ->
  allowed a (Append v) = true -> smt_ok (db s) -> versions_below s n -> (n <= v)%Z ->
  (forall k w, key_ok k -> u64 w -> (w <= s_tip a0)%Z -> raw_node (db s) k w = raw_node (db s0) k w) ->
  exists s', advance s v cs = Ok (root_of (apply_commitments m cs), s') /\
    implements (canonical s') (spec_step a (Append v)) /\ smt_ok (db s') /\ versions_below s' (v + 1) /\
    represents s' v (apply_commitments m cs) /\
    (live cs -> represents_clean s' v (apply_commitments m cs)) /\
    (forall k w, key_ok k -> u64 w -> w <> v -> raw_node (db s') k w = raw_node (db s) k w).
Proof.
  intros Hi0 Hf0 Hrep Hi Hf Ht Hc Ha Hok Hb Hn Hold.
  destruct (step_implements debug _ _ _ Hi Ha) as (c & E & Hi' & _). cbn [chain_step] in E.
  cbn [allowed] in Ha. rewrite !andb_true_iff, Z.ltb_lt, !Z.leb_le in Ha.
  assert (0 <= s_tip a0)%Z as Hpos.
  { pose proof (im_tip _ _ Hi0) as <-. pose proof (so_tip _ _ (co_snap _ _ _ _ (im_cur _ _ Hi0))). lia. }
  assert (u64 v) as Hu by (unfold u64; lia).
  destruct (update_at_tip s c (spec_step a (Append v)) m cs Hi') as (ops & s' & Hup & -> & Hr & Hrc & Hraw);
    cbn [s_tip s_floor s_canon spec_step]; [done|lia|done|set_solver|done| |].
  { eapply (represents_on_top s0 a0 s c (spec_step a (Append v)));
      cbn [s_tip s_floor s_canon spec_step]; try done; [lia|by rewrite Hc|].
    intros k Hk. by apply Hb. }
  unfold advance. rewrite E. cbn [mbind outcome_bind]. cbn [s_tip spec_step] in *. rewrite Hup.
  eexists. split; [reflexivity|]. split; [done|]. split; [apply Hr|]. split; [|done].
  intros k w Hk Hw Hle. rewrite Hraw by (done || lia). apply Hb; (done || lia).
Qed.

Definition appends (branch : list (Z * list Commitment)) : list chain_op := Append <$> branch.*1.

Lemma branch_run branch : forall s a m n,
  implements (canonical s) a -> s_floor a = 1%Z -> represents_clean s (s_tip a) m -> versions_below s n ->
  allowed_run a (appends branch) = true -> Forall live branch.*2 ->
  StronglySorted Z.lt branch.*1 -> Forall (fun v => n <= v)%Z branch.*1 -> (s_tip a < n)%Z ->
  exists s', run_branch s branch = Ok (root_of <$> states m branch.*2, s') /\
    implements (canonical s') (foldl spec_step a (appends branch)) /\ smt_ok (db s') /\
    (forall k w, key_ok k -> u64 w -> (w < n)%Z -> raw_node (db s') k w = raw_node (db s) k w) /\
    (forall v, (n <= v)%Z -> Forall (fun w => w < v)%Z branch.*1 -> versions_below s' v).
Proof.
  induction branch as [|[v cs] branch IH]; intros s a m n Hi Hf Hrep Hb Ha Hl Hs Hge Hn.
  { exists s. split; [done|]. split; [done|]. split; [apply Hrep|]. split; [done|].
    intros v Hv _ k w Hk Hw Hle. apply Hb; (done || lia). }
  cbn [fmap list_fmap fst snd appends] in *. unfold appends in Ha. cbn [fmap list_fmap allowed_run fst] in Ha.
  apply andb_true_iff in Ha as [Ha Har]. apply Forall_cons_1 in Hl as [Hlc Hl].
  apply StronglySorted_inv in Hs as [Hs Hlt]. apply Forall_cons_1 in Hge as [Hv Hge].
  destruct (advance_step s a s a m v cs n) as (s1 & E1 & Hi1 & Hok1 & Hb1 & _ & Hrc1 & Hraw1); try done.
  { apply Hrep. }
  destruct (IH s1 (spec_step a (Append v)) (apply_commitments m cs) (v + 1)%Z)
    as (s' & E' & Hi' & Hok' & Hraw' & Hb'); try done; [by apply Hrc1| |cbn; lia|].
  { eapply Forall_impl; [exact Hlt|]. cbn. lia. }
  exists s'. cbn [run_branch]. rewrite E1. cbn [mbind outcome_bind]. rewrite E'. split; [done|].
  split; [done|]. split; [done|]. split.
  - intros k w Hk Hw Hwn. rewrite Hraw' by (done || lia). apply Hraw1; (done || lia).
  - intros u Hu Hall. apply Forall_cons_1 in Hall as [Hvu Hall]. apply Hb'; [lia|done].
Qed.

Lemma branch_canon branch a t :
  (forall w, w ∈ s_canon a -> w <= t)%Z -> Forall (fun v => t < v)%Z branch.*1 ->
  s_canon (spec_step (foldl spec_step a (appends branch)) (Rollback t)) = s_canon a /\
  s_floor (foldl spec_step a (appends branch)) = s_floor a.
Proof.
  intros Hc Hb. assert (s_floor (foldl spec_step a (appends branch)) = s_floor a /\
    forall w, w ∈ s_canon (foldl spec_step a (appends branch)) <-> w ∈ s_canon a \/ w ∈ branch.*1) as [Hf Hw].
  { clear Hc Hb. revert a. induction branch as [|[v cs] branch IH]; intros a; [set_solver|].
    destruct (IH (spec_step a (Append v))) as [IHf IHw]. split; [exact IHf|]. intros w.
    etransitivity; [exact (IHw w)|]. cbn. set_solver. }
  split; [|done]. apply set_eq. intros w. cbn [spec_step s_canon]. rewrite elem_of_filter, Hw.
  rewrite Forall_forall in Hb. split.
  - intros [Hle [|Hin]]; [done|]. apply Hb in Hin. lia.
  - intros Hin. split; [by apply Hc|by left].
Qed.

Lemma allowed_run_app a l1 l2 :
  allowed_run a (l1 ++ l2) = allowed_run a l1 && allowed_run (foldl spec_step a l1) l2.
Proof. revert a. induction l1 as [|o l1 IH]; intros a; cbn; [done|]. by rewrite IH, andb_assoc. Qed.
End reorg.

(** C30: a reorganization leaves no trace of the orphaned branch in the state root. Take a RocksDB
    store that holds the nodes of the map [m] at the chain's tip [t] and no others, with nothing
    finalized. Committing any branch of blocks without deletions and with new, increasing ids,
    rolling back to [t], and committing another block with a newer id, all at or above the hot
    zone's tail bucket, yields, in debug and release builds, exactly the root of [m] with the last
    block's batch applied; the roots of the branch are those of its successive maps, and the store
    then represents the new map, although every version of the orphaned branch is still in the
    database. *)
Theorem reorg_correct `{Hasher} {Db} `{OrderedKvOk Db} (debug : bool) (s : RocksDbStore Db) a m n branch v cs :
  implements (canonical s) a -> s_floor a = 1%Z ->
  represents_clean s (s_tip a) m -> versions_below s n -> (s_tip a < n)%Z ->
  Forall live branch.*2 -> StronglySorted Z.lt (branch.*1 ++ [v]) -> Forall (fun w => n <= w)%Z (branch.*1 ++ [v]) ->
  allowed_run a (appends branch ++ [Rollback (s_tip a); Append v]) = true ->
  exists s1 s2,
    run_branch debug s branch = Ok (root_of <$> states m branch.*2, s1) /\
    reorg debug s1 (s_tip a) v cs = Ok (root_of (apply_commitments m cs), s2) /\
    represents s2 v (apply_commitments m cs).
Proof.
  intros Hi Hf Hrep Hb Hn Hl Hs Hge Ha. rewrite allowed_run_app in Ha. apply andb_true_iff in Ha as [Ha1 Ha2].
  cbn [allowed_run] in Ha2. rewrite !andb_true_iff in Ha2. destruct Ha2 as (Har & Haa & _).
  apply StronglySorted_app_inv in Hs as (Hs & _ & Hlt). apply Forall_app in Hge as [Hge Hgv].
  apply Forall_inv in Hgv.
  destruct (branch_run debug branch s a m n) as (s1 & E1 & Hi1 & Hok1 & Hraw1 & Hb1); try done.
  destruct (step_implements debug _ _ _ Hi1 Har) as (c & Ec & Hic & _). cbn [chain_step] in Ec.
  destruct (branch_canon branch a (s_tip a)) as [Hcan Hfl].
  { intros w Hw. by apply (canon_le _ _ _ Hi) in Hw as [_ ?]. }
  { eapply Forall_impl; [exact Hge|]. cbn. lia. }
  destruct (advance_step debug s a (with_canonical s1 c) _ m v cs v Hi Hf Hrep Hic)
    as (s2 & E2 & _ & _ & _ & Hr2 & _); try done.
  { cbn. by rewrite Hfl. }
  { apply Hb1; [done|]. apply Forall_forall. intros w Hw. apply Hlt; set_solver. }
  { intros k w Hk Hw Hle. apply Hraw1; (done || lia). }
  exists s1, s2. split; [done|]. split; [|done]. unfold reorg. by rewrite Ec.
Qed.

Definition empty_store : RocksDbStore kv := {| db := ∅; canonical := default_chain |}.

Lemma empty_store_raw k v : raw_node (db empty_store) k v = None.
Proof. done. Qed.

Lemma empty_store_clean `{Hasher} : represents_clean empty_store 0 ∅.
Proof. apply fresh_clean; [by intros raw val|done]. Qed.

Lemma node_newest_visible_witness :
  let s := {| db := db_write (∅ : kv) (lower <$> [PutNode Key.ROOT 3 Node.Empty; PutNode Key.ROOT 5 Node.Empty]);
              canonical := default_chain |} in
  exists o, node s Key.ROOT 4 (current default_chain) = Ok o /\ newest s Key.ROOT 4 (current default_chain) o.
Proof.
  cbv zeta. apply node_newest_visible.
  - apply smt_ok_commit; [by intros raw val|]. repeat constructor; done.
  - done.
  - done.
Defined.

Lemma reorg_correct_witness :
  exists s1 s2,
    run_branch (H := toy_hasher) true empty_store [(1, [put kA Byte.x01]); (2, [put kB Byte.x02])]%Z
    = Ok (root_of (H := toy_hasher) <$> states ∅ [[put kA Byte.x01]; [put kB Byte.x02]], s1) /\
    reorg (H := toy_hasher) true s1 0 3 [put kC Byte.x03]
    = Ok (root_of (H := toy_hasher) (apply_commitments ∅ [put kC Byte.x03]), s2).
Proof.
  destruct (@reorg_correct toy_hasher kv _ _ true empty_store spec_init ∅ 1
    [(1, [put kA Byte.x01]); (2, [put kB Byte.x02])]%Z 3 [put kC Byte.x03]) as (s1 & s2 & E1 & E2 & _).
  - exact default_implements.
  - reflexivity.
  - exact empty_store_clean.
  - intros k w _ _ _. apply empty_store_raw.
  - reflexivity.
  - repeat constructor; discriminate.
  - cbn. repeat (constructor; [|repeat constructor; lia]). constructor.
  - cbn. repeat (constructor; [lia|]). constructor.
  - vm_compute. reflexivity.
  - exists s1, s2. split; [exact E1|exact E2].
Defined.

(** ** Pruning *)

(** The scenario: A on the left, B and D on the right; A is deleted at version 2; version 2's stale
    nodes are pruned; C is inserted on the left at version 3. *)
Definition prune_scenario `{Hasher} (pruned : bool) : Result (list (array 32)) :=
  let update s cs v := '(r, ops) ← Tree.update s cs v; Ok (r, store_commit s ops) in
  '(r1, s) ← update empty_store [put kA Byte.x01; put kB Byte.x02; put kD Byte.x04] 1%Z;
  '(r2, s) ← update s [del kA] 2%Z;
  s ← (if pruned then ops ← prune s 2; Ok (store_commit s ops) else Ok s);
  '(r3, _) ← update s [put kC Byte.x03] 3%Z;
  Ok [r1; r2; r3].

(** Pruning the version of a deletion brings the deleted leaf back. The updater marks the
    superseded leaf and its tombstone stale at the same version and position, which are the same
    marker key, so the marker of the leaf is overwritten and pruning removes the tombstone only.
    Without pruning the three roots are those of the maps the batches describe; with version 2
    pruned, the root of version 3 commits to the deleted A as well, and differs. *)
Theorem pruned_deletion_resurrects :
  let H := toy_hasher in
  let batches := [[put kA Byte.x01; put kB Byte.x02; put kD Byte.x04]; [del kA]; [put kC Byte.x03]] in
  prune_scenario false = Ok (root_of <$> states ∅ batches) /\
  prune_scenario true
  = Ok ((root_of <$> take 2 (states ∅ batches)) ++
        [root_of (apply_commitments ∅ [put kA Byte.x01; put kB Byte.x02; put kD Byte.x04; put kC Byte.x03])]) /\
  bool_decide (root_of (apply_commitments ∅ [put kA Byte.x01; put kB Byte.x02; put kD Byte.x04; put kC Byte.x03])
    = root_of (apply_commitments ∅ [put kB Byte.x02; put kD Byte.x04; put kC Byte.x03])) = false.
Proof. vm_compute. repeat split. Qed.
