(* ===== verification/AbiCore.v ===== *)
(** * AbiCore: errors, journals and withdrawals of the guest ABI

    [zk/abi]: the ABI's error type and its wire form, the iterator over packed journals, the exit
    destinations, and the sinks that collect a transaction's exits and its deposit address. *)

From S2P Require Import Prelude Codec Types SmtNode.

(** ** error.rs, error_code.rs *)

Module AbiError.
(** A message is the bytes of a Rust string. *)
Inductive t := Guest (code : Z) | Decode (msg : bytes).

#[global] Instance t_eq_dec : EqDecision t.
Proof. solve_decision. Defined.
End AbiError.

Abbreviation AResult := (outcome AbiError.t).

Inductive ErrorCode := VersionIncompatible | InvalidExitSpkTag | InvalidExitSpk.

Definition ErrorCode_as_u32 (e : ErrorCode) : Z :=
  match e with VersionIncompatible => 1 | InvalidExitSpkTag => 2 | InvalidExitSpk => 3 end.

(** [impl From<ErrorCode> for Error]. *)
Definition of_code (e : ErrorCode) : AbiError.t := AbiError.Guest (ErrorCode_as_u32 e).

(** The bytes of a string literal. *)
Definition text (s : string) : bytes := String.list_byte_of_string s.

(** The text [zerocopy] gives a failed cast. *)
Class CastText := cast_text : bytes.

Section errors.
Context `{CastText}.

(** [impl From<vprogs_core_codec::Error> for Error]. *)
Definition of_codec (e : Codec.Error) : AbiError.t :=
  match e with
  | Codec.Decode field => AbiError.Decode (text field)
  | Codec.ZeroCopy => AbiError.Decode cast_text
  end.

(** The [?] operator on a reader's result. *)
Definition from_codec {A} (c : Result A) : AResult A :=
  match c with Ok a => Ok a | Err e => Err (of_codec e) | Panic => Panic end.
End errors.

(** ** Parsers of ABI values *)

Definition aparser (A : Type) : Type := bytes -> AResult (A * bytes).

#[export] Instance aparser_ret : MRet aparser := fun A a buf => Ok (a, buf).
#[export] Instance aparser_bind : MBind aparser := fun A B k p buf =>
  match p buf with
  | Ok (a, buf) => k a buf
  | Err e => Err e
  | Panic => Panic
  end.

#[export] Instance aparser_fmap : FMap aparser := fun A B f p buf =>
  '(a, buf) ← p buf; Ok (f a, buf).

Definition afail {A} (e : AbiError.t) : aparser A := fun _ => Err e.
Definition alift {A} (c : AResult A) : aparser A := fun buf => a ← c; Ok (a, buf).
(** A decoder that takes all that is left. *)
Definition with_rest {A} (f : bytes -> AResult A) : aparser A := fun buf => a ← f buf; Ok (a, buf).
Definition lift `{CastText} {A} (p : parser A) : aparser A := fun buf => from_codec (p buf).

Lemma abind_run {A B} (p : aparser A) (k : A -> aparser B) buf a buf' :
  p buf = Ok (a, buf') -> (p ≫= k) buf = k a buf'.
Proof. unfold mbind, aparser_bind. by intros ->. Qed.

Lemma abind_Ok {A B} (p : aparser A) (k : A -> aparser B) buf b rest :
  (p ≫= k) buf = Ok (b, rest) <-> exists a buf', p buf = Ok (a, buf') /\ k a buf' = Ok (b, rest).
Proof.
  unfold mbind, aparser_bind. split.
  - destruct (p buf) as [[a buf']| |]; [by exists a, buf' | done..].
  - by intros (a & buf' & -> & ?).
Qed.

Lemma lift_run `{CastText} {A} (p : parser A) buf a buf' :
  p buf = Ok (a, buf') -> lift p buf = Ok (a, buf').
Proof. unfold lift. by intros ->. Qed.

Lemma lift_Ok `{CastText} {A} (p : parser A) buf a buf' :
  lift p buf = Ok (a, buf') <-> p buf = Ok (a, buf').
Proof. unfold lift. destruct (p buf) as [[]| |]; cbn; split; try done; by intros [= <- <-]. Qed.

Lemma hash_as_run n field (v : array n) rest :
  Reader.array_as (T := array n) field (vec_to_list v ++ rest) = Ok (v, rest).
Proof. exact (array_as_run (T := array n) field v rest). Qed.

#[export] Hint Resolve lift_run hash_as_run : wire.
Ltac aparse_step := erewrite abind_run; [|solve [eauto with wire typeclass_instances nocore]].
Ltac aparse := repeat (rewrite <- ?app_assoc; aparse_step).

Section codec.
Context `{CastText}.

Definition GUEST : byte := Byte.x00.
Definition DECODE : byte := Byte.x01.

Definition error_decode : aparser AbiError.t :=
  tag ← lift (Reader.read_byte "error_variant");
  match tag with
  | Byte.x00 => code ← lift (Reader.le_u32 "error_code"); mret (AbiError.Guest code)
  | Byte.x01 => msg ← lift (Reader.read_string "error_msg"); mret (AbiError.Decode msg)
  | _ => afail (AbiError.Decode (text "invalid error discriminant"))
  end.

Definition error_encode (e : AbiError.t) : bytes :=
  match e with
  | AbiError.Guest code => [GUEST] ++ vec_to_list (le_split 4 code)
  | AbiError.Decode msg => [DECODE] ++ vec_to_list (le_split 4 (Z.of_nat (length msg))) ++ msg
  end.

(** What the types of [Error] guarantee: a [u32] code, a UTF-8 message; and a message short enough
    for its length prefix. *)
Definition error_ok (e : AbiError.t) : Prop :=
  match e with
  | AbiError.Guest code => u32 code
  | AbiError.Decode msg => Utf8.valid msg = true /\ u32 (Z.of_nat (length msg))
  end.

Lemma error_decode_encode e rest : error_ok e -> error_decode (error_encode e ++ rest) = Ok (e, rest).
Proof.
  unfold error_decode. destruct e as [code|msg]; cbn [error_ok error_encode]; unfold GUEST, DECODE.
  - intros Hc. rewrite <- app_assoc. cbn [app]. aparse_step. cbv beta iota. aparse. done.
  - intros [Hv Hl]. rewrite <- !app_assoc. cbn [app]. aparse_step. cbv beta iota. rewrite app_assoc.
    change (vec_to_list (le_split 4 (Z.of_nat (length msg))) ++ msg) with (Writer.write_blob msg). aparse. done.
Qed.

(** ** journals.rs *)

(** One [next] of the iterator: the next blob, or the end of an empty buffer; an error empties
    the buffer. *)
Definition journals_next (buf : bytes) : option (AResult bytes * bytes) :=
  match buf with
  | [] => None
  | _ => Some (match lift (Reader.blob "journal") buf with
               | Ok (j, rest) => (Ok j, rest)
               | Err e => (Err e, [])
               | Panic => (Panic, [])
               end)
  end.

(** ** standard_spk.rs, script_bytes.rs *)

Inductive StandardSpk :=
| PubKey (k : array 32)
| PubKeyEcdsa (k : array 33)
| ScriptHash (h : array 32).

#[global] Instance StandardSpk_eq_dec : EqDecision StandardSpk.
Proof. solve_decision. Defined.

Definition spk_decode : aparser StandardSpk :=
  tag ← lift (Reader.read_byte "exit_tag");
  match tag with
  | Byte.x00 => k ← lift (Reader.read_array 32 "exit_pubkey"); mret (PubKey k)
  | Byte.x01 => k ← lift (Reader.read_array 33 "exit_pubkey_ecdsa"); mret (PubKeyEcdsa k)
  | Byte.x08 => h ← lift (Reader.read_array 32 "exit_script_hash"); mret (ScriptHash h)
  | _ => afail (of_code InvalidExitSpkTag)
  end.

Definition spk_encode (d : StandardSpk) : bytes :=
  match d with
  | PubKey k => Byte.x00 :: vec_to_list k
  | PubKeyEcdsa k => Byte.x01 :: vec_to_list k
  | ScriptHash h => Byte.x08 :: vec_to_list h
  end.

(** [OpData32 key OpCheckSig], [OpData33 key OpCheckSigECDSA], [OpBlake2b OpData32 hash OpEqual]. *)
Definition to_script_bytes (d : StandardSpk) : bytes :=
  match d with
  | PubKey k => [Byte.x20] ++ vec_to_list k ++ [Byte.xac]
  | PubKeyEcdsa k => [Byte.x21] ++ vec_to_list k ++ [Byte.xab]
  | ScriptHash h => [Byte.xaa; Byte.x20] ++ vec_to_list h ++ [Byte.x87]
  end.

(** [TryFrom<&ScriptPublicKey>]: a script of version 0 of one of the three shapes. *)
Definition spk_try_from (version : Z) (s : bytes) : AResult StandardSpk :=
  let at_ i b := bool_decide (s !! i = Some b) in
  if negb (version =? 0)%Z then Err (of_code InvalidExitSpk)
  else if (length s =? 34) && at_ 0 Byte.x20 && at_ 33 Byte.xac
  then k ← expect (array_of_list 32 (take 32 (drop 1 s))); Ok (PubKey k)
  else if (length s =? 35) && at_ 0 Byte.x21 && at_ 34 Byte.xab
  then k ← expect (array_of_list 33 (take 33 (drop 1 s))); Ok (PubKeyEcdsa k)
  else if (length s =? 35) && at_ 0 Byte.xaa && at_ 1 Byte.x20 && at_ 34 Byte.x87
  then h ← expect (array_of_list 32 (take 32 (drop 2 s))); Ok (ScriptHash h)
  else Err (of_code InvalidExitSpk).

(** ** exit_sink.rs, exits.rs, exits_iter.rs *)

(** The sink is its buffer. *)
Definition sink_new : bytes := [].
Definition sink_emit (sink : bytes) (dest : StandardSpk) (amount : Z) : AResult bytes :=
  Ok (sink ++ spk_encode dest ++ vec_to_list (le_split 8 amount)).

Definition exit_decode : aparser (StandardSpk * Z) :=
  dest ← spk_decode; amount ← lift (Reader.le_u64 "exit_amount"); mret (dest, amount).

(** One [next] of the iterator over exit bytes. *)
Definition exits_next (buf : bytes) : option (AResult ((StandardSpk * Z) * bytes)) :=
  match buf with [] => None | _ => Some (exit_decode buf) end.

(** ** deposit_sink.rs *)

Definition zero32 : array 32 := vreplicate 32 Byte.x00.

Definition deposit_new : array 32 := zero32.
Definition deposit_set (sink hash : array 32) : AResult (array 32) :=
  if bool_decide (sink = zero32) then Ok hash
  else if bool_decide (sink = hash) then Ok sink
  else Err (AbiError.Decode (text "deposit_spk_hash set twice with differing values")).

(** ** What the encodings mean *)

Lemma spk_decode_encode d rest : spk_decode (spk_encode d ++ rest) = Ok (d, rest).
Proof.
  unfold spk_decode. destruct d; cbn [spk_encode app]; aparse_step; cbv beta iota; aparse; done.
Qed.

Lemma exit_decode_encode d amount rest :
  u64 amount -> exit_decode ((spk_encode d ++ vec_to_list (le_split 8 amount)) ++ rest) = Ok ((d, amount), rest).
Proof.
  intros Ha. unfold exit_decode. rewrite <- app_assoc.
  erewrite abind_run by apply spk_decode_encode. aparse. done.
Qed.

Lemma array_of_list_take n l : n <= length l -> exists v : array n, array_of_list n (take n l) = Some v.
Proof.
  revert l. induction n as [|n IH]; intros l Hl; [by exists [#]|].
  destruct l as [|x l]; cbn in Hl; [lia|]. destruct (IH l) as [v Hv]; [lia|]. exists (x ::: v). cbn. by rewrite Hv.
Qed.

(** The decoding of a whole exit buffer, as the loops over it do. *)
Fixpoint exits_all (fuel : nat) (buf : bytes) : AResult (list (StandardSpk * Z)) :=
  match fuel with
  | O => Panic
  | S fuel =>
      match exits_next buf with
      | None => Ok []
      | Some c => '(e, buf) ← c; es ← exits_all fuel buf; Ok (e :: es)
      end
  end.

(** The bytes of a list of exits. *)
Definition exits_encode (es : list (StandardSpk * Z)) : bytes :=
  es ≫= fun e => spk_encode e.1 ++ vec_to_list (le_split 8 e.2).

Lemma exits_all_encode es fuel :
  Forall (fun e => u64 e.2) es -> length es < fuel -> exits_all fuel (exits_encode es) = Ok es.
Proof.
  intros Hes. revert fuel. induction Hes as [|[d a] es Ha _ IH]; intros [|fuel] Hf; cbn in Hf; try lia.
  { done. }
  unfold exits_encode. rewrite bind_cons. cbn [fst snd]. cbn [exits_all exits_next].
  assert (forall r, exits_next ((spk_encode d ++ vec_to_list (le_split 8 a)) ++ r)
    = Some (exit_decode ((spk_encode d ++ vec_to_list (le_split 8 a)) ++ r))) as En by (by destruct d).
  rewrite En, exit_decode_encode by done. cbn [mbind outcome_bind].
  fold (exits_encode es). rewrite IH by lia. done.
Qed.
End codec.

Lemma list_last n (s : bytes) y : length s = S n -> s !! n = Some y -> s = take n s ++ [y].
Proof.
  intros Hl Hy. rewrite <- (take_drop n s) at 1. f_equal. rewrite (drop_S _ y) by done.
  by rewrite drop_ge by lia.
Qed.

(** ** exit_accumulator.rs, no_exits.rs *)

Class ExitAccumulator (A : Type) := {
  add_exit : A -> StandardSpk -> Z -> A;
  acc_finalize : A -> array 32
}.

Definition NoExits : ExitAccumulator unit := {| add_exit a _ _ := a; acc_finalize _ := zero32 |}.

(** An L1 script converts to an exit destination exactly when it is, under script version 0,
    the canonical pay-to-pubkey, pay-to-ECDSA-pubkey or pay-to-script-hash script of that
    destination, so converting and building scripts are mutually inverse and no two destinations
    share a script. *)
Theorem spk_try_from_exact version s d :
  spk_try_from version s = Ok d <-> version = 0%Z /\ s = to_script_bytes d.
Proof.
  split.
  - unfold spk_try_from. destruct (Z.eqb_spec version 0) as [->|]; [|done]. cbn [negb]. intros Hd. split; [done|].
    repeat match type of Hd with (if ?b then _ else _) = _ => destruct b eqn:?; [clear - Hd Heqb|clear Heqb] end; [..|done].
    all: repeat match goal with
      | H : _ && _ = true |- _ => apply andb_prop in H as [? ?]
      | H : bool_decide _ = true |- _ => apply bool_decide_eq_true in H
      | H : (_ =? _) = true |- _ => apply Nat.eqb_eq in H
      end.
    all: match type of Hd with
      | expect ?o ≫= _ = _ => destruct o as [v|] eqn:Hv; [|done]; injection Hd as <-; apply vec_to_list_of_list in Hv
      end; cbn [to_script_bytes app]; rewrite Hv; clear v Hv.
    all: destruct s as [|x s]; [done|]; simplify_eq/=; try (f_equal; by apply list_last).
    destruct s as [|y s]; [done|]; simplify_eq/=. do 2 f_equal. by apply list_last.
  - intros [-> ->]. unfold spk_try_from. cbn [Z.eqb negb].
    destruct d as [k|k|k]; repeat (inv_vec k; try intros ? k); reflexivity.
Qed.
