(* ===== verification/AbiTx.v ===== *)
(** * AbiTx: the transaction processor of the guest ABI

    [zk/abi/src/transaction_processor] and [l1/utils]: the decoding of a transaction and its
    resources, the resource views a handler mutates, the journal commitments, the results streamed
    to the host, and [process_transaction]. *)

From S2P Require Import Prelude Codec Types SmtNode AbiCore.

(** ** l1/utils: tx_id.rs *)

(** BLAKE3's keyed mode. *)
Class Blake3Keyed := keyed_hash : array 32 -> bytes -> array 32.

Definition key_of_text (s : string) : array 32 :=
  array_init 32 (fun i => default Byte.x00 (text s !! i)).

Definition KEY_PAYLOAD_DIGEST : array 32 := key_of_text "PayloadDigest".
Definition KEY_TRANSACTION_REST : array 32 := key_of_text "TransactionRest".
Definition KEY_TRANSACTION_V1_ID : array 32 := key_of_text "TransactionV1Id".

Definition payload_digest_v1 `{Blake3Keyed} (payload : bytes) : array 32 :=
  keyed_hash KEY_PAYLOAD_DIGEST payload.

(** The incremental hasher hashes the concatenation of its updates. *)
Definition tx_id_v1_from_digest `{Blake3Keyed} (payload_digest : array 32) (rest_preimage : bytes) : array 32 :=
  keyed_hash KEY_TRANSACTION_V1_ID
    (vec_to_list payload_digest ++ vec_to_list (keyed_hash KEY_TRANSACTION_REST rest_preimage)).

Definition tx_id_v1 `{Blake3Keyed} (payload rest_preimage : bytes) : array 32 :=
  tx_id_v1_from_digest (keyed_hash KEY_PAYLOAD_DIGEST payload) rest_preimage.

(** ** input/payload.rs, input/transaction.rs *)

Section payload.
Context `{CastText}.

(** Decoding of a slice of its own: what is left over is ignored. *)
Definition on_slice {A} (p : aparser A) (l : bytes) : AResult A := fst <$> p l.

Fixpoint traverse_p {A B} (f : A -> aparser B) (l : list A) : aparser (list B) :=
  match l with
  | [] => mret []
  | x :: l => y ← f x; ys ← traverse_p f l; mret (y :: ys)
  end.

Record Payload := { p_bytes : bytes; access_metadata : list AccessMetadata; ix_data : bytes }.

Definition payload_decode (l : bytes) : AResult Payload :=
  '(am, rest) ← lift decode_slice l;
  Ok {| p_bytes := l; access_metadata := am; ix_data := rest |}.

Record Transaction := { payload : Payload; rest_preimage : bytes }.

Definition V1 : Z := 1.

Definition tx_id `{Blake3Keyed} (tx : Transaction) : array 32 :=
  tx_id_v1 (p_bytes (payload tx)) (rest_preimage tx).

Definition transaction_decode : aparser Transaction :=
  tx_buf ← lift (Reader.blob "tx");
  alift (on_slice
    (pl ← lift (Reader.blob "payload");
     payload ← alift (payload_decode pl);
     rest_preimage ← lift (Reader.blob "rest_preimage");
     mret {| payload := payload; rest_preimage := rest_preimage |}) tx_buf).

End payload.

(** ** input/resource.rs *)

Module Resource.
Record t := {
  meta : AccessMetadata;
  backing : bytes;
  promoted : option bytes;
  index : Z;
  is_new : bool;
  dirty : bool
}.

Definition id (r : t) : ResourceId := resource_id (meta r).
Definition access_type_ (r : t) : AccessType := access_type (meta r).

Definition data (r : t) : bytes := default (backing r) (promoted r).

(** A write through [data_mut]: marks the resource dirty and changes the active buffer, whose
    length a slice cannot change. *)
Definition data_mut (r : t) (f : bytes -> bytes) : t :=
  match promoted r with
  | Some v => {| meta := meta r; backing := backing r; promoted := Some (f v); index := index r;
                 is_new := is_new r; dirty := true |}
  | None => {| meta := meta r; backing := f (backing r); promoted := None; index := index r;
               is_new := is_new r; dirty := true |}
  end.

(** [Vec::resize] with zeros. *)
Definition vec_resize (v : bytes) (new_len : nat) : bytes :=
  if new_len <=? length v then take new_len v else v ++ replicate (new_len - length v) Byte.x00.

Definition resize (r : t) (new_len : nat) : t :=
  let current_len := length (data r) in
  if new_len =? current_len then r
  else
    let '(backing', promoted') :=
      if new_len <? current_len then
        match promoted r with
        | Some v => (backing r, Some (take new_len v))
        | None => (take new_len (backing r), None)
        end
      else
        match promoted r with
        | Some v => (backing r, Some (vec_resize v new_len))
        | None => (backing r, Some (vec_resize (backing r) new_len))
        end in
    {| meta := meta r; backing := backing'; promoted := promoted'; index := index r;
       is_new := is_new r; dirty := true |}.

Definition decode `{CastText} (am : AccessMetadata) : aparser t :=
  index ← lift (Reader.le_u32 "index");
  backing ← lift (Reader.blob_mut "data");
  mret {| meta := am; backing := backing; promoted := None; index := index;
          is_new := (length backing =? 0); dirty := false |}.

(** Host side: [index(4 LE) + blob(data)] of an access handle. *)
Definition encode (index : Z) (data : bytes) : bytes :=
  vec_to_list (le_split 4 index) ++ Writer.write_blob data.
End Resource.

Section inputs.
Context `{CastText}.

(** ** input/execution_input.rs, input/inputs.rs *)

Record ExecutionInput := {
  ei_context_hash : array 32;
  ei_tx : Transaction;
  ei_resources : list Resource.t
}.

Definition execution_input_decode (buf : bytes) : AResult ExecutionInput :=
  on_slice
    (context_hash ← lift (Reader.array_as (T := array 32) "context_hash");
     tx ← transaction_decode;
     resources ← traverse_p Resource.decode (access_metadata (payload tx));
     mret {| ei_context_hash := context_hash; ei_tx := tx; ei_resources := resources |}) buf.

Record Inputs := {
  i_version : Z;
  i_tx_id : array 32;
  i_merge_idx : Z;
  i_execution : option ExecutionInput
}.

Definition inputs_decode (buf : bytes) : AResult Inputs :=
  on_slice
    (version ← lift (Reader.le_u16 "version");
     tx_id ← lift (Reader.array_as (T := array 32) "tx_id");
     merge_idx ← lift (Reader.le_u32 "merge_idx");
     exec ← (if (version =? V1)%Z
             then Some <$> with_rest execution_input_decode
             else mret None);
     mret {| i_version := version; i_tx_id := tx_id; i_merge_idx := merge_idx; i_execution := exec |}) buf.

End inputs.

(** ** journal/input *)

(** The value hash of resource data; empty data is the absent key. *)
Definition data_hash `{Hasher} (data : bytes) : array 32 :=
  match data with [] => EMPTY_HASH | _ => hash data end.

Module InputResourceCommitment.
Record t := { resource_index : U32; resource_id : ResourceId; hash : array 32 }.

#[global] Instance commitment_wire : Wire t :=
  refine_wire (fun '(i, (k, h)) => Some {| resource_index := i; resource_id := k; hash := h |})
    (fun c => (resource_index c, (resource_id c, hash c))).
#[global] Instance commitment_wire_ok : WireOk t.
Proof. apply refine_wire_ok; [by intros []|]. by intros (i & k & h) [] [= -> -> ->]. Qed.

Definition encode `{Hasher} (r : Resource.t) : bytes :=
  vec_to_list (le_split 4 (Resource.index r)) ++ vec_to_list (Resource.id r) ++
  vec_to_list (data_hash (Resource.data r)).
End InputResourceCommitment.

Record ExecutionContext := {
  ec_context_hash : array 32;
  ec_resources : list InputResourceCommitment.t
}.

Definition execution_context_decode `{CastText} : aparser ExecutionContext :=
  context_hash ← lift (Reader.array_as (T := array 32) "context_hash");
  resources ← lift (Reader.slice_as (T := InputResourceCommitment.t) "resources");
  mret {| ec_context_hash := context_hash; ec_resources := resources |}.

Definition execution_context_encode `{Hasher} (exec : ExecutionInput) : bytes :=
  vec_to_list (ei_context_hash exec) ++
  Writer.encode_many (ei_resources exec) InputResourceCommitment.encode.

Module InputCommitment.
Record t := { version : Z; tx_id : array 32; merge_idx : Z; execution_context : option ExecutionContext }.

Definition decode `{CastText} : aparser t :=
  version ← lift (Reader.le_u16 "version");
  tx_id ← lift (Reader.array_as (T := array 32) "tx_id");
  merge_idx ← lift (Reader.le_u32 "merge_idx");
  ctx ← (if (version =? V1)%Z then Some <$> execution_context_decode else mret None);
  mret {| version := version; tx_id := tx_id; merge_idx := merge_idx; execution_context := ctx |}.

Definition encode `{Hasher} (inputs : Inputs) : bytes :=
  vec_to_list (le_split 2 (i_version inputs)) ++ vec_to_list (i_tx_id inputs) ++
  vec_to_list (le_split 4 (i_merge_idx inputs)) ++
  match i_execution inputs with Some exec => execution_context_encode exec | None => [] end.
End InputCommitment.

(** ** effects.rs, journal/output *)

Record Effects := {
  exits : bytes;
  deposit_spk_hash : array 32;
  resources : list Resource.t
}.

Module OutputResourceCommitment.
Inductive t := Changed (hash : array 32) | Unchanged.

Definition CHANGED : byte := Byte.x01.
Definition UNCHANGED : byte := Byte.x00.

Definition decode `{CastText} : aparser t :=
  flag ← lift (Reader.read_byte "flag");
  match flag with
  | Byte.x01 => h ← lift (Reader.read_array 32 "hash"); mret (Changed h)
  | Byte.x00 => mret Unchanged
  | _ => afail (AbiError.Decode (text "invalid resource output flag"))
  end.

Definition encode `{Hasher} (r : Resource.t) : bytes :=
  if Resource.dirty r then CHANGED :: vec_to_list (data_hash (Resource.data r)) else [UNCHANGED].

(** One [next] of the iterator over the remaining commitment bytes. *)
Definition next `{CastText} (buf : bytes) : option (AResult (t * bytes)) :=
  match buf with [] => None | _ => Some (decode buf) end.
End OutputResourceCommitment.

Module OutputCommitment.
Inductive t :=
| Success (exits : bytes) (deposit_spk_hash : array 32) (resources : bytes)
| Error (e : AbiError.t).

Definition SUCCESS : byte := Byte.x00.
Definition ERROR : byte := Byte.x01.

(** The resource iterator keeps the bytes that are left. *)
Definition decode `{CastText} : aparser t :=
  tag ← lift (Reader.read_byte "discriminant");
  match tag with
  | Byte.x00 =>
      exits ← lift (Reader.blob "exits");
      deposit ← lift (Reader.read_array 32 "deposit_spk_hash");
      with_rest (fun buf => Ok (Success exits deposit buf))
  | Byte.x01 => e ← error_decode; mret (Error e)
  | _ => afail (AbiError.Decode (text "invalid output commitment discriminant"))
  end.

Definition encode `{Hasher} (result : AbiError.t + Effects) : bytes :=
  match result with
  | inr eff =>
      [SUCCESS] ++ Writer.write_blob (exits eff) ++ vec_to_list (deposit_spk_hash eff) ++
      (resources eff ≫= OutputResourceCommitment.encode)
  | inl err => [ERROR] ++ error_encode err
  end.
End OutputCommitment.

(** ** journal/entries.rs *)

Record JournalEntries := { input_commitment : InputCommitment.t; output_commitment : OutputCommitment.t }.

Definition journal_decode `{CastText} (buf : bytes) : AResult JournalEntries :=
  on_slice (i ← InputCommitment.decode; o ← OutputCommitment.decode;
            mret {| input_commitment := i; output_commitment := o |}) buf.

(** ** output/outputs.rs *)

Module Outputs.
Definition OK : byte := Byte.x00.
Definition ERR : byte := Byte.x01.

Fixpoint storage_ops `{CastText} (count : nat) : aparser (list (option bytes)) :=
  match count with
  | O => mret []
  | S count =>
      flag ← lift (Reader.read_bool "dirty_flag");
      op ← (if flag : bool then Some <$> lift (Reader.blob "data") else mret None);
      ops ← storage_ops count;
      mret (op :: ops)
  end.

(** A failed execution decodes to its error. *)
Definition decode `{CastText} (buf : bytes) (count : nat) : AResult (list (option bytes)) :=
  on_slice
    (tag ← lift (Reader.read_byte "discriminant");
     match tag with
     | Byte.x00 => storage_ops count
     | Byte.x01 => e ← error_decode; afail e
     | _ => afail (AbiError.Decode (text "invalid output discriminant"))
     end) buf.

Definition encode_op (r : Resource.t) : bytes :=
  if Resource.dirty r then [Byte.x01] ++ Writer.write_blob (Resource.data r) else [Byte.x00].

Definition encode (result : AbiError.t + Effects) : bytes :=
  match result with
  | inr eff => [OK] ++ (resources eff ≫= encode_op)
  | inl err => [ERR] ++ error_encode err
  end.
End Outputs.

(** ** transaction_handler.rs, abi.rs *)

(** What a handler works on: the resources, the exit sink and the deposit sink. *)
Record HandlerState := { hs_resources : list Resource.t; hs_exits : bytes; hs_deposit : array 32 }.

(** A handler mutates its state and returns [Ok(())] or an error; [None] is a panic. *)
Definition TransactionHandler : Type :=
  Transaction -> Z -> array 32 -> HandlerState -> option ((AbiError.t + unit) * HandlerState).

(** The guest: from the host's blob to the journal and the bytes streamed back to the host. *)
Definition process_transaction `{CastText} `{Blake3Keyed} `{Hasher} (f : TransactionHandler) (blob : bytes)
    : AResult (bytes * bytes) :=
  inputs ← match inputs_decode blob with Ok i => Ok i | _ => Panic end;
  result ←
    (if (i_version inputs =? V1)%Z then
       exec ← expect (i_execution inputs);
       _ ← assert (bool_decide (i_tx_id inputs = tx_id (ei_tx exec)));
       '(result, st) ← expect (f (ei_tx exec) (i_merge_idx inputs) (ei_context_hash exec)
                     {| hs_resources := ei_resources exec; hs_exits := sink_new; hs_deposit := deposit_new |});
       Ok (match result with
           | inl err => inl err
           | inr tt => inr {| exits := hs_exits st; deposit_spk_hash := hs_deposit st;
                              resources := hs_resources st |}
           end)
     else Ok (inl (of_code VersionIncompatible)));
  Ok (InputCommitment.encode inputs ++ OutputCommitment.encode result, Outputs.encode result).

(** ** The host's encodings (feature [host]) *)

(** Hashes of the L1 sequencing commitment ([kaspa_seq_commit]). *)
Class SeqCommit := {
  mergeset_context_hash : Z -> Z -> Z -> array 32;
  activity_leaf : array 32 -> Z -> Z -> array 32;
  activity_digest : list (array 32) -> array 32;
  lane_tip_next : array 32 -> array 32 -> array 32 -> array 32 -> array 32;
  smt_leaf_hash : array 32 -> Z -> array 32;
  activity_root_hash : array 32 -> array 32 -> array 32;
  seq_state_root : array 32 -> array 32 -> array 32;
  seq_commit : array 32 -> array 32 -> array 32
}.

(** What the scheduler's [TransactionContext] gives the encoder: the L1 transaction with its id,
    payload and rest preimage, its merge index, the block's times and scores, and the index and
    data of each accessed resource. *)
Record TransactionContext := {
  tc_version : Z;
  tc_id : array 32;
  tc_merge_idx : Z;
  tc_payload : bytes;
  tc_rest_preimage : bytes;
  tc_prev_timestamp : Z;
  tc_daa_score : Z;
  tc_blue_score : Z;
  tc_resources : list (Z * bytes)
}.

Definition transaction_encode (pl rest_preimage : bytes) : bytes :=
  vec_to_list (le_split 4 (4 + Z.of_nat (length pl) + 4 + Z.of_nat (length rest_preimage))) ++
  Writer.write_blob pl ++ Writer.write_blob rest_preimage.

Definition tc_context_hash `{SeqCommit} (ctx : TransactionContext) : array 32 :=
  mergeset_context_hash (tc_prev_timestamp ctx) (tc_daa_score ctx) (tc_blue_score ctx).

Definition execution_input_encode `{SeqCommit} (ctx : TransactionContext) : bytes :=
  vec_to_list (tc_context_hash ctx) ++
  transaction_encode (tc_payload ctx) (tc_rest_preimage ctx) ++
  (tc_resources ctx ≫= fun r => Resource.encode r.1 r.2).

Definition inputs_encode `{SeqCommit} (ctx : TransactionContext) : bytes :=
  vec_to_list (le_split 2 (tc_version ctx)) ++ vec_to_list (tc_id ctx) ++
  vec_to_list (le_split 4 (tc_merge_idx ctx)) ++
  (if (tc_version ctx =? V1)%Z then execution_input_encode ctx else []).

(** ** Round trips *)

Section roundtrip.
Context `{CastText}.

(** A freshly decoded resource. *)
Definition fresh_resource (am : AccessMetadata) (r : Z * bytes) : Resource.t :=
  {| Resource.meta := am; Resource.backing := r.2; Resource.promoted := None; Resource.index := r.1;
     Resource.is_new := (length r.2 =? 0); Resource.dirty := false |}.

Definition wire_resource (r : Z * bytes) : Prop := u32 r.1 /\ u32 (Z.of_nat (length r.2)).

Lemma blob_mut_run field l rest :
  u32 (Z.of_nat (length l)) -> Reader.blob_mut field (Writer.write_blob l ++ rest) = Ok (l, rest).
Proof. apply blob_run. Qed.
Hint Resolve blob_mut_run : wire.

Lemma resource_decode_encode am r rest :
  wire_resource r -> Resource.decode am (Resource.encode r.1 r.2 ++ rest) = Ok (fresh_resource am r, rest).
Proof. intros [Hi Hl]. unfold Resource.decode, Resource.encode. aparse. done. Qed.

Lemma resources_decode_encode ams rs rest :
  length ams = length rs -> Forall wire_resource rs ->
  traverse_p Resource.decode ams ((rs ≫= fun r => Resource.encode r.1 r.2) ++ rest)
  = Ok (zip_with fresh_resource ams rs, rest).
Proof.
  intros Hl Hrs. revert ams Hl. induction Hrs as [|r rs Hr _ IH]; intros [|am ams] Hl; try done.
  injection Hl as Hl. rewrite bind_cons, <- app_assoc. cbn [traverse_p].
  erewrite abind_run by by apply resource_decode_encode.
  erewrite abind_run by by apply IH. done.
Qed.

Lemma transaction_encode_blob pl rp :
  transaction_encode pl rp = Writer.write_blob (Writer.write_blob pl ++ Writer.write_blob rp).
Proof.
  unfold transaction_encode, Writer.write_blob at 3. do 3 f_equal.
  unfold Writer.write_blob. rewrite !length_app, !length_vec_to_list. lia.
Qed.

Lemma transaction_decode_encode pl rp p rest :
  (Z.of_nat (length pl) + Z.of_nat (length rp) + 8 < 2 ^ 32)%Z -> payload_decode pl = Ok p ->
  transaction_decode (transaction_encode pl rp ++ rest) = Ok ({| payload := p; rest_preimage := rp |}, rest).
Proof.
  intros Hl Hp. rewrite transaction_encode_blob. unfold transaction_decode.
  erewrite abind_run.
  2:{ apply lift_run, blob_run. unfold u32, Writer.write_blob. rewrite !length_app, !length_vec_to_list. lia. }
  unfold alift, on_slice. rewrite <- (app_nil_r (Writer.write_blob pl ++ _)).
  assert (u32 (Z.of_nat (length pl))) by (unfold u32; lia).
  assert (u32 (Z.of_nat (length rp))) by (unfold u32; lia).
  rewrite <- app_assoc. aparse_step. unfold alift. rewrite Hp. cbn [mbind outcome_bind].
  erewrite abind_run by reflexivity. aparse. done.
Qed.

(** What the types of a context guarantee, and lengths that fit their prefixes. *)
Record context_ok (ctx : TransactionContext) (p : Payload) : Prop := {
  ck_version : u16 (tc_version ctx);
  ck_merge : u32 (tc_merge_idx ctx);
  ck_payload : payload_decode (tc_payload ctx) = Ok p;
  ck_size : (Z.of_nat (length (tc_payload ctx)) + Z.of_nat (length (tc_rest_preimage ctx)) + 8 < 2 ^ 32)%Z;
  ck_count : length (access_metadata p) = length (tc_resources ctx);
  ck_resources : Forall wire_resource (tc_resources ctx)
}.

Definition context_tx (ctx : TransactionContext) (p : Payload) : Transaction :=
  {| payload := p; rest_preimage := tc_rest_preimage ctx |}.
Definition context_resources (ctx : TransactionContext) (p : Payload) : list Resource.t :=
  zip_with fresh_resource (access_metadata p) (tc_resources ctx).

Lemma inputs_decode_encode `{SeqCommit} ctx p :
  context_ok ctx p ->
  inputs_decode (inputs_encode ctx) = Ok {|
    i_version := tc_version ctx; i_tx_id := tc_id ctx; i_merge_idx := tc_merge_idx ctx;
    i_execution := if (tc_version ctx =? V1)%Z
      then Some {| ei_context_hash := tc_context_hash ctx; ei_tx := context_tx ctx p;
                   ei_resources := context_resources ctx p |}
      else None |}.
Proof.
  intros [Hv Hm Hp Hs Hc Hr]. unfold inputs_decode, inputs_encode, on_slice. aparse.
  destruct (tc_version ctx =? V1)%Z; [|done].
  erewrite abind_run; [cbn; reflexivity|]. unfold fmap, aparser_fmap, with_rest, execution_input_decode, on_slice, execution_input_encode.
  aparse_step.
  erewrite abind_run by by apply transaction_decode_encode. cbn [payload].
  rewrite <- (app_nil_r (tc_resources ctx ≫= _)).
  erewrite abind_run by by apply resources_decode_encode. done.
Qed.

(** The commitments a journal carries for resources before and after a handler ran. *)
Definition committed_input `{Hasher} (r : Resource.t) : InputResourceCommitment.t :=
  {| InputResourceCommitment.resource_index := le_split 4 (Resource.index r);
     InputResourceCommitment.resource_id := Resource.id r;
     InputResourceCommitment.hash := data_hash (Resource.data r) |}.
Definition committed_output `{Hasher} (r : Resource.t) : OutputResourceCommitment.t :=
  if Resource.dirty r then OutputResourceCommitment.Changed (data_hash (Resource.data r))
  else OutputResourceCommitment.Unchanged.
Definition storage_op (r : Resource.t) : option bytes :=
  if Resource.dirty r then Some (Resource.data r) else None.

Lemma encode_inputs_slice `{Hasher} rs :
  Writer.encode_many rs InputResourceCommitment.encode = Writer.write_slice (committed_input <$> rs).
Proof.
  unfold Writer.encode_many, Writer.write_slice. rewrite length_fmap. f_equal.
  induction rs as [|r rs IH]; [done|]. rewrite fmap_cons, !bind_cons, IH. f_equal.
  cbn. do 4 f_equal. symmetry. apply (vec_to_list_app (Resource.id r) (data_hash (Resource.data r))).
Qed.

Lemma execution_context_run `{Hasher} exec rest :
  u32 (Z.of_nat (length (ei_resources exec))) ->
  execution_context_decode (execution_context_encode exec ++ rest)
  = Ok ({| ec_context_hash := ei_context_hash exec; ec_resources := committed_input <$> ei_resources exec |}, rest).
Proof.
  intros Hl. unfold execution_context_decode, execution_context_encode. rewrite encode_inputs_slice.
  rewrite <- app_assoc. aparse_step.
  erewrite abind_run by (apply lift_run, slice_as_run; by rewrite length_fmap). done.
Qed.

Lemma input_commitment_run `{Hasher} inputs rest :
  u16 (i_version inputs) -> u32 (i_merge_idx inputs) ->
  (i_version inputs =? V1)%Z = bool_decide (is_Some (i_execution inputs)) ->
  (forall exec, i_execution inputs = Some exec -> u32 (Z.of_nat (length (ei_resources exec)))) ->
  InputCommitment.decode (InputCommitment.encode inputs ++ rest)
  = Ok ({| InputCommitment.version := i_version inputs; InputCommitment.tx_id := i_tx_id inputs;
           InputCommitment.merge_idx := i_merge_idx inputs;
           InputCommitment.execution_context :=
             (fun exec => {| ec_context_hash := ei_context_hash exec;
                             ec_resources := committed_input <$> ei_resources exec |}) <$> i_execution inputs |}, rest).
Proof.
  intros Hv Hm Hd Hl. unfold InputCommitment.decode, InputCommitment.encode. aparse. rewrite Hd.
  destruct (i_execution inputs) as [exec|] eqn:E; [|done].
  rewrite bool_decide_true by eauto. erewrite abind_run; [cbn; reflexivity|].
  unfold fmap, aparser_fmap. by rewrite execution_context_run by auto.
Qed.

(** What a success journals: lengths that fit their prefixes. *)
Definition effects_ok (eff : Effects) : Prop :=
  u32 (Z.of_nat (length (exits eff))) /\
  Forall (fun r => u32 (Z.of_nat (length (Resource.data r)))) (resources eff).

Definition result_ok (result : AbiError.t + Effects) : Prop :=
  match result with inl e => error_ok e | inr eff => effects_ok eff end.

Lemma output_commitment_run `{Hasher} result :
  result_ok result ->
  fst <$> OutputCommitment.decode (OutputCommitment.encode result)
  = Ok (match result with
        | inl e => OutputCommitment.Error e
        | inr eff => OutputCommitment.Success (exits eff) (deposit_spk_hash eff)
                       (resources eff ≫= OutputResourceCommitment.encode)
        end).
Proof.
  unfold OutputCommitment.decode, OutputCommitment.encode. destruct result as [e|eff]; cbn [result_ok app].
  - intros He. unfold OutputCommitment.ERROR. aparse_step. cbv beta iota.
    rewrite <- (app_nil_r (error_encode e)). by erewrite abind_run by by apply error_decode_encode.
  - intros [Hx _]. unfold OutputCommitment.SUCCESS. aparse_step. cbv beta iota. aparse. done.
Qed.

(** The loop over output commitments. *)
Fixpoint outputs_all (fuel : nat) (buf : bytes) : AResult (list OutputResourceCommitment.t) :=
  match fuel with
  | O => Panic
  | S fuel =>
      match OutputResourceCommitment.next buf with
      | None => Ok []
      | Some c => '(o, buf) ← c; os ← outputs_all fuel buf; Ok (o :: os)
      end
  end.

Lemma output_next_run `{Hasher} r rest :
  OutputResourceCommitment.next (OutputResourceCommitment.encode r ++ rest) = Some (Ok (committed_output r, rest)).
Proof.
  unfold OutputResourceCommitment.encode, committed_output, OutputResourceCommitment.CHANGED,
    OutputResourceCommitment.UNCHANGED.
  destruct (Resource.dirty r); cbn [app OutputResourceCommitment.next]; f_equal;
    unfold OutputResourceCommitment.decode; aparse_step; cbv beta iota; aparse; done.
Qed.

Lemma outputs_all_run `{Hasher} rs fuel :
  length rs < fuel -> outputs_all fuel (rs ≫= OutputResourceCommitment.encode) = Ok (committed_output <$> rs).
Proof.
  revert fuel. induction rs as [|r rs IH]; intros [|fuel] Hf; cbn in Hf; try lia; [done|].
  rewrite bind_cons. cbn [outputs_all]. rewrite output_next_run. cbn [mbind outcome_bind].
  rewrite IH by lia. done.
Qed.

Lemma storage_ops_run rs rest :
  Forall (fun r => u32 (Z.of_nat (length (Resource.data r)))) rs ->
  Outputs.storage_ops (length rs) ((rs ≫= Outputs.encode_op) ++ rest) = Ok (storage_op <$> rs, rest).
Proof.
  induction 1 as [|r rs Hr _ IH]; [done|]. cbn [length Outputs.storage_ops].
  rewrite bind_cons, <- app_assoc, fmap_cons. unfold Outputs.encode_op at 1, storage_op at 1.
  destruct (Resource.dirty r); cbn [app].
  - erewrite abind_run by (apply lift_run; reflexivity). cbn [Vector.hd].
    rewrite bool_decide_false by done. cbn [negb].
    erewrite abind_run.
    2:{ unfold fmap, aparser_fmap. by erewrite lift_run by by apply blob_run. }
    by erewrite abind_run by exact IH.
  - erewrite abind_run by (apply lift_run; reflexivity). cbn [Vector.hd].
    rewrite bool_decide_true by done. cbn [negb].
    erewrite abind_run by reflexivity. by erewrite abind_run by exact IH.
Qed.

Lemma outputs_decode_run result count :
  result_ok result ->
  match result with inl _ => True | inr eff => count = length (resources eff) end ->
  Outputs.decode (Outputs.encode result) count
  = match result with inl e => Err e | inr eff => Ok (storage_op <$> resources eff) end.
Proof.
  unfold Outputs.decode, Outputs.encode, on_slice. destruct result as [e|eff]; cbn [result_ok app].
  - intros He _. unfold Outputs.ERR. aparse_step. cbv beta iota.
    rewrite <- (app_nil_r (error_encode e)). by erewrite abind_run by by apply error_decode_encode.
  - intros [_ Hd] ->. unfold Outputs.OK. aparse_step. cbv beta iota.
    rewrite <- (app_nil_r (resources eff ≫= _)). by rewrite storage_ops_run.
Qed.

Lemma journal_run `{Hasher} inputs result :
  u16 (i_version inputs) -> u32 (i_merge_idx inputs) ->
  (i_version inputs =? V1)%Z = bool_decide (is_Some (i_execution inputs)) ->
  (forall exec, i_execution inputs = Some exec -> u32 (Z.of_nat (length (ei_resources exec)))) ->
  result_ok result ->
  journal_decode (InputCommitment.encode inputs ++ OutputCommitment.encode result) = Ok {|
    input_commitment :=
      {| InputCommitment.version := i_version inputs; InputCommitment.tx_id := i_tx_id inputs;
         InputCommitment.merge_idx := i_merge_idx inputs;
         InputCommitment.execution_context :=
           (fun exec => {| ec_context_hash := ei_context_hash exec;
                           ec_resources := committed_input <$> ei_resources exec |}) <$> i_execution inputs |};
    output_commitment :=
      match result with
      | inl e => OutputCommitment.Error e
      | inr eff => OutputCommitment.Success (exits eff) (deposit_spk_hash eff)
                     (resources eff ≫= OutputResourceCommitment.encode)
      end |}.
Proof.
  intros Hv Hm Hd Hl Hr. unfold journal_decode, on_slice.
  erewrite abind_run by by apply input_commitment_run.
  pose proof (output_commitment_run result Hr) as Ho.
  destruct (OutputCommitment.decode _) as [[o rest]| |] eqn:E; try done. cbn in Ho. injection Ho as ->.
  by erewrite abind_run by exact E.
Qed.

Lemma payload_decode_bytes l p : payload_decode l = Ok p -> p_bytes p = l.
Proof.
  unfold payload_decode. destruct (lift decode_slice l) as [[am rest]| |]; try done. by intros [= <-].
Qed.

(** What the handler's return means for the journal. *)
Definition handler_result (res : AbiError.t + unit) (st : HandlerState) : AbiError.t + Effects :=
  match res with
  | inl err => inl err
  | inr tt => inr {| exits := hs_exits st; deposit_spk_hash := hs_deposit st; resources := hs_resources st |}
  end.

Definition initial_state (rs : list Resource.t) : HandlerState :=
  {| hs_resources := rs; hs_exits := sink_new; hs_deposit := deposit_new |}.
End roundtrip.

(** C8: the guest and the host agree on what a transaction did. On the input the host encodes for
    a supported transaction whose id is the derived one, when the handler returns, the processor
    writes a journal that decodes to the transaction's version, id, merge index and context hash,
    the index, id and data hash of every resource as it was handed in, and either the handler's
    error or its exits, deposit address and, per resource, the new data hash exactly if it was
    written; and the host decodes the same error, or the same resources' new data. *)
Theorem process_transaction_faithful `{CastText} `{Blake3Keyed} `{Hasher} `{SeqCommit}
    (f : TransactionHandler) ctx p res st :
  context_ok ctx p -> tc_version ctx = V1 -> u32 (Z.of_nat (length (tc_resources ctx))) ->
  tc_id ctx = tx_id_v1 (tc_payload ctx) (tc_rest_preimage ctx) ->
  f (context_tx ctx p) (tc_merge_idx ctx) (tc_context_hash ctx) (initial_state (context_resources ctx p))
  = Some (res, st) ->
  result_ok (handler_result res st) ->
  exists journal host entries,
    process_transaction f (inputs_encode ctx) = Ok (journal, host) /\
    journal_decode journal = Ok entries /\
    input_commitment entries =
      {| InputCommitment.version := V1; InputCommitment.tx_id := tc_id ctx;
         InputCommitment.merge_idx := tc_merge_idx ctx;
         InputCommitment.execution_context := Some
           {| ec_context_hash := tc_context_hash ctx;
              ec_resources := committed_input <$> context_resources ctx p |} |} /\
    match res with
    | inl e => output_commitment entries = OutputCommitment.Error e /\
               forall count, Outputs.decode host count = Err e
    | inr tt => exists bs,
        output_commitment entries = OutputCommitment.Success (hs_exits st) (hs_deposit st) bs /\
        outputs_all (S (length (hs_resources st))) bs = Ok (committed_output <$> hs_resources st) /\
        Outputs.decode host (length (hs_resources st)) = Ok (storage_op <$> hs_resources st)
    end.
Proof.
  intros Hok Hver Hcount Hid Hf Hres. unfold process_transaction. rewrite (inputs_decode_encode ctx p Hok).
  cbn [mbind outcome_bind i_version i_execution i_tx_id i_merge_idx expect]. rewrite Hver.
  change (V1 =? V1)%Z with true. cbn [expect mbind outcome_bind ei_tx ei_context_hash ei_resources].
  pose proof (payload_decode_bytes _ _ (ck_payload _ _ Hok)) as Hp.
  rewrite bool_decide_true.
  2:{ rewrite Hid. unfold tx_id. cbn. by rewrite Hp. }
  cbn [assert mbind outcome_bind]. unfold initial_state in Hf.
  rewrite Hf. cbn [expect mbind outcome_bind].
  change (match res with inl err => inl err | inr tt => _ end) with (handler_result res st).
  eexists _, _, _. split; [reflexivity|]. split.
  { apply journal_run; cbn [i_version i_merge_idx i_execution]; try done; [apply Hok|].
    intros exec [= <-]. cbn. unfold context_resources. rewrite length_zip_with_l by (by rewrite (ck_count _ _ Hok)).
    by rewrite (ck_count _ _ Hok). }
  split; [done|]. destruct res as [e|[]]; cbn [handler_result].
  - split; [done|]. intros count. by apply (outputs_decode_run (inl e)).
  - eexists. split; [done|]. split; [apply outputs_all_run; cbn; lia|].
    apply (outputs_decode_run (inr _) _ Hres). done.
Qed.

(** Unsupported transactions: the guest never runs the handler, the input is just the header, and
    the journal commits to the header with no execution context and the version error. *)

(** A transaction of an unsupported version still gets a journal, whatever the handler: it
    commits to the transaction's version, id and merge index, to no execution context, and to the
    version error, which is also what the host decodes. *)
Theorem unsupported_version_journal `{CastText} `{Blake3Keyed} `{Hasher} `{SeqCommit} (f : TransactionHandler) ctx :
  u16 (tc_version ctx) -> u32 (tc_merge_idx ctx) -> tc_version ctx <> V1 ->
  exists journal host,
    process_transaction f (inputs_encode ctx) = Ok (journal, host) /\
    journal_decode journal = Ok {|
      input_commitment :=
        {| InputCommitment.version := tc_version ctx; InputCommitment.tx_id := tc_id ctx;
           InputCommitment.merge_idx := tc_merge_idx ctx; InputCommitment.execution_context := None |};
      output_commitment := OutputCommitment.Error (of_code VersionIncompatible) |} /\
    forall count, Outputs.decode host count = Err (of_code VersionIncompatible).
Proof.
  intros Hv Hm Hne.
  assert ((tc_version ctx =? V1)%Z = false) as Hf by (by apply Z.eqb_neq).
  assert (inputs_decode (inputs_encode ctx) = Ok {| i_version := tc_version ctx; i_tx_id := tc_id ctx;
    i_merge_idx := tc_merge_idx ctx; i_execution := None |}) as Hd.
  { unfold inputs_decode, inputs_encode, on_slice. aparse. by rewrite Hf. }
  unfold process_transaction. rewrite Hd. cbn [mbind outcome_bind i_version]. rewrite Hf.
  assert (result_ok (inl (of_code VersionIncompatible))) as Hok by done.
  eexists _, _. split; [reflexivity|]. split.
  - by apply (journal_run {| i_version := _; i_execution := None |} (inl _)).
  - intros count. by apply (outputs_decode_run (inl _)).
Qed.

(** ** The demonstration guests: transaction-processor, transaction-processor-with-exits *)

Section demo.
(** Whether the guest is built with overflow checks. *)
Context (overflow_checks : bool).

Definition increment (r : Resource.t) : option Resource.t :=
  let r := if Resource.is_new r then Resource.resize r 4 else r in
  a ← array_of_list 4 (Resource.data r);
  let new_value := (le_combine (vec_to_list a) + 1)%Z in
  if overflow_checks && (2 ^ 32 <=? new_value)%Z then None
  else Some (Resource.data_mut r (fun _ => vec_to_list (le_split 4 new_value))).

Definition increment_handler : TransactionHandler := fun _tx _merge_idx _context_hash st =>
  rs ← mapM increment (hs_resources st);
  Some (inr tt, {| hs_resources := rs; hs_exits := hs_exits st; hs_deposit := hs_deposit st |}).

(** [merge_idx] is a [u32], so the amount fits a [u64]. *)
Definition increment_exit_handler : TransactionHandler := fun _tx merge_idx _context_hash st =>
  rs ← mapM increment (hs_resources st);
  let pubkey : array 32 := vreplicate 32 (Vector.hd (le_split 1 merge_idx)) in
  let amount := (1000000 * (merge_idx + 1))%Z in
  match sink_emit (hs_exits st) (PubKey pubkey) amount with
  | Ok exits => Some (inr tt, {| hs_resources := rs; hs_exits := exits; hs_deposit := hs_deposit st |})
  | Err e => Some (inl e, {| hs_resources := rs; hs_exits := hs_exits st; hs_deposit := hs_deposit st |})
  | Panic => None
  end.
End demo.

(** Cheap instances for evaluating the guest. *)
Definition toy_keyed : Blake3Keyed := fun k l => @hash toy_hasher (vec_to_list k ++ l).
Definition toy_seq : SeqCommit :=
  let h := @hash toy_hasher in
  let cat := List.flat_map (fun a : array 32 => vec_to_list a) in
  let num x := vec_to_list (le_split 8 x) in
  {| mergeset_context_hash a b c := h (num a ++ num b ++ num c);
     activity_leaf id v i := h (vec_to_list id ++ num v ++ num i);
     activity_digest ls := h (cat ls);
     lane_tip_next a b c d := h (cat [a; b; c; d]);
     smt_leaf_hash a n := h (vec_to_list a ++ num n);
     activity_root_hash a b := h (cat [a; b]);
     seq_state_root a b := h (cat [a; b]);
     seq_commit a b := h (cat [a; b]) |}.

(** A transaction that writes one existing counter and one new one. *)
Definition demo_accesses : list AccessMetadata :=
  [AccessMetadata_write (vreplicate 32 Byte.x01); AccessMetadata_write (vreplicate 32 Byte.x81)].
Definition demo_payload : Payload :=
  {| p_bytes := Writer.write_slice demo_accesses; access_metadata := demo_accesses; ix_data := [] |}.
Definition demo_context : TransactionContext :=
  {| tc_version := V1; tc_id := @tx_id_v1 toy_keyed (p_bytes demo_payload) [Byte.x07]; tc_merge_idx := 3;
     tc_payload := p_bytes demo_payload; tc_rest_preimage := [Byte.x07];
     tc_prev_timestamp := 5; tc_daa_score := 6; tc_blue_score := 7;
     tc_resources := [(0%Z, [Byte.x29; Byte.x00; Byte.x00; Byte.x00]); (1%Z, [])] |}.

Lemma demo_context_ok : @context_ok [] demo_context demo_payload.
Proof.
  constructor; try (cbn; lia); [by vm_compute..|].
  repeat constructor; cbn; lia.
Qed.

Definition demo_state : HandlerState :=
  default (initial_state [])
    (snd <$> increment_exit_handler true (context_tx demo_context demo_payload) 3%Z zero32
               (initial_state (context_resources demo_context demo_payload))).

Lemma process_transaction_faithful_witness :
  exists journal host entries,
    @process_transaction [] toy_keyed toy_hasher (increment_exit_handler true) (@inputs_encode toy_seq demo_context)
    = Ok (journal, host) /\
    @journal_decode [] journal = Ok entries /\
    @Outputs.decode [] host 2 =
      Ok [Some [Byte.x2a; Byte.x00; Byte.x00; Byte.x00]; Some [Byte.x01; Byte.x00; Byte.x00; Byte.x00]].
Proof.
  destruct (@process_transaction_faithful [] toy_keyed toy_hasher toy_seq (increment_exit_handler true)
    demo_context demo_payload (inr tt) demo_state) as (j & h & e & Hp & Hj & _ & bs & _ & _ & Ho).
  - apply demo_context_ok.
  - reflexivity.
  - vm_compute; split; congruence.
  - reflexivity.
  - vm_compute. reflexivity.
  - split; [vm_compute; split; congruence|]. repeat constructor; vm_compute; congruence.
  - exists j, h, e. split; [exact Hp|]. split; [exact Hj|].
    transitivity (@Ok AbiError.t _ (storage_op <$> hs_resources demo_state)); [exact Ho | vm_compute; reflexivity].
Defined.

Lemma unsupported_version_journal_witness :
  exists journal host,
    @process_transaction [] toy_keyed toy_hasher (increment_handler true)
      (@inputs_encode toy_seq {| tc_version := 2; tc_id := zero32; tc_merge_idx := 0; tc_payload := [];
         tc_rest_preimage := []; tc_prev_timestamp := 0; tc_daa_score := 0; tc_blue_score := 0;
         tc_resources := [] |}) = Ok (journal, host) /\
    forall count, @Outputs.decode [] host count = Err (AbiError.Guest 1).
Proof.
  destruct (@unsupported_version_journal [] toy_keyed toy_hasher toy_seq (increment_handler true)
    {| tc_version := 2; tc_id := zero32; tc_merge_idx := 0; tc_payload := [];
       tc_rest_preimage := []; tc_prev_timestamp := 0; tc_daa_score := 0; tc_blue_score := 0;
       tc_resources := [] |}) as (j & h & Hp & _ & Ho).
  - vm_compute; split; congruence.
  - vm_compute; split; congruence.
  - discriminate.
  - exists j, h. split; [exact Hp | exact Ho].
Defined.
