(* ===== verification/L1Types.v ===== *)
(** * L1Types: what the bridge records of L1 blocks and settlements

    [l1/types]: the per-block metadata, the settlement record with its Borsh encoding, and the
    detection of a covenant's settlement in an L1 transaction. The script parser and the
    transaction's id are those of the L1 node's crates. *)

From S2P Require Import Prelude Codec Types.

(** ** Borsh *)

(** A Borsh reader: a value and the bytes left, or an i/o error. *)
Definition bparser (A : Type) : Type := bytes -> option (A * bytes).
#[export] Instance bparser_ret : MRet bparser := fun A a buf => Some (a, buf).
#[export] Instance bparser_bind : MBind bparser := fun A B k p buf => '(a, buf) ← p buf; k a buf.

Module Borsh.
Definition read_hash : bparser (array 32) := fun buf =>
  v ← array_of_list 32 (take 32 buf); Some (v, drop 32 buf).
Definition read_u64 : bparser Z := fun buf =>
  v ← array_of_list 8 (take 8 buf); Some (le_combine (vec_to_list v), drop 8 buf).
Definition read_bool : bparser bool := fun buf =>
  match buf with Byte.x00 :: buf => Some (false, buf) | Byte.x01 :: buf => Some (true, buf) | _ => None end.
Definition read_option {A} (p : bparser A) : bparser (option A) := fun buf =>
  match buf with
  | Byte.x00 :: buf => Some (None, buf)
  | Byte.x01 :: buf => '(a, buf) ← p buf; Some (Some a, buf)
  | _ => None
  end.

(** [try_from_slice]: all bytes must be read. *)
Definition try_from_slice {A} (p : bparser A) (buf : bytes) : option A :=
  '(a, rest) ← p buf; match rest with [] => Some a | _ => None end.

Definition write_u64 (z : Z) : bytes := vec_to_list (le_split 8 z).
Definition write_bool (b : bool) : bytes := [if b then Byte.x01 else Byte.x00].
Definition write_option {A} (w : A -> bytes) (o : option A) : bytes :=
  match o with Some a => Byte.x01 :: w a | None => [Byte.x00] end.
End Borsh.

(** ** settlement_info.rs *)

Record SettlementInfo := {
  si_tx_id : array 32;
  si_containing_block : array 32;
  si_daa_score : Z;
  si_block_prove_to : array 32;
  si_new_state : array 32;
  si_new_lane_tip : array 32
}.

Definition settlement_serialize (s : SettlementInfo) : bytes :=
  vec_to_list (si_tx_id s) ++ vec_to_list (si_containing_block s) ++ Borsh.write_u64 (si_daa_score s) ++
  vec_to_list (si_block_prove_to s) ++ vec_to_list (si_new_state s) ++ vec_to_list (si_new_lane_tip s).

Definition settlement_deserialize : bparser SettlementInfo :=
  tx_id ← Borsh.read_hash;
  containing_block ← Borsh.read_hash;
  daa_score ← Borsh.read_u64;
  block_prove_to ← Borsh.read_hash;
  new_state ← Borsh.read_hash;
  new_lane_tip ← Borsh.read_hash;
  mret {| si_tx_id := tx_id; si_containing_block := containing_block; si_daa_score := daa_score;
          si_block_prove_to := block_prove_to; si_new_state := new_state; si_new_lane_tip := new_lane_tip |}.

(** ** chain_block_metadata.rs *)

Record ChainBlockMetadata := {
  cb_hash : array 32;
  cb_parent_id : Z;
  cb_blue_score : Z;
  cb_daa_score : Z;
  cb_timestamp : Z;
  cb_prev_timestamp : Z;
  cb_lane_key : array 32;
  cb_seq_commit : array 32;
  cb_prev_seq_commit : array 32;
  cb_prev_lane_blue_score : Z;
  cb_lane_blue_score : Z;
  cb_prev_lane_tip : array 32;
  cb_lane_tip : array 32;
  cb_lane_expired : bool;
  cb_last_settlement : option SettlementInfo
}.

#[export] Instance ChainBlockMetadata_batch : BatchMetadata ChainBlockMetadata :=
  {| block_hash := cb_hash; parent_id := cb_parent_id |}.

(** [Default]: zero hashes, zero numbers, no settlement. *)
Definition ChainBlockMetadata_default : ChainBlockMetadata :=
  let z := vreplicate 32 Byte.x00 in
  {| cb_hash := z; cb_parent_id := 0; cb_blue_score := 0; cb_daa_score := 0; cb_timestamp := 0;
     cb_prev_timestamp := 0; cb_lane_key := z; cb_seq_commit := z; cb_prev_seq_commit := z;
     cb_prev_lane_blue_score := 0; cb_lane_blue_score := 0; cb_prev_lane_tip := z; cb_lane_tip := z;
     cb_lane_expired := false; cb_last_settlement := None |}.

(** The header fields the node's RPC reports, as [RpcHeader] and [RpcOptionalHeader] carry them. *)
Record RpcHeader := {
  rh_hash : array 32;
  rh_blue_score : Z;
  rh_daa_score : Z;
  rh_timestamp : Z;
  rh_accepted_id_merkle_root : array 32
}.
Record RpcOptionalHeader := {
  ro_hash : option (array 32);
  ro_blue_score : option Z;
  ro_daa_score : option Z;
  ro_timestamp : option Z;
  ro_accepted_id_merkle_root : option (array 32)
}.

Definition from_header (h : RpcHeader) : ChainBlockMetadata :=
  let d := ChainBlockMetadata_default in
  {| cb_hash := rh_hash h; cb_parent_id := cb_parent_id d; cb_blue_score := rh_blue_score h;
     cb_daa_score := rh_daa_score h; cb_timestamp := rh_timestamp h; cb_prev_timestamp := cb_prev_timestamp d;
     cb_lane_key := cb_lane_key d; cb_seq_commit := rh_accepted_id_merkle_root h;
     cb_prev_seq_commit := cb_prev_seq_commit d; cb_prev_lane_blue_score := cb_prev_lane_blue_score d;
     cb_lane_blue_score := cb_lane_blue_score d; cb_prev_lane_tip := cb_prev_lane_tip d;
     cb_lane_tip := cb_lane_tip d; cb_lane_expired := cb_lane_expired d;
     cb_last_settlement := cb_last_settlement d |}.

(** The error is the first missing field's. *)
Definition try_from_header (h : RpcOptionalHeader) : outcome string ChainBlockMetadata :=
  hash ← ok_or (ro_hash h) "missing hash"%string;
  blue_score ← ok_or (ro_blue_score h) "missing blue_score"%string;
  daa_score ← ok_or (ro_daa_score h) "missing daa_score"%string;
  timestamp ← ok_or (ro_timestamp h) "missing timestamp"%string;
  seq_commit ← ok_or (ro_accepted_id_merkle_root h) "missing seq_commit"%string;
  Ok (from_header {| rh_hash := hash; rh_blue_score := blue_score; rh_daa_score := daa_score;
                     rh_timestamp := timestamp; rh_accepted_id_merkle_root := seq_commit |}).

(** The derived Borsh encoding: the fields in declaration order. *)
Definition metadata_serialize (m : ChainBlockMetadata) : bytes :=
  vec_to_list (cb_hash m) ++ Borsh.write_u64 (cb_parent_id m) ++ Borsh.write_u64 (cb_blue_score m) ++
  Borsh.write_u64 (cb_daa_score m) ++ Borsh.write_u64 (cb_timestamp m) ++
  Borsh.write_u64 (cb_prev_timestamp m) ++ vec_to_list (cb_lane_key m) ++ vec_to_list (cb_seq_commit m) ++
  vec_to_list (cb_prev_seq_commit m) ++ Borsh.write_u64 (cb_prev_lane_blue_score m) ++
  Borsh.write_u64 (cb_lane_blue_score m) ++ vec_to_list (cb_prev_lane_tip m) ++ vec_to_list (cb_lane_tip m) ++
  Borsh.write_bool (cb_lane_expired m) ++ Borsh.write_option settlement_serialize (cb_last_settlement m).

Definition metadata_deserialize : bparser ChainBlockMetadata :=
  hash ← Borsh.read_hash; parent_id ← Borsh.read_u64; blue_score ← Borsh.read_u64;
  daa_score ← Borsh.read_u64; timestamp ← Borsh.read_u64; prev_timestamp ← Borsh.read_u64;
  lane_key ← Borsh.read_hash; seq_commit ← Borsh.read_hash; prev_seq_commit ← Borsh.read_hash;
  prev_lane_blue_score ← Borsh.read_u64; lane_blue_score ← Borsh.read_u64;
  prev_lane_tip ← Borsh.read_hash; lane_tip ← Borsh.read_hash; lane_expired ← Borsh.read_bool;
  last_settlement ← Borsh.read_option settlement_deserialize;
  mret {| cb_hash := hash; cb_parent_id := parent_id; cb_blue_score := blue_score; cb_daa_score := daa_score;
          cb_timestamp := timestamp; cb_prev_timestamp := prev_timestamp; cb_lane_key := lane_key;
          cb_seq_commit := seq_commit; cb_prev_seq_commit := prev_seq_commit;
          cb_prev_lane_blue_score := prev_lane_blue_score; cb_lane_blue_score := lane_blue_score;
          cb_prev_lane_tip := prev_lane_tip; cb_lane_tip := lane_tip; cb_lane_expired := lane_expired;
          cb_last_settlement := last_settlement |}.

Lemma bbind_run {A B} (p : bparser A) (k : A -> bparser B) buf a buf' :
  p buf = Some (a, buf') -> (p ≫= k) buf = k a buf'.
Proof. unfold mbind, bparser_bind. by intros ->. Qed.

Lemma read_hash_run (v : array 32) rest : Borsh.read_hash (vec_to_list v ++ rest) = Some (v, rest).
Proof.
  unfold Borsh.read_hash. rewrite take_app_length', drop_app_length' by by rewrite length_vec_to_list.
  by rewrite array_of_vec_to_list.
Qed.

Lemma read_u64_run z rest : u64 z -> Borsh.read_u64 (Borsh.write_u64 z ++ rest) = Some (z, rest).
Proof.
  intros Hz. unfold Borsh.read_u64, Borsh.write_u64.
  rewrite take_app_length', drop_app_length' by by rewrite length_vec_to_list.
  rewrite array_of_vec_to_list. cbn [mbind option_bind]. do 2 f_equal. by apply le_combine_split_small.
Qed.

Lemma read_bool_run b rest : Borsh.read_bool (Borsh.write_bool b ++ rest) = Some (b, rest).
Proof. by destruct b. Qed.

Lemma read_option_run {A} (p : bparser A) w o rest :
  (forall a rest, o = Some a -> p (w a ++ rest) = Some (a, rest)) ->
  Borsh.read_option p (Borsh.write_option w o ++ rest) = Some (o, rest).
Proof. intros Hp. destruct o as [a|]; [|done]. cbn. by rewrite Hp. Qed.

Create HintDb borsh discriminated.
#[export] Hint Resolve read_hash_run read_u64_run read_bool_run : borsh.
Ltac borsh := repeat (rewrite <- ?app_assoc; erewrite bbind_run; [|solve [eauto with borsh nocore]]).

Definition settlement_ok (s : SettlementInfo) : Prop := u64 (si_daa_score s).

Record metadata_ok (m : ChainBlockMetadata) : Prop := {
  mk_parent : u64 (cb_parent_id m);
  mk_blue : u64 (cb_blue_score m);
  mk_daa : u64 (cb_daa_score m);
  mk_time : u64 (cb_timestamp m);
  mk_prev_time : u64 (cb_prev_timestamp m);
  mk_prev_lane_blue : u64 (cb_prev_lane_blue_score m);
  mk_lane_blue : u64 (cb_lane_blue_score m);
  mk_settlement : forall s, cb_last_settlement m = Some s -> settlement_ok s
}.

Lemma settlement_run s rest :
  settlement_ok s -> settlement_deserialize (settlement_serialize s ++ rest) = Some (s, rest).
Proof. intros Hs. unfold settlement_deserialize, settlement_serialize. borsh. by destruct s. Qed.

Lemma metadata_run m rest :
  metadata_ok m -> metadata_deserialize (metadata_serialize m ++ rest) = Some (m, rest).
Proof.
  intros [? ? ? ? ? ? ? Hs]. unfold metadata_deserialize, metadata_serialize. borsh.
  erewrite bbind_run by (apply read_option_run; intros s r E; apply settlement_run, Hs, E). by destruct m.
Qed.

(** ** l1_transaction_covenant_ext.rs *)

(** What the detection reads of an L1 transaction: its id, the covenant each output is bound to,
    and its inputs' signature scripts. *)
Record L1Transaction := {
  l1_id : array 32;
  l1_outputs : list (option (array 32));
  l1_inputs : list bytes
}.

(** One parsed opcode: whether it is a push, and its data. *)
Record ScriptOp := { is_push_opcode : bool; get_data : bytes }.

(** [kaspa_txscript::parse_script]: the opcodes of a script, [None] for a malformed one. *)
Class ParseScript := parse_script : bytes -> list (option ScriptOp).

Abbreviation slot := (option (array 32)).

(** The four last pushes, oldest first; only 32-byte pushes occupy a slot. *)
Fixpoint slide (window : slot * slot * slot * slot) (ops : list (option ScriptOp))
    : option (slot * slot * slot * slot) :=
  match ops with
  | [] => Some window
  | op :: ops =>
      op ← op;
      if negb (is_push_opcode op) then None
      else
        let '(_, w1, w2, w3) := window in
        slide (w1, w2, w3, array_of_list 32 (get_data op)) ops
  end.

Definition parse_settlement_tail `{ParseScript} (script : bytes) : option (array 32 * array 32 * array 32) :=
  '(w0, w1, w2, _) ← slide (None, None, None, None) (parse_script script);
  a ← w0; b ← w1; c ← w2; Some (a, b, c).

Definition settlement_info `{ParseScript} (tx : L1Transaction) (covenant_id containing_block : array 32)
    (daa_score : Z) : option SettlementInfo :=
  output ← head (l1_outputs tx);
  bound ← output;
  if negb (bool_decide (bound = covenant_id)) then None
  else
    input ← head (l1_inputs tx);
    '(new_lane_tip, new_state, block_prove_to) ← parse_settlement_tail input;
    Some {| si_tx_id := l1_id tx; si_containing_block := containing_block; si_daa_score := daa_score;
            si_block_prove_to := block_prove_to; si_new_state := new_state; si_new_lane_tip := new_lane_tip |}.

(** The pushes of a script that consists of clean pushes. *)
Definition pushes (ops : list (option ScriptOp)) (datas : list bytes) : Prop :=
  ops = (fun d => Some {| is_push_opcode := true; get_data := d |}) <$> datas.

Lemma slide_pushes ops w w' : slide w ops = Some w' -> exists datas, pushes ops datas.
Proof.
  revert w. induction ops as [|op ops IH]; intros w Hs; [by exists []|].
  cbn -[array_of_list] in Hs. destruct op as [[[] d]|]; cbn -[array_of_list] in Hs; try done.
  destruct w as [[[w0 w1] w2] w3]. destruct (IH _ Hs) as [datas Hd]. exists (d :: datas).
  unfold pushes in *. by rewrite Hd.
Qed.

Lemma slide_app w ops ops' : slide w (ops ++ ops') = slide w ops ≫= fun w => slide w ops'.
Proof.
  revert w. induction ops as [|op ops IH]; intros w; [done|].
  cbn -[array_of_list]. destruct op as [op|]; [|done]. cbn -[array_of_list]. destruct (negb _); [done|]. destruct w as [[[w0 w1] w2] w3]. apply IH.
Qed.

#[local] Arguments array_of_list : simpl never.

(** The window holds the last four pushes. *)
Lemma slide_window ops datas :
  pushes ops datas ->
  let w i := reverse datas !! i ≫= array_of_list 32 in
  slide (None, None, None, None) ops = Some (w 3, w 2, w 1, w 0).
Proof.
  intros ->. induction datas as [|d datas IH] using rev_ind; [reflexivity|].
  rewrite fmap_app, slide_app, IH, reverse_app.
reflexivity.
Qed.

Lemma parse_settlement_tail_exact `{ParseScript} script a b c :
  parse_settlement_tail script = Some (a, b, c) <->
  exists datas redeem, pushes (parse_script script)
    (datas ++ [vec_to_list a; vec_to_list b; vec_to_list c; redeem]).
Proof.
  unfold parse_settlement_tail. split.
  - destruct (slide _ _) as [w|] eqn:Es; [|done]. destruct (slide_pushes _ _ _ Es) as [datas Hd].
    rewrite (slide_window _ _ Hd) in Es. injection Es as <-. cbn [mbind option_bind].
    intros Hw. apply bind_Some in Hw as (a' & Ha & Hw). apply bind_Some in Hw as (b' & Hb & Hw).
    apply bind_Some in Hw as (c' & Hc & [= -> -> ->]).
    apply bind_Some in Ha as (la & Ha & <-%vec_to_list_of_list), Hb as (lb & Hb & <-%vec_to_list_of_list),
      Hc as (lc & Hc & <-%vec_to_list_of_list).
    rewrite <- (reverse_involutive datas) in Hd.
    destruct (reverse datas) as [|redeem [|x [|y [|z rest]]]]; try done.
    injection Ha as ->. injection Hb as ->. injection Hc as ->. exists (reverse rest), redeem.
    by rewrite !reverse_cons, <- !app_assoc in Hd.
  - intros (datas & redeem & Hp). rewrite (slide_window _ _ Hp), reverse_app.
    cbn -[array_of_list]. by rewrite !array_of_vec_to_list.
Qed.

(** A transaction is read as a settlement of a covenant exactly if its first output is bound
    to that covenant and its first input's script is a sequence of clean pushes that ends with
    three 32-byte pushes and the redeem script; the settlement carries those three values, the
    transaction's id and the block it was found in. *)
Theorem settlement_info_exact `{ParseScript} tx covenant_id block daa s :
  settlement_info tx covenant_id block daa = Some s <->
  exists script datas redeem,
    head (l1_outputs tx) = Some (Some covenant_id) /\ head (l1_inputs tx) = Some script /\
    pushes (parse_script script) (datas ++ [vec_to_list (si_new_lane_tip s); vec_to_list (si_new_state s);
                                            vec_to_list (si_block_prove_to s); redeem]) /\
    si_tx_id s = l1_id tx /\ si_containing_block s = block /\ si_daa_score s = daa.
Proof.
  unfold settlement_info. split.
  - destruct (head (l1_outputs tx)) as [[bound|]|]; try done. cbn [mbind option_bind].
    case_bool_decide as Hb; [|done]. subst bound. cbn [negb].
    destruct (head (l1_inputs tx)) as [script|]; [|done]. cbn [mbind option_bind].
    destruct (parse_settlement_tail script) as [[[a b] c]|] eqn:Ep; [|done]. intros [= <-].
    apply parse_settlement_tail_exact in Ep as (datas & redeem & Hp). by exists script, datas, redeem.
  - intros (script & datas & redeem & -> & -> & Hp & Hid & Hblk & Hdaa). cbn [mbind option_bind].
    rewrite bool_decide_true by done. cbn [negb].
    rewrite (proj2 (parse_settlement_tail_exact script _ _ _)) by eauto.
    destruct s; cbn in *; by subst.
Qed.
