(* ===== verification/AbiBatch.v ===== *)
(** * AbiBatch: the batch processor of the guest ABI

    [zk/abi/src/batch_processor]: the batch inputs with the host's encoding, the per-batch
    transition journal, and the [Verifier] that checks a batch's transaction journals against the
    state-tree proof. The definitions; AbiBatchProofs shows what an accepted batch means. *)

From S2P Require Import Prelude Codec Types SmtNode SmtUpdate SmtProof AbiCore AbiTx L1Types.

(** ** journals.rs: the whole iteration *)

(** Every entry takes at least its length prefix, so the buffer's length bounds the entries. *)
Fixpoint journals_from `{CastText} (fuel : nat) (buf : bytes) : list (AResult bytes) :=
  match fuel with
  | O => []
  | S fuel =>
      match journals_next buf with
      | None => []
      | Some (j, rest) => j :: journals_from fuel rest
      end
  end.
Definition journals `{CastText} (buf : bytes) : list (AResult bytes) := journals_from (length buf) buf.

Lemma blob_shrinks field buf l rest : Reader.blob field buf = Ok (l, rest) -> length rest < length buf.
Proof.
  unfold Reader.blob. rewrite pbind_Ok. intros (n & buf1 & Hn & Hr).
  apply le_uint_Ok in Hn as [-> _]. rewrite length_app, length_vec_to_list.
  unfold Reader.read_bytes in Hr. destruct (_ <? _)%Z; [done|]. injection Hr as _ <-. rewrite length_drop. lia.
Qed.

Lemma journals_next_shrinks `{CastText} buf j rest : journals_next buf = Some (j, rest) -> length rest < length buf.
Proof.
  unfold journals_next. destruct buf as [|b buf]; [done|].
  destruct (lift (Reader.blob "journal") (b :: buf)) as [[l r]| |] eqn:E; intros [= <- <-]; [|cbn; lia..].
  apply lift_Ok in E. by apply blob_shrinks in E.
Qed.

Lemma journals_fuel `{CastText} f f' buf :
  length buf <= f -> length buf <= f' -> journals_from f buf = journals_from f' buf.
Proof.
  revert f' buf. induction f as [|f IH]; intros [|f'] buf Hf Hf'; [done|destruct buf; [done|cbn in *; lia]..|].
  cbn [journals_from]. destruct (journals_next buf) as [[j rest]|] eqn:E; [|done].
  apply journals_next_shrinks in E. f_equal. apply IH; lia.
Qed.

(** The entries, one [next] at a time. *)
Lemma journals_step `{CastText} buf :
  journals buf = match journals_next buf with Some (j, rest) => j :: journals rest | None => [] end.
Proof.
  unfold journals at 1. destruct buf as [|b buf]; [done|]. cbn [length journals_from].
  destruct (journals_next (b :: buf)) as [[j rest]|] eqn:E; [|done]. apply journals_next_shrinks in E. cbn in E.
  f_equal. apply journals_fuel; lia.
Qed.

(** ** input/batch.rs *)

Module Batch.
Record t := {
  blue_score : Z;
  daa_score : Z;
  prev_timestamp : Z;
  prev_seq_commit : array 32;
  prev_lane_tip : array 32;
  prev_lane_blue_score : Z;
  lane_expired : bool;
  tx_journals : bytes
}.

Definition decode : parser t :=
  blue_score ← Reader.le_u64 "blue_score";
  daa_score ← Reader.le_u64 "daa_score";
  prev_timestamp ← Reader.le_u64 "prev_timestamp";
  prev_seq_commit ← Reader.array_as (T := array 32) "prev_seq_commit";
  prev_lane_tip ← Reader.array_as (T := array 32) "prev_lane_tip";
  prev_lane_blue_score ← Reader.le_u64 "prev_lane_blue_score";
  lane_expired ← Reader.read_bool "lane_expired";
  tx_journals ← Reader.blob "tx_journals";
  mret {| blue_score := blue_score; daa_score := daa_score; prev_timestamp := prev_timestamp;
          prev_seq_commit := prev_seq_commit; prev_lane_tip := prev_lane_tip;
          prev_lane_blue_score := prev_lane_blue_score; lane_expired := lane_expired;
          tx_journals := tx_journals |}.

(** The length prefix is the 32-bit sum of the entries' sizes. *)
Definition encode (metadata : ChainBlockMetadata) (tx_journals : list bytes) : bytes :=
  vec_to_list (le_split 8 (cb_blue_score metadata)) ++ vec_to_list (le_split 8 (cb_daa_score metadata)) ++
  vec_to_list (le_split 8 (cb_prev_timestamp metadata)) ++ vec_to_list (cb_prev_seq_commit metadata) ++
  vec_to_list (cb_prev_lane_tip metadata) ++ vec_to_list (le_split 8 (cb_prev_lane_blue_score metadata)) ++
  [if cb_lane_expired metadata then Byte.x01 else Byte.x00] ++
  vec_to_list (le_split 4 (foldr (fun j acc => 4 + Z.of_nat (length j) + acc) 0 tx_journals)%Z) ++
  (tx_journals ≫= Writer.write_blob).
End Batch.

(** ** input/inputs.rs *)

Module BatchPins.
Record t := { tx_image_id : array 32; covenant_id : array 32; deposit_spk_hash : array 32; lane_key : array 32 }.
End BatchPins.

Module BatchInputs.
Record t := {
  tx_image_id : array 32;
  covenant_id : array 32;
  deposit_spk_hash : array 32;
  lane_key : array 32;
  proof : Proof.t;
  batch : Batch.t
}.

Definition decode `{CastText} (buf : bytes) : AResult t :=
  on_slice
    (tx_image_id ← lift (Reader.read_array 32 "tx_image_id");
     covenant_id ← lift (Reader.read_array 32 "covenant_id");
     deposit_spk_hash ← lift (Reader.read_array 32 "deposit_spk_hash");
     lane_key ← lift (Reader.array_as (T := array 32) "lane_key");
     proof_bytes ← lift (Reader.blob "proof");
     proof ← alift (from_codec (Proof.decode proof_bytes));
     batch ← lift Batch.decode;
     mret {| tx_image_id := tx_image_id; covenant_id := covenant_id; deposit_spk_hash := deposit_spk_hash;
             lane_key := lane_key; proof := proof; batch := batch |}) buf.

Definition encode (pins : BatchPins.t) (proof_bytes : bytes) (metadata : ChainBlockMetadata)
    (tx_journals : list bytes) : bytes :=
  vec_to_list (BatchPins.tx_image_id pins) ++ vec_to_list (BatchPins.covenant_id pins) ++
  vec_to_list (BatchPins.deposit_spk_hash pins) ++ vec_to_list (BatchPins.lane_key pins) ++
  Writer.write_blob proof_bytes ++ Batch.encode metadata tx_journals.
End BatchInputs.

(** ** journal/batch_transition.rs *)

(** The journal's fixed header with the exits behind it; [lane_expired] is a byte. *)
Module BatchTransition.
Record t := {
  prev_state : array 32;
  prev_lane_tip : array 32;
  prev_lane_blue_score : Z;
  new_state : array 32;
  new_lane_tip : array 32;
  new_lane_blue_score : Z;
  lane_key : array 32;
  covenant_id : array 32;
  tx_image_id : array 32;
  deposit_spk_hash : array 32;
  lane_expired : Z;
  exits : bytes
}.

Definition encode (args : t) : bytes :=
  vec_to_list (prev_state args) ++ vec_to_list (prev_lane_tip args) ++
  vec_to_list (le_split 8 (prev_lane_blue_score args)) ++ vec_to_list (new_state args) ++
  vec_to_list (new_lane_tip args) ++ vec_to_list (le_split 8 (new_lane_blue_score args)) ++
  vec_to_list (lane_key args) ++ vec_to_list (covenant_id args) ++ vec_to_list (tx_image_id args) ++
  vec_to_list (deposit_spk_hash args) ++ vec_to_list (le_split 1 (lane_expired args)) ++ exits args.

(** The trailing slice of the layout. *)
Definition read_rest : parser bytes := fun buf => Ok (buf, []).

(** The zero-copy view of journal bytes: any buffer that holds the header. *)
Definition ref_from_bytes (buf : bytes) : Result t :=
  fst <$> ((prev_state ← Reader.read_array 32 "transition";
            prev_lane_tip ← Reader.read_array 32 "transition";
            prev_lane_blue_score ← Reader.le_u64 "transition";
            new_state ← Reader.read_array 32 "transition";
            new_lane_tip ← Reader.read_array 32 "transition";
            new_lane_blue_score ← Reader.le_u64 "transition";
            lane_key ← Reader.read_array 32 "transition";
            covenant_id ← Reader.read_array 32 "transition";
            tx_image_id ← Reader.read_array 32 "transition";
            deposit_spk_hash ← Reader.read_array 32 "transition";
            lane_expired ← Reader.le_uint 1 "transition";
            exits ← read_rest;
            mret ({| prev_state := prev_state; prev_lane_tip := prev_lane_tip;
              prev_lane_blue_score := prev_lane_blue_score; new_state := new_state;
              new_lane_tip := new_lane_tip; new_lane_blue_score := new_lane_blue_score;
              lane_key := lane_key; covenant_id := covenant_id; tx_image_id := tx_image_id;
              deposit_spk_hash := deposit_spk_hash; lane_expired := lane_expired; exits := exits |})) : parser t) buf.

Record in_range (bt : t) : Prop := {
  ir_prev : u64 (prev_lane_blue_score bt);
  ir_new : u64 (new_lane_blue_score bt);
  ir_expired : (0 <= lane_expired bt < 256)%Z
}.

Lemma ref_from_encode bt : in_range bt -> ref_from_bytes (encode bt) = Ok bt.
Proof.
  intros [? ? ?]. unfold ref_from_bytes, encode. parse.
  erewrite pbind_run by (by apply le_uint_run). by destruct bt.
Qed.
End BatchTransition.

(** ** verifier.rs *)

Module Verifier.
Record t := {
  inputs : BatchInputs.t;
  latest_value_hashes : list (array 32);
  exits : bytes;
  deposit_spk_hash : array 32
}.

Definition carry_deposit_hash (carry tx_hash : array 32) : AResult (array 32) :=
  if bool_decide (tx_hash = zero32) then Ok carry
  else if bool_decide (carry = zero32) then Ok tx_hash
  else _ ← assert (bool_decide (carry = tx_hash)); Ok carry.

Definition assert_declared_deposit_hash (carry declared : array 32) : AResult unit :=
  if bool_decide (carry = zero32) then Ok tt else assert (bool_decide (carry = declared)).

Section verifier.
Context `{CastText} `{SeqCommit}.

(** Whether [verify_tx_journal] returns for an image id and journal bytes. *)
Context (verify_tx_journal : array 32 -> bytes -> bool).

Definition new (input_bytes : bytes) : AResult t :=
  inputs ← unwrap (BatchInputs.decode input_bytes);
  _ ← unwrap (Proof.check_sorted_queried_keys (BatchInputs.proof inputs));
  members ← unwrap (Proof.members (BatchInputs.proof inputs));
  Ok {| inputs := inputs; latest_value_hashes := Member.value_hash <$> members;
        exits := sink_new; deposit_spk_hash := zero32 |}.

Definition verified_batch_idx (v : t) (r : InputResourceCommitment.t) : AResult nat :=
  let batch_idx := indexu (InputResourceCommitment.resource_index r) in
  latest ← expect (latest_value_hashes v !! batch_idx);
  _ ← assert (bool_decide (InputResourceCommitment.hash r = latest));
  member ← unwrap (Proof.member (BatchInputs.proof (inputs v)) batch_idx);
  _ ← assert (bool_decide (InputResourceCommitment.resource_id r = Member.key member));
  Ok batch_idx.

(** The entries of a journal and the new last merge index. *)
Definition verified_journal (v : t) (tx_journal : AResult bytes) (last_merge_idx : option Z)
    : AResult (JournalEntries * option Z) :=
  journal_bytes ← unwrap tx_journal;
  _ ← assert (verify_tx_journal (BatchInputs.tx_image_id (inputs v)) journal_bytes);
  entries ← unwrap (journal_decode journal_bytes);
  let merge_idx := InputCommitment.merge_idx (input_commitment entries) in
  _ ← match last_merge_idx with
      | Some prev => assert (prev <? merge_idx)%Z
      | None => Ok tt
      end;
  _ ← match InputCommitment.execution_context (input_commitment entries) with
      | None =>
          match output_commitment entries with
          | OutputCommitment.Error (AbiError.Guest code) =>
              if negb (code =? ErrorCode_as_u32 VersionIncompatible)%Z then Panic else Ok tt
          | _ => Panic
          end
      | Some _ => Ok tt
      end;
  Ok (entries, Some merge_idx).

(** The loop over a transaction's exits; every exit takes at least one byte. *)
Fixpoint emit_exits (fuel : nat) (sink buf : bytes) : AResult bytes :=
  match fuel with
  | O => Panic
  | S fuel =>
      match exits_next buf with
      | None => Ok sink
      | Some exit =>
          '((dest, amount), rest) ← unwrap exit;
          sink ← unwrap (sink_emit sink dest amount);
          emit_exits fuel sink rest
      end
  end.

Definition with_latest (v : t) (latest : list (array 32)) : t :=
  {| inputs := inputs v; latest_value_hashes := latest; exits := exits v; deposit_spk_hash := deposit_spk_hash v |}.

(** The loop over a transaction's resources, with the iterator over its outputs, if any. *)
Fixpoint touch_resources (v : t) (rs : list InputResourceCommitment.t) (outputs : option bytes)
    : AResult (t * option bytes) :=
  match rs with
  | [] => Ok (v, outputs)
  | r :: rs =>
      batch_idx ← verified_batch_idx v r;
      '(v, outputs) ←
        match outputs with
        | None => Ok (v, None)
        | Some buf =>
            output ← expect (OutputResourceCommitment.next buf);
            '(output, buf) ← unwrap output;
            match output with
            | OutputResourceCommitment.Changed hash =>
                if batch_idx <? length (latest_value_hashes v)
                then Ok (with_latest v (<[batch_idx := hash]> (latest_value_hashes v)), Some buf)
                else Panic
            | OutputResourceCommitment.Unchanged => Ok (v, Some buf)
            end
        end;
      touch_resources v rs outputs
  end.

Definition verify_execution (v : t) (context_hash : array 32) (exec_ctx : ExecutionContext)
    (output : OutputCommitment.t) : AResult t :=
  _ ← assert (bool_decide (ec_context_hash exec_ctx = context_hash));
  '(v, outputs) ←
    match output with
    | OutputCommitment.Success exits_buf deposit resources =>
        deposit ← carry_deposit_hash (deposit_spk_hash v) deposit;
        exits ← emit_exits (S (length exits_buf)) (exits v) exits_buf;
        Ok ({| inputs := inputs v; latest_value_hashes := latest_value_hashes v; exits := exits;
               deposit_spk_hash := deposit |}, Some resources)
    | OutputCommitment.Error _ => Ok (v, None)
    end;
  '(v, outputs) ← touch_resources v (ec_resources exec_ctx) outputs;
  _ ← match outputs with
      | Some buf => assert (bool_decide (OutputResourceCommitment.next buf = None))
      | None => Ok tt
      end;
  Ok v.

(** The loop of [verified_activity_digest]: the leaves are collected for the digest builder. *)
Fixpoint verify_journals (v : t) (context_hash : array 32) (js : list (AResult bytes))
    (last_merge_idx : option Z) (leaves : list (array 32)) : AResult (t * list (array 32)) :=
  match js with
  | [] => Ok (v, leaves)
  | journal :: js =>
      '(entries, last_merge_idx) ← verified_journal v journal last_merge_idx;
      let input := input_commitment entries in
      v ← match InputCommitment.execution_context input with
          | Some exec_ctx => verify_execution v context_hash exec_ctx (output_commitment entries)
          | None => Ok v
          end;
      let leaf := activity_leaf (InputCommitment.tx_id input) (InputCommitment.version input)
                    (InputCommitment.merge_idx input) in
      verify_journals v context_hash js last_merge_idx (leaves ++ [leaf])
  end.

Definition verified_activity_digest (v : t) (context_hash : array 32) : AResult (t * array 32) :=
  '(v, leaves) ← verify_journals v context_hash
                   (journals (Batch.tx_journals (BatchInputs.batch (inputs v)))) None [];
  Ok (v, activity_digest leaves).

Definition verify_batch (v : t) : AResult (t * (array 32 * Z)) :=
  let b := BatchInputs.batch (inputs v) in
  match Batch.tx_journals b with
  | [] => Ok (v, (Batch.prev_lane_tip b, Batch.prev_lane_blue_score b))
  | _ =>
      let context_hash :=
        mergeset_context_hash (Batch.prev_timestamp b) (Batch.daa_score b) (Batch.blue_score b) in
      '(v, digest) ← verified_activity_digest v context_hash;
      _ ← assert_declared_deposit_hash (deposit_spk_hash v) (BatchInputs.deposit_spk_hash (inputs v));
      let new_lane_tip :=
        lane_tip_next (if Batch.lane_expired b then Batch.prev_seq_commit b else Batch.prev_lane_tip b)
          (BatchInputs.lane_key (inputs v)) digest context_hash in
      Ok (v, (new_lane_tip, Batch.blue_score b))
  end.

(** [compute_roots] asks only for the queried keys' indices, which the table covers. *)
Definition commit_batch_transition `{Hasher} (v : t) (new_lane_tip : array 32) (new_lane_blue_score : Z)
    : AResult bytes :=
  let i := inputs v in
  '(prev_root, new_root) ←
    unwrap (Roots.compute_roots (BatchInputs.proof i) (fun q => default zero32 (latest_value_hashes v !! q)));
  Ok (BatchTransition.encode {|
    BatchTransition.prev_state := prev_root;
    BatchTransition.prev_lane_tip := Batch.prev_lane_tip (BatchInputs.batch i);
    BatchTransition.prev_lane_blue_score := Batch.prev_lane_blue_score (BatchInputs.batch i);
    BatchTransition.new_state := new_root;
    BatchTransition.new_lane_tip := new_lane_tip;
    BatchTransition.new_lane_blue_score := new_lane_blue_score;
    BatchTransition.lane_key := BatchInputs.lane_key i;
    BatchTransition.covenant_id := BatchInputs.covenant_id i;
    BatchTransition.tx_image_id := BatchInputs.tx_image_id i;
    BatchTransition.deposit_spk_hash := deposit_spk_hash v;
    BatchTransition.lane_expired := if Batch.lane_expired (BatchInputs.batch i) then 1 else 0;
    BatchTransition.exits := exits v |}).

(** The batch-processor guest. *)
Definition batch_processor `{Hasher} (input_bytes : bytes) : AResult bytes :=
  v ← new input_bytes;
  '(v, (new_lane_tip, new_lane_blue_score)) ← verify_batch v;
  commit_batch_transition v new_lane_tip new_lane_blue_score.
End verifier.
End Verifier.
