(* ===== verification/AbiBatchProofs.v ===== *)
(** * AbiBatchProofs: what an accepted batch means

    The abstract ledger a batch works on (the state as a map from resource ids to value hashes,
    without indices or proofs), and the refinement between it and the batch verifier. *)

From S2P Require Import Prelude Codec Types SmtNode SmtTrie SmtUpdate SmtTree SmtProof SmtSound SmtRoots SmtVerify.
From S2P Require Import AbiCore AbiTx L1Types AbiBatch.

(** ** The ledger *)

Abbreviation state_map := (gmap ResourceId (array 32)).

(** The value hash of a resource; absent ones have the empty hash. *)
Definition value_at (m : state_map) (k : ResourceId) : array 32 := default EMPTY_HASH (m !! k).

Definition write_output (m : state_map) (k : ResourceId) (o : OutputResourceCommitment.t) : state_map :=
  match o with
  | OutputResourceCommitment.Changed h => apply_commitment m {| key := k; value_hash := h |}
  | OutputResourceCommitment.Unchanged => m
  end.

(** A transaction's resources in order: each must have the value it was executed on, and a
    successful transaction writes exactly one output per resource. *)
Fixpoint apply_resources (m : state_map) (rs : list InputResourceCommitment.t)
    (outs : option (list OutputResourceCommitment.t)) : option state_map :=
  match rs, outs with
  | [], (None | Some []) => Some m
  | [], Some (_ :: _) | _ :: _, Some [] => None
  | r :: rs, None =>
      if decide (value_at m (InputResourceCommitment.resource_id r) = InputResourceCommitment.hash r)
      then apply_resources m rs None else None
  | r :: rs, Some (o :: os) =>
      if decide (value_at m (InputResourceCommitment.resource_id r) = InputResourceCommitment.hash r)
      then apply_resources (write_output m (InputResourceCommitment.resource_id r) o) rs (Some os)
      else None
  end.

Record Ledger := {
  l_state : state_map;
  l_exits : bytes;
  l_deposit : array 32;
  l_last : option Z;
  l_leaves : list (array 32)
}.

Definition ledger_of (m : state_map) : Ledger :=
  {| l_state := m; l_exits := []; l_deposit := zero32; l_last := None; l_leaves := [] |}.

Section ledger.
Context `{CastText} `{SeqCommit}.

(** What an executed transaction does to state, exits and deposit address. *)
Definition settle_execution (context_hash : array 32) (l : Ledger) (exec : ExecutionContext)
    (output : OutputCommitment.t) : option (state_map * bytes * array 32) :=
  if decide (ec_context_hash exec = context_hash) then
    match output with
    | OutputCommitment.Success ex deposit bs =>
        match Verifier.carry_deposit_hash (l_deposit l) deposit, exits_all (S (length ex)) ex,
              outputs_all (S (length (ec_resources exec))) bs with
        | Ok deposit, Ok _, Ok outs =>
            m ← apply_resources (l_state l) (ec_resources exec) (Some outs);
            Some (m, l_exits l ++ ex, deposit)
        | _, _, _ => None
        end
    | OutputCommitment.Error _ =>
        m ← apply_resources (l_state l) (ec_resources exec) None;
        Some (m, l_exits l, l_deposit l)
    end
  else None.

Definition settle_tx (context_hash : array 32) (l : Ledger) (e : JournalEntries) : option Ledger :=
  let input := input_commitment e in
  if match l_last l with Some prev => (prev <? InputCommitment.merge_idx input)%Z | None => true end then
    '(m, ex, deposit) ←
      match InputCommitment.execution_context input with
      | Some exec => settle_execution context_hash l exec (output_commitment e)
      | None =>
          match output_commitment e with
          | OutputCommitment.Error (AbiError.Guest code) =>
              if decide (code = ErrorCode_as_u32 VersionIncompatible)
              then Some (l_state l, l_exits l, l_deposit l) else None
          | _ => None
          end
      end;
    Some {| l_state := m; l_exits := ex; l_deposit := deposit;
            l_last := Some (InputCommitment.merge_idx input);
            l_leaves := l_leaves l ++ [activity_leaf (InputCommitment.tx_id input)
                          (InputCommitment.version input) (InputCommitment.merge_idx input)] |}
  else None.

Fixpoint settle_all (context_hash : array 32) (l : Ledger) (es : list JournalEntries) : option Ledger :=
  match es with
  | [] => Some l
  | e :: es => l ← settle_tx context_hash l e; settle_all context_hash l es
  end.
End ledger.

(** ** Exits *)

Section batch.
Context `{CastText} `{SeqCommit} `{Hasher}.

Lemma exit_decode_inv buf d a rest :
  exit_decode buf = Ok ((d, a), rest) -> buf = spk_encode d ++ vec_to_list (le_split 8 a) ++ rest.
Proof.
  unfold exit_decode. rewrite abind_Ok. intros (d' & buf1 & Hd & Ha).
  rewrite abind_Ok in Ha. destruct Ha as (a' & buf2 & Ha%lift_Ok%le_uint_Ok & [= -> -> ->]).
  destruct Ha as [Hbuf1 _]. rewrite <- Hbuf1. clear Hbuf1. unfold spk_decode in Hd. rewrite abind_Ok in Hd.
  destruct Hd as (tag & buf3 & Ht%lift_Ok%read_byte_Ok & Hd). subst buf.
  destruct tag; try discriminate Hd; rewrite abind_Ok in Hd;
    destruct Hd as (k & buf4 & Hk%lift_Ok%read_array_Ok & [= <- <-]); subst buf3;
    done.
Qed.

Lemma exits_next_inv buf d a rest :
  exits_next buf = Some (Ok ((d, a), rest)) ->
  buf = spk_encode d ++ vec_to_list (le_split 8 a) ++ rest /\ length rest < length buf.
Proof.
  unfold exits_next. destruct buf as [|b buf]; [done|]. intros [= Hb]. pose proof (exit_decode_inv _ _ _ _ Hb) as E.
  split; [exact E|]. rewrite E. destruct d; cbn [spk_encode app length]; rewrite !length_app; cbn; lia.
Qed.

(** The loop re-emits exactly the bytes it reads. *)
Lemma emit_exits_spec fuel sink buf :
  length buf < fuel ->
  Verifier.emit_exits fuel sink buf
  = match exits_all fuel buf with Ok _ => Ok (sink ++ buf) | _ => Panic end.
Proof.
  revert sink buf. induction fuel as [|fuel IH]; intros sink buf Hf; [lia|]. cbn [Verifier.emit_exits exits_all].
  destruct (exits_next buf) as [[[[d a] rest]| |]|] eqn:E; try done.
  - destruct (exits_next_inv _ _ _ _ E) as [-> Hl]. cbn [unwrap mbind outcome_bind sink_emit].
    rewrite IH by lia. rewrite <- !app_assoc. by destruct (exits_all fuel rest).
  - unfold exits_next in E. destruct buf; [|done]. by rewrite app_nil_r.
Qed.

(** ** The proof's table and the ledger's state *)

(** The table [latest] holds the state's values of the queried keys, and the rest of the state is
    that of [m]. *)
Record table_of (p : Proof.t) (m s : state_map) (latest : list (array 32)) : Prop := {
  tb_length : length latest = length (Proof.memberships p);
  tb_value : forall i k, Proof.keys p !! i = Some k -> i < length (Proof.memberships p) ->
    latest !! i = Some (value_at s k);
  tb_frame : forall k, k ∉ take (length (Proof.memberships p)) (Proof.keys p) -> s !! k = m !! k;
  tb_live : map_Forall (fun _ v => v <> EMPTY_HASH) s
}.

(** What every proof the verifier starts on satisfies. *)
Record table_proof (p : Proof.t) : Prop := {
  tp_sorted : Proof.check_sorted_queried_keys p = Ok tt;
  tp_members : is_ok (Proof.members p) = true
}.

Lemma table_member p i :
  table_proof p -> i < length (Proof.memberships p) ->
  exists mem, Proof.member p i = Ok mem /\ Proof.keys p !! i = Some (Member.key mem).
Proof.
  intros [_ Hm] Hi. unfold Proof.members in Hm. destruct (mapM_outcome _ _) as [ms| |] eqn:Em; try done.
  apply mapM_outcome_Ok in Em. destruct (Forall2_lookup_l _ _ _ i i Em) as (mem & _ & Hmem); [by apply lookup_seq|].
  exists mem. split; [done|]. by apply member_inv in Hmem as (_ & _ & _ & _ & _ & _ & _ & Hk & _).
Qed.

Lemma table_NoDup p : table_proof p -> NoDup (take (length (Proof.memberships p)) (Proof.keys p)) /\
  length (Proof.memberships p) <= length (Proof.keys p).
Proof.
  intros [Hs _]. unfold Proof.check_sorted_queried_keys in Hs.
  destruct (Nat.ltb_spec (length (Proof.keys p)) (length (Proof.memberships p))); [done|].
  destruct (strictly_ascending _) eqn:E; [|done]. split; [|lia].
  by apply ascending_NoDup, strictly_ascending_sorted.
Qed.

Lemma value_at_write m k h k' :
  value_at (apply_commitment m {| key := k; value_hash := h |}) k' = if decide (k = k') then h else value_at m k'.
Proof.
  unfold value_at, apply_commitment. cbn. repeat case_decide; subst; simplify_map_eq; done.
Qed.

(** Writing a queried key updates its slot. *)
Lemma table_write p m s latest i k h :
  table_proof p -> table_of p m s latest -> Proof.keys p !! i = Some k -> i < length (Proof.memberships p) ->
  table_of p m (apply_commitment s {| key := k; value_hash := h |}) (<[i := h]> latest).
Proof.
  intros Hp [Hl Hv Hf Hs] Hk Hi. destruct (table_NoDup p Hp) as [Hnd Hle]. constructor.
  - by rewrite length_insert.
  - intros j k' Hk' Hj. rewrite value_at_write. destruct (decide (i = j)) as [->|Hne].
    + rewrite Hk in Hk'. injection Hk' as <-. rewrite list_lookup_insert_eq by lia. by rewrite decide_True.
    + rewrite list_lookup_insert_ne, (Hv j k') by done. rewrite decide_False; [done|]. intros <-. apply Hne.
      eapply (NoDup_lookup _ i j k Hnd); by apply lookup_take_Some.
  - intros k' Hk'. unfold apply_commitment. cbn. assert (k <> k').
    { intros <-. apply Hk'. apply list_elem_of_lookup. exists i. by apply lookup_take_Some. }
    case_decide; simplify_map_eq; auto.
  - unfold apply_commitment. cbn. case_decide.
    + by apply map_Forall_delete.
    + by apply map_Forall_insert_2.
Qed.

(** The final table's writes turn [m] into the ledger's state. *)
Lemma table_writes p m s latest :
  table_proof p -> table_of p m s latest -> map_Forall (fun _ v => v <> EMPTY_HASH) m ->
  apply_commitments m (writes p (fun q => default zero32 (latest !! q))) = s.
Proof.
  intros Hp [Hl Hv Hf Hs] Hm. destruct (table_NoDup p Hp) as [Hnd Hle]. apply map_eq. intros k.
  rewrite apply_commitments_lookup. unfold overlay. destruct (decide (k ∈ take (length (Proof.memberships p)) (Proof.keys p))) as [Hin|Hout].
  - apply list_elem_of_lookup in Hin as (i & [Hk Hi]%lookup_take_Some).
    assert (committed (writes p (fun q => default zero32 (latest !! q))) k = Some (value_at s k)) as ->.
    { pose proof (Hv i k Hk Hi) as Hvi.
      apply (committed_in _ {| key := k; value_hash := value_at s k |}); [by rewrite writes_keys|].
      apply elem_of_writes; [done|]. exists i. cbn. by rewrite Hvi. }
    unfold value_at. destruct (s !! k) as [v|] eqn:E; cbn; [|by rewrite decide_True].
    rewrite decide_False; [done|]. by apply (Hs k).
  - rewrite (proj2 (committed_None _ k)); [by rewrite Hf|]. intros c Hc <-. apply Hout.
    rewrite <- (writes_keys p (fun q => default zero32 (latest !! q))). by apply list_elem_of_fmap_2.
Qed.

(** ** One transaction *)

(** The resource's index is its key's slot in the proof. *)
Definition placed (p : Proof.t) (r : InputResourceCommitment.t) : Prop :=
  let i := indexu (InputResourceCommitment.resource_index r) in
  Proof.keys p !! i = Some (InputResourceCommitment.resource_id r) /\ i < length (Proof.memberships p).

Definition proof_of (v : Verifier.t) : Proof.t := BatchInputs.proof (Verifier.inputs v).

Lemma verified_batch_idx_spec v m s r i :
  table_proof (proof_of v) -> table_of (proof_of v) m s (Verifier.latest_value_hashes v) ->
  Verifier.verified_batch_idx v r = Ok i <->
  i = indexu (InputResourceCommitment.resource_index r) /\ placed (proof_of v) r /\
  value_at s (InputResourceCommitment.resource_id r) = InputResourceCommitment.hash r.
Proof.
  intros Hp [Hl Hv _ _]. unfold Verifier.verified_batch_idx, placed. fold (proof_of v).
  set (idx := indexu _). split.
  - intros Hi. inv_ok. apply bool_decide_eq_true in Hx0, Hx2.
    pose proof (lookup_lt_Some _ _ _ Hx) as Hlt. rewrite Hl in Hlt.
    pose proof (member_inv _ _ _ Hx1) as (_ & _ & _ & _ & _ & _ & _ & Hk & _). rewrite <- Hx2 in Hk.
    rewrite (Hv _ _ Hk Hlt) in Hx. injection Hx as <-. by repeat split.
  - intros (-> & [Hk Hlt] & Hh). rewrite (Hv _ _ Hk Hlt). cbn [expect mbind outcome_bind].
    rewrite bool_decide_true by done. cbn [assert mbind outcome_bind].
    destruct (table_member _ _ Hp Hlt) as (mem & -> & Hk'). cbn [unwrap mbind outcome_bind].
    rewrite Hk in Hk'. injection Hk' as ->. by rewrite bool_decide_true.
Qed.

Definition finished (outputs : option bytes) : Prop :=
  match outputs with Some buf => OutputResourceCommitment.next buf = None | None => True end.

(** The outputs the verifier has to read for [n] resources. *)
Definition reads (n : nat) (outputs : option bytes) (outs : option (list OutputResourceCommitment.t)) : Prop :=
  match outputs with
  | None => outs = None
  | Some buf => exists os, outs = Some os /\ outputs_all (S n) buf = Ok os
  end.

Lemma touch_sound m rs v s outputs v' outputs' :
  table_proof (proof_of v) -> table_of (proof_of v) m s (Verifier.latest_value_hashes v) ->
  Verifier.touch_resources v rs outputs = Ok (v', outputs') -> finished outputs' ->
  exists outs s' latest', reads (length rs) outputs outs /\ Forall (placed (proof_of v)) rs /\
    apply_resources s rs outs = Some s' /\ v' = Verifier.with_latest v latest' /\
    table_of (proof_of v) m s' latest'.
Proof.
  intros Hp. revert v Hp s outputs. induction rs as [|r rs IH]; intros v Hp s outputs Ht Hto Hfin.
  { injection Hto as <- <-. exists (match outputs with Some _ => Some [] | None => None end), s, (Verifier.latest_value_hashes v).
    destruct outputs as [buf|]; cbn in *; [|by destruct v]. split; [exists []; by rewrite Hfin|]. by destruct v. }
  cbn [Verifier.touch_resources] in Hto. apply bind_Ok in Hto as (i & Hi & Hto).
  apply (verified_batch_idx_spec v m s r i Hp Ht) in Hi as (-> & Hpl & Hval).
  apply bind_Ok in Hto as ([v1 out1] & Hstep & Hto). cbn in Hto.
  destruct outputs as [buf|].
  - apply bind_Ok in Hstep as (c & Hc%expect_Ok & Hstep). apply bind_Ok in Hstep as ([o rest] & ->%unwrap_inv & Hstep).
    assert (exists latest1, v1 = Verifier.with_latest v latest1 /\ out1 = Some rest /\
      table_of (proof_of v) m (write_output s (InputResourceCommitment.resource_id r) o) latest1) as (latest1 & -> & -> & Ht1).
    { destruct o as [h|]; [|injection Hstep as <- <-; exists (Verifier.latest_value_hashes v); by destruct v].
      destruct (_ <? _); [|done]. injection Hstep as <- <-. eexists. split; [done|]. split; [done|].
      destruct Hpl as [Hk Hlt]. by apply (table_write _ _ _ _ _ _ h Hp Ht Hk Hlt). }
    destruct (IH (Verifier.with_latest v latest1) Hp _ (Some rest) Ht1 Hto Hfin)
      as (outs & s' & latest' & (os & -> & Hos) & Hpls & Happ & -> & Ht').
    exists (Some (o :: os)), s', latest'. split; [|split; [by constructor|]].
    + exists (o :: os). split; [done|]. cbn [outputs_all length]. rewrite Hc. cbn [mbind outcome_bind].
      cbn [outputs_all] in Hos. by rewrite Hos.
    + cbn [apply_resources]. by rewrite decide_True.
  - injection Hstep as <- <-.
    destruct (IH v Hp s None Ht Hto Hfin) as (outs & s' & latest' & -> & Hpls & Happ & -> & Ht').
    exists None, s', latest'. split; [done|]. split; [by constructor|]. cbn [apply_resources]. by rewrite decide_True.
Qed.

Lemma touch_complete m rs v s outputs outs s' :
  table_proof (proof_of v) -> table_of (proof_of v) m s (Verifier.latest_value_hashes v) ->
  Forall (placed (proof_of v)) rs -> reads (length rs) outputs outs -> apply_resources s rs outs = Some s' ->
  exists latest' outputs', Verifier.touch_resources v rs outputs = Ok (Verifier.with_latest v latest', outputs') /\
    finished outputs' /\ (is_Some outputs' <-> is_Some outputs) /\ table_of (proof_of v) m s' latest'.
Proof.
  intros Hp Ht Hpl. revert v Hp s outputs outs Ht Hpl. induction rs as [|r rs IH]; intros v Hp s outputs outs Ht Hpl Hr Ha.
  { exists (Verifier.latest_value_hashes v), outputs. split; [by destruct v|]. destruct outputs as [buf|]; cbn in *.
    - destruct Hr as (os & -> & Hos). destruct (OutputResourceCommitment.next buf) as [c|] eqn:E.
      + by destruct c as [[o rest]| |].
      + injection Hos as <-. injection Ha as ->. by split.
    - subst outs. injection Ha as ->. by (split; [|split]). }
  apply Forall_cons in Hpl as [Hplr Hpl]. cbn [Verifier.touch_resources].
  destruct outputs as [buf|]; cbn [reads] in Hr.
  - destruct Hr as (os & -> & Hos). cbn [outputs_all length] in Hos.
    destruct os as [|o os]; [done|]. cbn [apply_resources] in Ha. case_decide as Hval; [|done].
    rewrite (proj2 (verified_batch_idx_spec v m s r _ Hp Ht) (conj eq_refl (conj Hplr Hval))).
    cbn [mbind outcome_bind]. destruct (OutputResourceCommitment.next buf) as [[[o' rest]| |]|]; try done.
    cbn [mbind outcome_bind] in Hos. apply bind_Ok in Hos as (os' & Hos & [= -> ->]).
    cbn [expect unwrap mbind outcome_bind].
    assert (exists latest1, table_of (proof_of v) m (write_output s (InputResourceCommitment.resource_id r) o) latest1 /\
      match o with
      | OutputResourceCommitment.Changed hash =>
          if indexu (InputResourceCommitment.resource_index r) <? length (Verifier.latest_value_hashes v)
          then Ok (Verifier.with_latest v (<[indexu (InputResourceCommitment.resource_index r) := hash]>
                 (Verifier.latest_value_hashes v)), Some rest)
          else Panic
      | OutputResourceCommitment.Unchanged => Ok (v, Some rest)
      end = @Ok AbiError.t _ (Verifier.with_latest v latest1, Some rest)) as (latest1 & Ht1 & ->).
    { destruct Hplr as [Hk Hlt]. destruct o as [h|].
      - eexists. split; [by apply (table_write _ _ _ _ _ _ h Hp Ht Hk Hlt)|].
        by rewrite (tb_length _ _ _ _ Ht), (proj2 (Nat.ltb_lt _ _) Hlt).
      - exists (Verifier.latest_value_hashes v). split; [done|]. by destruct v. }
    cbn [mbind outcome_bind].
    destruct (IH (Verifier.with_latest v latest1) Hp _ (Some rest) (Some os) Ht1 Hpl) as (l' & o' & -> & Hf & Ho & Ht'); [by exists os|done|].
    exists l', o'. split; [done|]. split; [done|]. split; [|done]. split; intros _; [done|by apply Ho].
  - subst outs. cbn [apply_resources] in Ha. case_decide as Hval; [|done].
    rewrite (proj2 (verified_batch_idx_spec v m s r _ Hp Ht) (conj eq_refl (conj Hplr Hval))).
    cbn [mbind outcome_bind]. by apply (IH v Hp s None None).
Qed.

(** The verifier [v] is at the ledger [l] of a batch on the state [m]. *)
Record sim (m : state_map) (v : Verifier.t) (l : Ledger) : Prop := {
  sm_proof : table_proof (proof_of v);
  sm_table : table_of (proof_of v) m (l_state l) (Verifier.latest_value_hashes v);
  sm_exits : Verifier.exits v = l_exits l;
  sm_deposit : Verifier.deposit_spk_hash v = l_deposit l
}.

(** [v'] is [v] after settling to state [s], exits [ex] and deposit address [deposit]. *)
Definition settled (m : state_map) (v v' : Verifier.t) (s : state_map) (ex : bytes) (deposit : array 32) : Prop :=
  Verifier.inputs v' = Verifier.inputs v /\ table_of (proof_of v) m s (Verifier.latest_value_hashes v') /\
  Verifier.exits v' = ex /\ Verifier.deposit_spk_hash v' = deposit.

Lemma ended (v v' : Verifier.t) (o : option bytes) :
  (_ ← match o with Some buf => assert (bool_decide (OutputResourceCommitment.next buf = None)) | None => Ok tt end;
   Ok v) = @Ok AbiError.t _ v' -> finished o /\ v' = v.
Proof.
  intros Hv. apply bind_Ok in Hv as (u & Hfin & [= ->]). destruct o as [buf|]; [|done].
  by apply assert_Ok, bool_decide_eq_true in Hfin.
Qed.

Lemma execution_sound m v l context_hash exec output v' :
  sim m v l -> Verifier.verify_execution v context_hash exec output = Ok v' ->
  exists s ex deposit, settle_execution context_hash l exec output = Some (s, ex, deposit) /\
    Forall (placed (proof_of v)) (ec_resources exec) /\ settled m v v' s ex deposit.
Proof.
  intros [Hp Ht He Hd] Hv. unfold Verifier.verify_execution in Hv. unfold settle_execution.
  apply bind_Ok in Hv as (u & Hc & Hv). apply assert_Ok, bool_decide_eq_true in Hc.
  rewrite decide_True by done. destruct output as [exb dep bs|err].
  - apply bind_Ok in Hv as ([v1 o1] & Hs & Hv). apply bind_Ok in Hs as (dep' & Hdep & Hs).
    apply bind_Ok in Hs as (ex' & Hex & Hs). injection Hs as <- <-.
    rewrite Hd in Hdep. rewrite Hdep. rewrite emit_exits_spec in Hex by lia.
    destruct (exits_all _ exb); try done. injection Hex as <-.
    apply bind_Ok in Hv as ([v2 o2] & Htouch & Hv). apply ended in Hv as [Hfin ->].
    eapply touch_sound in Htouch as (outs & s' & latest' & (os & -> & ->) & Hpl & Happ & -> & Ht');
      [|exact Hp|exact Ht|exact Hfin].
    rewrite Happ. eexists _, _, _. split; [reflexivity|]. split; [exact Hpl|]. by rewrite <- He.
  - cbn [mbind outcome_bind] in Hv. apply bind_Ok in Hv as ([v2 o2] & Htouch & Hv).
    apply ended in Hv as [Hfin ->].
    eapply touch_sound in Htouch as (outs & s' & latest' & -> & Hpl & Happ & -> & Ht');
      [|exact Hp|exact Ht|exact Hfin].
    rewrite Happ. by eexists _, _, _.
Qed.

Lemma execution_complete m v l context_hash exec output s ex deposit :
  sim m v l -> Forall (placed (proof_of v)) (ec_resources exec) ->
  settle_execution context_hash l exec output = Some (s, ex, deposit) ->
  exists v', Verifier.verify_execution v context_hash exec output = Ok v' /\ settled m v v' s ex deposit.
Proof.
  intros [Hp Ht He Hd] Hpl Hv. unfold settle_execution in Hv. unfold Verifier.verify_execution.
  case_decide as Hc; [|done]. rewrite bool_decide_true by done. cbn [assert mbind outcome_bind].
  destruct output as [exb dep bs|err].
  - rewrite Hd. destruct (Verifier.carry_deposit_hash _ _) as [dep'| |]; try done.
    destruct (exits_all _ exb) eqn:Ex; try done. destruct (outputs_all _ bs) as [os| |] eqn:Eo; try done.
    apply bind_Some in Hv as (s' & Happ & [= -> <- ->]). cbn [mbind outcome_bind].
    rewrite emit_exits_spec, Ex, He by lia. cbn [mbind outcome_bind].
    set (v1 := {| Verifier.inputs := _ |}).
    destruct (touch_complete m (ec_resources exec) v1 (l_state l) (Some bs) (Some os) s Hp Ht Hpl ltac:(by exists os) Happ)
      as (latest' & out' & -> & Hfin & Hsome & Ht'). cbn [mbind outcome_bind].
    destruct out' as [rest|]; [|by destruct (proj2 Hsome ltac:(by eexists))].
    cbn [finished] in Hfin. rewrite bool_decide_true by done. cbn. by eexists.
  - apply bind_Some in Hv as (s' & Happ & [= -> <- <-]). cbn [mbind outcome_bind].
    destruct (touch_complete m (ec_resources exec) v (l_state l) None None s Hp Ht Hpl eq_refl Happ)
      as (latest' & out' & -> & Hfin & Hsome & Ht'). cbn [mbind outcome_bind].
    destruct out' as [rest|]; [by destruct (proj1 Hsome ltac:(by eexists))|]. by eexists.
Qed.

(** ** The journals of a batch *)

Definition journal_of (verify : array 32 -> bytes -> bool) (image : array 32)
    (j : AResult bytes) (e : JournalEntries) : Prop :=
  exists bs, j = Ok bs /\ verify image bs = true /\ journal_decode bs = Ok e.

Definition all_placed (p : Proof.t) (e : JournalEntries) : Prop :=
  forall exec, InputCommitment.execution_context (input_commitment e) = Some exec ->
    Forall (placed p) (ec_resources exec).

(** Acceptance of one journal, without what it does. *)
Lemma verified_journal_spec verify v j last e last' :
  Verifier.verified_journal verify v j last = Ok (e, last') <->
  journal_of verify (BatchInputs.tx_image_id (Verifier.inputs v)) j e /\
  last' = Some (InputCommitment.merge_idx (input_commitment e)) /\
  match last with Some prev => (prev <? InputCommitment.merge_idx (input_commitment e))%Z | None => true end = true /\
  (InputCommitment.execution_context (input_commitment e) = None ->
   output_commitment e = OutputCommitment.Error (of_code VersionIncompatible)).
Proof.
  unfold Verifier.verified_journal, journal_of. split.
  - intros Hv. apply bind_Ok in Hv as (bs & ->%unwrap_inv & Hv). apply bind_Ok in Hv as (u & Hver & Hv).
    apply assert_Ok in Hver. apply bind_Ok in Hv as (e' & He%unwrap_inv & Hv).
    apply bind_Ok in Hv as (u1 & Hlast & Hv). apply bind_Ok in Hv as (u2 & Hshape & Hv).
    injection Hv as -> <-. split; [by exists bs|]. split; [done|]. split.
    + destruct last as [prev|]; [|done]. by apply assert_Ok in Hlast.
    + intros Hnone. rewrite Hnone in Hshape. destruct (output_commitment e) as [|[code|]]; try done.
      destruct (code =? _)%Z eqn:Hcode; [|done]. apply Z.eqb_eq in Hcode. by rewrite Hcode.
  - intros ((bs & -> & Hver & He) & -> & Hlast & Hshape). cbn [unwrap mbind outcome_bind].
    rewrite Hver. cbn [assert mbind outcome_bind]. rewrite He. cbn [unwrap mbind outcome_bind].
    assert (match last with Some prev => assert (prev <? InputCommitment.merge_idx (input_commitment e))%Z | None => Ok tt end
      = @Ok AbiError.t _ tt) as -> by (destruct last; [by rewrite Hlast|done]).
    cbn [mbind outcome_bind]. destruct (InputCommitment.execution_context (input_commitment e)); [done|].
    by rewrite Hshape.
Qed.

Definition leaf_of (e : JournalEntries) : array 32 :=
  let input := input_commitment e in
  activity_leaf (InputCommitment.tx_id input) (InputCommitment.version input) (InputCommitment.merge_idx input).

(** What the loop does with the entries of an accepted journal. *)
Definition verify_entries (v : Verifier.t) (context_hash : array 32) (e : JournalEntries) : AResult Verifier.t :=
  match InputCommitment.execution_context (input_commitment e) with
  | Some exec_ctx => Verifier.verify_execution v context_hash exec_ctx (output_commitment e)
  | None => Ok v
  end.

Lemma sim_settled m v v' l s ex deposit last leaves :
  sim m v l -> settled m v v' s ex deposit ->
  sim m v' {| l_state := s; l_exits := ex; l_deposit := deposit; l_last := last; l_leaves := leaves |}.
Proof.
  intros [Hp _ _ _] (Hi & Ht & He & Hd). unfold proof_of in *. constructor; cbn; unfold proof_of; by rewrite ?Hi.
Qed.

Lemma step_sound verify m v l context_hash j e last v' :
  sim m v l -> Verifier.verified_journal verify v j (l_last l) = Ok (e, last) ->
  verify_entries v context_hash e = Ok v' ->
  exists l', settle_tx context_hash l e = Some l' /\ sim m v' l' /\ l_last l' = last /\
    l_leaves l' = l_leaves l ++ [leaf_of e] /\ Verifier.inputs v' = Verifier.inputs v /\
    all_placed (proof_of v) e.
Proof.
  intros Hs (_ & -> & Hlast & Hshape)%verified_journal_spec Hv. unfold settle_tx, verify_entries in *.
  rewrite Hlast. destruct (InputCommitment.execution_context (input_commitment e)) as [exec|] eqn:Ex.
  - destruct (execution_sound _ _ _ _ _ _ _ Hs Hv) as (s & ex & dep & -> & Hpl & Hset). cbn [mbind option_bind].
    eexists. split; [reflexivity|]. split; [by eapply sim_settled|]. split; [done|]. split; [done|].
    split; [apply Hset|]. intros exec' [= <-]%(eq_trans (eq_sym Ex)). done.
  - rewrite Hshape by done. injection Hv as <-. eexists. split; [reflexivity|]. destruct Hs as [Hp Ht He Hd].
    split; [by constructor|]. repeat split. intros exec' Hx. by rewrite Ex in Hx.
Qed.

Lemma step_complete verify m v l context_hash j e l' :
  sim m v l -> all_placed (proof_of v) e -> journal_of verify (BatchInputs.tx_image_id (Verifier.inputs v)) j e ->
  settle_tx context_hash l e = Some l' ->
  exists v', Verifier.verified_journal verify v j (l_last l) = Ok (e, l_last l') /\
    verify_entries v context_hash e = Ok v' /\ sim m v' l' /\ l_leaves l' = l_leaves l ++ [leaf_of e] /\
    Verifier.inputs v' = Verifier.inputs v.
Proof.
  intros Hs Hpl Hj Hset. unfold settle_tx, verify_entries in *.
  destruct (match l_last l with Some prev => _ | None => true end) eqn:Hlast; [|done].
  apply bind_Some in Hset as ([[s ex] dep] & Hx & [= <-]).
  destruct (InputCommitment.execution_context (input_commitment e)) as [exec|] eqn:Ex.
  - destruct (execution_complete _ _ _ _ _ _ _ _ _ Hs (Hpl exec Ex) Hx) as (v' & Hv' & Hset).
    exists v'. rewrite verified_journal_spec, Ex. split; [done|]. split; [done|].
    split; [by eapply sim_settled|]. split; [done|]. apply Hset.
  - exists v. rewrite verified_journal_spec.
    destruct (output_commitment e) as [|[code|]] eqn:Eo; try done. case_decide as Hcode; [|done].
    injection Hx as <- <- <-. split; [by subst code|]. split; [done|].
    destruct Hs as [Hp Ht He Hd]. split; [by constructor|]. done.
Qed.

Lemma journals_sound verify m context_hash js v l v' leaves :
  sim m v l -> Verifier.verify_journals verify v context_hash js (l_last l) (l_leaves l) = Ok (v', leaves) ->
  exists es l', Forall2 (journal_of verify (BatchInputs.tx_image_id (Verifier.inputs v))) js es /\
    Forall (all_placed (proof_of v)) es /\ settle_all context_hash l es = Some l' /\
    sim m v' l' /\ leaves = l_leaves l' /\ Verifier.inputs v' = Verifier.inputs v.
Proof.
  revert v l. induction js as [|j js IH]; intros v l Hs Hv.
  { injection Hv as <- <-. by exists [], l. }
  cbn [Verifier.verify_journals] in Hv. apply bind_Ok in Hv as ([e last] & Hj & Hv).
  apply bind_Ok in Hv as (v1 & Hv1 & Hv). fold (verify_entries v context_hash e) in Hv1.
  fold (leaf_of e) in Hv.
  destruct (step_sound _ _ _ _ _ _ _ _ _ Hs Hj Hv1) as (l1 & Hl1 & Hs1 & <- & Hleaves & Hi1 & Hpl).
  rewrite <- Hleaves in Hv. apply verified_journal_spec in Hj as (Hj & _).
  destruct (IH v1 l1 Hs1 Hv) as (es & l' & Hjs & Hpls & Hset & Hs' & -> & Hi'). unfold proof_of in *. rewrite Hi1 in *.
  exists (e :: es), l'. split; [by constructor|]. split; [by constructor|]. cbn [settle_all]. by rewrite Hl1.
Qed.

Lemma journals_complete verify m context_hash js v l es l' :
  sim m v l -> Forall2 (journal_of verify (BatchInputs.tx_image_id (Verifier.inputs v))) js es ->
  Forall (all_placed (proof_of v)) es -> settle_all context_hash l es = Some l' ->
  exists v', Verifier.verify_journals verify v context_hash js (l_last l) (l_leaves l) = Ok (v', l_leaves l') /\
    sim m v' l' /\ Verifier.inputs v' = Verifier.inputs v.
Proof.
  intros Hs Hjs. remember (BatchInputs.tx_image_id (Verifier.inputs v)) as img eqn:Himg. revert v l Hs Himg.
  induction Hjs as [|j e js es Hj Hjs IH]; intros v l Hs Himg Hpl Hset.
  { injection Hset as <-. by exists v. }
  apply Forall_cons in Hpl as [Hple Hpl]. cbn [settle_all] in Hset. apply bind_Some in Hset as (l1 & Hl1 & Hset).
  subst img. destruct (step_complete _ _ _ _ _ _ _ _ Hs Hple Hj Hl1) as (v1 & Hj1 & Hv1 & Hs1 & Hleaves & Hi1).
  destruct (IH v1 l1 Hs1) as (v' & Hv' & Hs' & Hi'); [by rewrite Hi1|by unfold proof_of in *; rewrite Hi1|done|].
  exists v'. cbn [Verifier.verify_journals]. rewrite Hj1. cbn [mbind outcome_bind].
  fold (verify_entries v context_hash e). rewrite Hv1. cbn [mbind outcome_bind]. fold (leaf_of e).
  rewrite <- Hleaves, Hv'. by rewrite Hi', Hi1.
Qed.

(** ** The whole batch *)

(** The context hash of a batch's block. *)
Definition batch_context (b : Batch.t) : array 32 :=
  mergeset_context_hash (Batch.prev_timestamp b) (Batch.daa_score b) (Batch.blue_score b).

(** The transition of a batch on the state [m] that ends at the ledger [l]: the lane advances only
    when the batch has transactions. *)
Definition settled_transition (i : BatchInputs.t) (m : state_map) (l : Ledger) : BatchTransition.t :=
  let b := BatchInputs.batch i in
  {| BatchTransition.prev_state := root_of m;
     BatchTransition.prev_lane_tip := Batch.prev_lane_tip b;
     BatchTransition.prev_lane_blue_score := Batch.prev_lane_blue_score b;
     BatchTransition.new_state := root_of (l_state l);
     BatchTransition.new_lane_tip :=
       match Batch.tx_journals b with
       | [] => Batch.prev_lane_tip b
       | _ => lane_tip_next (if Batch.lane_expired b then Batch.prev_seq_commit b else Batch.prev_lane_tip b)
                (BatchInputs.lane_key i) (activity_digest (l_leaves l)) (batch_context b)
       end;
     BatchTransition.new_lane_blue_score :=
       match Batch.tx_journals b with [] => Batch.prev_lane_blue_score b | _ => Batch.blue_score b end;
     BatchTransition.lane_key := BatchInputs.lane_key i;
     BatchTransition.covenant_id := BatchInputs.covenant_id i;
     BatchTransition.tx_image_id := BatchInputs.tx_image_id i;
     BatchTransition.deposit_spk_hash := l_deposit l;
     BatchTransition.lane_expired := if Batch.lane_expired b then 1 else 0;
     BatchTransition.exits := l_exits l |}.

(** The journals of the batch are proven, decode to [es], and settle [m] to the ledger [l]. *)
Record batch_settles (verify : array 32 -> bytes -> bool) (i : BatchInputs.t) (m : state_map)
    (es : list JournalEntries) (l : Ledger) : Prop := {
  bs_journals : Forall2 (journal_of verify (BatchInputs.tx_image_id i))
                  (journals (Batch.tx_journals (BatchInputs.batch i))) es;
  bs_settle : settle_all (batch_context (BatchInputs.batch i)) (ledger_of m) es = Some l;
  bs_deposit : l_deposit l = zero32 \/ l_deposit l = BatchInputs.deposit_spk_hash i
}.

Lemma members_table p m ms :
  verified p m -> well_formed p = true -> Proof.members p = Ok ms -> table_of p m m (Member.value_hash <$> ms).
Proof.
  intros Hver Hwf Hms. pose proof Hver as [Hm _]. unfold Proof.members in Hms.
  apply mapM_outcome_Ok in Hms. pose proof (Forall2_length _ _ _ Hms) as Hl. rewrite length_seq in Hl.
  constructor; [by rewrite length_fmap| |done|done]. intros j k Hk Hj.
  destruct (Forall2_lookup_l _ _ _ j j Hms) as (mem & Hj' & Hmem); [by apply lookup_seq|].
  rewrite list_lookup_fmap, Hj'. cbn. unfold value_at.
  pose proof (member_inv _ _ _ Hmem) as (_ & _ & _ & _ & _ & _ & _ & Hk' & _). rewrite Hk in Hk'. injection Hk' as ->.
  by rewrite (member_truth p m j mem Hver Hwf Hmem).
Qed.

Lemma new_spec input v :
  Verifier.new input = Ok v ->
  exists ms, BatchInputs.decode input = Ok (Verifier.inputs v) /\ table_proof (proof_of v) /\
    Proof.members (proof_of v) = Ok ms /\
    v = {| Verifier.inputs := Verifier.inputs v; Verifier.latest_value_hashes := Member.value_hash <$> ms;
           Verifier.exits := []; Verifier.deposit_spk_hash := zero32 |}.
Proof.
  unfold Verifier.new. intros Hv. apply bind_Ok in Hv as (i & Hi%unwrap_inv & Hv).
  apply bind_Ok in Hv as ([] & Hs%unwrap_inv & Hv). apply bind_Ok in Hv as (ms & Hms%unwrap_inv & [= <-]).
  exists ms. cbn. split; [done|]. split; [|done]. constructor; [done|]. cbn. unfold proof_of. cbn. by rewrite Hms.
Qed.

Lemma commit_spec m v l :
  verified (proof_of v) m -> well_formed (proof_of v) = true -> sim m v l ->
  forall tip blue, Verifier.commit_batch_transition v tip blue = Ok (BatchTransition.encode {|
    BatchTransition.prev_state := root_of m;
    BatchTransition.prev_lane_tip := Batch.prev_lane_tip (BatchInputs.batch (Verifier.inputs v));
    BatchTransition.prev_lane_blue_score := Batch.prev_lane_blue_score (BatchInputs.batch (Verifier.inputs v));
    BatchTransition.new_state := root_of (l_state l);
    BatchTransition.new_lane_tip := tip;
    BatchTransition.new_lane_blue_score := blue;
    BatchTransition.lane_key := BatchInputs.lane_key (Verifier.inputs v);
    BatchTransition.covenant_id := BatchInputs.covenant_id (Verifier.inputs v);
    BatchTransition.tx_image_id := BatchInputs.tx_image_id (Verifier.inputs v);
    BatchTransition.deposit_spk_hash := l_deposit l;
    BatchTransition.lane_expired := if Batch.lane_expired (BatchInputs.batch (Verifier.inputs v)) then 1 else 0;
    BatchTransition.exits := l_exits l |}).
Proof.
  intros Hver Hwf [Hp Ht <- <-] tip blue. pose proof Hver as [Hm _]. unfold Verifier.commit_batch_transition.
  fold (proof_of v).
  rewrite (compute_roots_truth _ m _ Hver Hwf (tp_sorted _ Hp) (tp_members _ Hp)). cbn [unwrap mbind outcome_bind].
  by rewrite (table_writes _ _ _ _ Hp Ht Hm).
Qed.

Lemma declared_spec carry declared u :
  Verifier.assert_declared_deposit_hash carry declared = Ok u <-> carry = zero32 \/ carry = declared.
Proof.
  unfold Verifier.assert_declared_deposit_hash. destruct u. case_bool_decide; [by split; [left|]|].
  rewrite assert_Ok, bool_decide_eq_true. naive_solver.
Qed.

(** Both directions at once, from a fresh verifier on. *)
Lemma verify_commit_spec verify m v ms journal :
  verified (proof_of v) m -> well_formed (proof_of v) = true -> table_proof (proof_of v) ->
  Proof.members (proof_of v) = Ok ms ->
  v = {| Verifier.inputs := Verifier.inputs v; Verifier.latest_value_hashes := Member.value_hash <$> ms;
         Verifier.exits := []; Verifier.deposit_spk_hash := zero32 |} ->
  ('(v, (tip, blue)) ← Verifier.verify_batch verify v; Verifier.commit_batch_transition v tip blue) = Ok journal <->
  exists es l, batch_settles verify (Verifier.inputs v) m es l /\ Forall (all_placed (proof_of v)) es /\
    journal = BatchTransition.encode (settled_transition (Verifier.inputs v) m l).
Proof.
  intros Hver Hwf Hp Hms Hv. pose proof (members_table _ _ _ Hver Hwf Hms) as Ht.
  assert (sim m v (ledger_of m)) as Hs by (rewrite Hv; by constructor).
  unfold Verifier.verify_batch, settled_transition. fold (batch_context (BatchInputs.batch (Verifier.inputs v))).
  destruct (Batch.tx_journals (BatchInputs.batch (Verifier.inputs v))) as [|b buf] eqn:Ej.
  - cbn [mbind outcome_bind]. rewrite (commit_spec _ _ _ Hver Hwf Hs). split.
    + intros [= <-]. exists [], (ledger_of m). split; [|by split]. constructor; [by rewrite Ej|done|by left].
    + intros (es & l & [Hj Hset _] & _ & ->). rewrite Ej in Hj. apply Forall2_nil_inv_l in Hj as ->.
      by injection Hset as <-.
  - split.
    + intros Hx. apply bind_Ok in Hx as ([v' [tip blue]] & Hx & Hc). apply bind_Ok in Hx as ([v1 digest] & Hd & Hx).
      apply bind_Ok in Hd as ([v2 leaves] & Hj & [= <- <-]). apply bind_Ok in Hx as (u & Hdep & [= <- <- <-]).
      destruct (journals_sound _ _ _ _ _ (ledger_of m) _ _ Hs Hj) as (es & l & Hjs & Hpl & Hset & Hs2 & -> & Hi).
      exists es, l. apply declared_spec in Hdep.
      rewrite (commit_spec m v2 l) in Hc by (unfold proof_of in *; by rewrite ?Hi). rewrite Hi in *.
      destruct Hs2 as [_ _ _ Hdl]. rewrite Hdl in Hdep.
      split; [by constructor|]. split; [done|]. by injection Hc as <-.
    + intros (es & l & [Hjs Hset Hdep] & Hpl & ->).
      destruct (journals_complete _ _ _ _ _ (ledger_of m) _ _ Hs Hjs Hpl Hset) as (v' & Hj & Hs' & Hi).
      unfold Verifier.verified_activity_digest. unfold ledger_of in Hj. cbn [l_last l_leaves] in Hj. rewrite Hj.
      cbn [mbind outcome_bind]. destruct Hs' as [Hp' Ht' He' Hd'] eqn:Es'. rewrite Hd', Hi.
      rewrite (proj2 (declared_spec _ _ tt) Hdep). cbn [mbind outcome_bind].
      rewrite (commit_spec m v' l) by (unfold proof_of in *; by rewrite ?Hi). by rewrite Hi.
Qed.

(** ** The host's encoding *)

Lemma journals_size (js : list bytes) :
  foldr (fun j acc => 4 + Z.of_nat (length j) + acc)%Z 0%Z js = Z.of_nat (length (js ≫= Writer.write_blob)).
Proof.
  induction js as [|j js IH]; [done|]. cbn [foldr]. rewrite bind_cons, length_app, IH.
  unfold Writer.write_blob. rewrite length_app, length_vec_to_list. lia.
Qed.

Lemma write_blob_length l : length (Writer.write_blob l) = 4 + length l.
Proof. unfold Writer.write_blob. by rewrite length_app, length_vec_to_list. Qed.

Lemma journals_from_encode js fuel :
  Forall (fun j => u32 (Z.of_nat (length j))) js -> length (js ≫= Writer.write_blob) <= fuel ->
  journals_from fuel (js ≫= Writer.write_blob) = Ok <$> js.
Proof.
  intros Hjs. revert fuel. induction Hjs as [|j js Hj Hjs IH]; intros [|fuel] Hf; try done;
    rewrite bind_cons, length_app, write_blob_length in Hf; [lia|].
  cbn [journals_from]. rewrite bind_cons. unfold journals_next.
  destruct (Writer.write_blob j ++ _) as [|b l] eqn:E.
  { apply (f_equal length) in E. rewrite length_app, write_blob_length in E. cbn in E. lia. }
  rewrite <- E, (lift_run _ _ j (js ≫= Writer.write_blob)) by by apply blob_run.
  cbn [fmap list_fmap]. f_equal. apply IH. lia.
Qed.

Lemma journals_encode js :
  Forall (fun j => u32 (Z.of_nat (length j))) js -> journals (js ≫= Writer.write_blob) = Ok <$> js.
Proof. intros Hjs. by apply journals_from_encode. Qed.

(** The fields of the metadata the batch takes. *)
Record batch_metadata_ok (md : ChainBlockMetadata) : Prop := {
  bm_blue : u64 (cb_blue_score md);
  bm_daa : u64 (cb_daa_score md);
  bm_time : u64 (cb_prev_timestamp md);
  bm_lane : u64 (cb_prev_lane_blue_score md)
}.

Definition batch_of (md : ChainBlockMetadata) (js : list bytes) : Batch.t :=
  {| Batch.blue_score := cb_blue_score md; Batch.daa_score := cb_daa_score md;
     Batch.prev_timestamp := cb_prev_timestamp md; Batch.prev_seq_commit := cb_prev_seq_commit md;
     Batch.prev_lane_tip := cb_prev_lane_tip md; Batch.prev_lane_blue_score := cb_prev_lane_blue_score md;
     Batch.lane_expired := cb_lane_expired md; Batch.tx_journals := js ≫= Writer.write_blob |}.

Definition inputs_of (pins : BatchPins.t) (p : Proof.t) (md : ChainBlockMetadata) (js : list bytes) : BatchInputs.t :=
  {| BatchInputs.tx_image_id := BatchPins.tx_image_id pins; BatchInputs.covenant_id := BatchPins.covenant_id pins;
     BatchInputs.deposit_spk_hash := BatchPins.deposit_spk_hash pins; BatchInputs.lane_key := BatchPins.lane_key pins;
     BatchInputs.proof := p; BatchInputs.batch := batch_of md js |}.

Lemma read_bool_byte_run field (b : bool) rest :
  Reader.read_bool field ((if b then Byte.x01 else Byte.x00) :: rest) = Ok (b, rest).
Proof. by destruct b. Qed.
Hint Resolve read_bool_byte_run : wire.

Lemma batch_run md js rest :
  batch_metadata_ok md -> u32 (Z.of_nat (length (js ≫= Writer.write_blob))) ->
  Batch.decode (Batch.encode md js ++ rest) = Ok (batch_of md js, rest).
Proof.
  intros [? ? ? ?] Hl. unfold Batch.decode, Batch.encode. rewrite journals_size. parse. cbn [app]. parse_step.
  rewrite app_assoc.
  change (vec_to_list (le_split 4 (Z.of_nat (length (js ≫= Writer.write_blob)))) ++ (js ≫= Writer.write_blob))
    with (Writer.write_blob (js ≫= Writer.write_blob)).
  parse_step. done.
Qed.

Lemma batch_inputs_run pins pb p md js :
  batch_metadata_ok md -> u32 (Z.of_nat (length (js ≫= Writer.write_blob))) ->
  u32 (Z.of_nat (length pb)) -> Proof.decode pb = Ok p ->
  BatchInputs.decode (BatchInputs.encode pins pb md js) = Ok (inputs_of pins p md js).
Proof.
  intros Hmd Hl Hpb Hp. unfold BatchInputs.decode, BatchInputs.encode, on_slice. aparse.
  erewrite abind_run by (unfold alift; by rewrite Hp).
  rewrite <- (app_nil_r (Batch.encode md js)).
  erewrite abind_run by (apply lift_run; by apply batch_run). done.
Qed.
End batch.
