(* ===== verification/BatchTheorems.v ===== *)
(** * BatchTheorems: the guarantees of the batch processor

    The batch guest against the abstract ledger: what an accepted batch means, that an honest
    host's batch is accepted, and the batch of transactions that touch no resource. *)

From S2P Require Import Prelude Codec Types SmtNode SmtTrie SmtUpdate SmtTree SmtProof SmtSound SmtRoots SmtVerify.
From S2P Require Import SmtBuild AbiCore AbiTx L1Types AbiBatch AbiBatchProofs.

(** C6: soundness of the batch guest. When it accepts an input whose state proof is verified
    against the state [m], pinned and routed, every transaction journal is proven for the declared
    image and decodes, and the journals settle on the ledger of [m] in order (merge indices
    ascend, executed transactions run under the block's context hash, every resource has at its
    turn the value it was executed on, successful transactions write one output per resource,
    deposit addresses agree with each other and with the declared one); the committed transition
    goes from the root of [m] to the root of the settled state, carries the exits in order, and
    advances the lane by the digest of all transactions. *)
Theorem batch_processor_sound `{CastText} `{SeqCommit} `{Hasher} verify input journal i m :
  Verifier.batch_processor verify input = Ok journal -> BatchInputs.decode input = Ok i ->
  verified (BatchInputs.proof i) m -> well_formed (BatchInputs.proof i) = true ->
  exists es l, batch_settles verify i m es l /\ journal = BatchTransition.encode (settled_transition i m l).
Proof.
  intros Hb Hi Hver Hwf. unfold Verifier.batch_processor in Hb. apply bind_Ok in Hb as (v & Hv & Hb).
  destruct (new_spec _ _ Hv) as (ms & Hd & Hp & Hms & Heq). rewrite Hi in Hd. injection Hd as ->.
  apply (verify_commit_spec _ m v ms) in Hb as (es & l & Hset & _ & ->); [|done..]. by exists es, l.
Qed.

(** The slots of the queried keys. *)
Definition slots (ks : list ResourceId) (e : JournalEntries) : Prop :=
  forall exec, InputCommitment.execution_context (input_commitment e) = Some exec ->
    Forall (fun r => ks !! indexu (InputResourceCommitment.resource_index r)
                     = Some (InputResourceCommitment.resource_id r)) (ec_resources exec).

Lemma answers_table p ks f :
  ks `prefix_of` Proof.keys p -> answers p ks f -> strictly_ascending ks = true ->
  table_proof p /\ length (Proof.memberships p) = length ks.
Proof.
  intros [rest Hk] (mems & Hm & Hks & _) Hasc. unfold Proof.members in Hm.
  pose proof (proj1 (mapM_outcome_Ok _ _ _) Hm) as Hf. pose proof (Forall2_length _ _ _ Hf) as Hl.
  rewrite length_seq in Hl.
  assert (length (Proof.memberships p) = length ks) as Hlen by (rewrite Hl, <- Hks; by rewrite length_fmap).
  split; [|done]. constructor; [|unfold Proof.members; by rewrite Hm].
  unfold Proof.check_sorted_queried_keys. rewrite Hk, Hlen, length_app, take_app_length.
  destruct (Nat.ltb_spec (length ks + length rest) (length ks)); [lia|]. by rewrite Hasc.
Qed.

Lemma represents_live `{Hasher} {St} `{NodeStore St} (s : St) version m :
  represents s version m -> map_Forall (fun _ v => v <> EMPTY_HASH) m.
Proof.
  intros (_ & _ & t & Hwf & Hl & _) k v Hk. rewrite <- Hl in Hk.
  exact (tlookup_wf_Some [] t k v Hwf (has_prefix_nil k) Hk).
Qed.

(** C7: completeness of the batch guest. The input a host builds from the store's proof of the
    batch's resources, the block's metadata and the transactions' journals is accepted whenever
    the journals settle on the ledger and name each resource by its slot in the batch; the
    committed transition is the settled one. *)
Theorem honest_batch_accepted `{CastText} `{SeqCommit} `{Hasher} {St} `{NodeStore St} (s : St) version m ks
    pb p verify pins md js es l :
  represents s version m -> ks <> [] -> strictly_ascending ks = true -> (Z.of_nat (length ks) < 2 ^ 23)%Z ->
  prove s ks version = Ok pb -> Proof.decode pb = Ok p -> u32 (Z.of_nat (length pb)) ->
  no_collision (proof_preimages p ++ trie_preimages (trie_of m)) ->
  batch_metadata_ok md -> u32 (Z.of_nat (length (js ≫= Writer.write_blob))) ->
  Forall2 (fun j e => verify (BatchPins.tx_image_id pins) j = true /\ journal_decode j = Ok e) js es ->
  Forall (slots ks) es ->
  settle_all (batch_context (batch_of md js)) (ledger_of m) es = Some l ->
  l_deposit l = zero32 \/ l_deposit l = BatchPins.deposit_spk_hash pins ->
  Verifier.batch_processor verify (BatchInputs.encode pins pb md js)
  = Ok (BatchTransition.encode (settled_transition (inputs_of pins p md js) m l)).
Proof.
  intros Hrep Hne Hasc Hlen Hpb Hp Hsize Hnc Hmd Hjl Hjs Hslots Hset Hdep.
  destruct (prove_honest s version m ks Hrep Hne (ascending_NoDup _ (proj1 (strictly_ascending_sorted _) Hasc)) Hlen)
    as (pb' & p' & Hpb' & Hp' & Hroot & Hwf & Hpre & Hans).
  rewrite Hpb in Hpb'. injection Hpb' as <-. rewrite Hp in Hp'. injection Hp' as <-.
  destruct (answers_table p ks _ Hpre Hans Hasc) as [Htp Hml].
  destruct Hans as (ms & Hms & _). pose proof (represents_live _ _ _ Hrep) as Hm.
  set (i := inputs_of pins p md js).
  set (v := {| Verifier.inputs := i; Verifier.latest_value_hashes := Member.value_hash <$> ms;
               Verifier.exits := []; Verifier.deposit_spk_hash := zero32 |}).
  unfold Verifier.batch_processor, Verifier.new. rewrite (batch_inputs_run pins pb p md js) by done.
  cbn [unwrap mbind outcome_bind]. fold i. change (BatchInputs.proof i) with p.
  rewrite (tp_sorted _ Htp). cbn [unwrap mbind outcome_bind]. rewrite Hms. cbn [unwrap mbind outcome_bind].
  fold v. apply (verify_commit_spec verify m v ms); [by split|done..|]. exists es, l.
  assert (Forall (fun j => u32 (Z.of_nat (length j))) js) as Hsmall.
  { apply Forall_forall. intros j Hj. apply list_elem_of_split in Hj as (l1 & l2 & ->).
    rewrite bind_app, bind_cons, !length_app, write_blob_length in Hjl. unfold u32 in *. lia. }
  split; [|split; [|done]].
  - constructor; [|done|done].
    change (Batch.tx_journals (BatchInputs.batch (Verifier.inputs v))) with (js ≫= Writer.write_blob).
    rewrite journals_encode by done. apply Forall2_fmap_l.
    eapply Forall2_impl; [exact Hjs|]. intros j e [Hj He]. by exists j.
  - eapply Forall_impl; [exact Hslots|]. intros e He exec Hx. eapply Forall_impl; [by apply He|].
    intros r Hr. cbn in Hr. split; cbn.
    + destruct Hpre as [rest ->]. by apply lookup_app_l_Some.
    + rewrite Hml. by eapply lookup_lt_Some.
Qed.

(** ** Transactions without resources *)

Lemma trie_of_empty : trie_of ∅ = TEmpty.
Proof.
  destruct (trie_of_spec ∅ (map_Forall_empty _)) as [Hw Hl]. apply (trie_ext []); [exact Hw|exact I|].
  intros k _. cbn [length]. rewrite Hl. by rewrite lookup_empty.
Qed.

Lemma root_of_empty `{Hasher} : root_of ∅ = EMPTY_HASH.
Proof. unfold root_of. by rewrite trie_of_empty. Qed.

(** A batch whose transactions declare no resource is proven against the proof of the empty
    key list, whatever the state: the guest accepts it and commits a transition from the empty
    tree's root to the empty tree's root, which does not continue any state but the empty one. *)
Theorem resourceless_batch_empty_root `{CastText} `{SeqCommit} `{Hasher} {St} `{NodeStore St} (s : St) version
    verify pins md tx merge_idx :
  batch_metadata_ok md -> u32 merge_idx ->
  let ctx := mergeset_context_hash (cb_prev_timestamp md) (cb_daa_score md) (cb_blue_score md) in
  let journal := InputCommitment.encode
      {| i_version := V1; i_tx_id := tx; i_merge_idx := merge_idx;
         i_execution := Some {| ei_context_hash := ctx;
           ei_tx := {| payload := {| p_bytes := []; access_metadata := []; ix_data := [] |}; rest_preimage := [] |};
           ei_resources := [] |} |} ++
    OutputCommitment.encode (inr {| exits := []; deposit_spk_hash := zero32; resources := [] |}) in
  verify (BatchPins.tx_image_id pins) journal = true ->
  exists pb bt,
    prove s [] version = Ok pb /\
    Verifier.batch_processor verify (BatchInputs.encode pins pb md [journal]) = Ok (BatchTransition.encode bt) /\
    BatchTransition.prev_state bt = EMPTY_HASH /\ BatchTransition.new_state bt = EMPTY_HASH.
Proof.
  intros Hmd Hmi ctx journal Hver. set (inp := {| i_version := V1; i_tx_id := tx |}) in journal.
  set (p := {| Proof.keys := []; Proof.leaves := []; Proof.siblings := []; Proof.topology := [];
               Proof.memberships := [] |}).
  assert (prove s [] version = Ok (Proof.encode p)) as Hpb by reflexivity.
  set (e := {| input_commitment := {| InputCommitment.version := V1; InputCommitment.tx_id := tx;
                 InputCommitment.merge_idx := merge_idx;
                 InputCommitment.execution_context := Some {| ec_context_hash := ctx; ec_resources := [] |} |};
               output_commitment := OutputCommitment.Success [] zero32 [] |}).
  assert (journal_decode journal = Ok e) as Hj.
  { apply (journal_run inp (inr {| exits := []; deposit_spk_hash := zero32; resources := [] |})); try done.
    intros exec [= <-]. done. }
  assert (length journal = 2 + 32 + 4 + (32 + 4) + (1 + 4 + 32)) as Hlj.
  { unfold journal, InputCommitment.encode, OutputCommitment.encode, execution_context_encode, Writer.encode_many,
      Writer.write_blob. cbn [i_execution inp ei_resources i_tx_id i_version i_merge_idx ei_context_hash].
    rewrite !length_app, !length_vec_to_list. reflexivity. }
  set (i := inputs_of pins p md [journal]).
  assert (verified p ∅) as Hvp by (split; [apply map_Forall_empty|]; split; [by rewrite root_of_empty|rewrite trie_of_empty; apply no_collisionb_spec; reflexivity]).
  set (v := {| Verifier.inputs := i; Verifier.latest_value_hashes := []; Verifier.exits := [];
               Verifier.deposit_spk_hash := zero32 |}).
  set (l := {| l_state := ∅; l_exits := []; l_deposit := zero32; l_last := Some merge_idx;
               l_leaves := [activity_leaf tx V1 merge_idx] |}).
  exists (Proof.encode p), (settled_transition i ∅ l). split; [done|]. split; [|cbn; by rewrite root_of_empty].
  unfold Verifier.batch_processor, Verifier.new.
  rewrite (batch_inputs_run pins (Proof.encode p) p md [journal]) by
    (done || (cbn [mbind list_bind]; rewrite app_nil_r, write_blob_length, Hlj; done)).
  assert (table_proof p) as Htp by done. assert (Proof.members p = Ok []) as Hms by done.
  cbn [unwrap mbind outcome_bind]. fold i. change (BatchInputs.proof i) with p. rewrite (tp_sorted _ Htp).
  cbn [unwrap mbind outcome_bind]. rewrite Hms. cbn [unwrap mbind outcome_bind fmap list_fmap]. fold v.
  apply (verify_commit_spec verify ∅ v []); [exact Hvp|reflexivity|exact Htp|exact Hms|reflexivity|].
  exists [e], l. split; [|split; [|done]].
  - constructor; [| |by left].
    + change (Batch.tx_journals (BatchInputs.batch (Verifier.inputs v))) with ([journal] ≫= Writer.write_blob).
      rewrite journals_encode by (repeat constructor; rewrite Hlj; done). repeat constructor. by exists journal.
    + cbn [settle_all]. unfold settle_tx, settle_execution. cbn [e input_commitment InputCommitment.execution_context
        InputCommitment.merge_idx ledger_of l_last ec_context_hash output_commitment].
      rewrite decide_True by reflexivity. reflexivity.
  - apply Forall_singleton. intros exec [= <-]. constructor.
Qed.

(** ** Witnesses *)

Definition demo_metadata : ChainBlockMetadata :=
  from_header {| rh_hash := zero32; rh_blue_score := 7; rh_daa_score := 6; rh_timestamp := 9;
                 rh_accepted_id_merkle_root := zero32 |}.

(** The demonstration transaction of the guest, in the block of [demo_metadata]. *)
Definition batch_demo_context : TransactionContext :=
  {| tc_version := V1; tc_id := @tx_id_v1 toy_keyed (p_bytes demo_payload) [Byte.x07]; tc_merge_idx := 3;
     tc_payload := p_bytes demo_payload; tc_rest_preimage := [Byte.x07];
     tc_prev_timestamp := 0; tc_daa_score := 6; tc_blue_score := 7; tc_resources := tc_resources demo_context |}.

Definition demo_journal : bytes := Eval vm_compute in
  match @process_transaction [] toy_keyed toy_hasher (increment_exit_handler true)
          (@inputs_encode toy_seq batch_demo_context) with
  | Ok (journal, _) => journal
  | _ => []
  end.

Definition demo_keys : list ResourceId := resource_id <$> demo_accesses.
Definition demo_commitments : list Commitment :=
  [{| key := vreplicate 32 Byte.x01;
      value_hash := @hash toy_hasher [Byte.x29; Byte.x00; Byte.x00; Byte.x00] |}].
Definition demo_map : state_map := apply_commitments ∅ demo_commitments.
Definition demo_store : mem_store :=
  commit (∅ : mem_store)
    match Tree.update (H := toy_hasher) (∅ : mem_store) demo_commitments 1 with Ok (_, ops) => ops | _ => [] end.

Lemma demo_represents : represents (H := toy_hasher) demo_store 1 demo_map.
Proof.
  unfold demo_store.
  destruct (update_step (H := toy_hasher) (∅ : mem_store) ∅ demo_commitments 1)
    as (ops & -> & _ & Hrep & _); [done|done|done| |exact Hrep].
  apply fresh_clean; [done|]. intros k v _ _. apply lookup_empty.
Qed.

Definition demo_proof_bytes : bytes := Eval vm_compute in
  match prove demo_store demo_keys 1 with Ok bs => bs | _ => [] end.
Definition demo_proof : Proof.t := Eval vm_compute in
  match Proof.decode demo_proof_bytes with
  | Ok p => p
  | _ => {| Proof.keys := []; Proof.leaves := []; Proof.siblings := []; Proof.topology := []; Proof.memberships := [] |}
  end.
Definition demo_pins : BatchPins.t :=
  {| BatchPins.tx_image_id := fill Byte.x11; BatchPins.covenant_id := fill Byte.x22;
     BatchPins.deposit_spk_hash := zero32; BatchPins.lane_key := fill Byte.x33 |}.
Definition demo_input : bytes := Eval vm_compute in BatchInputs.encode demo_pins demo_proof_bytes demo_metadata [demo_journal].

(** The verifier that knows the one proven journal. *)
Definition demo_verify (image : array 32) (journal : bytes) : bool :=
  bool_decide (image = fill Byte.x11) && bool_decide (journal = demo_journal).

Definition demo_entries : list JournalEntries := Eval vm_compute in
  match @journal_decode [] demo_journal with Ok e => [e] | _ => [] end.
Definition demo_ledger : Ledger :=
  default (ledger_of ∅)
    (@settle_all [] toy_seq (@batch_context toy_seq (batch_of demo_metadata [demo_journal]))
       (ledger_of demo_map) demo_entries).

Lemma demo_no_collision :
  no_collision (H := toy_hasher) (proof_preimages (H := toy_hasher) demo_proof ++ trie_preimages (H := toy_hasher) (trie_of demo_map)).
Proof. apply no_collisionb_spec. vm_compute. reflexivity. Qed.

Lemma demo_metadata_ok : batch_metadata_ok demo_metadata.
Proof. constructor; cbn; unfold u64; lia. Qed.

Lemma batch_processor_sound_witness :
  exists journal es l,
    @Verifier.batch_processor [] toy_seq demo_verify toy_hasher demo_input = Ok journal /\
    @batch_settles [] toy_seq demo_verify (inputs_of demo_pins demo_proof demo_metadata [demo_journal]) demo_map es l.
Proof.
  destruct (@batch_processor_sound [] toy_seq toy_hasher demo_verify demo_input
    match @Verifier.batch_processor [] toy_seq demo_verify toy_hasher demo_input with Ok j => j | _ => [] end
    (inputs_of demo_pins demo_proof demo_metadata [demo_journal]) demo_map) as (es & l & Hset & _).
  - vm_compute. reflexivity.
  - vm_compute. reflexivity.
  - split; [by eapply represents_live, demo_represents|]. split; [vm_compute; reflexivity|apply demo_no_collision].
  - vm_compute. reflexivity.
  - eexists _, es, l. split; [vm_compute; reflexivity|exact Hset].
Defined.

Lemma honest_batch_accepted_witness :
  @Verifier.batch_processor [] toy_seq demo_verify toy_hasher demo_input
  = Ok (BatchTransition.encode (@settled_transition toy_seq toy_hasher
          (inputs_of demo_pins demo_proof demo_metadata [demo_journal]) demo_map demo_ledger)).
Proof.
  apply (@honest_batch_accepted [] toy_seq toy_hasher mem_store _ demo_store 1 demo_map demo_keys
    demo_proof_bytes demo_proof demo_verify demo_pins demo_metadata [demo_journal] demo_entries demo_ledger).
  - apply demo_represents.
  - discriminate.
  - vm_compute. reflexivity.
  - vm_compute. reflexivity.
  - vm_compute. reflexivity.
  - vm_compute. reflexivity.
  - vm_compute. split; congruence.
  - apply demo_no_collision.
  - apply demo_metadata_ok.
  - vm_compute. split; congruence.
  - constructor; [split; vm_compute; reflexivity|constructor].
  - vm_compute. repeat constructor. intros exec [= <-]. repeat constructor.
  - vm_compute. reflexivity.
  - left. vm_compute. reflexivity.
Defined.

Lemma resourceless_batch_empty_root_witness :
  exists pb bt,
    prove demo_store [] 1 = Ok pb /\ BatchTransition.prev_state bt = EMPTY_HASH /\
    Tree.root demo_store 1 <> EMPTY_HASH.
Proof.
  destruct (@resourceless_batch_empty_root [] toy_seq toy_hasher mem_store _ demo_store 1 (fun _ _ => true)
    demo_pins demo_metadata zero32 0 demo_metadata_ok) as (pb & bt & Hp & _ & Hb & _).
  - vm_compute. split; congruence.
  - reflexivity.
  - exists pb, bt. split; [exact Hp|]. split; [exact Hb|]. vm_compute. discriminate.
Defined.
