(* ===== verification/AbiAggregator.v ===== *)
(** * AbiAggregator: the batch aggregator of the guest ABI

    [zk/abi/src/batch_aggregator]: the aggregator's inputs with the lane proof, the bundle's
    settlement journal, and the [Verifier] that chains the batch transitions of a bundle. *)

From S2P Require Import Prelude Codec Types AbiCore AbiTx AbiBatch.

(** ** input/lane_proof.rs *)

Inductive ProofTerminal :=
| Full
| Collapsed (depth : byte)
| CollapsedOther (depth : byte) (lane_key leaf_hash : array 32).

Record LaneSmtProof := { bitmap : array 32; terminal : ProofTerminal; lane_siblings : list (array 32) }.

(** [kaspa_smt]: the terminal tags of its proofs, and the root a proof computes for a lane's leaf. *)
Class LaneSmt := {
  FULL_TAG : byte;
  COLLAPSED_TAG : byte;
  COLLAPSED_OTHER_TAG : byte;
  lane_compute_root : LaneSmtProof -> array 32 -> option (array 32) -> option (array 32)
}.

Module LaneProof.
Record t := {
  payload_and_ctx_digest : array 32;
  prev_seq_commit : array 32;
  inactivity_shortcut : array 32;
  lane_smt_proof : LaneSmtProof
}.

Definition decode_terminal `{LaneSmt} : parser ProofTerminal :=
  tag ← Reader.read_byte "tag";
  if bool_decide (tag = FULL_TAG) then mret Full
  else if bool_decide (tag = COLLAPSED_TAG) then
    depth ← Reader.read_byte "depth"; mret (Collapsed depth)
  else if bool_decide (tag = COLLAPSED_OTHER_TAG) then
    depth ← Reader.read_byte "depth";
    lane_key ← Reader.array_as (T := array 32) "lane_key";
    leaf_hash ← Reader.array_as (T := array 32) "leaf_hash";
    mret (CollapsedOther depth lane_key leaf_hash)
  else pfail (Decode "tag").

(** [<[Hash]>::try_ref_from_bytes]: a whole number of hashes. *)
Definition hashes_from_bytes (buf : bytes) : Result (list (array 32)) :=
  if length buf mod 32 =? 0
  then ok_or (Reader.cast_slice (T := array 32) (length buf / 32) buf) ZeroCopy
  else Err ZeroCopy.

Definition decode_smt_proof `{LaneSmt} (buf : bytes) : Result LaneSmtProof :=
  '(bm, buf) ← Reader.read_array 32 "bitmap" buf;
  '(term, buf) ← decode_terminal buf;
  siblings ← hashes_from_bytes buf;
  Ok {| bitmap := bm; terminal := term; lane_siblings := siblings |}.

Definition decode `{LaneSmt} : parser t :=
  payload_and_ctx_digest ← Reader.array_as (T := array 32) "payload_and_ctx_digest";
  prev_seq_commit ← Reader.array_as (T := array 32) "prev_seq_commit";
  inactivity_shortcut ← Reader.array_as (T := array 32) "inactivity_shortcut";
  proof_bytes ← Reader.blob "lane_smt_proof";
  lane_smt_proof ← plift (decode_smt_proof proof_bytes);
    mret {| payload_and_ctx_digest := payload_and_ctx_digest; prev_seq_commit := prev_seq_commit;
           inactivity_shortcut := inactivity_shortcut; lane_smt_proof := lane_smt_proof |}.

(** What the node's RPC answers. *)
Record response := {
  r_payload_and_ctx_digest : array 32;
  r_parent_seq_commit : array 32;
  r_inactivity_shortcut : array 32;
  r_smt_proof : bytes
}.

Definition encode (r : response) : bytes :=
  vec_to_list (r_payload_and_ctx_digest r) ++ vec_to_list (r_parent_seq_commit r) ++
  vec_to_list (r_inactivity_shortcut r) ++ Writer.write_blob (r_smt_proof r).
End LaneProof.

(** ** input/inputs.rs *)

Module AggregatorInputs.
Record t := { batch_image_id : array 32; lane_proof : LaneProof.t; batch_journals : bytes }.

Definition decode `{CastText} `{LaneSmt} (buf : bytes) : AResult t :=
  '(batch_image_id, buf) ← lift (Reader.read_array 32 "batch_image_id") buf;
  '(lane_proof, buf) ← lift LaneProof.decode buf;
  Ok {| batch_image_id := batch_image_id; lane_proof := lane_proof; batch_journals := buf |}.

Definition encode (batch_image_id : array 32) (r : LaneProof.response) (batch_journals : list bytes) : bytes :=
  vec_to_list batch_image_id ++ LaneProof.encode r ++ (batch_journals ≫= Writer.write_blob).
End AggregatorInputs.

(** ** journal/state_transition.rs *)

Module StateTransition.
Record t := {
  prev_state : array 32;
  prev_lane_tip : array 32;
  new_state : array 32;
  new_lane_tip : array 32;
  new_seq_commit : array 32;
  covenant_id : array 32;
  tx_image_id : array 32;
  batch_image_id : array 32;
  permission_spk_hash : array 32;
  deposit_spk_hash : array 32;
  lane_key : array 32
}.

Definition WIRE_SIZE : nat := 11 * 32.

Definition encode (args : t) : bytes :=
  vec_to_list (prev_state args) ++ vec_to_list (prev_lane_tip args) ++ vec_to_list (new_state args) ++
  vec_to_list (new_lane_tip args) ++ vec_to_list (new_seq_commit args) ++ vec_to_list (covenant_id args) ++
  vec_to_list (tx_image_id args) ++ vec_to_list (batch_image_id args) ++
  vec_to_list (permission_spk_hash args) ++ vec_to_list (deposit_spk_hash args) ++ vec_to_list (lane_key args).

Lemma encode_size args : length (encode args) = WIRE_SIZE.
Proof. unfold encode. by rewrite !length_app, !length_vec_to_list. Qed.
End StateTransition.

(** ** verifier.rs *)

Module Aggregator.
Section verifier.
Context `{CastText} `{SeqCommit} `{LaneSmt} {A : Type} `{ExitAccumulator A}.

(** Whether [verify_batch_journal] returns for an image id and journal bytes. *)
Context (verify_batch_journal : array 32 -> bytes -> bool).

Record t := {
  batch_image_id : array 32;
  lane_proof : LaneProof.t;
  first_batch : BatchTransition.t;
  remaining_batches : bytes;
  exits : A;
  deposit_spk_hash : array 32
}.

Definition carry_deposit_hash (carry batch_hash : array 32) : AResult (array 32) :=
  if bool_decide (batch_hash = zero32) then Ok carry
  else if bool_decide (carry = zero32) then Ok batch_hash
  else _ ← assert (bool_decide (carry = batch_hash)); Ok carry.

Definition verified_journal (image_id : array 32) (bs : bytes) : AResult BatchTransition.t :=
  _ ← assert (verify_batch_journal image_id bs);
  unwrap (BatchTransition.ref_from_bytes bs).

Definition new (input_bytes : bytes) (acc : A) : AResult t :=
  inputs ← unwrap (AggregatorInputs.decode input_bytes);
  '(entry, rest) ← expect (journals_next (AggregatorInputs.batch_journals inputs));
  bs ← unwrap entry;
  first ← verified_journal (AggregatorInputs.batch_image_id inputs) bs;
  Ok {| batch_image_id := AggregatorInputs.batch_image_id inputs;
        lane_proof := AggregatorInputs.lane_proof inputs; first_batch := first;
        remaining_batches := rest; exits := acc; deposit_spk_hash := zero32 |}.

(** The loop over a batch's exits; every exit takes at least one byte. *)
Fixpoint stream_exits (fuel : nat) (acc : A) (buf : bytes) : AResult A :=
  match fuel with
  | O => Panic
  | S fuel =>
      match exits_next buf with
      | None => Ok acc
      | Some exit =>
          '((dest, amount), rest) ← unwrap exit;
          stream_exits fuel (add_exit acc dest amount) rest
      end
  end.

Definition stream_batch_exits (acc : A) (batch : BatchTransition.t) : AResult A :=
  stream_exits (S (length (BatchTransition.exits batch))) acc (BatchTransition.exits batch).

Definition with_batch (v : t) (batch : BatchTransition.t) : AResult t :=
  acc ← stream_batch_exits (exits v) batch;
  carry ← carry_deposit_hash (deposit_spk_hash v) (BatchTransition.deposit_spk_hash batch);
  Ok {| batch_image_id := batch_image_id v; lane_proof := lane_proof v; first_batch := first_batch v;
        remaining_batches := remaining_batches v; exits := acc; deposit_spk_hash := carry |}.

(** The consistency of a batch with its predecessor. *)
Definition assert_chained (prev this : BatchTransition.t) : AResult unit :=
  _ ← assert (bool_decide (BatchTransition.lane_key this = BatchTransition.lane_key prev));
  _ ← assert (bool_decide (BatchTransition.covenant_id this = BatchTransition.covenant_id prev));
  _ ← assert (bool_decide (BatchTransition.tx_image_id this = BatchTransition.tx_image_id prev));
  _ ← assert (bool_decide (BatchTransition.prev_state this = BatchTransition.new_state prev));
  _ ← assert (BatchTransition.prev_lane_blue_score this =? BatchTransition.new_lane_blue_score prev)%Z;
  if (BatchTransition.lane_expired this =? 0)%Z
  then assert (bool_decide (BatchTransition.prev_lane_tip this = BatchTransition.new_lane_tip prev))
  else Ok tt.

Fixpoint chain_batches (v : t) (prev : BatchTransition.t) (entries : list (AResult bytes))
    : AResult (t * BatchTransition.t) :=
  match entries with
  | [] => Ok (v, prev)
  | entry :: entries =>
      bs ← unwrap entry;
      this ← verified_journal (batch_image_id v) bs;
      _ ← assert_chained prev this;
      v ← with_batch v this;
      chain_batches v this entries
  end.

Definition verify_batches (v : t) : AResult (t * BatchTransition.t) :=
  v ← with_batch v (first_batch v);
  chain_batches v (first_batch v) (journals (remaining_batches v)).

Definition new_seq_commit (v : t) (lane_key lane_tip : array 32) (blue_score : Z) : AResult (array 32) :=
  let new_lane_leaf := smt_leaf_hash lane_tip blue_score in
  new_lanes_root ← expect (lane_compute_root (LaneProof.lane_smt_proof (lane_proof v)) lane_key (Some new_lane_leaf));
  let activity_root := activity_root_hash (LaneProof.inactivity_shortcut (lane_proof v)) new_lanes_root in
  let state_root_seq := seq_state_root activity_root (LaneProof.payload_and_ctx_digest (lane_proof v)) in
  Ok (seq_commit (LaneProof.prev_seq_commit (lane_proof v)) state_root_seq).

Definition commit_state_transition (v : t) (last : BatchTransition.t) : AResult bytes :=
  let first := first_batch v in
  commit ← new_seq_commit v (BatchTransition.lane_key first) (BatchTransition.new_lane_tip last)
             (BatchTransition.new_lane_blue_score last);
  Ok (StateTransition.encode {|
    StateTransition.prev_state := BatchTransition.prev_state first;
    StateTransition.prev_lane_tip := BatchTransition.prev_lane_tip first;
    StateTransition.new_state := BatchTransition.new_state last;
    StateTransition.new_lane_tip := BatchTransition.new_lane_tip last;
    StateTransition.new_seq_commit := commit;
    StateTransition.covenant_id := BatchTransition.covenant_id first;
    StateTransition.tx_image_id := BatchTransition.tx_image_id first;
    StateTransition.batch_image_id := batch_image_id v;
    StateTransition.permission_spk_hash := acc_finalize (exits v);
    StateTransition.deposit_spk_hash := deposit_spk_hash v;
    StateTransition.lane_key := BatchTransition.lane_key first |}).

(** The batch-aggregator guest, for an exit accumulator's initial value. *)
Definition batch_aggregator (input_bytes : bytes) (acc : A) : AResult bytes :=
  v ← new input_bytes acc;
  '(v, last) ← verify_batches v;
  commit_state_transition v last.
End verifier.
Arguments t A : clear implicits.
End Aggregator.
