(* ===== verification/AggregateProofs.v ===== *)
(** * AggregateProofs: what a settled bundle means

    The aggregator's acceptance in declarative terms, the binding of state roots, and the
    composition of the aggregator with the batch guest. *)

From S2P Require Import Prelude Codec Types SmtNode SmtTrie SmtUpdate SmtTree SmtProof SmtSound SmtRoots SmtVerify.
From S2P Require Import SmtBuild AbiCore AbiTx L1Types AbiBatch AbiBatchProofs AbiAggregator.

(** ** State roots are binding *)

Section binding.
Context `{Hasher}.

Lemma trie_hash_inj L t1 t2 p1 p2 :
  no_collision L -> trie_preimages t1 ⊆ L -> trie_preimages t2 ⊆ L -> wf p1 t1 -> wf p2 t2 ->
  HashedNode.hash (summary t1) = HashedNode.hash (summary t2) -> t1 = t2.
Proof.
  intros Hnc. revert t2 p1 p2. induction t1 as [|k1 v1|l1 IHl r1 IHr]; intros t2 p1 p2 H1 H2 Hw1 Hw2 Hh;
    pose proof (summary_preimage _ _ Hw1) as Hs1; rewrite Hs1 in Hh; cbn [HashedNode.hash] in Hh.
  - destruct t2 as [|k v|l r]; [done|..]; pose proof (summary_preimage _ _ Hw2) as Hs2; rewrite Hs2 in Hh;
      destruct Hnc as [_ Hz]; exfalso; (eapply Hz; [|symmetry; exact Hh]); apply H2; cbn; set_solver.
  - pose proof (open_summary p2 t2 (HLeaf k1 v1) L Hw2 Hnc H2 ltac:(apply H1; cbn; set_solver) Hh) as Ho.
    destruct t2; [done| |done]. by injection Ho as -> ->.
  - pose proof (open_summary p2 t2 (pair_preimage (summary l1) (summary r1)) L Hw2 Hnc H2
      ltac:(apply H1; cbn; set_solver) Hh) as Ho.
    destruct t2 as [|k v|l2 r2]; [done|done|]. injection Ho as _ _ Hl Hr.
    destruct Hw1 as (_ & Hwl1 & Hwr1 & _), Hw2 as (_ & Hwl2 & Hwr2 & _). cbn [trie_preimages] in H1, H2. f_equal.
    + eapply IHl; [..|exact Hl]; [set_solver|set_solver|done|done].
    + eapply IHr; [..|exact Hr]; [set_solver|set_solver|done|done].
Qed.

(** The hash tells the trees of the two states apart. *)
Definition told_apart (m m' : state_map) : Prop :=
  no_collision (trie_preimages (trie_of m) ++ trie_preimages (trie_of m')).

Lemma root_of_inj m m' :
  map_Forall (fun _ v => v <> EMPTY_HASH) m -> map_Forall (fun _ v => v <> EMPTY_HASH) m' ->
  told_apart m m' -> root_of m = root_of m' -> m = m'.
Proof.
  intros Hm Hm' Hnc Hr. destruct (trie_of_spec m Hm) as [Hw Hl], (trie_of_spec m' Hm') as [Hw' Hl'].
  apply map_eq. intros k. rewrite <- Hl, <- Hl'. f_equal.
  eapply trie_hash_inj; [exact Hnc|set_solver|set_solver|exact Hw|exact Hw'|exact Hr].
Qed.
End binding.

(** ** The aggregator *)

(** A batch continues its predecessor. *)
Record chained (prev this : BatchTransition.t) : Prop := {
  ch_lane : BatchTransition.lane_key this = BatchTransition.lane_key prev;
  ch_covenant : BatchTransition.covenant_id this = BatchTransition.covenant_id prev;
  ch_image : BatchTransition.tx_image_id this = BatchTransition.tx_image_id prev;
  ch_state : BatchTransition.prev_state this = BatchTransition.new_state prev;
  ch_blue : BatchTransition.prev_lane_blue_score this = BatchTransition.new_lane_blue_score prev;
  ch_tip : BatchTransition.lane_expired this = 0%Z ->
           BatchTransition.prev_lane_tip this = BatchTransition.new_lane_tip prev
}.

Fixpoint chain_of (prev : BatchTransition.t) (bts : list BatchTransition.t) : Prop :=
  match bts with [] => True | this :: bts => chained prev this /\ chain_of this bts end.

(** [d] is the one deposit address of the batches, or zero when none has one. *)
Definition deposit_of (d : array 32) (bts : list BatchTransition.t) : Prop :=
  Forall (fun bt => BatchTransition.deposit_spk_hash bt = zero32 \/ BatchTransition.deposit_spk_hash bt = d) bts /\
  (d = zero32 \/ Exists (fun bt => BatchTransition.deposit_spk_hash bt = d) bts).

Section aggregate.
Context `{CastText} `{SeqCommit} `{LaneSmt} {A : Type} `{ExitAccumulator A}.

Lemma assert_chained_spec prev this u : Aggregator.assert_chained prev this = Ok u <-> chained prev this.
Proof.
  unfold Aggregator.assert_chained. split.
  - intros Hc. inv_ok.
    repeat match goal with H : bool_decide _ = true |- _ => apply bool_decide_eq_true in H end.
    constructor; try done; [by apply Z.eqb_eq|]. intros He. rewrite He in Hc. cbn in Hc.
    apply assert_Ok in Hc. by apply bool_decide_eq_true in Hc.
  - intros [C1 C2 C3 C4 C5 Ht]. rewrite (bool_decide_eq_true_2 _ C1), (bool_decide_eq_true_2 _ C2),
      (bool_decide_eq_true_2 _ C3), (bool_decide_eq_true_2 _ C4), (proj2 (Z.eqb_eq _ _) C5).
    cbn [assert mbind outcome_bind].
    destruct u. destruct (Z.eqb_spec (BatchTransition.lane_expired this) 0) as [He|]; [|done].
    by rewrite bool_decide_true by auto.
Qed.

(** The deposit fold over the remaining batches. *)
Fixpoint carry_all (carry : array 32) (bts : list BatchTransition.t) : AResult (array 32) :=
  match bts with
  | [] => Ok carry
  | bt :: bts => carry ← Aggregator.carry_deposit_hash carry (BatchTransition.deposit_spk_hash bt); carry_all carry bts
  end.

Lemma carry_all_spec bts carry d :
  carry_all carry bts = Ok d <->
  Forall (fun bt => BatchTransition.deposit_spk_hash bt = zero32 \/ BatchTransition.deposit_spk_hash bt = d) bts /\
  (carry = zero32 \/ carry = d) /\
  (d = carry \/ Exists (fun bt => BatchTransition.deposit_spk_hash bt = d) bts).
Proof.
  revert carry. induction bts as [|bt bts IH]; intros carry; cbn [carry_all].
  { rewrite Exists_nil. split; [intros [= <-]; auto|]. intros (_ & _ & [Hd|Hd]); [by rewrite Hd|done]. }
  rewrite Forall_cons, Exists_cons. unfold Aggregator.carry_deposit_hash.
  destruct (bool_decide_reflect (BatchTransition.deposit_spk_hash bt = zero32)) as [Hz|Hz].
  { cbn [mbind outcome_bind]. rewrite IH, Hz. split; [naive_solver|].
    intros ((_ & Hf) & Hc & Hd). split; [done|]. split; [done|]. destruct Hd as [Hd|[Hd|Hd]]; [by left| |by right].
    left. destruct Hc as [Hc|Hc]; congruence. }
  destruct (bool_decide_reflect (carry = zero32)) as [->|Hc].
  { cbn [mbind outcome_bind]. rewrite IH. split.
    - intros (Hf & [?|Hc] & Hd); [done|]. split; [by auto|]. split; [by auto|]. by right; left.
    - intros ((Hb & Hf) & _ & Hd). destruct Hb as [?|Hb]; [done|]. split; [done|]. split; [by right|]. by left. }
  destruct (bool_decide_reflect (carry = BatchTransition.deposit_spk_hash bt)) as [->|Hne]; cbn [assert mbind outcome_bind].
  - rewrite IH. naive_solver.
  - split; [done|]. intros ((Hb & _) & Hcd & _). destruct Hb as [?|Hb]; [done|]. destruct Hcd as [?|Hcd]; congruence.
Qed.

Definition add_exits (acc : A) (es : list (StandardSpk * Z)) : A := foldl (fun acc e => add_exit acc e.1 e.2) acc es.

Lemma stream_exits_spec fuel acc buf :
  Aggregator.stream_exits fuel acc buf
  = match exits_all fuel buf with Ok es => Ok (add_exits acc es) | _ => Panic end.
Proof.
  revert acc buf. induction fuel as [|fuel IH]; intros acc buf; [done|]. cbn [Aggregator.stream_exits exits_all].
  destruct (exits_next buf) as [[[[d a] rest]| |]|]; try done. cbn [unwrap mbind outcome_bind].
  rewrite IH. by destruct (exits_all fuel rest).
Qed.

Lemma last_cons {B} (x d : B) l : List.last (x :: l) d = List.last l x.
Proof. revert x d. induction l as [|y l IH]; intros x d; [done|]. etransitivity; [apply (IH y d)|symmetry; apply IH]. Qed.

(** A journal entry is proven for the image and is the transition [bt]. *)
Definition transition_of (verify : array 32 -> bytes -> bool) (image : array 32)
    (j : AResult bytes) (bt : BatchTransition.t) : Prop :=
  exists bs, j = Ok bs /\ verify image bs = true /\ BatchTransition.ref_from_bytes bs = Ok bt.

(** The exits of a transition, in order. *)
Definition exits_of (bt : BatchTransition.t) (es : list (StandardSpk * Z)) : Prop :=
  exits_all (S (length (BatchTransition.exits bt))) (BatchTransition.exits bt) = Ok es.

Lemma verified_journal_transition verify image bs bt :
  Aggregator.verified_journal verify image bs = Ok bt -> transition_of verify image (Ok bs) bt.
Proof. unfold Aggregator.verified_journal. intros Hj. inv_ok. by exists bs. Qed.

Lemma with_batch_spec (v v' : Aggregator.t A) bt :
  Aggregator.with_batch v bt = Ok v' ->
  exists es d, exits_of bt es /\
    Aggregator.carry_deposit_hash (Aggregator.deposit_spk_hash v) (BatchTransition.deposit_spk_hash bt) = Ok d /\
    v' = {| Aggregator.batch_image_id := Aggregator.batch_image_id v; Aggregator.lane_proof := Aggregator.lane_proof v;
            Aggregator.first_batch := Aggregator.first_batch v;
            Aggregator.remaining_batches := Aggregator.remaining_batches v;
            Aggregator.exits := add_exits (Aggregator.exits v) es; Aggregator.deposit_spk_hash := d |}.
Proof.
  unfold Aggregator.with_batch, Aggregator.stream_batch_exits. rewrite stream_exits_spec. intros Hw.
  apply bind_Ok in Hw as (acc & Ha & Hw). apply bind_Ok in Hw as (d & Hd & [= <-]).
  destruct (exits_all _ _) as [es| |] eqn:E; try done. injection Ha as <-. by exists es, d.
Qed.

Lemma add_exits_app acc es es' : add_exits acc (es ++ es') = add_exits (add_exits acc es) es'.
Proof. apply foldl_app. Qed.

Lemma chain_batches_sound verify entries (v v' : Aggregator.t A) prev last :
  Aggregator.chain_batches verify v prev entries = Ok (v', last) ->
  exists bts ess d, Forall2 (transition_of verify (Aggregator.batch_image_id v)) entries bts /\
    chain_of prev bts /\ Forall2 exits_of bts ess /\ carry_all (Aggregator.deposit_spk_hash v) bts = Ok d /\
    last = List.last bts prev /\
    v' = {| Aggregator.batch_image_id := Aggregator.batch_image_id v; Aggregator.lane_proof := Aggregator.lane_proof v;
            Aggregator.first_batch := Aggregator.first_batch v;
            Aggregator.remaining_batches := Aggregator.remaining_batches v;
            Aggregator.exits := add_exits (Aggregator.exits v) (concat ess); Aggregator.deposit_spk_hash := d |}.
Proof.
  revert v prev. induction entries as [|entry entries IH]; intros v prev Hc.
  { injection Hc as <- <-. exists [], [], (Aggregator.deposit_spk_hash v). by destruct v. }
  cbn [Aggregator.chain_batches] in Hc. apply bind_Ok in Hc as (bs & ->%unwrap_inv & Hc).
  apply bind_Ok in Hc as (this & Hj%verified_journal_transition & Hc).
  apply bind_Ok in Hc as (u & Hch%assert_chained_spec & Hc). apply bind_Ok in Hc as (v1 & Hw & Hc).
  apply with_batch_spec in Hw as (es & d1 & Hes & Hd1 & ->).
  destruct (IH _ _ Hc) as (bts & ess & d & Hjs & Hcs & Hess & Hd & -> & ->).
  exists (this :: bts), (es :: ess), d. split; [by constructor|]. split; [done|]. split; [by constructor|].
  cbn [carry_all]. rewrite Hd1. split; [done|]. split; [symmetry; apply last_cons|]. cbn [concat]. by rewrite add_exits_app.
Qed.
End aggregate.

(** What acceptance by the aggregator means. *)
Lemma aggregate_spec `{CastText} `{SeqCommit} `{LaneSmt} {A : Type} `{ExitAccumulator A} verify input (acc : A) journal :
  Aggregator.batch_aggregator verify input acc = Ok journal ->
  exists i first bts ess d lanes_root,
    AggregatorInputs.decode input = Ok i /\
    Forall2 (transition_of verify (AggregatorInputs.batch_image_id i))
      (journals (AggregatorInputs.batch_journals i)) (first :: bts) /\
    chain_of first bts /\ Forall2 exits_of (first :: bts) ess /\ deposit_of d (first :: bts) /\
    let last := List.last bts first in
    let lp := AggregatorInputs.lane_proof i in
    lane_compute_root (LaneProof.lane_smt_proof lp) (BatchTransition.lane_key first)
      (Some (smt_leaf_hash (BatchTransition.new_lane_tip last) (BatchTransition.new_lane_blue_score last)))
    = Some lanes_root /\
    journal = StateTransition.encode {|
      StateTransition.prev_state := BatchTransition.prev_state first;
      StateTransition.prev_lane_tip := BatchTransition.prev_lane_tip first;
      StateTransition.new_state := BatchTransition.new_state last;
      StateTransition.new_lane_tip := BatchTransition.new_lane_tip last;
      StateTransition.new_seq_commit :=
        seq_commit (LaneProof.prev_seq_commit lp)
          (seq_state_root (activity_root_hash (LaneProof.inactivity_shortcut lp) lanes_root)
             (LaneProof.payload_and_ctx_digest lp));
      StateTransition.covenant_id := BatchTransition.covenant_id first;
      StateTransition.tx_image_id := BatchTransition.tx_image_id first;
      StateTransition.batch_image_id := AggregatorInputs.batch_image_id i;
      StateTransition.permission_spk_hash := acc_finalize (add_exits acc (concat ess));
      StateTransition.deposit_spk_hash := d;
      StateTransition.lane_key := BatchTransition.lane_key first |}.
Proof.
  intros Hb. unfold Aggregator.batch_aggregator in Hb. apply bind_Ok in Hb as (v & Hnew & Hb).
  apply bind_Ok in Hb as ([v2 last] & Hv & Hb). unfold Aggregator.new in Hnew.
  apply bind_Ok in Hnew as (i & Hi%unwrap_inv & Hnew). apply bind_Ok in Hnew as ([entry rest] & Hn%expect_Ok & Hnew).
  apply bind_Ok in Hnew as (bs & ->%unwrap_inv & Hnew).
  apply bind_Ok in Hnew as (first & Hfirst%verified_journal_transition & [= <-]).
  unfold Aggregator.verify_batches in Hv. apply bind_Ok in Hv as (v1 & Hw & Hv).
  apply with_batch_spec in Hw as (es & d1 & Hes & Hd1 & ->).
  apply chain_batches_sound in Hv as (bts & ess & d & Hjs & Hcs & Hess & Hd & -> & ->).
  apply bind_Ok in Hb as (commit & Hc & [= <-]). apply bind_Ok in Hc as (lanes_root & Hlr%expect_Ok & [= <-]).
  exists i, first, bts, (es :: ess), d, lanes_root. split; [done|]. split; [rewrite journals_step, Hn; by constructor|].
  split; [done|]. split; [by constructor|]. split; [|split; [done|]].
  - assert (carry_all zero32 (first :: bts) = Ok d) as Hca by 
      (cbn [Aggregator.deposit_spk_hash Aggregator.first_batch] in Hd1, Hd; cbn [carry_all]; by rewrite Hd1).
    apply carry_all_spec in Hca as (Hf & _ & Hx). done.
  - change (concat (es :: ess)) with (es ++ concat ess). by rewrite add_exits_app.
Qed.

(** ** A bundle of batches, end to end *)

(** One run of the batch guest: its input, decoded, and the state its proof is verified against. *)
Record batch_run := { br_input : bytes; br_inputs : BatchInputs.t; br_state : state_map }.

Section bundle.
Context `{CastText} `{SeqCommit} `{LaneSmt} `{Hasher} {A : Type} `{ExitAccumulator A}.
Context (verify_tx : array 32 -> bytes -> bool).

(** The journal entry is the output of the batch guest on a run with a sound state proof. *)
Definition run_journal (j : AResult bytes) (r : batch_run) : Prop :=
  exists bs, j = Ok bs /\ Verifier.batch_processor verify_tx (br_input r) = Ok bs /\
    BatchInputs.decode (br_input r) = Ok (br_inputs r) /\
    verified (BatchInputs.proof (br_inputs r)) (br_state r) /\
    well_formed (BatchInputs.proof (br_inputs r)) = true.

(** The runs settle the state [m] to [m'], batch after batch, with the given exits. *)
Inductive bundle_settles : state_map -> list batch_run -> list bytes -> state_map -> Prop :=
| bundle_nil m : bundle_settles m [] [] m
| bundle_cons r runs es l exs m' :
    batch_settles verify_tx (br_inputs r) (br_state r) es l ->
    bundle_settles (l_state l) runs exs m' ->
    bundle_settles (br_state r) (r :: runs) (l_exits l :: exs) m'.

(** The hash tells each batch's final tree from the next batch's initial one. *)
Fixpoint separated (runs : list batch_run) : Prop :=
  match runs with
  | [] => True
  | r :: rest =>
      match rest with
      | [] => True
      | r' :: _ => forall es l, batch_settles verify_tx (br_inputs r) (br_state r) es l -> told_apart (l_state l) (br_state r')
      end /\ separated rest
  end.

Lemma write_output_live m k o :
  map_Forall (fun _ v => v <> EMPTY_HASH) m -> map_Forall (fun _ v => v <> EMPTY_HASH) (write_output m k o).
Proof.
  intros Hm. destruct o as [h|]; [|done]. cbn. unfold apply_commitment. cbn. case_decide.
  - by apply map_Forall_delete.
  - by apply map_Forall_insert_2.
Qed.

Lemma apply_resources_live rs outs m m' :
  map_Forall (fun _ v => v <> EMPTY_HASH) m -> apply_resources m rs outs = Some m' ->
  map_Forall (fun _ v => v <> EMPTY_HASH) m'.
Proof.
  revert outs m. induction rs as [|r rs IH]; intros outs m Hm Ha; destruct outs as [[|o os]|]; cbn in Ha; simplify_eq; try done.
  - case_decide; [|done]. eapply IH; [|exact Ha]. by apply write_output_live.
  - case_decide; [|done]. by eapply IH.
Qed.

Lemma settle_all_live ctx es l l' :
  map_Forall (fun _ v => v <> EMPTY_HASH) (l_state l) -> settle_all ctx l es = Some l' ->
  map_Forall (fun _ v => v <> EMPTY_HASH) (l_state l').
Proof.
  revert l. induction es as [|e es IH]; intros l Hl Hs; [by injection Hs as <-|].
  cbn [settle_all] in Hs. apply bind_Some in Hs as (l1 & Hl1 & Hs). eapply IH; [|exact Hs].
  unfold settle_tx in Hl1. destruct (match l_last l with Some _ => _ | None => _ end); [|done].
  apply bind_Some in Hl1 as ([[m ex] d] & Hm & [= <-]). cbn.
  destruct (InputCommitment.execution_context _) as [exec|].
  - unfold settle_execution in Hm. case_decide; [|done]. destruct (output_commitment e).
    + repeat case_match; try done. apply bind_Some in Hm as (m1 & Ha & [= <- _ _]). by eapply apply_resources_live.
    + apply bind_Some in Hm as (m1 & Ha & [= <- _ _]). by eapply apply_resources_live.
  - destruct (output_commitment e) as [|[code|]]; try done. case_decide; [|done]. by injection Hm as <- _ _.
Qed.

(** The scores of a decoded input fit their width. *)
Lemma batch_decode_range buf b rest :
  Batch.decode buf = Ok (b, rest) -> u64 (Batch.blue_score b) /\ u64 (Batch.prev_lane_blue_score b).
Proof.
  unfold Batch.decode. intros Hb.
  repeat (apply pbind_Ok in Hb as (? & ? & ? & Hb)). injection Hb as <- _. cbn.
  repeat match goal with Hr : Reader.le_u64 _ _ = Ok _ |- _ => apply le_uint_Ok in Hr as [_ Hr] end. done.
Qed.

Lemma inputs_range input i :
  BatchInputs.decode input = Ok i ->
  u64 (Batch.blue_score (BatchInputs.batch i)) /\ u64 (Batch.prev_lane_blue_score (BatchInputs.batch i)).
Proof.
  unfold BatchInputs.decode, on_slice. intros Hd. apply fmap_fst_Ok in Hd as [rest Hd].
  do 6 (apply abind_Ok in Hd as (? & ? & _ & Hd)). apply abind_Ok in Hd as (b & ? & Hb%lift_Ok & [= <- _]).
  by apply batch_decode_range in Hb.
Qed.

Lemma run_transition j r bt verify image :
  run_journal j r -> transition_of verify image j bt ->
  exists es l, batch_settles verify_tx (br_inputs r) (br_state r) es l /\
    bt = settled_transition (br_inputs r) (br_state r) l.
Proof.
  intros (bs & -> & Hb & Hi & Hver & Hwf) (bs' & [= <-] & _ & Hbt).
  unfold Verifier.batch_processor in Hb. apply bind_Ok in Hb as (v & Hv & Hb).
  destruct (new_spec _ _ Hv) as (ms & Hd & Hp & Hms & Heq). rewrite Hi in Hd. injection Hd as Hd.
  unfold proof_of in *. rewrite Hd in Hver, Hwf.
  apply (verify_commit_spec _ (br_state r) v ms) in Hb as (es & l & Hset & _ & ->); [|done..].
  exists es, l. rewrite Hd. split; [done|]. rewrite BatchTransition.ref_from_encode in Hbt; [by injection Hbt as <-|].
  destruct (inputs_range _ _ Hi) as [Hblue Hlane]. rewrite Hd in Hblue, Hlane.
  constructor; cbn; [done| |by destruct (Batch.lane_expired _)].
  by destruct (Batch.tx_journals _).
Qed.

Lemma runs_settle runs bts r bt :
  Forall2 (fun r bt => map_Forall (fun _ v => v <> EMPTY_HASH) (br_state r) /\
             exists es l, batch_settles verify_tx (br_inputs r) (br_state r) es l /\
             bt = settled_transition (br_inputs r) (br_state r) l) (r :: runs) (bt :: bts) ->
  chain_of bt bts -> separated (r :: runs) ->
  exists m', bundle_settles (br_state r) (r :: runs) (BatchTransition.exits <$> bt :: bts) m' /\
    BatchTransition.new_state (List.last bts bt) = root_of m'.
Proof.
  revert r bt bts. induction runs as [|r' runs IH]; intros r bt bts Hf Hc Hs;
    apply Forall2_cons in Hf as [[Hlive (es & l & Hset & ->)] Hf].
  { apply Forall2_nil_inv_l in Hf as ->. exists (l_state l). split; [|done]. cbn. econstructor; [done|]. constructor. }
  destruct bts as [|bt' bts]; [by apply Forall2_nil_inv_r in Hf|]. destruct Hc as [Hch Hc]. destruct Hs as [Hsep Hs].
  destruct (IH r' bt' bts Hf Hc Hs) as (m' & Hm' & Hlast).
  apply Forall2_cons in Hf as [[Hlive' (es' & l' & Hset' & Hbt')] _].
  assert (l_state l = br_state r') as Heq.
  { apply root_of_inj; [|done|by apply (Hsep es)|].
    - eapply (settle_all_live _ _ (ledger_of (br_state r))); [exact Hlive|apply Hset].
    - pose proof (ch_state _ _ Hch) as Hst. rewrite Hbt' in Hst. symmetry. exact Hst. }
  exists m'. split; [|by rewrite last_cons]. rewrite fmap_cons. cbn [settled_transition BatchTransition.exits].
  econstructor; [exact Hset|]. by rewrite Heq.
Qed.
End bundle.
