(* ===== verification/BundleTheorems.v ===== *)
(** * BundleTheorems: the guarantees of the batch aggregator

    What an accepted bundle means for its transitions, and, composed with the batch guest, for the
    state: the settlement journal moves the root of one state to the root of the state reached by
    settling every transaction of every batch in order. *)

From S2P Require Import Prelude Codec Types SmtNode SmtTrie SmtUpdate SmtTree SmtProof SmtSound SmtRoots SmtVerify.
From S2P Require Import SmtBuild AbiCore AbiTx L1Types AbiBatch AbiBatchProofs BatchTheorems AbiAggregator AggregateProofs.

(** An accepted bundle is a chain. When the aggregator accepts, every batch journal is proven
    for the declared batch image and is a transition; each transition continues its predecessor's
    state root, lane score, lane tip (unless the lane expired), lane, covenant and transaction
    image; the settlement journal goes from the first transition's state and tip to the last
    one's, commits to all exits in order and to the one deposit address of the bundle, and derives
    the sequencing commitment from the last tip and the lane proof. *)
Theorem aggregate_sound `{CastText} `{SeqCommit} `{LaneSmt} {A : Type} `{ExitAccumulator A} verify input (acc : A) journal :
  Aggregator.batch_aggregator verify input acc = Ok journal ->
  exists i first bts ess d lanes_root,
    AggregatorInputs.decode input = Ok i /\
    Forall2 (transition_of verify (AggregatorInputs.batch_image_id i))
      (journals (AggregatorInputs.batch_journals i)) (first :: bts) /\
    chain_of first bts /\ Forall2 exits_of (first :: bts) ess /\ deposit_of d (first :: bts) /\
    let last := List.last bts first in
    let lp := AggregatorInputs.lane_proof i in
    lane_compute_root (LaneProof.lane_smt_proof lp) (BatchTransition.lane_key first)
      (Some (smt_leaf_hash (BatchTransition.new_lane_tip last) (BatchTransition.new_lane_blue_score last)))
    = Some lanes_root /\
    journal = StateTransition.encode {|
      StateTransition.prev_state := BatchTransition.prev_state first;
      StateTransition.prev_lane_tip := BatchTransition.prev_lane_tip first;
      StateTransition.new_state := BatchTransition.new_state last;
      StateTransition.new_lane_tip := BatchTransition.new_lane_tip last;
      StateTransition.new_seq_commit :=
        seq_commit (LaneProof.prev_seq_commit lp)
          (seq_state_root (activity_root_hash (LaneProof.inactivity_shortcut lp) lanes_root)
             (LaneProof.payload_and_ctx_digest lp));
      StateTransition.covenant_id := BatchTransition.covenant_id first;
      StateTransition.tx_image_id := BatchTransition.tx_image_id first;
      StateTransition.batch_image_id := AggregatorInputs.batch_image_id i;
      StateTransition.permission_spk_hash := acc_finalize (add_exits acc (concat ess));
      StateTransition.deposit_spk_hash := d;
      StateTransition.lane_key := BatchTransition.lane_key first |}.
Proof. apply aggregate_spec. Qed.

Lemma bundle_settled `{CastText} `{SeqCommit} `{LaneSmt} `{Hasher} {A : Type} `{ExitAccumulator A}
    verify_tx verify_batch input i (acc : A) journal r runs :
  Aggregator.batch_aggregator verify_batch input acc = Ok journal ->
  AggregatorInputs.decode input = Ok i ->
  Forall2 (run_journal verify_tx) (journals (AggregatorInputs.batch_journals i)) (r :: runs) ->
  separated verify_tx (r :: runs) ->
  exists m' exs ess st,
    bundle_settles verify_tx (br_state r) (r :: runs) exs m' /\
    Forall2 (fun ex es => exits_all (S (length ex)) ex = Ok es) exs ess /\
    journal = StateTransition.encode st /\
    StateTransition.prev_state st = root_of (br_state r) /\
    StateTransition.new_state st = root_of m' /\
    StateTransition.permission_spk_hash st = acc_finalize (add_exits acc (concat ess)).
Proof.
  intros Ha Hi Hr Hs.
  destruct (aggregate_spec _ _ _ _ Ha) as (i' & bt & bts & ess & d & lr & Hi' & Ht & Hc & He & _ & _ & ->).
  rewrite Hi in Hi'. injection Hi' as <-.
  assert (Forall2 (fun r bt => map_Forall (fun _ v => v <> EMPTY_HASH) (br_state r) /\
    exists es l, batch_settles verify_tx (br_inputs r) (br_state r) es l /\
      bt = settled_transition (br_inputs r) (br_state r) l) (r :: runs) (bt :: bts)) as Hf.
  { apply Forall2_same_length_lookup. split.
    - by rewrite <- (Forall2_length _ _ _ Hr), (Forall2_length _ _ _ Ht).
    - intros k x y Hx Hy. destruct (Forall2_lookup_r _ _ _ _ _ Hr Hx) as (j & Hj & Hrun).
      destruct (Forall2_lookup_l _ _ _ _ _ Ht Hj) as (y' & Hy' & Htr). rewrite Hy in Hy'. injection Hy' as <-.
      split; [|by eapply run_transition]. destruct Hrun as (_ & _ & _ & _ & [Hm _] & _). exact Hm. }
  destruct (runs_settle _ _ _ _ _ Hf Hc Hs) as (m' & Hset & Hlast).
  eexists m', _, ess, _. split; [exact Hset|]. split; [by apply Forall2_fmap_l|]. split; [reflexivity|].
  cbn. split; [|done]. apply Forall2_cons in Hf as [(_ & es & l & _ & ->) _]. done.
Qed.

(** C4: a settled bundle is the sequential execution of its batches. When the aggregator accepts
    and its batch journals are outputs of the batch guest on inputs with sound state proofs, the
    batches settle one after the other, each on exactly the state its predecessor left, and the
    settlement journal goes from the root of the first state to the root of the last one and
    commits to the exits of all transactions in order. *)
Theorem bundle_sound `{CastText} `{SeqCommit} `{LaneSmt} `{Hasher} {A : Type} `{ExitAccumulator A}
    verify_tx verify_batch input i (acc : A) journal r runs :
  Aggregator.batch_aggregator verify_batch input acc = Ok journal ->
  AggregatorInputs.decode input = Ok i ->
  Forall2 (run_journal verify_tx) (journals (AggregatorInputs.batch_journals i)) (r :: runs) ->
  separated verify_tx (r :: runs) ->
  exists m' exs ess st,
    bundle_settles verify_tx (br_state r) (r :: runs) exs m' /\
    Forall2 (fun ex es => exits_all (S (length ex)) ex = Ok es) exs ess /\
    journal = StateTransition.encode st /\
    StateTransition.prev_state st = root_of (br_state r) /\
    StateTransition.new_state st = root_of m' /\
    StateTransition.permission_spk_hash st = acc_finalize (add_exits acc (concat ess)).
Proof. apply bundle_settled. Qed.

(** ** Witnesses *)

Definition toy_lane_smt : LaneSmt :=
  {| FULL_TAG := Byte.x00; COLLAPSED_TAG := Byte.x01; COLLAPSED_OTHER_TAG := Byte.x02;
     lane_compute_root p k leaf :=
       (fun l => @hash toy_hasher (vec_to_list (bitmap p) ++ vec_to_list k ++ vec_to_list l)) <$> leaf |}.

(** An accumulator that sums the amounts. *)
Definition toy_exits : ExitAccumulator Z :=
  {| add_exit acc _ amount := (acc + amount)%Z; acc_finalize acc := Vector.append (le_split 8 acc) (vreplicate 24 Byte.x00) |}.

Definition run_batch (input : bytes) : bytes :=
  match @Verifier.batch_processor [] toy_seq demo_verify toy_hasher input with Ok j => j | _ => [] end.
Definition first_journal : bytes := Eval vm_compute in run_batch demo_input.
Definition transition_read (j : bytes) : BatchTransition.t :=
  match BatchTransition.ref_from_bytes j with
  | Ok bt => bt
  | _ => @settled_transition toy_seq toy_hasher (inputs_of demo_pins demo_proof demo_metadata []) ∅ (ledger_of ∅)
  end.

(** The first batch is that of the demonstration transaction; the second has none. *)
Definition first_run : batch_run :=
  {| br_input := demo_input; br_inputs := inputs_of demo_pins demo_proof demo_metadata [demo_journal];
     br_state := demo_map |}.

(** The state the first batch leaves. *)
Definition second_state : state_map :=
  <[vreplicate 32 Byte.x01 := @hash toy_hasher [Byte.x2a; Byte.x00; Byte.x00; Byte.x00]]>
  (<[vreplicate 32 Byte.x81 := @hash toy_hasher [Byte.x01; Byte.x00; Byte.x00; Byte.x00]]> ∅).

Definition second_store : mem_store :=
  commit demo_store
    match Tree.update (H := toy_hasher) demo_store
            ((fun kv => {| key := kv.1; value_hash := kv.2 |}) <$> map_to_list second_state) 2 with
    | Ok (_, ops) => ops | _ => []
    end.
Definition second_proof_bytes : bytes := Eval vm_compute in match prove second_store demo_keys 2 with Ok bs => bs | _ => [] end.
Definition second_proof : Proof.t := Eval vm_compute in match Proof.decode second_proof_bytes with Ok p => p | _ => demo_proof end.
Definition second_metadata : ChainBlockMetadata := Eval vm_compute in
  let bt := transition_read first_journal in
  let d := ChainBlockMetadata_default in
  {| cb_hash := cb_hash d; cb_parent_id := 1; cb_blue_score := 8; cb_daa_score := 7; cb_timestamp := 10;
     cb_prev_timestamp := 9; cb_lane_key := cb_lane_key d; cb_seq_commit := cb_seq_commit d;
     cb_prev_seq_commit := cb_prev_seq_commit d;
     cb_prev_lane_blue_score := BatchTransition.new_lane_blue_score bt; cb_lane_blue_score := 7;
     cb_prev_lane_tip := BatchTransition.new_lane_tip bt; cb_lane_tip := cb_lane_tip d;
     cb_lane_expired := false; cb_last_settlement := None |}.
Definition second_input : bytes := Eval vm_compute in BatchInputs.encode demo_pins second_proof_bytes second_metadata [].
Definition second_journal : bytes := Eval vm_compute in run_batch second_input.
Definition second_run : batch_run :=
  {| br_input := second_input; br_inputs := inputs_of demo_pins second_proof second_metadata [];
     br_state := second_state |}.

Definition bundle_input : bytes :=
  AggregatorInputs.encode (fill Byte.x44)
    {| LaneProof.r_payload_and_ctx_digest := zero32; LaneProof.r_parent_seq_commit := zero32;
       LaneProof.r_inactivity_shortcut := zero32;
       LaneProof.r_smt_proof := vec_to_list zero32 ++ [Byte.x00] |}
    [first_journal; second_journal].
Definition bundle_journal : bytes := Eval vm_compute in
  match @Aggregator.batch_aggregator [] toy_seq toy_lane_smt Z toy_exits (fun _ _ => true) bundle_input 0%Z with
  | Ok j => j | _ => []
  end.
Definition bundle_inputs : AggregatorInputs.t :=
  {| AggregatorInputs.batch_image_id := fill Byte.x44;
     AggregatorInputs.lane_proof :=
       {| LaneProof.payload_and_ctx_digest := zero32; LaneProof.prev_seq_commit := zero32;
          LaneProof.inactivity_shortcut := zero32;
          LaneProof.lane_smt_proof := {| bitmap := zero32; terminal := Full; lane_siblings := [] |} |};
     AggregatorInputs.batch_journals :=
       [first_journal; second_journal] ≫= Writer.write_blob |}.

Lemma bundle_accepted :
  @Aggregator.batch_aggregator [] toy_seq toy_lane_smt Z toy_exits (fun _ _ => true) bundle_input 0%Z = Ok bundle_journal.
Proof. vm_compute. reflexivity. Qed.

Lemma aggregate_sound_witness :
  exists i first bts, @AggregatorInputs.decode [] toy_lane_smt bundle_input = Ok i /\ chain_of first bts.
Proof.
  destruct (@aggregate_sound [] toy_seq toy_lane_smt Z toy_exits (fun _ _ => true) bundle_input 0%Z bundle_journal
    bundle_accepted) as (i & first & bts & _ & _ & _ & Hi & _ & Hc & _).
  exists i, first, bts. split; [exact Hi|exact Hc].
Defined.

Lemma demo_ledger_state : l_state demo_ledger = second_state.
Proof. apply (bool_decide_eq_true_1 _). vm_compute. reflexivity. Qed.

Lemma first_run_ledger es l :
  @batch_settles [] toy_seq demo_verify (br_inputs first_run) (br_state first_run) es l -> l = demo_ledger.
Proof.
  intros [Hj Hs _]. cbn [first_run br_inputs br_state inputs_of BatchInputs.batch BatchInputs.tx_image_id] in *.
  change (Batch.tx_journals (batch_of demo_metadata [demo_journal])) with ([demo_journal] ≫= Writer.write_blob) in Hj.
  rewrite journals_encode in Hj by (repeat constructor; vm_compute; congruence).
  apply Forall2_cons_inv_l in Hj as (e & es' & (bs & Hb%Ok_inj & _ & He) & ->%Forall2_nil_inv_l & ->).
  rewrite <- Hb in He. assert (demo_entries = [e]) as Hes.
  { assert (@journal_decode [] demo_journal = Ok (default e (head demo_entries))) as He' by (vm_compute; reflexivity).
    rewrite He in He'. apply Ok_inj in He'. rewrite He'. reflexivity. }
  unfold demo_ledger. rewrite Hes, Hs. reflexivity.
Qed.

Lemma run_journal_demo :
  @run_journal [] toy_seq toy_hasher demo_verify (Ok first_journal) first_run.
Proof.
  exists first_journal. split; [done|]. split; [vm_compute; reflexivity|].
  split; [vm_compute; reflexivity|]. split; [|vm_compute; reflexivity].
  split; [by eapply represents_live, demo_represents|]. split; [vm_compute; reflexivity|apply demo_no_collision].
Qed.

Lemma run_journal_second :
  @run_journal [] toy_seq toy_hasher demo_verify (Ok second_journal) second_run.
Proof.
  exists second_journal. split; [done|]. split; [vm_compute; reflexivity|].
  split; [vm_compute; reflexivity|]. split; [|vm_compute; reflexivity].
  split; [apply (bool_decide_unpack _); vm_compute; exact I|].
  split; [vm_compute; reflexivity|apply no_collisionb_spec; vm_compute; reflexivity].
Qed.

Lemma bundle_sound_witness :
  exists m' exs st,
    @bundle_settles [] toy_seq demo_verify demo_map [first_run; second_run] exs m' /\
    StateTransition.prev_state st = root_of (H := toy_hasher) demo_map /\
    StateTransition.new_state st = root_of (H := toy_hasher) m'.
Proof.
  destruct (@bundle_sound [] toy_seq toy_lane_smt toy_hasher Z toy_exits demo_verify (fun _ _ => true) bundle_input
    bundle_inputs 0%Z bundle_journal first_run [second_run] bundle_accepted)
    as (m' & exs & ess & st & Hset & _ & _ & Hp & Hn & _).
  - vm_compute. reflexivity.
  - change (AggregatorInputs.batch_journals bundle_inputs)
      with ([first_journal; second_journal] ≫= Writer.write_blob).
    rewrite journals_encode by (repeat constructor; vm_compute; congruence).
    constructor; [apply run_journal_demo|]. constructor; [apply run_journal_second|constructor].
  - split; [|split; [exact I|exact I]]. intros es l Hl. rewrite (first_run_ledger es l Hl), demo_ledger_state.
    apply no_collisionb_spec. vm_compute. reflexivity.
  - exists m', exs, st. split; [exact Hset|]. split; [exact Hp|exact Hn].
Defined.
