(* ===== verification/RtLock.v ===== *)
(** * RtLock: locks of the runtime processor

    [zk/backend/risc0/runtime-processor]: hash domains, resource kinds and ids, the lock variants
    with their wire form and their matching against resolved unlockers, and the codec of lock
    bodies in stored resources. *)

From S2P Require Import Prelude Codec Types AbiCore.

(** ** kind.rs, domain.rs, pubkey.rs, genesis.rs *)

Definition KIND_CONFIG : byte := Byte.x00.
Definition KIND_USER : byte := Byte.x01.
Definition kind_of (l : bytes) : option byte := head l.

Inductive Domain := ProgramResource | UserResource | SigMessage | LockId.

Definition Domain_as_u8 (d : Domain) : byte :=
  match d with ProgramResource => Byte.x00 | UserResource => Byte.x01 | SigMessage => Byte.x02 | LockId => Byte.x03 end.

Inductive Pubkey := PkSchnorr (k : array 32).

Definition GENESIS_PUBKEY : Pubkey := PkSchnorr
  [# Byte.xf9; Byte.x30; Byte.x8a; Byte.x01; Byte.x92; Byte.x58; Byte.xc3; Byte.x10;
     Byte.x49; Byte.x34; Byte.x4f; Byte.x85; Byte.xf8; Byte.x9d; Byte.x52; Byte.x29;
     Byte.xb5; Byte.x31; Byte.xc8; Byte.x45; Byte.x83; Byte.x6f; Byte.x99; Byte.xb0;
     Byte.x86; Byte.x01; Byte.xf1; Byte.x13; Byte.xbc; Byte.xe0; Byte.x36; Byte.xf9].

Definition GENESIS_SCHNORR_BYTES : array 32 := match GENESIS_PUBKEY with PkSchnorr b => b end.

(** [as usize] of a byte, for indexing. *)
Definition usize_of (b : byte) : nat := Z.to_nat (byte.unsigned b).

(** ** resource_id.rs *)

Section resource_id.
Context `{Hasher}.

Definition derive_program_resource (label : bytes) : ResourceId :=
  hash_with_domain [Domain_as_u8 ProgramResource] label.
Definition config_resource_id : ResourceId := derive_program_resource (text "config").
Definition derive_user_resource (initial_lock_hash : array 32) : ResourceId :=
  hash_with_domain [Domain_as_u8 UserResource] (vec_to_list initial_lock_hash).
End resource_id.

(** ** auth_context.rs *)

Record SchnorrUnlocker := { su_pubkey : array 32 }.
Record MultisigUnlocker := { mu_pubkeys : list (array 32) }.
Record AuthContext := {
  auth_schnorr : list (byte * SchnorrUnlocker);
  auth_multisig : list (byte * MultisigUnlocker)
}.

(** ** lock_trait.rs *)

Class Lock (T : Type) := {
  TAG : byte;
  Unlocker : Type;
  decode_body : parser T;
  encode_body : T -> bytes;
  body_len : T -> nat;
  try_unlock : T -> byte -> list (byte * Unlocker) -> AResult bool
}.
#[global] Arguments TAG T {_} : assert.
#[global] Arguments Unlocker T {_} : assert.

(** The default method of the trait. *)
Definition lock_id_hash `{Hasher} {T} `{Lock T} (l : T) : array 32 :=
  hash_with_domain [Domain_as_u8 LockId] (TAG T :: encode_body l).

(** ** lock_variants.rs *)

(** The entries of a sorted bucket for a resource; slicing panics if the bounds cross. *)
Definition slice_for_resource {U} (bucket : list (byte * U)) (resource_idx : byte) : AResult (list (byte * U)) :=
  let start := partition_point (fun e => byte.unsigned e.1 <? byte.unsigned resource_idx)%Z bucket in
  let end_ := partition_point (fun e => byte.unsigned e.1 <=? byte.unsigned resource_idx)%Z bucket in
  if start <=? end_ then Ok (take (end_ - start) (drop start bucket)) else Panic.

Module SchnorrLockView.
Record t := { pubkey : array 32 }.

#[global] Instance t_eq_dec : EqDecision t.
Proof. solve_decision. Defined.

#[global] Instance lock : Lock t := {|
  TAG := Byte.x01;
  Unlocker := SchnorrUnlocker;
  decode_body := pubkey ← Reader.read_array 32 "lock.schnorr.pubkey"; mret {| pubkey := pubkey |};
  encode_body l := vec_to_list (pubkey l);
  body_len _ := 32;
  try_unlock l resource_idx us :=
    slice ← slice_for_resource us resource_idx;
    match slice with
    | [(_, u)] => Ok (bool_decide (su_pubkey u = pubkey l))
    | _ => Ok false
    end
|}.
End SchnorrLockView.

(** [as_chunks::<32>]: whole chunks and the remainder; each chunk takes 32 bytes, so the length
    of the slice bounds the chunks. *)
Fixpoint chunks_from (fuel : nat) (l : bytes) : list (array 32) * bytes :=
  match fuel with
  | O => ([], l)
  | S fuel =>
      match split_first_chunk 32 l with
      | Some (k, l) => let '(ks, rem) := chunks_from fuel l in (k :: ks, rem)
      | None => ([], l)
      end
  end.
Definition as_chunks (l : bytes) : list (array 32) * bytes := chunks_from (length l) l.

Definition MULTISIG_MAX_PUBKEYS : Z := 16.

(** [is_strictly_ascending] is the pairwise scan [strictly_ascending]. *)
Definition validate_multisig_fields (threshold n_pubkeys : byte) (pubkeys : bytes) : outcome string unit :=
  let t := byte.unsigned threshold in
  let n := byte.unsigned n_pubkeys in
  if ((t =? 0) || (n =? 0) || (n <? t) || (MULTISIG_MAX_PUBKEYS <? n))%Z
  then Err "lock.multisig: invalid threshold/n_pubkeys"
  else
    let '(keys, rem) := as_chunks pubkeys in
    if negb (length rem =? 0) || negb (length keys =? usize_of n_pubkeys)
    then Err "lock.multisig: body length doesn't match n_pubkeys"
    else if negb (strictly_ascending keys)
    then Err "lock.multisig: pubkeys not strictly ascending"
    else Ok tt.

Definition codec_err {A} (c : outcome string A) : Result A :=
  match c with Ok a => Ok a | Err m => Err (Decode m) | Panic => Panic end.

Module MultisigLockView.
Record t := { threshold : byte; pubkeys : bytes }.

#[global] Instance t_eq_dec : EqDecision t.
Proof. solve_decision. Defined.

Definition n_pubkeys (l : t) : byte := byte.of_Z (Z.of_nat (length (pubkeys l) / 32)).
Definition iter_pubkeys (l : t) : list (array 32) := (as_chunks (pubkeys l)).1.

(** The inner loop of the merge walk, over the contributions from the cursor on: whether the lock's
    key was met, and the contributions after the loop. *)
Fixpoint advance (contrib : list (array 32)) (lock_pk : array 32) : bool * list (array 32) :=
  match contrib with
  | [] => (false, [])
  | c :: contrib' =>
      match key_cmp c lock_pk with
      | Lt => advance contrib' lock_pk
      | Eq => (true, contrib')
      | Gt => (false, contrib)
      end
  end.

(** The outer loop; [matched] is a [u8] and wraps as the guest's release build does. *)
Fixpoint merge_walk (threshold : byte) (lock_pks contrib : list (array 32)) (matched : Z) : bool :=
  match lock_pks with
  | [] => (byte.unsigned threshold <=? matched)%Z
  | pk :: lock_pks =>
      let '(met, contrib) := advance contrib pk in
      let matched := if met : bool then ((matched + 1) `mod` 256)%Z else matched in
      if (byte.unsigned threshold <=? matched)%Z then true
      else merge_walk threshold lock_pks contrib matched
  end.

#[global] Instance lock : Lock t := {|
  TAG := Byte.x02;
  Unlocker := MultisigUnlocker;
  decode_body :=
    threshold ← Reader.read_byte "lock.multisig.threshold";
    n_pubkeys ← Reader.read_byte "lock.multisig.n_pubkeys";
    pubkeys ← Reader.read_bytes (byte.unsigned n_pubkeys * 32) "lock.multisig.pubkeys";
    _ ← plift (codec_err (validate_multisig_fields threshold n_pubkeys pubkeys));
    mret {| threshold := threshold; pubkeys := pubkeys |};
  encode_body l := [threshold l; n_pubkeys l] ++ pubkeys l;
  body_len l := 2 + length (pubkeys l);
  try_unlock l resource_idx us :=
    slice ← slice_for_resource us resource_idx;
    match slice with
    | [(_, u)] =>
        let contrib := mu_pubkeys u in
        if negb (strictly_ascending contrib) then Ok false
        else Ok (merge_walk (threshold l) (iter_pubkeys l) contrib 0)
    | _ => Ok false
    end
|}.
End MultisigLockView.

Module UnlockedLockView.
#[global] Instance lock : Lock unit := {|
  TAG := Byte.x03;
  Unlocker := unit;
  decode_body := mret tt;
  encode_body _ := [];
  body_len _ := 0;
  try_unlock _ _ _ := Ok true
|}.
End UnlockedLockView.

(** ** lock.rs *)

Inductive LockEnum :=
| Schnorr (l : SchnorrLockView.t)
| Multisig (l : MultisigLockView.t)
| Unlocked (l : unit).

#[global] Instance LockEnum_eq_dec : EqDecision LockEnum.
Proof. solve_decision. Defined.

Definition decode_lock : parser LockEnum :=
  tag ← Reader.read_byte "lock.tag";
  if bool_decide (tag = TAG SchnorrLockView.t) then l ← decode_body; mret (Schnorr l)
  else if bool_decide (tag = TAG MultisigLockView.t) then l ← decode_body; mret (Multisig l)
  else if bool_decide (tag = TAG unit) then l ← decode_body; mret (Unlocked l)
  else pfail (Decode "lock: unknown tag").

Definition lock_tag (l : LockEnum) : byte :=
  match l with
  | Schnorr _ => TAG SchnorrLockView.t
  | Multisig _ => TAG MultisigLockView.t
  | Unlocked _ => TAG unit
  end.

Definition wire_body_len (l : LockEnum) : nat :=
  match l with Schnorr l => body_len l | Multisig l => body_len l | Unlocked l => body_len l end.

Definition wire_len (l : LockEnum) : nat := 1 + wire_body_len l.

Definition encode_lock (l : LockEnum) : bytes :=
  lock_tag l :: match l with Schnorr l => encode_body l | Multisig l => encode_body l | Unlocked l => encode_body l end.

(** Writes the body over a slice; [copy_from_slice] panics on a slice of another length. The
    [debug_assert!] of the last case is compiled out of the guest. *)
Definition write_body {E} (l : LockEnum) (out : bytes) : outcome E bytes :=
  match l with
  | Schnorr l => if length out =? 32 then Ok (vec_to_list (SchnorrLockView.pubkey l)) else Panic
  | Multisig m =>
      if length out =? 2 + length (MultisigLockView.pubkeys m)
      then Ok ([MultisigLockView.threshold m; MultisigLockView.n_pubkeys m] ++ MultisigLockView.pubkeys m)
      else Panic
  | Unlocked _ => Ok out
  end.

Definition id_hash `{Hasher} (l : LockEnum) : array 32 :=
  match l with Schnorr l => lock_id_hash l | Multisig l => lock_id_hash l | Unlocked l => lock_id_hash l end.

Definition unlock (l : LockEnum) (resource_idx : byte) (ctx : AuthContext) : AResult bool :=
  match l with
  | Schnorr l => try_unlock l resource_idx (auth_schnorr ctx)
  | Multisig l => try_unlock l resource_idx (auth_multisig ctx)
  | Unlocked l => try_unlock l resource_idx []
  end.

(** ** lock_codec.rs *)

Definition validate_lock_body (tag : byte) (body : bytes) : outcome string unit :=
  if bool_decide (tag = TAG SchnorrLockView.t) then
    if negb (length body =? 32) then Err "lock.schnorr: body must be 32 bytes" else Ok tt
  else if bool_decide (tag = TAG MultisigLockView.t) then
    match body with
    | threshold :: n_pubkeys :: pubkeys => validate_multisig_fields threshold n_pubkeys pubkeys
    | _ => Err "lock.multisig: body too short"
    end
  else if bool_decide (tag = TAG unit) then
    match body with [] => Ok tt | _ => Err "lock.unlocked: body must be empty" end
  else Err "lock: unknown tag".

Definition decode_lock_body_unchecked {E} (tag : byte) (body : bytes) : outcome E LockEnum :=
  if bool_decide (tag = TAG SchnorrLockView.t) then
    pubkey ← expect (array_of_list 32 body); Ok (Schnorr {| SchnorrLockView.pubkey := pubkey |})
  else if bool_decide (tag = TAG MultisigLockView.t) then
    match body with
    | threshold :: _ :: pubkeys =>
        Ok (Multisig {| MultisigLockView.threshold := threshold; MultisigLockView.pubkeys := pubkeys |})
    | _ => Panic
    end
  else if bool_decide (tag = TAG unit) then Ok (Unlocked tt)
  else Panic.

Definition decode_lock_body (tag : byte) (body : bytes) : outcome string LockEnum :=
  _ ← validate_lock_body tag body; decode_lock_body_unchecked tag body.

(** ** Chunks *)

Definition concat_keys (ks : list (array 32)) : bytes := ks ≫= vec_to_list.

Lemma chunks_from_spec fuel l ks rem :
  length l <= fuel -> chunks_from fuel l = (ks, rem) -> l = concat_keys ks ++ rem /\ length rem < 32.
Proof.
  revert l ks rem. induction fuel as [|fuel IH]; intros l ks rem Hl; cbn [chunks_from].
  { intros [= <- <-]. cbn. split; [done|lia]. }
  destruct (split_first_chunk 32 l) as [[k r]|] eqn:E.
  - apply split_first_chunk_Some in E as ->. rewrite length_app, length_vec_to_list in Hl.
    destruct (chunks_from fuel r) as [ks' rem'] eqn:E'. intros [= <- <-].
    apply IH in E' as [-> ?]; [|lia]. split; [|done]. unfold concat_keys. by rewrite bind_cons, app_assoc.
  - intros [= <- <-]. by apply split_first_chunk_None in E.
Qed.

Lemma length_concat_keys ks : length (concat_keys ks) = 32 * length ks.
Proof.
  unfold concat_keys. induction ks as [|k ks IH]; [done|]. rewrite bind_cons, length_app, length_vec_to_list, IH. cbn. lia.
Qed.

Lemma chunks_from_concat fuel ks : length ks <= fuel -> chunks_from fuel (concat_keys ks) = (ks, []).
Proof.
  revert ks. induction fuel as [|fuel IH]; intros [|k ks] Hl; cbn in Hl; try lia; [done..|].
  cbn [chunks_from]. unfold concat_keys. rewrite bind_cons, split_first_chunk_app.
  fold (concat_keys ks). by rewrite IH by lia.
Qed.

Lemma as_chunks_concat ks : as_chunks (concat_keys ks) = (ks, []).
Proof. apply chunks_from_concat. rewrite length_concat_keys. lia. Qed.

Lemma usize_of_lt b : usize_of b < 256.
Proof. unfold usize_of. pose proof (byte_bound b). lia. Qed.

Lemma usize_of_inj a b : usize_of a = usize_of b -> a = b.
Proof. unfold usize_of. pose proof (byte_bound a). pose proof (byte_bound b). intros. apply byte.unsigned_inj. lia. Qed.

Lemma usize_of_Z b : Z.of_nat (usize_of b) = byte.unsigned b.
Proof. unfold usize_of. pose proof (byte_bound b). lia. Qed.

(** ** Well-formed locks *)

(** The body's encoding. *)
Definition lock_body (l : LockEnum) : bytes := tail (encode_lock l).

(** A multisig of at least one and at most sixteen ascending keys, with a reachable threshold. *)
Definition multisig_ok (m : MultisigLockView.t) (ks : list (array 32)) : Prop :=
  MultisigLockView.pubkeys m = concat_keys ks /\
  1 <= usize_of (MultisigLockView.threshold m) <= length ks /\ length ks <= 16 /\ strictly_ascending ks = true.

Definition lock_ok (l : LockEnum) : Prop :=
  match l with Multisig m => exists ks, multisig_ok m ks | _ => True end.

Lemma multisig_n_pubkeys m ks : multisig_ok m ks -> usize_of (MultisigLockView.n_pubkeys m) = length ks.
Proof.
  intros (Hp & _ & Hn & _). unfold MultisigLockView.n_pubkeys, usize_of.
  rewrite byte.unsigned_of_Z, Hp, length_concat_keys.
  replace (32 * length ks / 32) with (length ks) by (rewrite Nat.mul_comm, Nat.div_mul; lia).
  rewrite Z.mod_small by lia. lia.
Qed.

Lemma multisig_keys m ks : multisig_ok m ks -> MultisigLockView.iter_pubkeys m = ks.
Proof. intros (Hp & _). unfold MultisigLockView.iter_pubkeys. by rewrite Hp, as_chunks_concat. Qed.

Lemma validate_multisig_exact threshold n pubkeys :
  validate_multisig_fields threshold n pubkeys = Ok tt <->
  exists ks, multisig_ok {| MultisigLockView.threshold := threshold; MultisigLockView.pubkeys := pubkeys |} ks /\
    usize_of n = length ks.
Proof.
  unfold validate_multisig_fields, multisig_ok. cbn [MultisigLockView.threshold MultisigLockView.pubkeys].
  rewrite <- !usize_of_Z. unfold MULTISIG_MAX_PUBKEYS. split.
  - destruct (_ || _) eqn:Eb; [done|]. destruct (as_chunks pubkeys) as [ks rem] eqn:Ec.
    apply chunks_from_spec in Ec as [-> _]; [|done].
    destruct (Nat.eqb_spec (length rem) 0) as [Hr|]; [|done]. apply nil_length_inv in Hr as ->. rewrite app_nil_r.
    destruct (Nat.eqb_spec (length ks) (usize_of n)) as [Hk|]; [|done]. cbn [negb orb].
    destruct (strictly_ascending ks) eqn:Ea; [|done]. intros _. exists ks. repeat split; try done; lia.
  - intros (ks & (-> & Ht & Hn & Ha) & Hk).
    destruct (_ || _) eqn:Eb; [lia|].
    rewrite as_chunks_concat. cbv beta iota. rewrite Hk, !Nat.eqb_refl, Ha. done.
Qed.

(** ** Canonical wire form *)

Lemma decode_lock_body_Ok tag body l :
  decode_lock_body tag body = Ok l <-> lock_ok l /\ tag = lock_tag l /\ body = lock_body l.
Proof.
  unfold decode_lock_body, validate_lock_body, decode_lock_body_unchecked. split.
  - intros Hd. apply bind_Ok in Hd as ([] & Hv & Hd). repeat case_bool_decide; try done.
    + apply bind_Ok in Hd as (k & Hk & Hd). apply expect_Ok, vec_to_list_of_list in Hk. by injection Hd as <-.
    + destruct body as [|t [|n pks]]; try done. injection Hd as <-.
      apply validate_multisig_exact in Hv as (ks & Hm & Hn). split; [by exists ks|]. split; [done|].
      unfold lock_body. cbn. do 2 f_equal. apply usize_of_inj. by rewrite (multisig_n_pubkeys _ ks).
    + destruct body; [|done]. by injection Hd as <-.
  - intros (Hok & -> & ->). destruct l as [[k]|m|[]]; cbn [lock_ok lock_tag] in *.
    + rewrite !bool_decide_true by done. unfold lock_body. cbn [encode_lock tail encode_body SchnorrLockView.lock SchnorrLockView.pubkey].
      rewrite length_vec_to_list, array_of_vec_to_list. done.
    + destruct Hok as [ks Hm]. rewrite bool_decide_false, bool_decide_true by done.
      cbn [lock_body encode_lock tail encode_body MultisigLockView.lock app]. destruct m as [t pks].
      rewrite (proj2 (validate_multisig_exact _ _ _)); [done|]. exists ks. by rewrite (multisig_n_pubkeys _ ks).
    + done.
Qed.

Lemma decode_lock_Ok buf l rest :
  decode_lock buf = Ok (l, rest) <-> lock_ok l /\ buf = encode_lock l ++ rest.
Proof.
  unfold decode_lock. rewrite pbind_Ok. split.
  - intros (tag & buf' & Ht & Hd). apply read_byte_Ok in Ht as ->. repeat case_bool_decide; subst; try done.
    + apply pbind_Ok in Hd as ([k] & b & Hk & Hd). injection Hd as <- <-.
      apply pbind_Ok in Hk as (k' & b' & Hk & Hd). apply read_array_Ok in Hk as ->. by injection Hd as <- <-.
    + apply pbind_Ok in Hd as (m & b & Hm & Hd). injection Hd as <- <-.
      apply pbind_Ok in Hm as (th & b1 & H1 & Hm). apply read_byte_Ok in H1 as ->.
      apply pbind_Ok in Hm as (n & b2 & H2 & Hm). apply read_byte_Ok in H2 as ->.
      apply pbind_Ok in Hm as (pks & b3 & H3 & Hm).
      apply read_bytes_Ok in H3 as [-> _]; [|pose proof (byte_bound n); lia].
      apply pbind_Ok in Hm as ([] & b4 & H4 & Hm). apply plift_Ok in H4 as [H4 ->]. injection Hm as <- <-.
      destruct (validate_multisig_fields th n pks) as [[]| |] eqn:Hv; try done.
      apply validate_multisig_exact in Hv as (ks & Hm & Hn). split; [by exists ks|].
      cbn. do 3 f_equal. apply usize_of_inj. by rewrite (multisig_n_pubkeys _ ks).
    + by injection Hd as <- <-.
  - intros [Hok ->]. exists (lock_tag l), (lock_body l ++ rest). split; [by destruct l|].
    unfold lock_body.
    destruct l as [[k]|m|[]]; cbn [lock_tag encode_lock tail].
    + rewrite bool_decide_true by done. cbn [decode_body SchnorrLockView.lock encode_body SchnorrLockView.pubkey].
      erewrite pbind_run; [reflexivity|]. parse_step. reflexivity.
    + destruct Hok as [ks Hm]. rewrite bool_decide_false, bool_decide_true by done.
      cbn [decode_body MultisigLockView.lock encode_body app]. erewrite (pbind_run _ _ _ m rest); [done|].
      do 2 parse_step. erewrite pbind_run.
      2:{ apply read_bytes_run. rewrite (proj1 Hm), length_concat_keys, <- usize_of_Z, (multisig_n_pubkeys _ ks) by done. lia. }
      erewrite pbind_run.
      2:{ apply plift_Ok. split; [|reflexivity]. rewrite (proj2 (validate_multisig_exact _ _ _)); [done|].
          exists ks. destruct m. by rewrite (multisig_n_pubkeys _ ks). }
      by destruct m.
    + done.
Qed.

(** ** The merge walk counts the common keys *)

(** Ascending key lists, as sorted lists. *)
Abbreviation ascending := (StronglySorted (fun a b : array 32 => key_ltb a b = true)).

Lemma key_cmp_spec a b :
  match key_cmp a b with Lt => key_ltb a b = true | Eq => a = b | Gt => key_ltb b a = true end.
Proof.
  unfold key_ltb, bytes_ltb, key_cmp. rewrite (bytes_cmp_antisym (vec_to_list a)).
  destruct (bytes_cmp (vec_to_list a) (vec_to_list b)) eqn:E; [|done..]. by apply vec_to_list_eq, bytes_cmp_Eq.
Qed.

Lemma advance_spec contrib pk met rest :
  ascending contrib -> MultisigLockView.advance contrib pk = (met, rest) ->
  (met = true <-> pk ∈ contrib) /\ ascending rest /\
  (forall k, key_ltb pk k = true -> k ∈ rest <-> k ∈ contrib).
Proof.
  induction contrib as [|c contrib IH]; intros Hs; cbn [MultisigLockView.advance].
  { intros [= <- <-]. split; [|done]. split; [done|]. by intros ?%not_elem_of_nil. }
  apply StronglySorted_inv in Hs as [Hs Hc]. rewrite Forall_forall in Hc. pose proof (key_cmp_spec c pk) as Hcmp.
  destruct (key_cmp c pk).
  - subst c. intros [= <- <-]. split; [split; [constructor|done]|]. split; [done|]. intros k Hk.
    rewrite elem_of_cons. split; [auto|]. intros [->|]; [by rewrite key_ltb_irrefl in Hk | done].
  - intros Ha. apply IH in Ha as (Hm & Hr & Hk); [|done]. rewrite Hm. split; [|split; [done|]].
    + rewrite elem_of_cons. split; [auto|]. intros [->|]; [by rewrite key_ltb_irrefl in Hcmp | done].
    + intros k Hpk. rewrite Hk, elem_of_cons by done. split; [auto|]. intros [->|]; [|done].
      pose proof (key_ltb_trans _ _ _ Hcmp Hpk) as Hx. by rewrite key_ltb_irrefl in Hx.
  - intros [= <- <-]. split; [|split; [by constructor; [|apply Forall_forall]|done]]. split; [done|].
    rewrite elem_of_cons. intros [->|Hin]; [by rewrite key_ltb_irrefl in Hcmp|].
    pose proof (key_ltb_trans _ _ _ Hcmp (Hc _ Hin)) as Hx. by rewrite key_ltb_irrefl in Hx.
Qed.

Definition common (lock_pks contrib : list (array 32)) : list (array 32) := filter (.∈ contrib) lock_pks.

Lemma filter_Forall_iff {A} (P Q : A -> Prop) `{!forall x, Decision (P x), !forall x, Decision (Q x)} l :
  Forall (fun x => P x <-> Q x) l -> filter P l = filter Q l.
Proof.
  induction 1 as [|x l Hx _ IH]; [done|]. rewrite !filter_cons, IH.
  destruct (decide (P x)), (decide (Q x)); naive_solver.
Qed.

Lemma merge_walk_spec threshold lock_pks contrib matched :
  ascending lock_pks -> ascending contrib -> (0 <= matched)%Z -> (matched + Z.of_nat (length lock_pks) < 256)%Z ->
  MultisigLockView.merge_walk threshold lock_pks contrib matched
  = (byte.unsigned threshold <=? matched + Z.of_nat (length (common lock_pks contrib)))%Z.
Proof.
  intros Hl. revert contrib matched. induction Hl as [|pk lks Hl IH Hpk]; intros contrib matched Hc H0 Hm; cbn [length] in Hm.
  { cbn. f_equal. lia. }
  cbn [MultisigLockView.merge_walk]. destruct (MultisigLockView.advance contrib pk) as [met rest] eqn:Ea.
  destruct (advance_spec _ _ _ _ Hc Ea) as (Hmet & Hr & Hk).
  assert (common lks rest = common lks contrib) as Hcom.
  { apply filter_Forall_iff. eapply Forall_impl; [exact Hpk|]. exact Hk. }
  unfold common in *. rewrite filter_cons. destruct met.
  - rewrite decide_True by (by apply Hmet). rewrite Z.mod_small by lia. cbn [length].
    destruct (Z.leb_spec (byte.unsigned threshold) (matched + 1)); [symmetry; apply Z.leb_le; lia|].
    rewrite IH, Hcom by (done || lia). f_equal. lia.
  - rewrite decide_False by (by rewrite <- Hmet).
    destruct (Z.leb_spec (byte.unsigned threshold) matched); [symmetry; apply Z.leb_le; lia|].
    rewrite IH, Hcom by (done || lia). done.
Qed.

(** ** Buckets *)

(** Buckets are in ascending order of resource index. *)
Definition bucket_sorted {U} (bucket : list (byte * U)) : Prop :=
  StronglySorted (fun a b => byte.unsigned a.1 <= byte.unsigned b.1)%Z bucket.

Lemma filter_none {A} (P : A -> Prop) `{!forall x, Decision (P x)} l : Forall (fun x => ~ P x) l -> filter P l = [].
Proof. induction 1 as [|x l Hx _ IH]; [done|]. by rewrite filter_cons_False. Qed.

Lemma sorted_partition {A} (R : A -> A -> Prop) (p : A -> bool) l :
  StronglySorted R l -> (forall x y, R x y -> p y = true -> p x = true) ->
  l = filter (fun x => p x = true) l ++ filter (fun x => p x = false) l.
Proof.
  intros Hs Hp. induction Hs as [|x l Hs IH Hx]; [done|]. rewrite !filter_cons. destruct (p x) eqn:E.
  - rewrite decide_True, decide_False by done. cbn. by f_equal.
  - rewrite decide_False, decide_True by done.
    rewrite (filter_none (fun x => p x = true)) in IH |- *.
    2,3: eapply Forall_impl; [exact Hx|]; intros y Hy Ht; pose proof (Hp _ _ Hy Ht); congruence.
    cbn in *. by f_equal.
Qed.

Lemma slice_for_resource_sorted {U} (bucket : list (byte * U)) i :
  bucket_sorted bucket -> slice_for_resource bucket i = Ok (filter (fun e => e.1 = i) bucket).
Proof.
  intros Hs. unfold slice_for_resource.
  set (lt := fun e : byte * U => (byte.unsigned e.1 <? byte.unsigned i)%Z).
  set (le := fun e : byte * U => (byte.unsigned e.1 <=? byte.unsigned i)%Z).
  assert (bucket = filter (fun e => le e = true) bucket ++ filter (fun e => le e = false) bucket) as Hle.
  { eapply sorted_partition; [exact Hs|]. unfold le. intros x y ?. lia. }
  assert (bucket = filter (fun e => lt e = true) bucket ++ filter (fun e => lt e = false) bucket) as Hlt.
  { eapply sorted_partition; [exact Hs|]. unfold lt. intros x y ?. lia. }
  assert (forall p : byte * U -> bool, Forall (fun x => p x = true) (filter (fun e => p e = true) bucket) /\
    Forall (fun x => p x = false) (filter (fun e => p e = false) bucket)) as Hf.
  { intros p. split; apply Forall_forall; intros x Hx; by apply list_elem_of_filter in Hx as [? _]. }
  assert (partition_point lt bucket = length (filter (fun e => lt e = true) bucket)) as ->.
  { rewrite Hlt at 1. by apply partition_point_app; apply Hf. }
  assert (partition_point le bucket = length (filter (fun e => le e = true) bucket)) as ->.
  { rewrite Hle at 1. by apply partition_point_app; apply Hf. }
  assert (filter (fun e => le e = true) bucket
    = filter (fun e => lt e = true) bucket ++ filter (fun e => e.1 = i) bucket) as Heq.
  { clear Hle Hf. rewrite Hlt at 1. rewrite filter_app. f_equal.
    - rewrite list_filter_filter. apply list_filter_iff. unfold lt, le. intros x. lia.
    - rewrite list_filter_filter. apply list_filter_iff. unfold lt, le. intros x. split; [|intros ->; lia].
      intros [? ?]. apply byte.unsigned_inj. lia. }
  rewrite Heq, length_app, (proj2 (Nat.leb_le _ _)) by lia. f_equal.
  rewrite Heq, <- app_assoc in Hle. revert Hle. clear.
  generalize (filter (fun e => lt e = true) bucket), (filter (fun e => e.1 = i) bucket), (filter (fun e => le e = false) bucket).
  intros l1 l2 l3 ->. rewrite drop_app_length, Nat.add_comm, Nat.add_sub. apply take_app_length.
Qed.

(** ** What satisfies a lock *)

(** The keys contributed to a resource's multisig by a bucket: those of its single entry. *)
Definition contributed (us : list (byte * MultisigUnlocker)) (i : byte) (ks : list (array 32)) : Prop :=
  exists u, filter (fun e => e.1 = i) us = [(i, u)] /\ mu_pubkeys u = ks.

Lemma filter_index {U} (us : list (byte * U)) i j u l : filter (fun e => e.1 = i) us = (j, u) :: l -> j = i.
Proof.
  intros Hf. assert ((j, u) ∈ filter (fun e => e.1 = i) us) as Hin by (rewrite Hf; constructor).
  by apply list_elem_of_filter in Hin as [? _].
Qed.

Lemma schnorr_unlock (l : SchnorrLockView.t) i (us : list (byte * SchnorrUnlocker)) :
  bucket_sorted us ->
  try_unlock l i us = Ok true <->
  filter (fun e => e.1 = i) us = [(i, {| su_pubkey := SchnorrLockView.pubkey l |})].
Proof.
  intros Hs. cbn [try_unlock SchnorrLockView.lock]. rewrite slice_for_resource_sorted by done. cbn [mbind outcome_bind].
  destruct (filter _ us) as [|[j [k]] [|]] eqn:Ef; try done. apply filter_index in Ef as ->. cbn [su_pubkey].
  case_bool_decide; naive_solver.
Qed.

Lemma multisig_unlock (m : MultisigLockView.t) ks i (us : list (byte * MultisigUnlocker)) :
  multisig_ok m ks -> bucket_sorted us ->
  try_unlock m i us = Ok true <->
  exists contrib, contributed us i contrib /\ strictly_ascending contrib = true /\
    usize_of (MultisigLockView.threshold m) <= length (common ks contrib).
Proof.
  intros Hm Hs. cbn [try_unlock MultisigLockView.lock]. rewrite slice_for_resource_sorted by done. cbn [mbind outcome_bind].
  rewrite (multisig_keys m ks) by done. destruct Hm as (_ & _ & Hn & Ha). unfold contributed.
  destruct (filter _ us) as [|[j u] [|]] eqn:Ef; [|apply filter_index in Ef as ->|].
  1,3: split; [done | by intros (? & (? & [=] & _) & _)].
  destruct (strictly_ascending (mu_pubkeys u)) eqn:Eu; cbn [negb].
  - rewrite merge_walk_spec by (by apply strictly_ascending_sorted || lia). rewrite <- usize_of_Z. split.
    + intros [= Hle]. exists (mu_pubkeys u). repeat split; [by exists u|done|lia].
    + intros (c & (u' & [= <-] & <-) & _ & Hle). f_equal. lia.
  - split; [done|]. intros (c & (u' & [= <-] & <-) & Hc & _). congruence.
Qed.

Lemma unlock_total l i ctx :
  bucket_sorted (auth_schnorr ctx) -> bucket_sorted (auth_multisig ctx) -> exists b, unlock l i ctx = Ok b.
Proof.
  intros Hs Hm. destruct l as [l|l|[]]; cbn; [| |by exists true].
  all: rewrite slice_for_resource_sorted by done; cbn [mbind outcome_bind].
  all: destruct (filter _ _) as [|[? ?] [|]]; try by eexists.
  destruct (negb _); by eexists.
Qed.
