(* ===== verification/RtState.v ===== *)
(** * RtState: resources of the runtime processor

    The layout of user and config resources, the typed views and writers over a resource's bytes,
    the lifecycle of a slot within a transaction, and the deposit policy. *)

From S2P Require Import Prelude Codec Types AbiCore AbiTx RtLock.

(** ** user.rs, config.rs: the layout

    Users and configs have one layout: a kind byte, a 64-bit word (a user's balance, a config's
    minimum withdrawal), 32 bytes (a user's initial lock hash, a config's covenant id), and the
    lock's tag and body. *)

Module Raw.
Record t := { kind : byte; word : array 8; id32 : array 32; raw_tag : byte; raw_body : bytes }.

Definition HEADER_LEN : nat := 1 + 8 + 32 + 1.

(** [ref_from_bytes] of a packed struct with a trailing slice: any bytes of the header's length. *)
Definition ref_from_bytes (l : bytes) : option t :=
  '(k, l) ← split_first_chunk 1 l;
  '(w, l) ← split_first_chunk 8 l;
  '(i, l) ← split_first_chunk 32 l;
  '(g, l) ← split_first_chunk 1 l;
  Some {| kind := Vector.hd k; word := w; id32 := i; raw_tag := Vector.hd g; raw_body := l |}.

Definition as_bytes (r : t) : bytes :=
  [kind r] ++ vec_to_list (word r) ++ vec_to_list (id32 r) ++ [raw_tag r] ++ raw_body r.

(** [Le64]'s [get] and [set]. *)
Definition get (r : t) : Z := getu (word r).
Definition set (r : t) (v : Z) : t :=
  {| kind := kind r; word := le_split 8 v; id32 := id32 r; raw_tag := raw_tag r; raw_body := raw_body r |}.
Definition set_id32 (r : t) (v : array 32) : t :=
  {| kind := kind r; word := word r; id32 := v; raw_tag := raw_tag r; raw_body := raw_body r |}.
End Raw.

(** The [from_bytes] of the views and of the mutable views make the same checks. *)
Definition checked_view (k : byte) (too_short bad_layout wrong_kind : string) (l : bytes) : outcome string Raw.t :=
  if length l <? Raw.HEADER_LEN then Err too_short
  else
    raw ← ok_or (Raw.ref_from_bytes l) bad_layout;
    if negb (bool_decide (Raw.kind raw = k)) then Err wrong_kind
    else _ ← validate_lock_body (Raw.raw_tag raw) (Raw.raw_body raw); Ok raw.

(** A write of a whole resource into a buffer of its size. *)
Definition write_raw (k : byte) (need : nat) (wrong_length : string) (out : bytes) (word : Z) (id32 : array 32)
    (lock : LockEnum) : outcome string bytes :=
  if negb (length out =? need) then Err wrong_length
  else
    body ← write_body lock (drop Raw.HEADER_LEN out);
    Ok ([k] ++ vec_to_list (le_split 8 word) ++ vec_to_list id32 ++ [lock_tag lock] ++ body).

Module UserView.
Definition from_bytes (l : bytes) : outcome string Raw.t :=
  checked_view KIND_USER "user: too short for header" "user: invalid layout" "user: wrong kind byte" l.
Definition balance (v : Raw.t) : Z := Raw.get v.
Definition initial_lock_hash (v : Raw.t) : array 32 := Raw.id32 v.
Definition lock {E} (v : Raw.t) : outcome E LockEnum := decode_lock_body_unchecked (Raw.raw_tag v) (Raw.raw_body v).
End UserView.

Definition user_total_len (lock : LockEnum) : nat := Raw.HEADER_LEN + wire_body_len lock.
Definition write_user (out : bytes) (balance : Z) (initial_lock_hash : array 32) (lock : LockEnum) : outcome string bytes :=
  write_raw KIND_USER (user_total_len lock) "user: write buffer wrong length" out balance initial_lock_hash lock.

Module ConfigView.
Definition from_bytes (l : bytes) : outcome string Raw.t :=
  checked_view KIND_CONFIG "config: too short for header" "config: invalid layout" "config: wrong kind byte" l.
Definition min_withdrawal_amount (v : Raw.t) : Z := Raw.get v.
Definition covenant_id (v : Raw.t) : array 32 := Raw.id32 v.
Definition lock {E} (v : Raw.t) : outcome E LockEnum := decode_lock_body_unchecked (Raw.raw_tag v) (Raw.raw_body v).
End ConfigView.

Definition config_total_len (lock : LockEnum) : nat := Raw.HEADER_LEN + wire_body_len lock.
Definition write_config (out : bytes) (min_withdrawal_amount : Z) (covenant_id : array 32) (lock : LockEnum)
    : outcome string bytes :=
  write_raw KIND_CONFIG (config_total_len lock) "config: write buffer wrong length" out min_withdrawal_amount covenant_id lock.

(** ** resource_ext.rs

    A combinator that mutates returns the resource also when it fails: reaching the bytes mutably
    marks it dirty. *)

Module ResourceExt.

Definition kind (r : Resource.t) : option byte :=
  match Resource.data r with [] => None | _ => kind_of (Resource.data r) end.

(** [Result::ok]. *)
Definition ok {E A} (c : outcome E A) : option A := match c with Ok a => Some a | _ => None end.

Definition view_config {R} (r : Resource.t) (f : Raw.t -> R) : option R :=
  k ← kind r;
  if negb (bool_decide (k = KIND_CONFIG)) then None
  else f <$> ok (ConfigView.from_bytes (Resource.data r)).

Definition view_user {R} (r : Resource.t) (f : Raw.t -> R) : option R :=
  k ← kind r;
  if negb (bool_decide (k = KIND_USER)) then None
  else f <$> ok (UserView.from_bytes (Resource.data r)).

Definition modify (k : byte) (from_bytes : bytes -> outcome string Raw.t) {R} (r : Resource.t) (f : Raw.t -> R * Raw.t)
    : option R * Resource.t :=
  match kind r with
  | None => (None, r)
  | Some k' =>
      if negb (bool_decide (k' = k)) then (None, r)
      else
        match from_bytes (Resource.data r) with
        | Ok mv => let '(x, mv) := f mv in (Some x, Resource.data_mut r (fun _ => Raw.as_bytes mv))
        | _ => (None, Resource.data_mut r id)
        end
  end.

Definition modify_config {R} : Resource.t -> (Raw.t -> R * Raw.t) -> option R * Resource.t :=
  modify KIND_CONFIG ConfigView.from_bytes.
Definition modify_user {R} : Resource.t -> (Raw.t -> R * Raw.t) -> option R * Resource.t :=
  modify KIND_USER UserView.from_bytes.

(** A writer run on the bytes behind [data_mut]. *)
Definition write_through (r : Resource.t) (w : bytes -> outcome string bytes)
    : outcome (string * Resource.t) Resource.t :=
  match w (Resource.data r) with
  | Ok l => Ok (Resource.data_mut r (fun _ => l))
  | Err m => Err (m, Resource.data_mut r id)
  | Panic => Panic
  end.

Definition init_config (r : Resource.t) (min_withdrawal_amount : Z) (covenant_id : array 32) (lock : LockEnum)
    : outcome (string * Resource.t) Resource.t :=
  match Resource.data r with
  | [] =>
      let r := Resource.resize r (config_total_len lock) in
      write_through r (fun out => write_config out min_withdrawal_amount covenant_id lock)
  | _ => Err ("init_config: slot is not empty", r)
  end.

Definition init_user (r : Resource.t) (balance : Z) (initial_lock_hash : array 32) (lock : LockEnum)
    : outcome (string * Resource.t) Resource.t :=
  match Resource.data r with
  | [] =>
      let r := Resource.resize r (user_total_len lock) in
      write_through r (fun out => write_user out balance initial_lock_hash lock)
  | _ => Err ("init_user: slot is not empty", r)
  end.

Definition set_config_lock (r : Resource.t) (new_lock : LockEnum) : outcome (string * Resource.t) Resource.t :=
  if negb (bool_decide (kind r = Some KIND_CONFIG)) then Err ("set_config_lock: not a config resource", r)
  else
    match ConfigView.from_bytes (Resource.data r) with
    | Ok view =>
        let r := Resource.resize r (Raw.HEADER_LEN + wire_body_len new_lock) in
        write_through r (fun out => write_config out (ConfigView.min_withdrawal_amount view) (ConfigView.covenant_id view) new_lock)
    | Err m => Err (m, r)
    | Panic => Panic
    end.

Definition set_user_lock (r : Resource.t) (new_lock : LockEnum) : outcome (string * Resource.t) Resource.t :=
  if negb (bool_decide (kind r = Some KIND_USER)) then Err ("set_user_lock: not a user resource", r)
  else
    match UserView.from_bytes (Resource.data r) with
    | Ok view =>
        let r := Resource.resize r (Raw.HEADER_LEN + wire_body_len new_lock) in
        write_through r (fun out => write_user out (UserView.balance view) (UserView.initial_lock_hash view) new_lock)
    | Err m => Err (m, r)
    | Panic => Panic
    end.
End ResourceExt.
Import ResourceExt.

(** ** lifecycle.rs *)

Inductive Lifecycle := New | Live | Deleted.

#[global] Instance Lifecycle_eq_dec : EqDecision Lifecycle.
Proof. solve_decision. Defined.

Definition Lifecycle_from_resource (r : Resource.t) : Lifecycle := if Resource.is_new r then New else Live.

Definition created (s : Lifecycle) : outcome string Lifecycle :=
  match s with
  | New => Ok Live
  | Live => Err "lifecycle: double create (slot already live)"
  | Deleted => Err "lifecycle: re-create after delete"
  end.

Definition deleted (s : Lifecycle) : outcome string Lifecycle :=
  match s with
  | Live => Ok Deleted
  | New => Err "lifecycle: delete of never-created slot"
  | Deleted => Err "lifecycle: double delete"
  end.

(** ** zk/abi: delegate_script.rs; zk/backend/risc0/api: permission_script.rs *)

Definition DELEGATE_SCRIPT_PREFIX : bytes :=
  [Byte.xb9; Byte.x00; Byte.xa0; Byte.x69; Byte.x00; Byte.xcf; Byte.x20].
Definition DELEGATE_SCRIPT_SUFFIX : bytes :=
  [Byte.x88; Byte.x00; Byte.x00; Byte.xc9; Byte.x76; Byte.x52; Byte.x94; Byte.x7c; Byte.xbc; Byte.x02;
   Byte.x51; Byte.x75; Byte.x88; Byte.x51].

(** BLAKE2b with a 32-byte digest. *)
Class Blake2b := blake2b : bytes -> array 32.

Definition blake2b_script_hash `{Blake2b} (redeem_script : bytes) : array 32 := blake2b redeem_script.

Definition build_delegate_entry_script (covenant_id : array 32) : bytes :=
  DELEGATE_SCRIPT_PREFIX ++ vec_to_list covenant_id ++ DELEGATE_SCRIPT_SUFFIX.

Definition delegate_entry_spk_hash `{Blake2b} (covenant_id : array 32) : array 32 :=
  blake2b_script_hash (build_delegate_entry_script covenant_id).

(** ** deposit_policy.rs *)

Record DepositBody := { db_user_idx : byte; db_output_idx : Z; db_initial_lock : LockEnum }.
Record DepositSubject := { ds_body : DepositBody; ds_covenant_id : array 32 }.
Record CreateSpec := { cs_initial_lock : LockEnum }.
Record CreditTarget := { ct_user_idx : byte; ct_create_with : option CreateSpec }.

Class DepositPolicy := {
  deposit_spk : DepositSubject -> bytes;
  credit_target : DepositBody -> outcome string CreditTarget;
  min_create_balance : Z
}.

Definition EXAMPLE_MIN_CREATE_BALANCE : Z := 1000.

Definition ExampleDepositPolicy `{Blake2b} : DepositPolicy := {|
  deposit_spk who := to_script_bytes (ScriptHash (delegate_entry_spk_hash (ds_covenant_id who)));
  credit_target body :=
    Ok {| ct_user_idx := db_user_idx body; ct_create_with := Some {| cs_initial_lock := db_initial_lock body |} |};
  min_create_balance := EXAMPLE_MIN_CREATE_BALANCE
|}.

(** [u64::checked_add], [u64::checked_sub]. *)
Definition checked_add (a b : Z) : option Z := if (a + b <? 2 ^ 64)%Z then Some (a + b)%Z else None.
Definition checked_sub (a b : Z) : option Z := if (b <=? a)%Z then Some (a - b)%Z else None.
