(* ===== verification/RtAuth.v ===== *)
(** * RtAuth: instructions and signers of the runtime processor

    The parsers over a transaction's rest preimage, the recovery of keys from spent outputs, the
    signer kinds and their resolution to unlockers, and the instruction stream. *)

From S2P Require Import Prelude Codec Types AbiCore AbiTx RtLock RtState.

(** ** tx_inputs.rs *)

(** [as usize] of a [u64] in the guest, whose [usize] has 32 bits. *)
Definition as_usize (z : Z) : nat := Z.to_nat (z `mod` 2 ^ 32).

Definition skip_input : parser unit :=
  _ ← Reader.skip 32 "input.prev_tx_id";
  _ ← Reader.skip 4 "input.prev_index";
  sig_script_len ← Reader.le_u64 "input.sig_script_len";
  _ ← Reader.skip (as_usize sig_script_len) "input.sig_script";
  _ ← Reader.skip 8 "input.sequence";
  mret tt.

Fixpoint skip_inputs (n : nat) : parser unit :=
  match n with O => mret tt | S n => _ ← skip_input; skip_inputs n end.

Definition parse_input_outpoint_at (rest_preimage : bytes) (idx : Z) : Result (array 32 * Z) :=
  fst <$>
  (_ ← Reader.skip 2 "tx.version";
   n_inputs ← Reader.le_u64 "tx.n_inputs";
   if (n_inputs <=? idx)%Z then pfail (Decode "input_idx out of range")
   else
     _ ← skip_inputs (Z.to_nat idx);
     prev_tx_id ← Reader.read_array 32 "input.prev_tx_id";
     prev_index ← Reader.le_u32 "input.prev_index";
     mret (prev_tx_id, prev_index)) rest_preimage.

Record OutputData := { out_value : Z; out_spk_version : Z; out_spk : bytes }.

Definition parse_output : parser OutputData :=
  value ← Reader.le_u64 "output.value";
  spk_version ← Reader.le_u16 "output.spk_version";
  spk_len ← Reader.le_u64 "output.spk_len";
  spk ← Reader.read_bytes (Z.of_nat (as_usize spk_len)) "output.spk";
  has_covenant ← Reader.read_byte "output.has_covenant";
  _ ← (if negb (bool_decide (has_covenant = Byte.x00))
       then _ ← Reader.skip 2 "output.auth_input"; Reader.skip 32 "output.covenant_id"
       else mret tt);
  mret {| out_value := value; out_spk_version := spk_version; out_spk := spk |}.

(** The loop over the outputs up to and including the wanted one, which it returns. *)
Fixpoint output_after (n : nat) : parser OutputData :=
  match n with
  | O => parse_output
  | S n => _ ← parse_output; output_after n
  end.

Definition parse_output_at_index_v1 (rest_preimage : bytes) (output_index : Z) : Result OutputData :=
  fst <$>
  (version ← Reader.le_u16 "tx.version";
   if negb (version =? 1)%Z then pfail (Decode "rest_preimage: unsupported tx version")
   else
     n_inputs ← Reader.le_u64 "tx.n_inputs";
     _ ← skip_inputs (Z.to_nat n_inputs);
     n_outputs ← Reader.le_u64 "tx.n_outputs";
     if (n_outputs <=? output_index)%Z then pfail (Decode "output_index out of range")
     else output_after (Z.to_nat output_index)) rest_preimage.

Definition SUBNETWORK_ID_LEN : nat := 20.

Definition skip_tail : parser unit :=
  _ ← Reader.skip 8 "tx.lock_time";
  _ ← Reader.skip SUBNETWORK_ID_LEN "tx.subnetwork_id";
  _ ← Reader.skip 8 "tx.gas";
  payload_len ← Reader.le_u64 "tx.payload_len";
  _ ← Reader.skip (as_usize payload_len) "tx.payload";
  mret tt.

(** ** auth.rs *)

Definition OP_DATA_32 : byte := Byte.x20.
Definition OP_CHECK_SIG : byte := Byte.xac.
Definition P2PK_SPK_SIZE : nat := 34.

(** The slice copied has 32 bytes; [copy_from_slice] does not panic. *)
Definition extract_p2pk_pubkey (spk : bytes) : option (array 32) :=
  if negb (length spk =? P2PK_SPK_SIZE) || negb (bool_decide (spk !! 0 = Some OP_DATA_32))
     || negb (bool_decide (spk !! 33 = Some OP_CHECK_SIG))
  then None
  else array_of_list 32 (take 32 (drop 1 spk)).

(** BIP-340 signatures of the [k256] crate. *)
Class K256 := {
  VerifyingKey : Type;
  vk_from_bytes : array 32 -> option VerifyingKey;
  Signature : Type;
  sig_try_from : array 64 -> option Signature;
  verify_prehash : VerifyingKey -> array 32 -> Signature -> bool
}.

Section auth.
Context `{CastText} `{Blake3Keyed} `{K256} `{Hasher}.

Definition verify_k256_schnorr_sig (pubkey : array 32) (signature : array 64) (message : array 32) : bool :=
  match vk_from_bytes pubkey with
  | None => false
  | Some vk => match sig_try_from signature with None => false | Some sig => verify_prehash vk message sig end
  end.

Definition recover_prev_tx_v1_p2pk_pubkey (current_tx_rest_preimage : bytes) (input_idx : byte)
    (witness_rest_preimage : bytes) (witness_payload_digest : array 32) : Result (option (array 32)) :=
  '(expected_prev_tx_id, output_index) ←
    parse_input_outpoint_at current_tx_rest_preimage (byte.unsigned input_idx);
  let computed_prev_tx_id := tx_id_v1_from_digest witness_payload_digest witness_rest_preimage in
  if negb (bool_decide (computed_prev_tx_id = expected_prev_tx_id))
  then Err (Decode "auth.witness: prev_tx witness does not match outpoint")
  else
    output ← parse_output_at_index_v1 witness_rest_preimage output_index;
    Ok (extract_p2pk_pubkey (out_spk output)).

(** ** signer_trait.rs, runtime.rs: the signed message *)

Record SignerResolveContext := {
  sc_payload_bytes : bytes;
  sc_current_rest_preimage : bytes;
  sc_resources : list Resource.t;
  sc_payload_presig : bytes
}.

Definition compute_sig_message (rest_preimage payload_presig : bytes) : array 32 :=
  hash_parts_with_domain [Domain_as_u8 SigMessage]
    [vec_to_list (le_split 4 (Z.of_nat (length rest_preimage))); rest_preimage;
     vec_to_list (le_split 4 (Z.of_nat (length payload_presig))); payload_presig].

Definition sig_msg (ctx : SignerResolveContext) : array 32 :=
  compute_sig_message (sc_current_rest_preimage ctx) (sc_payload_presig ctx).

(** ** signer_variants.rs: helpers *)

(** [get(off..)] and [first_chunk]. *)
Definition chunk_at (n : nat) (l : bytes) (off : Z) : option (array n) :=
  if (Z.of_nat (length l) <? off)%Z then None else fst <$> split_first_chunk n (drop (Z.to_nat off) l).

Definition read_sig_at_offset (sig_offset : Z) (ctx : SignerResolveContext) : Result (array 64) :=
  ok_or (chunk_at 64 (sc_payload_bytes ctx) sig_offset) (Decode "signer: sig_offset out of range").

(** The lock of a resource, by its kind byte. *)
Definition lock_at (resource_idx : byte) (ctx : SignerResolveContext) : Result LockEnum :=
  resource ← ok_or (sc_resources ctx !! usize_of resource_idx) (Decode "signer: resource_idx out of range");
  let data := Resource.data resource in
  match kind_of data with
  | Some k =>
      if bool_decide (k = KIND_CONFIG) then v ← codec_err (ConfigView.from_bytes data); ConfigView.lock v
      else if bool_decide (k = KIND_USER) then v ← codec_err (UserView.from_bytes data); UserView.lock v
      else Err (Decode "signer: unknown or absent resource kind")
  | None => Err (Decode "signer: unknown or absent resource kind")
  end.

Definition read_schnorr_lock_pubkey (resource_idx : byte) (ctx : SignerResolveContext) : Result (array 32) :=
  lock ← lock_at resource_idx ctx;
  match lock with
  | Schnorr l => Ok (SchnorrLockView.pubkey l)
  | _ => Err (Decode "signer.schnorr: target resource is not a Schnorr lock")
  end.

Definition read_multisig_lock_pubkey_at (resource_idx pubkey_idx : byte) (ctx : SignerResolveContext) : Result (array 32) :=
  lock ← lock_at resource_idx ctx;
  match lock with
  | Multisig m =>
      if (byte.unsigned (MultisigLockView.n_pubkeys m) <=? byte.unsigned pubkey_idx)%Z
      then Err (Decode "signer.multisig_schnorr: pubkey_idx out of range")
      else ok_or (chunk_at 32 (MultisigLockView.pubkeys m) (byte.unsigned pubkey_idx * 32))
             (Decode "signer.multisig_schnorr: pubkey slice oob")
  | _ => Err (Decode "signer.multisig_schnorr: target resource is not a Multisig lock")
  end.

(** [get(rp_off..rp_off.saturating_add(rp_len))]; [usize] has 32 bits. *)
Definition range_at (l : bytes) (off len : Z) : option bytes :=
  let end_ := Z.min (off + len) (2 ^ 32 - 1) in
  if (end_ <? off)%Z || (Z.of_nat (length l) <? end_)%Z then None
  else Some (take (Z.to_nat (end_ - off)) (drop (Z.to_nat off) l)).

Definition recover_witness_pubkey (input_idx : byte) (rest_preimage_offset rest_preimage_len payload_digest_offset : Z)
    (ctx : SignerResolveContext) : Result (array 32) :=
  rest_preimage ← ok_or (range_at (sc_payload_bytes ctx) rest_preimage_offset rest_preimage_len)
    (Decode "signer.witness: rest_preimage range out of bounds");
  payload_digest ← ok_or (chunk_at 32 (sc_payload_bytes ctx) payload_digest_offset)
    (Decode "signer.witness: payload_digest range out of bounds");
  recovered ← recover_prev_tx_v1_p2pk_pubkey (sc_current_rest_preimage ctx) input_idx rest_preimage payload_digest;
  ok_or recovered (Decode "signer.witness: prev output is not P2PK").

(** ** signer_variants.rs, signer.rs *)

Inductive SignerEnum :=
| SchnorrSigPtr (sig_offset : Z)
| PrevTxV1Witness (input_idx : byte) (rest_preimage_offset rest_preimage_len payload_digest_offset : Z)
| MultisigSchnorrSigPtr (pubkey_idx : byte) (sig_offset : Z)
| MultisigPrevTxV1Witness (input_idx : byte) (rest_preimage_offset rest_preimage_len payload_digest_offset : Z)
| GenesisSchnorrSigPtr (sig_offset : Z).

Definition witness_body (prefix : string) (mk : byte -> Z -> Z -> Z -> SignerEnum) : parser SignerEnum :=
  input_idx ← Reader.read_byte (prefix +:+ ".input_idx");
  off ← Reader.le_u32 (prefix +:+ ".rest_preimage_offset");
  len ← Reader.le_u32 (prefix +:+ ".rest_preimage_len");
  digest ← Reader.le_u32 (prefix +:+ ".payload_digest_offset");
  mret (mk input_idx off len digest).

Definition decode_signer : parser (byte * SignerEnum) :=
  resource_idx ← Reader.read_byte "signer.resource_idx";
  kind ← Reader.read_byte "signer.kind";
  body ←
    match kind with
    | Byte.x01 => o ← Reader.le_u32 "signer.schnorr.sig_offset"; mret (SchnorrSigPtr o)
    | Byte.x02 => witness_body "signer.witness" PrevTxV1Witness
    | Byte.x03 =>
        i ← Reader.read_byte "signer.multisig_schnorr.pubkey_idx";
        o ← Reader.le_u32 "signer.multisig_schnorr.sig_offset";
        mret (MultisigSchnorrSigPtr i o)
    | Byte.x04 => witness_body "signer.multisig_witness" MultisigPrevTxV1Witness
    | Byte.x05 => o ← Reader.le_u32 "signer.genesis_schnorr.sig_offset"; mret (GenesisSchnorrSigPtr o)
    | _ => pfail (Decode "signer: unknown kind")
    end;
  mret (resource_idx, body).

(** [Signer::resolve] of the signature signers, over a key found elsewhere. *)
Definition resolve_sig (pubkey : array 32) (sig_offset : Z) (invalid : string) (ctx : SignerResolveContext)
    : Result (array 32) :=
  sig ← read_sig_at_offset sig_offset ctx;
  if negb (verify_k256_schnorr_sig pubkey sig (sig_msg ctx)) then Err (Decode invalid) else Ok pubkey.

Definition resolve_schnorr (resource_idx : byte) (sig_offset : Z) (ctx : SignerResolveContext) : Result SchnorrUnlocker :=
  pubkey ← read_schnorr_lock_pubkey resource_idx ctx;
  pubkey ← resolve_sig pubkey sig_offset "signer.schnorr: invalid signature" ctx;
  Ok {| su_pubkey := pubkey |}.

Definition resolve_genesis (resource_idx : byte) (sig_offset : Z) (ctx : SignerResolveContext) : Result SchnorrUnlocker :=
  _ ← ok_or (sc_resources ctx !! usize_of resource_idx) (Decode "signer.genesis_schnorr: resource_idx out of range");
  pubkey ← resolve_sig GENESIS_SCHNORR_BYTES sig_offset "signer.genesis_schnorr: invalid signature" ctx;
  Ok {| su_pubkey := pubkey |}.

Definition resolve_multisig (resource_idx pubkey_idx : byte) (sig_offset : Z) (ctx : SignerResolveContext)
    : Result MultisigUnlocker :=
  pubkey ← read_multisig_lock_pubkey_at resource_idx pubkey_idx ctx;
  pubkey ← resolve_sig pubkey sig_offset "signer.multisig_schnorr: invalid signature" ctx;
  Ok {| mu_pubkeys := [pubkey] |}.

(** ** runtime.rs: resolve_signers *)

Definition append_multisig_contrib (bucket : list (byte * MultisigUnlocker)) (resource_idx : byte)
    (contrib : MultisigUnlocker) : list (byte * MultisigUnlocker) :=
  match last bucket with
  | Some (last_idx, u) =>
      if bool_decide (last_idx = resource_idx)
      then take (length bucket - 1) bucket ++ [(last_idx, {| mu_pubkeys := mu_pubkeys u ++ mu_pubkeys contrib |})]
      else bucket ++ [(resource_idx, contrib)]
  | None => bucket ++ [(resource_idx, contrib)]
  end.

Definition push_schnorr (auth : AuthContext) (i : byte) (u : SchnorrUnlocker) : AuthContext :=
  {| auth_schnorr := auth_schnorr auth ++ [(i, u)]; auth_multisig := auth_multisig auth |}.
Definition push_multisig (auth : AuthContext) (i : byte) (u : MultisigUnlocker) : AuthContext :=
  {| auth_schnorr := auth_schnorr auth; auth_multisig := append_multisig_contrib (auth_multisig auth) i u |}.

Definition resolve_signer (auth : AuthContext) (resource_idx : byte) (s : SignerEnum) (ctx : SignerResolveContext)
    : Result AuthContext :=
  match s with
  | SchnorrSigPtr o => u ← resolve_schnorr resource_idx o ctx; Ok (push_schnorr auth resource_idx u)
  | GenesisSchnorrSigPtr o => u ← resolve_genesis resource_idx o ctx; Ok (push_schnorr auth resource_idx u)
  | PrevTxV1Witness i o l d =>
      k ← recover_witness_pubkey i o l d ctx; Ok (push_schnorr auth resource_idx {| su_pubkey := k |})
  | MultisigSchnorrSigPtr i o => u ← resolve_multisig resource_idx i o ctx; Ok (push_multisig auth resource_idx u)
  | MultisigPrevTxV1Witness i o l d =>
      k ← recover_witness_pubkey i o l d ctx; Ok (push_multisig auth resource_idx {| mu_pubkeys := [k] |})
  end.

Fixpoint resolve_from (auth : AuthContext) (signers : list (byte * SignerEnum)) (ctx : SignerResolveContext)
    : Result AuthContext :=
  match signers with
  | [] => Ok auth
  | (i, s) :: signers => auth ← resolve_signer auth i s ctx; resolve_from auth signers ctx
  end.

Definition resolve_signers (signers : list (byte * SignerEnum)) (ctx : SignerResolveContext) : AResult AuthContext :=
  from_codec (resolve_from {| auth_schnorr := []; auth_multisig := [] |} signers ctx).

(** ** ix.rs *)

Inductive ActionBody :=
| Update (updater_idx : byte) (new_min_withdrawal_amount : Z) (new_covenant_id : array 32) (new_lock : LockEnum)
| Init (updater_idx : byte) (new_min_withdrawal_amount : Z) (new_covenant_id : array 32) (new_lock : LockEnum)
| Transfer (source_idx dest_idx : byte) (amount : Z) (dest_init : option LockEnum)
| UpdateUserLock (user_idx : byte) (new_lock : LockEnum)
| Deposit (user_idx : byte) (output_idx : Z) (initial_lock : LockEnum)
| Withdraw (user_idx : byte) (amount : Z) (dest : StandardSpk).

Record ActionView := { action_tag : byte; action_body : ActionBody }.

Definition read_resource_idx (field : string) (n_resources : nat) : parser byte :=
  idx ← Reader.read_byte field;
  if n_resources <=? usize_of idx then pfail (Decode field) else mret idx.

(** An ABI decoder with its errors replaced. *)
Definition or_decode_err {A} (p : aparser A) (msg : string) : parser A := fun buf =>
  match p buf with Ok r => Ok r | Err _ => Err (Decode msg) | Panic => Panic end.

Definition decode_action (n_resources : nat) : parser ActionView :=
  action_tag ← Reader.read_byte "action.action_tag";
  body ←
    match action_tag with
    | Byte.x01 =>
        i ← read_resource_idx "action.update.updater_idx" n_resources;
        m ← Reader.le_u64 "action.update.new_min_withdrawal_amount";
        c ← Reader.read_array 32 "action.update.new_covenant_id";
        l ← decode_lock;
        mret (Update i m c l)
    | Byte.x02 =>
        i ← read_resource_idx "action.init.updater_idx" n_resources;
        m ← Reader.le_u64 "action.init.new_min_withdrawal_amount";
        c ← Reader.read_array 32 "action.init.new_covenant_id";
        l ← decode_lock;
        mret (Init i m c l)
    | Byte.x03 =>
        s ← read_resource_idx "action.transfer.source_idx" n_resources;
        d ← read_resource_idx "action.transfer.dest_idx" n_resources;
        a ← Reader.le_u64 "action.transfer.amount";
        flag ← Reader.read_byte "action.transfer.has_dest_lock";
        dest_init ←
          match flag with
          | Byte.x00 => mret None
          | Byte.x01 => l ← decode_lock; mret (Some l)
          | _ => pfail (Decode "action.transfer: bad has_dest_lock flag")
          end;
        mret (Transfer s d a dest_init)
    | Byte.x04 =>
        i ← read_resource_idx "action.update_user_lock.user_idx" n_resources;
        l ← decode_lock;
        mret (UpdateUserLock i l)
    | Byte.x05 =>
        i ← read_resource_idx "action.deposit.user_idx" n_resources;
        o ← Reader.le_u32 "action.deposit.output_idx";
        l ← decode_lock;
        mret (Deposit i o l)
    | Byte.x06 =>
        i ← read_resource_idx "action.withdraw.user_idx" n_resources;
        a ← Reader.le_u64 "action.withdraw.amount";
        dest ← or_decode_err spk_decode "action.withdraw: bad dest spk";
        mret (Withdraw i a dest)
    | _ => pfail (Decode "action: unknown tag")
    end;
  mret {| action_tag := action_tag; action_body := body |}.

Record DecodedIx := {
  ix_signers : list (byte * SignerEnum);
  ix_actions : list ActionView;
  end_of_actions_in_ix : nat
}.

(** The closure of the signers loop, with the index it carries from entry to entry. *)
Definition decode_signer_entry (n_resources : nat) (prev : option byte) : parser (byte * SignerEnum) :=
  entry ← decode_signer;
  if n_resources <=? usize_of entry.1 then pfail (Decode "ix.signer: resource_idx out of range")
  else if match prev with Some p => byte.unsigned entry.1 <? byte.unsigned p | None => false end%Z
  then pfail (Decode "ix.signer: resource_idx not ascending")
  else mret entry.

Fixpoint decode_signers (n : nat) (n_resources : nat) (prev : option byte) : parser (list (byte * SignerEnum)) :=
  match n with
  | O => mret []
  | S n =>
      entry ← decode_signer_entry n_resources prev;
      entries ← decode_signers n n_resources (Some entry.1);
      mret (entry :: entries)
  end.

Definition decode_ix (orig : bytes) (n_resources : nat) : Result DecodedIx :=
  '(signers, actions, rest) ←
    (n ← Reader.le_u32 "ix.signers";
     signers ← decode_signers (Z.to_nat n) n_resources None;
     actions ← Reader.many "ix.actions" (decode_action n_resources);
     mret (signers, actions)) orig;
  Ok {| ix_signers := signers; ix_actions := actions; end_of_actions_in_ix := length orig - length rest |}.
End auth.
