(* ===== verification/RtActions.v ===== *)
(** * RtActions: the actions of the runtime processor

    The apply context, one definition per action, and [run], the transaction handler the guest
    passes to [process_transaction]. A step that fails returns the error with the context as the
    failing action left it. *)

From S2P Require Import Prelude Codec Types SmtNode AbiCore AbiTx RtLock RtState RtAuth.
Import ResourceExt.

(** ** action.rs: the context *)

Record ApplyContext := {
  cx_tx : Transaction;
  cx_resources : list Resource.t;
  cx_lifecycle : list Lifecycle;
  cx_auth : AuthContext;
  cx_exits : bytes;
  cx_deposit : array 32;
  cx_consumed : list Z
}.

Abbreviation step := (outcome (AbiError.t * ApplyContext)).

Definition cx_new (tx : Transaction) (st : HandlerState) (auth : AuthContext) : ApplyContext :=
  {| cx_tx := tx; cx_resources := hs_resources st;
     cx_lifecycle := Lifecycle_from_resource <$> hs_resources st; cx_auth := auth; cx_exits := hs_exits st;
     cx_deposit := hs_deposit st; cx_consumed := [] |}.

Definition with_resources (cx : ApplyContext) (rs : list Resource.t) : ApplyContext :=
  {| cx_tx := cx_tx cx; cx_resources := rs; cx_lifecycle := cx_lifecycle cx; cx_auth := cx_auth cx;
     cx_exits := cx_exits cx; cx_deposit := cx_deposit cx; cx_consumed := cx_consumed cx |}.
Definition with_lifecycle (cx : ApplyContext) (ls : list Lifecycle) : ApplyContext :=
  {| cx_tx := cx_tx cx; cx_resources := cx_resources cx; cx_lifecycle := ls; cx_auth := cx_auth cx;
     cx_exits := cx_exits cx; cx_deposit := cx_deposit cx; cx_consumed := cx_consumed cx |}.
Definition with_exits (cx : ApplyContext) (exits : bytes) : ApplyContext :=
  {| cx_tx := cx_tx cx; cx_resources := cx_resources cx; cx_lifecycle := cx_lifecycle cx; cx_auth := cx_auth cx;
     cx_exits := exits; cx_deposit := cx_deposit cx; cx_consumed := cx_consumed cx |}.
Definition with_deposit (cx : ApplyContext) (deposit : array 32) : ApplyContext :=
  {| cx_tx := cx_tx cx; cx_resources := cx_resources cx; cx_lifecycle := cx_lifecycle cx; cx_auth := cx_auth cx;
     cx_exits := cx_exits cx; cx_deposit := deposit; cx_consumed := cx_consumed cx |}.
Definition with_consumed (cx : ApplyContext) (consumed : list Z) : ApplyContext :=
  {| cx_tx := cx_tx cx; cx_resources := cx_resources cx; cx_lifecycle := cx_lifecycle cx; cx_auth := cx_auth cx;
     cx_exits := cx_exits cx; cx_deposit := cx_deposit cx; cx_consumed := consumed |}.

(** [AbiError::Decode(msg.into())]. *)
Definition decode_err (msg : string) : AbiError.t := AbiError.Decode (text msg).

(** The [?] operator in an action: the error leaves with the context as it is. *)
Definition fails {A} (cx : ApplyContext) (c : AResult A) : step A :=
  match c with Ok a => Ok a | Err e => Err (e, cx) | Panic => Panic end.
Definition map_err {A} (c : outcome string A) : AResult A :=
  match c with Ok a => Ok a | Err m => Err (decode_err m) | Panic => Panic end.
Definition fail {A} (cx : ApplyContext) (msg : string) : step A := Err (decode_err msg, cx).

(** [cx.resources[idx]], and an operation on it in place. *)
Definition resource_at (cx : ApplyContext) (idx : nat) : step Resource.t := expect (cx_resources cx !! idx).
Definition lifecycle (cx : ApplyContext) (idx : nat) : step Lifecycle := expect (cx_lifecycle cx !! idx).
Definition set_resource (cx : ApplyContext) (idx : nat) (r : Resource.t) : ApplyContext :=
  with_resources cx (<[idx := r]> (cx_resources cx)).
Definition on_resource (cx : ApplyContext) (idx : nat) (c : outcome (string * Resource.t) Resource.t)
    : step ApplyContext :=
  match c with
  | Ok r => Ok (set_resource cx idx r)
  | Err (m, r) => Err (decode_err m, set_resource cx idx r)
  | Panic => Panic
  end.

Definition mark_created (cx : ApplyContext) (idx : nat) : step ApplyContext :=
  l ← lifecycle cx idx;
  l ← fails cx (map_err (created l));
  Ok (with_lifecycle cx (<[idx := l]> (cx_lifecycle cx))).

Definition mark_deleted (cx : ApplyContext) (idx : nat) : step ApplyContext :=
  l ← lifecycle cx idx;
  l ← fails cx (map_err (deleted l));
  let cx := with_lifecycle cx (<[idx := l]> (cx_lifecycle cx)) in
  r ← resource_at cx idx;
  Ok (set_resource cx idx (Resource.resize r 0)).

Section actions.
Context `{CastText} `{Blake3Keyed} `{K256} `{Hasher} `{Blake2b} `{DepositPolicy}.

Definition validate_user_create (slot_id : ResourceId) (initial_lock : LockEnum) (funding min_balance : Z)
    : AResult (array 32) :=
  let ilh := id_hash initial_lock in
  if negb (bool_decide (slot_id = derive_user_resource ilh))
  then Err (decode_err "create: slot id != derive_user_resource(initial_lock)")
  else if (funding <? min_balance)%Z then Err (decode_err "create: funding below policy minimum to create user")
  else Ok ilh.

(** ** action/config.rs *)

Definition write_new_state (cx : ApplyContext) (idx : nat) (target : Resource.t) (new_min_withdrawal_amount : Z)
    (new_covenant_id : array 32) (new_lock : LockEnum) : step ApplyContext :=
  let new_len := config_total_len new_lock in
  let target :=
    if (length (Resource.data target) =? 0) || negb (length (Resource.data target) =? new_len)
    then Resource.resize target new_len else target in
  on_resource cx idx
    (write_through target (fun out => write_config out new_min_withdrawal_amount new_covenant_id new_lock)).

Definition apply_update (updater_idx : byte) (new_min_withdrawal_amount : Z) (new_covenant_id : array 32)
    (new_lock : LockEnum) (cx : ApplyContext) : step ApplyContext :=
  let idx := usize_of updater_idx in
  target ← resource_at cx idx;
  if negb (bool_decide (Resource.id target = config_resource_id))
  then fail cx "update: target is not the config resource"
  else
    l ← lifecycle cx idx;
    match l with
    | New => fail cx "update: config resource must already exist"
    | Deleted => fail cx "update: config resource is deleted"
    | Live =>
        cur ← fails cx (map_err (ConfigView.from_bytes (Resource.data target)));
        if negb (bool_decide (new_covenant_id = ConfigView.covenant_id cur))
        then fail cx "update: covenant_id is immutable after init"
        else
          lock ← ConfigView.lock cur;
          unlocked ← fails cx (unlock lock updater_idx (cx_auth cx));
          if negb unlocked then fail cx "update: lock not satisfied"
          else write_new_state cx idx target new_min_withdrawal_amount new_covenant_id new_lock
    end.

Definition apply_init (updater_idx : byte) (new_min_withdrawal_amount : Z) (new_covenant_id : array 32)
    (new_lock : LockEnum) (cx : ApplyContext) : step ApplyContext :=
  let idx := usize_of updater_idx in
  target ← resource_at cx idx;
  if negb (bool_decide (Resource.id target = config_resource_id))
  then fail cx "init: target is not the config resource"
  else
    l ← lifecycle cx idx;
    if negb (bool_decide (l = New)) then fail cx "init: config resource already exists"
    else
      let genesis_lock := Schnorr {| SchnorrLockView.pubkey := GENESIS_SCHNORR_BYTES |} in
      unlocked ← fails cx (unlock genesis_lock updater_idx (cx_auth cx));
      if negb unlocked then fail cx "init: not authorized by genesis pubkey"
      else
        cx ← write_new_state cx idx target new_min_withdrawal_amount new_covenant_id new_lock;
        mark_created cx idx.

(** ** action/user.rs *)

Definition apply_transfer (source_idx dest_idx : byte) (amount : Z) (dest_init : option LockEnum) (cx : ApplyContext)
    : step ApplyContext :=
  let s := usize_of source_idx in
  let d := usize_of dest_idx in
  if bool_decide (source_idx = dest_idx) then fail cx "transfer: source and dest must differ"
  else
    l ← lifecycle cx d;
    dst_create ← match l with
                 | New => Ok true
                 | Live => Ok false
                 | Deleted => fail cx "transfer: dest was deleted in this tx"
                 end;
    match cx_resources cx !! s, cx_resources cx !! d with
    | Some src, Some dst =>
        src_lock ← fails cx (ok_or (view_user src UserView.lock) (decode_err "transfer: source not a live user resource"));
        src_lock ← src_lock;
        unlocked ← fails cx (unlock src_lock source_idx (cx_auth cx));
        if negb unlocked then fail cx "source: lock not satisfied"
        else
          create_plan ←
            (if dst_create : bool then
               lock ← fails cx (ok_or dest_init (decode_err "transfer: dest does not exist and no dest lock to create it"));
               ilh ← fails cx (validate_user_create (Resource.id dst) lock amount min_create_balance);
               Ok (Some (ilh, lock))
             else Ok None);
          let '(debit, src) := modify_user src (fun v =>
            match checked_sub (UserView.balance v) amount with
            | Some new => (Ok tt, Raw.set v new)
            | None => (Err "source: insufficient balance", v)
            end) in
          let cx := set_resource cx s src in
          debit ← fails cx (ok_or debit (decode_err "transfer: source not a live user resource"));
          _ ← fails cx (map_err debit);
          match create_plan with
          | Some (ilh, lock) =>
              cx ← on_resource cx d (init_user dst amount ilh lock);
              mark_created cx d
          | None =>
              let '(credit, dst) := modify_user dst (fun v =>
                match checked_add (UserView.balance v) amount with
                | Some new => (Ok tt, Raw.set v new)
                | None => (Err "dest: balance overflow", v)
                end) in
              let cx := set_resource cx d dst in
              credit ← fails cx (ok_or credit (decode_err "transfer: dest not a live user resource"));
              _ ← fails cx (map_err credit);
              Ok cx
          end
    | _, _ => fail cx "transfer: bad indices"
    end.

Definition apply_update_user_lock (user_idx : byte) (new_lock : LockEnum) (cx : ApplyContext) : step ApplyContext :=
  let idx := usize_of user_idx in
  target ← resource_at cx idx;
  lock ← fails cx (ok_or (view_user target UserView.lock) (decode_err "update_user_lock: not a live user resource"));
  lock ← lock;
  auth_ok ← fails cx (unlock lock user_idx (cx_auth cx));
  if negb auth_ok then fail cx "update_user_lock: current lock not satisfied"
  else on_resource cx idx (set_user_lock target new_lock).

(** ** action/withdraw.rs *)

(** The scan for the config resource, which stops at the first resource with its id. *)
Definition scan_config {R} (cx : ApplyContext) (f : Raw.t -> R) : option R :=
  r ← List.find (fun r => bool_decide (Resource.id r = config_resource_id)) (cx_resources cx);
  view_config r f.

Definition apply_withdraw (user_idx : byte) (amount : Z) (dest : StandardSpk) (cx : ApplyContext) : step ApplyContext :=
  let idx := usize_of user_idx in
  min ← fails cx (ok_or (scan_config cx ConfigView.min_withdrawal_amount)
                    (decode_err "withdraw: config resource absent or not live"));
  r ← resource_at cx idx;
  lock ← fails cx (ok_or (view_user r UserView.lock) (decode_err "withdraw: not a live user resource"));
  lock ← lock;
  auth_ok ← fails cx (unlock lock user_idx (cx_auth cx));
  if negb auth_ok then fail cx "withdraw: lock not satisfied"
  else if (amount <? min)%Z then fail cx "withdraw: amount below min_withdrawal_amount"
  else
    cur ← fails cx (ok_or (view_user r UserView.balance) (decode_err "withdraw: not a live user resource"));
    new_balance ← fails cx (ok_or (checked_sub cur amount) (decode_err "withdraw: insufficient balance"));
    let '(debit, r) := modify_user r (fun v => (tt, Raw.set v new_balance)) in
    let cx := set_resource cx idx r in
    _ ← fails cx (ok_or debit (decode_err "withdraw: not a live user resource"));
    match sink_emit (cx_exits cx) dest amount with
    | Ok exits => Ok (with_exits cx exits)
    | Err _ => fail cx "withdraw: emit failed"
    | Panic => Panic
    end.

(** ** action/deposit.rs *)

Inductive CreditKind := Create (ilh : array 32) | CreditExisting (new_balance : Z).

Definition credit_kind (cx : ApplyContext) (idx : nat) (r : Resource.t) (target : CreditTarget) (initial_lock : LockEnum)
    (deposit_value : Z) : step CreditKind :=
  l ← lifecycle cx idx;
  match l with
  | New =>
      match ct_create_with target with
      | Some _ =>
          ilh ← fails cx (validate_user_create (Resource.id r) initial_lock deposit_value min_create_balance);
          Ok (Create ilh)
      | None => fail cx "deposit: user does not exist (policy forbids create)"
      end
  | Live =>
      '(cur_balance, stored_ilh) ←
        fails cx (ok_or (view_user r (fun v => (UserView.balance v, UserView.initial_lock_hash v)))
                    (decode_err "deposit: target not a live user resource"));
      if negb (bool_decide (stored_ilh = id_hash initial_lock))
      then fail cx "deposit: initial_lock mismatch for existing user"
      else
        new ← fails cx (ok_or (checked_add cur_balance deposit_value) (decode_err "deposit: balance overflow"));
        Ok (CreditExisting new)
  | Deleted => fail cx "deposit: target slot was deleted in this tx"
  end.

Definition apply_deposit (user_idx : byte) (output_idx : Z) (initial_lock : LockEnum) (cx : ApplyContext)
    : step ApplyContext :=
  if bool_decide (output_idx ∈ cx_consumed cx) then fail cx "deposit: output already consumed in this tx"
  else
    covenant_id ← fails cx (ok_or (scan_config cx ConfigView.covenant_id)
                              (decode_err "deposit: config resource absent or not live"));
    out ← match parse_output_at_index_v1 (rest_preimage (cx_tx cx)) output_idx with
          | Ok out => Ok out
          | Err _ => fail cx "deposit: bad output_idx / rest_preimage"
          | Panic => Panic
          end;
    let body := {| db_user_idx := user_idx; db_output_idx := output_idx; db_initial_lock := initial_lock |} in
    let want_spk := deposit_spk {| ds_body := body; ds_covenant_id := covenant_id |} in
    if negb (out_spk_version out =? 0)%Z || negb (bool_decide (out_spk out = want_spk))
    then fail cx "deposit: funding output SPK != policy deposit_spk"
    else
      target ← fails cx (map_err (credit_target body));
      let idx := usize_of (ct_user_idx target) in
      if length (cx_resources cx) <=? idx then fail cx "deposit: credit user_idx out of range"
      else
        r ← resource_at cx idx;
        kind ← credit_kind cx idx r target initial_lock (out_value out);
        deposit ← fails cx (deposit_set (cx_deposit cx) (delegate_entry_spk_hash covenant_id));
        let cx := with_consumed (with_deposit cx deposit) (cx_consumed cx ++ [output_idx]) in
        match kind with
        | Create ilh =>
            cx ← mark_created cx idx;
            on_resource cx idx (init_user r (out_value out) ilh initial_lock)
        | CreditExisting new_balance =>
            let '(credit, r) := modify_user r (fun v => (tt, Raw.set v new_balance)) in
            let cx := set_resource cx idx r in
            _ ← fails cx (ok_or credit (decode_err "deposit: target not a live user resource"));
            Ok cx
        end.

(** ** action.rs: dispatch *)

Definition apply_action (action : ActionView) (cx : ApplyContext) : step ApplyContext :=
  match action_body action with
  | Update i m c l => apply_update i m c l cx
  | Init i m c l => apply_init i m c l cx
  | Transfer s d a l => apply_transfer s d a l cx
  | UpdateUserLock i l => apply_update_user_lock i l cx
  | Deposit i o l => apply_deposit i o l cx
  | Withdraw i a d => apply_withdraw i a d cx
  end.

(** ** runtime.rs: run *)

Fixpoint apply_actions (actions : list ActionView) (cx : ApplyContext) : step ApplyContext :=
  match actions with
  | [] => Ok cx
  | a :: actions => cx ← apply_action a cx; apply_actions actions cx
  end.

(** The signers' context; lengths are subtracted and the prefix is sliced as the source does. *)
Definition resolve_context (tx : Transaction) (ix : DecodedIx) (resources : list Resource.t)
    : AResult SignerResolveContext :=
  let pl := payload tx in
  if length (p_bytes pl) <? length (ix_data pl) then Panic
  else
    let end_ := length (p_bytes pl) - length (ix_data pl) + end_of_actions_in_ix ix in
    if length (p_bytes pl) <? end_ then Panic
    else Ok {| sc_payload_bytes := p_bytes pl; sc_current_rest_preimage := rest_preimage tx;
               sc_resources := resources; sc_payload_presig := take end_ (p_bytes pl) |}.

Definition run (tx : Transaction) (st : HandlerState) : AResult (AbiError.t + unit) * HandlerState :=
  let cx :=
    ix ← from_codec (decode_ix (ix_data (payload tx)) (length (hs_resources st)));
    ctx ← resolve_context tx ix (hs_resources st);
    auth ← resolve_signers (ix_signers ix) ctx;
    Ok (ix_actions ix, cx_new tx st auth) in
  match cx with
  | Ok (actions, cx) =>
      let state cx := {| hs_resources := cx_resources cx; hs_exits := cx_exits cx; hs_deposit := cx_deposit cx |} in
      match apply_actions actions cx with
      | Ok cx => (Ok (inr tt), state cx)
      | Err (e, cx) => (Ok (inl e), state cx)
      | Panic => (Panic, st)
      end
  | Err e => (Ok (inl e), st)
  | Panic => (Panic, st)
  end.

(** main.rs: the handler the guest runs. *)
Definition runtime_handler : TransactionHandler := fun tx _ _ st =>
  match run tx st with
  | (Ok res, st) => Some (res, st)
  | _ => None
  end.
End actions.
