(* ===== verification/RtProofs.v ===== *)
(** * RtProofs: the runtime processor against its ledger

    What the bytes of a resource mean, the abstract ledger of users and config the runtime keeps,
    and the refinement: every action does what the ledger's rule for it says. *)

From S2P Require Import Prelude Codec Types SmtNode AbiCore AbiTx RtLock RtState RtAuth RtActions.
Import ResourceExt.

(** ** The layout *)

Lemma raw_ref_exact l raw : Raw.ref_from_bytes l = Some raw <-> l = Raw.as_bytes raw.
Proof.
  unfold Raw.ref_from_bytes, Raw.as_bytes. split.
  - destruct (split_first_chunk 1 l) as [[k l1]|] eqn:E1; [|done]. cbn [mbind option_bind].
    destruct (split_first_chunk 8 l1) as [[w l2]|] eqn:E2; [|done]. cbn [mbind option_bind].
    destruct (split_first_chunk 32 l2) as [[i l3]|] eqn:E3; [|done]. cbn [mbind option_bind].
    destruct (split_first_chunk 1 l3) as [[g l4]|] eqn:E4; [|done]. intros [= <-].
    apply split_first_chunk_Some in E1 as ->, E2 as ->, E3 as ->, E4 as ->.
    inv_vec k. inv_vec g. done.
  - intros ->. destruct raw as [k w i g body].
    cbn [Raw.kind Raw.word Raw.id32 Raw.raw_tag Raw.raw_body].
    change ([k] ++ ?l) with (vec_to_list [#k] ++ l). rewrite split_first_chunk_app. cbn [mbind option_bind].
    rewrite split_first_chunk_app. cbn [mbind option_bind]. rewrite split_first_chunk_app. cbn [mbind option_bind].
    change ([g] ++ body) with (vec_to_list [#g] ++ body). by rewrite split_first_chunk_app.
Qed.

Lemma length_as_bytes raw : length (Raw.as_bytes raw) = Raw.HEADER_LEN + length (Raw.raw_body raw).
Proof. unfold Raw.as_bytes. rewrite !length_app, !length_vec_to_list. done. Qed.

(** A well-formed resource of a kind: its lock body is the encoding of a lock. *)
Definition raw_ok (k : byte) (raw : Raw.t) : Prop :=
  Raw.kind raw = k /\ exists lock, decode_lock_body (Raw.raw_tag raw) (Raw.raw_body raw) = Ok lock.

Lemma array_of_list_total n (l : bytes) : length l = n -> exists v, array_of_list n l = Some v.
Proof. intros Hl. rewrite <- (firstn_all l), Hl. apply array_of_list_take. lia. Qed.

Lemma validate_decode tag body :
  validate_lock_body tag body = Ok tt <-> exists lock, decode_lock_body tag body = Ok lock.
Proof.
  unfold decode_lock_body. split; [|intros [lock Hd]; by apply bind_Ok in Hd as ([] & ? & _)].
  intros Hv. rewrite Hv. cbn [mbind outcome_bind]. revert Hv.
  unfold validate_lock_body, decode_lock_body_unchecked. repeat case_bool_decide; try done.
  - destruct (Nat.eqb_spec (length body) 32) as [Hl|]; [|done]. intros _.
    destruct (array_of_list_total 32 body Hl) as [v ->]. by eexists.
  - destruct body as [|t [|n pks]]; try done. intros _. by eexists.
  - intros _. by eexists.
Qed.

Lemma checked_view_exact k e1 e2 e3 l raw :
  checked_view k e1 e2 e3 l = Ok raw <-> l = Raw.as_bytes raw /\ raw_ok k raw.
Proof.
  unfold checked_view, raw_ok. rewrite <- validate_decode. split.
  - destruct (_ <? _); [done|]. intros Hv. apply bind_Ok in Hv as (r & Hr & Hv). apply ok_or_Ok, raw_ref_exact in Hr as ->.
    case_bool_decide; [|done]. cbn [negb] in Hv. apply bind_Ok in Hv as ([] & ? & [= ->]). done.
  - intros (-> & Hk & Hl). rewrite length_as_bytes, (proj2 (Nat.ltb_ge _ _)) by lia.
    rewrite (proj2 (raw_ref_exact _ raw)) by done. cbn [ok_or mbind outcome_bind].
    rewrite bool_decide_true by done. cbn [negb]. by rewrite Hl.
Qed.

Lemma as_bytes_inj a b : Raw.as_bytes a = Raw.as_bytes b -> a = b.
Proof.
  intros Hab. assert (Raw.ref_from_bytes (Raw.as_bytes a) = Some b) as Hb by (by apply raw_ref_exact).
  rewrite (proj2 (raw_ref_exact _ a)) in Hb by done. by injection Hb.
Qed.

(** ** Views *)

Definition as_user (r : Resource.t) : option Raw.t := view_user r id.
Definition as_config (r : Resource.t) : option Raw.t := view_config r id.

Lemma view_user_as {R} r (f : Raw.t -> R) : view_user r f = f <$> as_user r.
Proof.
  unfold as_user, view_user. destruct (kind r) as [k|]; [|done]. cbn [mbind option_bind].
  destruct (negb _); [done|]. by destruct (ok _).
Qed.
Lemma view_config_as {R} r (f : Raw.t -> R) : view_config r f = f <$> as_config r.
Proof.
  unfold as_config, view_config. destruct (kind r) as [k|]; [|done]. cbn [mbind option_bind].
  destruct (negb _); [done|]. by destruct (ok _).
Qed.

Lemma kind_as_bytes r raw : Resource.data r = Raw.as_bytes raw -> kind r = Some (Raw.kind raw).
Proof. unfold kind. by intros ->. Qed.

Lemma as_user_exact r raw : as_user r = Some raw <-> Resource.data r = Raw.as_bytes raw /\ raw_ok KIND_USER raw.
Proof.
  unfold as_user, view_user. split.
  - destruct (kind r); [|done]. cbn [mbind option_bind]. destruct (negb _); [done|].
    destruct (UserView.from_bytes _) as [raw'| |] eqn:E; [|done..]. intros [= ->]. by apply checked_view_exact in E.
  - intros [Hd Hok]. rewrite (kind_as_bytes r raw Hd). cbn [mbind option_bind].
    rewrite bool_decide_true by apply Hok. cbn [negb]. unfold UserView.from_bytes.
    by rewrite (proj2 (checked_view_exact _ _ _ _ _ raw)).
Qed.
Lemma as_config_exact r raw : as_config r = Some raw <-> Resource.data r = Raw.as_bytes raw /\ raw_ok KIND_CONFIG raw.
Proof.
  unfold as_config, view_config. split.
  - destruct (kind r); [|done]. cbn [mbind option_bind]. destruct (negb _); [done|].
    destruct (ConfigView.from_bytes _) as [raw'| |] eqn:E; [|done..]. intros [= ->]. by apply checked_view_exact in E.
  - intros [Hd Hok]. rewrite (kind_as_bytes r raw Hd). cbn [mbind option_bind].
    rewrite bool_decide_true by apply Hok. cbn [negb]. unfold ConfigView.from_bytes.
    by rewrite (proj2 (checked_view_exact _ _ _ _ _ raw)).
Qed.

(** ** Slots: what a resource's bytes mean *)

Definition mk_raw (k : byte) (word : Z) (id32 : array 32) (lock : LockEnum) : Raw.t :=
  {| Raw.kind := k; Raw.word := le_split 8 word; Raw.id32 := id32; Raw.raw_tag := lock_tag lock;
     Raw.raw_body := lock_body lock |}.

Lemma mk_raw_ok k word id32 lock : lock_ok lock -> raw_ok k (mk_raw k word id32 lock).
Proof. intros Hl. split; [done|]. exists lock. by apply decode_lock_body_Ok. Qed.

Lemma mk_raw_get k word id32 lock : u64 word -> Raw.get (mk_raw k word id32 lock) = word.
Proof. intros Hw. unfold Raw.get, getu. cbn [mk_raw Raw.word]. apply le_combine_split_small. unfold u64 in Hw. lia. Qed.

Lemma get_u64 raw : u64 (Raw.get raw).
Proof.
  unfold Raw.get, getu, u64. pose proof (le_combine_bound (vec_to_list (Raw.word raw))) as Hb.
  rewrite length_vec_to_list in Hb. lia.
Qed.

Lemma raw_ok_mk k raw : raw_ok k raw -> exists lock, lock_ok lock /\ raw = mk_raw k (Raw.get raw) (Raw.id32 raw) lock.
Proof.
  intros [Hk [lock Hl]]. apply decode_lock_body_Ok in Hl as (Hok & Ht & Hb). exists lock. split; [done|].
  destruct raw as [k' w i g b]. cbn in *. unfold mk_raw, Raw.get, getu. cbn [Raw.word]. rewrite le_split_combine. by subst.
Qed.

Lemma mk_raw_lock {E} k word id32 lock :
  lock_ok lock -> @decode_lock_body_unchecked E (Raw.raw_tag (mk_raw k word id32 lock)) (Raw.raw_body (mk_raw k word id32 lock)) = Ok lock.
Proof.
  intros Hl. cbn [Raw.raw_tag Raw.raw_body mk_raw].
  assert (decode_lock_body (lock_tag lock) (lock_body lock) = Ok lock) as Hd by (by apply decode_lock_body_Ok).
  unfold decode_lock_body in Hd. apply bind_Ok in Hd as (_ & _ & Hd). revert Hd. unfold decode_lock_body_unchecked.
  repeat case_bool_decide; try done.
  - destruct (array_of_list 32 (lock_body lock)); [|done]. cbn. congruence.
  - destruct (lock_body lock) as [|? [|? ?]]; try done. congruence.
  - congruence.
Qed.

Inductive slot :=
| Vacant
| User (balance : Z) (initial_lock_hash : array 32) (lock : LockEnum)
| Config (min_withdrawal_amount : Z) (covenant_id : array 32) (lock : LockEnum)
| Foreign (data : bytes).

#[global] Instance slot_eq_dec : EqDecision slot.
Proof. solve_decision. Defined.

(** The bytes of a slot, and the slot of a resource's bytes. *)
Definition slot_bytes (s : slot) : bytes :=
  match s with
  | Vacant => []
  | User b h l => Raw.as_bytes (mk_raw KIND_USER b h l)
  | Config m c l => Raw.as_bytes (mk_raw KIND_CONFIG m c l)
  | Foreign data => data
  end.

Definition slot_of (data : bytes) : slot :=
  match data with
  | [] => Vacant
  | _ =>
      match UserView.from_bytes data, ConfigView.from_bytes data with
      | Ok raw, _ => match @UserView.lock string raw with Ok l => User (Raw.get raw) (Raw.id32 raw) l | _ => Foreign data end
      | _, Ok raw => match @ConfigView.lock string raw with Ok l => Config (Raw.get raw) (Raw.id32 raw) l | _ => Foreign data end
      | _, _ => Foreign data
      end
  end.

(** The canonical slots: a 64-bit word and a well-formed lock. *)
Definition slot_ok (s : slot) : Prop :=
  match s with User w _ l | Config w _ l => u64 w /\ lock_ok l | _ => True end.

Lemma raw_lock_ok {E} k raw :
  raw_ok k raw -> exists l, @decode_lock_body_unchecked E (Raw.raw_tag raw) (Raw.raw_body raw) = Ok l /\
    lock_ok l /\ u64 (Raw.get raw) /\ raw = mk_raw k (Raw.get raw) (Raw.id32 raw) l.
Proof.
  intros Hok. destruct (raw_ok_mk _ _ Hok) as (lock & Hl & Hraw). exists lock. split; [|split; [done|split; [apply get_u64|done]]].
  rewrite Hraw. by apply mk_raw_lock.
Qed.

Lemma slot_of_canonical data : slot_ok (slot_of data) /\ slot_bytes (slot_of data) = data.
Proof.
  unfold slot_of, UserView.lock, ConfigView.lock. destruct data as [|x data]; [done|].
  destruct (UserView.from_bytes (x :: data)) as [raw| |] eqn:Eu.
  { apply checked_view_exact in Eu as [-> Hok].
    destruct (raw_lock_ok (E := string) _ _ Hok) as (l & -> & Hl & Hb & Hraw). cbn [slot_ok slot_bytes]. by rewrite <- Hraw. }
  all: destruct (ConfigView.from_bytes (x :: data)) as [raw| |] eqn:Ec; [|done..].
  all: apply checked_view_exact in Ec as [-> Hok].
  all: destruct (raw_lock_ok (E := string) _ _ Hok) as (l & -> & Hl & Hb & Hraw).
  all: cbn [slot_ok slot_bytes]; by rewrite <- Hraw.
Qed.

Lemma slot_bytes_of data : slot_bytes (slot_of data) = data.
Proof. apply slot_of_canonical. Qed.
Lemma slot_of_ok data : slot_ok (slot_of data).
Proof. apply slot_of_canonical. Qed.

Lemma slot_of_inj a b : slot_of a = slot_of b -> a = b.
Proof. intros Hab. by rewrite <- (slot_bytes_of a), Hab, slot_bytes_of. Qed.

Lemma slot_of_vacant data : slot_of data = Vacant <-> data = [].
Proof. split; [|by intros ->]. intros Hs. by rewrite <- (slot_bytes_of data), Hs. Qed.

Lemma as_bytes_view k k' e1 e2 e3 raw :
  raw_ok k raw -> checked_view k' e1 e2 e3 (Raw.as_bytes raw) = Ok raw \/ (k <> k' /\ ok (checked_view k' e1 e2 e3 (Raw.as_bytes raw)) = None).
Proof.
  intros Hok. destruct (decide (k = k')) as [->|Hne]; [left; by apply checked_view_exact|]. right. split; [done|].
  destruct (checked_view _ _ _ _ _) as [raw'| |] eqn:E; [|done..]. apply checked_view_exact in E as [Heq [Hk _]].
  apply as_bytes_inj in Heq as ->. destruct Hok as [Hk' _]. congruence.
Qed.

Lemma slot_of_user b h l : u64 b -> lock_ok l -> slot_of (slot_bytes (User b h l)) = User b h l.
Proof.
  intros Hb Hl. cbn [slot_bytes]. set (raw := mk_raw KIND_USER b h l). unfold slot_of.
  destruct (Raw.as_bytes raw) eqn:E; [done|]. rewrite <- E.
  unfold UserView.from_bytes. rewrite (proj2 (checked_view_exact _ _ _ _ _ raw)) by (split; [done|by apply mk_raw_ok]).
  unfold UserView.lock, raw. rewrite mk_raw_lock by done. by rewrite mk_raw_get.
Qed.

Lemma slot_of_config m c l : u64 m -> lock_ok l -> slot_of (slot_bytes (Config m c l)) = Config m c l.
Proof.
  intros Hb Hl. cbn [slot_bytes]. set (raw := mk_raw KIND_CONFIG m c l). unfold slot_of.
  destruct (Raw.as_bytes raw) eqn:E; [done|]. rewrite <- E.
  assert (raw_ok KIND_CONFIG raw) as Hok by (by apply mk_raw_ok).
  unfold UserView.from_bytes.
  destruct (as_bytes_view KIND_CONFIG KIND_USER "user: too short for header" "user: invalid layout" "user: wrong kind byte" raw Hok)
    as [Hc|[_ Hn]]; [apply checked_view_exact in Hc as [_ [Hk _]]; done|].
  destruct (checked_view KIND_USER _ _ _ _) as [|e|]; [done|..].
  all: unfold ConfigView.from_bytes; rewrite (proj2 (checked_view_exact _ _ _ _ _ raw)) by done.
  all: unfold ConfigView.lock, raw; rewrite mk_raw_lock by done; by rewrite mk_raw_get.
Qed.

(** ** Views and writers, by slot *)

Definition rslot (r : Resource.t) : slot := slot_of (Resource.data r).

Lemma rslot_bytes r s : rslot r = s -> Resource.data r = slot_bytes s.
Proof. intros <-. symmetry. apply slot_bytes_of. Qed.

Lemma rslot_ok r s : rslot r = s -> slot_ok s.
Proof. intros <-. apply slot_of_ok. Qed.

Lemma view_user_slot {R} r (f : Raw.t -> R) x :
  view_user r f = Some x <-> exists b h l, rslot r = User b h l /\ x = f (mk_raw KIND_USER b h l).
Proof.
  rewrite view_user_as, fmap_Some. split.
  - intros (raw & Hr & ->). apply as_user_exact in Hr as [Hd Hok].
    destruct (raw_ok_mk _ _ Hok) as (l & Hl & Hraw). exists (Raw.get raw), (Raw.id32 raw), l. rewrite <- Hraw. split; [|done].
    unfold rslot. rewrite Hd, Hraw at 1. apply slot_of_user; [apply get_u64|done].
  - intros (b & h & l & Hs & ->). exists (mk_raw KIND_USER b h l). split; [|done]. apply as_user_exact.
    split; [by rewrite (rslot_bytes r _ Hs)|]. apply mk_raw_ok. by apply rslot_ok in Hs as [_ ?].
Qed.

Lemma view_config_slot {R} r (f : Raw.t -> R) x :
  view_config r f = Some x <-> exists m c l, rslot r = Config m c l /\ x = f (mk_raw KIND_CONFIG m c l).
Proof.
  rewrite view_config_as, fmap_Some. split.
  - intros (raw & Hr & ->). apply as_config_exact in Hr as [Hd Hok].
    destruct (raw_ok_mk _ _ Hok) as (l & Hl & Hraw). exists (Raw.get raw), (Raw.id32 raw), l. rewrite <- Hraw. split; [|done].
    unfold rslot. rewrite Hd, Hraw at 1. apply slot_of_config; [apply get_u64|done].
  - intros (m & c & l & Hs & ->). exists (mk_raw KIND_CONFIG m c l). split; [|done]. apply as_config_exact.
    split; [by rewrite (rslot_bytes r _ Hs)|]. apply mk_raw_ok. by apply rslot_ok in Hs as [_ ?].
Qed.

Lemma config_from_bytes_slot r raw :
  ConfigView.from_bytes (Resource.data r) = Ok raw <-> exists m c l, rslot r = Config m c l /\ raw = mk_raw KIND_CONFIG m c l.
Proof.
  rewrite <- (view_config_slot r id raw). fold (as_config r). rewrite as_config_exact. apply checked_view_exact.
Qed.

Lemma data_data_mut r f : Resource.data (Resource.data_mut r f) = f (Resource.data r).
Proof. unfold Resource.data, Resource.data_mut. by destruct (Resource.promoted r). Qed.
Lemma id_data_mut r f : Resource.id (Resource.data_mut r f) = Resource.id r.
Proof. unfold Resource.data_mut. by destruct (Resource.promoted r). Qed.

Lemma length_vec_resize v n : length (Resource.vec_resize v n) = n.
Proof.
  unfold Resource.vec_resize. destruct (Nat.leb_spec n (length v)); [rewrite length_take; lia|].
  rewrite length_app, length_replicate. lia.
Qed.

Lemma resize_spec r n : length (Resource.data (Resource.resize r n)) = n /\ Resource.id (Resource.resize r n) = Resource.id r.
Proof.
  unfold Resource.resize. destruct (Nat.eqb_spec n (length (Resource.data r))) as [->|]; [done|].
  unfold Resource.data in *. destruct (Resource.promoted r) as [v|]; cbn [default id] in *.
  all: match goal with |- context [?a <? ?b] => destruct (Nat.ltb_spec a b) end; cbn; split; try done.
  all: try apply length_vec_resize; rewrite length_take; lia.
Qed.

Lemma length_lock_body l : length (lock_body l) = wire_body_len l.
Proof. destruct l as [[k]|m|[]]; cbn; [by rewrite length_vec_to_list|done|done]. Qed.

Lemma write_body_spec {E} l out : length out = wire_body_len l -> @write_body E l out = Ok (lock_body l).
Proof.
  intros Hl. destruct l as [[k]|m|[]]; cbn in Hl |- *; [by rewrite Hl|by rewrite Hl, Nat.eqb_refl|].
  by apply nil_length_inv in Hl as ->.
Qed.

Lemma write_raw_spec k e out w i l :
  length out = Raw.HEADER_LEN + wire_body_len l ->
  write_raw k (Raw.HEADER_LEN + wire_body_len l) e out w i l = Ok (Raw.as_bytes (mk_raw k w i l)).
Proof.
  intros Hl. unfold write_raw. rewrite Hl, Nat.eqb_refl. cbn [negb].
  rewrite write_body_spec by (rewrite length_drop; lia). done.
Qed.

Lemma write_user_slot out b h l :
  length out = user_total_len l -> write_user out b h l = Ok (slot_bytes (User b h l)).
Proof. apply write_raw_spec. Qed.
Lemma write_config_slot out m c l :
  length out = config_total_len l -> write_config out m c l = Ok (slot_bytes (Config m c l)).
Proof. apply write_raw_spec. Qed.

Lemma init_user_slot r b h l :
  Resource.data r = [] ->
  exists r', init_user r b h l = Ok r' /\ Resource.data r' = slot_bytes (User b h l) /\ Resource.id r' = Resource.id r.
Proof.
  intros Hd. unfold init_user. rewrite Hd. destruct (resize_spec r (user_total_len l)) as [Hlen Hid].
  unfold write_through. rewrite write_user_slot by done. eexists. split; [done|].
  by rewrite data_data_mut, id_data_mut, Hid.
Qed.

Lemma set_user_lock_slot r b h l l' :
  rslot r = User b h l ->
  exists r', set_user_lock r l' = Ok r' /\ Resource.data r' = slot_bytes (User b h l') /\ Resource.id r' = Resource.id r.
Proof.
  intros Hs. destruct (rslot_ok _ _ Hs) as [Hb Hl]. apply rslot_bytes in Hs. cbn [slot_bytes] in Hs. unfold set_user_lock.
  rewrite (kind_as_bytes r _ Hs), bool_decide_true by done. cbn [negb]. unfold UserView.from_bytes.
  rewrite (proj2 (checked_view_exact _ _ _ _ _ _)) by (split; [exact Hs|by apply mk_raw_ok]).
  destruct (resize_spec r (Raw.HEADER_LEN + wire_body_len l')) as [Hlen Hid].
  unfold write_through. rewrite write_user_slot by done. eexists. split; [done|].
  rewrite data_data_mut, id_data_mut, Hid. unfold UserView.balance, UserView.initial_lock_hash. by rewrite mk_raw_get.
Qed.

Lemma modify_user_slot {R} r b h l (f : Raw.t -> R * Raw.t) :
  rslot r = User b h l ->
  modify_user r f = (Some (f (mk_raw KIND_USER b h l)).1,
                     Resource.data_mut r (fun _ => Raw.as_bytes (f (mk_raw KIND_USER b h l)).2)).
Proof.
  intros Hs. destruct (rslot_ok _ _ Hs) as [Hb Hl]. apply rslot_bytes in Hs. cbn [slot_bytes] in Hs.
  unfold modify_user, modify. rewrite (kind_as_bytes r _ Hs). rewrite bool_decide_true by done. cbn [negb].
  unfold UserView.from_bytes. rewrite (proj2 (checked_view_exact _ _ _ _ _ _)) by (split; [exact Hs|by apply mk_raw_ok]).
  by destruct (f _).
Qed.

Lemma modify_user_other {R} r (f : Raw.t -> R * Raw.t) :
  (forall b h l, rslot r <> User b h l) -> exists r', modify_user r f = (None, r') /\ Resource.data r' = Resource.data r /\ Resource.id r' = Resource.id r.
Proof.
  intros Hs. unfold modify_user, modify. destruct (kind r) as [k|]; [|by eexists].
  destruct (negb _); [by eexists|]. destruct (UserView.from_bytes _) as [raw| |] eqn:E.
  2,3: eexists; split; [done|]; by rewrite data_data_mut, id_data_mut.
  assert (view_user r id = Some raw) as Hv by (apply as_user_exact; by apply checked_view_exact in E).
  apply view_user_slot in Hv as (b & h & l & Hr & _). by destruct (Hs b h l).
Qed.
