(* ===== verification/RtLedger.v ===== *)
(** * RtLedger: the ledger the runtime processor keeps

    Users and the config as an abstract book, one rule per action, and the refinement in both
    directions: an action succeeds exactly when its rule applies, and does what the rule says. *)

From S2P Require Import Prelude Codec Types SmtNode AbiCore AbiTx RtLock RtState RtAuth RtActions RtProofs.
Import ResourceExt.

(** ** The book *)

(** The slots by resource, the exits emitted, the outputs consumed and the deposit address. *)
Record Book := {
  bk_slots : list (ResourceId * slot);
  bk_exits : bytes;
  bk_consumed : list Z;
  bk_deposit : array 32
}.

Definition book_of (cx : ApplyContext) : Book :=
  {| bk_slots := (fun r => (Resource.id r, rslot r)) <$> cx_resources cx; bk_exits := cx_exits cx;
     bk_consumed := cx_consumed cx; bk_deposit := cx_deposit cx |}.

Definition put (bk : Book) (i : nat) (s : slot) : Book :=
  {| bk_slots := alter (fun e => (e.1, s)) i (bk_slots bk); bk_exits := bk_exits bk; bk_consumed := bk_consumed bk;
     bk_deposit := bk_deposit bk |}.
Definition emit (bk : Book) (dest : StandardSpk) (amount : Z) : Book :=
  {| bk_slots := bk_slots bk; bk_exits := bk_exits bk ++ exits_encode [(dest, amount)]; bk_consumed := bk_consumed bk;
     bk_deposit := bk_deposit bk |}.
Definition consume (bk : Book) (output_idx : Z) (deposit : array 32) : Book :=
  {| bk_slots := bk_slots bk; bk_exits := bk_exits bk; bk_consumed := bk_consumed bk ++ [output_idx];
     bk_deposit := deposit |}.

Section rules.
Context `{Hasher} `{Blake2b} `{DepositPolicy} (rest_preimage : bytes) (auth : AuthContext).

Definition unlocks (l : LockEnum) (i : byte) : Prop := unlock l i auth = Ok true.

Definition genesis_lock : LockEnum := Schnorr {| SchnorrLockView.pubkey := GENESIS_SCHNORR_BYTES |}.

(** The config: the first slot with the config's id, if it holds one. *)
Definition book_config (bk : Book) : option (Z * array 32) :=
  match List.find (fun e => bool_decide (e.1 = config_resource_id)) (bk_slots bk) with
  | Some (_, Config m c _) => Some (m, c)
  | _ => None
  end.

(** An output of the transaction that pays the deposit address and was not credited yet. *)
Record funding (bk : Book) (i : byte) (o : Z) (l : LockEnum) (v : Z) (t : CreditTarget) (deposit : array 32) : Prop := {
  fd_fresh : o ∉ bk_consumed bk;
  fd_pays : exists m c out,
    book_config bk = Some (m, c) /\ parse_output_at_index_v1 rest_preimage o = Ok out /\
    out_value out = v /\ out_spk_version out = 0%Z /\
    out_spk out = deposit_spk {| ds_body := {| db_user_idx := i; db_output_idx := o; db_initial_lock := l |};
                                 ds_covenant_id := c |} /\
    deposit_set (bk_deposit bk) (delegate_entry_spk_hash c) = Ok deposit;
  fd_target : credit_target {| db_user_idx := i; db_output_idx := o; db_initial_lock := l |} = Ok t
}.

Inductive book_step : ActionBody -> Book -> Book -> Prop :=
| step_update i m c l m0 l0 bk :
    bk_slots bk !! usize_of i = Some (config_resource_id, Config m0 c l0) -> unlocks l0 i ->
    book_step (Update i m c l) bk (put bk (usize_of i) (Config m c l))
| step_init i m c l bk :
    bk_slots bk !! usize_of i = Some (config_resource_id, Vacant) -> unlocks genesis_lock i ->
    book_step (Init i m c l) bk (put bk (usize_of i) (Config m c l))
| step_transfer s d a li sid sb sh sl did db dh dl bk :
    s <> d -> bk_slots bk !! usize_of s = Some (sid, User sb sh sl) -> unlocks sl s ->
    bk_slots bk !! usize_of d = Some (did, User db dh dl) -> (a <= sb)%Z -> (db + a < 2 ^ 64)%Z ->
    book_step (Transfer s d a li) bk
      (put (put bk (usize_of s) (User (sb - a) sh sl)) (usize_of d) (User (db + a) dh dl))
| step_transfer_create s d a l sid sb sh sl bk :
    s <> d -> bk_slots bk !! usize_of s = Some (sid, User sb sh sl) -> unlocks sl s ->
    bk_slots bk !! usize_of d = Some (derive_user_resource (id_hash l), Vacant) ->
    (min_create_balance <= a)%Z -> (a <= sb)%Z ->
    book_step (Transfer s d a (Some l)) bk
      (put (put bk (usize_of s) (User (sb - a) sh sl)) (usize_of d) (User a (id_hash l) l))
| step_user_lock i l id b h l0 bk :
    bk_slots bk !! usize_of i = Some (id, User b h l0) -> unlocks l0 i ->
    book_step (UpdateUserLock i l) bk (put bk (usize_of i) (User b h l))
| step_withdraw i a dest id b h l m c bk :
    book_config bk = Some (m, c) -> bk_slots bk !! usize_of i = Some (id, User b h l) -> unlocks l i ->
    (m <= a)%Z -> (a <= b)%Z ->
    book_step (Withdraw i a dest) bk (emit (put bk (usize_of i) (User (b - a) h l)) dest a)
| step_deposit i o l v t deposit id b l0 bk :
    funding bk i o l v t deposit ->
    bk_slots bk !! usize_of (ct_user_idx t) = Some (id, User b (id_hash l) l0) -> (b + v < 2 ^ 64)%Z ->
    book_step (Deposit i o l) bk
      (put (consume bk o deposit) (usize_of (ct_user_idx t)) (User (b + v) (id_hash l) l0))
| step_deposit_create i o l v t deposit bk :
    funding bk i o l v t deposit -> is_Some (ct_create_with t) ->
    bk_slots bk !! usize_of (ct_user_idx t) = Some (derive_user_resource (id_hash l), Vacant) ->
    (min_create_balance <= v)%Z ->
    book_step (Deposit i o l) bk (put (consume bk o deposit) (usize_of (ct_user_idx t)) (User v (id_hash l) l)).

(** The actions of a transaction, in order. *)
Inductive book_steps : list ActionBody -> Book -> Book -> Prop :=
| steps_nil bk : book_steps [] bk bk
| steps_cons a acts bk bk' bk'' : book_step a bk bk' -> book_steps acts bk' bk'' -> book_steps (a :: acts) bk bk''.
End rules.

(** ** Contexts *)

(** A slot is new exactly if it is empty, no slot is deleted, and the unlockers are sorted. *)
Record cx_ok (cx : ApplyContext) : Prop := {
  ok_lifecycle : Forall2 (fun r l => l <> Deleted /\ (l = New <-> Resource.data r = [])) (cx_resources cx) (cx_lifecycle cx);
  ok_schnorr : bucket_sorted (auth_schnorr (cx_auth cx));
  ok_multisig : bucket_sorted (auth_multisig (cx_auth cx))
}.

(** What the decoder guarantees of an action. *)
Definition action_ok (n : nat) (a : ActionBody) : Prop :=
  match a with
  | Update i m _ l | Init i m _ l => usize_of i < n /\ u64 m /\ lock_ok l
  | Transfer s d a l => usize_of s < n /\ usize_of d < n /\ u64 a /\ match l with Some l => lock_ok l | None => True end
  | UpdateUserLock i l => usize_of i < n /\ lock_ok l
  | Deposit i o l => usize_of i < n /\ u32 o /\ lock_ok l
  | Withdraw i a _ => usize_of i < n /\ u64 a
  end.

Lemma fails_Ok {A} cx (c : AResult A) a : fails cx c = Ok a <-> c = Ok a.
Proof. destruct c; naive_solver. Qed.
Lemma map_err_Ok {A} (c : outcome string A) a : map_err c = Ok a <-> c = Ok a.
Proof. destruct c; naive_solver. Qed.
Lemma on_resource_Ok cx i c cx' : on_resource cx i c = Ok cx' <-> exists r, c = Ok r /\ cx' = set_resource cx i r.
Proof. destruct c as [r|[m r]|]; naive_solver. Qed.

(** Inverts a successful run of an action. *)
Ltac inv_step :=
  repeat (inv_ok; match goal with
  | H : fails _ _ = Ok _ |- _ => apply fails_Ok in H
  | H : map_err _ = Ok _ |- _ => apply map_err_Ok in H
  | H : fail _ _ = Ok _ |- _ => discriminate H
  | H : resource_at _ _ = Ok _ |- _ => apply expect_Ok in H
  | H : lifecycle _ _ = Ok _ |- _ => apply expect_Ok in H
  | H : on_resource _ _ _ = Ok _ |- _ => apply on_resource_Ok in H as (? & ? & ->)
  | H : (if negb ?b then _ else _) = Ok _ |- _ => destruct b eqn:?; cbn [negb] in H
  | H : (if ?b then _ else _) = Ok _ |- _ => destruct b eqn:?
  | H : bool_decide _ = true |- _ => apply bool_decide_eq_true in H
  | H : bool_decide _ = false |- _ => apply bool_decide_eq_false in H
  end); inv_ok.

Lemma book_lookup cx i r : cx_resources cx !! i = Some r -> bk_slots (book_of cx) !! i = Some (Resource.id r, rslot r).
Proof. intros Hr. cbn. by rewrite list_lookup_fmap, Hr. Qed.

Lemma book_lookup_inv cx i id s :
  bk_slots (book_of cx) !! i = Some (id, s) -> exists r, cx_resources cx !! i = Some r /\ Resource.id r = id /\ rslot r = s.
Proof. cbn. rewrite list_lookup_fmap, fmap_Some. intros (r & Hr & [= -> ->]). by exists r. Qed.

Lemma alter_insert_list {A} (f : A -> A) i (l : list A) x : l !! i = Some x -> alter f i l = <[i := f x]> l.
Proof.
  revert i. induction l as [|y l IH]; intros [|i]; cbn; try done; [by intros [= ->]|]. intros Hx. f_equal. by apply IH.
Qed.

(** A resource whose bytes are those of a slot in place of another with the same id. *)
Lemma book_set_resource cx i r r' s :
  cx_resources cx !! i = Some r -> Resource.id r' = Resource.id r -> rslot r' = s ->
  book_of (set_resource cx i r') = put (book_of cx) i s.
Proof.
  intros Hr Hid <-. unfold book_of, put, set_resource. cbn. f_equal.
  rewrite list_fmap_insert. cbn. by rewrite (alter_insert_list _ i _ (Resource.id r, rslot r)), Hid by (by rewrite list_lookup_fmap, Hr).
Qed.

Lemma rslot_user r b h l : Resource.data r = slot_bytes (User b h l) -> u64 b -> lock_ok l -> rslot r = User b h l.
Proof. unfold rslot. intros ->. apply slot_of_user. Qed.
Lemma rslot_config r m c l : Resource.data r = slot_bytes (Config m c l) -> u64 m -> lock_ok l -> rslot r = Config m c l.
Proof. unfold rslot. intros ->. apply slot_of_config. Qed.

Lemma vacant_data r : rslot r = Vacant <-> Resource.data r = [].
Proof. apply slot_of_vacant. Qed.

Lemma cx_ok_ext cx cx' :
  cx_ok cx -> cx_resources cx' = cx_resources cx -> cx_lifecycle cx' = cx_lifecycle cx -> cx_auth cx' = cx_auth cx -> cx_ok cx'.
Proof. intros [Hl Hs Hm] Hr Hlc Ha. by constructor; rewrite ?Hr, ?Hlc, ?Ha. Qed.

Section contexts.
Context (cx : ApplyContext) (i : nat) (r r' : Resource.t).
Context (Hok : cx_ok cx) (Hr : cx_resources cx !! i = Some r).

Lemma cx_ok_lifecycle : exists l, cx_lifecycle cx !! i = Some l /\ l <> Deleted /\ (l = New <-> rslot r = Vacant).
Proof using Hok Hr.
  destruct (Forall2_lookup_l _ _ _ _ _ (ok_lifecycle _ Hok) Hr) as (l & Hl & Hd & Hn). exists l. by rewrite vacant_data.
Qed.

Lemma cx_ok_set : (rslot r' = Vacant <-> rslot r = Vacant) -> cx_ok (set_resource cx i r').
Proof using Hok Hr.
  rewrite !vacant_data. intros Hv. destruct Hok as [Hl Hs Hm]. constructor; [|done..]. cbn.
  destruct (Forall2_lookup_l _ _ _ _ _ Hl Hr) as (l & Hll & Hd & Hn).
  rewrite <- (list_insert_id _ _ _ Hll). apply Forall2_insert; [done|]. split; [done|]. by rewrite Hv.
Qed.

Lemma cx_ok_live : rslot r' <> Vacant -> cx_ok (with_lifecycle (set_resource cx i r') (<[i := Live]> (cx_lifecycle cx))).
Proof using Hok Hr.
  rewrite vacant_data. intros Hv. destruct Hok as [Hl Hs Hm]. constructor; [|done..]. cbn.
  apply Forall2_insert; [done|]. split; [done|]. split; [done|]. intros ?. by destruct Hv.
Qed.
End contexts.

Lemma cx_length cx : cx_ok cx -> length (cx_lifecycle cx) = length (cx_resources cx).
Proof. intros [Hl _ _]. symmetry. by eapply Forall2_length. Qed.

Section refinement.
Context `{CastText} `{Blake3Keyed} `{K256} `{Hasher} `{Blake2b} `{DepositPolicy}.

Lemma find_config (rs : list Resource.t) :
  List.find (fun e => bool_decide (e.1 = config_resource_id)) ((fun r => (Resource.id r, rslot r)) <$> rs)
  = (fun r => (Resource.id r, rslot r)) <$> List.find (fun r => bool_decide (Resource.id r = config_resource_id)) rs.
Proof. induction rs as [|r rs IH]; [done|]. cbn. by case_bool_decide. Qed.

Lemma scan_config_Some {R} cx (f : Raw.t -> R) x :
  scan_config cx f = Some x ->
  exists m c l, book_config (book_of cx) = Some (m, c) /\ u64 m /\ x = f (mk_raw KIND_CONFIG m c l).
Proof.
  unfold scan_config, book_config. cbn [bk_slots book_of]. rewrite find_config.
  destruct (List.find _ _) as [r|]; cbn [mbind option_bind fmap option_fmap option_map]; [|done].
  rewrite view_config_slot. intros (m & c & l & Hs & ->). exists m, c, l. rewrite Hs. by destruct (rslot_ok _ _ Hs).
Qed.

Lemma scan_config_run cx m c :
  book_config (book_of cx) = Some (m, c) ->
  exists l, u64 m /\ forall R (f : Raw.t -> R), scan_config cx f = Some (f (mk_raw KIND_CONFIG m c l)).
Proof.
  unfold scan_config, book_config. cbn [bk_slots book_of]. rewrite find_config.
  destruct (List.find _ _) as [r|]; cbn [mbind option_bind fmap option_fmap option_map]; [|done].
  destruct (rslot r) as [| |m' c' l|] eqn:Hs; try done. intros [= -> ->]. exists l. destruct (rslot_ok _ _ Hs). split; [done|].
  intros R f. apply view_config_slot. eauto.
Qed.

(** A context after an action against the book's rule. *)
Record refines (cx : ApplyContext) (a : ActionBody) (cx' : ApplyContext) : Prop := {
  rf_step : book_step (rest_preimage (cx_tx cx)) (cx_auth cx) a (book_of cx) (book_of cx');
  rf_ok : cx_ok cx';
  rf_tx : cx_tx cx' = cx_tx cx;
  rf_auth : cx_auth cx' = cx_auth cx
}.

Lemma write_new_state_spec cx idx r m c l :
  cx_resources cx !! idx = Some r -> u64 m -> lock_ok l ->
  exists r', write_new_state cx idx r m c l = Ok (set_resource cx idx r') /\ rslot r' = Config m c l /\
    Resource.id r' = Resource.id r.
Proof.
  intros Hr Hm Hl. unfold write_new_state.
  set (r1 := if _ || _ then _ else _).
  assert (length (Resource.data r1) = config_total_len l /\ Resource.id r1 = Resource.id r) as [Hlen Hid].
  { unfold r1. destruct (_ || _) eqn:E; [apply resize_spec|]. split; [|done].
    apply orb_false_iff in E as [_ E]. by apply negb_false_iff, Nat.eqb_eq in E. }
  unfold write_through. rewrite write_config_slot by done. cbn [on_resource]. eexists. split; [done|].
  rewrite id_data_mut, Hid. split; [|done]. apply rslot_config; [|done..]. by rewrite data_data_mut.
Qed.

Lemma apply_update_sound cx i m c l cx' :
  cx_ok cx -> u64 m -> lock_ok l -> apply_update i m c l cx = Ok cx' -> refines cx (Update i m c l) cx'.
Proof.
  intros Hok Hm Hl Ha. unfold apply_update in Ha. inv_step. destruct x0; inv_step.
  apply config_from_bytes_slot in Hx1 as (m0 & c0 & l0 & Hs & ->). cbn [ConfigView.covenant_id mk_raw Raw.id32] in *. subst c0.
  destruct (rslot_ok _ _ Hs) as [_ Hl0]. unfold ConfigView.lock in Hx2. rewrite mk_raw_lock in Hx2 by done. injection Hx2 as <-.
  destruct (write_new_state_spec cx (usize_of i) x m c l) as (r' & Hw & Hs' & Hid); [done..|].
  rewrite Hw in Ha. injection Ha as <-. constructor; [|eapply cx_ok_set; [done..|]; by rewrite Hs, Hs'|done..].
  rewrite (book_set_resource _ _ x _ (Config m c l)) by done.
  eapply step_update; [|exact Hx3]. by rewrite (book_lookup _ _ x), Hs, <- Heqb by done.
Qed.

Lemma mark_created_Ok cx i cx' :
  mark_created cx i = Ok cx' <->
  cx_lifecycle cx !! i = Some New /\ cx' = with_lifecycle cx (<[i := Live]> (cx_lifecycle cx)).
Proof.
  unfold mark_created. split.
  - intros Hm. inv_step. destruct x; cbn [created] in *; inv_ok. done.
  - intros [Hl ->]. unfold lifecycle. by rewrite Hl.
Qed.

Lemma book_with_lifecycle cx ls : book_of (with_lifecycle cx ls) = book_of cx.
Proof. done. Qed.

Lemma apply_init_sound cx i m c l cx' :
  cx_ok cx -> u64 m -> lock_ok l -> apply_init i m c l cx = Ok cx' -> refines cx (Init i m c l) cx'.
Proof.
  intros Hok Hm Hl Ha. unfold apply_init in Ha. inv_step.
  destruct (write_new_state_spec cx (usize_of i) x m c l) as (r' & Hw & Hs' & Hid); [done..|].
  rewrite Hw in Hx2. injection Hx2 as <-. apply mark_created_Ok in Ha as [_ ->].
  destruct (cx_ok_lifecycle cx (usize_of i) x Hok Hx) as (l0 & Hl0 & _ & Hn). rewrite Hl0 in Hx0. injection Hx0 as <-.
  constructor; [|apply (cx_ok_live cx (usize_of i) x r'); [done..|by rewrite Hs']|done..].
  rewrite book_with_lifecycle, (book_set_resource _ _ x _ (Config m c l)) by done.
  eapply step_init; [|exact Hx1]. rewrite (book_lookup _ _ x) by done. by rewrite (proj1 Hn), Heqb.
Qed.

Lemma apply_update_user_lock_sound cx i l cx' :
  cx_ok cx -> lock_ok l -> apply_update_user_lock i l cx = Ok cx' -> refines cx (UpdateUserLock i l) cx'.
Proof.
  intros Hok Hl Ha. unfold apply_update_user_lock in Ha. inv_step.
  apply view_user_slot in Hx0 as (b & h & l0 & Hs & ->). destruct (rslot_ok _ _ Hs) as [Hb Hl0].
  unfold UserView.lock in Hx1. rewrite mk_raw_lock in Hx1 by done. injection Hx1 as <-.
  destruct (set_user_lock_slot x b h l0 l Hs) as (r' & Hw & Hd & Hid).
  match goal with Hc : set_user_lock _ _ = Ok _ |- _ => rewrite Hw in Hc; injection Hc as <- end.
  assert (rslot r' = User b h l) as Hs' by (by apply rslot_user).
  constructor; [|eapply cx_ok_set; [done..|]; by rewrite Hs, Hs'|done..].
  rewrite (book_set_resource _ _ x _ (User b h l)) by done. eapply step_user_lock; [|exact Hx2].
  by rewrite (book_lookup _ _ x), Hs by done.
Qed.

(** A user's balance set through the mutable view. *)
Lemma set_balance_slot r b h l b' :
  rslot r = User b h l -> u64 b' ->
  rslot (Resource.data_mut r (fun _ => Raw.as_bytes (Raw.set (mk_raw KIND_USER b h l) b'))) = User b' h l.
Proof.
  intros Hs Hb'. destruct (rslot_ok _ _ Hs) as [_ Hl]. apply rslot_user; [|done..]. by rewrite data_data_mut.
Qed.

Lemma checked_sub_Some a b c : checked_sub a b = Some c <-> (b <= a)%Z /\ c = (a - b)%Z.
Proof. unfold checked_sub. destruct (Z.leb_spec b a); naive_solver lia. Qed.
Lemma checked_add_Some a b c : checked_add a b = Some c <-> (a + b < 2 ^ 64)%Z /\ c = (a + b)%Z.
Proof. unfold checked_add. destruct (Z.ltb_spec (a + b) (2 ^ 64)); naive_solver lia. Qed.

Lemma apply_withdraw_sound cx i a dest cx' :
  cx_ok cx -> u64 a -> apply_withdraw i a dest cx = Ok cx' -> refines cx (Withdraw i a dest) cx'.
Proof.
  intros Hok Hu Ha. unfold apply_withdraw in Ha. inv_step.
  apply scan_config_Some in Hx as (m & c & lc & Hcfg & Hm & ->).
  apply view_user_slot in Hx1 as (b & h & l & Hs & ->). destruct (rslot_ok _ _ Hs) as [Hb Hl].
  unfold UserView.lock in Hx2. rewrite mk_raw_lock in Hx2 by done. injection Hx2 as <-.
  apply view_user_slot in Hx4 as (b0 & h0 & l0 & Hs0 & ->). rewrite Hs in Hs0. injection Hs0 as <- <- <-.
  unfold UserView.balance in Hx5. rewrite mk_raw_get in Hx5 by done. apply checked_sub_Some in Hx5 as [Hle ->].
  rewrite (modify_user_slot x0 b h l) in Ha by done. cbn [fst snd] in Ha. inv_step. unfold sink_emit in Ha. apply Ok_inj in Ha as <-.
  set (r' := Resource.data_mut x0 _). assert (rslot r' = User (b - a) h l) as Hs'.
  { apply set_balance_slot; [done|]. unfold u64 in *. lia. }
  assert (cx_ok (set_resource cx (usize_of i) r')) as Hok' by (eapply cx_ok_set; [done..|]; by rewrite Hs, Hs').
  constructor; [|by eapply cx_ok_ext|done..].
  match goal with |- book_step _ _ _ _ ?bk => assert (bk = emit (put (book_of cx) (usize_of i) (User (b - a) h l)) dest a) as -> end.
  { rewrite <- (book_set_resource cx (usize_of i) x0 r') by (done || apply id_data_mut).
    unfold emit, book_of, exits_encode. cbn -[le_split]. by rewrite app_nil_r. }
  eapply step_withdraw; [exact Hcfg| |exact Hx3| |done].
  - by rewrite (book_lookup _ _ x0), Hs by done.
  - unfold ConfigView.min_withdrawal_amount in *. rewrite mk_raw_get in * by done. lia.
Qed.

Lemma validate_user_create_Ok id l funding min ilh :
  validate_user_create id l funding min = Ok ilh <->
  id = derive_user_resource (id_hash l) /\ (min <= funding)%Z /\ ilh = id_hash l.
Proof.
  unfold validate_user_create. case_bool_decide; cbn [negb]; [|naive_solver].
  destruct (Z.ltb_spec funding min); naive_solver lia.
Qed.

Lemma set_resource_other cx i j r : i <> j -> cx_resources (set_resource cx i r) !! j = cx_resources cx !! j.
Proof. intros Hne. cbn. by apply list_lookup_insert_ne. Qed.

Lemma apply_transfer_sound cx s d a li cx' :
  cx_ok cx -> u64 a -> match li with Some l => lock_ok l | None => True end ->
  apply_transfer s d a li cx = Ok cx' -> refines cx (Transfer s d a li) cx'.
Proof.
  intros Hok Hu Hli Ha. unfold apply_transfer in Ha. inv_step. rename Heqb into Hne.
  assert (usize_of s <> usize_of d) as Hsd by (intros ?%usize_of_inj; done).
  destruct (cx_resources cx !! usize_of s) as [src|] eqn:Es; [|done].
  destruct (cx_resources cx !! usize_of d) as [dst|] eqn:Ed; [|done]. inv_step.
  all: apply view_user_slot in Hx1 as (sb & sh & sl & Hs & Hlk); destruct (rslot_ok _ _ Hs) as [Hsb Hsl].
  all: unfold UserView.lock in Hlk; rewrite mk_raw_lock in Hlk by done; injection Hlk as ->.
  all: rewrite (modify_user_slot src sb sh sl) in Ha by done; unfold UserView.balance in Ha; rewrite mk_raw_get in Ha by done.
  all: destruct (checked_sub sb a) as [new|] eqn:Esub; cbn [fst snd] in Ha; [|inv_step; simplify_eq/=].
  all: apply checked_sub_Some in Esub as [Hle ->].
  all: set (src' := Resource.data_mut src _) in *.
  all: assert (rslot src' = User (sb - a) sh sl) as Hsrc by (apply set_balance_slot; [done|]; unfold u64 in *; lia).
  all: assert (Resource.id src' = Resource.id src) as Hids by apply id_data_mut.
  all: set (cx1 := set_resource cx (usize_of s) src') in *.
  all: assert (cx_ok cx1) as Hok1 by (eapply cx_ok_set; [done..|]; by rewrite Hs, Hsrc).
  all: assert (cx_resources cx1 !! usize_of d = Some dst) as Ed1 by (by unfold cx1; rewrite set_resource_other).
  all: assert (book_of cx1 = put (book_of cx) (usize_of s) (User (sb - a) sh sl)) as Hbk1 by (by eapply book_set_resource).
  all: cbn [ok_or fails map_err mbind outcome_bind] in Ha.
  - apply validate_user_create_Ok in Hx6 as (Hid & Hmin & ->). subst li.
    destruct (cx_ok_lifecycle cx _ _ Hok Ed) as (l & Hl & _ & Hn). rewrite Hl in Hx. injection Hx as ->.
    destruct x; try done. assert (rslot dst = Vacant) as Hv by (by apply Hn).
    destruct (init_user_slot dst a (id_hash x5) x5) as (r' & Hi & Hd & Hid'); [by apply vacant_data|].
    rewrite Hi in Ha. cbn [on_resource mbind outcome_bind] in Ha. apply mark_created_Ok in Ha as [_ ->].
    assert (rslot r' = User a (id_hash x5) x5) as Hs' by (by apply rslot_user).
    constructor; [|apply (cx_ok_live cx1 _ dst r'); [done..|by rewrite Hs']|done..].
    rewrite book_with_lifecycle, (book_set_resource cx1 _ dst r' _ Ed1 Hid' Hs'), Hbk1.
    eapply step_transfer_create; [done| |exact Hx3| |done..].
    + by rewrite (book_lookup _ _ src), Hs by done.
    + by rewrite (book_lookup _ _ dst), Hv, Hid by done.
  - destruct (rslot dst) as [|db dh dl| |] eqn:Hdst.
    2:{ destruct (rslot_ok _ _ Hdst) as [Hdb Hdl]. rewrite (modify_user_slot dst db dh dl), mk_raw_get in Ha by done.
        destruct (checked_add db a) as [new|] eqn:Eadd; cbn [fst snd] in Ha; [|inv_step; simplify_eq/=].
        apply checked_add_Some in Eadd as [Hlt ->]. cbn [ok_or fails map_err mbind outcome_bind] in Ha. injection Ha as <-.
        set (dst' := Resource.data_mut dst _). assert (rslot dst' = User (db + a) dh dl) as Hs'.
        { apply set_balance_slot; [done|]; unfold u64 in *; lia. }
        assert (Resource.id dst' = Resource.id dst) as Hid' by apply id_data_mut.
        constructor; [|eapply cx_ok_set; [done..|]; by rewrite Hdst, Hs'|done..].
        rewrite (book_set_resource cx1 _ dst dst' _ Ed1 Hid' Hs'), Hbk1.
        eapply step_transfer; [done| |exact Hx3| |done..].
        - by rewrite (book_lookup _ _ src), Hs by done.
        - by rewrite (book_lookup _ _ dst), Hdst by done. }
    all: match type of Ha with context [modify_user ?r ?f] =>
      destruct (modify_user_other r f) as (r' & Hr' & _); [by rewrite Hdst|rewrite Hr' in Ha; discriminate Ha] end.
Qed.

Lemma output_value_u64 rp o out : parse_output_at_index_v1 rp o = Ok out -> u64 (out_value out).
Proof.
  unfold parse_output_at_index_v1. intros Hp. apply fmap_fst_Ok in Hp as [rest Hp].
  apply pbind_Ok in Hp as (ver & b1 & _ & Hp). destruct (negb _); [done|].
  apply pbind_Ok in Hp as (ni & b2 & _ & Hp). apply pbind_Ok in Hp as (? & b3 & _ & Hp).
  apply pbind_Ok in Hp as (no & b4 & _ & Hp). destruct (_ <=? _)%Z; [done|]. revert b4 Hp.
  assert (forall b out rest, parse_output b = Ok (out, rest) -> u64 (out_value out)) as Hone.
  { clear. intros b out rest Hp. unfold parse_output in Hp.
    apply pbind_Ok in Hp as (v & b1 & Hv & Hp). apply le_uint_Ok in Hv as [_ Hv].
    do 5 apply pbind_Ok in Hp as (? & ? & _ & Hp). injection Hp as <- <-. unfold u64. cbn. lia. }
  induction (Z.to_nat o) as [|k IH]; intros b Hp; cbn [output_after] in Hp; [by eapply Hone|].
  apply pbind_Ok in Hp as (? & ? & _ & Hp). by eapply IH.
Qed.

(** A deposit's guards, up to the credit. *)
Lemma apply_deposit_guards cx i o l cx' :
  apply_deposit i o l cx = Ok cx' ->
  exists v t deposit r k,
    funding (rest_preimage (cx_tx cx)) (book_of cx) i o l v t deposit /\ u64 v /\
    cx_resources cx !! usize_of (ct_user_idx t) = Some r /\
    credit_kind cx (usize_of (ct_user_idx t)) r t l v = Ok k /\
    let cx := with_consumed (with_deposit cx deposit) (cx_consumed cx ++ [o]) in
    match k with
    | Create ilh =>
        cx ← mark_created cx (usize_of (ct_user_idx t)); on_resource cx (usize_of (ct_user_idx t)) (init_user r v ilh l)
    | CreditExisting new =>
        let '(credit, r) := modify_user r (fun v => (tt, Raw.set v new)) in
        let cx := set_resource cx (usize_of (ct_user_idx t)) r in
        _ ← fails cx (ok_or credit (decode_err "deposit: target not a live user resource")); Ok cx
    end = Ok cx'.
Proof.
  intros Ha. unfold apply_deposit in Ha. inv_step.
  destruct (parse_output_at_index_v1 (rest_preimage (cx_tx cx)) o) as [out| |] eqn:Hp; inv_step.
  apply scan_config_Some in Hx as (m & c & lc & Hcfg & Hm & ->).
  apply orb_false_iff in Heqb0 as [Hv Hspk]. apply negb_false_iff in Hv, Hspk. apply Z.eqb_eq in Hv. apply bool_decide_eq_true in Hspk.
  eexists (out_value _), _, _, _, _. split; [|split; [|split; [exact Hx2|split; [exact Hx3|exact Ha]]]].
  - constructor; [done| |done]. exists m, c. eexists. by repeat split.
  - by eapply output_value_u64.
Qed.

Lemma apply_deposit_sound cx i o l cx' :
  cx_ok cx -> lock_ok l -> apply_deposit i o l cx = Ok cx' -> refines cx (Deposit i o l) cx'.
Proof.
  intros Hok Hl Ha. apply apply_deposit_guards in Ha as (v & t & deposit & r & k & Hf & Hv & Hr & Hk & Ha).
  set (idx := usize_of (ct_user_idx t)) in *. cbn zeta in Ha. unfold credit_kind in Hk. inv_step.
  destruct (cx_ok_lifecycle cx idx r Hok Hr) as (lc & Hlc & _ & Hn). rewrite Hlc in Hx. injection Hx as <-.
  set (cx1 := with_consumed _ _) in Ha. assert (cx_ok cx1) as Hok1 by (by eapply cx_ok_ext).
  assert (book_of cx1 = consume (book_of cx) o deposit) as Hbk1 by done.
  destruct lc; [| |by inv_ok].
  - destruct (ct_create_with t) as [sp|] eqn:Hsp; inv_step.
    apply validate_user_create_Ok in Hx as (Hid & Hmin & ->). assert (rslot r = Vacant) as Hvac by (by apply Hn).
    apply mark_created_Ok in Hx0 as [_ ->].
    destruct (init_user_slot r v (id_hash l) l) as (r' & Hi & Hd & Hid'); [by apply vacant_data|].
    match goal with Hc : init_user _ _ _ _ = Ok _ |- _ => rewrite Hi in Hc; injection Hc as <- end.
    assert (rslot r' = User v (id_hash l) l) as Hs' by (by apply rslot_user).
    constructor; [|apply (cx_ok_live cx1 idx r r'); [done..|by rewrite Hs']|done..].
    match goal with |- book_step _ _ _ _ ?bk => assert (bk = put (book_of cx1) idx (User v (id_hash l) l)) as -> end.
    { by rewrite <- (book_set_resource cx1 idx r r'). }
    rewrite Hbk1. eapply step_deposit_create; [done|by rewrite Hsp| |done].
    by rewrite (book_lookup _ _ r), Hvac, Hid by done.
  - inv_step. destruct x as [cur stored]. inv_step.
    apply view_user_slot in Hx as (b & h & l0 & Hs & [= -> ->]). destruct (rslot_ok _ _ Hs) as [Hb Hl0].
    unfold UserView.balance, UserView.initial_lock_hash in *. rewrite mk_raw_get in * by done. cbn [mk_raw Raw.id32] in *. subst h.
    apply checked_add_Some in Hx0 as [Hlt ->]. rewrite (modify_user_slot r b (id_hash l) l0) in Ha by done.
    cbn [fst snd] in Ha. inv_step. set (r' := Resource.data_mut r _).
    assert (rslot r' = User (b + v) (id_hash l) l0) as Hs' by (apply set_balance_slot; [done|]; unfold u64 in *; lia).
    constructor; [|apply (cx_ok_set cx1 idx r r'); [done..|by rewrite Hs, Hs']|done..].
    rewrite (book_set_resource cx1 idx r r' (User (b + v) (id_hash l) l0)), Hbk1 by (done || apply id_data_mut).
    eapply step_deposit; [done| |done]. by rewrite (book_lookup _ _ r), Hs by done.
Qed.

Lemma apply_action_sound n cx a cx' :
  cx_ok cx -> action_ok n (action_body a) -> apply_action a cx = Ok cx' -> refines cx (action_body a) cx'.
Proof.
  intros Hok Ha Happ. unfold apply_action in Happ. destruct (action_body a); cbn [action_ok] in Ha; destruct_and? Ha.
  - by apply apply_update_sound.
  - by apply apply_init_sound.
  - by apply apply_transfer_sound.
  - by apply apply_update_user_lock_sound.
  - by apply apply_deposit_sound.
  - by apply apply_withdraw_sound.
Qed.

(** ** The rules apply: the action succeeds *)

(** Runs a guard that the context satisfies. *)
Ltac run_step := cbn [mbind outcome_bind fails map_err ok_or negb fst snd].

Lemma unlocks_run cx l i : unlocks (cx_auth cx) l i -> fails cx (unlock l i (cx_auth cx)) = Ok true.
Proof. by intros ->. Qed.

Lemma view_lock_run r b h l : rslot r = User b h l -> view_user r (@UserView.lock (AbiError.t * ApplyContext)) = Some (Ok l).
Proof.
  intros Hs. apply view_user_slot. exists b, h, l. split; [done|]. unfold UserView.lock. rewrite mk_raw_lock; [done|].
  by apply rslot_ok in Hs as [_ ?].
Qed.

Lemma view_balance_run r b h l : rslot r = User b h l -> view_user r UserView.balance = Some b.
Proof.
  intros Hs. apply view_user_slot. exists b, h, l. split; [done|]. unfold UserView.balance. rewrite mk_raw_get; [done|].
  by apply rslot_ok in Hs as [? _].
Qed.

Lemma lifecycle_run cx i r : cx_ok cx -> cx_resources cx !! i = Some r ->
  lifecycle cx i = Ok (if decide (rslot r = Vacant) then New else Live).
Proof.
  intros Hok Hr. destruct (cx_ok_lifecycle cx i r Hok Hr) as (l & Hl & Hd & Hn). unfold lifecycle. rewrite Hl. cbn.
  destruct (decide (rslot r = Vacant)) as [Hv|Hv]; f_equal; [by apply Hn|]. destruct l; [|done..]. by destruct Hv; apply Hn.
Qed.

Lemma mark_created_run cx i : cx_lifecycle cx !! i = Some New -> exists cx', mark_created cx i = Ok cx'.
Proof. intros Hl. eexists. by apply mark_created_Ok. Qed.

Lemma lifecycle_New cx i r : cx_ok cx -> cx_resources cx !! i = Some r -> rslot r = Vacant -> cx_lifecycle cx !! i = Some New.
Proof. intros Hok Hr Hv. destruct (cx_ok_lifecycle cx i r Hok Hr) as (l & Hl & _ & Hn). by rewrite Hl, (proj2 Hn Hv). Qed.

Lemma apply_update_complete cx i m c l m0 l0 :
  cx_ok cx -> u64 m -> lock_ok l ->
  bk_slots (book_of cx) !! usize_of i = Some (config_resource_id, Config m0 c l0) -> unlocks (cx_auth cx) l0 i ->
  exists cx', apply_update i m c l cx = Ok cx'.
Proof.
  intros Hok Hm Hl Hb Hu. apply book_lookup_inv in Hb as (r & Hr & Hid & Hs).
  unfold apply_update, resource_at. rewrite Hr. cbn [expect]. run_step. rewrite bool_decide_true by done. run_step.
  rewrite (lifecycle_run cx _ r Hok Hr), decide_False by (by rewrite Hs). run_step.
  rewrite (proj2 (config_from_bytes_slot r (mk_raw KIND_CONFIG m0 c l0))) by eauto. run_step.
  rewrite bool_decide_true by done. run_step. unfold ConfigView.lock. rewrite mk_raw_lock by (by apply rslot_ok in Hs as [_ ?]). run_step.
  rewrite unlocks_run by done. run_step.
  destruct (write_new_state_spec cx (usize_of i) r m c l Hr Hm Hl) as (r' & -> & _). by eexists.
Qed.

Lemma apply_init_complete cx i m c l :
  cx_ok cx -> u64 m -> lock_ok l ->
  bk_slots (book_of cx) !! usize_of i = Some (config_resource_id, Vacant) -> unlocks (cx_auth cx) genesis_lock i ->
  exists cx', apply_init i m c l cx = Ok cx'.
Proof.
  intros Hok Hm Hl Hb Hu. apply book_lookup_inv in Hb as (r & Hr & Hid & Hs).
  unfold apply_init, resource_at. rewrite Hr. cbn [expect]. run_step. rewrite bool_decide_true by done. run_step.
  rewrite (lifecycle_run cx _ r Hok Hr), decide_True by done. run_step. rewrite bool_decide_true by done. run_step.
  change (Schnorr _) with genesis_lock. rewrite (unlocks_run cx genesis_lock i Hu). run_step.
  destruct (write_new_state_spec cx (usize_of i) r m c l Hr Hm Hl) as (r' & -> & _). run_step.
  apply mark_created_run. exact (lifecycle_New cx _ r Hok Hr Hs).
Qed.

Lemma apply_update_user_lock_complete cx i l id b h l0 :
  bk_slots (book_of cx) !! usize_of i = Some (id, User b h l0) -> unlocks (cx_auth cx) l0 i ->
  exists cx', apply_update_user_lock i l cx = Ok cx'.
Proof.
  intros Hb Hu. apply book_lookup_inv in Hb as (r & Hr & Hid & Hs). unfold apply_update_user_lock, resource_at.
  rewrite Hr. cbn [expect]. run_step. rewrite (view_lock_run r b h l0 Hs). run_step. rewrite unlocks_run by done. run_step.
  destruct (set_user_lock_slot r b h l0 l Hs) as (r' & -> & _). by eexists.
Qed.

Lemma apply_withdraw_complete cx i a dest id b h l m c :
  book_config (book_of cx) = Some (m, c) -> bk_slots (book_of cx) !! usize_of i = Some (id, User b h l) ->
  unlocks (cx_auth cx) l i -> (m <= a)%Z -> (a <= b)%Z -> exists cx', apply_withdraw i a dest cx = Ok cx'.
Proof.
  intros Hc Hb Hu Hm Ha. apply book_lookup_inv in Hb as (r & Hr & Hid & Hs).
  destruct (scan_config_run cx m c Hc) as (lc & Hm64 & Hscan). unfold apply_withdraw, resource_at. rewrite Hscan, Hr.
  cbn [expect]. run_step. rewrite (view_lock_run r b h l Hs). run_step. rewrite unlocks_run by done. run_step.
  unfold ConfigView.min_withdrawal_amount. rewrite mk_raw_get, (proj2 (Z.ltb_ge a m)) by (done || lia).
  rewrite (view_balance_run r b h l Hs). run_step. rewrite (proj2 (checked_sub_Some b a (b - a))) by done. run_step.
  rewrite (modify_user_slot r b h l) by done. run_step. by eexists.
Qed.

Lemma apply_transfer_complete cx s d a li bk' :
  cx_ok cx -> book_step (rest_preimage (cx_tx cx)) (cx_auth cx) (Transfer s d a li) (book_of cx) bk' ->
  exists cx', apply_transfer s d a li cx = Ok cx'.
Proof.
  intros Hok Hstep. inversion Hstep as [| |? ? ? ? ? sb sh sl ? db dh dl ? Hne Hsrc Hu Hdst Hle Hlt|? ? ? l ? sb sh sl ? Hne Hsrc Hu Hdst Hmin Hle| | | |];
    subst.
  all: apply book_lookup_inv in Hsrc as (src & Es & Hids & Hs); apply book_lookup_inv in Hdst as (dst & Ed & Hidd & Hd).
  all: destruct (rslot_ok _ _ Hs) as [Hsb Hsl].
  all: unfold apply_transfer; rewrite bool_decide_false by done; rewrite (lifecycle_run cx _ dst Hok Ed), Hd.
  all: rewrite ?decide_True, ?decide_False by done; run_step.
  all: rewrite Es, Ed, (view_lock_run src sb sh sl Hs); run_step; rewrite unlocks_run by done; run_step.
  - rewrite (modify_user_slot src sb sh sl), (modify_user_slot dst db dh dl) by done. unfold UserView.balance.
    rewrite !mk_raw_get by (done || by apply rslot_ok in Hd as [? _]).
    rewrite (proj2 (checked_sub_Some sb a _)), (proj2 (checked_add_Some db a _)) by done. run_step. by eexists.
  - rewrite (proj2 (validate_user_create_Ok _ _ _ _ (id_hash l))) by done. run_step.
    rewrite (modify_user_slot src sb sh sl) by done. unfold UserView.balance. rewrite mk_raw_get by done.
    rewrite (proj2 (checked_sub_Some sb a _)) by done. run_step.
    destruct (init_user_slot dst a (id_hash l) l) as (r' & -> & _); [by apply vacant_data|]. run_step. cbn [on_resource]. run_step.
    apply mark_created_run. exact (lifecycle_New cx _ dst Hok Ed Hd).
Qed.

(** The guards of a funded deposit pass; what is left is the credit. *)
Lemma apply_deposit_run cx i o l v t deposit r :
  funding (rest_preimage (cx_tx cx)) (book_of cx) i o l v t deposit ->
  cx_resources cx !! usize_of (ct_user_idx t) = Some r ->
  apply_deposit i o l cx =
    (kind ← credit_kind cx (usize_of (ct_user_idx t)) r t l v;
     let cx := with_consumed (with_deposit cx deposit) (cx_consumed cx ++ [o]) in
     match kind with
     | Create ilh =>
         cx ← mark_created cx (usize_of (ct_user_idx t)); on_resource cx (usize_of (ct_user_idx t)) (init_user r v ilh l)
     | CreditExisting new =>
         let '(credit, r) := modify_user r (fun v => (tt, Raw.set v new)) in
         let cx := set_resource cx (usize_of (ct_user_idx t)) r in
         _ ← fails cx (ok_or credit (decode_err "deposit: target not a live user resource")); Ok cx
     end).
Proof.
  intros [Hfresh (m & c & out & Hc & Hp & Hv & Hver & Hspk & Hdep) Ht] Hr.
  destruct (scan_config_run cx m c Hc) as (lc & _ & Hscan). unfold apply_deposit.
  rewrite bool_decide_false by done. rewrite Hscan, Hp. run_step.
  rewrite Hver, Hspk. unfold ConfigView.covenant_id. cbn [mk_raw Raw.id32 Z.eqb negb orb].
  rewrite bool_decide_true by done. run_step. rewrite Ht. run_step.
  rewrite (proj2 (Nat.leb_gt _ _)) by (by eapply lookup_lt_Some). unfold resource_at. rewrite Hr. cbn [expect]. run_step.
  rewrite Hv. destruct (credit_kind _ _ _ _ _ _); [|done..]. run_step. change (cx_deposit cx) with (bk_deposit (book_of cx)).
  rewrite Hdep. done.
Qed.

Lemma apply_deposit_complete cx i o l bk' :
  cx_ok cx -> book_step (rest_preimage (cx_tx cx)) (cx_auth cx) (Deposit i o l) (book_of cx) bk' ->
  exists cx', apply_deposit i o l cx = Ok cx'.
Proof.
  intros Hok Hstep. inversion Hstep as [| | | | | |? ? ? v t dep ? b l0 ? Hf Hslot Hlt|? ? ? v t dep ? Hf Hsp Hslot Hmin]; subst.
  all: apply book_lookup_inv in Hslot as (r & Hr & Hid & Hs); rewrite (apply_deposit_run cx i o l v t dep r) by done.
  all: unfold credit_kind; rewrite (lifecycle_run cx _ r Hok Hr), Hs, ?decide_True, ?decide_False by done; run_step.
  - rewrite (proj2 (view_user_slot r _ (b, id_hash l))).
    2:{ exists b, (id_hash l), l0. split; [done|]. unfold UserView.balance. rewrite mk_raw_get; [done|]. by apply rslot_ok in Hs as [? _]. }
    run_step. rewrite bool_decide_true by done. run_step. rewrite (proj2 (checked_add_Some b v _)) by done. run_step.
    rewrite (modify_user_slot r b (id_hash l) l0) by done. run_step. by eexists.
  - destruct Hsp as [sp ->]. run_step. rewrite (proj2 (validate_user_create_Ok _ _ _ _ (id_hash l))) by done. run_step.
    unfold mark_created. assert (lifecycle cx (usize_of (ct_user_idx t)) = Ok New) as Hn.
    { unfold lifecycle. by rewrite (lifecycle_New cx _ r Hok Hr Hs). }
    unfold lifecycle in Hn |- *. cbn [cx_lifecycle with_consumed with_deposit]. rewrite Hn. run_step. cbn [created]. run_step.
    destruct (init_user_slot r v (id_hash l) l) as (r' & -> & _); [by apply vacant_data|]. by eexists.
Qed.

Lemma apply_action_complete n cx a bk' :
  cx_ok cx -> action_ok n (action_body a) ->
  book_step (rest_preimage (cx_tx cx)) (cx_auth cx) (action_body a) (book_of cx) bk' -> exists cx', apply_action a cx = Ok cx'.
Proof.
  intros Hok Ha Hstep. unfold apply_action. destruct (action_body a) eqn:E; cbn [action_ok] in Ha; destruct_and? Ha.
  - inversion Hstep; subst. by eapply apply_update_complete.
  - inversion Hstep; subst. by apply apply_init_complete.
  - by eapply apply_transfer_complete.
  - inversion Hstep; subst. by eapply apply_update_user_lock_complete.
  - by eapply apply_deposit_complete.
  - inversion Hstep; subst. by eapply apply_withdraw_complete.
Qed.

Lemma funding_det rp bk i o l v t dep v' t' dep' :
  funding rp bk i o l v t dep -> funding rp bk i o l v' t' dep' -> v = v' /\ t = t' /\ dep = dep'.
Proof.
  intros [_ (m & c & out & Hc & Hp & <- & _ & _ & Hd) Ht] [_ (m' & c' & out' & Hc' & Hp' & <- & _ & _ & Hd') Ht'].
  simplify_eq. rewrite Hp in Hp'. rewrite Hd in Hd'. rewrite Ht in Ht'. by simplify_eq.
Qed.

Lemma book_step_det rp auth a bk bk1 bk2 :
  book_step rp auth a bk bk1 -> book_step rp auth a bk bk2 -> bk1 = bk2.
Proof.
  intros H1' H2'. inversion H1'; subst; inversion H2'; subst; simplify_eq; try done.
  all: match goal with Hf : funding _ _ _ _ _ _ _ _, Hg : funding _ _ _ _ _ _ _ _ |- _ =>
    destruct (funding_det _ _ _ _ _ _ _ _ _ _ _ Hf Hg) as (-> & -> & ->) end; by simplify_eq.
Qed.
End refinement.
