(* ===== verification/RtRun.v ===== *)
(** * RtRun: a transaction of the runtime processor as a whole

    What decoding guarantees of an instruction stream, what resolved signers stand for, the
    absence of panics, and [run] against the ledger's rules. *)

From S2P Require Import Prelude Codec Types SmtNode AbiCore AbiTx RtLock RtState RtAuth RtActions RtProofs RtLedger.
Import ResourceExt.

(** ** No action panics *)

Section safety.
Context `{CastText} `{Blake3Keyed} `{K256} `{Hasher} `{Blake2b} `{DepositPolicy}.

Lemma safe_fails {A} cx (c : AResult A) : safe c -> safe (fails cx c).
Proof. by destruct c. Qed.
Lemma safe_map_err {A} (c : outcome string A) : safe c -> safe (map_err c).
Proof. by destruct c. Qed.
Lemma safe_fail {A} cx m : safe (@fail A cx m).
Proof. done. Qed.
Lemma safe_codec_err {A} (c : outcome string A) : safe c -> safe (codec_err c).
Proof. by destruct c. Qed.
Lemma safe_from_codec {A} (c : Result A) : safe c -> safe (from_codec c).
Proof. by destruct c. Qed.
Lemma safe_on_resource cx i c : safe c -> safe (on_resource cx i c).
Proof. by destruct c as [|[]|]. Qed.
Lemma safe_fst {E A B} (c : outcome E (A * B)) : safe c -> safe (fst <$> c).
Proof. by destruct c as [[]| |]. Qed.

Lemma safe_resource_at cx i : i < length (cx_resources cx) -> safe (resource_at cx i).
Proof. intros Hi. apply safe_expect. by apply lookup_lt_is_Some. Qed.
Lemma safe_lifecycle cx i : cx_ok cx -> i < length (cx_resources cx) -> safe (lifecycle cx i).
Proof. intros Hok Hi. apply safe_expect. apply lookup_lt_is_Some. by rewrite cx_length. Qed.
Lemma safe_unlock cx l i : cx_ok cx -> safe (unlock l i (cx_auth cx)).
Proof. intros [_ Hs Hm]. by destruct (unlock_total l i (cx_auth cx) Hs Hm) as [b ->]. Qed.

Lemma safe_validate_multisig t n pks : safe (validate_multisig_fields t n pks).
Proof. unfold validate_multisig_fields. destruct (_ || _); [done|]. destruct (as_chunks pks). by repeat destruct (negb _); cbn. Qed.
Lemma safe_validate tag body : safe (validate_lock_body tag body).
Proof.
  unfold validate_lock_body. repeat case_bool_decide; [by destruct (negb _)| |by destruct body|done].
  destruct body as [|? [|? ?]]; [done..|]. apply safe_validate_multisig.
Qed.
Lemma safe_checked_view k e1 e2 e3 l : safe (checked_view k e1 e2 e3 l).
Proof.
  unfold checked_view. destruct (_ <? _); [done|]. apply safe_bind; [apply safe_ok_or|]. intros raw _.
  destruct (negb _); [done|]. apply safe_bind; [apply safe_validate|done].
Qed.

Lemma safe_config_view l : safe (ConfigView.from_bytes l).
Proof. apply safe_checked_view. Qed.
Lemma safe_user_view l : safe (UserView.from_bytes l).
Proof. apply safe_checked_view. Qed.

Lemma safe_view_lock {E} k raw : raw_ok k raw -> safe (@decode_lock_body_unchecked E (Raw.raw_tag raw) (Raw.raw_body raw)).
Proof. intros Hok. by destruct (raw_lock_ok (E := E) _ _ Hok) as (l & -> & _). Qed.

Lemma safe_user_lock {E} r c : view_user r (@UserView.lock E) = Some c -> safe c.
Proof.
  intros Hv. apply view_user_slot in Hv as (b & h & l & Hs & ->). apply (safe_view_lock KIND_USER), mk_raw_ok.
  by apply rslot_ok in Hs as [_ ?].
Qed.

Lemma safe_created l : safe (created l).
Proof. by destruct l. Qed.
Lemma safe_validate_user_create id l f m : safe (validate_user_create id l f m).
Proof. unfold validate_user_create. destruct (negb _); [done|]. by destruct (_ <? _)%Z. Qed.
Lemma safe_mark_created cx i : i < length (cx_lifecycle cx) -> safe (mark_created cx i).
Proof.
  intros Hi. unfold mark_created. apply safe_bind; [apply safe_expect; by apply lookup_lt_is_Some|]. by intros [] _.
Qed.

Lemma safe_init_user r b h l : safe (init_user r b h l).
Proof.
  destruct (Resource.data r) eqn:Hd; [by destruct (init_user_slot r b h l Hd) as (r' & -> & _)|].
  unfold init_user. by rewrite Hd.
Qed.

(** The result of a closure run on a user. *)
Lemma modify_user_result {R} r (f : Raw.t -> R * Raw.t) x r' : modify_user r f = (Some x, r') -> exists raw, x = (f raw).1.
Proof.
  unfold modify_user, modify. destruct (kind r); [|done]. destruct (negb _); [done|].
  destruct (UserView.from_bytes _) as [raw| |]; [|done..]. destruct (f raw) eqn:E. intros [= <- <-]. exists raw. by rewrite E.
Qed.
End safety.

#[export] Hint Resolve safe_fails safe_map_err safe_fail safe_codec_err safe_from_codec safe_on_resource safe_fst
  safe_resource_at safe_lifecycle safe_unlock safe_config_view safe_user_view safe_user_lock safe_validate_user_create safe_mark_created safe_init_user : safe.

(** Panic freedom of a run of guards: a step by the database, its result named; a test of which
    one branch is an error. *)
Tactic Notation "safe_bind" ident(a) ident(Ha) := apply safe_bind; [solve [eauto 6 with safe nocore]|intros a Ha].
Ltac safe_test :=
  apply safe_if; intros ?; [solve [eauto with safe nocore]|] || (apply safe_if; intros ?; [|solve [eauto with safe nocore]]).

Section actions.
Context `{CastText} `{Blake3Keyed} `{K256} `{Hasher} `{Blake2b} `{DepositPolicy}.
Context (cx : ApplyContext) (Hok : cx_ok cx).

Lemma apply_update_safe i m c l :
  usize_of i < length (cx_resources cx) -> u64 m -> lock_ok l -> safe (apply_update i m c l cx).
Proof using Hok.
  intros Hi Hm Hl. unfold apply_update. safe_bind r Hr. apply expect_Ok in Hr. safe_test. safe_bind lc Hlc.
  destruct lc; [done| |done]. safe_bind cur Hcur. apply fails_Ok, map_err_Ok, checked_view_exact in Hcur as [_ Hcur].
  safe_test. apply safe_bind; [by apply (safe_view_lock KIND_CONFIG)|]. intros lock _. safe_bind u Hu. safe_test.
  by destruct (write_new_state_spec cx (usize_of i) r m c l Hr Hm Hl) as (r' & -> & _).
Qed.

Lemma apply_init_safe i m c l :
  usize_of i < length (cx_resources cx) -> u64 m -> lock_ok l -> safe (apply_init i m c l cx).
Proof using Hok.
  intros Hi Hm Hl. unfold apply_init. safe_bind r Hr. apply expect_Ok in Hr. safe_test. safe_bind lc Hlc. safe_test.
  safe_bind u Hu. safe_test.
  destruct (write_new_state_spec cx (usize_of i) r m c l Hr Hm Hl) as (r' & -> & _). cbn [mbind outcome_bind].
  apply safe_mark_created. cbn. by rewrite cx_length.
Qed.

Lemma apply_update_user_lock_safe i l : usize_of i < length (cx_resources cx) -> safe (apply_update_user_lock i l cx).
Proof using Hok.
  intros Hi. unfold apply_update_user_lock. safe_bind r Hr. safe_bind lk Hlk. apply fails_Ok, ok_or_Ok in Hlk.
  safe_bind lock Hlock. safe_bind u Hu. safe_test. apply view_user_slot in Hlk as (b & h & l0 & Hs & _).
  by destruct (set_user_lock_slot r b h l0 l Hs) as (r' & -> & _).
Qed.

Lemma apply_withdraw_safe i a dest : usize_of i < length (cx_resources cx) -> safe (apply_withdraw i a dest cx).
Proof using Hok.
  intros Hi. unfold apply_withdraw. safe_bind min Hmin. safe_bind r Hr. safe_bind lk Hlk. apply fails_Ok, ok_or_Ok in Hlk.
  safe_bind lock Hlock. safe_bind u Hu. safe_test. safe_test. safe_bind cur Hcur. safe_bind new Hnew.
  destruct (modify_user _ _). safe_bind x Hx. done.
Qed.

Lemma apply_transfer_safe s d a li :
  usize_of s < length (cx_resources cx) -> usize_of d < length (cx_resources cx) -> safe (apply_transfer s d a li cx).
Proof using Hok.
  intros Hs Hd. unfold apply_transfer. safe_test. safe_bind lc Hlc. apply safe_bind; [by destruct lc|]. intros create Hc.
  destruct (cx_resources cx !! usize_of s) as [src|]; [|done]. destruct (cx_resources cx !! usize_of d) as [dst|]; [|done].
  safe_bind lk Hlk. apply fails_Ok, ok_or_Ok in Hlk. safe_bind lock Hlock. safe_bind u Hu. safe_test.
  apply safe_bind; [destruct create; eauto 6 with safe nocore|]. intros plan _.
  destruct (modify_user src _) as [debit src'] eqn:Em. safe_bind x Hx. apply fails_Ok, ok_or_Ok in Hx as ->.
  apply modify_user_result in Em as [raw ->]. apply safe_bind; [by destruct (checked_sub _ _)|]. intros _ _.
  destruct plan as [[ilh lk']|].
  - safe_bind cx' Hcx'. apply on_resource_Ok in Hcx' as (r' & _ & ->). apply safe_mark_created. cbn. by rewrite cx_length.
  - destruct (modify_user dst _) as [credit dst'] eqn:Ec. safe_bind x Hx. apply fails_Ok, ok_or_Ok in Hx as ->.
    apply modify_user_result in Ec as [raw' ->]. by destruct (checked_add _ _).
Qed.

Lemma apply_deposit_safe i o l :
  (forall b, safe (credit_target b)) -> safe (parse_output_at_index_v1 (rest_preimage (cx_tx cx)) o) -> safe (apply_deposit i o l cx).
Proof using Hok.
  intros Ht Hp. unfold apply_deposit. safe_test. safe_bind c Hc. apply safe_bind; [by destruct (parse_output_at_index_v1 _ _)|].
  intros out _. safe_test. safe_bind t Htt. destruct (Nat.leb_spec (length (cx_resources cx)) (usize_of (ct_user_idx t))) as [|Hlt]; [done|].
  safe_bind r Hr. apply safe_bind.
  { unfold credit_kind. safe_bind lc Hlc. destruct lc; [by destruct (ct_create_with t); eauto 6 with safe nocore| |done].
    safe_bind x Hx. destruct x. safe_test. eauto 6 with safe nocore. }
  intros k _. apply safe_bind; [apply safe_fails; unfold deposit_set; by repeat case_bool_decide|]. intros dep _.
  destruct k as [ilh|new].
  - apply safe_bind; [apply safe_mark_created; cbn; by rewrite cx_length|]. eauto with safe nocore.
  - destruct (modify_user _ _). eauto with safe nocore.
Qed.
End actions.

(** ** What decoders guarantee of their results *)

Definition pspec {A} (p : parser A) (P : A -> Prop) : Prop := forall buf a rest, p buf = Ok (a, rest) -> P a.

Lemma pspec_bind {A B} (p : parser A) (k : A -> parser B) P Q :
  pspec p P -> (forall a, P a -> pspec (k a) Q) -> pspec (p ≫= k) Q.
Proof. intros Hp Hk buf b rest Hb. apply pbind_Ok in Hb as (a & buf' & Ha & Hb). by eapply Hk; [eapply Hp|]. Qed.
Lemma pspec_ret {A} (a : A) (P : A -> Prop) : P a -> pspec (mret a) P.
Proof. by intros Ha buf b rest [= <- _]. Qed.
Lemma pspec_fail {A} e (P : A -> Prop) : pspec (pfail e) P.
Proof. done. Qed.
Lemma pspec_any {A} (p : parser A) : pspec p (fun _ => True).
Proof. done. Qed.
Lemma pspec_le_u64 field : pspec (Reader.le_u64 field) u64.
Proof. intros buf z rest Hz. apply le_uint_Ok in Hz as [_ Hz]. unfold u64. lia. Qed.
Lemma pspec_le_u32 field : pspec (Reader.le_u32 field) u32.
Proof. intros buf z rest Hz. apply le_uint_Ok in Hz as [_ Hz]. unfold u32. lia. Qed.
Lemma pspec_decode_lock : pspec decode_lock lock_ok.
Proof. intros buf l rest Hl. by apply decode_lock_Ok in Hl as [? _]. Qed.
Lemma pspec_resource_idx field n : pspec (read_resource_idx field n) (fun i => usize_of i < n).
Proof.
  unfold read_resource_idx. eapply pspec_bind; [apply pspec_any|]. intros i _.
  destruct (Nat.leb_spec n (usize_of i)); [apply pspec_fail|by apply pspec_ret].
Qed.
Lemma pspec_many {T} field (p : parser T) P : pspec p P -> pspec (Reader.many field p) (Forall P).
Proof.
  intros Hp. eapply pspec_bind; [apply pspec_any|]. intros n _. induction (Z.to_nat n) as [|k IH]; cbn; [by apply pspec_ret|].
  eapply pspec_bind; [exact Hp|]. intros x Hx. eapply pspec_bind; [exact IH|]. intros xs Hxs. apply pspec_ret. by constructor.
Qed.

Create HintDb pspec discriminated.
#[export] Hint Resolve pspec_le_u64 pspec_le_u32 pspec_decode_lock pspec_resource_idx pspec_any : pspec.

Section decoding.
Context `{CastText}.

Lemma decode_action_ok n : pspec (decode_action n) (fun a => action_ok n (action_body a)).
Proof.
  unfold decode_action. eapply pspec_bind; [apply pspec_any|]. intros tag _.
  apply (pspec_bind _ _ (action_ok n)); [|intros b Hb; by apply pspec_ret].
  destruct tag; try apply pspec_fail.
  1,2: eapply pspec_bind; [apply pspec_resource_idx|]; intros i Hi.
  1,2: eapply pspec_bind; [apply pspec_le_u64|]; intros m Hm.
  1,2: eapply pspec_bind; [apply pspec_any|]; intros c _.
  1,2: eapply pspec_bind; [apply pspec_decode_lock|]; intros l Hl; by apply pspec_ret.
  - eapply pspec_bind; [apply pspec_resource_idx|]; intros s Hs. eapply pspec_bind; [apply pspec_resource_idx|]; intros d Hd.
    eapply pspec_bind; [apply pspec_le_u64|]; intros a Ha. eapply pspec_bind; [apply pspec_any|]; intros flag _.
    apply (pspec_bind _ _ (fun li => match li with Some l => lock_ok l | None => True end)); [|intros li Hli; by apply pspec_ret].
    destruct flag; try apply pspec_fail; [by apply pspec_ret|].
    eapply pspec_bind; [apply pspec_decode_lock|]; intros l Hl; by apply pspec_ret.
  - eapply pspec_bind; [apply pspec_resource_idx|]; intros i Hi.
    eapply pspec_bind; [apply pspec_decode_lock|]; intros l Hl; by apply pspec_ret.
  - eapply pspec_bind; [apply pspec_resource_idx|]; intros i Hi. eapply pspec_bind; [apply pspec_le_u32|]; intros o Ho.
    eapply pspec_bind; [apply pspec_decode_lock|]; intros l Hl; by apply pspec_ret.
  - eapply pspec_bind; [apply pspec_resource_idx|]; intros i Hi. eapply pspec_bind; [apply pspec_le_u64|]; intros a Ha.
    eapply pspec_bind; [apply pspec_any|]; intros dest _; by apply pspec_ret.
Qed.

(** Signers in ascending order of resource, from a lower bound on. *)
Definition signers_sorted (ss : list (byte * SignerEnum)) : Prop :=
  StronglySorted (fun a b => byte.unsigned a.1 <= byte.unsigned b.1)%Z ss.

Lemma decode_signers_ok k n prev :
  pspec (decode_signers k n prev) (fun ss => Forall (fun s => usize_of s.1 < n) ss /\ signers_sorted ss /\
    Forall (fun s => match prev with Some p => byte.unsigned p <= byte.unsigned s.1 | None => True end)%Z ss).
Proof.
  revert prev. induction k as [|k IH]; intros prev; cbn [decode_signers]; [by apply pspec_ret; repeat constructor|].
  apply (pspec_bind _ _ (fun s => usize_of s.1 < n /\ match prev with Some p => (byte.unsigned p <= byte.unsigned s.1)%Z | None => True end)).
  { unfold decode_signer_entry. eapply pspec_bind; [apply pspec_any|]. intros s _.
    destruct (Nat.leb_spec n (usize_of s.1)); [apply pspec_fail|]. destruct prev as [p|]; [|by apply pspec_ret].
    destruct (Z.ltb_spec (byte.unsigned s.1) (byte.unsigned p)); [apply pspec_fail|by apply pspec_ret]. }
  intros s [Hs Hp]. eapply pspec_bind; [apply IH|]. intros ss (Hn & Hsort & Hlow). apply pspec_ret.
  split; [by constructor|]. split; [by constructor|]. constructor; [done|]. eapply Forall_impl; [exact Hlow|].
  cbv beta iota. intros e He. destruct prev; [|done]. by etrans.
Qed.

Lemma decode_ix_ok orig n ix :
  decode_ix orig n = Ok ix ->
  Forall (fun a => action_ok n (action_body a)) (ix_actions ix) /\
  Forall (fun s => usize_of s.1 < n) (ix_signers ix) /\ signers_sorted (ix_signers ix) /\
  end_of_actions_in_ix ix <= length orig.
Proof.
  unfold decode_ix. intros Hd. apply bind_Ok in Hd as ([[ss acts] rest] & Hd & [= <-]). cbn [ix_actions ix_signers end_of_actions_in_ix].
  apply pbind_Ok in Hd as (k & b1 & _ & Hd). apply pbind_Ok in Hd as (ss' & b2 & Hss & Hd).
  apply pbind_Ok in Hd as (acts' & b3 & Hacts & [= <- <- <-]).
  apply decode_signers_ok in Hss as (Hn & Hs & _). apply (pspec_many _ _ _ (decode_action_ok n)) in Hacts. repeat split; try done. lia.
Qed.
End decoding.

(** ** What a resolved key stands for *)

Section authority.
Context `{CastText} `{Blake3Keyed} `{K256} `{Hasher} (ctx : SignerResolveContext).

(** A valid signature by the key over the transaction, or an input that spends an output to it. *)
Definition signed (k : array 32) : Prop := exists sig, verify_k256_schnorr_sig k sig (sig_msg ctx) = true.
Definition spends_from (k : array 32) : Prop := exists i prev_tx_id o digest prev_rest out,
  parse_input_outpoint_at (sc_current_rest_preimage ctx) i = Ok (prev_tx_id, o) /\
  tx_id_v1_from_digest digest prev_rest = prev_tx_id /\
  parse_output_at_index_v1 prev_rest o = Ok out /\ out_spk out = to_script_bytes (PubKey k).
Definition authorised (k : array 32) : Prop := signed k \/ spends_from k.

(** What has to be authorised for a lock. *)
Definition satisfied (l : LockEnum) : Prop :=
  match l with
  | Schnorr l => authorised (SchnorrLockView.pubkey l)
  | Multisig m => exists ks, NoDup ks /\ usize_of (MultisigLockView.threshold m) <= length ks /\
      Forall (fun k => k ∈ MultisigLockView.iter_pubkeys m /\ authorised k) ks
  | Unlocked _ => True
  end.

Lemma extract_p2pk_exact spk k : extract_p2pk_pubkey spk = Some k <-> spk = to_script_bytes (PubKey k).
Proof.
  unfold extract_p2pk_pubkey, P2PK_SPK_SIZE, OP_DATA_32, OP_CHECK_SIG. split.
  - destruct (Nat.eqb_spec (length spk) 34) as [Hlen|]; [|done]. do 2 case_bool_decide; try done. cbn [negb orb].
    intros Hk. apply vec_to_list_of_list in Hk. cbn [to_script_bytes app]. rewrite Hk.
    destruct spk as [|x spk]; [done|]. cbn [lookup list_lookup length drop] in *. simplify_eq. rewrite drop_0. f_equal.
    by apply (list_last 32).
  - intros ->. repeat (inv_vec k; try intros ? k). reflexivity.
Qed.

Lemma recover_witness_authorised i o l d k : recover_witness_pubkey i o l d ctx = Ok k -> authorised k.
Proof.
  unfold recover_witness_pubkey, recover_prev_tx_v1_p2pk_pubkey. intros Hr. inv_ok. destruct x1 as [k'|]; [|done]. cbn in Hr. inv_ok.
  right. destruct x2 as [prev oi]. case_bool_decide as Hid; [|done]. cbn [negb] in Hx1. inv_ok.
  simplify_eq. apply extract_p2pk_exact in Hx1. by eexists (byte.unsigned i), _, oi, x0, x, _.
Qed.

Lemma resolve_sig_signed k o m k' : resolve_sig k o m ctx = Ok k' -> authorised k'.
Proof.
  unfold resolve_sig. intros Hr. inv_ok. destruct (verify_k256_schnorr_sig k x (sig_msg ctx)) eqn:E; [|done].
  cbn [negb] in Hr. inv_ok. left. by exists x.
Qed.

(** Buckets in order, all of whose keys are authorised, none of them after the signers left. *)
Record auth_ok (auth : AuthContext) (left : list (byte * SignerEnum)) : Prop := {
  ao_schnorr : bucket_sorted (auth_schnorr auth);
  ao_multisig : bucket_sorted (auth_multisig auth);
  ao_keys : Forall (fun e => authorised (su_pubkey e.2)) (auth_schnorr auth);
  ao_contribs : Forall (fun e => Forall authorised (mu_pubkeys e.2)) (auth_multisig auth);
  ao_schnorr_le : forall e s, e ∈ auth_schnorr auth -> s ∈ left -> (byte.unsigned e.1 <= byte.unsigned s.1)%Z;
  ao_multisig_le : forall e s, e ∈ auth_multisig auth -> s ∈ left -> (byte.unsigned e.1 <= byte.unsigned s.1)%Z
}.

Lemma bucket_snoc {U} (b : list (byte * U)) i u :
  bucket_sorted b -> (forall e, e ∈ b -> byte.unsigned e.1 <= byte.unsigned i)%Z -> bucket_sorted (b ++ [(i, u)]).
Proof.
  intros Hs Hle. induction Hs as [|e b Hs IH He]; cbn; [by repeat constructor|].
  constructor; [apply IH; intros; apply Hle; by constructor|]. apply Forall_app. split; [done|].
  repeat constructor. cbn. apply Hle. by constructor.
Qed.

Lemma push_schnorr_ok auth i s left k :
  auth_ok auth ((i, s) :: left) -> signers_sorted ((i, s) :: left) -> authorised k ->
  auth_ok (push_schnorr auth i {| su_pubkey := k |}) left.
Proof.
  intros [Hs Hm Hk Hc Hsl Hml] Hsort Ha. apply StronglySorted_inv in Hsort as [_ Hi]. rewrite Forall_forall in Hi.
  constructor; cbn [push_schnorr auth_schnorr auth_multisig]; [| | | | |by intros e x He Hx; apply Hml; [|constructor]].
  - apply bucket_snoc; [done|]. intros e He. apply (Hsl e (i, s)); [done|constructor].
  - done.
  - apply Forall_app. split; [done|]. by apply Forall_singleton.
  - done.
  - intros e x [He|He%list_elem_of_singleton]%elem_of_app Hx; [by apply Hsl; [|constructor]|]. subst e. by apply (Hi x).
Qed.

Lemma push_multisig_ok auth i s left k :
  auth_ok auth ((i, s) :: left) -> signers_sorted ((i, s) :: left) -> authorised k ->
  auth_ok (push_multisig auth i {| mu_pubkeys := [k] |}) left.
Proof.
  intros [Hs Hm Hk Hc Hsl Hml] Hsort Ha. apply StronglySorted_inv in Hsort as [_ Hi]. rewrite Forall_forall in Hi.
  assert (forall b u, bucket_sorted b -> (forall e, e ∈ b -> e ∈ auth_multisig auth) ->
    Forall (fun e => Forall authorised (mu_pubkeys e.2)) b -> Forall authorised (mu_pubkeys u) ->
    auth_ok {| auth_schnorr := auth_schnorr auth; auth_multisig := b ++ [(i, u)] |} left) as Hsnoc.
  { intros b u Hb Hin Hbk Hu. constructor; cbn [auth_schnorr auth_multisig]; [done| |done| | |].
    - apply bucket_snoc; [done|]. intros e He. apply (Hml e (i, s)); [by apply Hin|constructor].
    - apply Forall_app. split; [done|]. by apply Forall_singleton.
    - intros e x He Hx. by apply Hsl; [|constructor].
    - intros e x [He|He%list_elem_of_singleton]%elem_of_app Hx; [by apply Hml; [apply Hin|constructor]|]. subst e. by apply (Hi x). }
  unfold push_multisig, append_multisig_contrib.
  destruct (last (auth_multisig auth)) as [[j u]|] eqn:El; [case_bool_decide as Hj|].
  2,3: apply Hsnoc; [done..|]; by apply Forall_singleton.
  subst j. apply last_Some in El as [b Hb]. rewrite Hb. rewrite length_app. cbn [length].
  rewrite Nat.add_sub, take_app_length. rewrite Hb in Hc. apply Forall_app in Hc as [Hcb Hcu]. apply Forall_inv in Hcu.
  apply Hsnoc; [|intros e He; rewrite Hb; apply elem_of_app; by left|done|].
  - unfold bucket_sorted in Hm. rewrite Hb in Hm. by apply StronglySorted_app_inv in Hm as [? _].
  - cbn. apply Forall_app. split; [exact Hcu|]. by apply Forall_singleton.
Qed.

Lemma resolve_from_ok auth ss auth' :
  auth_ok auth ss -> signers_sorted ss -> resolve_from auth ss ctx = Ok auth' -> auth_ok auth' [].
Proof.
  revert auth. induction ss as [|[i s] ss IH]; intros auth Hok Hs Hr; cbn in Hr; [by injection Hr as <-|].
  apply bind_Ok in Hr as (auth1 & H1' & Hr). eapply IH; [|by apply StronglySorted_inv in Hs as [? _]|exact Hr].
  destruct s; cbn [resolve_signer] in H1'; unfold resolve_schnorr, resolve_genesis, resolve_multisig in H1'; inv_ok.
  all: first [eapply push_schnorr_ok | eapply push_multisig_ok]; [done..|].
  all: eauto using resolve_sig_signed, recover_witness_authorised.
Qed.

Lemma resolve_signers_ok ss auth : signers_sorted ss -> resolve_signers ss ctx = Ok auth -> auth_ok auth [].
Proof.
  intros Hs Hr. unfold resolve_signers in Hr. destruct (resolve_from _ _ _) as [a| |] eqn:E; [|done..]. injection Hr as <-.
  eapply resolve_from_ok; [|done..]. constructor; cbn; try constructor; by intros ? ? ?%not_elem_of_nil.
Qed.

(** An unlocked lock is satisfied. *)
Lemma unlock_satisfied auth l i : auth_ok auth [] -> lock_ok l -> unlock l i auth = Ok true -> satisfied l.
Proof.
  intros [Hs Hm Hk Hc _ _] Hl Hu. destruct l as [l|m|[]]; cbn [unlock] in Hu; [| |done].
  - apply schnorr_unlock in Hu; [|done]. rewrite Forall_forall in Hk. cbn.
    apply (Hk (i, {| su_pubkey := SchnorrLockView.pubkey l |})).
    assert ((i, {| su_pubkey := SchnorrLockView.pubkey l |}) ∈ filter (fun e => e.1 = i) (auth_schnorr auth)) as Hin
      by (rewrite Hu; constructor). by apply list_elem_of_filter in Hin as [_ ?].
  - destruct Hl as [ks Hks]. apply (multisig_unlock m ks) in Hu as (contrib & (u & Hf & <-) & Hasc & Hle); [|done..].
    assert ((i, u) ∈ filter (fun e => e.1 = i) (auth_multisig auth)) as Hin by (rewrite Hf; constructor).
    apply list_elem_of_filter in Hin as [_ Hin]. rewrite Forall_forall in Hc. specialize (Hc _ Hin). rewrite Forall_forall in Hc.
    cbn [satisfied]. rewrite (multisig_keys m ks) by done. exists (common ks (mu_pubkeys u)). split; [|split; [done|]].
    + apply NoDup_filter, ascending_NoDup, strictly_ascending_sorted. by destruct Hks as (_ & _ & _ & ?).
    + apply Forall_forall. intros k Hin'. apply list_elem_of_filter in Hin' as [? ?]. split; [done|]. by apply Hc.
Qed.
End authority.

(** ** Decoding and resolving do not panic *)

Section decoders_safe.
Context `{CastText} `{Blake3Keyed} `{K256} `{Hasher}.

Lemma psafe_decode_lock : psafe decode_lock.
Proof.
  unfold decode_lock. apply psafe_bind; [apply psafe_read_byte|]. intros tag. repeat apply psafe_if; [| | |done].
  - apply psafe_bind; [|done]. apply psafe_bind; [apply psafe_read_array|done].
  - apply psafe_bind; [|done]. apply psafe_bind; [apply psafe_read_byte|]. intros th.
    apply psafe_bind; [apply psafe_read_byte|]. intros n. apply psafe_bind; [apply psafe_read_bytes|]. intros pks.
    apply psafe_bind; [|done]. apply psafe_lift, safe_codec_err, safe_validate_multisig.
  - apply psafe_bind; [|done]. done.
Qed.

Lemma psafe_spk m : psafe (or_decode_err spk_decode m).
Proof.
  intros buf. unfold or_decode_err. destruct (spk_decode buf) eqn:E; [done..|]. exfalso. revert E.
  unfold spk_decode, mbind, aparser_bind, lift. pose proof (psafe_read_byte "exit_tag" buf) as Hb. unfold safe in Hb.
  destruct (Reader.read_byte "exit_tag" buf) as [[tag b]| |]; [|done..]. cbn [from_codec]. destruct tag; try done.
  all: match goal with |- context [Reader.read_array ?n ?f ?b] =>
    pose proof (psafe_read_array n f b); destruct (Reader.read_array n f b) as [[? ?]| |] end; unfold safe in *; first [done | congruence].
Qed.

Lemma psafe_le_u32 f : psafe (Reader.le_u32 f).
Proof. apply psafe_le_uint. Qed.
Lemma psafe_le_u64 f : psafe (Reader.le_u64 f).
Proof. apply psafe_le_uint. Qed.
Lemma psafe_le_u16 f : psafe (Reader.le_u16 f).
Proof. apply psafe_le_uint. Qed.
Lemma psafe_resource_idx f n : psafe (read_resource_idx f n).
Proof. apply psafe_bind; [apply psafe_read_byte|]. intros i. by apply psafe_if. Qed.
End decoders_safe.

#[export] Hint Resolve psafe_decode_lock psafe_spk psafe_le_u32 psafe_le_u64 psafe_le_u16 psafe_resource_idx : safe.

(** Panic freedom of a parser, step by step. *)
Ltac psafe := repeat first [progress intros | solve [eauto with safe nocore] | apply psafe_bind | apply psafe_if].

Section run_safe.
Context `{CastText} `{Blake3Keyed} `{K256} `{Hasher}.

Lemma psafe_decode_action n : psafe (decode_action n).
Proof.
  unfold decode_action. apply psafe_bind; [apply psafe_read_byte|]. intros tag. apply psafe_bind; [|done].
  destruct tag; try apply psafe_fail; psafe.
  match goal with |- psafe (match ?b with _ => _ end) => destruct b end; psafe.
Qed.

Lemma psafe_decode_signer : psafe decode_signer.
Proof. unfold decode_signer. psafe. match goal with |- psafe (match ?b with _ => _ end) => destruct b end; unfold witness_body; psafe. Qed.

Lemma psafe_decode_signers k n prev : psafe (decode_signers k n prev).
Proof.
  revert prev. induction k as [|k IH]; intros prev; cbn [decode_signers]; [done|]. apply psafe_bind; [|intros e; by apply psafe_bind].
  unfold decode_signer_entry. apply psafe_bind; [apply psafe_decode_signer|]. psafe.
Qed.

Lemma decode_ix_safe orig n : safe (decode_ix orig n).
Proof.
  unfold decode_ix. apply safe_bind; [|by intros [[]]]. apply psafe_bind; [apply psafe_le_uint|]. intros k.
  apply psafe_bind; [apply psafe_decode_signers|]. intros ss. apply psafe_bind; [apply psafe_many, psafe_decode_action|]. done.
Qed.

Lemma psafe_skip_inputs k : psafe (skip_inputs k).
Proof. induction k as [|k IH]; cbn [skip_inputs]; [done|]. unfold skip_input at 1. by psafe. Qed.

Lemma parse_outpoint_safe rp i : safe (parse_input_outpoint_at rp i).
Proof. unfold parse_input_outpoint_at. apply safe_fst. psafe. apply psafe_skip_inputs. Qed.

Lemma parse_output_safe rp o : safe (parse_output_at_index_v1 rp o).
Proof.
  unfold parse_output_at_index_v1. apply safe_fst. psafe; [apply psafe_skip_inputs|].
  assert (psafe parse_output) as Hone by (unfold parse_output; psafe).
  induction (Z.to_nat o) as [|k IH]; cbn [output_after]; [done|]. by apply psafe_bind.
Qed.

Lemma lock_at_safe i ctx : safe (lock_at i ctx).
Proof.
  unfold lock_at. apply safe_bind; [apply safe_ok_or|]. intros r _. destruct (kind_of _); [|done].
  repeat (apply safe_if; intros _); [| |done].
  all: apply safe_bind; [apply safe_codec_err; apply safe_checked_view|]; intros v Hv.
  - apply (safe_view_lock KIND_CONFIG). destruct (ConfigView.from_bytes _) eqn:E; [|done..]. injection Hv as <-. by apply checked_view_exact in E as [_ ?].
  - apply (safe_view_lock KIND_USER). destruct (UserView.from_bytes _) eqn:E; [|done..]. injection Hv as <-. by apply checked_view_exact in E as [_ ?].
Qed.

Lemma resolve_sig_safe k o m ctx : safe (resolve_sig k o m ctx).
Proof. unfold resolve_sig. apply safe_bind; [apply safe_ok_or|]. intros s _. by destruct (negb _). Qed.

Lemma recover_witness_safe i o l d ctx : safe (recover_witness_pubkey i o l d ctx).
Proof.
  unfold recover_witness_pubkey. apply safe_bind; [apply safe_ok_or|]. intros rp _. apply safe_bind; [apply safe_ok_or|]. intros dg _.
  apply safe_bind; [|intros; apply safe_ok_or]. unfold recover_prev_tx_v1_p2pk_pubkey.
  apply safe_bind; [apply parse_outpoint_safe|]. intros [prev oi] _. destruct (negb _); [done|].
  apply safe_bind; [apply parse_output_safe|done].
Qed.

Lemma resolve_from_safe auth ss ctx : safe (resolve_from auth ss ctx).
Proof.
  revert auth. induction ss as [|[i s] ss IH]; intros auth; cbn [resolve_from]; [done|]. apply safe_bind; [|intros; apply IH].
  destruct s; cbn [resolve_signer]; (apply safe_bind; [|done]).
  - unfold resolve_schnorr. apply safe_bind; [|intros; by apply safe_bind; [apply resolve_sig_safe|]].
    apply safe_bind; [apply lock_at_safe|]. by intros [].
  - apply recover_witness_safe.
  - unfold resolve_multisig. apply safe_bind; [|intros; by apply safe_bind; [apply resolve_sig_safe|]].
    apply safe_bind; [apply lock_at_safe|]. intros []; [done| |done]. intros _. destruct (_ <=? _)%Z; [done|apply safe_ok_or].
  - apply recover_witness_safe.
  - unfold resolve_genesis. apply safe_bind; [apply safe_ok_or|]. intros. by apply safe_bind; [apply resolve_sig_safe|].
Qed.

Lemma resolve_context_run tx ix prefix rs :
  p_bytes (payload tx) = prefix ++ ix_data (payload tx) -> end_of_actions_in_ix ix <= length (ix_data (payload tx)) ->
  exists ctx, resolve_context tx ix rs = Ok ctx.
Proof.
  intros Hp He. unfold resolve_context. rewrite Hp, length_app.
  rewrite (proj2 (Nat.ltb_ge _ _)) by lia. rewrite (proj2 (Nat.ltb_ge _ _)) by lia. by eexists.
Qed.
End run_safe.

(** ** The whole transaction *)

(** Resources as the ABI decodes them. *)
Definition fresh (rs : list Resource.t) : Prop := Forall (fun r => Resource.is_new r = (length (Resource.data r) =? 0)) rs.

(** A payload is its access metadata followed by the instructions. *)
Definition payload_ok (p : Payload) : Prop := exists prefix, p_bytes p = prefix ++ ix_data p.

Lemma payload_decode_ok `{CastText} l p : payload_decode l = Ok p -> payload_ok p.
Proof.
  unfold payload_decode. intros Hd. apply bind_Ok in Hd as ([am rest] & Hd & [= <-]). cbn. apply lift_Ok in Hd.
  unfold decode_slice in Hd. apply pbind_Ok in Hd as (v & b & Hv & Hd).
  assert (b = rest) as -> by (destruct (strictly_ascending _); [by injection Hd|done]).
  unfold Reader.slice_as in Hv. apply pbind_Ok in Hv as (n & b1 & Hn & Hv). apply le_uint_Ok in Hn as [-> Hn].
  apply pbind_Ok in Hv as (raw & b2 & Hr & Hv). apply read_bytes_Ok in Hr as [-> _]; [|lia].
  apply plift_Ok in Hv as [_ ->]. eexists. by rewrite app_assoc.
Qed.

Section transaction.
Context `{CastText} `{Blake3Keyed} `{K256} `{Hasher} `{Blake2b} `{DepositPolicy}.

Lemma cx_new_ok tx st ctx auth : fresh (hs_resources st) -> auth_ok ctx auth [] -> cx_ok (cx_new tx st auth).
Proof.
  intros Hf Ha. constructor; [|apply Ha..]. cbn. apply Forall2_fmap_r, Forall2_same_length_lookup_2; [done|].
  intros i r r' Hr Hr'. assert (r' = r) as -> by congruence. unfold fresh in Hf. rewrite Forall_lookup in Hf. specialize (Hf i r Hr).
  unfold compose, Lifecycle_from_resource. rewrite Hf. destruct (Nat.eqb_spec (length (Resource.data r)) 0) as [Hl|Hl].
  - apply nil_length_inv in Hl. done.
  - split; [done|]. split; [done|]. intros Hd. by rewrite Hd in Hl.
Qed.

Lemma book_step_length rp auth a bk bk' : book_step rp auth a bk bk' -> length (bk_slots bk') = length (bk_slots bk).
Proof. destruct 1; cbn; by rewrite ?length_alter. Qed.

Lemma cx_resources_length cx a cx' : refines cx a cx' -> length (cx_resources cx') = length (cx_resources cx).
Proof. intros [Hs _ _ _]. apply book_step_length in Hs. cbn in Hs. by rewrite !length_fmap in Hs. Qed.

Lemma apply_action_safe cx a :
  (forall b, safe (credit_target b)) -> cx_ok cx -> action_ok (length (cx_resources cx)) (action_body a) -> safe (apply_action a cx).
Proof.
  intros Ht Hok Ha. unfold apply_action. destruct (action_body a); cbn [action_ok] in Ha; destruct_and? Ha.
  - by apply apply_update_safe.
  - by apply apply_init_safe.
  - by apply apply_transfer_safe.
  - by apply apply_update_user_lock_safe.
  - apply apply_deposit_safe; [done..|]. apply parse_output_safe.
  - by apply apply_withdraw_safe.
Qed.

Lemma apply_actions_safe acts cx :
  (forall b, safe (credit_target b)) -> cx_ok cx -> Forall (fun a => action_ok (length (cx_resources cx)) (action_body a)) acts ->
  safe (apply_actions acts cx).
Proof.
  intros Ht. revert cx. induction acts as [|a acts IH]; intros cx Hok Ha; cbn [apply_actions]; [done|].
  apply Forall_cons in Ha as [Ha Hacts]. apply safe_bind; [by apply apply_action_safe|]. intros cx' Hcx'.
  eapply apply_action_sound in Hcx' as Hr; [|done..]. apply IH; [apply Hr|]. by rewrite (cx_resources_length _ _ _ Hr).
Qed.

(** No transaction makes the handler panic. *)
Lemma run_safe tx st :
  (forall b, safe (credit_target b)) -> fresh (hs_resources st) -> payload_ok (payload tx) -> safe (run tx st).1.
Proof.
  intros Ht Hf [prefix Hp]. unfold run.
  pose proof (decode_ix_safe (ix_data (payload tx)) (length (hs_resources st))) as Hix.
  destruct (decode_ix _ _) as [ix|e|] eqn:Eix; [|done|done]. apply decode_ix_ok in Eix as (Hacts & _ & Hss & He). cbn [from_codec mbind outcome_bind].
  destruct (resolve_context_run tx ix prefix (hs_resources st) Hp He) as [ctx Hctx]. rewrite Hctx. cbn [mbind outcome_bind].
  destruct (resolve_signers (ix_signers ix) ctx) as [auth|e|] eqn:Ea; [|done|].
  2:{ unfold resolve_signers in Ea. pose proof (resolve_from_safe {| auth_schnorr := []; auth_multisig := [] |} (ix_signers ix) ctx) as Hs.
      by destruct (resolve_from _ _ _). }
  cbn [mbind outcome_bind]. apply (resolve_signers_ok ctx) in Ea; [|done].
  pose proof (apply_actions_safe (ix_actions ix) (cx_new tx st auth) Ht (cx_new_ok _ _ _ _ Hf Ea) Hacts) as Hs.
  destruct (apply_actions _ _) as [cx|[e cx]|]; done.
Qed.
End transaction.
