(* ===== verification/RtValue.v ===== *)
(** * RtValue: whole transactions of the runtime processor

    A transaction that succeeds is a sequence of ledger steps and the other way round. Along such a
    sequence value is conserved, and slots change only the way their locks allow. *)

From S2P Require Import Prelude Codec Types SmtNode AbiCore AbiTx RtLock RtState RtAuth RtActions RtProofs RtLedger RtRun.
Import ResourceExt.

(** ** Transactions as sequences of ledger steps *)

(** The slots of a handler's state. *)
Definition slots_of (rs : list Resource.t) : list (ResourceId * slot) := (fun r => (Resource.id r, rslot r)) <$> rs.

Definition state_book (st : HandlerState) (consumed : list Z) : Book :=
  {| bk_slots := slots_of (hs_resources st); bk_exits := hs_exits st; bk_consumed := consumed; bk_deposit := hs_deposit st |}.

Section transaction.
Context `{CastText} `{Blake3Keyed} `{K256} `{Hasher} `{Blake2b} `{DepositPolicy}.

(** The instructions decode and every signer resolves. *)
Definition prepared (tx : Transaction) (st : HandlerState) (ix : DecodedIx) (ctx : SignerResolveContext) (auth : AuthContext) : Prop :=
  decode_ix (ix_data (payload tx)) (length (hs_resources st)) = Ok ix /\
  resolve_context tx ix (hs_resources st) = Ok ctx /\ resolve_signers (ix_signers ix) ctx = Ok auth.

Lemma apply_actions_sound n acts cx cx' :
  cx_ok cx -> Forall (fun a => action_ok n (action_body a)) acts -> apply_actions acts cx = Ok cx' ->
  book_steps (rest_preimage (cx_tx cx)) (cx_auth cx) (action_body <$> acts) (book_of cx) (book_of cx').
Proof.
  intros Hok Ha. revert cx Hok. induction Ha as [|a acts Ha Hacts IH]; intros cx Hok Happ; cbn in Happ |- *; [injection Happ as <-; constructor|].
  apply bind_Ok in Happ as (cx1 & H1' & Happ). destruct (apply_action_sound n cx a cx1 Hok Ha H1') as [Hs Hok1 Htx Hau].
  econstructor; [exact Hs|]. rewrite <- Htx, <- Hau. by apply IH.
Qed.

Lemma apply_actions_complete n acts cx bk' :
  cx_ok cx -> Forall (fun a => action_ok n (action_body a)) acts ->
  book_steps (rest_preimage (cx_tx cx)) (cx_auth cx) (action_body <$> acts) (book_of cx) bk' ->
  exists cx', apply_actions acts cx = Ok cx' /\ book_of cx' = bk'.
Proof.
  intros Hok Ha. revert cx Hok. induction Ha as [|a acts Ha Hacts IH]; intros cx Hok Hst; inversion Hst as [|? ? ? bk1 ? Hs1 Hs2]; subst.
  { by exists cx. }
  destruct (apply_action_complete n cx a bk1 Hok Ha Hs1) as [cx1 H1']. destruct (apply_action_sound n cx a cx1 Hok Ha H1') as [Hs Hok1 Htx Hau].
  rewrite (book_step_det _ _ _ _ _ _ Hs1 Hs), <- Htx, <- Hau in Hs2. destruct (IH cx1 Hok1 Hs2) as (cx' & Hcx' & Hbk).
  exists cx'. cbn [apply_actions]. by rewrite H1'.
Qed.

Lemma run_sound tx st st' :
  fresh (hs_resources st) -> run tx st = (Ok (inr tt), st') ->
  exists ix ctx auth consumed, prepared tx st ix ctx auth /\ auth_ok ctx auth [] /\
    Forall (action_ok (length (hs_resources st))) (action_body <$> ix_actions ix) /\
    book_steps (rest_preimage tx) auth (action_body <$> ix_actions ix) (state_book st []) (state_book st' consumed).
Proof.
  intros Hf Hrun. unfold run in Hrun. destruct (_ ≫= _) as [[acts cx]| |] eqn:Hp; [|done..].
  destruct (decode_ix _ _) as [ix|e|] eqn:Eix; [|done..]. cbn [from_codec mbind outcome_bind] in Hp.
  apply bind_Ok in Hp as (ctx & Hctx & Hp). apply bind_Ok in Hp as (auth & Hauth & [= <- <-]).
  destruct (decode_ix_ok _ _ _ Eix) as (Hacts & _ & Hss & _).
  pose proof (resolve_signers_ok ctx _ _ Hss Hauth) as Hok.
  destruct (apply_actions (ix_actions ix) (cx_new tx st auth)) as [cx|[e cx]|] eqn:Ha; [|done..]. injection Hrun as <-.
  exists ix, ctx, auth, (cx_consumed cx). repeat (split; [done|]). split; [by apply Forall_fmap|].
  by apply (apply_actions_sound (length (hs_resources st)) _ _ _ (cx_new_ok tx st ctx auth Hf Hok) Hacts) in Ha.
Qed.

Lemma run_complete tx st ix ctx auth bk' :
  fresh (hs_resources st) -> prepared tx st ix ctx auth ->
  book_steps (rest_preimage tx) auth (action_body <$> ix_actions ix) (state_book st []) bk' ->
  exists st' consumed, run tx st = (Ok (inr tt), st') /\ bk' = state_book st' consumed.
Proof.
  intros Hf (Hix & Hctx & Hauth) Hst. destruct (decode_ix_ok _ _ _ Hix) as (Hacts & _ & Hss & _).
  pose proof (resolve_signers_ok ctx _ _ Hss Hauth) as Hok.
  destruct (apply_actions_complete (length (hs_resources st)) (ix_actions ix) (cx_new tx st auth) bk') as (cx & Hcx & <-);
    [by eapply cx_new_ok|done..|].
  unfold run. rewrite Hix. cbn [from_codec mbind outcome_bind]. rewrite Hctx. cbn [mbind outcome_bind]. rewrite Hauth.
  cbn [mbind outcome_bind]. rewrite Hcx. by eexists _, (cx_consumed cx).
Qed.
End transaction.

(** ** Value *)

Definition slot_balance (s : slot) : Z := match s with User b _ _ => b | _ => 0 end.
Definition total (slots : list (ResourceId * slot)) : Z := foldr (fun e acc => slot_balance e.2 + acc)%Z 0%Z slots.
Definition sum_values {A} (l : list (A * Z)) : Z := foldr (fun e acc => e.2 + acc)%Z 0%Z l.

Lemma total_put bk i id s0 s :
  bk_slots bk !! i = Some (id, s0) -> total (bk_slots (put bk i s)) = (total (bk_slots bk) - slot_balance s0 + slot_balance s)%Z.
Proof.
  cbn [put bk_slots]. generalize (bk_slots bk). intros l. revert i. induction l as [|e l IH]; intros [|i] Hl; [done..| |].
  - injection Hl as ->. cbn. lia.
  - cbn. cbn in Hl. specialize (IH i Hl). unfold total in *. cbn in *. lia.
Qed.

Lemma put_lookup_ne bk i j s : i <> j -> bk_slots (put bk i s) !! j = bk_slots bk !! j.
Proof. intros Hne. cbn. by rewrite list_lookup_alter_ne. Qed.

Lemma put_lookup bk i id s0 s : bk_slots bk !! i = Some (id, s0) -> bk_slots (put bk i s) !! i = Some (id, s).
Proof. intros Hl. cbn. by rewrite list_lookup_alter_eq, Hl. Qed.

Lemma sum_values_app {A} (a b : list (A * Z)) : sum_values (a ++ b) = (sum_values a + sum_values b)%Z.
Proof. unfold sum_values. induction a as [|x a IH]; cbn in *; lia. Qed.

(** The config's slot is found at the same place after a write, whose ids stay the same. *)
Lemma find_put `{Hasher} (l : list (ResourceId * slot)) i s id id' s0 s1 :
  l !! i = Some (id, s0) -> List.find (fun e => bool_decide (e.1 = config_resource_id)) l = Some (id', s1) ->
  let found := List.find (fun e => bool_decide (e.1 = config_resource_id)) (alter (fun e => (e.1, s)) i l) in
  found = Some (id', s1) \/ (s0 = s1 /\ found = Some (id', s)).
Proof.
  revert i. induction l as [|e l IH]; intros [|i] Hl Hf; [done..| |]; cbn in Hl, Hf |- *.
  - injection Hl as ->. cbn in Hf |- *. case_bool_decide; [|by left]. right. by simplify_eq.
  - destruct (bool_decide (e.1 = config_resource_id)); [by left|]. by apply IH.
Qed.

Lemma config_put `{Hasher} bk i id s0 s m c :
  bk_slots bk !! i = Some (id, s0) -> (forall m l, s0 = Config m c l -> exists m' l', s = Config m' c l') ->
  book_config bk = Some (m, c) -> exists m', book_config (put bk i s) = Some (m', c).
Proof.
  intros Hl Hs. unfold book_config. cbn [put bk_slots]. destruct (List.find _ (bk_slots bk)) as [[id' s1]|] eqn:Hf; [|done].
  destruct s1 as [| |m1 c1 l1|]; try done. intros [= -> ->].
  destruct (find_put _ _ s _ _ _ _ Hl Hf) as [Hp|[Hs0 Hp]]; cbv zeta in Hp; rewrite Hp; [by exists m|].
  destruct (Hs m l1 Hs0) as (m' & l' & ->). by exists m'.
Qed.

Section value.
Context `{Hasher} `{Blake2b} `{DepositPolicy} (rp : bytes) (auth : AuthContext).

(** An output of the transaction that pays the deposit address of a covenant. *)
Definition paid (c : array 32) (d : Z * Z) : Prop := exists out subject,
  parse_output_at_index_v1 rp d.1 = Ok out /\ out_value out = d.2 /\ out_spk_version out = 0%Z /\
  ds_covenant_id subject = c /\ out_spk out = deposit_spk subject.

(** What flows between two books: the exits [es] and the deposits [ds]. *)
Record flow (bk bk' : Book) (es : list (StandardSpk * Z)) (ds : list (Z * Z)) : Prop := {
  fl_exits : bk_exits bk' = bk_exits bk ++ exits_encode es;
  fl_amounts : Forall (fun e => u64 e.2) es;
  fl_consumed : bk_consumed bk' = bk_consumed bk ++ ds.*1;
  fl_fresh : NoDup (bk_consumed bk) -> NoDup (bk_consumed bk');
  fl_paid : Forall (fun d => exists m c, book_config bk' = Some (m, c) /\ paid c d /\ bk_deposit bk' = delegate_entry_spk_hash c) ds;
  fl_config : forall m c, book_config bk = Some (m, c) -> exists m', book_config bk' = Some (m', c);
  fl_deposit : ds = [] -> bk_deposit bk' = bk_deposit bk;
  fl_total : (total (bk_slots bk') + sum_values es = total (bk_slots bk) + sum_values ds)%Z
}.

Lemma flow_refl bk : flow bk bk [] [].
Proof. constructor; cbn; rewrite ?app_nil_r; eauto. Qed.

Lemma flow_trans bk1 bk2 bk3 es1 es2 ds1 ds2 :
  flow bk1 bk2 es1 ds1 -> flow bk2 bk3 es2 ds2 -> flow bk1 bk3 (es1 ++ es2) (ds1 ++ ds2).
Proof.
  intros F1 F2. constructor.
  - rewrite (fl_exits _ _ _ _ F2), (fl_exits _ _ _ _ F1), <- app_assoc. f_equal. unfold exits_encode. by rewrite bind_app.
  - apply Forall_app. split; [apply F1|apply F2].
  - by rewrite (fl_consumed _ _ _ _ F2), (fl_consumed _ _ _ _ F1), <- app_assoc, fmap_app.
  - intros. by apply F2, F1.
  - apply Forall_app. split; [|apply F2]. eapply Forall_impl; [apply F1|]. intros d (m & c & Hc & Hp & Hd).
    destruct (fl_config _ _ _ _ F2 m c Hc) as [m' Hc']. exists m', c. repeat (split; [done|]).
    pose proof (fl_paid _ _ _ _ F2) as Hps. pose proof (fl_deposit _ _ _ _ F2) as Hds. destruct ds2 as [|d2 ds2]; [by rewrite Hds|].
    apply Forall_inv in Hps as (? & ? & Hc2 & _ & ->). by simplify_eq.
  - intros m c Hc. destruct (fl_config _ _ _ _ F1 m c Hc) as [m' Hc']. eauto using fl_config.
  - intros [-> ->]%app_nil. by rewrite (fl_deposit _ _ _ _ F2), (fl_deposit _ _ _ _ F1).
  - rewrite !sum_values_app. pose proof (fl_total _ _ _ _ F1). pose proof (fl_total _ _ _ _ F2). lia.
Qed.

(** A write that keeps the covenant. *)
Lemma flow_put bk i id s0 s :
  bk_slots bk !! i = Some (id, s0) -> (forall m c l, s0 = Config m c l -> exists m' l', s = Config m' c l') ->
  slot_balance s = slot_balance s0 -> flow bk (put bk i s) [] [].
Proof.
  intros Hl Hs Hb. constructor; try done; try by rewrite ?app_nil_r.
  - intros m c. eapply config_put; [done|]. eauto.
  - rewrite (total_put _ _ _ _ _ Hl). cbn. lia.
Qed.

Lemma config_put_user bk i id s0 b h l m c :
  bk_slots bk !! i = Some (id, s0) -> (s0 = Vacant \/ exists b h l, s0 = User b h l) ->
  book_config bk = Some (m, c) -> exists m', book_config (put bk i (User b h l)) = Some (m', c).
Proof. intros Hl Hs. eapply config_put; [done|]. intros ? ? ->. naive_solver. Qed.

Lemma flow_transfer bk s d sid sb sh sl did s0 a dh dl :
  s <> d -> bk_slots bk !! usize_of s = Some (sid, User sb sh sl) -> bk_slots bk !! usize_of d = Some (did, s0) ->
  (s0 = Vacant \/ exists b h l, s0 = User b h l) ->
  flow bk (put (put bk (usize_of s) (User (sb - a) sh sl)) (usize_of d) (User (slot_balance s0 + a) dh dl)) [] [].
Proof.
  intros Hsd Hs Hd Hk. assert (usize_of s <> usize_of d) as Hne by (intros ?%usize_of_inj; done).
  pose proof Hd as Hd'. rewrite <- (put_lookup_ne bk _ _ (User (sb - a) sh sl) Hne) in Hd'.
  constructor; try done; try by rewrite ?app_nil_r.
  - intros m c Hc. destruct (config_put_user bk (usize_of s) sid (User sb sh sl) (sb - a) sh sl m c) as [m' Hc']; [eauto..|].
    by eapply config_put_user.
  - rewrite (total_put _ _ _ _ _ Hd'), (total_put _ _ _ _ _ Hs). cbn. lia.
Qed.

Lemma flow_deposit bk i o l v t deposit id s0 h l0 :
  funding rp bk i o l v t deposit -> bk_slots bk !! usize_of (ct_user_idx t) = Some (id, s0) ->
  (s0 = Vacant \/ exists b h l, s0 = User b h l) ->
  flow bk (put (consume bk o deposit) (usize_of (ct_user_idx t)) (User (slot_balance s0 + v) h l0)) [] [(o, v)].
Proof.
  intros [Hf (m & c & out & Hc & Hp & Hv & Hver & Hspk & Hd) _] Hl Hk.
  pose proof (fun m c => config_put_user (consume bk o deposit) _ id s0 (slot_balance s0 + v) h l0 m c Hl Hk) as Hcfg.
  constructor; try done; try by rewrite ?app_nil_r.
  - intros Hn. cbn. apply NoDup_app. split; [done|]. split; [|apply NoDup_singleton].
    intros x Hx ->%list_elem_of_singleton. done.
  - apply Forall_singleton. destruct (Hcfg m c Hc) as [m' Hc']. exists m', c. split; [done|]. split; [by eexists out, {| ds_body := _; ds_covenant_id := c |}|].
    cbn. unfold deposit_set in Hd. case_bool_decide; [congruence|]. case_bool_decide; [congruence|done].
  - rewrite (total_put (consume bk o deposit) _ _ _ _ Hl). cbn -[total]. lia.
Qed.

Lemma flow_withdraw bk i id b h l a dest :
  bk_slots bk !! i = Some (id, User b h l) -> u64 a ->
  flow bk (emit (put bk i (User (b - a) h l)) dest a) [(dest, a)] [].
Proof.
  intros Hl Ha. constructor; try done; try by rewrite ?app_nil_r.
  - by apply Forall_singleton.
  - intros m c. eapply config_put_user; [done|]. eauto.
  - change (bk_slots (emit ?b _ _)) with (bk_slots b). rewrite (total_put _ _ _ _ _ Hl). cbn. lia.
Qed.

Lemma step_flow n a bk bk' : action_ok n a -> book_step rp auth a bk bk' -> exists es ds, flow bk bk' es ds.
Proof.
  intros Ha Hst. destruct Hst.
  - eexists _, _. eapply flow_put; [done| |done]. naive_solver.
  - eexists _, _. by eapply flow_put.
  - eexists _, _. eapply (flow_transfer _ _ _ _ _ _ _ _ (User db dh dl)); eauto 6.
  - eexists _, _. eapply (flow_transfer _ _ _ _ _ _ _ _ Vacant); eauto 6.
  - eexists _, _. by eapply flow_put.
  - eexists _, _. eapply flow_withdraw; [done|]. by destruct Ha.
  - eexists _, _. eapply (flow_deposit _ _ _ _ _ _ _ _ (User b (id_hash l) l0)); eauto 6.
  - eexists _, _. eapply (flow_deposit _ _ _ _ _ _ _ _ Vacant); eauto 6.
Qed.

Lemma steps_flow n acts bk bk' : Forall (action_ok n) acts -> book_steps rp auth acts bk bk' -> exists es ds, flow bk bk' es ds.
Proof.
  intros Ha Hst. induction Hst as [bk|a acts bk bk1 bk2 Hs _ IH]; [eauto using flow_refl|].
  apply Forall_cons in Ha as [Ha Hacts]. destruct (step_flow n a bk bk1 Ha Hs) as (es & ds & Hf). destruct (IH Hacts) as (es' & ds' & Hf').
  eauto using flow_trans.
Qed.
End value.

(** ** Authority *)

Section authority.
Context `{Hasher} (opened : LockEnum -> Prop).

(** How a slot may change: a vacant one becomes a user bound to its id or, with the genesis key, the
    config; a user keeps its initial lock hash and a config its covenant; and without its lock
    opened a user can only be credited and a config cannot change at all. *)
Definition evolves (id : ResourceId) (s s' : slot) : Prop :=
  match s with
  | Vacant => s' = Vacant \/ (exists b h l, s' = User b h l /\ id = derive_user_resource h) \/
      (exists m c l, s' = Config m c l /\ id = config_resource_id /\ opened genesis_lock)
  | User b h l => (exists b', s' = User b' h l /\ (b <= b')%Z) \/ (opened l /\ exists b' l', s' = User b' h l')
  | Config m c l => s' = s \/ (opened l /\ exists m' l', s' = Config m' c l')
  | Foreign _ => s' = s
  end.

Definition evolve (bk bk' : Book) : Prop :=
  Forall2 (fun e e' => e'.1 = e.1 /\ evolves e.1 e.2 e'.2) (bk_slots bk) (bk_slots bk').

Lemma evolves_refl id s : evolves id s s.
Proof. destruct s; cbn; [by left|left; eexists; split; [done|lia]|by left|done]. Qed.

Lemma evolves_trans id s1 s2 s3 : evolves id s1 s2 -> evolves id s2 s3 -> evolves id s1 s3.
Proof.
  destruct s1 as [|b h l|m c l|x]; cbn.
  - intros [->|[(b & h & l & -> & ->)|(m & c & l & -> & -> & Ho)]]; cbn; [done| |]; naive_solver.
  - intros [(b' & -> & Hb)|(Ho & b' & l' & ->)]; cbn; [|naive_solver]. intros [(b2 & -> & Hb2)|(Ho & b2 & l2 & ->)]; [|naive_solver].
    left. eexists. split; [done|lia].
  - intros [->|(Ho & m' & l' & ->)]; cbn; naive_solver.
  - by intros ->.
Qed.

Lemma evolve_refl bk : evolve bk bk.
Proof. unfold evolve. apply Forall_Forall2_diag, Forall_forall. intros e _. split; [done|apply evolves_refl]. Qed.

Lemma evolve_trans bk1 bk2 bk3 : evolve bk1 bk2 -> evolve bk2 bk3 -> evolve bk1 bk3.
Proof.
  unfold evolve. generalize (bk_slots bk3). intros l3 H1. revert l3.
  induction H1 as [|e1 e2 l1 l2 [Hi Hs] _ IH]; intros l3 H2; inversion H2 as [|? e3 ? ? [Hi' Hs'] ?]; subst; constructor; [|by apply IH].
  split; [congruence|]. rewrite Hi in Hs'. by eapply evolves_trans.
Qed.

Lemma evolve_put bk i id s0 s : bk_slots bk !! i = Some (id, s0) -> evolves id s0 s -> evolve bk (put bk i s).
Proof.
  intros Hl Hs. apply Forall2_same_length_lookup_2; cbn; [by rewrite length_alter|]. intros j [id1 s1] [id2 s2] H1 H2.
  destruct (decide (i = j)) as [->|Hne].
  - rewrite list_lookup_alter_eq, Hl in H2. by simplify_eq/=.
  - rewrite list_lookup_alter_ne in H2 by done. simplify_eq. split; [done|apply evolves_refl].
Qed.
End authority.

Section authorised_steps.
Context `{Hasher} `{Blake2b} `{DepositPolicy} (rp : bytes) (auth : AuthContext).

Definition opened_by (l : LockEnum) : Prop := exists i, unlocks auth l i.

Lemma step_evolve n a bk bk' : action_ok n a -> book_step rp auth a bk bk' -> evolve opened_by bk bk'.
Proof.
  intros Ha Hst.
  assert (forall s d a bk sid sb sh sl did s0 s1, s <> d -> bk_slots bk !! usize_of s = Some (sid, User sb sh sl) -> unlocks auth sl s ->
    bk_slots bk !! usize_of d = Some (did, s0) -> evolves opened_by did s0 s1 ->
    evolve opened_by bk (put (put bk (usize_of s) (User (sb - a) sh sl)) (usize_of d) s1)) as Htr.
  { intros ?????????? ? Hne Hs Hu Hd He. eapply evolve_trans; [eapply evolve_put; [exact Hs|]|eapply evolve_put; [|exact He]].
    - right. split; [by eexists|eauto].
    - rewrite put_lookup_ne; [done|]. by intros ?%usize_of_inj. }
  assert (forall bk i o l v t deposit, funding rp bk i o l v t deposit -> (0 <= v)%Z) as Hv.
  { intros ??????? [_ (?&?&out&_&Hp&<-&_) _]. by apply output_value_u64 in Hp as [? _]. }
  destruct Hst; try (eapply Htr; [done..|]).
  - eapply evolve_put; [done|]. right. split; [by eexists|eauto].
  - eapply evolve_put; [done|]. right. right. repeat eexists. done.
  - left. eexists. split; [done|]. destruct Ha as (_ & _ & [? _] & _). lia.
  - right. left. by repeat eexists.
  - eapply evolve_put; [done|]. right. split; [by eexists|eauto].
  - eapply (evolve_put _ bk); [done|]. right. split; [by eexists|eauto].
  - eapply (evolve_put _ (consume bk o deposit)); [done|]. left. eexists. split; [done|]. specialize (Hv _ _ _ _ _ _ _ H2). lia.
  - eapply (evolve_put _ (consume bk o deposit)); [done|]. right. left. by repeat eexists.
Qed.

Lemma steps_evolve n acts bk bk' : Forall (action_ok n) acts -> book_steps rp auth acts bk bk' -> evolve opened_by bk bk'.
Proof.
  intros Ha Hst. induction Hst as [bk|a acts bk bk1 bk2 Hs _ IH]; [apply evolve_refl|].
  apply Forall_cons in Ha as [Ha Hacts]. eapply evolve_trans; [by eapply step_evolve|by apply IH].
Qed.
End authorised_steps.
