(* ===== verification/RtBinding.v ===== *)
(** * RtBinding: what a signature commits to

    Decoders read a prefix of their buffer and nothing else. The message the signers of a
    transaction sign covers the payload up to the end of the actions, so it determines them. *)

From S2P Require Import Prelude Codec Types SmtNode AbiCore AbiTx RtLock RtState RtAuth RtActions RtProofs RtLedger RtRun RtValue.

(** ** Local decoders *)

(** A decoder that succeeds has used a prefix, and succeeds the same way whatever follows it. *)
Definition plocal {A} (p : parser A) : Prop := forall buf a rest,
  p buf = Ok (a, rest) -> exists used, buf = used ++ rest /\ forall rest', p (used ++ rest') = Ok (a, rest').

Lemma plocal_bind {A B} (p : parser A) (k : A -> parser B) : plocal p -> (forall a, plocal (k a)) -> plocal (p ≫= k).
Proof.
  intros Hp Hk buf b rest (a & buf' & Ha & Hb)%pbind_Ok.
  apply Hp in Ha as (u & -> & Hu). apply Hk in Hb as (v & -> & Hv).
  exists (u ++ v). split; [by rewrite app_assoc|]. intros rest'. apply pbind_Ok. exists a, (v ++ rest'). by rewrite <- app_assoc.
Qed.

Lemma plocal_ret {A} (a : A) : plocal (mret a).
Proof. intros buf a' rest [= <- <-]. by exists []. Qed.
Lemma plocal_fail {A} e : plocal (@pfail A e).
Proof. done. Qed.
Lemma plocal_lift {A} (c : Result A) : plocal (plift c).
Proof. intros buf a rest [-> ->]%plift_Ok. by exists []. Qed.
Lemma plocal_read_byte field : plocal (Reader.read_byte field).
Proof. intros buf a rest ->%read_byte_Ok. by exists [a]. Qed.
Lemma plocal_read_array n field : plocal (Reader.read_array n field).
Proof. intros buf a rest ->%read_array_Ok. eexists. split; [done|]. intros. by apply read_array_Ok. Qed.
Lemma plocal_le_uint n field : plocal (Reader.le_uint n field).
Proof. intros buf a rest [-> Ha]%le_uint_Ok. eexists. split; [done|]. intros. by apply le_uint_run. Qed.
Lemma plocal_le_u32 field : plocal (Reader.le_u32 field).
Proof. apply plocal_le_uint. Qed.
Lemma plocal_le_u64 field : plocal (Reader.le_u64 field).
Proof. apply plocal_le_uint. Qed.
Lemma plocal_decode_lock : plocal decode_lock.
Proof. intros buf a rest [Hl ->]%decode_lock_Ok. eexists. split; [done|]. intros. by apply decode_lock_Ok. Qed.

Lemma plocal_spk `{CastText} m : plocal (or_decode_err spk_decode m).
Proof.
  intros buf a rest. unfold or_decode_err. destruct (spk_decode buf) as [[d b]| |] eqn:E; try done. intros [= -> ->].
  exists (spk_encode a). split; [|intros; by rewrite spk_decode_encode].
  unfold spk_decode in E. apply abind_Ok in E as (tag & b1 & Ht & E). apply lift_Ok, read_byte_Ok in Ht as ->.
  destruct tag; try done; apply abind_Ok in E as (k & b2 & Hk & [= <- <-]); by apply lift_Ok, read_array_Ok in Hk as ->.
Qed.

Lemma plocal_slice_as {T} `{Wire T} field : plocal (Reader.slice_as (T := T) field).
Proof.
  intros buf a rest (n & b1 & [-> Hn]%le_uint_Ok & Hv)%pbind_Ok. apply pbind_Ok in Hv as (raw & b2 & Hr & Hv).
  apply read_bytes_Ok in Hr as [-> Hlen]; [|lia]. apply plift_Ok in Hv as [Hc ->].
  eexists. split; [apply app_assoc|]. intros rest'. apply pbind_Ok. eexists _, _. rewrite <- app_assoc. split; [by apply le_uint_run|].
  apply pbind_Ok. eexists _, _. split; [apply read_bytes_Ok; [lia|done]|]. by apply plift_Ok.
Qed.

Create HintDb plocal discriminated.
#[export] Hint Resolve plocal_ret plocal_fail plocal_lift plocal_read_byte plocal_read_array plocal_le_u32 plocal_le_u64
  plocal_decode_lock plocal_spk plocal_slice_as : plocal.

(** Locality of a decoder, step by step. *)
Ltac plocal := repeat first
  [ progress intros | solve [auto with plocal typeclass_instances nocore] | apply plocal_bind
  | match goal with |- plocal (match ?b with _ => _ end) => destruct b end ].

Lemma plocal_decode_slice : plocal decode_slice.
Proof. unfold decode_slice. plocal. Qed.

Section decoders.
Context `{CastText}.

Lemma plocal_resource_idx field n : plocal (read_resource_idx field n).
Proof. unfold read_resource_idx. plocal. Qed.

Lemma plocal_decode_action n : plocal (decode_action n).
Proof. pose proof plocal_resource_idx. unfold decode_action. plocal. Qed.

Lemma plocal_decode_signers k n prev : plocal (decode_signers k n prev).
Proof.
  revert prev. induction k as [|k IH]; intros prev; cbn [decode_signers]; [apply plocal_ret|].
  apply plocal_bind; [|intros e; apply plocal_bind; [apply IH|intros; apply plocal_ret]].
  unfold decode_signer_entry, decode_signer, witness_body. plocal.
Qed.

Lemma plocal_many {T} field (p : parser T) : plocal p -> plocal (Reader.many field p).
Proof.
  intros Hp. unfold Reader.many. apply plocal_bind; [apply plocal_le_u32|]. intros n.
  induction (Z.to_nat n) as [|k IH]; cbn [Reader.repeat_parse]; [apply plocal_ret|].
  apply plocal_bind; [done|]. intros t. apply plocal_bind; [done|]. intros. apply plocal_ret.
Qed.

(** The instructions use a prefix of their bytes, up to the end of the actions. *)
Lemma decode_ix_local orig n ix :
  decode_ix orig n = Ok ix ->
  exists used rest, orig = used ++ rest /\ end_of_actions_in_ix ix = length used /\
    exists ix', decode_ix used n = Ok ix' /\ ix_signers ix' = ix_signers ix /\ ix_actions ix' = ix_actions ix.
Proof.
  unfold decode_ix. intros Hd. apply bind_Ok in Hd as ([[ss acts] rest] & Hd & [= <-]).
  match type of Hd with ?p orig = _ => assert (plocal p) as Hp end.
  { repeat (apply plocal_bind; [first [apply plocal_le_u32 | apply plocal_decode_signers | apply plocal_many, plocal_decode_action]|intros]).
    apply plocal_ret. }
  destruct (Hp _ _ _ Hd) as (used & -> & Hu). exists used, rest. split; [done|]. cbn [end_of_actions_in_ix]. split; [rewrite length_app; lia|].
  specialize (Hu []). rewrite app_nil_r in Hu. rewrite Hu. by eexists.
Qed.

(** Likewise the access metadata. *)
Lemma payload_decode_local l p :
  payload_decode l = Ok p ->
  p_bytes p = l /\ exists used, l = used ++ ix_data p /\ forall rest, decode_slice (used ++ rest) = Ok (access_metadata p, rest).
Proof.
  unfold payload_decode. intros Hd. apply bind_Ok in Hd as ([am rest] & Hd & [= <-]). apply lift_Ok in Hd. cbn. split; [done|].
  by apply plocal_decode_slice.
Qed.
End decoders.

Section binding.
Context `{CastText} `{Blake3Keyed} `{K256} `{Hasher}.

(** The signed bytes. *)
Definition sig_preimage (ctx : SignerResolveContext) : bytes :=
  concat [vec_to_list (le_split 4 (Z.of_nat (length (sc_current_rest_preimage ctx)))); sc_current_rest_preimage ctx;
          vec_to_list (le_split 4 (Z.of_nat (length (sc_payload_presig ctx)))); sc_payload_presig ctx].

Lemma prefixed_inj l1 l2 r1 r2 :
  u32 (Z.of_nat (length l1)) -> u32 (Z.of_nat (length l2)) ->
  vec_to_list (le_split 4 (Z.of_nat (length l1))) ++ l1 ++ r1 = vec_to_list (le_split 4 (Z.of_nat (length l2))) ++ l2 ++ r2 ->
  l1 = l2 /\ r1 = r2.
Proof.
  intros H1' H2' Heq. apply app_inj_1 in Heq as [Hlen Heq]; [|by rewrite !length_vec_to_list].
  apply (f_equal le_combine) in Hlen. rewrite !le_combine_split_small in Hlen by done.
  apply app_inj_1; [lia|done].
Qed.

Lemma sig_preimage_inj c1 c2 :
  u32 (Z.of_nat (length (sc_current_rest_preimage c1))) -> u32 (Z.of_nat (length (sc_current_rest_preimage c2))) ->
  u32 (Z.of_nat (length (sc_payload_presig c1))) -> u32 (Z.of_nat (length (sc_payload_presig c2))) ->
  sig_preimage c1 = sig_preimage c2 ->
  sc_current_rest_preimage c1 = sc_current_rest_preimage c2 /\ sc_payload_presig c1 = sc_payload_presig c2.
Proof.
  unfold sig_preimage. cbn [concat]. intros ???? [-> Heq]%prefixed_inj; [|done..]. split; [done|].
  by apply prefixed_inj in Heq as [-> _].
Qed.

(** The part of the payload that is signed determines the accesses, the signers and the actions. *)
Lemma presig_determines l tx ix ctx st auth :
  payload_decode l = Ok (payload tx) -> length (hs_resources st) = length (access_metadata (payload tx)) ->
  prepared tx st ix ctx auth ->
  sc_current_rest_preimage ctx = rest_preimage tx /\
  exists used ix', decode_slice (sc_payload_presig ctx) = Ok (access_metadata (payload tx), used) /\
    decode_ix used (length (access_metadata (payload tx))) = Ok ix' /\
    ix_signers ix' = ix_signers ix /\ ix_actions ix' = ix_actions ix.
Proof.
  intros Hp Hn (Hix & Hctx & _). rewrite Hn in Hix. apply payload_decode_local in Hp as (Hb & pre & Hl & Hdec).
  apply decode_ix_local in Hix as (used & rest & Hd & He & ix' & Hix' & Hs & Ha).
  unfold resolve_context in Hctx. destruct (_ <? _); [done|]. destruct (_ <? _); [done|]. injection Hctx as <-. cbn. split; [done|].
  exists used, ix'. split; [|done]. rewrite <- Hdec. f_equal. rewrite Hb, Hl, Hd, He.
  rewrite app_assoc, !length_app.
  replace (length pre + length used + length rest - (length used + length rest) + length used) with (length (pre ++ used))
    by (rewrite length_app; lia).
  by rewrite take_app_length.
Qed.
End binding.
