(* ===== verification/RtTheorems.v ===== *)
(** * RtTheorems: the guarantees of the runtime processor

    Theorems about whole transactions: the guest never panics, a successful run is a sequence of
    ledger steps, value is conserved, slots change only as their locks allow, a signature commits
    to the actions; and the wire form of locks, the multisig matcher and the witness signer. *)

From S2P Require Import Prelude Codec Types SmtNode AbiCore AbiTx RtLock RtState RtAuth RtActions RtProofs RtLedger RtRun RtValue RtBinding.
Import ResourceExt.

Lemma fresh_context ctx p : fresh (context_resources ctx p).
Proof.
  unfold fresh, context_resources. generalize (access_metadata p). induction (tc_resources ctx) as [|r rs IH]; intros [|am ams]; constructor; [done|apply IH].
Qed.

Lemma run_Err `{CastText} `{Blake3Keyed} `{K256} `{Hasher} `{Blake2b} `{DepositPolicy} tx st e : (run tx st).1 <> Err e.
Proof. unfold run. destruct (_ ≫= _) as [[acts cx]| |]; [|done..]. by destruct (apply_actions acts cx) as [|[]|]. Qed.

(** C17: no transaction can stall the runtime guest. On every input the host encodes, of any version
    and with any instruction bytes, resources and signers, the guest with the example deposit policy
    returns a journal and a host output: it never panics. *)
Theorem runtime_guest_total `{CastText} `{Blake3Keyed} `{K256} `{Hasher} `{Blake2b} `{SeqCommit} ctx p :
  context_ok ctx p -> (tc_version ctx = V1 -> tc_id ctx = tx_id_v1 (tc_payload ctx) (tc_rest_preimage ctx)) ->
  exists journal host, process_transaction (runtime_handler (H4 := ExampleDepositPolicy)) (inputs_encode ctx) = Ok (journal, host).
Proof.
  intros Hok Hid. unfold process_transaction. rewrite (inputs_decode_encode ctx p Hok).
  cbn [mbind outcome_bind i_version i_execution i_tx_id i_merge_idx expect].
  destruct (tc_version ctx =? V1)%Z eqn:Hv; [|by eexists _, _]. apply Z.eqb_eq in Hv.
  cbn [expect mbind outcome_bind ei_tx ei_context_hash ei_resources]. rewrite bool_decide_true.
  2:{ rewrite (Hid Hv). unfold tx_id. cbn. by rewrite (payload_decode_bytes _ _ (ck_payload _ _ Hok)). }
  cbn [assert mbind outcome_bind]. unfold runtime_handler.
  pose proof (run_safe (H4 := ExampleDepositPolicy) (context_tx ctx p) (initial_state (context_resources ctx p))
    (fun _ => ltac:(done)) (fresh_context ctx p) (payload_decode_ok _ _ (ck_payload _ _ Hok))) as Hs.
  pose proof (fun e => run_Err (H4 := ExampleDepositPolicy) (context_tx ctx p) (initial_state (context_resources ctx p)) e) as He.
  unfold initial_state in Hs, He. destruct (run _ _) as [[res|e|] st]; cbn in Hs, He |- *; [by eexists _, _|by destruct (He e)|done].
Qed.

(** C11: a run of the runtime is a run of the ledger. A transaction succeeds exactly if its
    instructions decode, its signers resolve and its actions apply one after the other as steps of
    the ledger of slots, exits and consumed outputs; the state it leaves is the ledger's. *)
Theorem run_refines_ledger `{CastText} `{Blake3Keyed} `{K256} `{Hasher} `{Blake2b} `{DepositPolicy} tx st :
  fresh (hs_resources st) ->
  (forall st', run tx st = (Ok (inr tt), st') ->
     exists ix ctx auth consumed, prepared tx st ix ctx auth /\
       book_steps (rest_preimage tx) auth (action_body <$> ix_actions ix) (state_book st []) (state_book st' consumed)) /\
  (forall ix ctx auth bk', prepared tx st ix ctx auth ->
     book_steps (rest_preimage tx) auth (action_body <$> ix_actions ix) (state_book st []) bk' ->
     exists st' consumed, run tx st = (Ok (inr tt), st') /\ bk' = state_book st' consumed).
Proof.
  intros Hf. split.
  - intros st' Hr. destruct (run_sound tx st st' Hf Hr) as (ix & ctx & auth & consumed & Hp & _ & _ & Hs). by exists ix, ctx, auth, consumed.
  - intros ix ctx auth bk'. by apply run_complete.
Qed.

(** C9: the runtime neither creates nor destroys value. When a transaction succeeds, the balances
    after it plus the withdrawals it appends to the exits equal the balances before it plus the
    values of the deposits it credits; the deposits are pairwise different outputs of the
    transaction, each paying the delegate script of the config's covenant, whose hash the
    transaction publishes. *)
Theorem run_conserves `{CastText} `{Blake3Keyed} `{K256} `{Hasher} `{Blake2b} tx st st' :
  fresh (hs_resources st) -> run (H4 := ExampleDepositPolicy) tx st = (Ok (inr tt), st') ->
  exists withdrawals deposits,
    hs_exits st' = hs_exits st ++ exits_encode withdrawals /\ Forall (fun e => u64 e.2) withdrawals /\
    NoDup deposits.*1 /\
    Forall (fun d => exists m c out,
      book_config (state_book st' []) = Some (m, c) /\ hs_deposit st' = delegate_entry_spk_hash c /\
      parse_output_at_index_v1 (rest_preimage tx) d.1 = Ok out /\ out_value out = d.2 /\ out_spk_version out = 0%Z /\
      out_spk out = to_script_bytes (ScriptHash (delegate_entry_spk_hash c))) deposits /\
    (total (slots_of (hs_resources st')) + sum_values withdrawals = total (slots_of (hs_resources st)) + sum_values deposits)%Z.
Proof.
  intros Hf Hr. destruct (run_sound (H4 := ExampleDepositPolicy) tx st st' Hf Hr) as (ix & ctx & auth & consumed & _ & _ & Ha & Hs).
  destruct (steps_flow (H1 := ExampleDepositPolicy) _ _ (length (hs_resources st)) _ _ _ Ha Hs) as (es & ds & F).
  exists es, ds. split; [apply F|]. split; [apply F|]. split; [pose proof (fl_consumed _ _ _ _ _ F) as Hc; cbn in Hc; rewrite <- Hc; apply F, NoDup_nil_2|].
  split; [|apply F]. eapply Forall_impl; [apply F|]. intros d (m & c & Hc & (out & subj & Hp & Hv & Hver & <- & Hspk) & Hd). by exists m, (ds_covenant_id subj), out.
Qed.

(** C10: nothing changes without its lock. When a transaction succeeds, a resource of a foreign kind
    is as it was; the config keeps its covenant and changes only with its lock satisfied; a user
    keeps its initial lock hash and without its lock satisfied keeps its lock and loses no balance;
    and an empty resource stays empty or becomes a user at the id derived from its initial lock hash
    or, with the genesis key's authorisation, the config. A lock is satisfied by signatures over
    the transaction or inputs that spend outputs to its keys, at least as many different keys as
    a multisig's threshold. *)
Theorem run_authorised `{CastText} `{Blake3Keyed} `{K256} `{Hasher} `{Blake2b} `{DepositPolicy} tx st st' :
  fresh (hs_resources st) -> run tx st = (Ok (inr tt), st') ->
  exists ix ctx auth, prepared tx st ix ctx auth /\
    Forall2 (fun r r' => Resource.id r' = Resource.id r /\ evolves (satisfied ctx) (Resource.id r) (rslot r) (rslot r'))
      (hs_resources st) (hs_resources st').
Proof.
  intros Hf Hr. destruct (run_sound tx st st' Hf Hr) as (ix & ctx & auth & consumed & Hp & Hauth & Ha & Hs).
  exists ix, ctx, auth. split; [done|]. apply (steps_evolve _ _ _ _ _ _ Ha) in Hs. apply Forall2_fmap in Hs.
  eapply Forall2_impl; [exact Hs|]. intros r r' [Hid He]. split; [done|]. cbn in He. revert He.
  assert (forall l, lock_ok l -> opened_by auth l -> satisfied ctx l) as Hsat by (intros l Hl [i Hi]; by eapply unlock_satisfied).
  destruct (rslot r) as [|b h l|m c l|x] eqn:Es; cbn; [| | |done].
  - intros [?|[?|(m & c & l & ? & ? & Ho)]]; [by left|right; by left|]. right. right. exists m, c, l. repeat (split; [done|]). by apply (Hsat genesis_lock).
  - apply rslot_ok in Es as [_ Hl]. intros [?|[Ho ?]]; [by left|right; auto].
  - apply rslot_ok in Es as [_ Hl]. intros [?|[Ho ?]]; [by left|right; auto].
Qed.

(** C22: a signature commits to what it authorises. If the messages of two transactions are equal,
    then, unless the hash collides on the two, the transactions have the same inputs and outputs,
    declare the same resources with the same access and carry the same signers and actions: a
    signature cannot be moved to another transaction or to other actions. *)
Theorem sig_message_binds `{CastText} `{Blake3Keyed} `{K256} `{Hasher} l1 l2 tx1 tx2 st1 st2 ix1 ix2 ctx1 ctx2 auth1 auth2 :
  payload_decode l1 = Ok (payload tx1) -> payload_decode l2 = Ok (payload tx2) ->
  length (hs_resources st1) = length (access_metadata (payload tx1)) ->
  length (hs_resources st2) = length (access_metadata (payload tx2)) ->
  prepared tx1 st1 ix1 ctx1 auth1 -> prepared tx2 st2 ix2 ctx2 auth2 ->
  u32 (Z.of_nat (length (rest_preimage tx1))) -> u32 (Z.of_nat (length (rest_preimage tx2))) ->
  u32 (Z.of_nat (length (sc_payload_presig ctx1))) -> u32 (Z.of_nat (length (sc_payload_presig ctx2))) ->
  (forall domain parts, hash_parts_with_domain domain parts = hash_with_domain domain (concat parts)) ->
  (hash_with_domain [Domain_as_u8 SigMessage] (sig_preimage ctx1) = hash_with_domain [Domain_as_u8 SigMessage] (sig_preimage ctx2) ->
   sig_preimage ctx1 = sig_preimage ctx2) ->
  sig_msg ctx1 = sig_msg ctx2 ->
  rest_preimage tx1 = rest_preimage tx2 /\ access_metadata (payload tx1) = access_metadata (payload tx2) /\
  ix_signers ix1 = ix_signers ix2 /\ ix_actions ix1 = ix_actions ix2.
Proof.
  intros Hl1 Hl2 Hn1 Hn2 Hp1 Hp2 ???? Hcat Hcoll Hmsg. unfold sig_msg, compute_sig_message in Hmsg. rewrite !Hcat in Hmsg.
  apply Hcoll in Hmsg. destruct (presig_determines _ _ _ _ _ _ Hl1 Hn1 Hp1) as (Hr1 & u1 & ix1' & Hd1 & Hx1 & <- & <-).
  destruct (presig_determines _ _ _ _ _ _ Hl2 Hn2 Hp2) as (Hr2 & u2 & ix2' & Hd2 & Hx2 & <- & <-).
  apply sig_preimage_inj in Hmsg as [Hr Hps]; [|congruence..]. rewrite Hps in Hd1. rewrite Hd1 in Hd2. injection Hd2 as Ham ->.
  rewrite Ham in Hx1. rewrite Hx1 in Hx2. injection Hx2 as ->. split; [congruence|done].
Qed.

(** The matcher of multisig locks counts what it should. A well-formed lock opens exactly if the
    transaction has one contribution for the resource, strictly ascending, with at least the
    threshold of keys in common with the lock; the linear merge of the two lists is the
    intersection. *)
Theorem multisig_unlock_exact (m : MultisigLockView.t) ks i (us : list (byte * MultisigUnlocker)) :
  multisig_ok m ks -> bucket_sorted us ->
  try_unlock m i us = Ok true <->
  exists u, filter (fun e => e.1 = i) us = [(i, u)] /\ strictly_ascending (mu_pubkeys u) = true /\
    usize_of (MultisigLockView.threshold m) <= length (filter (fun k => k ∈ mu_pubkeys u) ks).
Proof.
  intros Hm Hs. rewrite (multisig_unlock m ks i us Hm Hs). unfold contributed, common. naive_solver.
Qed.

(** Locks have one wire form. The streaming decoder returns a lock exactly from its encoding and
    leaves the bytes after it; the decoder of stored locks returns it exactly from its tag and body,
    and both only return multisig locks with 1 to 16 strictly ascending keys and a threshold
    among them. *)
Theorem lock_wire_exact l :
  (forall buf rest, decode_lock buf = Ok (l, rest) <-> lock_ok l /\ buf = encode_lock l ++ rest) /\
  (forall tag body, decode_lock_body tag body = Ok l <-> lock_ok l /\ encode_lock l = tag :: body).
Proof.
  split; [intros; apply decode_lock_Ok|]. intros tag body. rewrite decode_lock_body_Ok.
  assert (encode_lock l = lock_tag l :: lock_body l) as -> by (by destruct l). naive_solver.
Qed.

(** The witness signer does not look at script versions. A spent output whose script is that of a
    key counts as the key's authorisation whatever the version of the script, although the L1
    gives scripts their meaning per version and the deposit of the same runtime checks it. *)
Theorem witness_ignores_script_version `{CastText} `{Blake3Keyed} `{K256} `{Hasher} current input_idx prev digest o out k :
  parse_input_outpoint_at current (byte.unsigned input_idx) = Ok (tx_id_v1_from_digest digest prev, o) ->
  parse_output_at_index_v1 prev o = Ok out -> out_spk out = to_script_bytes (PubKey k) ->
  recover_prev_tx_v1_p2pk_pubkey current input_idx prev digest = Ok (Some k).
Proof.
  intros Hi Ho Hk. unfold recover_prev_tx_v1_p2pk_pubkey. rewrite Hi. cbn [mbind outcome_bind]. rewrite bool_decide_true by done.
  cbn [negb]. rewrite Ho. cbn [mbind outcome_bind]. f_equal. by apply extract_p2pk_exact.
Qed.

(** ** A transaction that does everything

    A config, a user with a Schnorr lock and an empty resource. The transaction deposits an output
    for a new user, transfers to it and withdraws. *)

#[local] Existing Instance toy_hasher.
#[local] Existing Instance toy_keyed.
Definition toy_cast : CastText := [].
Definition toy_blake2b : Blake2b := hash.
(** A signature is valid if it starts with the key. *)
Definition toy_k256 : K256 :=
  {| VerifyingKey := array 32; vk_from_bytes := Some; Signature := array 64; sig_try_from := Some;
     verify_prehash k _ sig := bool_decide (take 32 (vec_to_list sig) = vec_to_list k) |}.
#[local] Existing Instances toy_cast toy_blake2b toy_k256.

Definition demo_key : array 32 := vreplicate 32 Byte.x07.
Definition demo_lock : LockEnum := Schnorr {| SchnorrLockView.pubkey := demo_key |}.
Definition demo_covenant : array 32 := vreplicate 32 Byte.x0c.
Definition open_lock : LockEnum := Unlocked tt.

Definition demo_rest_preimage : bytes := Eval vm_compute in
  vec_to_list (le_split 2 1) ++ vec_to_list (le_split 8 0) ++ vec_to_list (le_split 8 1) ++
  vec_to_list (le_split 8 5000) ++ vec_to_list (le_split 2 0) ++ vec_to_list (le_split 8 35) ++
  to_script_bytes (ScriptHash (delegate_entry_spk_hash demo_covenant)) ++ [Byte.x00].

Definition rt_accesses : list AccessMetadata := Eval vm_compute in
  [AccessMetadata_write config_resource_id; AccessMetadata_write (derive_user_resource (id_hash open_lock));
   AccessMetadata_write (vreplicate 32 Byte.x02)].

(** The instructions: one signer, whose signature is at the given offset, and three actions. *)
Definition rt_instructions (sig_offset : Z) : bytes :=
  vec_to_list (le_split 4 1) ++ [Byte.x02; Byte.x01] ++ vec_to_list (le_split 4 sig_offset) ++
  vec_to_list (le_split 4 3) ++
  [Byte.x05; Byte.x01] ++ vec_to_list (le_split 4 0) ++ encode_lock open_lock ++
  [Byte.x03; Byte.x02; Byte.x01] ++ vec_to_list (le_split 8 100) ++ [Byte.x00] ++
  [Byte.x06; Byte.x02] ++ vec_to_list (le_split 8 500) ++ spk_encode (PubKey demo_key).

Definition rt_sig : bytes := vec_to_list demo_key ++ replicate 32 Byte.x00.
(** The payload with the given bytes after the actions. *)
Definition rt_payload_bytes (tail : bytes) : bytes :=
  Writer.write_slice rt_accesses ++ rt_instructions (Z.of_nat (length (Writer.write_slice rt_accesses ++ rt_instructions 0))) ++ tail.
Definition rt_payload (tail : bytes) : Payload :=
  {| p_bytes := rt_payload_bytes tail; access_metadata := rt_accesses;
     ix_data := rt_instructions (Z.of_nat (length (Writer.write_slice rt_accesses ++ rt_instructions 0))) ++ tail |}.

Definition rt_data : list (Z * bytes) := Eval vm_compute in
  [(0%Z, slot_bytes (Config 400 demo_covenant open_lock)); (1%Z, []);
   (2%Z, slot_bytes (User 2000 (id_hash demo_lock) demo_lock))].

Definition rt_context : TransactionContext := Eval vm_compute in
  {| tc_version := V1; tc_id := tx_id_v1 (rt_payload_bytes rt_sig) demo_rest_preimage; tc_merge_idx := 0;
     tc_payload := rt_payload_bytes rt_sig; tc_rest_preimage := demo_rest_preimage;
     tc_prev_timestamp := 5; tc_daa_score := 6; tc_blue_score := 7; tc_resources := rt_data |}.

Definition rt_tx : Transaction := Eval vm_compute in {| payload := rt_payload rt_sig; rest_preimage := demo_rest_preimage |}.
Definition rt_state : HandlerState := Eval vm_compute in initial_state (zip_with fresh_resource rt_accesses rt_data).
Definition rt_result : AResult (AbiError.t + unit) * HandlerState := Eval vm_compute in
  run (H4 := ExampleDepositPolicy) rt_tx rt_state.

Lemma rt_context_ok : context_ok rt_context (rt_payload rt_sig).
Proof.
  constructor; [vm_compute; split; congruence..|vm_compute; reflexivity|vm_compute; reflexivity|reflexivity|].
  repeat constructor; vm_compute; congruence.
Qed.

Lemma rt_fresh : fresh (hs_resources rt_state).
Proof. repeat constructor. Qed.

Lemma runtime_guest_total_witness :
  exists journal host, process_transaction (runtime_handler (H4 := ExampleDepositPolicy)) (inputs_encode (H := toy_seq) rt_context) = Ok (journal, host).
Proof. apply (runtime_guest_total (H4 := toy_seq) rt_context (rt_payload rt_sig)); [apply rt_context_ok|]. intros _. vm_compute. reflexivity. Defined.

Lemma run_refines_ledger_witness :
  exists ix ctx auth consumed, prepared rt_tx rt_state ix ctx auth /\
    book_steps (H1 := ExampleDepositPolicy) demo_rest_preimage auth (action_body <$> ix_actions ix) (state_book rt_state []) (state_book rt_result.2 consumed).
Proof.
  apply (run_refines_ledger (H4 := ExampleDepositPolicy) rt_tx rt_state); [apply rt_fresh|]. vm_compute. reflexivity.
Defined.

Lemma run_conserves_witness :
  exists withdrawals deposits : list (_ * Z), hs_exits rt_result.2 = exits_encode withdrawals /\ NoDup (A := Z) deposits.*1 /\
    (6500 + sum_values withdrawals = 2000 + sum_values deposits)%Z.
Proof.
  destruct (run_conserves rt_tx rt_state rt_result.2) as (ws & ds & Hx & _ & Hd & _ & Ht); [apply rt_fresh|vm_compute; reflexivity|].
  exists ws, ds. split; [exact Hx|]. split; [exact Hd|exact Ht].
Defined.

Lemma run_authorised_witness :
  exists ctx, evolves (satisfied ctx) (vreplicate 32 Byte.x02) (User 2000 (id_hash demo_lock) demo_lock) (User 1400 (id_hash demo_lock) demo_lock).
Proof.
  destruct (run_authorised (H4 := ExampleDepositPolicy) rt_tx rt_state rt_result.2) as (ix & ctx & auth & _ & Hf); [apply rt_fresh|vm_compute; reflexivity|].
  exists ctx. apply Forall2_cons in Hf as [_ Hf]. apply Forall2_cons in Hf as [_ Hf]. apply Forall2_cons in Hf as [[_ He] _].
  exact He.
Defined.

(** The same transaction with another signature by the same key. *)
Definition rt_tx' : Transaction := Eval vm_compute in
  {| payload := rt_payload (vec_to_list demo_key ++ replicate 32 Byte.x01); rest_preimage := demo_rest_preimage |}.
Definition rt_ix (tx : Transaction) : DecodedIx :=
  match decode_ix (ix_data (payload tx)) 3 with Ok ix => ix | _ => {| ix_signers := []; ix_actions := []; end_of_actions_in_ix := 0 |} end.
Definition rt_ctx (tx : Transaction) : SignerResolveContext :=
  match resolve_context tx (rt_ix tx) (hs_resources rt_state) with
  | Ok c => c
  | _ => {| sc_payload_bytes := []; sc_current_rest_preimage := []; sc_resources := []; sc_payload_presig := [] |}
  end.
Definition rt_auth : AuthContext := {| auth_schnorr := [(Byte.x02, {| su_pubkey := demo_key |})]; auth_multisig := [] |}.

Lemma rt_prepared : prepared rt_tx rt_state (rt_ix rt_tx) (rt_ctx rt_tx) rt_auth /\ prepared rt_tx' rt_state (rt_ix rt_tx') (rt_ctx rt_tx') rt_auth.
Proof. split; (split; [vm_compute; reflexivity|split; vm_compute; reflexivity]). Qed.

Lemma sig_message_binds_witness : payload rt_tx <> payload rt_tx' /\ ix_actions (rt_ix rt_tx) = ix_actions (rt_ix rt_tx').
Proof.
  split; [discriminate|]. destruct rt_prepared as [P1 P2].
  apply (sig_message_binds (p_bytes (payload rt_tx)) (p_bytes (payload rt_tx')) rt_tx rt_tx' rt_state rt_state _ _ (rt_ctx rt_tx) (rt_ctx rt_tx') rt_auth rt_auth);
    [vm_compute; reflexivity|vm_compute; reflexivity|reflexivity|reflexivity|exact P1|exact P2|..].
  1-4: vm_compute; split; congruence.
  - intros d ps. cbn. by rewrite app_nil_r.
  - intros _. vm_compute. reflexivity.
  - vm_compute. reflexivity.
Defined.

Definition demo_multisig : MultisigLockView.t :=
  {| MultisigLockView.threshold := Byte.x02;
     MultisigLockView.pubkeys := concat_keys [vreplicate 32 Byte.x01; vreplicate 32 Byte.x02; vreplicate 32 Byte.x03] |}.

Lemma multisig_unlock_exact_witness :
  try_unlock demo_multisig Byte.x00 [(Byte.x00, {| mu_pubkeys := [vreplicate 32 Byte.x01; vreplicate 32 Byte.x03] |})] = Ok true.
Proof.
  apply (multisig_unlock_exact demo_multisig [vreplicate 32 Byte.x01; vreplicate 32 Byte.x02; vreplicate 32 Byte.x03]).
  - split; [reflexivity|]. split; [vm_compute; lia|]. split; [vm_compute; lia|vm_compute; reflexivity].
  - repeat constructor.
  - eexists. split; [vm_compute; reflexivity|]. split; [vm_compute; reflexivity|vm_compute; lia].
Defined.

(** A transaction with an output of script version 1 to a key, and one that spends it. *)
Definition prev_rest : bytes := Eval vm_compute in
  vec_to_list (le_split 2 1) ++ vec_to_list (le_split 8 0) ++ vec_to_list (le_split 8 1) ++
  vec_to_list (le_split 8 1) ++ vec_to_list (le_split 2 1) ++ vec_to_list (le_split 8 34) ++ to_script_bytes (PubKey demo_key) ++ [Byte.x00].
Definition spending_rest : bytes := Eval vm_compute in
  vec_to_list (le_split 2 1) ++ vec_to_list (le_split 8 1) ++ vec_to_list (tx_id_v1_from_digest demo_key prev_rest) ++
  vec_to_list (le_split 4 0) ++ vec_to_list (le_split 8 0) ++ vec_to_list (le_split 8 0).

Lemma witness_ignores_script_version_witness :
  out_spk_version <$> parse_output_at_index_v1 prev_rest 0 = Ok 1%Z /\
  recover_prev_tx_v1_p2pk_pubkey spending_rest Byte.x00 prev_rest demo_key = Ok (Some demo_key).
Proof.
  split; [vm_compute; reflexivity|].
  apply (witness_ignores_script_version spending_rest Byte.x00 prev_rest demo_key 0%Z
    {| out_value := 1; out_spk_version := 1; out_spk := to_script_bytes (PubKey demo_key) |} demo_key); vm_compute; reflexivity.
Defined.
