(* ===== verification/ScriptEngine.v ===== *)
(** * ScriptEngine: what the L1 script engine promises

    The redeem scripts of [zk/backend/risc0] run on the L1's script engine, which is not part of
    the sources. It is a parameter here: a class for its verdict on a script and a class of laws,
    one for each opcode the scripts use, with the stack effects that the comments of
    [permission_script.rs] and the tests that run the scripts rely on. Structured programs give the
    laws a compositional form. The last part is an interpreter that satisfies the laws. *)

From S2P Require Import Prelude Codec Types RtState.

(** ** What a script sees of its transaction *)

(** Scripts of outputs with the two bytes of their version in front, as the opcodes push them. *)
Record TxIn := { in_amount : Z; in_spk : bytes; in_covenant : option (array 32); in_sig : bytes }.
Record TxOut := { to_amount : Z; to_spk : bytes; to_covenant : option (array 32) }.
Record TxView := { tv_index : nat; tv_inputs : list TxIn; tv_outputs : list TxOut }.

(** The outputs bound to a covenant, by index. *)
Definition covenant_outputs (tv : TxView) (id : bytes) : list nat :=
  filter (fun i => (to_covenant <$> tv_outputs tv !! i) ≫= (fun c => vec_to_list <$> c) = Some id) (seq 0 (length (tv_outputs tv))).

(** ** Numbers *)

(** The magnitude in little endian without leading zeros. *)
Fixpoint magnitude (fuel : nat) (z : Z) : bytes :=
  match fuel with
  | O => []
  | S fuel => if (z <=? 0)%Z then [] else byte.of_Z (z `mod` 256) :: magnitude fuel (z / 256)
  end.

(** The sign is the top bit of the last byte, in a byte of its own when that bit is taken. *)
Definition with_sign (negative : bool) (l : bytes) : bytes :=
  match last l with
  | None => l
  | Some b =>
      if (128 <=? byte.unsigned b)%Z then l ++ [if negative then Byte.x80 else Byte.x00]
      else if negative then removelast l ++ [byte.of_Z (byte.unsigned b + 128)] else l
  end.

Definition num_bytes (z : Z) : bytes := with_sign (z <? 0)%Z (magnitude 8 (Z.abs z)).

(** Numbers of up to eight bytes, minimal or not. *)
Definition script_num (l : bytes) : option Z :=
  if 8 <? length l then None
  else match last l with
  | None => Some 0%Z
  | Some b =>
      let v := le_combine l in
      let top := (2 ^ (8 * Z.of_nat (length l) - 1))%Z in
      Some (if (128 <=? byte.unsigned b)%Z then - (v - top) else v)%Z
  end.

Definition truthy (l : bytes) : bool := match script_num l with Some z => negb (z =? 0)%Z | None => true end.
Definition bool_bytes (b : bool) : bytes := if b then [Byte.x01] else [].

(** Results of arithmetic are signed 64-bit numbers. *)
Definition num_push (z : Z) : option bytes :=
  if (Z.abs z <? 2 ^ 63)%Z then Some (num_bytes z) else None.

(** Fixed-width form of a number that fits. *)
Definition num2bin (z : Z) (size : Z) : option bytes :=
  if (size <? 0)%Z || (8 <? size)%Z then None
  else if (Z.abs z <? 2 ^ (8 * size - 1))%Z
  then Some (vec_to_list (le_split (Z.to_nat size) (Z.abs z + if (z <? 0)%Z then 2 ^ (8 * size - 1) else 0)))
  else None.

(** Elements are capped. *)
Definition MAX_ELEMENT : Z := 1000000.
Definition cat (a b : bytes) : option bytes :=
  if (Z.of_nat (length (a ++ b)) <=? MAX_ELEMENT)%Z then Some (a ++ b) else None.

(** ** The opcodes *)

(** The main stack and the alternative stack, top first. *)
Notation vm_state := (list bytes * list bytes)%type.

Definition idx_of (l : bytes) : option nat := z ← script_num l; if (z <? 0)%Z then None else Some (Z.to_nat z).

(** Slice of a signature script. *)
Definition substr (l : bytes) (start stop : nat) : option bytes :=
  if (start <=? stop) && (stop <=? length l) then Some (take (stop - start) (drop start l)) else None.

Section opcodes.
Context (sha256 : bytes -> array 32) `{Blake2b} (tv : TxView).

(** The number [n] of [OP_n]. *)
Definition small_int (op : byte) : option bytes :=
  let n := (byte.unsigned op - 80)%Z in if (1 <=? n)%Z && (n <=? 16)%Z then Some [byte.of_Z n] else None.

(** The other opcodes. *)
Definition core_effect (op : byte) (s : vm_state) : option vm_state :=
  match op, s with
  (* OP_FALSE, OP_1NEGATE *)
  | Byte.x00, (st, alt) => Some ([] :: st, alt)
  | Byte.x4f, (st, alt) => Some ([Byte.x81] :: st, alt)
  (* OP_VERIFY *)
  | Byte.x69, (x :: st, alt) => if truthy x then Some (st, alt) else None
  (* OP_TOALTSTACK, OP_FROMALTSTACK *)
  | Byte.x6b, (x :: st, alt) => Some (st, x :: alt)
  | Byte.x6c, (st, x :: alt) => Some (x :: st, alt)
  (* OP_DROP, OP_DUP, OP_NIP, OP_OVER *)
  | Byte.x75, (_ :: st, alt) => Some (st, alt)
  | Byte.x76, (x :: st, alt) => Some (x :: x :: st, alt)
  | Byte.x77, (x :: _ :: st, alt) => Some (x :: st, alt)
  | Byte.x78, (x :: y :: st, alt) => Some (y :: x :: y :: st, alt)
  (* OP_PICK, OP_ROLL *)
  | Byte.x79, (n :: st, alt) => i ← idx_of n; x ← st !! i; Some (x :: st, alt)
  | Byte.x7a, (n :: st, alt) => i ← idx_of n; x ← st !! i; Some (x :: delete i st, alt)
  (* OP_ROT, OP_SWAP, OP_CAT *)
  | Byte.x7b, (x :: y :: z :: st, alt) => Some (z :: x :: y :: st, alt)
  | Byte.x7c, (x :: y :: st, alt) => Some (y :: x :: st, alt)
  | Byte.x7e, (x :: y :: st, alt) => c ← cat y x; Some (c :: st, alt)
  (* OP_EQUAL, OP_EQUALVERIFY *)
  | Byte.x87, (x :: y :: st, alt) => Some (bool_bytes (bool_decide (y = x)) :: st, alt)
  | Byte.x88, (x :: y :: st, alt) => if bool_decide (y = x) then Some (st, alt) else None
  (* OP_1SUB, OP_ADD, OP_SUB *)
  | Byte.x8c, (x :: st, alt) => a ← script_num x; r ← num_push (a - 1); Some (r :: st, alt)
  | Byte.x93, (x :: y :: st, alt) => a ← script_num y; b ← script_num x; r ← num_push (a + b); Some (r :: st, alt)
  | Byte.x94, (x :: y :: st, alt) => a ← script_num y; b ← script_num x; r ← num_push (a - b); Some (r :: st, alt)
  (* OP_NUMEQUALVERIFY, OP_GREATERTHAN, OP_GREATERTHANOREQUAL *)
  | Byte.x9d, (x :: y :: st, alt) => a ← script_num y; b ← script_num x; if (a =? b)%Z then Some (st, alt) else None
  | Byte.xa0, (x :: y :: st, alt) => a ← script_num y; b ← script_num x; Some (bool_bytes (b <? a)%Z :: st, alt)
  | Byte.xa2, (x :: y :: st, alt) => a ← script_num y; b ← script_num x; Some (bool_bytes (b <=? a)%Z :: st, alt)
  (* OP_SHA256, OP_BLAKE2B *)
  | Byte.xa8, (x :: st, alt) => Some (vec_to_list (sha256 x) :: st, alt)
  | Byte.xaa, (x :: st, alt) => Some (vec_to_list (blake2b x) :: st, alt)
  (* OP_TXINPUTCOUNT, OP_TXOUTPUTCOUNT, OP_TXINPUTINDEX *)
  | Byte.xb3, (st, alt) => Some (num_bytes (Z.of_nat (length (tv_inputs tv))) :: st, alt)
  | Byte.xb4, (st, alt) => Some (num_bytes (Z.of_nat (length (tv_outputs tv))) :: st, alt)
  | Byte.xb9, (st, alt) => Some (num_bytes (Z.of_nat (tv_index tv)) :: st, alt)
  (* OP_TXINPUTSCRIPTSIGSUBSTR, OP_TXINPUTAMOUNT, OP_TXINPUTSPK *)
  | Byte.xbc, (stop :: start :: n :: st, alt) =>
      i ← idx_of n; a ← idx_of start; b ← idx_of stop; input ← tv_inputs tv !! i;
      x ← substr (in_sig input) a b; Some (x :: st, alt)
  | Byte.xbe, (n :: st, alt) => i ← idx_of n; input ← tv_inputs tv !! i; x ← num_push (in_amount input); Some (x :: st, alt)
  | Byte.xbf, (n :: st, alt) => i ← idx_of n; input ← tv_inputs tv !! i; Some (in_spk input :: st, alt)
  (* OP_TXOUTPUTAMOUNT, OP_TXOUTPUTSPK *)
  | Byte.xc2, (n :: st, alt) => i ← idx_of n; out ← tv_outputs tv !! i; x ← num_push (to_amount out); Some (x :: st, alt)
  | Byte.xc3, (n :: st, alt) => i ← idx_of n; out ← tv_outputs tv !! i; Some (to_spk out :: st, alt)
  (* OP_TXINPUTSCRIPTSIGLEN *)
  | Byte.xc9, (n :: st, alt) =>
      i ← idx_of n; input ← tv_inputs tv !! i; Some (num_bytes (Z.of_nat (length (in_sig input))) :: st, alt)
  (* OP_NUM2BIN *)
  | Byte.xcd, (size :: x :: st, alt) => n ← script_num size; z ← script_num x; r ← num2bin z n; Some (r :: st, alt)
  (* OP_INPUTCOVENANTID, OP_COVOUTCOUNT, OP_COVOUTPUTIDX *)
  | Byte.xcf, (n :: st, alt) => i ← idx_of n; input ← tv_inputs tv !! i; c ← in_covenant input; Some (vec_to_list c :: st, alt)
  | Byte.xd2, (id :: st, alt) => Some (num_bytes (Z.of_nat (length (covenant_outputs tv id))) :: st, alt)
  | Byte.xd3, (k :: id :: st, alt) =>
      j ← idx_of k; o ← covenant_outputs tv id !! j; Some (num_bytes (Z.of_nat o) :: st, alt)
  | _, _ => None
  end.

Definition op_effect (op : byte) (s : vm_state) : option vm_state :=
  match small_int op with Some d => Some (d :: s.1, s.2) | None => core_effect op s end.

(** The opcodes described. *)
Definition known_op (op : byte) : bool :=
  match small_int op with
  | Some _ => true
  | None =>
      existsb (fun b => bool_decide (op = b))
        [Byte.x00; Byte.x4f; Byte.x69; Byte.x6b; Byte.x6c; Byte.x75; Byte.x76; Byte.x77; Byte.x78; Byte.x79; Byte.x7a; Byte.x7b;
         Byte.x7c; Byte.x7e; Byte.x87; Byte.x88; Byte.x8c; Byte.x93; Byte.x94; Byte.x9d; Byte.xa0; Byte.xa2; Byte.xa8; Byte.xaa;
         Byte.xb3; Byte.xb4; Byte.xb9; Byte.xbc; Byte.xbe; Byte.xbf; Byte.xc2; Byte.xc3; Byte.xc9; Byte.xcd; Byte.xcf; Byte.xd2;
         Byte.xd3]
  end.
End opcodes.

(** The condition of [OP_IF] is a boolean. *)
Definition if_cond (l : bytes) : option bool :=
  match l with [] => Some false | [Byte.x01] => Some true | _ => None end.

(** ** Structured programs *)

Inductive prog :=
| Done
| Data (d : bytes) (k : prog)
| Op (o : byte) (k : prog)
| If (a : prog) (k : prog)
| IfElse (a b : prog) (k : prog).

Definition OP_IF : byte := Byte.x63.
Definition OP_ELSE : byte := Byte.x67.
Definition OP_ENDIF : byte := Byte.x68.

(** The script of a program. *)
Fixpoint assemble (p : prog) : bytes :=
  match p with
  | Done => []
  | Data d k => byte.of_Z (Z.of_nat (length d)) :: d ++ assemble k
  | Op o k => o :: assemble k
  | If a k => OP_IF :: assemble a ++ OP_ENDIF :: assemble k
  | IfElse a b k => OP_IF :: assemble a ++ OP_ELSE :: assemble b ++ OP_ENDIF :: assemble k
  end.

Fixpoint papp (p q : prog) : prog :=
  match p with
  | Done => q
  | Data d k => Data d (papp k q)
  | Op o k => Op o (papp k q)
  | If a k => If a (papp k q)
  | IfElse a b k => IfElse a b (papp k q)
  end.

(** Programs over the described opcodes, with data of 1 to 75 bytes. *)
Fixpoint wf_prog (p : prog) : bool :=
  match p with
  | Done => true
  | Data d k => (1 <=? length d) && (length d <=? 75) && wf_prog k
  | Op o k => known_op o && wf_prog k
  | If a k => wf_prog a && wf_prog k
  | IfElse a b k => wf_prog a && wf_prog b && wf_prog k
  end.

Lemma assemble_papp p q : assemble (papp p q) = assemble p ++ assemble q.
Proof. induction p; cbn; [done|..]; rewrite ?IHp, ?IHp2, ?IHp3, <- ?app_assoc; cbn; rewrite <- ?app_assoc; cbn; by rewrite <- ?app_assoc. Qed.

Lemma wf_papp p q : wf_prog (papp p q) = wf_prog p && wf_prog q.
Proof. induction p; cbn; [done|..]; rewrite ?IHp, ?IHp2, ?IHp3, <- ?andb_assoc; done. Qed.

(** ** The engine *)

(** The verdict on the rest of a script from a state. *)
Class ScriptEngine := script_run : TxView -> bytes -> vm_state -> bool.

(** A script ends well with one true element. *)
Definition final (s : vm_state) : bool := match s.1 with [x] => truthy x | _ => false end.

Section engine.
Context (sha256 : bytes -> array 32) `{Blake2b}.

Class ScriptEngineOk `{ScriptEngine} : Prop := {
  run_end tv s : script_run tv [] s = final s;
  run_data tv d rest st alt : 1 <= length d <= 75 ->
    script_run tv (byte.of_Z (Z.of_nat (length d)) :: d ++ rest) (st, alt) = script_run tv rest (d :: st, alt);
  run_op tv op rest s : known_op op = true ->
    script_run tv (op :: rest) s = match op_effect sha256 tv op s with Some s => script_run tv rest s | None => false end;
  run_if tv a rest st alt : wf_prog a = true ->
    script_run tv (OP_IF :: assemble a ++ OP_ENDIF :: rest) (st, alt) =
    match st with
    | [] => false
    | c :: st =>
        match if_cond c with
        | Some b => script_run tv ((if b then assemble a else []) ++ rest) (st, alt)
        | None => false
        end
    end;
  run_if_else tv a b rest st alt : wf_prog a = true -> wf_prog b = true ->
    script_run tv (OP_IF :: assemble a ++ OP_ELSE :: assemble b ++ OP_ENDIF :: rest) (st, alt) =
    match st with
    | [] => false
    | c :: st =>
        match if_cond c with
        | Some t => script_run tv ((if t then assemble a else assemble b) ++ rest) (st, alt)
        | None => false
        end
    end
}.

(** The meaning of a program. *)
Fixpoint sem (tv : TxView) (p : prog) (s : vm_state) : option vm_state :=
  match p with
  | Done => Some s
  | Data d k => sem tv k (d :: s.1, s.2)
  | Op o k => s ← op_effect sha256 tv o s; sem tv k s
  | If a k =>
      match s with
      | ([], _) => None
      | (c :: st, alt) => t ← if_cond c; s ← (if t : bool then sem tv a (st, alt) else Some (st, alt)); sem tv k s
      end
  | IfElse a b k =>
      match s with
      | ([], _) => None
      | (c :: st, alt) => t ← if_cond c; s ← (if t : bool then sem tv a (st, alt) else sem tv b (st, alt)); sem tv k s
      end
  end.

Lemma sem_papp tv p q s : sem tv (papp p q) s = s ← sem tv p s; sem tv q s.
Proof.
  revert s. induction p as [|d k IH|o k IH|a _ k IH|a _ b _ k IH]; intros s; cbn; [done|apply IH|..].
  - destruct (op_effect sha256 tv o s); cbn; [apply IH|done].
  - destruct s as [[|c st] alt]; [done|]. destruct (if_cond c) as [t|]; cbn; [|done].
    destruct (if t then _ else _); cbn; [apply IH|done].
  - destruct s as [[|c st] alt]; [done|]. destruct (if_cond c) as [t|]; cbn; [|done].
    destruct (if t then _ else _); cbn; [apply IH|done].
Qed.

(** The engine runs the script of a program as the program says. *)
Lemma run_prog `{ScriptEngineOk} tv p rest s :
  wf_prog p = true ->
  script_run tv (assemble p ++ rest) s = match sem tv p s with Some s => script_run tv rest s | None => false end.
Proof.
  revert rest s. induction p as [|d k IH|o k IH|a IHa k IH|a IHa b IHb k IH]; intros rest s Hwf; cbn [wf_prog assemble sem app] in Hwf |- *; [done|..];
    repeat rewrite andb_true_iff in Hwf.
  - destruct Hwf as [[Hlo%Nat.leb_le Hhi%Nat.leb_le] Hk]. destruct s as [st alt]. rewrite <- app_assoc, run_data by done. by apply IH.
  - destruct Hwf as [Ho Hk]. rewrite run_op by done. destruct (op_effect sha256 tv o s); cbn; [by apply IH|done].
  - destruct Hwf as [Ha Hk]. rewrite <- app_assoc. cbn [app]. destruct s as [st alt]. rewrite run_if by done. destruct st as [|c st]; [done|].
    destruct (if_cond c) as [[]|]; cbn; [|by apply IH|done]. rewrite IHa by done. destruct (sem tv a (st, alt)); cbn; [by apply IH|done].
  - destruct Hwf as [[Ha Hb] Hk]. rewrite <- app_assoc. cbn [app]. rewrite <- app_assoc. cbn [app]. destruct s as [st alt].
    rewrite run_if_else by done. destruct st as [|c st]; [done|].
    destruct (if_cond c) as [[]|]; cbn; [| |done]; rewrite ?IHa, ?IHb by done; [destruct (sem tv a (st, alt))|destruct (sem tv b (st, alt))];
      cbn; try done; by apply IH.
Qed.

Lemma run_script `{ScriptEngineOk} tv p s :
  wf_prog p = true -> script_run tv (assemble p) s = match sem tv p s with Some s => final s | None => false end.
Proof.
  intros Hwf. rewrite <- (app_nil_r (assemble p)), run_prog by done. destruct (sem tv p s); [apply run_end|done].
Qed.
End engine.

(** ** An interpreter *)

Section interpreter.
Context (sha256 : bytes -> array 32) `{Blake2b}.

(** One entry per open [OP_IF]: the branch taken, or none inside a branch not taken. *)
Definition executing (conds : list (option bool)) : bool := forallb (fun c => bool_decide (c = Some true)) conds.

Fixpoint interp (fuel : nat) (tv : TxView) (conds : list (option bool)) (script : bytes) (s : vm_state) : bool :=
  match fuel, script with
  | _, [] => match conds with [] => final s | _ => false end
  | O, _ => false
  | S fuel, op :: rest =>
      let n := Z.to_nat (byte.unsigned op) in
      if (1 <=? n) && (n <=? 75) then
        if length rest <? n then false
        else interp fuel tv conds (drop n rest) (if executing conds then (take n rest :: s.1, s.2) else s)
      else if bool_decide (op = OP_IF) then
        if executing conds then
          match s.1 with
          | [] => false
          | c :: st => match if_cond c with Some b => interp fuel tv (Some b :: conds) rest (st, s.2) | None => false end
          end
        else interp fuel tv (None :: conds) rest s
      else if bool_decide (op = OP_ELSE) then
        match conds with [] => false | c :: conds => interp fuel tv ((negb <$> c) :: conds) rest s end
      else if bool_decide (op = OP_ENDIF) then
        match conds with [] => false | _ :: conds => interp fuel tv conds rest s end
      else if executing conds then
        match op_effect sha256 tv op s with Some s => interp fuel tv conds rest s | None => false end
      else interp fuel tv conds rest s
  end.

Lemma interp_fuel tv f1 : forall f2 conds script s,
  length script <= f1 -> length script <= f2 -> interp f1 tv conds script s = interp f2 tv conds script s.
Proof.
  induction f1 as [|f1 IH]; intros [|f2] conds [|op rest] s Hf1 Hf2; cbn in Hf1, Hf2; try lia; try done.
  cbn [interp]. destruct (_ && _).
  { destruct (_ <? _); [done|]. apply IH; rewrite length_drop; lia. }
  destruct (bool_decide (op = OP_IF)).
  { destruct (executing conds); [|apply IH; lia]. destruct s.1 as [|c st]; [done|]. destruct (if_cond c); [apply IH; lia|done]. }
  destruct (bool_decide (op = OP_ELSE)); [destruct conds; [done|apply IH; lia]|].
  destruct (bool_decide (op = OP_ENDIF)); [destruct conds; [done|apply IH; lia]|].
  destruct (executing conds); [|apply IH; lia]. destruct (op_effect _ _ _ _); [apply IH; lia|done].
Qed.

Definition irun (tv : TxView) (conds : list (option bool)) (script : bytes) (s : vm_state) : bool :=
  interp (length script) tv conds script s.
#[local] Arguments irun : simpl never.

(** One step, whatever the fuel. *)
Lemma irun_step tv conds op rest s f :
  length rest <= f -> irun tv conds (op :: rest) s = interp (S f) tv conds (op :: rest) s.
Proof. intros Hf. apply interp_fuel; cbn; lia. Qed.

Lemma irun_data tv conds d rest s :
  1 <= length d <= 75 ->
  irun tv conds (byte.of_Z (Z.of_nat (length d)) :: d ++ rest) s = irun tv conds rest (if executing conds then (d :: s.1, s.2) else s).
Proof.
  intros Hd. rewrite (irun_step _ _ _ _ _ (length (d ++ rest))) by done. cbn [interp].
  rewrite byte.unsigned_of_Z, Z.mod_small, Nat2Z.id by lia.
  rewrite (proj2 (Nat.leb_le 1 _)), (proj2 (Nat.leb_le _ 75)), (proj2 (Nat.ltb_ge _ _)) by (rewrite ?length_app; lia). cbn [andb].
  rewrite drop_app_length, take_app_length. apply interp_fuel; rewrite ?length_app; lia.
Qed.

Lemma irun_op tv conds op rest s :
  known_op op = true ->
  irun tv conds (op :: rest) s =
  if executing conds then match op_effect sha256 tv op s with Some s => irun tv conds rest s | None => false end
  else irun tv conds rest s.
Proof.
  intros Ho. rewrite (irun_step _ _ _ _ _ (length rest)) by done. destruct op; try discriminate Ho; reflexivity.
Qed.

Lemma irun_if tv conds rest s :
  irun tv conds (OP_IF :: rest) s =
  if executing conds then
    match s.1 with
    | [] => false
    | c :: st => match if_cond c with Some b => irun tv (Some b :: conds) rest (st, s.2) | None => false end
    end
  else irun tv (None :: conds) rest s.
Proof. reflexivity. Qed.
Lemma irun_else tv c conds rest s : irun tv (c :: conds) (OP_ELSE :: rest) s = irun tv ((negb <$> c) :: conds) rest s.
Proof. reflexivity. Qed.
Lemma irun_endif tv c conds rest s : irun tv (c :: conds) (OP_ENDIF :: rest) s = irun tv conds rest s.
Proof. reflexivity. Qed.

(** Branches not taken are skipped. *)
Lemma irun_skip tv p : wf_prog p = true -> forall conds rest s,
  executing conds = false -> irun tv conds (assemble p ++ rest) s = irun tv conds rest s.
Proof.
  induction p as [|d k IH|o k IH|a IHa k IH|a IHa b IHb k IH]; intros Hwf conds rest s He; cbn [wf_prog assemble sem app] in Hwf |- *; [done|..];
    repeat rewrite andb_true_iff in Hwf.
  - destruct Hwf as [[Hlo%Nat.leb_le Hhi%Nat.leb_le] Hk]. rewrite <- app_assoc, irun_data, He by done. by apply IH.
  - destruct Hwf as [Ho Hk]. rewrite irun_op, He by done. by apply IH.
  - destruct Hwf as [Ha Hk]. rewrite <- app_assoc, irun_if, He. cbn [app]. rewrite IHa, irun_endif by done. by apply IH.
  - destruct Hwf as [[Ha Hb] Hk]. rewrite <- app_assoc, irun_if, He. cbn [app]. rewrite IHa, irun_else by done. cbn.
    rewrite <- app_assoc, IHb by done. cbn [app]. rewrite irun_endif. by apply IH.
Qed.

Lemma irun_prog tv p : wf_prog p = true -> forall conds rest s,
  executing conds = true ->
  irun tv conds (assemble p ++ rest) s = match sem sha256 tv p s with Some s => irun tv conds rest s | None => false end.
Proof.
  induction p as [|d k IH|o k IH|a IHa k IH|a IHa b IHb k IH]; intros Hwf conds rest s He; cbn [wf_prog assemble sem app] in Hwf |- *; [done|..];
    repeat rewrite andb_true_iff in Hwf.
  - destruct Hwf as [[Hlo%Nat.leb_le Hhi%Nat.leb_le] Hk]. rewrite <- app_assoc, irun_data, He by done. by apply IH.
  - destruct Hwf as [Ho Hk]. rewrite irun_op, He by done. destruct (op_effect _ _ _ _); [by apply IH|done].
  - destruct Hwf as [Ha Hk]. rewrite <- app_assoc, irun_if, He. destruct s as [[|c st] alt]; cbn [fst snd]; [done|].
    destruct (if_cond c) as [[]|]; cbn [mbind option_bind app]; [| |done].
    + rewrite IHa by done. destruct (sem sha256 tv a (st, alt)); [|done]. cbn. rewrite irun_endif. by apply IH.
    + rewrite irun_skip, irun_endif by done. by apply IH.
  - destruct Hwf as [[Ha Hb] Hk]. rewrite <- app_assoc, irun_if, He. destruct s as [[|c st] alt]; cbn [fst snd]; [done|].
    destruct (if_cond c) as [[]|]; cbn [mbind option_bind app]; [| |done].
    + rewrite IHa by done. destruct (sem sha256 tv a (st, alt)); [|done]. rewrite irun_else. cbn.
      rewrite <- app_assoc, irun_skip by done. cbn [app]. rewrite irun_endif. by apply IH.
    + rewrite irun_skip, irun_else by done. cbn. rewrite <- app_assoc, IHb by done. cbn [app].
      destruct (sem sha256 tv b (st, alt)); [|done]. cbn. rewrite irun_endif. by apply IH.
Qed.

Definition interpreter : ScriptEngine := fun tv script s => irun tv [] script s.

Lemma interpreter_ok : ScriptEngineOk sha256 (H0 := interpreter).
Proof.
  constructor; unfold script_run, interpreter.
  - done.
  - intros tv d rest st alt Hd. by rewrite irun_data.
  - intros tv op rest s Ho. by rewrite irun_op.
  - intros tv a rest st alt Ha. rewrite irun_if. cbn [executing forallb fst snd]. destruct st as [|c st]; [done|].
    destruct (if_cond c) as [[]|]; [| |done].
    + rewrite !irun_prog by done. by destruct (sem sha256 tv a (st, alt)).
    + by rewrite irun_skip, irun_endif.
  - intros tv a b rest st alt Ha Hb. rewrite irun_if. cbn [executing forallb fst snd]. destruct st as [|c st]; [done|].
    destruct (if_cond c) as [[]|]; [| |done].
    + rewrite !irun_prog by done. destruct (sem sha256 tv a (st, alt)); [|done]. rewrite irun_else. cbn.
      by rewrite irun_skip, irun_endif.
    + rewrite irun_skip, irun_else by done. cbn. rewrite !irun_prog by done. by destruct (sem sha256 tv b (st, alt)).
Qed.
End interpreter.
