(* ===== verification/PermScript.v ===== *)
(** * PermScript: the permission redeem script and its tree

    [permission_tags.rs], [permission_script.rs] and [permission_tree.rs] of
    [zk/backend/risc0/api]: the bytes of the script that guards a bundle's exits on the L1, its
    length, and the accumulator that commits to it. *)

From S2P Require Import Prelude Codec Types MerkleTree AbiCore RtState ScriptEngine.

(** ** permission_tags.rs *)

Inductive PermNode := PermLeaf | PermBranch | PermEmpty.
Definition PermNode_as_u8 (n : PermNode) : byte :=
  match n with PermLeaf => Byte.x00 | PermBranch => Byte.x01 | PermEmpty => Byte.x02 end.

#[export] Instance PermTags : NodeTags := {|
  LEAF_TAG := [PermNode_as_u8 PermLeaf];
  BRANCH_TAG := [PermNode_as_u8 PermBranch];
  EMPTY_TAG := [PermNode_as_u8 PermEmpty]
|}.

(** ** permission_script.rs: constants *)

Definition MAX_DELEGATE_INPUTS : nat := 8.
Definition MAX_OUTPUTS : Z := 4.

Definition OP_FALSE : byte := Byte.x00.
Definition OP_TRUE : byte := Byte.x51.
Definition OP_VERIFY : byte := Byte.x69.
Definition OP_TOALTSTACK : byte := Byte.x6b.
Definition OP_FROMALTSTACK : byte := Byte.x6c.
Definition OP_DROP : byte := Byte.x75.
Definition OP_DUP : byte := Byte.x76.
Definition OP_NIP : byte := Byte.x77.
Definition OP_OVER : byte := Byte.x78.
Definition OP_PICK : byte := Byte.x79.
Definition OP_ROLL : byte := Byte.x7a.
Definition OP_ROT : byte := Byte.x7b.
Definition OP_SWAP : byte := Byte.x7c.
Definition OP_CAT : byte := Byte.x7e.
Definition OP_EQUAL : byte := Byte.x87.
Definition OP_EQUALVERIFY : byte := Byte.x88.
Definition OP_1SUB : byte := Byte.x8c.
Definition OP_ADD : byte := Byte.x93.
Definition OP_SUB : byte := Byte.x94.
Definition OP_NUMEQUALVERIFY : byte := Byte.x9d.
Definition OP_GREATERTHAN : byte := Byte.xa0.
Definition OP_GREATERTHANOREQUAL : byte := Byte.xa2.
Definition OP_SHA256 : byte := Byte.xa8.
Definition OP_BLAKE2B : byte := Byte.xaa.
Definition OP_TXINPUTCOUNT : byte := Byte.xb3.
Definition OP_TXOUTPUTCOUNT : byte := Byte.xb4.
Definition OP_TXINPUTINDEX : byte := Byte.xb9.
Definition OP_TXINPUTSCRIPTSIGSUBSTR : byte := Byte.xbc.
Definition OP_TXINPUTAMOUNT : byte := Byte.xbe.
Definition OP_TXINPUTSPK : byte := Byte.xbf.
Definition OP_TXOUTPUTAMOUNT : byte := Byte.xc2.
Definition OP_TXOUTPUTSPK : byte := Byte.xc3.
Definition OP_TXINPUTSCRIPTSIGLEN : byte := Byte.xc9.
Definition OP_NUM2BIN : byte := Byte.xcd.
Definition OP_INPUTCOVENANTID : byte := Byte.xcf.
Definition OP_COVOUTCOUNT : byte := Byte.xd2.
Definition OP_COVOUTPUTIDX : byte := Byte.xd3.

(** ** permission_script.rs: the emitters

    Each emitter is the bytes the method appends to the script. *)
Module PermRedeemScript.

Definition PREFIX_LEN : nat := 42.
Definition STASH_LEN : nat := 2.
Definition VALIDATE_AMOUNTS_LEN : nat := 13.
Definition VERIFY_WITHDRAWAL_LEN : nat := 13.
Definition COMPUTE_LEAF_HASHES_LEN : nat := 42.
Definition VERIFY_OLD_ROOT_TAIL_LEN : nat := 12.
Definition COMPUTE_NEW_UNCLAIMED_LEN : nat := 13.
Definition VERIFY_OUTPUTS_FIXED_LEN : nat := 88.
Definition VERIFY_DELEGATE_BALANCE_LEN : nat := 214.
Definition TRAILER_LEN : nat := 3.
Definition MERKLE_STEP_LEN : nat := 11.
Definition EMBEDDED_LEN_PUSH : nat := 3.

Definition FIXED_LEN : nat :=
  PREFIX_LEN + STASH_LEN + VALIDATE_AMOUNTS_LEN + VERIFY_WITHDRAWAL_LEN + COMPUTE_LEAF_HASHES_LEN +
  VERIFY_OLD_ROOT_TAIL_LEN + COMPUTE_NEW_UNCLAIMED_LEN + VERIFY_OUTPUTS_FIXED_LEN + VERIFY_DELEGATE_BALANCE_LEN +
  TRAILER_LEN + EMBEDDED_LEN_PUSH.

(** [data.len() as u8]; the length check is a debug assertion. *)
Definition push_data (data : bytes) : bytes := byte.of_Z (Z.of_nat (length data)) :: data.

Definition push_i64 (val : Z) : bytes :=
  if (val =? 0)%Z then [Byte.x00]
  else if (val =? -1)%Z then [Byte.x4f]
  else if (1 <=? val)%Z && (val <=? 16)%Z then [byte.of_Z (80 + val)]
  else push_data (num_bytes val).

Definition emit_prefix (root : array 32) (unclaimed_count : Z) : bytes :=
  [Byte.x20] ++ vec_to_list root ++ [Byte.x08] ++ vec_to_list (le_split 8 unclaimed_count).

Definition emit_stash : bytes := [OP_TOALTSTACK; OP_TOALTSTACK].

Definition emit_validate_amounts : bytes :=
  [OP_DUP] ++ push_i64 0 ++ [OP_GREATERTHAN; OP_VERIFY] ++
  [OP_DUP; OP_TOALTSTACK] ++
  [OP_OVER; OP_SWAP; OP_SUB; OP_DUP] ++ push_i64 0 ++ [OP_GREATERTHANOREQUAL; OP_VERIFY].

Definition emit_verify_withdrawal : bytes :=
  push_i64 2 ++ [OP_ROLL] ++
  [OP_DUP] ++
  push_data [Byte.x00; Byte.x00] ++ [OP_SWAP; OP_CAT] ++
  push_i64 0 ++ [OP_TXOUTPUTSPK; OP_EQUALVERIFY] ++
  [OP_ROT; OP_ROT].

Definition emit_compute_leaf_hashes : bytes :=
  [OP_DUP] ++ push_i64 0 ++ [OP_EQUAL; OP_TOALTSTACK] ++
  push_i64 8 ++ [OP_NUM2BIN] ++
  [OP_ROT; OP_DUP; OP_TOALTSTACK] ++
  [OP_SWAP; OP_CAT] ++ push_data [PermNode_as_u8 PermLeaf] ++ [OP_SWAP; OP_CAT; OP_SHA256] ++
  push_data [PermNode_as_u8 PermEmpty] ++ [OP_SHA256] ++
  [OP_FROMALTSTACK; OP_FROMALTSTACK; OP_DUP; OP_TOALTSTACK; OP_SWAP; OP_TOALTSTACK] ++
  [OP_IF; OP_NIP; OP_ELSE; OP_DROP; OP_ENDIF] ++
  [OP_TOALTSTACK] ++
  [OP_FROMALTSTACK; OP_FROMALTSTACK] ++
  [OP_ROT; OP_CAT] ++ push_data [PermNode_as_u8 PermLeaf] ++ [OP_SWAP; OP_CAT; OP_SHA256] ++
  [OP_SWAP; OP_TOALTSTACK].

Definition emit_merkle_step : bytes :=
  [OP_SWAP; OP_IF; OP_ELSE; OP_SWAP; OP_ENDIF; OP_CAT] ++ push_data [PermNode_as_u8 PermBranch] ++
  [OP_SWAP; OP_CAT; OP_SHA256].

Definition emit_merkle_steps (depth : nat) : bytes := concat (replicate depth emit_merkle_step).

Definition emit_verify_old_root (depth : nat) : bytes :=
  emit_merkle_steps depth ++
  [OP_FROMALTSTACK; OP_FROMALTSTACK; OP_FROMALTSTACK; OP_FROMALTSTACK] ++
  push_i64 4 ++ [OP_ROLL; OP_EQUALVERIFY] ++
  [OP_ROT; OP_SWAP; OP_TOALTSTACK; OP_SWAP; OP_TOALTSTACK].

Definition emit_compute_new_root (depth : nat) : bytes := emit_merkle_steps depth.

Definition emit_compute_new_unclaimed : bytes :=
  [OP_FROMALTSTACK; OP_FROMALTSTACK; OP_FROMALTSTACK] ++
  [OP_ROT] ++
  [OP_IF] ++ push_i64 1 ++ [OP_SUB; OP_ELSE; OP_ENDIF] ++
  push_i64 8 ++ [OP_NUM2BIN] ++
  [OP_ROT; OP_SWAP].

Definition emit_hash_redeem_to_spk : bytes :=
  [OP_BLAKE2B] ++ push_data [Byte.x00; Byte.x00; OP_BLAKE2B; Byte.x20] ++ [OP_SWAP; OP_CAT] ++
  push_data [OP_EQUAL] ++ [OP_CAT].

Definition emit_verify_outputs (redeem_script_len : Z) : bytes :=
  [OP_FALSE; OP_TXOUTPUTAMOUNT] ++ push_i64 3 ++ [OP_PICK; OP_GREATERTHANOREQUAL; OP_VERIFY] ++
  [OP_TXOUTPUTCOUNT] ++ push_i64 MAX_OUTPUTS ++ [OP_GREATERTHAN] ++ push_i64 0 ++ [OP_EQUALVERIFY] ++
  [OP_DUP] ++ push_data (vec_to_list (le_split 8 0)) ++ [OP_EQUAL] ++
  [OP_IF] ++
    [OP_DROP; OP_DROP] ++
    [OP_TXINPUTINDEX; OP_INPUTCOVENANTID; OP_COVOUTCOUNT] ++ push_i64 0 ++ [OP_EQUALVERIFY] ++
    [OP_FALSE; OP_TXOUTPUTAMOUNT; OP_OVER; OP_TXINPUTINDEX; OP_TXINPUTAMOUNT; OP_ADD; OP_GREATERTHANOREQUAL; OP_VERIFY] ++
  [OP_ELSE] ++
    push_i64 8 ++ [OP_SWAP; OP_CAT] ++
    [OP_SWAP] ++ push_data [Byte.x20] ++ [OP_SWAP; OP_CAT] ++
    [OP_SWAP; OP_CAT] ++
    [OP_TXINPUTINDEX; OP_TXINPUTINDEX; OP_TXINPUTSCRIPTSIGLEN] ++
    push_i64 (- redeem_script_len + Z.of_nat PREFIX_LEN) ++ [OP_ADD] ++
    [OP_TXINPUTINDEX; OP_TXINPUTSCRIPTSIGLEN; OP_TXINPUTSCRIPTSIGSUBSTR; OP_CAT] ++
    emit_hash_redeem_to_spk ++
    push_i64 1 ++ [OP_TXOUTPUTSPK; OP_EQUALVERIFY] ++
    [OP_TXINPUTINDEX; OP_INPUTCOVENANTID; OP_DUP; OP_COVOUTCOUNT; OP_DUP] ++ push_i64 1 ++
    [OP_EQUALVERIFY; OP_1SUB; OP_COVOUTPUTIDX] ++ push_i64 1 ++ [OP_EQUALVERIFY] ++
    [OP_TXINPUTINDEX; OP_TXINPUTAMOUNT] ++ push_i64 1 ++ [OP_TXOUTPUTAMOUNT; OP_NUMEQUALVERIFY] ++
  [OP_ENDIF].

(** One round of the unrolled sum over the delegate inputs. *)
Definition emit_delegate_input (i : Z) : bytes :=
  [OP_TXINPUTCOUNT] ++ push_i64 (i + 1) ++ [OP_GREATERTHANOREQUAL; OP_IF] ++
    push_i64 i ++ [OP_TXINPUTSPK; OP_FROMALTSTACK; OP_DUP; OP_TOALTSTACK; OP_EQUAL; OP_IF] ++
      push_i64 i ++ [OP_TXINPUTAMOUNT; OP_ADD] ++
    [OP_ENDIF] ++
  [OP_ENDIF].

Definition emit_verify_delegate_balance : bytes :=
  let n := Z.of_nat MAX_DELEGATE_INPUTS in
  [OP_TXINPUTCOUNT] ++ push_i64 (n + 2) ++ [OP_GREATERTHAN] ++ push_i64 0 ++ [OP_EQUALVERIFY] ++
  [OP_TXINPUTINDEX; OP_INPUTCOVENANTID] ++ push_data DELEGATE_SCRIPT_PREFIX ++ [OP_SWAP; OP_CAT] ++
  push_data DELEGATE_SCRIPT_SUFFIX ++ [OP_CAT] ++ emit_hash_redeem_to_spk ++ [OP_TOALTSTACK] ++
  push_i64 0 ++
  concat (emit_delegate_input <$> seqZ 1 n) ++
  [OP_TXINPUTCOUNT] ++ push_i64 (n + 2) ++ [OP_GREATERTHANOREQUAL; OP_IF] ++
    push_i64 (n + 1) ++ [OP_TXINPUTSPK; OP_FROMALTSTACK; OP_DUP; OP_TOALTSTACK; OP_EQUAL; OP_FALSE; OP_EQUALVERIFY] ++
  [OP_ENDIF] ++
  [OP_SWAP; OP_SUB; OP_DUP] ++ push_i64 0 ++ [OP_GREATERTHANOREQUAL; OP_VERIFY] ++
  [OP_TXINPUTINDEX; OP_INPUTCOVENANTID; OP_COVOUTCOUNT] ++ push_i64 1 ++ [OP_ADD] ++
  [OP_OVER] ++ push_i64 0 ++ [OP_GREATERTHAN; OP_IF] ++
    [OP_DUP; OP_TXOUTPUTSPK; OP_FROMALTSTACK; OP_EQUALVERIFY; OP_TXOUTPUTAMOUNT; OP_EQUALVERIFY] ++
  [OP_ELSE] ++
    [OP_DROP; OP_DROP; OP_FROMALTSTACK; OP_DROP] ++
  [OP_ENDIF].

Definition emit_trailer : bytes := [OP_TRUE; OP_TRUE; OP_DROP].
End PermRedeemScript.

Import PermRedeemScript.

Definition perm_redeem_script_len (depth : nat) : nat := FIXED_LEN + 2 * depth * MERKLE_STEP_LEN.

Definition build_permission_redeem_bytes (root : array 32) (unclaimed_count : Z) (depth : nat) (redeem_script_len : Z) : bytes :=
  emit_prefix root unclaimed_count ++ emit_stash ++ emit_validate_amounts ++ emit_verify_withdrawal ++
  emit_compute_leaf_hashes ++ emit_verify_old_root depth ++ emit_compute_new_root depth ++ emit_compute_new_unclaimed ++
  emit_verify_outputs redeem_script_len ++ emit_verify_delegate_balance ++ emit_trailer.

Definition build_permission_redeem_script {E} (root : array 32) (unclaimed_count : Z) (depth : nat) : outcome E bytes :=
  let len := perm_redeem_script_len depth in
  let script := build_permission_redeem_bytes root unclaimed_count depth (Z.of_nat len) in
  _ ← assert (length script =? len);
  Ok script.

(** ** permission_tree.rs *)
Module PermissionTreeAccumulator.
Section accumulator.
Context (sha256 : bytes -> array 32) `{Blake2b}.
#[local] Instance hasher : Hasher := Sha256 sha256.

Definition MAX_DEPTH : nat := 32.

Record t := { builder : StreamingBuilder.t }.

Definition EMPTY_HASHES : list (array 32) := StreamingBuilder.compute_empty_hashes MAX_DEPTH.

Definition new : t := {| builder := StreamingBuilder.new MAX_DEPTH |}.

Definition add_exit (acc : t) (dest : StandardSpk) (amount : Z) : Result t :=
  b ← StreamingBuilder.add_leaf_parts (builder acc) [to_script_bytes dest; vec_to_list (le_split 8 amount)];
  Ok {| builder := b |}.

Definition required_depth (count : Z) : nat := StreamingBuilder.required_depth MAX_DEPTH count.

Definition finalize (acc : t) : Result (array 32) :=
  let count := StreamingBuilder.leaf_count (builder acc) in
  if (count =? 0)%Z then Ok zero32
  else
    root ← StreamingBuilder.finalize (builder acc) EMPTY_HASHES;
    redeem ← build_permission_redeem_script root count (required_depth count);
    Ok (blake2b_script_hash redeem).

Definition hash_leaf (dest : StandardSpk) (amount : Z) : array 32 :=
  StreamingBuilder.hash_leaf_parts [to_script_bytes dest; vec_to_list (le_split 8 amount)].
Definition hash_branch (left right : array 32) : array 32 := StreamingBuilder.hash_branch left right.
Definition hash_empty : array 32 := default zero32 (EMPTY_HASHES !! 0).
End accumulator.
End PermissionTreeAccumulator.

(** ** The length of the script *)

Lemma magnitude_two m : (256 <= m < 65536)%Z -> magnitude 8 m = [byte.of_Z (m `mod` 256); byte.of_Z (m / 256)].
Proof.
  intros Hm. cbn [magnitude]. rewrite (proj2 (Z.leb_gt m 0)) by lia.
  assert (0 < m / 256 < 256)%Z by (split; [apply Z.div_str_pos; lia|apply Z.div_lt_upper_bound; lia]).
  rewrite (proj2 (Z.leb_gt (m / 256) 0)), (Z.mod_small (m / 256)), (Z.div_small (m / 256)) by lia. done.
Qed.

Lemma push_negative_len m : (256 <= m < 32768)%Z -> length (push_i64 (- m)) = EMBEDDED_LEN_PUSH.
Proof.
  intros Hm. unfold push_i64. rewrite (proj2 (Z.eqb_neq _ 0)), (proj2 (Z.eqb_neq _ (-1))), (proj2 (Z.leb_gt 1 _)) by lia.
  cbn [andb]. unfold push_data, num_bytes. rewrite Z.abs_opp, Z.abs_eq, magnitude_two by lia.
  assert (0 < m / 256 < 128)%Z by (split; [apply Z.div_str_pos; lia|apply Z.div_lt_upper_bound; lia]).
  unfold with_sign. cbn [last]. rewrite byte.unsigned_of_Z, Z.mod_small by lia.
  rewrite (proj2 (Z.leb_gt _ _)), (proj2 (Z.ltb_lt _ _)) by lia. done.
Qed.

Lemma emit_merkle_steps_len depth : length (emit_merkle_steps depth) = depth * MERKLE_STEP_LEN.
Proof. unfold emit_merkle_steps. induction depth as [|d IH]; cbn [replicate concat]; [done|]. rewrite length_app, IH. done. Qed.

Lemma emit_verify_outputs_len len : (298 <= len <= 32809)%Z ->
  length (emit_verify_outputs len) = VERIFY_OUTPUTS_FIXED_LEN + EMBEDDED_LEN_PUSH.
Proof.
  intros Hlen. unfold emit_verify_outputs. rewrite !length_app.
  replace (- len + Z.of_nat PREFIX_LEN)%Z with (- (len - 42))%Z by (unfold PREFIX_LEN; lia).
  rewrite push_negative_len by lia. reflexivity.
Qed.

(** The depth range in which the embedded length is three bytes wide. *)
Lemma redeem_bytes_len root count depth :
  depth <= 1471 ->
  length (build_permission_redeem_bytes root count depth (Z.of_nat (perm_redeem_script_len depth))) = perm_redeem_script_len depth.
Proof.
  intros Hd. unfold build_permission_redeem_bytes, emit_verify_old_root, emit_compute_new_root. rewrite !length_app, !emit_merkle_steps_len.
  rewrite emit_verify_outputs_len by (unfold perm_redeem_script_len; change FIXED_LEN with 445; change MERKLE_STEP_LEN with 11; lia).
  unfold emit_prefix. rewrite !length_app, !length_vec_to_list.
  change (length emit_verify_delegate_balance) with 214. unfold perm_redeem_script_len. change FIXED_LEN with 445. change MERKLE_STEP_LEN with 11.
  change VERIFY_OUTPUTS_FIXED_LEN with 88. change EMBEDDED_LEN_PUSH with 3. cbn [length emit_stash emit_validate_amounts]. cbn. lia.
Qed.

Lemma redeem_script_Ok {E} root count depth :
  depth <= 1471 ->
  @build_permission_redeem_script E root count depth
  = Ok (build_permission_redeem_bytes root count depth (Z.of_nat (perm_redeem_script_len depth))).
Proof. intros Hd. unfold build_permission_redeem_script. by rewrite redeem_bytes_len, Nat.eqb_refl. Qed.
