(* ===== verification/PermSem.v ===== *)
(** * PermSem: what the permission redeem script checks

    The script as a structured program, and its meaning on any stack: a function that reads a
    withdrawal off the stack and checks it against the transaction. *)

From S2P Require Import Prelude Codec Types MerkleTree AbiCore RtState ScriptEngine PermScript.
Import PermRedeemScript.

(** ** Numbers *)

Lemma le_combine_snoc l b : le_combine (l ++ [b]) = (le_combine l + byte.unsigned b * 256 ^ Z.of_nat (length l))%Z.
Proof.
  induction l as [|x l IH]; cbn [app le_combine length]; [cbn; lia|]. rewrite IH, Nat2Z.inj_succ, Z.pow_succ_r by lia. lia.
Qed.

Lemma top_bit l (b : byte) : (2 ^ (8 * Z.of_nat (length (l ++ [b])) - 1) = 128 * 256 ^ Z.of_nat (length l))%Z.
Proof.
  rewrite length_app. cbn [length]. rewrite Nat2Z.inj_add. change 128%Z with (2 ^ 7)%Z. change 256%Z with (2 ^ 8)%Z.
  rewrite <- Z.pow_mul_r, <- Z.pow_add_r by lia. f_equal. lia.
Qed.

Lemma script_num_snoc l b :
  length l <= 7 ->
  script_num (l ++ [b]) =
  Some (if (128 <=? byte.unsigned b)%Z then - (le_combine l + (byte.unsigned b - 128) * 256 ^ Z.of_nat (length l))
        else le_combine l + byte.unsigned b * 256 ^ Z.of_nat (length l))%Z.
Proof.
  intros Hl. unfold script_num. rewrite (proj2 (Nat.ltb_ge _ _)) by (rewrite length_app; cbn; lia).
  rewrite last_snoc, top_bit, le_combine_snoc. f_equal. destruct (_ <=? _)%Z; lia.
Qed.

(** A number whose top bit is clear is its value. *)
Lemma script_num_pos l : length l <= 8 -> (le_combine l < 2 ^ (8 * Z.of_nat (length l) - 1))%Z -> script_num l = Some (le_combine l).
Proof.
  induction l as [|b l _] using rev_ind; intros Hlen Hv; [done|]. rewrite length_app in Hlen. cbn in Hlen.
  rewrite top_bit, le_combine_snoc in Hv. rewrite script_num_snoc, le_combine_snoc by lia. f_equal.
  pose proof (le_combine_bound l). pose proof (Z.pow_pos_nonneg 256 (Z.of_nat (length l))).
  rewrite (proj2 (Z.leb_gt _ _)); [done|]. nia.
Qed.

Lemma script_num_le n z : n <= 8 -> (0 <= z < 2 ^ (8 * Z.of_nat n - 1))%Z -> script_num (vec_to_list (le_split n z)) = Some z.
Proof.
  intros Hn Hz.
  assert (z < 256 ^ Z.of_nat n)%Z.
  { change 256%Z with (2 ^ 8)%Z. rewrite <- Z.pow_mul_r by lia. eapply Z.lt_le_trans; [apply Hz|]. apply Z.pow_le_mono_r; lia. }
  rewrite script_num_pos, le_combine_split_small; rewrite ?length_vec_to_list, ?le_combine_split_small; done || lia.
Qed.

Lemma magnitude_value n : forall z, (0 <= z < 256 ^ Z.of_nat n)%Z -> le_combine (magnitude n z) = z /\ length (magnitude n z) <= n.
Proof.
  induction n as [|n IH]; intros z Hz; cbn [magnitude]; [cbn in *; lia|].
  destruct (Z.leb_spec z 0); [cbn; lia|]. rewrite Nat2Z.inj_succ, Z.pow_succ_r in Hz by lia.
  destruct (IH (z / 256)%Z) as [Hv Hl]; [split; [apply Z.div_pos; lia|apply Z.div_lt_upper_bound; lia]|].
  cbn [le_combine length]. rewrite Hv, byte.unsigned_of_Z, Z.mod_mod by lia. split; [|lia].
  rewrite Z.add_comm. symmetry. by apply Z.div_mod.
Qed.

Lemma script_num_num_bytes z : (Z.abs z < 2 ^ 63)%Z -> script_num (num_bytes z) = Some z.
Proof.
  intros Hz. unfold num_bytes. destruct (magnitude_value 8 (Z.abs z)) as [Hv Hl]; [lia|].
  destruct (magnitude 8 (Z.abs z)) as [|b l _] using rev_ind; [cbn in *; f_equal; lia|].
  unfold with_sign. rewrite last_snoc. rewrite length_app in Hl. cbn in Hl. rewrite le_combine_snoc in Hv.
  pose proof (le_combine_bound l) as Hb. pose proof (byte.unsigned_range b). pose proof (Z.pow_pos_nonneg 256 (Z.of_nat (length l))).
  destruct (Z.leb_spec 128 (byte.unsigned b)) as [Hbig|Hsmall].
  - assert (length l < 7).
    { destruct (decide (length l = 7)) as [H7|]; [|lia]. rewrite H7 in *. cbn in Hv, Hb. lia. }
    rewrite script_num_snoc, length_app, le_combine_snoc by (rewrite length_app; cbn; lia). f_equal.
    destruct (Z.ltb_spec z 0); cbn; lia.
  - destruct (Z.ltb_spec z 0).
    + rewrite removelast_last, script_num_snoc by lia. f_equal.
      rewrite byte.unsigned_of_Z, Z.mod_small by lia. rewrite (proj2 (Z.leb_le _ _)) by lia. lia.
    + rewrite script_num_snoc by lia. f_equal. rewrite (proj2 (Z.leb_gt _ _)) by lia. lia.
Qed.

Lemma num_bytes_inj a b : (Z.abs a < 2 ^ 63)%Z -> (Z.abs b < 2 ^ 63)%Z -> num_bytes a = num_bytes b -> a = b.
Proof. intros Ha Hb Heq. apply (f_equal script_num) in Heq. rewrite !script_num_num_bytes in Heq by done. congruence. Qed.

Lemma num_push_Some z r : num_push z = Some r <-> (Z.abs z < 2 ^ 63)%Z /\ r = num_bytes z.
Proof. unfold num_push. destruct (Z.ltb_spec (Z.abs z) (2 ^ 63)); naive_solver lia. Qed.

Lemma num_push_run z : (Z.abs z < 2 ^ 63)%Z -> num_push z = Some (num_bytes z).
Proof. intros. by apply num_push_Some. Qed.

Lemma idx_of_num n : (Z.of_nat n < 2 ^ 63)%Z -> idx_of (num_bytes (Z.of_nat n)) = Some n.
Proof. intros Hn. unfold idx_of. rewrite script_num_num_bytes by lia. cbn. rewrite (proj2 (Z.ltb_ge _ _)), Nat2Z.id by lia. done. Qed.

Lemma num2bin_8 z : (0 <= z < 2 ^ 63)%Z -> num2bin z 8 = Some (vec_to_list (le_split 8 z)).
Proof.
  intros Hz. unfold num2bin. change ((8 <? 0)%Z || (8 <? 8)%Z) with false. cbv beta iota.
  rewrite (proj2 (Z.ltb_lt (Z.abs z) _)), (proj2 (Z.ltb_ge z 0)) by lia. by rewrite Z.abs_eq, Z.add_0_r by lia.
Qed.

(** ** The script as a program *)

Declare Scope prog_scope.
Delimit Scope prog_scope with prog.
Notation "p ;; q" := (papp p q) : prog_scope.

Definition ops : list byte -> prog := foldr Op Done.
Definition data (d : bytes) : prog := Data d Done.
Definition num (val : Z) : prog :=
  if (val =? 0)%Z then Op Byte.x00 Done
  else if (val =? -1)%Z then Op Byte.x4f Done
  else if (1 <=? val)%Z && (val <=? 16)%Z then Op (byte.of_Z (80 + val)) Done
  else data (num_bytes val).
Definition if_ (a : prog) : prog := If a Done.
Definition if_else (a b : prog) : prog := IfElse a b Done.
Definition seq_prog : list prog -> prog := foldr papp Done.

Section programs.
#[local] Open Scope prog_scope.

Definition p_prefix (root : array 32) (unclaimed_count : Z) : prog :=
  data (vec_to_list root) ;; data (vec_to_list (le_split 8 unclaimed_count)).
Definition p_stash : prog := ops [OP_TOALTSTACK; OP_TOALTSTACK].
Definition p_validate_amounts : prog :=
  ops [OP_DUP] ;; num 0 ;; ops [OP_GREATERTHAN; OP_VERIFY; OP_DUP; OP_TOALTSTACK; OP_OVER; OP_SWAP; OP_SUB; OP_DUP] ;;
  num 0 ;; ops [OP_GREATERTHANOREQUAL; OP_VERIFY].
Definition p_verify_withdrawal : prog :=
  num 2 ;; ops [OP_ROLL; OP_DUP] ;; data [Byte.x00; Byte.x00] ;; ops [OP_SWAP; OP_CAT] ;; num 0 ;;
  ops [OP_TXOUTPUTSPK; OP_EQUALVERIFY; OP_ROT; OP_ROT].
Definition p_compute_leaf_hashes : prog :=
  ops [OP_DUP] ;; num 0 ;; ops [OP_EQUAL; OP_TOALTSTACK] ;; num 8 ;; ops [OP_NUM2BIN; OP_ROT; OP_DUP; OP_TOALTSTACK; OP_SWAP; OP_CAT] ;;
  data [PermNode_as_u8 PermLeaf] ;; ops [OP_SWAP; OP_CAT; OP_SHA256] ;; data [PermNode_as_u8 PermEmpty] ;;
  ops [OP_SHA256; OP_FROMALTSTACK; OP_FROMALTSTACK; OP_DUP; OP_TOALTSTACK; OP_SWAP; OP_TOALTSTACK] ;;
  if_else (ops [OP_NIP]) (ops [OP_DROP]) ;;
  ops [OP_TOALTSTACK; OP_FROMALTSTACK; OP_FROMALTSTACK; OP_ROT; OP_CAT] ;; data [PermNode_as_u8 PermLeaf] ;;
  ops [OP_SWAP; OP_CAT; OP_SHA256; OP_SWAP; OP_TOALTSTACK].
Definition p_merkle_step : prog :=
  ops [OP_SWAP] ;; if_else Done (ops [OP_SWAP]) ;; ops [OP_CAT] ;; data [PermNode_as_u8 PermBranch] ;; ops [OP_SWAP; OP_CAT; OP_SHA256].
Definition p_merkle_steps (depth : nat) : prog := seq_prog (replicate depth p_merkle_step).
Definition p_verify_old_root_tail : prog :=
  ops [OP_FROMALTSTACK; OP_FROMALTSTACK; OP_FROMALTSTACK; OP_FROMALTSTACK] ;; num 4 ;;
  ops [OP_ROLL; OP_EQUALVERIFY; OP_ROT; OP_SWAP; OP_TOALTSTACK; OP_SWAP; OP_TOALTSTACK].
Definition p_compute_new_unclaimed : prog :=
  ops [OP_FROMALTSTACK; OP_FROMALTSTACK; OP_FROMALTSTACK; OP_ROT] ;; if_else (num 1 ;; ops [OP_SUB]) Done ;;
  num 8 ;; ops [OP_NUM2BIN; OP_ROT; OP_SWAP].
Definition p_hash_redeem_to_spk : prog :=
  ops [OP_BLAKE2B] ;; data [Byte.x00; Byte.x00; OP_BLAKE2B; Byte.x20] ;; ops [OP_SWAP; OP_CAT] ;; data [OP_EQUAL] ;; ops [OP_CAT].

Definition p_payout : prog :=
  ops [OP_FALSE; OP_TXOUTPUTAMOUNT] ;; num 3 ;; ops [OP_PICK; OP_GREATERTHANOREQUAL; OP_VERIFY; OP_TXOUTPUTCOUNT] ;;
  num MAX_OUTPUTS ;; ops [OP_GREATERTHAN] ;; num 0 ;; ops [OP_EQUALVERIFY; OP_DUP] ;; data (vec_to_list (le_split 8 0)) ;; ops [OP_EQUAL].
Definition p_all_claimed : prog :=
  ops [OP_DROP; OP_DROP; OP_TXINPUTINDEX; OP_INPUTCOVENANTID; OP_COVOUTCOUNT] ;; num 0 ;;
  ops [OP_EQUALVERIFY; OP_FALSE; OP_TXOUTPUTAMOUNT; OP_OVER; OP_TXINPUTINDEX; OP_TXINPUTAMOUNT; OP_ADD; OP_GREATERTHANOREQUAL; OP_VERIFY].
(** The bytes of the continuation's redeem script. *)
Definition p_new_prefix : prog :=
  num 8 ;; ops [OP_SWAP; OP_CAT; OP_SWAP] ;; data [Byte.x20] ;; ops [OP_SWAP; OP_CAT; OP_SWAP; OP_CAT] ;;
  ops [OP_TXINPUTINDEX; OP_TXINPUTINDEX; OP_TXINPUTSCRIPTSIGLEN].
Definition p_new_body : prog := ops [OP_ADD; OP_TXINPUTINDEX; OP_TXINPUTSCRIPTSIGLEN; OP_TXINPUTSCRIPTSIGSUBSTR; OP_CAT].
Definition p_new_redeem (redeem_script_len : Z) : prog :=
  p_new_prefix ;; num (- redeem_script_len + Z.of_nat PREFIX_LEN) ;; p_new_body.
Definition p_continuation : prog :=
  num 1 ;; ops [OP_TXOUTPUTSPK; OP_EQUALVERIFY; OP_TXINPUTINDEX; OP_INPUTCOVENANTID; OP_DUP; OP_COVOUTCOUNT; OP_DUP] ;; num 1 ;;
  ops [OP_EQUALVERIFY; OP_1SUB; OP_COVOUTPUTIDX] ;; num 1 ;; ops [OP_EQUALVERIFY; OP_TXINPUTINDEX; OP_TXINPUTAMOUNT] ;; num 1 ;;
  ops [OP_TXOUTPUTAMOUNT; OP_NUMEQUALVERIFY].
Definition p_verify_outputs (redeem_script_len : Z) : prog :=
  p_payout ;; if_else p_all_claimed (p_new_redeem redeem_script_len ;; p_hash_redeem_to_spk ;; p_continuation).

Definition p_delegate_spk : prog :=
  ops [OP_TXINPUTINDEX; OP_INPUTCOVENANTID] ;; data DELEGATE_SCRIPT_PREFIX ;; ops [OP_SWAP; OP_CAT] ;; data DELEGATE_SCRIPT_SUFFIX ;;
  ops [OP_CAT] ;; p_hash_redeem_to_spk ;; ops [OP_TOALTSTACK].
Definition p_delegate_input (i : Z) : prog :=
  ops [OP_TXINPUTCOUNT] ;; num (i + 1) ;; ops [OP_GREATERTHANOREQUAL] ;;
  if_ (num i ;; ops [OP_TXINPUTSPK; OP_FROMALTSTACK; OP_DUP; OP_TOALTSTACK; OP_EQUAL] ;;
       if_ (num i ;; ops [OP_TXINPUTAMOUNT; OP_ADD])).
Definition p_delegate_guard : prog :=
  let n := Z.of_nat MAX_DELEGATE_INPUTS in
  ops [OP_TXINPUTCOUNT] ;; num (n + 2) ;; ops [OP_GREATERTHANOREQUAL] ;;
  if_ (num (n + 1) ;; ops [OP_TXINPUTSPK; OP_FROMALTSTACK; OP_DUP; OP_TOALTSTACK; OP_EQUAL; OP_FALSE; OP_EQUALVERIFY]).
Definition p_delegate_change : prog :=
  ops [OP_SWAP; OP_SUB; OP_DUP] ;; num 0 ;; ops [OP_GREATERTHANOREQUAL; OP_VERIFY; OP_TXINPUTINDEX; OP_INPUTCOVENANTID; OP_COVOUTCOUNT] ;;
  num 1 ;; ops [OP_ADD; OP_OVER] ;; num 0 ;; ops [OP_GREATERTHAN] ;;
  if_else (ops [OP_DUP; OP_TXOUTPUTSPK; OP_FROMALTSTACK; OP_EQUALVERIFY; OP_TXOUTPUTAMOUNT; OP_EQUALVERIFY])
          (ops [OP_DROP; OP_DROP; OP_FROMALTSTACK; OP_DROP]).
Definition p_input_count : prog :=
  ops [OP_TXINPUTCOUNT] ;; num (Z.of_nat MAX_DELEGATE_INPUTS + 2) ;; ops [OP_GREATERTHAN] ;; num 0 ;; ops [OP_EQUALVERIFY].
Definition p_verify_delegate_balance : prog :=
  p_input_count ;; p_delegate_spk ;; num 0 ;; seq_prog (p_delegate_input <$> seqZ 1 (Z.of_nat MAX_DELEGATE_INPUTS)) ;;
  p_delegate_guard ;; p_delegate_change.
Definition p_trailer : prog := ops [OP_TRUE; OP_TRUE; OP_DROP].

Definition p_redeem (root : array 32) (unclaimed_count : Z) (depth : nat) (redeem_script_len : Z) : prog :=
  p_prefix root unclaimed_count ;; p_stash ;; p_validate_amounts ;; p_verify_withdrawal ;; p_compute_leaf_hashes ;;
  p_merkle_steps depth ;; p_verify_old_root_tail ;; p_merkle_steps depth ;; p_compute_new_unclaimed ;;
  p_verify_outputs redeem_script_len ;; p_verify_delegate_balance ;; p_trailer.
End programs.

Lemma assemble_num z : assemble (num z) = push_i64 z.
Proof. unfold num, push_i64, push_data. repeat (case_match; [done|]). cbn. by rewrite app_nil_r. Qed.

Lemma assemble_steps depth : assemble (p_merkle_steps depth) = emit_merkle_steps depth.
Proof.
  unfold p_merkle_steps, emit_merkle_steps. induction depth as [|d IH]; [done|]. cbn [replicate seq_prog foldr concat].
  rewrite assemble_papp. f_equal. exact IH.
Qed.

Lemma assemble_prefix root count : assemble (p_prefix root count) = emit_prefix root count.
Proof. unfold p_prefix, data. cbn [papp assemble]. rewrite !length_vec_to_list, app_nil_r. done. Qed.

Lemma assemble_verify_outputs len : assemble (p_verify_outputs len) = emit_verify_outputs len.
Proof.
  unfold p_verify_outputs, emit_verify_outputs, if_else. rewrite assemble_papp. cbn [assemble].
  unfold p_new_redeem. rewrite !assemble_papp, !assemble_num. cbn [app]. rewrite <- !app_assoc. reflexivity.
Qed.

(** The bytes of the program are those of the emitters. *)
Lemma assemble_redeem root count depth len : assemble (p_redeem root count depth len) = build_permission_redeem_bytes root count depth len.
Proof.
  unfold p_redeem, build_permission_redeem_bytes, emit_verify_old_root, emit_compute_new_root.
  rewrite !assemble_papp, !assemble_steps, assemble_prefix, assemble_verify_outputs, <- !app_assoc. reflexivity.
Qed.

Lemma script_num_bound l z : script_num l = Some z -> (Z.abs z < 2 ^ 63)%Z.
Proof.
  induction l as [|b l _] using rev_ind; [by intros [= <-]|]. intros Hz.
  assert (length l <= 7).
  { unfold script_num in Hz. destruct (Nat.ltb_spec 8 (length (l ++ [b]))) as [|Hl]; [done|]. rewrite length_app in Hl. cbn in Hl. lia. }
  rewrite script_num_snoc in Hz by done. injection Hz as <-.
  pose proof (le_combine_bound l) as Hb. pose proof (byte.unsigned_range b).
  assert (256 ^ Z.of_nat (length l) <= 256 ^ 7)%Z by (apply Z.pow_le_mono_r; lia). pose proof (Z.pow_pos_nonneg 256 (Z.of_nat (length l))).
  change (2 ^ 63)%Z with (128 * 256 ^ 7)%Z. destruct (Z.leb_spec 128 (byte.unsigned b)); nia.
Qed.

Lemma num_bytes_eq a b : (Z.abs a < 2 ^ 63)%Z -> (Z.abs b < 2 ^ 63)%Z -> bool_decide (num_bytes a = num_bytes b) = (a =? b)%Z.
Proof.
  intros Ha Hb. destruct (Z.eqb_spec a b) as [->|Hne]; [by apply bool_decide_true|]. apply bool_decide_false.
  intros ?%num_bytes_inj; done.
Qed.

(** Whatever the instance that decides it. *)
Lemma num_bytes_nil a (dec : Decision (num_bytes a = [])) : (Z.abs a < 2 ^ 63)%Z -> bool_decide (num_bytes a = []) = (a =? 0)%Z.
Proof.
  intros Ha. destruct (Z.eqb_spec a 0) as [->|Hne]; [by apply bool_decide_true|]. apply bool_decide_false.
  intros ?%(num_bytes_inj a 0); lia.
Qed.
Lemma num_bytes_one a (dec : Decision (num_bytes a = [Byte.x01])) :
  (Z.abs a < 2 ^ 63)%Z -> bool_decide (num_bytes a = [Byte.x01]) = (a =? 1)%Z.
Proof.
  intros Ha. destruct (Z.eqb_spec a 1) as [->|Hne]; [by apply bool_decide_true|]. apply bool_decide_false.
  intros ?%(num_bytes_inj a 1); lia.
Qed.

(** ** What the script checks *)

Definition require (b : bool) : option unit := if b then Some tt else None.

(** The script public key of a redeem script, with its version in front. *)
Definition p2sh_spk `{Blake2b} (redeem : bytes) : bytes :=
  [Byte.x00; Byte.x00; OP_BLAKE2B; Byte.x20] ++ vec_to_list (blake2b_script_hash redeem) ++ [OP_EQUAL].

Section meaning.
Context (sha256 : bytes -> array 32) `{Blake2b} (tv : TxView) (input : TxIn).

(** A Merkle path on the stack: per level a direction and a sibling, from the leaf up. *)
Fixpoint walk (depth : nat) (st : list bytes) (cur : array 32) : option (array 32 * list bytes) :=
  match depth, st with
  | O, _ => Some (cur, st)
  | S depth, dir :: sib :: st =>
      right ← if_cond dir;
      pair ← (if right : bool then cat sib (vec_to_list cur) else cat (vec_to_list cur) sib);
      tagged ← cat [PermNode_as_u8 PermBranch] pair;
      walk depth st (sha256 tagged)
  | _, _ => None
  end.

(** The outputs: the payout of [d], and the continuation unless all exits are claimed. *)
Definition outputs_ok (payout : TxOut) (d : Z) (new_root : array 32) (count : Z) (redeem_script_len : Z) : option unit :=
  _ ← require ((d <=? to_amount payout)%Z && (length (tv_outputs tv) <=? 4));
  c ← in_covenant input;
  let bound := covenant_outputs tv (vec_to_list c) in
  if (count =? 0)%Z then
    require (bool_decide (bound = []) && (d + in_amount input <? 2 ^ 63)%Z && (d + in_amount input <=? to_amount payout)%Z)
  else
    let siglen := Z.of_nat (length (in_sig input)) in
    let start := (siglen - redeem_script_len + Z.of_nat PREFIX_LEN)%Z in
    _ ← require (0 <=? start)%Z;
    body ← substr (in_sig input) (Z.to_nat start) (length (in_sig input));
    redeem ← cat (emit_prefix new_root count) body;
    next ← tv_outputs tv !! 1;
    require (bool_decide (p2sh_spk redeem = to_spk next) && bool_decide (bound = [1]) && (in_amount input =? to_amount next)%Z).

(** The value of the delegate inputs among the inputs 1 to 8. *)
Definition add_delegate (delegate : bytes) (acc : option Z) (i : nat) : option Z :=
  match tv_inputs tv !! i with
  | Some other =>
      if bool_decide (in_spk other = delegate) then acc ← acc; if (acc + in_amount other <? 2 ^ 63)%Z then Some (acc + in_amount other)%Z else None
      else acc
  | None => acc
  end.

Definition balance_ok (d : Z) : option unit :=
  _ ← require (length (tv_inputs tv) <=? MAX_DELEGATE_INPUTS + 2);
  c ← in_covenant input;
  let delegate := p2sh_spk (build_delegate_entry_script c) in
  total ← foldl (add_delegate delegate) (Some 0%Z) (seq 1 MAX_DELEGATE_INPUTS);
  _ ← require (negb (bool_decide (in_spk <$> tv_inputs tv !! (MAX_DELEGATE_INPUTS + 1) = Some delegate)) && (d <=? total)%Z);
  if (total =? d)%Z then Some tt
  else
    change ← tv_outputs tv !! (1 + length (covenant_outputs tv (vec_to_list c)));
    require (bool_decide (to_spk change = delegate) && (to_amount change =? total - d)%Z).

(** A withdrawal read off the stack: what is deducted, the amount and the script of a leaf, the
    path from that leaf to the committed root, and a path for the new root. *)
Definition permission_spend (root : array 32) (count : Z) (depth : nat) (redeem_script_len : Z) (st : list bytes) : option unit :=
  match st with
  | deduct :: amount :: spk :: st =>
      d ← script_num deduct;
      a ← script_num amount;
      _ ← require ((0 <? d)%Z && (d <=? a)%Z);
      payout ← tv_outputs tv !! 0;
      versioned ← cat [Byte.x00; Byte.x00] spk;
      _ ← require (bool_decide (versioned = to_spk payout));
      let left := (a - d)%Z in
      old ← cat spk amount;
      old ← cat [PermNode_as_u8 PermLeaf] old;
      new ← cat spk (vec_to_list (le_split 8 left));
      new ← cat [PermNode_as_u8 PermLeaf] new;
      '(old_root, st) ← walk depth st (sha256 old);
      _ ← require (bool_decide (root = old_root));
      '(new_root, st) ← walk depth st (if (left =? 0)%Z then sha256 [PermNode_as_u8 PermEmpty] else sha256 new);
      _ ← outputs_ok payout d new_root (if (left =? 0)%Z then count - 1 else count)%Z redeem_script_len;
      _ ← balance_ok d;
      require (bool_decide (st = []))
  | _ => None
  end.
End meaning.

#[local] Arguments script_num : simpl never.
#[local] Arguments idx_of : simpl never.
#[local] Arguments cat : simpl never.
#[local] Arguments num_push : simpl never.
#[local] Arguments num_bytes : simpl never.
#[local] Arguments truthy : simpl never.
#[local] Arguments bool_bytes : simpl never.
#[local] Arguments if_cond : simpl never.
#[local] Arguments num2bin : simpl never.
#[local] Arguments substr : simpl never.
#[local] Arguments covenant_outputs : simpl never.

Lemma truthy_bool b : truthy (bool_bytes b) = b.
Proof. by destruct b. Qed.
Lemma if_cond_bool b : if_cond (bool_bytes b) = Some b.
Proof. by destruct b. Qed.
Lemma script_num_nil : script_num [] = Some 0%Z.
Proof. done. Qed.

Section steps.
Context (sha256 : bytes -> array 32) `{Blake2b} (tv : TxView).

Lemma sem_op o k s r : op_effect sha256 tv o s = r -> sem sha256 tv (Op o k) s = r ≫= sem sha256 tv k.
Proof. by intros <-. Qed.
Lemma sem_data d k st alt : sem sha256 tv (Data d k) (st, alt) = sem sha256 tv k (d :: st, alt).
Proof. done. Qed.
Lemma sem_if_ a k c st alt :
  sem sha256 tv (If a k) (c :: st, alt) =
  (t ← if_cond c; s ← (if t : bool then sem sha256 tv a (st, alt) else Some (st, alt)); sem sha256 tv k s).
Proof. done. Qed.
Lemma sem_if_else_ a b k c st alt :
  sem sha256 tv (IfElse a b k) (c :: st, alt) =
  (t ← if_cond c; s ← (if t : bool then sem sha256 tv a (st, alt) else sem sha256 tv b (st, alt)); sem sha256 tv k s).
Proof. done. Qed.
Lemma bind_some {A B} (f : A -> option B) x : Some x ≫= f = f x.
Proof. done. Qed.
Lemma bind_none {A B} (f : A -> option B) : None ≫= f = None.
Proof. done. Qed.
Lemma sem_done s : sem sha256 tv Done s = Some s.
Proof. done. Qed.
End steps.

(** A program in normal form. *)
Ltac flat p := let q := eval lazy in p in change p with q.

(** One step of a program. *)
Ltac sem_step :=
  match goal with
  | |- context [sem ?h ?tv (Op ?o ?k) (?st, ?alt)] =>
      let d := eval vm_compute in (small_int o) in
      lazymatch d with
      | Some ?d => rewrite (sem_op h tv o k (st, alt) (Some (d :: st, alt)) (@eq_refl _ (Some (d :: st, alt))))
      | None =>
          let r := eval cbv beta iota delta [core_effect] in (core_effect h tv o (st, alt)) in
          rewrite (sem_op h tv o k (st, alt) r (@eq_refl _ r))
      end
  | |- context [sem ?h ?tv (Data ?d ?k) (?st, ?alt)] => rewrite (sem_data h tv d k st alt)
  | |- context [sem ?h ?tv (If ?a ?k) (?c :: ?st, ?alt)] => rewrite (sem_if_ h tv a k c st alt)
  | |- context [sem ?h ?tv (IfElse ?a ?b ?k) (?c :: ?st, ?alt)] => rewrite (sem_if_else_ h tv a b k c st alt)
  | |- context [sem ?h ?tv Done ?s] => rewrite (sem_done h tv s)
  end.
(** Closed numbers and conditions. *)
Ltac num_step :=
  match goal with
  | |- context [if true then ?x else ?y] => change (if true then x else y) with x
  | |- context [if false then ?x else ?y] => change (if false then x else y) with y
  | |- context [idx_of [?b]] => let r := eval vm_compute in (idx_of [b]) in change (idx_of [b]) with r
  | |- context [idx_of []] => change (idx_of []) with (Some 0)
  | |- context [script_num [?b]] => let r := eval vm_compute in (script_num [b]) in change (script_num [b]) with r
  | |- context [(?x :: ?l) !! ?n] =>
      let r := eval cbn in ((x :: l) !! n) in
      lazymatch r with Some _ => rewrite (@eq_refl _ r : (x :: l) !! n = r) | None => rewrite (@eq_refl _ r : (x :: l) !! n = r) end
  | |- context [delete ?n (?x :: ?l)] =>
      let r := eval cbn in (delete n (x :: l)) in rewrite (@eq_refl _ r : delete n (x :: l) = r)
  end.
Ltac ops := repeat first [progress rewrite ?bind_some, ?bind_none, ?truthy_bool, ?if_cond_bool, ?script_num_nil | num_step | sem_step].

(** Case analysis on what a step waits for. *)
Ltac sem_case :=
  match goal with
  | |- context [mbind _ (script_num ?x)] => destruct (script_num x) eqn:?
  | |- context [mbind _ (cat ?x ?y)] => destruct (cat x y) eqn:?
  | |- context [mbind _ (?l !! ?i)] => destruct (l !! i) eqn:?
  | |- context [mbind _ (if_cond ?x)] => destruct (if_cond x) as [[]|] eqn:?
  | |- context [if bool_decide ?P then _ else _] => case_bool_decide
  | |- context [if ?b then _ else _] => destruct b eqn:?
  end.

Section phases.
Context (sha256 : bytes -> array 32) `{Blake2b} (tv : TxView).

Lemma sem_merkle_step cur dir sib st alt :
  sem sha256 tv p_merkle_step (cur :: dir :: sib :: st, alt) =
  (right ← if_cond dir; pair ← (if right : bool then cat sib cur else cat cur sib);
   tagged ← cat [PermNode_as_u8 PermBranch] pair; Some (vec_to_list (sha256 tagged) :: st, alt)).
Proof. flat p_merkle_step. change [PermNode_as_u8 PermBranch] with [Byte.x01]. ops. repeat (sem_case; ops); (done || congruence). Qed.

Lemma sem_merkle_steps depth st cur alt :
  sem sha256 tv (p_merkle_steps depth) (vec_to_list cur :: st, alt) =
  ('(root, st) ← walk sha256 depth st cur; Some (vec_to_list root :: st, alt)).
Proof.
  revert st cur. induction depth as [|depth IH]; intros st cur; [done|]. unfold p_merkle_steps. cbn [replicate seq_prog foldr walk].
  rewrite sem_papp. destruct st as [|dir [|sib st]].
  - flat p_merkle_step. by ops.
  - flat p_merkle_step. ops. repeat (sem_case; ops); (done || congruence).
  - rewrite sem_merkle_step. destruct (if_cond dir) as [right|]; [|done]. rewrite !bind_some.
    destruct (if right then _ else _) as [pair|]; [|done]. rewrite !bind_some. destruct (cat _ pair) as [tagged|]; [|done].
    rewrite !bind_some. apply IH.
Qed.

Lemma sem_validate deduct amount st alt :
  sem sha256 tv p_validate_amounts (deduct :: amount :: st, alt) =
  (d ← script_num deduct; a ← script_num amount; _ ← require ((0 <? d)%Z && (d <=? a)%Z);
   Some (num_bytes (a - d) :: amount :: st, deduct :: alt)).
Proof.
  flat p_validate_amounts. ops. destruct (script_num deduct) as [d|] eqn:Ed; ops; [|done]. destruct (Z.ltb_spec 0 d); ops; [|by destruct (script_num amount)].
  rewrite Ed. destruct (script_num amount) as [a|] eqn:Ea; ops; [|done]. apply script_num_bound in Ed, Ea.
  destruct (num_push (a - d)) as [r|] eqn:Er; ops.
  - apply num_push_Some in Er as [Hr ->]. rewrite script_num_num_bytes by done. ops.
    replace (0 <=? a - d)%Z with (d <=? a)%Z by (apply eq_true_iff_eq; rewrite !Z.leb_le; lia). by destruct (d <=? a)%Z.
  - unfold num_push in Er. destruct (Z.ltb_spec (Z.abs (a - d)) (2 ^ 63)); [done|]. by rewrite (proj2 (Z.leb_gt _ _)) by lia.
Qed.

Lemma sem_withdrawal left amount spk st alt :
  sem sha256 tv p_verify_withdrawal (left :: amount :: spk :: st, alt) =
  (payout ← tv_outputs tv !! 0; versioned ← cat [Byte.x00; Byte.x00] spk; _ ← require (bool_decide (versioned = to_spk payout));
   Some (left :: amount :: spk :: st, alt)).
Proof.
  flat p_verify_withdrawal. ops. unfold require. destruct (cat _ spk); ops; [|by destruct (tv_outputs tv !! 0)].
  destruct (tv_outputs tv !! 0); ops; [|done]. case_bool_decide; ops; done.
Qed.

Lemma sem_leaf_hashes left amount spk st alt :
  (0 <= left < 2 ^ 63)%Z ->
  sem sha256 tv p_compute_leaf_hashes (num_bytes left :: amount :: spk :: st, alt) =
  (old ← cat spk amount; old ← cat [PermNode_as_u8 PermLeaf] old;
   new ← cat spk (vec_to_list (le_split 8 left)); new ← cat [PermNode_as_u8 PermLeaf] new;
   Some (vec_to_list (sha256 old) :: st,
         vec_to_list (if (left =? 0)%Z then sha256 [PermNode_as_u8 PermEmpty] else sha256 new) :: bool_bytes (left =? 0)%Z :: alt)).
Proof.
  intros Hl. flat p_compute_leaf_hashes. change [PermNode_as_u8 PermLeaf] with [Byte.x00]. change [PermNode_as_u8 PermEmpty] with [Byte.x02].
  ops. rewrite num_bytes_nil by lia.
  rewrite script_num_num_bytes by lia. ops. rewrite num2bin_8 by lia. ops.
  destruct (cat spk (vec_to_list _)) as [new|] eqn:?; ops; [|repeat (sem_case; ops); (done || congruence)].
  destruct (cat [Byte.x00] new) eqn:?; ops; [|repeat (sem_case; ops); (done || congruence)].
  destruct (left =? 0)%Z; ops; repeat (sem_case; ops); (done || congruence).
Qed.

Lemma sem_old_root_tail r st nl z deduct root count alt :
  sem sha256 tv p_verify_old_root_tail (r :: st, nl :: z :: deduct :: root :: count :: alt) =
  (_ ← require (bool_decide (root = r)); Some (nl :: st, z :: deduct :: count :: alt)).
Proof. flat p_verify_old_root_tail. ops. unfold require. case_bool_decide; ops; done. Qed.

Lemma sem_new_unclaimed new_root st z deduct count alt :
  (1 <= count < 2 ^ 63)%Z ->
  sem sha256 tv p_compute_new_unclaimed (new_root :: st, bool_bytes z :: deduct :: vec_to_list (le_split 8 count) :: alt) =
  Some (vec_to_list (le_split 8 (if z : bool then count - 1 else count)) :: new_root :: deduct :: st, alt).
Proof.
  intros Hc. flat p_compute_new_unclaimed. ops. rewrite (script_num_le 8) by (cbn; lia). destruct z; ops.
  - rewrite num_push_run by lia. ops. rewrite script_num_num_bytes by lia. ops. rewrite num2bin_8 by lia. by ops.
  - rewrite (script_num_le 8) by (cbn; lia). ops. rewrite num2bin_8 by lia. by ops.
Qed.
End phases.

(** ** The phases that look at the transaction *)

(** Counts, amounts and scripts of a real transaction are far below the limits of numbers. *)
Record wf_view (tv : TxView) : Prop := {
  wv_inputs : (Z.of_nat (length (tv_inputs tv)) < 2 ^ 31)%Z;
  wv_outputs : (Z.of_nat (length (tv_outputs tv)) < 2 ^ 31)%Z;
  wv_input i input : tv_inputs tv !! i = Some input ->
    (0 <= in_amount input < 2 ^ 63)%Z /\ (Z.of_nat (length (in_sig input)) < 2 ^ 31)%Z;
  wv_output i out : tv_outputs tv !! i = Some out -> (0 <= to_amount out < 2 ^ 63)%Z
}.

Lemma cat_run a b : (Z.of_nat (length (a ++ b)) <= MAX_ELEMENT)%Z -> cat a b = Some (a ++ b).
Proof. intros Hl. unfold cat. by rewrite (proj2 (Z.leb_le _ _)). Qed.

Lemma covenant_outputs_length tv id : length (covenant_outputs tv id) <= length (tv_outputs tv).
Proof. unfold covenant_outputs. etrans; [apply length_filter|]. by rewrite length_seq. Qed.

(** The opcodes of the numbers 1 to 16. *)
Lemma small_push z : (1 <= z <= 16)%Z -> small_int (byte.of_Z (80 + z)) = Some (num_bytes z).
Proof.
  intros Hz.
  assert (z = 1 \/ z = 2 \/ z = 3 \/ z = 4 \/ z = 5 \/ z = 6 \/ z = 7 \/ z = 8 \/ z = 9 \/ z = 10 \/ z = 11 \/ z = 12 \/ z = 13 \/
    z = 14 \/ z = 15 \/ z = 16)%Z as Hcases by lia.
  repeat (destruct Hcases as [->|Hcases]; [reflexivity|]). by subst z.
Qed.

Lemma sem_num sha256 `{Blake2b} tv z st alt : (Z.abs z < 2 ^ 63)%Z -> sem sha256 tv (num z) (st, alt) = Some (num_bytes z :: st, alt).
Proof.
  intros Hz. unfold num. destruct (Z.eqb_spec z 0) as [->|]; [done|]. destruct (Z.eqb_spec z (-1)) as [->|]; [done|].
  destruct (Z.leb_spec 1 z); [|done]. destruct (Z.leb_spec z 16); [|done]. cbn [andb sem]. unfold op_effect. by rewrite small_push.
Qed.

Section transaction_phases.
Context (sha256 : bytes -> array 32) `{Blake2b} (tv : TxView) (input : TxIn).
Context (Hview : wf_view tv) (Hin : tv_inputs tv !! tv_index tv = Some input).

Lemma index_num : idx_of (num_bytes (Z.of_nat (tv_index tv))) = Some (tv_index tv).
Proof using Hview Hin. apply idx_of_num. apply lookup_lt_Some in Hin. pose proof (wv_inputs _ Hview). lia. Qed.

Lemma sem_hash_redeem redeem st alt : sem sha256 tv p_hash_redeem_to_spk (redeem :: st, alt) = Some (p2sh_spk redeem :: st, alt).
Proof.
  flat p_hash_redeem_to_spk. ops. rewrite cat_run by (rewrite length_app, length_vec_to_list; cbn; unfold MAX_ELEMENT; lia). ops.
  rewrite cat_run by (rewrite !length_app, length_vec_to_list; cbn; unfold MAX_ELEMENT; lia). ops. by rewrite <- app_assoc.
Qed.

Lemma sem_payout c8 nr deduct d st alt :
  script_num deduct = Some d ->
  sem sha256 tv p_payout (c8 :: nr :: deduct :: st, alt) =
  (payout ← tv_outputs tv !! 0; _ ← require ((d <=? to_amount payout)%Z && (length (tv_outputs tv) <=? 4));
   Some (bool_bytes (bool_decide (c8 = vec_to_list (le_split 8 0))) :: c8 :: nr :: deduct :: st, alt)).
Proof using Hview.
  intros Hd. flat p_payout. ops. destruct (tv_outputs tv !! 0) as [payout|] eqn:Ho; ops; [|done].
  rewrite num_push_run by (apply (wv_output _ Hview) in Ho; lia). ops. rewrite script_num_num_bytes, Hd by (apply (wv_output _ Hview) in Ho; lia). ops.
  unfold require. destruct (d <=? to_amount payout)%Z; ops; [|done]. pose proof (wv_outputs _ Hview). rewrite script_num_num_bytes by lia. ops.
  destruct (Nat.leb_spec (length (tv_outputs tv)) 4); [rewrite (proj2 (Z.ltb_ge _ _)) by lia|rewrite (proj2 (Z.ltb_lt _ _)) by lia]; ops; done.
Qed.

Lemma sem_all_claimed c8 nr deduct d st alt :
  script_num deduct = Some d -> (0 < d)%Z ->
  sem sha256 tv p_all_claimed (c8 :: nr :: deduct :: st, alt) =
  (c ← in_covenant input; payout ← tv_outputs tv !! 0;
   _ ← require (bool_decide (covenant_outputs tv (vec_to_list c) = []) && (d + in_amount input <? 2 ^ 63)%Z &&
                (d + in_amount input <=? to_amount payout)%Z);
   Some (deduct :: st, alt)).
Proof using Hview Hin.
  intros Hd Hpos. flat p_all_claimed. ops. rewrite index_num. ops. rewrite Hin. ops. destruct (in_covenant input) as [c|]; ops; [|done].
  pose proof (covenant_outputs_length tv (vec_to_list c)) as Hlen. pose proof (wv_outputs _ Hview). rewrite num_bytes_nil by lia.
  destruct (wv_input _ Hview _ _ Hin) as [Ha _]. unfold require.
  destruct (covenant_outputs tv (vec_to_list c)) as [|o os]; ops; [|by destruct (tv_outputs tv !! 0)]. change (Z.of_nat (length []) =? 0)%Z with true.
  rewrite bool_decide_true by done. ops. destruct (tv_outputs tv !! 0) as [payout|] eqn:Ho; ops; [|done].
  pose proof (wv_output _ Hview _ _ Ho). rewrite num_push_run by lia. ops. rewrite index_num. ops. rewrite Hin. ops.
  rewrite num_push_run by lia. ops. rewrite Hd, script_num_num_bytes by lia. ops. cbn [andb].
  destruct (Z.ltb_spec (d + in_amount input) (2 ^ 63)).
  - rewrite num_push_run by lia. ops. rewrite !script_num_num_bytes by lia. ops. cbn [andb]. by destruct (_ <=? _)%Z; ops.
  - unfold num_push. by rewrite (proj2 (Z.ltb_ge _ _)) by lia.
Qed.

Definition sig_start (redeem_script_len : Z) : Z := (Z.of_nat (length (in_sig input)) - redeem_script_len + Z.of_nat PREFIX_LEN)%Z.

Lemma sem_new_redeem (nr : array 32) count deduct st alt len :
  (0 <= len < 2 ^ 31)%Z ->
  sem sha256 tv (p_new_redeem len) (vec_to_list (le_split 8 count) :: vec_to_list nr :: deduct :: st, alt) =
  (_ ← require (0 <=? sig_start len)%Z;
   body ← substr (in_sig input) (Z.to_nat (sig_start len)) (length (in_sig input));
   redeem ← cat (emit_prefix nr count) body;
   Some (redeem :: deduct :: st, alt)).
Proof using Hview Hin.
  intros Hlen. unfold p_new_redeem. rewrite sem_papp. flat p_new_prefix. ops.
  rewrite cat_run by (rewrite length_app, length_vec_to_list; cbn; unfold MAX_ELEMENT; lia). ops.
  rewrite cat_run by (rewrite length_app, length_vec_to_list; cbn; unfold MAX_ELEMENT; lia). ops.
  rewrite cat_run by (rewrite !length_app, !length_vec_to_list; cbn; unfold MAX_ELEMENT; lia). ops.
  rewrite index_num. ops. rewrite Hin. ops. rewrite sem_papp, sem_num by (unfold PREFIX_LEN; lia). ops.
  destruct (wv_input _ Hview _ _ Hin) as [_ Hsig]. flat p_new_body. ops. rewrite !script_num_num_bytes by (unfold PREFIX_LEN; lia). ops.
  rewrite num_push_run by (unfold PREFIX_LEN; lia). ops. rewrite index_num. ops. rewrite Hin. ops. rewrite index_num. ops.
  rewrite (idx_of_num (length (in_sig input))) by lia. unfold idx_of. rewrite script_num_num_bytes by (unfold PREFIX_LEN; lia). ops.
  replace (Z.of_nat (length (in_sig input)) + (- len + Z.of_nat PREFIX_LEN))%Z with (sig_start len) by (unfold sig_start; lia).
  unfold require. destruct (Z.leb_spec 0 (sig_start len)); [rewrite (proj2 (Z.ltb_ge (sig_start len) 0)) by lia|rewrite (proj2 (Z.ltb_lt (sig_start len) 0)) by lia; by ops].
  ops. rewrite Hin. ops. unfold emit_prefix. rewrite <- !app_assoc.
  destruct (substr _ _ _); ops; [|done]. by destruct (cat _ _); ops.
Qed.

Lemma sem_continuation spk deduct st alt :
  sem sha256 tv p_continuation (spk :: deduct :: st, alt) =
  (next ← tv_outputs tv !! 1; c ← in_covenant input;
   _ ← require (bool_decide (spk = to_spk next) && bool_decide (covenant_outputs tv (vec_to_list c) = [1]) &&
                (in_amount input =? to_amount next)%Z);
   Some (deduct :: st, alt)).
Proof using Hview Hin.
  flat p_continuation. ops. destruct (tv_outputs tv !! 1) as [next|] eqn:Ho; ops; [|done]. unfold require.
  case_bool_decide; ops; cbn [andb]; [|by destruct (in_covenant input)]. rewrite index_num. ops. rewrite Hin. ops.
  destruct (in_covenant input) as [c|]; ops; [|done].
  pose proof (covenant_outputs_length tv (vec_to_list c)) as Hlen. pose proof (wv_outputs _ Hview). rewrite num_bytes_one by lia.
  destruct (covenant_outputs tv (vec_to_list c)) as [|o [|? ?]] eqn:Hc; [by ops| |].
  2:{ rewrite (proj2 (Z.eqb_neq (Z.of_nat _) 1)) by (cbn [length]; lia). rewrite bool_decide_false by done. by ops. }
  change (Z.of_nat (length [o]) =? 1)%Z with true. ops. change (script_num (num_bytes (Z.of_nat (length [o])))) with (Some 1%Z). ops.
  change (num_push (1 - 1)) with (Some ([] : bytes)). ops. rewrite Hc. ops.
  assert (o < length (tv_outputs tv)).
  { assert (o ∈ covenant_outputs tv (vec_to_list c)) as Hel by (rewrite Hc; constructor). unfold covenant_outputs in Hel.
    apply list_elem_of_filter in Hel as [_ Hel]. apply elem_of_seq in Hel. lia. }
  rewrite num_bytes_one by lia. destruct (Z.eqb_spec (Z.of_nat o) 1) as [Ho1|Ho1]; ops.
  - rewrite bool_decide_true by (f_equal; lia). rewrite index_num. ops. rewrite Hin. ops.
    destruct (wv_input _ Hview _ _ Hin) as [Ha _]. pose proof (wv_output _ Hview _ _ Ho). rewrite num_push_run by lia. ops.
    rewrite Ho. ops. rewrite num_push_run by lia. ops. rewrite !script_num_num_bytes by lia. ops. cbn [andb]. by destruct (_ =? _)%Z; ops.
  - rewrite bool_decide_false by (intros [= ->]; done). by ops.
Qed.

Lemma count_bytes count : (0 <= count < 2 ^ 63)%Z -> bool_decide (vec_to_list (le_split 8 count) = vec_to_list (le_split 8 0)) = (count =? 0)%Z.
Proof.
  intros Hc. destruct (Z.eqb_spec count 0) as [->|Hne]; [by apply bool_decide_true|]. apply bool_decide_false. intros Heq.
  apply (f_equal script_num) in Heq. rewrite !(script_num_le 8) in Heq by (cbn; lia). congruence.
Qed.

Lemma sem_verify_outputs (nr : array 32) count deduct d payout st alt len :
  (0 <= len < 2 ^ 31)%Z -> (0 <= count < 2 ^ 63)%Z -> script_num deduct = Some d -> (0 < d)%Z ->
  tv_outputs tv !! 0 = Some payout ->
  sem sha256 tv (p_verify_outputs len) (vec_to_list (le_split 8 count) :: vec_to_list nr :: deduct :: st, alt) =
  (_ ← outputs_ok tv input payout d nr count len; Some (deduct :: st, alt)).
Proof using Hview Hin.
  intros Hlen Hcount Hd Hpos Ho. unfold p_verify_outputs, outputs_ok. rewrite sem_papp, (sem_payout _ _ _ d), Ho, !bind_some by done.
  destruct (require _); [|done]. rewrite !bind_some.
  unfold if_else. rewrite sem_if_else_, if_cond_bool, bind_some, count_bytes by done. destruct (count =? 0)%Z.
  - rewrite (sem_all_claimed _ _ _ d), Ho by done. destruct (in_covenant input) as [c|]; [|done]. rewrite !bind_some.
    by destruct (require _) as [[]|].
  - rewrite sem_papp, sem_new_redeem by done. fold (sig_start len). destruct (in_covenant input) as [c|] eqn:Hc; rewrite ?bind_some, ?bind_none.
    all: destruct (require (0 <=? sig_start len)%Z); [|done]; rewrite !bind_some; destruct (substr _ _ _); [|done]; rewrite !bind_some.
    all: destruct (cat (emit_prefix _ _) _); [|done]; rewrite !bind_some, sem_papp, sem_hash_redeem, bind_some, sem_continuation, Hc.
    all: destruct (tv_outputs tv !! 1); rewrite ?bind_some; try done. by destruct (require _).
Qed.

(** *** The delegate balance *)

Lemma sem_input_count st alt :
  sem sha256 tv p_input_count (st, alt) = (_ ← require (length (tv_inputs tv) <=? MAX_DELEGATE_INPUTS + 2); Some (st, alt)).
Proof using Hview.
  flat p_input_count. ops. pose proof (wv_inputs _ Hview). rewrite script_num_num_bytes by lia. ops. unfold require, MAX_DELEGATE_INPUTS.
  destruct (Nat.leb_spec (length (tv_inputs tv)) (8 + 2)); [rewrite (proj2 (Z.ltb_ge _ _)) by lia|rewrite (proj2 (Z.ltb_lt _ _)) by lia]; ops; done.
Qed.

Lemma sem_delegate_spk st alt :
  sem sha256 tv p_delegate_spk (st, alt) = (c ← in_covenant input; Some (st, p2sh_spk (build_delegate_entry_script c) :: alt)).
Proof using Hview Hin.
  unfold p_delegate_spk, data, OP_TXINPUTINDEX, OP_INPUTCOVENANTID, OP_SWAP, OP_CAT, OP_TOALTSTACK. cbn [papp ops foldr]. ops. rewrite index_num. ops. rewrite Hin. ops.
  destruct (in_covenant input) as [c|]; ops; [|done].
  rewrite cat_run by (rewrite length_app, length_vec_to_list; vm_compute; discriminate). ops.
  rewrite cat_run by (rewrite !length_app, length_vec_to_list; vm_compute; discriminate). ops.
  rewrite sem_papp, sem_hash_redeem. ops. by rewrite <- app_assoc.
Qed.

Lemma sem_delegate_input dl i acc st alt :
  1 <= i <= MAX_DELEGATE_INPUTS -> (0 <= acc < 2 ^ 63)%Z ->
  sem sha256 tv (p_delegate_input (Z.of_nat i)) (num_bytes acc :: st, dl :: alt) =
  (acc ← add_delegate tv dl (Some acc) i; Some (num_bytes acc :: st, dl :: alt)).
Proof using Hview.
  unfold MAX_DELEGATE_INPUTS. intros Hi Hacc. pose proof (wv_inputs _ Hview). unfold p_delegate_input.
  rewrite sem_papp. flat (ops [OP_TXINPUTCOUNT]). ops. rewrite sem_papp, sem_num by lia. ops. rewrite sem_papp.
  flat (ops [OP_GREATERTHANOREQUAL]). ops. rewrite !script_num_num_bytes by lia. ops. unfold if_. ops. unfold add_delegate.
  destruct (Z.leb_spec (Z.of_nat i + 1) (Z.of_nat (length (tv_inputs tv)))); ops.
  2:{ by rewrite lookup_ge_None_2 by lia. }
  destruct (lookup_lt_is_Some_2 (tv_inputs tv) i) as [other Ho]; [lia|]. rewrite Ho.
  rewrite sem_papp, sem_num by lia. ops. rewrite sem_papp. flat (ops [OP_TXINPUTSPK; OP_FROMALTSTACK; OP_DUP; OP_TOALTSTACK; OP_EQUAL]).
  ops. rewrite idx_of_num by lia. ops. rewrite Ho. ops. case_bool_decide; ops; [|done].
  rewrite sem_papp, sem_num by lia. ops. flat (ops [OP_TXINPUTAMOUNT; OP_ADD]). ops. rewrite idx_of_num by lia. ops. rewrite Ho. ops.
  destruct (wv_input _ Hview _ _ Ho) as [Ha _]. rewrite num_push_run by lia. ops. rewrite !script_num_num_bytes by lia. ops.
  unfold num_push. rewrite Z.abs_eq by lia. by destruct (_ <? _)%Z; ops.
Qed.

Lemma add_delegate_range dl acc i z :
  (0 <= acc < 2 ^ 63)%Z -> add_delegate tv dl (Some acc) i = Some z -> (0 <= z < 2 ^ 63)%Z.
Proof using Hview.
  intros Hacc. unfold add_delegate. destruct (tv_inputs tv !! i) as [other|] eqn:Ho; [|by intros [= <-]].
  destruct (wv_input _ Hview _ _ Ho). case_bool_decide; [|by intros [= <-]]. rewrite bind_some.
  destruct (Z.ltb_spec (acc + in_amount other) (2 ^ 63)); [intros [= <-]; lia|done].
Qed.

Lemma add_delegate_None dl l : foldl (add_delegate tv dl) None l = None.
Proof.
  induction l as [|i l IH]; [done|]. cbn [foldl]. unfold add_delegate at 2.
  destruct (tv_inputs tv !! i); [|done]. by destruct (bool_decide _).
Qed.

Lemma sem_delegate_inputs dl l acc st alt :
  Forall (fun i => 1 <= i <= MAX_DELEGATE_INPUTS) l -> (0 <= acc < 2 ^ 63)%Z ->
  sem sha256 tv (seq_prog ((fun i => p_delegate_input (Z.of_nat i)) <$> l)) (num_bytes acc :: st, dl :: alt) =
  (acc ← foldl (add_delegate tv dl) (Some acc) l; Some (num_bytes acc :: st, dl :: alt)).
Proof using Hview.
  intros Hl. revert acc. induction Hl as [|i l Hi _ IH]; intros acc Hacc; [done|].
  rewrite fmap_cons. cbn [seq_prog foldr foldl]. rewrite sem_papp, sem_delegate_input by done.
  destruct (add_delegate tv dl (Some acc) i) as [z|] eqn:Hz; [|by rewrite add_delegate_None]. rewrite !bind_some.
  by apply IH, (add_delegate_range dl acc i).
Qed.

Lemma delegate_total_range dl l acc z :
  (0 <= acc < 2 ^ 63)%Z -> foldl (add_delegate tv dl) (Some acc) l = Some z -> (0 <= z < 2 ^ 63)%Z.
Proof using Hview.
  revert acc. induction l as [|i l IH]; intros acc Hacc; [by intros [= <-]|]. cbn [foldl].
  destruct (add_delegate tv dl (Some acc) i) as [y|] eqn:Hy; [|by rewrite add_delegate_None].
  by apply IH, (add_delegate_range dl acc i).
Qed.

Lemma sem_delegate_guard dl st alt :
  sem sha256 tv p_delegate_guard (st, dl :: alt) =
  (_ ← require (negb (bool_decide (in_spk <$> tv_inputs tv !! (MAX_DELEGATE_INPUTS + 1) = Some dl))); Some (st, dl :: alt)).
Proof using Hview.
  flat p_delegate_guard. ops. pose proof (wv_inputs _ Hview). rewrite script_num_num_bytes by lia. ops. unfold require, MAX_DELEGATE_INPUTS.
  destruct (Z.leb_spec 10 (Z.of_nat (length (tv_inputs tv)))); ops.
  2:{ by rewrite lookup_ge_None_2 by lia. }
  destruct (lookup_lt_is_Some_2 (tv_inputs tv) 9) as [other Ho]; [lia|]. change (8 + 1) with 9. rewrite Ho. ops. cbn [fmap option_fmap option_map].
  destruct (decide (in_spk other = dl)) as [Heq|Hne].
  - rewrite !(bool_decide_true (in_spk other = dl)), (bool_decide_true (Some _ = _)) by (done || by f_equal). by ops.
  - rewrite !(bool_decide_false (in_spk other = dl)), (bool_decide_false (Some _ = _)) by (done || congruence). by ops.
Qed.

Lemma sem_delegate_change dl total deduct d c st alt :
  script_num deduct = Some d -> (0 < d)%Z -> (0 <= total < 2 ^ 63)%Z -> in_covenant input = Some c ->
  sem sha256 tv p_delegate_change (num_bytes total :: deduct :: st, dl :: alt) =
  (_ ← require (d <=? total)%Z;
   _ ← (if (total =? d)%Z then Some tt
        else change ← tv_outputs tv !! (1 + length (covenant_outputs tv (vec_to_list c)));
             require (bool_decide (to_spk change = dl) && (to_amount change =? total - d)%Z));
   Some (st, alt)).
Proof using Hview Hin.
  intros Hd Hpos Htotal Hc. pose proof (script_num_bound _ _ Hd) as Hdb. flat p_delegate_change. ops. rewrite Hd, script_num_num_bytes by lia. ops.
  rewrite num_push_run by lia. ops. rewrite script_num_num_bytes by lia. ops.
  replace (0 <=? total - d)%Z with (d <=? total)%Z by (apply eq_true_iff_eq; rewrite !Z.leb_le; lia).
  destruct (Z.leb_spec d total); cbn [require]; ops; [|done]. rewrite index_num. ops. rewrite Hin. ops. rewrite Hc. ops.
  pose proof (covenant_outputs_length tv (vec_to_list c)) as Hlen. pose proof (wv_outputs _ Hview). rewrite script_num_num_bytes by lia. ops.
  rewrite num_push_run by lia. ops. rewrite script_num_num_bytes by lia. ops.
  destruct (Z.eqb_spec total d) as [->|Hne]; [rewrite Z.sub_diag; by ops|]. rewrite (proj2 (Z.ltb_lt 0 _)) by lia. ops.
  replace (Z.of_nat (length (covenant_outputs tv c)) + 1)%Z with (Z.of_nat (1 + length (covenant_outputs tv c))) by lia.
  rewrite idx_of_num by lia. ops. destruct (tv_outputs tv !! _) as [change|] eqn:Ho; ops; [|done].
  pose proof (wv_output _ Hview _ _ Ho). case_bool_decide; ops; cbn [andb require]; [|done]. rewrite idx_of_num by lia. ops. rewrite Ho. ops.
  rewrite num_push_run by lia. ops. rewrite num_bytes_eq, Z.eqb_sym by lia. by destruct (_ =? _)%Z; ops.
Qed.

Lemma sem_verify_delegate_balance deduct d st alt :
  script_num deduct = Some d -> (0 < d)%Z ->
  sem sha256 tv p_verify_delegate_balance (deduct :: st, alt) = (_ ← balance_ok tv input d; Some (st, alt)).
Proof using Hview Hin.
  intros Hd Hpos. unfold p_verify_delegate_balance, balance_ok. rewrite sem_papp, sem_input_count.
  destruct (require _); [|done]. rewrite !bind_some, sem_papp, sem_delegate_spk. destruct (in_covenant input) as [c|] eqn:Hc; [|done].
  rewrite !bind_some, sem_papp, sem_num, bind_some, sem_papp by lia.
  change (p_delegate_input <$> seqZ 1 (Z.of_nat MAX_DELEGATE_INPUTS)) with ((fun i => p_delegate_input (Z.of_nat i)) <$> seq 1 MAX_DELEGATE_INPUTS).
  rewrite sem_delegate_inputs; [|by repeat (constructor; [unfold MAX_DELEGATE_INPUTS; lia|])|lia].
  destruct (foldl _ _ _) as [total|] eqn:Htotal; [|done]. apply delegate_total_range in Htotal; [|lia].
  rewrite !bind_some, sem_papp, sem_delegate_guard. destruct (negb _); cbn [require andb]; [|done]. rewrite !bind_some.
  rewrite (sem_delegate_change _ _ _ d c) by done. destruct (require _); [|done]. by rewrite !bind_some.
Qed.

Lemma sem_trailer st alt : sem sha256 tv p_trailer (st, alt) = Some ([Byte.x01] :: st, alt).
Proof. flat p_trailer. by ops. Qed.

Lemma vec_eqb {n} (a b : array n) : bool_decide (vec_to_list a = vec_to_list b) = bool_decide (a = b).
Proof. apply bool_decide_ext. split; [apply vec_to_list_inj2|by intros ->]. Qed.

Lemma final_one (st alt : list bytes) : final ([Byte.x01] :: st, alt) = bool_decide (st = []).
Proof. by destruct st. Qed.

(** From the leaf hashes on. *)
Lemma sem_redeem_paths (root leaf new_leaf : array 32) count depth len deduct d payout z st :
  (0 <= len < 2 ^ 31)%Z -> (1 <= count < 2 ^ 63)%Z -> script_num deduct = Some d -> (0 < d)%Z -> tv_outputs tv !! 0 = Some payout ->
  (s ← sem sha256 tv (p_merkle_steps depth ;; p_verify_old_root_tail ;; p_merkle_steps depth ;; p_compute_new_unclaimed ;;
                      p_verify_outputs len ;; p_verify_delegate_balance ;; p_trailer)%prog
         (vec_to_list leaf :: st, [vec_to_list new_leaf; bool_bytes z; deduct; vec_to_list root; vec_to_list (le_split 8 count)]);
   require (final s)) =
  ('(old_root, st) ← walk sha256 depth st leaf;
   _ ← require (bool_decide (root = old_root));
   '(new_root, st) ← walk sha256 depth st new_leaf;
   _ ← outputs_ok tv input payout d new_root (if z : bool then count - 1 else count)%Z len;
   _ ← balance_ok tv input d;
   require (bool_decide (st = []))).
Proof using Hview Hin.
  intros Hlen Hcount Hd Hpos Ho. rewrite sem_papp, sem_merkle_steps. destruct (walk sha256 depth st leaf) as [[old_root st1]|]; [|done].
  rewrite !bind_some, sem_papp, sem_old_root_tail, vec_eqb. destruct (require (bool_decide (root = old_root))); [|done].
  rewrite !bind_some, sem_papp, sem_merkle_steps. destruct (walk sha256 depth st1 new_leaf) as [[new_root st2]|]; [|done].
  rewrite !bind_some, sem_papp, sem_new_unclaimed, bind_some, sem_papp by done.
  rewrite (sem_verify_outputs _ _ _ d payout) by (done || by destruct z; lia). destruct (outputs_ok _ _ _ _ _ _ _); [|done].
  rewrite !bind_some, sem_papp, (sem_verify_delegate_balance _ d) by done. destruct (balance_ok _ _ _); [|done].
  by rewrite !bind_some, sem_trailer, bind_some, final_one.
Qed.

(** The program accepts what the specification accepts. *)
Lemma sem_redeem root count depth len st :
  (0 <= len < 2 ^ 31)%Z -> (1 <= count < 2 ^ 63)%Z ->
  (s ← sem sha256 tv (p_redeem root count depth len) (st, []); require (final s)) = permission_spend sha256 tv input root count depth len st.
Proof using Hview Hin.
  intros Hlen Hcount. unfold p_redeem, permission_spend. rewrite sem_papp.
  change (sem sha256 tv (p_prefix root count) (st, [])) with (Some (vec_to_list (le_split 8 count) :: vec_to_list root :: st, [] : list bytes)).
  rewrite bind_some, sem_papp. change (sem sha256 tv p_stash _) with (Some (st, [vec_to_list root; vec_to_list (le_split 8 count)])).
  rewrite bind_some, sem_papp. destruct st as [|deduct [|amount [|spk st]]].
  1-2: flat p_validate_amounts; ops; try done; repeat (sem_case; ops); done.
  { rewrite sem_validate. destruct (script_num deduct); [|done]. rewrite bind_some. destruct (script_num amount); [|done]. rewrite bind_some.
    destruct (require _); [|done]. rewrite !bind_some, sem_papp. flat p_verify_withdrawal. by ops. }
  rewrite sem_validate. destruct (script_num deduct) as [d|] eqn:Hd; [|done]. rewrite !bind_some.
  destruct (script_num amount) as [a|] eqn:Ha; [|done]. rewrite !bind_some. pose proof (script_num_bound _ _ Hd). pose proof (script_num_bound _ _ Ha).
  destruct (Z.ltb_spec 0 d), (Z.leb_spec d a); cbn [andb require]; try done.
  rewrite !bind_some, sem_papp, sem_withdrawal. destruct (tv_outputs tv !! 0) as [payout|] eqn:Hout; [|done]. rewrite !bind_some.
  destruct (cat [_; _] spk) as [versioned|]; [|done]. rewrite !bind_some. destruct (require (bool_decide (versioned = _))); [|done].
  rewrite !bind_some, sem_papp, sem_leaf_hashes by lia. cbv zeta. destruct (cat spk amount) as [old|]; [|done]. rewrite !bind_some.
  destruct (cat _ old) as [old'|]; [|done]. rewrite !bind_some. destruct (cat spk _) as [new|]; [|done]. rewrite !bind_some.
  destruct (cat _ new) as [new'|]; [|done]. rewrite !bind_some. by apply sem_redeem_paths.
Qed.
End transaction_phases.

(** ** The script on the engine *)

Lemma magnitude_len fuel z : length (magnitude fuel z) <= fuel.
Proof. revert z. induction fuel as [|fuel IH]; intros z; cbn; [lia|]. destruct (_ <=? _)%Z; cbn; [lia|]. specialize (IH (z / 256)%Z). lia. Qed.

Lemma num_bytes_len z : length (num_bytes z) <= 9.
Proof.
  unfold num_bytes, with_sign. pose proof (magnitude_len 8 (Z.abs z)) as Hm. revert Hm. generalize (magnitude 8 (Z.abs z)). intros m Hm. destruct (last _) as [b|] eqn:Hb; [|lia].
  destruct (_ <=? _)%Z; [rewrite length_app; cbn [length]; lia|]. destruct (_ <? _)%Z; [|lia].
  apply last_Some in Hb as [l' ->]. rewrite removelast_last, length_app in *. cbn [length] in *. lia.
Qed.

Lemma wf_num z : (Z.abs z < 2 ^ 63)%Z -> wf_prog (num z) = true.
Proof.
  intros Hz. unfold num. destruct (Z.eqb_spec z 0) as [|Hne]; [done|]. destruct (Z.eqb_spec z (-1)); [done|].
  destruct (Z.leb_spec 1 z), (Z.leb_spec z 16); cbn [andb data wf_prog]; unfold known_op; rewrite ?small_push by done; [done|..].
  all: pose proof (num_bytes_len z); rewrite (proj2 (Nat.leb_le _ 75)), !andb_true_r by lia; apply Nat.leb_le.
  all: assert (num_bytes z <> []) as Hn by (intros ?%(num_bytes_inj z 0); lia); destruct (num_bytes z); [done|cbn; lia].
Qed.

Lemma wf_steps depth : wf_prog (p_merkle_steps depth) = true.
Proof. induction depth as [|depth IH]; [done|]. unfold p_merkle_steps. cbn [replicate seq_prog foldr]. by rewrite wf_papp. Qed.

Lemma wf_redeem root count depth len : (0 <= len < 2 ^ 31)%Z -> wf_prog (p_redeem root count depth len) = true.
Proof.
  intros Hlen. unfold p_redeem, p_verify_outputs, p_new_redeem, if_else. rewrite !wf_papp, wf_steps. cbn [wf_prog].
  rewrite !wf_papp, wf_num by (unfold PREFIX_LEN; lia). unfold p_prefix, data. cbn [papp wf_prog]. by rewrite !length_vec_to_list.
Qed.

Lemma run_redeem (sha256 : bytes -> array 32) `{ScriptEngineOk sha256} tv input root count depth len st :
  wf_view tv -> tv_inputs tv !! tv_index tv = Some input -> (0 <= len < 2 ^ 31)%Z -> (1 <= count < 2 ^ 63)%Z ->
  script_run tv (build_permission_redeem_bytes root count depth len) (st, []) =
  bool_decide (permission_spend sha256 tv input root count depth len st = Some tt).
Proof.
  intros Hview Hin Hlen Hcount. rewrite <- assemble_redeem, (run_script sha256) by by apply wf_redeem.
  rewrite <- sem_redeem by done. destruct (sem _ _ _ _) as [s|]; cbn; [|done]. unfold require. by destruct (final s).
Qed.
