(* ===== verification/PermClaim.v ===== *)
(** * PermClaim: withdrawals against a permission tree

    The permission tree as a list of slots, the Merkle paths a spender puts on the stack, and what
    the redeem script makes of them. *)

From S2P Require Import Prelude Codec Types MerkleTree AbiCore RtState ScriptEngine PermScript PermSem.
Import PermRedeemScript.

#[local] Arguments cat : simpl never.
#[local] Arguments script_num : simpl never.
#[local] Arguments num_bytes : simpl never.

(** ** The tree *)

(** An open exit, or nothing. *)
Notation slot := (option (StandardSpk * Z)).

Definition open_exits (slots : list slot) : Z := Z.of_nat (length (omap id slots)).

(** What a withdrawal of [d] leaves of an exit of [amount]. *)
Definition remaining (dest : StandardSpk) (amount d : Z) : slot :=
  if (amount - d =? 0)%Z then None else Some (dest, amount - d)%Z.

Section tree.
Context (sha256 : bytes -> array 32) `{Blake2b}.
#[local] Instance hasher : Hasher := Sha256 sha256.

Definition slot_hash (s : slot) : array 32 :=
  match s with
  | Some (dest, amount) => PermissionTreeAccumulator.hash_leaf sha256 dest amount
  | None => StreamingBuilder.hash_empty
  end.

Definition tree_root (depth : nat) (slots : list slot) : array 32 := StreamingBuilder.padded depth (slot_hash <$> slots).

(** The redeem script of a tree. *)
Definition redeem_of (depth : nat) (root : array 32) (count : Z) : bytes :=
  build_permission_redeem_bytes root count depth (Z.of_nat (perm_redeem_script_len depth)).

(** Siblings from the leaf up, with the side of the node itself. *)
Fixpoint path (depth : nat) (leaves : list (array 32)) (k : nat) : list (bool * array 32) :=
  match depth with
  | O => []
  | S d =>
      let left := take (2 ^ d) leaves in
      let right := drop (2 ^ d) leaves in
      if k <? 2 ^ d then path d left k ++ [(false, StreamingBuilder.padded d right)]
      else path d right (k - 2 ^ d) ++ [(true, StreamingBuilder.padded d left)]
  end.

(** As stack elements. *)
Definition items (p : list (bool * array 32)) : list bytes :=
  p ≫= (fun e => [bool_bytes e.1; vec_to_list e.2]).

Lemma walk_add d1 d2 st cur :
  walk sha256 (d1 + d2) st cur = ('(r, st) ← walk sha256 d1 st cur; walk sha256 d2 st r).
Proof.
  revert st cur. induction d1 as [|d1 IH]; intros st cur; [done|]. cbn [Nat.add walk]. destruct st as [|dir [|sib st]]; [done..|].
  destruct (if_cond dir) as [on_right|]; [|done]. rewrite !bind_some. destruct (if on_right then _ else _) as [pair|]; [|done]. rewrite !bind_some.
  destruct (cat _ pair); [|done]. rewrite !bind_some. apply IH.
Qed.

(** One level up. *)
Lemma walk_one (on_right : bool) (sib cur : array 32) rest :
  walk sha256 1 (items [(on_right, sib)] ++ rest) cur =
  Some (if on_right then StreamingBuilder.hash_branch sib cur else StreamingBuilder.hash_branch cur sib, rest).
Proof.
  change (items [(on_right, sib)] ++ rest) with (bool_bytes on_right :: vec_to_list sib :: rest). cbn [walk]. rewrite if_cond_bool, bind_some.
  assert (forall a b : array 32, cat (vec_to_list a) (vec_to_list b) = Some (vec_to_list a ++ vec_to_list b)) as Hcat.
  { intros a b. apply cat_run. rewrite length_app, !length_vec_to_list. unfold MAX_ELEMENT. lia. }
  assert (forall a b : array 32, cat [PermNode_as_u8 PermBranch] (vec_to_list a ++ vec_to_list b) = Some (Byte.x01 :: vec_to_list a ++ vec_to_list b)) as Htag.
  { intros a b. apply cat_run. rewrite !length_app, !length_vec_to_list. cbn. unfold MAX_ELEMENT. lia. }
  destruct on_right; rewrite Hcat, bind_some, Htag, bind_some; unfold StreamingBuilder.hash_branch; cbn; by rewrite app_nil_r.
Qed.

Lemma path_length d leaves k : length (path d leaves k) = d.
Proof.
  revert leaves k. induction d as [|d IH]; intros leaves k; cbn [path]; [done|].
  destruct (_ <? _); rewrite length_app, IH; cbn; lia.
Qed.

(** The path from a leaf leads to the root of the tree with that leaf. *)
Lemma walk_path d leaves k cur rest :
  k < length leaves -> length leaves <= 2 ^ d ->
  walk sha256 d (items (path d leaves k) ++ rest) cur = Some (StreamingBuilder.padded d (<[k := cur]> leaves), rest).
Proof.
  revert leaves k rest. induction d as [|d IH]; intros leaves k rest Hk Hfit; cbn [path].
  - destruct leaves as [|x [|? ?]], k; cbn in *; try lia. done.
  - cbn [Nat.pow] in Hfit. replace (S d) with (d + 1) by lia. rewrite walk_add. destruct (Nat.ltb_spec k (2 ^ d)) as [Hlt|Hge].
    + unfold items. rewrite bind_app, <- app_assoc. fold items. rewrite IH by (rewrite length_take; lia). rewrite bind_some, walk_one.
      rewrite Nat.add_1_r. cbn [StreamingBuilder.padded]. by rewrite take_insert_lt, drop_insert_lt by lia.
    + unfold items. rewrite bind_app, <- app_assoc. fold items. rewrite IH by (rewrite length_drop; lia). rewrite bind_some, walk_one.
      rewrite Nat.add_1_r. cbn [StreamingBuilder.padded]. by rewrite take_insert_ge, drop_insert_ge by lia.
Qed.

(** ** The spend *)

(** The continuation is the redeem script of the next state, [None] when no exit is left. *)
Definition outputs_settle (tv : TxView) (input : TxIn) (spk : bytes) (d : Z) (next : option bytes) : bool :=
  match tv_outputs tv !! 0, in_covenant input with
  | Some payout, Some c =>
      let bound := covenant_outputs tv (vec_to_list c) in
      bool_decide (to_spk payout = [Byte.x00; Byte.x00] ++ spk) && (d <=? to_amount payout)%Z && (length (tv_outputs tv) <=? 4) &&
      match next, tv_outputs tv !! 1 with
      | None, _ => bool_decide (bound = []) && (d + in_amount input <? 2 ^ 63)%Z && (d + in_amount input <=? to_amount payout)%Z
      | Some redeem, Some next =>
          bool_decide (to_spk next = p2sh_spk redeem) && bool_decide (bound = [1]) && (to_amount next =? in_amount input)%Z
      | Some _, None => false
      end
  | _, _ => false
  end.

(** The delegate inputs cover the withdrawal, and the rest goes back to the delegate script. *)
Definition delegates_settle (tv : TxView) (input : TxIn) (d : Z) : bool := bool_decide (balance_ok tv input d = Some tt).

Lemma redeem_split depth root count len :
  build_permission_redeem_bytes root count depth len = emit_prefix root count ++ drop PREFIX_LEN (build_permission_redeem_bytes root count depth len).
Proof.
  unfold build_permission_redeem_bytes at 1 2. rewrite drop_app_length'; [done|]. unfold emit_prefix. by rewrite !length_app, !length_vec_to_list.
Qed.

(** All states share the script after the prefix. *)
Lemma redeem_body depth root count root' count' len :
  drop PREFIX_LEN (build_permission_redeem_bytes root count depth len) = drop PREFIX_LEN (build_permission_redeem_bytes root' count' depth len).
Proof.
  unfold build_permission_redeem_bytes. rewrite !drop_app_length'; [done|..]; unfold emit_prefix; by rewrite !length_app, !length_vec_to_list.
Qed.

Lemma outputs_ok_settle tv input payout spk d root count depth args new_root new_count :
  depth <= 1471 -> in_sig input = args ++ redeem_of depth root count ->
  tv_outputs tv !! 0 = Some payout -> to_spk payout = [Byte.x00; Byte.x00] ++ spk ->
  outputs_ok tv input payout d new_root new_count (Z.of_nat (perm_redeem_script_len depth)) =
  require (outputs_settle tv input spk d (if (new_count =? 0)%Z then None else Some (redeem_of depth new_root new_count))).
Proof.
  intros Hdepth Hsig Ho Hspk. unfold outputs_ok, outputs_settle. rewrite Ho. rewrite (bool_decide_true (to_spk payout = _)), andb_true_l by done.
  assert (perm_redeem_script_len depth = length (redeem_of depth root count)) as Hlen by (symmetry; by apply redeem_bytes_len).
  assert (42 <= perm_redeem_script_len depth) by (unfold perm_redeem_script_len; change FIXED_LEN with 445; lia).
  destruct (_ && _); cbn [require]; [|by destruct (in_covenant input)]. rewrite bind_some. destruct (in_covenant input) as [c|]; [|done].
  rewrite bind_some, andb_true_l. destruct (new_count =? 0)%Z; [done|].
  set (start := (_ - _ + _)%Z). assert (start = Z.of_nat (length args + PREFIX_LEN)) as ->.
  { unfold start. rewrite Hsig, length_app, <- Hlen. unfold PREFIX_LEN. lia. }
  rewrite (proj2 (Z.leb_le 0 _)) by lia. cbn [require]. rewrite bind_some, Nat2Z.id. unfold substr.
  rewrite (proj2 (Nat.leb_le _ (length (in_sig input)))), Nat.leb_refl by (rewrite Hsig, length_app, <- Hlen; unfold PREFIX_LEN; lia). cbn [andb].
  rewrite bind_some, Hsig, <- drop_drop, drop_app_length, take_ge by (rewrite length_drop, length_app; lia).
  unfold redeem_of at 1. rewrite (redeem_body depth root count new_root new_count).
  rewrite cat_run, <- redeem_split, bind_some.
  2:{ rewrite <- redeem_split, redeem_bytes_len by done. unfold perm_redeem_script_len, MAX_ELEMENT. change FIXED_LEN with 445. change MERKLE_STEP_LEN with 11. lia. }
  destruct (tv_outputs tv !! 1) as [next|]; [|done]. rewrite bind_some. fold (redeem_of depth new_root new_count).
  rewrite (bool_decide_ext (p2sh_spk _ = _) (to_spk next = p2sh_spk (redeem_of depth new_root new_count))) by (split; congruence).
  by rewrite (Z.eqb_sym (in_amount input)).
Qed.

(** The stack of a withdrawal: two paths, of which the script checks the first against the root. *)
Definition claim_stack (deduct amount spk : bytes) (old new : list (bool * array 32)) : list bytes :=
  deduct :: amount :: spk :: items old ++ items new.

(** The leaf the script hashes for the rest of an exit. *)
Definition leaf_after (spk : bytes) (left : Z) : array 32 :=
  if (left =? 0)%Z then sha256 [PermNode_as_u8 PermEmpty] else sha256 (PermNode_as_u8 PermLeaf :: spk ++ vec_to_list (le_split 8 left)).

Lemma cat_small a b : length a <= 1000 -> length b <= 1000 -> cat a b = Some (a ++ b).
Proof. intros Ha Hb. apply cat_run. rewrite length_app. unfold MAX_ELEMENT. lia. Qed.

Lemma script_num_len l z : script_num l = Some z -> length l <= 8.
Proof. unfold script_num. destruct (Nat.ltb_spec 8 (length l)); done || lia. Qed.

Lemma spend_settle tv input root count depth args deduct amount spk d a leaves k leaves' k' :
  depth <= 1471 -> in_sig input = args ++ redeem_of depth root count ->
  script_num deduct = Some d -> script_num amount = Some a -> (0 < d <= a)%Z -> length spk <= 900 ->
  root = StreamingBuilder.padded depth leaves -> length leaves <= 2 ^ depth -> length leaves' <= 2 ^ depth ->
  leaves !! k = Some (sha256 (PermNode_as_u8 PermLeaf :: spk ++ amount)) -> leaves' !! k' = Some (leaf_after spk (a - d)) ->
  permission_spend sha256 tv input root count depth (Z.of_nat (perm_redeem_script_len depth))
    (claim_stack deduct amount spk (path depth leaves k) (path depth leaves' k')) =
  require (outputs_settle tv input spk d
             (let count' := if (a - d =? 0)%Z then (count - 1)%Z else count in
              if (count' =? 0)%Z then None else Some (redeem_of depth (StreamingBuilder.padded depth leaves') count')) &&
           delegates_settle tv input d).
Proof.
  intros Hdepth Hsig Hd Ha Hda Hspk Hroot Hfit Hfit' Hleaf Hleaf'. unfold permission_spend, claim_stack. pose proof (script_num_len _ _ Ha).
  rewrite Hd, bind_some, Ha, bind_some, (proj2 (Z.ltb_lt 0 d)), (proj2 (Z.leb_le d a)) by lia. cbn [andb require]. rewrite bind_some.
  destruct (tv_outputs tv !! 0) as [payout|] eqn:Ho; [|unfold outputs_settle; by rewrite Ho]. rewrite bind_some, (cat_small [_; _]), bind_some by (cbn; lia).
  cbv zeta. rewrite (cat_small spk amount), bind_some, (cat_small [_] (spk ++ amount)), bind_some by (rewrite ?length_app; cbn; lia).
  rewrite (cat_small spk (vec_to_list _)), bind_some, (cat_small [_] (spk ++ _)), bind_some by (rewrite ?length_app, ?length_vec_to_list; cbn; lia).
  cbn [app]. destruct (decide (to_spk payout = [Byte.x00; Byte.x00] ++ spk)) as [Hpay|Hpay].
  2:{ rewrite bool_decide_false by (cbn [app] in Hpay; congruence). unfold outputs_settle. rewrite Ho. destruct (in_covenant input); [|done].
      by rewrite bool_decide_false. }
  rewrite bool_decide_true by (cbn [app] in Hpay; congruence). cbn [require]. rewrite bind_some.
  rewrite walk_path, bind_some, list_insert_id, <- Hroot, bool_decide_true by (done || by eapply lookup_lt_Some). cbn [require].
  rewrite bind_some. rewrite <- (app_nil_r (items (path depth leaves' k'))). fold (leaf_after spk (a - d)).
  rewrite walk_path, bind_some, (list_insert_id leaves'), (outputs_ok_settle tv input payout spk d root count depth args)
    by (done || by eapply lookup_lt_Some).
  destruct (outputs_settle _ _ _ _ _); cbn [require andb]; [|done]. rewrite bind_some. unfold delegates_settle.
  destruct (balance_ok tv input d) as [[]|]; cbn; done.
Qed.

(** A path does not depend on its leaf. *)
Lemma path_insert d leaves k x : path d (<[k := x]> leaves) k = path d leaves k.
Proof.
  revert leaves k. induction d as [|d IH]; intros leaves k; cbn [path]; [done|]. destruct (Nat.ltb_spec k (2 ^ d)).
  - by rewrite take_insert_lt, drop_insert_lt, IH by lia.
  - by rewrite take_insert_ge, drop_insert_ge, IH by lia.
Qed.

Lemma slot_hash_exit dest amount :
  slot_hash (Some (dest, amount)) = sha256 (PermNode_as_u8 PermLeaf :: to_script_bytes dest ++ vec_to_list (le_split 8 amount)).
Proof.
  change (slot_hash (Some (dest, amount))) with (sha256 ([PermNode_as_u8 PermLeaf] ++ to_script_bytes dest ++ vec_to_list (le_split 8 amount) ++ [])).
  by rewrite app_nil_r.
Qed.

Lemma slot_hash_remaining dest amount d : slot_hash (remaining dest amount d) = leaf_after (to_script_bytes dest) (amount - d).
Proof. unfold remaining, leaf_after. destruct (_ =? 0)%Z; [done|]. apply slot_hash_exit. Qed.

(** *** Accumulation *)

Definition add_exits (exits : list (StandardSpk * Z)) : Result PermissionTreeAccumulator.t :=
  foldl (fun acc e => acc ← acc; PermissionTreeAccumulator.add_exit sha256 acc e.1 e.2) (Ok PermissionTreeAccumulator.new) exits.

Lemma add_exits_builder exits :
  add_exits exits =
  (b ← StreamingBuilder.add_all PermissionTreeAccumulator.MAX_DEPTH (slot_hash <$> (Some <$> exits)); Ok {| PermissionTreeAccumulator.builder := b |}).
Proof.
  induction exits as [|[dest amount] exits IH] using rev_ind; [done|]. unfold add_exits, StreamingBuilder.add_all in *.
  rewrite !fmap_app, !foldl_app, IH. cbn [foldl fmap list_fmap]. clear IH. by destruct (foldl _ _ _).
Qed.
End tree.

(** *** Counting *)

Lemma open_exits_insert slots k dest amount s :
  slots !! k = Some (Some (dest, amount)) ->
  open_exits (<[k := s]> slots) = (if s is Some _ then open_exits slots else open_exits slots - 1)%Z.
Proof.
  intros Hk. pose proof (lookup_lt_Some _ _ _ Hk). rewrite insert_take_drop by done.
  assert (open_exits slots = open_exits (take k slots ++ Some (dest, amount) :: drop (S k) slots)) as -> by by rewrite take_drop_middle.
  unfold open_exits. rewrite !omap_app. cbn [omap list_omap id]. destruct s; rewrite !length_app; cbn [length]; lia.
Qed.

Lemma open_exits_le slots : (open_exits slots <= Z.of_nat (length slots))%Z.
Proof. unfold open_exits. induction slots as [|[e|] slots IH]; cbn [omap list_omap id length]; lia. Qed.

Lemma open_exits_pos slots k e : slots !! k = Some (Some e) -> (1 <= open_exits slots <= Z.of_nat (length slots))%Z.
Proof.
  intros Hk. split; [|apply open_exits_le]. rewrite <- (take_drop_middle _ _ _ Hk). unfold open_exits.
  rewrite omap_app, length_app. cbn [omap list_omap id length]. lia.
Qed.

Lemma to_script_bytes_len dest : length (to_script_bytes dest) <= 35.
Proof. destruct dest; cbn; rewrite length_app, length_vec_to_list; cbn; lia. Qed.

Lemma le_combine_app l1 l2 : le_combine (l1 ++ l2) = (le_combine l1 + 256 ^ Z.of_nat (length l1) * le_combine l2)%Z.
Proof.
  induction l1 as [|b l1 IH]; cbn [app le_combine length]; [cbn; lia|]. rewrite IH, Nat2Z.inj_succ, Z.pow_succ_r by lia. lia.
Qed.

(** The high bytes of an amount are a number too. *)
Lemma script_num_drop j amount :
  j <= 7 -> (0 <= amount < 2 ^ 63)%Z -> script_num (drop j (vec_to_list (le_split 8 amount))) = Some (amount / 256 ^ Z.of_nat j)%Z.
Proof.
  intros Hj Ha. set (l := vec_to_list (le_split 8 amount)). assert (length l = 8) as Hl by apply length_vec_to_list.
  assert (le_combine l = amount) as Hv by (apply le_combine_split_small; cbn; lia).
  assert (le_combine (drop j l) = amount / 256 ^ Z.of_nat j)%Z as <-.
  { rewrite <- Hv. rewrite <- (take_drop j l) at 2. rewrite le_combine_app, length_take, Hl, Nat.min_l by lia.
    pose proof (le_combine_bound (take j l)) as Hb. rewrite length_take, Hl, Nat.min_l in Hb by lia.
    apply Z.div_unique with (le_combine (take j l)); lia. }
  pose proof (le_combine_bound (take j l)) as Hlow. rewrite length_take, Hl, Nat.min_l in Hlow by lia.
  apply script_num_pos; rewrite ?length_drop, ?Hl; [lia|].
  assert (256 ^ Z.of_nat j * le_combine (drop j l) <= amount)%Z.
  { rewrite <- Hv. rewrite <- (take_drop j l) at 2. rewrite le_combine_app, length_take, Hl, Nat.min_l by lia. lia. }
  assert (2 ^ (8 * Z.of_nat (8 - j) - 1) * 256 ^ Z.of_nat j = 2 ^ 63)%Z.
  { change 256%Z with (2 ^ 8)%Z. rewrite <- Z.pow_mul_r, <- Z.pow_add_r by lia. f_equal. lia. }
  pose proof (Z.pow_pos_nonneg 256 (Z.of_nat j)). nia.
Qed.
