(* ===== verification/PermTheorems.v ===== *)
(** * PermTheorems: the permission covenant

    What the redeem script accepts, what an exit committed by the accumulator can be claimed for,
    and two ways in which the script accepts more than the tree allows. *)

From S2P Require Import Prelude Codec Types MerkleTree AbiCore RtState ScriptEngine PermScript PermSem PermClaim.
Import PermRedeemScript.

Lemma script_len_range depth : depth <= 1471 -> (0 <= Z.of_nat (perm_redeem_script_len depth) < 2 ^ 31)%Z.
Proof. intros Hd. unfold perm_redeem_script_len. change FIXED_LEN with 445. change MERKLE_STEP_LEN with 11. lia. Qed.

Lemma fits_count depth (slots : list slot) : depth <= 32 -> length slots <= 2 ^ depth -> (open_exits slots < 2 ^ 63)%Z.
Proof.
  intros Hd Hfit. pose proof (open_exits_le slots). apply Nat2Z.inj_le in Hfit. rewrite Nat2Z.inj_pow in Hfit. change (Z.of_nat 2) with 2%Z in Hfit.
  assert (2 ^ Z.of_nat depth <= 2 ^ 32)%Z by (apply Z.pow_le_mono_r; lia). lia.
Qed.

(** C15: the redeem script that [build_permission_redeem_script] returns, run by the L1 engine on any
    stack a spender supplies, accepts exactly when [permission_spend] does: the stack is a
    deduction, an amount, a script and two Merkle paths; the deduction is positive and within the
    amount; the first path leads from the leaf to the embedded root; output 0 pays the script; the
    continuation carries the root of the second path and the new count, or no covenant output is
    left; and the delegate inputs cover the deduction, with the change returned. *)
Theorem permission_script_exact (sha256 : bytes -> array 32) `{ScriptEngineOk sha256} tv input root count depth redeem st :
  wf_view tv -> tv_inputs tv !! tv_index tv = Some input -> (1 <= count < 2 ^ 63)%Z -> depth <= 1471 ->
  build_permission_redeem_script (E := Empty_set) root count depth = Ok redeem ->
  script_run tv redeem (st, []) =
  bool_decide (permission_spend sha256 tv input root count depth (Z.of_nat (perm_redeem_script_len depth)) st = Some tt).
Proof.
  intros Hview Hin Hcount Hd Hr. rewrite redeem_script_Ok in Hr by done. injection Hr as <-.
  apply run_redeem; [done..|by apply script_len_range|done].
Qed.

Section claims.
Context (sha256 : bytes -> array 32) `{ScriptEngineOk sha256} (tv : TxView) (input : TxIn) (args : bytes) (depth : nat).
Context (Hview : wf_view tv) (Hin : tv_inputs tv !! tv_index tv = Some input) (Hdepth : depth <= 32).

(** A withdrawal against a tree: the first path from an exit's leaf, the second from any leaf that
    holds the rest, in any tree. *)
Lemma run_claim slots k (spk amount deduct : bytes) a d slots' k' :
  let root := tree_root sha256 depth slots in
  let count := open_exits slots in
  let count' := if (a - d =? 0)%Z then (count - 1)%Z else count in
  length slots <= 2 ^ depth -> length slots' <= 2 ^ depth -> (1 <= count)%Z ->
  in_sig input = args ++ redeem_of depth root count ->
  script_num deduct = Some d -> script_num amount = Some a -> (0 < d <= a)%Z -> length spk <= 900 ->
  slot_hash sha256 <$> slots !! k = Some (sha256 (PermNode_as_u8 PermLeaf :: spk ++ amount)) ->
  slot_hash sha256 <$> slots' !! k' = Some (leaf_after sha256 spk (a - d)) ->
  script_run tv (redeem_of depth root count)
    (claim_stack deduct amount spk (path sha256 depth (slot_hash sha256 <$> slots) k) (path sha256 depth (slot_hash sha256 <$> slots') k'), []) =
  outputs_settle tv input spk d (if (count' =? 0)%Z then None else Some (redeem_of depth (tree_root sha256 depth slots') count')) &&
  delegates_settle tv input d.
Proof using All.
  intros root count count' Hfit Hfit' Hpos Hsig Hd Ha Hda Hspk Hk Hk'. pose proof (fits_count depth slots Hdepth Hfit).
  unfold redeem_of at 1. rewrite (run_redeem sha256 tv input) by (try done; apply script_len_range; lia).
  rewrite (spend_settle sha256 tv input root count depth args deduct amount spk d a) by (try done; rewrite ?length_fmap, ?list_lookup_fmap; done || lia).
  cbv zeta. fold count'. fold (tree_root sha256 depth slots'). by destruct (_ && _).
Qed.
End claims.

Lemma claim_slot_hash sha256 (slots : list slot) (k : nat) dest amount :
  slots !! k = Some (Some (dest, amount)) ->
  slot_hash sha256 <$> slots !! k = Some (sha256 (PermNode_as_u8 PermLeaf :: to_script_bytes dest ++ vec_to_list (le_split 8 amount))).
Proof. intros Hk. rewrite Hk. cbn [fmap option_fmap option_map]. by rewrite slot_hash_exit. Qed.

Lemma count_remaining (slots : list slot) (k : nat) dest amount d :
  slots !! k = Some (Some (dest, amount)) ->
  (if (amount - d =? 0)%Z then open_exits slots - 1 else open_exits slots)%Z = open_exits (<[k := remaining dest amount d]> slots).
Proof. intros Hk. rewrite (open_exits_insert _ _ dest amount) by done. unfold remaining. by destruct (_ =? 0)%Z. Qed.

(** C16: every exit of a tree can be claimed, in parts or in full: with the exit's Merkle path given
    twice, the script of the tree accepts exactly the transactions that pay [d] to the exit's script,
    are funded by delegate inputs, and continue with the redeem script of the tree in which the
    slot holds the rest and the count is that of its open exits, or with no covenant output when
    none is left. *)
Theorem exit_claim_exact (sha256 : bytes -> array 32) `{ScriptEngineOk sha256} tv input args depth (slots : list slot) (k : nat) dest amount d :
  wf_view tv -> tv_inputs tv !! tv_index tv = Some input -> depth <= 32 -> length slots <= 2 ^ depth ->
  slots !! k = Some (Some (dest, amount)) -> (0 < d <= amount)%Z -> (amount < 2 ^ 63)%Z ->
  let redeem slots := redeem_of depth (tree_root sha256 depth slots) (open_exits slots) in
  let proof := path sha256 depth (slot_hash sha256 <$> slots) k in
  let slots' := <[k := remaining dest amount d]> slots in
  in_sig input = args ++ redeem slots ->
  script_run tv (redeem slots) (claim_stack (num_bytes d) (vec_to_list (le_split 8 amount)) (to_script_bytes dest) proof proof, []) =
  outputs_settle tv input (to_script_bytes dest) d (if (open_exits slots' =? 0)%Z then None else Some (redeem slots')) &&
  delegates_settle tv input d.
Proof.
  intros Hview Hin Hdepth Hfit Hk Hd Ha redeem proof slots' Hsig. pose proof (lookup_lt_Some _ _ _ Hk).
  assert (path sha256 depth (slot_hash sha256 <$> slots') k = proof) as Hproof by (unfold slots'; by rewrite list_fmap_insert, path_insert).
  rewrite <- Hproof at 2. unfold redeem, proof. pose proof (to_script_bytes_len dest).
  rewrite (run_claim sha256 tv input args depth Hview Hin Hdepth slots k _ _ _ amount d slots' k); try done.
  - by rewrite (count_remaining _ k dest).
  - unfold slots'. by rewrite length_insert.
  - apply (open_exits_pos _ _ _ Hk).
  - apply script_num_num_bytes. lia.
  - apply script_num_le; cbn; lia.
  - lia.
  - by apply claim_slot_hash.
  - unfold slots'. rewrite list_lookup_insert_eq by done. cbn [fmap option_fmap option_map]. by rewrite slot_hash_remaining.
Qed.

(** C37: the second path is not tied to the first. Whoever claims [d] of any exit can continue with
    the root of any other tree of the same depth that holds the rest of that exit in some slot: the
    script accepts, although every other slot of the next tree is the spender's choice. *)
Theorem continuation_root_unbound (sha256 : bytes -> array 32) `{ScriptEngineOk sha256} tv input args depth
    (slots : list slot) (k : nat) dest amount d (forged : list slot) (k' : nat) :
  wf_view tv -> tv_inputs tv !! tv_index tv = Some input -> depth <= 32 -> length slots <= 2 ^ depth -> length forged <= 2 ^ depth ->
  slots !! k = Some (Some (dest, amount)) -> forged !! k' = Some (remaining dest amount d) -> (0 < d <= amount)%Z -> (amount < 2 ^ 63)%Z ->
  let count := open_exits (<[k := remaining dest amount d]> slots) in
  in_sig input = args ++ redeem_of depth (tree_root sha256 depth slots) (open_exits slots) ->
  count <> 0%Z ->
  outputs_settle tv input (to_script_bytes dest) d (Some (redeem_of depth (tree_root sha256 depth forged) count)) = true ->
  delegates_settle tv input d = true ->
  script_run tv (redeem_of depth (tree_root sha256 depth slots) (open_exits slots))
    (claim_stack (num_bytes d) (vec_to_list (le_split 8 amount)) (to_script_bytes dest)
       (path sha256 depth (slot_hash sha256 <$> slots) k) (path sha256 depth (slot_hash sha256 <$> forged) k'), []) = true.
Proof.
  intros Hview Hin Hdepth Hfit Hfit' Hk Hk' Hd Ha count Hsig Hcount Hout Hdel. pose proof (to_script_bytes_len dest).
  rewrite (run_claim sha256 tv input args depth Hview Hin Hdepth slots k _ _ _ amount d forged k'); try done.
  - rewrite (count_remaining _ k dest) by done. fold count. by rewrite (proj2 (Z.eqb_neq _ _)), Hout, Hdel.
  - apply (open_exits_pos _ _ _ Hk).
  - apply script_num_num_bytes. lia.
  - apply script_num_le; cbn; lia.
  - lia.
  - by apply claim_slot_hash.
  - rewrite Hk'. cbn [fmap option_fmap option_map]. by rewrite slot_hash_remaining.
Qed.

(** The leaf does not separate the script from the amount. Anyone can present the low [j] bytes
    of an exit's amount as the end of its script: the script then accepts a transaction that closes
    the exit for [amount / 256^j], paid to the lengthened script instead of the exit's. *)
Theorem exit_leaf_ambiguous (sha256 : bytes -> array 32) `{ScriptEngineOk sha256} tv input args depth (slots : list slot) (k : nat) dest amount j :
  wf_view tv -> tv_inputs tv !! tv_index tv = Some input -> depth <= 32 -> length slots <= 2 ^ depth ->
  slots !! k = Some (Some (dest, amount)) -> (0 < amount < 2 ^ 63)%Z -> j <= 7 -> (0 < amount / 256 ^ Z.of_nat j)%Z ->
  let redeem slots := redeem_of depth (tree_root sha256 depth slots) (open_exits slots) in
  let proof := path sha256 depth (slot_hash sha256 <$> slots) k in
  let spk := to_script_bytes dest ++ take j (vec_to_list (le_split 8 amount)) in
  let paid := (amount / 256 ^ Z.of_nat j)%Z in
  let slots' := <[k := None]> slots in
  in_sig input = args ++ redeem slots ->
  outputs_settle tv input spk paid (if (open_exits slots' =? 0)%Z then None else Some (redeem slots')) = true ->
  delegates_settle tv input paid = true ->
  script_run tv (redeem slots) (claim_stack (num_bytes paid) (drop j (vec_to_list (le_split 8 amount))) spk proof proof, []) = true.
Proof.
  intros Hview Hin Hdepth Hfit Hk Ha Hj Hpos redeem proof spk paid slots' Hsig Hout Hdel. pose proof (lookup_lt_Some _ _ _ Hk).
  assert (path sha256 depth (slot_hash sha256 <$> slots') k = proof) as Hproof by (unfold slots'; by rewrite list_fmap_insert, path_insert).
  assert (paid <= amount)%Z by (apply Z.div_le_upper_bound; pose proof (Z.pow_pos_nonneg 256 (Z.of_nat j)); nia).
  rewrite <- Hproof at 2. unfold redeem, proof. pose proof (to_script_bytes_len dest).
  rewrite (run_claim sha256 tv input args depth Hview Hin Hdepth slots k _ _ _ paid paid slots' k); try done.
  - assert (open_exits slots' = open_exits slots - 1)%Z as Hopen by (unfold slots'; by rewrite (open_exits_insert _ _ dest amount)).
    rewrite Z.sub_diag, <- Hopen. cbn [Z.eqb]. unfold redeem in Hout. by rewrite Hout, Hdel.
  - unfold slots'. by rewrite length_insert.
  - apply (open_exits_pos _ _ _ Hk).
  - apply script_num_num_bytes. lia.
  - apply script_num_drop; lia.
  - unfold spk. rewrite length_app, length_take. lia.
  - unfold spk. rewrite <- app_assoc, take_drop. by apply claim_slot_hash.
  - unfold slots'. rewrite list_lookup_insert_eq by done. by rewrite Z.sub_diag.
Qed.

(** C33: accumulating fewer than 2^32 exits never panics: no add overflows the builder's stack, the
    assertion on the length of the redeem script holds, and the result is the hash of the redeem
    script of the tree of these exits, at the least depth that holds them, or zeros for none. The
    script is never longer than 1149 bytes. *)
Theorem exits_committed (sha256 : bytes -> array 32) `{Blake2b} (exits : list (StandardSpk * Z)) :
  (Z.of_nat (length exits) < 2 ^ 32)%Z ->
  let count := Z.of_nat (length exits) in
  let depth := PermissionTreeAccumulator.required_depth count in
  let redeem := redeem_of depth (tree_root sha256 depth (Some <$> exits)) count in
  depth <= 32 /\ length exits <= 2 ^ depth /\ length redeem = 445 + 22 * depth /\
  exists acc, add_exits sha256 exits = Ok acc /\
    PermissionTreeAccumulator.finalize sha256 acc = Ok (if decide (exits = []) then zero32 else blake2b_script_hash redeem).
Proof.
  intros Hn count depth redeem.
  assert (depth <= 32) as Hdepth.
  { unfold depth, PermissionTreeAccumulator.required_depth, StreamingBuilder.required_depth. destruct (_ <=? _)%Z; [lia|]. apply Nat.le_min_r. }
  split; [done|]. destruct (decide (exits = [])) as [->|Hne].
  { repeat split; [cbn; lia|by apply redeem_bytes_len; lia|]. by exists PermissionTreeAccumulator.new. }
  assert (1 <= length exits) as Hpos by (destruct exits; [done|cbn; lia]).
  destruct (finalize_root (H := Sha256 sha256) PermissionTreeAccumulator.MAX_DEPTH (slot_hash sha256 <$> (Some <$> exits)))
    as (b & Hadd & Hcount & Hroot & Hfit & _); rewrite ?length_fmap in *.
  { split; [done|]. apply Nat2Z.inj_lt. by rewrite Nat2Z.inj_pow. }
  { done. }
  fold count in Hcount. fold count in Hroot, Hfit. change (StreamingBuilder.required_depth _ count) with depth in Hroot, Hfit.
  split; [done|]. split.
  { unfold redeem, redeem_of. rewrite redeem_bytes_len by lia. unfold perm_redeem_script_len. change FIXED_LEN with 445. change MERKLE_STEP_LEN with 11. lia. }
  exists {| PermissionTreeAccumulator.builder := b |}. split.
  { rewrite add_exits_builder. unfold PermClaim.hasher. by rewrite Hadd. }
  unfold PermissionTreeAccumulator.finalize, PermissionTreeAccumulator.EMPTY_HASHES, PermissionTreeAccumulator.hasher. cbn [PermissionTreeAccumulator.builder].
  rewrite Hcount, (proj2 (Z.eqb_neq count 0)), Hroot by lia. cbn [mbind outcome_bind]. fold depth. by rewrite redeem_script_Ok by lia.
Qed.

(** ** Witnesses *)

Lemma wf_view_lists index inputs outputs :
  Forall (fun i => (0 <= in_amount i < 2 ^ 63)%Z /\ (Z.of_nat (length (in_sig i)) < 2 ^ 31)%Z) inputs ->
  Forall (fun o => (0 <= to_amount o < 2 ^ 63)%Z) outputs ->
  (Z.of_nat (length inputs) < 2 ^ 31)%Z -> (Z.of_nat (length outputs) < 2 ^ 31)%Z ->
  wf_view {| tv_index := index; tv_inputs := inputs; tv_outputs := outputs |}.
Proof.
  intros Hi Ho Hni Hno. constructor; cbn; [done|done|..]; intros i x Hx; [apply (Forall_lookup_1 _ _ _ _ Hi Hx)|apply (Forall_lookup_1 _ _ _ _ Ho Hx)].
Qed.

Definition demo_sha : bytes -> array 32 := @hash toy_hasher.
#[local] Instance demo_blake2b : Blake2b := demo_sha.
#[local] Instance demo_engine : ScriptEngine := interpreter demo_sha.
#[local] Instance demo_engine_ok : ScriptEngineOk demo_sha := interpreter_ok demo_sha.

Definition demo_dest (b : byte) : StandardSpk := PubKey (vreplicate 32 b).
Definition demo_covenant : array 32 := vreplicate 32 Byte.x0c.
Definition demo_slots : list slot := [Some (demo_dest Byte.x0a, 1000%Z); Some (demo_dest Byte.x0b, 70%Z)].
Definition demo_redeem (slots : list slot) : bytes := redeem_of 1 (tree_root demo_sha 1 slots) (open_exits slots).
Definition demo_delegate : bytes := p2sh_spk (build_delegate_entry_script demo_covenant).

(** Input 0 spends the tree, input 1 is a delegate of value 2000. *)
Definition demo_input : TxIn :=
  {| in_amount := 10; in_spk := p2sh_spk (demo_redeem demo_slots); in_covenant := Some demo_covenant; in_sig := demo_redeem demo_slots |}.
Definition demo_tx (spk : bytes) (d : Z) (next : bytes) : TxView :=
  {| tv_index := 0;
     tv_inputs := [demo_input; {| in_amount := 2000; in_spk := demo_delegate; in_covenant := None; in_sig := [] |}];
     tv_outputs := [{| to_amount := d; to_spk := [Byte.x00; Byte.x00] ++ spk; to_covenant := None |};
                    {| to_amount := 10; to_spk := p2sh_spk next; to_covenant := Some demo_covenant |};
                    {| to_amount := 2000 - d; to_spk := demo_delegate; to_covenant := None |}] |}.

Lemma demo_view spk d next : (0 <= d <= 2000)%Z -> wf_view (demo_tx spk d next).
Proof.
  intros Hd. apply wf_view_lists; [| |done|done].
  - repeat constructor; cbn [in_amount]; done || lia.
  - repeat constructor; cbn [to_amount]; lia.
Qed.

(** Forty of the first exit are claimed. *)
Definition demo_claimed : list slot := <[0 := remaining (demo_dest Byte.x0a) 1000 40]> demo_slots.
Definition demo_claim_tx : TxView := demo_tx (to_script_bytes (demo_dest Byte.x0a)) 40 (demo_redeem demo_claimed).
Definition demo_proof : list (bool * array 32) := path demo_sha 1 (slot_hash demo_sha <$> demo_slots) 0.
Definition demo_stack : list bytes :=
  claim_stack (num_bytes 40) (vec_to_list (le_split 8 1000)) (to_script_bytes (demo_dest Byte.x0a)) demo_proof demo_proof.

Lemma permission_script_exact_witness : script_run demo_claim_tx (demo_redeem demo_slots) (demo_stack, []) = true.
Proof.
  rewrite (permission_script_exact demo_sha demo_claim_tx demo_input (tree_root demo_sha 1 demo_slots) (open_exits demo_slots) 1
    (demo_redeem demo_slots) demo_stack); [vm_compute; reflexivity|by apply demo_view|reflexivity|by vm_compute|lia|by apply redeem_script_Ok; lia].
Defined.

Lemma exit_claim_exact_witness : script_run demo_claim_tx (demo_redeem demo_slots) (demo_stack, []) = true.
Proof.
  unfold demo_redeem, demo_stack, demo_proof.
  rewrite (exit_claim_exact demo_sha demo_claim_tx demo_input [] 1 demo_slots 0 (demo_dest Byte.x0a) 1000 40);
    [vm_compute; reflexivity|by apply demo_view|reflexivity|lia|cbn; lia|reflexivity|lia|lia|reflexivity].
Defined.

(** The second exit is replaced by one of the spender's own. *)
Definition demo_forged : list slot := [remaining (demo_dest Byte.x0a) 1000 40; Some (demo_dest Byte.x66, 1000000000000%Z)].
Definition demo_forged_redeem : bytes := redeem_of 1 (tree_root demo_sha 1 demo_forged) 2.
Definition demo_forged_tx : TxView := demo_tx (to_script_bytes (demo_dest Byte.x0a)) 40 demo_forged_redeem.

Lemma continuation_root_unbound_witness :
  script_run demo_forged_tx (demo_redeem demo_slots)
    (claim_stack (num_bytes 40) (vec_to_list (le_split 8 1000)) (to_script_bytes (demo_dest Byte.x0a))
       demo_proof (path demo_sha 1 (slot_hash demo_sha <$> demo_forged) 0), []) = true /\
  demo_forged !! 1 <> demo_slots !! 1.
Proof.
  split; [|by vm_compute]. unfold demo_redeem, demo_proof.
  apply (continuation_root_unbound demo_sha demo_forged_tx demo_input [] 1 demo_slots 0 (demo_dest Byte.x0a) 1000 40 demo_forged 0);
    [by apply demo_view|reflexivity|lia|cbn; lia|cbn; lia|reflexivity|reflexivity|lia|lia|reflexivity|by vm_compute|vm_compute; reflexivity|vm_compute; reflexivity].
Defined.

(** The exit of 1000 is closed for 3. *)
Definition demo_shaved_spk : bytes := to_script_bytes (demo_dest Byte.x0a) ++ [Byte.xe8].
Definition demo_shaved_tx : TxView := demo_tx demo_shaved_spk 3 (demo_redeem (<[0 := None]> demo_slots)).

Lemma exit_leaf_ambiguous_witness :
  script_run demo_shaved_tx (demo_redeem demo_slots)
    (claim_stack (num_bytes 3) (drop 1 (vec_to_list (le_split 8 1000))) demo_shaved_spk demo_proof demo_proof, []) = true.
Proof.
  unfold demo_redeem, demo_proof.
  apply (exit_leaf_ambiguous demo_sha demo_shaved_tx demo_input [] 1 demo_slots 0 (demo_dest Byte.x0a) 1000 1);
    [by apply demo_view|reflexivity|lia|cbn; lia|reflexivity|lia|lia|reflexivity|reflexivity|vm_compute; reflexivity|vm_compute; reflexivity].
Defined.

Lemma exits_committed_witness :
  exists acc, add_exits demo_sha [(demo_dest Byte.x0a, 1000%Z); (demo_dest Byte.x0b, 70%Z)] = Ok acc /\
    PermissionTreeAccumulator.finalize demo_sha acc = Ok (blake2b_script_hash (demo_redeem demo_slots)).
Proof. apply (exits_committed demo_sha [(demo_dest Byte.x0a, 1000%Z); (demo_dest Byte.x0b, 70%Z)]). reflexivity. Defined.
