(* ===== verification/StateSpaces.v ===== *)
(** * StateSpaces: the typed state spaces of [state]

    Versions of resources, their latest and rollback pointers, batch metadata, system metadata and
    cached proof receipts, as keys and values of the store's column families. Writers return the
    operations they append to a write batch. *)

From S2P Require Import Prelude Codec Types SmtNode SmtTrie SmtUpdate SmtTree AtomicRing CanonicalChain RocksStore L1Types.

(** ** Borsh of metadata *)

Class BorshCodec (M : Type) := {
  borsh_to_vec : M -> bytes;
  borsh_deserialize : bparser M;
  borsh_ok : M -> Prop
}.

Class BorshCodecOk (M : Type) `{BorshCodec M} := {
  borsh_run (m : M) rest : borsh_ok m -> borsh_deserialize (borsh_to_vec m ++ rest) = Some (m, rest)
}.

(** [Default]. *)
Class Default (A : Type) := default_value : A.

Definition be64 (z : Z) : bytes := vec_to_list (be_split 8 z).

(** [u64::from_be_bytes(bytes[..8].try_into().unwrap())]. *)
Definition u64_from_be (b : bytes) : Result Z :=
  v ← expect (array_of_list 8 (take 8 b)); Ok (be_value (vec_to_list v)).

(** [borsh::from_slice::<ResourceId>]. *)
Definition resource_id_from_slice (b : bytes) : option ResourceId := Borsh.try_from_slice Borsh.read_hash b.

Section spaces.
Context {Db : Type} `{OrderedKv Db}.
Implicit Types (s : RocksDbStore Db).

(** ** state/ptr-latest *)

(** An [Option] mapped by a function that may panic. *)
Definition map_get {A} (f : bytes -> Result A) (o : option bytes) : Result (option A) :=
  match o with None => Ok None | Some b => x ← f b; Ok (Some x) end.

Definition latest_get s (rid : ResourceId) : Result (option Z) :=
  map_get u64_from_be (get s StatePtrLatest (vec_to_list rid)).
Definition latest_put (rid : ResourceId) (version : Z) : BatchOp := Put StatePtrLatest (vec_to_list rid) (be64 version).
Definition latest_delete (rid : ResourceId) : BatchOp := Delete StatePtrLatest (vec_to_list rid).

(** ** state/ptr-rollback *)

Definition rollback_key (batch_index : Z) (rid : ResourceId) : bytes := be64 batch_index ++ vec_to_list rid.
Definition rollback_put (batch_index : Z) (rid : ResourceId) (old_version : Z) : BatchOp :=
  Put StatePtrRollback (rollback_key batch_index rid) (be64 old_version).
Definition rollback_get s (batch_index : Z) (rid : ResourceId) : Result (option Z) :=
  map_get u64_from_be (get s StatePtrRollback (rollback_key batch_index rid)).
Definition rollback_delete (batch_index : Z) (rid : ResourceId) : BatchOp :=
  Delete StatePtrRollback (rollback_key batch_index rid).

(** Pairs of resource id bytes and old version, in key order. *)
Definition rollback_iter_batch s (batch_index : Z) : Result (list (bytes * Z)) :=
  mapM_outcome (fun '(key, value) =>
    _ ← assert (8 <=? length key);
    old_version ← u64_from_be value;
    Ok (drop 8 key, old_version))
    (prefix_iter s StatePtrRollback (be64 batch_index)).

(** ** state/version *)

Record Version := { sv_resource_id : ResourceId; sv_version : Z; sv_data : bytes }.

Definition version_key (version : Z) (rid : ResourceId) : bytes := be64 version ++ vec_to_list rid.
Definition version_get s (version : Z) (rid : ResourceId) : option bytes := get s StateVersion (version_key version rid).
Definition version_put (version : Z) (rid : ResourceId) (data : bytes) : BatchOp := Put StateVersion (version_key version rid) data.
Definition version_delete (version : Z) (rid : ResourceId) : BatchOp := Delete StateVersion (version_key version rid).

Definition version_empty (rid : ResourceId) : Version := {| sv_resource_id := rid; sv_version := 0; sv_data := [] |}.

Definition at_version s (version : Z) (rid : ResourceId) : Version :=
  {| sv_resource_id := rid; sv_version := version; sv_data := default [] (version_get s version rid) |}.

Definition from_latest_data s (rid : ResourceId) : Result Version :=
  latest ← latest_get s rid;
  Ok (match latest with None => version_empty rid | Some version => at_version s version rid end).

(** [data_mut]: the version advances whatever is then written to the data. *)
Definition data_mut (v : Version) (version : Z) (data : bytes) : Version :=
  {| sv_resource_id := sv_resource_id v; sv_version := version; sv_data := data |}.

(** [set_data]: on a shared or an owned object alike, and only if the data changes. *)
Definition set_data (v : Version) (version : Z) (data : bytes) : Version :=
  if bool_decide (sv_data v = data) then v
  else {| sv_resource_id := sv_resource_id v; sv_version := version; sv_data := data |}.

Definition is_empty (b : bytes) : bool := match b with [] => true | _ => false end.

Definition write_data (v : Version) : list BatchOp :=
  if is_empty (sv_data v) then [] else [version_put (sv_version v) (sv_resource_id v) (sv_data v)].
Definition write_latest_ptr (v : Version) : list BatchOp :=
  if is_empty (sv_data v) then [latest_delete (sv_resource_id v)] else [latest_put (sv_resource_id v) (sv_version v)].
Definition write_rollback_ptr (v : Version) (batch_index : Z) : list BatchOp :=
  [rollback_put batch_index (sv_resource_id v) (if is_empty (sv_data v) then 0 else sv_version v)%Z].

(** ** state/batch-metadata *)

Section metadata.
Context {M : Type} `{BorshCodec M} `{Default M}.

Definition from_slice (b : bytes) : Result M := expect (Borsh.try_from_slice borsh_deserialize b).

Definition batch_metadata_get s (batch_index : Z) : Result M :=
  m ← map_get from_slice (get s SpaceBatchMetadata (be64 batch_index));
  Ok (default default_value m).
Definition batch_metadata_exists s (batch_index : Z) : bool := bool_decide (is_Some (get s SpaceBatchMetadata (be64 batch_index))).
Definition batch_metadata_set (batch_index : Z) (metadata : M) : BatchOp :=
  Put SpaceBatchMetadata (be64 batch_index) (borsh_to_vec metadata).
Definition batch_metadata_delete (batch_index : Z) : BatchOp := Delete SpaceBatchMetadata (be64 batch_index).

(** ** state/metadata *)

Definition KEY_ROOT : bytes := [Byte.x72; Byte.x6f; Byte.x6f; Byte.x74].
Definition KEY_LAST_COMMITTED : bytes :=
  [Byte.x6c; Byte.x61; Byte.x73; Byte.x74; Byte.x5f; Byte.x63; Byte.x6f; Byte.x6d; Byte.x6d; Byte.x69; Byte.x74; Byte.x74; Byte.x65; Byte.x64].

Definition default_checkpoint : Checkpoint M := {| cp_index := 0; cp_metadata := default_value |}.
Definition checkpoint_to_vec (c : Checkpoint M) : bytes := Borsh.write_u64 (cp_index c) ++ borsh_to_vec (cp_metadata c).
Definition checkpoint_deserialize : bparser (Checkpoint M) :=
  index ← Borsh.read_u64; metadata ← borsh_deserialize; mret {| cp_index := index; cp_metadata := metadata |}.

Definition checkpoint_get s (key : bytes) : Result (Checkpoint M) :=
  c ← map_get (fun b => expect (Borsh.try_from_slice checkpoint_deserialize b)) (get s SpaceMetadata key);
  Ok (default default_checkpoint c).
Definition metadata_root s : Result (Checkpoint M) := checkpoint_get s KEY_ROOT.
Definition metadata_last_committed s : Result (Checkpoint M) := checkpoint_get s KEY_LAST_COMMITTED.
Definition set_root (c : Checkpoint M) : BatchOp := Put SpaceMetadata KEY_ROOT (checkpoint_to_vec c).
Definition set_last_committed (c : Checkpoint M) : BatchOp := Put SpaceMetadata KEY_LAST_COMMITTED (checkpoint_to_vec c).

(** ** storage/types/store.rs: the manager of the canonical chain, from the stored batches *)

Definition stored_batches s : Result (list (Z * M)) :=
  mapM_outcome (fun '(key, value) =>
    id ← u64_from_be key;
    metadata ← from_slice value;
    Ok (id, metadata)) (prefix_iter s SpaceBatchMetadata []).

Definition canonical_chain_manager (debug : bool) `{BatchMetadata M} s : Result (Manager.t M) :=
  entries ← stored_batches s;
  Manager.new debug (canonical s) entries.
End metadata.

(** ** state/proof-receipt *)

Inductive ReceiptKey :=
| BatchKey (checkpoint_index : Z) (block_hash image_id : array 32)
| TxKey (checkpoint_index : Z) (block_hash image_id : array 32) (merge_idx : Z)
| AggregatorKey (checkpoint_index : Z) (block_hash image_id seq_commit : array 32).

Definition receipt_key_bytes (k : ReceiptKey) : bytes :=
  match k with
  | BatchKey i h image => be64 i ++ vec_to_list h ++ vec_to_list image
  | TxKey i h image merge => be64 i ++ vec_to_list h ++ vec_to_list image ++ vec_to_list (be_split 4 merge)
  | AggregatorKey i h image seq => be64 i ++ vec_to_list h ++ vec_to_list image ++ vec_to_list seq
  end.
Definition receipt_index (k : ReceiptKey) : Z :=
  match k with BatchKey i _ _ | TxKey i _ _ _ | AggregatorKey i _ _ _ => i end.

(** Receipts are opaque Borsh values. *)
Definition receipt_get {R} `{BorshCodec R} s (k : ReceiptKey) : Result (option R) :=
  map_get from_slice (get s ProofReceipt (receipt_key_bytes k)).
Definition receipt_put {R} `{BorshCodec R} (k : ReceiptKey) (receipt : R) : BatchOp :=
  Put ProofReceipt (receipt_key_bytes k) (borsh_to_vec receipt).
Definition receipt_delete (k : ReceiptKey) : BatchOp := Delete ProofReceipt (receipt_key_bytes k).

Definition invalidate_checkpoint s (checkpoint_index : Z) : list BatchOp :=
  (fun '(key, _) => Delete ProofReceipt key) <$> prefix_iter s ProofReceipt (be64 checkpoint_index).
End spaces.
