(* ===== verification/SchedStore.v ===== *)
(** * SchedStore: what the scheduler writes

    The write side of [scheduling/scheduler]: state diffs, batch commits, rollbacks and pruning, as
    operations on the store. *)

From S2P Require Import Prelude Codec Types SmtNode SmtTrie SmtUpdate SmtTree AtomicRing CanonicalChain RocksStore L1Types StateSpaces.

(** ** state_diff.rs *)

(** The states before and after the batch, once they are known. *)
Record StateDiff := {
  sd_resource_id : ResourceId;
  sd_index : Z;
  sd_read : option Version;
  sd_written : option Version
}.

Definition read_state (d : StateDiff) : Result Version := expect (sd_read d).
Definition written_state (d : StateDiff) : Result Version := expect (sd_written d).

Definition data_updated (d : StateDiff) : Result bool :=
  written ← written_state d;
  read ← read_state d;
  Ok (sv_version read <? sv_version written)%Z.

(** [StateDiff::write]. *)
Definition state_diff_write (canceled : bool) (batch_index : Z) (d : StateDiff) : Result (list BatchOp) :=
  read ← read_state d;
  written ← written_state d;
  Ok (if negb canceled && (sv_version read <? sv_version written)%Z
      then write_data written ++ write_rollback_ptr read batch_index else []).

(** [Commitment::from]. *)
Definition diff_commitment `{Hasher} (d : StateDiff) : Result Commitment :=
  written ← written_state d;
  Ok {| key := sd_resource_id d;
        value_hash := if is_empty (sv_data written) then EMPTY_HASH else hash (sv_data written) |}.

Fixpoint updated_state_diffs (ds : list StateDiff) : Result (list StateDiff) :=
  match ds with
  | [] => Ok []
  | d :: ds =>
      updated ← data_updated d;
      rest ← updated_state_diffs ds;
      Ok (if updated : bool then d :: rest else rest)
  end.

(** ** Write batches over the store *)

Section commands.
Context `{Hasher} {Db : Type} `{OrderedKv Db} {M : Type} `{BorshCodec M} `{Default M}.
Implicit Types (s : RocksDbStore Db).

Definition commit_ops s (wb : list BatchOp) : RocksDbStore Db := {| db := db_write (db s) wb; canonical := canonical s |}.

(** [ScheduledBatch::commit]: what it appends to the write batch. [root] is the root in memory. *)
Definition batch_commit s (canceled restored : bool) (root : Z) (checkpoint : Checkpoint M) (ds : list StateDiff)
    : Result (list BatchOp) :=
  if canceled then Ok []
  else
    updated ← updated_state_diffs ds;
    latest ← mapM_outcome (fun d => written ← written_state d; Ok (write_latest_ptr written)) updated;
    fresh ← (if restored then Ok []
             else
               commitments ← mapM_outcome diff_commitment updated;
               '(_, ops) ← Tree.update s commitments (cp_index checkpoint);
               Ok (batch_metadata_set (cp_index checkpoint) (cp_metadata checkpoint) :: (lower <$> ops)));
    Ok (concat latest ++ fresh ++ [set_last_committed checkpoint] ++
        (if (cp_index checkpoint =? root)%Z then [set_root checkpoint] else [])).

(** ** rollback.rs *)

Definition restore_latest_ptr (rid : ResourceId) (old_version : Z) : BatchOp :=
  if (old_version =? 0)%Z then latest_delete rid else latest_put rid old_version.

(** The pointers of one batch. *)
Definition rollback_batch s (index : Z) : Result (list BatchOp) :=
  entries ← rollback_iter_batch s index;
  mapM_outcome (fun '(raw, old_version) =>
    rid ← expect (resource_id_from_slice raw);
    Ok (restore_latest_ptr rid old_version)) entries.

(** From the newest batch to the oldest one above the target. *)
Definition rollback_range (target upper_bound : Z) : list Z := reverse (seqZ (target + 1) (upper_bound - target)).

(** [Rollback::execute]: pending writes are committed first. Returns the store and the shared
    last-committed and root checkpoints. *)
Definition rollback_execute s (wb : list BatchOp) (target : Checkpoint M) (upper_bound : Z) (snapshot : Snapshot)
    (last_committed root : Checkpoint M) : Result (RocksDbStore Db * Checkpoint M * Checkpoint M) :=
  let s := commit_ops s wb in
  let target_committed := (cp_index target <? cp_index last_committed)%Z in
  let rollback_to_genesis := (cp_index target =? 0)%Z in
  ops ← mapM_outcome (fun index =>
    if is_canonical (mem (canonical s)) snapshot index then rollback_batch s index else Ok [])
    (rollback_range (cp_index target) upper_bound);
  let wb := concat ops ++ (if target_committed then [set_last_committed target] else []) ++
            (if rollback_to_genesis then [set_root target] else []) in
  Ok (commit_ops s wb, if target_committed then target else last_committed, if rollback_to_genesis then target else root).

(** ** pruning_worker.rs *)

(** What one batch of a pruning pass deletes. *)
Definition prune_batch s (view : Snapshot) (index : Z) : Result (list BatchOp) :=
  entries ← rollback_iter_batch s index;
  let canonical := is_canonical (mem (canonical s)) view index in
  ptrs ← mapM_outcome (fun '(raw, old_version) =>
    rid ← expect (resource_id_from_slice raw);
    Ok ((if negb canonical then [version_delete index rid]
         else if negb (old_version =? 0)%Z then [version_delete old_version rid] else []) ++
        [rollback_delete index rid])) entries;
  stale ← RocksStore.prune s index;
  Ok (concat ptrs ++ [batch_metadata_delete index] ++ invalidate_checkpoint s index ++ (lower <$> stale)).

(** The checkpoint of the first batch that survives; it becomes the root in memory first. *)
Definition prune_root s (upper_bound : Z) : Result (Checkpoint M) :=
  metadata ← batch_metadata_get s (upper_bound + 1);
  Ok {| cp_index := (upper_bound + 1)%Z; cp_metadata := metadata |}.

(** Then one view of the chain decides what goes. *)
Definition prune_delete s (lower_bound upper_bound : Z) (new_root : Checkpoint M) : Result (RocksDbStore Db) :=
  let view := current (canonical s) in
  ops ← mapM_outcome (prune_batch s view) (seqZ lower_bound (upper_bound - lower_bound + 1));
  Ok (commit_ops s (concat ops ++ [set_root new_root])).

(** ** resource_access.rs *)

(** [restore_committed_data]: the states of a returning batch, read back from the store. *)
Definition restore_committed_data s (batch_index : Z) (rid : ResourceId) : Result (Version * Version) :=
  ptr ← rollback_get s batch_index rid;
  match ptr with
  | Some old_version => Ok (at_version s old_version rid, at_version s batch_index rid)
  | None => current ← from_latest_data s rid; Ok (current, current)
  end.

(** [ScheduledBatch::restore_committed]: the diffs of the batch's resources, in index order. *)
Definition restore_committed s (batch_index : Z) (rids : list ResourceId) : Result (list StateDiff) :=
  mapM_outcome (fun '(i, rid) =>
    '(read, written) ← restore_committed_data s batch_index rid;
    Ok {| sd_resource_id := rid; sd_index := Z.of_nat i; sd_read := Some read; sd_written := Some written |})
    (imap pair rids).
End commands.
