(* ===== verification/SchedCore.v ===== *)
(** * SchedCore: the scheduler's own state

    [scheduler.rs], [state.rs], [cancellation_context.rs] and the counters of [pruning_worker.rs]:
    checkpoints, pending batches, cancellation and the chain of ids, over the store. *)

From S2P Require Import Prelude Codec Types SmtNode SmtTrie SmtUpdate SmtTree AtomicRing CanonicalChain RocksStore L1Types StateSpaces SchedStore.

(** ** cancellation_context.rs *)

Module CancellationContext.

(** A context; parents are weak references to earlier contexts. *)
Record data := { parent_context : option nat; first_index : Z; cancel_threshold : Z }.

Definition U64_MAX : Z := (2 ^ 64 - 1)%Z.

(** All contexts so far and the current one. *)
Record t := { contexts : list data; current : nat }.

Definition new (first_index : Z) : t :=
  {| contexts := [{| parent_context := None; first_index := first_index; cancel_threshold := U64_MAX |}]; current := 0 |}.

Definition threshold (cs : list data) (c : nat) : Z := from_option cancel_threshold U64_MAX (cs !! c).

(** [ScheduledBatch::canceled] of a batch that holds context [c]. *)
Definition canceled (cs : list data) (c : nat) (index : Z) : bool := (threshold cs c <? index)%Z.

Definition store_threshold (cs : list data) (c : nat) (index : Z) : list data :=
  match cs !! c with
  | Some d => <[c := {| parent_context := parent_context d; first_index := first_index d; cancel_threshold := index |}]> cs
  | None => cs
  end.

(** [upgrade] tells which contexts are still held; parents are older, so [c] rounds are enough. *)
Fixpoint canceled_parent_context (fuel : nat) (upgrade : nat -> bool) (cs : list data) (c : nat) (index : Z) : option nat * list data :=
  match fuel, cs !! c with
  | S fuel, Some d =>
      let cs := store_threshold cs c index in
      if (first_index d <=? index)%Z then (Some c, cs)
      else match parent_context d with
           | Some p => if upgrade p then canceled_parent_context fuel upgrade cs p index else (None, cs)
           | None => (None, cs)
           end
  | _, _ => (None, cs)
  end.

Definition rollback (upgrade : nat -> bool) (x : t) (index : Z) : t :=
  let '(parent, cs) := canceled_parent_context (S (current x)) upgrade (contexts x) (current x) index in
  {| contexts := cs ++ [{| parent_context := parent; first_index := index; cancel_threshold := U64_MAX |}];
     current := length cs |}.
End CancellationContext.

(** ** pruning_worker.rs: the shared counters *)

Module PruningWorker.

Record t := { pruning_threshold : Z; pause_ceiling : Z; pruning_cursor : Z }.

Definition U64_MAX : Z := (2 ^ 64 - 1)%Z.
Definition saturating_pred (z : Z) : Z := Z.max 0 (z - 1).

Definition new (root_index : Z) : t :=
  {| pruning_threshold := root_index; pause_ceiling := U64_MAX; pruning_cursor := saturating_pred root_index |}.

Definition set_threshold (w : t) (threshold : Z) : t :=
  {| pruning_threshold := Z.max (pruning_threshold w) threshold; pause_ceiling := pause_ceiling w; pruning_cursor := pruning_cursor w |}.

Definition set_ceiling (w : t) (ceiling : Z) : t :=
  {| pruning_threshold := pruning_threshold w; pause_ceiling := ceiling; pruning_cursor := pruning_cursor w |}.
Definition set_cursor (w : t) (cursor : Z) : t :=
  {| pruning_threshold := pruning_threshold w; pause_ceiling := pause_ceiling w; pruning_cursor := cursor |}.

Definition pause (w : t) (ceiling : Z) : bool * t :=
  let w := set_ceiling w ceiling in
  if (pruning_cursor w <=? ceiling)%Z then (true, w) else (false, set_ceiling w U64_MAX).
Definition unpause (w : t) : t := set_ceiling w U64_MAX.

(** The last batch the worker may prune. *)
Definition upper_bound (w : t) : Z := saturating_pred (Z.min (pruning_threshold w) (pause_ceiling w)).
Definition has_work (w : t) (root_index : Z) : bool := (root_index <=? upper_bound w)%Z && (0 <? root_index)%Z.

(** Without a rollback in between the second look at the ceiling never stops a pass. *)
Lemma recheck_passes w root_index : has_work w root_index = true -> (pause_ceiling w <=? upper_bound w)%Z = false.
Proof. unfold has_work, upper_bound, saturating_pred. rewrite andb_true_iff, Z.leb_le, Z.ltb_lt, Z.leb_gt. lia. Qed.
End PruningWorker.

(** ** scheduler.rs *)

Section scheduler.
Context `{Hasher} {Db : Type} `{OrderedKv Db} {M : Type} `{BorshCodec M} `{Default M} `{BatchMetadata M} (debug : bool).

Record Scheduler := {
  sc_store : RocksDbStore Db;
  sc_manager : Manager.t M;
  sc_root : Checkpoint M;
  sc_last_committed : Checkpoint M;
  sc_last_processed : Checkpoint M;
  sc_pending_batches : list (Checkpoint M);
  sc_cancellation : CancellationContext.t;
  sc_pruning : PruningWorker.t
}.

(** The manager writes the chain the store reads. *)
Definition chain_of (s : RocksDbStore Db) (m : Manager.t M) : RocksDbStore Db := {| db := db s; canonical := Manager.chain_ m |}.

(** [SchedulerState::new] and [Scheduler::with_state]. *)
Definition scheduler_new (s : RocksDbStore Db) : Result Scheduler :=
  root ← metadata_root s;
  last_committed ← metadata_last_committed s;
  m ← canonical_chain_manager debug s;
  Ok {| sc_store := chain_of s m; sc_manager := m; sc_root := root; sc_last_committed := last_committed;
        sc_last_processed := last_committed; sc_pending_batches := [];
        sc_cancellation := CancellationContext.new (cp_index root); sc_pruning := PruningWorker.new (cp_index root) |}.

(** Drops the leading checkpoints that are committed. *)
Fixpoint drain_committed (committed : Z) (pending : list (Checkpoint M)) : list (Checkpoint M) :=
  match pending with
  | cp :: rest => if (cp_index cp <=? committed)%Z then drain_committed committed rest else pending
  | [] => []
  end.

Definition next_checkpoint (supports_restore : bool) (sc : Scheduler) (metadata : M) : Result (Checkpoint M * bool * Scheduler) :=
  let pending := drain_committed (cp_index (sc_last_committed sc)) (sc_pending_batches sc) in
  '(outcome, m) ← Manager.append debug (sc_manager sc) metadata;
  let checkpoint := {| cp_index := id outcome; cp_metadata := metadata |} in
  let restore := negb (is_new outcome) && supports_restore && batch_metadata_exists (sc_store sc) (id outcome) in
  Ok (checkpoint, restore,
      {| sc_store := chain_of (sc_store sc) m; sc_manager := m;
         sc_root := if (cp_index (sc_root sc) =? 0)%Z then checkpoint else sc_root sc;
         sc_last_committed := sc_last_committed sc; sc_last_processed := checkpoint;
         sc_pending_batches := pending ++ [checkpoint];
         sc_cancellation := sc_cancellation sc; sc_pruning := sc_pruning sc |}).

(** The pending checkpoints are in ascending order. *)
Fixpoint find_pending (index : Z) (pending : list (Checkpoint M)) : option (Checkpoint M) :=
  match pending with
  | [] => None
  | cp :: rest =>
      if (cp_index cp =? index)%Z then Some cp
      else if (index <? cp_index cp)%Z then None else find_pending index rest
  end.

Definition lookup_checkpoint (sc : Scheduler) (index : Z) : Result (Checkpoint M) :=
  if (index =? 0)%Z then Ok default_checkpoint
  else match find_pending index (sc_pending_batches sc) with
       | Some cp => Ok cp
       | None => metadata ← batch_metadata_get (sc_store sc) index; Ok {| cp_index := index; cp_metadata := metadata |}
       end.

(** Pops the checkpoints above the target off the end. *)
Fixpoint pop_canceled (target_index : Z) (reversed : list (Checkpoint M)) : list (Checkpoint M) :=
  match reversed with
  | cp :: rest => if (target_index <? cp_index cp)%Z then pop_canceled target_index rest else reversed
  | [] => []
  end.

Definition cancel_and_rollback (upgrade : nat -> bool) (sc : Scheduler) (target_index : Z) : Result (Checkpoint M * Scheduler) :=
  target ← lookup_checkpoint sc target_index;
  m ← Manager.rollback debug (sc_manager sc) target_index;
  Ok (target,
      {| sc_store := chain_of (sc_store sc) m; sc_manager := m; sc_root := sc_root sc;
         sc_last_committed := sc_last_committed sc; sc_last_processed := target;
         sc_pending_batches := reverse (pop_canceled target_index (reverse (sc_pending_batches sc)));
         sc_cancellation := CancellationContext.rollback upgrade (sc_cancellation sc) target_index;
         sc_pruning := sc_pruning sc |}).

(** The outcome of [rollback_to]: [None] for [PruningConflict]. [wb] is what the write worker has
    not committed yet when the command reaches it. *)
Definition rollback_to (upgrade : nat -> bool) (wb : list BatchOp) (sc : Scheduler) (target_index : Z)
    : Result (option (Checkpoint M) * Scheduler) :=
  let upper_bound := cp_index (sc_last_processed sc) in
  if (target_index <? upper_bound)%Z then
    let '(ok, pruning) := PruningWorker.pause (sc_pruning sc) target_index in
    let sc := {| sc_store := sc_store sc; sc_manager := sc_manager sc; sc_root := sc_root sc;
                 sc_last_committed := sc_last_committed sc; sc_last_processed := sc_last_processed sc;
                 sc_pending_batches := sc_pending_batches sc; sc_cancellation := sc_cancellation sc;
                 sc_pruning := pruning |} in
    if negb ok then Ok (None, sc)
    else
      let snapshot := current (Manager.chain_ (sc_manager sc)) in
      '(target, sc) ← cancel_and_rollback upgrade sc target_index;
      '(s, last_committed, root) ← rollback_execute (sc_store sc) wb target upper_bound snapshot (sc_last_committed sc) (sc_root sc);
      Ok (Some target,
          {| sc_store := s; sc_manager := sc_manager sc; sc_root := root; sc_last_committed := last_committed;
             sc_last_processed := sc_last_processed sc; sc_pending_batches := sc_pending_batches sc;
             sc_cancellation := sc_cancellation sc; sc_pruning := PruningWorker.unpause (sc_pruning sc) |})
  else Ok (Some (sc_last_processed sc), sc).

(** [ChainSink::finalize]. *)
Definition sink_finalize (sc : Scheduler) (below : Z) : Scheduler :=
  let m := Manager.finalize (sc_manager sc) (cp_index (sc_root sc)) in
  {| sc_store := chain_of (sc_store sc) m; sc_manager := m; sc_root := sc_root sc;
     sc_last_committed := sc_last_committed sc; sc_last_processed := sc_last_processed sc;
     sc_pending_batches := sc_pending_batches sc; sc_cancellation := sc_cancellation sc;
     sc_pruning := PruningWorker.set_threshold (sc_pruning sc) below |}.
Definition sink_tip (sc : Scheduler) : Z := tip (current (Manager.chain_ (sc_manager sc))).
Definition sink_metadata (sc : Scheduler) (id : Z) : option M := Manager.metadata (sc_manager sc) id.
Definition sink_id (sc : Scheduler) (block_hash : array 32) : option Z := Manager.id_of (sc_manager sc) block_hash.
End scheduler.
