(* ===== verification/SchedProofs.v ===== *)
(** * SchedProofs: the scheduler's store as a history of states

    The versions, latest pointers and rollback pointers on disk represent a base state and the
    canonical batches above it; commits, rollbacks, restores and pruning keep that invariant. *)

From S2P Require Import Prelude Codec Types SmtNode SmtTrie SmtUpdate SmtTree AtomicRing CanonicalChain RocksStore L1Types StateSpaces SchedStore.

(** ** Keys and values *)

Lemma be64_len z : length (be64 z) = 8.
Proof. apply length_vec_to_list. Qed.

Lemma be64_inj a b : u64 a -> u64 b -> be64 a = be64 b -> a = b.
Proof. intros Ha Hb E. apply (f_equal be_value) in E. unfold be64 in E. by rewrite !be_value_split_small in E. Qed.

Lemma u64_from_be64 z : u64 z -> u64_from_be (be64 z) = Ok z.
Proof.
  intros Hz. unfold u64_from_be. rewrite take_ge by by rewrite be64_len. unfold be64. rewrite array_of_vec_to_list. cbn [expect mbind outcome_bind].
  by rewrite be_value_split_small.
Qed.

Lemma resource_id_slice (rid : ResourceId) : resource_id_from_slice (vec_to_list rid) = Some rid.
Proof.
  unfold resource_id_from_slice, Borsh.try_from_slice. rewrite <- (app_nil_r (vec_to_list rid)). by rewrite read_hash_run.
Qed.

Lemma indexed_key_inj i j (r q : ResourceId) :
  u64 i -> u64 j -> be64 i ++ vec_to_list r = be64 j ++ vec_to_list q -> i = j /\ r = q.
Proof.
  intros Hi Hj E. apply app_inj_1 in E as [E1 E2]; [|by rewrite !be64_len].
  split; [by apply be64_inj|by apply vec_to_list_inj2].
Qed.

Lemma bytes_leb_app a b : bytes_leb a (a ++ b) = true.
Proof. unfold bytes_leb. induction a as [|x a IH]; [by destruct b|]. cbn. by rewrite Z.compare_refl. Qed.

(** ** Write batches *)

Lemma batch_effect_app a b ns k :
  batch_effect (a ++ b) ns k = match batch_effect b ns k with Some x => Some x | None => batch_effect a ns k end.
Proof.
  induction b as [|op b IH] using rev_ind; [by rewrite app_nil_r|].
  unfold batch_effect in *. rewrite foldl_app in IH. rewrite app_assoc, !foldl_app. cbn [foldl]. destruct op; case_decide; [done|exact IH|done|exact IH].
Qed.

Definition touches (op : BatchOp) (ns : StateSpace) (k : bytes) : Prop :=
  match op with Put ns' k' _ | Delete ns' k' => ns' = ns /\ k' = k end.

Lemma batch_effect_untouched ops ns k : Forall (fun op => ~ touches op ns k) ops -> batch_effect ops ns k = None.
Proof.
  induction ops as [|op ops IH] using rev_ind; [done|]. intros [Hl Hop%Forall_inv]%Forall_app.
  rewrite batch_effect_app. unfold batch_effect at 1. cbn [foldl]. destruct op; cbn in Hop; rewrite decide_False by done; by apply IH.
Qed.

Lemma batch_effect_put ns k v ns' k' :
  batch_effect [Put ns k v] ns' k' = if decide (ns = ns' /\ k = k') then Some (Some v) else None.
Proof. done. Qed.
Lemma batch_effect_delete ns k ns' k' :
  batch_effect [Delete ns k] ns' k' = if decide (ns = ns' /\ k = k') then Some None else None.
Proof. done. Qed.

#[export] Instance touches_dec op ns k : Decision (touches op ns k).
Proof. destruct op; cbn; apply _. Defined.

Definition op_value (op : BatchOp) : option bytes := match op with Put _ _ v => Some v | Delete _ _ => None end.

(** All operations on the key agree. *)
Lemma batch_effect_agree ops ns k e :
  (exists op, op ∈ ops /\ touches op ns k) -> (forall op, op ∈ ops -> touches op ns k -> op_value op = e) ->
  batch_effect ops ns k = Some e.
Proof.
  induction ops as [|op ops IH] using rev_ind; intros (o & Ho & Ht) Hall; [by apply elem_of_nil in Ho|].
  rewrite batch_effect_app. destruct (decide (touches op ns k)) as [Htop|Hntop].
  - specialize (Hall op ltac:(set_solver) Htop). destruct op; cbn in *; subst; rewrite ?batch_effect_put, ?batch_effect_delete, decide_True; done.
  - rewrite (batch_effect_untouched [op]) by (constructor; done). apply IH.
    + exists o. apply elem_of_app in Ho as [Ho|Ho%list_elem_of_singleton]; [done|]. by subst.
    + intros o' Ho'. apply Hall. set_solver.
Qed.

Definition op_space (op : BatchOp) : StateSpace := match op with Put ns _ _ | Delete ns _ => ns end.

Lemma batch_effect_space ops ns k : Forall (fun op => op_space op <> ns) ops -> batch_effect ops ns k = None.
Proof. intros Hs. apply batch_effect_untouched. eapply Forall_impl; [exact Hs|]. intros [|]; cbn; naive_solver. Qed.

(** ** Histories *)

(** The version and the data of every existing resource. *)
Abbreviation vstate := (gmap ResourceId (Z * bytes)).

(** A batch: its index and the data it wrote, empty for a deletion. *)
Record hbatch := { hb_index : Z; hb_writes : gmap ResourceId bytes }.

Definition after_write (i : Z) (old : option (Z * bytes)) (new : option bytes) : option (Z * bytes) :=
  match new with None => old | Some [] => None | Some data => Some (i, data) end.

Definition apply_batch (σ : vstate) (b : hbatch) : vstate := merge (after_write (hb_index b)) σ (hb_writes b).
Definition final (σ : vstate) (hist : list hbatch) : vstate := foldl apply_batch σ hist.

Definition old_version (σ : vstate) (r : ResourceId) : Z := from_option fst 0%Z (σ !! r).

Lemma lookup_apply σ b r : apply_batch σ b !! r = after_write (hb_index b) (σ !! r) (hb_writes b !! r).
Proof. unfold apply_batch. rewrite lookup_merge. by destruct (σ !! r), (hb_writes b !! r). Qed.

Lemma final_app σ h1 h2 : final σ (h1 ++ h2) = final (final σ h1) h2.
Proof. apply foldl_app. Qed.

Lemma final_untouched σ hist r : Forall (fun b => hb_writes b !! r = None) hist -> final σ hist !! r = σ !! r.
Proof.
  intros Hall. revert σ. induction Hall as [|b hist Hb _ IH]; intros σ; [done|]. cbn [final foldl].
  change (foldl apply_batch (apply_batch σ b) hist) with (final (apply_batch σ b) hist). by rewrite IH, lookup_apply, Hb.
Qed.

Lemma final_at σ1 σ2 hist r : σ1 !! r = σ2 !! r -> final σ1 hist !! r = final σ2 hist !! r.
Proof.
  revert σ1 σ2. induction hist as [|b hist IH]; intros σ1 σ2 E; [done|]. cbn [final foldl].
  apply (IH (apply_batch σ1 b) (apply_batch σ2 b)). by rewrite !lookup_apply, E.
Qed.

(** Indices grow from above the versions of the base state; versions and data are never empty. *)
Inductive wf_hist : Z -> vstate -> list hbatch -> Prop :=
| wf_nil n σ : (0 <= n)%Z -> (forall r v x, σ !! r = Some (v, x) -> (0 < v <= n)%Z /\ u64 v /\ x <> []) -> wf_hist n σ []
| wf_cons n σ b hist :
    (0 <= n)%Z -> (forall r v x, σ !! r = Some (v, x) -> (0 < v <= n)%Z /\ u64 v /\ x <> []) ->
    (n < hb_index b)%Z -> u64 (hb_index b) -> wf_hist (hb_index b) (apply_batch σ b) hist -> wf_hist n σ (b :: hist).

Lemma wf_base n σ hist : wf_hist n σ hist -> (0 <= n)%Z /\ forall r v x, σ !! r = Some (v, x) -> (0 < v <= n)%Z /\ u64 v /\ x <> [].
Proof. by destruct 1. Qed.

Lemma wf_cons_inv n σ b hist :
  wf_hist n σ (b :: hist) -> (n < hb_index b)%Z /\ u64 (hb_index b) /\ wf_hist (hb_index b) (apply_batch σ b) hist.
Proof. by inversion 1. Qed.

(** The newest index. *)
Definition top (n : Z) (hist : list hbatch) : Z := from_option hb_index n (last hist).

Lemma wf_app n σ h1 h2 : wf_hist n σ (h1 ++ h2) <-> wf_hist n σ h1 /\ wf_hist (top n h1) (final σ h1) h2.
Proof.
  revert n σ. induction h1 as [|b h1 IH]; intros n σ.
  { cbn [app final foldl top last from_option]. split; [|by intros [_ ?]]. intros Hwf. split; [|done].
    destruct (wf_base _ _ _ Hwf). by constructor. }
  assert (top n (b :: h1) = top (hb_index b) h1) as Ht.
  { unfold top. destruct h1 as [|b' h1]; [done|]. rewrite last_cons_cons. by destruct (last_is_Some (b' :: h1)) as [_ [x ->]]. }
  rewrite Ht. cbn [app final foldl]. change (foldl apply_batch (apply_batch σ b) h1) with (final (apply_batch σ b) h1).
  split.
  - intros Hwf. destruct (wf_base _ _ _ Hwf). apply wf_cons_inv in Hwf as (? & ? & Hwf). apply IH in Hwf as [? ?]. split; [by constructor|done].
  - intros [Hwf1 Hwf2]. destruct (wf_base _ _ _ Hwf1). apply wf_cons_inv in Hwf1 as (? & ? & Hwf1). constructor; [done..|]. by apply IH.
Qed.

(** A resource's version in a later state is its version now or a later index. *)
Lemma final_version n σ hist r v x :
  wf_hist n σ hist -> final σ hist !! r = Some (v, x) -> σ !! r = Some (v, x) \/ (exists b, b ∈ hist /\ v = hb_index b /\ is_Some (hb_writes b !! r)).
Proof.
  revert n σ. induction hist as [|b hist IH]; intros n σ Hwf Hf; [by left|]. apply wf_cons_inv in Hwf as (_ & _ & Hwf).
  destruct (IH _ _ Hwf Hf) as [Ha|(b' & Hb' & -> & Hw)]; [|right; exists b'; split; [by right|done]].
  rewrite lookup_apply in Ha. unfold after_write in Ha. destruct (hb_writes b !! r) as [[|y l]|] eqn:E; [done| |by left].
  injection Ha as <- <-. right. exists b. split; [by left|]. by rewrite E.
Qed.

Lemma wf_index_gt n σ hist b : wf_hist n σ hist -> b ∈ hist -> (n < hb_index b)%Z /\ u64 (hb_index b).
Proof.
  induction 1 as [|n σ b' hist _ _ Hlt Hu _ IH]; intros Hin; [by apply elem_of_nil in Hin|].
  apply elem_of_cons in Hin as [->|Hin]; [done|]. destruct (IH Hin). split; [lia|done].
Qed.

(** ** The invariant *)

Section disk.
Context {Db : Type} `{OrderedKvOk Db}.
Implicit Types (d : Db) (s : RocksDbStore Db).

(** Every entry of the rollback family is a pointer. *)
Definition pointers_ok d : Prop :=
  forall raw val, db_get d StatePtrRollback raw = Some val ->
    exists i r old, u64 i /\ u64 old /\ raw = rollback_key i r /\ val = be64 old.

(** The pointers a batch leaves. *)
Definition pointers_of d (σ : vstate) (b : hbatch) : Prop :=
  forall r, db_get d StatePtrRollback (rollback_key (hb_index b) r) =
    match hb_writes b !! r with Some _ => Some (be64 (old_version σ r)) | None => None end.

Definition data_of d (σ : vstate) : Prop :=
  forall r v x, σ !! r = Some (v, x) -> db_get d StateVersion (version_key v r) = Some x.

(** The data a batch wrote, under its index. *)
Definition written_of d (b : hbatch) : Prop :=
  forall r, default [] (db_get d StateVersion (version_key (hb_index b) r)) = default [] (hb_writes b !! r).

Definition kept d (σ : vstate) (b : hbatch) : Prop := pointers_of d σ b /\ written_of d b.

(** Above the base state, every state's data and every batch's pointers are there. *)
Fixpoint archived d (σ : vstate) (hist : list hbatch) : Prop :=
  data_of d σ /\
  match hist with
  | [] => True
  | b :: hist => kept d σ b /\ archived d (apply_batch σ b) hist
  end.

Definition entry (σ : vstate) (r : ResourceId) : option bytes := (fun p => be64 p.1) <$> σ !! r.

(** The latest pointers: those of the committed history, or of some pending batches on top. *)
Definition latest_is d (σ : vstate) (hist pending : list hbatch) : Prop :=
  forall r, exists l, l `prefix_of` pending /\ db_get d StatePtrLatest (vec_to_list r) = entry (final σ (hist ++ l)) r.

(** The database after the committed batches [hist], with what has been flushed of [pending]. *)
Record disk_rep d (n : Z) (σ : vstate) (hist pending : list hbatch) : Prop := {
  dr_wf : wf_hist n σ (hist ++ pending);
  dr_pointers : pointers_ok d;
  dr_genesis : forall r, db_get d StateVersion (version_key 0 r) = None;
  dr_archived : archived d σ (hist ++ pending);
  dr_latest : latest_is d σ hist pending
}.

Lemma archived_app d σ h1 h2 : archived d σ (h1 ++ h2) <-> archived d σ h1 /\ archived d (final σ h1) h2.
Proof.
  revert σ. induction h1 as [|b h1 IH]; intros σ.
  { cbn [app archived final foldl]. split; [|tauto]. intros Ha. split; [|done]. split; [|done]. by destruct h2, Ha. }
  cbn [app archived final foldl]. change (foldl apply_batch (apply_batch σ b) h1) with (final (apply_batch σ b) h1).
  rewrite IH. tauto.
Qed.

Lemma archived_data d σ hist : archived d σ hist -> data_of d (final σ hist).
Proof. intros Ha. rewrite <- (app_nil_r hist), archived_app in Ha. apply Ha. Qed.

Lemma archived_kept d σ h1 b h2 : archived d σ (h1 ++ b :: h2) -> kept d (final σ h1) b.
Proof. rewrite archived_app. intros [_ Ha]. apply Ha. Qed.

(** Archives are in two families. *)
Definition same_archive d d' : Prop :=
  forall ns k, ns = StateVersion \/ ns = StatePtrRollback -> db_get d' ns k = db_get d ns k.

Lemma archived_same d d' σ hist : same_archive d d' -> archived d σ hist -> archived d' σ hist.
Proof.
  intros Hs. revert σ. induction hist as [|b hist IH]; intros σ [Hd Ha]; (split; [intros r v x Hx; rewrite Hs by tauto; by apply Hd|]); [done|].
  destruct Ha as [[Hp Hw] Ha]. split; [split|by apply IH].
  - intros r. rewrite Hs by tauto. apply Hp.
  - intros r. rewrite Hs by tauto. apply Hw.
Qed.

Lemma pointers_same d d' : same_archive d d' -> pointers_ok d -> pointers_ok d'.
Proof. intros Hs Hok raw val. rewrite Hs by tauto. apply Hok. Qed.

Lemma rep_archive d d' n σ hist pending hist' pending' rest :
  same_archive d d' -> disk_rep d n σ hist pending -> hist ++ pending = (hist' ++ pending') ++ rest ->
  latest_is d' σ hist' pending' -> disk_rep d' n σ hist' pending'.
Proof.
  intros Hs [Hwf Hok Hg Ha _] E Hl. rewrite E in Hwf, Ha. apply wf_app in Hwf as [Hwf _]. apply archived_app in Ha as [Ha _].
  split; [done|by eapply pointers_same| |by eapply archived_same|done]. intros r. rewrite Hs by tauto. apply Hg.
Qed.

(** *** Reading *)

Definition version_of (σ : vstate) (r : ResourceId) : Version :=
  match σ !! r with
  | Some (v, x) => {| sv_resource_id := r; sv_version := v; sv_data := x |}
  | None => version_empty r
  end.

Lemma wf_final n σ h1 h2 r v x : wf_hist n σ (h1 ++ h2) -> final σ h1 !! r = Some (v, x) -> (0 < v <= top n h1)%Z /\ u64 v /\ x <> [].
Proof. intros [_ Hwf]%wf_app. destruct (wf_base _ _ _ Hwf) as [_ Hb]. apply Hb. Qed.

(** A read of the latest data follows the pointer to the state it points into. *)
Lemma from_latest_at s n σ hist pending l r :
  disk_rep (db s) n σ hist pending -> l `prefix_of` pending ->
  db_get (db s) StatePtrLatest (vec_to_list r) = entry (final σ (hist ++ l)) r ->
  from_latest_data s r = Ok (version_of (final σ (hist ++ l)) r).
Proof.
  intros [Hwf _ _ Ha _] [l' ->] Hr.
  unfold from_latest_data, latest_get, get. rewrite Hr. rewrite app_assoc in Hwf, Ha. apply archived_app in Ha as [Ha%archived_data _].
  unfold entry, version_of. destruct (final σ (hist ++ l) !! r) as [[v x]|] eqn:E; [|done].
  cbn [fmap option_fmap option_map map_get fst]. rewrite u64_from_be64 by apply (wf_final _ _ _ _ _ _ _ Hwf E).
  cbn [mbind outcome_bind]. unfold at_version, version_get, get. by rewrite (Ha r v x E).
Qed.

(** It returns a state between the last committed and the newest batch. *)
Lemma from_latest_spec s n σ hist pending r :
  disk_rep (db s) n σ hist pending ->
  exists l, l `prefix_of` pending /\ from_latest_data s r = Ok (version_of (final σ (hist ++ l)) r).
Proof.
  intros Hrep. destruct (dr_latest _ _ _ _ _ Hrep r) as (l & Hl & Hr). exists l. split; [done|]. by eapply from_latest_at.
Qed.

(** The pointers of a batch, as they are listed. *)
Lemma iter_batch_spec s i :
  pointers_ok (db s) -> u64 i ->
  exists l : list (ResourceId * Z),
    rollback_iter_batch s i = Ok ((fun e => (vec_to_list e.1, e.2)) <$> l) /\
    forall r old, (r, old) ∈ l <-> u64 old /\ db_get (db s) StatePtrRollback (rollback_key i r) = Some (be64 old).
Proof.
  intros Hok Hi. unfold rollback_iter_batch.
  assert (prefix_iter s StatePtrRollback (be64 i) = db_scan (db s) StatePtrRollback 8 (be64 i)) as ->.
  { unfold prefix_iter. pose proof (be64_len i). by destruct (be64 i). }
  pose proof (fun raw val => db_scan_elem (db s) StatePtrRollback 8 (be64 i) raw val ltac:(rewrite be64_len; lia)) as Hin.
  set (l := db_scan _ _ _ _) in *. clearbody l.
  assert (Forall (fun e => exists r old, u64 old /\ e = (rollback_key i r, be64 old)) l) as Hall.
  { apply Forall_forall. intros [raw val] He. apply Hin in He as (Hg & Hp & _).
    destruct (Hok _ _ Hg) as (i' & r & old & Hi' & Hold & -> & ->). exists r, old. split; [done|]. f_equal.
    unfold rollback_key in *. rewrite take_app_length' in Hp by by rewrite be64_len. rewrite take_ge in Hp by by rewrite be64_len.
    by rewrite Hp. }
  assert (exists l' : list (ResourceId * Z), l = (fun e => (rollback_key i e.1, be64 e.2)) <$> l' /\ Forall (fun e => u64 e.2) l') as (l' & -> & Hu).
  { clear Hin. induction Hall as [|e l (r & old & Hold & ->) _ (l' & -> & IH)]; [by exists []|].
    exists ((r, old) :: l'). split; [done|]. by constructor. }
  exists l'. split.
  - clear Hin Hall. induction Hu as [|[r old] l' Hold _ IH]; [done|]. rewrite fmap_cons. cbn [mapM_outcome fst snd].
    assert (8 <=? length (rollback_key i r) = true) as ->.
    { apply Nat.leb_le. unfold rollback_key. rewrite length_app, be64_len. lia. }
    cbn [assert mbind outcome_bind]. rewrite u64_from_be64 by done. cbn [mbind outcome_bind]. rewrite IH. cbn [mbind outcome_bind].
    unfold rollback_key. by rewrite drop_app_length' by by rewrite be64_len.
  - intros r old. rewrite Forall_forall in Hu. split.
    + intros Hr. split; [by apply (Hu (r, old))|]. apply (Hin (rollback_key i r) (be64 old)).
      by apply (list_elem_of_fmap_2 (fun e : ResourceId * Z => (rollback_key i e.1, be64 e.2)) l' (r, old)).
    + intros [Hold Hg]. assert ((rollback_key i r, be64 old) ∈ (fun e : ResourceId * Z => (rollback_key i e.1, be64 e.2)) <$> l') as He.
      { apply Hin. split; [done|]. unfold rollback_key. rewrite take_app_length', take_ge by by rewrite be64_len.
        split; [done|]. apply bytes_leb_app. }
      apply list_elem_of_fmap in He as ([r' old'] & E & He). pose proof (f_equal fst E) as E1. pose proof (f_equal snd E) as E2. cbn [fst snd] in E1, E2. clear E. apply indexed_key_inj in E1 as [_ ->]; [|done|done].
      apply be64_inj in E2 as ->; [done|done|]. by apply (Hu (r', old')).
Qed.

(** *** Rolling back *)

Lemma mapM_outcome_fmap {E A B C} (f : B -> outcome E C) (g : A -> B) (h : A -> C) l :
  (forall x, x ∈ l -> f (g x) = Ok (h x)) -> mapM_outcome f (g <$> l) = Ok (h <$> l).
Proof.
  induction l as [|x l IH]; intros Hf; [done|]. rewrite !fmap_cons. cbn [mapM_outcome].
  rewrite Hf, IH by set_solver. done.
Qed.

Lemma restore_touches r old ns k : touches (restore_latest_ptr r old) ns k <-> ns = StatePtrLatest /\ k = vec_to_list r.
Proof. unfold restore_latest_ptr. destruct (old =? 0)%Z; cbn; naive_solver. Qed.

Definition sane (σ : vstate) : Prop := forall r v x, σ !! r = Some (v, x) -> (0 < v)%Z /\ u64 v.

Lemma old_version_u64 σ r : sane σ -> u64 (old_version σ r).
Proof. intros Hs. unfold old_version. destruct (σ !! r) as [[v x]|] eqn:E; cbn; [by apply (Hs _ _ _ E)|unfold u64; lia]. Qed.

Lemma restore_value σ r : sane σ -> op_value (restore_latest_ptr r (old_version σ r)) = (fun p => be64 p.1) <$> σ !! r.
Proof.
  intros Hs. unfold old_version, restore_latest_ptr. destruct (σ !! r) as [[v x]|] eqn:E; cbn [from_option fst]; [|done].
  destruct (Hs _ _ _ E). by rewrite (proj2 (Z.eqb_neq _ _)) by lia.
Qed.

Lemma rollback_batch_spec s σ b :
  pointers_ok (db s) -> pointers_of (db s) σ b -> u64 (hb_index b) -> sane σ ->
  exists ops, rollback_batch s (hb_index b) = Ok ops /\
    Forall (fun op => exists r : ResourceId, touches op StatePtrLatest (vec_to_list r)) ops /\
    forall r : ResourceId, batch_effect ops StatePtrLatest (vec_to_list r) =
      match hb_writes b !! r with Some _ => Some ((fun p => be64 p.1) <$> σ !! r) | None => None end.
Proof.
  intros Hok Hp Hi Hs. destruct (iter_batch_spec s (hb_index b) Hok Hi) as (l & Hiter & Hl).
  exists ((fun e => restore_latest_ptr e.1 e.2) <$> l). split; [|split].
  - unfold rollback_batch. rewrite Hiter. cbn [mbind outcome_bind].
    apply (mapM_outcome_fmap _ (fun e : ResourceId * Z => (vec_to_list e.1, e.2)) (fun e => restore_latest_ptr e.1 e.2)).
    intros [r old] _. cbn [fst snd]. by rewrite resource_id_slice.
  - apply Forall_fmap, Forall_forall. intros [r old] _. exists r. by apply restore_touches.
  - intros r. destruct (hb_writes b !! r) as [data|] eqn:Hw.
    + apply batch_effect_agree.
      * exists (restore_latest_ptr r (old_version σ r)). split; [|by apply restore_touches].
        apply (list_elem_of_fmap_2 (fun e : ResourceId * Z => restore_latest_ptr e.1 e.2) l (r, old_version σ r)). apply Hl.
        split; [by apply old_version_u64|]. by rewrite Hp, Hw.
      * intros op Hop Ht. apply list_elem_of_fmap in Hop as ([r' old] & -> & He). cbn [fst snd] in *.
        apply restore_touches in Ht as [_ Ht%vec_to_list_inj2]. subst r'. apply Hl in He as [Hold Hg]. rewrite Hp, Hw in Hg.
        apply (inj Some), be64_inj in Hg; [|by apply old_version_u64|done]. subst old. by apply restore_value.
    + apply batch_effect_untouched, Forall_fmap, Forall_forall. intros [r' old] He Ht. cbn [fst snd compose] in *.
      apply restore_touches in Ht as [_ Ht%vec_to_list_inj2]. subst r'. apply Hl in He as [_ Hg]. by rewrite Hp, Hw in Hg.
Qed.

Lemma mapM_outcome_snoc {E A B} (f : A -> outcome E B) l x ys y :
  mapM_outcome f l = Ok ys -> f x = Ok y -> mapM_outcome f (l ++ [x]) = Ok (ys ++ [y]).
Proof. intros Hl Hx. apply mapM_outcome_Ok. apply mapM_outcome_Ok in Hl. apply Forall2_app; [done|]. by constructor. Qed.

Lemma seqZ_step a m : (0 <= m)%Z -> seqZ a (m + 1) = a :: seqZ (a + 1) m.
Proof. intros Hm. rewrite seqZ_cons by lia. f_equal; f_equal; lia. Qed.

(** What is restored for one resource: its entry in the target state, if a later batch wrote it. *)
Definition restored_entry (σ : vstate) (hist : list hbatch) (r : ResourceId) : option (option bytes) :=
  if bool_decide (Exists (fun b => is_Some (hb_writes b !! r)) hist) then Some ((fun p => be64 p.1) <$> σ !! r) else None.

Lemma rollback_ops_spec s (canon : Z -> bool) : pointers_ok (db s) -> forall m t n σ hist,
  (n <= t)%Z -> (0 <= t)%Z -> (t + Z.of_nat m < 2 ^ 64)%Z -> wf_hist n σ hist -> archived (db s) σ hist ->
  Forall (fun b => t < hb_index b <= t + Z.of_nat m)%Z hist ->
  (forall i, (t < i <= t + Z.of_nat m)%Z -> canon i = bool_decide (i ∈ hb_index <$> hist)) ->
  exists opss, mapM_outcome (fun i => if canon i then rollback_batch s i else Ok []) (reverse (seqZ (t + 1) (Z.of_nat m))) = Ok opss /\
    Forall (fun op => exists r : ResourceId, touches op StatePtrLatest (vec_to_list r)) (concat opss) /\
    forall r : ResourceId, batch_effect (concat opss) StatePtrLatest (vec_to_list r) = restored_entry σ hist r.
Proof.
  intros Hok. induction m as [|m IH]; intros t n σ hist Hn Ht Hmax Hwf Ha Hin Hcanon.
  { destruct hist as [|b hist]; [|apply Forall_inv in Hin; lia]. exists []. done. }
  rewrite Nat2Z.inj_succ, <- Z.add_1_r, seqZ_step, reverse_cons by lia.
  destruct hist as [|b hist].
  { destruct (IH (t + 1)%Z n σ []) as (opss & Hops & Htouch & Heff); try done; try lia.
    { intros i Hi. apply Hcanon. lia. }
    exists (opss ++ [[]]). split; [apply mapM_outcome_snoc; [done|]|]. { by rewrite Hcanon by lia. }
    rewrite concat_app. cbn [concat]. rewrite !app_nil_r. done. }
  pose proof Hwf as Hwf0. apply wf_cons_inv in Hwf as (Hlt & Hu & Hwf). destruct (wf_base _ _ _ Hwf0) as [_ Hbase].
  pose proof Ha as Ha0. destruct Ha as (Hdata & [Hp _] & Ha). pose proof (Forall_inv Hin) as Hb. cbn beta in Hb. apply Forall_inv_tail in Hin.
  destruct (decide (hb_index b = t + 1)%Z) as [Heq|Hne].
  - destruct (IH (t + 1)%Z (hb_index b) (apply_batch σ b) hist) as (opss & Hops & Htouch & Heff); try done; try lia.
    { apply Forall_forall. intros b' Hb'. rewrite Forall_forall in Hin. specialize (Hin _ Hb').
      pose proof (wf_index_gt _ _ _ _ Hwf Hb'). lia. }
    { intros i Hi. rewrite Hcanon by lia. apply bool_decide_ext. rewrite fmap_cons, elem_of_cons. split; [intros [->|?]; [lia|done]|by right]. }
    destruct (rollback_batch_spec s σ b) as (ops & Hb' & Htouch' & Heff'); [done..| |].
    { intros r v x Hx. destruct (Hbase _ _ _ Hx) as (? & ? & _). split; [lia|done]. }
    exists (opss ++ [ops]). split; [apply mapM_outcome_snoc; [done|]|].
    { rewrite Hcanon by lia. rewrite bool_decide_true by (rewrite fmap_cons; set_solver). by rewrite <- Heq. }
    rewrite concat_app. cbn [concat]. rewrite app_nil_r. split; [by apply Forall_app|]. intros r.
    rewrite batch_effect_app, Heff', Heff. unfold restored_entry. destruct (hb_writes b !! r) as [data|] eqn:Hw.
    + rewrite bool_decide_true; [done|]. apply Exists_cons. left. by rewrite Hw.
    + rewrite lookup_apply, Hw. cbn [after_write]. erewrite bool_decide_ext; [done|]. rewrite Exists_cons, Hw.
      split; [by right|]. by intros [[? ?]|?].
  - destruct (IH (t + 1)%Z n σ (b :: hist)) as (opss & Hops & Htouch & Heff); try done; try lia.
    { constructor; [lia|]. apply Forall_forall. intros b' Hb'. rewrite Forall_forall in Hin. specialize (Hin _ Hb').
      pose proof (wf_index_gt _ _ _ _ Hwf Hb'). lia. }
    { intros i Hi. apply Hcanon. lia. }
    exists (opss ++ [[]]). split; [apply mapM_outcome_snoc; [done|]|].
    { rewrite Hcanon by lia. rewrite bool_decide_false; [done|]. rewrite fmap_cons, elem_of_cons. intros [?|Hb']; [lia|].
      apply list_elem_of_fmap in Hb' as (b' & E & Hb'). pose proof (wf_index_gt _ _ _ _ Hwf Hb'). lia. }
    rewrite concat_app. cbn [concat]. rewrite !app_nil_r. done.
Qed.

Lemma restored_written σ h r : Exists (fun b => is_Some (hb_writes b !! r)) h -> restored_entry σ h r = Some (entry σ r).
Proof. intros Hw. unfold restored_entry. by rewrite bool_decide_true. Qed.
Lemma restored_unwritten σ h r : ~ Exists (fun b => is_Some (hb_writes b !! r)) h -> restored_entry σ h r = None.
Proof. intros Hw. unfold restored_entry. by rewrite bool_decide_false. Qed.

Lemma unwritten_final σ h r : ~ Exists (fun b => is_Some (hb_writes b !! r)) h -> final σ h !! r = σ !! r.
Proof.
  intros Hw. apply final_untouched, Forall_forall. intros b Hb. apply eq_None_not_Some. intros Hs. apply Hw, Exists_exists. by exists b.
Qed.

Lemma unwritten_prefix l h r :
  l `prefix_of` h -> ~ Exists (fun b => is_Some (hb_writes b !! r)) h -> ~ Exists (fun b => is_Some (hb_writes b !! r)) l.
Proof. intros [h' ->] Hw Hl. apply Hw, Exists_app. by left. Qed.

Lemma commit_ops_get s ops ns k : db_get (db (commit_ops s ops)) ns k = default (db_get (db s) ns k) (batch_effect ops ns k).
Proof. apply db_get_write. Qed.

Context {M : Type} `{BorshCodec M} `{Default M}.

(** What a rollback does to the database. *)
Lemma rollback_effect s wb (target last_committed root : Checkpoint M) upper snapshot n σ keep drop :
  let s0 := commit_ops s wb in
  let t := cp_index target in
  pointers_ok (db s0) -> wf_hist n σ (keep ++ drop) -> archived (db s0) σ (keep ++ drop) ->
  (top n keep <= t <= upper)%Z -> (upper < 2 ^ 64)%Z -> Forall (fun b => t < hb_index b <= upper)%Z drop ->
  (forall i, (t < i <= upper)%Z -> is_canonical (mem (canonical s)) snapshot i = bool_decide (i ∈ hb_index <$> drop)) ->
  exists s', rollback_execute s wb target upper snapshot last_committed root =
      Ok (s', if (t <? cp_index last_committed)%Z then target else last_committed, if (t =? 0)%Z then target else root) /\
    canonical s' = canonical s /\
    (forall ns k, ns <> StatePtrLatest -> ns <> SpaceMetadata -> db_get (db s') ns k = db_get (db s0) ns k) /\
    (forall r : ResourceId, db_get (db s') StatePtrLatest (vec_to_list r) =
      default (db_get (db s0) StatePtrLatest (vec_to_list r)) (restored_entry (final σ keep) drop r)) /\
    (forall k, db_get (db s') SpaceMetadata k =
      default (db_get (db s0) SpaceMetadata k)
        (batch_effect ((if (t <? cp_index last_committed)%Z then [set_last_committed target] else []) ++
                       (if (t =? 0)%Z then [set_root target] else [])) SpaceMetadata k)).
Proof.
  intros s0 t Hok [_ Hwf]%wf_app [_ Ha]%archived_app Ht Hu Hin Hcanon.
  destruct (wf_base _ _ _ Hwf) as [Hpos _].
  destruct (rollback_ops_spec s0 (is_canonical (mem (canonical s)) snapshot) Hok (Z.to_nat (upper - t)) t (top n keep) (final σ keep) drop)
    as (opss & Hops & Htouch & Heff); try done; try (rewrite Z2Nat.id by lia); try lia.
  { eapply Forall_impl; [exact Hin|]. cbn beta. lia. }
  { intros i Hi. apply Hcanon. lia. }
  unfold rollback_execute, rollback_range. fold s0 t. rewrite Z2Nat.id in Hops by lia. change (canonical s0) with (canonical s).
  rewrite Hops. cbn [mbind outcome_bind]. eexists. split; [reflexivity|]. split; [done|].
  set (meta := (if (t <? _)%Z then _ else _) ++ _).
  assert (Forall (fun op => op_space op = SpaceMetadata) meta) as Hmeta.
  { unfold meta. destruct (_ <? _)%Z, (_ =? _)%Z; repeat constructor. }
  assert (Forall (fun op => op_space op = StatePtrLatest) (concat opss)) as Hlatest.
  { eapply Forall_impl; [exact Htouch|]. intros op (r & Hr). destruct op; cbn in *; by destruct Hr. }
  assert (forall ns k, ns <> SpaceMetadata -> batch_effect meta ns k = None) as Em.
  { intros ns k Hns. apply batch_effect_space. eapply Forall_impl; [exact Hmeta|]. congruence. }
  assert (forall ns k, ns <> StatePtrLatest -> batch_effect (concat opss) ns k = None) as El.
  { intros ns k Hns. apply batch_effect_space. eapply Forall_impl; [exact Hlatest|]. congruence. }
  split_and!.
  - intros ns k Hl Hm. rewrite commit_ops_get, batch_effect_app, Em, El by done. done.
  - intros r. rewrite commit_ops_get, batch_effect_app, Em, Heff by done. done.
  - intros k. rewrite commit_ops_get, batch_effect_app. destruct (batch_effect meta _ _); [done|]. by rewrite El.
Qed.

Section rollback.
Context (s s' : RocksDbStore Db) (n : Z) (σ : vstate) (hist pending : list hbatch).
Hypothesis Hrep : disk_rep (db s) n σ hist pending.
Hypothesis Hsame : forall ns k, ns <> StatePtrLatest -> ns <> SpaceMetadata -> db_get (db s') ns k = db_get (db s) ns k.

Let Harchive : same_archive (db s) (db s').
Proof. intros ns k Hns. apply Hsame; intros ->; naive_solver. Qed.

(** The target is committed: the latest pointers are again those of its state. *)
Lemma rollback_committed h1 h2 :
  hist = h1 ++ h2 ->
  (forall r : ResourceId, db_get (db s') StatePtrLatest (vec_to_list r) =
     default (db_get (db s) StatePtrLatest (vec_to_list r)) (restored_entry (final σ h1) (h2 ++ pending) r)) ->
  disk_rep (db s') n σ h1 [].
Proof.
  intros -> Hlatest. eapply (rep_archive (db s) _ _ _ _ _ h1 [] (h2 ++ pending)); [done|exact Hrep|by rewrite app_nil_r, app_assoc|].
  intros r. exists []. split; [done|]. rewrite Hlatest, app_nil_r.
  destruct (decide (Exists (fun b => is_Some (hb_writes b !! r)) (h2 ++ pending))) as [Hw|Hw].
  - by rewrite restored_written.
  - rewrite restored_unwritten by done. cbn [default]. destruct (dr_latest _ _ _ _ _ Hrep r) as (l & Hl & ->).
    unfold entry. rewrite <- app_assoc, final_app. f_equal. apply unwritten_final. eapply unwritten_prefix; [|exact Hw].
    by apply prefix_app.
Qed.

(** The target is pending: pointers may already be those of a state before it. *)
Lemma rollback_pending p1 p2 :
  pending = p1 ++ p2 ->
  (forall r : ResourceId, db_get (db s') StatePtrLatest (vec_to_list r) =
     default (db_get (db s) StatePtrLatest (vec_to_list r)) (restored_entry (final σ (hist ++ p1)) p2 r)) ->
  disk_rep (db s') n σ hist p1.
Proof.
  intros -> Hlatest. eapply (rep_archive (db s) _ _ _ _ _ hist p1 p2); [done|exact Hrep|by rewrite app_assoc|].
  intros r. rewrite Hlatest. destruct (decide (Exists (fun b => is_Some (hb_writes b !! r)) p2)) as [Hw|Hw].
  - rewrite restored_written by done. by exists p1.
  - rewrite restored_unwritten by done. cbn [default]. destruct (dr_latest _ _ _ _ _ Hrep r) as (l & Hl & ->).
    destruct (prefix_weak_total l p1 _ Hl (prefix_app_r p1 p1 p2 ltac:(done))) as [?|[l' ->]]; [by exists l|].
    exists p1. split; [done|]. apply prefix_app_inv in Hl. unfold entry. rewrite app_assoc, final_app. f_equal.
    apply unwritten_final. by eapply unwritten_prefix.
Qed.
End rollback.

(** *** Scheduling *)

Lemma prefix_snoc {A} (l p : list A) x : l `prefix_of` p -> l `prefix_of` p ++ [x].
Proof. apply prefix_app_r. Qed.

Lemma schedule_rep d n σ hist pending b :
  disk_rep d n σ hist pending -> (top n (hist ++ pending) < hb_index b)%Z -> u64 (hb_index b) ->
  kept d (final σ (hist ++ pending)) b -> data_of d (apply_batch (final σ (hist ++ pending)) b) ->
  disk_rep d n σ hist (pending ++ [b]).
Proof.
  intros [Hwf Hok Hg Ha Hl] Hlt Hu Hk Hd. split; [|done|done| |].
  - rewrite app_assoc. apply wf_app. split; [done|]. rewrite <- (app_nil_r (hist ++ pending)) in Hwf.
    apply wf_app in Hwf as [_ Hwf]. destruct (wf_base _ _ _ Hwf) as [? Hb]. constructor; [done..|]. constructor; [unfold u64 in Hu; lia|].
    intros r v x. rewrite lookup_apply. unfold after_write. destruct (hb_writes b !! r) as [[|y l]|]; [done| |].
    + intros [= <- <-]. split; [lia|done].
    + intros Hx. destruct (Hb _ _ _ Hx) as (? & ? & ?). split; [lia|done].
  - rewrite app_assoc. apply archived_app. split; [done|]. split; [by apply archived_data|]. by split.
  - intros r. destruct (Hl r) as (l & Hp & E). exists l. split; [by apply prefix_snoc|done].
Qed.

(** No entry of the batch's index yet. *)
Definition unused d (i : Z) : Prop :=
  forall r, db_get d StatePtrRollback (rollback_key i r) = None /\ db_get d StateVersion (version_key i r) = None.

Lemma unused_kept d i σ : unused d i -> kept d σ {| hb_index := i; hb_writes := ∅ |}.
Proof. intros Hf. split; intros r; cbn [hb_index hb_writes]; rewrite lookup_empty; [apply Hf|]. by rewrite (proj2 (Hf r)). Qed.

Lemma apply_empty σ i : apply_batch σ {| hb_index := i; hb_writes := ∅ |} = σ.
Proof. apply map_eq. intros r. rewrite lookup_apply. cbn [hb_writes]. by rewrite lookup_empty. Qed.

(** *** Flushing *)

(** The version is the one of the state, or as empty. *)
Definition reads_from (σ : vstate) (v : Version) : Prop :=
  sv_data v = from_option snd [] (σ !! sv_resource_id v) /\
  (sv_data v <> [] -> sv_version v = old_version σ (sv_resource_id v)).

Definition with_write (b : hbatch) (r : ResourceId) (data : bytes) : hbatch :=
  {| hb_index := hb_index b; hb_writes := <[r := data]> (hb_writes b) |}.

(** Entries other than those of one key of a batch. *)
Definition same_but (i : Z) (r : ResourceId) d d' : Prop :=
  forall v q, u64 v -> ~ (v = i /\ q = r) ->
    db_get d' StateVersion (version_key v q) = db_get d StateVersion (version_key v q) /\
    db_get d' StatePtrRollback (rollback_key v q) = db_get d StatePtrRollback (rollback_key v q).

Lemma archived_shift d d' i r n σ1 σ2 h :
  same_but i r d d' -> wf_hist n σ1 h -> (i <= n)%Z -> archived d σ1 h ->
  (forall q, q <> r -> σ2 !! q = σ1 !! q) -> (forall v x, σ2 !! r = Some (v, x) -> db_get d' StateVersion (version_key v r) = Some x) ->
  Forall (fun b => hb_writes b !! r = None) h -> archived d' σ2 h.
Proof.
  intros Hs Hwf. revert σ2. induction Hwf as [n σ1 _ Hsane|n σ1 b h _ Hsane Hlt Hu Hwf IH]; intros σ2 Hi [Hd Ha] Hq Hr Hun.
  all: assert (data_of d' σ2) as Hd'.
  1,3: intros q v x Hx; destruct (decide (q = r)) as [->|Hne]; [by apply Hr|]; rewrite Hq in Hx by done;
    destruct (Hsane _ _ _ Hx) as (? & ? & ?); rewrite (proj1 (Hs v q ltac:(done) ltac:(naive_solver))); by apply Hd.
  { by split. }
  destruct Ha as [[Hp Hw] Ha]. apply Forall_cons in Hun as [Hb Hun]. split; [done|]. split; [split|].
  - intros q. rewrite (proj2 (Hs _ q Hu ltac:(lia))), Hp. destruct (decide (q = r)) as [->|Hne]; [by rewrite Hb|].
    unfold old_version. by rewrite Hq.
  - intros q. rewrite (proj1 (Hs _ q Hu ltac:(lia))). apply Hw.
  - apply IH; [lia|done| | |done].
    + intros q Hne. by rewrite !lookup_apply, Hq.
    + intros v x. rewrite lookup_apply, Hb. apply Hr.
Qed.

Lemma wf_shift n σ1 σ2 r h :
  wf_hist n σ1 h -> (forall q, q <> r -> σ2 !! q = σ1 !! q) -> (forall v x, σ2 !! r = Some (v, x) -> (0 < v <= n)%Z /\ u64 v /\ x <> []) ->
  Forall (fun b => hb_writes b !! r = None) h -> wf_hist n σ2 h.
Proof.
  intros Hwf. revert σ2. induction Hwf as [n σ1 Hn Hsane|n σ1 b h Hn Hsane Hlt Hu Hwf IH]; intros σ2 Hq Hr Hun.
  all: assert (forall q v x, σ2 !! q = Some (v, x) -> (0 < v <= n)%Z /\ u64 v /\ x <> []) as Hsane2.
  1,3: intros q v x Hx; destruct (decide (q = r)) as [->|Hne]; [by apply Hr|]; rewrite Hq in Hx by done; by apply (Hsane q).
  { by constructor. }
  apply Forall_cons in Hun as [Hb Hun]. constructor; [done..|]. apply IH; [| |done].
  - intros q Hne. by rewrite !lookup_apply, Hq.
  - intros v x. rewrite lookup_apply, Hb. intros Hx. destruct (Hr _ _ Hx) as (? & ? & ?). split; [lia|done].
Qed.

Lemma archived_below d d' i r n σ h :
  same_but i r d d' -> wf_hist n σ h -> (n < i)%Z -> Forall (fun b => hb_index b < i)%Z h -> archived d σ h -> archived d' σ h.
Proof.
  intros Hs Hwf. induction Hwf as [n σ _ Hsane|n σ b h _ Hsane Hlt Hu Hwf IH]; intros Hi Hall [Hd Ha].
  all: assert (data_of d' σ) as Hd'.
  1,3: intros q v x Hx; destruct (Hsane _ _ _ Hx) as (? & ? & ?); rewrite (proj1 (Hs v q ltac:(done) ltac:(lia))); by apply Hd.
  { by split. }
  destruct Ha as [[Hp Hw] Ha]. apply Forall_cons in Hall as [Hb Hall]. split; [done|]. split; [split|by apply IH].
  - intros q. rewrite (proj2 (Hs _ q Hu ltac:(lia))). apply Hp.
  - intros q. rewrite (proj1 (Hs _ q Hu ltac:(lia))). apply Hw.
Qed.

Lemma wf_below n σ h1 b h2 : wf_hist n σ (h1 ++ b :: h2) -> (n < hb_index b)%Z /\ Forall (fun b' => hb_index b' < hb_index b)%Z h1.
Proof.
  revert n σ. induction h1 as [|b' h1 IH]; intros n σ Hwf; cbn [app] in Hwf; apply wf_cons_inv in Hwf as (Hlt & Hu & Hwf); [done|].
  destruct (IH _ _ Hwf). split; [lia|]. by constructor.
Qed.

Lemma wf_sane n σ h1 h2 : wf_hist n σ (h1 ++ h2) -> sane (final σ h1).
Proof. intros Hwf r v x Hx. destruct (wf_final _ _ _ _ _ _ _ Hwf Hx) as (? & ? & _). split; [lia|done]. Qed.

(** What a diff writes. *)
Lemma state_diff_write_spec i (d : StateDiff) rd wr :
  sd_read d = Some rd -> sd_written d = Some wr -> (sv_version rd < sv_version wr)%Z ->
  state_diff_write false i d = Ok (write_data wr ++ write_rollback_ptr rd i).
Proof.
  intros Hr Hw Hlt. unfold state_diff_write, read_state, written_state. rewrite Hr, Hw. cbn [expect mbind outcome_bind].
  by rewrite (proj2 (Z.ltb_lt _ _) Hlt).
Qed.

Lemma pointer_of_read σ rd : reads_from σ rd -> sane σ -> (forall x, σ !! sv_resource_id rd = Some x -> x.2 <> []) ->
  (if is_empty (sv_data rd) then 0 else sv_version rd)%Z = old_version σ (sv_resource_id rd).
Proof.
  intros [Hd Hv] Hs Hne. unfold old_version in *. destruct (σ !! sv_resource_id rd) as [[v x]|] eqn:E; cbn [from_option fst snd] in *.
  - specialize (Hne _ eq_refl). cbn in Hne. rewrite Hd in *. destruct x; [done|]. by apply Hv.
  - by rewrite Hd.
Qed.

Lemma flush_get s i rd wr ns k :
  db_get (db (commit_ops s (write_data wr ++ write_rollback_ptr rd i))) ns k =
  if decide (ns = StatePtrRollback /\ k = rollback_key i (sv_resource_id rd))
  then Some (be64 (if is_empty (sv_data rd) then 0 else sv_version rd))
  else if decide (ns = StateVersion /\ k = version_key (sv_version wr) (sv_resource_id wr) /\ sv_data wr <> []) then Some (sv_data wr)
  else db_get (db s) ns k.
Proof.
  rewrite commit_ops_get, batch_effect_app. unfold write_rollback_ptr, rollback_put. rewrite batch_effect_put.
  destruct (decide (ns = StatePtrRollback /\ _)) as [[-> ->]|Hn]; [by rewrite decide_True|]. rewrite decide_False by naive_solver.
  unfold write_data, version_put. destruct (sv_data wr) as [|y l] eqn:E; cbn [is_empty].
  - by rewrite decide_False by naive_solver.
  - rewrite batch_effect_put. case_decide; case_decide; naive_solver.
Qed.

Section flush.
Context (s : RocksDbStore Db) (n : Z) (σ : vstate) (hist p1 p2 : list hbatch) (b : hbatch) (rd wr : Version).
Let i := hb_index b.
Let r := sv_resource_id rd.
Let d' := db (commit_ops s (write_data wr ++ write_rollback_ptr rd i)).
Hypothesis Hrep : disk_rep (db s) n σ hist (p1 ++ b :: p2).
Hypothesis Hid : sv_resource_id wr = r.
Hypothesis Hread : reads_from (final σ (hist ++ p1)) rd.
Hypothesis Hversion : sv_version wr = i.

Let Hwf : wf_hist n σ ((hist ++ p1) ++ b :: p2).
Proof. rewrite <- app_assoc. apply Hrep. Qed.

Let Hu : u64 i.
Proof. apply wf_app in Hwf as [_ Hwf']. apply (wf_index_gt _ _ _ _ Hwf'). by left. Qed.

Lemma flush_same_but : same_but i r (db s) d'.
Proof.
  intros v q Hv Hne. split; unfold d'; rewrite flush_get.
  - rewrite decide_False by naive_solver. rewrite decide_False; [done|]. intros (_ & E & _). rewrite Hversion, Hid in E.
    apply indexed_key_inj in E; [|done|done]. naive_solver.
  - rewrite decide_False; [by rewrite decide_False by naive_solver|]. intros (_ & E). apply indexed_key_inj in E; [|done|done]. naive_solver.
Qed.

Lemma flush_pointer : db_get d' StatePtrRollback (rollback_key i r) = Some (be64 (old_version (final σ (hist ++ p1)) r)).
Proof.
  unfold d'. rewrite flush_get, decide_True by done. do 2 f_equal. apply pointer_of_read; [done| |].
  - by eapply wf_sane.
  - intros [v x] Hx. by apply (wf_final _ _ _ _ _ _ _ Hwf Hx).
Qed.

Lemma flush_version : sv_data wr <> [] -> db_get d' StateVersion (version_key i r) = Some (sv_data wr).
Proof. intros Hne. unfold d'. rewrite flush_get, decide_False by naive_solver. by rewrite decide_True by (rewrite Hversion, Hid; done). Qed.

Lemma flush_latest k : db_get d' StatePtrLatest k = db_get (db s) StatePtrLatest k.
Proof. unfold d'. by rewrite flush_get, !decide_False by naive_solver. Qed.

Lemma flush_genesis q : db_get d' StateVersion (version_key 0 q) = None.
Proof. destruct (wf_below _ _ _ _ _ Hwf). destruct (wf_base _ _ _ Hwf). rewrite (proj1 (flush_same_but 0%Z q ltac:(unfold u64; lia) ltac:(unfold i; lia))). apply Hrep. Qed.

Lemma flush_pointers_ok : pointers_ok d'.
Proof.
  intros raw val. unfold d'. rewrite flush_get. case_decide as Hd.
  - destruct Hd as [_ ->]. intros [= <-]. exists i, r. eexists. split; [done|]. split; [|done].
    rewrite (pointer_of_read (final σ (hist ++ p1)) rd Hread).
    + apply old_version_u64. by eapply wf_sane.
    + by eapply wf_sane.
    + intros [v x] Hx. by apply (wf_final _ _ _ _ _ _ _ Hwf Hx).
  - rewrite decide_False by naive_solver. apply Hrep.
Qed.

(** A new write of the batch. *)
Lemma flush_rep :
  hb_writes b !! r = None -> Forall (fun b' => hb_writes b' !! r = None) p2 ->
  disk_rep d' n σ hist (p1 ++ with_write b r (sv_data wr) :: p2).
Proof.
  intros Hnew Hun. pose proof Hrep as [_ _ _ Ha Hl]. rewrite app_assoc in Ha. pose proof (wf_below _ _ _ _ _ Hwf) as [Hn Hbelow].
  pose proof Hwf as Hwf'. apply wf_app in Hwf' as [Hwf1 Hwf2]. apply wf_cons_inv in Hwf2 as (Htop & _ & Hwf2). destruct (wf_base _ _ _ Hwf1) as [Hn0 _].
  pose proof (archived_kept _ _ _ _ _ Ha) as [Hp Hw]. apply archived_app in Ha as [Ha1 (Hd & _ & Ha2)].
  set (σb := final σ (hist ++ p1)) in *. set (b' := with_write b r (sv_data wr)).
  assert (forall q, q <> r -> apply_batch σb b' !! q = apply_batch σb b !! q) as Hq.
  { intros q Hne. rewrite !lookup_apply. cbn [hb_index hb_writes b' with_write]. by rewrite lookup_insert_ne. }
  assert (forall v x, apply_batch σb b' !! r = Some (v, x) -> v = i /\ x = sv_data wr /\ x <> []) as Hr.
  { intros v x. rewrite lookup_apply. cbn [hb_index hb_writes b' with_write]. rewrite lookup_insert_eq. unfold after_write.
    destruct (sv_data wr); [done|]. by intros [= <- <-]. }
  assert (archived d' σ (hist ++ p1)) as Ha1' by (eapply archived_below; [apply flush_same_but|done..]).
  split.
  - rewrite app_assoc. apply wf_app. split; [done|]. destruct (wf_base _ _ _ (proj2 (proj1 (wf_app _ _ _ _) Hwf))). constructor; [done..|].
    eapply wf_shift; [exact Hwf2|exact Hq| |done]. intros v x Hx. destruct (Hr _ _ Hx) as (-> & -> & ?). change (hb_index b') with i. unfold i. split; [lia|done].
  - apply flush_pointers_ok.
  - apply flush_genesis.
  - rewrite app_assoc. apply archived_app. split; [done|]. split; [by apply archived_data|]. split; [split|].
    + intros q. destruct (decide (q = r)) as [->|Hne].
      * cbn [hb_index hb_writes b' with_write]. rewrite lookup_insert_eq. apply flush_pointer.
      * cbn [hb_index hb_writes b' with_write]. fold i. rewrite lookup_insert_ne by done. rewrite (proj2 (flush_same_but _ q Hu ltac:(naive_solver))). apply Hp.
    + intros q. cbn [hb_index hb_writes b' with_write]. fold i. destruct (decide (q = r)) as [->|Hne].
      * rewrite lookup_insert_eq. cbn [default]. destruct (decide (sv_data wr = [])) as [E|E]; [|by rewrite flush_version].
        rewrite E. unfold d'. rewrite flush_get, !decide_False by naive_solver. specialize (Hw r). rewrite Hnew in Hw. exact Hw.
      * rewrite lookup_insert_ne by done. rewrite (proj1 (flush_same_but _ q Hu ltac:(naive_solver))). apply Hw.
    + eapply archived_shift; [apply flush_same_but|exact Hwf2|unfold i; lia|exact Ha2|exact Hq| |done].
      intros v x Hx. destruct (Hr _ _ Hx) as (-> & -> & ?). by apply flush_version.
  - intros q. rewrite flush_latest. destruct (Hl q) as (l & Hpre & ->). unfold entry.
    destruct (prefix_weak_total l p1 _ Hpre (prefix_app_r p1 p1 (b :: p2) ltac:(done))) as [Hlp|[l' ->]].
    { exists l. split; [by apply prefix_app_r|done]. }
    apply prefix_app_inv in Hpre. destruct (decide (q = r)) as [->|Hne].
    + exists p1. split; [by apply prefix_app_r|]. rewrite app_assoc, final_app. f_equal. apply final_untouched.
      destruct Hpre as [p' E]. assert (Forall (fun b0 => hb_writes b0 !! r = None) (b :: p2)) as Hall by by constructor.
      rewrite E in Hall. apply Forall_app in Hall. apply Hall.
    + destruct l' as [|b0 l']; [exists p1; rewrite app_nil_r; split; [by apply prefix_app_r|done]|].
      pose proof (prefix_cons_inv_1 _ _ _ _ Hpre) as ->. apply prefix_cons_inv_2 in Hpre. exists (p1 ++ b' :: l').
      split; [by apply prefix_app, prefix_cons|]. rewrite !app_assoc, !(final_app _ (hist ++ p1)). f_equal. cbn [final foldl].
      symmetry. by apply (final_at (apply_batch _ b') (apply_batch _ b)), Hq.
Qed.

(** A write the batch has on disk already. *)
Lemma reflush_rep : hb_writes b !! r = Some (sv_data wr) -> disk_rep d' n σ hist (p1 ++ b :: p2).
Proof.
  intros Hold. pose proof Hrep as [_ _ _ Ha Hl]. rewrite app_assoc in Ha. pose proof (archived_kept _ _ _ _ _ Ha) as [Hp Hw].
  eapply (rep_archive (db s) _ _ _ _ _ hist (p1 ++ b :: p2) []); [|exact Hrep|by rewrite app_nil_r|intros q; rewrite flush_latest; apply Hl].
  intros ns k Hns. unfold d'. rewrite flush_get. case_decide as Hd.
  - destruct Hd as [-> ->]. pose proof flush_pointer as E. unfold d' in E. rewrite flush_get, decide_True in E by done. rewrite E.
    fold r. specialize (Hp r). rewrite Hold in Hp. by rewrite <- Hp.
  - case_decide as Hd'; [|done]. destruct Hd' as (-> & -> & Hne). rewrite Hversion, Hid. specialize (Hw r). rewrite Hold in Hw.
    cbn [default] in Hw. fold i in Hw. destruct (db_get (db s) StateVersion (version_key i r)); cbn in Hw; [by rewrite Hw|]. by rewrite <- Hw in Hne.
Qed.
End flush.
End disk.
