(* ===== verification/SchedCommit.v ===== *)
(** * SchedCommit: committing, restoring and pruning

    What the scheduler's commits, restores and pruning passes do to the represented history. *)

From S2P Require Import Prelude Codec Types SmtNode SmtTrie SmtUpdate SmtTree AtomicRing CanonicalChain RocksStore L1Types StateSpaces SchedStore SchedProofs.

Section disk.
Context `{Hasher} {Db : Type} `{OrderedKvOk Db} {M : Type} `{BorshCodec M} `{Default M}.
Implicit Types (s : RocksDbStore Db).

(** ** Committing *)

(** The batch's updated diffs are its writes. *)
Record diffs_match (b : hbatch) (updated : list StateDiff) : Prop := {
  dm_written (d : StateDiff) : d ∈ updated -> exists wr, sd_written d = Some wr /\ sv_resource_id wr = sd_resource_id d /\
    sv_version wr = hb_index b /\ hb_writes b !! sd_resource_id d = Some (sv_data wr);
  dm_all r : is_Some (hb_writes b !! r) -> exists d : StateDiff, d ∈ updated /\ sd_resource_id d = r
}.

Definition latest_op (r : ResourceId) (i : Z) (data : bytes) : BatchOp :=
  if is_empty data then latest_delete r else latest_put r i.

Lemma latest_ops_spec σ b updated :
  diffs_match b updated ->
  exists ops, mapM_outcome (fun d => written ← written_state d; Ok (write_latest_ptr written)) updated = Ok ops /\
    Forall (fun op => op_space op = StatePtrLatest) (concat ops) /\
    forall r : ResourceId, batch_effect (concat ops) StatePtrLatest (vec_to_list r) =
      match hb_writes b !! r with Some _ => Some (entry (apply_batch σ b) r) | None => None end.
Proof.
  intros [Hw Hall]. set (op_of (d : StateDiff) := latest_op (sd_resource_id d) (hb_index b) (default [] (hb_writes b !! sd_resource_id d))).
  exists ((fun d => [op_of d]) <$> updated).
  assert (concat ((fun d => [op_of d]) <$> updated) = op_of <$> updated) as ->.
  { clear. induction updated as [|d ds IH]; [done|]. rewrite !fmap_cons. cbn [concat app]. by rewrite IH. }
  split; [|split].
  - apply mapM_outcome_Ok, Forall2_fmap_r, Forall_Forall2_diag, Forall_forall. intros d Hd. destruct (Hw d Hd) as (wr & E & Eid & Ev & Edata).
    unfold written_state. rewrite E. cbn [expect mbind outcome_bind]. f_equal. unfold op_of, latest_op, write_latest_ptr. rewrite Edata, Eid, Ev. cbn [default].
    by destruct (is_empty _).
  - apply Forall_fmap, Forall_forall. intros d _. cbn [compose]. unfold op_of, latest_op. by destruct (is_empty _).
  - intros r. assert (forall op d, op = op_of d -> touches op StatePtrLatest (vec_to_list r) <-> sd_resource_id d = r) as Ht.
    { intros op d ->. unfold op_of, latest_op. destruct (is_empty _); cbn; (split; [intros [_ E]; by apply vec_to_list_inj2|by intros ->]). }
    destruct (hb_writes b !! r) as [data|] eqn:Er.
    + apply batch_effect_agree.
      * destruct (Hall r) as (d & Hd & Ed); [by rewrite Er|]. exists (op_of d). split; [by apply list_elem_of_fmap_2|by eapply Ht].
      * intros op Hop Hto. apply list_elem_of_fmap in Hop as (d & -> & Hd). apply (Ht _ d) in Hto; [|done]. unfold op_of, latest_op, entry.
        rewrite Hto, Er, lookup_apply, Er. cbn [default after_write]. by destruct data.
    + apply batch_effect_untouched, Forall_fmap, Forall_forall. intros d Hd Hto. cbn [compose] in Hto. apply (Ht _ d) in Hto; [|done].
      destruct (Hw d Hd) as (wr & _ & _ & _ & Edata). by rewrite Hto, Er in Edata.
Qed.

Definition data_hash (data : bytes) : array 32 := if is_empty data then EMPTY_HASH else hash data.
Definition commitment_of (b : hbatch) (d : StateDiff) : Commitment :=
  {| key := sd_resource_id d; value_hash := data_hash (default [] (hb_writes b !! sd_resource_id d)) |}.

Lemma commitments_spec b updated : diffs_match b updated -> mapM_outcome diff_commitment updated = Ok (commitment_of b <$> updated).
Proof.
  intros [Hw _]. apply mapM_outcome_Ok, Forall2_fmap_r, Forall_Forall2_diag, Forall_forall. intros d Hd.
  destruct (Hw d Hd) as (wr & E & Eid & _ & Edata). cbn [compose]. unfold diff_commitment, written_state. rewrite E. cbn [expect mbind outcome_bind].
  unfold commitment_of. by rewrite Edata.
Qed.

Lemma lower_space op : op_space (lower op) = SmtNode \/ op_space (lower op) = SmtStale.
Proof. destruct op; cbn; tauto. Qed.

Lemma commit_latest_is s σ hist b pending (d' : Db) :
  latest_is (db s) σ hist (b :: pending) ->
  (forall r : ResourceId, db_get d' StatePtrLatest (vec_to_list r) =
     match hb_writes b !! r with Some _ => entry (apply_batch (final σ hist) b) r | None => db_get (db s) StatePtrLatest (vec_to_list r) end) ->
  latest_is d' σ (hist ++ [b]) pending.
Proof.
  intros Hl Hget r. rewrite Hget. assert (final σ (hist ++ [b]) = apply_batch (final σ hist) b) as Hf by by rewrite final_app.
  destruct (hb_writes b !! r) as [data|] eqn:Hw.
  { exists []. split; [apply prefix_nil|]. by rewrite app_nil_r, Hf. }
  destruct (Hl r) as ([|b0 l] & Hpre & ->).
  - exists []. split; [apply prefix_nil|]. unfold entry. by rewrite !app_nil_r, Hf, lookup_apply, Hw.
  - pose proof (prefix_cons_inv_1 _ _ _ _ Hpre) as ->. exists l. split; [by eapply prefix_cons_inv_2|]. by rewrite <- app_assoc.
Qed.

(** A commit of the oldest pending batch. *)
Lemma commit_rep s n σ hist b pending restored root (checkpoint : Checkpoint M) ds updated rt tops :
  disk_rep (db s) n σ hist (b :: pending) -> cp_index checkpoint = hb_index b ->
  updated_state_diffs ds = Ok updated -> diffs_match b updated ->
  (restored = false -> Tree.update s (commitment_of b <$> updated) (hb_index b) = Ok (rt, tops)) ->
  exists ops, batch_commit s false restored root checkpoint ds = Ok ops /\
    disk_rep (db (commit_ops s ops)) n σ (hist ++ [b]) pending /\ same_archive (db s) (db (commit_ops s ops)) /\
    (forall ns k, ns = SmtNode \/ ns = SmtStale ->
      db_get (db (commit_ops s ops)) ns k = db_get (db (store_commit s (if restored then [] else tops))) ns k) /\
    (forall k val, db_get (db (commit_ops s ops)) SpaceBatchMetadata k = Some val ->
      db_get (db s) SpaceBatchMetadata k = Some val \/ restored = false /\ val = borsh_to_vec (cp_metadata checkpoint)).
Proof.
  intros Hrep Hcp Hupd Hm Htree. destruct (latest_ops_spec (final σ hist) b updated Hm) as (lops & Hl & Hspace & Heff).
  set (fresh := if restored then [] else batch_metadata_set (cp_index checkpoint) (cp_metadata checkpoint) :: (lower <$> tops)).
  set (meta := [set_last_committed checkpoint] ++ (if (cp_index checkpoint =? root)%Z then [set_root checkpoint] else [])).
  exists (concat lops ++ fresh ++ meta). split.
  { unfold batch_commit. rewrite Hupd. cbn [mbind outcome_bind]. rewrite Hl. cbn [mbind outcome_bind]. unfold fresh, meta.
    destruct restored; [done|]. rewrite (commitments_spec b) by done. cbn [mbind outcome_bind]. rewrite Hcp, Htree by done. done. }
  assert (forall ns k, ns <> SpaceMetadata -> batch_effect meta ns k = None) as Em.
  { intros ns k Hns. apply batch_effect_space. unfold meta. destruct (_ =? _)%Z; repeat constructor; cbn; congruence. }
  assert (forall ns k, ns <> StatePtrLatest -> batch_effect (concat lops) ns k = None) as El.
  { intros ns k Hns. apply batch_effect_space. eapply Forall_impl; [exact Hspace|]. congruence. }
  assert (forall ns k, ns <> SpaceBatchMetadata -> ns <> SmtNode -> ns <> SmtStale -> batch_effect fresh ns k = None) as Ef.
  { intros ns k Hns H1' H2'. apply batch_effect_space. unfold fresh. destruct restored; [done|]. constructor; [cbn; congruence|].
    apply Forall_fmap, Forall_forall. intros op _. cbn [compose]. destruct (lower_space op); congruence. }
  assert (same_archive (db s) (db (commit_ops s (concat lops ++ fresh ++ meta)))) as Hsame.
  { intros ns k Hns. rewrite commit_ops_get, !batch_effect_app, Em, Ef, El by naive_solver. done. }
  split; [|split; [done|split]].
  - eapply (rep_archive (db s) _ _ _ _ _ (hist ++ [b]) pending []); [done|exact Hrep|by rewrite app_nil_r, <- app_assoc|].
    eapply commit_latest_is; [apply Hrep|]. intros r. rewrite commit_ops_get, !batch_effect_app, Em, Ef, Heff by done.
    by destruct (hb_writes b !! r).
  - intros ns k Hns. rewrite commit_ops_get, !batch_effect_app, Em, El by naive_solver. unfold store_commit. cbn [db].
    rewrite db_get_write. f_equal. unfold fresh. destruct restored; [done|].
    change (?x :: ?l) with ([x] ++ l). rewrite batch_effect_app. destruct (batch_effect (lower <$> tops) ns k); [done|].
    rewrite batch_effect_space; [done|]. constructor; [cbn; naive_solver|done].
  - intros k val. rewrite commit_ops_get, !batch_effect_app, Em, El by done. unfold fresh. destruct restored; [by left|].
    change (?x :: ?l) with ([x] ++ l). rewrite batch_effect_app, (batch_effect_space (lower <$> tops)).
    + unfold batch_metadata_set. rewrite batch_effect_put. case_decide; [|by left]. intros [= <-]. by right.
    + apply Forall_fmap, Forall_forall. intros op _. cbn [compose]. destruct (lower_space op); congruence.
Qed.

(** ** The state tree *)

(** What the tree holds of a state. *)
Definition leaf_hash (p : Z * bytes) : option (array 32) := if decide (data_hash p.2 = EMPTY_HASH) then None else Some (data_hash p.2).
Definition tree_map (σ : vstate) : gmap ResourceId (array 32) := omap leaf_hash σ.

Lemma tree_map_apply σ b updated :
  diffs_match b updated -> apply_commitments (tree_map σ) (commitment_of b <$> updated) = tree_map (apply_batch σ b).
Proof.
  intros [Hw Hall]. apply map_eq. intros r. rewrite apply_commitments_lookup. unfold overlay, tree_map. rewrite !lookup_omap, lookup_apply.
  assert (forall c, c ∈ filter (fun c => key c = r) (commitment_of b <$> updated) ->
    exists data, hb_writes b !! r = Some data /\ value_hash c = data_hash data) as Hf.
  { intros c Hc. apply list_elem_of_filter in Hc as [Ek Hc]. apply list_elem_of_fmap in Hc as (d & -> & Hd). cbn in Ek.
    destruct (Hw d Hd) as (wr & _ & _ & _ & Ed). rewrite Ek in Ed. exists (sv_data wr). split; [done|]. cbn. by rewrite Ek, Ed. }
  unfold committed. destruct (last (filter _ _)) as [c|] eqn:E; cbn [fmap option_fmap option_map].
  - destruct (Hf c (last_Some_elem_of _ _ E)) as (data & -> & ->). unfold after_write, leaf_hash.
    destruct data as [|x l]; [by rewrite decide_True|]. cbn [mbind option_bind omap snd]. done.
  - apply last_None in E. destruct (hb_writes b !! r) as [data|] eqn:Er; [|done]. destruct (Hall r) as (d & Hd & Ed); [by rewrite Er|].
    exfalso. assert (commitment_of b d ∈ filter (fun c => key c = r) (commitment_of b <$> updated)) as Hin.
    { apply list_elem_of_filter. split; [done|]. by apply list_elem_of_fmap_2. }
    rewrite E in Hin. by apply elem_of_nil in Hin.
Qed.

Section same_tree.
Context (s s' : RocksDbStore Db) (Hcanon : canonical s' = canonical s).
Context (Hget : forall k, db_get (db s') SmtNode k = db_get (db s) SmtNode k).

Lemma same_node_at k v : node_at s' k v = node_at s k v.
Proof. cbn. by rewrite Hcanon; unfold raw_node; rewrite Hget. Qed.

Lemma same_store_ok : store_ok s -> store_ok s'.
Proof. cbn. intros Hok raw val. rewrite Hget. apply Hok. Qed.

Lemma same_view v : u64 v -> store_ok s -> agree (view_at s v) (view_at s' v) [].
Proof.
  intros Hv Hok q Hq. unfold view_at. f_equal. apply tree_node_ext; [done|by apply same_store_ok|by apply key_of_ok|done|].
  intros w _. by rewrite same_node_at.
Qed.

Lemma represents_same v m : u64 v -> represents s v m -> represents s' v m.
Proof.
  intros Hv (Hok & Hver & t & Hwf & Hlk & Hst). split; [by apply same_store_ok|]. split.
  { intros k w Hk Hw. rewrite same_node_at. by apply Hver. }
  exists t. split; [done|]. split; [done|]. eapply stored_agree; [done|cbn; lia|by apply same_view|done].
Qed.

Lemma represents_clean_same v m : u64 v -> represents_clean s v m -> represents_clean s' v m.
Proof.
  intros Hv (Hok & Hver & t & Hwf & Hlk & Hst & Hcl). split; [by apply same_store_ok|]. split.
  { intros k w Hk Hw. rewrite same_node_at. by apply Hver. }
  exists t. split; [done|]. split; [done|]. split; [eapply stored_agree; [done|cbn; lia|by apply same_view|done]|].
  eapply clean_agree; [done|by apply agree_weaken, same_view|done].
Qed.
End same_tree.

Lemma commit_fresh s n σ hist b pending root (checkpoint : Checkpoint M) ds updated :
  disk_rep (db s) n σ hist (b :: pending) -> cp_index checkpoint = hb_index b ->
  updated_state_diffs ds = Ok updated -> diffs_match b updated ->
  visible s (hb_index b) = true -> represents_clean s (hb_index b - 1) (tree_map (final σ hist)) ->
  exists ops, batch_commit s false false root checkpoint ds = Ok ops /\
    disk_rep (db (commit_ops s ops)) n σ (hist ++ [b]) pending /\
    represents (commit_ops s ops) (hb_index b) (tree_map (final σ (hist ++ [b]))) /\
    (Forall (fun c => value_hash c <> EMPTY_HASH) (commitment_of b <$> updated) ->
     represents_clean (commit_ops s ops) (hb_index b) (tree_map (final σ (hist ++ [b])))).
Proof.
  intros Hrep Hcp Hupd Hm Hvis Hclean. pose proof (dr_wf _ _ _ _ _ Hrep) as Hwf. apply wf_app in Hwf as [_ Hwf].
  destruct (wf_base _ _ _ Hwf) as [Hn _]. apply wf_cons_inv in Hwf as (Hlt & Hu & _).
  destruct (update_step s _ (commitment_of b <$> updated) (hb_index b) Hu ltac:(lia) Hvis Hclean) as (tops & Htree & _ & Hr & Hrc).
  destruct (commit_rep s n σ hist b pending false root checkpoint ds updated _ tops Hrep Hcp Hupd Hm (fun _ => Htree)) as (ops & Hops & Hrep' & _ & Hsmt & _).
  exists ops. split; [done|]. split; [done|]. rewrite (tree_map_apply _ _ _ Hm) in Hr, Hrc.
  rewrite final_app. cbn [final foldl]. change (foldl apply_batch σ hist) with (final σ hist). split; [|intros Hl; specialize (Hrc Hl)].
  - apply (represents_same (commit s tops) (commit_ops s ops)); [done| |done|exact Hr]. intros k. by rewrite Hsmt by tauto.
  - apply (represents_clean_same (commit s tops) (commit_ops s ops)); [done| |done|exact Hrc]. intros k. by rewrite Hsmt by tauto.
Qed.

(** ** Restoring *)

Lemma restore_written s n σ hist b data r :
  disk_rep (db s) n σ hist [] -> (top n hist < hb_index b)%Z -> kept (db s) (final σ hist) b -> hb_writes b !! r = Some data ->
  restore_committed_data s (hb_index b) r =
    Ok (version_of (final σ hist) r, {| sv_resource_id := r; sv_version := hb_index b; sv_data := data |}).
Proof.
  intros [Hwf Hok Hg Ha Hl] Hlt [Hp Hw] Hr. rewrite app_nil_r in Ha. unfold restore_committed_data, rollback_get, get. rewrite Hp, Hr. cbn [map_get].
  rewrite u64_from_be64 by (apply old_version_u64; by eapply wf_sane). cbn [mbind outcome_bind]. f_equal. f_equal.
  - unfold at_version, version_of, version_get, get, old_version. destruct (final σ hist !! r) as [[v x]|] eqn:E; cbn [from_option fst].
    + by rewrite (archived_data _ _ _ Ha r v x E).
    + by rewrite Hg.
  - unfold at_version, version_get, get. by rewrite Hw, Hr.
Qed.

Lemma restore_unwritten s n σ hist b r :
  disk_rep (db s) n σ hist [] -> kept (db s) (final σ hist) b -> hb_writes b !! r = None ->
  restore_committed_data s (hb_index b) r = Ok (version_of (final σ hist) r, version_of (final σ hist) r).
Proof.
  intros Hrep [Hp _] Hr. unfold restore_committed_data, rollback_get, get. rewrite Hp, Hr. cbn [map_get mbind outcome_bind].
  destruct (from_latest_spec s n σ hist [] r Hrep) as (l & Hpre & ->). apply prefix_nil_inv in Hpre as ->. by rewrite app_nil_r.
Qed.

(** The written state of a resource after the batch. *)
Definition written_version (σ : vstate) (b : hbatch) (r : ResourceId) : Version :=
  match hb_writes b !! r with
  | Some data => {| sv_resource_id := r; sv_version := hb_index b; sv_data := data |}
  | None => version_of σ r
  end.

Definition restored_diff (σ : vstate) (b : hbatch) (e : nat * ResourceId) : StateDiff :=
  {| sd_resource_id := e.2; sd_index := Z.of_nat e.1; sd_read := Some (version_of σ e.2); sd_written := Some (written_version σ b e.2) |}.

Lemma restore_diffs s n σ hist b rids :
  disk_rep (db s) n σ hist [] -> (top n hist < hb_index b)%Z -> kept (db s) (final σ hist) b ->
  restore_committed s (hb_index b) rids = Ok (restored_diff (final σ hist) b <$> imap pair rids).
Proof.
  intros Hrep Hlt Hk. unfold restore_committed. apply mapM_outcome_Ok, Forall2_fmap_r, Forall_Forall2_diag, Forall_forall. intros [i r] _. cbn [compose].
  unfold restored_diff, written_version. cbn [fst snd]. destruct (hb_writes b !! r) as [data|] eqn:E.
  - by rewrite (restore_written s n σ hist b data r).
  - by rewrite (restore_unwritten s n σ hist b r).
Qed.

Lemma restored_updated σ b l :
  (forall r v x, σ !! r = Some (v, x) -> (v < hb_index b)%Z) -> (0 < hb_index b)%Z ->
  updated_state_diffs (restored_diff σ b <$> l) = Ok (restored_diff σ b <$> filter (fun e => is_Some (hb_writes b !! e.2)) l).
Proof.
  intros Hs Hpos. assert (forall r, (sv_version (version_of σ r) < hb_index b)%Z) as Hv.
  { intros r. unfold version_of. destruct (σ !! r) as [[v x]|] eqn:E; [by eapply Hs|done]. }
  induction l as [|[i r] l IH]; [done|]. rewrite fmap_cons, filter_cons. cbn [updated_state_diffs data_updated written_state read_state restored_diff sd_written sd_read expect mbind outcome_bind fst snd].
  rewrite IH. cbn [mbind outcome_bind]. unfold written_version. destruct (hb_writes b !! r) as [data|] eqn:E.
  - rewrite decide_True by done. cbn [sv_version]. by rewrite (proj2 (Z.ltb_lt _ _) (Hv r)).
  - rewrite decide_False by (by intros []). by rewrite Z.ltb_irrefl.
Qed.

Lemma restored_match σ b rids :
  (forall r, is_Some (hb_writes b !! r) -> r ∈ rids) ->
  diffs_match b (restored_diff σ b <$> filter (fun e => is_Some (hb_writes b !! e.2)) (imap pair rids)).
Proof.
  intros Hall. split.
  - intros d Hd. apply list_elem_of_fmap in Hd as ([i r] & -> & Hd). apply list_elem_of_filter in Hd as [[data E] _]. cbn [snd] in E.
    exists {| sv_resource_id := r; sv_version := hb_index b; sv_data := data |}. cbn. unfold written_version. by rewrite E.
  - intros r Hr. apply Hall in Hr as Hin. apply list_elem_of_lookup in Hin as [i Hi].
    exists (restored_diff σ b (i, r)). split; [|done]. apply list_elem_of_fmap_2, list_elem_of_filter. split; [done|].
    apply list_elem_of_lookup. exists i. rewrite list_lookup_imap, Hi. done.
Qed.
End disk.
