(* ===== verification/SchedPrune.v ===== *)
(** * SchedPrune: what a pruning pass deletes

    The versions that canonical batches superseded, those that orphaned batches wrote, and the
    pointers of both; the states from the new root on stay readable. *)

From S2P Require Import Prelude Codec Types SmtNode SmtTrie SmtUpdate SmtTree AtomicRing CanonicalChain RocksStore L1Types StateSpaces SchedStore SchedProofs SchedCommit.

Section prune.
Context {Db : Type} `{OrderedKvOk Db} {M : Type} `{BorshCodec M} `{Default M}.
Implicit Types (s : RocksDbStore Db).

(** Stale markers have the right lengths. *)
Definition stale_ok (d : Db) : Prop :=
  forall raw val, db_get d SmtStale raw = Some val ->
    (exists (a : array 8) (b : array 32) (c : array 2), raw = vec_to_list a ++ vec_to_list b ++ vec_to_list c) /\
    exists v : array 8, val = vec_to_list v.

Lemma smt_prune_ok s i : stale_ok (db s) -> exists ops, RocksStore.prune s i = Ok ops.
Proof.
  intros Hok. unfold RocksStore.prune.
  assert (Forall (fun e => db_get (db s) SmtStale e.1 = Some e.2) (prefix_iter s SmtStale (vec_to_list (be_split 8 i)))) as Hall.
  { apply Forall_forall. intros [k v] Hin. assert (prefix_iter s SmtStale (vec_to_list (be_split 8 i)) = db_scan (db s) SmtStale 8 (be64 i)) as E.
    { unfold prefix_iter, be64. pose proof (be64_len i) as Hl. unfold be64 in Hl. by destruct (vec_to_list (be_split 8 i)). }
    rewrite E in Hin. apply db_scan_elem in Hin as (Hg & _); [done|]. rewrite be64_len. lia. }
  assert (exists ops, mapM_outcome (fun '(raw_key, raw_value) =>
    node_key ← unwrap (stale_decode_key raw_key); node_version ← unwrap (stale_decode_value raw_value);
    Ok [DeleteNode node_key node_version; DeleteStaleNode (StaleNode.new i node_key node_version)])
    (prefix_iter s SmtStale (vec_to_list (be_split 8 i))) = Ok ops :> Result _) as [ops ->]; [|by exists (concat ops)].
  induction Hall as [|[k v] l Hg _ [ops IH]]; [by exists []|]. destruct (Hok _ _ Hg) as [(a & b & c & Ek) (w & Ev)].
  cbn [fst snd] in *. subst k v. cbn [mapM_outcome].
  assert (stale_decode_key (vec_to_list a ++ vec_to_list b ++ vec_to_list c) = Ok (Key.new (Z.to_nat (be_value (vec_to_list c))) b)) as ->.
  { unfold stale_decode_key. erewrite pbind_run by apply skip_run. unfold Key.decode.
    erewrite pbind_run by apply read_array_run. unfold Reader.be_u16, Reader.be_uint. rewrite <- (app_nil_r (vec_to_list c)) at 1.
    erewrite pbind_run; [|erewrite pbind_run by apply read_array_run; reflexivity]. done. }
  assert (stale_decode_value (vec_to_list w) = Ok (be_value (vec_to_list w))) as ->.
  { unfold stale_decode_value, Reader.be_u64, Reader.be_uint. rewrite <- (app_nil_r (vec_to_list w)) at 1.
    erewrite pbind_run by apply read_array_run. done. }
  cbn [unwrap mbind outcome_bind]. rewrite IH. by eexists.
Qed.

(** A pass only deletes. *)
Lemma smt_prune_deletes s i ops : RocksStore.prune s i = Ok ops -> Forall (fun w => op_value (lower w) = None) ops.
Proof.
  unfold RocksStore.prune. generalize (prefix_iter s SmtStale (vec_to_list (be_split 8 i))). intros l. revert ops.
  induction l as [|[k v] l IH]; intros ops; cbn [mapM_outcome mbind outcome_bind]; [intros [= <-]; constructor|].
  destruct (unwrap (stale_decode_key k)) as [nk| |]; cbn [mbind outcome_bind]; [|done..].
  destruct (unwrap (stale_decode_value v)) as [nv| |]; cbn [mbind outcome_bind]; [|done..].
  destruct (mapM_outcome _ l) as [rest| |] eqn:E; cbn [mbind outcome_bind] in *; [|done..]. intros [= <-].
  cbn [concat app]. do 2 (constructor; [done|]). by apply IH.
Qed.

Lemma elem_of_concat {A} (ll : list (list A)) x : x ∈ concat ll <-> exists l, x ∈ l /\ l ∈ ll.
Proof.
  rewrite list_elem_of_In, in_concat. split; intros (l & H1' & H2'); exists l; rewrite ?list_elem_of_In in *; tauto.
Qed.

(** Version [v] of the resource goes when batch [i] is pruned. *)
Definition drops s (view : Snapshot) (i v : Z) (r : ResourceId) : Prop :=
  exists old, u64 old /\ db_get (db s) StatePtrRollback (rollback_key i r) = Some (be64 old) /\
    if is_canonical (mem (canonical s)) view i then v = old /\ old <> 0%Z else v = i.

Record pruned_ops s (view : Snapshot) (range : list Z) (ops : list BatchOp) : Prop := {
  po_version op : op ∈ ops -> op_space op = StateVersion ->
    exists i v r, i ∈ range /\ u64 v /\ drops s view i v r /\ op = version_delete v r;
  po_pointer op : op ∈ ops -> op_space op = StatePtrRollback -> exists i r, i ∈ range /\ op = rollback_delete i r;
  po_other op : op ∈ ops -> op_space op <> StatePtrLatest /\ op_space op <> SpaceMetadata;
  po_stale op : op ∈ ops -> op_space op = SmtStale -> exists w, op = lower w;
  po_delete op : op ∈ ops -> op_value op = None;
  po_versions i v r : i ∈ range -> drops s view i v r -> version_delete v r ∈ ops;
  po_pointers i r : i ∈ range -> is_Some (db_get (db s) StatePtrRollback (rollback_key i r)) -> rollback_delete i r ∈ ops
}.

Definition pointer_ops (canon : bool) (i : Z) (e : ResourceId * Z) : list BatchOp :=
  (if negb canon then [version_delete i e.1] else if negb (e.2 =? 0)%Z then [version_delete e.2 e.1] else []) ++ [rollback_delete i e.1].

Lemma elem_pointer_ops canon i r old op :
  op ∈ pointer_ops canon i (r, old) <->
  op = rollback_delete i r \/ exists v, (if canon : bool then v = old /\ old <> 0%Z else v = i) /\ op = version_delete v r.
Proof.
  unfold pointer_ops. rewrite elem_of_app, list_elem_of_singleton. cbn [fst snd].
  destruct canon; cbn [negb]; [destruct (Z.eqb_spec old 0); cbn [negb]|]; rewrite ?list_elem_of_singleton, ?elem_of_nil; naive_solver.
Qed.

Lemma prune_batch_spec s view i :
  pointers_ok (db s) -> stale_ok (db s) -> u64 i -> exists ops, prune_batch s view i = Ok ops /\ pruned_ops s view [i] ops.
Proof.
  intros Hok Hst Hi. destruct (iter_batch_spec s i Hok Hi) as (l & Hiter & Hl). destruct (smt_prune_ok s i Hst) as [stale Hstale].
  set (canon := is_canonical (mem (canonical s)) view i).
  set (rest := [batch_metadata_delete i] ++ invalidate_checkpoint s i ++ (lower <$> stale)).
  assert (forall op, op ∈ rest -> op_space op = SpaceBatchMetadata \/ op_space op = ProofReceipt \/ op_space op = SmtNode \/ op_space op = SmtStale) as Hrest.
  { intros op. unfold rest. rewrite !elem_of_app. intros [Hop|[Hop|Hop]].
    - apply list_elem_of_singleton in Hop as ->. by left.
    - apply list_elem_of_fmap in Hop as ([k v] & -> & _). by right; left.
    - apply list_elem_of_fmap in Hop as (wop & -> & _). destruct (lower_space wop); tauto. }
  assert (forall op, op ∈ concat (pointer_ops canon i <$> l) <-> exists e, e ∈ l /\ op ∈ pointer_ops canon i e) as Hptr.
  { intros op. rewrite elem_of_concat. split.
    - intros (ops & Hop & Hin). apply list_elem_of_fmap in Hin as (e & -> & He). by exists e.
    - intros (e & He & Hop). exists (pointer_ops canon i e). split; [done|]. by apply list_elem_of_fmap_2. }
  exists (concat (pointer_ops canon i <$> l) ++ rest). split.
  { unfold prune_batch. rewrite Hiter. cbn [mbind outcome_bind].
    rewrite (mapM_outcome_fmap _ _ (pointer_ops canon i)); [|intros [r old] _; cbn [fst snd]; by rewrite resource_id_slice].
    cbn [mbind outcome_bind]. by rewrite Hstale. }
  split.
  - intros op Hop Hs. apply elem_of_app in Hop as [Hop|Hop]; [|apply Hrest in Hop; rewrite Hs in Hop; naive_solver].
    apply Hptr in Hop as ([r old] & He & Hop). apply Hl in He as [Hold Hg].
    apply elem_pointer_ops in Hop as [->|(v & Hv & ->)]; [done|]. exists i, v, r. split; [by left|].
    split; [unfold canon in Hv; destruct (is_canonical _ _ _); [by destruct Hv as [-> _]|by rewrite Hv]|]. split; [by exists old|done].
  - intros op Hop Hs. apply elem_of_app in Hop as [Hop|Hop]; [|apply Hrest in Hop; rewrite Hs in Hop; naive_solver].
    apply Hptr in Hop as ([r old] & He & Hop). apply elem_pointer_ops in Hop as [->|(v & Hv & ->)]; [|done]. exists i, r. split; [by left|done].
  - intros op Hop. apply elem_of_app in Hop as [Hop|Hop].
    + apply Hptr in Hop as ([r old] & He & Hop). by apply elem_pointer_ops in Hop as [->|(v & Hv & ->)].
    + apply Hrest in Hop. destruct (op_space op); naive_solver.
  - intros op Hop Hs. apply elem_of_app in Hop as [Hop|Hop].
    + apply Hptr in Hop as ([r old] & He & Hop). by apply elem_pointer_ops in Hop as [->|(v & Hv & ->)].
    + unfold rest in Hop. rewrite !elem_of_app in Hop. destruct Hop as [Hop|[Hop|Hop]].
      * by apply list_elem_of_singleton in Hop as ->.
      * by apply list_elem_of_fmap in Hop as ([k v] & -> & _).
      * apply list_elem_of_fmap in Hop as (w & -> & _). by exists w.
  - intros op Hop. apply elem_of_app in Hop as [Hop|Hop].
    + apply Hptr in Hop as ([r old] & He & Hop). by apply elem_pointer_ops in Hop as [->|(v & Hv & ->)].
    + unfold rest in Hop. rewrite !elem_of_app in Hop. destruct Hop as [Hop|[Hop|Hop]].
      * by apply list_elem_of_singleton in Hop as ->.
      * by apply list_elem_of_fmap in Hop as ([k v] & -> & _).
      * apply list_elem_of_fmap in Hop as (w & -> & Hw). apply smt_prune_deletes in Hstale. rewrite Forall_forall in Hstale. by apply Hstale.
  - intros j v r Hj (old & Hold & Hg & Hv). apply list_elem_of_singleton in Hj as ->. apply elem_of_app. left. apply Hptr.
    exists (r, old). split; [by apply Hl|]. apply elem_pointer_ops. right. by exists v.
  - intros j r Hj [val Hg]. apply list_elem_of_singleton in Hj as ->. destruct (Hok _ _ Hg) as (i' & r' & old & Hi' & Hold & E & ->).
    apply indexed_key_inj in E as [<- <-]; [|done|done]. apply elem_of_app. left. apply Hptr.
    exists (r, old). split; [by apply Hl|]. apply elem_pointer_ops. by left.
Qed.

Lemma pruned_ops_app s view r1 r2 ops1 ops2 :
  pruned_ops s view r1 ops1 -> pruned_ops s view r2 ops2 -> pruned_ops s view (r1 ++ r2) (ops1 ++ ops2).
Proof.
  intros [V1 P1 O1 S1 D1 Vs1 Ps1] [V2 P2 O2 S2 D2 Vs2 Ps2]. split.
  - intros op [Hop|Hop]%elem_of_app Hs; [destruct (V1 _ Hop Hs) as (i & v & r & ? & ?)|destruct (V2 _ Hop Hs) as (i & v & r & ? & ?)];
      exists i, v, r; rewrite elem_of_app; tauto.
  - intros op [Hop|Hop]%elem_of_app Hs; [destruct (P1 _ Hop Hs) as (i & r & ? & ?)|destruct (P2 _ Hop Hs) as (i & r & ? & ?)];
      exists i, r; rewrite elem_of_app; tauto.
  - intros op [Hop|Hop]%elem_of_app; [by apply O1|by apply O2].
  - intros op [Hop|Hop]%elem_of_app; [by apply S1|by apply S2].
  - intros op [Hop|Hop]%elem_of_app; [by apply D1|by apply D2].
  - intros i v r [Hi|Hi]%elem_of_app Hd; apply elem_of_app; [left; by eapply Vs1|right; by eapply Vs2].
  - intros i r [Hi|Hi]%elem_of_app Hd; apply elem_of_app; [left; by eapply Ps1|right; by eapply Ps2].
Qed.

Lemma prune_ops_range s view range :
  pointers_ok (db s) -> stale_ok (db s) -> Forall u64 range ->
  exists opss, mapM_outcome (prune_batch s view) range = Ok opss /\ pruned_ops s view range (concat opss).
Proof.
  intros Hok Hst Hall. induction Hall as [|i range Hi _ (opss & Hm & Hops)].
  - exists []. split; [done|]. split; intros *; by rewrite ?elem_of_nil.
  - destruct (prune_batch_spec s view i Hok Hst Hi) as (ops & Hb & Hops'). exists (ops :: opss). cbn [mapM_outcome concat].
    rewrite Hb. cbn [mbind outcome_bind]. rewrite Hm. split; [done|]. by apply (pruned_ops_app s view [i] range).
Qed.

(** *** The database after the pass *)

Section pass.
Context (s : RocksDbStore Db) (view : Snapshot) (range : list Z) (ops : list BatchOp) (root : Checkpoint M).
Hypothesis Hops : pruned_ops s view range ops.
Hypothesis Hrange : Forall u64 range.
Let d' := db (commit_ops s (ops ++ [set_root root])).

Lemma pass_get ns k : ns <> SpaceMetadata -> db_get d' ns k = default (db_get (db s) ns k) (batch_effect ops ns k).
Proof.
  intros Hns. unfold d'. rewrite commit_ops_get, batch_effect_app. rewrite (batch_effect_space [_]); [done|].
  constructor; [cbn; congruence|done].
Qed.

Lemma pass_untouched ns k : ns <> SpaceMetadata -> (forall op, op ∈ ops -> ~ touches op ns k) -> db_get d' ns k = db_get (db s) ns k.
Proof. intros Hns Ht. rewrite pass_get by done. rewrite batch_effect_untouched; [done|]. by apply Forall_forall. Qed.

(** What is left was there before. *)
Lemma pass_shrinks ns k val : ns <> SpaceMetadata -> db_get d' ns k = Some val -> db_get (db s) ns k = Some val.
Proof.
  intros Hns. rewrite pass_get by done. destruct (decide (Exists (fun op => touches op ns k) ops)) as [He|He].
  - rewrite (batch_effect_agree _ _ _ None); [done|by apply Exists_exists in He|]. intros op Hop _. by eapply po_delete.
  - by rewrite batch_effect_untouched by by apply Forall_Exists_neg.
Qed.

Lemma touches_space op ns k : touches op ns k -> op_space op = ns.
Proof. destruct op; cbn; naive_solver. Qed.

Lemma pass_latest k : db_get d' StatePtrLatest k = db_get (db s) StatePtrLatest k.
Proof. apply pass_untouched; [done|]. intros op Hop Ht%touches_space. by destruct (po_other _ _ _ _ Hops op Hop). Qed.

Lemma pass_deleted ns k :
  ns <> SpaceMetadata -> (forall op, op ∈ ops -> touches op ns k -> op_value op = None) ->
  (is_Some (db_get (db s) ns k) -> exists op, op ∈ ops /\ touches op ns k) -> db_get d' ns k = None.
Proof.
  intros Hns Hdel Hall. rewrite pass_get by done. destruct (decide (Exists (fun op => touches op ns k) ops)) as [He|He].
  - rewrite (batch_effect_agree _ _ _ None); [done| |done]. by apply Exists_exists in He.
  - rewrite batch_effect_untouched; [|by apply Forall_Exists_neg]. cbn [default]. apply eq_None_not_Some. intros Hs. by apply He, Exists_exists, Hall.
Qed.

Lemma pass_version v r : u64 v -> (forall i, i ∈ range -> ~ drops s view i v r) -> db_get d' StateVersion (version_key v r) = db_get (db s) StateVersion (version_key v r).
Proof.
  intros Hv Hs. apply pass_untouched; [done|]. intros op Hop Ht. destruct (po_version _ _ _ _ Hops op Hop (touches_space _ _ _ Ht)) as (i & w & q & Hi & Hw & Hd & ->).
  destruct Ht as [_ E]. apply indexed_key_inj in E as [-> ->]; [|done|done]. by apply (Hs i Hi).
Qed.

Lemma pass_dropped i v r : i ∈ range -> drops s view i v r -> u64 v -> db_get d' StateVersion (version_key v r) = None.
Proof.
  intros Hi Hd Hv. apply pass_deleted; [done| |].
  - intros op Hop Ht. by destruct (po_version _ _ _ _ Hops op Hop (touches_space _ _ _ Ht)) as (j & w & q & _ & _ & _ & ->).
  - intros _. exists (version_delete v r). split; [by eapply Hops|done].
Qed.

Lemma pass_pointer i r : u64 i -> i ∉ range -> db_get d' StatePtrRollback (rollback_key i r) = db_get (db s) StatePtrRollback (rollback_key i r).
Proof.
  intros Hu Hi. apply pass_untouched; [done|]. intros op Hop Ht. destruct (po_pointer _ _ _ _ Hops op Hop (touches_space _ _ _ Ht)) as (j & q & Hj & ->).
  destruct Ht as [_ E]. rewrite Forall_forall in Hrange. apply indexed_key_inj in E as [-> ->]; [done|by apply Hrange|done].
Qed.

Lemma pass_pointer_gone i r : i ∈ range -> db_get d' StatePtrRollback (rollback_key i r) = None.
Proof.
  intros Hi. apply pass_deleted; [done| |].
  - intros op Hop Ht. by destruct (po_pointer _ _ _ _ Hops op Hop (touches_space _ _ _ Ht)) as (j & q & _ & ->).
  - intros Hs. exists (rollback_delete i r). split; [by eapply Hops|done].
Qed.

Lemma pass_pointers_ok : pointers_ok (db s) -> pointers_ok d'.
Proof.
  intros Hok raw val. rewrite pass_get by done. destruct (batch_effect ops _ raw) as [[x|]|] eqn:E; [|done|apply Hok].
  exfalso. destruct (decide (Exists (fun op => touches op StatePtrRollback raw) ops)) as [He|He].
  - rewrite (batch_effect_agree _ _ _ None) in E; [done|by apply Exists_exists in He|].
    intros op Hop Ht. by destruct (po_pointer _ _ _ _ Hops op Hop (touches_space _ _ _ Ht)) as (j & q & _ & ->).
  - rewrite batch_effect_untouched in E; [done|]. by apply Forall_Exists_neg.
Qed.

Definition safe (v : Z) (r : ResourceId) : Prop := forall i, i ∈ range -> ~ drops s view i v r.

Lemma pass_archived n σ h :
  wf_hist n σ h -> (forall r v x, σ !! r = Some (v, x) -> safe v r) ->
  Forall (fun b => hb_index b ∉ range /\ forall r, safe (hb_index b) r) h -> archived (db s) σ h -> archived d' σ h.
Proof.
  intros Hwf. induction Hwf as [n σ _ Hsane|n σ b h _ Hsane Hlt Hu Hwf IH]; intros Hs Hall [Hd Ha].
  all: assert (data_of d' σ) as Hd'.
  1,3: intros q v x Hx; destruct (Hsane _ _ _ Hx) as (_ & ? & _); rewrite pass_version by (done || by eapply Hs); by apply Hd.
  { by split. }
  destruct Ha as [[Hp Hw] Ha]. apply Forall_cons in Hall as [[Hnb Hsb] Hall]. split; [done|]. split; [split|apply IH; [|done|done]].
  - intros r. rewrite pass_pointer by done. apply Hp.
  - intros r. rewrite pass_version by (done || apply Hsb). apply Hw.
  - intros r v x. rewrite lookup_apply. unfold after_write. destruct (hb_writes b !! r) as [[|y l]|]; [done| |by apply Hs].
    intros [= <- <-]. apply Hsb.
Qed.
End pass.

(** A later write of a resource has a version at or above the batch's. *)
Lemma superseded n σ a b c r v x :
  wf_hist n σ (a ++ b :: c) -> is_Some (hb_writes b !! r) -> final σ (a ++ b :: c) !! r = Some (v, x) -> (hb_index b <= v)%Z.
Proof.
  intros [_ Hwf]%wf_app [data Hw] Hf. apply wf_cons_inv in Hwf as (_ & _ & Hwf). rewrite final_app in Hf. cbn [final foldl] in Hf.
  apply (final_version _ _ _ _ _ _ Hwf) in Hf as [Hf|(b' & Hb' & -> & _)].
  - rewrite lookup_apply, Hw in Hf. unfold after_write in Hf. destruct data; [done|]. injection Hf as <- _. lia.
  - destruct (wf_index_gt _ _ _ _ Hwf Hb'). lia.
Qed.

Section rep.
Context (s : RocksDbStore Db) (view : Snapshot) (lo hi n : Z) (σ : vstate) (h1 h2 pending : list hbatch).
Hypothesis Hrep : disk_rep (db s) n σ (h1 ++ h2) pending.
Hypothesis Hlo : (n < lo)%Z.
Hypothesis Hhi : (hi < 2 ^ 64)%Z.
Hypothesis Hin : Forall (fun b => lo <= hb_index b <= hi)%Z h1.
Hypothesis Hout : Forall (fun b => hi < hb_index b)%Z (h2 ++ pending).
Hypothesis Hview : forall i, (lo <= i <= hi)%Z -> is_canonical (mem (canonical s)) view i = bool_decide (i ∈ hb_index <$> h1).
Let range := seqZ lo (hi - lo + 1).

Let Hwf : wf_hist n σ (h1 ++ h2 ++ pending).
Proof. rewrite app_assoc. apply Hrep. Qed.

Let elem_range i : i ∈ range <-> (lo <= i <= hi)%Z.
Proof. unfold range. rewrite elem_of_seqZ. lia. Qed.

(** What is dropped was written by a canonical batch and superseded by one, or by an orphan. *)
Lemma drops_inv i v r :
  i ∈ range -> drops s view i v r ->
  (v <= hi)%Z /\
  ((exists a b c, h1 = a ++ b :: c /\ i = hb_index b /\ is_Some (hb_writes b !! r) /\ (v < i)%Z) \/ (v = i /\ i ∉ hb_index <$> h1)).
Proof.
  intros Hi%elem_range (old & Hold & Hg & Hv). rewrite Hview in Hv by done. case_bool_decide as Hc; [|split; [lia|by right]].
  destruct Hv as [-> Hne]. apply list_elem_of_fmap in Hc as (b & -> & Hb). apply list_elem_of_split in Hb as (a & c & ->).
  pose proof (dr_archived _ _ _ _ _ Hrep) as Ha. rewrite <- !app_assoc in Ha. cbn [app] in Ha. pose proof (archived_kept _ _ _ _ _ Ha) as [Hp _].
  rewrite Hp in Hg. destruct (hb_writes b !! r) as [data|] eqn:Hw; [|done].
  assert (wf_hist n σ (a ++ b :: c ++ h2 ++ pending)) as Hwf' by by rewrite <- app_assoc in Hwf.
  apply (inj Some), be64_inj in Hg; [|apply old_version_u64; by eapply wf_sane|done]. subst old.
  assert (old_version (final σ a) r <= top n a)%Z as Hle.
  { unfold old_version in *. destruct (final σ a !! r) as [[v x]|] eqn:E; [|done]. cbn. destruct (wf_final _ _ _ _ _ _ _ Hwf' E) as [? _]. lia. }
  apply wf_app in Hwf' as [_ Hwf']. apply wf_cons_inv in Hwf' as (Hlt & _). split; [lia|]. left. exists a, b, c. split; [done|]. split; [done|]. split; [by rewrite Hw|lia].
Qed.

Lemma root_safe r v x : final σ h1 !! r = Some (v, x) -> safe s view range v r.
Proof.
  intros Hx i Hi Hd. destruct (drops_inv _ _ _ Hi Hd) as (_ & [(a & b & c & E & -> & Hw & Hlt)|[-> Hn]]).
  - pose proof Hwf as Hwf'. apply wf_app in Hwf' as [Hwf' _]. rewrite E in Hwf', Hx. pose proof (superseded _ _ _ _ _ _ _ _ Hwf' Hw Hx). lia.
  - pose proof Hwf as Hwf'. apply wf_app in Hwf' as [Hwf' _]. apply elem_range in Hi.
    apply (final_version _ _ _ _ _ _ Hwf') in Hx as [Hx|(b & Hb & -> & _)].
    + destruct (wf_base _ _ _ Hwf') as [_ Hb]. destruct (Hb _ _ _ Hx). lia.
    + apply Hn. by apply list_elem_of_fmap_2.
Qed.

Lemma prune_rep (root : Checkpoint M) ops :
  pruned_ops s view range ops -> Forall u64 range ->
  disk_rep (db (commit_ops s (ops ++ [set_root root]))) (top n h1) (final σ h1) h2 pending.
Proof.
  intros Hops Hrange. pose proof Hrep as [_ Hok Hg Ha Hl]. rewrite <- app_assoc in Ha. apply archived_app in Ha as [_ Ha].
  pose proof Hwf as [_ Hwf2]%wf_app. split; [done|by eapply pass_pointers_ok| | |].
  - intros r. apply pass_deleted; [done| |rewrite Hg; by intros []].
    intros op Hop Ht. by destruct (po_version _ _ _ _ Hops op Hop (touches_space _ _ _ Ht)) as (j & w & q & _ & _ & _ & ->).
  - eapply pass_archived; [done|done|exact Hwf2|exact root_safe| |done]. eapply Forall_impl; [exact Hout|]. cbn beta. intros b Hb. split.
    + rewrite elem_range. lia.
    + intros r i Hi Hd. destruct (drops_inv _ _ _ Hi Hd). lia.
  - intros r. destruct (Hl r) as (l & Hpre & E). exists l. split; [done|]. rewrite (pass_latest s view range) by done. by rewrite E, <- app_assoc, final_app.
Qed.
End rep.
End prune.
