(* ===== verification/SchedMachine.v ===== *)
(** * SchedMachine: the scheduler as a state machine

    Scheduling, flushing, committing, rolling back, pruning and finalizing in any order the
    scheduler allows, against histories of states. *)

From S2P Require Import Prelude Codec Types SmtNode SmtTrie SmtUpdate SmtTree SmtStray AtomicRing CanonicalChain ChainProofs ChainTheorems RocksStore L1Types StateSpaces SchedStore SchedCore SchedProofs SchedCommit SchedPrune.

Section machine.
Context `{Hasher} {Db : Type} `{OrderedKvOk Db} {M : Type} `{BorshCodec M} `{Default M} `{BatchMetadata M} (debug : bool).
Abbreviation Sched := (@Scheduler Db M).
Implicit Types (sc : Sched).

(** ** Operations *)

Inductive event :=
| Schedule (metadata : M)
| Flush (batch_index : Z) (diff : StateDiff)
| Commit (restored : bool) (checkpoint : Checkpoint M) (diffs : list StateDiff)
| RollbackTo (target_index : Z)
| PrunePass
| FinalizeBelow (below : Z).

Definition with_store sc (s : RocksDbStore Db) : Sched :=
  {| sc_store := s; sc_manager := sc_manager sc; sc_root := sc_root sc; sc_last_committed := sc_last_committed sc;
     sc_last_processed := sc_last_processed sc; sc_pending_batches := sc_pending_batches sc;
     sc_cancellation := sc_cancellation sc; sc_pruning := sc_pruning sc |}.

(** [commit_done]. *)
Definition commit_done sc (s : RocksDbStore Db) (checkpoint : Checkpoint M) : Sched :=
  {| sc_store := s; sc_manager := sc_manager sc; sc_root := sc_root sc; sc_last_committed := checkpoint;
     sc_last_processed := sc_last_processed sc; sc_pending_batches := sc_pending_batches sc;
     sc_cancellation := sc_cancellation sc; sc_pruning := sc_pruning sc |}.

(** The cursor and the root that a pass announces. *)
Definition with_root sc (cursor : Z) (root : Checkpoint M) : Sched :=
  {| sc_store := sc_store sc; sc_manager := sc_manager sc; sc_root := root; sc_last_committed := sc_last_committed sc;
     sc_last_processed := sc_last_processed sc; sc_pending_batches := sc_pending_batches sc;
     sc_cancellation := sc_cancellation sc; sc_pruning := PruningWorker.set_cursor (sc_pruning sc) cursor |}.

(** The first half of a pass that goes ahead: the cursor and then the root move, in memory. *)
Definition start_pass sc : Result (Checkpoint M * Sched) :=
  let hi := PruningWorker.upper_bound (sc_pruning sc) in
  root ← prune_root (sc_store sc) hi; Ok (root, with_root sc hi root).

(** The second half: the batches are deleted under a view of the chain taken then. *)
Definition finish_pass sc (lo hi : Z) (root : Checkpoint M) : Result Sched :=
  s ← prune_delete (sc_store sc) lo hi root; Ok (with_store sc s).

(** One round of the pruning worker; when the ceiling was set meanwhile the cursor is put back. *)
Definition prune_pass sc : Result Sched :=
  let w := sc_pruning sc in
  let lo := cp_index (sc_root sc) in
  let hi := PruningWorker.upper_bound w in
  if PruningWorker.has_work w lo then
    if (PruningWorker.pause_ceiling w <=? hi)%Z then Ok sc
    else '(root, sc) ← start_pass sc; finish_pass sc lo hi root
  else Ok sc.

(** Every context is still held, and nothing waits in the write batch. *)
Definition exec sc (e : event) : Result Sched :=
  match e with
  | Schedule metadata => '(_, _, sc) ← next_checkpoint debug true sc metadata; Ok sc
  | Flush i diff => ops ← state_diff_write false i diff; Ok (with_store sc (commit_ops (sc_store sc) ops))
  | Commit restored checkpoint diffs =>
      ops ← batch_commit (sc_store sc) false restored (cp_index (sc_root sc)) checkpoint diffs;
      Ok (commit_done sc (commit_ops (sc_store sc) ops) checkpoint)
  | RollbackTo t => '(_, sc) ← rollback_to debug (fun _ => true) [] sc t; Ok sc
  | PrunePass => prune_pass sc
  | FinalizeBelow below => Ok (sink_finalize sc below)
  end.

(** ** Histories *)

Record ghost := { g_n : Z; g_base : vstate; g_hist : list hbatch; g_pending : list hbatch; g_floor : Z; g_canon : gset Z }.

Definition g_all (g : ghost) : list hbatch := g_hist g ++ g_pending g.
Definition g_state (g : ghost) : vstate := final (g_base g) (g_all g).

Definition with_history (g : ghost) (hist pending : list hbatch) (canon : gset Z) : ghost :=
  {| g_n := g_n g; g_base := g_base g; g_hist := hist; g_pending := pending; g_floor := g_floor g; g_canon := canon |}.

Definition not_above (t : Z) (h : list hbatch) : list hbatch := filter (fun b => hb_index b <= t)%Z h.
Definition above (t : Z) (h : list hbatch) : list hbatch := filter (fun b => t < hb_index b)%Z h.

(** Metadata that the database can give back. *)
Definition readable (md : M) : Prop := exists md' : M, from_slice (borsh_to_vec md) = Ok md'.

(** When an operation is due, and what it does to the history. The code does not check these
    conditions itself; its callers and the order of its threads have to provide them. A block that
    is scheduled extends the tip; a diff is flushed with the data its batch reads; batches commit
    from the oldest on; a rollback does not go below what is pruned; a pass, from its start to its
    end, stays below the pending batches and the tip; finalizing does not run ahead of pruning. *)
Inductive step sc (g : ghost) : event -> ghost -> Prop :=
| step_schedule md b :
    manager_allowed (sc_manager sc) (MAppend md) ->
    hb_index b = default (next_id (sc_manager sc)) (Manager.id_of (sc_manager sc) (block_hash md)) ->
    (tip (current (Manager.chain_ (sc_manager sc))) < hb_index b)%Z ->
    (Manager.id_of (sc_manager sc) (block_hash md) = None -> hb_writes b = ∅) ->
    (is_Some (Manager.id_of (sc_manager sc) (block_hash md)) -> kept (db (sc_store sc)) (g_state g) b) ->
    step sc g (Schedule md) (with_history g (g_hist g) (g_pending g ++ [b]) (next_canon (sc_manager sc) (g_canon g) (MAppend md)))
| step_flush p1 b p2 diff rd wr :
    g_pending g = p1 ++ b :: p2 -> sd_read diff = Some rd -> sd_written diff = Some wr ->
    sv_resource_id wr = sv_resource_id rd -> reads_from (final (g_base g) (g_hist g ++ p1)) rd ->
    (sv_version rd < sv_version wr)%Z -> sv_version wr = hb_index b ->
    hb_writes b !! sv_resource_id rd = None -> Forall (fun b' => hb_writes b' !! sv_resource_id rd = None) p2 ->
    step sc g (Flush (hb_index b) diff)
      (with_history g (g_hist g) (p1 ++ with_write b (sv_resource_id rd) (sv_data wr) :: p2) (g_canon g))
| step_commit b pending restored checkpoint ds updated :
    g_pending g = b :: pending -> cp_index checkpoint = hb_index b ->
    updated_state_diffs ds = Ok updated -> diffs_match b updated -> readable (cp_metadata checkpoint) ->
    step sc g (Commit restored checkpoint ds) (with_history g (g_hist g ++ [b]) pending (g_canon g))
| step_rollback t :
    (PruningWorker.pruning_cursor (sc_pruning sc) <= t)%Z -> (t = 0 \/ cp_index (sc_root sc) <= t + 1)%Z ->
    step sc g (RollbackTo t)
      (with_history g (not_above t (g_hist g)) (not_above t (g_pending g)) (filter (fun i => i <= t)%Z (g_canon g)))
| step_prune :
    let hi := PruningWorker.upper_bound (sc_pruning sc) in
    PruningWorker.has_work (sc_pruning sc) (cp_index (sc_root sc)) = true ->
    Forall (fun b => hi < hb_index b)%Z (g_pending g) -> (hi <= tip (current (Manager.chain_ (sc_manager sc))))%Z ->
    step sc g PrunePass
      {| g_n := top (g_n g) (not_above hi (g_hist g)); g_base := final (g_base g) (not_above hi (g_hist g));
         g_hist := above hi (g_hist g); g_pending := g_pending g; g_floor := g_floor g; g_canon := g_canon g |}
| step_finalize below :
    (cp_index (sc_root sc) <= PruningWorker.pruning_cursor (sc_pruning sc) + 1)%Z -> (cp_index (sc_root sc) < 2 ^ 64)%Z ->
    step sc g (FinalizeBelow below)
      {| g_n := g_n g; g_base := g_base g; g_hist := g_hist g; g_pending := g_pending g;
         g_floor := next_floor (g_floor g) (MFinalize (cp_index (sc_root sc)) : @manager_op M); g_canon := g_canon g |}.

(** ** The tree's nodes and the batches' metadata *)

(** Every node is the encoding of one that can be at its position, whatever its version. *)
Definition nodes_ok (d : Db) : Prop :=
  smt_ok d /\ forall p v n, length p <= DEPTH -> u64 v -> raw_node d (key_of p) v = Some n -> placed_at p n.

Lemma nodes_shrink (d d' : Db) :
  (forall k val, db_get d' SmtNode k = Some val -> db_get d SmtNode k = Some val) -> nodes_ok d -> nodes_ok d'.
Proof.
  intros Hs [Hok Hp]. split; [intros raw val Hr; by apply Hok, Hs|]. intros p v n Hl Hv Hn. apply (Hp p v n Hl Hv).
  revert Hn. unfold raw_node. destruct (db_get d' SmtNode _) as [val|] eqn:E; [|done]. by rewrite (Hs _ _ E).
Qed.

Lemma nodes_commit (s : RocksDbStore Db) ops v : nodes_ok (db s) -> u64 v -> placed_log v ops -> nodes_ok (db (store_commit s ops)).
Proof.
  intros [Hok Hp] Hv Hl. pose proof (placed_log_update _ _ Hl) as Hlog. pose proof (update_log_ok _ _ Hv Hlog) as Hops.
  split; [by apply smt_ok_commit|]. intros p w n Hlen Hw. cbn [store_commit db].
  rewrite raw_node_commit by (done || by apply key_of_ok). rewrite (effect_log v) by done.
  case_decide as Hd; [|by apply Hp]. destruct (written ops (key_of p)) as [n'|] eqn:E; [|by apply Hp]. cbn. intros [= ->].
  apply written_Some in E as [v' Hin]. unfold placed_log in Hl. rewrite Forall_forall in Hl.
  destruct (Hl _ Hin) as (_ & q & Hk & Hq & Hn). by apply key_of_inj in Hk as ->.
Qed.

(** The tree takes every batch of commitments. *)
Lemma nodes_update (s : RocksDbStore Db) cs v :
  nodes_ok (db s) -> (0 < v)%Z -> u64 v -> exists rt ops, Tree.update s cs v = Ok (rt, ops) /\ placed_log v ops.
Proof.
  intros [Hok Hp] Hpos Hv. apply update_total; [done| |done|done]. intros p w n Hlen Hw. cbn.
  destruct (shows _ _ w); [|done]. by apply Hp.
Qed.

Definition metadata_ok (d : Db) : Prop :=
  forall k val, db_get d SpaceBatchMetadata k = Some val -> exists md : M, from_slice val = Ok md.

Lemma metadata_read (s : RocksDbStore Db) i : metadata_ok (db s) -> exists md : M, batch_metadata_get s i = Ok md.
Proof.
  intros Hm. unfold batch_metadata_get, get. destruct (db_get (db s) SpaceBatchMetadata (be64 i)) as [val|] eqn:E; cbn [map_get].
  - destruct (Hm _ _ E) as [md ->]. by eexists.
  - by eexists.
Qed.

(** ** The invariant *)

Record inv sc (g : ghost) : Prop := {
  iv_rep : disk_rep (db (sc_store sc)) (g_n g) (g_base g) (g_hist g) (g_pending g);
  iv_manager : manager_ok (sc_manager sc) (g_floor g) (g_canon g);
  iv_chain : canonical (sc_store sc) = Manager.chain_ (sc_manager sc);
  iv_canon i : (g_n g < i)%Z -> i ∈ g_canon g <-> i ∈ hb_index <$> g_all g;
  iv_unused i : (next_id (sc_manager sc) <= i)%Z -> u64 i -> unused (db (sc_store sc)) i;
  iv_tip : cp_index (sc_last_processed sc) = tip (current (Manager.chain_ (sc_manager sc)));
  iv_base : (g_n g <= tip (current (Manager.chain_ (sc_manager sc))))%Z;
  iv_stale : stale_ok (db (sc_store sc));
  iv_nodes : nodes_ok (db (sc_store sc));
  iv_meta : metadata_ok (db (sc_store sc));
  iv_cursor : (g_n g <= PruningWorker.pruning_cursor (sc_pruning sc))%Z;
  iv_floor : (g_floor g <= PruningWorker.pruning_cursor (sc_pruning sc) + 1)%Z;
  iv_root :
    cp_index (sc_root sc) = 0%Z /\ g_all g = [] /\ (PruningWorker.pruning_cursor (sc_pruning sc) <= 0)%Z \/
    (PruningWorker.pruning_cursor (sc_pruning sc) < cp_index (sc_root sc) <= tip (current (Manager.chain_ (sc_manager sc))) + 1)%Z /\
    Forall (fun b => cp_index (sc_root sc) <= hb_index b)%Z (g_all g)
}.

Lemma kept_data (d : Db) σ b : data_of d σ -> kept d σ b -> data_of d (apply_batch σ b).
Proof.
  intros Hd [_ Hw] r v x. rewrite lookup_apply. unfold after_write. specialize (Hw r). destruct (hb_writes b !! r) as [[|y l]|] eqn:E; [done| |by apply Hd].
  intros [= <- <-]. cbn [default] in Hw. destruct (db_get d StateVersion (version_key (hb_index b) r)); cbn in Hw; [by rewrite Hw|done].
Qed.

Lemma top_elem n h b : b ∈ h -> forall σ, wf_hist n σ h -> (hb_index b <= top n h)%Z.
Proof.
  intros Hb σ Hwf. destruct h as [|b0 h] using rev_ind; [by apply elem_of_nil in Hb|]. clear IHh. unfold top. rewrite last_snoc. cbn.
  apply elem_of_app in Hb as [Hb|Hb%list_elem_of_singleton]; [|subst; lia].
  destruct (wf_below _ _ _ _ _ Hwf) as [_ Hall]. rewrite Forall_forall in Hall. specialize (Hall _ Hb). lia.
Qed.

Lemma top_bound n h m : (n <= m)%Z -> Forall (fun b => hb_index b <= m)%Z h -> (top n h <= m)%Z.
Proof. intros Hn Hall. unfold top. destruct (last h) as [b|] eqn:E; [|done]. cbn. rewrite Forall_forall in Hall. by apply Hall, last_Some_elem_of. Qed.

Lemma not_above_none t h : Forall (fun b => t < hb_index b)%Z h -> not_above t h = [].
Proof. intros Hall. unfold not_above. induction Hall as [|b h Hb _ IH]; [done|]. rewrite filter_cons, decide_False by lia. done. Qed.

Lemma split_above n σ h t : wf_hist n σ h -> h = not_above t h ++ above t h.
Proof.
  induction 1 as [|n σ b h _ _ Hlt Hu Hwf IH]; [done|]. unfold not_above, above in *. rewrite !filter_cons.
  destruct (decide (hb_index b <= t)%Z) as [Hle|Hgt].
  - rewrite (decide_False (P := (t < hb_index b)%Z)) by lia. cbn [app]. by rewrite <- IH.
  - rewrite (decide_True (P := (t < hb_index b)%Z)) by lia.
    assert (filter (fun b => hb_index b <= t)%Z h = []) as E.
    { apply not_above_none, Forall_forall. intros b' Hb'. destruct (wf_index_gt _ _ _ _ Hwf Hb'). lia. }
    rewrite E in IH |- *. cbn [app] in *. by rewrite <- IH.
Qed.

Lemma not_above_all t h : Forall (fun b => hb_index b <= t)%Z h -> not_above t h = h.
Proof. intros Hall. unfold not_above. induction Hall as [|b h Hb _ IH]; [done|]. rewrite filter_cons, decide_True by done. by rewrite IH. Qed.
Lemma elem_not_above t h b : b ∈ not_above t h <-> (hb_index b <= t)%Z /\ b ∈ h.
Proof. unfold not_above, above. by rewrite list_elem_of_filter. Qed.
Lemma elem_above t h b : b ∈ above t h <-> (t < hb_index b)%Z /\ b ∈ h.
Proof. unfold not_above, above. by rewrite list_elem_of_filter. Qed.

Lemma drop_entries_next (es : list M) : forall b ix below,
  let '(es', b', _) := Manager.drop_entries es b ix below in (b' + Z.of_nat (length es') = b + Z.of_nat (length es))%Z.
Proof.
  induction es as [|md es IH]; intros b ix below; cbn [Manager.drop_entries]; [done|]. destruct (_ <? _)%Z; [|done].
  specialize (IH (b + 1)%Z (delete (block_hash md) ix) below). destruct (Manager.drop_entries es _ _ _) as [[es' b'] ix']. cbn [length]. lia.
Qed.

(** ** Each operation *)

Section preservation.
Context (sc : Sched) (g : ghost) (Hinv : inv sc g).

Let Hwf : wf_hist (g_n g) (g_base g) (g_all g).
Proof. apply Hinv. Qed.

Lemma inv_nonneg : (0 <= g_n g)%Z.
Proof. by destruct (wf_base _ _ _ Hwf). Qed.

Lemma all_canon b : b ∈ g_all g -> (g_n g < hb_index b <= tip (current (Manager.chain_ (sc_manager sc))))%Z.
Proof.
  intros Hb. destruct (wf_index_gt _ _ _ _ Hwf Hb) as [Hlt _]. split; [done|].
  apply (co_canon _ _ _ _ (mo_cur _ _ _ (iv_manager _ _ Hinv))), (iv_canon _ _ Hinv); [done|]. by apply list_elem_of_fmap_2.
Qed.

Lemma top_tip : (top (g_n g) (g_all g) <= Z.max (g_n g) (tip (current (Manager.chain_ (sc_manager sc)))))%Z.
Proof. apply top_bound; [lia|]. apply Forall_forall. intros b Hb. destruct (all_canon b Hb). lia. Qed.

Definition assigned (md : M) : Z := default (next_id (sc_manager sc)) (Manager.id_of (sc_manager sc) (block_hash md)).

Lemma append_facts md :
  manager_allowed (sc_manager sc) (MAppend md) -> (tip (current (Manager.chain_ (sc_manager sc))) < assigned md)%Z ->
  (assigned md <= 2 ^ 62)%Z /\
  exists out m', Manager.append debug (sc_manager sc) md = Ok (out, m') /\ id out = assigned md /\
    manager_ok m' (g_floor g) (next_canon (sc_manager sc) (g_canon g) (MAppend md)) /\
    next_canon (sc_manager sc) (g_canon g) (MAppend md) = g_canon g ∪ {[assigned md]} /\
    tip (current (Manager.chain_ m')) = assigned md /\ (next_id (sc_manager sc) <= next_id m')%Z /\ (assigned md < next_id m')%Z.
Proof.
  intros Ha Htip. pose proof (iv_manager _ _ Hinv) as Hm. destruct (append_ok debug _ _ _ md Hm Ha) as (m' & Happ & Hm').
  pose proof Hm as [Hok Hcur Hbase Hix Htip' Htop]. unfold assigned in *. cbn [manager_allowed next_canon] in *.
  destruct (Manager.id_of (sc_manager sc) (block_hash md)) as [i|] eqn:Eid; cbn [default Datatypes.id] in *.
  - destruct (Ha Htip) as [Hb Hi]. split; [done|]. eexists _, m'. split; [exact Happ|]. split; [done|]. split; [done|].
    split; [by rewrite (proj2 (Z.ltb_lt _ _) Htip)|].
    unfold Manager.append in Happ. rewrite Eid, (proj2 (Z.ltb_lt _ _) Htip) in Happ.
    destruct (append_step debug (Manager.chain_ (sc_manager sc)) i _ _ Hok Hcur) as (c & E & _ & _ & Et & _); [lia|done|].
    rewrite E in Happ. injection Happ as <-. cbn [Manager.chain_ Manager.with_chain]. split; [done|].
    unfold Manager.id_of in Eid. apply Hix in Eid as (md' & Hmd & _). apply metadata_range in Hmd. unfold next_id in *. cbn. lia.
  - split; [done|]. eexists _, m'. split; [exact Happ|]. split; [done|]. split; [done|]. split; [done|].
    unfold Manager.append in Happ. rewrite Eid in Happ. cbn [Manager.push] in Happ. fold (next_id (sc_manager sc)) in Happ.
    destruct (append_step debug (Manager.chain_ (sc_manager sc)) (next_id (sc_manager sc)) _ _ Hok Hcur) as (c & E & _ & _ & Et & _); [lia|done|].
    cbn [Manager.chain_] in Happ. rewrite E in Happ. injection Happ as <-. cbn [Manager.chain_ Manager.with_chain]. split; [done|].
    unfold next_id. cbn [Manager.with_chain Manager.base Manager.entries]. rewrite length_app. cbn. lia.
Qed.

Lemma schedule_ok md b :
  manager_allowed (sc_manager sc) (MAppend md) -> hb_index b = assigned md ->
  (tip (current (Manager.chain_ (sc_manager sc))) < hb_index b)%Z ->
  (Manager.id_of (sc_manager sc) (block_hash md) = None -> hb_writes b = ∅) ->
  (is_Some (Manager.id_of (sc_manager sc) (block_hash md)) -> kept (db (sc_store sc)) (g_state g) b) ->
  exists sc', exec sc (Schedule md) = Ok sc' /\
    inv sc' (with_history g (g_hist g) (g_pending g ++ [b]) (next_canon (sc_manager sc) (g_canon g) (MAppend md))).
Proof.
  intros Ha Hid Htip Hnew Hret. rewrite Hid in Htip. destruct (append_facts md Ha Htip) as (Hmax & out & m' & Happ & Hout & Hm' & Ecan & Etip & Hnext & Hlt).
  unfold exec, next_checkpoint. rewrite Happ. cbn [mbind outcome_bind]. eexists. split; [reflexivity|].
  pose proof Hinv as [Hrep Hm Hch Hcan Hun Ht Hn Hst Hnd Hmt Hcur Hfl Hroot]. pose proof inv_nonneg as Hn0. pose proof top_tip as Htop. rewrite Ecan in *.
  assert (kept (db (sc_store sc)) (g_state g) b) as Hk.
  { destruct (Manager.id_of (sc_manager sc) (block_hash md)) eqn:E; [by apply Hret|].
    specialize (Hnew eq_refl). destruct b as [i w]. cbn in Hnew, Hid. subst w i. apply unused_kept, Hun; [|unfold u64; lia].
    unfold assigned. by rewrite E. }
  split; cbn [sc_store sc_manager sc_root sc_last_processed sc_pruning db canonical chain_of g_n g_base g_hist g_pending g_canon g_floor with_history]; try done.
  - apply schedule_rep; [done|rewrite Hid; fold (g_all g); lia|rewrite Hid; unfold u64; lia|done|].
    apply kept_data; [|done]. apply archived_data, Hrep.
  - intros i Hi. unfold g_all. cbn [g_hist g_pending with_history]. rewrite app_assoc, fmap_app, elem_of_app, elem_of_union, elem_of_singleton.
    rewrite Hcan by done. unfold g_all. cbn [fmap list_fmap]. rewrite list_elem_of_singleton, Hid. done.
  - intros i Hi. apply Hun. lia.
  - by rewrite Etip.
  - lia.
  - right. rewrite Etip. unfold g_all. cbn [g_hist g_pending with_history]. rewrite app_assoc. destruct (Z.eqb_spec (cp_index (sc_root sc)) 0) as [E0|Hne].
    + destruct Hroot as [(_ & Hall & Hc)|[? _]]; [|lia]. cbn [cp_index]. rewrite Hout. split; [lia|]. unfold g_all in Hall. rewrite Hall. constructor; [lia|done].
    + destruct Hroot as [(? & _)|[Hr Hall]]; [lia|]. split; [lia|]. apply Forall_app. split; [done|]. constructor; [lia|done].
Qed.

(** Writes that keep the ids of the history. *)
Lemma inv_write s' hist' pending' :
  canonical s' = canonical (sc_store sc) -> disk_rep (db s') (g_n g) (g_base g) hist' pending' ->
  hb_index <$> hist' ++ pending' = hb_index <$> g_all g ->
  (forall i, (next_id (sc_manager sc) <= i)%Z -> u64 i -> unused (db (sc_store sc)) i -> unused (db s') i) ->
  stale_ok (db s') -> nodes_ok (db s') -> metadata_ok (db s') -> inv (with_store sc s') (with_history g hist' pending' (g_canon g)).
Proof.
  intros Hc Hrep' Hids Hun' Hst' Hnd' Hmt'. pose proof Hinv as [Hrep Hm Hch Hcan Hun Ht Hn Hst Hnd Hmt Hcur Hfl Hroot].
  split; cbn [with_store with_root sc_store sc_manager sc_root sc_last_processed sc_pruning g_n g_base g_hist g_pending g_canon g_floor with_history]; try done.
  - by rewrite Hc.
  - intros i Hi. rewrite Hcan by done. unfold g_all at 2. cbn [g_hist g_pending with_history]. by rewrite Hids.
  - intros i Hi Hu. apply Hun'; [done|done|]. by apply Hun.
  - unfold g_all at 1 2. cbn [g_hist g_pending with_history]. destruct Hroot as [(? & Hall & ?)|[? Hall]]; [left|right].
    + split; [done|]. split; [|done]. rewrite Hall in Hids. by destruct (hist' ++ pending').
    + split; [done|]. assert (Forall (fun i => cp_index (sc_root sc) <= i)%Z (hb_index <$> g_all g)) as Hall' by by apply Forall_fmap.
      rewrite <- Hids in Hall'. apply Forall_forall. intros b Hb. rewrite Forall_forall in Hall'. by apply Hall', list_elem_of_fmap_2.
Qed.

Lemma flush_ok p1 b p2 diff rd wr :
  g_pending g = p1 ++ b :: p2 -> sd_read diff = Some rd -> sd_written diff = Some wr ->
  sv_resource_id wr = sv_resource_id rd -> reads_from (final (g_base g) (g_hist g ++ p1)) rd ->
  (sv_version rd < sv_version wr)%Z -> sv_version wr = hb_index b ->
  hb_writes b !! sv_resource_id rd = None -> Forall (fun b' => hb_writes b' !! sv_resource_id rd = None) p2 ->
  exists sc', exec sc (Flush (hb_index b) diff) = Ok sc' /\
    inv sc' (with_history g (g_hist g) (p1 ++ with_write b (sv_resource_id rd) (sv_data wr) :: p2) (g_canon g)).
Proof.
  intros Ep Hr Hw Hid Hread Hlt Hv Hnew Hun. pose proof (iv_rep _ _ Hinv) as Hrep. rewrite Ep in Hrep.
  unfold exec. rewrite (state_diff_write_spec _ _ rd wr) by done. cbn [mbind outcome_bind]. eexists. split; [reflexivity|].
  apply inv_write; [done|by apply flush_rep| | | | |].
  - unfold g_all. rewrite Ep, !fmap_app. done.
  - intros i Hi Hu Hf r. assert (b ∈ g_all g) as Hb by (unfold g_all; rewrite Ep; set_solver).
    destruct (all_canon b Hb) as [_ Hb']. pose proof (mo_tip _ _ _ (iv_manager _ _ Hinv)).
    destruct (flush_same_but (sc_store sc) _ _ _ _ _ b rd wr Hrep Hid Hv i r Hu ltac:(lia)) as [-> ->]. split; apply Hf.
  - intros raw val. rewrite flush_get, !decide_False by naive_solver. apply Hinv.
  - apply (nodes_shrink (db (sc_store sc))); [|apply Hinv]. intros k val. by rewrite flush_get, !decide_False by naive_solver.
  - intros k val. rewrite flush_get, !decide_False by naive_solver. apply Hinv.
Qed.

Lemma stale_write (s : RocksDbStore Db) ops :
  stale_ok (db s) -> (forall op, op ∈ ops -> op_space op = SmtStale -> (exists w, op = lower w)) -> stale_ok (db (commit_ops s ops)).
Proof.
  intros Hok Hops raw val. rewrite commit_ops_get. destruct (batch_effect ops SmtStale raw) as [[x|]|] eqn:E; [|done|apply Hok].
  intros [= <-]. clear Hok. revert x E. induction ops as [|op ops IH] using rev_ind; intros x; [done|]. rewrite batch_effect_app.
  destruct (batch_effect [op] SmtStale raw) as [[y|]|] eqn:E; [|done|].
  - intros [= ->]. unfold batch_effect in E. cbn [foldl] in E. destruct op as [ns k v|ns k]; case_decide as Hd; [|done..].
    injection E as ->. destruct Hd as [-> ->]. destruct (Hops (Put SmtStale raw x)) as [w Hw]; [set_solver|done|].
    destruct w as [| st | |]; cbn [lower] in Hw; [done| |done|done]. injection Hw as -> ->. split; [|by eexists].
    exists (be_split 8 (StaleNode.stale_since_version st)), (Key.path (StaleNode.key st)), (be_split 2 (Z.of_nat (Key.level (StaleNode.key st)))).
    unfold stale_encode_key, Key.encode. by rewrite vec_to_list_app.
  - apply IH. intros op' Hop'. apply Hops. set_solver.
Qed.

Lemma commit_ok b pending restored checkpoint ds updated :
  g_pending g = b :: pending -> cp_index checkpoint = hb_index b ->
  updated_state_diffs ds = Ok updated -> diffs_match b updated -> readable (cp_metadata checkpoint) ->
  exists sc', exec sc (Commit restored checkpoint ds) = Ok sc' /\ inv sc' (with_history g (g_hist g ++ [b]) pending (g_canon g)).
Proof.
  intros Ep Hcp Hupd Hm Hmd. pose proof (iv_rep _ _ Hinv) as Hrep. rewrite Ep in Hrep.
  assert (b ∈ g_all g) as Hb by (unfold g_all; rewrite Ep; set_solver). destruct (wf_index_gt _ _ _ _ Hwf Hb) as [Hlt Hu]. pose proof inv_nonneg.
  destruct (nodes_update (sc_store sc) (commitment_of b <$> updated) (hb_index b) (iv_nodes _ _ Hinv) ltac:(lia) Hu) as (rt & tops & Htree & Hplaced).
  destruct (commit_rep (sc_store sc) _ _ _ b pending restored (cp_index (sc_root sc)) checkpoint ds updated rt tops Hrep Hcp Hupd Hm (fun _ => Htree))
    as (ops & Hops & Hrep' & Hsame & Hsmt & Hmeta).
  unfold exec. rewrite Hops. cbn [mbind outcome_bind]. eexists. split; [reflexivity|].
  destruct (inv_write (commit_ops (sc_store sc) ops) (g_hist g ++ [b]) pending) as [R1 R2 R3 R4 R5 R6 R7 R8 R9 R10 R11 R12 R13]; [done|done| | | | | |].
  - unfold g_all. by rewrite Ep, <- app_assoc.
  - intros i Hi Hu' Hf r. rewrite !Hsame by tauto. apply Hf.
  - intros raw val. rewrite Hsmt by tauto. change (store_commit (sc_store sc) ?o) with (commit_ops (sc_store sc) (lower <$> o)).
    apply stale_write; [apply Hinv|]. intros op Hop _. apply list_elem_of_fmap in Hop as (w & -> & _). by exists w.
  - apply (nodes_shrink (db (store_commit (sc_store sc) (if restored then [] else tops)))).
    + intros k val. by rewrite Hsmt by tauto.
    + apply (nodes_commit _ _ (hb_index b)); [apply Hinv|done|]. destruct restored; [constructor|done].
  - intros k val Hk. destruct (Hmeta k val Hk) as [Hk'|[_ ->]]; [by eapply Hinv|done].
  - by split.
Qed.

Lemma find_pending_index t (l : list (Checkpoint M)) cp : find_pending t l = Some cp -> cp_index cp = t.
Proof.
  induction l as [|c l IH]; [done|]. cbn [find_pending]. destruct (Z.eqb_spec (cp_index c) t); [by intros [= <-]|]. by destruct (_ <? _)%Z.
Qed.

Lemma lookup_index t target : lookup_checkpoint sc t = Ok target -> cp_index target = t.
Proof.
  unfold lookup_checkpoint. destruct (Z.eqb_spec t 0) as [->|]; [by intros [= <-]|].
  destruct (find_pending t _) as [cp|] eqn:E; [intros [= <-]; by eapply find_pending_index|].
  destruct (batch_metadata_get _ _); cbn [mbind outcome_bind]; [|done..]. by intros [= <-].
Qed.

Lemma lookup_ok t : exists target, lookup_checkpoint sc t = Ok target.
Proof.
  unfold lookup_checkpoint. destruct (t =? 0)%Z; [by eexists|]. destruct (find_pending _ _); [by eexists|].
  destruct (metadata_read (sc_store sc) t (iv_meta _ _ Hinv)) as [md ->]. by eexists.
Qed.

Lemma rollback_canonical t c' i :
  transfer (mem (Manager.chain_ (sc_manager sc))) (current (Manager.chain_ (sc_manager sc))) (mem c') (current c') (g_floor g) ->
  (PruningWorker.pruning_cursor (sc_pruning sc) <= t < i)%Z ->
  is_canonical (mem c') (current (Manager.chain_ (sc_manager sc))) i = bool_decide (i ∈ hb_index <$> above t (g_all g)).
Proof.
  intros Htr Hi. pose proof Hinv as [_ Hm _ Hcan _ _ _ _ _ _ Hcur Hfl _]. pose proof inv_nonneg as Hn0. pose proof (mo_cur _ _ _ Hm) as Hc.
  destruct (Htr _ (cur_hist _ _ _ _ Hc)) as [_ E]. rewrite E by lia. rewrite (cur_canonical _ _ _ _ i Hc) by lia.
  apply bool_decide_ext. rewrite Hcan by lia. rewrite !list_elem_of_fmap. split; intros (b & -> & Hb); exists b; (split; [done|]).
  - apply elem_above. split; [lia|done].
  - by apply elem_above in Hb as [_ Hb].
Qed.

Lemma rollback_rep t (s s' : RocksDbStore Db) :
  disk_rep (db s) (g_n g) (g_base g) (g_hist g) (g_pending g) ->
  (forall ns k, ns <> StatePtrLatest -> ns <> SpaceMetadata -> db_get (db s') ns k = db_get (db s) ns k) ->
  (forall r : ResourceId, db_get (db s') StatePtrLatest (vec_to_list r) =
     default (db_get (db s) StatePtrLatest (vec_to_list r)) (restored_entry (final (g_base g) (not_above t (g_all g))) (above t (g_all g)) r)) ->
  disk_rep (db s') (g_n g) (g_base g) (not_above t (g_hist g)) (not_above t (g_pending g)).
Proof.
  intros Hrep Hsame Hl. pose proof (dr_wf _ _ _ _ _ Hrep) as Hw. pose proof Hw as [Hw1 Hw2]%wf_app.
  pose proof (split_above _ _ _ t Hw1) as E1. pose proof (split_above _ _ _ t Hw2) as E2.
  assert (not_above t (g_all g) = not_above t (g_hist g) ++ not_above t (g_pending g)) as Ek by (unfold g_all, not_above; apply filter_app).
  assert (above t (g_all g) = above t (g_hist g) ++ above t (g_pending g)) as Ed by (unfold g_all, above; apply filter_app).
  rewrite Ek, Ed in Hl. destruct (above t (g_hist g)) as [|b0 h0] eqn:E0.
  - rewrite app_nil_r in E1. rewrite <- E1 in *. eapply rollback_pending; [exact Hrep|exact Hsame|exact E2|exact Hl].
  - assert (not_above t (g_pending g) = []) as Ep.
    { apply not_above_none, Forall_forall. intros b Hb. assert (b0 ∈ above t (g_hist g)) as Hb0 by (rewrite E0; by left).
      apply elem_above in Hb0 as [Hb0 Hin]. destruct (wf_index_gt _ _ _ _ Hw2 Hb) as [Hlt _]. pose proof (top_elem _ _ _ Hin _ Hw1). lia. }
    rewrite Ep, app_nil_r in *. cbn [app] in E2. rewrite <- E2 in Hl. eapply rollback_committed; [exact Hrep|exact Hsame| |exact Hl]. exact E1.
Qed.

Lemma rollback_noop t : (tip (current (Manager.chain_ (sc_manager sc))) <= t)%Z ->
  with_history g (not_above t (g_hist g)) (not_above t (g_pending g)) (filter (fun i => i <= t)%Z (g_canon g)) = g.
Proof.
  intros Ht. assert (Forall (fun b => hb_index b <= t)%Z (g_all g)) as Hall.
  { apply Forall_forall. intros b Hb. destruct (all_canon b Hb). lia. }
  apply Forall_app in Hall as [H1' H2']. rewrite !not_above_all by done.
  assert (filter (fun i => i <= t)%Z (g_canon g) = g_canon g) as ->; [|by destruct g].
  apply leibniz_equiv. intros i. rewrite elem_of_filter. split; [by intros [_ ?]|]. intros Hi. split; [|done].
  apply (co_canon _ _ _ _ (mo_cur _ _ _ (iv_manager _ _ Hinv))) in Hi. lia.
Qed.

Lemma disk_rep_get (d d' : Db) n σ hist pending : (forall ns k, db_get d' ns k = db_get d ns k) -> disk_rep d n σ hist pending -> disk_rep d' n σ hist pending.
Proof.
  intros Hg Hr. eapply (rep_archive d d' n σ hist pending hist pending []); [intros ns k _; apply Hg|done|by rewrite app_nil_r|].
  intros r. destruct (dr_latest _ _ _ _ _ Hr r) as (l & ? & E). exists l. split; [done|]. by rewrite Hg.
Qed.

(** The scheduler after a rollback below its tip. *)
Lemma rollback_inv t target c' s' last_committed pending cancellation :
  let m' := Manager.with_chain (sc_manager sc) c' in
  let g' := with_history g (not_above t (g_hist g)) (not_above t (g_pending g)) (filter (fun i => i <= t)%Z (g_canon g)) in
  (PruningWorker.pruning_cursor (sc_pruning sc) <= t)%Z -> (t = 0 \/ cp_index (sc_root sc) <= t + 1)%Z -> cp_index target = t ->
  heap_ok (mem c') -> cur_ok (mem c') (current c') (g_floor g) (g_canon g') -> tip (current c') = t ->
  (t <= tip (current (Manager.chain_ (sc_manager sc))))%Z ->
  tail_bucket (hot_zone (current c')) = tail_bucket (hot_zone (current (Manager.chain_ (sc_manager sc)))) ->
  canonical s' = c' -> (forall ns k, ns <> StatePtrLatest -> ns <> SpaceMetadata -> db_get (db s') ns k = db_get (db (sc_store sc)) ns k) ->
  disk_rep (db s') (g_n g) (g_base g) (g_hist g') (g_pending g') ->
  inv {| sc_store := s'; sc_manager := m'; sc_root := if (t =? 0)%Z then target else sc_root sc; sc_last_committed := last_committed;
         sc_last_processed := target; sc_pending_batches := pending; sc_cancellation := cancellation;
         sc_pruning := PruningWorker.unpause (PruningWorker.set_ceiling (sc_pruning sc) t) |} g'.
Proof.
  intros m' g' Hct Hrt Hti Hok' Hc' Et Hle ETb Hcs Hsame Hrep'. pose proof Hinv as [Hrep Hm Hch Hcan Hun Ht Hn Hst Hnd Hmt Hcur Hfl Hroot].
  pose proof Hm as [Hok Hc Hbase Hix Htip' Htop]. pose proof inv_nonneg as Hn0.
  assert (g_all g' = not_above t (g_all g)) as Eall by (unfold g_all, g', not_above; cbn; by rewrite filter_app).
  split; cbn [sc_store sc_manager sc_root sc_last_processed sc_pruning]; try done.
  - apply with_chain_ok; try done; [|by rewrite ETb]. rewrite Et. change (next_id m') with (next_id (sc_manager sc)). lia.
  - intros i Hi. change (g_n g') with (g_n g) in Hi. rewrite Eall. cbn [g' g_canon with_history]. rewrite elem_of_filter, Hcan by done.
    rewrite !list_elem_of_fmap. split.
    + intros [Hit (b & -> & Hb)]. exists b. split; [done|]. by apply elem_not_above.
    + intros (b & -> & Hb). apply elem_not_above in Hb as [? Hb]. split; [done|]. by exists b.
  - intros i Hi Hu r. rewrite !Hsame by done. by apply Hun.
  - cbn. by rewrite Hti, Et.
  - cbn [m' Manager.with_chain Manager.chain_]. rewrite Et. change (g_n g') with (g_n g). lia.
  - intros raw val. rewrite Hsame by done. apply Hst.
  - apply (nodes_shrink (db (sc_store sc))); [|done]. intros k val. by rewrite Hsame by done.
  - intros k val. rewrite Hsame by done. apply Hmt.
  - rewrite Eall. cbn [m' Manager.with_chain Manager.chain_ PruningWorker.unpause PruningWorker.set_ceiling PruningWorker.pruning_cursor].
    rewrite Et. destruct (Z.eqb_spec t 0) as [->|Hne].
    + left. split; [done|]. split; [|done]. apply not_above_none, Forall_forall. intros b Hb. destruct (all_canon b Hb). lia.
    + destruct Hroot as [(? & -> & ?)|[? Hall]]; [by left|]. right. split; [lia|]. apply Forall_forall. intros b Hb.
      apply elem_not_above in Hb as [_ Hb]. rewrite Forall_forall in Hall. by apply Hall.
Qed.

Lemma rollback_ok t :
  (PruningWorker.pruning_cursor (sc_pruning sc) <= t)%Z -> (t = 0 \/ cp_index (sc_root sc) <= t + 1)%Z ->
  exists sc', exec sc (RollbackTo t) = Ok sc' /\
    inv sc' (with_history g (not_above t (g_hist g)) (not_above t (g_pending g)) (filter (fun i => i <= t)%Z (g_canon g))).
Proof.
  intros Hct Hrt. destruct (lookup_ok t) as [target Htarget]. pose proof (lookup_index _ _ Htarget) as Hti. pose proof Hinv as [Hrep Hm Hch Hcan Hun Ht Hn Hst Hnd Hmt Hcur Hfl Hroot].
  pose proof inv_nonneg as Hn0. unfold exec, rollback_to. rewrite Ht. destruct (Z.ltb_spec t (tip (current (Manager.chain_ (sc_manager sc))))) as [Hlt|Hge].
  2:{ exists sc. split; [done|]. by rewrite rollback_noop. }
  unfold PruningWorker.pause. cbn [PruningWorker.pruning_cursor PruningWorker.set_ceiling]. rewrite (proj2 (Z.leb_le _ _) Hct). cbn [negb].
  pose proof Hm as [Hok Hc Hbase Hix Htip' Htop].
  destruct (rollback_step debug _ t _ _ Hok Hc ltac:(lia)) as (c' & Er & Hok' & Hc' & Et & ETb & Htr).
  unfold cancel_and_rollback. change (lookup_checkpoint _ t) with (lookup_checkpoint sc t). rewrite Htarget. cbn [mbind outcome_bind sc_manager].
  unfold Manager.rollback. rewrite Er. cbn [mbind outcome_bind sc_store sc_last_committed sc_root].
  set (s1 := chain_of (sc_store sc) (Manager.with_chain (sc_manager sc) c')).
  assert (forall ns k, db_get (db (commit_ops s1 [])) ns k = db_get (db (sc_store sc)) ns k) as Hnil by (intros ns k; by rewrite commit_ops_get).
  pose proof (disk_rep_get _ _ _ _ _ _ Hnil Hrep) as Hrep1. pose proof (split_above _ _ _ t Hwf) as Esplit.
  pose proof (so_tip _ _ (co_snap _ _ _ _ Hc)) as Htmax. pose proof (co_max _ _ _ _ Hc) as Hmax.
  destruct (rollback_effect s1 [] target (sc_last_committed sc) (sc_root sc) (tip (current (Manager.chain_ (sc_manager sc)))) (current (Manager.chain_ (sc_manager sc)))
    (g_n g) (g_base g) (not_above t (g_all g)) (above t (g_all g))) as (s' & E & Hcs & Hsame & Hl & _).
  { apply Hrep1. }
  { rewrite <- Esplit. exact Hwf. }
  { rewrite <- Esplit. apply Hrep1. }
  { rewrite Hti. split; [|lia]. apply top_bound; [lia|]. apply Forall_forall. intros b Hb. by apply elem_not_above in Hb as [? _]. }
  { lia. }
  { rewrite Hti. apply Forall_forall. intros b Hb. apply elem_above in Hb as [? Hb]. destruct (all_canon b Hb). lia. }
  { intros i Hi. rewrite Hti in Hi. cbn [s1 chain_of canonical Manager.chain_ Manager.with_chain]. eapply rollback_canonical; [exact Htr|lia]. }
  rewrite E. cbn [mbind outcome_bind]. eexists. split; [reflexivity|]. rewrite Hti.
  apply rollback_inv; try done; try lia.
  - intros ns k H1' H2'. by rewrite Hsame, Hnil.
  - eapply rollback_rep; [exact Hrep1|exact Hsame|]. intros r. apply Hl.
Qed.

Lemma top_ge n σ h : wf_hist n σ h -> (n <= top n h)%Z.
Proof.
  intros Hw. unfold top. destruct (last h) as [b|] eqn:E; [|done]. cbn. destruct (wf_index_gt _ _ _ b Hw); [by apply last_Some_elem_of|lia].
Qed.

Section pruning.
Let hi := PruningWorker.upper_bound (sc_pruning sc).
Let lo := cp_index (sc_root sc).
Let h1 := not_above hi (g_hist g).
Let h2 := above hi (g_hist g).
Hypothesis Hwork : PruningWorker.has_work (sc_pruning sc) lo = true.
Hypothesis Hpend : Forall (fun b => hi < hb_index b)%Z (g_pending g).
Hypothesis Hhi : (hi <= tip (current (Manager.chain_ (sc_manager sc))))%Z.

Lemma prune_bounds :
  (PruningWorker.pruning_cursor (sc_pruning sc) < lo <= hi)%Z /\ (hi < 2 ^ 64)%Z /\
  g_hist g = h1 ++ h2 /\ Forall (fun b => lo <= hb_index b <= hi)%Z h1 /\ Forall (fun b => hi < hb_index b)%Z (h2 ++ g_pending g).
Proof.
  pose proof Hwork as Hw. unfold PruningWorker.has_work in Hw. fold hi in Hw. apply andb_true_iff in Hw as [Hlo%Z.leb_le Hpos%Z.ltb_lt].
  destruct (iv_root _ _ Hinv) as [(? & _)|[Hroot Hall]]; [unfold lo in *; lia|]. fold lo in Hroot, Hall.
  pose proof (mo_cur _ _ _ (iv_manager _ _ Hinv)) as Hc. pose proof (so_tip _ _ (co_snap _ _ _ _ Hc)). pose proof (co_max _ _ _ _ Hc).
  split; [lia|]. split; [lia|]. apply Forall_app in Hall as [Hall1 _]. pose proof Hwf as [Hw1 _]%wf_app. split; [by eapply split_above|]. split.
  - apply Forall_forall. intros b Hb. apply elem_not_above in Hb as [? Hb]. rewrite Forall_forall in Hall1. specialize (Hall1 b Hb). cbn beta in Hall1. lia.
  - apply Forall_app. split; [|done]. apply Forall_forall. intros b Hb. by apply elem_above in Hb as [? _].
Qed.

Lemma prune_canon i : (g_n g < i)%Z -> i ∈ g_canon g <-> i ∈ hb_index <$> h1 \/ i ∈ hb_index <$> (h2 ++ g_pending g).
Proof.
  intros Hi. rewrite (iv_canon _ _ Hinv) by done. unfold g_all. destruct prune_bounds as (_ & _ & -> & _). by rewrite <- app_assoc, fmap_app, elem_of_app.
Qed.

Lemma prune_view i : (lo <= i <= hi)%Z ->
  is_canonical (mem (canonical (sc_store sc))) (current (canonical (sc_store sc))) i = bool_decide (i ∈ hb_index <$> h1).
Proof.
  intros Hi. destruct prune_bounds as (Hlo & _ & _ & _ & Hout). pose proof (iv_floor _ _ Hinv). pose proof (iv_cursor _ _ Hinv).
  rewrite (iv_chain _ _ Hinv), (cur_canonical _ _ _ _ i (mo_cur _ _ _ (iv_manager _ _ Hinv))) by lia.
  apply bool_decide_ext. rewrite prune_canon by lia. split; [|by left]. intros [?|Hi']; [done|].
  apply list_elem_of_fmap in Hi' as (b & -> & Hb). rewrite Forall_forall in Hout. specialize (Hout b Hb). cbn beta in Hout. lia.
Qed.

Lemma prune_range_u64 : Forall u64 (seqZ lo (hi - lo + 1)).
Proof. apply Forall_forall. intros i Hi%elem_of_seqZ. destruct prune_bounds. pose proof inv_nonneg. pose proof (iv_cursor _ _ Hinv). unfold u64. lia. Qed.

(** What a pass commits. *)
Lemma pass_done : exists root ops,
  start_pass sc = Ok (root, with_root sc hi root) /\ cp_index root = (hi + 1)%Z /\
  pruned_ops (sc_store sc) (current (canonical (sc_store sc))) (seqZ lo (hi - lo + 1)) ops /\
  prune_pass sc = Ok (with_store (with_root sc hi root) (commit_ops (sc_store sc) (ops ++ [set_root root]))).
Proof.
  destruct (metadata_read (sc_store sc) (hi + 1) (iv_meta _ _ Hinv)) as [md Hmd].
  destruct (prune_ops_range (sc_store sc) (current (canonical (sc_store sc))) (seqZ lo (hi - lo + 1)) (dr_pointers _ _ _ _ _ (iv_rep _ _ Hinv))
    (iv_stale _ _ Hinv) prune_range_u64) as (opss & Hops & Hp).
  eexists {| cp_index := (hi + 1)%Z; cp_metadata := md |}, _.
  assert (start_pass sc = Ok ({| cp_index := (hi + 1)%Z; cp_metadata := md |}, with_root sc hi {| cp_index := (hi + 1)%Z; cp_metadata := md |})) as Es.
  { unfold start_pass, prune_root. fold hi. by rewrite Hmd. }
  split; [exact Es|]. split; [done|]. split; [exact Hp|].
  unfold prune_pass. fold lo hi. rewrite Hwork, (PruningWorker.recheck_passes _ _ Hwork : (PruningWorker.pause_ceiling (sc_pruning sc) <=? hi)%Z = false), Es.
  cbn [mbind outcome_bind]. unfold finish_pass, prune_delete. cbn [with_root sc_store]. by rewrite Hops.
Qed.

Lemma prune_ok :
  exists sc', exec sc PrunePass = Ok sc' /\
    inv sc' {| g_n := top (g_n g) h1; g_base := final (g_base g) h1; g_hist := h2; g_pending := g_pending g;
               g_floor := g_floor g; g_canon := g_canon g |}.
Proof.
  destruct pass_done as (root & ops & _ & Eroot & Hp & Hpass). pose proof Hinv as [Hrep Hm Hch Hcan Hun Ht Hn Hst Hnd Hmt Hcur Hfl Hroot]. pose proof inv_nonneg as Hn0.
  destruct prune_bounds as (Hlo & Hmax & Esplit & Hin & Hout). pose proof prune_range_u64 as Hrange.
  unfold exec. rewrite Hpass.
  eexists. split; [reflexivity|]. rewrite Esplit in Hrep.
  pose proof Hwf as Hw. unfold g_all in Hw. rewrite Esplit, <- app_assoc in Hw. pose proof Hw as [Hw1 _]%wf_app.
  assert (top (g_n g) h1 <= hi)%Z as Htop. { apply top_bound; [lia|]. eapply Forall_impl; [exact Hin|]. cbn beta. lia. }
  pose proof (top_ge _ _ _ Hw1) as Hge.
  split; cbn [with_store with_root sc_store sc_manager sc_root sc_last_processed sc_pruning g_n g_base g_hist g_pending g_floor g_canon PruningWorker.set_cursor PruningWorker.pruning_cursor]; try done.
  - eapply (prune_rep _ _ lo hi); [exact Hrep|lia|exact Hin|exact Hout|exact prune_view|exact Hp|exact Hrange].
  - intros i Hi. rewrite prune_canon by lia. unfold g_all. cbn [g_hist g_pending]. split; [|by right]. intros [Hi'|?]; [|done].
    apply list_elem_of_fmap in Hi' as (b & -> & Hb). pose proof (top_elem _ _ _ Hb _ Hw1). lia.
  - intros i Hi Hu r. destruct (Hun i Hi Hu r) as [E1 E2]. split; apply pass_deleted; try done; try (rewrite ?E1, ?E2; by intros []).
    + intros op Hop Hto. by destruct (po_pointer _ _ _ _ Hp op Hop (touches_space _ _ _ Hto)) as (j & q & _ & ->).
    + intros op Hop Hto. by destruct (po_version _ _ _ _ Hp op Hop (touches_space _ _ _ Hto)) as (j & w & q & _ & _ & _ & ->).
  - lia.
  - apply stale_write; [done|]. intros op [Hop|Hop]%elem_of_app Hs; [by apply (po_stale _ _ _ _ Hp)|]. by apply list_elem_of_singleton in Hop as ->.
  - apply (nodes_shrink (db (sc_store sc))); [|done]. intros k val. by eapply pass_shrinks.
  - intros k val Hk. eapply Hmt, pass_shrinks; [exact Hp|done|exact Hk].
  - lia.
  - right. rewrite Eroot. split; [lia|]. unfold g_all. cbn [g_hist g_pending]. eapply Forall_impl; [exact Hout|]. cbn beta. lia.
Qed.

(** The latest data of every resource is what it was. *)
Lemma prune_reads sc' r : exec sc PrunePass = Ok sc' -> from_latest_data (sc_store sc') r = from_latest_data (sc_store sc) r.
Proof.
  intros He. destruct prune_ok as (sc1 & E1 & Hi'). rewrite He in E1. injection E1 as <-.
  destruct pass_done as (root & ops & _ & _ & Hp & Hpass). unfold exec in He. rewrite Hpass in He. injection He as <-.
  destruct (dr_latest _ _ _ _ _ (iv_rep _ _ Hinv) r) as (l & Hl & Hr). destruct prune_bounds as (_ & _ & Esplit & _).
  assert (final (g_base g) (g_hist g ++ l) = final (final (g_base g) h1) (h2 ++ l)) as Ef by by rewrite Esplit, <- app_assoc, final_app.
  rewrite (from_latest_at _ _ _ _ _ _ _ (iv_rep _ _ Hinv) Hl Hr), Ef. eapply from_latest_at; [exact (iv_rep _ _ Hi')|exact Hl|].
  cbn [with_store with_root sc_store]. by rewrite (pass_latest _ _ _ _ root Hp), Hr, Ef.
Qed.

(** The versions that canonical batches of the range superseded are gone. *)
Lemma prune_reclaims sc' a b c r v x :
  exec sc PrunePass = Ok sc' -> h1 = a ++ b :: c -> is_Some (hb_writes b !! r) -> final (g_base g) a !! r = Some (v, x) ->
  version_get (sc_store sc') v r = None.
Proof.
  intros He Eh [data Hw] Hx. pose proof (iv_rep _ _ Hinv) as Hrep. destruct pass_done as (root & ops & _ & _ & Hp & Hpass).
  destruct prune_bounds as (Hlo & Hmax & Esplit & Hin & Hout). pose proof prune_range_u64 as Hrange.
  unfold exec in He. rewrite Hpass in He. injection He as <-. cbn [with_store sc_store]. rewrite Eh in Hin. apply Forall_app in Hin as [_ Hb]. apply Forall_cons in Hb as [Hb _].
  pose proof Hwf as Hwf'. unfold g_all in Hwf'. rewrite Esplit, Eh, <- !app_assoc in Hwf'. cbn [app] in Hwf'.
  destruct (wf_final _ _ _ _ _ _ _ Hwf' Hx) as (Hv & Hu & _).
  unfold version_get, get. eapply (pass_dropped _ _ _ _ _ Hp (hb_index b)); [apply elem_of_seqZ; lia| |done].
  pose proof (dr_archived _ _ _ _ _ Hrep) as Ha. rewrite Esplit, Eh, <- !app_assoc in Ha. cbn [app] in Ha.
  destruct (archived_kept _ _ _ _ _ Ha) as [Hptr _]. exists v. split; [done|]. rewrite Hptr, Hw. unfold old_version. rewrite Hx. cbn [from_option fst].
  split; [done|]. rewrite prune_view by lia. rewrite bool_decide_true; [split; [done|lia]|]. rewrite Eh. apply list_elem_of_fmap_2. set_solver.
Qed.
End pruning.

Lemma finalize_next_id below : next_id (Manager.finalize (sc_manager sc) below) = next_id (sc_manager sc).
Proof.
  unfold Manager.finalize, next_id. pose proof (drop_entries_next (Manager.entries (sc_manager sc)) (Manager.base (sc_manager sc)) (Manager.index (sc_manager sc)) below) as E.
  destruct (Manager.drop_entries _ _ _ _) as [[es b] ix]. exact E.
Qed.

Lemma finalize_ok below :
  (cp_index (sc_root sc) <= PruningWorker.pruning_cursor (sc_pruning sc) + 1)%Z -> (cp_index (sc_root sc) < 2 ^ 64)%Z ->
  exists sc', exec sc (FinalizeBelow below) = Ok sc' /\
    inv sc' {| g_n := g_n g; g_base := g_base g; g_hist := g_hist g; g_pending := g_pending g;
               g_floor := next_floor (g_floor g) (MFinalize (cp_index (sc_root sc)) : @manager_op M); g_canon := g_canon g |}.
Proof.
  intros Hr Hu. pose proof Hinv as [Hrep Hm Hch Hcan Hun Ht Hn Hst Hnd Hmt Hcur Hfl Hroot].
  destruct (manager_step_ok debug _ _ _ (MFinalize (cp_index (sc_root sc))) Hm Hu) as (m' & Em & Hm' & _). cbn [manager_step returned] in Em. injection Em as <-.
  eexists. split; [reflexivity|].
  assert (next_id (Manager.finalize (sc_manager sc) (cp_index (sc_root sc))) = next_id (sc_manager sc)) as En by apply finalize_next_id.
  assert (current (Manager.chain_ (Manager.finalize (sc_manager sc) (cp_index (sc_root sc)))) = current (Manager.chain_ (sc_manager sc))) as Ec.
  { unfold Manager.finalize. destruct (Manager.drop_entries _ _ _ _) as [[es b] ix]. cbn.
    apply (finalize_step _ _ _ _ (mo_heap _ _ _ Hm) (mo_cur _ _ _ Hm) Hu). }
  split; cbn [sink_finalize sc_store sc_manager sc_root sc_last_processed sc_pruning g_n g_base g_hist g_pending g_floor g_canon
    chain_of db canonical PruningWorker.set_threshold PruningWorker.pruning_cursor]; rewrite ?En, ?Ec; try done.
  cbn [next_floor]. lia.
Qed.
End preservation.

Lemma step_ok sc g e g' : inv sc g -> step sc g e g' -> exists sc', exec sc e = Ok sc' /\ inv sc' g'.
Proof.
  intros Hinv. destruct 1; [by apply schedule_ok|by eapply flush_ok|by eapply commit_ok|by apply rollback_ok|by apply prune_ok|by apply finalize_ok].
Qed.

(** ** From an empty store *)

Definition fresh (s : RocksDbStore Db) : Prop := canonical s = default_chain /\ forall ns k, db_get (db s) ns k = None.

Definition genesis : ghost := {| g_n := 0; g_base := ∅; g_hist := []; g_pending := []; g_floor := 1; g_canon := ∅ |}.

Lemma start_ok s : fresh s -> exists sc, scheduler_new debug s = Ok sc /\ inv sc genesis.
Proof.
  intros [Hc Hd]. assert (prefix_iter s SpaceBatchMetadata [] = []) as Hiter.
  { destruct (prefix_iter s SpaceBatchMetadata []) as [|[k v] l] eqn:E; [done|]. exfalso.
    assert ((k, v) ∈ prefix_iter s SpaceBatchMetadata []) as Hin by (rewrite E; by left).
    unfold prefix_iter in Hin. apply db_scan_elem in Hin as [Hg _]; [by rewrite Hd in Hg|done]. }
  destruct (fresh_manager_ok debug (M := M)) as (m & Hm & Hok).
  unfold scheduler_new, metadata_root, metadata_last_committed, checkpoint_get, get. rewrite !Hd. cbn [map_get mbind outcome_bind default].
  unfold canonical_chain_manager, stored_batches. rewrite Hiter, Hc. cbn [mapM_outcome mbind outcome_bind]. rewrite Hm. cbn [mbind outcome_bind].
  eexists. split; [reflexivity|]. injection Hm as Hm. rewrite <- Hm in *.
  split; cbn [sc_store sc_manager sc_root sc_last_processed sc_pruning chain_of db canonical genesis g_n g_base g_hist g_pending g_floor g_canon]; try done.
  - split; try done.
    + constructor; [lia|]. intros r v x. by rewrite lookup_empty.
    + intros raw val. by rewrite Hd.
    + intros r. exists []. split; [done|]. rewrite Hd. unfold entry. cbn. by rewrite lookup_empty.
  - intros i Hi. cbn. set_solver.
  - intros raw val. by rewrite Hd.
  - split; [intros raw val; by rewrite Hd|]. intros p v n _ _. unfold raw_node. by rewrite Hd.
  - intros k val. by rewrite Hd.
  - left. by vm_compute.
Qed.

(** The states the scheduler gets to, with their histories. *)
Inductive reachable : Sched -> ghost -> Prop :=
| reachable_start s sc : fresh s -> scheduler_new debug s = Ok sc -> reachable sc genesis
| reachable_step sc g e g' sc' : reachable sc g -> step sc g e g' -> exec sc e = Ok sc' -> reachable sc' g'.

Lemma reachable_inv sc g : reachable sc g -> inv sc g.
Proof.
  induction 1 as [s sc Hs Hn|sc g e g' sc' _ IH Hst He].
  - destruct (start_ok s Hs) as (sc' & E & Hi). rewrite Hn in E. by injection E as <-.
  - destruct (step_ok _ _ _ _ IH Hst) as (sc1 & E & Hi). rewrite He in E. by injection E as <-.
Qed.
End machine.
