(* ===== verification/SchedSync.v ===== *)
(** * SchedSync: cancellation and the pruning handshake

    A rollback cancels exactly the in-flight batches above its target, through any chain of
    contexts; the rollback and the pruning worker never work on the same batches, in any
    interleaving of their accesses to the shared counters. *)

From S2P Require Import Prelude Codec Types SmtNode SmtTrie SmtUpdate SmtTree AtomicRing CanonicalChain RocksStore L1Types StateSpaces SchedStore SchedCore.

(** ** Cancellation *)

Section cancellation.
Import CancellationContext.

Definition parents_ok (cs : list data) : Prop := forall c d p, cs !! c = Some d -> parent_context d = Some p -> p < c.

Definition first_of (cs : list data) (c : nat) : Z := from_option first_index 0%Z (cs !! c).

(** Following parents from [q] leads to [c]; every parent was cut where its child starts. *)
Inductive descends (cs : list data) (c : nat) : nat -> Prop :=
| descends_here : descends cs c c
| descends_up q p d :
    cs !! q = Some d -> parent_context d = Some p -> c <= p < q -> threshold cs p = first_index d ->
    (first_of cs p <= threshold cs p)%Z -> descends cs c p -> descends cs c q.

(** Following parents from [q] does not meet [c]. *)
Inductive skips (cs : list data) (c : nat) : nat -> Prop :=
| skips_below q : q < c -> skips cs c q
| skips_up q d : cs !! q = Some d -> c < q -> (forall p, parent_context d = Some p -> skips cs c p) -> skips cs c q.

Lemma lookup_store cs c idx q :
  store_threshold cs c idx !! q =
  if decide (q = c) then (fun d => {| parent_context := parent_context d; first_index := first_index d; cancel_threshold := idx |}) <$> cs !! c
  else cs !! q.
Proof.
  unfold store_threshold. destruct (cs !! c) as [d|] eqn:E; case_decide as Hd; subst.
  - by rewrite list_lookup_insert_eq by by eapply lookup_lt_Some.
  - by rewrite list_lookup_insert_ne.
  - done.
  - done.
Qed.

Lemma threshold_store cs c idx q :
  c < length cs -> threshold (store_threshold cs c idx) q = if decide (q = c) then idx else threshold cs q.
Proof.
  intros Hc. unfold threshold. rewrite lookup_store. case_decide; [|done]. by destruct (lookup_lt_is_Some_2 _ _ Hc) as [d ->].
Qed.

Lemma length_store_threshold cs c idx : length (store_threshold cs c idx) = length cs.
Proof. unfold store_threshold. destruct (cs !! c); [apply length_insert|done]. Qed.

Lemma parents_store cs c idx : parents_ok cs -> parents_ok (store_threshold cs c idx).
Proof.
  intros Hp q d p. rewrite lookup_store. case_decide; [|by apply Hp]. subst. destruct (cs !! c) as [d0|] eqn:E; [|done].
  intros [= <-]. cbn. by apply (Hp c d0).
Qed.

Lemma descends_store cs c p q idx : parents_ok cs -> descends cs c p -> p < q -> q < length cs -> descends (store_threshold cs q idx) c p.
Proof.
  intros Hp Hd Hlt Hq. induction Hd as [|p0 p d E Ep Hcp Ht Hf Hd IH]; [constructor|].
  eapply descends_up; [|exact Ep|done| | |apply IH; lia].
  - by rewrite lookup_store, decide_False by lia.
  - by rewrite threshold_store, decide_False by lia.
  - unfold first_of. by rewrite threshold_store, lookup_store, !decide_False by lia.
Qed.

Lemma skips_store cs c p q idx : skips cs c p -> skips (store_threshold cs q idx) c p.
Proof.
  induction 1 as [p Hlt|p d E Hlt _ IH]; [by apply skips_below|]. destruct (decide (p = q)) as [->|Hne].
  - eapply skips_up; [by rewrite lookup_store, decide_True, E by done|done|exact IH].
  - eapply skips_up; [by rewrite lookup_store, decide_False by done|done|exact IH].
Qed.

Lemma first_store cs c idx q : first_of (store_threshold cs c idx) q = first_of cs q.
Proof. unfold first_of. rewrite lookup_store. case_decide; [|done]. subst. by destruct (cs !! c). Qed.

Lemma canceled_parents fuel upgrade : forall cs q idx,
  parents_ok cs -> let '(p, cs') := canceled_parent_context fuel upgrade cs q idx in
  parents_ok cs' /\ length cs' = length cs /\ (forall p', p = Some p' -> p' <= q /\ p' < length cs) /\
  (forall c, first_of cs' c = first_of cs c).
Proof.
  induction fuel as [|fuel IH]; intros cs q idx Hp; cbn [canceled_parent_context]; [done|]. destruct (cs !! q) as [d|] eqn:E; [|done].
  pose proof (lookup_lt_Some _ _ _ E). pose proof (parents_store cs q idx Hp) as Hp'. pose proof (length_store_threshold cs q idx) as Hl.
  pose proof (first_store cs q idx) as Hf. destruct (_ <=? _)%Z; [split_and!; [done|done|intros p' [= <-]; lia|done]|].
  destruct (parent_context d) as [p|] eqn:Ep; [|done]. destruct (upgrade p); [|done]. specialize (IH _ p idx Hp').
  destruct (canceled_parent_context fuel upgrade _ p idx) as [o cs']. destruct IH as (? & E' & Hb & Hf'). split; [done|]. split; [lia|].
  split; [|intros c; by rewrite Hf']. intros p' Ho. destruct (Hb p' Ho). pose proof (Hp _ _ _ E Ep). lia.
Qed.

(** A context that is not met keeps its threshold. *)
Lemma skips_threshold fuel upgrade c : forall cs q idx,
  parents_ok cs -> skips cs c q -> let '(p, cs') := canceled_parent_context fuel upgrade cs q idx in
  threshold cs' c = threshold cs c /\ (forall p', p = Some p' -> skips cs' c p').
Proof.
  induction fuel as [|fuel IH]; intros cs q idx Hp Hs; cbn [canceled_parent_context]; [done|]. destruct (cs !! q) as [d|] eqn:E; [|done].
  pose proof (lookup_lt_Some _ _ _ E) as Hq. assert (c <> q) as Hne by (inversion Hs; lia).
  assert (threshold (store_threshold cs q idx) c = threshold cs c) as Ht by (rewrite threshold_store by done; by rewrite decide_False).
  destruct (_ <=? _)%Z; [split; [done|]; intros p' [= <-]; by apply skips_store|].
  destruct (parent_context d) as [p|] eqn:Ep; [|done]. destruct (upgrade p); [|done].
  assert (skips cs c p) as Hsp.
  { inversion Hs as [? Hlt|? d' E' Hlt Hall]; subst; [apply skips_below; pose proof (Hp _ _ _ E Ep); lia|]. rewrite E in E'. injection E' as <-. by apply Hall. }
  specialize (IH _ p idx (parents_store cs q idx Hp) (skips_store _ _ _ q idx Hsp)).
  destruct (canceled_parent_context fuel upgrade _ p idx) as [o cs']. destruct IH as [E' Hb]. split; [by rewrite E'|done].
Qed.

Lemma descends_threshold cs c p : descends cs c p -> (first_of cs p <= threshold cs p)%Z -> (threshold cs c <= threshold cs p)%Z.
Proof.
  induction 1 as [|q p d E Ep _ Ht Hf _ IH]; intros Hq; [done|]. specialize (IH Hf). unfold first_of in Hq. rewrite E in Hq. cbn in Hq. lia.
Qed.

Lemma descends_keep cs c q idx : parents_ok cs -> descends cs c q -> q < length cs -> descends (store_threshold cs q idx) c q.
Proof.
  intros Hp Hd Hq. destruct Hd as [|q p d E Ep Hcp Ht Hf Hd]; [constructor|].
  eapply descends_up; [by rewrite lookup_store, decide_True, E by done|done|done| | |apply descends_store; [done|done|lia|done]].
  - rewrite threshold_store by done. by rewrite decide_False by lia.
  - unfold first_of. rewrite threshold_store by done. by rewrite lookup_store, !decide_False by lia.
Qed.

(** A walk that starts above [c] stops at a context from which [c] is still reached, or passes [c]. *)
Lemma descends_walk fuel (upgrade : nat -> bool) c : (forall p, c <= p -> upgrade p = true) -> forall cs q idx,
  parents_ok cs -> descends cs c q -> q < length cs -> q < fuel -> (idx <= threshold cs q)%Z ->
  let '(o, cs') := canceled_parent_context fuel upgrade cs q idx in
  (exists p, o = Some p /\ descends cs' c p /\ threshold cs' p = idx /\ (first_of cs' p <= idx)%Z /\ threshold cs' c = Z.min (threshold cs c) idx) \/
  (threshold cs' c = idx /\ (idx < first_of cs c)%Z /\ forall p, o = Some p -> skips cs' c p).
Proof.
  intros Hup. induction fuel as [|fuel IH]; intros cs q idx Hp Hd Hq Hfuel Hidx; [lia|]. cbn [canceled_parent_context].
  destruct (cs !! q) as [d|] eqn:E; [|apply lookup_ge_None in E; lia].
  pose proof (parents_store cs q idx Hp) as Hp'. pose proof (length_store_threshold cs q idx) as Hl.
  assert (forall x, threshold (store_threshold cs q idx) x = if decide (x = q) then idx else threshold cs x) as Hst by (intros x; by apply threshold_store).
  destruct (Z.leb_spec (first_index d) idx) as [Hle|Hgt].
  - left. exists q. split; [done|]. split; [by apply descends_keep|]. rewrite !Hst, decide_True by done. split; [done|].
    split; [unfold first_of; by rewrite lookup_store, decide_True, E by done|]. case_decide as Hc; [subst; lia|].
    assert (threshold cs c <= idx)%Z; [|lia]. destruct Hd as [|q p d' E' Ep _ Ht Hf Hd]; [done|]. rewrite E in E'. injection E' as <-.
    pose proof (descends_threshold _ _ _ Hd Hf). lia.
  - destruct (decide (q = c)) as [->|Hne].
    + assert (first_of cs c = first_index d) as Hfo by (unfold first_of; by rewrite E). rewrite Hfo.
      destruct (parent_context d) as [p|] eqn:Ep; [|right; split; [by rewrite Hst, decide_True|done]].
      destruct (upgrade p); [|right; split; [by rewrite Hst, decide_True|done]].
      pose proof (skips_threshold fuel upgrade c (store_threshold cs c idx) p idx Hp' (skips_below _ _ _ (Hp _ _ _ E Ep))) as Hs.
      destruct (canceled_parent_context fuel upgrade _ p idx) as [o cs']. destruct Hs as [-> Hs]. right. split; [by rewrite Hst, decide_True|done].
    + destruct Hd as [|q p d' E' Ep Hcp Ht Hf Hd]; [done|]. rewrite E in E'. injection E' as <-. rewrite Ep, Hup by lia.
      specialize (IH (store_threshold cs q idx) p idx Hp' (descends_store _ _ _ q idx Hp Hd ltac:(lia) Hq) ltac:(lia) ltac:(lia)).
      rewrite Hst, decide_False in IH by lia. specialize (IH ltac:(lia)).
      destruct (canceled_parent_context fuel upgrade _ p idx) as [o cs'].
      assert (first_of (store_threshold cs q idx) c = first_of cs c) as Hfo by (unfold first_of; by rewrite lookup_store, decide_False by done).
      rewrite Hst, decide_False, Hfo in IH by done. exact IH.
Qed.

Lemma descends_le cs c q : descends cs c q -> c <= q.
Proof. induction 1; lia. Qed.

Lemma lookup_app_in {A} (l k : list A) i : i < length l -> (l ++ k) !! i = l !! i.
Proof. apply lookup_app_l. Qed.

Lemma descends_app cs l c q : descends cs c q -> descends (cs ++ l) c q.
Proof.
  induction 1 as [|q p d E Ep Hcp Ht Hf Hd IH]; [constructor|]. pose proof (lookup_lt_Some _ _ _ E).
  eapply descends_up; [by rewrite lookup_app_in|done|done| | |done]; unfold threshold, first_of in *; by rewrite lookup_app_in by lia.
Qed.

Lemma skips_app cs l c q : skips cs c q -> skips (cs ++ l) c q.
Proof.
  induction 1 as [q Hlt|q d E Hlt _ IH]; [by apply skips_below|]. eapply skips_up; [rewrite lookup_app_in; [done|by eapply lookup_lt_Some]|done|done].
Qed.

(** What is known of a batch [i] of context [c], canceled or not. *)
Record tracked (x : t) (c : nat) (i : Z) (dead : bool) : Prop := {
  tr_parents : parents_ok (contexts x);
  tr_current : c <= current x < length (contexts x);
  tr_open : threshold (contexts x) (current x) = U64_MAX;
  tr_first : (first_of (contexts x) c < i)%Z;
  tr_canceled : canceled (contexts x) c i = dead;
  tr_reach : descends (contexts x) c (current x) \/ skips (contexts x) c (current x) /\ dead = true
}.

Lemma rollback_tracked (upgrade : nat -> bool) x c i idx dead :
  tracked x c i dead -> (forall p, c <= p -> upgrade p = true) -> (idx <= U64_MAX)%Z ->
  tracked (rollback upgrade x idx) c i (dead || (idx <? i)%Z).
Proof.
  intros [Hp [Hc Hl] Ho Hf Hd Hr] Hup Hidx. unfold rollback.
  pose proof (canceled_parents (S (current x)) upgrade (contexts x) (current x) idx Hp) as Hpar.
  pose proof (fun Hd => descends_walk (S (current x)) upgrade c Hup (contexts x) (current x) idx Hp Hd Hl ltac:(lia) ltac:(lia)) as Hwalk.
  pose proof (skips_threshold (S (current x)) upgrade c (contexts x) (current x) idx Hp) as Hskip.
  destruct (canceled_parent_context _ upgrade _ _ idx) as [o cs']. destruct Hpar as (Hp' & El & Hb & Hf').
  set (new := {| parent_context := o; first_index := idx; cancel_threshold := U64_MAX |}).
  assert (forall q, q < length cs' -> threshold (cs' ++ [new]) q = threshold cs' q) as Happ by (intros q Hq; unfold threshold; by rewrite lookup_app_in).
  assert ((cs' ++ [new]) !! length cs' = Some new) as Enew by by rewrite list_lookup_middle.
  assert (first_of (cs' ++ [new]) c < i)%Z as Hf'' by (unfold first_of; rewrite lookup_app_in by lia; fold (first_of cs' c); by rewrite Hf').
  assert (parents_ok (cs' ++ [new])) as Hpn.
  { intros q d p Hq Hqp. apply lookup_app_Some in Hq as [Hq|[Hge Hq]]; [by apply (Hp' q d)|].
    apply list_lookup_singleton_Some in Hq as [Hq <-]. cbn in Hqp. destruct (Hb p Hqp). lia. }
  unfold canceled in *. split; cbn [contexts current]; try done.
  - rewrite length_app. cbn. lia.
  - unfold threshold. by rewrite Enew.
  - unfold canceled. rewrite Happ by lia. destruct Hr as [Hr|[Hr Hdead]].
    + destruct (Hwalk Hr) as [(p & _ & _ & _ & _ & ->)|(-> & Hlt & _)].
      * rewrite <- Hd. destruct (Z.ltb_spec (threshold (contexts x) c) i), (Z.ltb_spec idx i); cbn; rewrite ?Z.ltb_lt, ?Z.ltb_ge; lia.
      * rewrite (proj2 (Z.ltb_lt idx i)) by lia. by rewrite orb_true_r.
    + destruct (Hskip Hr) as [-> _]. subst. by rewrite Hdead.
  - destruct Hr as [Hr|[Hr Hdead]].
    + destruct (Hwalk Hr) as [(p & -> & Hdp & Htp & Hfp & _)|(Ht & Hlt & Hs)].
      * left. destruct (Hb p eq_refl). eapply descends_up; [exact Enew|done| | | |by apply descends_app].
        -- pose proof (descends_le _ _ _ Hdp). lia.
        -- rewrite Happ by lia. done.
        -- unfold first_of. rewrite lookup_app_in by lia. rewrite Happ by lia. by rewrite Htp.
      * right. split; [|rewrite (proj2 (Z.ltb_lt idx i)) by lia; by rewrite orb_true_r].
        eapply skips_up; [exact Enew|lia|]. intros p Ep. by apply skips_app, Hs.
    + right. destruct (Hskip Hr) as [_ Hs]. split; [|by rewrite Hdead]. eapply skips_up; [exact Enew|lia|]. intros p Ep. by apply skips_app, Hs.
Qed.

Definition rollbacks (x : t) (l : list ((nat -> bool) * Z)) : t := foldl (fun x e => rollback e.1 x e.2) x l.

Lemma rollbacks_ok f l :
  let x := rollbacks (new f) l in
  parents_ok (contexts x) /\ current x < length (contexts x) /\ threshold (contexts x) (current x) = U64_MAX.
Proof.
  induction l as [|[u idx] l IH] using rev_ind.
  - split; [|cbn; split; [lia|done]]. intros [|c] d p; cbn; [by intros [= <-]|done].
  - cbn zeta in *. unfold rollbacks. rewrite foldl_app. cbn [foldl fst snd]. fold (rollbacks (new f) l). set (x := rollbacks (new f) l) in *.
    destruct IH as (Hp & Hl & _). unfold rollback.
    pose proof (canceled_parents (S (current x)) u (contexts x) (current x) idx Hp) as Hpar.
    destruct (canceled_parent_context _ u _ _ idx) as [o cs']. destruct Hpar as (Hp' & El & Hb & _). cbn [contexts current]. split; [|split].
    + intros q d p Hq Hqp. apply lookup_app_Some in Hq as [Hq|[Hge Hq]]; [by apply (Hp' q d)|].
      apply list_lookup_singleton_Some in Hq as [Hq <-]. cbn in Hqp. destruct (Hb p Hqp). lia.
    + rewrite length_app. cbn. lia.
    + unfold threshold. by rewrite list_lookup_middle.
Qed.

Lemma rollbacks_tracked x c i l dead :
  tracked x c i dead -> Forall (fun e => (forall p, c <= p -> e.1 p = true) /\ (e.2 <= U64_MAX)%Z) l ->
  tracked (rollbacks x l) c i (dead || existsb (fun e => e.2 <? i)%Z l).
Proof.
  intros Ht Hall. revert x dead Ht. induction Hall as [|[u idx] l [Hu Hidx] _ IH]; intros x dead Ht; cbn [rollbacks foldl existsb].
  - by rewrite orb_false_r.
  - cbn [fst snd] in *. rewrite orb_assoc. apply IH. by apply rollback_tracked.
Qed.

(** C28: whatever rollbacks came before, a batch of the current context is canceled by later
    rollbacks exactly if one of them goes below its index, provided the contexts created since are
    still held when a rollback looks them up. *)
Theorem rollback_cancels_exactly f before after i :
  let x := rollbacks (new f) before in
  (first_of (contexts x) (current x) < i <= U64_MAX)%Z ->
  Forall (fun e => (forall p, current x <= p -> e.1 p = true) /\ (e.2 <= U64_MAX)%Z) after ->
  canceled (contexts (rollbacks x after)) (current x) i = existsb (fun e => e.2 <? i)%Z after.
Proof.
  intros x Hi Hall. destruct (rollbacks_ok f before) as (Hp & Hl & Ho). fold x in Hp, Hl, Ho.
  assert (tracked x (current x) i false) as Ht.
  { split; try done; [lia| |left; constructor]. unfold canceled. rewrite Ho. apply Z.ltb_ge. lia. }
  apply (rollbacks_tracked x (current x) i after false Ht Hall).
Qed.

Lemma rollback_cancels_exactly_witness :
  (fun i => canceled (contexts (rollbacks (rollbacks (new 0) [(fun _ => true, 5%Z)]) [(fun _ => true, 9%Z); (fun _ => true, 7%Z)])) 1 i)
    <$> [6; 7; 8; 12]%Z = [false; false; true; true].
Proof.
  assert (forall i, (5 < i <= U64_MAX)%Z ->
    canceled (contexts (rollbacks (rollbacks (new 0) [(fun _ => true, 5%Z)]) [(fun _ => true, 9%Z); (fun _ => true, 7%Z)])) 1 i
    = existsb (fun e : (nat -> bool) * Z => e.2 <? i)%Z [(fun _ => true, 9%Z); (fun _ => true, 7%Z)]) as E.
  { intros i Hi. apply (rollback_cancels_exactly 0 [(fun _ => true, 5%Z)] [(fun _ => true, 9%Z); (fun _ => true, 7%Z)] i).
    - exact Hi.
    - repeat constructor; vm_compute; congruence. }
  cbn [fmap list_fmap]. rewrite !E by (unfold U64_MAX; lia). reflexivity.
Defined.
End cancellation.

(** ** The pruning handshake *)

Module Handshake.
Import PruningWorker.

(** Where the worker is in its round, and the scheduler in a rollback. *)
Inductive worker :=
| WIdle
| WRoot (lower_bound : Z)
| WThreshold (lower_bound threshold : Z)
| WBounds (lower_bound upper_bound : Z)
| WSwapped (lower_bound upper_bound prev : Z)
| WAborting (prev : Z)
| WPruning (lower_bound upper_bound : Z)
| WDeleting (lower_bound upper_bound : Z).
Inductive roller := RIdle | RPausing (target : Z) | RFailed | RRolling (target : Z).

(** The root, and the last batch that was deleted, which only the proofs look at. *)
Record state := { shared : t; root : Z; pruned : Z; worker_at : worker; roller_at : roller }.

(** One access to the shared counters or the root. The worker moves the root before it deletes; the
    first batch sets it when it is 0, and a rollback to 0 puts it back there. *)
Inductive access : state -> state -> Prop :=
| set_threshold_ w rt p k r th :
    access {| shared := w; root := rt; pruned := p; worker_at := k; roller_at := r |}
           {| shared := set_threshold w th; root := rt; pruned := p; worker_at := k; roller_at := r |}
| load_root w rt p r :
    access {| shared := w; root := rt; pruned := p; worker_at := WIdle; roller_at := r |}
           {| shared := w; root := rt; pruned := p; worker_at := WRoot rt; roller_at := r |}
| load_threshold w rt p r lo :
    access {| shared := w; root := rt; pruned := p; worker_at := WRoot lo; roller_at := r |}
           {| shared := w; root := rt; pruned := p; worker_at := WThreshold lo (pruning_threshold w); roller_at := r |}
| load_ceiling w rt p r lo th :
    let hi := saturating_pred (Z.min th (pause_ceiling w)) in
    access {| shared := w; root := rt; pruned := p; worker_at := WThreshold lo th; roller_at := r |}
           {| shared := w; root := rt; pruned := p;
              worker_at := if (lo <=? hi)%Z && (0 <? lo)%Z then WBounds lo hi else WIdle; roller_at := r |}
| swap_cursor w rt p r lo hi :
    access {| shared := w; root := rt; pruned := p; worker_at := WBounds lo hi; roller_at := r |}
           {| shared := set_cursor w hi; root := rt; pruned := p; worker_at := WSwapped lo hi (pruning_cursor w); roller_at := r |}
| recheck_ceiling w rt p r lo hi prev :
    access {| shared := w; root := rt; pruned := p; worker_at := WSwapped lo hi prev; roller_at := r |}
           {| shared := w; root := rt; pruned := p;
              worker_at := if (pause_ceiling w <=? hi)%Z then WAborting prev else WPruning lo hi; roller_at := r |}
| restore_cursor w rt p r prev :
    access {| shared := w; root := rt; pruned := p; worker_at := WAborting prev; roller_at := r |}
           {| shared := set_cursor w prev; root := rt; pruned := p; worker_at := WIdle; roller_at := r |}
| advance_root w rt p r lo hi :
    access {| shared := w; root := rt; pruned := p; worker_at := WPruning lo hi; roller_at := r |}
           {| shared := w; root := (hi + 1)%Z; pruned := p; worker_at := WDeleting lo hi; roller_at := r |}
| finish_prune w p r lo hi :
    access {| shared := w; root := (hi + 1)%Z; pruned := p; worker_at := WDeleting lo hi; roller_at := r |}
           {| shared := w; root := (hi + 1)%Z; pruned := hi; worker_at := WIdle; roller_at := r |}
| store_ceiling w rt p k target :
    access {| shared := w; root := rt; pruned := p; worker_at := k; roller_at := RIdle |}
           {| shared := set_ceiling w target; root := rt; pruned := p; worker_at := k; roller_at := RPausing target |}
| load_cursor w rt p k target :
    access {| shared := w; root := rt; pruned := p; worker_at := k; roller_at := RPausing target |}
           {| shared := w; root := rt; pruned := p; worker_at := k;
              roller_at := if (pruning_cursor w <=? target)%Z then RRolling target else RFailed |}
| reset_ceiling w rt p k :
    access {| shared := w; root := rt; pruned := p; worker_at := k; roller_at := RFailed |}
           {| shared := set_ceiling w U64_MAX; root := rt; pruned := p; worker_at := k; roller_at := RIdle |}
| init_root w p k id :
    (0 < id)%Z ->
    access {| shared := w; root := 0; pruned := p; worker_at := k; roller_at := RIdle |}
           {| shared := w; root := id; pruned := p; worker_at := k; roller_at := RIdle |}
| reset_root w rt p k :
    access {| shared := w; root := rt; pruned := p; worker_at := k; roller_at := RRolling 0 |}
           {| shared := w; root := 0; pruned := p; worker_at := k; roller_at := RRolling 0 |}
| finish_rollback w rt p k target :
    (target = 0%Z -> rt = 0%Z) ->
    access {| shared := w; root := rt; pruned := p; worker_at := k; roller_at := RRolling target |}
           {| shared := unpause w; root := rt; pruned := p; worker_at := k; roller_at := RIdle |}.

Inductive reachable (root_index : Z) : state -> Prop :=
| start : reachable root_index
    {| shared := new root_index; root := root_index; pruned := saturating_pred root_index; worker_at := WIdle; roller_at := RIdle |}
| next s s' : reachable root_index s -> access s s' -> reachable root_index s'.

(** The cursor covers what was pruned and what is being pruned; a bound that is used is above what
    was pruned; the ceiling is the target. *)
Definition unpruned (s : state) (root : Z) : Prop := (root <= 0 /\ pruned s <= 0 \/ pruned s < root)%Z.
Definition cursor_ok (s : state) : Prop :=
  unpruned s (root s) /\
  match worker_at s with
  | WIdle => (pruned s <= pruning_cursor (shared s))%Z
  | WRoot lo | WThreshold lo _ => (pruned s <= pruning_cursor (shared s))%Z /\ unpruned s lo
  | WBounds lo hi => (pruned s <= pruning_cursor (shared s))%Z /\ (pruned s < lo <= hi)%Z /\ (0 < lo)%Z
  | WSwapped lo hi prev => (pruned s < lo <= hi)%Z /\ (0 < lo)%Z /\ (pruned s <= prev)%Z /\ pruning_cursor (shared s) = hi
  | WAborting prev => (pruned s <= prev)%Z /\ (pruned s <= pruning_cursor (shared s))%Z
  | WPruning lo hi => (pruned s < lo <= hi)%Z /\ (0 < lo)%Z /\ pruning_cursor (shared s) = hi
  | WDeleting lo hi => (pruned s < lo <= hi)%Z /\ (0 < lo)%Z /\ pruning_cursor (shared s) = hi /\ root s = (hi + 1)%Z
  end.
Definition exclusive (s : state) : Prop :=
  match roller_at s with
  | RIdle | RFailed => True
  | RPausing target => pause_ceiling (shared s) = target
  | RRolling target =>
      pause_ceiling (shared s) = target /\ (pruned s <= target)%Z /\
      match worker_at s with WPruning _ hi | WDeleting _ hi => (hi <= target)%Z | _ => True end
  end.

Lemma access_invariant s s' : access s s' -> cursor_ok s -> exclusive s -> cursor_ok s' /\ exclusive s'.
Proof.
  unfold cursor_ok, exclusive, unpruned.
  destruct 1; cbn [worker_at roller_at shared root pruned set_threshold set_cursor set_ceiling unpause pruning_cursor pause_ceiling pruning_threshold];
    intros Hc He; repeat case_match; simplify_eq;
    rewrite ?andb_true_iff, ?Z.leb_le, ?Z.leb_gt, ?Z.ltb_lt in *; repeat split; try done; try lia; naive_solver lia.
Qed.

(** C29: in every interleaving of the accesses of the pruning worker, the scheduler and the rollbacks
    to the shared counters and the root, while a rollback to a target runs no batch above the target
    has been pruned, and a pruning pass that is under way ends at or below the target. *)
Theorem pruning_excludes_rollback root_index s target :
  reachable root_index s -> roller_at s = RRolling target ->
  (pruned s <= target)%Z /\ forall lo hi, worker_at s = WPruning lo hi \/ worker_at s = WDeleting lo hi -> (hi <= target)%Z.
Proof.
  intros Hr Ht. assert (cursor_ok s /\ exclusive s) as [_ He].
  { clear Ht. induction Hr as [|s s' _ [Hc He] Ha]; [|by eapply access_invariant].
    split; [|done]. split; cbn; unfold unpruned, saturating_pred; cbn; lia. }
  unfold exclusive in He. rewrite Ht in He. destruct He as (_ & ? & Hw). split; [lia|]. by intros lo hi [E|E]; rewrite E in Hw.
Qed.

(** A pass over batches 1 to 9 is under way when a rollback to 12 starts, on a store whose root the
    first batch has set. *)
Lemma pruning_excludes_rollback_witness :
  exists s, reachable 0 s /\ worker_at s = WDeleting 1 9 /\ roller_at s = RRolling 12 /\ (pruned s <= 12)%Z.
Proof.
  set (w := {| pruning_threshold := 10; pause_ceiling := 12; pruning_cursor := 9 |}).
  set (s := {| shared := w; root := 10; pruned := 0; worker_at := WDeleting 1 9; roller_at := RRolling 12 |}).
  assert (reachable 0 s) as Hr.
  { eapply next. 2: exact (load_cursor w 10 0 (WDeleting 1 9) 12).
    eapply next. 2: exact (store_ceiling {| pruning_threshold := 10; pause_ceiling := U64_MAX; pruning_cursor := 9 |} 10 0 (WDeleting 1 9) 12).
    eapply next. 2: exact (advance_root {| pruning_threshold := 10; pause_ceiling := U64_MAX; pruning_cursor := 9 |} 1 0 RIdle 1 9).
    eapply next. 2: exact (recheck_ceiling {| pruning_threshold := 10; pause_ceiling := U64_MAX; pruning_cursor := 9 |} 1 0 RIdle 1 9 0).
    eapply next. 2: exact (swap_cursor {| pruning_threshold := 10; pause_ceiling := U64_MAX; pruning_cursor := 0 |} 1 0 RIdle 1 9).
    eapply next. 2: exact (load_ceiling {| pruning_threshold := 10; pause_ceiling := U64_MAX; pruning_cursor := 0 |} 1 0 RIdle 1 10).
    eapply next. 2: exact (load_threshold {| pruning_threshold := 10; pause_ceiling := U64_MAX; pruning_cursor := 0 |} 1 0 RIdle 1).
    eapply next. 2: exact (load_root {| pruning_threshold := 10; pause_ceiling := U64_MAX; pruning_cursor := 0 |} 1 0 RIdle).
    eapply next. 2: exact (set_threshold_ (new 0) 1 0 WIdle RIdle 10).
    eapply next. 2: exact (init_root (new 0) 0 WIdle 1 eq_refl). apply start. }
  exists s. split; [exact Hr|]. split; [reflexivity|]. split; [reflexivity|].
  apply (pruning_excludes_rollback 0 s 12 Hr). reflexivity.
Defined.
End Handshake.
