(* ===== verification/SchedTheorems.v ===== *)
(** * SchedTheorems: what the scheduler's store guarantees

    The database as an archive of states, whatever operations that are due follow each other;
    rollbacks, restores, commits and pruning. *)

From S2P Require Import Prelude Codec Types SmtNode SmtTrie SmtUpdate SmtTree AtomicRing CanonicalChain ChainProofs ChainTheorems RocksStore StoreTheorems L1Types StateSpaces SchedStore SchedCore SchedProofs SchedCommit SchedPrune SchedMachine.

Section theorems.
Context `{Hasher} {Db : Type} `{OrderedKvOk Db} {M : Type} `{BorshCodec M} `{Default M} `{BatchMetadata M} (debug : bool).
Implicit Types (sc : @Scheduler Db M).

(** C23: in every state the scheduler gets to from an empty store by operations that are due,
    a read of a resource's latest data returns its state after the committed batches and some prefix
    of the pending ones, the data of every state since the base is in the store under its version,
    and every operation that is due succeeds and leads to such a state again. Scheduling is due for
    a block that extends the tip, a returning one not below the hot zone's tail bucket and with the
    writes it left in the store, ids up to 2^62; a flush when the diff reads the state below its
    batch, once per resource and before later batches write it; a commit for the oldest pending
    batch, with the diffs of its writes and metadata that decodes; a rollback to no batch below the
    pruned ones; a pruning pass, which nothing interrupts, below the pending batches and the tip; a
    finalization while the root is not ahead of the pruned batches. *)
Theorem scheduler_archive sc g :
  reachable debug sc g ->
  (forall r, exists l, l `prefix_of` g_pending g /\
     from_latest_data (sc_store sc) r = Ok (version_of (final (g_base g) (g_hist g ++ l)) r)) /\
  (forall l r v x, l `prefix_of` g_all g -> final (g_base g) l !! r = Some (v, x) -> version_get (sc_store sc) v r = Some x) /\
  (forall e g', step sc g e g' -> exists sc', exec debug sc e = Ok sc' /\ reachable debug sc' g').
Proof.
  intros Hr. pose proof (reachable_inv _ _ _ Hr) as Hi. split; [|split].
  - intros r. by apply (from_latest_spec _ _ _ _ _ r (iv_rep _ _ Hi)).
  - intros l r v x [l' El] Hx. pose proof (dr_archived _ _ _ _ _ (iv_rep _ _ Hi)) as Ha. unfold g_all in El. rewrite El in Ha.
    apply archived_app in Ha as [Ha _]. by apply (archived_data _ _ _ Ha).
  - intros e g' Hs. destruct (step_ok debug _ _ _ _ Hi Hs) as (sc' & E & _). exists sc'. split; [done|]. by eapply reachable_step.
Qed.

(** C24: a rollback to a committed batch succeeds from every such state, whatever batches are still
    pending above it, and from then on the latest data of every resource is its data after that
    batch. *)
Theorem rollback_restores_state sc g t :
  reachable debug sc g -> (PruningWorker.pruning_cursor (sc_pruning sc) <= t)%Z -> (t = 0 \/ cp_index (sc_root sc) <= t + 1)%Z ->
  Forall (fun b => t < hb_index b)%Z (g_pending g) ->
  exists cp sc', rollback_to debug (fun _ => true) [] sc t = Ok (Some cp, sc') /\
    forall r, from_latest_data (sc_store sc') r = Ok (version_of (final (g_base g) (not_above t (g_hist g))) r).
Proof.
  intros Hr Hc Hroot Hp. pose proof (reachable_inv _ _ _ Hr) as Hi.
  destruct (rollback_ok debug sc g Hi t Hc Hroot) as (sc' & E & Hi'). unfold exec in E.
  destruct (rollback_to debug (fun _ => true) [] sc t) as [[o sc1]| |] eqn:Er; cbn [mbind outcome_bind] in E; [|done..]. injection E as ->.
  assert (exists cp, o = Some cp) as [cp ->].
  { unfold rollback_to in Er. destruct (_ <? _)%Z; [|injection Er as <- <-; by eexists]. unfold PruningWorker.pause in Er.
    cbn [PruningWorker.pruning_cursor PruningWorker.set_ceiling] in Er. rewrite (proj2 (Z.leb_le _ _) Hc) in Er. cbn [negb] in Er.
    destruct (cancel_and_rollback _ _ _ _) as [[c s0]| |]; cbn [mbind outcome_bind] in Er; [|done..].
    destruct (rollback_execute _ _ _ _ _ _ _) as [[[s1 lc] rt]| |]; cbn [mbind outcome_bind] in Er; [|done..]. injection Er as <- _. by eexists. }
  exists cp, sc'. split; [done|]. intros r. destruct (from_latest_spec _ _ _ _ _ r (iv_rep _ _ Hi')) as (l & Hl & ->).
  cbn [g_hist g_pending g_base with_history] in *. rewrite (not_above_none t (g_pending g) Hp) in Hl. apply prefix_nil_inv in Hl as ->. by rewrite app_nil_r.
Qed.

(** C25: committing the oldest pending batch succeeds when its nodes are visible under the chain's
    view and the tree holds the nodes of the committed state and no others, as it does while no
    deletion has left nodes behind. The store then represents the history with the batch added, and
    the tree's root at the batch's index is the root of the new state's data hashes. *)
Theorem commit_advances_state (s : RocksDbStore Db) n σ hist b pending root (checkpoint : Checkpoint M) ds updated :
  disk_rep (db s) n σ hist (b :: pending) -> cp_index checkpoint = hb_index b ->
  updated_state_diffs ds = Ok updated -> diffs_match b updated ->
  visible s (hb_index b) = true -> represents_clean s (hb_index b - 1) (tree_map (final σ hist)) ->
  exists ops, batch_commit s false false root checkpoint ds = Ok ops /\
    disk_rep (db (commit_ops s ops)) n σ (hist ++ [b]) pending /\
    Tree.root (commit_ops s ops) (hb_index b) = root_of (tree_map (final σ (hist ++ [b]))).
Proof.
  intros Hrep Hcp Hupd Hm Hvis Hclean.
  destruct (commit_fresh s n σ hist b pending root checkpoint ds updated Hrep Hcp Hupd Hm Hvis Hclean) as (ops & Hops & Hrep' & Hr & _).
  exists ops. split; [done|]. split; [done|]. apply represents_root; [|done].
  pose proof (dr_wf _ _ _ _ _ Hrep) as Hwf. apply wf_app in Hwf as [_ Hwf]. by apply wf_cons_inv in Hwf as (_ & ? & _).
Qed.

(** C26: when the newest committed batch is rolled back and returns, its states are read back from
    the store without executing it: every resource has the data it had before and after the batch,
    and committing the restored batch gives back the history with it. *)
Theorem restore_after_rollback (s : RocksDbStore Db) n σ hist b (target last_committed root checkpoint : Checkpoint M) upper snapshot rids :
  disk_rep (db s) n σ (hist ++ [b]) [] -> (top n hist <= cp_index target < hb_index b)%Z -> (hb_index b <= upper < 2 ^ 64)%Z ->
  (forall i, (cp_index target < i <= upper)%Z -> is_canonical (mem (canonical s)) snapshot i = (i =? hb_index b)%Z) ->
  (forall r, is_Some (hb_writes b !! r) -> r ∈ rids) -> cp_index checkpoint = hb_index b ->
  exists s' lc rt ds ops,
    rollback_execute s [] target upper snapshot last_committed root = Ok (s', lc, rt) /\
    restore_committed s' (hb_index b) rids = Ok ds /\
    ds = restored_diff (final σ hist) b <$> imap pair rids /\
    batch_commit s' false true (cp_index rt) checkpoint ds = Ok ops /\
    disk_rep (db (commit_ops s' ops)) n σ (hist ++ [b]) [].
Proof.
  intros Hrep Ht Hu Hcan Hrids Hcp.
  assert (forall ns k, db_get (db (commit_ops s [])) ns k = db_get (db s) ns k) as Hnil by (intros ns k; by rewrite commit_ops_get).
  pose proof (disk_rep_get _ _ _ _ _ _ Hnil Hrep) as Hrep0. pose proof (dr_wf _ _ _ _ _ Hrep) as Hwf. rewrite app_nil_r in Hwf.
  pose proof Hwf as [_ Hwfb]%wf_app. apply wf_cons_inv in Hwfb as (Hlt & Hub & _). destruct (wf_base _ _ _ Hwf) as [Hn _].
  destruct (rollback_effect s [] target last_committed root upper snapshot n σ hist [b]) as (s' & E & _ & Hsame & Hl & _).
  { apply Hrep0. }
  { done. }
  { pose proof (dr_archived _ _ _ _ _ Hrep0) as Ha. by rewrite app_nil_r in Ha. }
  { lia. }
  { lia. }
  { constructor; [lia|done]. }
  { intros i Hi. rewrite Hcan by done. apply Bool.eq_iff_eq_true. rewrite Z.eqb_eq, bool_decide_eq_true. cbn. by rewrite list_elem_of_singleton. }
  assert (disk_rep (db s') n σ hist []) as Hrep' by (eapply (rollback_committed _ _ _ _ _ _ Hrep0 Hsame hist [b]); [done|exact Hl]).
  assert (kept (db s') (final σ hist) b) as Hk.
  { pose proof (dr_archived _ _ _ _ _ Hrep0) as Ha. rewrite app_nil_r in Ha. destruct (archived_kept _ _ _ _ _ Ha) as [Hp Hw].
    split; intros r; (rewrite Hsame by done); [apply Hp|apply Hw]. }
  assert (disk_rep (db s') n σ hist [b]) as Hrep2.
  { eapply (schedule_rep _ _ _ _ []); rewrite ?app_nil_r; [exact Hrep'|done|done|done|]. apply kept_data; [|done]. apply archived_data.
    pose proof (dr_archived _ _ _ _ _ Hrep') as Ha. by rewrite app_nil_r in Ha. }
  assert (forall r v x, final σ hist !! r = Some (v, x) -> (v < hb_index b)%Z) as Hv.
  { intros r v x Hx. destruct (wf_final _ _ _ _ _ _ _ Hwf Hx) as [? _]. lia. }
  pose proof Hwf as [Hwf1 _]%wf_app. pose proof (top_ge _ _ _ Hwf1).
  do 3 eexists. exists (restored_diff (final σ hist) b <$> imap pair rids).
  destruct (commit_rep s' n σ hist b [] true (cp_index (if (cp_index target =? 0)%Z then target else root)) checkpoint
    (restored_diff (final σ hist) b <$> imap pair rids) _ (vreplicate 32 Byte.x00) [] Hrep2 Hcp
    (restored_updated (final σ hist) b (imap pair rids) Hv ltac:(lia))
    (restored_match _ b rids Hrids) ltac:(done)) as (ops & Hops & Hfinal & _).
  exists ops. split; [exact E|]. split; [by eapply restore_diffs|]. split; [done|]. split; [exact Hops|exact Hfinal].
Qed.

(** C27: a pruning pass that has work to do, below the pending batches and the tip, succeeds.
    Afterwards the latest data of every resource and the data of every state from the new root on,
    those of pending batches included, are unchanged, and every version that a batch of the pruned
    range superseded is gone. *)
Theorem pruning_keeps_states sc g :
  let hi := PruningWorker.upper_bound (sc_pruning sc) in
  reachable debug sc g -> PruningWorker.has_work (sc_pruning sc) (cp_index (sc_root sc)) = true ->
  Forall (fun b => hi < hb_index b)%Z (g_pending g) -> (hi <= tip (current (Manager.chain_ (sc_manager sc))))%Z ->
  exists sc', prune_pass sc = Ok sc' /\
    (forall r, from_latest_data (sc_store sc') r = from_latest_data (sc_store sc) r) /\
    (forall l r v x, l `prefix_of` above hi (g_hist g) ++ g_pending g ->
       final (g_base g) (not_above hi (g_hist g) ++ l) !! r = Some (v, x) -> version_get (sc_store sc') v r = Some x) /\
    (forall a b c r v x, not_above hi (g_hist g) = a ++ b :: c -> is_Some (hb_writes b !! r) ->
       final (g_base g) a !! r = Some (v, x) -> version_get (sc_store sc') v r = None).
Proof.
  intros hi Hr Hwork Hp Hhi. pose proof (reachable_inv _ _ _ Hr) as Hi.
  destruct (prune_ok debug sc g Hi Hwork Hp Hhi) as (sc' & E & Hi'). exists sc'. split; [exact E|]. split; [|split].
  - intros r. by eapply (prune_reads debug sc g Hi Hwork Hp Hhi).
  - intros l r v x [l' El] Hx. pose proof (dr_archived _ _ _ _ _ (iv_rep _ _ Hi')) as Ha. cbn [g_base g_hist g_pending] in Ha. fold hi in Ha.
    rewrite El in Ha. apply archived_app in Ha as [Ha _]. rewrite final_app in Hx. by apply (archived_data _ _ _ Ha).
  - intros a b c r v x Eh Hw Hx. by eapply (prune_reclaims debug sc g Hi Hwork Hp Hhi sc' a b c r v x E).
Qed.
End theorems.

(** ** Batches of new blocks *)

(** A batch without writes. *)
Definition bare (i : Z) : hbatch := {| hb_index := i; hb_writes := ∅ |}.

Lemma idle_match i : diffs_match (bare i) [].
Proof. split; [intros d Hd; by apply elem_of_nil in Hd|]. intros r. cbn [bare hb_writes]. rewrite lookup_empty. by intros []. Qed.

Section blocks.
Context `{Hasher} {Db : Type} `{OrderedKvOk Db} {M : Type} `{BorshCodec M} `{Default M} `{BatchMetadata M} (debug : bool).
Implicit Types (sc : @Scheduler Db M).

(** A block that was never seen gets the next id. *)
Lemma reach_new sc g md i sc' :
  reachable debug sc g -> Manager.id_of (sc_manager sc) (block_hash md) = None -> next_id (sc_manager sc) = i ->
  (i <= 2 ^ 62)%Z -> (tip (current (Manager.chain_ (sc_manager sc))) < i)%Z -> exec debug sc (Schedule md) = Ok sc' ->
  reachable debug sc' (with_history g (g_hist g) (g_pending g ++ [bare i]) (next_canon (sc_manager sc) (g_canon g) (MAppend md))).
Proof.
  intros Hr Hid <- Hmax Ht He. eapply reachable_step; [exact Hr| |exact He]. apply step_schedule; [|by rewrite Hid|done|done|].
  - cbn [manager_allowed]. by rewrite Hid.
  - rewrite Hid. by intros [].
Qed.

(** A batch that wrote nothing is committed. *)
Lemma reach_idle sc g i pending checkpoint sc' :
  reachable debug sc g -> g_pending g = bare i :: pending -> cp_index checkpoint = i -> readable (cp_metadata checkpoint) ->
  exec debug sc (Commit false checkpoint []) = Ok sc' -> reachable debug sc' (with_history g (g_hist g ++ [bare i]) pending (g_canon g)).
Proof.
  intros Hr Hp Hc Hmd He. eapply reachable_step; [exact Hr| |exact He]. by eapply step_commit; [exact Hp|exact Hc|done|apply idle_match|].
Qed.
End blocks.

(** ** A run to evaluate *)

#[export] Instance Z_borsh : BorshCodec Z := {| borsh_to_vec := Borsh.write_u64; borsh_deserialize := Borsh.read_u64; borsh_ok := u64 |}.
#[export] Instance Z_default : Default Z := 0%Z.
#[local] Existing Instance toy_hasher.

Definition or_else {A} (o : Result A) (d : A) : A := match o with Ok x => x | _ => d end.

Definition ver (r : ResourceId) (v : Z) (data : bytes) : Version := {| sv_resource_id := r; sv_version := v; sv_data := data |}.
Definition diff (r : ResourceId) (read written : Version) : StateDiff :=
  {| sd_resource_id := r; sd_index := 0; sd_read := Some read; sd_written := Some written |}.
Definition cp (i md : Z) : Checkpoint Z := {| cp_index := i; cp_metadata := md |}.

Definition rA : ResourceId := fill Byte.x11.
Definition one : bytes := [Byte.x01].
Definition two : bytes := [Byte.x02].
Definition three : bytes := [Byte.x03].

(** Batch 1 creates a resource, batch 2 changes it, batch 3 writes nothing and batch 4, which
    changes it again, is still pending when the blocks below 3 become final. *)
Definition first_diff : StateDiff := diff rA (version_empty rA) (ver rA 1 one).
Definition second_diff : StateDiff := diff rA (ver rA 1 one) (ver rA 2 two).
Definition third_diff : StateDiff := diff rA (ver rA 2 two) (ver rA 4 three).
Definition blank : @Scheduler kv Z :=
  {| sc_store := empty_store; sc_manager := {| Manager.chain_ := default_chain; Manager.base := 1; Manager.entries := []; Manager.index := ∅ |};
     sc_root := default_checkpoint; sc_last_committed := default_checkpoint; sc_last_processed := default_checkpoint;
     sc_pending_batches := []; sc_cancellation := CancellationContext.new 0; sc_pruning := PruningWorker.new 0 |}.

Definition after (sc : @Scheduler kv Z) (e : event) : @Scheduler kv Z := or_else (exec true sc e) blank.
Definition demo0 : @Scheduler kv Z := or_else (scheduler_new true empty_store) blank.
Definition demo1 := after demo0 (Schedule 7%Z).
Definition demo2 := after demo1 (Flush 1 first_diff).
Definition demo3 := after demo2 (Commit false (cp 1 7) [first_diff]).
Definition demo4 := after demo3 (Schedule 8%Z).
Definition demo5 := after demo4 (Flush 2 second_diff).
Definition demo6 := after demo5 (Commit false (cp 2 8) [second_diff]).
Definition demo7 := after demo6 (Schedule 9%Z).
Definition demo8 := after demo7 (Commit false (cp 3 9) []).
Definition demo9 := after demo8 (Schedule 10%Z).
Definition demo10 := after demo9 (Flush 4 third_diff).
Definition demo11 := after demo10 (FinalizeBelow 3).

Definition first_batch : hbatch := with_write (bare 1) (sv_resource_id (version_empty rA)) (sv_data (ver rA 1 one)).
Definition second_batch : hbatch := with_write (bare 2) (sv_resource_id (ver rA 1 one)) (sv_data (ver rA 2 two)).
Definition last_batch : hbatch := with_write (bare 4) (sv_resource_id (ver rA 2 two)) (sv_data (ver rA 4 three)).

Definition ghost1 : ghost := with_history genesis (g_hist genesis) (g_pending genesis ++ [bare 1]) (next_canon (sc_manager demo0) (g_canon genesis) (MAppend 7%Z)).
Definition ghost2 : ghost := with_history ghost1 (g_hist ghost1) ([] ++ first_batch :: []) (g_canon ghost1).
Definition ghost3 : ghost := with_history ghost2 (g_hist ghost2 ++ [first_batch]) [] (g_canon ghost2).
Definition ghost4 : ghost := with_history ghost3 (g_hist ghost3) (g_pending ghost3 ++ [bare 2]) (next_canon (sc_manager demo3) (g_canon ghost3) (MAppend 8%Z)).
Definition ghost5 : ghost := with_history ghost4 (g_hist ghost4) ([] ++ second_batch :: []) (g_canon ghost4).
Definition ghost6 : ghost := with_history ghost5 (g_hist ghost5 ++ [second_batch]) [] (g_canon ghost5).
Definition ghost7 : ghost := with_history ghost6 (g_hist ghost6) (g_pending ghost6 ++ [bare 3]) (next_canon (sc_manager demo6) (g_canon ghost6) (MAppend 9%Z)).
Definition ghost8 : ghost := with_history ghost7 (g_hist ghost7 ++ [bare 3]) [] (g_canon ghost7).
Definition ghost9 : ghost := with_history ghost8 (g_hist ghost8) (g_pending ghost8 ++ [bare 4]) (next_canon (sc_manager demo8) (g_canon ghost8) (MAppend 10%Z)).
Definition ghost10 : ghost := with_history ghost9 (g_hist ghost9) ([] ++ last_batch :: []) (g_canon ghost9).

Lemma fresh_empty : fresh empty_store.
Proof. split; [done|]. intros ns k. apply lookup_empty. Qed.

Ltac evaluate := vm_compute; reflexivity.

Definition is_ok {A} (o : Result A) : bool := match o with Ok _ => true | _ => false end.

Lemma or_else_ok {A} (o : Result A) d : is_ok o = true -> o = Ok (or_else o d).
Proof. by destruct o. Qed.

Lemma demo_start : reachable true demo0 genesis.
Proof. apply (reachable_start _ empty_store); [apply fresh_empty|]. apply or_else_ok. evaluate. Qed.

Lemma demo_scheduled : reachable true demo1 ghost1.
Proof. apply (reach_new _ demo0 genesis 7%Z 1 demo1 demo_start); [evaluate|evaluate|done|evaluate|apply or_else_ok; evaluate]. Qed.

Lemma demo_flushed : reachable true demo2 ghost2.
Proof.
  apply (reachable_step _ demo1 ghost1 (Flush 1 first_diff)); [apply demo_scheduled| |apply or_else_ok; evaluate].
  apply (step_flush demo1 ghost1 [] (bare 1) [] first_diff (version_empty rA) (ver rA 1 one)); try evaluate; [|done].
  split; [evaluate|]. intros E. by destruct E.
Qed.

Lemma single_match i r read data : diffs_match (with_write (bare i) r data) [diff r read (ver r i data)].
Proof.
  split.
  - intros d Hd. apply list_elem_of_singleton in Hd as ->. exists (ver r i data). cbn [diff sd_written sd_resource_id ver sv_resource_id sv_version sv_data].
    split; [done|]. split; [done|]. split; [done|]. cbn [hb_writes with_write]. by rewrite lookup_insert_eq.
  - intros q. cbn [hb_writes with_write bare]. destruct (decide (r = q)) as [<-|Hne].
    + intros _. exists (diff r read (ver r i data)). split; [by left|done].
    + rewrite lookup_insert_ne, lookup_empty by done. by intros [].
Qed.

Lemma demo_committed : reachable true demo3 ghost3.
Proof.
  apply (reachable_step _ demo2 ghost2 (Commit false (cp 1 7) [first_diff])); [apply demo_flushed| |apply or_else_ok; evaluate].
  apply (step_commit demo2 ghost2 first_batch [] false (cp 1 7) [first_diff] [first_diff]); [done|done|evaluate|apply single_match|]. by eexists.
Qed.

Lemma demo_scheduled_again : reachable true demo4 ghost4.
Proof. apply (reach_new _ demo3 ghost3 8%Z 2 demo4 demo_committed); [evaluate|evaluate|done|evaluate|apply or_else_ok; evaluate]. Qed.

Lemma demo_flushed_again : reachable true demo5 ghost5.
Proof.
  apply (reachable_step _ demo4 ghost4 (Flush 2 second_diff)); [apply demo_scheduled_again| |apply or_else_ok; evaluate].
  apply (step_flush demo4 ghost4 [] (bare 2) [] second_diff (ver rA 1 one) (ver rA 2 two)); try evaluate; [|done].
  split; [evaluate|]. intros _. evaluate.
Qed.

Lemma demo_committed_again : reachable true demo6 ghost6.
Proof.
  apply (reachable_step _ demo5 ghost5 (Commit false (cp 2 8) [second_diff])); [apply demo_flushed_again| |apply or_else_ok; evaluate].
  apply (step_commit demo5 ghost5 second_batch [] false (cp 2 8) [second_diff] [second_diff]); [done|done|evaluate|apply single_match|]. by eexists.
Qed.

(** ** Witnesses *)

Definition read_of (s : RocksDbStore kv) (r : ResourceId) : option (Z * bytes) :=
  match from_latest_data s r with Ok v => Some (sv_version v, sv_data v) | _ => None end.

Lemma scheduler_archive_witness :
  exists l, l `prefix_of` g_pending ghost5 /\
    from_latest_data (sc_store demo5) rA = Ok (version_of (final (g_base ghost5) (g_hist ghost5 ++ l)) rA) /\ read_of (sc_store demo5) rA = Some (1%Z, one).
Proof.
  destruct (scheduler_archive true demo5 ghost5 demo_flushed_again) as (Hread & _).
  destruct (Hread rA) as (l & Hl & E). exists l. split; [exact Hl|]. split; [exact E|]. evaluate.
Defined.

Lemma rollback_restores_state_witness :
  exists c sc', rollback_to true (fun _ => true) [] demo6 1 = Ok (Some c, sc') /\
    from_latest_data (sc_store sc') rA = Ok (version_of (final (g_base ghost6) (not_above 1 (g_hist ghost6))) rA) /\
    sv_data (version_of (final (g_base ghost6) (not_above 1 (g_hist ghost6))) rA) = one.
Proof.
  destruct (rollback_restores_state true demo6 ghost6 1) as (c & sc' & E & Hread).
  - exact demo_committed_again.
  - vm_compute. discriminate.
  - right. vm_compute. discriminate.
  - constructor.
  - exists c, sc'. split; [exact E|]. split; [apply Hread|evaluate].
Defined.

Lemma tree_map_empty : tree_map ∅ = ∅.
Proof. apply omap_empty. Qed.

Lemma no_nodes : represents_clean (sc_store demo2) 0 ∅.
Proof.
  assert (forall raw, db_get (db (sc_store demo2)) SmtNode raw = None) as Hn.
  { intros raw. assert (Forall (fun e : StateSpace * bytes * bytes => e.1.1 <> SmtNode) (map_to_list (db (sc_store demo2)))) as Hall.
    { assert (forallb (fun e : StateSpace * bytes * bytes => negb (bool_decide (e.1.1 = SmtNode))) (map_to_list (db (sc_store demo2))) = true) as E by evaluate.
      apply Forall_forall. intros e He Es. rewrite forallb_forall in E. specialize (E e). rewrite <- list_elem_of_In in E. specialize (E He).
      by rewrite bool_decide_true in E. }
    destruct (db_get (db (sc_store demo2)) SmtNode raw) as [v|] eqn:E; [|done]. exfalso. cbn in E. apply elem_of_map_to_list in E.
    rewrite Forall_forall in Hall. by apply (Hall _ E). }
  apply fresh_clean.
  - intros raw val. by rewrite Hn.
  - intros k v _ _. cbn [node_at rocks_node_store]. unfold raw_node. rewrite Hn. by destruct (shows _ _ _).
Qed.

Lemma commit_advances_state_witness :
  exists ops, batch_commit (sc_store demo2) false false 1 (cp 1 7) [first_diff] = Ok ops /\
    Tree.root (commit_ops (sc_store demo2) ops) 1 = root_of (tree_map (final ∅ [first_batch])).
Proof.
  destruct (commit_advances_state (sc_store demo2) 0 ∅ [] first_batch [] 1 (cp 1 7) [first_diff] [first_diff]) as (ops & E & _ & Hroot).
  - exact (iv_rep _ _ (reachable_inv _ _ _ demo_flushed)).
  - reflexivity.
  - evaluate.
  - apply single_match.
  - evaluate.
  - exact (eq_rect_r (represents_clean (sc_store demo2) 0) no_nodes tree_map_empty).
  - exists ops. split; [exact E|exact Hroot].
Defined.

Lemma restore_after_rollback_witness :
  exists s' lc rt ds ops,
    rollback_execute (sc_store demo6) [] (cp 1 7) 2 (current (canonical (sc_store demo6))) (cp 2 8) (cp 1 7) = Ok (s', lc, rt) /\
    restore_committed s' 2 [rA] = Ok ds /\ batch_commit s' false true (cp_index rt) (cp 2 8) ds = Ok ops /\
    read_of (commit_ops s' ops) rA = Some (2%Z, two).
Proof.
  destruct (restore_after_rollback (sc_store demo6) 0 ∅ [first_batch] second_batch (cp 1 7) (cp 2 8) (cp 1 7) (cp 2 8) 2
    (current (canonical (sc_store demo6))) [rA]) as (s' & lc & rt & ds & ops & E1 & E2 & _ & E3 & Hrep).
  - exact (iv_rep _ _ (reachable_inv _ _ _ demo_committed_again)).
  - vm_compute. split; [discriminate|reflexivity].
  - vm_compute. split; [discriminate|reflexivity].
  - intros i Hi. assert (i = 2%Z) as -> by (cbn in Hi; lia). evaluate.
  - intros r Hr. cbn [second_batch with_write bare hb_writes ver sv_resource_id] in Hr.
    destruct (decide (rA = r)) as [<-|Hne]; [by left|]. rewrite lookup_insert_ne, lookup_empty in Hr by done. by destruct Hr.
  - reflexivity.
  - exists s', lc, rt, ds, ops. split; [exact E1|]. split; [exact E2|]. split; [exact E3|].
    destruct (from_latest_spec _ _ _ _ _ rA Hrep) as (l & Hl & E). apply prefix_nil_inv in Hl as ->. unfold read_of. rewrite E. evaluate.
Defined.

Lemma demo_idle_scheduled : reachable true demo7 ghost7.
Proof. apply (reach_new _ demo6 ghost6 9%Z 3 demo7 demo_committed_again); [evaluate|evaluate|done|evaluate|apply or_else_ok; evaluate]. Qed.

Lemma demo_idle : reachable true demo8 ghost8.
Proof. apply (reach_idle _ demo7 ghost7 3 [] (cp 3 9) demo8 demo_idle_scheduled); [reflexivity|reflexivity|by eexists|apply or_else_ok; evaluate]. Qed.

Lemma demo_last_scheduled : reachable true demo9 ghost9.
Proof. apply (reach_new _ demo8 ghost8 10%Z 4 demo9 demo_idle); [evaluate|evaluate|done|evaluate|apply or_else_ok; evaluate]. Qed.

Lemma demo_pending : reachable true demo10 ghost10.
Proof.
  apply (reachable_step _ demo9 ghost9 (Flush 4 third_diff)); [apply demo_last_scheduled| |apply or_else_ok; evaluate].
  apply (step_flush demo9 ghost9 [] (bare 4) [] third_diff (ver rA 2 two) (ver rA 4 three)); try evaluate; [|done].
  split; [evaluate|]. intros _. evaluate.
Qed.

Lemma demo_finalized :
  exists g, reachable true demo11 g /\ g_pending g = [last_batch] /\ g_hist g = [first_batch; second_batch; bare 3] /\ g_base g = ∅.
Proof.
  eexists. split; [|split; [|split]].
  - apply (reachable_step _ demo10 ghost10 (FinalizeBelow 3)); [apply demo_pending| |apply or_else_ok; evaluate].
    apply step_finalize; vm_compute; [discriminate|reflexivity].
  - reflexivity.
  - reflexivity.
  - reflexivity.
Qed.

(** Batches 1 and 2 are pruned: the version of the resource that batch 2 superseded goes, the one
    the pending batch 4 supersedes stays. *)
Lemma pruning_keeps_states_witness :
  exists sc', prune_pass demo11 = Ok sc' /\ from_latest_data (sc_store sc') rA = from_latest_data (sc_store demo11) rA /\
    version_get (sc_store demo11) 1 rA = Some one /\ version_get (sc_store sc') 1 rA = None /\ version_get (sc_store sc') 2 rA = Some two /\
    version_get (sc_store sc') 4 rA = Some three.
Proof.
  destruct demo_finalized as (g & Hr & Hp & Hh & Hb).
  destruct (pruning_keeps_states true demo11 g Hr) as (sc' & E & Hread & Hkeep & Hgone).
  - evaluate.
  - rewrite Hp. apply Forall_singleton. evaluate.
  - vm_compute. discriminate.
  - exists sc'. rewrite Hp, Hh, Hb in Hkeep. rewrite Hh, Hb in Hgone. repeat split.
    + exact E.
    + apply Hread.
    + apply (Hgone [first_batch] second_batch [] rA 1%Z one); [evaluate|by eexists|evaluate].
    + apply (Hkeep [] rA 2%Z two); [apply prefix_nil|evaluate].
    + apply (Hkeep [bare 3; last_batch] rA 4%Z three); [|evaluate]. exists []. evaluate.
Defined.
