(* ===== verification/SchedFailures.v ===== *)
(** * SchedFailures: interleavings and restarts the scheduler does not survive

    Runs of the modelled code in which state is lost, a restart fails or a state root is wrong:
    finalizing while a pass runs, pruning what is not committed, ids that are used again after a
    crash, and restarts after a rollback. *)

From S2P Require Import Prelude Codec Types SmtNode SmtTrie SmtUpdate SmtTree AtomicRing CanonicalChain ChainProofs ChainTheorems RocksStore StoreTheorems L1Types StateSpaces SchedStore SchedCore SchedProofs SchedCommit SchedPrune SchedMachine SchedTheorems.

#[local] Existing Instance toy_hasher.

(** ** Blocks *)

(** A block's number and the id of its parent. *)
Record block := { number : Z; parent : Z }.

#[export] Instance block_metadata : BatchMetadata block := {| block_hash b := be_split 32 (number b); parent_id := parent |}.
#[export] Instance block_borsh : BorshCodec block := {|
  borsh_to_vec b := Borsh.write_u64 (number b) ++ Borsh.write_u64 (parent b);
  borsh_deserialize := n ← Borsh.read_u64; p ← Borsh.read_u64; mret {| number := n; parent := p |};
  borsh_ok b := u64 (number b) /\ u64 (parent b)
|}.
#[export] Instance block_default : Default block := {| number := 0; parent := 0 |}.

Abbreviation sched := (@Scheduler kv block).

Definition blk (n p : Z) : block := {| number := n; parent := p |}.
Definition at_block (i : Z) (b : block) : Checkpoint block := {| cp_index := i; cp_metadata := b |}.

Fixpoint run (debug : bool) (sc : sched) (es : list event) : Result sched :=
  match es with
  | [] => Ok sc
  | e :: es => sc ← exec debug sc e; run debug sc es
  end.

(** A process starts on a database; the chain of ids in memory is empty. *)
Definition boot (debug : bool) (d : kv) : Result sched := scheduler_new debug {| db := d; canonical := default_chain |}.
Definition disk (sc : sched) : kv := db (sc_store sc).

(** A batch that writes one resource: scheduled, flushed and committed. *)
Definition write_batch (i : Z) (b : block) (d : StateDiff) : list event := [Schedule b; Flush i d; Commit false (at_block i b) [d]].
(** A batch that writes nothing. *)
Definition idle_batch (i : Z) (b : block) : list event := [Schedule b; Commit false (at_block i b) []].

Definition rB : ResourceId := fill Byte.x22.
Definition create (r : ResourceId) (i : Z) (data : bytes) : StateDiff := diff r (version_empty r) (ver r i data).
Definition change (r : ResourceId) (i : Z) (old : bytes) (j : Z) (new : bytes) : StateDiff := diff r (ver r i old) (ver r j new).

Definition read_sched (r : ResourceId) (sc : sched) : option (Z * bytes) := read_of (sc_store sc) r.

(** ** Pruning batches that are not committed *)

(** Batch 1 is committed, batch 2 is flushed only when the blocks up to 2 become final. *)
Definition outrun : Result sched :=
  sc ← boot true ∅;
  run true sc (write_batch 1 (blk 1 0) (create rA 1 one) ++
    [Schedule (blk 2 1); Flush 2 (change rA 1 one 2 two); FinalizeBelow 3]).

(** The pruning worker prunes batches that are final but not committed yet, and takes away the
    data the latest pointers refer to: a resource reads as empty until the commit, and after a crash
    before it for good. *)
Theorem pruning_outruns_commits :
  (read_sched rA <$> outrun) = Ok (Some (1%Z, one)) /\
  (sc ← outrun; read_sched rA <$> prune_pass sc) = Ok (Some (1%Z, [])) /\
  (sc ← outrun; sc ← prune_pass sc; read_sched rA <$> boot true (disk sc)) = Ok (Some (1%Z, [])).
Proof. split; [|split]; vm_compute; reflexivity. Qed.

(** ** Ids used again after a crash *)

(** Batch 2 is flushed, not committed, when the process dies; another block gets its id. *)
Definition reuse : Result sched :=
  sc ← boot true ∅;
  sc ← run true sc (write_batch 1 (blk 1 0) (create rA 1 one) ++ [Schedule (blk 2 1); Flush 2 (change rA 1 one 2 two)]);
  sc ← boot true (disk sc);
  run true sc (write_batch 2 (blk 3 1) (create rB 2 one) ++ idle_batch 3 (blk 4 2) ++ [FinalizeBelow 3]).

(** Diffs that were flushed but never committed survive a crash, and their ids are assigned
    again: the pointer they left makes a later pruning pass delete the live version of a resource
    that no canonical batch has overwritten. *)
Theorem leftover_pointers_lose_data :
  (read_sched rA <$> reuse) = Ok (Some (1%Z, one)) /\
  (sc ← reuse; read_sched rA <$> prune_pass sc) = Ok (Some (1%Z, [])).
Proof. split; vm_compute; reflexivity. Qed.

(** ** Restarts *)

(** Batch 2 is canceled by a rollback before it is committed; batch 3 takes its place. *)
Definition canceled_batch (debug : bool) : Result sched :=
  sc ← boot debug ∅;
  run debug sc (idle_batch 1 (blk 1 0) ++ [Schedule (blk 2 1); RollbackTo 1] ++ idle_batch 3 (blk 3 1)).

(** Once a batch has been canceled before its commit, the stored batches have a gap in their
    ids, and the scheduler can not be started on them again: it panics in debug and release builds. *)
Theorem restart_after_cancel_panics debug :
  (exists sc, canceled_batch debug = Ok sc) /\ (sc ← canceled_batch debug; boot debug (disk sc)) = Panic.
Proof.
  assert (is_ok (canceled_batch debug) = true) as E by (destruct debug; vm_compute; reflexivity). split.
  - destruct (canceled_batch debug) as [sc| |]; [by exists sc|done..].
  - destruct debug; vm_compute; reflexivity.
Qed.

(** Batch 2 changes a resource and is rolled back; the process restarts before another commit. *)
Definition rolled_back (debug : bool) : Result sched :=
  sc ← boot debug ∅;
  run debug sc (write_batch 1 (blk 1 0) (create rA 1 one) ++ write_batch 2 (blk 2 1) (change rA 1 one 2 two) ++ [RollbackTo 1]).

Definition tip_and_processed (sc : sched) : Z * Z := (sink_tip sc, cp_index (sc_last_processed sc)).

(** What the sequencing of blocks then does: it rolls back to batch 1 and appends a block to it. *)
Definition resumed (debug restart : bool) : Result sched :=
  sc ← rolled_back debug;
  sc ← (if restart then boot debug (disk sc) else Ok sc);
  run debug sc ([RollbackTo 1] ++ write_batch 3 (blk 3 1) (create rB 3 one)).

(** The state after batches 1 and 3. *)
Definition resumed_state : vstate := {[rA := (1%Z, one); rB := (3%Z, one)]}.

(** A restart makes the newest stored batch the tip of the chain even if it was rolled back,
    while the last processed batch is the rollback's target, so that the rollback which would
    remove it does nothing: the next batch commits to a state root that contains the writes of the
    orphaned batch. Without the restart it commits to the root of the state. *)
Theorem restart_revives_orphan :
  (tip_and_processed <$> rolled_back true) = Ok (1%Z, 1%Z) /\
  (sc ← rolled_back true; tip_and_processed <$> boot true (disk sc)) = Ok (2%Z, 1%Z) /\
  ((fun sc => bool_decide (Tree.root (sc_store sc) 3 = root_of (tree_map resumed_state))) <$> resumed true false) = Ok true /\
  ((fun sc => bool_decide (Tree.root (sc_store sc) 3 = root_of (tree_map resumed_state))) <$> resumed true true) = Ok false.
Proof. split; [|split; [|split]]; vm_compute; reflexivity. Qed.

(** ** Finalizing during a pass *)

Section interleaved.
Context `{Hasher} {Db : Type} `{OrderedKvOk Db} {M : Type} `{BorshCodec M} `{Default M} `{BatchMetadata M} (debug : bool).
Implicit Types (sc : @Scheduler Db M).

(** The pointers a read finds are the ones that are stored. *)
Lemma rollback_stored (s : RocksDbStore Db) i r v :
  pointers_ok (db s) -> rollback_get s i r = Ok (Some v) -> u64 v /\ db_get (db s) StatePtrRollback (rollback_key i r) = Some (be64 v).
Proof.
  intros Hok. unfold rollback_get, get. destruct (db_get (db s) StatePtrRollback (rollback_key i r)) as [val|] eqn:E; cbn [map_get]; [|done].
  destruct (Hok _ _ E) as (j & q & old & _ & Ho & _ & ->). rewrite u64_from_be64 by done. cbn [mbind outcome_bind]. by intros [= ->].
Qed.

Lemma manager_finalize_chain (m : Manager.t M) below : Manager.chain_ (Manager.finalize m below) = CanonicalChain.finalize (Manager.chain_ m) below.
Proof. unfold Manager.finalize. by destruct (Manager.drop_entries _ _ _ _) as [[es b] ix]. Qed.

(** A resource whose latest version is gone reads as empty. *)
Lemma latest_lost (s s' : RocksDbStore Db) r rd :
  from_latest_data s r = Ok rd -> sv_version rd <> 0%Z ->
  db_get (db s') StatePtrLatest (vec_to_list r) = db_get (db s) StatePtrLatest (vec_to_list r) ->
  version_get s' (sv_version rd) r = None -> from_latest_data s' r = Ok {| sv_resource_id := r; sv_version := sv_version rd; sv_data := [] |}.
Proof.
  intros Hrd Hv Hl Hgone. unfold from_latest_data, latest_get, get in *. rewrite Hl.
  destruct (map_get u64_from_be (db_get (db s) StatePtrLatest (vec_to_list r))) as [[w|]| |]; cbn [mbind outcome_bind] in *; [injection Hrd as <-|by injection Hrd as <-|done..].
  cbn [at_version sv_version] in *. unfold at_version. by rewrite Hgone.
Qed.

(** C40: the pruning worker moves the root before it takes its view of the chain, so a finalization
    in between drops canonical bits that the pass still needs. Take a pass that is due, and in its
    range an orphaned batch that had superseded the live version of a resource, its bucket below the
    new root's and outside the hot zone. The pass keeps the resource's data when the finalization
    follows it; when it comes between the two steps the orphan reads as canonical, the pass deletes
    the live version, and the resource reads as empty. *)
Theorem finalize_during_pruning_loses_data sc g below i r rd :
  let lo := cp_index (sc_root sc) in
  let hi := PruningWorker.upper_bound (sc_pruning sc) in
  let view := current (canonical (sc_store sc)) in
  reachable debug sc g -> PruningWorker.has_work (sc_pruning sc) lo = true ->
  Forall (fun b => hi < hb_index b)%Z (g_pending g) -> (hi <= tip (current (Manager.chain_ (sc_manager sc))))%Z ->
  (lo <= i <= hi)%Z -> is_canonical (mem (canonical (sc_store sc))) view i = false ->
  from_latest_data (sc_store sc) r = Ok rd -> sv_version rd <> 0%Z -> rollback_get (sc_store sc) i r = Ok (Some (sv_version rd)) ->
  (fst (Bucket.locate i) < fst (Bucket.locate (hi + 1)))%Z -> (fst (Bucket.locate i) + 1 < tail_bucket (hot_zone view))%Z ->
  (exists sc', prune_pass sc = Ok sc' /\ from_latest_data (sc_store (sink_finalize sc' below)) r = Ok rd) /\
  (exists root sc1 sc2, start_pass sc = Ok (root, sc1) /\ finish_pass (sink_finalize sc1 below) lo hi root = Ok sc2 /\
     from_latest_data (sc_store sc2) r = Ok {| sv_resource_id := r; sv_version := sv_version rd; sv_data := [] |}).
Proof.
  intros lo hi view Hr Hwork Hp Hhi Hi _ Hrd Hv Hptr Hbucket Hcold. pose proof (reachable_inv _ _ _ Hr) as Hinv.
  destruct (pass_done sc g Hinv Hwork Hp Hhi) as (root & ops & Hstart & Eroot & _ & Hpass). split.
  { destruct (prune_ok debug sc g Hinv Hwork Hp Hhi) as (sc' & E & _). exists sc'. split; [exact E|].
    pose proof (prune_reads debug sc g Hinv Hwork Hp Hhi sc' r E) as Hread. rewrite Hrd in Hread. exact Hread. }
  set (s2 := sc_store (sink_finalize (with_root sc hi root) below)). pose proof (iv_rep _ _ Hinv) as Hrep.
  destruct (rollback_stored _ _ _ _ (dr_pointers _ _ _ _ _ Hrep) Hptr) as [Huv Hstored].
  pose proof (prune_range_u64 sc g Hinv Hwork Hp Hhi) as Hrange. destruct (prune_bounds sc g Hinv Hwork Hp Hhi) as (Hlo & _).
  destruct (prune_ops_range s2 (current (canonical s2)) (seqZ lo (hi - lo + 1)) (dr_pointers _ _ _ _ _ Hrep) (iv_stale _ _ Hinv) Hrange) as (opss & Hops & Hpruned).
  pose proof (mo_cur _ _ _ (iv_manager _ _ Hinv)) as Hcur. pose proof (so_tip _ _ (co_snap _ _ _ _ Hcur)). pose proof (co_max _ _ _ _ Hcur).
  pose proof (iv_cursor _ _ Hinv). pose proof (inv_nonneg sc g Hinv). fold lo hi in Hlo.
  assert (is_canonical (mem (canonical s2)) (current (canonical s2)) i = true) as Hcanon.
  { unfold s2, sink_finalize. cbn [with_root sc_store sc_manager sc_root chain_of canonical]. rewrite manager_finalize_chain, Eroot. fold hi.
    unfold view in Hcold. rewrite (iv_chain _ _ Hinv) in Hcold. rewrite !locate_id in Hbucket by lia. rewrite locate_id in Hcold by lia. cbn [fst] in Hbucket, Hcold.
    assert (current (CanonicalChain.finalize (Manager.chain_ (sc_manager sc)) (hi + 1)) = current (Manager.chain_ (sc_manager sc))) as ->
      by (unfold CanonicalChain.finalize; by destruct (1 <? hi + 1)%Z).
    eapply finalize_forgets; [exact Hcur|lia|lia|done|done]. }
  exists root, (with_root sc hi root). eexists. split; [exact Hstart|]. split.
  { unfold finish_pass, prune_delete. fold s2. by rewrite Hops. }
  cbn [with_store sc_store]. eapply latest_lost; [exact Hrd|done| |].
  - exact (pass_latest _ _ _ _ root Hpruned _).
  - unfold version_get, get. eapply (pass_dropped _ _ _ _ _ Hpruned i); [apply elem_of_seqZ; lia| |done].
    exists (sv_version rd). rewrite Hcanon. by split.
Qed.

(** Batches of new blocks that write nothing, one after the other, with what makes each due. *)
Fixpoint idle_blocks sc (l : list (Z * M)) : Result (@Scheduler Db M) :=
  match l with
  | [] => Ok sc
  | (i, md) :: l =>
      _ ← assert (bool_decide (Manager.id_of (sc_manager sc) (block_hash md) = None) && (next_id (sc_manager sc) =? i)%Z
        && (i <=? 2 ^ 62)%Z && (sink_tip sc <? i)%Z && is_ok (from_slice (borsh_to_vec md) : Result M));
      sc ← exec debug sc (Schedule md);
      sc ← exec debug sc (Commit false {| cp_index := i; cp_metadata := md |} []);
      idle_blocks sc l
  end.

Lemma reach_idle_blocks l : forall sc g sc',
  reachable debug sc g -> g_pending g = [] -> idle_blocks sc l = Ok sc' -> exists g', reachable debug sc' g' /\ g_pending g' = [].
Proof.
  induction l as [|[i md] l IH]; intros sc g sc' Hr Hp; cbn [idle_blocks]; [intros [= <-]; by exists g|].
  destruct (_ && _) eqn:Ec; cbn [assert mbind outcome_bind]; [|done]. rewrite !andb_true_iff, bool_decide_eq_true, Z.eqb_eq, Z.leb_le, Z.ltb_lt in Ec.
  destruct Ec as ((((Hid & Hn) & Hmax) & Ht) & Hmd).
  destruct (exec debug sc (Schedule md)) as [sc1| |] eqn:E1; cbn [mbind outcome_bind]; [|done..].
  destruct (exec debug sc1 _) as [sc2| |] eqn:E2; cbn [mbind outcome_bind]; [|done..].
  apply (IH sc2 (with_history (with_history g (g_hist g) (g_pending g ++ [bare i]) (next_canon (sc_manager sc) (g_canon g) (MAppend md)))
    (g_hist g ++ [bare i]) [] (next_canon (sc_manager sc) (g_canon g) (MAppend md)))); [|done].
  eapply (reach_idle _ sc1 (with_history g _ _ _) i [] {| cp_index := i; cp_metadata := md |}); [by eapply reach_new|cbn; by rewrite Hp|done| |exact E2].
  unfold readable. cbn [cp_metadata]. destruct (from_slice _) as [md'| |]; [by exists md'|done..].
Qed.
End interleaved.

(** Batch 2 of the run is rolled back, 298 idle batches follow, and the blocks below 200 are final. *)
Definition orphaned : @Scheduler kv Z := after demo6 (RollbackTo 1).
Definition idled : @Scheduler kv Z := or_else (idle_blocks true orphaned ((fun i => (i, i + 10)%Z) <$> seqZ 3 298)) blank.
Definition long_chain : @Scheduler kv Z := after idled (FinalizeBelow 200).

Lemma long_chain_reached : exists g, reachable true long_chain g /\ g_pending g = [].
Proof.
  destruct (reach_idle_blocks true ((fun i => (i, i + 10)%Z) <$> seqZ 3 298) orphaned
    (with_history ghost6 (not_above 1 (g_hist ghost6)) (not_above 1 (g_pending ghost6)) (filter (fun i => i <= 1)%Z (g_canon ghost6))) idled) as (g & Hr & Hp).
  - apply (reachable_step _ demo6 ghost6 (RollbackTo 1)); [apply demo_committed_again| |apply or_else_ok; evaluate].
    apply step_rollback; [vm_compute; discriminate|right; vm_compute; discriminate].
  - reflexivity.
  - apply or_else_ok. evaluate.
  - eexists. split; [eapply (reachable_step _ idled g (FinalizeBelow 200)); [exact Hr| |reflexivity]|].
    + apply step_finalize; vm_compute; [discriminate|reflexivity].
    + exact Hp.
Qed.

Lemma finalize_during_pruning_loses_data_witness :
  read_of (sc_store long_chain) rA = Some (1%Z, one) /\
  (exists sc', prune_pass long_chain = Ok sc' /\ read_of (sc_store (sink_finalize sc' 200)) rA = Some (1%Z, one)) /\
  (exists root sc1 sc2, start_pass long_chain = Ok (root, sc1) /\
     finish_pass (sink_finalize sc1 200) (cp_index (sc_root long_chain)) (PruningWorker.upper_bound (sc_pruning long_chain)) root = Ok sc2 /\
     read_of (sc_store sc2) rA = Some (1%Z, [])).
Proof.
  split; [evaluate|]. destruct long_chain_reached as (g & Hr & Hp).
  destruct (finalize_during_pruning_loses_data true long_chain g 200 2 rA (ver rA 1 one) Hr) as [(sc' & E & Hkeep) (root & sc1 & sc2 & E1 & E2 & Hlost)].
  - evaluate.
  - rewrite Hp. constructor.
  - vm_compute. discriminate.
  - vm_compute. split; discriminate.
  - evaluate.
  - evaluate.
  - discriminate.
  - evaluate.
  - evaluate.
  - evaluate.
  - split; [exists sc'; split; [exact E|by unfold read_of; rewrite Hkeep]|].
    exists root, sc1, sc2. split; [exact E1|]. split; [exact E2|]. by unfold read_of; rewrite Hlost.
Defined.
