(* ===== verification/SchedAccess.v ===== *)
(** * SchedAccess: parallel execution over resource chains

    [resource.rs], [resource_access.rs], [access_handle.rs], [scheduled_transaction.rs],
    [transaction_context.rs] and the execution side of [scheduled_batch.rs], [scheduler.rs] and
    [state_diff.rs]: every access to a resource waits for the previous one and hands its result to
    the next. The objects live in lists and refer to each other by position; references are alive,
    [upgrade] gives the object. A thread is the list of calls it still has to make, and any thread
    can be the next to run. Between two steps of a call every other thread may have run: after the
    link to the next access and before the look at the written state, after the written state and
    before the next access is taken. Setting a state, dropping the previous access and the copy for
    the diff are one step: the diff's copies are first looked at after the batch is processed, and
    what counts the transaction as done comes later in the same thread. The commit of a batch by
    the lifecycle worker and the write worker is one step; SchedMachine has the write queue.
    Batches that are restored from the store instead of executed are in SchedStore. *)

From S2P Require Import Prelude Codec Types SmtNode SmtTrie SmtUpdate SmtTree AtomicRing CanonicalChain RocksStore L1Types StateSpaces SchedStore SchedCore SchedProofs.

(** ** Objects *)

(** The fields of [ResourceAccess] that never change, and the cells. *)
Record access_info := { ai_metadata : AccessMetadata; ai_tx : nat; ai_diff : nat }.

Record ResourceAccess := {
  ra_info : access_info;
  ra_is_batch_head : bool;
  ra_is_batch_tail : bool;
  ra_read : option Version;
  ra_written : option Version;
  ra_prev : option nat;
  ra_next : option nat
}.

(** [StateDiff]: its batch, resource and index, and the two states. *)
Record diff_info := { di_batch : nat; di_resource_id : ResourceId; di_index : Z }.
Record diff_cell := { dc_info : diff_info; dc_read : option Version; dc_written : option Version }.

Definition ai_rid (x : access_info) : ResourceId := resource_id (ai_metadata x).
Definition ra_rid (x : ResourceAccess) : ResourceId := ai_rid (ra_info x).

Definition state_diff (c : diff_cell) : StateDiff :=
  {| sd_resource_id := di_resource_id (dc_info c); sd_index := di_index (dc_info c); sd_read := dc_read c; sd_written := dc_written c |}.

(** What a processor does to a handle. *)
Inductive edit := DataMut (data : bytes) | SetData (data : bytes).

Definition edit_version (batch_index : Z) (v : Version) (e : edit) : Version :=
  match e with
  | DataMut data => data_mut v batch_index data
  | SetData data => set_data v batch_index data
  end.
Definition apply_edits (batch_index : Z) (v : Version) (es : list edit) : Version := foldl (edit_version batch_index) v es.

(** [sort_unstable_by_key]. *)
Definition relation_of_index (index : nat -> Z) (d d' : nat) : Prop := (index d <= index d')%Z.
#[export] Instance relation_of_index_dec index d d' : Decision (relation_of_index index d d').
Proof. unfold relation_of_index. apply _. Defined.

(** What is left of a call. *)
Inductive call :=
| Connect (a : nat)
| AfterLink (a prev : nat)
| SetRead (a : nat) (v : Version)
| SetWritten (a : nat) (v : Version)
| Forward (a : nat) (v : Version)
| DecreasePendingResources (t : nat)
| PushAvailable (t : nat)
| DecreasePendingTxs (t : nat).

Section execution.
Context {Tx M : Type}.

(** [Processor::process_transaction]: the edits of every handle, from the batch's metadata, the
    position, the transaction and the handles' data, or an error. Versions are not looked at. *)
Abbreviation processor := (M -> nat -> SchedulerTransaction Tx -> list bytes -> option (list (list edit))).
Context (process : processor).

Record tx_info := {
  ti_batch : nat;
  ti_checkpoint : Checkpoint M;
  ti_position : nat;
  ti_tx : SchedulerTransaction Tx;
  ti_resources : list nat
}.
Record ScheduledTransaction := { st_info : tx_info; st_pending_resources : Z }.

Record batch_info := { bi_checkpoint : Checkpoint M; bi_txs : list nat; bi_diffs : list nat }.
Record ScheduledBatch := { sb_info : batch_info; sb_pending_txs : Z; sb_processed : bool; sb_committed : bool }.

(** Everything the threads share. [w_available] collects the batches' queues of ready
    transactions, [w_latest] is the state the latest pointers of the store give, [w_threshold] the
    cancel threshold of the batches' context. *)
Record World := {
  w_accesses : list ResourceAccess;
  w_diffs : list diff_cell;
  w_txs : list ScheduledTransaction;
  w_batches : list ScheduledBatch;
  w_resources : gmap ResourceId nat;
  w_reads : list nat;
  w_available : list nat;
  w_writes : list nat;
  w_lifecycle : list nat;
  w_evictions : list ResourceId;
  w_threshold : Z;
  w_latest : vstate;
  w_threads : list (list call)
}.

Definition with_accesses (w : World) l : World :=
  {| w_accesses := l; w_diffs := w_diffs w; w_txs := w_txs w; w_batches := w_batches w; w_resources := w_resources w;
     w_reads := w_reads w; w_available := w_available w; w_writes := w_writes w; w_lifecycle := w_lifecycle w;
     w_evictions := w_evictions w; w_threshold := w_threshold w; w_latest := w_latest w; w_threads := w_threads w |}.
Definition with_diffs (w : World) l : World :=
  {| w_accesses := w_accesses w; w_diffs := l; w_txs := w_txs w; w_batches := w_batches w; w_resources := w_resources w;
     w_reads := w_reads w; w_available := w_available w; w_writes := w_writes w; w_lifecycle := w_lifecycle w;
     w_evictions := w_evictions w; w_threshold := w_threshold w; w_latest := w_latest w; w_threads := w_threads w |}.
Definition with_txs (w : World) l : World :=
  {| w_accesses := w_accesses w; w_diffs := w_diffs w; w_txs := l; w_batches := w_batches w; w_resources := w_resources w;
     w_reads := w_reads w; w_available := w_available w; w_writes := w_writes w; w_lifecycle := w_lifecycle w;
     w_evictions := w_evictions w; w_threshold := w_threshold w; w_latest := w_latest w; w_threads := w_threads w |}.
Definition with_batches (w : World) l : World :=
  {| w_accesses := w_accesses w; w_diffs := w_diffs w; w_txs := w_txs w; w_batches := l; w_resources := w_resources w;
     w_reads := w_reads w; w_available := w_available w; w_writes := w_writes w; w_lifecycle := w_lifecycle w;
     w_evictions := w_evictions w; w_threshold := w_threshold w; w_latest := w_latest w; w_threads := w_threads w |}.
Definition with_resources (w : World) m : World :=
  {| w_accesses := w_accesses w; w_diffs := w_diffs w; w_txs := w_txs w; w_batches := w_batches w; w_resources := m;
     w_reads := w_reads w; w_available := w_available w; w_writes := w_writes w; w_lifecycle := w_lifecycle w;
     w_evictions := w_evictions w; w_threshold := w_threshold w; w_latest := w_latest w; w_threads := w_threads w |}.
Definition with_queues (w : World) reads available writes : World :=
  {| w_accesses := w_accesses w; w_diffs := w_diffs w; w_txs := w_txs w; w_batches := w_batches w; w_resources := w_resources w;
     w_reads := reads; w_available := available; w_writes := writes; w_lifecycle := w_lifecycle w;
     w_evictions := w_evictions w; w_threshold := w_threshold w; w_latest := w_latest w; w_threads := w_threads w |}.
Definition with_lifecycle (w : World) queue evictions latest : World :=
  {| w_accesses := w_accesses w; w_diffs := w_diffs w; w_txs := w_txs w; w_batches := w_batches w; w_resources := w_resources w;
     w_reads := w_reads w; w_available := w_available w; w_writes := w_writes w; w_lifecycle := queue;
     w_evictions := evictions; w_threshold := w_threshold w; w_latest := latest; w_threads := w_threads w |}.
Definition with_threads (w : World) l : World :=
  {| w_accesses := w_accesses w; w_diffs := w_diffs w; w_txs := w_txs w; w_batches := w_batches w; w_resources := w_resources w;
     w_reads := w_reads w; w_available := w_available w; w_writes := w_writes w; w_lifecycle := w_lifecycle w;
     w_evictions := w_evictions w; w_threshold := w_threshold w; w_latest := w_latest w; w_threads := l |}.

Definition push_read (w : World) (a : nat) : World := with_queues w (w_reads w ++ [a]) (w_available w) (w_writes w).
Definition push_available (w : World) (t : nat) : World := with_queues w (w_reads w) (w_available w ++ [t]) (w_writes w).
Definition push_write (w : World) (d : nat) : World := with_queues w (w_reads w) (w_available w) (w_writes w ++ [d]).
Definition spawn (w : World) (thread : list call) : World := with_threads w (w_threads w ++ [thread]).

(** [ScheduledBatch::canceled]. *)
Definition batch_canceled (w : World) (b : nat) : bool :=
  from_option (fun x => w_threshold w <? cp_index (bi_checkpoint (sb_info x)))%Z false (w_batches w !! b).

(** ** The cells *)

Definition store_next (x : ResourceAccess) (next : option nat) : ResourceAccess :=
  {| ra_info := ra_info x; ra_is_batch_head := ra_is_batch_head x; ra_is_batch_tail := ra_is_batch_tail x;
     ra_read := ra_read x; ra_written := ra_written x; ra_prev := ra_prev x; ra_next := next |}.
(** The reference to the previous access is dropped once the state is known. *)
Definition store_read (x : ResourceAccess) (v : Version) : ResourceAccess :=
  {| ra_info := ra_info x; ra_is_batch_head := ra_is_batch_head x; ra_is_batch_tail := ra_is_batch_tail x;
     ra_read := Some v; ra_written := ra_written x; ra_prev := None; ra_next := ra_next x |}.
Definition store_written (x : ResourceAccess) (v : Version) : ResourceAccess :=
  {| ra_info := ra_info x; ra_is_batch_head := ra_is_batch_head x; ra_is_batch_tail := ra_is_batch_tail x;
     ra_read := ra_read x; ra_written := Some v; ra_prev := ra_prev x; ra_next := ra_next x |}.

(** [StateDiff::set_read_state]. *)
Definition diff_set_read (w : World) (d : nat) (v : Version) : Result World :=
  c ← expect (w_diffs w !! d);
  Ok (with_diffs w (<[d := {| dc_info := dc_info c; dc_read := Some v; dc_written := dc_written c |}]> (w_diffs w))).

(** [StateDiff::set_written_state], with [ScheduledBatch::submit_write]. *)
Definition diff_set_written (w : World) (d : nat) (v : Version) : Result World :=
  c ← expect (w_diffs w !! d);
  let w := with_diffs w (<[d := {| dc_info := dc_info c; dc_read := dc_read c; dc_written := Some v |}]> (w_diffs w)) in
  Ok (if batch_canceled w (di_batch (dc_info c)) then w else push_write w d).

(** ** Calls *)

(** [ResourceAccess::connect], up to the link. *)
Definition connect_access (w : World) (a : nat) : Result (World * list call) :=
  x ← expect (w_accesses w !! a);
  match ra_prev x with
  | Some prev =>
      p ← expect (w_accesses w !! prev);
      Ok (with_accesses w (<[prev := store_next p (Some a)]> (w_accesses w)), [AfterLink a prev])
  | None => Ok (push_read w a, [])
  end.

(** The look at the previous access's result after the link. *)
Definition after_link (w : World) (a prev : nat) : Result (World * list call) :=
  p ← expect (w_accesses w !! prev);
  Ok (w, match ra_written p with Some v => [SetRead a v] | None => [] end).

(** [ResourceAccess::set_read_state]. *)
Definition set_read_state (w : World) (a : nat) (v : Version) : Result (World * list call) :=
  x ← expect (w_accesses w !! a);
  match ra_read x with
  | Some _ => Ok (w, [])
  | None =>
      let w := with_accesses w (<[a := store_read x v]> (w_accesses w)) in
      w ← (if ra_is_batch_head x then diff_set_read w (ai_diff (ra_info x)) v else Ok w);
      Ok (w, match access_type (ai_metadata (ra_info x)) with Read => [SetWritten a v] | Write => [] end ++
             [DecreasePendingResources (ai_tx (ra_info x))])
  end.

(** [ResourceAccess::set_written_state], up to the next access. *)
Definition set_written_state (w : World) (a : nat) (v : Version) : Result (World * list call) :=
  x ← expect (w_accesses w !! a);
  match ra_written x with
  | Some _ => Ok (w, [])
  | None =>
      let w := with_accesses w (<[a := store_written x v]> (w_accesses w)) in
      w ← (if ra_is_batch_tail x then diff_set_written w (ai_diff (ra_info x)) v else Ok w);
      Ok (w, [Forward a v])
  end.

(** The next access is taken and gets the result. *)
Definition forward_written (w : World) (a : nat) (v : Version) : Result (World * list call) :=
  x ← expect (w_accesses w !! a);
  Ok (with_accesses w (<[a := store_next x None]> (w_accesses w)),
      match ra_next x with Some next => [SetRead next v] | None => [] end).

(** [ScheduledTransaction::decrease_pending_resources]. *)
Definition decrease_pending_resources (w : World) (t : nat) : Result (World * list call) :=
  x ← expect (w_txs w !! t);
  let w := with_txs w (<[t := {| st_info := st_info x; st_pending_resources := st_pending_resources x - 1 |}]> (w_txs w)) in
  Ok (if (st_pending_resources x =? 1)%Z then push_available w t else w, []).

(** [ScheduledBatch::decrease_pending_txs]. *)
Definition decrease_pending_txs (w : World) (t : nat) : Result (World * list call) :=
  x ← expect (w_txs w !! t);
  b ← expect (w_batches w !! ti_batch (st_info x));
  Ok (with_batches w (<[ti_batch (st_info x) :=
        {| sb_info := sb_info b; sb_pending_txs := sb_pending_txs b - 1;
           sb_processed := sb_processed b || (sb_pending_txs b =? 1)%Z; sb_committed := sb_committed b |}]> (w_batches w)), []).

(** One step of a call: what is stored, and the calls it makes next. *)
Definition step_call (w : World) (c : call) : Result (World * list call) :=
  match c with
  | Connect a => connect_access w a
  | AfterLink a prev => after_link w a prev
  | SetRead a v => set_read_state w a v
  | SetWritten a v => set_written_state w a v
  | Forward a v => forward_written w a v
  | DecreasePendingResources t => decrease_pending_resources w t
  | PushAvailable t => Ok (push_available w t, [])
  | DecreasePendingTxs t => decrease_pending_txs w t
  end.

(** ** scheduled_transaction.rs *)

(** [AccessHandle::new]: the handle's access, its type and the state it starts from. *)
Definition handle (w : World) (a : nat) : Result (nat * AccessType * Version) :=
  x ← expect (w_accesses w !! a);
  v ← expect (ra_read x);
  Ok (a, access_type (ai_metadata (ra_info x)), v).

(** [commit_changes] and [rollback_changes] of a handle. *)
Definition store_handle (h : nat * AccessType * Version) (v : Version) : list call :=
  match h.1.2 with Write => [SetWritten h.1.1 v] | Read => [] end.

(** The states of the handles after processing. *)
Definition edited (checkpoint : Checkpoint M) (position : nat) (tx : SchedulerTransaction Tx) (values : list Version) : list Version :=
  match process (cp_metadata checkpoint) position tx (sv_data <$> values) with
  | Some es => imap (fun k v => apply_edits (cp_index checkpoint) v (default [] (es !! k))) values
  | None => values
  end.

(** [ScheduledTransaction::execute]. *)
Definition execute (w : World) (t : nat) : Result (list call) :=
  x ← expect (w_txs w !! t);
  handles ← mapM_outcome (handle w) (ti_resources (st_info x));
  let values := handles.*2 in
  let i := st_info x in
  let values := if batch_canceled w (ti_batch i) then values else edited (ti_checkpoint i) (ti_position i) (ti_tx i) values in
  Ok (concat (zip_with store_handle handles values) ++ [DecreasePendingTxs t]).

(** ** resource.rs and [Scheduler::resources] *)

(** [ScheduledTransactionRef::belongs_to_batch]; a transaction that is being built is not there. *)
Definition belongs_to_batch (w : World) (t b : nat) : bool :=
  from_option (fun x => ti_batch (st_info x) =? b) false (w_txs w !! t).

Definition clear_tail (x : ResourceAccess) : ResourceAccess :=
  {| ra_info := ra_info x; ra_is_batch_head := ra_is_batch_head x; ra_is_batch_tail := false;
     ra_read := ra_read x; ra_written := ra_written x; ra_prev := ra_prev x; ra_next := ra_next x |}.

(** [ResourceAccess::new]: appends the access and returns whether it is the first of its diff. *)
Definition new_access (w : World) (m : AccessMetadata) (t d : nat) (prev : option nat) : Result (World * bool) :=
  '(accesses, head) ←
    match prev with
    | Some p =>
        x ← expect (w_accesses w !! p);
        Ok (if ai_diff (ra_info x) =? d then (<[p := clear_tail x]> (w_accesses w), false) else (w_accesses w, true))
    | None => Ok (w_accesses w, true)
    end;
  Ok (with_accesses w (accesses ++
        [{| ra_info := {| ai_metadata := m; ai_tx := t; ai_diff := d |}; ra_is_batch_head := head; ra_is_batch_tail := true;
            ra_read := None; ra_written := None; ra_prev := prev; ra_next := None |}]), head).

(** [Resource::access]: links an access of transaction [t] of batch [b] into the chain of its
    resource. *)
Definition resource_access (w : World) (b t : nat) (index : Z) (m : AccessMetadata) : Result (World * nat * bool) :=
  let prev := w_resources w !! resource_id m in
  let fresh := (length (w_diffs w),
    with_diffs w (w_diffs w ++ [{| dc_info := {| di_batch := b; di_resource_id := resource_id m; di_index := index |};
                                   dc_read := None; dc_written := None |}])) in
  '(d, w) ←
    match prev with
    | Some p =>
        x ← expect (w_accesses w !! p);
        if belongs_to_batch w (ai_tx (ra_info x)) b
        then _ ← assert (negb (ai_tx (ra_info x) =? t)); Ok (ai_diff (ra_info x), w)
        else Ok fresh
    | None => Ok fresh
    end;
  '(w, head) ← new_access w m t d prev;
  Ok (with_resources w (<[resource_id m := length (w_accesses w) - 1]> (w_resources w)), d, head).

(** [Scheduler::resources]: the accesses of a transaction, and the diffs it is the first to touch. *)
Fixpoint resources (w : World) (b t : nat) (index_of : ResourceId -> Z) (ms : list AccessMetadata) : Result (World * list nat * list nat) :=
  match ms with
  | [] => Ok (w, [], [])
  | m :: ms =>
      '(w, d, head) ← resource_access w b t (index_of (resource_id m)) m;
      let a := length (w_accesses w) - 1 in
      '(w, accesses, diffs) ← resources w b t index_of ms;
      Ok (w, a :: accesses, (if head : bool then [d] else []) ++ diffs)
  end.

(** ** scheduled_batch.rs *)

(** [ScheduledTransaction::new] for the transactions of a batch from a position on. *)
Fixpoint new_txs (w : World) (b : nat) (checkpoint : Checkpoint M) (position : nat) (index_of : ResourceId -> Z)
    (txs : list (SchedulerTransaction Tx)) : Result (World * list nat) :=
  match txs with
  | [] => Ok (w, [])
  | tx :: txs =>
      let t := length (w_txs w) in
      '(w, accesses, diffs) ← resources w b t index_of (tx_resources tx);
      let w := with_txs w (w_txs w ++
        [{| st_info := {| ti_batch := b; ti_checkpoint := checkpoint; ti_position := position; ti_tx := tx; ti_resources := accesses |};
            st_pending_resources := Z.of_nat (length accesses) |}]) in
      '(w, diffs') ← new_txs w b checkpoint (S position) index_of txs;
      Ok (w, diffs ++ diffs')
  end.

(** The batch's resources in ascending order give the indices. *)
Definition resource_index (txs : list (SchedulerTransaction Tx)) (r : ResourceId) : Z :=
  Z.of_nat (length (filter (fun r' => key_ltb r' r = true) (remove_dups (resource_id <$> concat (tx_resources <$> txs))))).

Definition diff_index (w : World) (d : nat) : Z := from_option (fun c => di_index (dc_info c)) 0%Z (w_diffs w !! d).

(** The batch's diffs in index order. *)
Definition sort_diffs (w : World) (diffs : list nat) : list nat :=
  merge_sort (relation_of_index (diff_index w)) diffs.

(** [ScheduledBatch::connect]. *)
Definition connect (w : World) (txs : list nat) : list call :=
  concat ((fun t => match ti_resources ∘ st_info <$> w_txs w !! t with
                    | Some [] => [PushAvailable t]
                    | Some accesses => Connect <$> accesses
                    | None => [] end) <$> txs).

(** [Scheduler::schedule] from the checkpoint on, for a batch that is executed. *)
Definition schedule (w : World) (checkpoint : Checkpoint M) (txs : list (SchedulerTransaction Tx)) : Result World :=
  let b := length (w_batches w) in
  let ids := seq (length (w_txs w)) (length txs) in
  '(w, diffs) ← new_txs w b checkpoint 0 (resource_index txs) txs;
  let batch := {| sb_info := {| bi_checkpoint := checkpoint; bi_txs := ids;
                                bi_diffs := sort_diffs w diffs |};
                  sb_pending_txs := Z.of_nat (length txs);
                  sb_processed := match txs with [] => true | _ => false end; sb_committed := false |} in
  let w := with_lifecycle (with_batches w (w_batches w ++ [batch])) (w_lifecycle w ++ [b]) (w_evictions w) (w_latest w) in
  Ok (spawn w (connect w ids)).

(** What the latest pointer of a resource gives after a version is committed. *)
Definition store_version (v : Version) (σ : vstate) : vstate :=
  if is_empty (sv_data v) then delete (sv_resource_id v) σ else <[sv_resource_id v := (sv_version v, sv_data v)]> σ.

Definition commit_latest (σ : vstate) (ds : list StateDiff) : Result vstate :=
  updated ← updated_state_diffs ds;
  written ← mapM_outcome written_state updated;
  Ok (foldl (fun σ v => store_version v σ) σ written).

(** The lifecycle worker and the write worker with the oldest batch: [wait_processed],
    [schedule_commit], [commit] and [commit_done], in one step. Of what a commit writes this is the
    latest data; the tree, the metadata and the pointers are in [SchedStore.batch_commit]. [None]
    while it waits. *)
Definition commit_next (w : World) : option (Result World) :=
  match w_lifecycle w with
  | [] => None
  | b :: queue =>
      match w_batches w !! b with
      | None => None
      | Some x =>
          if batch_canceled w b then Some (Ok (with_lifecycle w queue (w_evictions w) (w_latest w)))
          else if sb_processed x then Some (
            cells ← mapM_outcome (fun d => expect (w_diffs w !! d)) (bi_diffs (sb_info x));
            latest ← commit_latest (w_latest w) (state_diff <$> cells);
            Ok (with_lifecycle (with_batches w (<[b := {| sb_info := sb_info x; sb_pending_txs := sb_pending_txs x;
                                                          sb_processed := true; sb_committed := true |}]> (w_batches w)))
                  queue (w_evictions w ++ ((fun c => di_resource_id (dc_info c)) <$> cells)) latest))
          else None
      end
  end.

(** [Resource::should_evict]. *)
Definition should_evict (w : World) (a : nat) : bool :=
  from_option (fun x => from_option (fun c => from_option sb_committed true (w_batches w !! di_batch (dc_info c))) true
                          (w_diffs w !! ai_diff (ra_info x))) true (w_accesses w !! a).

(** One round of [process_eviction_queue]. *)
Definition evict_next (w : World) : option World :=
  match w_evictions w with
  | [] => None
  | r :: evictions =>
      let w := with_lifecycle w (w_lifecycle w) evictions (w_latest w) in
      Some (match w_resources w !! r with
            | Some a => if should_evict w a then with_resources w (delete r (w_resources w)) else w
            | None => w
            end)
  end.

(** A rollback to [target]: cancels the batches above it and clears the cache. The store then gives
    [latest]. *)
Definition cancel (w : World) (target : Z) (latest : vstate) : World :=
  {| w_accesses := w_accesses w; w_diffs := w_diffs w; w_txs := w_txs w; w_batches := w_batches w; w_resources := ∅;
     w_reads := w_reads w; w_available := w_available w; w_writes := w_writes w; w_lifecycle := w_lifecycle w;
     w_evictions := w_evictions w; w_threshold := target; w_latest := latest; w_threads := w_threads w |}.

(** ** Interleavings *)

(** What can happen next: a thread takes a step, a read worker serves a read, an execution worker
    takes a transaction, and what the scheduler's thread and the lifecycle worker do. *)
Inductive action :=
| Run (i : nat)
| ServeRead (k : nat)
| Execute (k : nat)
| ScheduleBatch (checkpoint : Checkpoint M) (txs : list (SchedulerTransaction Tx))
| CommitNext
| EvictNext
| Cancel (target : Z) (latest : vstate).

(** [ResourceAccess::read_latest_data] for one of the requested reads. *)
Definition serve_read (w : World) (k : nat) : option (Result World) :=
  a ← w_reads w !! k;
  Some (x ← expect (w_accesses w !! a);
        Ok (spawn (with_queues w (delete k (w_reads w)) (w_available w) (w_writes w))
                  [SetRead a (version_of (w_latest w) (ra_rid x))])).

(** [ManagerTask::execute] for one of the transactions that are ready. *)
Definition run_task (w : World) (k : nat) : option (Result World) :=
  t ← w_available w !! k;
  Some (calls ← execute w t;
        Ok (spawn (with_queues w (w_reads w) (delete k (w_available w)) (w_writes w)) calls)).

(** [None]: there is nothing to do. *)
Definition fire (w : World) (e : action) : option (Result World) :=
  match e with
  | Run i =>
      match w_threads w !! i with
      | Some (c :: rest) =>
          Some ('(w, calls) ← step_call w c; Ok (with_threads w (<[i := calls ++ rest]> (w_threads w))))
      | _ => None
      end
  | ServeRead k => serve_read w k
  | Execute k => run_task w k
  | ScheduleBatch checkpoint txs => Some (schedule w checkpoint txs)
  | CommitNext => commit_next w
  | EvictNext => Ok <$> evict_next w
  | Cancel target latest => Some (Ok (cancel w target latest))
  end.

(** The store as the scheduler finds it. *)
Definition initial (latest : vstate) : World :=
  {| w_accesses := []; w_diffs := []; w_txs := []; w_batches := []; w_resources := ∅; w_reads := []; w_available := [];
     w_writes := []; w_lifecycle := []; w_evictions := []; w_threshold := CancellationContext.U64_MAX; w_latest := latest; w_threads := [] |}.

(** ** Sequential execution *)

Definition job : Type := Checkpoint M * nat * SchedulerTransaction Tx.

(** One transaction on the state the previous ones left. *)
Definition store_all (σ : vstate) (vs : list Version) : vstate := foldl (fun σ v => store_version v σ) σ vs.
Definition run_job (σ : vstate) (j : job) : vstate :=
  let '(checkpoint, position, tx) := j in
  let after := edited checkpoint position tx (version_of σ ∘ resource_id <$> tx_resources tx) in
  store_all σ (concat (zip_with (fun m v => match access_type m with Write => [v] | Read => [] end) (tx_resources tx) after)).
Definition run_jobs (σ : vstate) (js : list job) : vstate := foldl run_job σ js.

(** The transactions of a sequence of batches, in order. *)
Definition jobs_of (bs : list (Checkpoint M * list (SchedulerTransaction Tx))) : list job :=
  concat ((fun '(checkpoint, txs) => imap (fun k tx => (checkpoint, k, tx)) txs) <$> bs).
Definition run_batches (σ : vstate) (bs : list (Checkpoint M * list (SchedulerTransaction Tx))) : vstate := run_jobs σ (jobs_of bs).
End execution.
