(* ===== verification/SchedSerial.v ===== *)
(** * SchedSerial: what parallel execution computes

    Every state that flows along a chain of accesses is the one of the sequential execution of all
    transactions in the order of their scheduling, whatever the interleaving of the threads. *)

From S2P Require Import Prelude Codec Types SmtNode SmtTrie SmtUpdate SmtTree AtomicRing CanonicalChain RocksStore L1Types StateSpaces SchedStore SchedCore SchedProofs SchedAccess.

(** ** Sequential execution *)

(** Versions that differ at most in the version number of empty data. *)
Definition like (v v' : Version) : Prop :=
  sv_resource_id v = sv_resource_id v' /\ sv_data v = sv_data v' /\ (sv_data v <> [] -> sv_version v = sv_version v').

Definition clean (σ : vstate) : Prop := forall r v x, σ !! r = Some (v, x) -> x <> [].

#[export] Instance like_equivalence : Equivalence like.
Proof.
  split.
  - done.
  - intros v v' (? & Hd & Hv). split; [done|]. split; [done|]. rewrite <- Hd. intros ?. symmetry. by apply Hv.
  - intros v v' v'' (? & Hd & Hv) (? & Hd' & Hv'). split; [congruence|]. split; [congruence|]. intros ?.
    rewrite Hv by done. apply Hv'. by rewrite <- Hd.
Qed.

Lemma version_of_rid σ r : sv_resource_id (version_of σ r) = r.
Proof. unfold version_of. by destruct (σ !! r) as [[v x]|]. Qed.

Lemma reads_from_like σ v : reads_from σ v <-> like v (version_of σ (sv_resource_id v)).
Proof.
  unfold reads_from, like, version_of, old_version. destruct (σ !! sv_resource_id v) as [[n x]|]; cbn; naive_solver.
Qed.

Lemma reads_from_version_of σ r : reads_from σ (version_of σ r).
Proof. apply reads_from_like. by rewrite version_of_rid. Qed.

Lemma reads_from_ext σ σ' v : σ !! sv_resource_id v = σ' !! sv_resource_id v -> reads_from σ v -> reads_from σ' v.
Proof. unfold reads_from, old_version. by intros ->. Qed.

(** A value determines the entry it was read from. *)
Lemma reads_from_entry σ σ' v : clean σ -> clean σ' -> reads_from σ v -> reads_from σ' v -> σ !! sv_resource_id v = σ' !! sv_resource_id v.
Proof.
  unfold reads_from, old_version. intros Hc Hc' [Hd Hv] [Hd' Hv'].
  destruct (σ !! sv_resource_id v) as [[n x]|] eqn:E, (σ' !! sv_resource_id v) as [[n' x']|] eqn:E'; cbn in *; [| | |done].
  - pose proof (Hc _ _ _ E). subst x. rewrite Hd' in *. rewrite <- Hv, <- Hv' by done. done.
  - by pose proof (Hc _ _ _ E); congruence.
  - by pose proof (Hc' _ _ _ E'); congruence.
Qed.

Lemma lookup_store_version v σ r :
  store_version v σ !! r =
  if decide (sv_resource_id v = r) then (if is_empty (sv_data v) then None else Some (sv_version v, sv_data v)) else σ !! r.
Proof.
  unfold store_version. destruct (is_empty (sv_data v)), (decide _) as [<-|Hne].
  - by rewrite lookup_delete_eq.
  - by rewrite lookup_delete_ne.
  - by rewrite lookup_insert_eq.
  - by rewrite lookup_insert_ne.
Qed.

Lemma clean_store_version v σ : clean σ -> clean (store_version v σ).
Proof.
  intros Hc r n x. rewrite lookup_store_version. case_decide; [|by apply Hc]. by destruct (sv_data v) eqn:E; [|intros [= <- <-]].
Qed.
Lemma clean_store_all vs : forall σ, clean σ -> clean (store_all σ vs).
Proof. induction vs as [|v vs IH]; intros σ Hc; [done|]. by apply IH, clean_store_version. Qed.

Lemma store_version_reads v σ : reads_from (store_version v σ) v.
Proof.
  unfold reads_from, old_version. rewrite lookup_store_version, decide_True by done. by destruct (sv_data v) eqn:E; cbn.
Qed.

Lemma store_all_other vs r : forall σ, r ∉ sv_resource_id <$> vs -> store_all σ vs !! r = σ !! r.
Proof.
  induction vs as [|v vs IH]; intros σ Hr; [done|]. cbn in *. apply not_elem_of_cons in Hr as [Hne Hr].
  unfold store_all in *. cbn [foldl]. rewrite IH by done. by rewrite lookup_store_version, decide_False.
Qed.
Lemma store_all_reads vs v : NoDup (sv_resource_id <$> vs) -> v ∈ vs -> forall σ, reads_from (store_all σ vs) v.
Proof.
  induction vs as [|v' vs IH]; cbn; intros Hnd Hv σ; [by apply not_elem_of_nil in Hv|]. apply NoDup_cons in Hnd as [Hn Hnd].
  apply elem_of_cons in Hv as [->|Hv].
  - eapply reads_from_ext; [|apply (store_version_reads v' σ)]. unfold store_all. cbn [foldl]. symmetry. by apply (store_all_other vs).
  - unfold store_all. cbn [foldl]. by apply (IH Hnd Hv).
Qed.

Lemma apply_edit_rid i v e : sv_resource_id (edit_version i v e) = sv_resource_id v.
Proof. destruct e as [data|data]; [done|]. cbn. unfold set_data. by case_bool_decide. Qed.
Lemma apply_edits_rid i es : forall v, sv_resource_id (apply_edits i v es) = sv_resource_id v.
Proof. induction es as [|e es IH]; intros v; [done|]. unfold apply_edits in *. cbn [foldl]. by rewrite IH, apply_edit_rid. Qed.

(** A handle keeps its state or takes the version of the batch. *)
Lemma apply_edits_version i es : forall v, apply_edits i v es = v \/ sv_version (apply_edits i v es) = i.
Proof.
  induction es as [|e es IH] using rev_ind; intros v; [by left|]. unfold apply_edits in *. rewrite foldl_app. cbn [foldl].
  destruct e as [data|data]; [by right|]. cbn. unfold set_data. case_bool_decide; [apply IH|by right].
Qed.

Lemma apply_edit_like i e v v' : like v v' -> like (edit_version i v e) (edit_version i v' e).
Proof.
  intros (Hr & Hd & Hv). destruct e as [data|data]; cbn; [done|]. unfold set_data. rewrite <- Hd. by case_bool_decide.
Qed.
Lemma apply_edits_like i es : forall v v', like v v' -> like (apply_edits i v es) (apply_edits i v' es).
Proof. induction es as [|e es IH]; intros v v' Hl; [done|]. unfold apply_edits in *. cbn [foldl]. by apply IH, apply_edit_like. Qed.

Section serial.
Context {Tx M : Type} (process : M -> nat -> SchedulerTransaction Tx -> list bytes -> option (list (list edit))).


Lemma edited_length cp k tx vs : length (edited process cp k tx vs) = length vs.
Proof. unfold edited. destruct (process _ _ _ _); [|done]. by rewrite length_imap. Qed.

Lemma edited_lookup cp k tx vs j v :
  vs !! j = Some v -> exists v', edited process cp k tx vs !! j = Some v' /\ sv_resource_id v' = sv_resource_id v /\
    (v' = v \/ sv_version v' = cp_index cp).
Proof.
  intros Hv. unfold edited. destruct (process _ _ _ _) as [es|]; [|by exists v; auto].
  rewrite list_lookup_imap, Hv. cbn. eexists. split; [done|]. split; [apply apply_edits_rid|apply apply_edits_version].
Qed.

Lemma edited_like cp k tx vs vs' : Forall2 like vs vs' -> Forall2 like (edited process cp k tx vs) (edited process cp k tx vs').
Proof.
  intros Hl. unfold edited.
  assert (sv_data <$> vs = sv_data <$> vs') as -> by (induction Hl as [|v v' vs vs' (_ & Hd & _) _ IH]; cbn; congruence).
  destruct (process _ _ _ _) as [es|]; [|done]. apply Forall2_same_length_lookup. split.
  - rewrite !length_imap. by eapply Forall2_length.
  - intros j v v'. rewrite !list_lookup_imap. intros (u & Eu & ->)%fmap_Some (u' & Eu' & ->)%fmap_Some.
    apply apply_edits_like. by eapply Forall2_lookup_lr.
Qed.

(** The versions a transaction stores. *)
Definition written_versions (ms : list AccessMetadata) (vs : list Version) : list Version :=
  concat (zip_with (fun m v => match access_type m with Write => [v] | Read => [] end) ms vs).

Lemma written_versions_elem ms vs v :
  v ∈ written_versions ms vs <-> exists j m, ms !! j = Some m /\ vs !! j = Some v /\ access_type m = Write.
Proof.
  unfold written_versions. revert vs. induction ms as [|m ms IH]; intros [|v' vs]; cbn.
  - split; [by intros ?%not_elem_of_nil|naive_solver].
  - split; [by intros ?%not_elem_of_nil|naive_solver].
  - split; [by intros ?%not_elem_of_nil|]. intros ([|j] & ? & ? & ? & ?); naive_solver.
  - rewrite elem_of_app, IH. split.
    + intros [Hv|(j & m' & ? & ? & ?)]; [|by exists (S j), m'].
      destruct (access_type m) eqn:E; [by apply not_elem_of_nil in Hv|]. apply list_elem_of_singleton in Hv as ->. by exists 0, m.
    + intros ([|j] & m' & Hm & Hv & Hw); cbn in *; [|by right; exists j, m']. simplify_eq. left. rewrite Hw. by apply list_elem_of_singleton.
Qed.

Lemma written_versions_rids ms vs :
  Forall2 (fun m v => sv_resource_id v = resource_id m) ms vs -> NoDup (resource_id <$> ms) ->
  NoDup (sv_resource_id <$> written_versions ms vs) /\ forall v, v ∈ written_versions ms vs -> sv_resource_id v ∈ resource_id <$> ms.
Proof.
  intros Hf. induction Hf as [|m v ms vs Hr Hf IH]; cbn; intros Hnd; [split; [constructor|by intros ? ?%not_elem_of_nil]|].
  apply NoDup_cons in Hnd as [Hn Hnd]. destruct (IH Hnd) as [IH1 IH2]. unfold written_versions in *. cbn [zip_with concat].
  destruct (access_type m); cbn [app fmap list_fmap].
  - split; [done|]. intros v' Hv'. apply elem_of_cons. right. by apply IH2.
  - split.
    + apply NoDup_cons. split; [|done]. intros (v' & E & Hv')%list_elem_of_fmap. apply Hn. rewrite <- Hr, E. by apply IH2.
    + intros v' [->|Hv']%elem_of_cons; apply elem_of_cons; [by left|]. right. by apply IH2.
Qed.

Lemma run_job_eq σ cp k tx :
  run_job process σ (cp, k, tx) =
  store_all σ (written_versions (tx_resources tx) (edited process cp k tx (version_of σ ∘ resource_id <$> tx_resources tx))).
Proof. done. Qed.

Lemma edited_rids cp k tx vs ms :
  Forall2 (fun m v => sv_resource_id v = resource_id m) ms vs -> Forall2 (fun m v => sv_resource_id v = resource_id m) ms (edited process cp k tx vs).
Proof.
  intros Hf. apply Forall2_same_length_lookup. split; [rewrite edited_length; by eapply Forall2_length|].
  intros j m v Hm Hv. destruct (Forall2_lookup_l _ _ _ _ _ Hf Hm) as (u & Hu & Hr).
  destruct (edited_lookup cp k tx vs j u Hu) as (v' & Hv' & E & _). simplify_eq. congruence.
Qed.

Lemma initial_rids σ ms : Forall2 (fun m v => sv_resource_id v = resource_id m) ms (version_of σ ∘ resource_id <$> ms).
Proof. apply Forall2_fmap_r, Forall_Forall2_diag, Forall_true. intros m. apply version_of_rid. Qed.

Lemma clean_run_job σ j : clean σ -> clean (run_job process σ j).
Proof. destruct j as [[cp k] tx]. apply clean_store_all. Qed.
Lemma clean_run_jobs js : forall σ, clean σ -> clean (run_jobs process σ js).
Proof. induction js as [|j js IH]; intros σ Hc; [done|]. by apply IH, clean_run_job. Qed.

Lemma run_job_other σ cp k tx r :
  NoDup (resource_id <$> tx_resources tx) -> (forall m, m ∈ tx_resources tx -> resource_id m = r -> access_type m = Read) ->
  run_job process σ (cp, k, tx) !! r = σ !! r.
Proof.
  intros Hnd Hr. rewrite run_job_eq. apply store_all_other. intros (v & -> & Hv)%list_elem_of_fmap.
  apply written_versions_elem in Hv as (j & m & Hm & Hv & Hw).
  pose proof (Forall2_lookup_lr _ _ _ _ _ _ (edited_rids cp k tx _ _ (initial_rids σ (tx_resources tx))) Hm Hv) as E. cbn beta in E.
  rewrite (Hr m) in Hw; [done|by eapply list_elem_of_lookup_2|by rewrite E].
Qed.

(** From values of the state, a transaction computes values of the state after it. *)
Lemma run_job_reads σ cp k tx vs j m v :
  NoDup (resource_id <$> tx_resources tx) ->
  Forall2 (fun m v => sv_resource_id v = resource_id m /\ reads_from σ v) (tx_resources tx) vs ->
  tx_resources tx !! j = Some m -> edited process cp k tx vs !! j = Some v -> access_type m = Write ->
  reads_from (run_job process σ (cp, k, tx)) v.
Proof.
  intros Hnd Hf Hm Hv Hw. set (us := version_of σ ∘ resource_id <$> tx_resources tx).
  assert (Forall2 like vs us) as Hl.
  { unfold us. apply Forall2_fmap_r. eapply Forall2_impl; [by apply Forall2_flip|]. intros u m' [E Hu]. cbn. rewrite <- E. by apply reads_from_like. }
  pose proof (edited_rids cp k tx us _ (initial_rids σ _)) as Hrid.
  destruct (Forall2_lookup_l _ _ _ _ _ (edited_like cp k tx vs us Hl) Hv) as (u & Hu & Hlike).
  assert (reads_from (run_job process σ (cp, k, tx)) u) as Hru.
  { rewrite run_job_eq. apply store_all_reads; [by apply written_versions_rids|]. apply written_versions_elem. by exists j, m. }
  destruct Hlike as (Hr & Hd & Hver). unfold reads_from in *. rewrite Hr, Hd in *. destruct Hru as [Hru1 Hru2]. split; [done|].
  intros Hne. rewrite Hver by done. by apply Hru2.
Qed.
End serial.
