(* ===== verification/SchedShape.v ===== *)
(** * SchedShape: the chains of accesses a scheduler builds

    Accesses to a resource follow the order of the transactions, those of one batch share a diff,
    and the cache knows the last one. *)

From S2P Require Import Prelude Codec Types SmtNode SmtTrie SmtUpdate SmtTree AtomicRing CanonicalChain RocksStore L1Types StateSpaces SchedStore SchedCore SchedProofs SchedAccess.

(** ** Chains *)

Section chains.
Implicit Types (ai : list access_info) (di : list diff_info).

Definition abatch di (x : access_info) : nat := from_option di_batch 0 (di !! ai_diff x).

Record shape ai di : Prop := {
  sh_diff a x : ai !! a = Some x -> exists d, di !! ai_diff x = Some d /\ di_resource_id d = ai_rid x;
  sh_unique d d' i i' : di !! d = Some i -> di !! d' = Some i' -> di_batch i = di_batch i' -> di_resource_id i = di_resource_id i' -> d = d';
  sh_tx a a' x x' : a < a' -> ai !! a = Some x -> ai !! a' = Some x' -> ai_tx x <= ai_tx x';
  sh_batch a a' x x' : a < a' -> ai !! a = Some x -> ai !! a' = Some x' -> abatch di x <= abatch di x';
  sh_same a a' x x' : ai !! a = Some x -> ai !! a' = Some x' -> ai_tx x = ai_tx x' -> ai_rid x = ai_rid x' -> a = a';
  sh_touched d i : di !! d = Some i -> exists a x, ai !! a = Some x /\ ai_diff x = d
}.

(** The first and the last access of a batch to its resource. *)
Definition flags ai (a : nat) (y : ResourceAccess) : Prop :=
  (ra_is_batch_head y = true <-> forall q z, q < a -> ai !! q = Some z -> ai_diff z <> ai_diff (ra_info y)) /\
  (ra_is_batch_tail y = true <-> forall q z, a < q -> ai !! q = Some z -> ai_diff z <> ai_diff (ra_info y)).

(** [p] is the last access to the resource of [a] before it. *)
Definition adjacent ai (p a : nat) : Prop :=
  p < a /\ exists x y, ai !! p = Some x /\ ai !! a = Some y /\ ai_rid x = ai_rid y /\ ai_tx x < ai_tx y /\
    forall q z, p < q < a -> ai !! q = Some z -> ai_rid z <> ai_rid y.

(** All earlier accesses to the resource of [a] are in batches that are [done]. *)
Definition fresh_access ai di (done : nat -> Prop) (a : nat) : Prop :=
  forall q x y, q < a -> ai !! q = Some x -> ai !! a = Some y -> ai_rid x = ai_rid y -> done (abatch di x).

Record cached ai di (done : nat -> Prop) (m : gmap ResourceId nat) : Prop := {
  ca_some r p : m !! r = Some p -> exists x, ai !! p = Some x /\ ai_rid x = r /\ forall q y, ai !! q = Some y -> ai_rid y = r -> q <= p;
  ca_none r q y : m !! r = None -> ai !! q = Some y -> ai_rid y = r -> done (abatch di y)
}.

(** One diff for each batch and resource. *)
Lemma same_diff ai di a a' x x' :
  shape ai di -> ai !! a = Some x -> ai !! a' = Some x' -> ai_diff x = ai_diff x' <-> abatch di x = abatch di x' /\ ai_rid x = ai_rid x'.
Proof.
  intros Hs Ha Ha'. destruct (sh_diff _ _ Hs a x Ha) as (d & Hd & Hr), (sh_diff _ _ Hs a' x' Ha') as (d' & Hd' & Hr'). unfold abatch. split.
  - intros E. rewrite E in *. simplify_eq. split; [done|congruence].
  - rewrite Hd, Hd'. cbn. intros [Eb Er]. eapply (sh_unique _ _ Hs); [done..|congruence].
Qed.

Lemma adjacent_app ai l p a : adjacent ai p a -> adjacent (ai ++ l) p a.
Proof.
  intros (Hlt & x & y & Hx & Hy & Hr & Ht & Hmid). split; [done|]. exists x, y.
  split; [by apply lookup_app_l_Some|]. split; [by apply lookup_app_l_Some|]. split; [done|]. split; [done|].
  intros q z Hq Hz. apply (Hmid q z Hq). apply lookup_lt_Some in Hy. by rewrite lookup_app_l in Hz by lia.
Qed.

Lemma abatch_app di l x d : di !! ai_diff x = Some d -> abatch (di ++ l) x = abatch di x.
Proof. intros Hd. unfold abatch. by rewrite Hd, (lookup_app_l_Some _ l _ _ Hd). Qed.

Lemma fresh_app ai di done done' l l' a :
  shape ai di -> a < length ai -> (forall b, done b -> done' b) -> fresh_access ai di done a -> fresh_access (ai ++ l) (di ++ l') done' a.
Proof.
  intros Hs Ha Hd Hf q x y Hq Hx Hy Hr. rewrite lookup_app_l in Hx, Hy by lia. destruct (sh_diff _ _ Hs q x Hx) as (d & Hdi & _).
  rewrite (abatch_app _ _ _ _ Hdi). by apply Hd, (Hf q x y).
Qed.

(** ** Adding an access *)

Section append.
Context ai di (b t : nat) (m : AccessMetadata) (d : nat) (extra : list diff_info).
Let x : access_info := {| ai_metadata := m; ai_tx := t; ai_diff := d |}.
Hypothesis Hs : shape ai di.
Hypothesis Hb : forall a y, ai !! a = Some y -> abatch di y <= b.
Hypothesis Ht : forall a y, ai !! a = Some y -> ai_tx y <= t.
Hypothesis Hnew : forall a y, ai !! a = Some y -> ai_tx y = t -> ai_rid y <> resource_id m.
(** The diff is one of the batch, or a new one for a resource it has not touched. *)
Hypothesis Hdiff : exists i, (di ++ extra) !! d = Some i /\ di_batch i = b /\ di_resource_id i = resource_id m.
Hypothesis Hextra : forall d' i, extra !! d' = Some i -> d' = 0 /\ d = length di /\
  forall d'' i', di !! d'' = Some i' -> di_batch i' = b -> di_resource_id i' <> resource_id m.

Lemma app_case q y : (ai ++ [x]) !! q = Some y -> ai !! q = Some y \/ q = length ai /\ y = x.
Proof. intros [?|[? [? <-]%list_lookup_singleton_Some]]%lookup_app_Some; [by left|]. right. split; [lia|done]. Qed.

Lemma old_batch a y : ai !! a = Some y -> abatch (di ++ extra) y = abatch di y.
Proof. intros Ha. destruct (sh_diff _ _ Hs a y Ha) as (i & Hi & _). by eapply abatch_app. Qed.
Lemma new_batch : abatch (di ++ extra) x = b.
Proof. destruct Hdiff as (i & Hi & Hib & _). unfold abatch. cbn. by rewrite Hi. Qed.

Lemma extra_case d' i : (di ++ extra) !! d' = Some i -> di !! d' = Some i \/ d' = d /\ d = length di /\ extra !! 0 = Some i.
Proof.
  intros [?|[Hge Hi]]%lookup_app_Some; [by left|]. right. destruct (Hextra _ _ Hi) as (E & -> & _). rewrite E in Hi. split; [lia|done].
Qed.

Lemma shape_app : shape (ai ++ [x]) (di ++ extra).
Proof.
  pose proof (fun a y (H : ai !! a = Some y) => lookup_lt_Some _ _ _ H) as Hlt. split.
  - intros a y [Ha|[-> ->]]%app_case.
    + destruct (sh_diff _ _ Hs a y Ha) as (i & Hi & Hr). exists i. split; [by apply lookup_app_l_Some|done].
    + destruct Hdiff as (i & Hi & _ & Hr). by exists i.
  - destruct Hdiff as (i0 & Hi0 & Hib & Hir).
    assert (forall d' i', di !! d' = Some i' -> extra !! 0 = Some i0 -> di_batch i' = b -> di_resource_id i' <> resource_id m) as Hno.
    { intros d' i' Hd' He. by apply (proj2 (proj2 (Hextra _ _ He)) d' i'). }
    intros d1 d2 i1 i2 H1 H2. pose proof H1 as [E1|(-> & Ed & E1)]%extra_case; pose proof H2 as [E2|(-> & Ed' & E2)]%extra_case; intros Eb Er.
    + by eapply (sh_unique _ _ Hs).
    + simplify_eq. destruct (Hno d1 i1 E1 E2); congruence.
    + simplify_eq. destruct (Hno d2 i2 E2 E1); congruence.
    + done.
  - intros a a' y y' Haa [Ha|[-> ->]]%app_case [Ha'|[-> ->]]%app_case; [by eapply (sh_tx _ _ Hs)|by eapply Ht|apply Hlt in Ha'; lia|lia].
  - intros a a' y y' Haa [Ha|[-> ->]]%app_case [Ha'|[-> ->]]%app_case.
    + rewrite !(old_batch _ _ Ha), !(old_batch _ _ Ha'). by eapply (sh_batch _ _ Hs a a').
    + rewrite (old_batch _ _ Ha), new_batch. by eapply Hb.
    + apply Hlt in Ha'. lia.
    + lia.
  - intros a a' y y' [Ha|[-> ->]]%app_case [Ha'|[-> ->]]%app_case Et Er; [by eapply (sh_same _ _ Hs)| | |done].
    + by destruct (Hnew a y Ha Et).
    + by destruct (Hnew a' y' Ha').
  - intros d' i [Hi|(-> & _)]%extra_case.
    + destruct (sh_touched _ _ Hs d' i Hi) as (a & y & Ha & E). exists a, y. split; [by apply lookup_app_l_Some|done].
    + exists (length ai), x. split; [by apply list_lookup_middle|done].
Qed.
End append.
End chains.

(** ** Building a batch *)

Section build.
Context {Tx M : Type}.
Implicit Types (w : World (Tx := Tx) (M := M)).

Definition infos w : list access_info := ra_info <$> w_accesses w.
Definition dinfos w : list diff_info := dc_info <$> w_diffs w.
Definition tinfos w : list tx_info := st_info <$> w_txs w.
Definition binfos w : list batch_info := sb_info <$> w_batches w.

(** What building a batch leaves alone. *)
Definition rest_of w :=
  (w_batches w, w_reads w, w_available w, w_writes w, w_lifecycle w, w_evictions w, w_threshold w, w_latest w, w_threads w).

Definition unused_cell (b : nat) (c : diff_cell) : Prop := di_batch (dc_info c) = b /\ dc_read c = None /\ dc_written c = None.

(** An access that was just added. *)
Record added (ai : list access_info) (di : list diff_info) (done : nat -> Prop) (a : nat) (y : ResourceAccess) : Prop := {
  ad_read : ra_read y = None;
  ad_written : ra_written y = None;
  ad_next : ra_next y = None;
  ad_prev : match ra_prev y with Some p => adjacent ai p a | None => fresh_access ai di done a end
}.

(** Batch [b] is being built from [w0]. *)
Record building (w0 w : World) (b : nat) (done : nat -> Prop) : Prop := {
  bd_shape : shape (infos w) (dinfos w);
  bd_cached : cached (infos w) (dinfos w) done (w_resources w);
  bd_flags a y : w_accesses w !! a = Some y -> flags (infos w) a y;
  bd_batch a x : infos w !! a = Some x -> if decide (a < length (w_accesses w0)) then abatch (dinfos w) x < b else abatch (dinfos w) x = b;
  bd_bound a x : infos w !! a = Some x -> ai_tx x <= length (w_txs w) /\ (length (w_accesses w0) <= a -> length (w_txs w0) <= ai_tx x);
  bd_txs a x i : infos w !! a = Some x -> tinfos w !! ai_tx x = Some i -> ti_batch i = abatch (dinfos w) x;
  bd_accesses : exists new, w_accesses w = w_accesses w0 ++ new;
  bd_diffs : exists new, w_diffs w = w_diffs w0 ++ new /\ Forall (unused_cell b) new;
  bd_added a y : length (w_accesses w0) <= a -> w_accesses w !! a = Some y -> added (infos w) (dinfos w) done a y;
  bd_rest : rest_of w = rest_of w0
}.

Lemma infos_lookup w a y : w_accesses w !! a = Some y -> infos w !! a = Some (ra_info y).
Proof. intros Ha. unfold infos. by rewrite list_lookup_fmap, Ha. Qed.
Lemma infos_inv w a x : infos w !! a = Some x -> exists y, w_accesses w !! a = Some y /\ ra_info y = x.
Proof. intros (y & Hy & ->)%list_lookup_fmap_Some. by exists y. Qed.
Lemma length_infos w : length (infos w) = length (w_accesses w).
Proof. apply length_fmap. Qed.
Lemma length_dinfos w : length (dinfos w) = length (w_diffs w).
Proof. apply length_fmap. Qed.

Lemma cached_app ai di extra done r m x :
  shape ai di -> ai_rid x = r -> cached ai di done m -> cached (ai ++ [x]) (di ++ extra) done (<[r := length ai]> m).
Proof.
  intros Hs Hr [Hsome Hnone]. split.
  - intros r' p. rewrite lookup_insert_Some. intros [[<- <-]|[Hne Hp]].
    + exists x. split; [by apply list_lookup_middle|]. split; [done|]. intros q y Hq _. apply lookup_lt_Some in Hq. rewrite length_app in Hq. cbn in Hq. lia.
    + destruct (Hsome r' p Hp) as (y & Hy & Hry & Hlast). exists y. split; [by apply lookup_app_l_Some|]. split; [done|].
      intros q z [Hq|[? [? <-]%list_lookup_singleton_Some]]%lookup_app_Some Hrz; [by eapply Hlast|congruence].
  - intros r' q y [Hn Hne]%lookup_insert_None [Hq|[? [? <-]%list_lookup_singleton_Some]]%lookup_app_Some Hry; [|congruence].
    destruct (sh_diff _ _ Hs q y Hq) as (i & Hi & _). rewrite (abatch_app _ _ _ _ Hi). by eapply Hnone.
Qed.

(** The last access to the resource gets a successor. *)
Lemma adjacent_last ai di p x t m d :
  shape ai di -> ai !! p = Some x -> ai_rid x = resource_id m -> (forall q z, ai !! q = Some z -> ai_rid z = resource_id m -> q <= p) ->
  ai_tx x < t -> adjacent (ai ++ [{| ai_metadata := m; ai_tx := t; ai_diff := d |}]) p (length ai).
Proof.
  intros Hs Hp Hr Hlast Ht. split; [by eapply lookup_lt_Some|]. eexists x, _. split; [by apply lookup_app_l_Some|]. split; [by apply list_lookup_middle|].
  split; [done|]. split; [done|]. intros q z Hq Hz. rewrite lookup_app_l in Hz by lia. cbn. intros E. specialize (Hlast q z Hz E). lia.
Qed.

Definition new_access_cell (m : AccessMetadata) (t d : nat) (head : bool) (prev : option nat) : ResourceAccess :=
  {| ra_info := {| ai_metadata := m; ai_tx := t; ai_diff := d |}; ra_is_batch_head := head; ra_is_batch_tail := true;
     ra_read := None; ra_written := None; ra_prev := prev; ra_next := None |}.

Definition add_access w (acc : list ResourceAccess) (extra : list diff_cell) (y : ResourceAccess) : World :=
  with_resources (with_accesses (with_diffs w (w_diffs w ++ extra)) (acc ++ [y])) (<[ra_rid y := length (w_accesses w)]> (w_resources w)).

(** [acc] is the list of accesses after the one before the new one lost its tail flag. *)
Definition retailed w (d : nat) (acc : list ResourceAccess) : Prop :=
  ra_info <$> acc = infos w /\
  forall q y', acc !! q = Some y' -> exists y, w_accesses w !! q = Some y /\
    (y' = y /\ (ra_is_batch_tail y = true -> ai_diff (ra_info y) <> d) \/ y' = clear_tail y /\ ai_diff (ra_info y) = d).

Section step.
Context (w0 w : World (Tx := Tx) (M := M)) (b : nat) (done : nat -> Prop) (m : AccessMetadata) (d : nat) (extra : list diff_cell)
  (acc : list ResourceAccess) (head : bool) (prev : option nat).
Let t := length (w_txs w).
Let y := new_access_cell m t d head prev.
Hypothesis Hbd : building w0 w b done.
Hypothesis Hnew : forall a x, infos w !! a = Some x -> ai_tx x = t -> ai_rid x <> resource_id m.
Hypothesis Hdiff : exists i, (dinfos w ++ (dc_info <$> extra)) !! d = Some i /\ di_batch i = b /\ di_resource_id i = resource_id m.
Hypothesis Hextra : forall d' i, (dc_info <$> extra) !! d' = Some i -> d' = 0 /\ d = length (dinfos w) /\
  forall d'' i', dinfos w !! d'' = Some i' -> di_batch i' = b -> di_resource_id i' <> resource_id m.
Hypothesis Hunused : Forall (unused_cell b) extra.
Hypothesis Hhead : head = true <-> forall q z, infos w !! q = Some z -> ai_diff z <> d.
Hypothesis Hacc : retailed w d acc.
Hypothesis Hprefix : exists new, acc = w_accesses w0 ++ new.
Hypothesis Hlen : length (w_txs w0) <= t.
Hypothesis Hprev : match prev with
  | Some p => adjacent (infos w ++ [ra_info y]) p (length (infos w))
  | None => fresh_access (infos w ++ [ra_info y]) (dinfos w ++ (dc_info <$> extra)) done (length (infos w)) end.

Let w' := add_access w acc extra y.

Lemma add_infos : infos w' = infos w ++ [ra_info y].
Proof. unfold infos at 1. cbn. rewrite fmap_app. by rewrite (proj1 Hacc). Qed.
Lemma add_dinfos : dinfos w' = dinfos w ++ (dc_info <$> extra).
Proof. apply fmap_app. Qed.
Lemma length_acc : length acc = length (w_accesses w).
Proof. rewrite <- length_infos, <- (proj1 Hacc). by rewrite length_fmap. Qed.

Lemma acc_case a z : w_accesses w' !! a = Some z -> acc !! a = Some z \/ a = length (infos w) /\ z = y.
Proof.
  cbn. intros [?|[? [? <-]%list_lookup_singleton_Some]]%lookup_app_Some; [by left|]. right. split; [|done]. rewrite length_infos, <- length_acc. lia.
Qed.

Lemma add_flags a z : w_accesses w' !! a = Some z -> flags (infos w') a z.
Proof.
  rewrite add_infos. intros [Ha|[-> ->]]%acc_case.
  - destruct (proj2 Hacc a z Ha) as (z0 & Hz0 & Hz). destruct (bd_flags _ _ _ _ Hbd a z0 Hz0) as [Hh Htl].
    pose proof (lookup_lt_Some _ _ _ Hz0) as Hlt. rewrite <- length_infos in Hlt.
    assert (ra_info z = ra_info z0 /\ ra_is_batch_head z = ra_is_batch_head z0) as [Ei Eh] by (by destruct Hz as [[-> _]|[-> _]]).
    split; rewrite Ei, ?Eh.
    + rewrite Hh. split; intros Hall q u Hq Hu; apply (Hall q u Hq); [by rewrite lookup_app_l in Hu by lia|by apply lookup_app_l_Some].
    + destruct Hz as [[-> Hne]|[-> Ed]].
      * rewrite Htl. split; intros Hall q u Hq Hu; [|by apply (Hall q u Hq), lookup_app_l_Some].
        apply (app_case (infos w) t m d) in Hu as [Hu|[-> ->]]; [by apply (Hall q u)|]. cbn. intros E. by destruct Hne; [apply Htl|].
      * cbn. split; [done|]. intros Hall. destruct (Hall (length (infos w)) (ra_info y) Hlt); [by apply list_lookup_middle|done].
  - split.
    + cbn. rewrite Hhead. split; intros Hall q u; [intros Hq Hu; apply (Hall q u); by rewrite lookup_app_l in Hu by lia|].
      intros Hu. apply (Hall q u); [by eapply lookup_lt_Some|by apply lookup_app_l_Some].
    + cbn. split; [|done]. intros _ q u Hq Hu. apply lookup_lt_Some in Hu. rewrite length_app in Hu. cbn in Hu. lia.
Qed.

Lemma building_step : building w0 w' b done.
Proof.
  pose proof (bd_shape _ _ _ _ Hbd) as Hs.
  assert (forall a x, infos w !! a = Some x -> abatch (dinfos w) x <= b) as Hle.
  { intros a x Ha. pose proof (bd_batch _ _ _ _ Hbd a x Ha) as H. case_decide; lia. }
  pose proof (fun a x (H : infos w !! a = Some x) => proj1 (bd_bound _ _ _ _ Hbd a x H)) as Hbound.
  destruct (bd_accesses _ _ _ _ Hbd) as [new0 Enew0]. assert (length (w_accesses w0) <= length (w_accesses w)) as Hl0 by (rewrite Enew0, length_app; lia).
  split.
  - rewrite add_infos, add_dinfos. by apply (shape_app _ _ b).
  - rewrite add_infos, add_dinfos. cbn. rewrite <- length_infos. apply cached_app; [done|done|apply Hbd].
  - apply add_flags.
  - rewrite add_infos, add_dinfos. intros a x [Ha|[-> ->]]%app_case.
    + rewrite (old_batch _ _ _ Hs a x Ha). by apply (bd_batch _ _ _ _ Hbd).
    + rewrite decide_False by (rewrite length_infos; lia). by apply (new_batch _ b t m).
  - rewrite add_infos. intros a x [Ha|[-> ->]]%app_case; [by apply (bd_bound _ _ _ _ Hbd)|]. split; [done|]. intros _. exact Hlen.
  - rewrite add_infos, add_dinfos. intros a x i [Ha|[-> ->]]%app_case Hi.
    + rewrite (old_batch _ _ _ Hs a x Ha). by eapply (bd_txs _ _ _ _ Hbd).
    + apply lookup_lt_Some in Hi. unfold tinfos in Hi. rewrite length_fmap in Hi. cbn in Hi. unfold t in Hi. lia.
  - cbn. destruct Hprefix as [new ->]. exists (new ++ [y]). by rewrite app_assoc.
  - cbn. destruct (bd_diffs _ _ _ _ Hbd) as (new & -> & Hf). exists (new ++ extra). rewrite <- app_assoc. split; [done|]. by apply Forall_app.
  - rewrite add_infos, add_dinfos. intros a z Ha [Hz|[-> ->]]%acc_case.
    + destruct (proj2 Hacc a z Hz) as (z0 & Hz0 & Hcase). destruct (bd_added _ _ _ _ Hbd a z0 Ha Hz0) as [H1 H2 H3 H4].
      assert (a < length (infos w)) as Hlt by (rewrite length_infos; by eapply lookup_lt_Some).
      split; [by destruct Hcase as [[-> _]|[-> _]]..|].
      assert (ra_prev z = ra_prev z0) as -> by (by destruct Hcase as [[-> _]|[-> _]]). destruct (ra_prev z0); [by apply adjacent_app|by eapply fresh_app].
    + by split.
  - exact (bd_rest _ _ _ _ Hbd).
Qed.
End step.

Section link.
Context (w0 w : World (Tx := Tx) (M := M)) (b : nat) (done : nat -> Prop) (m : AccessMetadata) (index : Z).
Let t := length (w_txs w).
Hypothesis Hbd : building w0 w b done.
Hypothesis Hdone : ~ done b.
Hypothesis Hlen : length (w_txs w0) <= t.
Hypothesis Hnew : forall a x, infos w !! a = Some x -> ai_tx x = t -> ai_rid x <> resource_id m.

Definition linked (r : Result (World * nat * bool)) : Prop :=
  exists w' d head, r = Ok (w', d, head) /\ building w0 w' b done /\ w_txs w' = w_txs w /\
    infos w' = infos w ++ [{| ai_metadata := m; ai_tx := t; ai_diff := d |}] /\
    exists extra, w_diffs w' = w_diffs w ++ extra /\ (if head then [d] else []) = seq (length (w_diffs w)) (length extra).

Let cell : diff_cell := {| dc_info := {| di_batch := b; di_resource_id := resource_id m; di_index := index |}; dc_read := None; dc_written := None |}.

Lemma link_fresh prev :
  (forall q x, infos w !! q = Some x -> ai_rid x = resource_id m -> abatch (dinfos w) x <> b) ->
  match prev with
  | Some p => exists x, infos w !! p = Some x /\ ai_rid x = resource_id m /\ ai_tx x < t /\ forall q z, infos w !! q = Some z -> ai_rid z = resource_id m -> q <= p
  | None => forall q z, infos w !! q = Some z -> ai_rid z = resource_id m -> done (abatch (dinfos w) z) end ->
  let d := length (w_diffs w) in
  linked (Ok (add_access w (w_accesses w) [cell] (new_access_cell m t d true prev), d, true)).
Proof.
  intros Hno Hprev d. eexists _, d, true. split; [reflexivity|].
  assert (retailed w d (w_accesses w)) as Hacc.
  { split; [done|]. intros q y Hy. exists y. split; [done|]. left. split; [done|]. intros _ E.
    destruct (sh_diff _ _ (bd_shape _ _ _ _ Hbd) q _ (infos_lookup w q y Hy)) as (i & Hi & _). apply lookup_lt_Some in Hi. rewrite length_dinfos, E in Hi. unfold d in Hi. lia. }
  split; [|split; [done|split; [by apply add_infos|by exists [cell]]]].
  pose proof (bd_shape _ _ _ _ Hbd) as Hs. apply building_step; try done.
  - exists (dc_info cell). split; [|done]. unfold d. rewrite <- length_dinfos. by apply list_lookup_middle.
  - intros [|d'] i; cbn; [|done]. intros [= <-]. split; [done|]. split; [by rewrite length_dinfos|]. intros d'' i' Hi' Eb Er.
    destruct (sh_touched _ _ Hs d'' i' Hi') as (q & x & Hq & <-). destruct (sh_diff _ _ Hs q x Hq) as (i'' & Hi'' & Hr). simplify_eq.
    apply (Hno q x Hq); [congruence|]. unfold abatch. by rewrite Hi'.
  - by constructor.
  - split; [|done]. intros _ q z Hz E. destruct (sh_diff _ _ Hs q z Hz) as (i & Hi & _). apply lookup_lt_Some in Hi. rewrite length_dinfos, E in Hi. unfold d in Hi. lia.
  - apply Hbd.
  - destruct prev as [p|].
    + destruct Hprev as (x & Hp & Hr & Ht & Hlast). by eapply adjacent_last.
    + intros q x y Hq Hx Hy Hr. rewrite lookup_app_l in Hx by lia. rewrite list_lookup_middle in Hy by done. injection Hy as <-.
      rewrite (old_batch _ _ _ Hs q x Hx). by eapply Hprev.
Qed.

Lemma link_reuse p y :
  w_accesses w !! p = Some y -> ra_rid y = resource_id m -> ai_tx (ra_info y) < t -> abatch (dinfos w) (ra_info y) = b ->
  (forall q z, infos w !! q = Some z -> ai_rid z = resource_id m -> q <= p) ->
  let d := ai_diff (ra_info y) in
  linked (Ok (add_access w (<[p := clear_tail y]> (w_accesses w)) [] (new_access_cell m t d false (Some p)), d, false)).
Proof.
  intros Hp Hr Ht Eb Hlast d. eexists _, d, false. split; [reflexivity|]. pose proof (bd_shape _ _ _ _ Hbd) as Hs. pose proof (infos_lookup _ _ _ Hp) as Hip.
  assert (retailed w d (<[p := clear_tail y]> (w_accesses w))) as Hacc.
  { split; [unfold infos; rewrite list_fmap_insert; apply list_insert_id; by rewrite list_lookup_fmap, Hp|].
    intros q y' Hq. apply list_lookup_insert_Some in Hq as [(<- & <- & _)|[Hne Hq]]; [exists y; auto|].
    exists y'. split; [done|]. left. split; [done|]. intros Htl E. pose proof (infos_lookup _ _ _ Hq) as Hiq.
    apply (same_diff _ _ _ _ _ _ Hs Hiq Hip) in E as E'. pose proof (Hlast q _ Hiq (eq_trans (proj2 E') Hr)).
    apply (proj1 (proj2 (bd_flags _ _ _ _ Hbd q y' Hq)) Htl p (ra_info y)); [lia|done|done]. }
  split; [|split; [done|split; [by apply add_infos|by exists []]]].
  apply building_step; try done.
  - destruct (sh_diff _ _ Hs p _ Hip) as (i & Hi & Hri). exists i. cbn [fmap list_fmap]. rewrite app_nil_r. split; [done|]. split; [|by rewrite Hri].
    unfold abatch in Eb. by rewrite Hi in Eb.
  - split; [done|]. intros Hall. by destruct (Hall p _ Hip).
  - destruct (bd_accesses _ _ _ _ Hbd) as [new E]. rewrite E.
    pose proof (bd_batch _ _ _ _ Hbd p _ Hip) as Hpb. case_decide; [lia|]. exists (<[p - length (w_accesses w0) := clear_tail y]> new).
    rewrite insert_app_r_alt by lia. done.
  - by eapply adjacent_last.
Qed.

Lemma resource_access_ok : linked (resource_access w b t index m).
Proof.
  pose proof (bd_shape _ _ _ _ Hbd) as Hs. unfold resource_access. destruct (w_resources w !! resource_id m) as [p|] eqn:Em.
  - destruct (ca_some _ _ _ _ (bd_cached _ _ _ _ Hbd) _ _ Em) as (x & Hp & Hr & Hlast). apply infos_inv in Hp as (y & Hy & <-). rewrite Hy. cbn [expect mbind outcome_bind].
    pose proof (infos_lookup _ _ _ Hy) as Hiy. assert (ai_tx (ra_info y) < t) as Ht.
    { pose proof (proj1 (bd_bound _ _ _ _ Hbd p _ Hiy)). destruct (decide (ai_tx (ra_info y) = t)) as [E|]; [|unfold t in *; lia]. by destruct (Hnew _ _ Hiy E). }
    assert (belongs_to_batch w (ai_tx (ra_info y)) b = (abatch (dinfos w) (ra_info y) =? b)) as ->.
    { unfold belongs_to_batch. destruct (lookup_lt_is_Some_2 (w_txs w) (ai_tx (ra_info y)) Ht) as [i Hi]. rewrite Hi. cbn.
      erewrite <- (bd_txs _ _ _ _ Hbd p _ (st_info i) Hiy); [done|]. unfold tinfos. by rewrite list_lookup_fmap, Hi. }
    destruct (Nat.eqb_spec (abatch (dinfos w) (ra_info y)) b) as [Eb|Eb].
    + rewrite (proj2 (Nat.eqb_neq _ _)) by lia. cbn [negb assert mbind outcome_bind]. unfold new_access. rewrite Hy. cbn [expect mbind outcome_bind]. rewrite Nat.eqb_refl.
      cbn [mbind outcome_bind]. pose proof (link_reuse p y Hy Hr Ht Eb Hlast) as Hl. unfold add_access, new_access_cell, ra_rid, ai_rid in Hl. cbn in Hl.
      rewrite app_nil_r in Hl. cbn. rewrite length_app, length_insert. cbn [length]. rewrite Nat.add_sub. exact Hl.
    + cbn [mbind outcome_bind]. unfold new_access. cbn [w_accesses with_diffs]. rewrite Hy. cbn [expect mbind outcome_bind].
      destruct (sh_diff _ _ Hs p _ Hiy) as (i & Hi & _). apply lookup_lt_Some in Hi. rewrite length_dinfos in Hi.
      rewrite (proj2 (Nat.eqb_neq _ _)) by lia. cbn [mbind outcome_bind with_accesses w_accesses]. rewrite length_app. cbn [length]. rewrite Nat.add_sub.
      apply (link_fresh (Some p)); [|by exists (ra_info y)]. intros q x Hq Hrq E.
      pose proof (Hlast q x Hq Hrq) as Hqp. destruct (decide (q = p)) as [->|]; [naive_solver|].
      pose proof (sh_batch _ _ Hs q p _ _ ltac:(lia) Hq Hiy). pose proof (bd_batch _ _ _ _ Hbd p _ Hiy). case_decide; lia.
  - cbn [mbind outcome_bind]. unfold new_access. cbn [mbind outcome_bind with_accesses w_accesses]. rewrite length_app. cbn [length]. rewrite Nat.add_sub.
    pose proof (ca_none _ _ _ _ (bd_cached _ _ _ _ Hbd) (resource_id m)) as Hnone.
    apply (link_fresh None); [|by intros; eapply Hnone]. intros q x Hq Hrq E. apply Hdone. rewrite <- E. by eapply Hnone.
Qed.
End link.

(** *** Transactions *)

Definition access_of w (b t a : nat) (m : AccessMetadata) : Prop :=
  exists x, infos w !! a = Some x /\ ai_metadata x = m /\ ai_tx x = t /\ abatch (dinfos w) x = b.

(** The accesses of a transaction are those it declares. *)
Definition tx_linked w (t : nat) (i : tx_info (Tx := Tx) (M := M)) : Prop :=
  Forall2 (access_of w (ti_batch i) t) (ti_resources i) (tx_resources (ti_tx i)) /\ NoDup (resource_id <$> tx_resources (ti_tx i)).

(** Every access belongs to a transaction. *)
Definition complete w : Prop := forall a x, infos w !! a = Some x -> exists i, tinfos w !! ai_tx x = Some i /\ a ∈ ti_resources i.

Lemma building_infos w0 w b done : building w0 w b done -> exists l, infos w = infos w0 ++ l.
Proof. intros Hbd. destruct (bd_accesses _ _ _ _ Hbd) as [new E]. exists (ra_info <$> new). unfold infos. by rewrite E, fmap_app. Qed.

Lemma access_of_grow w w' b t a m l l' :
  shape (infos w) (dinfos w) -> infos w' = infos w ++ l -> dinfos w' = dinfos w ++ l' -> access_of w b t a m -> access_of w' b t a m.
Proof.
  intros Hs E E' (x & Hx & Hm & Ht & Hb). exists x. rewrite E, E'. split; [by apply lookup_app_l_Some|]. split; [done|]. split; [done|].
  by rewrite (old_batch _ _ _ Hs a x Hx).
Qed.
Lemma tx_linked_grow w w' t i l l' :
  shape (infos w) (dinfos w) -> infos w' = infos w ++ l -> dinfos w' = dinfos w ++ l' -> tx_linked w t i -> tx_linked w' t i.
Proof. intros Hs E E' [Hf Hn]. split; [|done]. eapply Forall2_impl; [exact Hf|]. intros a m. by eapply access_of_grow. Qed.

Section transactions.
Context (w0 : World (Tx := Tx) (M := M)) (b : nat) (done : nat -> Prop) (index_of : ResourceId -> Z).
Hypothesis Hdone : ~ done b.

Lemma resources_ok ms : forall w,
  building w0 w b done -> length (w_txs w0) <= length (w_txs w) -> NoDup (resource_id <$> ms) ->
  (forall a x m, infos w !! a = Some x -> ai_tx x = length (w_txs w) -> m ∈ ms -> ai_rid x <> resource_id m) ->
  exists w' extra ds,
    resources w b (length (w_txs w)) index_of ms = Ok (w', seq (length (w_accesses w)) (length ms), seq (length (w_diffs w)) (length extra)) /\
    building w0 w' b done /\ w_txs w' = w_txs w /\ w_diffs w' = w_diffs w ++ extra /\ length ds = length ms /\
    infos w' = infos w ++ zip_with (fun m d => {| ai_metadata := m; ai_tx := length (w_txs w); ai_diff := d |}) ms ds.
Proof.
  induction ms as [|m ms IH]; intros w Hbd Hlen Hnd Hnew.
  - exists w, [], []. cbn. rewrite !app_nil_r. done.
  - cbn in Hnd. apply NoDup_cons in Hnd as [Hm Hnd]. set (t := length (w_txs w)) in *.
    destruct (resource_access_ok w0 w b done m (index_of (resource_id m)) Hbd Hdone Hlen) as (w1 & d & head & E & Hbd1 & Et & Ei & extra1 & Ed1 & Eseq).
    { intros a x Ha Ex. apply (Hnew a x m Ha Ex). by left. }
    fold t in E. cbn [resources]. rewrite E. cbn [mbind outcome_bind].
    destruct (IH w1) as (w2 & extra2 & ds & E2 & Hbd2 & Et2 & Ed2 & Elen & Ei2).
    { done. }
    { by rewrite Et. }
    { done. }
    { rewrite Ei, Et. fold t. intros a x m' [Ha|[-> ->]]%app_case Ex Hm'; [apply (Hnew a x m' Ha Ex); by right|].
      cbn. intros Er. apply Hm. unfold ai_rid in Er. cbn in Er. rewrite Er. by apply list_elem_of_fmap_2. }
    rewrite Et in E2. fold t in E2. rewrite E2. cbn [mbind outcome_bind].
    assert (length (w_accesses w1) = S (length (w_accesses w))) as El by (rewrite <- !length_infos, Ei, length_app; cbn; lia).
    exists w2, (extra1 ++ extra2), (d :: ds). rewrite Ed2, Ed1, app_assoc, Eseq, El. split; [|split; [done|split; [by rewrite Et2|split; [done|split; [by cbn; f_equal|]]]]].
    + cbn [length seq]. rewrite !length_app, Nat.sub_succ, Nat.sub_0_r. by rewrite seq_app.
    + rewrite Ei2, Ei, Et, <- app_assoc. done.
Qed.

Lemma building_push w x :
  building w0 w b done -> ti_batch (st_info x) = b ->
  (forall a y, infos w !! a = Some y -> ai_tx y = length (w_txs w) -> abatch (dinfos w) y = b) ->
  building w0 (with_txs w (w_txs w ++ [x])) b done.
Proof.
  intros [H1 H2 H3 H4 H5 H6 H7 H8 H9 H10] Eb Hnew. split; try done.
  - intros a y Ha. cbn. rewrite length_app. destruct (H5 a y Ha). split; [lia|done].
  - intros a y i Ha. unfold tinfos. cbn. rewrite fmap_app. intros [Hi|[Hge [Hi <-]%list_lookup_singleton_Some]]%lookup_app_Some; [by apply (H6 a)|].
    rewrite Eb. symmetry. rewrite length_fmap in *. apply (Hnew a y Ha). destruct (H5 a y Ha). lia.
Qed.

Definition job_of (i : tx_info (Tx := Tx) (M := M)) : Checkpoint M * nat * SchedulerTransaction Tx := (ti_checkpoint i, ti_position i, ti_tx i).

(** The transactions of the batch, after those that were there. *)
Record appended w w' (cp : Checkpoint M) (pos : nat) (txs : list (SchedulerTransaction Tx)) (new : list ScheduledTransaction) : Prop := {
  ap_txs : w_txs w' = w_txs w ++ new;
  ap_jobs : (job_of ∘ st_info <$> new) = imap (fun k tx => (cp, pos + k, tx)) txs;
  ap_new : Forall (fun x => ti_batch (st_info x) = b /\ st_pending_resources x = Z.of_nat (length (ti_resources (st_info x)))) new;
  ap_linked t i : length (w_txs w) <= t -> tinfos w' !! t = Some i -> tx_linked w' t i
}.

Lemma new_tx_ok w cp pos tx :
  building w0 w b done -> length (w_txs w0) <= length (w_txs w) -> complete w -> NoDup (resource_id <$> tx_resources tx) ->
  let t := length (w_txs w) in
  let x := {| st_info := {| ti_batch := b; ti_checkpoint := cp; ti_position := pos; ti_tx := tx; ti_resources := seq (length (w_accesses w)) (length (tx_resources tx)) |};
              st_pending_resources := Z.of_nat (length (tx_resources tx)) |} in
  exists w1 extra,
    resources w b t index_of (tx_resources tx) = Ok (w1, ti_resources (st_info x), seq (length (w_diffs w)) (length extra)) /\
    w_txs w1 = w_txs w /\ w_diffs w1 = w_diffs w ++ extra /\ (exists l, infos w1 = infos w ++ l) /\
    let w2 := with_txs w1 (w_txs w1 ++ [x]) in building w0 w2 b done /\ complete w2 /\ tx_linked w2 t (st_info x).
Proof.
  intros Hbd Hlen Hc Hn t x.
  assert (forall a y, infos w !! a = Some y -> ai_tx y < t) as Hlt.
  { intros a y Ha. destruct (Hc a y Ha) as (i & Hi & _). apply lookup_lt_Some in Hi. unfold tinfos in Hi. by rewrite length_fmap in Hi. }
  destruct (resources_ok (tx_resources tx) w Hbd Hlen Hn) as (w1 & extra & ds & E & Hbd1 & Et & Ed & Elen & Ei).
  { intros a y m Ha Ey. specialize (Hlt a y Ha). unfold t in Hlt. lia. }
  exists w1, extra. split; [exact E|]. split; [done|]. split; [done|]. split; [by eexists|]. intros w2.
  assert (forall a y, length (w_accesses w) <= a -> infos w1 !! a = Some y -> abatch (dinfos w1) y = b) as Hb.
  { intros a y Ha Hy. pose proof (bd_batch _ _ _ _ Hbd1 a y Hy) as H. case_decide; [|done]. destruct (bd_accesses _ _ _ _ Hbd) as [new E']. rewrite E', length_app in Ha. lia. }
  assert (forall k m d, tx_resources tx !! k = Some m -> ds !! k = Some d -> infos w1 !! (length (w_accesses w) + k) = Some {| ai_metadata := m; ai_tx := t; ai_diff := d |}) as Hk.
  { intros k m d Hm Hd. rewrite Ei, lookup_app_r by (rewrite length_infos; lia). rewrite length_infos, Nat.add_comm, Nat.add_sub, lookup_zip_with, Hm. cbn. by rewrite Hd. }
  split; [|split].
  - apply building_push; [done|done|]. intros a y Ha Ey. rewrite Et in Ey. fold t in Ey. apply (Hb a); [|done]. rewrite Ei in Ha.
    apply lookup_app_Some in Ha as [Ha|[Hge _]]; [specialize (Hlt a y Ha); lia|by rewrite <- length_infos].
  - intros a y Ha. change (infos w1 !! a = Some y) in Ha. unfold tinfos. cbn. rewrite fmap_app, Et. rewrite Ei in Ha. apply lookup_app_Some in Ha as [Ha|[Hge Ha]].
    + destruct (Hc a y Ha) as (i & Hi & Hin). exists i. split; [by apply lookup_app_l_Some|done].
    + apply lookup_zip_with_Some in Ha as (m & d & -> & Hm & Hd). exists (st_info x). cbn [ai_tx]. unfold t. rewrite <- (length_fmap st_info (w_txs w)).
      split; [by apply list_lookup_middle|]. cbn. rewrite length_infos in *. apply elem_of_seq. apply lookup_lt_Some in Hm. lia.
  - split; [|done]. apply Forall2_same_length_lookup. split; [apply length_seq|]. cbn. intros k a m (-> & Hk')%lookup_seq Hm.
    destruct (lookup_lt_is_Some_2 ds k) as [d Hd]; [rewrite Elen; by eapply lookup_lt_Some|]. eexists. split; [by apply Hk|]. split; [done|]. split; [done|].
    apply (Hb (length (w_accesses w) + k)); [lia|]. by apply Hk.
Qed.

Lemma new_txs_ok cp txs : forall w pos,
  building w0 w b done -> length (w_txs w0) <= length (w_txs w) -> complete w -> Forall (fun tx => NoDup (resource_id <$> tx_resources tx)) txs ->
  exists w' extra new,
    new_txs w b cp pos index_of txs = Ok (w', seq (length (w_diffs w)) (length extra)) /\
    building w0 w' b done /\ complete w' /\ w_diffs w' = w_diffs w ++ extra /\ (exists l, infos w' = infos w ++ l) /\ appended w w' cp pos txs new.
Proof.
  induction txs as [|tx txs IH]; intros w pos Hbd Hlen Hc Hnd.
  - exists w, [], []. cbn. rewrite !app_nil_r. split; [done|]. split; [done|]. split; [done|]. split; [done|]. split; [by exists []; rewrite app_nil_r|].
    split; [by rewrite app_nil_r|done|constructor|]. intros t i Ht Hi. apply lookup_lt_Some in Hi. unfold tinfos in Hi. rewrite length_fmap in Hi. lia.
  - apply Forall_cons in Hnd as [Hn Hnd]. destruct (new_tx_ok w cp pos tx Hbd Hlen Hc Hn) as (w1 & extra1 & E1 & Et1 & Ed1 & [l1 Ei1] & Hbd2 & Hc2 & Hl2).
    cbn [new_txs]. rewrite E1. cbn [mbind outcome_bind]. cbn [st_info ti_resources]. rewrite length_seq. set (x := {| st_info := _; st_pending_resources := _ |}) in *.
    set (w2 := with_txs w1 (w_txs w1 ++ [x])) in *. assert (w_txs w2 = w_txs w ++ [x]) as Et2 by (unfold w2; cbn; by rewrite Et1).
    destruct (IH w2 (S pos) Hbd2) as (w3 & extra2 & new & E3 & Hbd3 & Hc3 & Ed3 & [l2 Ei3] & [Ht3 Hj3 Hn3 Hl3]); [rewrite Et2, length_app; lia|done|done|].
    rewrite E3. cbn [mbind outcome_bind]. change (w_diffs w2) with (w_diffs w1) in Ed3 |- *. change (infos w2) with (infos w1) in Ei3.
    exists w3, (extra1 ++ extra2), (x :: new). rewrite Ed3, Ed1, Ei3, Ei1, <- !app_assoc. split; [by rewrite !length_app, seq_app|].
    split; [done|]. split; [done|]. split; [done|]. split; [by eexists|]. split.
    + by rewrite Ht3, Et2, <- app_assoc.
    + cbn [imap]. rewrite fmap_cons, Hj3. cbn. f_equal; [by rewrite Nat.add_0_r|]. apply imap_ext. intros k tx' _. cbn. by rewrite Nat.add_succ_r.
    + constructor; [|done]. cbn. by rewrite length_seq.
    + intros t i Ht Hi. destruct (decide (t = length (w_txs w))) as [->|]; [|apply Hl3; [rewrite Et2, length_app; cbn; lia|done]].
      assert (i = st_info x) as ->.
      { unfold tinfos in Hi. rewrite Ht3, Et2, <- app_assoc, fmap_app, <- (length_fmap st_info (w_txs w)) in Hi. cbn in Hi. rewrite list_lookup_middle in Hi by done. by injection Hi. }
      eapply (tx_linked_grow w2); [apply Hbd2|exact Ei3| |done]. unfold dinfos. rewrite Ed3. apply fmap_app.
Qed.
End transactions.
End build.
