(* ===== verification/SchedFlow.v ===== *)
(** * SchedFlow: the invariant of parallel execution

    Which values flow along the chains, who is going to wake whom, and how far every transaction
    and batch has got, with the facts about chains that follow. *)

From S2P Require Import Prelude Codec Types SmtNode SmtTrie SmtUpdate SmtTree AtomicRing CanonicalChain RocksStore L1Types StateSpaces SchedStore SchedCore SchedProofs SchedAccess SchedSerial SchedShape.

#[export] Instance Version_eq_dec : EqDecision Version.
Proof. solve_decision. Defined.
#[export] Instance call_eq_dec : EqDecision call.
Proof. solve_decision. Defined.

(** How far a transaction has got. *)
Inductive stage := Waiting | Available | Running | Done.
#[export] Instance stage_eq_dec : EqDecision stage.
Proof. solve_decision. Defined.

Definition occurrences {A} `{EqDecision A} (x : A) (l : list A) : nat := length (filter (eq x) l).

Lemma occurrences_app {A} `{EqDecision A} (x : A) l l' : occurrences x (l ++ l') = occurrences x l + occurrences x l'.
Proof. unfold occurrences. by rewrite filter_app, length_app. Qed.
Lemma occurrences_cons {A} `{EqDecision A} (x y : A) l : occurrences x (y :: l) = (if decide (x = y) then 1 else 0) + occurrences x l.
Proof. unfold occurrences. rewrite filter_cons. by case_decide. Qed.
Lemma occurrences_elem {A} `{EqDecision A} (x : A) l : 0 < occurrences x l <-> x ∈ l.
Proof.
  induction l as [|y l IH]; [cbn; split; [lia|by intros ?%not_elem_of_nil]|]. rewrite occurrences_cons, elem_of_cons. case_decide; [split; [by left|lia]|].
  cbn. rewrite IH. naive_solver.
Qed.
Lemma occurrences_perm {A} `{EqDecision A} (x : A) l l' : l ≡ₚ l' -> occurrences x l = occurrences x l'.
Proof. intros E. unfold occurrences. by rewrite E. Qed.

(** The body of a call or an action. *)
Ltac unfold_call :=
  unfold step_call; try unfold connect_access; try unfold after_link; try unfold set_read_state; try unfold set_written_state; try unfold forward_written;
  try unfold decrease_pending_resources; try unfold decrease_pending_txs.
Tactic Notation "unfold_call" "in" hyp(H) :=
  unfold step_call in H; try unfold connect_access in H; try unfold after_link in H; try unfold set_read_state in H; try unfold set_written_state in H; try unfold forward_written in H;
  try unfold decrease_pending_resources in H; try unfold decrease_pending_txs in H.
Ltac unfold_fire := cbn [fire]; try unfold serve_read; try unfold run_task.

Section flow.
Context {Tx M : Type} (process : M -> nat -> SchedulerTransaction Tx -> list bytes -> option (list (list edit))).
Context (σ0 : vstate) (n0 : Z).
Implicit Types (w : World (Tx := Tx) (M := M)) (bs : list (Checkpoint M * list (SchedulerTransaction Tx))) (ops R : list call) (g : list stage).

(** ** The order of the transactions *)

Definition start bs (b : nat) : nat := length (jobs_of (take b bs)).
Definition index_at bs (b : nat) : Z := from_option (fun p => cp_index p.1) 0%Z (bs !! b).
(** The state after the first [n] transactions. *)
Definition after bs (n : nat) : vstate := run_jobs process σ0 (take n (jobs_of bs)).

(** What does not change once a batch is built. *)
Record static w bs : Prop := {
  st_shape : shape (infos w) (dinfos w);
  st_flags a y : w_accesses w !! a = Some y -> flags (infos w) a y;
  st_complete : complete w;
  st_linked t i : tinfos w !! t = Some i -> tx_linked w t i;
  st_jobs : (job_of <$> tinfos w) = jobs_of bs;
  st_checkpoints : (bi_checkpoint <$> binfos w) = bs.*1;
  st_tx_batch t i : tinfos w !! t = Some i -> ti_batch i < length bs /\ start bs (ti_batch i) <= t < start bs (S (ti_batch i));
  st_txs b x : binfos w !! b = Some x -> bi_txs x = seq (start bs b) (start bs (S b) - start bs b);
  st_diffs b x : binfos w !! b = Some x -> NoDup (bi_diffs x) /\ forall d, d ∈ bi_diffs x <-> exists i, dinfos w !! d = Some i /\ di_batch i = b;
  st_batches d i : dinfos w !! d = Some i -> di_batch i < length bs;
  st_order b b' : b < b' < length bs -> (index_at bs b < index_at bs b')%Z;
  st_first b : b < length bs -> (n0 < index_at bs b)%Z
}.

(** ** Cells *)

Definition rd w (a : nat) : option Version := w_accesses w !! a ≫= ra_read.
Definition wr w (a : nat) : option Version := w_accesses w !! a ≫= ra_written.
Definition pv w (a : nat) : option nat := w_accesses w !! a ≫= ra_prev.
Definition nx w (a : nat) : option nat := w_accesses w !! a ≫= ra_next.
Definition drd w (d : nat) : option Version := w_diffs w !! d ≫= dc_read.
Definition dwr w (d : nat) : option Version := w_diffs w !! d ≫= dc_written.
Definition exists_access w (a : nat) : Prop := a < length (w_accesses w).
Definition head w (a : nat) : bool := from_option ra_is_batch_head false (w_accesses w !! a).
Definition tail w (a : nat) : bool := from_option ra_is_batch_tail false (w_accesses w !! a).

(** The state of [a]'s resource before and after its transaction, unless the batch is canceled. *)
Definition good_read w bs (a : nat) (v : Version) : Prop :=
  exists x, infos w !! a = Some x /\ sv_resource_id v = ai_rid x /\
    (batch_canceled w (abatch (dinfos w) x) = false ->
       reads_from (after bs (ai_tx x)) v /\ (head w a = true -> (sv_version v < index_at bs (abatch (dinfos w) x))%Z)) /\
    (head w a = false -> exists u, drd w (ai_diff x) = Some u /\
       (batch_canceled w (abatch (dinfos w) x) = false -> v = u \/ sv_version v = index_at bs (abatch (dinfos w) x))).
Definition good_written w bs (a : nat) (v : Version) : Prop :=
  exists x, infos w !! a = Some x /\ sv_resource_id v = ai_rid x /\
    exists u, drd w (ai_diff x) = Some u /\
      (batch_canceled w (abatch (dinfos w) x) = false ->
         reads_from (after bs (S (ai_tx x))) v /\ (v = u \/ sv_version v = index_at bs (abatch (dinfos w) x))).

Record values w bs (c : nat) ops : Prop := {
  va_read a v : rd w a = Some v -> good_read w bs a v;
  va_head a x : infos w !! a = Some x -> head w a = true -> rd w a = drd w (ai_diff x);
  va_written a v : wr w a = Some v -> good_written w bs a v /\ is_Some (rd w a);
  va_tail a x : infos w !! a = Some x -> tail w a = true -> wr w a = dwr w (ai_diff x);
  va_prev a p : pv w a = Some p -> adjacent (infos w) p a;
  va_next a n : nx w a = Some n -> adjacent (infos w) a n;
  va_fresh a : exists_access w a -> rd w a = None -> pv w a = None -> fresh_access (infos w) (dinfos w) (fun b => b < c) a;
  va_SetRead a v : SetRead a v ∈ ops -> exists_access w a /\ (rd w a = None -> good_read w bs a v);
  va_SetWritten a v : SetWritten a v ∈ ops -> good_written w bs a v /\ is_Some (rd w a);
  va_Forward a v : Forward a v ∈ ops -> wr w a = Some v;
  va_AfterLink a p : AfterLink a p ∈ ops -> adjacent (infos w) p a /\ (nx w p = Some a \/ is_Some (wr w p));
  va_Connect a : Connect a ∈ ops -> exists_access w a;
  va_reads a : a ∈ w_reads w -> exists_access w a /\ (rd w a = None -> pv w a = None);
  va_writes : NoDup (w_writes w) /\ (forall d, d ∈ w_writes w -> is_Some (dwr w d)) /\
    (forall d i, dinfos w !! d = Some i -> is_Some (dwr w d) -> batch_canceled w (di_batch i) = false -> d ∈ w_writes w)
}.

(** Someone is going to resolve every access that waits. *)
Definition woken w ops (a : nat) : Prop :=
  Connect a ∈ ops \/ a ∈ w_reads w \/ (exists v, SetRead a v ∈ ops) \/
  exists p, adjacent (infos w) p a /\ (AfterLink a p ∈ ops \/ nx w p = Some a /\ (wr w p = None \/ exists v, Forward p v ∈ ops)).

Definition early (s : option stage) : Prop := s = Some Waiting \/ s = Some Available.

Record tokens w ops g : Prop := {
  to_read a : exists_access w a -> rd w a = None -> woken w ops a;
  to_written a x : infos w !! a = Some x -> wr w a = None ->
    rd w a = None \/ access_type (ai_metadata x) = Write /\ early (g !! ai_tx x) \/ exists v, SetWritten a v ∈ ops
}.

Definition unresolved w (i : tx_info (Tx := Tx) (M := M)) : nat := length (filter (fun a => rd w a = None) (ti_resources i)).

Record counts w ops g : Prop := {
  co_length : length g = length (w_txs w);
  co_pending t x : w_txs w !! t = Some x ->
    st_pending_resources x = Z.of_nat (unresolved w (st_info x) + occurrences (DecreasePendingResources t) ops);
  co_waiting t x : w_txs w !! t = Some x -> g !! t = Some Waiting -> ti_resources (st_info x) <> [] -> (0 < st_pending_resources x)%Z;
  co_ready t x s : w_txs w !! t = Some x -> g !! t = Some s -> s <> Waiting -> st_pending_resources x = 0%Z;
  co_push t x s : w_txs w !! t = Some x -> g !! t = Some s ->
    occurrences (PushAvailable t) ops = if decide (s = Waiting /\ ti_resources (st_info x) = []) then 1 else 0;
  co_resources t x : w_txs w !! t = Some x -> DecreasePendingResources t ∈ ops -> ti_resources (st_info x) <> [];
  co_available t s : g !! t = Some s -> occurrences t (w_available w) = if decide (s = Available) then 1 else 0;
  co_running t s : g !! t = Some s -> occurrences (DecreasePendingTxs t) ops = if decide (s = Running) then 1 else 0;
  co_known t : t ∈ w_available w \/ DecreasePendingResources t ∈ ops \/ PushAvailable t ∈ ops \/ DecreasePendingTxs t ∈ ops -> t < length g;
  co_batch b x : w_batches w !! b = Some x ->
    sb_pending_txs x = Z.of_nat (length (filter (fun t => g !! t <> Some Done) (bi_txs (sb_info x)))) /\
    sb_processed x = (sb_pending_txs x =? 0)%Z
}.

Record commits w bs g (c : nat) : Prop := {
  cm_bound : c <= length bs;
  cm_flag b x : w_batches w !! b = Some x -> sb_committed x = (b <? c);
  cm_queue : exists k, c <= k <= length bs /\ w_lifecycle w = seq k (length bs - k) /\ forall b, c <= b < k -> batch_canceled w b = true;
  cm_done t i : tinfos w !! t = Some i -> ti_batch i < c -> g !! t = Some Done;
  cm_latest : (forall b, b < c -> batch_canceled w b = false) -> forall r, w_latest w !! r = after bs (start bs c) !! r;
  cm_cached : w_threshold w = CancellationContext.U64_MAX -> cached (infos w) (dinfos w) (fun b => b < c) (w_resources w)
}.

(** Writes of a transaction come before it is counted as executed, forwarded reads before the
    access is counted as resolved. *)
Definition ordered w (thread : list call) : Prop :=
  forall l1 a v l2 x, thread = l1 ++ SetWritten a v :: l2 -> infos w !! a = Some x ->
    match access_type (ai_metadata x) with Write => DecreasePendingTxs (ai_tx x) ∈ l2 | Read => DecreasePendingResources (ai_tx x) ∈ l2 end.

Record inv w bs (c : nat) ops g : Prop := {
  in_static : static w bs;
  in_values : values w bs c ops;
  in_tokens : tokens w ops g;
  in_counts : counts w ops g;
  in_commits : commits w bs g c
}.

(** ** Facts about chains *)

Lemma adjacent_unique ai p a a' : adjacent ai p a -> adjacent ai p a' -> a = a'.
Proof.
  intros (Hl & x & y & Hx & Hy & Hr & Ht & Hm) (Hl' & x' & y' & Hx' & Hy' & Hr' & Ht' & Hm'). simplify_eq.
  destruct (Nat.lt_trichotomy a a') as [Hlt|[->|Hlt]]; [|done|].
  - destruct (Hm' a y ltac:(lia) Hy). congruence.
  - destruct (Hm a' y' ltac:(lia) Hy'). congruence.
Qed.

Lemma canceled_infos w b : batch_canceled w b = from_option (fun x => w_threshold w <? cp_index (bi_checkpoint x))%Z false (binfos w !! b).
Proof. unfold batch_canceled, binfos. rewrite list_lookup_fmap. by destruct (w_batches w !! b). Qed.

Section facts.
Context w bs (Hst : static w bs).

Lemma length_binfos : length (binfos w) = length bs.
Proof. rewrite <- (length_fmap bi_checkpoint), (st_checkpoints _ _ Hst). apply length_fmap. Qed.

Lemma binfo_index b x : binfos w !! b = Some x -> cp_index (bi_checkpoint x) = index_at bs b.
Proof.
  intros Hb. assert ((bi_checkpoint <$> binfos w) !! b = Some (bi_checkpoint x)) as E by (by rewrite list_lookup_fmap, Hb).
  rewrite (st_checkpoints _ _ Hst), list_lookup_fmap in E. unfold index_at. apply fmap_Some in E as (p & -> & E). cbn. by rewrite E.
Qed.
Lemma canceled_at b : b < length bs -> batch_canceled w b = (w_threshold w <? index_at bs b)%Z.
Proof.
  intros Hb. rewrite canceled_infos. destruct (lookup_lt_is_Some_2 (binfos w) b) as [x Hx]; [by rewrite length_binfos|]. rewrite Hx. cbn. by rewrite (binfo_index _ _ Hx).
Qed.
Lemma canceled_mono b b' : b <= b' -> b' < length bs -> batch_canceled w b' = false -> batch_canceled w b = false.
Proof.
  intros Hle Hlt. rewrite !canceled_at by lia. rewrite !Z.ltb_ge. destruct (decide (b = b')) as [->|]; [done|].
  pose proof (st_order _ _ Hst b b' ltac:(lia)). lia.
Qed.

Lemma abatch_bound a x : infos w !! a = Some x -> abatch (dinfos w) x < length bs.
Proof. intros Ha. destruct (sh_diff _ _ (st_shape _ _ Hst) a x Ha) as (i & Hi & _). unfold abatch. rewrite Hi. by eapply (st_batches _ _ Hst). Qed.

Lemma access_tx a x : infos w !! a = Some x -> exists i k, tinfos w !! ai_tx x = Some i /\ ti_resources i !! k = Some a /\
  tx_resources (ti_tx i) !! k = Some (ai_metadata x) /\ ti_batch i = abatch (dinfos w) x.
Proof.
  intros Ha. destruct (st_complete _ _ Hst a x Ha) as (i & Hi & Hin). apply list_elem_of_lookup in Hin as [k Hk].
  destruct (st_linked _ _ Hst _ _ Hi) as [Hf _]. destruct (Forall2_lookup_l _ _ _ _ _ Hf Hk) as (m & Hm & x' & Hx' & Em & Et & Eb). simplify_eq. by exists i, k.
Qed.

Lemma tx_access t i k m : tinfos w !! t = Some i -> tx_resources (ti_tx i) !! k = Some m -> exists a x, ti_resources i !! k = Some a /\ infos w !! a = Some x /\
  ai_metadata x = m /\ ai_tx x = t /\ abatch (dinfos w) x = ti_batch i.
Proof.
  intros Hi Hm. destruct (st_linked _ _ Hst _ _ Hi) as [Hf _]. destruct (Forall2_lookup_r _ _ _ _ _ Hf Hm) as (a & Ha & x & Hx & ? & ? & ?). by exists a, x.
Qed.

Lemma job_at t : jobs_of bs !! t = job_of <$> tinfos w !! t.
Proof. by rewrite <- (st_jobs _ _ Hst), list_lookup_fmap. Qed.
Lemma length_jobs : length (jobs_of bs) = length (w_txs w).
Proof. rewrite <- (st_jobs _ _ Hst), length_fmap. apply length_fmap. Qed.

Lemma after_succ t i : tinfos w !! t = Some i -> after bs (S t) = run_job process (after bs t) (job_of i).
Proof.
  intros Hi. unfold after, run_jobs. rewrite (take_S_r _ _ (job_of i)) by (by rewrite job_at, Hi). by rewrite foldl_app.
Qed.

(** A transaction that only reads a resource, or does not use it, leaves it alone. *)
Lemma after_unwritten t r :
  (forall a x, infos w !! a = Some x -> ai_tx x = t -> ai_rid x = r -> access_type (ai_metadata x) = Read) -> after bs (S t) !! r = after bs t !! r.
Proof.
  intros Hr. destruct (tinfos w !! t) as [i|] eqn:Hi.
  - rewrite (after_succ t i Hi). destruct (st_linked _ _ Hst _ _ Hi) as [_ Hnd]. apply run_job_other; [done|].
    intros m Hm E. apply list_elem_of_lookup in Hm as [k Hk]. destruct (tx_access t i k m Hi Hk) as (a & x & _ & Hx & Em & Et & _).
    rewrite <- Em. apply (Hr a x Hx Et). unfold ai_rid. by rewrite Em.
  - unfold after. rewrite !take_ge; [done| |]; rewrite length_jobs; apply lookup_ge_None in Hi; unfold tinfos in Hi; rewrite length_fmap in Hi; lia.
Qed.

Lemma after_between n n' r :
  n <= n' -> (forall a x, infos w !! a = Some x -> n <= ai_tx x < n' -> ai_rid x <> r) -> after bs n' !! r = after bs n !! r.
Proof.
  intros Hle. induction Hle as [|n' Hle IH]; intros Hr; [done|]. rewrite after_unwritten.
  - apply IH. intros a x Ha Hx. apply (Hr a x Ha). lia.
  - intros a x Ha Et Er. destruct (Hr a x Ha ltac:(lia) Er).
Qed.

Lemma adjacent_after p a x y :
  adjacent (infos w) p a -> infos w !! p = Some x -> infos w !! a = Some y -> after bs (ai_tx y) !! ai_rid y = after bs (S (ai_tx x)) !! ai_rid y.
Proof.
  intros (Hl & x' & y' & Hx' & Hy' & Hr & Ht & Hm) Hx Hy. rewrite Hx in Hx'. injection Hx' as <-. rewrite Hy in Hy'. injection Hy' as <-.
  apply after_between; [lia|]. intros q z Hq Hz E.
  apply (Hm q z); [|done|done]. pose proof (sh_tx _ _ (st_shape _ _ Hst)) as Hmono. split.
  - destruct (decide (p < q)) as [|Hn]; [done|]. destruct (decide (p = q)) as [->|]; [simplify_eq; lia|]. pose proof (Hmono q p z x ltac:(lia) Hq Hx). lia.
  - destruct (decide (q < a)) as [|Hn]; [done|]. destruct (decide (q = a)) as [->|]; [simplify_eq; lia|]. pose proof (Hmono a q y z ltac:(lia) Hy Hq). lia.
Qed.

Lemma head_spec a x : infos w !! a = Some x -> head w a = true <-> forall q z, q < a -> infos w !! q = Some z -> ai_diff z <> ai_diff x.
Proof. intros Ha. apply infos_inv in Ha as (y & Hy & <-). unfold head. rewrite Hy. cbn. apply (st_flags _ _ Hst a y Hy). Qed.
Lemma tail_spec a x : infos w !! a = Some x -> tail w a = true <-> forall q z, a < q -> infos w !! q = Some z -> ai_diff z <> ai_diff x.
Proof. intros Ha. apply infos_inv in Ha as (y & Hy & <-). unfold tail. rewrite Hy. cbn. apply (st_flags _ _ Hst a y Hy). Qed.

Lemma head_unique a a' x x' : infos w !! a = Some x -> infos w !! a' = Some x' -> ai_diff x = ai_diff x' -> head w a = true -> head w a' = true -> a = a'.
Proof.
  intros Ha Ha' E Hh Hh'. pose proof (proj1 (head_spec _ _ Ha) Hh) as Hn. pose proof (proj1 (head_spec _ _ Ha') Hh') as Hn'. destruct (Nat.lt_trichotomy a a') as [Hl|[?|Hl]]; [|done|].
  - by destruct (Hn' a x Hl Ha).
  - by destruct (Hn a' x' Hl Ha').
Qed.
Lemma tail_unique a a' x x' : infos w !! a = Some x -> infos w !! a' = Some x' -> ai_diff x = ai_diff x' -> tail w a = true -> tail w a' = true -> a = a'.
Proof.
  intros Ha Ha' E Hh Hh'. pose proof (proj1 (tail_spec _ _ Ha) Hh) as Hn. pose proof (proj1 (tail_spec _ _ Ha') Hh') as Hn'. destruct (Nat.lt_trichotomy a a') as [Hl|[?|Hl]]; [|done|].
  - by destruct (Hn a' x' Hl Ha').
  - by destruct (Hn' a x Hl Ha).
Qed.

(** Every diff has a first access, and the others come after it. *)
Lemma diff_head a x : infos w !! a = Some x -> exists h y, infos w !! h = Some y /\ ai_diff y = ai_diff x /\ head w h = true /\ h <= a.
Proof.
  intros Ha. destruct (list_find (fun z => ai_diff z = ai_diff x) (infos w)) as [[h y]|] eqn:E.
  - apply list_find_Some in E as (Hh & Ey & Hmin). exists h, y. split; [done|]. split; [done|]. split.
    + apply (head_spec _ _ Hh). rewrite Ey. intros q z Hq Hz. by eapply Hmin.
    + destruct (decide (a < h)) as [Hl|]; [|lia]. by destruct (Hmin a x Ha Hl).
  - apply list_find_None in E. rewrite Forall_forall in E. by destruct (E x (list_elem_of_lookup_2 _ _ _ Ha)).
Qed.

(** The previous access of the resource belongs to an earlier batch exactly if this one is the first. *)
Lemma adjacent_head p a x y :
  adjacent (infos w) p a -> infos w !! p = Some x -> infos w !! a = Some y ->
  if head w a then abatch (dinfos w) x < abatch (dinfos w) y else ai_diff x = ai_diff y.
Proof.
  intros Hadj Hx Hy. pose proof (st_shape _ _ Hst) as Hs. destruct Hadj as (Hl & x' & y' & Hx' & Hy' & Hr & _ & Hm). simplify_eq.
  pose proof (sh_batch _ _ Hs _ _ _ _ Hl Hx' Hy') as Hb. destruct (head w a) eqn:Hh.
  - pose proof (proj1 (head_spec _ _ Hy') Hh p _ Hl Hx') as Hne. destruct (decide (abatch (dinfos w) x' = abatch (dinfos w) y')) as [E|]; [|lia].
    destruct Hne. by apply (same_diff _ _ _ _ _ _ Hs Hx' Hy').
  - destruct (diff_head a y' Hy') as (h & z & Hz & Ez & Hhh & Hle). destruct (decide (h = a)) as [->|]; [congruence|].
    apply (same_diff _ _ _ _ _ _ Hs Hz Hy') in Ez as [Eb Er]. apply (same_diff _ _ _ _ _ _ Hs Hx' Hy'). split; [|done].
    assert (h <= p) as Hhp. { destruct (decide (p < h)) as [|]; [|lia]. destruct (Hm h z); [lia|done|done]. }
    destruct (decide (h = p)) as [->|]; [congruence|]. pose proof (sh_batch _ _ Hs h p _ _ ltac:(lia) Hz Hx'). lia.
Qed.

(** What an access wrote is what the next one reads. *)
Lemma good_forward c ops p a v :
  values w bs c ops -> adjacent (infos w) p a -> good_written w bs p v -> good_read w bs a v.
Proof.
  intros Hv Hadj (x & Hx & Erid & u & Hu & Hgood). pose proof Hadj as (Hl & x' & y & Hx' & Hy & Hr & _). rewrite Hx in Hx'. injection Hx' as <-.
  pose proof (adjacent_head p a x y Hadj Hx Hy) as Hh. pose proof (adjacent_after p a x y Hadj Hx Hy) as Ha.
  pose proof (sh_batch _ _ (st_shape _ _ Hst) _ _ _ _ Hl Hx Hy) as Hb. pose proof (abatch_bound a y Hy) as Hlt.
  exists y. split; [done|]. split; [congruence|]. split.
  - intros Hc. destruct (Hgood (canceled_mono _ _ Hb Hlt Hc)) as [Hrf Hver]. split.
    + eapply reads_from_ext; [|exact Hrf]. by rewrite Erid, Hr, Ha.
    + intros E. rewrite E in Hh. destruct (diff_head p x Hx) as (h & z & Hz & Ez & Hhh & _).
      assert (rd w h = Some u) as Hrd by (rewrite (va_head _ _ _ _ Hv h z Hz Hhh), Ez; done).
      destruct (va_read _ _ _ _ Hv h u Hrd) as (z' & Hz' & _ & Hgr & _). rewrite Hz in Hz'. injection Hz' as <-.
      assert (abatch (dinfos w) z = abatch (dinfos w) x) as Eb by (unfold abatch; by rewrite Ez).
      destruct Hgr as [_ Hgv]; [rewrite Eb; by eapply canceled_mono|]. specialize (Hgv Hhh). rewrite Eb in Hgv.
      pose proof (st_order _ _ Hst (abatch (dinfos w) x) (abatch (dinfos w) y) ltac:(lia)). destruct Hver as [->|Hver]; lia.
  - intros E. rewrite E in Hh. exists u. rewrite <- Hh. split; [done|]. assert (abatch (dinfos w) y = abatch (dinfos w) x) as -> by (unfold abatch; by rewrite Hh).
    intros Hc. by apply Hgood.
Qed.
End facts.
End flow.
