(* ===== verification/SchedCalls.v ===== *)
(** * SchedCalls: every call of a thread keeps the invariant

    Linking, resolving and forwarding along the chains. *)

From S2P Require Import Prelude Codec Types SmtNode SmtTrie SmtUpdate SmtTree AtomicRing CanonicalChain RocksStore L1Types StateSpaces SchedStore SchedCore SchedProofs SchedAccess SchedSerial SchedShape SchedFlow.

Section calls.
Context {Tx M : Type} (process : M -> nat -> SchedulerTransaction Tx -> list bytes -> option (list (list edit))).
Context (σ0 : vstate) (n0 : Z).
Implicit Types (w : World (Tx := Tx) (M := M)) (bs : list (Checkpoint M * list (SchedulerTransaction Tx))) (ops R : list call) (g : list stage).

Abbreviation static := (static n0).
Abbreviation values := (values process σ0).
Abbreviation commits := (commits process σ0).
Abbreviation inv := (inv process σ0 n0).
Abbreviation good_read := (good_read process σ0).
Abbreviation good_written := (good_written process σ0).
Abbreviation after := (after process σ0).

(** ** What a call leaves alone *)

Definition stat w :=
  ((fun y => (ra_info y, ra_is_batch_head y, ra_is_batch_tail y)) <$> w_accesses w, dinfos w, tinfos w, binfos w).

Lemma stat_parts w w' : stat w' = stat w -> infos w' = infos w /\ dinfos w' = dinfos w /\ tinfos w' = tinfos w /\ binfos w' = binfos w.
Proof.
  unfold stat. intros [= E ? ? ?]. split; [|done]. apply (f_equal (fmap (fun p : access_info * bool * bool => p.1.1))) in E.
  rewrite <- !list_fmap_compose in E. done.
Qed.
Lemma stat_access w w' a y : stat w' = stat w -> w_accesses w' !! a = Some y ->
  exists y0, w_accesses w !! a = Some y0 /\ ra_info y = ra_info y0 /\ ra_is_batch_head y = ra_is_batch_head y0 /\ ra_is_batch_tail y = ra_is_batch_tail y0.
Proof.
  unfold stat. intros [= E _ _ _] Ha. apply (f_equal (.!! a)) in E. rewrite !list_lookup_fmap, Ha in E. cbn in E.
  destruct (w_accesses w !! a) as [y0|] eqn:E0; [|done]. cbn in E. injection E as E1 E2 E3. by exists y0.
Qed.
Lemma stat_flags w w' a : stat w' = stat w -> head w' a = head w a /\ tail w' a = tail w a.
Proof.
  intros E. unfold head, tail. destruct (w_accesses w' !! a) as [y|] eqn:Ha.
  - destruct (stat_access _ _ _ _ E Ha) as (y0 & -> & _ & Eh & Et). by cbn.
  - destruct (w_accesses w !! a) as [y|] eqn:Ha'; [|done]. destruct (stat_access w' w a y (eq_sym E) Ha') as (y0 & E0 & _). congruence.
Qed.
Lemma stat_length w w' : stat w' = stat w -> length (w_accesses w') = length (w_accesses w).
Proof. intros E. rewrite <- !length_infos. by destruct (stat_parts _ _ E) as [-> _]. Qed.

Lemma static_frame w w' bs : stat w' = stat w -> static w bs -> static w' bs.
Proof.
  intros E [H1 H2 H3 H4 H5 H6 H7 H8 H9 H10 H11 H12]. destruct (stat_parts _ _ E) as (Ei & Ed & Et & Eb).
  split; unfold complete, tx_linked, access_of in *; rewrite ?Ei, ?Ed, ?Et, ?Eb; try done.
  intros a y Ha. destruct (stat_access _ _ _ _ E Ha) as (y0 & Ha0 & Einf & Eh & Etl). pose proof (H2 a y0 Ha0) as Hf. unfold flags in *. by rewrite Einf, Eh, Etl.
Qed.

(** The states that are known stay known. *)
Record extends w w' : Prop := {
  ex_stat : stat w' = stat w;
  ex_threshold : w_threshold w' = w_threshold w;
  ex_drd d u : drd w d = Some u -> drd w' d = Some u
}.

Lemma extends_canceled w w' b : extends w w' -> batch_canceled w' b = batch_canceled w b.
Proof. intros [E Et _]. rewrite !canceled_infos, Et. by destruct (stat_parts _ _ E) as (_ & _ & _ & ->). Qed.

Lemma good_read_frame w w' bs a v : extends w w' -> good_read w bs a v -> good_read w' bs a v.
Proof.
  intros He (x & Hx & Er & Hc & Hn). destruct (stat_parts _ _ (ex_stat _ _ He)) as (Ei & Ed & _). destruct (stat_flags _ _ a (ex_stat _ _ He)) as [Eh _].
  exists x. rewrite Ei, Ed, Eh, (extends_canceled _ _ _ He). split; [done|]. split; [done|]. split; [done|].
  intros E. destruct (Hn E) as (u & Hu & Hv). exists u. split; [by apply (ex_drd _ _ He)|done].
Qed.
Lemma good_written_frame w w' bs a v : extends w w' -> good_written w bs a v -> good_written w' bs a v.
Proof.
  intros He (x & Hx & Er & u & Hu & Hc). destruct (stat_parts _ _ (ex_stat _ _ He)) as (Ei & Ed & _).
  exists x. rewrite Ei, Ed, (extends_canceled _ _ _ He). split; [done|]. split; [done|]. exists u. split; [by apply (ex_drd _ _ He)|done].
Qed.

(** *** Storing in a cell *)

Lemma upd_field {A B} (f : A -> option B) (l : list A) a y y' q :
  l !! a = Some y -> (<[a := y']> l !! q) ≫= f = if decide (q = a) then f y' else l !! q ≫= f.
Proof.
  intros Ha. case_decide as E; [subst q|by rewrite list_lookup_insert_ne]. rewrite list_lookup_insert_eq; [done|by eapply lookup_lt_Some].
Qed.

Definition same_access (y y' : ResourceAccess) : Prop :=
  ra_info y' = ra_info y /\ ra_is_batch_head y' = ra_is_batch_head y /\ ra_is_batch_tail y' = ra_is_batch_tail y.

Lemma stat_store w a y y' : w_accesses w !! a = Some y -> same_access y y' -> stat (with_accesses w (<[a := y']> (w_accesses w))) = stat w.
Proof.
  intros Ha (E1 & E2 & E3). unfold stat. do 3 f_equal. cbn. rewrite list_fmap_insert. apply list_insert_id.
  rewrite list_lookup_fmap, Ha. cbn. by rewrite E1, E2, E3.
Qed.
Lemma stat_diff w d i i' : w_diffs w !! d = Some i -> dc_info i' = dc_info i -> stat (with_diffs w (<[d := i']> (w_diffs w))) = stat w.
Proof.
  intros Hd E. unfold stat. do 3 f_equal. unfold dinfos. cbn. rewrite list_fmap_insert. apply list_insert_id.
  by rewrite list_lookup_fmap, Hd, E.
Qed.

Lemma inv_perm w bs c ops ops' g : ops ≡ₚ ops' -> inv w bs c ops g -> inv w bs c ops' g.
Proof.
  intros E [H1 [V1 V2 V3 V4 V5 V6 V7 V8 V9 V10 V11 V12 V13 V14] [T1 T2] [C1 C2 C3 C4 C5 C6 C7 C8 C9 C10] H5].
  pose proof (fun x => occurrences_perm x _ _ E) as Ho.
  split; [done| | | |done].
  - split; try done; intros; [eapply V8|eapply V9|eapply V10|eapply V11|eapply V12]; by rewrite E.
  - split.
    + intros a Ha Hr. destruct (T1 a Ha Hr) as [?|[?|[[v ?]|(p & Hp & Hcase)]]]; unfold woken; setoid_rewrite <- E; [by left|by right; left|by right; right; left; exists v|].
      right; right; right. exists p. split; [done|]. done.
    + intros a x Ha Hw. destruct (T2 a x Ha Hw) as [?|[?|[v ?]]]; [by left|by right; left|]. right; right. exists v. by rewrite <- E.
  - split; try done; intros.
    + rewrite <- Ho. by apply C2.
    + rewrite <- Ho. by apply C5.
    + eapply C6; [done|]. by rewrite E.
    + rewrite <- Ho. by apply C8.
    + apply C9. by setoid_rewrite E.
Qed.

(** *** Calls that are not counted *)

Definition counted (x : call) : bool :=
  match x with DecreasePendingResources _ | PushAvailable _ | DecreasePendingTxs _ => true | _ => false end.

Lemma occurrences_uncounted x l R : counted x = true -> Forall (fun y => counted y = false) l -> occurrences x (l ++ R) = occurrences x R.
Proof.
  intros Hx Hl. rewrite occurrences_app. induction Hl as [|y l Hy _ IH]; [done|]. rewrite occurrences_cons, decide_False by congruence. done.
Qed.

Lemma uncounted_step o calls R :
  counted o = false -> Forall (fun y => counted y = false) calls -> forall x, counted x = true -> occurrences x (calls ++ R) = occurrences x (o :: R).
Proof. intros Ho Hc x Hx. rewrite occurrences_uncounted by done. rewrite occurrences_cons, decide_False by congruence. done. Qed.

Lemma counts_frame w w' ops ops' g :
  (forall a, rd w' a = rd w a) -> w_txs w' = w_txs w -> w_available w' = w_available w -> w_batches w' = w_batches w ->
  (forall x, counted x = true -> occurrences x ops' = occurrences x ops) -> counts w ops g -> counts w' ops' g.
Proof.
  intros Er Et Ea Eb Ho [C1 C2 C3 C4 C5 C6 C7 C8 C9 C10].
  assert (forall x, counted x = true -> x ∈ ops' -> x ∈ ops) as Hin by (intros x Hx; rewrite <- !occurrences_elem; by rewrite Ho).
  split; rewrite ?Et, ?Ea, ?Eb; try done.
  - intros t x Hx. rewrite Ho by done. unfold unresolved. rewrite (list_filter_iff _ (fun a => rd w a = None)) by (intros a; by rewrite Er). by apply C2.
  - intros t x s Hx Hs. rewrite Ho by done. by apply C5.
  - intros t x Hx Hd. eapply C6; [done|]. by apply Hin.
  - intros t s Hs. rewrite Ho by done. by apply C8.
  - intros t Ht. apply C9. destruct Ht as [?|[?|[?|?]]]; [by left|right; left; by apply Hin|right; right; left; by apply Hin|right; right; right; by apply Hin].
Qed.

Lemma commits_frame w w' bs g c :
  extends w w' -> w_batches w' = w_batches w -> w_lifecycle w' = w_lifecycle w -> w_latest w' = w_latest w -> w_resources w' = w_resources w ->
  commits w bs g c -> commits w' bs g c.
Proof.
  intros He Eb El Es Er [H1 H2 H3 H4 H5 H6]. destruct (stat_parts _ _ (ex_stat _ _ He)) as (Ei & Ed & Et & _).
  pose proof (fun b => extends_canceled w w' b He) as Hc. split; rewrite ?Ei, ?Ed, ?Et, ?Eb, ?El, ?Es, ?Er, ?(ex_threshold _ _ He); try done.
  - destruct H3 as (k & Hk & Hq & Hcn). exists k. split; [done|]. split; [done|]. intros b Hb. rewrite Hc. by apply Hcn.
  - intros Hn. apply H5. intros b Hb. rewrite <- Hc. by apply Hn.
Qed.

Lemma extends_same w w' : stat w' = stat w -> w_threshold w' = w_threshold w -> w_diffs w' = w_diffs w -> extends w w'.
Proof. intros E Et Ed. split; [done|done|]. intros d u. unfold drd. by rewrite Ed. Qed.

(** *** Effects on the cells *)

(** [w'] has the cells of [w] but for those of access [a], which become [r], [v], [p] and [n]. *)
Record effect w w' (a : nat) (r v : option Version) (p n : option nat) : Prop := {
  ef_extends : extends w w';
  ef_rd q : rd w' q = if decide (q = a) then r else rd w q;
  ef_wr q : wr w' q = if decide (q = a) then v else wr w q;
  ef_pv q : pv w' q = if decide (q = a) then p else pv w q;
  ef_nx q : nx w' q = if decide (q = a) then n else nx w q
}.

Lemma effect_store w w' a y y' :
  w_accesses w !! a = Some y -> w_accesses w' = <[a := y']> (w_accesses w) -> extends w w' ->
  effect w w' a (ra_read y') (ra_written y') (ra_prev y') (ra_next y').
Proof. intros Ha E He. split; [done|..]; intros q; unfold rd, wr, pv, nx; rewrite E; by erewrite upd_field. Qed.

Lemma cells_at w a y : w_accesses w !! a = Some y -> rd w a = ra_read y /\ wr w a = ra_written y /\ pv w a = ra_prev y /\ nx w a = ra_next y.
Proof. intros Ha. unfold rd, wr, pv, nx. by rewrite Ha. Qed.

(** What remains to be shown of the values after a step. *)
Lemma values_step w w' bs c ops ops' :
  static w bs -> values w bs c ops -> extends w w' ->
  (forall a v, rd w' a = Some v -> rd w a = Some v \/ good_read w' bs a v) ->
  (forall a, rd w' a = None -> rd w a = None) ->
  (forall a v, wr w' a = Some v -> wr w a = Some v \/ good_written w' bs a v /\ is_Some (rd w' a)) ->
  (forall a, is_Some (rd w a) -> is_Some (rd w' a)) -> (forall a v, wr w a = Some v -> wr w' a = Some v) ->
  (forall a p, pv w' a = Some p -> pv w a = Some p) -> (forall a, rd w' a = None -> pv w' a = pv w a) ->
  (forall a n, nx w' a = Some n -> nx w a = Some n \/ adjacent (infos w) a n) ->
  (forall a x, infos w !! a = Some x -> head w a = true -> rd w' a = drd w' (ai_diff x)) ->
  (forall a x, infos w !! a = Some x -> tail w a = true -> wr w' a = dwr w' (ai_diff x)) ->
  (forall a v, SetRead a v ∈ ops' -> SetRead a v ∈ ops \/ exists_access w a /\ (rd w' a = None -> good_read w' bs a v)) ->
  (forall a v, SetWritten a v ∈ ops' -> SetWritten a v ∈ ops \/ good_written w' bs a v /\ is_Some (rd w' a)) ->
  (forall a v, Forward a v ∈ ops' -> Forward a v ∈ ops \/ wr w' a = Some v) ->
  (forall a p, AfterLink a p ∈ ops' -> adjacent (infos w) p a /\ (nx w' p = Some a \/ is_Some (wr w' p))) ->
  (forall a, Connect a ∈ ops' -> Connect a ∈ ops) ->
  (forall a, a ∈ w_reads w' -> a ∈ w_reads w \/ exists_access w a /\ (rd w' a = None -> pv w' a = None)) ->
  (NoDup (w_writes w') /\ (forall d, d ∈ w_writes w' -> is_Some (dwr w' d)) /\
    (forall d i, dinfos w !! d = Some i -> is_Some (dwr w' d) -> batch_canceled w (di_batch i) = false -> d ∈ w_writes w')) ->
  values w' bs c ops'.
Proof.
  intros Hst [V1 V2 V3 V4 V5 V6 V7 V8 V9 V10 V11 V12 V13 V14] He Hrd Hrd' Hwr Hsome Hwr' Hpv Hpv' Hnx Hhd Htl HR HW HF HA HC Hreads Hwrites.
  destruct (stat_parts _ _ (ex_stat _ _ He)) as (Ei & Ed & _).
  pose proof (fun a => stat_flags w w' a (ex_stat _ _ He)) as Hfl.
  assert (forall a, exists_access w' a <-> exists_access w a) as Hex by (intros a; unfold exists_access; by rewrite (stat_length _ _ (ex_stat _ _ He))).
  pose proof (fun a v => good_read_frame w w' bs a v He) as Hgr. pose proof (fun a v => good_written_frame w w' bs a v He) as Hgw. split.
  - intros a v Hv. destruct (Hrd a v Hv); auto.
  - rewrite Ei. intros a x Hx. rewrite (proj1 (Hfl a)). by apply Hhd.
  - intros a v Hv. destruct (Hwr a v Hv) as [H|H]; [|done]. destruct (V3 a v H). auto.
  - rewrite Ei. intros a x Hx. rewrite (proj2 (Hfl a)). by apply Htl.
  - rewrite Ei. auto.
  - rewrite Ei. intros a n Hn. destruct (Hnx a n Hn); auto.
  - rewrite Ei, Ed. intros a Ha Hr Hp. apply V7; [by apply Hex|by apply Hrd'|]. by rewrite <- Hpv'.
  - intros a v Hin. rewrite Hex. destruct (HR a v Hin) as [H|[H1 H2]]; [|done]. destruct (V8 a v H) as [H1 H2]. split; [done|]. intros Hn. by apply Hgr, H2, Hrd'.
  - intros a v Hin. destruct (HW a v Hin) as [H|H]; [|done]. destruct (V9 a v H). auto.
  - intros a v Hin. destruct (HF a v Hin) as [H|H]; auto.
  - rewrite Ei. exact HA.
  - intros a Hin. apply Hex. auto.
  - intros a Hin. rewrite Hex. destruct (Hreads a Hin) as [H|H]; [|done]. destruct (V13 a H) as [H1 H2]. split; [done|]. intros Hn. rewrite Hpv' by done. by apply H2, Hrd'.
  - rewrite Ed. destruct Hwrites as (W1 & W2 & W3). split; [done|]. split; [done|]. intros d i Hi Hs. rewrite (extends_canceled _ _ _ He). by apply W3.
Qed.

Lemma tokens_step w w' ops ops' g :
  tokens w ops g -> extends w w' -> (forall a, rd w' a = None -> rd w a = None) ->
  (forall a, rd w' a = None -> woken w ops a -> woken w' ops' a) ->
  (forall a x, infos w !! a = Some x -> wr w' a = None -> wr w a = None) ->
  (forall a x, infos w !! a = Some x -> wr w' a = None -> rd w a = None -> rd w' a = None \/ access_type (ai_metadata x) = Write /\ early (g !! ai_tx x) \/ exists v, SetWritten a v ∈ ops') ->
  (forall a v, wr w' a = None -> SetWritten a v ∈ ops -> SetWritten a v ∈ ops') ->
  tokens w' ops' g.
Proof.
  intros [T1 T2] He Hrd Hwo Hwr Hnew Hin. destruct (stat_parts _ _ (ex_stat _ _ He)) as (Ei & _). split.
  - intros a Ha Hn. apply Hwo; [done|]. apply T1; [|by apply Hrd]. unfold exists_access in *. by rewrite <- (stat_length _ _ (ex_stat _ _ He)).
  - rewrite Ei. intros a x Hx Hw. destruct (T2 a x Hx (Hwr a x Hx Hw)) as [Hn|[Hn|[v Hn]]]; [by apply Hnew|by right; left|]. right; right. exists v. auto.
Qed.

(** ** Linking *)

(** The access is linked to the previous one. *)
Lemma Connect_link w bs c R g a y p :
  inv w bs c (Connect a :: R) g -> w_accesses w !! a = Some y -> ra_prev y = Some p ->
  exists w' calls, step_call w (Connect a) = Ok (w', calls) /\ stat w' = stat w /\ inv w' bs c (calls ++ R) g.
Proof.
  intros [Hst Hv Ht Hc Hm] Hy Ep. destruct (cells_at w a y Hy) as (_ & _ & Epv & _). rewrite Ep in Epv. unfold_call. rewrite Hy. cbn [expect mbind outcome_bind]. rewrite Ep.
  pose proof (va_prev _ _ _ _ _ _ Hv a p Epv) as Hadj. pose proof Hadj as (_ & xp & _ & Hxp & _). apply infos_inv in Hxp as (yp & Hyp & _).
  rewrite Hyp. cbn [expect mbind outcome_bind]. set (w' := with_accesses _ _). exists w', [AfterLink a p]. split; [done|].
  assert (stat w' = stat w) as Es by (by apply (stat_store w p yp)). split; [done|]. assert (extends w w') as He by (by apply extends_same).
  destruct (effect_store w w' p yp (store_next yp (Some a)) Hyp eq_refl He) as [_ Er Ew Epv' En]. cbn in Er, Ew, Epv', En.
  destruct (cells_at w p yp Hyp) as (Erp & Ewp & Epp & Enp).
  assert (forall q, rd w' q = rd w q) as Er' by (intros q; rewrite Er; case_decide; congruence). clear Er.
  assert (forall q, wr w' q = wr w q) as Ew' by (intros q; rewrite Ew; case_decide; congruence). clear Ew.
  assert (forall q, pv w' q = pv w q) as Ep' by (intros q; rewrite Epv'; case_decide; congruence). clear Epv'.
  split.
  - by apply (static_frame w).
  - eapply values_step; [done|exact Hv|done|..]; try (intros; rewrite ?Er', ?Ew', ?Ep' in *; auto; fail).
    + intros q n. rewrite En. case_decide; [intros [= <-]; subst; by right|auto].
    + intros q x Hx Hh. rewrite Er'. exact (va_head _ _ _ _ _ _ Hv q x Hx Hh).
    + intros q x Hx Hh. rewrite Ew'. exact (va_tail _ _ _ _ _ _ Hv q x Hx Hh).
    + intros q v Hin. left. set_solver.
    + intros q v Hin. left. set_solver.
    + intros q v Hin. left. set_solver.
    + intros q p' [E|Hin]%elem_of_cons.
      * injection E as -> ->. split; [done|]. left. by rewrite En, decide_True.
      * destruct (va_AfterLink _ _ _ _ _ _ Hv q p' ltac:(by right)) as [Hq Hcase]. split; [done|]. rewrite En, Ew'. case_decide; [subst|done].
         left. f_equal. by eapply adjacent_unique.
    + intros q Hin. set_solver.
    + apply (va_writes _ _ _ _ _ _ Hv).
  - eapply tokens_step; [exact Ht|done|..]; try (intros; rewrite ?Er', ?Ew' in *; auto; fail).
    + intros q _ Hq. unfold woken in *. destruct (stat_parts _ _ Es) as [-> _]. destruct Hq as [Hq|[Hq|[[v Hq]|(p' & Hp' & Hq)]]].
      * apply elem_of_cons in Hq as [E|Hq]; [|left; set_solver]. injection E as ->. right; right; right. exists p. split; [done|]. left. set_solver.
      * by right; left.
      * right; right; left. exists v. set_solver.
      * right; right; right. exists p'. split; [done|]. destruct Hq as [Hq|[Hq Hcase]]; [left; set_solver|]. right. rewrite En, Ew'. split.
         -- case_decide; [subst|done]. f_equal. by eapply adjacent_unique.
         -- destruct Hcase as [?|[v Hv']]; [by left|right; exists v; set_solver].
    + intros q v _ Hin. set_solver.
  - eapply (counts_frame w); [exact Er'|done..| |exact Hc]. apply uncounted_step; [done|by repeat constructor].
  - by apply (commits_frame w).
Qed.

(** Without a previous access, the state is read from the store. *)
Lemma Connect_read w bs c R g a y :
  inv w bs c (Connect a :: R) g -> w_accesses w !! a = Some y -> ra_prev y = None ->
  exists w' calls, step_call w (Connect a) = Ok (w', calls) /\ stat w' = stat w /\ inv w' bs c (calls ++ R) g.
Proof.
  intros [Hst Hv Ht Hc Hm] Hy Ep. destruct (cells_at w a y Hy) as (_ & _ & Epv & _). rewrite Ep in Epv. unfold_call. rewrite Hy. cbn [expect mbind outcome_bind]. rewrite Ep.
  assert (exists_access w a) as Ha by (by eapply lookup_lt_Some). exists (push_read w a), []. split; [done|]. split; [done|]. assert (extends w (push_read w a)) as He by (by apply extends_same). cbn [app]. split.
  - by apply (static_frame w).
  - eapply values_step; [done|exact Hv|done|..]; try (intros; auto; fail).
    all: try (by apply (va_head _ _ _ _ _ _ Hv)); try (by apply (va_tail _ _ _ _ _ _ Hv)); try (by apply (va_writes _ _ _ _ _ _ Hv)); try (intros; set_solver).
    + intros q p' Hin. apply (va_AfterLink _ _ _ _ _ _ Hv). by right.
  - eapply tokens_step; [exact Ht|done|..]; try (intros; auto; fail).
    + intros q _ [Hq|[Hq|[[v Hq]|(p' & Hp' & Hq)]]].
      * apply elem_of_cons in Hq as [E|Hq]; [|by left]. injection E as ->. right; left. cbn. set_solver.
      * right; left. cbn. set_solver.
      * right; right; left. exists v. set_solver.
      * right; right; right. exists p'. split; [done|]. destruct Hq as [Hq|[Hq [?|[v Hv']]]]; [left; set_solver|by right; auto|right]. split; [done|]. right. exists v. set_solver.
    + intros q v _ Hin. set_solver.
  - eapply (counts_frame w); [done..| |exact Hc]. by apply (uncounted_step _ []).
  - by apply (commits_frame w).
Qed.

Lemma Connect_ok w bs c R g a :
  inv w bs c (Connect a :: R) g ->
  exists w' calls, step_call w (Connect a) = Ok (w', calls) /\ stat w' = stat w /\ inv w' bs c (calls ++ R) g.
Proof.
  intros Hi. destruct (lookup_lt_is_Some_2 _ _ (va_Connect _ _ _ _ _ _ (in_values _ _ _ _ _ _ _ _ Hi) a ltac:(by left))) as [y Hy].
  destruct (ra_prev y) as [p|] eqn:Ep; [by eapply Connect_link|by eapply Connect_read].
Qed.

(** A call that only makes other calls. *)
Lemma values_calls w bs c o calls R :
  static w bs -> values w bs c (o :: R) ->
  (forall a v, SetRead a v ∈ calls -> exists_access w a /\ (rd w a = None -> good_read w bs a v)) ->
  Forall (fun y => match y with SetRead _ _ | DecreasePendingResources _ | PushAvailable _ | DecreasePendingTxs _ => True | _ => False end) calls ->
  values w bs c (calls ++ R).
Proof.
  intros Hst Hv Hsr Hf. rewrite Forall_forall in Hf.
  assert (forall y, y ∈ calls ++ R -> y ∈ calls \/ y ∈ o :: R) as Hin by (intros y; rewrite elem_of_app, elem_of_cons; tauto).
  eapply (values_step w); [done|exact Hv|by apply extends_same|..]; auto.
  - apply (va_head _ _ _ _ _ _ Hv).
  - apply (va_tail _ _ _ _ _ _ Hv).
  - intros a v [H|H]%Hin; auto.
  - intros a v [H|H]%Hin; [by apply Hf in H|auto].
  - intros a v [H|H]%Hin; [by apply Hf in H|auto].
  - intros a p [H|H]%Hin; [by apply Hf in H|]. by apply (va_AfterLink _ _ _ _ _ _ Hv).
  - intros a [H|H]%Hin; [by apply Hf in H|auto].
  - apply (va_writes _ _ _ _ _ _ Hv).
Qed.

Lemma AfterLink_ok w bs c R g a p :
  inv w bs c (AfterLink a p :: R) g ->
  exists w' calls, step_call w (AfterLink a p) = Ok (w', calls) /\ stat w' = stat w /\ inv w' bs c (calls ++ R) g.
Proof.
  intros [Hst Hv Ht Hc Hm]. destruct (va_AfterLink _ _ _ _ _ _ Hv a p ltac:(by left)) as [Hadj Hcase].
  pose proof Hadj as (_ & xp & xa & Hxp & Hxa & _). apply infos_inv in Hxp as (yp & Hyp & _). unfold_call. rewrite Hyp. cbn [expect mbind outcome_bind].
  destruct (cells_at w p yp Hyp) as (_ & Ewp & _). eexists _, _. split; [done|]. split; [done|]. split.
  - done.
  - eapply values_calls; [done|exact Hv| |destruct (ra_written yp); by repeat constructor].
    intros q v Hin. destruct (ra_written yp) as [u|]; [|by apply not_elem_of_nil in Hin]. apply list_elem_of_singleton in Hin as [= -> ->].
    split; [unfold exists_access; rewrite <- length_infos; by eapply lookup_lt_Some|]. intros _. eapply good_forward; [done|exact Hv|exact Hadj|]. by apply (va_written _ _ _ _ _ _ Hv p u).
  - eapply (tokens_step w); [exact Ht|by apply extends_same|..]; auto.
    + intros q Hn Hq. destruct (decide (q = a)) as [->|Hne].
      * destruct (ra_written yp) as [u|] eqn:E; [right; right; left; exists u; cbn; set_solver|]. right; right; right. exists p. split; [done|]. right.
        rewrite Ewp in Hcase. destruct Hcase as [->|[? ?]]; [|done]. split; [done|]. by left.
      * destruct Hq as [Hq|[Hq|[[v Hq]|(p' & Hp' & Hq)]]].
        -- left. set_solver.
        -- by right; left.
        -- right; right; left. exists v. set_solver.
        -- right; right; right. exists p'. split; [done|]. destruct Hq as [Hq|[Hq [?|[v Hv']]]]; [left; set_solver|by right; auto|right]. split; [done|]. right. exists v. set_solver.
    + intros q v _ Hin. set_solver.
  - eapply (counts_frame w); [done..| |exact Hc]. apply uncounted_step; [done|]. destruct (ra_written yp); by repeat constructor.
  - done.
Qed.

Lemma Forward_ok w bs c R g a v :
  inv w bs c (Forward a v :: R) g ->
  exists w' calls, step_call w (Forward a v) = Ok (w', calls) /\ stat w' = stat w /\ inv w' bs c (calls ++ R) g.
Proof.
  intros [Hst Hv Ht Hc Hm]. pose proof (va_Forward _ _ _ _ _ _ Hv a v ltac:(by left)) as Hw.
  destruct (w_accesses w !! a) as [y|] eqn:Hy; [|unfold wr in Hw; by rewrite Hy in Hw]. unfold_call. rewrite Hy. cbn [expect mbind outcome_bind].
  destruct (cells_at w a y Hy) as (Er & Ew & Ep & En). set (w' := with_accesses _ _). eexists w', _. split; [done|].
  assert (stat w' = stat w) as Es by (by apply (stat_store w a y)). split; [done|]. assert (extends w w') as He by (by apply extends_same).
  destruct (effect_store w w' a y (store_next y None) Hy eq_refl He) as [_ Er' Ew' Ep' En']. cbn in Er', Ew', Ep', En'.
  assert (forall q, rd w' q = rd w q) as Hr by (intros q; rewrite Er'; case_decide; congruence). clear Er'.
  assert (forall q, wr w' q = wr w q) as Hwr by (intros q; rewrite Ew'; case_decide; congruence). clear Ew'.
  assert (forall q, pv w' q = pv w q) as Hp by (intros q; rewrite Ep'; case_decide; congruence). clear Ep'.
  assert (forall q u, SetRead q u ∈ match ra_next y with Some next => [SetRead next v] | None => [] end -> nx w a = Some q /\ u = v) as Hnew.
  { intros q u Hin. rewrite En. destruct (ra_next y); [|by apply not_elem_of_nil in Hin]. by apply list_elem_of_singleton in Hin as [= -> ->]. }
  assert (forall x, x ∈ match ra_next y with Some next => [SetRead next v] | None => [] end ++ R -> (exists q u, x = SetRead q u /\ nx w a = Some q /\ u = v) \/ x ∈ R) as Hin.
  { intros x [Hx|Hx]%elem_of_app; [|by right]. left. destruct (ra_next y) as [n|] eqn:E; [|by apply not_elem_of_nil in Hx]. apply list_elem_of_singleton in Hx as ->. by exists n, v. }
  split.
  - by apply (static_frame w).
  - eapply (values_step w); [done|exact Hv|done|..]; try (intros; rewrite ?Hr, ?Hwr, ?Hp in *; auto; fail).
    + intros q n. rewrite En'. case_decide; [done|auto].
    + intros q x Hx Hh. rewrite Hr. exact (va_head _ _ _ _ _ _ Hv q x Hx Hh).
    + intros q x Hx Hh. rewrite Hwr. exact (va_tail _ _ _ _ _ _ Hv q x Hx Hh).
    + intros q u [(q' & u' & [= <- <-] & Hn & ->)|H]%Hin; [|left; by right]. right. pose proof (va_next _ _ _ _ _ _ Hv a q Hn) as Hadj.
      pose proof Hadj as (_ & _ & xq & _ & Hxq & _). split; [unfold exists_access; rewrite <- length_infos; by eapply lookup_lt_Some|].
      intros _. apply (good_read_frame w); [done|]. eapply good_forward; [done|exact Hv|exact Hadj|]. by apply (va_written _ _ _ _ _ _ Hv a v).
    + intros q u [(q' & u' & ? & _)|H]%Hin; [done|left; by right].
    + intros q u [(q' & u' & ? & _)|H]%Hin; [done|left; by right].
    + intros q p' [(q' & u' & ? & _)|H]%Hin; [done|]. destruct (va_AfterLink _ _ _ _ _ _ Hv q p' ltac:(by right)) as [Hq Hcase]. split; [done|].
      rewrite Hwr, En'. case_decide; [subst; right; by rewrite Hw|done].
    + intros q [(q' & u' & ? & _)|H]%Hin; [done|by right].
    + apply (va_writes _ _ _ _ _ _ Hv).
  - eapply (tokens_step w); [exact Ht|done|..]; try (intros; rewrite ?Hr, ?Hwr in *; auto; fail).
    + intros q _ Hq. unfold woken in *. destruct (stat_parts _ _ Es) as [-> _]. destruct Hq as [Hq|[Hq|[[u Hq]|(p' & Hp' & Hq)]]].
      * left. set_solver.
      * by right; left.
      * right; right; left. exists u. set_solver.
      * destruct Hq as [Hq|[Hq Hcase]]; [right; right; right; exists p'; split; [done|]; left; set_solver|].
        destruct (decide (p' = a)) as [->|Hne].
        -- right; right; left. exists v. rewrite En in Hq. rewrite Hq. set_solver.
        -- right; right; right. exists p'. split; [done|]. right. rewrite En', decide_False by done. rewrite Hwr. split; [done|].
           destruct Hcase as [?|[u Hu]]; [by left|right; exists u]. set_solver.
    + intros q u _ H. set_solver.
  - eapply (counts_frame w); [exact Hr|done..| |exact Hc]. apply uncounted_step; [done|]. destruct (ra_next y); by repeat constructor.
  - by apply (commits_frame w).
Qed.

(** ** Resolving a read *)

Lemma woken_drop w o R q :
  match o with Connect a | SetRead a _ | AfterLink a _ => a <> q | Forward _ _ => False | _ => True end -> woken w (o :: R) q -> woken w R q.
Proof.
  intros Ho [Hw|[Hw|[[u Hw]|(p & Hp & Hw)]]].
  - apply elem_of_cons in Hw as [<-|Hw]; [done|by left].
  - by right; left.
  - apply elem_of_cons in Hw as [<-|Hw]; [done|]. right; right; left. by exists u.
  - right; right; right. exists p. split; [done|]. destruct Hw as [[<-|Hw]%elem_of_cons|[Hw [?|[u [<-|Hu]%elem_of_cons]]]]; [done|by left|by right; auto|done|].
    right. split; [done|]. right. by exists u.
Qed.

(** A call without effect. *)
Lemma noop_ok w bs c o R g :
  inv w bs c (o :: R) g -> counted o = false ->
  (forall a, exists_access w a -> rd w a = None -> woken w (o :: R) a -> woken w R a) ->
  (forall a v, wr w a = None -> SetWritten a v = o -> False) -> inv w bs c R g.
Proof.
  intros [Hst Hv Ht Hc Hm] Hun Hwo Hsw. split; [done| | | |done].
  - apply (values_calls w bs c o []); [done..|by intros ? ? ?%not_elem_of_nil|constructor].
  - destruct Ht as [T1 T2]. split; [auto|]. intros a x Hx Hn. destruct (T2 a x Hx Hn) as [?|[?|[v [E|?]%elem_of_cons]]]; [by left|by right; left| |right; right; by exists v].
    by destruct (Hsw a v Hn).
  - eapply (counts_frame w); [done..| |exact Hc]. by apply (uncounted_step o []).
Qed.

(** [a] is one of the accesses of its transaction, and only of it. *)
Lemma resources_NoDup w bs t i : static w bs -> tinfos w !! t = Some i -> NoDup (ti_resources i).
Proof.
  intros Hst Hi. destruct (st_linked _ _ _ Hst t i Hi) as [Hf Hnd]. apply NoDup_alt. intros j k a Hj Hk.
  destruct (Forall2_lookup_l _ _ _ _ _ Hf Hj) as (m & Hm & x & Hx & Em & _), (Forall2_lookup_l _ _ _ _ _ Hf Hk) as (m' & Hm' & x' & Hx' & Em' & _).
  eapply (NoDup_lookup _ _ _ _ Hnd); [by rewrite list_lookup_fmap, Hm|rewrite list_lookup_fmap, Hm'; cbn; do 2 f_equal; congruence].
Qed.

Lemma resource_tx w bs t i a x : static w bs -> tinfos w !! t = Some i -> infos w !! a = Some x -> a ∈ ti_resources i <-> ai_tx x = t.
Proof.
  intros Hst Hi Hx. split.
  - intros Ha. apply list_elem_of_lookup in Ha as [k Hk]. destruct (st_linked _ _ _ Hst t i Hi) as [Hf _].
    destruct (Forall2_lookup_l _ _ _ _ _ Hf Hk) as (m & _ & x' & Hx' & _ & Et & _). congruence.
  - intros <-. destruct (st_complete _ _ _ Hst a x Hx) as (i' & Hi' & Hin). congruence.
Qed.

(** Resolving one of them leaves one less. *)
Lemma unresolved_step w w' bs a x t i :
  static w bs -> infos w !! a = Some x -> tinfos w !! t = Some i -> rd w a = None -> (forall q, rd w' q = None <-> q <> a /\ rd w q = None) ->
  unresolved w i = unresolved w' i + (if decide (t = ai_tx x) then 1 else 0).
Proof.
  intros Hst Hx Hi Hn Hrd. unfold unresolved. pose proof (resources_NoDup w bs t i Hst Hi) as Hnd. pose proof (resource_tx w bs t i a x Hst Hi Hx) as Ha.
  rewrite (list_filter_iff (fun q => rd w' q = None) (fun q => q <> a /\ rd w q = None)) by done. clear Hi.
  assert (forall l, NoDup l -> length (filter (fun q => rd w q = None) l) = length (filter (fun q => q <> a /\ rd w q = None) l) + (if decide (a ∈ l) then 1 else 0)) as Hl.
  { clear Hnd Ha i. induction l as [|q l IH]; intros Hnd; [rewrite decide_False by apply not_elem_of_nil; done|]. apply NoDup_cons in Hnd as [Hq Hnd]. rewrite !filter_cons.
    destruct (decide (q = a)) as [->|Hne].
    - rewrite (decide_True (P := a ∈ a :: l)) by (by left). rewrite (decide_True (P := rd w a = None)) by done. rewrite (decide_False (P := a <> a /\ _)) by tauto.
      cbn. rewrite IH by done. rewrite decide_False by done. lia.
    - rewrite (decide_ext (a ∈ q :: l) (a ∈ l)) by (rewrite elem_of_cons; naive_solver). destruct (decide (rd w q = None)) as [Hr|Hr].
      + rewrite (decide_True (P := q <> a /\ _)) by done. cbn. rewrite IH by done. lia.
      + rewrite (decide_False (P := q <> a /\ _)) by tauto. by apply IH. }
  rewrite (Hl _ Hnd). f_equal. apply decide_ext. rewrite Ha. naive_solver.
Qed.

Section set_read.
Context w bs (c : nat) R g (a : nat) (v : Version) (y : ResourceAccess) (i : diff_cell).
Hypothesis Hinv : inv w bs c (SetRead a v :: R) g.
Hypothesis Hy : w_accesses w !! a = Some y.
Hypothesis Hn : ra_read y = None.
Let d := ai_diff (ra_info y).
Hypothesis Hi : w_diffs w !! d = Some i.
Let w1 := with_accesses w (<[a := store_read y v]> (w_accesses w)).
Let w' := with_diffs w1 (if ra_is_batch_head y then <[d := {| dc_info := dc_info i; dc_read := Some v; dc_written := dc_written i |}]> (w_diffs w) else w_diffs w).
Let calls := match access_type (ai_metadata (ra_info y)) with Read => [SetWritten a v] | Write => [] end ++ [DecreasePendingResources (ai_tx (ra_info y))].

Lemma set_read_call : step_call w (SetRead a v) = Ok (w', calls).
Proof.
  unfold_call. rewrite Hy. cbn [expect mbind outcome_bind]. rewrite Hn. unfold w'. destruct (ra_is_batch_head y); [|done].
  unfold diff_set_read. cbn [w_diffs with_accesses]. fold d. rewrite Hi. done.
Qed.

Lemma set_read_info : infos w !! a = Some (ra_info y) /\ rd w a = None /\ head w a = ra_is_batch_head y.
Proof. split; [by apply infos_lookup|]. unfold rd, head. by rewrite Hy. Qed.

Lemma set_read_drd q : drd w' q = if decide (ra_is_batch_head y = true /\ q = d) then Some v else drd w q.
Proof.
  unfold drd, w'. cbn. destruct (ra_is_batch_head y).
  - erewrite upd_field by done. destruct (decide (q = d)) as [->|]; [by rewrite decide_True|by rewrite decide_False by tauto].
  - by rewrite decide_False by (by intros [? _]).
Qed.
Lemma set_read_dwr q : dwr w' q = dwr w q.
Proof.
  unfold dwr, w'. cbn. destruct (ra_is_batch_head y); [|done]. erewrite upd_field by done. case_decide; [subst; by rewrite Hi|done].
Qed.

Lemma set_read_extends : extends w w'.
Proof.
  destruct Hinv as [Hst Hv _ _ _]. destruct set_read_info as (Hx & Hr & Hh). split.
  - unfold w'. destruct (ra_is_batch_head y) eqn:E; [|by apply (stat_store w a y)]. etrans; [|by apply (stat_store w a y (store_read y v))]. by apply (stat_diff w1 d i).
  - done.
  - intros q u Hu. rewrite set_read_drd. case_decide as E; [|done]. destruct E as [E ->]. rewrite <- Hh in E.
    pose proof (va_head _ _ _ _ _ _ Hv a _ Hx E) as Ed. rewrite Hr in Ed. unfold d in Hu. congruence.
Qed.

Lemma set_read_effect : effect w w' a (Some v) (wr w a) None (nx w a).
Proof.
  destruct (cells_at w a y Hy) as (_ & -> & _ & ->). apply (effect_store w w' a y (store_read y v) Hy eq_refl set_read_extends).
Qed.

Lemma set_read_good : good_read w' bs a v.
Proof.
  apply (good_read_frame w); [apply set_read_extends|]. destruct Hinv as [_ Hv _ _ _]. apply (va_SetRead _ _ _ _ _ _ Hv a v); [by left|]. apply set_read_info.
Qed.

(** A read-only access passes the state on. *)
Lemma set_read_written : access_type (ai_metadata (ra_info y)) = Read -> good_written w' bs a v.
Proof.
  intros Hro. destruct Hinv as [Hst Hv _ _ _]. destruct set_read_info as (Hx & Hr & Hh). destruct (stat_parts _ _ (ex_stat _ _ set_read_extends)) as (Ei & Ed & _).
  destruct set_read_good as (x & Hx' & Erid & Hc & Hnh). rewrite Ei in Hx'. rewrite Hx in Hx'. injection Hx' as <-.
  destruct (stat_flags _ _ a (ex_stat _ _ set_read_extends)) as [Eh _]. exists (ra_info y). rewrite Ei. split; [done|]. split; [done|].
  assert (after bs (S (ai_tx (ra_info y))) !! ai_rid (ra_info y) = after bs (ai_tx (ra_info y)) !! ai_rid (ra_info y)) as Eafter.
  { apply (after_unwritten process σ0 n0 w); [done|]. intros q z Hz Et Er. by rewrite (sh_same _ _ (st_shape _ _ _ Hst) q a z _ Hz Hx Et Er) in Hz; simplify_eq. }
  assert (forall u, drd w' d = Some u -> (batch_canceled w' (abatch (dinfos w') (ra_info y)) = false -> v = u \/ sv_version v = index_at bs (abatch (dinfos w') (ra_info y))) ->
    exists u, drd w' d = Some u /\ (batch_canceled w' (abatch (dinfos w') (ra_info y)) = false ->
      reads_from (after bs (S (ai_tx (ra_info y)))) v /\ (v = u \/ sv_version v = index_at bs (abatch (dinfos w') (ra_info y))))) as Hfin.
  { intros u Hu Hv'. exists u. split; [done|]. intros E. split; [|by apply Hv']. eapply reads_from_ext; [|by apply Hc]. by rewrite Erid, Eafter. }
  destruct (Sumbool.sumbool_of_bool (ra_is_batch_head y)) as [E|E].
  - apply (Hfin v); [|by left]. by rewrite set_read_drd, decide_True.
  - destruct Hnh as (u & Hu & Hv'); [congruence|]. by apply (Hfin u).
Qed.

Lemma set_read_values : values w' bs c (calls ++ R).
Proof.
  destruct Hinv as [Hst Hv _ _ _]. destruct set_read_info as (Hx & Hr & Hh). destruct set_read_effect as [He Er Ew Ep En].
  pose proof set_read_good as Hgood. pose proof set_read_written as Hgw.
  assert (forall q, wr w' q = wr w q) as Ew' by (intros q; rewrite Ew; case_decide; congruence). clear Ew.
  assert (forall q, nx w' q = nx w q) as En' by (intros q; rewrite En; case_decide; congruence). clear En.
  assert (forall z, z ∈ calls ++ R -> z ∈ R \/ z = SetWritten a v /\ access_type (ai_metadata (ra_info y)) = Read \/ z = DecreasePendingResources (ai_tx (ra_info y))) as Hin.
  { intros z. unfold calls. destruct (access_type _); set_solver. }
  eapply (values_step w); [done|exact Hv|done|..]; try (intros; rewrite ?Ew', ?En' in *; auto; fail).
  - intros q u. rewrite Er. case_decide; [intros [= <-]; subst; by right|by left].
  - intros q. rewrite Er. by case_decide.
  - intros q. rewrite Er. case_decide; [by eexists|done].
  - intros q p. rewrite Ep. by case_decide.
  - intros q. rewrite Er, Ep. by case_decide.
  - intros q x Hq Hhq. rewrite Er, set_read_drd. case_decide as E.
    + subst q. rewrite Hx in Hq. injection Hq as <-. rewrite Hh in Hhq. by rewrite decide_True.
    + rewrite decide_False; [exact (va_head _ _ _ _ _ _ Hv q x Hq Hhq)|]. intros [Ehd Ed]. apply E. rewrite <- Hh in Ehd. by eapply (head_unique n0 w bs).
  - intros q x Hq Htq. rewrite Ew', set_read_dwr. exact (va_tail _ _ _ _ _ _ Hv q x Hq Htq).
  - intros q u [H|[[? _]|?]]%Hin; [left; by right|done..].
  - intros q u [H|[[E Hro]|?]]%Hin; [left; by right| |done]. injection E as -> ->. right. split; [by apply Hgw|]. rewrite Er, decide_True by done. by eexists.
  - intros q u [H|[[? _]|?]]%Hin; [left; by right|done..].
  - intros q p [H|[[? _]|?]]%Hin; [|done..]. rewrite Ew', En'. apply (va_AfterLink _ _ _ _ _ _ Hv q p). by right.
  - intros q [H|[[? _]|?]]%Hin; [by right|done..].
  - destruct (va_writes _ _ _ _ _ _ Hv) as (W1 & W2 & W3). split; [done|]. split; intros q; rewrite set_read_dwr; [apply W2|apply W3].
Qed.

Lemma set_read_waiting : g !! ai_tx (ra_info y) = Some Waiting.
Proof.
  destruct Hinv as [Hst _ _ Hc _]. destruct set_read_info as (Hx & Hr & _). destruct (access_tx n0 w bs Hst a _ Hx) as (i' & k & Hi' & Hk & _).
  apply list_lookup_fmap_Some in Hi' as (x & -> & Hxt). pose proof (lookup_lt_Some _ _ _ Hxt) as Hlt. rewrite <- (co_length _ _ _ Hc) in Hlt.
  destruct (lookup_lt_is_Some_2 _ _ Hlt) as [st Est]. rewrite Est. f_equal. destruct (decide (st = Waiting)) as [|Hne]; [done|].
  pose proof (co_ready _ _ _ Hc _ _ _ Hxt Est Hne) as Hp. rewrite (co_pending _ _ _ Hc _ _ Hxt) in Hp.
  assert (0 < unresolved w (st_info x)); [|lia]. unfold unresolved. apply (list_elem_of_lookup_2 (A := nat)) in Hk.
  assert (a ∈ filter (fun q => rd w q = None) (ti_resources (st_info x))) as Hf by (by apply list_elem_of_filter). destruct (filter _ _); [by apply not_elem_of_nil in Hf|cbn; lia].
Qed.

Lemma set_read_tokens : tokens w' (calls ++ R) g.
Proof.
  pose proof set_read_waiting as Hwait. destruct Hinv as [Hst _ Ht _ _]. destruct set_read_info as (Hx & Hr & Hh). destruct set_read_effect as [He Er Ew Ep En].
  assert (forall q, wr w' q = wr w q) as Ew' by (intros q; rewrite Ew; case_decide; congruence). clear Ew.
  assert (forall q, nx w' q = nx w q) as En' by (intros q; rewrite En; case_decide; congruence). clear En.
  assert (forall z, z ∈ R -> z ∈ calls ++ R) as Hin by (intros z; rewrite elem_of_app; by right).
  eapply (tokens_step w); [exact Ht|done|..]; try (intros; rewrite ?Ew', ?En' in *; auto; fail).
  - intros q. rewrite Er. by case_decide.
  - intros q. rewrite Er. case_decide as Eq; [done|]. intros _ Hq. unfold woken in *. destruct (stat_parts _ _ (ex_stat _ _ He)) as [-> _].
    destruct Hq as [Hq|[Hq|[[u Hq]|(p & Hp & Hq)]]].
    + left. apply Hin. set_solver.
    + by right; left.
    + right; right; left. exists u. apply elem_of_cons in Hq as [E|Hq]; [by injection E as -> ->|by apply Hin].
    + right; right; right. exists p. rewrite En', Ew'. split; [done|]. destruct Hq as [Hq|[Hq [?|[u Hu]]]]; [left; apply Hin; set_solver|by right; auto|right]. split; [done|]. right. exists u. apply Hin. set_solver.
  - intros q x Hq _ Hrq. rewrite Er. case_decide as E; [subst q|by left]. rewrite Hx in Hq. injection Hq as <-. right. unfold calls. destruct (access_type _).
    + right. exists v. set_solver.
    + left. split; [done|]. by left.
  - intros q u Hw Hq. apply Hin. set_solver.
Qed.

Lemma set_read_counts : counts w' (calls ++ R) g.
Proof.
  destruct set_read_info as (Hx & Hr & _). destruct set_read_effect as [He Er _ _ _]. destruct Hinv as [Hst _ _ [C1 C2 C3 C4 C5 C6 C7 C8 C9 C10] _].
  assert (forall z, counted z = true -> occurrences z (calls ++ R) = (if decide (z = DecreasePendingResources (ai_tx (ra_info y))) then 1 else 0) + occurrences z (SetRead a v :: R)) as Ho.
  { intros z Hz. rewrite (occurrences_cons _ (SetRead a v)), (decide_False (P := z = SetRead a v)) by (by intros ->). unfold calls.
    destruct (access_type _); cbn [app]; rewrite ?occurrences_cons; rewrite ?(decide_False (P := z = SetWritten a v)) by (by intros ->); cbn; rewrite ?occurrences_cons; lia. }
  assert (forall z, counted z = true -> z ∈ calls ++ R -> z = DecreasePendingResources (ai_tx (ra_info y)) \/ z ∈ SetRead a v :: R) as Hin.
  { intros z Hz. rewrite <- !occurrences_elem, Ho by done. case_decide; [by left|by right]. }
  split; try done.
  - intros t x Ht. change (w_txs w !! t = Some x) in Ht. rewrite Ho by done. rewrite (C2 t x Ht).
    assert (tinfos w !! t = Some (st_info x)) as Hti by (unfold tinfos; by rewrite list_lookup_fmap, Ht).
    rewrite (unresolved_step w w' bs a _ t (st_info x) Hst Hx Hti Hr) by (intros q; rewrite Er; case_decide; naive_solver).
    rewrite (decide_ext (DecreasePendingResources t = DecreasePendingResources (ai_tx (ra_info y))) (t = ai_tx (ra_info y))) by naive_solver. lia.
  - intros t x s Ht Hs. rewrite Ho, decide_False by done. by apply C5.
  - intros t x Ht [E|H]%Hin; [|by eapply C6|done]. injection E as ->. destruct (access_tx n0 w bs Hst a _ Hx) as (i' & k & Hi' & Hk & _).
    apply list_lookup_fmap_Some in Hi' as (x' & -> & Hxt). change (w_txs w !! ai_tx (ra_info y) = Some x) in Ht. rewrite Hxt in Ht. injection Ht as <-. by intros E; rewrite E in Hk.
  - intros t s Hs. rewrite Ho, decide_False by done. by apply C8.
  - intros t Ht. destruct (access_tx n0 w bs Hst a _ Hx) as (i' & k & Hi' & _). apply lookup_lt_Some in Hi'. unfold tinfos in Hi'. rewrite length_fmap, <- C1 in Hi'.
    destruct Ht as [?|[H|[H|H]]]; [by apply C9; left|apply Hin in H as [E|H]; [first [discriminate E|by injection E as ->]| |done]..]; apply C9; tauto.
Qed.

Lemma set_read_ok : inv w' bs c (calls ++ R) g.
Proof.
  split; [|apply set_read_values|apply set_read_tokens|apply set_read_counts|]; destruct Hinv as [Hst _ _ _ Hm].
  - by apply (static_frame w), Hst; apply set_read_extends.
  - by apply (commits_frame w); [apply set_read_extends|..].
Qed.
End set_read.

Lemma diff_exists w bs a y : static w bs -> w_accesses w !! a = Some y -> exists i, w_diffs w !! ai_diff (ra_info y) = Some i /\ abatch (dinfos w) (ra_info y) = di_batch (dc_info i).
Proof.
  intros Hst Hy. destruct (sh_diff _ _ (st_shape _ _ _ Hst) a _ (infos_lookup w a y Hy)) as (d & Hd & _). pose proof Hd as Hd'. apply list_lookup_fmap_Some in Hd' as (i & -> & Hi).
  exists i. split; [done|]. unfold abatch. by rewrite Hd.
Qed.

Lemma SetRead_ok w bs c R g a v :
  inv w bs c (SetRead a v :: R) g ->
  exists w' calls, step_call w (SetRead a v) = Ok (w', calls) /\ stat w' = stat w /\ inv w' bs c (calls ++ R) g.
Proof.
  intros Hinv. destruct (va_SetRead _ _ _ _ _ _ (in_values _ _ _ _ _ _ _ _ Hinv) a v ltac:(by left)) as [Ha _].
  destruct (lookup_lt_is_Some_2 _ _ Ha) as [y Hy]. destruct (ra_read y) as [u|] eqn:Hr.
  - exists w, []. unfold_call. rewrite Hy. cbn [expect mbind outcome_bind]. rewrite Hr. split; [done|]. split; [done|]. apply (noop_ok w bs c (SetRead a v)); [done|done| |done].
    intros q Hq Hn. destruct (cells_at w a y Hy) as (Er & _). apply woken_drop. intros ->. congruence.
  - destruct (diff_exists w bs a y (in_static _ _ _ _ _ _ _ _ Hinv) Hy) as (i & Hi & _).
    eexists _, _. split; [by apply (set_read_call w a v y i)|]. split; [|by apply set_read_ok]. by eapply ex_stat, set_read_extends.
Qed.

(** ** Resolving a write *)

Section set_written.
Context w bs (c : nat) R g (a : nat) (v : Version) (y : ResourceAccess) (i : diff_cell).
Hypothesis Hinv : inv w bs c (SetWritten a v :: R) g.
Hypothesis Hy : w_accesses w !! a = Some y.
Hypothesis Hn : ra_written y = None.
Let d := ai_diff (ra_info y).
Hypothesis Hi : w_diffs w !! d = Some i.
Let w1 := with_accesses w (<[a := store_written y v]> (w_accesses w)).
Let w2 := with_diffs w1 (<[d := {| dc_info := dc_info i; dc_read := dc_read i; dc_written := Some v |}]> (w_diffs w)).
Let w3 := if batch_canceled w2 (di_batch (dc_info i)) then w2 else push_write w2 d.
Let w' := if ra_is_batch_tail y then w3 else w1.

Lemma set_written_call : step_call w (SetWritten a v) = Ok (w', [Forward a v]).
Proof.
  unfold_call. rewrite Hy. cbn [expect mbind outcome_bind]. rewrite Hn. unfold w'. destruct (ra_is_batch_tail y); [|done].
  unfold diff_set_written. cbn [w_diffs with_accesses]. fold d. rewrite Hi. done.
Qed.

Lemma set_written_rest : w_accesses w' = w_accesses w1 /\ w_threshold w' = w_threshold w /\ w_txs w' = w_txs w /\ w_batches w' = w_batches w /\
  w_resources w' = w_resources w /\ w_reads w' = w_reads w /\ w_available w' = w_available w /\ w_lifecycle w' = w_lifecycle w /\ w_latest w' = w_latest w /\
  w_diffs w' = if ra_is_batch_tail y then w_diffs w2 else w_diffs w.
Proof. unfold w', w3. destruct (ra_is_batch_tail y); [|done]. by destruct (batch_canceled _ _). Qed.

Lemma set_written_info : infos w !! a = Some (ra_info y) /\ wr w a = None /\ tail w a = ra_is_batch_tail y.
Proof. split; [by apply infos_lookup|]. unfold wr, tail. by rewrite Hy. Qed.

Lemma set_written_dwr q : dwr w' q = if decide (ra_is_batch_tail y = true /\ q = d) then Some v else dwr w q.
Proof.
  unfold dwr. destruct set_written_rest as (_ & _ & _ & _ & _ & _ & _ & _ & _ & ->). destruct (ra_is_batch_tail y).
  - cbn. erewrite upd_field by done. destruct (decide (q = d)) as [->|]; [by rewrite decide_True|by rewrite decide_False by tauto].
  - by rewrite decide_False by (by intros [? _]).
Qed.
Lemma set_written_drd q : drd w' q = drd w q.
Proof.
  unfold drd. destruct set_written_rest as (_ & _ & _ & _ & _ & _ & _ & _ & _ & ->). destruct (ra_is_batch_tail y); [|done].
  cbn. erewrite upd_field by done. case_decide; [subst; by rewrite Hi|done].
Qed.

Lemma set_written_extends : extends w w'.
Proof.
  assert (stat w2 = stat w) as E2 by (etrans; [by apply (stat_diff w1 d i)|by apply (stat_store w a y)]). split.
  - unfold w', w3. destruct (ra_is_batch_tail y); [|by apply (stat_store w a y)]. by destruct (batch_canceled _ _).
  - apply set_written_rest.
  - intros q u. by rewrite set_written_drd.
Qed.

Lemma set_written_effect : effect w w' a (rd w a) (Some v) (pv w a) (nx w a).
Proof.
  destruct (cells_at w a y Hy) as (-> & _ & -> & ->). apply (effect_store w w' a y (store_written y v) Hy); [apply set_written_rest|apply set_written_extends].
Qed.

Lemma set_written_writes :
  w_writes w' = w_writes w ++ (if decide (ra_is_batch_tail y = true /\ batch_canceled w (di_batch (dc_info i)) = false) then [d] else []).
Proof.
  assert (batch_canceled w2 (di_batch (dc_info i)) = batch_canceled w (di_batch (dc_info i))) as E by done.
  unfold w', w3. rewrite E. destruct (ra_is_batch_tail y); [|rewrite decide_False by (by intros [? _]); by rewrite app_nil_r].
  destruct (batch_canceled w _); [rewrite decide_False by (by intros [_ ?]); by rewrite app_nil_r|by rewrite decide_True].
Qed.

Lemma set_written_values : values w' bs c ([Forward a v] ++ R).
Proof.
  destruct Hinv as [Hst Hv _ _ _]. destruct set_written_info as (Hx & Hw & Htl). destruct set_written_effect as [He Er Ew Ep En].
  destruct (va_SetWritten _ _ _ _ _ _ Hv a v ltac:(by left)) as [Hgood Hsome].
  assert (forall q, rd w' q = rd w q) as Er' by (intros q; rewrite Er; case_decide; congruence). clear Er.
  assert (forall q, pv w' q = pv w q) as Ep' by (intros q; rewrite Ep; case_decide; congruence). clear Ep.
  assert (forall q, nx w' q = nx w q) as En' by (intros q; rewrite En; case_decide; congruence). clear En.
  assert (ra_is_batch_tail y = true -> dwr w d = None) as Hnone by (intros E; rewrite <- Htl in E; unfold d; rewrite <- (va_tail _ _ _ _ _ _ Hv a _ Hx E); done).
  assert (forall q x, infos w !! q = Some x -> tail w q = true -> q <> a -> ~ (ra_is_batch_tail y = true /\ ai_diff x = d)) as Huniq.
  { intros q x Hq Htq Hne [E Ed]. apply Hne. rewrite <- Htl in E. by eapply (tail_unique n0 w bs). }
  eapply (values_step w); [done|exact Hv|done|..]; try (intros; rewrite ?Er', ?En', ?Ep' in *; auto; fail).
  - intros q u. rewrite Ew, Er'. case_decide; [intros [= <-]; subst; right; split; [by apply (good_written_frame w)|done]|by left].
  - intros q u. rewrite Ew. case_decide; [subst; by rewrite Hw|done].
  - intros q x Hq Hh. rewrite Er', set_written_drd. exact (va_head _ _ _ _ _ _ Hv q x Hq Hh).
  - intros q x Hq Htq. rewrite Ew, set_written_dwr. case_decide as E.
    + subst q. rewrite Hx in Hq. injection Hq as <-. rewrite Htl in Htq. by rewrite decide_True.
    + rewrite decide_False by (by eapply Huniq). exact (va_tail _ _ _ _ _ _ Hv q x Hq Htq).
  - intros q u [?|H]%elem_of_cons; [done|left; by right].
  - intros q u [?|H]%elem_of_cons; [done|left; by right].
  - intros q u [E|H]%elem_of_cons; [|left; by right]. injection E as -> ->. right. by rewrite Ew, decide_True.
  - intros q p [?|H]%elem_of_cons; [done|]. destruct (va_AfterLink _ _ _ _ _ _ Hv q p ltac:(by right)) as [Hq Hcase]. rewrite En', Ew. split; [done|].
    destruct Hcase as [?|?]; [by left|right]. by case_decide.
  - intros q [?|H]%elem_of_cons; [done|by right].
  - destruct set_written_rest as (_ & _ & _ & _ & _ & -> & _). intros q Hq. by left.
  - destruct (va_writes _ _ _ _ _ _ Hv) as (W1 & W2 & W3). rewrite set_written_writes. split; [|split].
    + case_decide as E; [|by rewrite app_nil_r]. apply NoDup_app. split; [done|]. split; [|apply NoDup_singleton]. intros q Hq ->%list_elem_of_singleton.
      apply W2 in Hq as [? Hq]. rewrite Hnone in Hq by tauto. done.
    + intros q. rewrite set_written_dwr. destruct (decide (ra_is_batch_tail y = true /\ q = d)) as [E|E]; [by eexists|]. intros [Hq|Hq]%elem_of_app; [by apply W2|].
      case_decide as E'; [|by apply not_elem_of_nil in Hq]. apply list_elem_of_singleton in Hq as ->. tauto.
    + intros q j Hj. rewrite set_written_dwr, elem_of_app. destruct (decide (ra_is_batch_tail y = true /\ q = d)) as [E|E]; [|intros ? ?; left; by eapply W3]. destruct E as [E ->]. intros _ Hcan. right.
      rewrite decide_True; [by apply list_elem_of_singleton|]. split; [done|]. unfold dinfos in Hj. rewrite list_lookup_fmap, Hi in Hj. cbn in Hj. injection Hj as <-. done.
Qed.

Lemma set_written_tokens : tokens w' ([Forward a v] ++ R) g.
Proof.
  destruct Hinv as [Hst _ Ht _ _]. destruct set_written_info as (Hx & Hw & _). destruct set_written_effect as [He Er Ew Ep En].
  assert (forall q, rd w' q = rd w q) as Er' by (intros q; rewrite Er; case_decide; congruence). clear Er.
  assert (forall q, nx w' q = nx w q) as En' by (intros q; rewrite En; case_decide; congruence). clear En.
  eapply (tokens_step w); [exact Ht|done|..]; try (intros; rewrite ?Er', ?En' in *; auto; fail).
  - intros q _ Hq. unfold woken in *. destruct (stat_parts _ _ (ex_stat _ _ He)) as [-> _]. destruct set_written_rest as (_ & _ & _ & _ & _ & -> & _).
    destruct Hq as [Hq|[Hq|[[u Hq]|(p & Hp & Hq)]]].
    + left. set_solver.
    + by right; left.
    + right; right; left. exists u. set_solver.
    + right; right; right. exists p. rewrite En', Ew. split; [done|]. destruct Hq as [Hq|[Hq Hcase]]; [left; set_solver|right]. split; [done|].
      case_decide; [right; exists v; subst; set_solver|]. destruct Hcase as [?|[u Hu]]; [by left|right; exists u; set_solver].
  - intros q x Hq. rewrite Ew. by case_decide.
  - intros q u. rewrite Ew. case_decide; [done|]. intros _ Hq. set_solver.
Qed.

Lemma set_written_ok : inv w' bs c ([Forward a v] ++ R) g.
Proof.
  pose proof set_written_extends as He. destruct set_written_rest as (_ & _ & Et & Eb & Er & _ & Ea & El & Es & _).
  split; [|apply set_written_values|apply set_written_tokens| |]; destruct Hinv as [Hst _ _ Hc Hm].
  - by apply (static_frame w), Hst; apply He.
  - eapply (counts_frame w); [|done..| |exact Hc]; [|apply uncounted_step; [done|by repeat constructor]].
    intros q. destruct set_written_effect as [_ -> _ _ _]. by case_decide; subst.
  - by apply (commits_frame w).
Qed.
End set_written.

Lemma SetWritten_ok w bs c R g a v :
  inv w bs c (SetWritten a v :: R) g ->
  exists w' calls, step_call w (SetWritten a v) = Ok (w', calls) /\ stat w' = stat w /\ inv w' bs c (calls ++ R) g.
Proof.
  intros Hinv. destruct (va_SetWritten _ _ _ _ _ _ (in_values _ _ _ _ _ _ _ _ Hinv) a v ltac:(by left)) as [(x & Hx & _) _].
  apply infos_inv in Hx as (y & Hy & _). destruct (ra_written y) as [u|] eqn:Hr.
  - exists w, []. unfold_call. rewrite Hy. cbn [expect mbind outcome_bind]. rewrite Hr. split; [done|]. split; [done|].
    destruct (cells_at w a y Hy) as (_ & Ew & _). apply (noop_ok w bs c (SetWritten a v)); [done|done| |].
    + intros q Hq Hn. by apply woken_drop.
    + intros q u' Hn E. injection E as -> ->. congruence.
  - destruct (diff_exists w bs a y (in_static _ _ _ _ _ _ _ _ Hinv) Hy) as (i & Hi & _).
    eexists _, _. split; [by apply (set_written_call w a v y i)|]. split; [|by apply set_written_ok]. by apply set_written_extends.
Qed.
End calls.
