(* ===== verification/SchedCounters.v ===== *)
(** * SchedCounters: transactions and batches that get done

    The counters of unresolved accesses and unfinished transactions, and what every call does to
    the invariant. *)

From S2P Require Import Prelude Codec Types SmtNode SmtTrie SmtUpdate SmtTree AtomicRing CanonicalChain RocksStore L1Types StateSpaces SchedStore SchedCore SchedProofs SchedAccess SchedSerial SchedShape SchedFlow SchedCalls.

Section counters.
Context {Tx M : Type} (process : M -> nat -> SchedulerTransaction Tx -> list bytes -> option (list (list edit))).
Context (σ0 : vstate) (n0 : Z).
Implicit Types (w : World (Tx := Tx) (M := M)) (bs : list (Checkpoint M * list (SchedulerTransaction Tx))) (ops R : list call) (g : list stage).

Abbreviation static := (static n0).
Abbreviation values := (values process σ0).
Abbreviation commits := (commits process σ0).
Abbreviation inv := (inv process σ0 n0).

Lemma values_same w w' bs c ops ops' :
  static w bs -> values w bs c ops -> extends w w' -> w_accesses w' = w_accesses w -> w_diffs w' = w_diffs w -> w_reads w' = w_reads w -> w_writes w' = w_writes w ->
  (forall x, x ∈ ops' -> x ∈ ops \/ counted x = true) -> values w' bs c ops'.
Proof.
  intros Hst Hv He Ea Ed Er Ew Hin.
  assert (forall a, rd w' a = rd w a) as H1 by (intros a; unfold rd; by rewrite Ea). assert (forall a, wr w' a = wr w a) as H2 by (intros a; unfold wr; by rewrite Ea).
  assert (forall a, pv w' a = pv w a) as H3 by (intros a; unfold pv; by rewrite Ea). assert (forall a, nx w' a = nx w a) as H4 by (intros a; unfold nx; by rewrite Ea).
  assert (forall d, drd w' d = drd w d) as H5 by (intros d; unfold drd; by rewrite Ed). assert (forall d, dwr w' d = dwr w d) as H6 by (intros d; unfold dwr; by rewrite Ed).
  eapply (values_step _ _ _ w); [done|exact Hv|done|..]; try (intros; rewrite ?H1, ?H2, ?H3, ?H4 in *; auto; fail).
  - intros a x. rewrite H1, H5. apply (va_head _ _ _ _ _ _ Hv).
  - intros a x. rewrite H2, H6. apply (va_tail _ _ _ _ _ _ Hv).
  - intros a v [H|H]%Hin; [by left|done].
  - intros a v [H|H]%Hin; [by left|done].
  - intros a v [H|H]%Hin; [by left|done].
  - intros a p [H|H]%Hin; [|done]. rewrite H2, H4. by apply (va_AfterLink _ _ _ _ _ _ Hv).
  - intros a [H|H]%Hin; done.
  - rewrite Er. auto.
  - rewrite Ew. destruct (va_writes _ _ _ _ _ _ Hv) as (W1 & W2 & W3). split; [done|]. split; intros d; rewrite H6; [apply W2|apply W3].
Qed.

Lemma tokens_same w w' ops ops' g g' :
  tokens w ops g -> extends w w' -> w_accesses w' = w_accesses w -> w_reads w' = w_reads w ->
  (forall x, counted x = false -> x ∈ ops -> x ∈ ops') ->
  (forall a x, infos w !! a = Some x -> access_type (ai_metadata x) = Write -> wr w a = None -> early (g !! ai_tx x) -> early (g' !! ai_tx x) \/ exists v, SetWritten a v ∈ ops') ->
  tokens w' ops' g'.
Proof.
  intros [T1 T2] He Ea Er Hin Hg. destruct (stat_parts _ _ (ex_stat _ _ He)) as (Ei & _).
  assert (forall a, rd w' a = rd w a) as H1 by (intros a; unfold rd; by rewrite Ea). assert (forall a, wr w' a = wr w a) as H2 by (intros a; unfold wr; by rewrite Ea).
  assert (forall a, nx w' a = nx w a) as H4 by (intros a; unfold nx; by rewrite Ea). split.
  - intros a Ha Hn. rewrite H1 in Hn. unfold exists_access in Ha. rewrite Ea in Ha. unfold woken. rewrite Ei, Er.
    destruct (T1 a Ha Hn) as [Hw|[Hw|[[v Hw]|(p & Hp & Hw)]]]; [left; by apply Hin|by right; left|right; right; left; exists v; by apply Hin|].
    right; right; right. exists p. rewrite H2, H4. split; [done|]. destruct Hw as [Hw|[Hw [?|[v Hv]]]]; [left; by apply Hin|by right; auto|right]. split; [done|]. right. exists v. by apply Hin.
  - rewrite Ei. intros a x Hx Hw. rewrite H2 in Hw. rewrite H1. destruct (T2 a x Hx Hw) as [?|[[? ?]|[v Hv]]]; [by left| |right; right; exists v; by apply Hin].
    right. destruct (Hg a x Hx) as [?|?]; [done..|by left|by right].
Qed.

Lemma unresolved_same w w' i : w_accesses w' = w_accesses w -> unresolved w' i = unresolved w i.
Proof. intros E. unfold unresolved. apply f_equal, list_filter_iff. intros a. unfold rd. by rewrite E. Qed.

Definition set_pending (x : ScheduledTransaction (Tx := Tx) (M := M)) (n : Z) : ScheduledTransaction := {| st_info := st_info x; st_pending_resources := n |}.

Lemma stat_tx w t x n : w_txs w !! t = Some x -> stat (with_txs w (<[t := set_pending x n]> (w_txs w))) = stat w.
Proof.
  intros Ht. unfold stat. do 2 f_equal. unfold tinfos. cbn. rewrite list_fmap_insert. apply list_insert_id. by rewrite list_lookup_fmap, Ht.
Qed.

Lemma lookup_stage g t s t' : t < length g -> <[t := s]> g !! t' = if decide (t' = t) then Some s else g !! t'.
Proof. intros Ht. case_decide; [subst; by rewrite list_lookup_insert_eq|by rewrite list_lookup_insert_ne]. Qed.

Lemma commits_stage w w' bs g g' c :
  extends w w' -> (forall b x, w_batches w' !! b = Some x -> exists x0, w_batches w !! b = Some x0 /\ sb_committed x = sb_committed x0) ->
  w_lifecycle w' = w_lifecycle w -> w_latest w' = w_latest w -> w_resources w' = w_resources w ->
  (forall t, g !! t = Some Done -> g' !! t = Some Done) -> commits w bs g c -> commits w' bs g' c.
Proof.
  intros He Eb El Es Er Hg [H1 H2 H3 H4 H5 H6]. destruct (stat_parts _ _ (ex_stat _ _ He)) as (Ei & Ed & Et & _). pose proof (ex_threshold _ _ He) as Eth.
  split; rewrite ?Ei, ?Ed, ?Et, ?El, ?Es, ?Er, ?Eth; [done| | | | |done].
  - intros b x (x0 & Hx0 & ->)%Eb. by apply H2.
  - destruct H3 as (k & Hk & Hq & Hc). exists k. split; [done|]. split; [done|]. intros b Hb. rewrite (extends_canceled _ _ _ He). by apply Hc.
  - intros t i Hi Hb. by eapply Hg, H4.
  - intros Hc. apply H5. intros b Hb. rewrite <- (extends_canceled _ _ _ He). by apply Hc.
Qed.

Lemma stage_at w bs ops g t : static w bs -> counts w ops g -> t < length g -> exists x s, w_txs w !! t = Some x /\ g !! t = Some s /\ tinfos w !! t = Some (st_info x).
Proof.
  intros Hst Hc Hlt. destruct (lookup_lt_is_Some_2 _ _ Hlt) as [s Hs]. rewrite (co_length _ _ _ Hc) in Hlt. destruct (lookup_lt_is_Some_2 _ _ Hlt) as [x Hx].
  exists x, s. split; [done|]. split; [done|]. unfold tinfos. by rewrite list_lookup_fmap, Hx.
Qed.

(** *** A transaction moves to its next stage *)

Section move.
Context w w' ops ops' g (t : nat) (x : ScheduledTransaction (Tx := Tx) (M := M)) (s s' : stage) (n : Z).
Hypothesis Hc : counts w ops g.
Hypothesis Hs : g !! t = Some s.

(** What changes for the transaction, and what has to fit. *)
Record moved : Prop := {
  mv_reads a : rd w' a = rd w a;
  mv_txs : w_txs w' = <[t := set_pending x n]> (w_txs w);
  mv_pending : n = Z.of_nat (unresolved w (st_info x) + occurrences (DecreasePendingResources t) ops');
  mv_stage : if decide (s' = Waiting) then (ti_resources (st_info x) <> [] -> (0 < n)%Z) else n = 0%Z;
  mv_resources : DecreasePendingResources t ∈ ops' -> ti_resources (st_info x) <> [];
  mv_push : occurrences (PushAvailable t) ops' = if decide (s' = Waiting /\ ti_resources (st_info x) = []) then 1 else 0;
  mv_available : occurrences t (w_available w') = if decide (s' = Available) then 1 else 0;
  mv_running : occurrences (DecreasePendingTxs t) ops' = if decide (s' = Running) then 1 else 0;
  mv_others t' : t' <> t -> occurrences (DecreasePendingResources t') ops' = occurrences (DecreasePendingResources t') ops /\
    occurrences (PushAvailable t') ops' = occurrences (PushAvailable t') ops /\ occurrences (DecreasePendingTxs t') ops' = occurrences (DecreasePendingTxs t') ops /\
    occurrences t' (w_available w') = occurrences t' (w_available w);
  mv_batch b y : w_batches w' !! b = Some y ->
    sb_pending_txs y = Z.of_nat (length (filter (fun t' => <[t := s']> g !! t' <> Some Done) (bi_txs (sb_info y)))) /\ sb_processed y = (sb_pending_txs y =? 0)%Z
}.
Hypothesis Hm : moved.

Lemma moved_stage t' : <[t := s']> g !! t' = if decide (t' = t) then Some s' else g !! t'.
Proof. apply lookup_stage. by eapply lookup_lt_Some. Qed.

Lemma moved_tx t' y : w_txs w' !! t' = Some y -> t' = t /\ y = set_pending x n \/ t' <> t /\ w_txs w !! t' = Some y.
Proof. rewrite (mv_txs Hm). intros [(<- & <- & _)|[Hne H]]%list_lookup_insert_Some; [by left|right]. split; [congruence|done]. Qed.

Lemma counts_move : counts w' ops' (<[t := s']> g).
Proof.
  destruct Hc as [C1 C2 C3 C4 C5 C6 C7 C8 C9 _]. destruct Hm as [Hrd Htx Hpend Hst Hres Hpush Hav Hrun Hoth Hb].
  assert (forall t' y, w_txs w' !! t' = Some y -> unresolved w' (st_info y) = unresolved w (st_info y)) as Hun by (intros t' y _; unfold unresolved; apply f_equal, list_filter_iff; intros a; by rewrite Hrd).
  split; rewrite ?length_insert; [by rewrite Htx, length_insert|..].
  - intros t' y Hy. rewrite (Hun t' y Hy). destruct (moved_tx t' y Hy) as [[-> ->]|[Hne Hy']]; [done|]. destruct (Hoth t' Hne) as (-> & _). by apply C2.
  - intros t' y Hy. rewrite moved_stage. destruct (moved_tx t' y Hy) as [[-> ->]|[Hne Hy']]; [rewrite decide_True by done; intros [= ->]; by rewrite decide_True in Hst|rewrite decide_False by done; by apply C3].
  - intros t' y s2 Hy. rewrite moved_stage. destruct (moved_tx t' y Hy) as [[-> ->]|[Hne Hy']]; [rewrite decide_True by done; intros [= <-] ?; by rewrite decide_False in Hst|rewrite decide_False by done; by apply C4].
  - intros t' y s2 Hy. rewrite moved_stage. destruct (moved_tx t' y Hy) as [[-> ->]|[Hne Hy']]; [rewrite decide_True by done; by intros [= <-]|rewrite decide_False by done]. destruct (Hoth t' Hne) as (_ & -> & _). by apply C5.
  - intros t' y Hy Hin. destruct (moved_tx t' y Hy) as [[-> ->]|[Hne Hy']]; [by apply Hres|]. apply (C6 t' y Hy'). apply occurrences_elem. destruct (Hoth t' Hne) as (<- & _). by apply occurrences_elem.
  - intros t' s2. rewrite moved_stage. destruct (decide (t' = t)) as [->|Hne]; [by intros [= <-]|]. destruct (Hoth t' Hne) as (_ & _ & _ & ->). by apply C7.
  - intros t' s2. rewrite moved_stage. destruct (decide (t' = t)) as [->|Hne]; [by intros [= <-]|]. destruct (Hoth t' Hne) as (_ & _ & -> & _). by apply C8.
  - intros t' Hin. destruct (decide (t' = t)) as [->|Hne]; [by eapply lookup_lt_Some|]. destruct (Hoth t' Hne) as (E1 & E2 & E3 & E4). apply C9. by rewrite <- !occurrences_elem, <- E1, <- E2, <- E3, <- E4, !occurrences_elem.
  - exact Hb.
Qed.

(** Before it is executed, its batch does not notice. *)
Lemma pending_move (l : list nat) : s <> Done -> s' <> Done -> filter (fun t' => g !! t' <> Some Done) l = filter (fun t' => <[t := s']> g !! t' <> Some Done) l.
Proof. intros H H'. apply list_filter_iff. intros t'. rewrite moved_stage. destruct (decide (t' = t)) as [->|]; [rewrite Hs|done]. naive_solver. Qed.
End move.

Lemma set_pending_same w t x : w_txs w !! t = Some x -> w_txs w = <[t := set_pending x (st_pending_resources x)]> (w_txs w).
Proof. intros Hx. symmetry. apply list_insert_id. rewrite Hx. by destruct x. Qed.

Lemma early_move g t s' (t' : nat) : t < length g -> s' = Waiting \/ s' = Available -> early (g !! t') -> early (<[t := s']> g !! t').
Proof. intros Hlt Hs' He. rewrite lookup_stage by done. destruct (decide (t' = t)); [|done]. destruct Hs' as [-> | ->]; [by left|by right]. Qed.

Lemma DecreasePendingResources_ok w bs c R g t :
  inv w bs c (DecreasePendingResources t :: R) g ->
  exists w' g', step_call w (DecreasePendingResources t) = Ok (w', []) /\ stat w' = stat w /\ inv w' bs c R g'.
Proof.
  intros [Hst Hv Ht Hc Hm]. set (o := DecreasePendingResources t) in *. assert (t < length g) as Hlt by (apply (co_known _ _ _ Hc); right; left; by left).
  destruct (stage_at _ _ _ _ t Hst Hc Hlt) as (x & s & Hx & Hs & _). pose proof (co_pending _ _ _ Hc t x Hx) as Hp. fold o in Hp. rewrite occurrences_cons, decide_True in Hp by done.
  assert (s = Waiting) as ->. { destruct (decide (s = Waiting)) as [|Hne]; [done|]. pose proof (co_ready _ _ _ Hc t x s Hx Hs Hne). lia. }
  unfold o. unfold_call. rewrite Hx. cbn [expect mbind outcome_bind]. fold (set_pending x (st_pending_resources x - 1)).
  set (n := (st_pending_resources x - 1)%Z). set (w1 := with_txs _ _). set (w' := if (st_pending_resources x =? 1)%Z then push_available w1 t else w1). set (s' := if decide (n = 0%Z) then Available else Waiting).
  assert (w' = if decide (n = 0%Z) then push_available w1 t else w1) as Ew by (unfold w', n; destruct (Z.eqb_spec (st_pending_resources x) 1); [rewrite decide_True by lia|rewrite decide_False by lia]; done).
  exists w', (<[t := s']> g). split; [done|]. assert (stat w' = stat w) as Es by (rewrite Ew; transitivity (stat w1); [by destruct (decide _)|by apply stat_tx]). split; [done|].
  assert (extends w w') as He by (apply extends_same; [done|rewrite Ew; by destruct (decide _)..]). assert (s' = Waiting \/ s' = Available) as Hs' by (unfold s'; destruct (decide _); auto). split.
  - by apply (static_frame _ w).
  - eapply (values_same w); [done|exact Hv|done|rewrite Ew; by destruct (decide _)..|]. intros y Hin. left. by right.
  - eapply (tokens_same w); [exact Ht|done|rewrite Ew; by destruct (decide _)..|intros y Hy' [->|?]%elem_of_cons; done|]. intros a z Hz _ _ Hearly. left. by apply early_move.
  - pose proof (co_push _ _ _ Hc t x Waiting Hx Hs) as Hpush. pose proof (co_available _ _ _ Hc t Waiting Hs) as Hav. pose proof (co_running _ _ _ Hc t Waiting Hs) as Hrun.
    pose proof (co_resources _ _ _ Hc t x Hx ltac:(by left)) as Hne. fold o in Hpush, Hrun. rewrite occurrences_cons, decide_False in Hpush by done. rewrite occurrences_cons, decide_False in Hrun by done.
    eapply (counts_move w w' _ R g t x Waiting s' n Hc Hs). split.
    + intros a. unfold rd. rewrite Ew. by destruct (decide _).
    + rewrite Ew. by destruct (decide _).
    + fold o. unfold n. lia.
    + unfold s'. destruct (decide (n = 0%Z)); [by rewrite decide_False|]. rewrite decide_True by done. unfold n in *. lia.
    + done.
    + rewrite Nat.add_0_l in Hpush. rewrite Hpush, !decide_False by (intros [_ ?]; done). done.
    + rewrite Ew. unfold s'. destruct (decide (n = 0%Z)); [|by rewrite decide_False in Hav |- *]. cbn [w_available push_available with_queues]. change (w_available w1) with (w_available w). rewrite occurrences_app, Hav, occurrences_cons, (decide_True (P := t = t)) by done. done.
    + rewrite Nat.add_0_l in Hrun. rewrite Hrun. unfold s'. by destruct (decide (n = 0%Z)).
    + intros t' Hne'. rewrite !occurrences_cons, !decide_False by (unfold o; congruence). split; [done|]. split; [done|]. split; [done|]. rewrite Ew. destruct (decide _); [|done].
      cbn [w_available push_available with_queues]. rewrite occurrences_app, occurrences_cons, decide_False by done. change (0 + occurrences t' []) with 0. by rewrite Nat.add_0_r.
    + intros b y Hb. assert (w_batches w' = w_batches w) as Eb by (rewrite Ew; by destruct (decide _)). rewrite Eb in Hb. rewrite <- (pending_move g t Waiting s' Hs) by (done || by destruct Hs' as [-> | ->]). exact (co_batch _ _ _ Hc b y Hb).
  - eapply (commits_stage w); [done|rewrite Ew; intros b' x' ?; exists x'; by destruct (decide _)|rewrite Ew; by destruct (decide _)..| |done].
    intros t' Hd. rewrite lookup_stage by done. destruct (decide (t' = t)) as [->|]; congruence.
Qed.

Lemma PushAvailable_ok w bs c R g t :
  inv w bs c (PushAvailable t :: R) g ->
  exists w' g', step_call w (PushAvailable t) = Ok (w', []) /\ stat w' = stat w /\ inv w' bs c R g'.
Proof.
  intros [Hst Hv Ht Hc Hm]. assert (t < length g) as Hlt by (apply (co_known _ _ _ Hc); right; right; left; by left).
  destruct (stage_at _ _ _ _ t Hst Hc Hlt) as (x & s & Hx & Hs & Hi). pose proof (co_push _ _ _ Hc t x s Hx Hs) as Hp. rewrite occurrences_cons, decide_True in Hp by done.
  destruct (decide (s = Waiting /\ ti_resources (st_info x) = [])) as [[-> Enil]|]; [|lia].
  exists (push_available w t), (<[t := Available]> g). split; [done|]. split; [done|]. assert (extends w (push_available w t)) as He by (by apply extends_same).
  pose proof (co_pending _ _ _ Hc t x Hx) as Hpend. rewrite occurrences_cons, decide_False, Nat.add_0_l in Hpend by done.
  assert (DecreasePendingResources t ∉ R) as Hnin by (intros Hin; destruct (co_resources _ _ _ Hc t x Hx); [by right|done]).
  assert (st_pending_resources x = 0%Z) as Hzero.
  { rewrite Hpend. unfold unresolved. rewrite Enil. cbn [filter]. destruct (occurrences (DecreasePendingResources t) R) eqn:E; [done|]. destruct Hnin. apply occurrences_elem. lia. }
  split.
  - by apply (static_frame _ w).
  - eapply (values_same w); [done|exact Hv|done..|]. intros y Hin. left. by right.
  - eapply (tokens_same w); [exact Ht|done|done|done|intros y Hy' [->|?]%elem_of_cons; done|]. intros a z Hz _ _ Hearly. left. apply early_move; [done|by right|done].
  - pose proof (co_available _ _ _ Hc t Waiting Hs) as Hav. pose proof (co_running _ _ _ Hc t Waiting Hs) as Hrun. rewrite occurrences_cons, decide_False, Nat.add_0_l in Hrun by done.
    eapply (counts_move w _ _ R g t x Waiting Available (st_pending_resources x) Hc Hs). split; try done.
    + exact (set_pending_same w t x Hx).
    + rewrite decide_False by (by intros [? _]). lia.
    + cbn [w_available push_available with_queues]. rewrite occurrences_app, Hav, occurrences_cons, (decide_True (P := t = t)) by done. done.
    + intros t' Hne'. rewrite !occurrences_cons, !decide_False by congruence. split; [done|]. split; [done|]. split; [done|].
      cbn [w_available push_available with_queues]. rewrite occurrences_app, occurrences_cons, decide_False by done. change (0 + occurrences t' []) with 0. by rewrite Nat.add_0_r.
    + intros b y Hb. rewrite <- (pending_move g t Waiting Available Hs) by done. exact (co_batch _ _ _ Hc b y Hb).
  - eapply (commits_stage w); [done|by eauto|done..| |done]. intros t' Hd. rewrite lookup_stage by done. destruct (decide (t' = t)) as [->|]; congruence.
Qed.

(** Executing a transaction leaves one less to do for its batch. *)
Lemma filter_done g t (l : list nat) :
  t < length g -> g !! t = Some Running -> NoDup l ->
  length (filter (fun t' => g !! t' <> Some Done) l) = length (filter (fun t' => <[t := Done]> g !! t' <> Some Done) l) + if decide (t ∈ l) then 1 else 0.
Proof.
  intros Hlt Hg. induction 1 as [|t' l Hn Hnd IH]; [done|]. rewrite !filter_cons, (lookup_stage g t Done t') by done. destruct (decide (t' = t)) as [->|Hne].
  - rewrite (decide_True (P := t ∈ t :: l)) by (by left). rewrite (decide_False (P := t ∈ l)) in IH by done. rewrite decide_True by congruence.
    rewrite (decide_False (P := Some Done <> Some Done)) by tauto. cbn [length]. lia.
  - revert IH. destruct (decide (t ∈ l)) as [Hin|Hin]; [rewrite (decide_True (P := t ∈ t' :: l)) by (by right)|rewrite (decide_False (P := t ∈ t' :: l)) by (by rewrite elem_of_cons; naive_solver)];
      destruct (decide (g !! t' <> Some Done)); cbn [length]; lia.
Qed.

Lemma jobs_of_app bs bs' : jobs_of (bs ++ bs') = jobs_of bs ++ jobs_of bs'.
Proof. unfold jobs_of. by rewrite fmap_app, concat_app. Qed.
Lemma start_mono bs b b' : b <= b' -> start bs b <= start bs b'.
Proof.
  intros Hle. unfold start. replace (take b' bs) with (take b bs ++ take (b' - b) (drop b bs)) by (rewrite take_take_drop; f_equal; lia).
  rewrite jobs_of_app, length_app. lia.
Qed.

(** A transaction is in one batch. *)
Lemma batch_unique bs t b b' : start bs b <= t < start bs (S b) -> start bs b' <= t < start bs (S b') -> b = b'.
Proof.
  intros H H'. destruct (Nat.lt_trichotomy b b') as [Hl|[?|Hl]]; [|done|].
  - pose proof (start_mono bs (S b) b' ltac:(lia)). lia.
  - pose proof (start_mono bs (S b') b ltac:(lia)). lia.
Qed.

Lemma batch_txs w bs b x t i : static w bs -> binfos w !! b = Some x -> tinfos w !! t = Some i -> t ∈ bi_txs x <-> ti_batch i = b.
Proof.
  intros Hst Hb Hi. rewrite (st_txs _ _ _ Hst b x Hb), elem_of_seq. destruct (st_tx_batch _ _ _ Hst t i Hi) as [Hlt Hrange].
  pose proof (lookup_lt_Some _ _ _ Hb) as Hlb. rewrite (length_binfos _ _ _ Hst) in Hlb.
  split; [|intros <-; lia]. intros H. apply (batch_unique bs t); lia.
Qed.

Lemma DecreasePendingTxs_ok w bs c R g t :
  inv w bs c (DecreasePendingTxs t :: R) g ->
  exists w' g', step_call w (DecreasePendingTxs t) = Ok (w', []) /\ stat w' = stat w /\ inv w' bs c R g'.
Proof.
  intros [Hst Hv Ht Hc Hm]. assert (t < length g) as Hlt by (apply (co_known _ _ _ Hc); right; right; right; by left).
  destruct (stage_at _ _ _ _ t Hst Hc Hlt) as (x & s & Hx & Hs & Hi). pose proof (co_running _ _ _ Hc t s Hs) as Hp. rewrite occurrences_cons, decide_True in Hp by done.
  destruct (decide (s = Running)) as [->|]; [|lia]. destruct (st_tx_batch _ _ _ Hst t _ Hi) as [Hbl _].
  set (b := ti_batch (st_info x)) in *. rewrite <- (length_binfos _ _ _ Hst) in Hbl. unfold binfos in Hbl. rewrite length_fmap in Hbl.
  destruct (lookup_lt_is_Some_2 _ _ Hbl) as [y Hy]. assert (binfos w !! b = Some (sb_info y)) as Hby by (unfold binfos; by rewrite list_lookup_fmap, Hy).
  unfold_call. rewrite Hx. cbn [expect mbind outcome_bind]. fold b. rewrite Hy. cbn [expect mbind outcome_bind].
  set (y' := {| sb_info := _; sb_pending_txs := _; sb_processed := _; sb_committed := _ |}). set (w' := with_batches _ _).
  exists w', (<[t := Done]> g). split; [done|].
  assert (stat w' = stat w) as Es. { unfold stat. f_equal. unfold w', binfos. cbn. rewrite list_fmap_insert. apply list_insert_id. by rewrite list_lookup_fmap, Hy. }
  split; [done|]. assert (extends w w') as He by (by apply extends_same). split.
  - by apply (static_frame _ w).
  - eapply (values_same w); [done|exact Hv|done..|]. intros z Hin. left. by right.
  - eapply (tokens_same w); [exact Ht|done|done|done|intros z Hy' [->|?]%elem_of_cons; done|].
    intros a z Hz _ _ Hearly. left. rewrite lookup_stage by done. destruct (decide (ai_tx z = t)) as [E|]; [|exact Hearly]. rewrite E, Hs in Hearly. by destruct Hearly.
  - pose proof (co_push _ _ _ Hc t x Running Hx Hs) as Hpush. pose proof (co_available _ _ _ Hc t Running Hs) as Hav. pose proof (co_pending _ _ _ Hc t x Hx) as Hpend.
    rewrite occurrences_cons, decide_False, Nat.add_0_l in Hpush by done. rewrite occurrences_cons, decide_False, Nat.add_0_l in Hpend by done.
    eapply (counts_move w w' _ R g t x Running Done (st_pending_resources x) Hc Hs). split; try done.
    + exact (set_pending_same w t x Hx).
    + rewrite decide_False by done. by eapply (co_ready _ _ _ Hc).
    + intros Hin. apply (co_resources _ _ _ Hc t x Hx). by right.
    + rewrite decide_False by done. lia.
    + intros t' Hne'. rewrite !occurrences_cons, !decide_False by congruence. done.
    + intros b' z [(<- & <- & _)|[Hne Hz]]%list_lookup_insert_Some.
      * destruct (co_batch _ _ _ Hc b y Hy) as [H1 H2]. pose proof (filter_done g t (bi_txs (sb_info y)) Hlt Hs) as Hf.
        rewrite (decide_True (P := t ∈ _)) in Hf by (by apply (batch_txs w bs b _ t _ Hst Hby Hi)). rewrite (st_txs _ _ _ Hst b _ Hby) in *. specialize (Hf (NoDup_seq _ _)).
        unfold y'. cbn. rewrite (st_txs _ _ _ Hst b _ Hby), H2. split; [lia|]. rewrite H1 in *. destruct (Z.eqb_spec (sb_pending_txs y) 0) as [E0|E0]; lia.
      * destruct (co_batch _ _ _ Hc b' z Hz) as [H1 H2]. split; [|done]. assert (binfos w !! b' = Some (sb_info z)) as Hbz by (unfold binfos; by rewrite list_lookup_fmap, Hz).
        pose proof (filter_done g t (bi_txs (sb_info z)) Hlt Hs) as Hf. rewrite (decide_False (P := t ∈ _)) in Hf by (by rewrite (batch_txs w bs b' _ t _ Hst Hbz Hi)).
        rewrite H1, Hf; [do 2 f_equal; lia|]. rewrite (st_txs _ _ _ Hst b' _ Hbz). apply NoDup_seq.
  - eapply (commits_stage w); [done| |done..| |done].
    + intros b' z [(<- & <- & _)|[Hne Hz]]%list_lookup_insert_Some; [by exists y|by exists z].
    + intros t' Hd. rewrite lookup_stage by done. by destruct (decide (t' = t)).
Qed.
End counters.
