(* ===== verification/SchedActions.v ===== *)
(** * SchedActions: reads, executions, commits and evictions

    Every thread's step, a read served from the store, the execution of a transaction, the commit
    and the eviction of a batch, a rollback: none of them fails, and each keeps the invariant. *)

From S2P Require Import Prelude Codec Types SmtNode SmtTrie SmtUpdate SmtTree AtomicRing CanonicalChain RocksStore L1Types StateSpaces SchedStore SchedCore SchedProofs SchedAccess SchedSerial SchedShape SchedFlow SchedCalls SchedCounters.

(** Where a thread is in the pool. *)
Lemma pool_at {A} (ls : list (list A)) i o rest :
  ls !! i = Some (o :: rest) -> exists R, concat ls ≡ₚ o :: R /\ forall new, concat (<[i := new ++ rest]> ls) ≡ₚ new ++ R.
Proof.
  intros Hi. exists (rest ++ concat (delete i ls)). pose proof (lookup_lt_Some _ _ _ Hi) as Hlt. split.
  - rewrite <- (take_drop_middle _ _ _ Hi) at 1. rewrite delete_take_drop, !concat_app. cbn [concat]. rewrite Permutation_app_comm. cbn. rewrite <- app_assoc, (Permutation_app_comm (concat (drop _ _))). done.
  - intros new. rewrite insert_take_drop by done. rewrite delete_take_drop, !concat_app. cbn [concat]. rewrite Permutation_app_comm, <- !app_assoc. rewrite (Permutation_app_comm (concat (drop _ _))). done.
Qed.

Section actions.
Context {Tx M : Type} (process : M -> nat -> SchedulerTransaction Tx -> list bytes -> option (list (list edit))).
Context (σ0 : vstate) (n0 : Z).
(** The store before: no empty entries, versions up to the last committed batch. *)
Hypothesis Hclean : clean σ0.
Hypothesis Hold : forall r v x, σ0 !! r = Some (v, x) -> (v <= n0)%Z.
Hypothesis Hn0 : (0 <= n0)%Z.
Implicit Types (w : World (Tx := Tx) (M := M)) (bs : list (Checkpoint M * list (SchedulerTransaction Tx))) (ops R : list call) (g : list stage).

Abbreviation static := (static n0).
Abbreviation values := (values process σ0).
Abbreviation commits := (commits process σ0).
Abbreviation inv := (inv process σ0 n0).

(** ** Threads *)

Lemma call_ok w bs c R g o :
  inv w bs c (o :: R) g -> exists w' calls g', step_call w o = Ok (w', calls) /\ stat w' = stat w /\ inv w' bs c (calls ++ R) g'.
Proof.
  destruct o as [a|a p|a v|a v|a v|t|t|t]; intros Hi.
  - destruct (Connect_ok _ _ _ _ _ _ _ _ _ Hi) as (w' & calls & ?). by exists w', calls, g.
  - destruct (AfterLink_ok _ _ _ _ _ _ _ _ _ _ Hi) as (w' & calls & ?). by exists w', calls, g.
  - destruct (SetRead_ok _ _ _ _ _ _ _ _ _ _ Hi) as (w' & calls & ?). by exists w', calls, g.
  - destruct (SetWritten_ok _ _ _ _ _ _ _ _ _ _ Hi) as (w' & calls & ?). by exists w', calls, g.
  - destruct (Forward_ok _ _ _ _ _ _ _ _ _ _ Hi) as (w' & calls & ?). by exists w', calls, g.
  - destruct (DecreasePendingResources_ok _ _ _ _ _ _ _ _ _ Hi) as (w' & g' & ?). by exists w', [], g'.
  - destruct (PushAvailable_ok _ _ _ _ _ _ _ _ _ Hi) as (w' & g' & ?). by exists w', [], g'.
  - destruct (DecreasePendingTxs_ok _ _ _ _ _ _ _ _ _ Hi) as (w' & g' & ?). by exists w', [], g'.
Qed.

(** A call leaves the threads to the pool. *)
Lemma step_call_threads w o w' calls : step_call w o = Ok (w', calls) -> w_threads w' = w_threads w.
Proof.
  destruct o; unfold_call; intros E; repeat match goal with
    | H : context [expect ?e] |- _ => destruct e eqn:?; cbn [expect mbind outcome_bind] in H; [|discriminate H]
    end; simplify_eq; try done.
  - by destruct (ra_prev _) as [p|]; [destruct (w_accesses w !! p)|]; simplify_eq/=.
  - destruct (ra_read _); [by simplify_eq|]. destruct (ra_is_batch_head _); cbn in E; [|by simplify_eq]. unfold diff_set_read in E. cbn in E. destruct (w_diffs w !! _); by simplify_eq/=.
  - destruct (ra_written _); [by simplify_eq|]. destruct (ra_is_batch_tail _); cbn in E; [|by simplify_eq]. unfold diff_set_written in E. cbn in E. destruct (w_diffs w !! _); [|done].
    cbn in E. destruct (batch_canceled _ _); by simplify_eq/=.
  - by destruct (st_pending_resources _ =? 1)%Z.
Qed.

(** The world with its pool of threads. *)
Record good w bs (c : nat) g : Prop := {
  gd_inv : inv w bs c (concat (w_threads w)) g;
  gd_ordered : Forall (ordered w) (w_threads w)
}.

(** Threads and the eviction queue are not looked at. *)
Definition similar w w' : Prop :=
  w_accesses w' = w_accesses w /\ w_diffs w' = w_diffs w /\ w_txs w' = w_txs w /\ w_batches w' = w_batches w /\ w_resources w' = w_resources w /\
  w_reads w' = w_reads w /\ w_available w' = w_available w /\ w_writes w' = w_writes w /\ w_lifecycle w' = w_lifecycle w /\
  w_threshold w' = w_threshold w /\ w_latest w' = w_latest w.

Lemma inv_similar w w' bs c ops g : similar w w' -> inv w bs c ops g -> inv w' bs c ops g.
Proof.
  intros (E1 & E2 & E3 & E4 & E5 & E6 & E7 & E8 & E9 & E10 & E11) [H1 H2 H3 H4 H5].
  assert (stat w' = stat w) as Es by (unfold stat, infos, dinfos, tinfos, binfos; by rewrite E1, E2, E3, E4). assert (extends w w') as He by (by apply extends_same). split.
  - by apply (static_frame _ w).
  - eapply (values_same _ _ _ w); eauto.
  - eapply (tokens_same w); eauto.
  - eapply (counts_frame w); try done. intros a. unfold rd. by rewrite E1.
  - by eapply (commits_frame _ _ w).
Qed.

Lemma ordered_stat w w' l : stat w' = stat w -> ordered w l -> ordered w' l.
Proof. intros E. unfold ordered. by destruct (stat_parts _ _ E) as [-> _]. Qed.

(** *** The order within a thread *)

Lemma ordered_suffix w l l' : ordered w (l ++ l') -> ordered w l'.
Proof. intros H l1 a v l2 x E. apply (H (l ++ l1) a v l2 x). by rewrite E, app_assoc. Qed.

Lemma ordered_cons w o l :
  ordered w l -> (forall a v x, o = SetWritten a v -> infos w !! a = Some x ->
    match access_type (ai_metadata x) with Write => DecreasePendingTxs (ai_tx x) ∈ l | Read => DecreasePendingResources (ai_tx x) ∈ l end) -> ordered w (o :: l).
Proof.
  intros Hl Ho [|o' l1] a v l2 x E; cbn in E; injection E as E0 E.
  - subst l2. intros Hx. by eapply Ho.
  - by apply (Hl l1 a v l2 x).
Qed.

Lemma ordered_step w o rest w' calls : ordered w (o :: rest) -> step_call w o = Ok (w', calls) -> ordered w (calls ++ rest).
Proof.
  intros Ho E. pose proof (ordered_suffix w [o] rest Ho) as Hr. assert (forall o', (forall a v, o' <> SetWritten a v) -> ordered w (o' :: rest)) as Hone.
  { intros o' Hne. apply ordered_cons; [done|]. intros a v x ->. by destruct (Hne a v). }
  destruct o; unfold_call in E; repeat match goal with
    | H : context [expect ?e] |- _ => destruct e eqn:?; cbn [expect mbind outcome_bind] in H; [|discriminate H]
    end; simplify_eq; try done.
  - destruct (ra_prev _) as [p|]; [destruct (w_accesses w !! p)|]; simplify_eq/=; [by apply Hone|done].
  - destruct (ra_written _); [by apply Hone|done].
  - destruct (ra_read _); [by simplify_eq|]. assert (calls = match access_type (ai_metadata (ra_info r)) with Read => [SetWritten a v] | Write => [] end ++ [DecreasePendingResources (ai_tx (ra_info r))]) as ->.
    { destruct (if ra_is_batch_head r then _ else _); cbn in E; by simplify_eq. }
    destruct (access_type _) eqn:Et; cbn [app]; [|by apply Hone]. apply ordered_cons; [by apply Hone|]. intros a' v' x [= <- <-] Hx.
    unfold infos in Hx. rewrite list_lookup_fmap, Heqo in Hx. injection Hx as <-. rewrite Et. by left.
  - destruct (ra_written _); [by simplify_eq|]. destruct (if ra_is_batch_tail r then _ else _); cbn in E; simplify_eq. by apply Hone.
  - destruct (ra_next _); [by apply Hone|done].
Qed.

Lemma Run_good w bs c g i e : good w bs c g -> fire process w (Run i) = Some e -> exists w' g', e = Ok w' /\ stat w' = stat w /\ good w' bs c g'.
Proof.
  intros [Hi Ho]. unfold_fire. destruct (w_threads w !! i) as [[|o rest]|] eqn:Ht; [done| |done]. intros [= <-].
  destruct (pool_at _ _ _ _ Ht) as (R & E1 & E2). apply (inv_perm _ _ _ _ _ _ _ _ _ E1) in Hi. destruct (call_ok w bs c R g o Hi) as (w1 & calls & g' & Es & Est & Hi').
  rewrite Es. cbn [mbind outcome_bind]. eexists _, g'. split; [done|]. split; [done|]. rewrite (step_call_threads _ _ _ _ Es). split.
  - cbn [w_threads with_threads]. eapply inv_perm; [symmetry; apply E2|]. by eapply (inv_similar w1).
  - cbn [w_threads with_threads]. rewrite Forall_forall in Ho |- *. intros l Hl. apply (ordered_stat w); [exact Est|]. apply list_elem_of_lookup in Hl as [j Hj].
    apply list_lookup_insert_Some in Hj as [(<- & <- & _)|[_ Hj]].
    + eapply ordered_step; [|done]. apply Ho. by eapply list_elem_of_lookup_2.
    + apply Ho. by eapply list_elem_of_lookup_2.
Qed.
(** ** Versions of the sequential execution *)

Definition bounded (n : Z) (σ : vstate) : Prop := forall r, (sv_version (version_of σ r) <= n)%Z.

Lemma bounded_entry n σ r v x : bounded n σ -> σ !! r = Some (v, x) -> (v <= n)%Z.
Proof. intros Hb Hr. specialize (Hb r). unfold version_of in Hb. by rewrite Hr in Hb. Qed.
Lemma bounded_intro n σ : (0 <= n)%Z -> (forall r v x, σ !! r = Some (v, x) -> (v <= n)%Z) -> bounded n σ.
Proof. intros Hn H r. unfold version_of. destruct (σ !! r) as [[v x]|] eqn:E; [by apply (H r v x)|done]. Qed.

Lemma bounded_run_job n σ cp k tx : (0 <= n)%Z -> (cp_index cp <= n)%Z -> bounded n σ -> bounded n (run_job process σ (cp, k, tx)).
Proof.
  intros Hn Hi Hb. rewrite run_job_eq. assert (forall vs σ, Forall (fun v => sv_version v <= n)%Z vs -> bounded n σ -> bounded n (store_all σ vs)) as Hall.
  { clear σ Hb. intros vs. induction vs as [|v vs IH]; intros σ Hvs Hb; [done|]. inversion Hvs as [|? ? Hv Hvs']; subst. apply IH; [done|]. apply bounded_intro; [done|].
    intros r v' x. rewrite lookup_store_version. destruct (decide _); [|by apply bounded_entry]. destruct (is_empty _); [done|]. by intros [= <- _]. }
  apply Hall; [|done]. apply Forall_forall. intros v (j & m & Hm & Hv & _)%written_versions_elem.
  destruct (edited_lookup process cp k tx (version_of σ ∘ resource_id <$> tx_resources tx) j (version_of σ (resource_id m))) as (v' & Hv' & _ & Hcase); [by rewrite list_lookup_fmap, Hm|].
  rewrite Hv in Hv'. injection Hv' as <-. destruct Hcase as [->| ->]; [apply Hb|done].
Qed.

Lemma jobs_of_cons cp txs bs : jobs_of ((cp, txs) :: bs) = imap (fun k tx => (cp, k, tx)) txs ++ jobs_of bs.
Proof. done. Qed.
Lemma start_succ bs b p : bs !! b = Some p -> start bs (S b) = start bs b + length p.2.
Proof. intros Hb. unfold start. rewrite (take_S_r _ _ _ Hb), jobs_of_app, length_app. f_equal. unfold jobs_of. destruct p as [cp txs]. cbn. by rewrite app_nil_r, length_imap. Qed.

Lemma tx_index w bs t i : static w bs -> tinfos w !! t = Some i -> cp_index (ti_checkpoint i) = index_at bs (ti_batch i).
Proof.
  intros Hst Hi. destruct (st_tx_batch _ _ _ Hst t i Hi) as [Hb Ht]. destruct (lookup_lt_is_Some_2 _ _ Hb) as [[cp txs] Hp].
  pose proof (start_succ bs _ _ Hp) as Hs. pose proof (job_at n0 w bs Hst t) as Hj. rewrite Hi in Hj. cbn in Hs.
  rewrite <- (take_drop_middle _ _ _ Hp), jobs_of_app in Hj. rewrite lookup_app_r in Hj by exact (proj1 Ht).
  rewrite jobs_of_cons, lookup_app_l in Hj by (rewrite length_imap; change (t - start bs (ti_batch i) < length txs); lia). rewrite list_lookup_imap in Hj.
  destruct (txs !! _); cbn in Hj; [|done]. injection Hj as <- _ _. unfold index_at. by rewrite Hp.
Qed.

(** Before the transactions of batch [b], versions are below its index. *)
Lemma after_bounded w bs b n : static w bs -> b < length bs -> n <= start bs b -> exists top, (top < index_at bs b)%Z /\ bounded top (after process σ0 bs n).
Proof.
  intros Hst Hb Hn. exists (index_at bs b - 1)%Z. split; [lia|]. pose proof (st_first _ _ _ Hst b Hb) as Hf. induction n as [|n IH].
  - apply bounded_intro; [lia|]. intros r v x Hr. unfold after in Hr. cbn in Hr. specialize (Hold r v x Hr). lia.
  - destruct (tinfos w !! n) as [i|] eqn:Hi.
    + rewrite (after_succ process σ0 n0 w bs Hst n i Hi). unfold job_of. apply bounded_run_job; [lia| |by apply IH; lia].
      destruct (st_tx_batch _ _ _ Hst n i Hi) as [Hlt Hr]. assert (cp_index (ti_checkpoint i) = index_at bs (ti_batch i)) as -> by (by eapply tx_index).
      pose proof (st_order _ _ _ Hst (ti_batch i) b) as Hord. destruct (decide (ti_batch i < b)) as [Hl|Hl]; [specialize (Hord ltac:(lia)); lia|].
      pose proof (start_mono bs b (ti_batch i) ltac:(lia)). lia.
    + replace (after process σ0 bs (S n)) with (after process σ0 bs n); [by apply IH; lia|]. apply lookup_ge_None in Hi. unfold tinfos in Hi. rewrite length_fmap in Hi.
      unfold after. rewrite !take_ge; [done|..]; rewrite (length_jobs n0 w bs Hst); lia.
Qed.
(** ** Reads *)

(** A transaction whose accesses are all resolved. *)
Lemma resolved w bs ops g t i s a : static w bs -> counts w ops g -> tinfos w !! t = Some i -> g !! t = Some s -> s <> Waiting -> a ∈ ti_resources i -> is_Some (rd w a).
Proof.
  intros Hst Hc Hi Hs Hne Ha. unfold tinfos in Hi. apply list_lookup_fmap_Some in Hi as (x & -> & Hx).
  pose proof (co_ready _ _ _ Hc t x s Hx Hs Hne) as H0. rewrite (co_pending _ _ _ Hc t x Hx) in H0. destruct (rd w a) eqn:E; [done|].
  assert (0 < unresolved w (st_info x)); [|lia]. unfold unresolved.
  assert (a ∈ filter (fun a => rd w a = None) (ti_resources (st_info x))) as Hin by (by apply list_elem_of_filter). destruct (filter _ _); [by apply not_elem_of_nil in Hin|cbn; lia].
Qed.

(** An access that is waiting belongs to a batch that is not committed. *)
Lemma waiting_uncommitted w bs c ops g a x : inv w bs c ops g -> infos w !! a = Some x -> rd w a = None -> c <= abatch (dinfos w) x.
Proof.
  intros Hi Hx Hn. destruct (decide (abatch (dinfos w) x < c)) as [Hl|]; [|lia]. destruct (access_tx _ _ _ (in_static _ _ _ _ _ _ _ _ Hi) a x Hx) as (i & k & Ht & Hk & _ & Eb).
  rewrite <- Eb in Hl. pose proof (cm_done _ _ _ _ _ _ (in_commits _ _ _ _ _ _ _ _ Hi) _ _ Ht Hl) as Hd.
  destruct (resolved w bs ops g (ai_tx x) i Done a) as [v Hv]; [apply Hi|apply Hi|done..|by eapply list_elem_of_lookup_2|congruence].
Qed.

Lemma batch_start w bs a x : static w bs -> infos w !! a = Some x -> start bs (abatch (dinfos w) x) <= ai_tx x < start bs (S (abatch (dinfos w) x)).
Proof. intros Hst Hx. destruct (access_tx _ _ _ Hst a x Hx) as (i & k & Ht & _ & _ & <-). by apply (st_tx_batch _ _ _ Hst). Qed.

(** Without an access in between, a resource keeps the state of the last commit. *)
Lemma fresh_after w bs c a x n :
  static w bs -> infos w !! a = Some x -> fresh_access (infos w) (dinfos w) (fun b => b < c) a -> start bs c <= n <= ai_tx x ->
  after process σ0 bs (ai_tx x) !! ai_rid x = after process σ0 bs n !! ai_rid x.
Proof.
  intros Hst Hx Hf Hn. apply (after_between process σ0 n0 w bs Hst); [lia|]. intros q z Hq Hz Er. assert (q < a) as Hqa.
  { destruct (decide (q < a)); [done|]. destruct (decide (q = a)) as [->|]; [simplify_eq; lia|]. pose proof (sh_tx _ _ (st_shape _ _ _ Hst) a q x z ltac:(lia) Hx Hq). lia. }
  pose proof (Hf q z x Hqa Hq Hx Er) as Hd. cbn beta in Hd. pose proof (batch_start w bs q z Hst Hq) as Hs'. pose proof (start_mono bs (S (abatch (dinfos w) z)) c ltac:(lia)). lia.
Qed.

Lemma fresh_latest w bs c ops g a x :
  inv w bs c ops g -> infos w !! a = Some x -> fresh_access (infos w) (dinfos w) (fun b => b < c) a -> c <= abatch (dinfos w) x ->
  batch_canceled w (abatch (dinfos w) x) = false -> w_latest w !! ai_rid x = after process σ0 bs (ai_tx x) !! ai_rid x.
Proof.
  intros Hi Hx Hf Hle Hc. pose proof (in_static _ _ _ _ _ _ _ _ Hi) as Hst. pose proof (abatch_bound n0 w bs Hst a x Hx) as Hlt.
  rewrite (cm_latest _ _ _ _ _ _ (in_commits _ _ _ _ _ _ _ _ Hi)). 2:{ intros b Hb. eapply (canceled_mono n0 w bs Hst b (abatch (dinfos w) x)); [lia|done..]. }
  pose proof (batch_start w bs a x Hst Hx) as Hs. pose proof (start_mono bs _ _ Hle) as Hm. symmetry. eapply fresh_after; [done..|lia].
Qed.

Lemma served_read w bs c ops g a y :
  inv w bs c ops g -> a ∈ w_reads w -> w_accesses w !! a = Some y -> rd w a = None -> good_read process σ0 w bs a (version_of (w_latest w) (ra_rid y)).
Proof.
  intros Hi Ha Hy Hn. pose proof (infos_lookup _ _ _ Hy) as Hx. pose proof (in_static _ _ _ _ _ _ _ _ Hi) as Hst. pose proof (in_values _ _ _ _ _ _ _ _ Hi) as Hv.
  destruct (va_reads _ _ _ _ _ _ Hv a Ha) as [Hex Hp]. pose proof (va_fresh _ _ _ _ _ _ Hv a Hex Hn (Hp Hn)) as Hf. pose proof (waiting_uncommitted w bs c ops g a _ Hi Hx Hn) as Hle.
  pose proof (abatch_bound n0 w bs Hst a _ Hx) as Hlt. exists (ra_info y). split; [done|]. split; [apply version_of_rid|]. split.
  - intros Hc. pose proof (fresh_latest w bs c ops g a _ Hi Hx Hf Hle Hc) as E. split.
    + eapply reads_from_ext; [|apply reads_from_version_of]. by rewrite version_of_rid.
    + intros _. destruct (after_bounded w bs (abatch (dinfos w) (ra_info y)) (start bs (abatch (dinfos w) (ra_info y))) Hst Hlt ltac:(done)) as (top & Ht & Hb).
      pose proof (batch_start w bs a _ Hst Hx) as Hs. assert (after process σ0 bs (ai_tx (ra_info y)) !! ra_rid y = after process σ0 bs (start bs (abatch (dinfos w) (ra_info y))) !! ra_rid y) as E'.
      { pose proof (start_mono bs _ _ Hle). eapply fresh_after; [done..|lia]. }
      specialize (Hb (ra_rid y)). unfold version_of in Hb |- *. unfold ra_rid in *. rewrite E, E'. lia.
  - intros Hh. exfalso. destruct (diff_head n0 w bs Hst a _ Hx) as (h & z & Hz & Ez & Hhh & Hha). destruct (decide (h = a)) as [->|]; [congruence|].
    apply (same_diff _ _ _ _ _ _ (st_shape _ _ _ Hst) Hz Hx) in Ez as [Eb Er]. pose proof (Hf h z _ ltac:(lia) Hz Hx Er) as Hd. cbn beta in Hd. lia.
Qed.

Lemma delete_elem {A} (l : list A) k x y : l !! k = Some x -> y ∈ l -> y = x \/ y ∈ delete k l.
Proof. intros Hk Hy. rewrite (delete_Permutation l k x Hk) in Hy. by apply elem_of_cons in Hy. Qed.
Lemma elem_of_delete {A} (l : list A) k y : y ∈ delete k l -> y ∈ l.
Proof. rewrite delete_take_drop. intros [H|H]%elem_of_app; [by eapply subseteq_take|by eapply subseteq_drop]. Qed.

Lemma ServeRead_good w bs c g k e : good w bs c g -> fire process w (ServeRead k) = Some e -> exists w', e = Ok w' /\ stat w' = stat w /\ good w' bs c g.
Proof.
  intros [Hi Ho]. unfold_fire. destruct (w_reads w !! k) as [a|] eqn:Hk; cbn; [|done]. intros [= <-]. pose proof (list_elem_of_lookup_2 _ _ _ Hk) as Ha.
  pose proof Hi as [Hst Hv Ht Hc Hm]. destruct (va_reads _ _ _ _ _ _ Hv a Ha) as [Hex Hp]. destruct (lookup_lt_is_Some_2 _ _ Hex) as [y Hy]. rewrite Hy. cbn.
  eexists. split; [done|]. split; [done|]. set (v := version_of _ _). set (ops := concat (w_threads w)) in *. split.
  2:{ cbn [w_threads spawn with_threads with_queues]. apply Forall_app. split; [done|]. apply Forall_singleton. intros l1 a' v' l2 x E. destruct l1 as [|? [|? ?]]; discriminate E. }
  cbn [w_threads spawn with_threads with_queues]. rewrite concat_app. cbn [concat]. rewrite app_nil_r. apply (inv_perm _ _ _ _ _ _ (SetRead a v :: ops)).
  { rewrite Permutation_app_comm. done. }
  eapply (inv_similar (with_queues w (delete k (w_reads w)) (w_available w) (w_writes w))); [done|]. set (w' := with_queues _ _ _ _). assert (extends w w') as He by (by apply extends_same). split.
  - by apply (static_frame _ w).
  - apply (values_step process σ0 n0 w w' bs c ops); try done; try (intros; by left); try apply Hv.
    + intros a' v' [[= -> ->]|?]%elem_of_cons; [right|by left]. split; [done|]. intros Hn. apply (good_read_frame _ _ w); [done|]. by eapply served_read.
    + intros a' v' [?|?]%elem_of_cons; [done|by left].
    + intros a' v' [?|?]%elem_of_cons; [done|by left].
    + intros a' p [?|?]%elem_of_cons; [done|]. by apply (va_AfterLink _ _ _ _ _ _ Hv).
    + intros a' [?|?]%elem_of_cons; done.
    + intros a' Ha'. left. by apply (elem_of_delete _ k).
  - eapply (tokens_step w); [exact Ht|done|done| |done|..].
    + intros q _ [Hw|[Hw|[[u Hw]|(p & Hq & Hw)]]]; [left; by right| |right; right; left; exists u; by right|right; right; right; exists p; split; [done|]].
      * destruct (delete_elem _ _ _ _ Hk Hw) as [->|?]; [right; right; left; exists v; by left|by right; left].
      * destruct Hw as [?|[? [?|[u ?]]]]; [left; by right|by right; auto|right]. split; [done|]. right. exists u. by right.
    + intros. by left.
    + intros. by right.
  - apply (counts_frame w w' ops); try done. intros x Hx. rewrite occurrences_cons, decide_False; [done|]. by intros ->.
  - by eapply (commits_frame _ _ w).
Qed.
(** ** Executions *)

Definition is_handle w (a : nat) (h : nat * AccessType * Version) : Prop :=
  exists x v, infos w !! a = Some x /\ rd w a = Some v /\ h = (a, access_type (ai_metadata x), v).

Lemma handles_ok w l : (forall a, a ∈ l -> exists_access w a /\ is_Some (rd w a)) -> exists hs, mapM_outcome (handle w) l = Ok hs /\ Forall2 (is_handle w) l hs.
Proof.
  induction l as [|a l IH]; intros Hl; [by exists []|]. destruct IH as (hs & E & Hf); [intros a' Ha'; apply Hl; by right|]. destruct (Hl a ltac:(by left)) as [Hex [v Hv]].
  destruct (lookup_lt_is_Some_2 _ _ Hex) as [y Hy]. exists ((a, access_type (ai_metadata (ra_info y)), v) :: hs). split.
  - assert (handle w a = Ok (a, access_type (ai_metadata (ra_info y)), v)) as Eh by (unfold handle; rewrite Hy; unfold rd in Hv; rewrite Hy in Hv; cbn in *; by rewrite Hv).
    cbn [mapM_outcome]. rewrite Eh. cbn [mbind outcome_bind]. by rewrite E.
  - constructor; [|done]. exists (ra_info y), v. by split; [apply infos_lookup|].
Qed.

Lemma stored_elem hs vs o :
  o ∈ concat (zip_with store_handle hs vs) <-> exists k a v u, hs !! k = Some (a, Write, u) /\ vs !! k = Some v /\ o = SetWritten a v.
Proof.
  revert vs. induction hs as [|[[a ty] u] hs IH]; intros [|v vs]; cbn [zip_with concat].
  - split; [by intros ?%not_elem_of_nil|]. intros (k & a & v & u & Hk & _). done.
  - split; [by intros ?%not_elem_of_nil|]. intros (k & a & v' & u & Hk & _). done.
  - split; [by intros ?%not_elem_of_nil|]. intros (k & a' & v & u' & _ & Hk & _). done.
  - rewrite elem_of_app, IH. unfold store_handle. cbn. split.
    + intros [H|(k & a' & v' & u' & Hk & Hv & ->)]; [|by exists (S k), a', v', u']. destruct ty; [by apply not_elem_of_nil in H|]. apply list_elem_of_singleton in H. by exists 0, a, v, u.
    + intros ([|k] & a' & v' & u' & Hk & Hv & ->); cbn in Hk, Hv; [|right; by exists k, a', v', u']. simplify_eq. left. by left.
Qed.

(** The state of a diff before the batch is known once one of its accesses is resolved, and other
    states have the batch's version. *)
Lemma read_diff w bs c ops a x v :
  static w bs -> values w bs c ops -> infos w !! a = Some x -> rd w a = Some v -> exists u, drd w (ai_diff x) = Some u /\
    (batch_canceled w (abatch (dinfos w) x) = false -> v = u \/ sv_version v = index_at bs (abatch (dinfos w) x)).
Proof.
  intros Hst Hv Hx Hr. destruct (head w a) eqn:Hh.
  - exists v. split; [|by left]. rewrite <- Hr. symmetry. by apply (va_head _ _ _ _ _ _ Hv).
  - destruct (va_read _ _ _ _ _ _ Hv a v Hr) as (x' & Hx' & _ & _ & Hd). rewrite Hx in Hx'. injection Hx' as <-. by apply Hd.
Qed.

Section execution.
Context w bs (c : nat) ops g (Hi : inv w bs c ops g) (t : nat) (i : tx_info (Tx := Tx) (M := M)) (Ht : tinfos w !! t = Some i).
Context (hs : list (nat * AccessType * Version)) (Hhs : Forall2 (is_handle w) (ti_resources i) hs).
Let values' := if batch_canceled w (ti_batch i) then hs.*2 else edited process (ti_checkpoint i) (ti_position i) (ti_tx i) hs.*2.

Lemma handle_at k a ty u : hs !! k = Some (a, ty, u) -> exists x m, infos w !! a = Some x /\ rd w a = Some u /\ ai_tx x = t /\ ai_metadata x = m /\
  tx_resources (ti_tx i) !! k = Some m /\ ti_batch i = abatch (dinfos w) x /\ ty = access_type m.
Proof.
  intros Hk. destruct (Forall2_lookup_r _ _ _ _ _ Hhs Hk) as (a' & Ha & x & v & Hx & Hr & [= <- -> <-]).
  destruct (st_linked _ _ _ (in_static _ _ _ _ _ _ _ _ Hi) t i Ht) as [Hf _]. destruct (Forall2_lookup_l _ _ _ _ _ Hf Ha) as (m & Hm & x' & Hx' & Em & Et & Eb).
  rewrite Hx in Hx'. injection Hx' as <-. exists x, m. by rewrite Em.
Qed.

Lemma handles_read : batch_canceled w (ti_batch i) = false ->
  Forall2 (fun m v => sv_resource_id v = resource_id m /\ reads_from (after process σ0 bs t) v) (tx_resources (ti_tx i)) hs.*2.
Proof.
  intros Hc. apply Forall2_same_length_lookup. split.
  - destruct (st_linked _ _ _ (in_static _ _ _ _ _ _ _ _ Hi) t i Ht) as [Hf _]. rewrite length_fmap, <- (Forall2_length _ _ _ Hhs). symmetry. by eapply Forall2_length.
  - intros k m v Hm Hv. rewrite list_lookup_fmap in Hv. destruct (hs !! k) as [[[a ty] u]|] eqn:Hk; [|done]. injection Hv as ->.
    destruct (handle_at k a ty v Hk) as (x & m' & Hx & Hr & Et & Em & Hm' & Eb & _). rewrite Hm in Hm'. injection Hm' as <-.
    destruct (va_read _ _ _ _ _ _ (in_values _ _ _ _ _ _ _ _ Hi) a v Hr) as (x' & Hx' & Er & Hg & _). rewrite Hx in Hx'. injection Hx' as <-.
    rewrite <- Eb in Hg. destruct (Hg Hc) as [Hrf _]. rewrite Et in Hrf. split; [|done]. rewrite Er. unfold ai_rid. by rewrite Em.
Qed.

Lemma executed_good a v : SetWritten a v ∈ concat (zip_with store_handle hs values') -> good_written process σ0 w bs a v /\ is_Some (rd w a).
Proof.
  intros (k & a' & v' & u & Hk & Hv & [= <- <-])%stored_elem. destruct (handle_at k a Write u Hk) as (x & m & Hx & Hr & Et & Em & Hm & Eb & Ety). split; [|by rewrite Hr].
  pose proof (in_static _ _ _ _ _ _ _ _ Hi) as Hst. destruct (va_read _ _ _ _ _ _ (in_values _ _ _ _ _ _ _ _ Hi) a u Hr) as (x' & Hx' & Er & _). rewrite Hx in Hx'. injection Hx' as <-.
  destruct (read_diff w bs c ops a x u Hst (in_values _ _ _ _ _ _ _ _ Hi) Hx Hr) as (u0 & Hu0 & Hver). assert (hs.*2 !! k = Some u) as Hu by (by rewrite list_lookup_fmap, Hk).
  unfold values' in Hv. exists x. split; [done|]. rewrite <- Eb in *. destruct (batch_canceled w (ti_batch i)) eqn:Hc.
  - rewrite Hu in Hv. injection Hv as <-. split; [done|]. by exists u0.
  - destruct (edited_lookup process (ti_checkpoint i) (ti_position i) (ti_tx i) _ _ _ Hu) as (v2 & Hv2 & Erid & Hcase). rewrite Hv in Hv2. injection Hv2 as <-.
    split; [congruence|]. exists u0. split; [done|]. intros _. split.
    + rewrite Et, (after_succ process σ0 n0 w bs Hst t i Ht). destruct (st_linked _ _ _ Hst t i Ht) as [_ Hnd]. by eapply run_job_reads; [|apply handles_read|..].
    + destruct Hcase as [->| ->]; [by apply Hver|]. right. by eapply tx_index.
Qed.

Lemma executed_all a x : infos w !! a = Some x -> ai_tx x = t -> access_type (ai_metadata x) = Write -> exists v, SetWritten a v ∈ concat (zip_with store_handle hs values').
Proof.
  intros Hx Et Ety. pose proof (in_static _ _ _ _ _ _ _ _ Hi) as Hst. assert (a ∈ ti_resources i) as Ha by (by apply (resource_tx n0 w bs t i a x Hst Ht Hx)).
  apply list_elem_of_lookup in Ha as [k Hk]. destruct (Forall2_lookup_l _ _ _ _ _ Hhs Hk) as (h & Hh & x' & u & Hx' & _ & ->). rewrite Hx in Hx'. injection Hx' as <-.
  assert (length values' = length hs) as Hlen by (unfold values'; destruct (batch_canceled _ _); [|rewrite edited_length]; apply length_fmap).
  destruct (lookup_lt_is_Some_2 values' k) as [v Hv]; [rewrite Hlen; by eapply lookup_lt_Some|]. exists v. apply stored_elem. exists k, a, v, u. by rewrite Hh, Ety.
Qed.

Lemma executed_ordered : ordered w (concat (zip_with store_handle hs values') ++ [DecreasePendingTxs t]).
Proof.
  intros l1 a v l2 x E Hx. assert (SetWritten a v ∈ concat (zip_with store_handle hs values')) as Hin.
  { assert (SetWritten a v ∈ concat (zip_with store_handle hs values') ++ [DecreasePendingTxs t]) as H by (rewrite E; set_solver). apply elem_of_app in H as [?|H]; [done|]. by apply list_elem_of_singleton in H. }
  apply stored_elem in Hin as (k & a' & v' & u & Hk & _ & [= <- <-]). destruct (handle_at k a Write u Hk) as (x' & m & Hx' & _ & Et & Em & _ & _ & Ety). rewrite Hx in Hx'. injection Hx' as <-.
  rewrite Em, <- Ety, Et. destruct (exists_last (l := l2)) as (l3 & o & ->).
  { intros ->. apply (f_equal last) in E. rewrite !last_snoc in E. done. }
  rewrite app_comm_cons, app_assoc in E. apply app_inj_tail in E as [_ <-]. set_solver.
Qed.
End execution.
Lemma occurrences_none {A} `{EqDecision A} (x : A) l : x ∉ l -> occurrences x l = 0.
Proof. intros Hn. destruct (occurrences x l) eqn:E; [done|]. destruct Hn. apply occurrences_elem. lia. Qed.

Lemma stored_uncounted hs vs o : counted o = true -> o ∉ concat (zip_with store_handle hs vs).
Proof. intros Ho (k & a & v & u & _ & _ & ->)%stored_elem. done. Qed.

(** The calls of an execution: the writes, then the count. *)
Lemma executed_counts hs vs t ops o :
  counted o = true -> occurrences o ((concat (zip_with store_handle hs vs) ++ [DecreasePendingTxs t]) ++ ops) = (if decide (o = DecreasePendingTxs t) then 1 else 0) + occurrences o ops.
Proof. intros Ho. rewrite !occurrences_app, (occurrences_none o (concat _)), occurrences_cons by (by apply stored_uncounted). cbn. lia. Qed.

Lemma Execute_good w bs c g k e : good w bs c g -> fire process w (Execute k) = Some e -> exists w' g', e = Ok w' /\ stat w' = stat w /\ good w' bs c g'.
Proof.
  intros [Hi Ho]. unfold_fire. destruct (w_available w !! k) as [t|] eqn:Hk; cbn [mbind option_bind]; [|done]. intros [= <-].
  pose proof Hi as [Hst Hv Htk Hc Hm]. pose proof (list_elem_of_lookup_2 _ _ _ Hk) as Hin. assert (t < length g) as Hlt by (apply (co_known _ _ _ Hc); by left).
  destruct (stage_at _ _ _ _ _ t Hst Hc Hlt) as (x & s & Hx & Hs & Ht). pose proof (co_available _ _ _ Hc t s Hs) as Hav. apply occurrences_elem in Hin.
  destruct (decide (s = Available)) as [->|]; [|lia]. destruct (handles_ok w (ti_resources (st_info x))) as (hs & Eh & Hhs).
  { intros a Ha. pose proof (resolved w bs _ g t _ Available a Hst Hc Ht Hs ltac:(done) Ha) as Hr. split; [|done]. destruct Hr as [v Hr]. unfold rd in Hr. unfold exists_access.
    destruct (w_accesses w !! a) eqn:E; [by eapply lookup_lt_Some|done]. }
  unfold execute. rewrite Hx. cbn [expect mbind outcome_bind]. rewrite Eh. cbn [mbind outcome_bind].
  set (vs := if batch_canceled w _ then _ else _). eexists _, (<[t := Running]> g). split; [done|]. split; [done|].
  pose proof (executed_ordered w bs c _ g Hi t _ Ht hs Hhs) as Hord. pose proof (executed_good w bs c _ g Hi t _ Ht hs Hhs) as Hgood. pose proof (executed_all w bs c _ g Hi t _ Ht hs Hhs) as Hall.
  fold vs in Hord, Hgood, Hall. set (ops := concat (w_threads w)) in *. set (calls := concat (zip_with store_handle hs vs) ++ [DecreasePendingTxs t]) in *. split.
  2:{ cbn [w_threads spawn with_threads with_queues]. apply Forall_app. split; [done|]. by apply Forall_singleton. }
  cbn [w_threads spawn with_threads with_queues]. rewrite concat_app. cbn [concat]. rewrite app_nil_r. apply (inv_perm _ _ _ _ _ _ (calls ++ ops)).
  { apply Permutation_app_comm. }
  eapply (inv_similar (with_queues w (w_reads w) (delete k (w_available w)) (w_writes w))); [done|]. set (w' := with_queues _ _ _ _). assert (extends w w') as He by (by apply extends_same).
  assert (forall o, o ∈ calls ++ ops -> o ∈ ops \/ o = DecreasePendingTxs t \/ exists a v, o = SetWritten a v /\ SetWritten a v ∈ concat (zip_with store_handle hs vs)) as Hcase.
  { intros o [[Hin'|Hin']%elem_of_app|Hin']%elem_of_app; [|right; left; by apply list_elem_of_singleton in Hin'|by left]. right; right. pose proof Hin' as (? & a & v & ? & _ & _ & ->)%stored_elem. by exists a, v. }
  pose proof (lookup_stage g t Running) as Hg. pose proof (fun o => executed_counts hs vs t ops o) as Hocc. fold calls in Hocc. split.
  - by apply (static_frame _ w).
  - apply (values_step process σ0 n0 w w' bs c ops); try done; try (intros; by left); try apply Hv.
    + intros a v [?|[?|(a' & v' & [=] & _)]]%Hcase; [by left|done].
    + intros a v [?|[?|(a' & v' & [= <- <-] & H)]]%Hcase; [by left|done|right]. destruct (Hgood a v H) as [H1 H2]. split; [|done]. by apply (good_written_frame _ _ w).
    + intros a v [?|[?|(a' & v' & [=] & _)]]%Hcase; [by left|done].
    + intros a v [?|[?|(a' & v' & [=] & _)]]%Hcase; [|done]. by apply (va_AfterLink _ _ _ _ _ _ Hv).
    + intros a [?|[?|(a' & v' & [=] & _)]]%Hcase; done.
  - eapply (tokens_same w); [exact Htk|done|done|done|intros o _ Hin'; apply elem_of_app; by right|].
    intros a z Hz Ety Hw Hearly. rewrite Hg by done. destruct (decide (ai_tx z = t)) as [Et|]; [right|left; exact Hearly].
    destruct (Hall a z Hz Et Ety) as [v Hv']. exists v. apply elem_of_app. left. apply elem_of_app. by left.
  - pose proof (occurrences_perm t _ _ (delete_Permutation _ _ _ Hk)) as Hp. rewrite occurrences_cons, decide_True in Hp by done.
    eapply (counts_move w w' _ (calls ++ ops) g t x Available Running (st_pending_resources x) Hc Hs). split; try done.
    + exact (set_pending_same w t x Hx).
    + rewrite Hocc, (decide_False (P := _ = DecreasePendingTxs t)) by done. by apply (co_pending _ _ _ Hc).
    + rewrite decide_False by done. by eapply (co_ready _ _ _ Hc).
    + intros Hin'. apply (co_resources _ _ _ Hc t x Hx). destruct (Hcase _ Hin') as [?|[?|(? & ? & ? & _)]]; done.
    + rewrite Hocc, (decide_False (P := PushAvailable t = _)), (co_push _ _ _ Hc t x Available Hx Hs), !decide_False by (done || by intros [? _]). done.
    + change (w_available w') with (delete k (w_available w)). rewrite decide_False by done. lia.
    + rewrite Hocc, (co_running _ _ _ Hc t Available Hs), !decide_True by done. done.
    + intros t' Hne. rewrite !Hocc by done. rewrite !decide_False by congruence. split; [done|]. split; [done|]. split; [done|]. change (w_available w') with (delete k (w_available w)).
      pose proof (occurrences_perm t' _ _ (delete_Permutation _ _ _ Hk)) as Hp'. rewrite occurrences_cons, decide_False in Hp' by done. lia.
    + intros b y Hb. rewrite <- (pending_move g t Available Running Hs) by done. exact (co_batch _ _ _ Hc b y Hb).
  - eapply (commits_stage _ _ w); [done|by eauto|done..| |done]. intros t' Hd. rewrite Hg by done. destruct (decide (t' = t)) as [->|]; congruence.
Qed.
End actions.
