(* ===== verification/SchedFinish.v ===== *)
(** * SchedFinish: batches that are scheduled, committed and canceled

    The actions of the scheduler's thread and of the lifecycle worker keep the invariant: a
    committed batch leaves the sequential state, an eviction forgets only what is committed, a
    cancelation only weakens what is promised, and a new batch extends the chains. *)

From S2P Require Import Prelude Codec Types SmtNode SmtTrie SmtUpdate SmtTree AtomicRing CanonicalChain RocksStore L1Types StateSpaces SchedStore SchedCore SchedProofs SchedAccess SchedSerial SchedShape SchedFlow SchedCalls SchedCounters SchedActions.

Section finish.
Context {Tx M : Type} (process : M -> nat -> SchedulerTransaction Tx -> list bytes -> option (list (list edit))).
Context (σ0 : vstate) (n0 : Z).
Hypothesis Hclean : clean σ0.
Hypothesis Hold : forall r v x, σ0 !! r = Some (v, x) -> (v <= n0)%Z.
Hypothesis Hn0 : (0 <= n0)%Z.
Implicit Types (w : World (Tx := Tx) (M := M)) (bs : list (Checkpoint M * list (SchedulerTransaction Tx))) (ops R : list call) (g : list stage).

Abbreviation static := (static n0).
Abbreviation values := (values process σ0).
Abbreviation commits := (commits process σ0).
Abbreviation inv := (inv process σ0 n0).
Abbreviation good := (good process σ0 n0).

(** ** Evictions *)

Lemma EvictNext_good w bs c g e : good w bs c g -> fire process w EvictNext = Some e -> exists w', e = Ok w' /\ stat w' = stat w /\ good w' bs c g.
Proof.
  intros [Hi Ho]. unfold_fire. unfold evict_next. destruct (w_evictions w) as [|r evs]; [done|]. cbn. intros [= <-]. eexists. split; [done|].
  set (w1 := with_lifecycle _ _ _ _). assert (good w1 bs c g) as Hg1 by (split; [by eapply (inv_similar _ _ _ w)|done]).
  destruct (w_resources w !! r) as [a|] eqn:Ha; [|done]. destruct (should_evict w1 a) eqn:He; [|done]. split; [done|]. destruct Hg1 as [[H1 H2 H3 H4 [M1 M2 M3 M4 M5 M6]] Ho1].
  split; [|exact Ho1]. set (w' := with_resources _ _). assert (extends w1 w') as Hex by (by apply extends_same). split.
  - by apply (static_frame _ w1).
  - eapply (values_same _ _ _ w1); eauto.
  - eapply (tokens_same w1); eauto.
  - eapply (counts_frame w1); eauto.
  - split; [done|done|done|done|done|]. intros Hth. specialize (M6 Hth). destruct M6 as [K1 K2]. split.
    + intros r' p. cbn. intros [_ Hp]%lookup_delete_Some. by apply K1.
    + intros r' q y. cbn. intros [<-|Hn]%lookup_delete_None Hq Er; [|by eapply K2]. destruct (K1 r a Ha) as (x & Hx & _ & Hlast). pose proof (Hlast q y Hq Er) as Hle.
      assert (abatch (dinfos w1) x < c) as Hc.
      { apply infos_inv in Hx as (z & Hz & <-). unfold should_evict in He. rewrite Hz in He. cbn in He. destruct (sh_diff _ _ (st_shape _ _ _ H1) a (ra_info z) (infos_lookup _ _ _ Hz)) as (d & Hd & _).
        unfold abatch. rewrite Hd. cbn. unfold dinfos in Hd. apply list_lookup_fmap_Some in Hd as (cl & -> & Hcl). cbn in Hcl. rewrite Hcl in He. cbn in He.
        pose proof (st_batches _ _ _ H1 (ai_diff (ra_info z)) (dc_info cl)) as Hb. destruct (w_batches w !! di_batch (dc_info cl)) as [b|] eqn:Eb.
        - cbn in He. rewrite (M2 _ b Eb) in He. by apply Nat.ltb_lt.
        - apply lookup_ge_None in Eb. rewrite <- (length_binfos n0 w1 bs H1) in Hb. unfold binfos in Hb. rewrite length_fmap in Hb. cbn in Hb.
          assert (di_batch (dc_info cl) < length (w_batches w)); [|lia]. apply Hb. unfold dinfos. by rewrite list_lookup_fmap, Hcl. }
      destruct (decide (q = a)) as [->|]; [assert (Some y = Some x) as E by (by rewrite <- Hx); injection E as ->; exact Hc|]. pose proof (sh_batch _ _ (st_shape _ _ _ H1) q a y x ltac:(lia) Hq Hx). change (abatch (dinfos w1) y < c). lia.
Qed.

(** ** Cancelation *)

Section canceled.
Context w bs (Hst : static w bs) (target : Z) (latest : vstate) (Hle : (target <= w_threshold w)%Z).
Let w' := cancel w target latest.

Lemma cancel_mono b : batch_canceled w' b = false -> batch_canceled w b = false.
Proof. unfold batch_canceled. cbn. destruct (w_batches w !! b); [|done]. cbn. rewrite !Z.ltb_ge. lia. Qed.

Lemma cancel_read a v : good_read process σ0 w bs a v -> good_read process σ0 w' bs a v.
Proof.
  intros (x & Hx & Er & Hc & Hn). exists x. split; [done|]. split; [done|]. split; [intros H; by apply Hc, cancel_mono|].
  intros Hh. destruct (Hn Hh) as (u & Hu & Hv). exists u. split; [done|]. intros H. by apply Hv, cancel_mono.
Qed.
Lemma cancel_written a v : good_written process σ0 w bs a v -> good_written process σ0 w' bs a v.
Proof. intros (x & Hx & Er & u & Hu & Hc). exists x. split; [done|]. split; [done|]. exists u. split; [done|]. intros H. by apply Hc, cancel_mono. Qed.

Lemma cancel_values c ops : values w bs c ops -> values w' bs c ops.
Proof.
  intros [V1 V2 V3 V4 V5 V6 V7 V8 V9 V10 V11 V12 V13 (W1 & W2 & W3)]. split; try done.
  - intros a v Hv. by apply cancel_read, V1.
  - intros a v Hv. destruct (V3 a v Hv). split; [by apply cancel_written|done].
  - intros a v Hin. destruct (V8 a v Hin) as [H1 H2]. split; [done|]. intros Hn. by apply cancel_read, H2.
  - intros a v Hin. destruct (V9 a v Hin). split; [by apply cancel_written|done].
  - split; [done|]. split; [done|]. intros d i Hd Hs Hc. eapply W3; [done..|]. by apply cancel_mono.
Qed.
End canceled.

Lemma canceled_stays w target latest b : (target <= w_threshold w)%Z -> batch_canceled w b = true -> batch_canceled (cancel w target latest) b = true.
Proof. intros Hle. unfold batch_canceled. cbn. destruct (w_batches w !! b); [|done]. cbn. rewrite !Z.ltb_lt. lia. Qed.

(** A rollback does not touch the versions of batches up to its target. *)
Definition rolls_back w (target : Z) (latest : vstate) : Prop :=
  (target <= w_threshold w)%Z /\ (target < CancellationContext.U64_MAX)%Z /\
  ((forall b x, w_batches w !! b = Some x -> sb_committed x = true -> batch_canceled (cancel w target latest) b = false) -> forall r, latest !! r = w_latest w !! r).

Lemma Cancel_good w bs c g target latest :
  good w bs c g -> rolls_back w target latest -> let w' := cancel w target latest in stat w' = stat w /\ good w' bs c g.
Proof.
  intros [[H1 H2 [T1 T2] [C1 C2 C3 C4 C5 C6 C7 C8 C9 C10] [M1 M2 M3 M4 M5 M6]] Ho] (Hle & Hmax & Hlat) w'. split; [done|]. split; [|done]. change (w_threads w') with (w_threads w). split.
  - by apply (static_frame _ w).
  - by apply cancel_values.
  - by split.
  - by split.
  - split; try done.
    + destruct M3 as (k & Hk & Hq & Hc). exists k. split; [done|]. split; [done|]. intros b Hb. by apply canceled_stays, Hc.
    + intros Hn r. change (w_latest w') with latest. rewrite Hlat; [apply M5; intros b Hb; by eapply cancel_mono, Hn|]. intros b x Hb Hx. rewrite (M2 b x Hb) in Hx. by apply Hn, Nat.ltb_lt.
    + change (w_threshold w') with target. lia.
Qed.
(** ** What a finished batch leaves *)

Lemma done_written w bs c g a x : good w bs c g -> infos w !! a = Some x -> g !! ai_tx x = Some Done -> is_Some (rd w a) /\ is_Some (wr w a).
Proof.
  intros [Hi Ho] Hx Hd. pose proof Hi as [Hst Hv Htk Hc Hm]. destruct (access_tx n0 w bs Hst a x Hx) as (i & k & Ht & Hk & _ & _).
  assert (is_Some (rd w a)) as Hr by (eapply (resolved n0 w bs _ g); [done..|by eapply list_elem_of_lookup_2]). split; [done|].
  destruct (wr w a) eqn:Ew; [done|]. exfalso. destruct (to_written _ _ _ Htk a x Hx Ew) as [Hn|[[_ He]|[v Hin]]].
  - rewrite Hn in Hr. by destruct Hr.
  - rewrite Hd in He. by destruct He.
  - apply list_elem_of_In, in_concat in Hin as (l & Hl & Hin). apply list_elem_of_In in Hl, Hin. rewrite Forall_forall in Ho. specialize (Ho l Hl). apply list_elem_of_split in Hin as (l1 & l2 & El).
    pose proof (Ho l1 a v l2 x El Hx) as Hlater. assert (forall o, o ∈ l2 -> o ∈ concat (w_threads w)) as Hup.
    { intros o Hin. apply list_elem_of_In, in_concat. exists l. split; apply list_elem_of_In; [done|]. rewrite El. set_solver. }
    destruct (access_type _); apply Hup, occurrences_elem in Hlater.
    + unfold tinfos in Ht. apply list_lookup_fmap_Some in Ht as (y & -> & Hy). pose proof (co_ready _ _ _ Hc _ y Done Hy Hd ltac:(done)) as H0. rewrite (co_pending _ _ _ Hc _ y Hy) in H0. lia.
    + rewrite (co_running _ _ _ Hc _ Done Hd), decide_False in Hlater by done. lia.
Qed.

Lemma diff_tail w bs : static w bs -> forall n a x, length (infos w) - a <= n -> infos w !! a = Some x -> exists l y, infos w !! l = Some y /\ ai_diff y = ai_diff x /\ tail w l = true /\ a <= l.
Proof.
  intros Hst n. induction n as [|n IH]; intros a x Hn Hx; pose proof (lookup_lt_Some _ _ _ Hx) as Hlt; [lia|].
  destruct (list_find (fun z => ai_diff z = ai_diff x) (drop (S a) (infos w))) as [[q z]|] eqn:E.
  - apply list_find_Some in E as (Hq & Ez & _). rewrite lookup_drop in Hq. destruct (IH (S a + q) z ltac:(lia) Hq) as (l & y & Hl & Ey & Htl & Hle). exists l, y. split; [done|]. split; [congruence|]. split; [done|lia].
  - exists a, x. split; [done|]. split; [done|]. split; [|lia]. apply (tail_spec n0 w bs Hst a x Hx). intros q z Hq Hz. apply list_find_None in E. rewrite Forall_forall in E. apply E.
    apply list_elem_of_lookup. exists (q - S a). rewrite lookup_drop. by replace (S a + (q - S a)) with q by lia.
Qed.

(** Both states of a diff, compared with the sequential execution before and after the batch. *)
Record finished bs (b : nat) (r : ResourceId) (u v : Version) : Prop := {
  fi_read_rid : sv_resource_id u = r;
  fi_written_rid : sv_resource_id v = r;
  fi_read : reads_from (after process σ0 bs (start bs b)) u;
  fi_written : reads_from (after process σ0 bs (start bs (S b))) v;
  fi_older : (sv_version u < index_at bs b)%Z;
  fi_version : v = u \/ sv_version v = index_at bs b
}.

Lemma diff_finished w bs c g d i :
  good w bs c g -> dinfos w !! d = Some i -> batch_canceled w (di_batch i) = false -> (forall t j, tinfos w !! t = Some j -> ti_batch j = di_batch i -> g !! t = Some Done) ->
  exists u v, drd w d = Some u /\ dwr w d = Some v /\ finished bs (di_batch i) (di_resource_id i) u v.
Proof.
  intros Hg Hd Hc Hdone. pose proof Hg as [[Hst Hv _ _ _] _]. pose proof (st_shape _ _ _ Hst) as Hs. destruct (sh_touched _ _ Hs d i Hd) as (a & x & Hx & Ex).
  assert (forall q z, infos w !! q = Some z -> ai_diff z = d -> abatch (dinfos w) z = di_batch i /\ ai_rid z = di_resource_id i /\ is_Some (rd w q) /\ is_Some (wr w q)) as Hin.
  { intros q z Hq Ez. destruct (sh_diff _ _ Hs q z Hq) as (i' & Hi' & Er). rewrite Ez, Hd in Hi'. injection Hi' as <-. assert (abatch (dinfos w) z = di_batch i) as Eb by (unfold abatch; by rewrite Ez, Hd).
    split; [done|]. split; [done|]. eapply done_written; [done..|]. destruct (access_tx n0 w bs Hst q z Hq) as (j & k & Hj & _ & _ & Ej). eapply Hdone; [done|congruence]. }
  destruct (diff_head n0 w bs Hst a x Hx) as (h & y & Hy & Ey & Hh & _). destruct (diff_tail w bs Hst _ a x ltac:(done) Hx) as (l & z & Hz & Ez & Hl & _). rewrite Ex in Ey, Ez.
  destruct (Hin h y Hy Ey) as (Eyb & Eyr & [u Hu] & _). destruct (Hin l z Hz Ez) as (Ezb & Ezr & _ & [v Hw]). exists u, v.
  assert (drd w d = Some u) as Hdr by (rewrite <- Ey, <- (va_head _ _ _ _ _ _ Hv h y Hy Hh); done). assert (dwr w d = Some v) as Hdw by (rewrite <- Ez, <- (va_tail _ _ _ _ _ _ Hv l z Hz Hl); done).
  split; [done|]. split; [done|]. destruct (va_read _ _ _ _ _ _ Hv h u Hu) as (y' & Hy' & Eu & Hgr & _). rewrite Hy in Hy'. injection Hy' as <-. rewrite Eyb in Hgr. destruct (Hgr Hc) as [Hrf Hver].
  destruct (va_written _ _ _ _ _ _ Hv l v Hw) as [(z' & Hz' & Ev & u' & Hu' & Hgw) _]. rewrite Hz in Hz'. injection Hz' as <-. rewrite Ez, Hdr in Hu'. injection Hu' as <-. rewrite Ezb in Hgw. destruct (Hgw Hc) as [Hwf Hwver].
  pose proof (batch_start n0 w bs h y Hst Hy) as Hsy. pose proof (batch_start n0 w bs l z Hst Hz) as Hsz. rewrite Eyb in Hsy. rewrite Ezb in Hsz.
  assert (forall q zz, infos w !! q = Some zz -> start bs (di_batch i) <= ai_tx zz < start bs (S (di_batch i)) -> ai_rid zz = di_resource_id i -> ai_diff zz = d) as Hsame.
  { intros q zz Hq Ht Er. rewrite <- Ex. apply (same_diff _ _ _ _ _ _ Hs Hq Hx). destruct (Hin a x Hx Ex) as (-> & -> & _). split; [|done].
    pose proof (batch_start n0 w bs q zz Hst Hq) as Hsq. by apply (batch_unique bs (ai_tx zz)). }
  split; [congruence|congruence|..].
  - eapply reads_from_ext; [|exact Hrf]. apply (after_between process σ0 n0 w bs Hst); [lia|]. intros q zz Hq Ht Er.
    pose proof (proj1 (head_spec n0 w bs Hst h y Hy) Hh q zz) as Hne. assert (ai_diff zz = d) as Ed by (apply (Hsame q zz Hq); [lia|congruence]). rewrite Ed, Ey in Hne. apply Hne; [|done|done].
    destruct (decide (q < h)); [done|]. destruct (decide (q = h)) as [->|]; [simplify_eq; lia|]. pose proof (sh_tx _ _ Hs h q y zz ltac:(lia) Hy Hq). lia.
  - eapply reads_from_ext; [|exact Hwf]. symmetry. apply (after_between process σ0 n0 w bs Hst); [lia|]. intros q zz Hq Ht Er.
    pose proof (proj1 (tail_spec n0 w bs Hst l z Hz) Hl q zz) as Hne. assert (ai_diff zz = d) as Ed by (apply (Hsame q zz Hq); [lia|congruence]). rewrite Ed, Ez in Hne. apply Hne; [|done|done].
    destruct (decide (l < q)); [done|]. destruct (decide (q = l)) as [->|]; [simplify_eq; lia|]. pose proof (sh_tx _ _ Hs q l zz z ltac:(lia) Hq Hz). lia.
  - by apply Hver.
  - done.
Qed.
(** ** Commits *)

Lemma commit_latest_ok σ ds :
  Forall (fun d => exists u v, sd_read d = Some u /\ sd_written d = Some v /\ sv_resource_id v = sd_resource_id d) ds -> NoDup (sd_resource_id <$> ds) ->
  exists vs, commit_latest σ ds = Ok (store_all σ vs) /\ NoDup (sv_resource_id <$> vs) /\
    forall v, v ∈ vs <-> exists d u, d ∈ ds /\ sd_read d = Some u /\ sd_written d = Some v /\ (sv_version u < sv_version v)%Z.
Proof.
  intros Hf Hnd. assert (exists up vs, updated_state_diffs ds = Ok up /\ mapM_outcome written_state up = Ok vs /\ sublist (sv_resource_id <$> vs) (sd_resource_id <$> ds) /\
    forall v, v ∈ vs <-> exists d u, d ∈ ds /\ sd_read d = Some u /\ sd_written d = Some v /\ (sv_version u < sv_version v)%Z) as (up & vs & E1 & E2 & Hsub & Hin).
  { clear Hnd. induction Hf as [|d ds (u & v & Hu & Hv & Er) _ (up & vs & E1 & E2 & Hsub & Hin)].
    - exists [], []. split; [done|]. split; [done|]. split; [done|]. intros v. split; [by intros ?%not_elem_of_nil|]. by intros (d & u & ?%not_elem_of_nil & _).
    - assert (data_updated d = Ok (sv_version u <? sv_version v)%Z) as Ed by (unfold data_updated, written_state, read_state; by rewrite Hv, Hu).
      assert (written_state d = Ok v) as Ew by (unfold written_state; by rewrite Hv).
      cbn [updated_state_diffs]. rewrite Ed. cbn [mbind outcome_bind]. rewrite E1. cbn [mbind outcome_bind]. destruct (Z.ltb_spec (sv_version u) (sv_version v)) as [Hl|Hl].
      + exists (d :: up), (v :: vs). split; [done|]. split; [cbn [mapM_outcome]; rewrite Ew; cbn [mbind outcome_bind]; by rewrite E2|].
        split; [cbn; rewrite Er; by constructor|]. intros v'. rewrite elem_of_cons, Hin. split.
        * intros [->|(d' & u' & ? & ?)]; [exists d, u; split; [by left|done]|exists d', u'; split; [by right|done]].
        * intros (d' & u' & [->|?]%elem_of_cons & Hu' & Hv' & ?); [left; congruence|right; by exists d', u'].
      + exists up, vs. split; [done|]. split; [done|]. split; [by constructor|]. intros v'. rewrite Hin. split.
        * intros (d' & u' & ? & ?). exists d', u'. split; [by right|done].
        * intros (d' & u' & [->|?]%elem_of_cons & Hu' & Hv' & ?); [|by exists d', u']. simplify_eq. lia. }
  exists vs. unfold commit_latest. rewrite E1. cbn [mbind outcome_bind]. rewrite E2. split; [done|]. split; [|done]. by eapply sublist_NoDup.
Qed.

Lemma clean_after bs n : clean (after process σ0 bs n).
Proof. by apply clean_run_jobs. Qed.
Lemma clean_ext σ σ' : (forall r, σ !! r = σ' !! r) -> clean σ' -> clean σ.
Proof. intros E Hc r v x Hr. rewrite E in Hr. by eapply Hc. Qed.

Definition cell_finished bs (b : nat) (cl : diff_cell) : Prop :=
  exists u v, dc_read cl = Some u /\ dc_written cl = Some v /\ finished bs b (di_resource_id (dc_info cl)) u v.

(** Committing the diffs of a batch takes the sequential state before it to the one after it. *)
Lemma commit_state w bs b cells σ :
  static w bs -> Forall (cell_finished bs b) cells -> NoDup ((fun cl => di_resource_id (dc_info cl)) <$> cells) ->
  (forall a x, infos w !! a = Some x -> abatch (dinfos w) x = b -> exists cl, cl ∈ cells /\ di_resource_id (dc_info cl) = ai_rid x) ->
  (forall r, σ !! r = after process σ0 bs (start bs b) !! r) ->
  exists σ', commit_latest σ (state_diff <$> cells) = Ok σ' /\ forall r, σ' !! r = after process σ0 bs (start bs (S b)) !! r.
Proof.
  intros Hst Hf Hnd Hall Hσ. destruct (commit_latest_ok σ (state_diff <$> cells)) as (vs & E & Hvs & Hin).
  { apply Forall_fmap. eapply Forall_impl; [exact Hf|]. intros cl (u & v & Hu & Hv & Hfi). exists u, v. split; [done|]. split; [done|]. apply Hfi. }
  { rewrite <- list_fmap_compose. exact Hnd. }
  exists (store_all σ vs). split; [done|]. intros r. assert (clean σ) as Hcσ by (eapply clean_ext; [exact Hσ|apply clean_after]).
  rewrite Forall_forall in Hf. assert (forall v, v ∈ vs -> exists cl u, cl ∈ cells /\ dc_read cl = Some u /\ dc_written cl = Some v /\ (sv_version u < sv_version v)%Z) as Hvs'.
  { intros v (d & u & (cl & -> & Hcl)%list_elem_of_fmap & Hu & Hv & Hlt)%Hin. by exists cl, u. }
  assert (forall cl cl', cl ∈ cells -> cl' ∈ cells -> di_resource_id (dc_info cl) = di_resource_id (dc_info cl') -> cl = cl') as Huniq.
  { intros cl cl' [k Hk]%list_elem_of_lookup [k' Hk']%list_elem_of_lookup E'. assert (k = k') as ->; [|congruence]. eapply (NoDup_lookup _ _ _ _ Hnd); rewrite list_lookup_fmap, ?Hk, ?Hk'; cbn; by f_equal. }
  destruct (decide (Exists (fun cl => di_resource_id (dc_info cl) = r) cells)) as [(cl & Hcl & Er)%Exists_exists|Hno].
  - destruct (Hf cl Hcl) as (u & v & Hu & Hv & [F1 F2 F3 F4 F5 F6]). destruct (decide (v ∈ vs)) as [Hvin|Hvn].
    + rewrite <- Er, <- F2. apply reads_from_entry; [by apply clean_store_all|apply clean_after|by apply store_all_reads|done].
    + assert (v = u) as ->. { destruct F6 as [?|F6]; [done|]. destruct Hvn. apply Hin. exists (state_diff cl), u. split; [by apply list_elem_of_fmap_2|]. cbn. split; [done|]. split; [done|lia]. }
      rewrite store_all_other, Hσ, <- Er, <- F1; [apply reads_from_entry; [apply clean_after..|done|done]|].
      intros (v' & Er' & Hv')%list_elem_of_fmap. destruct (Hvs' v' Hv') as (cl' & u' & Hcl' & Hu' & Hw' & Hlt). destruct (Hf cl' Hcl') as (u2 & v2 & Hu2 & Hv2 & [G1 G2 _ _ _ _]). simplify_eq.
      assert (cl' = cl) as -> by (apply Huniq; [done..|congruence]). simplify_eq. lia.
  - rewrite store_all_other, Hσ.
    + symmetry. apply (after_between process σ0 n0 w bs Hst); [apply start_mono; lia|]. intros a x Hx Ht Er. destruct (Hall a x Hx) as (cl & Hcl & Ecl).
      * pose proof (batch_start n0 w bs a x Hst Hx) as Hs. by apply (batch_unique bs (ai_tx x)).
      * apply Hno, Exists_exists. exists cl. split; [done|congruence].
    + intros (v & -> & Hv)%list_elem_of_fmap. destruct (Hvs' v Hv) as (cl & u & Hcl & Hu & Hw & _). apply Hno, Exists_exists. exists cl. split; [done|].
      destruct (Hf cl Hcl) as (u2 & v2 & Hu2 & Hv2 & [G1 G2 _ _ _ _]). congruence.
Qed.
Lemma batch_done w bs ops g b x : static w bs -> counts w ops g -> w_batches w !! b = Some x -> sb_processed x = true ->
  forall t j, tinfos w !! t = Some j -> ti_batch j = b -> g !! t = Some Done.
Proof.
  intros Hst Hc Hb Hp t j Hj Ej. destruct (co_batch _ _ _ Hc b x Hb) as [H1 H2]. rewrite Hp in H2. symmetry in H2. apply Z.eqb_eq in H2. rewrite H2 in H1.
  assert (binfos w !! b = Some (sb_info x)) as Hbi by (unfold binfos; by rewrite list_lookup_fmap, Hb). pose proof (proj2 (batch_txs n0 w bs b _ t j Hst Hbi Hj) Ej) as Hin.
  destruct (decide (g !! t = Some Done)) as [|Hne]; [done|]. assert (t ∈ filter (fun t => g !! t <> Some Done) (bi_txs (sb_info x))) as Hf by (by apply list_elem_of_filter).
  destruct (filter _ _); [by apply not_elem_of_nil in Hf|]. cbn in H1. lia.
Qed.

Lemma cells_ok w (l : list nat) : (forall d, d ∈ l -> d < length (w_diffs w)) ->
  exists cells, mapM_outcome (fun d => expect (w_diffs w !! d) : Result diff_cell) l = Ok cells /\ Forall2 (fun d cl => w_diffs w !! d = Some cl) l cells.
Proof.
  induction l as [|d l IH]; intros Hl; [by exists []|]. destruct IH as (cells & E & Hf); [intros d' Hd'; apply Hl; by right|]. destruct (lookup_lt_is_Some_2 _ _ (Hl d ltac:(by left))) as [cl Hcl].
  exists (cl :: cells). split; [|by constructor]. cbn. rewrite Hcl. cbn. by rewrite E.
Qed.

(** The next batch to commit, once its transactions are executed. *)
Lemma commit_head w bs c g x cells :
  good w bs c g -> w_batches w !! c = Some x -> batch_canceled w c = false -> sb_processed x = true ->
  Forall2 (fun d cl => w_diffs w !! d = Some cl) (bi_diffs (sb_info x)) cells ->
  exists σ', commit_latest (w_latest w) (state_diff <$> cells) = Ok σ' /\ forall r, σ' !! r = after process σ0 bs (start bs (S c)) !! r.
Proof.
  intros Hg Hx Hc Hp Hcells. pose proof Hg as [[Hst Hv Htk Hco Hm] _]. assert (binfos w !! c = Some (sb_info x)) as Hbi by (unfold binfos; by rewrite list_lookup_fmap, Hx).
  pose proof (lookup_lt_Some _ _ _ Hbi) as Hlt. rewrite (length_binfos n0 w bs Hst) in Hlt. pose proof (batch_done w bs _ g c x Hst Hco Hx Hp) as Hdone. destruct (st_diffs _ _ _ Hst c _ Hbi) as [Hnd Hds].
  assert (forall d cl, w_diffs w !! d = Some cl -> dinfos w !! d = Some (dc_info cl)) as Hinfo by (intros d cl Hd; unfold dinfos; by rewrite list_lookup_fmap, Hd).
  assert (forall k d cl, bi_diffs (sb_info x) !! k = Some d -> cells !! k = Some cl -> dinfos w !! d = Some (dc_info cl) /\ w_diffs w !! d = Some cl /\ di_batch (dc_info cl) = c) as Hat.
  { intros k d cl Hk Hcl. pose proof (Forall2_lookup_lr _ _ _ _ _ _ Hcells Hk Hcl) as Hd. cbn in Hd. split; [by apply Hinfo|]. split; [done|].
    destruct (proj1 (Hds d) (list_elem_of_lookup_2 _ _ _ Hk)) as (i & Hi & Eb). rewrite (Hinfo d cl Hd) in Hi. congruence. }
  apply (commit_state w bs c cells (w_latest w) Hst).
  - apply Forall_lookup. intros k cl Hcl. destruct (Forall2_lookup_r _ _ _ _ _ Hcells Hcl) as (d & Hd & _). destruct (Hat k d cl Hd Hcl) as (Hi & Hdc & Eb).
    destruct (diff_finished w bs c g d (dc_info cl) Hg Hi) as (u & v & Hu & Hw & Hfi); [by rewrite Eb|by rewrite Eb|]. rewrite Eb in Hfi. unfold drd, dwr in Hu, Hw. rewrite Hdc in Hu, Hw. by exists u, v.
  - apply NoDup_alt. intros k k' r. rewrite !list_lookup_fmap. destruct (cells !! k) as [cl|] eqn:Hcl, (cells !! k') as [cl'|] eqn:Hcl'; cbn; try done. intros [= Er] [= Er'].
    destruct (Forall2_lookup_r _ _ _ _ _ Hcells Hcl) as (d & Hd & _). destruct (Forall2_lookup_r _ _ _ _ _ Hcells Hcl') as (d' & Hd' & _).
    destruct (Hat k d cl Hd Hcl) as (Hi & _ & Eb). destruct (Hat k' d' cl' Hd' Hcl') as (Hi' & _ & Eb').
    assert (d = d') as -> by (eapply (sh_unique _ _ (st_shape _ _ _ Hst)); [done..|congruence|congruence]). by eapply (NoDup_lookup _ _ _ _ Hnd).
  - intros a y Hy Eb. destruct (sh_diff _ _ (st_shape _ _ _ Hst) a y Hy) as (i & Hi & Er). assert (ai_diff y ∈ bi_diffs (sb_info x)) as Hin by (apply Hds; exists i; split; [done|]; unfold abatch in Eb; by rewrite Hi in Eb).
    apply list_elem_of_lookup in Hin as [k Hk]. destruct (Forall2_lookup_l _ _ _ _ _ Hcells Hk) as (cl & Hcl & Hd). exists cl. split; [by eapply list_elem_of_lookup_2|].
    rewrite (Hinfo _ _ Hd) in Hi. injection Hi as <-. done.
  - apply (cm_latest _ _ _ _ _ _ Hm). intros b Hb. eapply (canceled_mono n0 w bs Hst b c); [lia|done|done].
Qed.

Lemma CommitNext_good w bs c g e : good w bs c g -> fire process w CommitNext = Some e -> exists w' c', e = Ok w' /\ stat w' = stat w /\ good w' bs c' g.
Proof.
  intros Hg. pose proof Hg as [[Hst Hv Htk Hco Hm] Ho]. unfold_fire. unfold commit_next. destruct (cm_queue _ _ _ _ _ _ Hm) as (k & Hk & Hq & Hcn). rewrite Hq.
  destruct (length bs - k) as [|n] eqn:En; [done|]. cbn [seq]. destruct (w_batches w !! k) as [x|] eqn:Hx; [|done]. destruct (batch_canceled w k) eqn:Hc.
  - intros [= <-]. eexists _, c. split; [done|]. split; [done|]. split; [|done]. set (w' := with_lifecycle _ _ _ _). assert (extends w w') as He by (by apply extends_same). change (w_threads w') with (w_threads w). split.
    + by apply (static_frame _ w).
    + eapply (values_same _ _ _ w); eauto.
    + eapply (tokens_same w); eauto.
    + eapply (counts_frame w); eauto.
    + destruct Hm as [M1 M2 M3 M4 M5 M6]. split; try done. exists (S k). split; [lia|]. split; [cbn; f_equal; lia|]. intros b Hb. destruct (decide (b = k)) as [->|]; [done|]. apply Hcn. lia.
  - destruct (sb_processed x) eqn:Hp; [|done]. intros [= <-]. assert (k = c) as ->.
    { destruct (decide (k = c)); [done|]. assert (batch_canceled w c = false) by (eapply (canceled_mono n0 w bs Hst c k); [lia|lia|done]). rewrite Hcn in H by lia. done. }
    assert (binfos w !! c = Some (sb_info x)) as Hbi by (unfold binfos; by rewrite list_lookup_fmap, Hx). destruct (st_diffs _ _ _ Hst c _ Hbi) as [Hnd Hds].
    destruct (cells_ok w (bi_diffs (sb_info x))) as (cells & Ec & Hcells). { intros d (i & Hi & _)%Hds. apply lookup_lt_Some in Hi. by rewrite length_dinfos in Hi. }
    rewrite Ec. cbn [mbind outcome_bind]. destruct (commit_head w bs c g x cells Hg Hx Hc Hp Hcells) as (σ' & El & Hσ'). rewrite El. cbn [mbind outcome_bind].
    eexists _, (S c). split; [done|]. set (x' := {| sb_info := _; sb_pending_txs := _; sb_processed := _; sb_committed := _ |}). set (w' := with_lifecycle _ _ _ _).
    assert (stat w' = stat w) as Es. { unfold stat. f_equal. unfold w', binfos. cbn. rewrite list_fmap_insert. apply list_insert_id. by rewrite list_lookup_fmap, Hx. }
    split; [done|]. assert (extends w w') as He by (by apply extends_same). split; [|by eapply Forall_impl; [exact Ho|intros l; apply ordered_stat]]. change (w_threads w') with (w_threads w).
    assert (forall b y, w_batches w' !! b = Some y -> exists y0, w_batches w !! b = Some y0 /\ sb_info y = sb_info y0 /\ sb_pending_txs y = sb_pending_txs y0 /\ sb_processed y = sb_processed y0 /\
      sb_committed y = if decide (b = c) then true else sb_committed y0) as Hw'.
    { intros b y [(<- & <- & _)|[Hne Hy]]%list_lookup_insert_Some; [exists x; rewrite decide_True by done; done|exists y; rewrite decide_False by done; done]. }
    destruct (stat_parts _ _ Es) as (Ei & Ed & Et & Eb). split.
    + by apply (static_frame _ w).
    + pose proof (values_same process σ0 n0 w w' bs c _ _ Hst Hv He eq_refl eq_refl eq_refl eq_refl ltac:(by left)) as [V1 V2 V3 V4 V5 V6 V7 V8 V9 V10 V11 V12 V13 V14]. split; try done.
      intros a Ha Hr Hpv q y z Hqa Hqy Hz Er. pose proof (V7 a Ha Hr Hpv q y z Hqa Hqy Hz Er) as Hlt. cbn beta in Hlt |- *. lia.
    + eapply (tokens_same w); eauto.
    + destruct Hco as [C1 C2 C3 C4 C5 C6 C7 C8 C9 C10]. split; try done. intros b y Hb. destruct (Hw' b y Hb) as (y0 & Hy0 & -> & -> & -> & _). exact (C10 b y0 Hy0).
    + destruct Hm as [M1 M2 M3 M4 M5 M6]. split; rewrite ?Ei, ?Ed, ?Et.
      * lia.
      * intros b y Hb. destruct (Hw' b y Hb) as (y0 & Hy0 & _ & _ & _ & ->). destruct (decide (b = c)) as [->|Hne]; [symmetry; apply Nat.ltb_lt; lia|]. rewrite (M2 b y0 Hy0).
        apply eq_true_iff_eq. rewrite !Nat.ltb_lt. lia.
      * exists (S c). split; [lia|]. split; [cbn; f_equal; lia|]. lia.
      * intros t i Hi Hb. destruct (decide (ti_batch i = c)) as [E|]; [|apply (M4 t i Hi); lia]. by eapply (batch_done w bs).
      * intros _. exact Hσ'.
      * intros Hth. destruct (M6 Hth) as [K1 K2]. split; [done|]. intros r q y Hr Hq' Er. pose proof (K2 r q y Hr Hq' Er) as Hlt. cbn beta in Hlt |- *. lia.
Qed.
End finish.
