(* ===== verification/SchedExtend.v ===== *)
(** * SchedExtend: scheduling one more batch

    A batch is built next to running threads: its accesses are appended to the chains, and nothing
    of the earlier batches changes. *)

From S2P Require Import Prelude Codec Types SmtNode SmtTrie SmtUpdate SmtTree AtomicRing CanonicalChain RocksStore L1Types StateSpaces SchedStore SchedCore SchedProofs SchedAccess SchedSerial SchedShape SchedFlow SchedCalls SchedCounters SchedActions SchedFinish.

Lemma filter_eq_on {A} (P Q : A -> Prop) `{forall x, Decision (P x)} `{forall x, Decision (Q x)} (l : list A) : (forall x, x ∈ l -> P x <-> Q x) -> filter P l = filter Q l.
Proof.
  induction l as [|x l IH]; intros Hl; [done|]. rewrite !filter_cons, IH by (intros y Hy; apply Hl; by right). pose proof (Hl x ltac:(by left)) as Hx.
  destruct (decide (P x)), (decide (Q x)); tauto.
Qed.
Lemma filter_all {A} (P : A -> Prop) `{forall x, Decision (P x)} (l : list A) : (forall x, x ∈ l -> P x) -> filter P l = l.
Proof. induction l as [|x l IH]; intros Hl; [done|]. rewrite filter_cons, decide_True by (apply Hl; by left). f_equal. apply IH. intros y Hy. apply Hl. by right. Qed.

Section extend.
Context {Tx M : Type} (process : M -> nat -> SchedulerTransaction Tx -> list bytes -> option (list (list edit))).
Context (σ0 : vstate) (n0 : Z).
Implicit Types (w : World (Tx := Tx) (M := M)) (bs : list (Checkpoint M * list (SchedulerTransaction Tx))) (ops R : list call) (g : list stage).

Abbreviation static := (static n0).
Abbreviation values := (values process σ0).
Abbreviation commits := (commits process σ0).
Abbreviation inv := (inv process σ0 n0).
Abbreviation good := (good process σ0 n0).

#[local] Instance exists_access_dec w a : Decision (exists_access w a).
Proof. unfold exists_access. apply _. Defined.

(** ** The order of the transactions *)

Lemma take_batches bs p b : b <= length bs -> take b (bs ++ [p]) = take b bs.
Proof. intros Hb. by rewrite take_app_le. Qed.
Lemma start_app bs p b : b <= length bs -> start (bs ++ [p]) b = start bs b.
Proof. intros Hb. unfold start. by rewrite take_batches. Qed.
Lemma start_all bs : start bs (length bs) = length (jobs_of bs).
Proof. unfold start. by rewrite take_ge. Qed.
Lemma start_last bs p : start (bs ++ [p]) (S (length bs)) = length (jobs_of bs) + length p.2.
Proof. rewrite (start_succ _ _ p), start_app, start_all; [done..|]. by rewrite list_lookup_middle. Qed.
Lemma index_app bs p b : b < length bs -> index_at (bs ++ [p]) b = index_at bs b.
Proof. intros Hb. unfold index_at. by rewrite lookup_app_l. Qed.
Lemma index_last bs p : index_at (bs ++ [p]) (length bs) = cp_index p.1.
Proof. unfold index_at. by rewrite list_lookup_middle. Qed.
Lemma after_app bs p n : n <= length (jobs_of bs) -> after process σ0 (bs ++ [p]) n = after process σ0 bs n.
Proof. intros Hn. unfold after. by rewrite jobs_of_app, take_app_le. Qed.

(** ** The calls of [connect] *)

Definition connect_tx w (t : nat) : list call :=
  match ti_resources ∘ st_info <$> w_txs w !! t with
  | Some [] => [PushAvailable t]
  | Some accesses => Connect <$> accesses
  | None => []
  end.

Lemma connect_tx_elem w t o : o ∈ connect_tx w t <-> exists x, w_txs w !! t = Some x /\ (ti_resources (st_info x) = [] /\ o = PushAvailable t \/ exists a, a ∈ ti_resources (st_info x) /\ o = Connect a).
Proof.
  unfold connect_tx. destruct (w_txs w !! t) as [x|]; cbn; [|split; [by intros ?%not_elem_of_nil|by intros (x & ? & _)]]. destruct (ti_resources (st_info x)) as [|a l] eqn:E.
  - rewrite list_elem_of_singleton. split; [intros ->; exists x; split; [done|]; by left|]. intros (y & [= <-] & [[_ ?]|(a & Ha & _)]); [done|]. rewrite E in Ha. by apply not_elem_of_nil in Ha.
  - change (Connect a :: (Connect <$> l)) with (Connect <$> (a :: l)). rewrite <- E, list_elem_of_fmap. split; [intros (a' & -> & Ha'); exists x; split; [done|]; right; by exists a'|].
    intros (y & [= <-] & [[E' _]|(a' & Ha' & ->)]); [congruence|by exists a'].
Qed.

Section batch.
Context w bs (c : nat) g (Hg : good w bs c g).
Context (cp : Checkpoint M) (txs : list (SchedulerTransaction Tx)) (w2 : World (Tx := Tx) (M := M)) (extra : list diff_cell) (new : list (ScheduledTransaction (Tx := Tx) (M := M))).
Let b := length bs.
Let p := (cp, txs).
Context (Hbd : building w w2 b (fun b => b < c)) (Hcomplete : complete w2) (Hdiffs : w_diffs w2 = w_diffs w ++ extra) (Hap : appended b w w2 cp 0 txs new).
Hypothesis Hafter : forall b', b' < b -> (index_at bs b' < cp_index cp)%Z.
Hypothesis Hfirst : (n0 < cp_index cp)%Z.
Let ids := seq (length (w_txs w)) (length txs).
Let batch : ScheduledBatch := {| sb_info := {| bi_checkpoint := cp; bi_txs := ids; bi_diffs := sort_diffs w2 (seq (length (w_diffs w)) (length extra)) |};
  sb_pending_txs := Z.of_nat (length txs); sb_processed := match txs with [] => true | _ => false end; sb_committed := false |}.
Let w3 := with_lifecycle (with_batches w2 (w_batches w2 ++ [batch])) (w_lifecycle w2 ++ [b]) (w_evictions w2) (w_latest w2).
Let calls := connect w3 ids.
Let w' := spawn w3 calls.
Let g' := g ++ replicate (length txs) Waiting.

Lemma old_static : static w bs.
Proof. apply Hg. Qed.

Lemma rest_parts : w_batches w2 = w_batches w /\ w_reads w2 = w_reads w /\ w_available w2 = w_available w /\ w_writes w2 = w_writes w /\ w_lifecycle w2 = w_lifecycle w /\
  w_threshold w2 = w_threshold w /\ w_latest w2 = w_latest w /\ w_threads w2 = w_threads w.
Proof. pose proof (bd_rest _ _ _ _ Hbd) as E. unfold rest_of in E. by simplify_eq. Qed.

Lemma old_access a y : w_accesses w !! a = Some y -> w_accesses w' !! a = Some y.
Proof. intros Ha. destruct (bd_accesses _ _ _ _ Hbd) as [newa E]. change (w_accesses w2 !! a = Some y). rewrite E. by apply lookup_app_l_Some. Qed.
Lemma old_info a x : infos w !! a = Some x -> infos w' !! a = Some x.
Proof. intros (y & Hy & <-)%infos_inv. by apply infos_lookup, old_access. Qed.
Lemma old_access_inv a : exists_access w a -> w_accesses w' !! a = w_accesses w !! a.
Proof. intros [y Hy]%lookup_lt_is_Some_2. by rewrite Hy, (old_access a y Hy). Qed.
Lemma old_info_inv a : exists_access w a -> infos w' !! a = infos w !! a.
Proof. intros Ha. unfold infos. by rewrite !list_lookup_fmap, old_access_inv. Qed.

Lemma infos_app : exists l, infos w' = infos w ++ l.
Proof. by apply (building_infos w w2 b _ Hbd). Qed.
Lemma dinfos_app : dinfos w' = dinfos w ++ (dc_info <$> extra).
Proof. unfold dinfos. change (w_diffs w') with (w_diffs w2). by rewrite Hdiffs, fmap_app. Qed.
Lemma tinfos_app : tinfos w' = tinfos w ++ (st_info <$> new).
Proof. unfold tinfos. change (w_txs w') with (w_txs w2). by rewrite (ap_txs _ _ _ _ _ _ _ Hap), fmap_app. Qed.
Lemma binfos_app : binfos w' = binfos w ++ [sb_info batch].
Proof. unfold binfos. change (w_batches w') with (w_batches w2 ++ [batch]). rewrite fmap_app. by destruct rest_parts as (-> & _). Qed.

Lemma length_new : length new = length txs.
Proof. pose proof (ap_jobs _ _ _ _ _ _ _ Hap) as E. apply (f_equal length) in E. by rewrite length_fmap, length_imap in E. Qed.
Lemma length_old : length (jobs_of bs) = length (w_txs w).
Proof. by apply (length_jobs n0 w bs old_static). Qed.

Lemma old_abatch a x : infos w !! a = Some x -> abatch (dinfos w') x = abatch (dinfos w) x.
Proof. intros Hx. rewrite dinfos_app. destruct (sh_diff _ _ (st_shape _ _ _ old_static) a x Hx) as (i & Hi & _). by eapply abatch_app. Qed.

Lemma new_abatch a x : ~ exists_access w a -> infos w' !! a = Some x -> abatch (dinfos w') x = b.
Proof. intros Hn Hx. pose proof (bd_batch _ _ _ _ Hbd a x Hx) as H. by rewrite decide_False in H. Qed.

Lemma new_access_at a y : ~ exists_access w a -> w_accesses w' !! a = Some y -> added (infos w') (dinfos w') (fun b => b < c) a y.
Proof. intros Hn Hy. apply (bd_added _ _ _ _ Hbd a y); [unfold exists_access in Hn; lia|done]. Qed.

(** New accesses belong to new diffs. *)
Lemma new_diff a x : ~ exists_access w a -> infos w' !! a = Some x -> drd w' (ai_diff x) = None /\ dwr w' (ai_diff x) = None.
Proof.
  intros Hn Hx. pose proof (new_abatch a x Hn Hx) as Eb. unfold abatch in Eb. destruct (sh_diff _ _ (bd_shape _ _ _ _ Hbd) a x Hx) as (i & Hi & _). change (dinfos w2) with (dinfos w') in Hi. rewrite Hi in Eb. cbn in Eb.
  unfold dinfos in Hi. apply list_lookup_fmap_Some in Hi as (cl & -> & Hcl). change (w_diffs w') with (w_diffs w2) in Hcl. rewrite Hdiffs in Hcl. apply lookup_app_Some in Hcl as [Hcl|[Hle Hcl]].
  - pose proof (st_batches _ _ _ old_static (ai_diff x) (dc_info cl)) as Hb. assert (di_batch (dc_info cl) < length bs); [|unfold b in Eb; lia]. apply Hb. unfold dinfos. by rewrite list_lookup_fmap, Hcl.
  - destruct (bd_diffs _ _ _ _ Hbd) as (newd & Ed & Hu). rewrite Hdiffs in Ed. apply app_inv_head in Ed. subst newd. rewrite Forall_lookup in Hu. destruct (Hu _ _ Hcl) as (_ & E1 & E2).
    unfold drd, dwr. change (w_diffs w') with (w_diffs w2). rewrite Hdiffs, lookup_app_r by done. by rewrite Hcl.
Qed.

Lemma old_drd d u : drd w d = Some u -> drd w' d = Some u.
Proof. unfold drd. change (w_diffs w') with (w_diffs w2). rewrite Hdiffs. destruct (w_diffs w !! d) as [cl|] eqn:E; [|done]. by rewrite (lookup_app_l_Some _ _ _ _ E). Qed.
Lemma old_cells d : d < length (w_diffs w) -> drd w' d = drd w d /\ dwr w' d = dwr w d.
Proof. intros Hd. unfold drd, dwr. change (w_diffs w') with (w_diffs w2). rewrite Hdiffs. by rewrite lookup_app_l. Qed.

Lemma old_canceled b' : b' < b -> batch_canceled w' b' = batch_canceled w b'.
Proof.
  intros Hb. unfold batch_canceled. change (w_threshold w') with (w_threshold w2). change (w_batches w') with (w_batches w2 ++ [batch]). destruct rest_parts as (-> & _ & _ & _ & _ & -> & _).
  rewrite lookup_app_l; [done|]. pose proof (length_binfos n0 w bs old_static) as H. unfold binfos in H. rewrite length_fmap in H. unfold b in Hb. lia.
Qed.

Lemma old_reads a : exists_access w a -> rd w' a = rd w a /\ wr w' a = wr w a /\ pv w' a = pv w a /\ nx w' a = nx w a /\ head w' a = head w a /\ tail w' a = tail w a.
Proof. intros Ha. unfold rd, wr, pv, nx, head, tail. by rewrite (old_access_inv a Ha). Qed.
Lemma new_reads a : ~ exists_access w a -> rd w' a = None /\ wr w' a = None /\ nx w' a = None.
Proof.
  intros Hn. unfold rd, wr, nx. destruct (w_accesses w' !! a) as [y|] eqn:Hy; [|done]. cbn. by destruct (new_access_at a y Hn Hy).
Qed.

(** *** The invariant *)

Lemma batch_diffs : NoDup (bi_diffs (sb_info batch)) /\ forall d, d ∈ bi_diffs (sb_info batch) <-> exists i, dinfos w' !! d = Some i /\ di_batch i = b.
Proof.
  assert (bi_diffs (sb_info batch) ≡ₚ seq (length (w_diffs w)) (length extra)) as Hp by apply merge_sort_Permutation. split; [rewrite Hp; apply NoDup_seq|].
  intros d. rewrite Hp, elem_of_seq, dinfos_app. destruct (bd_diffs _ _ _ _ Hbd) as (newd & Ed & Hu). rewrite Hdiffs in Ed. apply app_inv_head in Ed. subst newd. rewrite Forall_lookup in Hu. split.
  - intros Hd. destruct (lookup_lt_is_Some_2 extra (d - length (w_diffs w))) as [cl Hcl]; [lia|]. exists (dc_info cl). split; [|by apply (Hu _ _ Hcl)].
    rewrite lookup_app_r by (rewrite length_dinfos; lia). by rewrite length_dinfos, list_lookup_fmap, Hcl.
  - intros (i & Hi & Eb). pose proof (lookup_lt_Some _ _ _ Hi) as Hlt. rewrite length_app, length_dinfos, length_fmap in Hlt. split; [|lia]. apply lookup_app_Some in Hi as [Hi|[Hle _]].
    + pose proof (st_batches _ _ _ old_static d i Hi). unfold b in Eb. lia.
    + by rewrite length_dinfos in Hle.
Qed.

Lemma new_tx t i : tinfos w' !! t = Some i -> tinfos w !! t = Some i \/ length (w_txs w) <= t < length (w_txs w) + length txs /\ ti_batch i = b.
Proof.
  rewrite tinfos_app. intros [H|[Hle H]]%lookup_app_Some; [by left|right]. unfold tinfos in Hle, H. rewrite length_fmap in Hle, H. apply list_lookup_fmap_Some in H as (x & -> & Hx).
  pose proof (ap_new _ _ _ _ _ _ _ Hap) as Hn. rewrite Forall_lookup in Hn. destruct (Hn _ _ Hx) as [Eb _]. apply lookup_lt_Some in Hx. rewrite length_new in Hx. split; [lia|done].
Qed.

Lemma static_extend : static w' (bs ++ [p]).
Proof.
  pose proof old_static as Hst. split.
  - apply (bd_shape _ _ _ _ Hbd).
  - apply (bd_flags _ _ _ _ Hbd).
  - exact Hcomplete.
  - intros t i Hi. destruct (decide (t < length (w_txs w))) as [Hlt|Hge].
    + assert (tinfos w !! t = Some i) as Hi0. { rewrite tinfos_app, lookup_app_l in Hi; [done|]. unfold tinfos. by rewrite length_fmap. }
      destruct infos_app as [l El]. eapply (tx_linked_grow w); [apply Hst|exact El|apply dinfos_app|]. by apply (st_linked _ _ _ Hst).
    + apply (ap_linked _ _ _ _ _ _ _ Hap); [lia|done].
  - rewrite tinfos_app, fmap_app, (st_jobs _ _ _ Hst), jobs_of_app. f_equal. rewrite <- list_fmap_compose, (ap_jobs _ _ _ _ _ _ _ Hap). unfold jobs_of. cbn. by rewrite app_nil_r.
  - rewrite binfos_app, !fmap_app, (st_checkpoints _ _ _ Hst). done.
  - intros t i [Hi|[Ht Eb]]%new_tx; rewrite length_app; cbn [length].
    + destruct (st_tx_batch _ _ _ Hst t i Hi) as [Hlt Hr]. rewrite !start_app by lia. split; [lia|done].
    + rewrite Eb. unfold b. rewrite start_app, start_all, start_last, length_old by done. cbn. lia.
  - intros b' x. rewrite binfos_app. intros [Hx|[Hle Hx]]%lookup_app_Some.
    + pose proof (lookup_lt_Some _ _ _ Hx) as Hlt. rewrite (length_binfos n0 w bs Hst) in Hlt. rewrite !start_app by lia. by apply (st_txs _ _ _ Hst).
    + rewrite (length_binfos n0 w bs Hst) in Hle, Hx. apply list_lookup_singleton_Some in Hx as [E <-]. replace b' with (length bs) by lia. rewrite start_app, start_all, start_last, length_old by done. cbn.
      unfold ids. f_equal. lia.
  - intros b' x. rewrite binfos_app. intros [Hx|[Hle Hx]]%lookup_app_Some.
    + pose proof (lookup_lt_Some _ _ _ Hx) as Hlt. rewrite (length_binfos n0 w bs Hst) in Hlt. destruct (st_diffs _ _ _ Hst b' x Hx) as [H1 H2]. split; [done|]. intros d. rewrite H2. split.
      * intros (i & Hi & Eb). exists i. split; [|done]. rewrite dinfos_app. by apply lookup_app_l_Some.
      * intros (i & Hi & Eb). assert (~ d ∈ bi_diffs (sb_info batch)) as Hnin. { intros (i' & Hi' & Eb')%batch_diffs. rewrite Hi in Hi'. injection Hi' as <-. unfold b in Eb'. lia. }
        exists i. split; [|done]. rewrite dinfos_app in Hi. apply lookup_app_Some in Hi as [?|[Hle Hi]]; [done|]. destruct Hnin. cbn. unfold sort_diffs. rewrite merge_sort_Permutation, elem_of_seq.
        rewrite length_dinfos in Hle, Hi. apply lookup_lt_Some in Hi. rewrite length_fmap in Hi. lia.
    + rewrite (length_binfos n0 w bs Hst) in Hle, Hx. apply list_lookup_singleton_Some in Hx as [E <-]. replace b' with b by (unfold b; lia). apply batch_diffs.
  - intros d i. rewrite length_app. cbn [length]. rewrite dinfos_app. intros [Hi|[Hle Hi]]%lookup_app_Some; [pose proof (st_batches _ _ _ Hst d i Hi); lia|].
    assert (di_batch i = b) as ->; [|unfold b; lia]. destruct (bd_diffs _ _ _ _ Hbd) as (newd & Ed & Hu). rewrite Hdiffs in Ed. apply app_inv_head in Ed. subst newd. rewrite Forall_lookup in Hu.
    apply list_lookup_fmap_Some in Hi as (cl & -> & Hcl). by apply (Hu _ _ Hcl).
  - intros b1 b2. rewrite length_app. cbn [length]. intros Hb. destruct (decide (b2 = length bs)) as [->|].
    + rewrite index_last, index_app by lia. apply Hafter. unfold b. lia.
    + rewrite !index_app by lia. apply (st_order _ _ _ Hst). lia.
  - intros b'. rewrite length_app. cbn [length]. intros Hb. destruct (decide (b' = length bs)) as [->|]; [by rewrite index_last|]. rewrite index_app by lia. apply (st_first _ _ _ Hst). lia.
Qed.

Lemma old_access_of a x : infos w !! a = Some x -> abatch (dinfos w) x < b /\ S (ai_tx x) <= length (jobs_of bs).
Proof.
  intros Hx. pose proof old_static as Hst. split; [by apply (abatch_bound n0 w bs Hst a x)|]. destruct (access_tx n0 w bs Hst a x Hx) as (i & k & Hi & _). apply lookup_lt_Some in Hi.
  rewrite length_old. unfold tinfos in Hi. by rewrite length_fmap in Hi.
Qed.

Lemma read_extend a v : good_read process σ0 w bs a v -> good_read process σ0 w' (bs ++ [p]) a v.
Proof.
  intros (x & Hx & Er & Hc & Hn). destruct (old_access_of a x Hx) as [Hb Ht]. assert (exists_access w a) as Ha by (apply lookup_lt_Some in Hx; by rewrite length_infos in Hx).
  destruct (old_reads a Ha) as (_ & _ & _ & _ & Eh & _). exists x. rewrite (old_abatch a x Hx), Eh, (old_canceled _ Hb), index_app by done. rewrite after_app by lia.
  split; [by apply old_info|]. split; [done|]. split; [done|]. intros E. destruct (Hn E) as (u & Hu & Hv). exists u. split; [by apply old_drd|done].
Qed.
Lemma written_extend a v : good_written process σ0 w bs a v -> good_written process σ0 w' (bs ++ [p]) a v.
Proof.
  intros (x & Hx & Er & u & Hu & Hc). destruct (old_access_of a x Hx) as [Hb Ht]. exists x. rewrite (old_abatch a x Hx), (old_canceled _ Hb), index_app by done. rewrite after_app by lia.
  split; [by apply old_info|]. split; [done|]. exists u. split; [by apply old_drd|done].
Qed.

Lemma calls_elem o : o ∈ calls <-> exists t, t ∈ ids /\ o ∈ connect_tx w2 t.
Proof.
  unfold calls, connect. change (o ∈ concat (connect_tx w2 <$> ids) <-> exists t, t ∈ ids /\ o ∈ connect_tx w2 t). rewrite list_elem_of_In, in_concat. split.
  - intros (l & Hl & Ho). apply list_elem_of_In in Hl, Ho. apply list_elem_of_fmap in Hl as (t & -> & Ht). by exists t.
  - intros (t & Ht & Ho). exists (connect_tx w2 t). split; apply list_elem_of_In; [by apply list_elem_of_fmap_2|done].
Qed.

Lemma calls_kind o : o ∈ calls -> (exists t, o = PushAvailable t /\ length (w_txs w) <= t < length (w_txs w) + length txs) \/ exists a, o = Connect a /\ exists_access w' a.
Proof.
  intros (t & Ht & (x & Hx & [[_ ->]|(a & Ha & ->)])%connect_tx_elem)%calls_elem; [left; exists t; split; [done|]; by apply elem_of_seq|right]. exists a. split; [done|].
  assert (tinfos w' !! t = Some (st_info x)) as Hi by (unfold tinfos; change (w_txs w') with (w_txs w2); by rewrite list_lookup_fmap, Hx).
  destruct (st_linked _ _ _ static_extend t _ Hi) as [Hf _]. apply list_elem_of_lookup in Ha as [k Hk]. destruct (Forall2_lookup_l _ _ _ _ _ Hf Hk) as (m & _ & y & Hy & _). apply lookup_lt_Some in Hy. by rewrite length_infos in Hy.
Qed.

Lemma calls_push t x : w_txs w' !! t = Some x -> occurrences (PushAvailable t) calls = if decide (length (w_txs w) <= t /\ ti_resources (st_info x) = []) then 1 else 0.
Proof.
  change (w_txs w') with (w_txs w2). intros Hx. unfold calls, connect. change (occurrences (PushAvailable t) (concat (connect_tx w2 <$> ids)) = if decide (length (w_txs w) <= t /\ ti_resources (st_info x) = []) then 1 else 0).
  assert (forall l, NoDup l -> occurrences (PushAvailable t) (concat (connect_tx w2 <$> l)) = if decide (t ∈ l) then occurrences (PushAvailable t) (connect_tx w2 t) else 0) as Hl.
  { induction 1 as [|t' l Hn _ IH]; [done|]. rewrite fmap_cons. cbn [concat]. rewrite occurrences_app, IH. destruct (decide (t' = t)) as [->|Hne].
    - rewrite (decide_False (P := t ∈ l)), (decide_True (P := t ∈ t :: l)) by (done || by left). lia.
    - rewrite (occurrences_none _ (connect_tx w2 t')) by (intros (y & _ & [[_ ?]|(a & _ & ?)])%connect_tx_elem; congruence). rewrite Nat.add_0_l.
      destruct (decide (t ∈ l)) as [H|H], (decide (t ∈ t' :: l)) as [H'|H']; try done; rewrite elem_of_cons in H'; naive_solver. }
  rewrite Hl by apply NoDup_seq. pose proof (lookup_lt_Some _ _ _ Hx) as Hlt. rewrite (ap_txs _ _ _ _ _ _ _ Hap), length_app, length_new in Hlt.
  unfold ids. destruct (decide (t ∈ seq _ _)) as [Hin|Hnin]; rewrite elem_of_seq in *.
  - unfold connect_tx. rewrite Hx. cbn [fmap option_fmap option_map compose]. destruct (ti_resources (st_info x)) as [|a l] eqn:E.
    + rewrite occurrences_cons, (decide_True (P := PushAvailable t = _)), (decide_True (P := _ /\ _)) by (done || (split; [lia|done])). done.
    + rewrite (decide_False (P := _ /\ _)) by (by intros [_ ?]). apply occurrences_none. by intros (? & ? & _)%list_elem_of_fmap.
  - rewrite decide_False; [done|]. lia.
Qed.

Let ops := concat (w_threads w).

Lemma old_values : values w bs c ops.
Proof. apply Hg. Qed.

Lemma call_split o : o ∈ calls ++ ops -> o ∈ ops \/ (exists t, o = PushAvailable t) \/ exists a, o = Connect a /\ exists_access w' a.
Proof. intros [[(t & ? & _)|?]%calls_kind|?]%elem_of_app; [right; left; by exists t|by right; right|by left]. Qed.

Lemma exists_grow a : exists_access w a -> exists_access w' a.
Proof. unfold exists_access. change (w_accesses w') with (w_accesses w2). destruct (bd_accesses _ _ _ _ Hbd) as [newa ->]. rewrite length_app. lia. Qed.
Lemma adjacent_grow q a : adjacent (infos w) q a -> adjacent (infos w') q a.
Proof. destruct infos_app as [l ->]. apply adjacent_app. Qed.

Lemma some_old {A} (f : World (Tx := Tx) (M := M) -> nat -> option A) a v : (~ exists_access w a -> f w' a = None) -> f w' a = Some v -> exists_access w a.
Proof. intros Hn Hv. destruct (decide (a < length (w_accesses w))) as [|Hge]; [done|]. rewrite Hn in Hv by done. done. Qed.

Lemma values_extend : values w' (bs ++ [p]) c (calls ++ ops).
Proof.
  pose proof old_static as Hst. destruct old_values as [V1 V2 V3 V4 V5 V6 V7 V8 V9 V10 V11 V12 V13 (W1 & W2 & W3)]. split.
  - intros a v Hv. assert (exists_access w a) as Ha by (eapply (some_old rd); [apply new_reads|done]). destruct (old_reads a Ha) as (E & _). rewrite E in Hv. by apply read_extend, V1.
  - intros a x Hx Hh. destruct (decide (exists_access w a)) as [Ha|Hn].
    + destruct (old_reads a Ha) as (-> & _ & _ & _ & E & _). rewrite E in Hh. rewrite old_info_inv in Hx by done. rewrite (V2 a x Hx Hh). symmetry. apply old_cells.
      destruct (sh_diff _ _ (st_shape _ _ _ Hst) a x Hx) as (i & Hi & _). apply lookup_lt_Some in Hi. by rewrite length_dinfos in Hi.
    + destruct (new_reads a Hn) as (-> & _). by destruct (new_diff a x Hn Hx) as [-> _].
  - intros a v Hv. assert (exists_access w a) as Ha by (eapply (some_old wr); [apply new_reads|done]). destruct (old_reads a Ha) as (E & E' & _). rewrite E' in Hv. destruct (V3 a v Hv).
    rewrite E. split; [by apply written_extend|done].
  - intros a x Hx Hh. destruct (decide (exists_access w a)) as [Ha|Hn].
    + destruct (old_reads a Ha) as (_ & -> & _ & _ & _ & E). rewrite E in Hh. rewrite old_info_inv in Hx by done. rewrite (V4 a x Hx Hh). symmetry. apply old_cells.
      destruct (sh_diff _ _ (st_shape _ _ _ Hst) a x Hx) as (i & Hi & _). apply lookup_lt_Some in Hi. by rewrite length_dinfos in Hi.
    + destruct (new_reads a Hn) as (_ & -> & _). by destruct (new_diff a x Hn Hx) as [_ ->].
  - intros a q Hq. destruct (decide (exists_access w a)) as [Ha|Hn].
    + destruct (old_reads a Ha) as (_ & _ & E & _). rewrite E in Hq. by apply adjacent_grow, V5.
    + unfold pv in Hq. destruct (w_accesses w' !! a) as [y|] eqn:Hy; [|done]. cbn in Hq. pose proof (ad_prev _ _ _ _ _ (new_access_at a y Hn Hy)) as Hp. by rewrite Hq in Hp.
  - intros a n Hn. assert (exists_access w a) as Ha by (eapply (some_old nx); [apply new_reads|done]). destruct (old_reads a Ha) as (_ & _ & _ & E & _). rewrite E in Hn. by apply adjacent_grow, V6.
  - intros a Ha' Hr Hp. destruct (decide (exists_access w a)) as [Ha|Hn].
    + destruct (old_reads a Ha) as (E1 & _ & E2 & _). rewrite E1 in Hr. rewrite E2 in Hp. destruct infos_app as [l ->]. rewrite dinfos_app. apply (fresh_app _ _ (fun b => b < c)); [apply Hst|by rewrite length_infos|by intros ? ?|by apply V7].
    + destruct (lookup_lt_is_Some_2 _ _ Ha') as [y Hy]. pose proof (ad_prev _ _ _ _ _ (new_access_at a y Hn Hy)) as H. unfold pv in Hp. rewrite Hy in Hp. cbn in Hp. by rewrite Hp in H.
  - intros a v [Hin|[(t & [=])|(a' & [=] & _)]]%call_split. destruct (V8 a v Hin) as [Ha Hgd]. split; [by apply exists_grow|]. destruct (old_reads a Ha) as (-> & _). intros Hn. by apply read_extend, Hgd.
  - intros a v [Hin|[(t & [=])|(a' & [=] & _)]]%call_split. destruct (V9 a v Hin) as [Hgd Hs]. split; [by apply written_extend|]. destruct (old_reads a) as (-> & _); [|done].
    destruct Hgd as (x & Hx & _). apply lookup_lt_Some in Hx. by rewrite length_infos in Hx.
  - intros a v [Hin|[(t & [=])|(a' & [=] & _)]]%call_split. pose proof (V10 a v Hin) as Hw. destruct (old_reads a) as (_ & -> & _); [|done]. unfold wr in Hw. destruct (w_accesses w !! a) eqn:E; [by eapply lookup_lt_Some|done].
  - intros a q [Hin|[(t & [=])|(a' & [=] & _)]]%call_split. destruct (V11 a q Hin) as [Hadj Hcase]. split; [by apply adjacent_grow|]. destruct (old_reads q) as (_ & -> & _ & -> & _); [|done].
    destruct Hadj as (_ & x & y & Hx & _). apply lookup_lt_Some in Hx. by rewrite length_infos in Hx.
  - intros a [Hin|[(t & [=])|(a' & [= <-] & Ha)]]%call_split; [by apply exists_grow, V12|done].
  - intros a. change (w_reads w') with (w_reads w2). destruct rest_parts as (_ & -> & _). intros Hin. destruct (V13 a Hin) as [Ha Hp]. split; [by apply exists_grow|]. by destruct (old_reads a Ha) as (-> & _ & -> & _).
  - change (w_writes w') with (w_writes w2). destruct rest_parts as (_ & _ & _ & -> & _). split; [done|]. split.
    + intros d Hd. destruct (W2 d Hd) as [v Hv]. destruct (old_cells d) as [_ ->]; [|done]. unfold dwr in Hv. destruct (w_diffs w !! d) eqn:E; [by eapply lookup_lt_Some|done].
    + intros d i Hi Hs Hc. destruct (decide (d < length (w_diffs w))) as [Hlt|Hge].
      * destruct (old_cells d Hlt) as [_ E]. rewrite E in Hs. rewrite dinfos_app, lookup_app_l in Hi by (by rewrite length_dinfos). apply (W3 d i Hi Hs). rewrite old_canceled in Hc; [done|]. by apply (st_batches _ _ _ Hst d i).
      * destruct (sh_touched _ _ (st_shape _ _ _ static_extend) d i Hi) as (a & x & Hx & Ex). destruct (decide (exists_access w a)) as [Ha|Hn].
        -- rewrite old_info_inv in Hx by done. destruct (sh_diff _ _ (st_shape _ _ _ Hst) a x Hx) as (i' & Hi' & _). rewrite Ex in Hi'. apply lookup_lt_Some in Hi'. rewrite length_dinfos in Hi'. lia.
        -- destruct (new_diff a x Hn Hx) as [_ E]. rewrite Ex in E. rewrite E in Hs. by destruct Hs.
Qed.

Lemma old_counts : counts w ops g.
Proof. apply Hg. Qed.

Lemma old_stage t s : g !! t = Some s -> g' !! t = Some s.
Proof. intros Hs. unfold g'. by apply lookup_app_l_Some. Qed.
Lemma stage_split t s : g' !! t = Some s -> t < length g /\ g !! t = Some s \/ length g <= t /\ s = Waiting.
Proof. intros [Hs|[Hle [-> _]%lookup_replicate]]%lookup_app_Some; [left; split; [by eapply lookup_lt_Some|done]|by right]. Qed.

Lemma tokens_extend : tokens w' (calls ++ ops) g'.
Proof.
  pose proof old_static as Hst. assert (tokens w ops g) as [T1 T2] by apply Hg. split.
  - intros a Ha' Hn. destruct (decide (exists_access w a)) as [Ha|Hnew].
    + destruct (old_reads a Ha) as (E & _). rewrite E in Hn. unfold woken. change (w_reads w') with (w_reads w2). destruct rest_parts as (_ & -> & _).
      destruct (T1 a Ha Hn) as [Hw|[Hw|[[v Hw]|(q & Hq & Hw)]]]; [left; set_solver|by right; left|right; right; left; exists v; set_solver|right; right; right; exists q].
      assert (exists_access w q) as Hqa by (destruct Hq as (_ & x & y & Hx & _); apply lookup_lt_Some in Hx; by rewrite length_infos in Hx).
      split; [by apply adjacent_grow|]. destruct (old_reads q Hqa) as (_ & -> & _ & -> & _). destruct Hw as [?|[? [?|[v ?]]]]; [left; set_solver|by right; auto|]. right. split; [done|]. right. exists v. set_solver.
    + left. apply elem_of_app. left. apply calls_elem. destruct (lookup_lt_is_Some_2 _ _ Ha') as [y Hy]. pose proof (infos_lookup _ _ _ Hy) as Hx. destruct (Hcomplete a _ Hx) as (i & Hi & Hin).
      exists (ai_tx (ra_info y)). destruct (new_tx _ i Hi) as [Hold|[Ht _]].
      * destruct (st_linked _ _ _ Hst _ i Hold) as [Hf _]. apply list_elem_of_lookup in Hin as [k Hk]. destruct (Forall2_lookup_l _ _ _ _ _ Hf Hk) as (m & _ & z & Hz & _).
        apply lookup_lt_Some in Hz. rewrite length_infos in Hz. done.
      * split; [by apply elem_of_seq|]. apply connect_tx_elem. unfold tinfos in Hi. apply list_lookup_fmap_Some in Hi as (z & -> & Hz). exists z. split; [done|]. right. by exists a.
  - intros a x Hx Hw. destruct (decide (exists_access w a)) as [Ha|Hnew]; [|left; by apply new_reads]. destruct (old_reads a Ha) as (-> & E & _). rewrite E in Hw. rewrite old_info_inv in Hx by done.
    destruct (T2 a x Hx Hw) as [?|[[? He]|[v ?]]]; [by left| |right; right; exists v; set_solver]. right; left. split; [done|]. destruct He as [He|He]; [left|right]; by apply old_stage.
Qed.

Lemma calls_uncounted o : counted o = true -> (forall t, o <> PushAvailable t) -> occurrences o (calls ++ ops) = occurrences o ops.
Proof.
  intros Hc Hne. rewrite occurrences_app, occurrences_none; [done|]. intros [(t & -> & _)|(a & -> & _)]%calls_kind; [by destruct (Hne t)|done].
Qed.

Lemma counts_extend : counts w' (calls ++ ops) g'.
Proof.
  pose proof old_static as Hst. destruct old_counts as [C1 C2 C3 C4 C5 C6 C7 C8 C9 C10]. pose proof (ap_new _ _ _ _ _ _ _ Hap) as Hnew. rewrite Forall_lookup in Hnew.
  assert (forall t x, w_txs w' !! t = Some x -> t < length g /\ w_txs w !! t = Some x \/ length g <= t /\ st_pending_resources x = Z.of_nat (length (ti_resources (st_info x)))) as Hx.
  { intros t x. change (w_txs w') with (w_txs w2). rewrite (ap_txs _ _ _ _ _ _ _ Hap). intros [Hx|[Hle Hx]]%lookup_app_Some; [left; split; [rewrite C1; by eapply lookup_lt_Some|done]|right].
    rewrite C1. split; [done|]. by apply (Hnew _ _ Hx). }
  assert (forall t x, length g <= t -> w_txs w' !! t = Some x -> unresolved w' (st_info x) = length (ti_resources (st_info x))) as Hun.
  { intros t x Hle Htx. unfold unresolved. f_equal. apply filter_all. intros a Ha. destruct (decide (exists_access w a)) as [Hex|Hn]; [|by apply new_reads].
    assert (tinfos w' !! t = Some (st_info x)) as Hi by (unfold tinfos; by rewrite list_lookup_fmap, Htx). destruct (lookup_lt_is_Some_2 _ _ Hex) as [y Hy].
    pose proof (proj1 (resource_tx n0 w' _ t _ a _ static_extend Hi (old_info a _ (infos_lookup _ _ _ Hy))) Ha) as Et.
    destruct (old_access_of a _ (infos_lookup _ _ _ Hy)) as [_ Hlt]. rewrite length_old, <- C1 in Hlt. lia. }
  split.
  - unfold g'. change (w_txs w') with (w_txs w2). rewrite (ap_txs _ _ _ _ _ _ _ Hap), !length_app, length_replicate, length_new. lia.
  - intros t x Htx. rewrite calls_uncounted by done. destruct (Hx t x Htx) as [[Hlt Hold]|[Hle Hp]].
    + rewrite (C2 t x Hold). do 2 f_equal. unfold unresolved. f_equal. apply filter_eq_on. intros a Ha. destruct (old_reads a) as (-> & _); [|done].
      assert (tinfos w !! t = Some (st_info x)) as Hi by (unfold tinfos; by rewrite list_lookup_fmap, Hold). destruct (st_linked _ _ _ Hst t _ Hi) as [Hf _]. apply list_elem_of_lookup in Ha as [k Hk].
      destruct (Forall2_lookup_l _ _ _ _ _ Hf Hk) as (m & _ & z & Hz & _). apply lookup_lt_Some in Hz. by rewrite length_infos in Hz.
    + rewrite Hp, (Hun t x Hle Htx), occurrences_none; [f_equal; lia|]. intros Hin. pose proof (C9 t ltac:(set_solver)). lia.
  - intros t x Htx Hs Hne. destruct (Hx t x Htx) as [[Hlt Hold]|[Hle Hp]].
    + apply (C3 t x Hold); [|done]. destruct (stage_split t _ Hs) as [[_ ?]|[? _]]; [done|lia].
    + rewrite Hp. destruct (ti_resources (st_info x)); [done|]. cbn. lia.
  - intros t x s Htx Hs Hne. destruct (stage_split t _ Hs) as [[Hlt Hs']|[_ ->]]; [|done]. destruct (Hx t x Htx) as [[_ Hold]|[Hle _]]; [by eapply C4|lia].
  - intros t x s Htx Hs. rewrite occurrences_app, (calls_push t x Htx), <- C1. destruct (stage_split t _ Hs) as [[Hlt Hs']|[Hle ->]].
    + destruct (Hx t x Htx) as [[_ Hold]|[? _]]; [|lia]. rewrite (decide_False (P := length g <= t /\ _)) by lia. by apply C5.
    + rewrite (occurrences_none _ ops) by (intros Hin; pose proof (C9 t ltac:(set_solver)); lia). rewrite Nat.add_0_r.
      destruct (decide (length g <= t /\ _)) as [[_ E]|E]; [by rewrite decide_True|]. rewrite decide_False; [done|]. naive_solver.
  - intros t x Htx Hin. apply elem_of_app in Hin as [[(t' & ? & _)|(a & ? & _)]%calls_kind|Hin]; [done..|]. destruct (Hx t x Htx) as [[_ Hold]|[Hle _]]; [by eapply C6|].
    pose proof (C9 t ltac:(set_solver)). lia.
  - intros t s Hs. change (w_available w') with (w_available w2). destruct rest_parts as (_ & _ & -> & _). destruct (stage_split t _ Hs) as [[Hlt Hs']|[Hle ->]]; [by apply C7|].
    rewrite occurrences_none; [done|]. intros Hin. pose proof (C9 t ltac:(by left)). lia.
  - intros t s Hs. rewrite calls_uncounted by done. destruct (stage_split t _ Hs) as [[Hlt Hs']|[Hle ->]]; [by apply C8|].
    rewrite occurrences_none; [done|]. intros Hin. pose proof (C9 t ltac:(set_solver)). lia.
  - intros t Hin. unfold g'. rewrite length_app, length_replicate. change (w_available w') with (w_available w2) in Hin. destruct rest_parts as (_ & _ & E & _). rewrite E in Hin.
    destruct Hin as [Hin|Hin]; [pose proof (C9 t ltac:(by left)); lia|]. rewrite !elem_of_app in Hin.
    destruct Hin as [[H|H]|[[H|H]|[H|H]]]; try (apply calls_kind in H as [(t' & [= <-] & Ht)|(a & [=] & _)]; rewrite C1; lia); pose proof (C9 t ltac:(set_solver)); lia.
  - intros b' x. change (w_batches w') with (w_batches w2 ++ [batch]). destruct rest_parts as (-> & _). pose proof (length_binfos n0 w bs Hst) as Hlb. unfold binfos in Hlb. rewrite length_fmap in Hlb.
    intros [Hb|[Hle Hb]]%lookup_app_Some.
    + destruct (C10 b' x Hb) as [H1 H2]. split; [|done]. rewrite H1. do 2 f_equal. apply filter_eq_on. intros t Ht. assert (binfos w !! b' = Some (sb_info x)) as Hbi by (unfold binfos; by rewrite list_lookup_fmap, Hb).
      rewrite (st_txs _ _ _ Hst b' _ Hbi), elem_of_seq in Ht. apply lookup_lt_Some in Hb. rewrite Hlb in Hb. pose proof (start_mono bs (S b') (length bs) ltac:(lia)) as Hm. rewrite start_all, length_old, <- C1 in Hm.
      destruct (lookup_lt_is_Some_2 g t ltac:(lia)) as [s Hs]. by rewrite Hs, (old_stage t s Hs).
    + apply list_lookup_singleton_Some in Hb as [_ <-]. cbn. split; [|by destruct txs]. f_equal. transitivity (length ids); [unfold ids; by rewrite length_seq|]. f_equal. symmetry. apply filter_all.
      intros t [Ht _]%elem_of_seq. destruct (g' !! t) as [s|] eqn:Es; [|done]. destruct (stage_split t s Es) as [[? _]|[_ ->]]; [lia|done].
Qed.

Lemma commits_extend : commits w' (bs ++ [p]) g' c.
Proof.
  pose proof old_static as Hst. assert (commits w bs g c) as [M1 M2 M3 M4 M5 M6] by apply Hg. pose proof (length_binfos n0 w bs Hst) as Hlb. unfold binfos in Hlb. rewrite length_fmap in Hlb. split.
  - rewrite length_app. lia.
  - intros b' x. change (w_batches w') with (w_batches w2 ++ [batch]). destruct rest_parts as (-> & _). intros [Hb|[Hle [_ <-]%list_lookup_singleton_Some]]%lookup_app_Some; [by apply M2|].
    cbn. symmetry. apply Nat.ltb_ge. lia.
  - destruct M3 as (k & Hk & Hq & Hc). exists k. rewrite length_app. cbn [length]. split; [lia|]. split.
    + change (w_lifecycle w') with (w_lifecycle w2 ++ [b]). destruct rest_parts as (_ & _ & _ & _ & -> & _). rewrite Hq. replace (length bs + 1 - k) with (length bs - k + 1) by lia. rewrite seq_app. cbn. do 2 f_equal. unfold b. lia.
    + intros b' Hb. rewrite old_canceled by (unfold b; lia). by apply Hc.
  - intros t i Hi Hb. destruct (new_tx t i Hi) as [Hold|[_ E]]; [by apply old_stage, (M4 t i)|]. unfold b in E. lia.
  - intros Hc r. change (w_latest w') with (w_latest w2). destruct rest_parts as (_ & _ & _ & _ & _ & _ & -> & _). rewrite start_app by done. rewrite after_app by (rewrite <- start_all; by apply start_mono).
    apply M5. intros b' Hb. rewrite <- old_canceled by (unfold b; lia). by apply Hc.
  - intros _. apply (bd_cached _ _ _ _ Hbd).
Qed.

Lemma ordered_extend : Forall (ordered w') (w_threads w').
Proof.
  change (w_threads w') with (w_threads w2 ++ [calls]). destruct rest_parts as (_ & _ & _ & _ & _ & _ & _ & ->). destruct Hg as [Hi Ho]. apply Forall_app. split.
  - rewrite Forall_forall in Ho |- *. intros l Hl l1 a v l2 x E Hx. apply (Ho l Hl l1 a v l2 x E). assert (SetWritten a v ∈ ops) as Hin.
    { unfold ops. apply list_elem_of_In, in_concat. exists l. split; apply list_elem_of_In; [done|]. rewrite E. set_solver. }
    destruct (va_SetWritten _ _ _ _ _ _ (in_values _ _ _ _ _ _ _ _ Hi) a v Hin) as [(y & Hy & _) _]. rewrite (old_info a y Hy) in Hx. by injection Hx as <-.
  - apply Forall_singleton. intros l1 a v l2 x E. assert (SetWritten a v ∈ calls) as [(t & ? & _)|(a' & ? & _)]%calls_kind by (rewrite E; set_solver); done.
Qed.

Lemma good_extend : good w' (bs ++ [p]) c g'.
Proof.
  split; [|apply ordered_extend]. change (w_threads w') with (w_threads w2 ++ [calls]). destruct rest_parts as (_ & _ & _ & _ & _ & _ & _ & ->). rewrite concat_app. cbn [concat]. rewrite app_nil_r.
  eapply inv_perm; [apply Permutation_app_comm|]. split; [apply static_extend|apply values_extend|apply tokens_extend|apply counts_extend|apply commits_extend].
Qed.
End batch.
Lemma building_refl w bs c g : good w bs c g -> w_threshold w = CancellationContext.U64_MAX -> building w w (length bs) (fun b => b < c).
Proof.
  intros [[Hst Hv _ _ Hm] _] Hth. split.
  - apply Hst.
  - by apply (cm_cached _ _ _ _ _ _ Hm).
  - apply Hst.
  - intros a x Hx. pose proof (lookup_lt_Some _ _ _ Hx) as Hlt. rewrite length_infos in Hlt. rewrite decide_True by done. by apply (abatch_bound n0 w bs Hst a x).
  - intros a x Hx. pose proof (lookup_lt_Some _ _ _ Hx) as Hlt. rewrite length_infos in Hlt. destruct (access_tx n0 w bs Hst a x Hx) as (i & k & Hi & _). apply lookup_lt_Some in Hi.
    unfold tinfos in Hi. rewrite length_fmap in Hi. lia.
  - intros a x i Hx Hi. destruct (access_tx n0 w bs Hst a x Hx) as (j & k & Hj & _ & _ & E). congruence.
  - exists []. by rewrite app_nil_r.
  - exists []. by rewrite app_nil_r.
  - intros a y Ha Hy. apply lookup_lt_Some in Hy. lia.
  - done.
Qed.

(** What [Scheduler::schedule] is called with: the next index, and no resource twice in a
    transaction. *)
Definition next_batch w bs (cp : Checkpoint M) (txs : list (SchedulerTransaction Tx)) : Prop :=
  w_threshold w = CancellationContext.U64_MAX /\ (n0 < cp_index cp)%Z /\ (forall b, b < length bs -> (index_at bs b < cp_index cp)%Z) /\
  Forall (fun tx => NoDup (resource_id <$> tx_resources tx)) txs.

Lemma ScheduleBatch_good w bs c g cp txs :
  good w bs c g -> next_batch w bs cp txs -> exists w', schedule w cp txs = Ok w' /\ good w' (bs ++ [(cp, txs)]) c (g ++ replicate (length txs) Waiting).
Proof.
  intros Hg (Hth & Hfirst & Hafter & Hnd). pose proof (building_refl w bs c g Hg Hth) as Hbd0. pose proof Hg as [[Hst _ _ _ Hm] _].
  assert (length (w_batches w) = length bs) as Hlb. { pose proof (length_binfos n0 w bs Hst) as H. unfold binfos in H. by rewrite length_fmap in H. }
  destruct (new_txs_ok w (length bs) (fun b => b < c) (resource_index txs)) with (cp := cp) (txs := txs) (w := w) (pos := 0) as (w2 & extra & new & E & Hbd & Hcomp & Hd & _ & Hap); [|done|done|apply Hst|done|].
  { pose proof (cm_bound _ _ _ _ _ _ Hm). lia. }
  unfold schedule. rewrite Hlb, E. cbn [mbind outcome_bind]. eexists. split; [done|]. by eapply good_extend.
Qed.

Lemma initial_good : good (initial σ0) [] 0 [].
Proof.
  split; [|constructor]. cbn. split.
  - split; try done; try (by intros; simplify_eq/=); try (intros; cbn in *; lia).
  - split; try (by intros; unfold rd, wr, pv, nx in *; simplify_eq/=); try (intros; by match goal with H : _ ∈ _ |- _ => apply not_elem_of_nil in H end).
    split; [constructor|]. split; [by intros d ?%not_elem_of_nil|done].
  - split; [|done]. intros a Ha. unfold exists_access in Ha. cbn in Ha. lia.
  - split; try (by intros; simplify_eq/=). intros t H. cbn in H. set_solver.
  - split; try done.
    exists 0. split; [cbn; lia|]. split; [done|]. lia.
Qed.
End extend.
