(* ===== verification/SchedParallel.v ===== *)
(** * SchedParallel: parallel execution is sequential execution

    Whatever the order in which threads, read workers, execution workers and the lifecycle worker
    take their steps: none of them fails, they come to an end, and then every transaction was
    executed once on the state its predecessors left.

    The runs are those of one generation of the scheduler: batches are scheduled, rollbacks may
    cancel the last of them and lower the one threshold again and again, but no batch is scheduled
    after a rollback, and none is restored from the store. *)

From S2P Require Import Prelude Codec Types SmtNode SmtTrie SmtUpdate SmtTree AtomicRing CanonicalChain RocksStore L1Types StateSpaces SchedStore SchedCore SchedProofs SchedAccess SchedSerial SchedShape SchedFlow SchedCalls SchedCounters SchedActions SchedFinish SchedExtend.

Section runs.
Context {Tx M : Type} (process : M -> nat -> SchedulerTransaction Tx -> list bytes -> option (list (list edit))).
Implicit Types (w : World (Tx := Tx) (M := M)) (bs : list (Checkpoint M * list (SchedulerTransaction Tx))) (e : action (Tx := Tx) (M := M)).

(** ** Runs *)

(** What happens without the node: everything but scheduling and rolling back. *)
Definition internal e : bool := match e with ScheduleBatch _ _ | Cancel _ _ => false | _ => true end.

Fixpoint fire_all w (es : list action) : option (Result World) :=
  match es with
  | [] => Some (Ok w)
  | e :: es => match fire process w e with Some (Ok w) => fire_all w es | r => r end
  end.

(** How the node uses the scheduler: batches come with ascending indices and name a resource at
    most once in a transaction, and are not added after a rollback to the same generation. *)
Definition allowed (n0 : Z) w bs e : Prop :=
  match e with
  | ScheduleBatch cp txs => next_batch n0 w bs cp txs
  | Cancel target latest => rolls_back w target latest
  | _ => True
  end.
Definition scheduled bs e : list (Checkpoint M * list (SchedulerTransaction Tx)) :=
  match e with ScheduleBatch cp txs => bs ++ [(cp, txs)] | _ => bs end.

Inductive reachable (σ0 : vstate) (n0 : Z) : World -> list (Checkpoint M * list (SchedulerTransaction Tx)) -> Prop :=
| reachable_initial : reachable σ0 n0 (initial σ0) []
| reachable_step w bs e w' :
    reachable σ0 n0 w bs -> allowed n0 w bs e -> fire process w e = Some (Ok w') -> reachable σ0 n0 w' (scheduled bs e).

(** The store before: no empty entries, and versions of batches up to [n0]. *)
Record settled (σ0 : vstate) (n0 : Z) : Prop := {
  se_clean : clean σ0;
  se_versions r v x : σ0 !! r = Some (v, x) -> (v <= n0)%Z;
  se_index : (0 <= n0)%Z
}.

(** ** Termination *)

Definition access_weight (x : ResourceAccess) : nat :=
  match ra_read x with None => 2 | Some _ => 0 end + match ra_written x with None => 2 | Some _ => 0 end.
Definition tx_size w (t : nat) : nat := from_option (fun x => length (ti_resources (st_info x))) 0 (w_txs w !! t).
Definition tx_weight (x : ScheduledTransaction (Tx := Tx) (M := M)) : nat :=
  if (0 <? st_pending_resources x)%Z then length (ti_resources (st_info x)) + 3 else 0.
Definition call_weight w (o : call) : nat :=
  match o with
  | Connect _ => 3
  | AfterLink _ _ | Forward _ _ => 2
  | PushAvailable t => tx_size w t + 3
  | _ => 1
  end.
Definition batch_weight w (b : nat) : nat := S (from_option (fun x => length (bi_diffs (sb_info x))) 0 (w_batches w !! b)).
Definition available_weight w (t : nat) : nat := tx_size w t + 2.

Definition measure w : nat :=
  sum_list_with access_weight (w_accesses w) + sum_list_with tx_weight (w_txs w) + sum_list_with (call_weight w) (concat (w_threads w)) +
  2 * length (w_reads w) + sum_list_with (available_weight w) (w_available w) + sum_list_with (batch_weight w) (w_lifecycle w) + length (w_evictions w).

Lemma sum_insert {A} (f : A -> nat) l k x y : l !! k = Some x -> sum_list_with f (<[k := y]> l) + f x = sum_list_with f l + f y.
Proof.
  revert k. induction l as [|z l IH]; intros [|k] Hk; [done|done|cbn in *; injection Hk as ->; lia|].
  cbn in Hk. specialize (IH k Hk). change (<[S k := y]> (z :: l)) with (z :: <[k := y]> l). cbn [sum_list_with]. lia.
Qed.
Lemma sum_perm {A} (f : A -> nat) l l' : l ≡ₚ l' -> sum_list_with f l = sum_list_with f l'.
Proof. induction 1; cbn; lia. Qed.
Lemma sum_delete {A} (f : A -> nat) l k x : l !! k = Some x -> sum_list_with f l = f x + sum_list_with f (delete k l).
Proof. intros Hk. exact (sum_perm f _ _ (delete_Permutation l k x Hk)). Qed.
Lemma sum_ext {A} (f f' : A -> nat) l : (forall x, f x = f' x) -> sum_list_with f l = sum_list_with f' l.
Proof. intros E. induction l as [|x l IH]; [done|]. cbn. by rewrite E, IH. Qed.
(** What is left to do outside the threads. *)
Definition queued w : nat :=
  sum_list_with access_weight (w_accesses w) + sum_list_with tx_weight (w_txs w) + 2 * length (w_reads w) + sum_list_with (available_weight w) (w_available w) +
  sum_list_with (batch_weight w) (w_lifecycle w) + length (w_evictions w).
Lemma measure_queued w : measure w = queued w + sum_list_with (call_weight w) (concat (w_threads w)).
Proof. unfold measure, queued. lia. Qed.

(** Calls do not change the sizes. *)
Definition same_sizes w w' : Prop := (forall t, tx_size w' t = tx_size w t) /\ forall b, batch_weight w' b = batch_weight w b.

Lemma same_sizes_calls w w' : same_sizes w w' -> forall o, call_weight w' o = call_weight w o.
Proof. intros [E _] [| | | | | | |]; cbn; try done. by rewrite E. Qed.
Lemma same_sizes_stat w w' : w_txs w' = w_txs w -> w_batches w' = w_batches w -> same_sizes w w'.
Proof. intros E1 E2. split; intros n; unfold tx_size, batch_weight; by rewrite ?E1, ?E2. Qed.

Lemma queued_sizes w w' : same_sizes w w' ->
  queued w' = sum_list_with access_weight (w_accesses w') + sum_list_with tx_weight (w_txs w') + 2 * length (w_reads w') + sum_list_with (available_weight w) (w_available w') +
    sum_list_with (batch_weight w) (w_lifecycle w') + length (w_evictions w').
Proof.
  intros [Ht Hb]. unfold queued. rewrite (sum_ext _ _ (w_lifecycle w') Hb). rewrite (sum_ext (available_weight w') (available_weight w)); [done|]. intros t. unfold available_weight. by rewrite Ht.
Qed.

Lemma weight_next x n : access_weight (store_next x n) = access_weight x.
Proof. done. Qed.
Lemma weight_read x v : ra_read x = None -> access_weight x = 2 + access_weight (store_read x v).
Proof. intros E. unfold access_weight. cbn. by rewrite E. Qed.
Lemma weight_written x v : ra_written x = None -> access_weight x = 2 + access_weight (store_written x v).
Proof. intros E. unfold access_weight. cbn. rewrite E. lia. Qed.

Lemma weight_pending (x : ScheduledTransaction (Tx := Tx) (M := M)) :
  if decide (st_pending_resources x = 1%Z) then tx_weight x = length (ti_resources (st_info x)) + 3 + tx_weight (set_pending x (st_pending_resources x - 1))
  else tx_weight (set_pending x (st_pending_resources x - 1)) <= tx_weight x.
Proof.
  unfold tx_weight. cbn. destruct (decide (st_pending_resources x = 1%Z)), (Z.ltb_spec 0 (st_pending_resources x)), (Z.ltb_spec 0 (st_pending_resources x - 1)); lia.
Qed.

(** Every call leaves less to do. *)
Lemma step_call_weight w o w' calls :
  step_call w o = Ok (w', calls) -> same_sizes w w' /\ queued w' + sum_list_with (call_weight w) calls < queued w + call_weight w o.
Proof.
  destruct o as [a|a q|a v|a v|a v|t|t|t]; unfold_call.
  - destruct (w_accesses w !! a) as [x|] eqn:Ha; [|done]. cbn [expect mbind outcome_bind]. destruct (ra_prev x) as [q|].
    + destruct (w_accesses w !! q) as [y|] eqn:Hq; [|done]. cbn [expect mbind outcome_bind]. intros [= <- <-]. assert (same_sizes w (with_accesses w (<[q := store_next y (Some a)]> (w_accesses w)))) as Hs by (by apply same_sizes_stat).
      split; [done|]. rewrite (queued_sizes _ _ Hs). pose proof (sum_insert access_weight _ _ _ (store_next y (Some a)) Hq) as E. rewrite weight_next in E. unfold queued. cbn -[access_weight]. lia.
    + intros [= <- <-]. assert (same_sizes w (push_read w a)) as Hs by (by apply same_sizes_stat). split; [done|]. rewrite (queued_sizes _ _ Hs). unfold queued. cbn. rewrite length_app. cbn. lia.
  - destruct (w_accesses w !! q) as [y|] eqn:Hq; [|done]. cbn [expect mbind outcome_bind]. intros [= <- <-]. split; [done|]. destruct (ra_written y); cbn; lia.
  - destruct (w_accesses w !! a) as [x|] eqn:Ha; [|done]. cbn [expect mbind outcome_bind]. destruct (ra_read x) as [u|] eqn:Er; [intros [= <- <-]; split; [done|]; cbn; lia|].
    pose proof (sum_insert access_weight _ _ _ (store_read x v) Ha) as E. rewrite (weight_read x v Er) in E. set (w1 := with_accesses _ _).
    assert (forall w2, (if ra_is_batch_head x then diff_set_read w1 (ai_diff (ra_info x)) v else Ok w1) = Ok w2 -> same_sizes w w2 /\ w_accesses w2 = w_accesses w1 /\ w_txs w2 = w_txs w /\ w_reads w2 = w_reads w /\
      w_available w2 = w_available w /\ w_lifecycle w2 = w_lifecycle w /\ w_evictions w2 = w_evictions w) as Hw2.
    { intros w2. destruct (ra_is_batch_head x); [|intros [= <-]; by split; [apply same_sizes_stat|]]. unfold diff_set_read. destruct (w_diffs w1 !! _); [|done]. cbn. intros [= <-]. by split; [apply same_sizes_stat|]. }
    destruct (if ra_is_batch_head x then _ else _) as [w2|?|] eqn:Ew; [|done|done]. cbn [mbind outcome_bind]. intros [= <- <-]. destruct (Hw2 w2 eq_refl) as (Hs & E1 & E2 & E3 & E4 & E5 & E6).
    split; [done|]. rewrite (queued_sizes _ _ Hs), E1, E2, E3, E4, E5, E6. unfold queued. cbn -[access_weight]. destruct (access_type _); cbn -[access_weight]; lia.
  - destruct (w_accesses w !! a) as [x|] eqn:Ha; [|done]. cbn [expect mbind outcome_bind]. destruct (ra_written x) as [u|] eqn:Er; [intros [= <- <-]; split; [done|]; cbn; lia|].
    pose proof (sum_insert access_weight _ _ _ (store_written x v) Ha) as E. rewrite (weight_written x v Er) in E. set (w1 := with_accesses _ _).
    assert (forall w2, (if ra_is_batch_tail x then diff_set_written w1 (ai_diff (ra_info x)) v else Ok w1) = Ok w2 -> same_sizes w w2 /\ w_accesses w2 = w_accesses w1 /\ w_txs w2 = w_txs w /\ w_reads w2 = w_reads w /\
      w_available w2 = w_available w /\ w_lifecycle w2 = w_lifecycle w /\ w_evictions w2 = w_evictions w) as Hw2.
    { intros w2. destruct (ra_is_batch_tail x); [|intros [= <-]; by split; [apply same_sizes_stat|]]. unfold diff_set_written. destruct (w_diffs w1 !! _); [|done]. cbn. destruct (batch_canceled _ _); intros [= <-]; by split; [apply same_sizes_stat|]. }
    destruct (if ra_is_batch_tail x then _ else _) as [w2|?|] eqn:Ew; [|done|done]. cbn [mbind outcome_bind]. intros [= <- <-]. destruct (Hw2 w2 eq_refl) as (Hs & E1 & E2 & E3 & E4 & E5 & E6).
    split; [done|]. rewrite (queued_sizes _ _ Hs), E1, E2, E3, E4, E5, E6. unfold queued. cbn -[access_weight]. lia.
  - destruct (w_accesses w !! a) as [x|] eqn:Ha; [|done]. cbn [expect mbind outcome_bind]. intros [= <- <-]. assert (same_sizes w (with_accesses w (<[a := store_next x None]> (w_accesses w)))) as Hs by (by apply same_sizes_stat).
    split; [done|]. rewrite (queued_sizes _ _ Hs). pose proof (sum_insert access_weight _ _ _ (store_next x None) Ha) as E. rewrite weight_next in E. unfold queued. destruct (ra_next x); cbn -[access_weight]; lia.
  - destruct (w_txs w !! t) as [x|] eqn:Ht; [|done]. cbn [expect mbind outcome_bind]. intros [= <- <-]. fold (set_pending x (st_pending_resources x - 1)). set (w1 := with_txs _ _).
    pose proof (sum_insert tx_weight _ _ _ (set_pending x (st_pending_resources x - 1)) Ht) as E.
    assert (same_sizes w w1) as [Hs1 Hs2]. { split; [|done]. intros t'. unfold tx_size, w1. cbn. destruct (decide (t' = t)) as [->|Hne]; [|by rewrite list_lookup_insert_ne]. rewrite Ht, list_lookup_insert_eq by (by eapply lookup_lt_Some). done. }
    assert (same_sizes w (if (st_pending_resources x =? 1)%Z then push_available w1 t else w1)) as Hs by (destruct (_ =? 1)%Z; by split).
    split; [done|]. rewrite (queued_sizes _ _ Hs). unfold queued. cbn [call_weight]. pose proof (weight_pending x) as Hp. destruct (Z.eqb_spec (st_pending_resources x) 1) as [E1|E1]; [rewrite decide_True in Hp by done|rewrite decide_False in Hp by done].
    + cbn -[access_weight tx_weight]. rewrite sum_list_with_app. cbn -[access_weight tx_weight]. unfold available_weight at 2, tx_size. rewrite Ht. cbn -[access_weight tx_weight]. lia.
    + cbn -[access_weight tx_weight]. lia.
  - intros [= <- <-]. assert (same_sizes w (push_available w t)) as Hs by (by apply same_sizes_stat). split; [done|]. rewrite (queued_sizes _ _ Hs). unfold queued. cbn. rewrite sum_list_with_app. cbn. unfold available_weight at 2. lia.
  - destruct (w_txs w !! t) as [x|] eqn:Ht; [|done]. cbn [expect mbind outcome_bind]. destruct (w_batches w !! ti_batch (st_info x)) as [y|] eqn:Hb; [|done]. cbn [expect mbind outcome_bind]. intros [= <- <-]. set (w1 := with_batches _ _).
    assert (same_sizes w w1) as Hs. { split; [done|]. intros b. unfold batch_weight, w1. cbn. destruct (decide (b = ti_batch (st_info x))) as [->|Hne]; [|by rewrite list_lookup_insert_ne].
      rewrite Hb, list_lookup_insert_eq by (by eapply lookup_lt_Some). done. }
    split; [done|]. rewrite (queued_sizes _ _ Hs). unfold queued. cbn. lia.
Qed.
Lemma stored_weight w (hs : list (nat * AccessType * Version)) vs : sum_list_with (call_weight w) (concat (zip_with store_handle hs vs)) <= length hs.
Proof.
  revert vs. induction hs as [|[[a ty] u] hs IH]; intros [|v vs]; cbn [zip_with concat length]; [cbn; lia..|]. rewrite sum_list_with_app. specialize (IH vs).
  unfold store_handle at 1. destruct ty; cbn [fst snd sum_list_with call_weight]; lia.
Qed.

Lemma fire_measure w e w' : internal e = true -> fire process w e = Some (Ok w') -> measure w' < measure w.
Proof.
  destruct e as [i|k|k|cp txs| | |target latest]; intros Hint; try discriminate Hint; unfold_fire.
  - destruct (w_threads w !! i) as [[|o rest]|] eqn:Ht; [done| |done]. destruct (step_call w o) as [[w1 calls]|?|] eqn:E; [|done|done]. intros [= <-]. destruct (step_call_weight _ _ _ _ E) as [Hs Hlt].
    rewrite (step_call_threads _ _ _ _ E), !measure_queued. cbn [w_threads with_threads]. destruct (pool_at _ _ _ _ Ht) as (R & E1 & E2).
    rewrite (sum_ext _ _ _ (same_sizes_calls w _ Hs)), (sum_perm _ _ _ (E2 calls)), (sum_perm _ _ _ E1), sum_list_with_app. cbn [sum_list_with]. change (queued (with_threads w1 _)) with (queued w1). lia.
  - destruct (w_reads w !! k) as [a|] eqn:Hk; cbn [mbind option_bind]; [|done]. destruct (w_accesses w !! a) as [x|]; [|done]. cbn [expect mbind outcome_bind]. intros [= <-].
    pose proof (Permutation_length (delete_Permutation _ _ _ Hk)) as Hl. cbn in Hl. unfold measure. cbn [w_accesses w_txs w_threads w_reads w_available w_lifecycle w_evictions spawn with_threads with_queues].
    rewrite concat_app, sum_list_with_app. cbn -[access_weight tx_weight]. change (call_weight (spawn _ _)) with (call_weight w). change (available_weight (spawn _ _)) with (available_weight w). change (batch_weight (spawn _ _)) with (batch_weight w). lia.
  - destruct (w_available w !! k) as [t|] eqn:Hk; cbn [mbind option_bind]; [|done]. unfold execute. destruct (w_txs w !! t) as [x|] eqn:Hx; [|done]. cbn [expect mbind outcome_bind].
    destruct (mapM_outcome (handle w) (ti_resources (st_info x))) as [hs|?|] eqn:Eh; [|done|done]. cbn [mbind outcome_bind]. intros [= <-]. apply mapM_outcome_Ok, Forall2_length in Eh.
    pose proof (sum_delete (available_weight w) _ _ _ Hk) as Hd. unfold available_weight at 2, tx_size in Hd. rewrite Hx in Hd. cbn in Hd. set (vs := if batch_canceled w _ then _ else _). pose proof (stored_weight w hs vs) as Hw.
    unfold measure. cbn [w_accesses w_txs w_threads w_reads w_available w_lifecycle w_evictions spawn with_threads with_queues].
    rewrite concat_app, !sum_list_with_app. cbn [concat]. rewrite app_nil_r, sum_list_with_app. change (call_weight (spawn _ _)) with (call_weight w). change (available_weight (spawn _ _)) with (available_weight w). change (batch_weight (spawn _ _)) with (batch_weight w).
    cbn [sum_list_with call_weight]. lia.
  - unfold commit_next. destruct (w_lifecycle w) as [|b queue] eqn:Eq; [done|]. destruct (w_batches w !! b) as [x|] eqn:Hb; [|done]. destruct (batch_canceled w b).
    + intros [= <-]. unfold measure. rewrite Eq. change (call_weight (with_lifecycle _ _ _ _)) with (call_weight w). change (available_weight (with_lifecycle _ _ _ _)) with (available_weight w).
      change (batch_weight (with_lifecycle _ _ _ _)) with (batch_weight w). cbn [w_accesses w_txs w_threads w_reads w_available w_lifecycle w_evictions with_lifecycle sum_list_with]. unfold batch_weight at 2. lia.
    + destruct (sb_processed x); [|done]. destruct (mapM_outcome _ _) as [cells|?|] eqn:Ec; [|done|done]. cbn [mbind outcome_bind]. destruct (commit_latest _ _) as [σ|?|]; [|done|done]. cbn [mbind outcome_bind]. intros [= <-].
      apply mapM_outcome_Ok, Forall2_length in Ec. set (x' := {| sb_info := _; sb_pending_txs := _; sb_processed := _; sb_committed := _ |}). set (w' := with_lifecycle _ _ _ _).
      assert (forall b', batch_weight w' b' = batch_weight w b') as Hs. { intros b'. unfold batch_weight, w'. cbn. destruct (decide (b' = b)) as [->|Hne]; [|by rewrite list_lookup_insert_ne]. rewrite Hb, list_lookup_insert_eq by (by eapply lookup_lt_Some). done. }
      unfold measure. rewrite (sum_ext _ _ _ Hs), Eq. change (call_weight w') with (call_weight w). change (available_weight w') with (available_weight w).
      unfold w'. cbn [w_accesses w_txs w_threads w_reads w_available w_lifecycle w_evictions with_lifecycle with_batches sum_list_with]. rewrite length_app, length_fmap, <- Ec. unfold batch_weight at 2. rewrite Hb. cbn. lia.
  - unfold evict_next. destruct (w_evictions w) as [|r evs] eqn:Ee; [done|]. cbn [fmap option_fmap option_map]. intros [= <-]. set (w1 := with_lifecycle _ _ _ _).
    assert (measure w1 < measure w) as Hlt. { unfold measure. rewrite Ee. change (call_weight w1) with (call_weight w). change (available_weight w1) with (available_weight w). change (batch_weight w1) with (batch_weight w).
      cbn [w1 w_accesses w_txs w_threads w_reads w_available w_lifecycle w_evictions with_lifecycle length]. lia. }
    destruct (w_resources w !! r); [|exact Hlt]. destruct (should_evict w1 _); exact Hlt.
Qed.
(** C21: threads, workers and commits come to an end: from any state of the model and whatever the
    order, no run of steps other than scheduling and rolling back is longer than a number known beforehand, so no interleaving goes on forever. *)
Theorem parallel_terminates w es w' : Forall (fun e => internal e = true) es -> fire_all w es = Some (Ok w') -> length es <= measure w.
Proof.
  intros Hes. revert w. induction Hes as [|e es Hint _ IH]; intros w E; [cbn; lia|]. cbn in E. destruct (fire process w e) as [[w1|?|]|] eqn:Ef; try done.
  pose proof (fire_measure w e w1 Hint Ef). specialize (IH w1 E). cbn. lia.
Qed.

(** ** Reachable worlds *)

Lemma filter_nil_iff {A} (P : A -> Prop) `{forall x, Decision (P x)} (l : list A) : (forall x, x ∈ l -> P x -> False) -> filter P l = [].
Proof.
  induction l as [|x l IH]; intros Hl; [done|]. rewrite filter_cons, decide_False by (intros Hx; by apply (Hl x ltac:(by left))). apply IH. intros y Hy. apply Hl. by right.
Qed.

Section reached.
Context (σ0 : vstate) (n0 : Z) (Hσ : settled σ0 n0).

Lemma fire_good w bs c g e r :
  good process σ0 n0 w bs c g -> allowed n0 w bs e -> fire process w e = Some r -> exists w' c' g', r = Ok w' /\ good process σ0 n0 w' (scheduled bs e) c' g'.
Proof.
  destruct Hσ as [H1 H2 H3]. intros Hg Ha Hf. destruct e as [i|k|k|cp txs| | |target latest]; cbn [scheduled].
  - destruct (Run_good _ _ _ _ _ _ _ _ _ Hg Hf) as (w' & g' & -> & _ & ?). by exists w', c, g'.
  - destruct (ServeRead_good _ _ _ H2 H3 _ _ _ _ _ _ Hg Hf) as (w' & -> & _ & ?). by exists w', c, g.
  - destruct (Execute_good _ _ _ H1 H2 H3 _ _ _ _ _ _ Hg Hf) as (w' & g' & -> & _ & ?). by exists w', c, g'.
  - cbn in Hf. injection Hf as <-. destruct (ScheduleBatch_good _ _ _ _ _ _ _ _ _ Hg Ha) as (w' & -> & ?). eexists w', c, _. by split.
  - destruct (CommitNext_good _ _ _ H1 H2 H3 _ _ _ _ _ Hg Hf) as (w' & c' & -> & _ & ?). by exists w', c', g.
  - destruct (EvictNext_good _ _ _ _ _ _ _ _ Hg Hf) as (w' & -> & _ & ?). by exists w', c, g.
  - cbn in Hf. injection Hf as <-. destruct (Cancel_good _ _ _ _ _ _ _ _ _ Hg Ha) as [_ ?]. by exists (cancel w target latest), c, g.
Qed.

Lemma reachable_good w bs : reachable σ0 n0 w bs -> exists c g, good process σ0 n0 w bs c g.
Proof.
  induction 1 as [|w bs e w' _ (c & g & Hg) Ha Hf]; [exists 0, []; apply initial_good|]. destruct (fire_good _ _ _ _ _ _ Hg Ha Hf) as (w1 & c' & g' & [= <-] & Hg'). by exists c', g'.
Qed.

Lemma after_start bs b : after process σ0 bs (start bs b) = run_batches process σ0 (take b bs).
Proof. unfold after, run_batches, start. f_equal. rewrite <- (take_drop b bs) at 2. by rewrite jobs_of_app, take_app_length. Qed.

(** *** Nothing left to do *)

Section quiescent.
Context w bs (c : nat) (g : list stage) (Hg : good process σ0 n0 w bs c g).
Hypothesis Hquiet : forall e, internal e = true -> fire process w e = None.

Lemma quiet_threads : concat (w_threads w) = [].
Proof.
  assert (Forall (eq []) (w_threads w)) as Hf.
  { apply Forall_lookup. intros i l Hi. pose proof (Hquiet (Run i) eq_refl) as H. cbn in H. rewrite Hi in H. by destruct l. }
  induction Hf as [|l ls <- _ IH]; [done|exact IH].
Qed.
Lemma quiet_reads : w_reads w = [].
Proof. pose proof (Hquiet (ServeRead 0) eq_refl) as H. cbn in H. unfold serve_read in H. by destruct (w_reads w). Qed.
Lemma quiet_available : w_available w = [].
Proof. pose proof (Hquiet (Execute 0) eq_refl) as H. cbn in H. unfold run_task in H. by destruct (w_available w). Qed.

Lemma quiet_inv : inv process σ0 n0 w bs c [] g.
Proof. pose proof (gd_inv _ _ _ _ _ _ _ Hg) as H. by rewrite quiet_threads in H. Qed.

(** By induction on the transactions: all accesses of the previous ones are resolved. *)
Lemma quiet_resolved t : forall a x, infos w !! a = Some x -> ai_tx x = t -> is_Some (rd w a) /\ is_Some (wr w a).
Proof.
  pose proof quiet_inv as [Hst Hv [T1 T2] Hc _]. induction (lt_wf t) as [t _ IH]. assert (forall a x, infos w !! a = Some x -> ai_tx x = t -> is_Some (rd w a)) as Hrd.
  { intros a x Hx Et. destruct (rd w a) as [v|] eqn:Hn; [done|]. exfalso. assert (exists_access w a) as Ha by (apply lookup_lt_Some in Hx; by rewrite length_infos in Hx).
    destruct (T1 a Ha Hn) as [H|[H|[[v H]|(q & Hq & H)]]]; try (by apply not_elem_of_nil in H); [by rewrite quiet_reads in H; apply not_elem_of_nil in H|].
    destruct H as [H|[_ [H|[v H]]]]; try (by apply not_elem_of_nil in H). destruct Hq as (_ & y & x' & Hy & Hx' & _ & Hlt & _). rewrite Hx in Hx'. injection Hx' as <-.
    destruct (IH (ai_tx y) ltac:(lia) q y Hy eq_refl) as [_ [v Hw]]. congruence. }
  intros a x Hx Et. split; [by apply (Hrd a x)|]. destruct (wr w a) as [v|] eqn:Hn; [done|]. exfalso. destruct (Hrd a x Hx Et) as [u Hu]. destruct (T2 a x Hx Hn) as [?|[[_ [He|He]]|[v H]]]; [congruence|..|by apply not_elem_of_nil in H].
  - destruct (access_tx n0 w bs Hst a x Hx) as (i & k & Hi & Hk & _). unfold tinfos in Hi. pose proof Hi as (y & -> & Hy)%list_lookup_fmap_Some.
    assert (ti_resources (st_info y) <> []) as Hne by (intros E; by rewrite E in Hk). pose proof (co_waiting _ _ _ Hc _ y Hy He Hne) as Hp. rewrite (co_pending _ _ _ Hc _ y Hy) in Hp. cbn in Hp.
    assert (unresolved w (st_info y) = 0); [|lia]. unfold unresolved. apply length_zero_iff_nil. apply filter_nil_iff. intros a' Ha' Hn'.
    destruct (st_linked _ _ _ Hst _ _ Hi) as [Hf _]. apply list_elem_of_lookup in Ha' as [k' Hk']. destruct (Forall2_lookup_l _ _ _ _ _ Hf Hk') as (m & _ & z & Hz & _ & Ez & _). destruct (Hrd a' z Hz ltac:(congruence)). congruence.
  - pose proof (co_available _ _ _ Hc _ _ He) as H. by rewrite quiet_available in H.
Qed.

Lemma quiet_done t s : g !! t = Some s -> s = Done.
Proof.
  intros Hs. pose proof quiet_inv as [Hst Hv _ Hc _]. destruct (stage_at _ _ _ _ _ t Hst Hc (lookup_lt_Some _ _ _ Hs)) as (x & s' & Hx & Hs' & Hi). rewrite Hs in Hs'. injection Hs' as <-. destruct s; [exfalso..|done].
  - pose proof (co_push _ _ _ Hc t x _ Hx Hs) as Hp. destruct (decide (ti_resources (st_info x) = [])) as [E|Hne]; [by rewrite decide_True in Hp|].
    pose proof (co_waiting _ _ _ Hc t x Hx Hs Hne) as Hw. rewrite (co_pending _ _ _ Hc t x Hx) in Hw. cbn in Hw. assert (unresolved w (st_info x) = 0); [|lia]. unfold unresolved. apply length_zero_iff_nil. apply filter_nil_iff.
    intros a Ha Hn. destruct (st_linked _ _ _ Hst _ _ Hi) as [Hf _]. apply list_elem_of_lookup in Ha as [k Hk]. destruct (Forall2_lookup_l _ _ _ _ _ Hf Hk) as (m & _ & z & Hz & _ & Ez & _).
    destruct (quiet_resolved t a z Hz Ez) as [[v Hv'] _]. congruence.
  - pose proof (co_available _ _ _ Hc _ _ Hs) as H. by rewrite quiet_available in H.
  - by pose proof (co_running _ _ _ Hc _ _ Hs) as H.
Qed.

Lemma quiet_processed b x : w_batches w !! b = Some x -> sb_processed x = true.
Proof.
  intros Hb. pose proof quiet_inv as [Hst _ _ Hc _]. destruct (co_batch _ _ _ Hc b x Hb) as [H1 H2]. rewrite H2, H1. apply Z.eqb_eq. assert (binfos w !! b = Some (sb_info x)) as Hbi by (unfold binfos; by rewrite list_lookup_fmap, Hb).
  rewrite (st_txs _ _ _ Hst b _ Hbi). replace (filter _ _) with (@nil nat); [done|]. symmetry. apply filter_nil_iff. intros t [Ht1 Ht2]%elem_of_seq Hne. pose proof (lookup_lt_Some _ _ _ Hbi) as Hlt. rewrite (length_binfos n0 w bs Hst) in Hlt.
  pose proof (start_mono bs (S b) (length bs) ltac:(lia)) as Hm. rewrite start_all, (length_jobs n0 w bs Hst), <- (co_length _ _ _ Hc) in Hm.
  destruct (lookup_lt_is_Some_2 g t ltac:(lia)) as [s Hs]. rewrite (quiet_done t s Hs) in Hs. congruence.
Qed.

Lemma quiet_committed : exists k, c <= k /\ k = length bs /\ forall b, c <= b < k -> batch_canceled w b = true.
Proof.
  pose proof quiet_inv as [Hst _ _ _ Hm]. destruct (cm_queue _ _ _ _ _ _ Hm) as (k & Hk & Hq & Hc). exists k. split; [lia|]. split; [|done]. pose proof (Hquiet CommitNext eq_refl) as H. cbn in H. unfold commit_next in H. rewrite Hq in H.
  destruct (length bs - k) as [|n] eqn:En; [lia|]. cbn [seq] in H. destruct (w_batches w !! k) as [x|] eqn:Hx.
  - destruct (batch_canceled w k); [done|]. by rewrite (quiet_processed k x Hx) in H.
  - apply lookup_ge_None in Hx. pose proof (length_binfos n0 w bs Hst) as Hl. unfold binfos in Hl. rewrite length_fmap in Hl. lia.
Qed.
End quiescent.

(** C20: with batches scheduled before the first rollback and executed, not restored, no step of a
    thread, a worker, the scheduler or the lifecycle worker fails: the states an
    executing transaction reads are there, references to other accesses and diffs are valid, and a
    processed batch has all the states its commit needs. *)
Theorem parallel_never_fails w bs e r :
  reachable σ0 n0 w bs -> allowed n0 w bs e -> fire process w e = Some r -> exists w', r = Ok w' /\ reachable σ0 n0 w' (scheduled bs e).
Proof.
  intros Hr Ha Hf. destruct (reachable_good w bs Hr) as (c & g & Hg). destruct (fire_good _ _ _ _ _ _ Hg Ha Hf) as (w' & _ & _ & -> & _). exists w'. split; [done|]. by eapply reachable_step.
Qed.

(** C18: parallel execution is serializable, for batches that are scheduled before the first rollback
    and executed, not restored: once a batch is processed, and it was not canceled, each
    of its diffs goes from the state that executing all transactions of the earlier batches one
    after the other leaves to the state after the batch, with a version that is the batch's index
    or unchanged; it was submitted for writing exactly once; and resources without a diff have the
    same state before and after. *)
Theorem parallel_serializable w bs b x :
  reachable σ0 n0 w bs -> w_batches w !! b = Some x -> batch_canceled w b = false -> sb_processed x = true ->
  let before := run_batches process σ0 (take b bs) in
  let after := run_batches process σ0 (take (S b) bs) in
  (forall d, d ∈ bi_diffs (sb_info x) -> exists cl u v, w_diffs w !! d = Some cl /\ dc_read cl = Some u /\ dc_written cl = Some v /\
     sv_resource_id u = di_resource_id (dc_info cl) /\ sv_resource_id v = di_resource_id (dc_info cl) /\ reads_from before u /\ reads_from after v /\
     (sv_version u < cp_index (bi_checkpoint (sb_info x)))%Z /\ (v = u \/ sv_version v = cp_index (bi_checkpoint (sb_info x))) /\ d ∈ w_writes w) /\
  NoDup (w_writes w) /\
  (forall r, (forall d cl, d ∈ bi_diffs (sb_info x) -> w_diffs w !! d = Some cl -> di_resource_id (dc_info cl) <> r) -> after !! r = before !! r).
Proof.
  intros Hr Hb Hc Hp. destruct (reachable_good w bs Hr) as (c & g & Hg). pose proof Hg as [[Hst Hv _ Hco _] _]. destruct Hσ as [H1 H2 H3]. rewrite <- !after_start.
  assert (binfos w !! b = Some (sb_info x)) as Hbi by (unfold binfos; by rewrite list_lookup_fmap, Hb). destruct (st_diffs _ _ _ Hst b _ Hbi) as [_ Hds]. rewrite (binfo_index n0 w bs Hst b _ Hbi).
  split; [|split; [apply (va_writes _ _ _ _ _ _ Hv)|]].
  - intros d (i & Hi & Eb)%Hds. pose proof Hi as (cl & -> & Hcl)%list_lookup_fmap_Some. destruct (diff_finished _ _ _ H1 H2 H3 w bs c g d (dc_info cl) Hg Hi) as (u & v & Hu & Hw & [F1 F2 F3 F4 F5 F6]).
    { by rewrite Eb. } { rewrite Eb. by eapply batch_done. }
    rewrite Eb in *. exists cl, u, v. pose proof Hu as Hu'. pose proof Hw as Hw'. unfold drd, dwr in Hu', Hw'. rewrite Hcl in Hu', Hw'. do 9 (split; [done|]). destruct (va_writes _ _ _ _ _ _ Hv) as (_ & _ & W). apply (W d _ Hi); [by rewrite Hw|by rewrite Eb].
  - intros r Hno. apply (after_between process σ0 n0 w bs Hst); [apply start_mono; lia|]. intros a y Hy Ht Er. destruct (sh_diff _ _ (st_shape _ _ _ Hst) a y Hy) as (i & Hi & Ei).
    pose proof Hi as (cl & -> & Hcl)%list_lookup_fmap_Some. apply (Hno (ai_diff y) cl); [|done|congruence]. apply Hds. exists (dc_info cl). split; [done|]. pose proof (batch_start n0 w bs a y Hst Hy) as Hs. unfold abatch in Hs. rewrite Hi in Hs. cbn [from_option] in Hs.
    by apply (batch_unique bs (ai_tx y)).
Qed.

(** C19: nothing gets stuck, with batches scheduled before the first rollback and executed, not
    restored: when no thread and no worker can take a step, every batch is processed, those that
    were not canceled are committed, and if none was canceled the latest data is exactly the state
    of executing all transactions of all batches one after the other. *)
Theorem parallel_completes w bs :
  reachable σ0 n0 w bs -> (forall e, internal e = true -> fire process w e = None) ->
  (forall b x, w_batches w !! b = Some x -> sb_processed x = true /\ (batch_canceled w b = false -> sb_committed x = true)) /\
  ((forall b, batch_canceled w b = false) -> forall r, w_latest w !! r = run_batches process σ0 bs !! r).
Proof.
  intros Hr Hq. destruct (reachable_good w bs Hr) as (c & g & Hg). pose proof (quiet_inv w bs c g Hg Hq) as [Hst _ _ _ Hm]. destruct (quiet_committed w bs c g Hg Hq) as (k & Hk & -> & Hc). split.
  - intros b x Hb. split; [by eapply quiet_processed|]. intros Hn. rewrite (cm_flag _ _ _ _ _ _ Hm b x Hb). apply Nat.ltb_lt. destruct (decide (b < c)) as [|Hge]; [done|].
    pose proof (length_binfos n0 w bs Hst) as Hl. unfold binfos in Hl. rewrite length_fmap in Hl. apply lookup_lt_Some in Hb. rewrite Hc in Hn by lia. done.
  - intros Hn r. rewrite (cm_latest _ _ _ _ _ _ Hm) by done. assert (c = length bs) as ->; [|by rewrite after_start, take_ge].
    destruct (decide (c = length bs)) as [|Hne]; [done|]. pose proof (Hc c ltac:(lia)). rewrite Hn in *. done.
Qed.
End reached.
End runs.

(** ** An interleaving *)

Section drain.
Context {Tx M : Type} (process : M -> nat -> SchedulerTransaction Tx -> list bytes -> option (list (list edit))).
Implicit Types (w : World (Tx := Tx) (M := M)).

Lemma reachable_run σ0 n0 w bs es w' :
  reachable process σ0 n0 w bs -> Forall (fun e => internal e = true) es -> fire_all process w es = Some (Ok w') -> reachable process σ0 n0 w' bs.
Proof.
  intros Hr Hes. revert w Hr. induction Hes as [|e es Hint _ IH]; intros w Hr E; [by injection E as <-|]. cbn in E. destruct (fire process w e) as [[w1|?|]|] eqn:Ef; try done.
  apply (IH w1); [|done]. pose proof (reachable_step process σ0 n0 w bs e w1 Hr) as H. destruct e; try discriminate Hint; by apply H.
Qed.

(** The last thread first, then the workers. *)
Definition candidates w : list (action (Tx := Tx) (M := M)) := (Run <$> reverse (seq 0 (length (w_threads w)))) ++ [Execute 0; ServeRead 0; CommitNext; EvictNext].
Fixpoint drain (fuel : nat) w : list (action (Tx := Tx) (M := M)) :=
  match fuel with
  | O => []
  | S fuel =>
      match list_find (fun e => is_Some (fire process w e)) (candidates w) with
      | Some (_, e) => match fire process w e with Some (Ok w) => e :: drain fuel w | _ => [] end
      | None => []
      end
  end.

Definition idle {A} (l : list A) : bool := match l with [] => true | _ => false end.
Definition quiet w : bool :=
  forallb idle (w_threads w) && idle (w_reads w) && idle (w_available w) && idle (w_lifecycle w) && idle (w_evictions w).
Lemma quiet_fire w : quiet w = true -> forall e, internal e = true -> fire process w e = None.
Proof.
  unfold quiet. rewrite !andb_true_iff, forallb_forall. intros [[[[H1 H2] H3] H4] H5] [i|k|k|cp txs| | |target latest] Hint; try discriminate Hint; unfold_fire.
  - destruct (w_threads w !! i) as [l|] eqn:E; [|done]. assert (idle l = true) as Hl by (apply H1, list_elem_of_In; by eapply list_elem_of_lookup_2). by destruct l.
  - by destruct (w_reads w).
  - by destruct (w_available w).
  - unfold commit_next. by destruct (w_lifecycle w).
  - unfold evict_next. by destruct (w_evictions w).
Qed.
End drain.

(** Transactions prefix a byte to what they write; the first batch writes two resources, the second
    reads one and writes the other. *)
Definition demo_process (_ : unit) (_ : nat) (_ : SchedulerTransaction byte) (data : list bytes) : option (list (list edit)) :=
  Some ((fun d => [SetData (Byte.x01 :: d)]) <$> data).
Definition demo_tx (resources : list AccessMetadata) : SchedulerTransaction byte := {| merge_idx := 0; tx_resources := resources; tx := Byte.x00 |}.
Definition demo_a : ResourceId := vreplicate 32 Byte.x01.
Definition demo_b : ResourceId := vreplicate 32 Byte.x02.
Definition demo_batch (i : Z) (txs : list (SchedulerTransaction byte)) : Checkpoint unit * list (SchedulerTransaction byte) := ({| cp_index := i; cp_metadata := tt |}, txs).
Definition demo_batches : list (Checkpoint unit * list (SchedulerTransaction byte)) :=
  [demo_batch 1 [demo_tx [AccessMetadata_write demo_a]; demo_tx [AccessMetadata_write demo_a; AccessMetadata_write demo_b]; demo_tx []];
   demo_batch 2 [demo_tx [AccessMetadata_read demo_a; AccessMetadata_write demo_b]]].

(** Both batches are scheduled before anything runs. *)
Definition get_world (r : option (Result (World (Tx := byte) (M := unit)))) : World := match r with Some (Ok w) => w | _ => initial ∅ end.
Definition demo_schedule : list (action (Tx := byte) (M := unit)) := (fun '(cp, txs) => ScheduleBatch cp txs) <$> demo_batches.
Definition demo_scheduled : World := get_world (fire_all demo_process (initial ∅) demo_schedule).
Definition demo_actions : list (action (Tx := byte) (M := unit)) := drain demo_process 100 demo_scheduled.
Definition demo_final : World := get_world (fire_all demo_process demo_scheduled demo_actions).

Lemma demo_settled : settled ∅ 0.
Proof. split; [by intros r v x|by intros r v x|done]. Qed.

Lemma demo_internal : Forall (fun e => internal e = true) demo_actions.
Proof. apply (bool_decide_unpack (Forall (fun e => internal e = true) demo_actions)). vm_compute. exact I. Qed.
Lemma demo_runs : fire_all demo_process demo_scheduled demo_actions = Some (Ok demo_final).
Proof. vm_compute. reflexivity. Qed.

Lemma demo_reachable_scheduled : reachable demo_process ∅ 0 demo_scheduled demo_batches.
Proof.
  set (b1 := demo_batch 1 [demo_tx [AccessMetadata_write demo_a]; demo_tx [AccessMetadata_write demo_a; AccessMetadata_write demo_b]; demo_tx []]).
  set (b2 := demo_batch 2 [demo_tx [AccessMetadata_read demo_a; AccessMetadata_write demo_b]]).
  apply (reachable_step demo_process ∅ 0 (get_world (fire demo_process (initial ∅) (ScheduleBatch b1.1 b1.2))) [b1] (ScheduleBatch b2.1 b2.2)).
  - apply (reachable_step demo_process ∅ 0 (initial ∅) [] (ScheduleBatch b1.1 b1.2)); [constructor| |vm_compute; reflexivity].
    split; [done|]. split; [done|]. split; [cbn; lia|]. apply (bool_decide_unpack _). vm_compute. exact I.
  - split; [vm_compute; reflexivity|]. split; [done|]. split; [intros [|b] Hb; cbn in *; lia|]. apply (bool_decide_unpack _). vm_compute. exact I.
  - vm_compute. reflexivity.
Qed.
Lemma demo_reachable : reachable demo_process ∅ 0 demo_final demo_batches.
Proof. eapply reachable_run; [apply demo_reachable_scheduled|apply demo_internal|apply demo_runs]. Qed.

Lemma parallel_terminates_witness : 20 < length demo_actions <= measure demo_scheduled.
Proof. split; [vm_compute; lia|]. apply (parallel_terminates demo_process demo_scheduled demo_actions demo_final); [apply demo_internal|apply demo_runs]. Defined.

Lemma parallel_never_fails_witness :
  let next := get_world (fire demo_process demo_scheduled (Run 0)) in
  fire demo_process demo_scheduled (Run 0) = Some (Ok next) /\ exists w', (Ok next : Result World) = Ok w' /\ reachable demo_process ∅ 0 w' demo_batches.
Proof.
  intros next. assert (fire demo_process demo_scheduled (Run 0) = Some (Ok next)) as Hf by (vm_compute; reflexivity). split; [exact Hf|].
  exact (parallel_never_fails demo_process ∅ 0 demo_settled demo_scheduled demo_batches (Run 0) (Ok next) demo_reachable_scheduled I Hf).
Defined.

Lemma parallel_serializable_witness : exists x, w_batches demo_final !! 1 = Some x /\ length (bi_diffs (sb_info x)) = 2 /\
  forall d, d ∈ bi_diffs (sb_info x) -> exists cl v, w_diffs demo_final !! d = Some cl /\ dc_written cl = Some v /\ reads_from (run_batches demo_process ∅ (take 2 demo_batches)) v.
Proof.
  destruct (w_batches demo_final !! 1) as [x|] eqn:E; [|vm_compute in E; discriminate E]. exists x. split; [done|]. split.
  { transitivity (from_option (fun x => length (bi_diffs (sb_info x))) 0 (w_batches demo_final !! 1)); [by rewrite E|]. vm_compute. reflexivity. }
  destruct (parallel_serializable demo_process ∅ 0 demo_settled demo_final demo_batches 1 x) as [H _].
  - apply demo_reachable.
  - exact E.
  - vm_compute. reflexivity.
  - transitivity (from_option sb_processed false (w_batches demo_final !! 1)); [by rewrite E|]. vm_compute. reflexivity.
  - intros d Hd. destruct (H d Hd) as (cl & u & v & H1 & _ & H2 & _ & _ & _ & H3 & _). exists cl, v. split; [exact H1|]. split; [exact H2|exact H3].
Defined.

Lemma parallel_completes_witness :
  length <$> (snd <$> (w_latest demo_final !! demo_b)) = Some 2 /\ forall r, w_latest demo_final !! r = run_batches demo_process ∅ demo_batches !! r.
Proof.
  split; [vm_compute; reflexivity|]. destruct (parallel_completes demo_process ∅ 0 demo_settled demo_final demo_batches) as [_ H].
  - apply demo_reachable.
  - apply quiet_fire. vm_compute. reflexivity.
  - apply H. intros b. unfold batch_canceled. destruct (w_batches demo_final !! b) as [x|] eqn:E; [|done].
    assert (Forall (fun x => (w_threshold demo_final <? cp_index (bi_checkpoint (sb_info x)))%Z = false) (w_batches demo_final)) as Hf by (apply (bool_decide_unpack _); vm_compute; exact I).
    rewrite Forall_lookup in Hf. by apply (Hf b x).
Defined.
