(* ===== verification/CovEngine.v ===== *)
(** * CovEngine: the script builder and the engine of the settlement covenant

    [zk/backend/risc0/covenant] writes its scripts with the script builder of [kaspa_txscript] and
    runs them on that crate's engine. Neither is part of the sources. A script is the list of the
    builder calls that write it; the bytes of a call, the opcodes that [permission_script.rs] does
    not name, the proof systems behind [OpZkPrecompile], the chain behind [OpChainblockSeqCommit]
    and the engine are parameters, with laws for what the comments of [script.rs] and
    [settlement.rs] say of them. *)

From S2P Require Import Prelude Codec Types RtState ScriptEngine PermScript PermSem.

(** ** Builder calls *)

(** Opcodes: those of [permission_script.rs], by their byte, and those only [script.rs] uses. *)
Inductive opcode :=
| Base (b : byte)
| OpIf | OpElse | OpEndIf
| OpNot | OpNumEqual | OpSize | OpSubstr | OpMul | OpDiv | Op2Dup
| OpTxOutputSpkSubstr | OpChainblockSeqCommit | OpZkPrecompile.

Inductive instr :=
| AddData (d : bytes)
| AddI64 (z : Z)
| AddOp (o : opcode).

Notation script := (list instr).
Notation add_ops := (fmap (M := list) AddOp).

(** ** Parameters *)

(** The builder, its cap on a script when covenants are enabled, and the bytes of the opcodes only
    [script.rs] uses. *)
Class ScriptBuilder := {
  max_script_size : Z;
  add_data : bytes -> bytes;
  add_i64 : Z -> bytes;
  op_byte : opcode -> byte
}.

(** The proof systems and their tags. A verdict is on the operands in the order they are popped. *)
Class ZkPrecompiles := {
  R0Succinct : byte;
  Groth16 : byte;
  r0_succinct (hashfn control_id image_id journal seal control_digests control_index claim : bytes) : bool;
  groth16 (vk proof : bytes) (public_inputs : list bytes) : bool
}.

(** The sequencing commitment of a chain block. *)
Notation SeqCommitAccessor := (bytes -> option (array 32)).

(** The state of a run: the open conditionals, and the stacks. *)
Notation vm := (list (option bool) * vm_state)%type.

(** The engine: its verdict on the rest of a script, and on an input with its signature script. *)
Class TxScriptEngine := {
  run : SeqCommitAccessor -> TxView -> bytes -> vm -> bool;
  verify_input : SeqCommitAccessor -> TxView -> bool
}.

(** ** The bytes of a script *)

Definition op_code `{ScriptBuilder} (o : opcode) : byte :=
  match o with Base b => b | OpIf => OP_IF | OpElse => OP_ELSE | OpEndIf => OP_ENDIF | o => op_byte o end.

Definition encode_instr `{ScriptBuilder} (i : instr) : bytes :=
  match i with AddData d => add_data d | AddI64 z => add_i64 z | AddOp o => [op_code o] end.

Definition script_bytes `{ScriptBuilder} (s : script) : bytes := s ≫= encode_instr.

Lemma drain_app `{ScriptBuilder} a b : script_bytes (a ++ b) = script_bytes a ++ script_bytes b.
Proof. apply bind_app. Qed.

(** ** What the calls do *)

Section effects.
Context (sha256 : bytes -> array 32) `{Blake2b, ZkPrecompiles} (accessor : SeqCommitAccessor) (tv : TxView).

(** Pops a counted list. *)
Definition pop_inputs (n : bytes) (st : list bytes) : option (list bytes * list bytes) :=
  k ← idx_of n; if k <=? length st then Some (take k st, drop k st) else None.

Definition zk_precompile (tag : bytes) (st : list bytes) : option (list bytes) :=
  if bool_decide (tag = [R0Succinct]) then
    match st with
    | hashfn :: control_id :: image_id :: journal :: seal :: control_digests :: control_index :: claim :: st =>
        Some (bool_bytes (r0_succinct hashfn control_id image_id journal seal control_digests control_index claim) :: st)
    | _ => None
    end
  else if bool_decide (tag = [Groth16]) then
    match st with
    | vk :: proof :: n :: st => '(inputs, st) ← pop_inputs n st; Some (bool_bytes (groth16 vk proof inputs) :: st)
    | _ => None
    end
  else None.

Definition op_outcome (o : opcode) (s : vm_state) : option vm_state :=
  match o, s with
  | Base b, s => op_effect sha256 tv b s
  | OpNot, (x :: st, alt) => a ← script_num x; Some (bool_bytes (a =? 0)%Z :: st, alt)
  | OpNumEqual, (x :: y :: st, alt) => a ← script_num y; b ← script_num x; Some (bool_bytes (a =? b)%Z :: st, alt)
  | OpSize, (x :: st, alt) => Some (num_bytes (Z.of_nat (length x)) :: x :: st, alt)
  | OpSubstr, (stop :: start :: x :: st, alt) =>
      a ← idx_of start; b ← idx_of stop; r ← substr x a b; Some (r :: st, alt)
  | OpMul, (x :: y :: st, alt) => a ← script_num y; b ← script_num x; r ← num_push (a * b); Some (r :: st, alt)
  | OpDiv, (x :: y :: st, alt) =>
      a ← script_num y; b ← script_num x; if (b =? 0)%Z then None else r ← num_push (Z.quot a b); Some (r :: st, alt)
  | Op2Dup, (x :: y :: st, alt) => Some (x :: y :: x :: y :: st, alt)
  | OpTxOutputSpkSubstr, (stop :: start :: n :: st, alt) =>
      i ← idx_of n; a ← idx_of start; b ← idx_of stop; out ← tv_outputs tv !! i;
      r ← substr (to_spk out) a b; Some (r :: st, alt)
  | OpChainblockSeqCommit, (block :: st, alt) => c ← accessor block; Some (vec_to_list c :: st, alt)
  | OpZkPrecompile, (tag :: st, alt) => st ← zk_precompile tag st; Some (st, alt)
  | _, _ => None
  end.

(** Calls inside a branch that is not taken have no effect. *)
Definition call_step (i : instr) (v : vm) : option vm :=
  let '(conds, s) := v in
  match i with
  | AddData d => Some (conds, if executing conds then (d :: s.1, s.2) else s)
  | AddI64 z => Some (conds, if executing conds then (num_bytes z :: s.1, s.2) else s)
  | AddOp OpIf =>
      if executing conds then
        match s with
        | (c :: st, alt) => t ← if_cond c; Some (Some t :: conds, (st, alt))
        | _ => None
        end
      else Some (None :: conds, s)
  | AddOp OpElse => match conds with c :: conds => Some ((negb <$> c) :: conds, s) | [] => None end
  | AddOp OpEndIf => match conds with _ :: conds => Some (conds, s) | [] => None end
  | AddOp o => if executing conds then s ← op_outcome o s; Some (conds, s) else Some (conds, s)
  end.

Fixpoint exec_calls (p : script) (v : vm) : option vm :=
  match p with [] => Some v | i :: p => v ← call_step i v; exec_calls p v end.

Lemma exec_app p q v : exec_calls (p ++ q) v = v ← exec_calls p v; exec_calls q v.
Proof. revert v. induction p as [|i p IH]; intros v; cbn; [done|]. destruct (call_step i v); cbn; [apply IH|done]. Qed.
End effects.

(** A script ends well outside of every conditional, with one true element. *)
Definition accepts (v : option vm) : bool := match v with Some ([], s) => final s | _ => false end.

(** ** The laws *)

(** Calls within the limits of the builder and the engine. *)
Definition fits (i : instr) : bool :=
  match i with
  | AddData d => (Z.of_nat (length d) <=? MAX_ELEMENT)%Z
  | AddI64 z => (- 2 ^ 63 <=? z)%Z && (z <? 2 ^ 63)%Z
  | AddOp (Base b) => known_op b
  | AddOp _ => true
  end.

Class ScriptBuilderOk `{ScriptBuilder} : Prop := {
  (* OpData32 and the data *)
  add_data_32 d : length d = 32 -> add_data d = Byte.x20 :: d;
  (* an opcode with a length, and the data *)
  add_data_long d : 75 < length d -> exists head, add_data d = head ++ d;
  (* the cap without covenants is 10 KB *)
  covenants_raise_cap : (10000 < max_script_size)%Z;
  add_data_length d : 1 <= length (add_data d) <= length d + 5;
  (* push_i64 of permission_script.rs matches ScriptBuilder::add_i64 *)
  add_i64_push z : (- 2 ^ 63 <= z < 2 ^ 63)%Z -> add_i64 z = PermRedeemScript.push_i64 z
}.

Class TxScriptEngineOk (sha256 : bytes -> array 32) `{Blake2b, ScriptBuilder, ZkPrecompiles, TxScriptEngine} : Prop := {
  run_nil accessor tv v : run accessor tv [] v = accepts (Some v);
  run_instr accessor tv i rest v : fits i = true ->
    run accessor tv (encode_instr i ++ rest) v =
    match call_step sha256 accessor tv i v with Some v => run accessor tv rest v | None => false end;
  tags_differ : R0Succinct <> Groth16;
  (* an input locked to the hash of a redeem script: the last push is that script *)
  verify_p2sh accessor tv input ds redeem :
    tv_inputs tv !! tv_index tv = Some input -> in_spk input = p2sh_spk redeem ->
    in_sig input = (ds ++ [redeem]) ≫= add_data -> forallb (fun d => fits (AddData d)) (ds ++ [redeem]) = true ->
    verify_input accessor tv = run accessor tv redeem ([], (rev ds, []));
  verify_p2sh_inv accessor tv input redeem :
    tv_inputs tv !! tv_index tv = Some input -> in_spk input = p2sh_spk redeem -> verify_input accessor tv = true ->
    exists args redeem' st, in_sig input = args ++ redeem' /\ blake2b_script_hash redeem' = blake2b_script_hash redeem /\
      run accessor tv redeem' ([], (st, [])) = true
}.

(** The engine runs a script as its calls say. *)
Lemma run_drain `{TxScriptEngineOk} accessor tv p v :
  forallb fits p = true -> run accessor tv (script_bytes p) v = accepts (exec_calls sha256 accessor tv p v).
Proof.
  revert v. induction p as [|i p IH]; intros v Hp; cbn [script_bytes mbind list_bind exec_calls]; [apply run_nil|].
  apply andb_true_iff in Hp as [Hi Hp]. rewrite run_instr by done.
  destruct (call_step sha256 accessor tv i v) as [v'|]; cbn; [by apply IH|done].
Qed.
