(* ===== verification/CovScript.v ===== *)
(** * CovScript: the settlement covenant's redeem script

    [script.rs] of [zk/backend/risc0/covenant]: the scripts that guard the covenant, as the list of
    the builder calls of every function, and the search for their own length. *)

From S2P Require Import Prelude Codec Types RtState ScriptEngine PermScript PermSem CovEngine.

(** ** Constants *)

(** Written by [build.rs] from the proof system's crates. *)
Class Groth16Consts := {
  GROTH16_VK_COMPRESSED : bytes;
  GROTH16_BN254_CONTROL_ID : array 32;
  GROTH16_CONTROL_ROOT_A0 : array 32;
  GROTH16_CONTROL_ROOT_A1 : array 32;
  RECEIPT_CLAIM_TAG_DIGEST : array 32;
  OUTPUT_TAG_DIGEST : array 32;
  POST_DIGEST : array 32
}.

Definition SUCCINCT_CONTROL_ID : bytes :=
  [Byte.x53; Byte.xa7; Byte.xb2; Byte.x3d; Byte.x07; Byte.xf9; Byte.x9e; Byte.x5d; Byte.x56; Byte.x85; Byte.xe8; Byte.x58;
   Byte.x74; Byte.xf5; Byte.x18; Byte.x1e; Byte.x84; Byte.x86; Byte.xaa; Byte.x26; Byte.x7a; Byte.x0a; Byte.xe6; Byte.x07;
   Byte.xff; Byte.xe9; Byte.xba; Byte.x47; Byte.xc8; Byte.xbd; Byte.xda; Byte.x4a].
Definition SUCCINCT_HASHFN : byte := Byte.x01.
Definition REDEEM_PREFIX_LEN : Z := 99.
Definition DEFAULT_PERMISSION_OUTPUT_VALUE : Z := 50000000.
Definition GROTH16_PUBLIC_INPUT_COUNT : Z := 5.

(** The version of script public keys that the comments give, and its two bytes. *)
Definition MAX_SCRIPT_PUBLIC_KEY_VERSION : Z := 0.
Definition u16_to_be_bytes (z : Z) : bytes := rev (vec_to_list (le_split 2 z)).

Definition OpData32 : byte := Byte.x20.
Definition zeros (n : nat) : bytes := replicate n Byte.x00.

(** ** Pins *)

Record CommonPins := {
  program_id : array 32;
  tx_image_id : array 32;
  batch_image_id : array 32;
  lane_key : array 32;
  permission_output_value : Z
}.
Inductive RedeemPins := Succinct (p : CommonPins) | Groth16Pins (p : CommonPins).

Definition RedeemPins_common (pins : RedeemPins) : CommonPins := match pins with Succinct p => p | Groth16Pins p => p end.
Definition zk_tag `{ZkPrecompiles} (pins : RedeemPins) : byte := match pins with Succinct _ => R0Succinct | Groth16Pins _ => Groth16 end.

(** ** The emitters

    Each is the calls that the function makes on the builder. *)

Notation op b := (AddOp (Base b)).

Definition stash_prev_values : script := [op OP_TOALTSTACK; op OP_TOALTSTACK; op OP_TOALTSTACK].
Definition obtain_new_seq_commitment : script := [AddOp OpChainblockSeqCommit].

Definition verify_claimed_seq_commit : script :=
  [op OP_SWAP; op OP_TOALTSTACK; op OP_SWAP; op OP_TOALTSTACK; op OP_EQUALVERIFY; op OP_FROMALTSTACK; op OP_FROMALTSTACK].

Definition build_next_redeem_prefix_no_stash : script :=
  [AddData [OpData32]; op OP_SWAP; op OP_CAT; op OP_SWAP;
   AddData [OpData32]; op OP_SWAP; op OP_CAT; op OP_SWAP; op OP_CAT].

Definition drop_stashed_prev_values : script :=
  [op OP_FROMALTSTACK; op OP_DROP; op OP_FROMALTSTACK; op OP_DROP; op OP_FROMALTSTACK; op OP_DROP].

Definition append_lane_key_to_next_prefix (lane_key : array 32) : script :=
  [AddData [OpData32]; op OP_CAT; AddData (vec_to_list lane_key); op OP_CAT].

Definition build_next_redeem_prefix : script :=
  [op OP_TOALTSTACK;
   op OP_DUP; op OP_TOALTSTACK; AddData [OpData32]; op OP_SWAP; op OP_CAT;
   op OP_SWAP;
   op OP_DUP; op OP_TOALTSTACK; AddData [OpData32]; op OP_SWAP; op OP_CAT;
   op OP_SWAP; op OP_CAT].

Definition extract_redeem_suffix_and_concat (redeem_script_len : Z) : script :=
  [op OP_TXINPUTINDEX; op OP_TXINPUTINDEX; op OP_TXINPUTSCRIPTSIGLEN;
   AddI64 (- redeem_script_len + REDEEM_PREFIX_LEN); op OP_ADD;
   op OP_TXINPUTINDEX; op OP_TXINPUTSCRIPTSIGLEN; op OP_TXINPUTSCRIPTSIGSUBSTR; op OP_CAT].

Definition spk_header : bytes := u16_to_be_bytes MAX_SCRIPT_PUBLIC_KEY_VERSION ++ [OP_BLAKE2B; OpData32].

Definition hash_redeem_to_spk : script :=
  [op OP_BLAKE2B; AddData spk_header; op OP_SWAP; op OP_CAT; AddData [OP_EQUAL]; op OP_CAT].

Definition verify_output_spk : script := [op OP_TXINPUTINDEX; op OP_TXOUTPUTSPK; op OP_EQUALVERIFY].

Definition bind_deposit_hash_to_covenant : script :=
  [op OP_DUP;
   op OP_DUP; AddData (zeros 32); op OP_EQUAL; AddOp OpNot;
   AddOp OpIf;
     op OP_TXINPUTINDEX; op OP_INPUTCOVENANTID;
     AddData DELEGATE_SCRIPT_PREFIX; op OP_SWAP; op OP_CAT;
     AddData DELEGATE_SCRIPT_SUFFIX; op OP_CAT;
     op OP_BLAKE2B; op OP_EQUALVERIFY;
   AddOp OpElse;
     op OP_DROP;
   AddOp OpEndIf].

Definition verify_and_append_deposit_hash : script := [op OP_SWAP] ++ bind_deposit_hash_to_covenant ++ [op OP_CAT].
Definition verify_deposit_hash : script := bind_deposit_hash_to_covenant ++ [op OP_DROP].

(** [value as i64] *)
Definition as_i64 (value : Z) : Z := if (value <? 2 ^ 63)%Z then value else (value - 2 ^ 64)%Z.

Definition verify_permission_output_value (perm_value : Z) : script :=
  [AddI64 1; op OP_TXOUTPUTAMOUNT; AddI64 (as_i64 perm_value); op OP_EQUALVERIFY].

Definition extract_and_match_permission_spk : script :=
  [AddI64 1; AddI64 4; AddI64 36; AddOp OpTxOutputSpkSubstr;
   op OP_DUP; AddData (zeros 32); op OP_EQUAL; AddOp OpNot; op OP_VERIFY;
   op OP_DUP; AddData spk_header; op OP_SWAP; op OP_CAT; AddData [OP_EQUAL]; op OP_CAT;
   AddI64 1; op OP_TXOUTPUTSPK; op OP_EQUALVERIFY].

Definition verify_cov_output_at_idx (k expected_idx : Z) : script :=
  [op OP_TXINPUTINDEX; op OP_INPUTCOVENANTID; AddI64 k; op OP_COVOUTPUTIDX; AddI64 expected_idx; op OP_EQUALVERIFY].

Definition verify_continuation_value : script :=
  [AddI64 0; op OP_TXINPUTAMOUNT; AddI64 0; op OP_TXOUTPUTAMOUNT; op OP_NUMEQUALVERIFY].

Definition verify_input_index_zero : script := [op OP_TXINPUTINDEX; AddI64 0; op OP_EQUALVERIFY].

Definition verify_outputs_and_append_perm_hash (pins : RedeemPins) : script :=
  [op OP_TXINPUTINDEX; op OP_INPUTCOVENANTID; op OP_COVOUTCOUNT; op OP_DUP; AddI64 2; AddOp OpNumEqual] ++
  [AddOp OpIf] ++
    [op OP_DROP] ++
    verify_cov_output_at_idx 0 0 ++
    verify_cov_output_at_idx 1 1 ++
    verify_continuation_value ++
    verify_permission_output_value (permission_output_value (RedeemPins_common pins)) ++
    extract_and_match_permission_spk ++
    [op OP_CAT] ++
  [AddOp OpElse] ++
    [AddI64 1; op OP_NUMEQUALVERIFY] ++
    verify_cov_output_at_idx 0 0 ++
    verify_continuation_value ++
    [AddData (zeros 32); op OP_CAT] ++
  [AddOp OpEndIf].

Definition verify_dev_outputs (permission_output_value : Z) : script :=
  [op OP_TXINPUTINDEX; op OP_INPUTCOVENANTID; op OP_COVOUTCOUNT; op OP_DUP; AddI64 2; AddOp OpNumEqual] ++
  [AddOp OpIf] ++
    [op OP_DROP] ++
    verify_cov_output_at_idx 0 0 ++
    verify_cov_output_at_idx 1 1 ++
    verify_continuation_value ++
    verify_permission_output_value permission_output_value ++
    extract_and_match_permission_spk ++
    [op OP_DROP] ++
  [AddOp OpElse] ++
    [AddI64 1; op OP_NUMEQUALVERIFY] ++
    verify_cov_output_at_idx 0 0 ++
    verify_continuation_value ++
  [AddOp OpEndIf].

(** The part of the preimage before the output checks. *)
Definition journal_preimage (pins : RedeemPins) : script :=
  [op OP_FROMALTSTACK; op OP_FROMALTSTACK; op OP_FROMALTSTACK;
   op OP_SWAP; op OP_TOALTSTACK; op OP_SWAP; op OP_FROMALTSTACK; op OP_SWAP; op OP_CAT; op OP_SWAP; op OP_CAT;
   op OP_FROMALTSTACK; op OP_FROMALTSTACK; op OP_SWAP; op OP_CAT;
   op OP_SWAP; op OP_CAT;
   op OP_TXINPUTINDEX; op OP_INPUTCOVENANTID; op OP_CAT;
   AddData (vec_to_list (tx_image_id (RedeemPins_common pins))); op OP_CAT;
   AddData (vec_to_list (batch_image_id (RedeemPins_common pins))); op OP_CAT].

Definition build_and_hash_journal (pins : RedeemPins) : script :=
  journal_preimage pins ++
  verify_outputs_and_append_perm_hash pins ++
  verify_and_append_deposit_hash ++
  [op OP_FROMALTSTACK; op OP_CAT; op OP_SHA256].

Definition split_at_mid : script :=
  [AddOp OpSize; AddI64 2; AddOp OpDiv; AddOp Op2Dup; AddI64 0; op OP_SWAP; AddOp OpSubstr;
   op OP_ROT; op OP_ROT; op OP_DUP; AddI64 2; AddOp OpMul; AddOp OpSubstr].

Section redeem.
Context `{ZkPrecompiles, Groth16Consts}.

Definition verify_risc0_succinct (image_id : array 32) : script :=
  [AddData (vec_to_list image_id); AddData SUCCINCT_CONTROL_ID; AddData [SUCCINCT_HASHFN]; AddData [R0Succinct];
   AddOp OpZkPrecompile; op OP_VERIFY].

Definition compute_receipt_claim : script :=
  [op OP_TOALTSTACK;
   AddData (vec_to_list OUTPUT_TAG_DIGEST); op OP_SWAP; op OP_CAT;
   AddData (zeros 32); op OP_CAT;
   AddData (vec_to_list (le_split 2 2)); op OP_CAT;
   op OP_SHA256;
   AddData (vec_to_list RECEIPT_CLAIM_TAG_DIGEST); AddData (zeros 32); op OP_CAT;
   op OP_FROMALTSTACK; op OP_CAT;
   AddData (vec_to_list POST_DIGEST); op OP_CAT;
   op OP_SWAP; op OP_CAT;
   AddData [Byte.x00; Byte.x00; Byte.x00; Byte.x00; Byte.x00; Byte.x00; Byte.x00; Byte.x00; Byte.x04; Byte.x00]; op OP_CAT;
   op OP_SHA256].

Definition verify_risc0_groth16 (image_id : array 32) : script :=
  [AddData (vec_to_list image_id); op OP_ROT; op OP_TOALTSTACK] ++
  compute_receipt_claim ++
  [op OP_TOALTSTACK; AddData (vec_to_list GROTH16_BN254_CONTROL_ID); op OP_FROMALTSTACK] ++
  split_at_mid ++
  [AddData (zeros 16); op OP_CAT; op OP_SWAP; AddData (zeros 16); op OP_CAT;
   AddData (vec_to_list GROTH16_CONTROL_ROOT_A1); AddData (vec_to_list GROTH16_CONTROL_ROOT_A0);
   AddI64 GROTH16_PUBLIC_INPUT_COUNT; op OP_FROMALTSTACK; AddData GROTH16_VK_COMPRESSED;
   AddData [Groth16]; AddOp OpZkPrecompile; op OP_VERIFY].

(** ** The scripts *)

Definition redeem_prefix (prev_state prev_lane_tip lane_key : array 32) : script :=
  [AddData (vec_to_list prev_lane_tip); AddData (vec_to_list prev_state); AddData (vec_to_list lane_key)].

Definition redeem_calls (prev_state prev_lane_tip : array 32) (redeem_script_len : Z) (pins : RedeemPins) : script :=
  redeem_prefix prev_state prev_lane_tip (lane_key (RedeemPins_common pins)) ++
  stash_prev_values ++
  obtain_new_seq_commitment ++
  build_next_redeem_prefix ++
  append_lane_key_to_next_prefix (lane_key (RedeemPins_common pins)) ++
  extract_redeem_suffix_and_concat redeem_script_len ++
  hash_redeem_to_spk ++
  verify_output_spk ++
  build_and_hash_journal pins ++
  match pins with
  | Succinct p => verify_risc0_succinct (program_id p)
  | Groth16Pins p => verify_risc0_groth16 (program_id p)
  end ++
  verify_input_index_zero ++
  [op OP_TRUE; op OP_FALSE; op OP_DROP].

Definition dev_redeem_calls (prev_state prev_lane_tip lane_key : array 32) (redeem_script_len permission_output_value : Z) : script :=
  redeem_prefix prev_state prev_lane_tip lane_key ++
  stash_prev_values ++
  obtain_new_seq_commitment ++
  verify_claimed_seq_commit ++
  build_next_redeem_prefix_no_stash ++
  append_lane_key_to_next_prefix lane_key ++
  extract_redeem_suffix_and_concat redeem_script_len ++
  hash_redeem_to_spk ++
  verify_output_spk ++
  drop_stashed_prev_values ++
  verify_deposit_hash ++
  verify_input_index_zero ++
  verify_dev_outputs permission_output_value ++
  [op OP_TRUE].

Context `{ScriptBuilder}.

Definition build_redeem_script (prev_state prev_lane_tip : array 32) (redeem_script_len : Z) (pins : RedeemPins) : bytes :=
  script_bytes (redeem_calls prev_state prev_lane_tip redeem_script_len pins).

Definition build_dev_redeem_script (prev_state prev_lane_tip lane_key : array 32) (redeem_script_len permission_output_value : Z) : bytes :=
  script_bytes (dev_redeem_calls prev_state prev_lane_tip lane_key redeem_script_len permission_output_value).

(** [Hash::default()] *)
Definition Hash_default : array 32 := vreplicate 32 Byte.x00.

(** The loop of the two functions, for at most [fuel] rounds. *)
Fixpoint length_loop (fuel : nat) (build : Z -> bytes) (guess : Z) : option Z :=
  match fuel with
  | O => None
  | S fuel =>
      let len := Z.of_nat (length (build guess)) in
      if (len =? guess)%Z then Some len else length_loop fuel build len
  end.

Definition redeem_script_len (fuel : nat) (prev_state : array 32) (pins : RedeemPins) : option Z :=
  length_loop fuel (fun guess => build_redeem_script prev_state Hash_default guess pins) 75.

Definition dev_redeem_script_len (fuel : nat) (prev_state lane_key : array 32) (permission_output_value : Z) : option Z :=
  length_loop fuel (fun guess => build_dev_redeem_script prev_state Hash_default lane_key guess permission_output_value) 75.
End redeem.
