(* ===== verification/CovSem.v ===== *)
(** * CovSem: what the settlement script checks

    The meaning of the emitters of [CovScript]: for each, the stacks it leaves and the condition
    under which it fails. *)

From S2P Require Import Prelude Codec Types RtState ScriptEngine PermScript PermSem CovEngine CovScript.

(** ** Straight code and branches *)

Definition control (i : instr) : bool := match i with AddOp (OpIf | OpElse | OpEndIf) => true | _ => false end.
Notation straight := (forallb (fun i => negb (control i))).

Section straight.
Context (sha256 : bytes -> array 32) `{Blake2b, ZkPrecompiles} (accessor : SeqCommitAccessor) (tv : TxView).

(** Code without branches acts on the stacks only. *)
Fixpoint sexec (p : script) (s : vm_state) : option vm_state :=
  match p with
  | [] => Some s
  | AddData d :: p => sexec p (d :: s.1, s.2)
  | AddI64 z :: p => sexec p (num_bytes z :: s.1, s.2)
  | AddOp o :: p => s ← op_outcome sha256 accessor tv o s; sexec p s
  end.

Lemma sexec_app p q s : sexec (p ++ q) s = s ← sexec p s; sexec q s.
Proof.
  revert s. induction p as [|[d|z|o] p IH]; intros s; cbn; [done|apply IH|apply IH|].
  destruct (op_outcome sha256 accessor tv o s); cbn; [apply IH|done].
Qed.

Lemma exec_straight p conds s :
  straight p = true -> executing conds = true ->
  exec_calls sha256 accessor tv p (conds, s) = s ← sexec p s; Some (conds, s).
Proof.
  intros Hp He. revert s Hp. induction p as [|i p IH]; intros s; [done|]. intros [Hi Hp]%andb_true_iff.
  destruct i as [d|z|o]; cbn [exec_calls sexec]; [cbn; rewrite He; by apply IH..|].
  assert (call_step sha256 accessor tv (AddOp o) (conds, s) = s ← op_outcome sha256 accessor tv o s; Some (conds, s)) as ->
    by (destruct o; try discriminate Hi; cbn; by rewrite He).
  destruct (op_outcome sha256 accessor tv o s); cbn; [by apply IH|done].
Qed.

Lemma exec_skip p conds s :
  straight p = true -> executing conds = false -> exec_calls sha256 accessor tv p (conds, s) = Some (conds, s).
Proof.
  intros Hp He. revert Hp. induction p as [|i p IH]; [done|]. intros [Hi Hp]%andb_true_iff.
  destruct i as [d|z|o]; [cbn; rewrite He; by apply IH..|]. destruct o; try discriminate Hi; cbn; rewrite He; by apply IH.
Qed.

Lemma exec_if_else a b conds x st alt :
  straight a = true -> straight b = true -> executing conds = true ->
  exec_calls sha256 accessor tv ([AddOp OpIf] ++ a ++ [AddOp OpElse] ++ b ++ [AddOp OpEndIf]) (conds, (x :: st, alt)) =
  t ← if_cond x; s ← sexec (if t : bool then a else b) (st, alt); Some (conds, s).
Proof.
  intros Ha Hb He. cbn [app exec_calls call_step]. rewrite He. cbn [mbind option_bind].
  destruct (if_cond x) as [t|]; cbn; [|done]. rewrite exec_app. destruct t.
  - rewrite exec_straight by done. destruct (sexec a (st, alt)); cbn; [|done].
    rewrite exec_app, exec_skip by done. done.
  - rewrite exec_skip by done. cbn. rewrite exec_app, exec_straight by done. by destruct (sexec b (st, alt)).
Qed.
End straight.

(** ** Capped concatenation *)

Definition capped (l : bytes) : bool := (Z.of_nat (length l) <=? MAX_ELEMENT)%Z.

Lemma cat_capped a b : cat a b = if capped (a ++ b) then Some (a ++ b) else None.
Proof. done. Qed.

Lemma capped_le a b : length a <= length b -> capped b = true -> capped a = true.
Proof. unfold capped. rewrite !Z.leb_le. lia. Qed.

Lemma capped_gt a b : length a <= length b -> capped a = false -> capped b = false.
Proof. unfold capped. rewrite !Z.leb_gt. lia. Qed.

(** A longer element that fits subsumes the shorter ones it was built from. *)
Lemma capped_absorb {A} a b (k : option A) :
  length a <= length b -> (if capped a then if capped b then k else None else None) = if capped b then k else None.
Proof. intros Hl. destruct (capped b) eqn:Hb; [by rewrite (capped_le a b)|by destruct (capped a)]. Qed.

Lemma capped_short l : length l <= 1000 -> capped l = true.
Proof. unfold capped. change MAX_ELEMENT with 1000000%Z. rewrite Z.leb_le. lia. Qed.

(** Case analysis on the caps in a goal; the impossible cases by their lengths. *)
Ltac cap_cases :=
  repeat match goal with
  | |- context [if capped ?a then _ else _] => let E := fresh "Hcap" in destruct (capped a) eqn:E
  end;
  try done;
  match goal with
  | E : capped ?a = false, F : capped ?b = true |- _ =>
      exfalso; apply not_true_iff_false in E; apply E; refine (capped_le _ _ _ F); rewrite ?length_app; cbn [length]; lia
  end.

(** ** Steps *)

#[local] Arguments script_num : simpl never.
#[local] Arguments idx_of : simpl never.
#[local] Arguments cat : simpl never.
#[local] Arguments num_push : simpl never.
#[local] Arguments num_bytes : simpl never.
#[local] Arguments substr : simpl never.
#[local] Arguments covenant_outputs : simpl never.

Section step_lemmas.
Context (sha256 : bytes -> array 32) `{Blake2b, ZkPrecompiles} (accessor : SeqCommitAccessor) (tv : TxView).

Lemma sexec_op o p s r :
  op_outcome sha256 accessor tv o s = r -> sexec sha256 accessor tv (AddOp o :: p) s = r ≫= sexec sha256 accessor tv p.
Proof. by intros <-. Qed.
Lemma sexec_data d p st alt : sexec sha256 accessor tv (AddData d :: p) (st, alt) = sexec sha256 accessor tv p (d :: st, alt).
Proof. done. Qed.
Lemma sexec_i64 z p st alt : sexec sha256 accessor tv (AddI64 z :: p) (st, alt) = sexec sha256 accessor tv p (num_bytes z :: st, alt).
Proof. done. Qed.
Lemma sexec_nil s : sexec sha256 accessor tv [] s = Some s.
Proof. done. Qed.
End step_lemmas.

Ltac sx_step :=
  match goal with
  | |- context [sexec ?h ?acc ?tv (AddOp (Base ?o) :: ?p) (?st, ?alt)] =>
      let d := eval vm_compute in (small_int o) in
      lazymatch d with
      | Some ?d => rewrite (sexec_op h acc tv (Base o) p (st, alt) (Some (d :: st, alt)) (@eq_refl _ (Some (d :: st, alt))))
      | None =>
          let o' := eval vm_compute in o in
          let r := eval cbv beta iota delta [core_effect] in (core_effect h tv o' (st, alt)) in
          rewrite (sexec_op h acc tv (Base o) p (st, alt) r (@eq_refl _ r))
      end
  | |- context [sexec ?h ?acc ?tv (AddOp ?o :: ?p) (?st, ?alt)] =>
      let r := eval cbv beta iota delta [op_outcome] in (op_outcome h acc tv o (st, alt)) in
      rewrite (sexec_op h acc tv o p (st, alt) r (@eq_refl _ r))
  | |- context [sexec ?h ?acc ?tv (AddData ?d :: ?p) (?st, ?alt)] => rewrite (sexec_data h acc tv d p st alt)
  | |- context [sexec ?h ?acc ?tv (AddI64 ?z :: ?p) (?st, ?alt)] => rewrite (sexec_i64 h acc tv z p st alt)
  | |- context [sexec ?h ?acc ?tv [] ?s] => rewrite (sexec_nil h acc tv s)
  end.

(** Numbers the script pushes itself. *)
Ltac lit_num z k := lazymatch z with Z0 => k tt | Zpos _ => k tt | Zneg _ => k tt end.
Ltac lit_step :=
  match goal with
  | |- context [if true then ?x else ?y] => change (if true then x else y) with x
  | |- context [if false then ?x else ?y] => change (if false then x else y) with y
  | |- context [idx_of (num_bytes ?z)] =>
      lit_num z ltac:(fun _ => let r := eval vm_compute in (idx_of (num_bytes z)) in change (idx_of (num_bytes z)) with r)
  | |- context [script_num (num_bytes ?z)] =>
      lit_num z ltac:(fun _ => let r := eval vm_compute in (script_num (num_bytes z)) in change (script_num (num_bytes z)) with r)
  end.
Ltac sx := repeat first [progress rewrite ?bind_some, ?bind_none, ?truthy_bool, ?if_cond_bool | sx_step | lit_step].

(** Concatenations one by one; those that build something short always fit. *)
Ltac sx_cat :=
  repeat (sx; match goal with
    | |- context [mbind _ (cat ?a ?b)] => rewrite (cat_capped a b)
    | |- context [mbind _ (if capped ?l then Some ?l else None)] => destruct (capped l) eqn:?
    end); sx.

(** ** The emitters *)

Section emitters.
Context (sha256 : bytes -> array 32) `{Blake2b, ZkPrecompiles} (accessor : SeqCommitAccessor) (tv : TxView).
Notation sexec := (sexec sha256 accessor tv).

Lemma sem_stash ps lt lk st alt :
  sexec (redeem_prefix ps lt lk ++ stash_prev_values) (st, alt) = Some (st, vec_to_list lt :: vec_to_list ps :: vec_to_list lk :: alt).
Proof. unfold redeem_prefix, stash_prev_values. cbn [app]. by sx. Qed.

Lemma sem_seq_commit block st alt :
  sexec obtain_new_seq_commitment (block :: st, alt) = c ← accessor block; Some (vec_to_list c :: st, alt).
Proof. unfold obtain_new_seq_commitment. sx. destruct (accessor block); by sx. Qed.

Lemma sem_claimed ns lt claimed c st alt :
  sexec verify_claimed_seq_commit (c :: ns :: lt :: claimed :: st, alt) =
  if bool_decide (claimed = c) then Some (ns :: lt :: st, alt) else None.
Proof. unfold verify_claimed_seq_commit. sx. case_bool_decide; by sx. Qed.

(** The two pushes in front of the lane key. *)
Definition next_pushes (ns lt : bytes) : bytes := (OpData32 :: lt) ++ OpData32 :: ns.

Lemma sem_next_prefix c ns lt st alt :
  sexec build_next_redeem_prefix (c :: ns :: lt :: st, alt) =
  if capped (next_pushes ns lt) then Some (next_pushes ns lt :: st, lt :: ns :: c :: alt) else None.
Proof. unfold build_next_redeem_prefix, next_pushes. sx_cat; cap_cases. Qed.

Lemma sem_next_prefix_dev ns lt st alt :
  sexec build_next_redeem_prefix_no_stash (ns :: lt :: st, alt) =
  if capped (next_pushes ns lt) then Some (next_pushes ns lt :: st, alt) else None.
Proof. unfold build_next_redeem_prefix_no_stash, next_pushes. sx_cat; cap_cases. Qed.

Lemma sem_append_lane_key lk p st alt :
  sexec (append_lane_key_to_next_prefix lk) (p :: st, alt) =
  if capped (p ++ OpData32 :: vec_to_list lk) then Some ((p ++ OpData32 :: vec_to_list lk) :: st, alt) else None.
Proof.
  unfold append_lane_key_to_next_prefix. change (OpData32 :: vec_to_list lk) with ([OpData32] ++ vec_to_list lk).
  rewrite (app_assoc p). sx_cat; cap_cases.
Qed.

Lemma sem_hash_to_spk redeem st alt : sexec hash_redeem_to_spk (redeem :: st, alt) = Some (p2sh_spk redeem :: st, alt).
Proof.
  unfold hash_redeem_to_spk, spk_header. change (u16_to_be_bytes MAX_SCRIPT_PUBLIC_KEY_VERSION) with [Byte.x00; Byte.x00].
  sx_cat; [done|exfalso..]; match goal with E : capped _ = false |- _ => rewrite capped_short in E; [done|] end;
    rewrite ?length_app, length_vec_to_list; cbn; lia.
Qed.

Section input.
Context (input : TxIn) (Hview : wf_view tv) (Hin : tv_inputs tv !! tv_index tv = Some input).

Lemma index_idx : idx_of (num_bytes (Z.of_nat (tv_index tv))) = Some (tv_index tv).
Proof using Hview Hin. by eapply index_num. Qed.

(** Names the input the script runs for. *)
Ltac at_input := repeat (sx; first [rewrite index_idx | rewrite Hin]); sx.

Lemma sem_extract_suffix args redeem p st alt :
  in_sig input = args ++ redeem -> 99 <= length redeem ->
  sexec (extract_redeem_suffix_and_concat (Z.of_nat (length redeem))) (p :: st, alt) =
  if capped (p ++ drop 99 redeem) then Some ((p ++ drop 99 redeem) :: st, alt) else None.
Proof using All.
  intros Hsig Hlen. destruct (wv_input _ Hview _ _ Hin) as [_ Hl].
  assert (length (in_sig input) = length args + length redeem) as Hn by (by rewrite Hsig, length_app).
  unfold extract_redeem_suffix_and_concat, REDEEM_PREFIX_LEN.
  at_input. rewrite !script_num_num_bytes by lia. sx. rewrite num_push_run by lia. at_input.
  replace (Z.of_nat (length (in_sig input)) + (- Z.of_nat (length redeem) + 99))%Z with (Z.of_nat (length args + 99)) by lia.
  rewrite !idx_of_num by lia. at_input.
  unfold substr. rewrite (proj2 (Nat.leb_le _ _)) by lia. rewrite Nat.leb_refl. cbn [andb]. sx.
  rewrite Hsig, drop_app_add, firstn_all2 by (rewrite ?length_drop, ?length_app; lia). sx_cat; cap_cases.
Qed.

Lemma sem_output_spk spk st alt :
  sexec verify_output_spk (spk :: st, alt) =
  out ← tv_outputs tv !! tv_index tv; if bool_decide (spk = to_spk out) then Some (st, alt) else None.
Proof using All.
  unfold verify_output_spk. at_input. destruct (tv_outputs tv !! tv_index tv); sx; [|done]. case_bool_decide; by sx.
Qed.

(** The script of the next covenant output. *)
Definition next_script (lk : array 32) (redeem ns lt : bytes) : bytes :=
  next_pushes ns lt ++ OpData32 :: vec_to_list lk ++ drop 99 redeem.

(** From the pushes of the next script to the check of the output. *)
Lemma sem_continuation_spk args redeem lk ns lt st alt :
  in_sig input = args ++ redeem -> 99 <= length redeem ->
  (s ← (if capped (next_pushes ns lt) then Some (next_pushes ns lt :: st, alt) else None);
   sexec (append_lane_key_to_next_prefix lk ++ extract_redeem_suffix_and_concat (Z.of_nat (length redeem)) ++
     hash_redeem_to_spk ++ verify_output_spk) s) =
  out ← tv_outputs tv !! tv_index tv;
  if capped (next_script lk redeem ns lt) then
    if bool_decide (p2sh_spk (next_script lk redeem ns lt) = to_spk out) then Some (st, alt) else None
  else None.
Proof using All.
  intros Hsig Hlen. unfold next_script. change (OpData32 :: vec_to_list lk ++ drop 99 redeem) with ((OpData32 :: vec_to_list lk) ++ drop 99 redeem).
  rewrite (app_assoc (next_pushes ns lt)). destruct (capped (next_pushes ns lt)) eqn:H1; cbn [mbind option_bind].
  2:{ destruct (tv_outputs tv !! tv_index tv); cbn [mbind option_bind]; [cap_cases|done]. }
  rewrite sexec_app, sem_append_lane_key. destruct (capped (next_pushes ns lt ++ _ :: vec_to_list lk)) eqn:H2; cbn [mbind option_bind].
  2:{ destruct (tv_outputs tv !! tv_index tv); cbn [mbind option_bind]; [cap_cases|done]. }
  rewrite sexec_app, (sem_extract_suffix args) by done. destruct (capped (_ ++ drop 99 redeem)) eqn:H3; cbn [mbind option_bind].
  2:{ by destruct (tv_outputs tv !! tv_index tv). }
  by rewrite sexec_app, sem_hash_to_spk; cbn [mbind option_bind]; rewrite sem_output_spk.
Qed.

(** ** Outputs *)

(** What the journal says of the state, the covenant and the images. *)
Definition journal_head (pins : RedeemPins) (ps plt : array 32) (ns lt : bytes) (commit id : array 32) : bytes :=
  vec_to_list ps ++ vec_to_list plt ++ ns ++ lt ++ vec_to_list commit ++ vec_to_list id ++
  vec_to_list (tx_image_id (RedeemPins_common pins)) ++ vec_to_list (batch_image_id (RedeemPins_common pins)).

Context (id : array 32) (Hid : in_covenant input = Some id).
Ltac at_covenant := repeat (at_input; rewrite Hid); at_input.

Lemma sem_journal_head pins (ps plt commit : array 32) ns lt st alt :
  sexec (journal_preimage pins) (st, lt :: ns :: vec_to_list commit :: vec_to_list plt :: vec_to_list ps :: alt) =
  if capped (journal_head pins ps plt ns lt commit id) then Some (journal_head pins ps plt ns lt commit id :: st, alt) else None.
Proof using All.
  unfold journal_preimage. repeat (sx_cat; rewrite ?index_idx, ?Hin, ?Hid). all: sx_cat.
  all: assert (forall a b c d e f g h : bytes, (((((a ++ b) ++ ((c ++ d) ++ e)) ++ f) ++ g) ++ h) = a ++ b ++ c ++ d ++ e ++ f ++ g ++ h) as Hassoc
    by (intros; by rewrite <- !app_assoc).
  all: try rewrite Hassoc in *; fold (journal_head pins ps plt ns lt commit id) in *.
  all: unfold journal_head in *; cap_cases.
Qed.

Lemma covenant_output_lt i k : covenant_outputs tv (vec_to_list id) !! k = Some i -> i < length (tv_outputs tv).
Proof using Type.
  intros Hi%list_elem_of_lookup_2. unfold covenant_outputs in Hi. apply list_elem_of_filter in Hi as [_ Hi].
  apply elem_of_seq in Hi. lia.
Qed.

Lemma sem_cov_output k e st alt :
  k < 100 -> e < 100 ->
  sexec (verify_cov_output_at_idx (Z.of_nat k) (Z.of_nat e)) (st, alt) =
  if bool_decide (covenant_outputs tv (vec_to_list id) !! k = Some e) then Some (st, alt) else None.
Proof using All.
  intros Hk He. unfold verify_cov_output_at_idx. at_covenant. rewrite idx_of_num by lia. sx.
  destruct (covenant_outputs tv (vec_to_list id) !! k) as [i|] eqn:Hi; sx; [|by rewrite bool_decide_false].
  apply covenant_output_lt in Hi. pose proof (wv_outputs _ Hview). rewrite num_bytes_eq by lia.
  rewrite (bool_decide_ext _ (i = e)) by (split; [by intros [= ->]|by intros ->]).
  destruct (Z.eqb_spec (Z.of_nat i) (Z.of_nat e)).
  - rewrite bool_decide_true by lia. by sx.
  - by rewrite bool_decide_false by lia.
Qed.

Definition continuation_value : bool :=
  match tv_inputs tv !! 0, tv_outputs tv !! 0 with
  | Some input, Some out => (in_amount input =? to_amount out)%Z
  | _, _ => false
  end.

Lemma sem_continuation_value st alt :
  sexec verify_continuation_value (st, alt) = if continuation_value then Some (st, alt) else None.
Proof using Hview.
  unfold verify_continuation_value, continuation_value. sx. destruct (tv_inputs tv !! 0) as [in0|] eqn:Hi; sx; [|done].
  destruct (wv_input _ Hview _ _ Hi) as [Ha _]. rewrite num_push_run by lia. sx.
  destruct (tv_outputs tv !! 0) as [out0|] eqn:Ho; sx; [|done].
  pose proof (wv_output _ Hview _ _ Ho). rewrite num_push_run by lia. sx. rewrite !script_num_num_bytes by lia. sx.
  destruct (_ =? _)%Z; by sx.
Qed.

Lemma sem_permission_value v st alt :
  (0 <= v < 2 ^ 63)%Z ->
  sexec (verify_permission_output_value v) (st, alt) =
  out ← tv_outputs tv !! 1; if (to_amount out =? v)%Z then Some (st, alt) else None.
Proof using Hview.
  intros Hv. unfold verify_permission_output_value, as_i64. rewrite (proj2 (Z.ltb_lt _ _)) by lia. sx.
  destruct (tv_outputs tv !! 1) as [out|] eqn:Ho; sx; [|done]. pose proof (wv_output _ Hview _ _ Ho).
  rewrite num_push_run by lia. sx. rewrite num_bytes_eq by lia. destruct (_ =? _)%Z; by sx.
Qed.

(** [permission_spk] of [settlement.rs], with the version in front. *)
Definition wrap_spk (hash : bytes) : bytes := spk_header ++ hash ++ [OP_EQUAL].

Lemma script_num_bool b : script_num (bool_bytes b) = Some (if b then 1 else 0)%Z.
Proof using Type. by destruct b. Qed.

Lemma substr_length l a b r : substr l a b = Some r -> length r = b - a.
Proof using Type.
  unfold substr. destruct (Nat.leb_spec a b), (Nat.leb_spec b (length l)); cbn; intros [= <-]. rewrite length_take, length_drop. lia.
Qed.

Lemma sem_match_permission st alt :
  sexec extract_and_match_permission_spk (st, alt) =
  out ← tv_outputs tv !! 1; h ← substr (to_spk out) 4 36;
  if bool_decide (h <> zeros 32) && bool_decide (to_spk out = wrap_spk h) then Some (h :: st, alt) else None.
Proof using Type.
  unfold extract_and_match_permission_spk. sx. destruct (tv_outputs tv !! 1) as [out|] eqn:Ho; sx; [|done].
  destruct (substr (to_spk out) 4 36) as [h|] eqn:Hh; sx; [|done]. apply substr_length in Hh.
  rewrite script_num_bool. sx. rewrite bool_decide_not. destruct (bool_decide (h = zeros 32)); cbn [negb andb]; [done|].
  change (0 =? 0)%Z with true. sx.
  rewrite cat_run by (rewrite length_app; change MAX_ELEMENT with 1000000%Z; change (length spk_header) with 4; lia). sx.
  rewrite cat_run by (rewrite !length_app; change MAX_ELEMENT with 1000000%Z; change (length spk_header) with 4; cbn [length]; lia). sx.
  rewrite <- app_assoc. fold (wrap_spk h). rewrite Ho. sx. rewrite (bool_decide_ext (wrap_spk h = to_spk out) (to_spk out = wrap_spk h)) by done. case_bool_decide; by sx.
Qed.

(** The permission commitment that the outputs bound to the covenant carry. *)
Definition permission_of (value : Z) : option bytes :=
  let bound := covenant_outputs tv (vec_to_list id) in
  if bool_decide (bound = [0; 1]) then
    out ← tv_outputs tv !! 1; h ← substr (to_spk out) 4 36;
    if continuation_value && (to_amount out =? value)%Z && (bool_decide (h <> zeros 32) && bool_decide (to_spk out = wrap_spk h))
    then Some h else None
  else if bool_decide (bound = [0]) && continuation_value then Some (zeros 32) else None.

(** The two branches up to the commitment. *)
Definition two_outputs (value : Z) : script :=
  [op OP_DROP] ++ verify_cov_output_at_idx 0 0 ++ verify_cov_output_at_idx 1 1 ++ verify_continuation_value ++
  verify_permission_output_value value ++ extract_and_match_permission_spk.
Definition one_output : script := [AddI64 1; op OP_NUMEQUALVERIFY] ++ verify_cov_output_at_idx 0 0 ++ verify_continuation_value.

Lemma sem_cov_outputs_00 st alt :
  sexec (verify_cov_output_at_idx 0 0) (st, alt) =
  if bool_decide (covenant_outputs tv (vec_to_list id) !! 0 = Some 0) then Some (st, alt) else None.
Proof using All. apply (sem_cov_output 0 0); lia. Qed.
Lemma sem_cov_outputs_11 st alt :
  sexec (verify_cov_output_at_idx 1 1) (st, alt) =
  if bool_decide (covenant_outputs tv (vec_to_list id) !! 1 = Some 1) then Some (st, alt) else None.
Proof using All. apply (sem_cov_output 1 1); lia. Qed.

Lemma sem_two_outputs value n st alt :
  (0 <= value < 2 ^ 63)%Z -> length (covenant_outputs tv (vec_to_list id)) = 2 ->
  sexec (two_outputs value) (n :: st, alt) = h ← permission_of value; Some (h :: st, alt).
Proof using All.
  intros Hv Hl. unfold two_outputs, permission_of.
  change (sexec ([op OP_DROP] ++ ?k) (n :: st, alt)) with (sexec k (st, alt)).
  destruct (covenant_outputs tv (vec_to_list id)) as [|a [|b [|]]] eqn:Hb; try discriminate Hl.
  rewrite sexec_app, sem_cov_outputs_00, Hb. cbn [lookup list_lookup].
  rewrite (bool_decide_ext (Some a = Some 0) (a = 0)) by (split; [by intros [= ->]|by intros ->]).
  destruct (decide (a = 0)) as [->|Ha].
  2:{ rewrite (bool_decide_false (a = 0)) by done. rewrite !bool_decide_false by congruence. done. }
  rewrite bool_decide_true by done. cbn [mbind option_bind]. rewrite sexec_app, sem_cov_outputs_11, Hb. cbn [lookup list_lookup].
  rewrite (bool_decide_ext (Some b = Some 1) (b = 1)) by (split; [by intros [= ->]|by intros ->]).
  destruct (decide (b = 1)) as [->|Hb1].
  2:{ rewrite (bool_decide_false (b = 1)) by done. rewrite !bool_decide_false by congruence. done. }
  rewrite !bool_decide_true by done. cbn [mbind option_bind]. rewrite sexec_app, sem_continuation_value.
  destruct continuation_value; cbn [mbind option_bind andb].
  2:{ destruct (tv_outputs tv !! 1); cbn; [|done]. by destruct (substr _ _ _). }
  rewrite sexec_app, sem_permission_value by done. destruct (tv_outputs tv !! 1) as [out|] eqn:Ho; cbn [mbind option_bind]; [|done].
  destruct (to_amount out =? value)%Z; cbn [mbind option_bind andb].
  - rewrite sem_match_permission, Ho. cbn [mbind option_bind]. destruct (substr (to_spk out) 4 36); cbn [mbind option_bind]; [|done]. by destruct (_ && _).
  - by destruct (substr (to_spk out) 4 36).
Qed.

Lemma sem_one_output st alt :
  sexec one_output (num_bytes (Z.of_nat (length (covenant_outputs tv (vec_to_list id)))) :: st, alt) =
  if bool_decide (covenant_outputs tv (vec_to_list id) = [0]) && continuation_value then Some (st, alt) else None.
Proof using All.
  unfold one_output. pose proof (covenant_outputs_length tv (vec_to_list id)). pose proof (wv_outputs _ Hview).
  rewrite sexec_app. sx. rewrite script_num_num_bytes by lia. sx.
  destruct (Z.eqb_spec (Z.of_nat (length (covenant_outputs tv (vec_to_list id)))) 1) as [Hone|Hone]; sx.
  2:{ rewrite bool_decide_false; [done|]. intros Hb. by rewrite Hb in Hone. }
  rewrite sexec_app, sem_cov_outputs_00. destruct (covenant_outputs tv (vec_to_list id)) as [|a [|]]; try (cbn in Hone; lia).
  cbn [lookup list_lookup]. destruct (decide (a = 0)) as [->|Ha].
  2:{ rewrite !bool_decide_false by congruence. done. }
  rewrite !bool_decide_true by done. cbn [mbind option_bind andb]. by rewrite sem_continuation_value.
Qed.

(** The count of the covenant's outputs, and whether it is two. *)
Lemma sem_output_count st alt :
  sexec [op OP_TXINPUTINDEX; op OP_INPUTCOVENANTID; op OP_COVOUTCOUNT; op OP_DUP; AddI64 2; AddOp OpNumEqual] (st, alt) =
  Some (bool_bytes (length (covenant_outputs tv (vec_to_list id)) =? 2) ::
        num_bytes (Z.of_nat (length (covenant_outputs tv (vec_to_list id)))) :: st, alt).
Proof using All.
  pose proof (covenant_outputs_length tv (vec_to_list id)). pose proof (wv_outputs _ Hview).
  at_covenant. rewrite script_num_num_bytes by lia. sx. do 3 f_equal.
  destruct (Nat.eqb_spec (length (covenant_outputs tv (vec_to_list id))) 2), (Z.eqb_spec (Z.of_nat (length (covenant_outputs tv (vec_to_list id)))) 2); lia || done.
Qed.

Notation exec_calls := (exec_calls sha256 accessor tv).

(** Both scripts branch on the count and go on with the commitment: [then_two] and [then_one] are
    what follows in each branch. *)
Lemma sem_output_branches value then_two then_one st alt (k : bytes -> option vm_state) conds :
  (0 <= value < 2 ^ 63)%Z -> executing conds = true -> straight then_two = true -> straight then_one = true ->
  (forall h, sexec then_two (h :: st, alt) = k h) -> sexec then_one (st, alt) = k (zeros 32) ->
  exec_calls ([op OP_TXINPUTINDEX; op OP_INPUTCOVENANTID; op OP_COVOUTCOUNT; op OP_DUP; AddI64 2; AddOp OpNumEqual] ++
    [AddOp OpIf] ++ (two_outputs value ++ then_two) ++ [AddOp OpElse] ++ (one_output ++ then_one) ++ [AddOp OpEndIf]) (conds, (st, alt)) =
  s ← permission_of value ≫= k; Some (conds, s).
Proof using All.
  intros Hv He Ht Ho Htwo Hone. rewrite exec_app, exec_straight, sem_output_count by done. cbn [mbind option_bind].
  rewrite exec_if_else, if_cond_bool by (rewrite ?forallb_app, ?Ht, ?Ho; done). cbn [mbind option_bind].
  destruct (Nat.eqb_spec (length (covenant_outputs tv (vec_to_list id))) 2) as [Hl|Hl].
  - rewrite sexec_app, sem_two_outputs by done. destruct (permission_of value); cbn [mbind option_bind]; [by rewrite Htwo|done].
  - rewrite sexec_app, sem_one_output. unfold permission_of. rewrite (bool_decide_false (_ = [0; 1])) by (intros Hb; by rewrite Hb in Hl).
    destruct (_ && _); cbn [mbind option_bind]; [by rewrite Hone|done].
Qed.

Lemma sem_outputs pins p st alt conds :
  (0 <= permission_output_value (RedeemPins_common pins) < 2 ^ 63)%Z -> executing conds = true ->
  exec_calls (verify_outputs_and_append_perm_hash pins) (conds, (p :: st, alt)) =
  h ← permission_of (permission_output_value (RedeemPins_common pins));
  if capped (p ++ h) then Some (conds, ((p ++ h) :: st, alt)) else None.
Proof using All.
  intros Hv He.
  change (verify_outputs_and_append_perm_hash pins) with
    ([op OP_TXINPUTINDEX; op OP_INPUTCOVENANTID; op OP_COVOUTCOUNT; op OP_DUP; AddI64 2; AddOp OpNumEqual] ++ [AddOp OpIf] ++
     (two_outputs (permission_output_value (RedeemPins_common pins)) ++ [op OP_CAT]) ++ [AddOp OpElse] ++
     (one_output ++ [AddData (zeros 32); op OP_CAT]) ++ [AddOp OpEndIf]).
  rewrite (sem_output_branches _ _ _ _ _ (fun h => if capped (p ++ h) then Some ((p ++ h) :: st, alt) else None)); [|done..| |].
  - destruct (permission_of _); cbn [mbind option_bind]; [|done]. by destruct (capped _).
  - intros h. sx_cat; cap_cases.
  - sx_cat; cap_cases.
Qed.

Lemma sem_dev_outputs value st alt conds :
  (0 <= value < 2 ^ 63)%Z -> executing conds = true ->
  exec_calls (verify_dev_outputs value) (conds, (st, alt)) = _ ← permission_of value; Some (conds, (st, alt)).
Proof using All.
  intros Hv He.
  change (verify_dev_outputs value) with
    ([op OP_TXINPUTINDEX; op OP_INPUTCOVENANTID; op OP_COVOUTCOUNT; op OP_DUP; AddI64 2; AddOp OpNumEqual] ++ [AddOp OpIf] ++
     (two_outputs value ++ [op OP_DROP]) ++ [AddOp OpElse] ++ (one_output ++ []) ++ [AddOp OpEndIf]).
  rewrite (sem_output_branches _ _ _ _ _ (fun _ => Some (st, alt))) by done. by destruct (permission_of value).
Qed.

(** ** Deposits *)

Definition deposit_bound (d : bytes) : bool :=
  bool_decide (d = zeros 32) || bool_decide (d = vec_to_list (delegate_entry_spk_hash id)).

Lemma sem_bind_deposit d st alt conds :
  executing conds = true ->
  exec_calls bind_deposit_hash_to_covenant (conds, (d :: st, alt)) = if deposit_bound d then Some (conds, (d :: st, alt)) else None.
Proof using All.
  intros He.
  change bind_deposit_hash_to_covenant with
    ([op OP_DUP; op OP_DUP; AddData (zeros 32); op OP_EQUAL; AddOp OpNot] ++ [AddOp OpIf] ++
     [op OP_TXINPUTINDEX; op OP_INPUTCOVENANTID; AddData DELEGATE_SCRIPT_PREFIX; op OP_SWAP; op OP_CAT;
      AddData DELEGATE_SCRIPT_SUFFIX; op OP_CAT; op OP_BLAKE2B; op OP_EQUALVERIFY] ++ [AddOp OpElse] ++ [op OP_DROP] ++ [AddOp OpEndIf]).
  rewrite exec_app, exec_straight by done. sx. rewrite script_num_bool. sx.
  rewrite exec_if_else, if_cond_bool by done. cbn [mbind option_bind]. unfold deposit_bound.
  destruct (bool_decide (d = zeros 32)); cbn [orb].
  - change (1 =? 0)%Z with false. by sx.
  - change (0 =? 0)%Z with true. at_covenant.
    rewrite cat_run by (rewrite length_app, length_vec_to_list; change MAX_ELEMENT with 1000000%Z; cbn; lia). sx.
    rewrite cat_run by (rewrite !length_app, length_vec_to_list; change MAX_ELEMENT with 1000000%Z; cbn; lia). sx.
    rewrite <- app_assoc. fold (build_delegate_entry_script id). change (blake2b (build_delegate_entry_script id)) with (delegate_entry_spk_hash id).
    case_bool_decide; by sx.
Qed.

Lemma sem_append_deposit p d st alt conds :
  executing conds = true ->
  exec_calls verify_and_append_deposit_hash (conds, (p :: d :: st, alt)) =
  if deposit_bound d then if capped (p ++ d) then Some (conds, ((p ++ d) :: st, alt)) else None else None.
Proof using All.
  intros He. unfold verify_and_append_deposit_hash. rewrite exec_app, exec_straight by done. sx.
  rewrite exec_app, sem_bind_deposit by done. destruct (deposit_bound d); cbn [mbind option_bind]; [|done].
  rewrite exec_straight by done. sx_cat; cap_cases.
Qed.

Lemma sem_verify_deposit d st alt conds :
  executing conds = true ->
  exec_calls verify_deposit_hash (conds, (d :: st, alt)) = if deposit_bound d then Some (conds, (st, alt)) else None.
Proof using All.
  intros He. unfold verify_deposit_hash. rewrite exec_app, sem_bind_deposit by done.
  destruct (deposit_bound d); cbn [mbind option_bind]; [|done]. by rewrite exec_straight by done.
Qed.
End input.

(** ** Proofs *)

Context `{Groth16Consts}.

(** What the guest's receipt claims: the digest of a run of [image] that committed [journal_hash]. *)
Definition receipt_claim (image : array 32) (journal_hash : bytes) : array 32 :=
  let output := sha256 (vec_to_list OUTPUT_TAG_DIGEST ++ journal_hash ++ zeros 32 ++ [Byte.x02; Byte.x00]) in
  sha256 (vec_to_list RECEIPT_CLAIM_TAG_DIGEST ++ zeros 32 ++ vec_to_list image ++ vec_to_list POST_DIGEST ++ vec_to_list output ++
    [Byte.x00; Byte.x00; Byte.x00; Byte.x00; Byte.x00; Byte.x00; Byte.x00; Byte.x00; Byte.x04; Byte.x00]).

Definition public_inputs (claim : array 32) : list bytes :=
  [vec_to_list GROTH16_CONTROL_ROOT_A0; vec_to_list GROTH16_CONTROL_ROOT_A1;
   take 16 (vec_to_list claim) ++ zeros 16; drop 16 (vec_to_list claim) ++ zeros 16; vec_to_list GROTH16_BN254_CONTROL_ID].

(** The verdict on the rest of the stack. *)
Definition proof_ok (pins : RedeemPins) (journal_hash : bytes) (proof : list bytes) : bool :=
  match pins, proof with
  | Succinct p, [seal; control_digests; control_index; claim] =>
      r0_succinct [SUCCINCT_HASHFN] SUCCINCT_CONTROL_ID (vec_to_list (program_id p)) journal_hash seal control_digests control_index claim
  | Groth16Pins p, [compressed_proof] =>
      groth16 GROTH16_VK_COMPRESSED compressed_proof (public_inputs (receipt_claim (program_id p) journal_hash))
  | _, _ => false
  end.

Ltac short_cat := rewrite cat_run by (rewrite ?length_app, ?length_take, ?length_drop, ?length_vec_to_list; change MAX_ELEMENT with 1000000%Z; cbn; lia).

Lemma sem_receipt_claim image jh st alt :
  length jh = 32 ->
  sexec compute_receipt_claim (vec_to_list image :: jh :: st, alt) = Some (vec_to_list (receipt_claim image jh) :: st, alt).
Proof.
  intros Hl. unfold compute_receipt_claim, receipt_claim. repeat (sx; short_cat). sx. by rewrite <- !app_assoc.
Qed.

Lemma substr_run l a b : a <= b <= length l -> substr l a b = Some (take (b - a) (drop a l)).
Proof. intros [Ha Hb]. unfold substr. by rewrite !(proj2 (Nat.leb_le _ _)). Qed.

Lemma sem_split_at_mid (l : array 32) st alt :
  sexec split_at_mid (vec_to_list l :: st, alt) = Some (drop 16 (vec_to_list l) :: take 16 (vec_to_list l) :: st, alt).
Proof.
  unfold split_at_mid. sx. rewrite !length_vec_to_list. change (Z.of_nat 32) with 32%Z. sx.
  change (2 =? 0)%Z with false. sx. change (num_push (32 ÷ 2)) with (Some (num_bytes 16)). sx.
  rewrite substr_run by (rewrite length_vec_to_list; lia). sx. change (num_push (16 * 2)) with (Some (num_bytes 32)). sx.
  rewrite substr_run by (rewrite length_vec_to_list; lia). sx.
  by rewrite (take_ge (drop 16 _)) by (rewrite length_drop, length_vec_to_list; lia).
Qed.

Lemma sem_succinct p jh st alt :
  sexec (verify_risc0_succinct (program_id p)) (jh :: st, alt) =
  if proof_ok (Succinct p) jh (take 4 st) then Some (drop 4 st, alt) else None.
Proof.
  unfold verify_risc0_succinct. sx. unfold zk_precompile. rewrite bool_decide_true by done.
  destruct st as [|seal [|digests [|index [|claim st]]]]; [done..|]. sx. cbn [take drop proof_ok]. by destruct (r0_succinct _ _ _ _ _ _ _ _); sx.
Qed.

Lemma sem_groth16 p jh st alt :
  R0Succinct <> Groth16 -> length jh = 32 ->
  sexec (verify_risc0_groth16 (program_id p)) (jh :: st, alt) =
  if proof_ok (Groth16Pins p) jh (take 1 st) then Some (drop 1 st, alt) else None.
Proof.
  intros Htags Hl. unfold verify_risc0_groth16. destruct st as [|proof st]; [done|]. rewrite sexec_app. sx.
  rewrite sexec_app, sem_receipt_claim by done. sx. rewrite sexec_app. sx. rewrite sexec_app, sem_split_at_mid. sx.
  short_cat. sx. short_cat. sx.
  unfold zk_precompile. rewrite (bool_decide_false (_ = _)) by congruence. rewrite bool_decide_true by done. unfold GROTH16_PUBLIC_INPUT_COUNT.
  unfold pop_inputs. change (idx_of (num_bytes 5)) with (Some 5). sx. cbn [length take drop Nat.leb proof_ok]. sx.
  fold (public_inputs (receipt_claim (program_id p) jh)). destruct (groth16 _ _ _); by sx.
Qed.

Lemma sem_index_zero st alt :
  (Z.of_nat (tv_index tv) < 2 ^ 31)%Z ->
  sexec verify_input_index_zero (st, alt) = if bool_decide (tv_index tv = 0) then Some (st, alt) else None.
Proof.
  intros Hi. unfold verify_input_index_zero. sx. rewrite num_bytes_eq by lia.
  destruct (Z.eqb_spec (Z.of_nat (tv_index tv)) 0); [rewrite bool_decide_true by lia|rewrite bool_decide_false by lia]; by sx.
Qed.
End emitters.
