(* ===== verification/CovSettle.v ===== *)
(** * CovSettle: the spends that the settlement script accepts

    The condition under which a transaction may spend the covenant, read off the rules at the top
    of [script.rs], and the proofs that the script of [CovScript] and its development variant
    decide it. *)

From S2P Require Import Prelude Codec Types RtState ScriptEngine PermScript PermSem CovEngine CovScript CovSem.

Section settles.
Context (sha256 : bytes -> array 32) `{Blake2b, ZkPrecompiles, Groth16Consts} (accessor : SeqCommitAccessor) (tv : TxView) (input : TxIn).

(** The preimage of the journal hash. *)
Definition journal (pins : RedeemPins) (ps plt : array 32) (ns lt : bytes) (commit id : array 32) (permission deposit : bytes) : bytes :=
  journal_head pins ps plt ns lt commit id ++ permission ++ deposit ++ vec_to_list (lane_key (RedeemPins_common pins)).

(** The output at the input's index pays to the script with the new state in front. *)
Definition continues (lk : array 32) (redeem ns lt : bytes) : bool :=
  match tv_outputs tv !! tv_index tv with
  | Some out =>
      capped (next_script lk redeem ns lt) && bool_decide (p2sh_spk (next_script lk redeem ns lt) = to_spk out)
  | None => false
  end.

(** A settlement, from the stack that the signature script leaves: the block, the new state, the new
    lane tip, the deposit commitment, and the proof. *)
Definition settles (pins : RedeemPins) (ps plt : array 32) (redeem : bytes) (st : list bytes) : bool :=
  match st, in_covenant input with
  | block :: ns :: lt :: deposit :: proof, Some id =>
      match accessor block, permission_of tv id (permission_output_value (RedeemPins_common pins)) with
      | Some commit, Some permission =>
          let preimage := journal pins ps plt ns lt commit id permission deposit in
          bool_decide (tv_index tv = 0) && continues (lane_key (RedeemPins_common pins)) redeem ns lt && deposit_bound id deposit &&
          capped preimage && proof_ok sha256 pins (vec_to_list (sha256 preimage)) proof
      | _, _ => false
      end
  | _, _ => false
  end.

(** The same without a proof: the commitment of the block is claimed instead. *)
Definition dev_settles (lk : array 32) (value : Z) (redeem : bytes) (st : list bytes) : bool :=
  match st, in_covenant input with
  | [block; ns; lt; claimed; deposit], Some id =>
      match accessor block, permission_of tv id value with
      | Some commit, Some _ =>
          bool_decide (claimed = vec_to_list commit) && bool_decide (tv_index tv = 0) && continues lk redeem ns lt &&
          deposit_bound id deposit
      | _, _ => false
      end
  | _, _ => false
  end.

Context (Hview : wf_view tv) (Hin : tv_inputs tv !! tv_index tv = Some input) (Htags : R0Succinct <> Groth16).
Notation exec_calls := (exec_calls sha256 accessor tv).
Notation sexec := (sexec sha256 accessor tv).

Lemma index_small : (Z.of_nat (tv_index tv) < 2 ^ 31)%Z.
Proof using Hview Hin. apply lookup_lt_Some in Hin. pose proof (wv_inputs _ Hview). lia. Qed.

(** The end of the script, from the journal hash on. *)
Lemma exec_tail pins (jh : array 32) proof :
  accepts (exec_calls (match pins with
    | Succinct p => verify_risc0_succinct (program_id p)
    | Groth16Pins p => verify_risc0_groth16 (program_id p)
    end ++ verify_input_index_zero ++ [op OP_TRUE; op OP_FALSE; op OP_DROP]) ([], (vec_to_list jh :: proof, []))) =
  bool_decide (tv_index tv = 0) && proof_ok sha256 pins (vec_to_list jh) proof.
Proof using All.
  rewrite exec_app, exec_straight by (by destruct pins).
  assert (forall st, accepts (exec_calls (verify_input_index_zero ++ [op OP_TRUE; op OP_FALSE; op OP_DROP]) ([], (st, []))) =
    bool_decide (tv_index tv = 0) && bool_decide (st = [])) as Htail.
  { intros st. rewrite exec_app, exec_straight, sem_index_zero by (done || apply index_small).
    destruct (bool_decide (tv_index tv = 0)); cbn [mbind option_bind]; [|done].
    rewrite exec_straight by done. sx. cbn [mbind option_bind accepts]. apply final_one. }
  destruct pins as [p|p].
  - rewrite (sem_succinct sha256 accessor tv p). destruct proof as [|a [|b [|c [|d [|e proof]]]]]; cbn [take drop proof_ok]; rewrite ?andb_false_r; try done.
    + destruct (r0_succinct _ _ _ _ _ _ _ _); cbn [mbind option_bind]; [by rewrite Htail, !andb_true_r|by rewrite andb_false_r].
    + destruct (r0_succinct _ _ _ _ _ _ _ _); cbn [mbind option_bind]; [by rewrite Htail, (bool_decide_false (_ :: _ = [])), andb_false_r|done].
  - rewrite sem_groth16 by (done || apply length_vec_to_list). destruct proof as [|a [|b proof]]; cbn [take drop proof_ok]; rewrite ?andb_false_r; try done.
    + destruct (groth16 _ _ _); cbn [mbind option_bind]; [by rewrite Htail, !andb_true_r|by rewrite andb_false_r].
    + destruct (groth16 _ _ _); cbn [mbind option_bind]; [by rewrite Htail, (bool_decide_false (_ :: _ = [])), andb_false_r|done].
Qed.

Lemma bind_sexec_app p q (o : option vm_state) : o ≫= sexec (p ++ q) = (o ≫= sexec p) ≫= sexec q.
Proof using Type. destruct o; cbn [mbind option_bind]; [apply sexec_app|done]. Qed.

(** The continuation part of both scripts. *)
Lemma exec_continuation args redeem lk ns lt st alt :
  in_sig input = args ++ redeem -> 99 <= length redeem ->
  (s ← (if capped (next_pushes ns lt) then Some (next_pushes ns lt :: st, alt) else None);
   sexec (append_lane_key_to_next_prefix lk ++ extract_redeem_suffix_and_concat (Z.of_nat (length redeem)) ++
     hash_redeem_to_spk ++ verify_output_spk) s) =
  if continues lk redeem ns lt then Some (st, alt) else None.
Proof using All.
  intros Hsig Hlen. rewrite (sem_continuation_spk _ _ _ input Hview Hin args) by done. unfold continues.
  destruct (tv_outputs tv !! tv_index tv); cbn [mbind option_bind]; [|done]. by destruct (capped _).
Qed.

Definition redeem_start (ps plt : array 32) (redeem_script_len : Z) (pins : RedeemPins) : script :=
  (redeem_prefix ps plt (lane_key (RedeemPins_common pins)) ++ stash_prev_values) ++ obtain_new_seq_commitment ++ build_next_redeem_prefix ++
  (append_lane_key_to_next_prefix (lane_key (RedeemPins_common pins)) ++ extract_redeem_suffix_and_concat redeem_script_len ++
   hash_redeem_to_spk ++ verify_output_spk).

(** The script up to the journal. *)
Lemma sem_redeem_start args redeem pins ps plt st :
  in_sig input = args ++ redeem -> 99 <= length redeem ->
  sexec (redeem_start ps plt (Z.of_nat (length redeem)) pins) (st, []) =
  match st with
  | block :: ns :: lt :: st =>
      commit ← accessor block;
      if continues (lane_key (RedeemPins_common pins)) redeem ns lt
      then Some (st, [lt; ns; vec_to_list commit; vec_to_list plt; vec_to_list ps; vec_to_list (lane_key (RedeemPins_common pins))]) else None
  | _ => None
  end.
Proof using All.
  intros Hsig Hlen. unfold redeem_start. rewrite sexec_app, sem_stash. cbn [mbind option_bind]. rewrite sexec_app.
  destruct st as [|block st]; [done|]. rewrite sem_seq_commit. destruct (accessor block) as [commit|]; cbn [mbind option_bind].
  2:{ by destruct st as [|ns [|lt st]]. }
  rewrite sexec_app. destruct st as [|ns [|lt st]].
  - done.
  - unfold build_next_redeem_prefix. sx_cat; done.
  - by rewrite sem_next_prefix, (exec_continuation args).
Qed.

Lemma exec_redeem args redeem pins ps plt st :
  in_sig input = args ++ redeem -> 99 <= length redeem -> (0 <= permission_output_value (RedeemPins_common pins) < 2 ^ 63)%Z ->
  accepts (exec_calls (redeem_calls ps plt (Z.of_nat (length redeem)) pins) ([], (st, []))) = settles pins ps plt redeem st.
Proof using All.
  intros Hsig Hlen Hv.
  change (redeem_calls ps plt (Z.of_nat (length redeem)) pins) with
    (redeem_start ps plt (Z.of_nat (length redeem)) pins ++ journal_preimage pins ++ verify_outputs_and_append_perm_hash pins ++
     verify_and_append_deposit_hash ++ [op OP_FROMALTSTACK; op OP_CAT; op OP_SHA256] ++
     (match pins with
      | Succinct p => verify_risc0_succinct (program_id p)
      | Groth16Pins p => verify_risc0_groth16 (program_id p)
      end ++ verify_input_index_zero ++ [op OP_TRUE; op OP_FALSE; op OP_DROP])).
  rewrite exec_app, exec_straight, (sem_redeem_start args) by done. unfold settles.
  destruct st as [|block [|ns [|lt st]]]; [done..|]. destruct (accessor block) as [commit|]; cbn [mbind option_bind].
  2:{ destruct st, (in_covenant input); done. }
  destruct (continues _ _ _ _); cbn [mbind option_bind].
  2:{ destruct st, (in_covenant input); try done. destruct (permission_of _ _ _); by rewrite ?andb_false_r. }
  rewrite exec_app, exec_straight by done. destruct (in_covenant input) as [id|] eqn:Hid.
  2:{ unfold journal_preimage. repeat (sx_cat; rewrite ?(index_idx tv input Hview Hin), ?Hin, ?Hid); try done; by destruct st. }
  rewrite (sem_journal_head _ _ _ input Hview Hin id Hid). set (head := journal_head _ _ _ _ _ _ _).
  destruct (capped head) eqn:Hhead; cbn [mbind option_bind].
  2:{ destruct st; [done|]. destruct (permission_of _ _ _) as [permission|]; [|done]. cbv zeta.
      rewrite (capped_gt head); [by rewrite andb_false_r| |done]. unfold journal. fold head. rewrite length_app. lia. }
  rewrite exec_app, (sem_outputs _ _ _ input Hview Hin id Hid) by done.
  destruct (permission_of _ _ _) as [permission|]; cbn [mbind option_bind]; [|by destruct st].
  destruct st as [|deposit proof].
  { destruct (capped (head ++ permission)); done. }
  cbv zeta. unfold journal. fold head. rewrite (app_assoc head), (app_assoc (head ++ permission)).
  set (lk := vec_to_list (lane_key (RedeemPins_common pins))). set (preimage := ((head ++ permission) ++ deposit) ++ lk).
  destruct (capped (head ++ permission)) eqn:Hc1; cbn [mbind option_bind].
  2:{ rewrite (capped_gt (head ++ permission) preimage), andb_false_r; [done|unfold preimage; rewrite !length_app; lia|done]. }
  rewrite exec_app, (sem_append_deposit _ _ _ input Hview Hin id Hid) by done.
  destruct (deposit_bound id deposit); cbn [mbind option_bind]; [|by rewrite andb_false_r].
  destruct (capped ((head ++ permission) ++ deposit)) eqn:Hc2; cbn [mbind option_bind].
  2:{ rewrite (capped_gt ((head ++ permission) ++ deposit) preimage), andb_false_r; [done|unfold preimage; rewrite !length_app; lia|done]. }
  rewrite exec_app, exec_straight by done. sx. fold lk. rewrite cat_capped. fold preimage.
  destruct (capped preimage); sx; cbn [mbind option_bind]; [|by rewrite andb_false_r]. rewrite exec_tail. by rewrite !andb_true_r.
Qed.

(** ** The development script *)

Definition dev_start (ps plt lk : array 32) (redeem_script_len : Z) : script :=
  (redeem_prefix ps plt lk ++ stash_prev_values) ++ obtain_new_seq_commitment ++ verify_claimed_seq_commit ++
  build_next_redeem_prefix_no_stash ++
  (append_lane_key_to_next_prefix lk ++ extract_redeem_suffix_and_concat redeem_script_len ++ hash_redeem_to_spk ++ verify_output_spk) ++
  drop_stashed_prev_values.

(** The script up to the deposit. *)
Lemma sem_dev_start args redeem ps plt lk st :
  in_sig input = args ++ redeem -> 99 <= length redeem ->
  sexec (dev_start ps plt lk (Z.of_nat (length redeem))) (st, []) =
  match st with
  | block :: ns :: lt :: claimed :: st =>
      commit ← accessor block;
      if bool_decide (claimed = vec_to_list commit) && continues lk redeem ns lt then Some (st, []) else None
  | _ => None
  end.
Proof using All.
  intros Hsig Hlen. unfold dev_start. rewrite sexec_app, sem_stash. cbn [mbind option_bind]. rewrite sexec_app.
  destruct st as [|block st]; [done|]. rewrite sem_seq_commit. destruct (accessor block) as [commit|]; cbn [mbind option_bind].
  2:{ by destruct st as [|ns [|lt [|claimed st]]]. }
  rewrite sexec_app. destruct st as [|ns [|lt [|claimed st]]]; [done..|]. rewrite sem_claimed.
  destruct (bool_decide _); cbn [mbind option_bind andb]; [|done].
  rewrite sexec_app, sem_next_prefix_dev, bind_sexec_app, (exec_continuation args) by done.
  by destruct (continues lk redeem ns lt).
Qed.

(** Without a covenant the script fails, at the latest when it counts the outputs. *)
Lemma exec_dev_no_covenant d st value :
  in_covenant input = None ->
  exec_calls (verify_deposit_hash ++ verify_input_index_zero ++ verify_dev_outputs value ++ [op OP_TRUE]) ([], (d :: st, [])) = None.
Proof using All.
  intros Hid.
  change verify_deposit_hash with
    (([op OP_DUP; op OP_DUP; AddData (zeros 32); op OP_EQUAL; AddOp OpNot] ++ [AddOp OpIf] ++
     [op OP_TXINPUTINDEX; op OP_INPUTCOVENANTID; AddData DELEGATE_SCRIPT_PREFIX; op OP_SWAP; op OP_CAT;
      AddData DELEGATE_SCRIPT_SUFFIX; op OP_CAT; op OP_BLAKE2B; op OP_EQUALVERIFY] ++ [AddOp OpElse] ++ [op OP_DROP] ++ [AddOp OpEndIf]) ++ [op OP_DROP]).
  rewrite exec_app, (exec_app _ _ _ (_ ++ _)), exec_app, exec_straight by done. sx. rewrite script_num_bool. sx.
  rewrite exec_if_else, if_cond_bool by done. cbn [mbind option_bind].
  destruct (bool_decide (d = zeros 32)).
  - change (1 =? 0)%Z with false. sx. rewrite exec_straight by done. sx.
    rewrite exec_app, exec_straight, sem_index_zero by (done || apply index_small). destruct (bool_decide (tv_index tv = 0)); cbn [mbind option_bind]; [|done].
    unfold verify_dev_outputs. rewrite <- !app_assoc, exec_app, exec_straight by done. sx. rewrite (index_idx tv input Hview Hin). sx. rewrite Hin. sx. by rewrite Hid.
  - change (0 =? 0)%Z with true. sx. rewrite (index_idx tv input Hview Hin). sx. rewrite Hin. sx. by rewrite Hid.
Qed.

Lemma exec_dev_redeem args redeem lk value ps plt st :
  in_sig input = args ++ redeem -> 99 <= length redeem -> (0 <= value < 2 ^ 63)%Z ->
  accepts (exec_calls (dev_redeem_calls ps plt lk (Z.of_nat (length redeem)) value) ([], (st, []))) = dev_settles lk value redeem st.
Proof using All.
  intros Hsig Hlen Hv.
  change (dev_redeem_calls ps plt lk (Z.of_nat (length redeem)) value) with
    (dev_start ps plt lk (Z.of_nat (length redeem)) ++
     (verify_deposit_hash ++ verify_input_index_zero ++ verify_dev_outputs value ++ [op OP_TRUE])).
  rewrite exec_app, exec_straight, (sem_dev_start args) by done. unfold dev_settles.
  destruct st as [|block [|ns [|lt [|claimed st]]]]; [done..|]. destruct (accessor block) as [commit|]; cbn [mbind option_bind].
  2:{ destruct st as [|? [|]], (in_covenant input); done. }
  destruct (bool_decide (claimed = _)); cbn [mbind option_bind andb].
  2:{ destruct st as [|? [|]], (in_covenant input); try done. by destruct (permission_of _ _ _). }
  destruct (continues _ _ _ _); cbn [mbind option_bind].
  2:{ destruct st as [|? [|]], (in_covenant input); try done. destruct (permission_of _ _ _); by rewrite ?andb_false_r. }
  destruct st as [|d st]; [done|]. destruct (in_covenant input) as [id|] eqn:Hid.
  2:{ rewrite exec_dev_no_covenant by done. by destruct st. }
  rewrite exec_app, (sem_verify_deposit _ _ _ input Hview Hin id Hid) by done.
  destruct (deposit_bound id d); cbn [mbind option_bind].
  2:{ destruct st; [|done]. destruct (permission_of _ _ _); by rewrite ?andb_false_r. }
  rewrite exec_app, exec_straight, sem_index_zero by (done || apply index_small).
  destruct (bool_decide (tv_index tv = 0)); cbn [mbind option_bind].
  2:{ destruct st; [|done]. by destruct (permission_of _ _ _). }
  rewrite exec_app, (sem_dev_outputs _ _ _ input Hview Hin id Hid) by done.
  destruct (permission_of _ _ _); cbn [mbind option_bind]; [|by destruct st].
  rewrite exec_straight by done. sx. cbn [accepts]. rewrite final_one. by destruct st.
Qed.
End settles.
