(* ===== verification/CovLength.v ===== *)
(** * CovLength: the layout and the length of the settlement scripts

    The scripts embed their own length. The loop that looks for it ends after three rounds, and the
    bytes behind the 99-byte prefix are the same for every state and lane tip. *)

From S2P Require Import Prelude Codec Types RtState ScriptEngine PermScript PermSem CovEngine CovScript CovSem CovSettle.
Import PermRedeemScript.

(** ** Bounds *)

Lemma push_i64_length z : 1 <= length (push_i64 z) <= 10.
Proof.
  unfold push_i64. repeat case_match; cbn [length push_data]; try lia. pose proof (num_bytes_len z). lia.
Qed.

Lemma push_negative_three m : (129 <= m < 32768)%Z -> length (push_i64 (- m)) = 3.
Proof.
  intros Hm. destruct (Z.le_gt_cases 256 m); [apply push_negative_len; lia|].
  unfold push_i64. rewrite (proj2 (Z.eqb_neq _ 0)), (proj2 (Z.eqb_neq _ (-1))), (proj2 (Z.leb_gt 1 _)) by lia.
  cbn [andb]. unfold push_data, num_bytes. rewrite Z.abs_opp, Z.abs_eq by lia.
  cbn [magnitude]. rewrite (proj2 (Z.leb_gt m 0)), (Z.div_small m), Z.mod_small by lia. cbn [Z.leb Z.compare].
  unfold with_sign. cbn [last]. rewrite byte.unsigned_of_Z, Z.mod_small by lia. by rewrite (proj2 (Z.leb_le _ _)) by lia.
Qed.

Section length.
Context `{ScriptBuilderOk}.

Definition call_size (i : instr) : nat := match i with AddData d => length d + 5 | AddI64 _ => 10 | AddOp _ => 1 end.
Definition script_size (s : script) : nat := sum_list (call_size <$> s).

Lemma drain_bounds s : forallb fits s = true -> length s <= length (script_bytes s) <= script_size s.
Proof using Type*.
  induction s as [|i s IH]; [cbn; lia|]. intros [Hi Hs]%andb_true_iff. specialize (IH Hs).
  change (script_bytes (i :: s)) with (encode_instr i ++ script_bytes s). change (script_size (i :: s)) with (call_size i + script_size s).
  rewrite length_app. assert (1 <= length (encode_instr i) <= call_size i) as Hc; [|cbn [length]; lia].
  destruct i as [d|z|o]; cbn [encode_instr call_size fits length] in *; [apply add_data_length| |lia].
  apply andb_true_iff in Hi as [Hlo%Z.leb_le Hhi%Z.ltb_lt]. rewrite add_i64_push by lia. apply push_i64_length.
Qed.

(** A script that embeds an offset into itself between two fixed parts. *)
Lemma offset_loop (prefix pre post : script) :
  forallb fits (prefix ++ pre ++ post) = true -> 228 <= length (script_bytes prefix) + length pre + length post ->
  (Z.of_nat (script_size (prefix ++ pre ++ post)) <= 30000)%Z ->
  let build guess := script_bytes (prefix ++ pre ++ [AddI64 (- guess + REDEEM_PREFIX_LEN)] ++ post) in
  let len := Z.of_nat (length (script_bytes (prefix ++ pre ++ post)) + 3) in
  length_loop 3 build 75 = Some len /\ Z.of_nat (length (build len)) = len /\ (231 <= len <= 30003)%Z.
Proof using Type*.
  intros Hfit Hlo Hhi build len. pose proof (drain_bounds _ Hfit) as [_ Hup].
  rewrite !forallb_app, !andb_true_iff in Hfit. destruct Hfit as (Hf1 & Hf2 & Hf3).
  pose proof (drain_bounds _ Hf2) as [Hpre _]. pose proof (drain_bounds _ Hf3) as [Hpost _].
  rewrite !drain_app, !length_app in Hup. subst len. rewrite !drain_app, !length_app.
  assert (forall g, (- 2 ^ 63 <= - g + 99 < 2 ^ 63)%Z ->
    length (build g) = length (script_bytes prefix) + (length (script_bytes pre) + (length (push_i64 (- g + 99)) + length (script_bytes post)))) as Hb.
  { intros g Hg. unfold build. rewrite !drain_app, !length_app. cbn [script_bytes mbind list_bind encode_instr].
    rewrite app_nil_r. unfold REDEEM_PREFIX_LEN. by rewrite add_i64_push. }
  set (n := length (script_bytes prefix) + (length (script_bytes pre) + length (script_bytes post))) in *.
  assert (Z.of_nat (length (build 75%Z)) = Z.of_nat (n + 2)) as H75.
  { rewrite Hb by lia. change (length (push_i64 (- (75) + 99))) with 2. lia. }
  assert (forall g, (228 <= g <= 30010)%Z -> Z.of_nat (length (build g)) = Z.of_nat (n + 3)) as Hg.
  { intros g Hg. rewrite Hb by lia. replace (- g + 99)%Z with (- (g - 99))%Z by lia. rewrite push_negative_three by lia. lia. }
  split; [|split; [apply Hg; lia|lia]].
  cbn [length_loop]. rewrite H75, (proj2 (Z.eqb_neq _ _)) by lia. rewrite Hg, (proj2 (Z.eqb_neq _ _)), Hg, Z.eqb_refl by lia. done.
Qed.
End length.

(** ** The two scripts *)

Section layout.
Context `{ZkPrecompiles, Groth16Consts}.

Definition redeem_pre (lk : array 32) : script :=
  stash_prev_values ++ obtain_new_seq_commitment ++ build_next_redeem_prefix ++ append_lane_key_to_next_prefix lk ++
  [op OP_TXINPUTINDEX; op OP_TXINPUTINDEX; op OP_TXINPUTSCRIPTSIGLEN].
Definition dev_pre (lk : array 32) : script :=
  stash_prev_values ++ obtain_new_seq_commitment ++ verify_claimed_seq_commit ++ build_next_redeem_prefix_no_stash ++
  append_lane_key_to_next_prefix lk ++ [op OP_TXINPUTINDEX; op OP_TXINPUTINDEX; op OP_TXINPUTSCRIPTSIGLEN].
Definition suffix_rest : script :=
  [op OP_ADD; op OP_TXINPUTINDEX; op OP_TXINPUTSCRIPTSIGLEN; op OP_TXINPUTSCRIPTSIGSUBSTR; op OP_CAT] ++ hash_redeem_to_spk ++ verify_output_spk.
Definition redeem_post (pins : RedeemPins) : script :=
  suffix_rest ++ build_and_hash_journal pins ++
  match pins with
  | Succinct p => verify_risc0_succinct (program_id p)
  | Groth16Pins p => verify_risc0_groth16 (program_id p)
  end ++ verify_input_index_zero ++ [op OP_TRUE; op OP_FALSE; op OP_DROP].
Definition dev_post (value : Z) : script :=
  suffix_rest ++ drop_stashed_prev_values ++ verify_deposit_hash ++ verify_input_index_zero ++ verify_dev_outputs value ++ [op OP_TRUE].

Lemma redeem_calls_parts ps plt len pins :
  redeem_calls ps plt len pins =
  redeem_prefix ps plt (lane_key (RedeemPins_common pins)) ++ redeem_pre (lane_key (RedeemPins_common pins)) ++ [AddI64 (- len + REDEEM_PREFIX_LEN)] ++ redeem_post pins.
Proof using Type. reflexivity. Qed.
Lemma dev_calls_parts ps plt lk len value :
  dev_redeem_calls ps plt lk len value =
  redeem_prefix ps plt lk ++ dev_pre lk ++ [AddI64 (- len + REDEEM_PREFIX_LEN)] ++ dev_post value.
Proof using Type. reflexivity. Qed.

Lemma fits_array {n} (a : array n) : n <= 1000 -> fits (AddData (vec_to_list a)) = true.
Proof using Type. intros Hn. cbn [fits]. rewrite length_vec_to_list. change MAX_ELEMENT with 1000000%Z. apply Z.leb_le. lia. Qed.
Lemma fits_value v : (0 <= v < 2 ^ 64)%Z -> fits (AddI64 (as_i64 v)) = true.
Proof using Type.
  intros Hv. cbn [fits]. unfold as_i64. apply andb_true_iff. rewrite Z.leb_le, Z.ltb_lt. destruct (Z.ltb_spec v (2 ^ 63)); lia.
Qed.

(** Values and keys that the calls take. *)
Definition wf_pins (pins : RedeemPins) : Prop :=
  (0 <= permission_output_value (RedeemPins_common pins) < 2 ^ 64)%Z /\ (Z.of_nat (length GROTH16_VK_COMPRESSED) <= 20000)%Z.

Lemma fits_vk pins : wf_pins pins -> fits (AddData GROTH16_VK_COMPRESSED) = true.
Proof using Type. intros [_ Hk]. cbn [fits]. change MAX_ELEMENT with 1000000%Z. apply Z.leb_le. lia. Qed.

(** Evaluates the check of every call of a script. *)
Ltac solve_fits :=
  lazy -[fits vec_to_list lane_key tx_image_id batch_image_id program_id as_i64 permission_output_value
    OUTPUT_TAG_DIGEST RECEIPT_CLAIM_TAG_DIGEST POST_DIGEST GROTH16_BN254_CONTROL_ID GROTH16_CONTROL_ROOT_A0 GROTH16_CONTROL_ROOT_A1
    GROTH16_VK_COMPRESSED R0Succinct Groth16 le_split];
  rewrite ?fits_array by lia; rewrite ?fits_value by lia.

Lemma redeem_fits ps plt pins :
  wf_pins pins -> forallb fits (redeem_prefix ps plt (lane_key (RedeemPins_common pins)) ++ redeem_pre (lane_key (RedeemPins_common pins)) ++ redeem_post pins) = true.
Proof using Type.
  intros Hp. pose proof (fits_vk _ Hp) as Hk. destruct Hp as [Hv _]. destruct pins as [p|p]; cbn [RedeemPins_common] in *; solve_fits; rewrite ?Hk; reflexivity.
Qed.

Lemma dev_fits ps plt lk value :
  (0 <= value < 2 ^ 64)%Z -> forallb fits (redeem_prefix ps plt lk ++ dev_pre lk ++ dev_post value) = true.
Proof using Type. intros Hv. solve_fits. reflexivity. Qed.

Ltac solve_size :=
  unfold script_size;
  lazy -[spk_header vec_to_list lane_key tx_image_id batch_image_id program_id as_i64 permission_output_value length Nat.add Z.of_nat Z.le
    OUTPUT_TAG_DIGEST RECEIPT_CLAIM_TAG_DIGEST POST_DIGEST GROTH16_BN254_CONTROL_ID GROTH16_CONTROL_ROOT_A0 GROTH16_CONTROL_ROOT_A1
    GROTH16_VK_COMPRESSED R0Succinct Groth16 le_split];
  rewrite ?length_vec_to_list; change (length spk_header) with 4; cbn [length]; lia.

Lemma redeem_size ps plt pins :
  wf_pins pins ->
  (Z.of_nat (script_size (redeem_prefix ps plt (lane_key (RedeemPins_common pins)) ++ redeem_pre (lane_key (RedeemPins_common pins)) ++ redeem_post pins)) <= 30000)%Z.
Proof using Type.
  intros [_ Hk]. lazy -[length GROTH16_VK_COMPRESSED Z.of_nat Z.le] in Hk. destruct pins as [p|p]; cbn [RedeemPins_common]; solve_size.
Qed.

Lemma redeem_size_small ps plt pins :
  (Z.of_nat (length GROTH16_VK_COMPRESSED) <= 5000)%Z ->
  (Z.of_nat (script_size (redeem_prefix ps plt (lane_key (RedeemPins_common pins)) ++ redeem_pre (lane_key (RedeemPins_common pins)) ++ redeem_post pins)) <= 9990)%Z.
Proof using Type.
  intros Hk. lazy -[length GROTH16_VK_COMPRESSED Z.of_nat Z.le] in Hk. destruct pins as [p|p]; cbn [RedeemPins_common]; solve_size.
Qed.

Lemma dev_size ps plt lk value : (Z.of_nat (script_size (redeem_prefix ps plt lk ++ dev_pre lk ++ dev_post value)) <= 30000)%Z.
Proof using Type. solve_size. Qed.

(** ** Results *)

Context `{ScriptBuilderOk}.

Lemma drain_prefix ps plt lk :
  script_bytes (redeem_prefix ps plt lk) =
  OpData32 :: vec_to_list plt ++ OpData32 :: vec_to_list ps ++ OpData32 :: vec_to_list lk.
Proof using Type*.
  unfold redeem_prefix. cbn [script_bytes mbind list_bind encode_instr]. rewrite !add_data_32, app_nil_r by apply length_vec_to_list. done.
Qed.

Lemma drain_prefix_length ps plt lk : length (script_bytes (redeem_prefix ps plt lk)) = 99.
Proof using Type*. rewrite drain_prefix. cbn [length]. rewrite length_app. cbn [length]. rewrite length_app. cbn [length]. by rewrite !length_vec_to_list. Qed.

(** The bytes behind the prefix. *)
Definition redeem_suffix (len : Z) (pins : RedeemPins) : bytes :=
  script_bytes (redeem_pre (lane_key (RedeemPins_common pins)) ++ [AddI64 (- len + REDEEM_PREFIX_LEN)] ++ redeem_post pins).
Definition dev_suffix (len : Z) (lk : array 32) (value : Z) : bytes :=
  script_bytes (dev_pre lk ++ [AddI64 (- len + REDEEM_PREFIX_LEN)] ++ dev_post value).

Lemma redeem_layout ps plt len pins :
  build_redeem_script ps plt len pins = script_bytes (redeem_prefix ps plt (lane_key (RedeemPins_common pins))) ++ redeem_suffix len pins.
Proof using Type. unfold build_redeem_script. by rewrite redeem_calls_parts, drain_app. Qed.
Lemma dev_layout ps plt lk len value :
  build_dev_redeem_script ps plt lk len value = script_bytes (redeem_prefix ps plt lk) ++ dev_suffix len lk value.
Proof using Type. unfold build_dev_redeem_script. by rewrite dev_calls_parts, drain_app. Qed.

(** The script that the next output must pay to, when the new state and tip are 32 bytes. *)
Lemma next_script_redeem ps plt len pins (ns lt : array 32) :
  next_script (lane_key (RedeemPins_common pins)) (build_redeem_script ps plt len pins) (vec_to_list ns) (vec_to_list lt) =
  build_redeem_script ns lt len pins.
Proof using Type*.
  unfold next_script. rewrite !redeem_layout, drop_app_length' by (by rewrite drain_prefix_length). rewrite drain_prefix.
  unfold next_pushes. cbn [app]. rewrite <- !app_assoc. cbn [app]. by rewrite <- !app_assoc.
Qed.
Lemma next_script_dev ps plt lk len value (ns lt : array 32) :
  next_script lk (build_dev_redeem_script ps plt lk len value) (vec_to_list ns) (vec_to_list lt) =
  build_dev_redeem_script ns lt lk len value.
Proof using Type*.
  unfold next_script. rewrite !dev_layout, drop_app_length' by (by rewrite drain_prefix_length). rewrite drain_prefix.
  unfold next_pushes. cbn [app]. rewrite <- !app_assoc. cbn [app]. by rewrite <- !app_assoc.
Qed.

(** The length that the loop finds. *)
Definition redeem_len (pins : RedeemPins) : Z :=
  Z.of_nat (99 + length (script_bytes (redeem_pre (lane_key (RedeemPins_common pins)) ++ redeem_post pins)) + 3).
Definition dev_len (lk : array 32) (value : Z) : Z := Z.of_nat (99 + length (script_bytes (dev_pre lk ++ dev_post value)) + 3).

Lemma redeem_len_found ps plt pins :
  wf_pins pins ->
  length_loop 3 (fun guess => build_redeem_script ps plt guess pins) 75 = Some (redeem_len pins) /\
  Z.of_nat (length (build_redeem_script ps plt (redeem_len pins) pins)) = redeem_len pins /\ (231 <= redeem_len pins <= 30003)%Z.
Proof using Type*.
  intros Hp. pose proof (offset_loop (redeem_prefix ps plt (lane_key (RedeemPins_common pins))) (redeem_pre (lane_key (RedeemPins_common pins))) (redeem_post pins)
    (redeem_fits ps plt pins Hp)) as Hl. rewrite drain_prefix_length in Hl. specialize (Hl ltac:(destruct pins; cbn; lia) (redeem_size ps plt pins Hp)).
  rewrite drain_app, length_app, drain_prefix_length in Hl. exact Hl.
Qed.
Lemma dev_len_found ps plt lk value :
  (0 <= value < 2 ^ 64)%Z ->
  length_loop 3 (fun guess => build_dev_redeem_script ps plt lk guess value) 75 = Some (dev_len lk value) /\
  Z.of_nat (length (build_dev_redeem_script ps plt lk (dev_len lk value) value)) = dev_len lk value /\ (231 <= dev_len lk value <= 30003)%Z.
Proof using Type*.
  intros Hv. pose proof (offset_loop (redeem_prefix ps plt lk) (dev_pre lk) (dev_post value) (dev_fits ps plt lk value Hv)) as Hl.
  rewrite drain_prefix_length in Hl. specialize (Hl ltac:(cbn; lia) (dev_size ps plt lk value)).
  rewrite drain_app, length_app, drain_prefix_length in Hl. exact Hl.
Qed.

Lemma length_loop_fuel build guess n len fuel : length_loop n build guess = Some len -> n <= fuel -> length_loop fuel build guess = Some len.
Proof using Type.
  revert guess fuel. induction n as [|n IH]; intros guess [|fuel]; cbn [length_loop]; [done..|lia|].
  destruct (_ =? _)%Z; [done|]. intros Hl Hf. apply IH; [done|lia].
Qed.

Lemma redeem_script_len_found fuel ps pins len :
  wf_pins pins -> redeem_script_len fuel ps pins = Some len -> len = redeem_len pins.
Proof using Type*.
  intros Hp Hl. destruct (redeem_len_found ps Hash_default pins Hp) as (Hthree & _).
  apply (length_loop_fuel _ _ _ _ (fuel + 3)) in Hthree; [|lia]. apply (length_loop_fuel _ _ _ _ (fuel + 3)) in Hl; [|lia]. congruence.
Qed.

(** With a verifying key of up to 5000 bytes the script stays below the 10 KB that the builder takes
    without covenants. *)
Lemma redeem_below_cap pins :
  wf_pins pins -> (Z.of_nat (length GROTH16_VK_COMPRESSED) <= 5000)%Z -> (redeem_len pins < 10000)%Z.
Proof using Type*.
  intros Hp Hk. pose proof (redeem_size_small Hash_default Hash_default pins Hk). pose proof (drain_bounds _ (redeem_fits Hash_default Hash_default pins Hp)) as [_ Hb].
  rewrite drain_app, length_app, drain_prefix_length in Hb. unfold redeem_len. lia.
Qed.

Lemma build_length ps plt pins : wf_pins pins -> Z.of_nat (length (build_redeem_script ps plt (redeem_len pins) pins)) = redeem_len pins.
Proof using Type*. intros Hp. by destruct (redeem_len_found ps plt pins Hp) as (_ & Hl & _). Qed.
End layout.
