(* ===== verification/CovBuild.v ===== *)
(** * CovBuild: the transactions of the covenant

    [settlement.rs] and [bootstrap.rs] of [zk/backend/risc0/covenant]: the transaction that creates
    the covenant output and those that move it on, with their signature scripts. *)

From S2P Require Import Prelude Codec Types RtState ScriptEngine PermScript PermSem CovEngine CovScript.

(** ** Transactions

    The types of [kaspa_consensus_core], as far as the builders fill them. *)

Record TransactionOutpoint := { transaction_id : array 32; outpoint_index : Z }.
Record TransactionInput := { previous_outpoint : TransactionOutpoint; signature_script : bytes; sequence : Z; sig_op_count : Z }.
Record ScriptPublicKey := { spk_version : Z; spk_script : bytes }.
Record CovenantBinding := { authorizing_input : Z; binding_id : array 32 }.
Record TransactionOutput := { tx_value : Z; script_public_key : ScriptPublicKey; covenant : option CovenantBinding }.
Record KaspaTransaction := {
  version : Z;
  tx_inputs : list TransactionInput;
  tx_outputs : list TransactionOutput;
  lock_time : Z;
  subnetwork_id : bytes;
  gas : Z;
  payload : bytes
}.

(** The functions and constants of the Kaspa crates that the builders use. *)
Class Kaspa := {
  TX_VERSION_TOCCATA : Z;
  SUBNETWORK_ID_NATIVE : bytes;
  pay_to_script_hash_script : bytes -> ScriptPublicKey;
  genesis_covenant_id : TransactionOutpoint -> list (Z * TransactionOutput) -> array 32
}.

(** ** settlement_input.rs, settlement_witness.rs, succinct_witness.rs, settlement_dev_input.rs *)

Record SuccinctWitness := {
  seal : bytes;
  claim : array 32;
  control_index : Z;
  control_digests : bytes;
  sw_deposit_spk_hash : array 32
}.
Inductive SettlementWitness :=
| SuccinctW (w : SuccinctWitness)
| Groth16W (compressed_proof : bytes) (deposit_spk_hash : array 32).

Record SettlementInput := {
  si_covenant_id : array 32;
  si_pins : RedeemPins;
  si_prev_state : array 32;
  si_prev_lane_tip : array 32;
  si_new_state : array 32;
  si_new_lane_tip : array 32;
  si_block_prove_to : array 32;
  si_prev_outpoint : TransactionOutpoint;
  si_value : Z;
  si_witness : SettlementWitness;
  si_permission_spk_hash : array 32
}.

Record SettlementDevInput := {
  sd_deposit_spk_hash : array 32;
  sd_covenant_id : array 32;
  sd_prev_state : array 32;
  sd_prev_lane_tip : array 32;
  sd_lane_key : array 32;
  sd_new_state : array 32;
  sd_new_lane_tip : array 32;
  sd_block_prove_to : array 32;
  sd_claimed_seq_commit : array 32;
  sd_prev_outpoint : TransactionOutpoint;
  sd_value : Z;
  sd_permission_spk_hash : array 32;
  sd_permission_output_value : Z
}.

Section builders.
Context `{ZkPrecompiles, Groth16Consts, ScriptBuilder, Kaspa}.

(** ** settlement.rs *)

Record Settlement := { transaction : KaspaTransaction; prev_redeem : bytes; next_redeem : bytes }.

Definition permission_spk (script_hash : array 32) : ScriptPublicKey := {|
  spk_version := MAX_SCRIPT_PUBLIC_KEY_VERSION;
  spk_script := [OP_BLAKE2B; OpData32] ++ vec_to_list script_hash ++ [OP_EQUAL]
|}.

(** The elements that the signature scripts push, first to last. *)
Definition succinct_pushes (block_prove_to new_state new_lane_tip : array 32) (w : SuccinctWitness) : list bytes :=
  [vec_to_list (claim w); vec_to_list (le_split 4 (control_index w)); control_digests w; seal w;
   vec_to_list (sw_deposit_spk_hash w); vec_to_list new_lane_tip; vec_to_list new_state; vec_to_list block_prove_to].
Definition groth16_pushes (block_prove_to new_state new_lane_tip : array 32) (compressed_proof : bytes) (deposit_spk_hash : array 32) : list bytes :=
  [compressed_proof; vec_to_list deposit_spk_hash; vec_to_list new_lane_tip; vec_to_list new_state; vec_to_list block_prove_to].
Definition dev_pushes (i : SettlementDevInput) : list bytes :=
  [vec_to_list (sd_deposit_spk_hash i); vec_to_list (sd_claimed_seq_commit i); vec_to_list (sd_new_lane_tip i);
   vec_to_list (sd_new_state i); vec_to_list (sd_block_prove_to i)].

(** The calls of a builder with covenants enabled, each unwrapped: an element or a script past the
    caps is a panic. *)
Fixpoint add_pushes (built : bytes) (ds : list bytes) : outcome Empty_set bytes :=
  match ds with
  | [] => Ok built
  | d :: ds =>
      if fits (AddData d) && (Z.of_nat (length (built ++ add_data d)) <=? max_script_size)%Z then add_pushes (built ++ add_data d) ds
      else Panic
  end.

Definition sig_script_succinct (redeem : bytes) (block_prove_to new_state new_lane_tip : array 32) (w : SuccinctWitness) : outcome Empty_set bytes :=
  add_pushes [] (succinct_pushes block_prove_to new_state new_lane_tip w ++ [redeem]).
Definition sig_script_groth16 (redeem : bytes) (block_prove_to new_state new_lane_tip : array 32) (compressed_proof : bytes)
    (deposit_spk_hash : array 32) : outcome Empty_set bytes :=
  add_pushes [] (groth16_pushes block_prove_to new_state new_lane_tip compressed_proof deposit_spk_hash ++ [redeem]).
Definition sig_script_dev (redeem : bytes) (i : SettlementDevInput) : outcome Empty_set bytes := add_pushes [] (dev_pushes i ++ [redeem]).

(** The outputs: the continuation, and the permission output when there are exits. *)
Definition settlement_outputs (amount permission_value : Z) (next_redeem : bytes) (covenant_id permission_spk_hash : array 32) :
    list TransactionOutput :=
  let binding := Some {| authorizing_input := 0; binding_id := covenant_id |} in
  let continuation := {| tx_value := amount; script_public_key := pay_to_script_hash_script next_redeem; covenant := binding |} in
  if bool_decide (permission_spk_hash = vreplicate 32 Byte.x00) then [continuation]
  else [continuation;
        {| tx_value := permission_value; script_public_key := permission_spk permission_spk_hash; covenant := binding |}].

Definition covenant_transaction (outpoint : TransactionOutpoint) (sig : bytes) (outs : list TransactionOutput) : KaspaTransaction := {|
  version := TX_VERSION_TOCCATA;
  tx_inputs := [{| previous_outpoint := outpoint; signature_script := sig; sequence := 0; sig_op_count := 1 |}];
  tx_outputs := outs;
  lock_time := 0;
  subnetwork_id := SUBNETWORK_ID_NATIVE;
  gas := 0;
  payload := []
|}.

(** No result when the search for the length does not end within [fuel] rounds; a panic when the
    witness is not for the proof system of the pins, or the signature script is too long. *)
Definition Settlement_build (fuel : nat) (i : SettlementInput) : option (outcome Empty_set Settlement) :=
  redeem_len ← redeem_script_len fuel (si_prev_state i) (si_pins i);
  let prev_redeem := build_redeem_script (si_prev_state i) (si_prev_lane_tip i) redeem_len (si_pins i) in
  let next_redeem := build_redeem_script (si_new_state i) (si_new_lane_tip i) redeem_len (si_pins i) in
  Some (
    sig ← match si_pins i, si_witness i with
      | Succinct _, SuccinctW w => sig_script_succinct prev_redeem (si_block_prove_to i) (si_new_state i) (si_new_lane_tip i) w
      | Groth16Pins _, Groth16W proof deposit =>
          sig_script_groth16 prev_redeem (si_block_prove_to i) (si_new_state i) (si_new_lane_tip i) proof deposit
      | _, _ => Panic
      end;
    let outs := settlement_outputs (si_value i) (permission_output_value (RedeemPins_common (si_pins i))) next_redeem (si_covenant_id i)
                  (si_permission_spk_hash i) in
    Ok {| transaction := covenant_transaction (si_prev_outpoint i) sig outs; prev_redeem := prev_redeem; next_redeem := next_redeem |}).

Definition Settlement_build_dev (fuel : nat) (i : SettlementDevInput) : option (outcome Empty_set Settlement) :=
  redeem_len ← dev_redeem_script_len fuel (sd_prev_state i) (sd_lane_key i) (sd_permission_output_value i);
  let prev_redeem := build_dev_redeem_script (sd_prev_state i) (sd_prev_lane_tip i) (sd_lane_key i) redeem_len (sd_permission_output_value i) in
  let next_redeem := build_dev_redeem_script (sd_new_state i) (sd_new_lane_tip i) (sd_lane_key i) redeem_len (sd_permission_output_value i) in
  let outs := settlement_outputs (sd_value i) (sd_permission_output_value i) next_redeem (sd_covenant_id i) (sd_permission_spk_hash i) in
  Some (
    sig ← sig_script_dev prev_redeem i;
    Ok {| transaction := covenant_transaction (sd_prev_outpoint i) sig outs; prev_redeem := prev_redeem; next_redeem := next_redeem |}).

(** ** bootstrap.rs *)

Record BootstrapInput := {
  bi_pins : RedeemPins;
  bi_initial_state : array 32;
  bi_initial_lane_tip : array 32;
  bi_funding_outpoint : TransactionOutpoint;
  bi_value : Z
}.
Record Bootstrap := { bs_transaction : KaspaTransaction; bs_covenant_id : array 32; bs_initial_redeem : bytes }.

Definition Bootstrap_build (fuel : nat) (i : BootstrapInput) : option Bootstrap :=
  redeem_len ← redeem_script_len fuel (bi_initial_state i) (bi_pins i);
  let initial_redeem := build_redeem_script (bi_initial_state i) (bi_initial_lane_tip i) redeem_len (bi_pins i) in
  let spk := pay_to_script_hash_script initial_redeem in
  let provisional := {| tx_value := bi_value i; script_public_key := spk; covenant := None |} in
  let id := genesis_covenant_id (bi_funding_outpoint i) [(0%Z, provisional)] in
  let out := {| tx_value := bi_value i; script_public_key := spk; covenant := Some {| authorizing_input := 0; binding_id := id |} |} in
  Some {| bs_transaction := covenant_transaction (bi_funding_outpoint i) [] [out]; bs_covenant_id := id; bs_initial_redeem := initial_redeem |}.
End builders.

(** ** What a script sees of a transaction *)

(** [ScriptPublicKey::to_bytes]: the version in big endian, then the script. *)
Definition to_bytes (spk : ScriptPublicKey) : bytes := u16_to_be_bytes (spk_version spk) ++ spk_script spk.

Record UtxoEntry := { utxo_amount : Z; utxo_spk : ScriptPublicKey; utxo_covenant : option (array 32) }.

Definition view_in (i : TransactionInput) (u : UtxoEntry) : TxIn :=
  {| in_amount := utxo_amount u; in_spk := to_bytes (utxo_spk u); in_covenant := utxo_covenant u; in_sig := signature_script i |}.
Definition view_out (o : TransactionOutput) : TxOut :=
  {| to_amount := tx_value o; to_spk := to_bytes (script_public_key o); to_covenant := binding_id <$> covenant o |}.

(** A transaction with the outputs its inputs spend, seen from the input at [i]. *)
Definition tx_view (tx : KaspaTransaction) (utxos : list UtxoEntry) (i : nat) : TxView :=
  {| tv_index := i; tv_inputs := zip_with view_in (tx_inputs tx) utxos; tv_outputs := view_out <$> tx_outputs tx |}.

(** The functions of the Kaspa crates: the script public key of a redeem script is laid out as
    [permission_spk] says. *)
Class KaspaOk `{Blake2b, Kaspa} : Prop := {
  p2sh_layout redeem : pay_to_script_hash_script redeem = permission_spk (blake2b_script_hash redeem)
}.
