(* ===== verification/CovInterp.v ===== *)
(** * CovInterp: an engine that satisfies the laws of [CovEngine]

    A builder with fixed opcodes and an interpreter of its scripts, for any proof systems with
    different tags. The witnesses of the covenant's theorems run on it. *)

From S2P Require Import Prelude Codec Types RtState ScriptEngine PermScript PermSem CovEngine.
Import PermRedeemScript.

Definition op_bytes : list (opcode * byte) :=
  [(OpIf, OP_IF); (OpElse, OP_ELSE); (OpEndIf, OP_ENDIF); (OpNot, Byte.x91); (OpNumEqual, Byte.x9c); (OpSize, Byte.x82);
   (OpSubstr, Byte.x7f); (OpMul, Byte.x95); (OpDiv, Byte.x96); (Op2Dup, Byte.x6e); (OpTxOutputSpkSubstr, Byte.xc5);
   (OpChainblockSeqCommit, Byte.xd4); (OpZkPrecompile, Byte.xa6)].

#[local] Instance opcode_eq_dec : EqDecision opcode.
Proof. solve_decision. Defined.

Definition small_data (d : bytes) : bool := (1 <=? length d) && (length d <=? 75).

(** Long data with four bytes of length. *)
Definition toy_builder : ScriptBuilder := {|
  max_script_size := 1000000;
  add_data d := if small_data d then push_data d else Byte.x4e :: vec_to_list (le_split 4 (Z.of_nat (length d))) ++ d;
  add_i64 := push_i64;
  op_byte o := match list_find (fun p => p.1 = o) op_bytes with Some (_, (_, b)) => b | None => Byte.xff end
|}.
#[local] Existing Instance toy_builder.

Lemma toy_builder_ok : ScriptBuilderOk.
Proof.
  constructor.
  - intros d Hd. cbn. unfold small_data. rewrite Hd. unfold push_data. by rewrite Hd.
  - intros d Hd. cbn [add_data toy_builder]. unfold small_data. rewrite (proj2 (Nat.leb_gt (length d) 75)) by lia.
    rewrite andb_false_r. eexists (_ :: _). reflexivity.
  - done.
  - intros d. cbn [add_data toy_builder]. destruct (small_data d); [cbn; lia|]. cbn [length]. rewrite length_app, length_vec_to_list. lia.
  - done.
Qed.

(** ** Decoding *)

Definition opcode_of (b : byte) : option opcode :=
  match list_find (fun p => p.2 = b) op_bytes with
  | Some (_, (o, _)) => Some o
  | None => if known_op b then Some (Base b) else None
  end.

Definition decode_call (l : bytes) : option (instr * bytes) :=
  match l with
  | [] => None
  | b :: rest =>
      let n := Z.to_nat (byte.unsigned b) in
      if (1 <=? n) && (n <=? 75) then if length rest <? n then None else Some (AddData (take n rest), drop n rest)
      else if bool_decide (b = Byte.x4e) then
        let n := Z.to_nat (le_combine (take 4 rest)) in
        if length rest <? 4 + n then None else Some (AddData (take n (drop 4 rest)), drop n (drop 4 rest))
      else o ← opcode_of b; Some (AddOp o, rest)
  end.

Lemma decode_data d rest : fits (AddData d) = true -> decode_call (add_data d ++ rest) = Some (AddData d, rest).
Proof.
  cbn [fits]. intros Hd%Z.leb_le. change MAX_ELEMENT with 1000000%Z in Hd. cbn [add_data toy_builder].
  destruct (small_data d) eqn:Hs.
  - unfold small_data in Hs. apply andb_true_iff in Hs as [Hlo%Nat.leb_le Hhi%Nat.leb_le]. unfold push_data. cbn [app decode_call].
    rewrite byte.unsigned_of_Z, Z.mod_small, Nat2Z.id by lia.
    rewrite (proj2 (Nat.leb_le 1 _)), (proj2 (Nat.leb_le _ 75)), (proj2 (Nat.ltb_ge _ _)) by (rewrite ?length_app; lia). cbn [andb].
    by rewrite take_app_length, drop_app_length.
  - cbn [app decode_call]. change (Z.to_nat (byte.unsigned Byte.x4e)) with 78. cbn [Nat.leb andb]. rewrite bool_decide_true by done.
    rewrite <- !app_assoc. rewrite (take_app_length' (vec_to_list _)), (drop_app_length' (vec_to_list _)) by (by rewrite length_vec_to_list).
    rewrite le_combine_split_small, Nat2Z.id by lia.
    rewrite (proj2 (Nat.ltb_ge _ _)) by (rewrite !length_app, length_vec_to_list; lia). by rewrite take_app_length, drop_app_length.
Qed.

Section interpreter.
Context (sha256 : bytes -> array 32) `{Blake2b, ZkPrecompiles} (tags : R0Succinct <> Groth16).

(** A decoded call, up to calls with the same effect. *)
Definition same_call (i j : instr) : Prop := forall accessor tv v, call_step sha256 accessor tv i v = call_step sha256 accessor tv j v.

Lemma decode_op o rest : fits (AddOp o) = true -> decode_call ([op_code o] ++ rest) = Some (AddOp o, rest).
Proof using Type. destruct o as [b| | | | | | | | | | | | |]; [|reflexivity..]. cbn [fits]. intros Hb. destruct b; try discriminate Hb; reflexivity. Qed.

Lemma num_bytes_nonempty z : z <> 0%Z -> 1 <= length (num_bytes z).
Proof using Type.
  intros Hz. unfold num_bytes. cbn [magnitude]. rewrite (proj2 (Z.leb_gt _ _)) by lia. unfold with_sign.
  repeat case_match; rewrite ?length_app; cbn [length]; lia.
Qed.

Lemma decode_i64 z rest :
  fits (AddI64 z) = true -> exists i, decode_call (push_i64 z ++ rest) = Some (i, rest) /\ same_call i (AddI64 z).
Proof using Type.
  intros _. unfold push_i64. destruct (Z.eqb_spec z 0) as [->|H0z].
  { exists (AddOp (Base Byte.x00)). split; [reflexivity|]. intros accessor tv [conds [st alt]]. cbn. by destruct (executing conds). }
  destruct (Z.eqb_spec z (-1)) as [->|H1z].
  { exists (AddOp (Base Byte.x4f)). split; [reflexivity|]. intros accessor tv [conds [st alt]]. cbn. by destruct (executing conds). }
  destruct (Z.leb_spec 1 z), (Z.leb_spec z 16); cbn [andb].
  { exists (AddOp (Base (byte.of_Z (80 + z)))). pose proof (small_push z ltac:(lia)) as Hs. split.
    - apply (decode_op (Base (byte.of_Z (80 + z)))). cbn [fits]. unfold known_op. by rewrite Hs.
    - intros accessor tv [conds [st alt]]. cbn [call_step op_outcome]. destruct (executing conds); [|done]. unfold op_effect. by rewrite Hs. }
  all: exists (AddData (num_bytes z)); split;
    [|intros accessor tv [conds [st alt]]; reflexivity];
    pose proof (num_bytes_nonempty z ltac:(lia)); pose proof (num_bytes_len z);
    rewrite <- (decode_data (num_bytes z)); [|cbn [fits]; apply Z.leb_le; change MAX_ELEMENT with 1000000%Z; lia];
    cbn [add_data toy_builder]; unfold small_data; rewrite !(proj2 (Nat.leb_le _ _)) by lia; reflexivity.
Qed.

Lemma decode_call_encode i rest :
  fits i = true -> exists j, decode_call (encode_instr i ++ rest) = Some (j, rest) /\ same_call j i.
Proof using Type.
  destruct i as [d|z|o]; cbn [encode_instr]; intros Hi.
  - exists (AddData d). split; [by apply decode_data|done].
  - by apply decode_i64.
  - exists (AddOp o). split; [by apply decode_op|done].
Qed.

Lemma decode_shorter l i rest : decode_call l = Some (i, rest) -> length rest < length l.
Proof using Type.
  destruct l as [|b l]; cbn [decode_call length]; [done|]. destruct (_ && _).
  { destruct (_ <? _); [done|]. intros [= _ <-]. rewrite length_drop. lia. }
  destruct (bool_decide _).
  { destruct (_ <? _); [done|]. intros [= _ <-]. rewrite !length_drop. lia. }
  destruct (opcode_of b); intros [= _ <-]. lia.
Qed.

(** ** Running *)

Fixpoint interpret (fuel : nat) (accessor : SeqCommitAccessor) (tv : TxView) (l : bytes) (v : vm) : bool :=
  match fuel, l with
  | _, [] => accepts (Some v)
  | O, _ => false
  | S fuel, _ =>
      match decode_call l with
      | Some (i, rest) => match call_step sha256 accessor tv i v with Some v => interpret fuel accessor tv rest v | None => false end
      | None => false
      end
  end.

Lemma interpret_fuel accessor tv f1 : forall f2 l v,
  length l <= f1 -> length l <= f2 -> interpret f1 accessor tv l v = interpret f2 accessor tv l v.
Proof using Type.
  induction f1 as [|f1 IH]; intros [|f2] [|b l] v H1 H2; cbn [length] in *; try lia; try done.
  cbn [interpret]. destruct (decode_call (b :: l)) as [[i rest]|] eqn:Hd; [|done]. apply decode_shorter in Hd. cbn [length] in Hd.
  destruct (call_step sha256 accessor tv i v); [|done]. apply IH; lia.
Qed.

(** The data that a script of pushes leaves, in order. *)
Fixpoint parse_pushes (fuel : nat) (l : bytes) : option (list bytes) :=
  match fuel, l with
  | _, [] => Some []
  | O, _ => None
  | S fuel, _ => match decode_call l with Some (AddData d, rest) => ds ← parse_pushes fuel rest; Some (d :: ds) | _ => None end
  end.

Definition toy_engine : TxScriptEngine := {|
  run accessor tv l v := interpret (length l) accessor tv l v;
  verify_input accessor tv :=
    match tv_inputs tv !! tv_index tv with
    | Some input =>
        match @rev bytes <$> parse_pushes (length (in_sig input)) (in_sig input) with
        | Some (redeem :: st) =>
            bool_decide (in_spk input = p2sh_spk redeem) && interpret (length redeem) accessor tv redeem ([], (st, []))
        | _ => false
        end
    | None => false
    end
|}.
#[local] Existing Instance toy_engine.

Lemma pushes_add_data ds : forall fuel, forallb (fun d => fits (AddData d)) ds = true ->
  length (ds ≫= add_data) <= fuel -> parse_pushes fuel (ds ≫= add_data) = Some ds.
Proof using Type.
  induction ds as [|d ds IH]; intros fuel Hf Hl; [by destruct fuel|]. rewrite bind_cons in *. apply andb_true_iff in Hf as [Hd Hf].
  pose proof (decode_data d (ds ≫= add_data) Hd) as Hdec. pose proof (decode_shorter _ _ _ Hdec) as Hs.
  destruct fuel as [|fuel]; [lia|]. destruct (add_data d ++ ds ≫= add_data) as [|b l] eqn:Hbl; [cbn in Hs; lia|].
  cbn [parse_pushes]. rewrite Hdec. rewrite IH; [done..|]. cbn [length] in Hs, Hl. lia.
Qed.

Lemma decode_suffix l d rest : decode_call l = Some (AddData d, rest) -> exists head, l = head ++ d ++ rest.
Proof using Type.
  destruct l as [|b l]; cbn [decode_call length]; [done|]. destruct (_ && _).
  { destruct (_ <? _); [done|]. intros [= <- <-]. exists [b]. cbn [app]. by rewrite take_drop. }
  destruct (bool_decide _).
  { destruct (_ <? _); [done|]. intros [= <- <-]. exists (b :: take 4 l). cbn [app]. f_equal. by rewrite take_drop, take_drop. }
  by destruct (opcode_of b).
Qed.

Lemma pushes_last fuel : forall l ds d, parse_pushes fuel l = Some (ds ++ [d]) -> exists args, l = args ++ d.
Proof using Type.
  induction fuel as [|fuel IH]; intros [|b l] ds d; cbn [parse_pushes]; [by destruct ds|done|by destruct ds|].
  destruct (decode_call (b :: l)) as [[[x|z|o] rest]|] eqn:Hd; [|done..]. apply decode_suffix in Hd as (head & ->).
  destruct (parse_pushes fuel rest) as [ds'|] eqn:Hp; [|done]. cbn. intros [= Heq]. destruct ds as [|y ds]; injection Heq as -> ->.
  - exists head. destruct fuel, rest; try discriminate Hp; [by rewrite app_nil_r..|].
    cbn [parse_pushes] in Hp. destruct (decode_call _) as [[[]]|]; try discriminate Hp. by destruct (parse_pushes fuel _).
  - apply IH in Hp as (args & ->). exists (head ++ y ++ args). by rewrite <- !app_assoc.
Qed.

Lemma p2sh_spk_inj r r' : p2sh_spk r = p2sh_spk r' -> blake2b_script_hash r = blake2b_script_hash r'.
Proof using Type. unfold p2sh_spk. intros Heq. apply app_inv_head, app_inv_tail in Heq. by apply vec_to_list_inj2 in Heq. Qed.

Lemma toy_engine_ok : TxScriptEngineOk sha256.
Proof using tags.
  constructor; cbn [run verify_input toy_engine].
  - done.
  - intros accessor tv i rest v Hi. destruct (decode_call_encode i rest Hi) as (j & Hd & Hs). pose proof (decode_shorter _ _ _ Hd) as Hl.
    destruct (encode_instr i ++ rest) as [|b l] eqn:Hbl; [cbn in Hl; lia|]. cbn [length interpret] in *. rewrite Hd, Hs.
    destruct (call_step sha256 accessor tv i v); [|done]. apply interpret_fuel; lia.
  - exact tags.
  - intros accessor tv input ds redeem Hin Hspk Hsig Hf. rewrite Hin, Hsig, pushes_add_data by done. cbn [fmap option_fmap option_map].
    rewrite rev_app_distr. cbn [rev app]. by rewrite bool_decide_true.
  - intros accessor tv input redeem Hin Hspk. rewrite Hin. destruct (parse_pushes _ _) as [ds|] eqn:Hp; cbn [fmap option_fmap option_map]; [|done].
    destruct (rev ds) as [|redeem' st] eqn:Hr; [done|]. intros [Hs%bool_decide_eq_true Hrun]%andb_true_iff.
    assert (ds = rev st ++ [redeem']) as -> by (by rewrite <- (rev_involutive ds), Hr).
    apply pushes_last in Hp as (args & Hargs). exists args, redeem', st. split; [done|]. split; [|done].
    apply p2sh_spk_inj. congruence.
Qed.
End interpreter.
