(* ===== verification/CovTheorems.v ===== *)
(** * CovTheorems: the guarantees of the settlement covenant

    What the redeem script accepts, that the transactions of the builder pass it exactly when the
    proof does, what a chain of settlements carries from the first covenant output to the last, and
    two ways to spend the covenant with a state that nobody proved. *)

From S2P Require Import Prelude Codec Types SmtNode AbiAggregator RtState ScriptEngine PermScript PermSem.
From S2P Require Import PermTheorems CovEngine CovScript CovSem CovSettle CovLength CovBuild CovInterp.

(** Pins whose permission value is an amount of the L1. *)
Definition valid_pins `{Groth16Consts} (pins : RedeemPins) : Prop :=
  wf_pins pins /\ (permission_output_value (RedeemPins_common pins) < 2 ^ 63)%Z.

Section script.
Context (sha256 : bytes -> array 32) `{TxScriptEngineOk sha256, !ScriptBuilderOk, Groth16Consts}.

Lemma run_redeem_script accessor tv input pins ps plt args st :
  let redeem := build_redeem_script ps plt (redeem_len pins) pins in
  wf_view tv -> tv_inputs tv !! tv_index tv = Some input -> valid_pins pins -> in_sig input = args ++ redeem ->
  run accessor tv redeem ([], (st, [])) = settles sha256 accessor tv input pins ps plt redeem st.
Proof using Type*.
  intros redeem Hview Hin [Hp Hv] Hsig. pose proof (build_length ps plt pins Hp) as Hl. fold redeem in Hl.
  destruct (redeem_len_found ps plt pins Hp) as (_ & _ & Hr). unfold redeem at 1, build_redeem_script. rewrite run_drain.
  - rewrite <- Hl. apply exec_redeem with args; [done|done|apply tags_differ|done|lia|]. destruct Hp as [Hp _]. lia.
  - rewrite redeem_calls_parts, !forallb_app. pose proof (redeem_fits ps plt pins Hp) as Hf. rewrite !forallb_app in Hf.
    apply andb_true_iff in Hf as [-> Hf]. apply andb_true_iff in Hf as [-> ->]. cbn [forallb fits].
    unfold REDEEM_PREFIX_LEN. rewrite (proj2 (Z.leb_le _ _)), (proj2 (Z.ltb_lt _ _)) by lia. done.
Qed.
End script.

(** C12: the redeem script that [build_redeem_script] returns for the length that
    [redeem_script_len] finds, run by the L1 engine on any stack a spender supplies, accepts exactly
    the settlements: the input is the first; the output at its index pays to the same script with
    the new state and lane tip in its prefix; the covenant's outputs are the first, or the first two
    with the second paying the pinned value to a permission script; the first carries the value on;
    the deposit commitment is empty or the covenant's own deposit address; and the proof system
    accepts the proof for the pinned image and the hash of the journal of the transition. *)
Theorem settlement_script_exact (sha256 : bytes -> array 32) `{TxScriptEngineOk sha256, !ScriptBuilderOk, Groth16Consts}
    accessor tv input fuel pins ps plt len args st :
  wf_view tv -> tv_inputs tv !! tv_index tv = Some input -> valid_pins pins ->
  redeem_script_len fuel ps pins = Some len -> in_sig input = args ++ build_redeem_script ps plt len pins ->
  run accessor tv (build_redeem_script ps plt len pins) ([], (st, [])) =
  settles sha256 accessor tv input pins ps plt (build_redeem_script ps plt len pins) st.
Proof.
  intros Hview Hin Hp Hlen Hsig. apply redeem_script_len_found in Hlen as ->; [|apply Hp]. by apply run_redeem_script with args.
Qed.

(** The search for the script's own length ends in the third round, for every state and for
    both proof systems and the development script, and returns the length of the script: one
    length for all states and lane tips of a covenant. *)
Theorem redeem_length_found `{ZkPrecompiles, Groth16Consts, ScriptBuilderOk} pins lk value :
  wf_pins pins -> (0 <= value < 2 ^ 64)%Z ->
  exists len dev_len,
    (forall fuel ps, 3 <= fuel -> redeem_script_len fuel ps pins = Some len /\ dev_redeem_script_len fuel ps lk value = Some dev_len) /\
    forall ps plt, Z.of_nat (length (build_redeem_script ps plt len pins)) = len /\
      Z.of_nat (length (build_dev_redeem_script ps plt lk dev_len value)) = dev_len.
Proof.
  intros Hp Hv. exists (redeem_len pins), (dev_len lk value). split.
  - intros fuel ps Hf. split; apply length_loop_fuel with 3; try done; [by apply redeem_len_found|by apply dev_len_found].
  - intros ps plt. split; [by apply redeem_len_found|by apply dev_len_found].
Qed.

(** ** A state that nobody proved *)

(** The same transaction with another signature script and another script on its first output. *)
Definition respend (tv : TxView) (sig spk : bytes) : TxView := {|
  tv_index := tv_index tv;
  tv_inputs :=
    match tv_inputs tv with
    | i :: ins => {| in_amount := in_amount i; in_spk := in_spk i; in_covenant := in_covenant i; in_sig := sig |} :: ins
    | [] => []
    end;
  tv_outputs :=
    match tv_outputs tv with
    | o :: outs => {| to_amount := to_amount o; to_spk := spk; to_covenant := to_covenant o |} :: outs
    | [] => []
    end
|}.

Lemma covenant_outputs_ext tv tv' id :
  to_covenant <$> tv_outputs tv = to_covenant <$> tv_outputs tv' -> covenant_outputs tv id = covenant_outputs tv' id.
Proof.
  intros Heq. unfold covenant_outputs. pose proof (f_equal length Heq) as Hl. rewrite !length_fmap in Hl. rewrite Hl.
  apply list_filter_iff. intros i. by rewrite <- !list_lookup_fmap, Heq.
Qed.

Lemma respend_permission tv sig spk id v : permission_of (respend tv sig spk) id v = permission_of tv id v.
Proof.
  unfold permission_of, continuation_value.
  rewrite (covenant_outputs_ext (respend tv sig spk) tv) by (cbn; by destruct (tv_outputs tv)).
  cbn. by destruct (tv_inputs tv), (tv_outputs tv).
Qed.

Lemma respend_wf tv sig spk : wf_view tv -> (Z.of_nat (length sig) < 2 ^ 31)%Z -> wf_view (respend tv sig spk).
Proof.
  intros [Hi Ho Hin Hout] Hs. unfold respend. destruct tv as [k [|i ins] [|o outs]]; split; cbn in *; try done.
  all: try (intros [|n] x; cbn; [intros [= <-]; cbn|]; [|apply (Hin (S n))]); try (split; [apply (Hin 0 i); done|done]).
  all: intros [|n] x; cbn; [intros [= <-]; by apply (Hout 0 o)|apply (Hout (S n))].
Qed.

Section settlement.
Context (sha256 : bytes -> array 32) `{TxScriptEngineOk sha256, !ScriptBuilderOk, Groth16Consts}.

(** The script of a covenant in a state. *)
Definition covenant_script (pins : RedeemPins) (s t : array 32) : bytes := build_redeem_script s t (redeem_len pins) pins.

(** The verdict of the engine on a signature script that pushes [ds] and the redeem script. *)
Lemma verify_settlement accessor tv input pins ps plt ds :
  let redeem := covenant_script pins ps plt in
  wf_view tv -> tv_inputs tv !! tv_index tv = Some input -> valid_pins pins -> in_spk input = p2sh_spk redeem ->
  in_sig input = (ds ++ [redeem]) ≫= add_data -> forallb (fun d => fits (AddData d)) ds = true ->
  verify_input accessor tv = settles sha256 accessor tv input pins ps plt redeem (rev ds).
Proof using Type*.
  intros redeem Hview Hin Hp Hspk Hsig Hf. pose proof (build_length ps plt pins (proj1 Hp)) as Hl.
  destruct (redeem_len_found ps plt pins (proj1 Hp)) as (_ & _ & Hr). fold (covenant_script pins ps plt) in Hl. fold redeem in Hl.
  destruct (add_data_long redeem ltac:(lia)) as (head & Hhead).
  assert (fits (AddData redeem) = true) as Hfr by (cbn [fits]; change MAX_ELEMENT with 1000000%Z; apply Z.leb_le; lia).
  rewrite (verify_p2sh accessor tv input ds redeem) by (try done; rewrite forallb_app, Hf; cbn [forallb]; by rewrite Hfr).
  apply run_redeem_script with ((ds ≫= add_data) ++ head); try done. rewrite Hsig, bind_app, bind_singleton. fold (covenant_script pins ps plt). fold redeem.
  by rewrite Hhead, app_assoc.
Qed.
End settlement.

Lemma next_covenant_script `{ZkPrecompiles, Groth16Consts, ScriptBuilderOk} pins ps plt (ns lt : array 32) :
  next_script (lane_key (RedeemPins_common pins)) (covenant_script pins ps plt) (vec_to_list ns) (vec_to_list lt) = covenant_script pins ns lt.
Proof. apply next_script_redeem. Qed.

Lemma forallb_rev {A} (f : A -> bool) l : forallb f (rev l) = forallb f l.
Proof. induction l as [|x l IH]; [done|]. cbn [rev]. rewrite forallb_app, IH. cbn [forallb]. rewrite andb_true_r. apply andb_comm. Qed.

Lemma to_array n (l : bytes) : length l = n -> exists a : array n, vec_to_list a = l.
Proof. intros <-. exists (list_to_vec l). apply vec_to_list_to_vec. Qed.

(** C36: the journal binds the new state and the new lane tip only joined together, and the script
    does not check their lengths. From every settlement in whose new state a byte is [0x20], anyone
    can make another one, with the same proof and block, that the engine accepts and that leaves the
    covenant in a state that nobody proved: its root is the 32 bytes behind that byte. *)
Theorem settled_state_unproven (sha256 : bytes -> array 32) `{TxScriptEngineOk sha256, !ScriptBuilderOk, Groth16Consts}
    accessor tv input pins ps plt block (ns lt : array 32) deposit proof i :
  let redeem := covenant_script pins ps plt in
  let joined := vec_to_list ns ++ vec_to_list lt in
  let sig := (rev (block :: take (33 + i) joined :: drop (33 + i) joined :: deposit :: proof) ++ [redeem]) ≫= add_data in
  wf_view tv -> tv_inputs tv !! tv_index tv = Some input -> valid_pins pins -> in_spk input = p2sh_spk redeem ->
  settles sha256 accessor tv input pins ps plt redeem (block :: vec_to_list ns :: vec_to_list lt :: deposit :: proof) = true ->
  forallb (fun d => fits (AddData d)) (block :: deposit :: proof) = true -> (Z.of_nat (length sig) < 2 ^ 31)%Z ->
  vec_to_list ns !! i = Some OpData32 ->
  exists s t : array 32,
    vec_to_list s = take 32 (drop (S i) joined) /\ vec_to_list t = drop (33 + i) joined ++ OpData32 :: take i joined /\
    verify_input accessor (respend tv sig (p2sh_spk (covenant_script pins s t))) = true.
Proof.
  intros redeem joined sig Hview Hin Hp Hspk Hset Hfit Hsize Hi.
  assert (length joined = 64) as Hj by (unfold joined; by rewrite length_app, !length_vec_to_list).
  pose proof (lookup_lt_Some _ _ _ Hi) as Hlt. rewrite length_vec_to_list in Hlt.
  assert (drop i joined = OpData32 :: drop (S i) joined) as Hd by (apply drop_S; unfold joined; by apply lookup_app_l_Some).
  destruct (to_array 32 (take 32 (drop (S i) joined))) as (s & Hs); [rewrite length_take, length_drop; lia|].
  destruct (to_array 32 (drop (33 + i) joined ++ OpData32 :: take i joined)) as (t & Ht);
    [rewrite length_app, length_drop; cbn [length]; rewrite length_take; lia|].
  exists s, t. split; [done|]. split; [done|].
  assert (take (33 + i) joined = take i joined ++ OpData32 :: vec_to_list s) as Hns.
  { rewrite Hs. replace (33 + i) with (i + 33) by lia. rewrite <- take_take_drop, Hd. done. }
  assert (next_pushes (take (33 + i) joined) (drop (33 + i) joined) = next_pushes (vec_to_list s) (vec_to_list t)) as Hnext.
  { unfold next_pushes. rewrite Ht, Hns. cbn [app]. f_equal. by rewrite <- app_assoc. }
  assert (fits (AddData (take (33 + i) joined)) = true /\ fits (AddData (drop (33 + i) joined)) = true) as [Hf1 Hf2].
  { cbn [fits]. rewrite length_take, length_drop. change MAX_ELEMENT with 1000000%Z. rewrite !Z.leb_le. lia. }
  cbn [forallb] in Hfit. apply andb_true_iff in Hfit as [Hfb Hfit].
  unfold settles in Hset. destruct (in_covenant input) as [id|] eqn:Hid; [|done].
  destruct (accessor block) as [commit|] eqn:Hblock; [|done].
  destruct (permission_of tv id _) as [permission|] eqn:Hperm; [|done].
  rewrite !andb_true_iff, bool_decide_eq_true in Hset. destruct Hset as ((((Hz & Hcont) & Hdep) & Hcap) & Hproof).
  unfold continues in Hcont. rewrite Hz in Hin, Hcont. destruct tv as [k [|i0 ins] outs]; [done|]. cbn in Hz, Hin. subst k. injection Hin as ->.
  destruct outs as [|o outs]; [done|]. cbn [tv_outputs lookup list_lookup] in Hcont. apply andb_true_iff in Hcont as [Hcn _].
  assert (next_script (lane_key (RedeemPins_common pins)) redeem (take (33 + i) joined) (drop (33 + i) joined) = covenant_script pins s t) as Hscript.
  { rewrite <- (next_covenant_script pins ps plt s t). fold redeem. unfold next_script. by rewrite Hnext. }
  assert (journal pins ps plt (take (33 + i) joined) (drop (33 + i) joined) commit id permission deposit =
    journal pins ps plt (vec_to_list ns) (vec_to_list lt) commit id permission deposit) as Hjournal.
  { unfold journal, journal_head. rewrite (app_assoc (take _ _)), take_drop. unfold joined. by rewrite <- !app_assoc. }
  erewrite (verify_settlement sha256 accessor (respend _ _ _) _ pins ps plt (rev (block :: _ :: _ :: deposit :: proof)));
    [|by apply respend_wf|reflexivity|done|exact Hspk|reflexivity|].
  2:{ rewrite forallb_rev. cbn [forallb]. by rewrite Hfb, Hf1, Hf2. }
  rewrite rev_involutive. unfold settles. cbn [in_covenant]. rewrite Hid, Hblock, respend_permission, Hperm. cbv zeta. rewrite Hjournal, Hdep, Hcap, Hproof.
  unfold continues. cbn [respend tv_outputs tv_index lookup list_lookup to_spk]. fold redeem. rewrite Hscript.
  rewrite !bool_decide_true by done. rewrite !andb_true_r. cbn [andb].
  refine (capped_le _ _ _ Hcn). rewrite <- (next_covenant_script pins ps plt s t). fold redeem. unfold next_script. rewrite !length_app. unfold next_pushes.
  cbn [length app]. rewrite !length_app. cbn [length]. rewrite !length_vec_to_list. lia.
Qed.

(** ** The transactions of the builder *)

Lemma filter_keeps {A} (P : A -> Prop) `{forall x, Decision (P x)} l : Forall P l -> filter P l = l.
Proof. induction 1 as [|x l Hx _ IH]; [done|]. by rewrite filter_cons_True, IH. Qed.
Lemma filter_drops {A} (P : A -> Prop) `{forall x, Decision (P x)} l : Forall (fun x => ~ P x) l -> filter P l = [].
Proof. induction 1 as [|x l Hx _ IH]; [done|]. by rewrite filter_cons_False. Qed.

(** When the first outputs are those bound to the covenant. *)
Lemma covenant_outputs_front tv (id : array 32) bound rest :
  tv_outputs tv = bound ++ rest -> Forall (fun o => to_covenant o = Some id) bound -> Forall (fun o => to_covenant o <> Some id) rest ->
  covenant_outputs tv (vec_to_list id) = seq 0 (length bound).
Proof.
  intros Ho Hb Hr. unfold covenant_outputs. rewrite Ho, length_app, seq_app, filter_app, filter_keeps, filter_drops, app_nil_r; [done|..].
  - apply Forall_forall. intros i [Hge Hlt]%elem_of_seq. rewrite lookup_app_r by lia.
    destruct (rest !! (i - length bound)) as [o|] eqn:Hi; [|done]. rewrite Forall_lookup in Hr. specialize (Hr _ _ Hi). cbn.
    destruct (to_covenant o) as [c|]; [|done]. cbn. intros [= Heq]. apply Hr. f_equal. by apply vec_to_list_inj2.
  - apply Forall_forall. intros i [_ Hlt]%elem_of_seq. destruct (lookup_lt_is_Some_2 bound i) as [o Hi]; [lia|].
    rewrite lookup_app_l, Hi by lia. rewrite Forall_lookup in Hb. cbn. by rewrite (Hb _ _ Hi).
Qed.

(** The transition whose journal a settlement proves. *)
Definition transition (pins : RedeemPins) (ps plt ns lt commit id permission deposit : array 32) : StateTransition.t := {|
  StateTransition.prev_state := ps;
  StateTransition.prev_lane_tip := plt;
  StateTransition.new_state := ns;
  StateTransition.new_lane_tip := lt;
  StateTransition.new_seq_commit := commit;
  StateTransition.covenant_id := id;
  StateTransition.tx_image_id := tx_image_id (RedeemPins_common pins);
  StateTransition.batch_image_id := batch_image_id (RedeemPins_common pins);
  StateTransition.permission_spk_hash := permission;
  StateTransition.deposit_spk_hash := deposit;
  StateTransition.lane_key := lane_key (RedeemPins_common pins)
|}.

Lemma journal_encode pins ps plt (ns lt commit id permission deposit : array 32) :
  journal pins ps plt (vec_to_list ns) (vec_to_list lt) commit id (vec_to_list permission) (vec_to_list deposit) =
  StateTransition.encode (transition pins ps plt ns lt commit id permission deposit).
Proof. unfold journal, journal_head, StateTransition.encode. cbn. by rewrite <- !app_assoc. Qed.

Lemma journal_capped pins ps plt (ns lt commit id permission deposit : array 32) :
  capped (journal pins ps plt (vec_to_list ns) (vec_to_list lt) commit id (vec_to_list permission) (vec_to_list deposit)) = true.
Proof. rewrite journal_encode. apply capped_short. rewrite StateTransition.encode_size. cbn. lia. Qed.

(** The part of a witness that reaches the proof system, last push first. *)
Definition witness_proof (w : SettlementWitness) : list bytes :=
  match w with
  | SuccinctW w => [seal w; control_digests w; vec_to_list (le_split 4 (control_index w)); vec_to_list (claim w)]
  | Groth16W proof _ => [proof]
  end.
Definition witness_deposit (w : SettlementWitness) : array 32 :=
  match w with SuccinctW w => sw_deposit_spk_hash w | Groth16W _ deposit => deposit end.
Definition witness_fits (pins : RedeemPins) (w : SettlementWitness) : bool :=
  match pins, w with Succinct _, SuccinctW _ | Groth16Pins _, Groth16W _ _ => true | _, _ => false end.

Lemma to_bytes_permission (h : array 32) : to_bytes (permission_spk h) = wrap_spk (vec_to_list h).
Proof. reflexivity. Qed.

Lemma wrap_substr (h : array 32) : substr (wrap_spk (vec_to_list h)) 4 36 = Some (vec_to_list h).
Proof.
  unfold wrap_spk. rewrite substr_run by (rewrite !length_app, length_vec_to_list; change (length spk_header) with 4; cbn [length]; lia).
  rewrite drop_app_length' by done. change (36 - 4) with 32. by rewrite take_app_length' by (by rewrite length_vec_to_list).
Qed.

Section built.
Context `{Blake2b, Kaspa, !KaspaOk}.

Lemma to_bytes_p2sh redeem : to_bytes (pay_to_script_hash_script redeem) = p2sh_spk redeem.
Proof using Type*. rewrite p2sh_layout. reflexivity. Qed.

(** What the script reads off the outputs of the builder, whatever the caller adds behind them. *)
Lemma permission_built tv input amount pv next (id perm : array 32) rest :
  tv_inputs tv !! 0 = Some input -> in_amount input = amount ->
  tv_outputs tv = (view_out <$> settlement_outputs amount pv next id perm) ++ rest ->
  Forall (fun o => to_covenant o <> Some id) rest ->
  permission_of tv id pv = Some (vec_to_list perm).
Proof using Type*.
  intros Hin Ha Ho Hr. unfold permission_of, continuation_value. rewrite (covenant_outputs_front tv id _ rest Ho); [| |done].
  2:{ unfold settlement_outputs. destruct (bool_decide _); repeat constructor. }
  rewrite length_fmap, Hin, Ho. unfold settlement_outputs. destruct (bool_decide_reflect (perm = vreplicate 32 Byte.x00)) as [->|Hp];
    cbn [length seq fmap list_fmap app lookup list_lookup view_out to_amount tx_value mbind option_bind].
  - rewrite bool_decide_false, bool_decide_true by done. rewrite Ha, Z.eqb_refl. reflexivity.
  - rewrite bool_decide_true by done. cbn [view_out to_spk script_public_key]. rewrite to_bytes_permission, wrap_substr. cbn [mbind option_bind].
    rewrite Ha, !Z.eqb_refl, !bool_decide_true; [done|done|]. intros Hz. apply Hp. apply vec_to_list_inj2. by rewrite Hz.
Qed.

Lemma continues_built tv lk redeem (ns lt : bytes) amount pv next id perm rest :
  tv_index tv = 0 -> tv_outputs tv = (view_out <$> settlement_outputs amount pv next id perm) ++ rest ->
  next_script lk redeem ns lt = next -> capped next = true -> continues tv lk redeem ns lt = true.
Proof using Type*.
  intros Hi Ho Hn Hc. unfold continues. rewrite Hi, Ho, Hn, Hc. unfold settlement_outputs.
  destruct (bool_decide (perm = _)); cbn [fmap list_fmap app lookup list_lookup view_out to_spk script_public_key];
    rewrite to_bytes_p2sh; by rewrite bool_decide_true.
Qed.
End built.

(** A transaction that the caller completed: its own inputs and outputs behind the builder's, none
    of them bound to the covenant, and the covenant output as what the first input spends. *)
Definition completes (built tx : KaspaTransaction) (amount : Z) (spk : ScriptPublicKey) (id : array 32) (utxos : list UtxoEntry) : Prop :=
  (exists more, tx_inputs tx = tx_inputs built ++ more) /\
  (exists more, tx_outputs tx = tx_outputs built ++ more /\ Forall (fun o => binding_id <$> covenant o <> Some id) more) /\
  utxos !! 0 = Some {| utxo_amount := amount; utxo_spk := spk; utxo_covenant := Some id |}.

Section verdict.
Context (sha256 : bytes -> array 32) `{TxScriptEngineOk sha256, !ScriptBuilderOk, Groth16Consts, Kaspa, !KaspaOk}.

Lemma covenant_script_capped pins s t : wf_pins pins -> capped (covenant_script pins s t) = true.
Proof using Type*.
  intros Hp. destruct (redeem_len_found s t pins Hp) as (_ & Hl & Hr). unfold capped, covenant_script. rewrite Hl. change MAX_ELEMENT with 1000000%Z.
  apply Z.leb_le. lia.
Qed.

(** The verdict on a transaction of the builder, from the elements its signature script pushes. *)
Lemma verify_built accessor pins outpoint amount (ps plt ns lt id permission deposit commit block : array 32) proof ds tx utxos :
  let redeem := covenant_script pins ps plt in
  let outs := settlement_outputs amount (permission_output_value (RedeemPins_common pins)) (covenant_script pins ns lt) id permission in
  valid_pins pins -> rev ds = vec_to_list block :: vec_to_list ns :: vec_to_list lt :: vec_to_list deposit :: proof ->
  forallb (fun d => fits (AddData d)) proof = true ->
  completes (covenant_transaction outpoint ((ds ++ [redeem]) ≫= add_data) outs) tx amount (pay_to_script_hash_script redeem) id utxos ->
  wf_view (tx_view tx utxos 0) -> accessor (vec_to_list block) = Some commit ->
  verify_input accessor (tx_view tx utxos 0) =
  deposit_bound id (vec_to_list deposit) &&
  proof_ok sha256 pins (vec_to_list (sha256 (StateTransition.encode (transition pins ps plt ns lt commit id permission deposit)))) proof.
Proof using Type*.
  intros redeem outs Hp Hds Hfit ([more Hins] & (more_outs & Houts & Hun) & Hutxo) Hview Hblock.
  destruct utxos as [|u utxos]; [done|]. injection Hutxo as Hu. set (tv := tx_view tx (u :: utxos) 0) in *.
  set (input := view_in {| previous_outpoint := outpoint; signature_script := (ds ++ [redeem]) ≫= add_data; sequence := 0; sig_op_count := 1 |} u).
  assert (tv_inputs tv !! 0 = Some input) as Hin by (cbn [tv tx_view tv_inputs]; by rewrite Hins).
  assert (tv_outputs tv = (view_out <$> outs) ++ (view_out <$> more_outs)) as Hout by (cbn [tv tx_view tv_outputs]; by rewrite Houts, fmap_app).
  assert (in_spk input = p2sh_spk redeem) as Hspk by (cbn [input view_in in_spk]; rewrite Hu; apply to_bytes_p2sh).
  assert (forallb (fun d => fits (AddData d)) ds = true) as Hfds
    by (rewrite <- (rev_involutive ds), forallb_rev, Hds; cbn [forallb]; by rewrite !fits_array, Hfit by lia).
  rewrite (verify_settlement sha256 accessor tv input pins ps plt ds Hview Hin Hp Hspk eq_refl Hfds), Hds.
  unfold settles. cbn [in_covenant input view_in]. rewrite Hu. cbn [utxo_covenant]. rewrite Hblock.
  assert (in_amount input = amount) as Ha by (cbn [input view_in in_amount]; by rewrite Hu).
  rewrite (permission_built tv input amount _ _ id permission _ Hin Ha Hout) by (by apply Forall_fmap).
  cbv zeta. rewrite journal_capped, journal_encode, bool_decide_true by done. fold redeem.
  rewrite (continues_built tv _ _ _ _ _ _ _ _ _ _ eq_refl Hout (next_covenant_script pins ps plt ns lt)) by (apply covenant_script_capped, Hp).
  by rewrite andb_true_r.
Qed.
End verdict.

(** What the builder makes of pushes that fit: their script, or a panic when it is past the cap. *)
Lemma add_pushes_capped `{ScriptBuilderOk} ds : forall built,
  forallb (fun d => fits (AddData d)) ds = true -> (Z.of_nat (length built) <= max_script_size)%Z ->
  add_pushes built ds = if (Z.of_nat (length (built ++ ds ≫= add_data)) <=? max_script_size)%Z then Ok (built ++ ds ≫= add_data) else Panic.
Proof.
  induction ds as [|d ds IH]; intros built Hf Hb; cbn [add_pushes mbind list_bind forallb] in *.
  - rewrite app_nil_r. by rewrite (proj2 (Z.leb_le _ _)).
  - apply andb_true_iff in Hf as [-> Hf]. cbn [andb]. rewrite app_assoc. destruct (Z.leb_spec (Z.of_nat (length (built ++ add_data d))) max_script_size) as [Hle|Hgt].
    + by apply IH.
    + rewrite (proj2 (Z.leb_gt _ _)); [done|]. rewrite length_app. lia.
Qed.

Definition signature_of (s : Settlement) : bytes := from_option signature_script [] (head (tx_inputs (transaction s))).

(** The settlement around a signature script, or the panic of building it. *)
Lemma settlement_capped `{ScriptBuilderOk, Kaspa} ds outpoint outs prev next :
  forallb (fun d => fits (AddData d)) ds = true ->
  let s := {| transaction := covenant_transaction outpoint (ds ≫= add_data) outs; prev_redeem := prev; next_redeem := next |} in
  (sig ← add_pushes [] ds; Ok {| transaction := covenant_transaction outpoint sig outs; prev_redeem := prev; next_redeem := next |}) =
  if (Z.of_nat (length (signature_of s)) <=? max_script_size)%Z then Ok s else Panic.
Proof.
  intros Hf s. pose proof covenants_raise_cap. rewrite add_pushes_capped by (done || cbn; lia). unfold signature_of. cbn [app s transaction covenant_transaction tx_inputs head from_option signature_script].
  by destruct (_ <=? _)%Z.
Qed.

(** C14: for valid pins and a witness of the pinned proof system whose elements are within the
    engine's element size, [Settlement::build] finds the redeem script's length and returns a
    transaction, unless its signature script is past the builder's cap, when it panics. The engine's
    verdict on the transaction, completed with the caller's own inputs and outputs, is the verdict of
    the proof system on the proof for the journal of the transition, provided the deposit commitment
    is empty or the covenant's deposit address. *)
Theorem settlement_build_exact (sha256 : bytes -> array 32) `{TxScriptEngineOk sha256, !ScriptBuilderOk, Groth16Consts, Kaspa, !KaspaOk}
    accessor fuel i :
  3 <= fuel -> valid_pins (si_pins i) -> witness_fits (si_pins i) (si_witness i) = true ->
  forallb (fun d => fits (AddData d)) (witness_proof (si_witness i)) = true ->
  exists s, Settlement_build fuel i = Some (if (Z.of_nat (length (signature_of s)) <=? max_script_size)%Z then Ok s else Panic) /\
    forall tx utxos commit,
      completes (transaction s) tx (si_value i) (pay_to_script_hash_script (prev_redeem s)) (si_covenant_id i) utxos ->
      wf_view (tx_view tx utxos 0) -> accessor (vec_to_list (si_block_prove_to i)) = Some commit ->
      verify_input accessor (tx_view tx utxos 0) =
      deposit_bound (si_covenant_id i) (vec_to_list (witness_deposit (si_witness i))) &&
      proof_ok sha256 (si_pins i)
        (vec_to_list (sha256 (StateTransition.encode
          (transition (si_pins i) (si_prev_state i) (si_prev_lane_tip i) (si_new_state i) (si_new_lane_tip i) commit
             (si_covenant_id i) (si_permission_spk_hash i) (witness_deposit (si_witness i))))))
        (witness_proof (si_witness i)).
Proof.
  intros Hfuel Hp Hw Hfit. unfold Settlement_build.
  rewrite (length_loop_fuel _ _ 3 (redeem_len (si_pins i)) fuel (proj1 (redeem_len_found _ _ _ (proj1 Hp))) Hfuel : redeem_script_len fuel _ _ = _).
  cbn [mbind option_bind]. fold (covenant_script (si_pins i) (si_prev_state i) (si_prev_lane_tip i)). fold (covenant_script (si_pins i) (si_new_state i) (si_new_lane_tip i)).
  pose proof (covenant_script_capped sha256 (si_pins i) (si_prev_state i) (si_prev_lane_tip i) (proj1 Hp)) as Hcap.
  destruct (si_pins i) as [p|p] eqn:Hpins, (si_witness i) as [w|proof deposit] eqn:Hwit; try discriminate Hw; cbn [mbind outcome_bind].
  - cbn [witness_proof forallb] in Hfit. unfold sig_script_succinct. rewrite settlement_capped
      by (unfold succinct_pushes; cbn [forallb app]; rewrite !andb_true_iff in Hfit; rewrite !fits_array by lia; cbn [fits] in *; unfold capped in Hcap; rewrite Hcap; by destruct Hfit as (-> & -> & _)).
    eexists. split; [reflexivity|]. intros tx utxos commit Hc Hview Hblock.
    by eapply (verify_built sha256 accessor (Succinct p) _ _ _ _ _ _ _ _ _ _ _ _ (succinct_pushes (si_block_prove_to i) (si_new_state i) (si_new_lane_tip i) w)).
  - cbn [witness_proof forallb] in Hfit. unfold sig_script_groth16. rewrite settlement_capped
      by (unfold groth16_pushes; cbn [forallb app]; rewrite !andb_true_iff in Hfit; rewrite !fits_array by lia; cbn [fits] in *; unfold capped in Hcap; rewrite Hcap; by destruct Hfit as (-> & _)).
    eexists. split; [reflexivity|]. intros tx utxos commit Hc Hview Hblock.
    by eapply (verify_built sha256 accessor (Groth16Pins p) _ _ _ _ _ _ _ _ _ _ _ _ (groth16_pushes (si_block_prove_to i) (si_new_state i) (si_new_lane_tip i) proof deposit)).
Qed.

(** ** Chains of settlements *)

(** The covenant output in a state. *)
Definition covenant_coin `{Blake2b, ZkPrecompiles, Groth16Consts, ScriptBuilder} (pins : RedeemPins) (id : array 32) (amount : Z) (s t : array 32) : TxOut :=
  {| to_amount := amount; to_spk := p2sh_spk (covenant_script pins s t); to_covenant := Some id |}.

(** A transaction, with the chain as the engine saw it. *)
Record spend := { sp_accessor : SeqCommitAccessor; sp_view : TxView }.

Definition spends (input : TxIn) (coin : TxOut) : Prop :=
  in_amount input = to_amount coin /\ in_spk input = to_spk coin /\ in_covenant input = to_covenant coin.

Section chain.
Context (sha256 : bytes -> array 32) `{TxScriptEngineOk sha256, !ScriptBuilderOk, Groth16Consts} (pins : RedeemPins).

(** Accepted transactions, each spending the first output of the one before it, with a state and a
    lane tip of 32 bytes in the signature script. *)
Inductive settlements : TxOut -> array 32 -> array 32 -> list spend -> TxOut -> array 32 -> array 32 -> Prop :=
| settlements_nil coin s t : settlements coin s t [] coin s t
| settlements_cons coin s t accessor tv sps input ds block (ns lt : array 32) deposit proof coin1 coin2 s2 t2 :
    wf_view tv -> tv_inputs tv !! tv_index tv = Some input -> spends input coin ->
    in_sig input = (ds ++ [covenant_script pins s t]) ≫= add_data -> forallb (fun d => fits (AddData d)) ds = true ->
    rev ds = block :: vec_to_list ns :: vec_to_list lt :: deposit :: proof ->
    verify_input accessor tv = true -> tv_outputs tv !! 0 = Some coin1 ->
    settlements coin1 ns lt sps coin2 s2 t2 ->
    settlements coin s t ({| sp_accessor := accessor; sp_view := tv |} :: sps) coin2 s2 t2.

(** A transition that a transaction settled: of this covenant, this lane and these images, anchored
    in a block of the chain, with the permission output it commits to, and proven. *)
Definition settled_by (id : array 32) (sp : spend) (st : StateTransition.t) : Prop :=
  StateTransition.covenant_id st = id /\ StateTransition.lane_key st = lane_key (RedeemPins_common pins) /\
  StateTransition.tx_image_id st = tx_image_id (RedeemPins_common pins) /\ StateTransition.batch_image_id st = batch_image_id (RedeemPins_common pins) /\
  (exists block, sp_accessor sp block = Some (StateTransition.new_seq_commit st)) /\
  permission_of (sp_view sp) id (permission_output_value (RedeemPins_common pins)) = Some (vec_to_list (StateTransition.permission_spk_hash st)) /\
  deposit_bound id (vec_to_list (StateTransition.deposit_spk_hash st)) = true /\
  exists proof, proof_ok sha256 pins (vec_to_list (sha256 (StateTransition.encode st))) proof = true.

Fixpoint transitions_linked (s t : array 32) (sts : list StateTransition.t) (s' t' : array 32) : Prop :=
  match sts with
  | [] => s = s' /\ t = t'
  | st :: sts =>
      StateTransition.prev_state st = s /\ StateTransition.prev_lane_tip st = t /\
      transitions_linked (StateTransition.new_state st) (StateTransition.new_lane_tip st) sts s' t'
  end.

Lemma permission_of_length tv id value h : permission_of tv id value = Some h -> length h = 32.
Proof using Type.
  unfold permission_of. destruct (bool_decide _).
  - destruct (tv_outputs tv !! 1) as [out|]; cbn [mbind option_bind]; [|done]. destruct (substr _ _ _) as [h'|] eqn:Hs; cbn [mbind option_bind]; [|done].
    destruct (_ && _); intros [= <-]. by apply substr_length in Hs.
  - by destruct (_ && _); intros [= <-].
Qed.

(** The first output is bound to the covenant and carries the value on. *)
Lemma permission_of_first tv id value h out :
  permission_of tv id value = Some h -> tv_outputs tv !! 0 = Some out ->
  to_covenant out = Some id /\ in_amount <$> tv_inputs tv !! 0 = Some (to_amount out).
Proof using Type.
  intros Hp Ho. assert (0 ∈ covenant_outputs tv (vec_to_list id) /\ continuation_value tv = true) as [Hb Hv].
  { revert Hp. unfold permission_of. destruct (bool_decide_reflect (covenant_outputs tv (vec_to_list id) = [0; 1])) as [->|_].
    - destruct (tv_outputs tv !! 1) as [o|]; cbn [mbind option_bind]; [|done]. destruct (substr _ _ _); cbn [mbind option_bind]; [|done].
      destruct (continuation_value tv); [|done]. intros _. split; [constructor|done].
    - destruct (bool_decide_reflect (covenant_outputs tv (vec_to_list id) = [0])) as [->|_]; [|done].
      destruct (continuation_value tv); [|done]. intros _. split; [constructor|done]. }
  split.
  - unfold covenant_outputs in Hb. apply list_elem_of_filter in Hb as [Hb _]. rewrite Ho in Hb. cbn in Hb.
    destruct (to_covenant out); [|done]. injection Hb as Hb. f_equal. by apply vec_to_list_inj2.
  - unfold continuation_value in Hv. rewrite Ho in Hv. destruct (tv_inputs tv !! 0); [|done]. cbn. f_equal. lia.
Qed.

Lemma deposit_bound_length id d : deposit_bound id d = true -> length d = 32.
Proof using Type. unfold deposit_bound. rewrite orb_true_iff, !bool_decide_eq_true. intros [->| ->]; [done|apply length_vec_to_list]. Qed.

(** One settlement. *)
Lemma settlement_step id amount s t accessor tv input ds block (ns lt : array 32) deposit proof coin1 :
  valid_pins pins -> wf_view tv -> tv_inputs tv !! tv_index tv = Some input -> spends input (covenant_coin pins id amount s t) ->
  in_sig input = (ds ++ [covenant_script pins s t]) ≫= add_data -> forallb (fun d => fits (AddData d)) ds = true ->
  rev ds = block :: vec_to_list ns :: vec_to_list lt :: deposit :: proof ->
  verify_input accessor tv = true -> tv_outputs tv !! 0 = Some coin1 ->
  coin1 = covenant_coin pins id amount ns lt /\
  exists commit permission deposit,
    settled_by id {| sp_accessor := accessor; sp_view := tv |} (transition pins s t ns lt commit id permission deposit).
Proof using Type*.
  intros Hp Hview Hin (Ha & Hspk & Hid) Hsig Hfit Hds Hv Ho.
  rewrite (verify_settlement sha256 accessor tv input pins s t ds Hview Hin Hp Hspk Hsig Hfit), Hds in Hv.
  unfold settles in Hv. cbn [covenant_coin to_covenant to_amount] in Hid, Ha. rewrite Hid in Hv.
  destruct (accessor block) as [commit|] eqn:Hblock; [|done]. destruct (permission_of tv id _) as [perm|] eqn:Hperm; [|done].
  rewrite !andb_true_iff, bool_decide_eq_true in Hv. destruct Hv as ((((Hz & Hcont) & Hdep) & _) & Hproof).
  destruct (to_array 32 perm (permission_of_length _ _ _ _ Hperm)) as (permission & <-).
  destruct (to_array 32 deposit (deposit_bound_length _ _ Hdep)) as (dep & <-).
  rewrite journal_encode in Hproof. unfold continues in Hcont. rewrite Hz, Ho in Hcont. apply andb_true_iff in Hcont as [_ Hcont].
  apply bool_decide_eq_true in Hcont. rewrite next_covenant_script in Hcont.
  destruct (permission_of_first _ _ _ _ _ Hperm Ho) as [Hc Hamount]. rewrite Hz in Hin. rewrite Hin in Hamount. cbn [fmap option_fmap option_map] in Hamount.
  split.
  - destruct coin1 as [a1 s1 c1]. cbn [to_spk to_covenant to_amount] in Hcont, Hc, Hamount. unfold covenant_coin. congruence.
  - exists commit, permission, dep. repeat split; try done; [by exists block|by exists proof].
Qed.
End chain.

Lemma settlements_chain (sha256 : bytes -> array 32) `{TxScriptEngineOk sha256, !ScriptBuilderOk, Groth16Consts} pins id amount s t sps coin s' t' :
  valid_pins pins -> settlements pins (covenant_coin pins id amount s t) s t sps coin s' t' ->
  coin = covenant_coin pins id amount s' t' /\
  exists sts, Forall2 (settled_by sha256 pins id) sps sts /\ transitions_linked s t sts s' t'.
Proof.
  intros Hp Hc. remember (covenant_coin pins id amount s t) as coin0 eqn:Hcoin.
  induction Hc as [|coin0 s t accessor tv sps input ds block ns lt deposit proof coin1 coin2 s2 t2 Hview Hin Hspends Hsig Hfit Hds Hv Ho _ IH].
  - split; [done|]. by exists [].
  - subst coin0. destruct (settlement_step sha256 pins id amount s t accessor tv input ds block ns lt deposit proof coin1) as (-> & commit & perm & dep & Hset);
      [done..|]. destruct (IH eq_refl) as (-> & sts & Hsts & Hlink). split; [done|].
    exists (transition pins s t ns lt commit id perm dep :: sts). split; [by constructor|done].
Qed.

(** C13: whatever accepted settlements do, one after the other, to a covenant output created in some
    state, as long as their states and lane tips are 32 bytes: each of them settles a transition
    that is proven for the pinned images, lane and covenant and anchored in a block of the chain;
    the transitions continue one another from the first state and tip to those of the last output;
    and that output is the covenant's, with the value it started with. *)
Theorem settlements_linked (sha256 : bytes -> array 32) `{TxScriptEngineOk sha256, !ScriptBuilderOk, Groth16Consts} pins id amount s t sps coin s' t' :
  valid_pins pins -> settlements pins (covenant_coin pins id amount s t) s t sps coin s' t' ->
  coin = covenant_coin pins id amount s' t' /\
  exists sts, Forall2 (settled_by sha256 pins id) sps sts /\ transitions_linked s t sts s' t'.
Proof. by apply (settlements_chain sha256). Qed.

(** ** The development script and the first output *)

(** The development script decides the same conditions without the proof: the claimed commitment of
    the block in place of the journal. Nothing binds the new state. *)
Theorem dev_script_exact (sha256 : bytes -> array 32) `{TxScriptEngineOk sha256, !ScriptBuilderOk, Groth16Consts}
    accessor tv input fuel lk value ps plt len args st :
  wf_view tv -> tv_inputs tv !! tv_index tv = Some input -> (0 <= value < 2 ^ 63)%Z ->
  dev_redeem_script_len fuel ps lk value = Some len -> in_sig input = args ++ build_dev_redeem_script ps plt lk len value ->
  run accessor tv (build_dev_redeem_script ps plt lk len value) ([], (st, [])) =
  dev_settles accessor tv input lk value (build_dev_redeem_script ps plt lk len value) st.
Proof.
  intros Hview Hin Hv Hlen Hsig. destruct (dev_len_found ps Hash_default lk value ltac:(lia)) as (Hl & _ & Hr).
  apply (length_loop_fuel _ _ _ _ (fuel + 3)) in Hl; [|lia]. apply (length_loop_fuel _ _ _ _ (fuel + 3)) in Hlen; [|lia].
  rewrite Hl in Hlen. injection Hlen as <-. destruct (dev_len_found ps plt lk value ltac:(lia)) as (_ & Hn & _).
  set (redeem := build_dev_redeem_script ps plt lk (dev_len lk value) value) in *.
  unfold redeem at 1, build_dev_redeem_script. rewrite run_drain.
  - rewrite <- Hn. apply (exec_dev_redeem sha256 accessor tv input) with args; [done|done|apply tags_differ|done|lia|lia].
  - rewrite dev_calls_parts, !forallb_app. pose proof (dev_fits ps plt lk value ltac:(lia)) as Hf. rewrite !forallb_app in Hf.
    apply andb_true_iff in Hf as [-> Hf]. apply andb_true_iff in Hf as [-> ->]. cbn [forallb fits].
    unfold REDEEM_PREFIX_LEN. rewrite (proj2 (Z.leb_le _ _)), (proj2 (Z.ltb_lt _ _)) by lia. done.
Qed.

(** [Bootstrap::build] returns, and its output is the covenant's in the initial state. *)
Theorem bootstrap_coin `{ZkPrecompiles, Groth16Consts, ScriptBuilder, !ScriptBuilderOk, Blake2b, Kaspa, !KaspaOk} fuel i :
  3 <= fuel -> wf_pins (bi_pins i) ->
  exists b, Bootstrap_build fuel i = Some b /\
    view_out <$> tx_outputs (bs_transaction b) =
    [covenant_coin (bi_pins i) (bs_covenant_id b) (bi_value i) (bi_initial_state i) (bi_initial_lane_tip i)].
Proof.
  intros Hf Hp. unfold Bootstrap_build.
  rewrite (length_loop_fuel _ _ 3 (redeem_len (bi_pins i)) fuel (proj1 (redeem_len_found _ _ _ Hp)) Hf : redeem_script_len fuel _ _ = _).
  cbn [mbind option_bind]. eexists. split; [reflexivity|]. cbn [bs_transaction covenant_transaction tx_outputs fmap list_fmap bs_covenant_id].
  unfold view_out, covenant_coin. cbn [tx_value script_public_key covenant fmap option_fmap option_map binding_id]. by rewrite to_bytes_p2sh.
Qed.

(** ** Witnesses *)

(** A proof system whose proofs are what they prove. *)
Definition toy_zk : ZkPrecompiles := {|
  R0Succinct := Byte.x21;
  Groth16 := Byte.x20;
  r0_succinct _ _ _ journal seal _ _ _ := bool_decide (seal = journal);
  groth16 _ proof inputs := bool_decide (proof = concat inputs)
|}.
Definition toy_consts : Groth16Consts := {|
  GROTH16_VK_COMPRESSED := [Byte.x07];
  GROTH16_BN254_CONTROL_ID := vreplicate 32 Byte.x01;
  GROTH16_CONTROL_ROOT_A0 := vreplicate 32 Byte.x02;
  GROTH16_CONTROL_ROOT_A1 := vreplicate 32 Byte.x03;
  RECEIPT_CLAIM_TAG_DIGEST := vreplicate 32 Byte.x04;
  OUTPUT_TAG_DIGEST := vreplicate 32 Byte.x05;
  POST_DIGEST := vreplicate 32 Byte.x06
|}.
#[local] Existing Instances toy_zk toy_consts toy_builder toy_builder_ok demo_blake2b.

Lemma toy_tags : R0Succinct <> Groth16.
Proof. done. Qed.
#[local] Instance cov_engine : TxScriptEngine := toy_engine demo_sha.
#[local] Instance cov_engine_ok : TxScriptEngineOk demo_sha := toy_engine_ok demo_sha toy_tags.

#[local] Instance toy_kaspa : Kaspa := {|
  TX_VERSION_TOCCATA := 1;
  SUBNETWORK_ID_NATIVE := zeros 20;
  pay_to_script_hash_script redeem := permission_spk (blake2b_script_hash redeem);
  genesis_covenant_id o _ := transaction_id o
|}.
#[local] Instance toy_kaspa_ok : KaspaOk.
Proof. by constructor. Qed.

Definition cov_pins : RedeemPins := Succinct {|
  program_id := vreplicate 32 Byte.xbb; tx_image_id := vreplicate 32 Byte.xcc; batch_image_id := vreplicate 32 Byte.xdd;
  lane_key := vreplicate 32 Byte.xee; permission_output_value := DEFAULT_PERMISSION_OUTPUT_VALUE
|}.
Definition cov_prev : array 32 := vreplicate 32 Byte.x11.
Definition cov_prev_tip : array 32 := vreplicate 32 Byte.x22.
(** A new state with the byte 0x20 in it. *)
Definition cov_new : array 32 := Byte.x33 ::: Byte.x20 ::: vreplicate 30 Byte.x33.
Definition cov_new_tip : array 32 := vreplicate 32 Byte.x44.
Definition cov_block : array 32 := vreplicate 32 Byte.x55.
Definition cov_commit : array 32 := vreplicate 32 Byte.x77.
Definition cov_accessor : SeqCommitAccessor := fun b => if bool_decide (b = vec_to_list cov_block) then Some cov_commit else None.
Definition cov_permission : array 32 := vreplicate 32 Byte.x99.

Definition cov_witness : SuccinctWitness := {|
  seal := vec_to_list (demo_sha (StateTransition.encode
    (transition cov_pins cov_prev cov_prev_tip cov_new cov_new_tip cov_commit demo_covenant cov_permission (delegate_entry_spk_hash demo_covenant))));
  claim := vreplicate 32 Byte.x00; control_index := 3; control_digests := zeros 64;
  sw_deposit_spk_hash := delegate_entry_spk_hash demo_covenant
|}.
Definition cov_settlement_input : SettlementInput := {|
  si_covenant_id := demo_covenant; si_pins := cov_pins; si_prev_state := cov_prev; si_prev_lane_tip := cov_prev_tip;
  si_new_state := cov_new; si_new_lane_tip := cov_new_tip; si_block_prove_to := cov_block;
  si_prev_outpoint := {| transaction_id := vreplicate 32 Byte.x66; outpoint_index := 0 |}; si_value := 1000;
  si_witness := SuccinctW cov_witness; si_permission_spk_hash := cov_permission
|}.

Lemma cov_pins_valid : valid_pins cov_pins.
Proof. repeat split; vm_compute; first [reflexivity|discriminate]. Qed.

(** The pushes of the signature script, and the transaction as the engine sees it. *)
Definition cov_stack : list bytes :=
  [vec_to_list cov_block; vec_to_list cov_new; vec_to_list cov_new_tip; vec_to_list (sw_deposit_spk_hash cov_witness);
   seal cov_witness; control_digests cov_witness; vec_to_list (le_split 4 3); vec_to_list (claim cov_witness)].
Definition cov_redeem : bytes := covenant_script cov_pins cov_prev cov_prev_tip.
Definition cov_input : TxIn := {|
  in_amount := 1000; in_spk := p2sh_spk cov_redeem; in_covenant := Some demo_covenant; in_sig := (rev cov_stack ++ [cov_redeem]) ≫= add_data
|}.
Definition cov_tx : TxView := {|
  tv_index := 0; tv_inputs := [cov_input];
  tv_outputs := [covenant_coin cov_pins demo_covenant 1000 cov_new cov_new_tip;
                 {| to_amount := DEFAULT_PERMISSION_OUTPUT_VALUE; to_spk := wrap_spk (vec_to_list cov_permission); to_covenant := Some demo_covenant |}]
|}.
Lemma cov_view : wf_view cov_tx.
Proof. apply wf_view_lists; [| |done|done]; repeat constructor; by vm_compute. Qed.

Lemma cov_length : redeem_script_len 3 cov_prev cov_pins = Some (redeem_len cov_pins).
Proof. apply (redeem_len_found cov_prev Hash_default cov_pins), cov_pins_valid. Qed.

Lemma cov_sig : exists args, in_sig cov_input = args ++ cov_redeem.
Proof.
  destruct (add_data_long cov_redeem) as (head & Hhead); [apply Nat.ltb_lt; by vm_compute|]. exists ((rev cov_stack ≫= add_data) ++ head).
  cbn [cov_input in_sig]. by rewrite bind_app, bind_singleton, Hhead, app_assoc.
Qed.

Lemma settlement_script_exact_witness : run cov_accessor cov_tx cov_redeem ([], (cov_stack, [])) = true.
Proof.
  destruct cov_sig as [args Hsig]. unfold cov_redeem, covenant_script.
  rewrite (settlement_script_exact demo_sha cov_accessor cov_tx cov_input 3 cov_pins cov_prev cov_prev_tip (redeem_len cov_pins) args cov_stack
    cov_view eq_refl cov_pins_valid cov_length Hsig). vm_compute. reflexivity.
Defined.

Lemma redeem_length_found_witness :
  exists len dev_len, redeem_script_len 3 cov_prev cov_pins = Some len /\ dev_redeem_script_len 3 cov_prev cov_block 7 = Some dev_len.
Proof.
  destruct (redeem_length_found cov_pins cov_block 7 (proj1 cov_pins_valid) ltac:(lia)) as (len & dev_len & Hl & _).
  exists len, dev_len. apply Hl. lia.
Defined.

Lemma settled_state_unproven_witness :
  exists s t : array 32, vec_to_list s = replicate 30 Byte.x33 ++ [Byte.x44; Byte.x44] /\ s <> cov_new /\
    verify_input cov_accessor
      (respend cov_tx
        ((rev ([vec_to_list cov_block; take 34 (vec_to_list cov_new ++ vec_to_list cov_new_tip); drop 34 (vec_to_list cov_new ++ vec_to_list cov_new_tip)] ++
               drop 3 cov_stack) ++ [cov_redeem]) ≫= add_data)
        (p2sh_spk (covenant_script cov_pins s t))) = true.
Proof.
  destruct (settled_state_unproven demo_sha cov_accessor cov_tx cov_input cov_pins cov_prev cov_prev_tip (vec_to_list cov_block) cov_new cov_new_tip
    (vec_to_list (sw_deposit_spk_hash cov_witness)) (drop 4 cov_stack) 1) as (s & t & Hs & _ & Hv);
    [exact cov_view|reflexivity|exact cov_pins_valid|reflexivity|vm_compute; reflexivity|vm_compute; reflexivity|vm_compute; reflexivity|reflexivity|].
  exists s, t. split; [exact Hs|]. split; [|exact Hv]. intros ->. discriminate Hs.
Defined.

Definition cov_utxos : list UtxoEntry :=
  [{| utxo_amount := 1000; utxo_spk := pay_to_script_hash_script cov_redeem; utxo_covenant := Some demo_covenant |}].
Definition cov_transaction : KaspaTransaction :=
  covenant_transaction (si_prev_outpoint cov_settlement_input) (in_sig cov_input)
    (settlement_outputs 1000 DEFAULT_PERMISSION_OUTPUT_VALUE (covenant_script cov_pins cov_new cov_new_tip) demo_covenant cov_permission).

Lemma cov_built : Settlement_build 3 cov_settlement_input =
  Some (Ok {| transaction := cov_transaction; prev_redeem := cov_redeem; next_redeem := covenant_script cov_pins cov_new cov_new_tip |}).
Proof.
  unfold Settlement_build. cbn [si_prev_state si_pins cov_settlement_input]. rewrite cov_length. cbn [mbind option_bind]. reflexivity.
Qed.

Lemma settlement_build_exact_witness :
  (transaction <$> (Settlement_build 3 cov_settlement_input ≫= fun o => match o with Ok s => Some s | _ => None end)) = Some cov_transaction /\
  verify_input cov_accessor (tx_view cov_transaction cov_utxos 0) = true.
Proof.
  destruct (settlement_build_exact demo_sha cov_accessor 3 cov_settlement_input (le_n 3) cov_pins_valid eq_refl) as (s & Hb & Hv); [by vm_compute|].
  set (built := {| transaction := cov_transaction; prev_redeem := cov_redeem; next_redeem := covenant_script cov_pins cov_new cov_new_tip |}).
  assert (Settlement_build 3 cov_settlement_input = Some (Ok built)) as E by apply cov_built.
  rewrite E in Hb. destruct (_ <=? _)%Z in Hb; [|discriminate Hb]. injection Hb as <-. rewrite E.
  split; [reflexivity|]. rewrite (Hv cov_transaction cov_utxos cov_commit).
  - vm_compute. reflexivity.
  - split; [by exists []|]. split; [|done]. exists []. split; [by rewrite app_nil_r|constructor].
  - apply wf_view_lists; [| |done|done]; repeat constructor; by vm_compute.
  - reflexivity.
Defined.

Lemma settlements_linked_witness :
  exists sts, Forall2 (settled_by demo_sha cov_pins demo_covenant) [{| sp_accessor := cov_accessor; sp_view := cov_tx |}] sts /\
    transitions_linked cov_prev cov_prev_tip sts cov_new cov_new_tip.
Proof.
  apply (settlements_linked demo_sha cov_pins demo_covenant 1000 cov_prev cov_prev_tip [{| sp_accessor := cov_accessor; sp_view := cov_tx |}]
    (covenant_coin cov_pins demo_covenant 1000 cov_new cov_new_tip) cov_new cov_new_tip cov_pins_valid).
  eapply settlements_cons with (input := cov_input) (ds := rev cov_stack);
    [exact cov_view|reflexivity|done|reflexivity|vm_compute; reflexivity|apply rev_involutive| |reflexivity|constructor].
  rewrite (verify_settlement demo_sha cov_accessor cov_tx cov_input cov_pins cov_prev cov_prev_tip (rev cov_stack) cov_view eq_refl cov_pins_valid
    eq_refl eq_refl); [|by vm_compute]. rewrite rev_involutive. vm_compute. reflexivity.
Defined.
