(* ===== verification/CovBundle.v ===== *)
(** * CovBundle: what a settled covenant says of the state

    The covenant composed with the guests. When a proof of the pinned image means a run of the
    aggregator, a chain of settlements carries the covenant from the root of a state to the root of
    the state that the settled batches lead to. *)

From S2P Require Import Prelude Codec Types SmtNode SmtTrie SmtUpdate SmtTree SmtProof SmtSound SmtRoots SmtVerify.
From S2P Require Import SmtBuild AbiCore AbiTx L1Types AbiBatch AbiBatchProofs BatchTheorems AbiAggregator AggregateProofs BundleTheorems.
From S2P Require Import RtState ScriptEngine PermScript PermSem PermTheorems CovEngine CovScript CovSem CovSettle CovLength CovBuild CovInterp CovTheorems.

Lemma array_app_inj {n} (a a' : array n) (l l' : bytes) : vec_to_list a ++ l = vec_to_list a' ++ l' -> a = a' /\ l = l'.
Proof. intros Heq. apply app_inj_1 in Heq as [Ha Hl]; [|by rewrite !length_vec_to_list]. split; [by apply vec_to_list_inj2|done]. Qed.

(** The journal determines the transition. *)
Lemma transition_encode_inj st st' : StateTransition.encode st = StateTransition.encode st' -> st = st'.
Proof.
  unfold StateTransition.encode. destruct st, st'. cbn. intros Heq.
  repeat (apply array_app_inj in Heq as [-> Heq]). apply vec_to_list_inj2 in Heq as ->. done.
Qed.

Section bundle.
Context (sha256 : bytes -> array 32) `{TxScriptEngineOk sha256, !ScriptBuilderOk, Groth16Consts}.
Context `{CastText, SeqCommit, LaneSmt, Hasher} {A : Type} `{ExitAccumulator A}.
Context (verify_tx verify_batch : array 32 -> bytes -> bool) (acc : A) (pins : RedeemPins).

(** The proof systems' promise: what they accept for the pinned program is the hash of a journal
    that a run of the program committed. The program is the aggregator. *)
Definition proofs_sound : Prop :=
  forall journal_hash proof, proof_ok sha256 pins journal_hash proof = true ->
  exists input journal, Aggregator.batch_aggregator verify_batch input acc = Ok journal /\ vec_to_list (sha256 journal) = journal_hash.

(** A transition that a run of the aggregator proves: either that run's journal is another one with
    the same hash, or the transition goes from the root of the state its first batch starts from to
    the root of the state its last batch leaves, for batch journals of the batch guest. *)
Definition executed (st : StateTransition.t) : Prop :=
  exists input journal,
    Aggregator.batch_aggregator verify_batch input acc = Ok journal /\ sha256 journal = sha256 (StateTransition.encode st) /\
    (journal = StateTransition.encode st ->
     forall i r runs, AggregatorInputs.decode input = Ok i ->
       Forall2 (run_journal verify_tx) (journals (AggregatorInputs.batch_journals i)) (r :: runs) -> separated verify_tx (r :: runs) ->
       exists m' exs, bundle_settles verify_tx (br_state r) (r :: runs) exs m' /\
         StateTransition.prev_state st = root_of (br_state r) /\ StateTransition.new_state st = root_of m').

Lemma settled_executed id sp st : proofs_sound -> settled_by sha256 pins id sp st -> executed st.
Proof using Type*.
  intros Hsound (_ & _ & _ & _ & _ & _ & _ & proof & Hproof). destruct (Hsound _ _ Hproof) as (input & journal & Ha & Hh).
  exists input, journal. split; [done|]. split; [by apply vec_to_list_inj2|]. intros -> i r runs Hi Hr Hs.
  destruct (bundle_settled verify_tx verify_batch input i acc _ r runs Ha Hi Hr Hs) as (m' & exs & ess & st' & Hset & _ & Hj & Hp & Hn & _).
  apply transition_encode_inj in Hj as <-. by exists m', exs.
Qed.
End bundle.

(** C5: end to end. If the proof systems only accept what a run of the aggregator committed, then
    accepted settlements with states and lane tips of 32 bytes take a covenant output from one state
    to another through transitions that continue one another and that each come from such a run. If
    that run's journal is the transition's and not one with the same hash, if its batch journals are
    outputs of the batch guest on inputs with sound state proofs, and if the hash tells the state each
    batch leaves from the one the next starts in, then its first batch starts in a state with the root the transition starts from,
    its batches settle one after the other, and the state they leave has the root the transition
    ends with. *)
Theorem settlements_execute (sha256 : bytes -> array 32) `{TxScriptEngineOk sha256, !ScriptBuilderOk, Groth16Consts}
    `{CastText, SeqCommit, LaneSmt, Hasher} {A : Type} `{ExitAccumulator A} verify_tx verify_batch (acc : A)
    pins id amount s t sps coin s' t' :
  valid_pins pins -> proofs_sound sha256 verify_batch acc pins ->
  settlements pins (covenant_coin pins id amount s t) s t sps coin s' t' ->
  exists sts, length sts = length sps /\ transitions_linked s t sts s' t' /\ Forall (executed sha256 verify_tx verify_batch acc) sts.
Proof.
  intros Hp Hsound Hc. destruct (settlements_chain sha256 pins id amount s t sps coin s' t' Hp Hc) as (_ & sts & Hsts & Hlink).
  exists sts. split; [by apply Forall2_length in Hsts|]. split; [done|].
  eapply Forall2_Forall_r; [exact Hsts|]. apply Forall_true. intros sp st Hset. by eapply settled_executed.
Qed.

(** ** Witness

    The bundle of [BundleTheorems], settled on the engine of [CovInterp]. *)

Fixpoint take_array (n : nat) (l : bytes) : array n :=
  match n with O => [#] | S n => hd Byte.x00 l ::: take_array n (tl l) end.
Definition bundle_field (k : nat) : array 32 := Eval vm_compute in take_array 32 (drop (32 * k) bundle_journal).

(** A proof system that accepts the one journal. *)
#[local] Instance bundle_zk : ZkPrecompiles := {|
  R0Succinct := Byte.x21;
  Groth16 := Byte.x20;
  r0_succinct _ _ _ journal _ _ _ _ := bool_decide (journal = vec_to_list (demo_sha bundle_journal));
  groth16 _ _ _ := false
|}.
#[local] Existing Instances toy_consts toy_builder toy_builder_ok demo_blake2b.
Lemma bundle_tags : R0Succinct <> Groth16.
Proof. done. Qed.
#[local] Instance bundle_engine : TxScriptEngine := toy_engine demo_sha.
#[local] Instance bundle_engine_ok : TxScriptEngineOk demo_sha := toy_engine_ok demo_sha bundle_tags.

Definition bundle_pins : RedeemPins := Succinct {|
  program_id := vreplicate 32 Byte.xbb; tx_image_id := bundle_field 6; batch_image_id := bundle_field 7; lane_key := bundle_field 10;
  permission_output_value := DEFAULT_PERMISSION_OUTPUT_VALUE
|}.
Lemma bundle_pins_valid : valid_pins bundle_pins.
Proof. repeat split; vm_compute; first [reflexivity|discriminate]. Qed.

Definition bundle_stack : list bytes :=
  [zeros 32; vec_to_list (bundle_field 2); vec_to_list (bundle_field 3); zeros 32; [Byte.x01]; [Byte.x02]; [Byte.x03]; [Byte.x04]].
Definition bundle_redeem : bytes := covenant_script bundle_pins (bundle_field 0) (bundle_field 1).
Definition bundle_txin : TxIn := {|
  in_amount := 1000; in_spk := p2sh_spk bundle_redeem; in_covenant := Some (bundle_field 5);
  in_sig := (rev bundle_stack ++ [bundle_redeem]) ≫= add_data
|}.
Definition bundle_tx : TxView := {|
  tv_index := 0; tv_inputs := [bundle_txin];
  tv_outputs := [covenant_coin bundle_pins (bundle_field 5) 1000 (bundle_field 2) (bundle_field 3);
                 {| to_amount := DEFAULT_PERMISSION_OUTPUT_VALUE; to_spk := wrap_spk (vec_to_list (bundle_field 8)); to_covenant := Some (bundle_field 5) |}]
|}.
Definition bundle_spend : spend := {| sp_accessor := fun _ => Some (bundle_field 4); sp_view := bundle_tx |}.

Lemma bundle_view : wf_view bundle_tx.
Proof. apply wf_view_lists; [| |done|done]; repeat constructor; by vm_compute. Qed.

Lemma bundle_proofs_sound : @proofs_sound demo_sha _ _ [] toy_seq toy_lane_smt Z toy_exits (fun _ _ => true) 0%Z bundle_pins.
Proof.
  intros h [|a [|b [|c [|d [|]]]]]; try done. intros Hh%bool_decide_eq_true. exists bundle_input, bundle_journal. split; [exact bundle_accepted|done].
Qed.

Lemma settlements_execute_witness :
  exists st,
    transitions_linked (bundle_field 0) (bundle_field 1) [st] (bundle_field 2) (bundle_field 3) /\
    @executed demo_sha [] toy_seq toy_lane_smt toy_hasher Z toy_exits demo_verify (fun _ _ => true) 0%Z st.
Proof.
  destruct (@settlements_execute demo_sha _ _ _ _ _ _ _ [] toy_seq toy_lane_smt toy_hasher Z toy_exits demo_verify (fun _ _ => true) 0%Z
    bundle_pins (bundle_field 5) 1000 (bundle_field 0) (bundle_field 1) [bundle_spend]
    (covenant_coin bundle_pins (bundle_field 5) 1000 (bundle_field 2) (bundle_field 3)) (bundle_field 2) (bundle_field 3)
    bundle_pins_valid bundle_proofs_sound) as (sts & Hlen & Hlink & Hex).
  - eapply settlements_cons with (input := bundle_txin) (ds := rev bundle_stack);
      [exact bundle_view|reflexivity|done|reflexivity|vm_compute; reflexivity|apply rev_involutive| |reflexivity|constructor].
    rewrite (verify_settlement demo_sha _ bundle_tx bundle_txin bundle_pins (bundle_field 0) (bundle_field 1) (rev bundle_stack) bundle_view eq_refl
      bundle_pins_valid eq_refl eq_refl); [|by vm_compute]. rewrite rev_involutive. vm_compute. reflexivity.
  - destruct sts as [|st [|]]; try discriminate Hlen. exists st. split; [exact Hlink|]. by apply Forall_cons in Hex as [Hex _].
Defined.
